(* ===== verification/_CoqProject ===== *)
-Q . S2P
Prelude.v
Decimal.v
Handle.v
ExpiryHeap.v
Shard.v
ShardOps.v
Queue.v
InFlight.v
Delivery.v
Keys.v
Json.v
JsonNum.v
Meta.v
Versions.v
FsmTopics.v
FsmCluster.v
FsmRemotes.v
Fsm.v
FanInv.v
SchemaInv.v
MetaInv.v
Announce.v
History.v
Replication.v
MetaClaims.v
Users.v
Plan.v
PlanClaims.v
Store.v
Placement.v
Controller.v
Decommission.v
Heartbeats.v
Sweep.v
Rebalance.v
ControllerDemo.v
Octets.v
NodeWire.v
NodeRoundTrip.v
NodeServe.v
ClusterStream.v
StreamClient.v
StreamInv.v
StreamServer.v
StreamClaims.v
WalFrame.v
WalScan.v
Wal.v
WalRun.v
WalInv.v
WalCrash.v
WalReplay.v
WalClaims.v
WalFaults.v
PartFrame.v
PartCache.v
PartLog.v
PartFlush.v
PartBytes.v
PartWalk.v
PartLookup.v
PartRun.v
PartInv.v
PartSteps.v
PartOps.v
PartReopen.v
PartClaims.v
PartFaults.v
SchemaValue.v
SchemaCompat.v
SchemaSpec.v
SchemaEqual.v
SchemaLockstep.v
SchemaKeywords.v
SchemaSound.v
SchemaCheck.v
SchemaClaims.v
