(* ===== verification/Prelude.v ===== *)
(** * Narad: a verification development

    Narad is a message broker.  Topics are split into partitions, each owned
    by one node; consumers lease messages and acknowledge them; nodes keep
    the cluster's metadata in a Raft-replicated state machine, accept
    produce into a write-ahead log and commit it to the logs of partitions,
    and a controller on the Raft leader places, moves and drains partitions.
    Nodes talk over multiplexed streams, and a registry keeps the schemas of
    topics compatible.  This library models seven of these parts, each as
    executable definitions translated from the Go sources under [src/], and
    proves what each promises the others.

    ** The parts and how they meet

    - The _in-flight tracker_ ([internal/consumer]) decides which offset a
      consumer gets next and when a partition's frontier may move.
    - The _metastore_ ([internal/persistence/metastore]) is the replicated
      state machine for topics, fan-out links, schemas, assignments,
      members, users and remotes.
    - The _controller_ ([internal/cluster/controller]) runs on the leader:
      its passes read the metastore and propose commands to it while other
      clients do the same.
    - The _write-ahead log_ ([internal/persistence/wal]) holds produced
      records until they are handed to their owners.
    - The _partition log_ ([internal/persistence/storage]) is where the
      owner of a partition keeps its records: a batch from the write-ahead
      log is appended and committed there, and consumers read it.
    - The _node protocol_ ([internal/protocol/node],
      [internal/protocol/clusterwire], the stream client and server of
      [internal/platform/clusterrpc]) carries every request between nodes.
    - The _schema compatibility check_
      ([internal/platform/schema/compatibility.go]) decides which new
      version of a topic's schema may be registered.

    ** Files

    Shared: [Prelude] (machine integers, the [result] monad, list and map
    lemmas), [Decimal] (Go's decimal text), [Octets] (bytes, big-endian
    fields, CRC-32, SHA-256 and HMAC).

    In-flight tracker.  [Handle]: receipt handles ([handle.go]).
    [ExpiryHeap]: the typed binary heap.  [Shard]: one partition's state and
    operations ([shard.go], [reserve.go], [extend.go]).  [ShardOps]: the
    representation invariant and what each operation does.  [Queue]: the
    abstract lease queue a shard refines.  [InFlight]: the tracker with its
    shards, callbacks and purger ([inflight.go], [purger.go],
    [caps_follow.go]).  [Delivery]: runs of the tracker and the delivery
    contract.

    Metastore.  [Keys], [Json], [JsonNum], [Meta], [Versions]: composite
    keys, JSON values as schemas compare them, records and buckets, domain
    versions ([domain_versions.go]).  [FsmTopics], [FsmCluster],
    [FsmRemotes]: one definition per handler ([fsm_apply*.go],
    [fsm_schema*.go], [remotes.go]).  [Fsm]: the command type, dispatch,
    transactions, fail-stop and reopening ([command.go], [fsm.go],
    [fsm_failstop.go], [fsm_applied.go]).  [FanInv], [SchemaInv], [MetaInv]:
    the metadata invariant.  [Announce]: every handler announces what it
    changed.  [History]: what a command can change.  [Replication]: runs of
    replicas with restarts and failing disks.  [MetaClaims]: the promises
    and a run they are instantiated on.  [Users]: grants, patterns
    and delegation ([internal/domain/user]).

    Controller.  [Plan]: the rebalance planner ([plan.go]) and its cost
    function; [PlanClaims]: what it achieves.
    [Store]: the store's calls as a client on the leader makes them, with a
    program type whose every call may fail, may commit what it proposed all
    the same, and may find commands of others committed before it ([assignments.go], [members.go], [topics.go],
    [lifecycle.go]), and triples for such programs.  [Placement]:
    who takes a new partition ([assignments.go]).  [Controller]: the passes
    ([reconcile.go], [orphans.go], [heartbeat.go], [breaker.go], [term.go],
    [rebalance.go], [decommission.go], [decommission_status.go]).
    [Decommission], [Heartbeats], [Sweep], [Rebalance]: one pass each;
    [ControllerDemo]: a cluster they are instantiated on.

    Write-ahead log.  [WalFrame], [WalScan]: framing, the recovery scan and
    the replay loops ([frame.go], [recovery.go], [replay.go], [record.go]).
    [Wal]: the log's state and operations on a file system in which each
    write, sync, create and remove may fail ([wal.go], [append.go],
    [sync.go], [prealloc.go], [compact.go], [segment.go], [options.go]).
    [WalRun]: runs, one step per critical section, so that appends, group
    commits, rolls, segment preparation and compactions interleave.
    [WalInv], [WalCrash], [WalReplay]: the invariant, crashes
    that keep or lose each unsynced byte, replay.  [WalClaims]: the
    promises; [WalFaults]: a compaction that overlooks a roll, and a roll
    that leaves its file behind.

    Partition log.  [PartFrame]: frames and the searches of recovery
    ([format.go], [frame.go], [codec.go], [recovery.go]).  [PartCache]: the
    two bounded caches ([nav_cache.go], [decode_cache.go]).  [PartLog]: the
    state of a log, its files with the fate of every byte, buffer, flushing
    snapshot, indexes, reads and recovery ([append.go], [buffer.go],
    [flushing.go], [index.go], [log.go], [read.go], [recovery.go],
    [segment.go]).  [PartFlush]: syncs, rolls, writes, the discard of a
    failed commit, the high-watermark file, the passes of the flusher,
    retention, open and close ([flusher.go], [discard.go], [hwm.go],
    [offsets.go], [retention.go], [close.go]).  [PartBytes]: round trips of
    frames and the reach of the searches.  [PartWalk]: a segment
    file as a chain of frames, damaged frames and gaps, and the walks over
    it.  [PartLookup]: indexes and caches only ever name frames of the
    chain, and a lookup finds the frame of an offset.  [PartRun]: runs, with
    stops and reopening.  [PartInv]: the invariant; [PartSteps], [PartOps],
    [PartReopen]: it holds throughout.  [PartClaims]: the promises and a
    run; [PartFaults]: a failed commit that wedges its log and a recovery
    that reads the inside of a torn record.

    Node protocol.  [NodeWire]: every codec of the node protocol, the 36
    operations and the dispatch of the server ([wire.go], [types.go],
    [produce.go], [consume.go], [move.go] and the rest); [NodeRoundTrip],
    [NodeServe]: a small logic of writers and readers, one round trip per
    request and the dispatch as a whole.  [ClusterStream]:
    frames and their staged writes ([stream.go]).  [StreamClient]: the
    multiplexed client as a step relation, one step per critical section
    ([stream_client.go]); [StreamInv]: its invariant.  [StreamServer]: the
    serving side, request contexts and the authentication of a stream
    ([stream_server.go], [auth.go]).  [StreamClaims]: their promises and
    runs they are instantiated on.

    Schema compatibility.  [SchemaValue]: exact and [float64] readings of
    number literals, value equality, the canonical rendering.
    [SchemaCompat]: the check itself, with its memo tables as state.
    [SchemaSpec]: what a schema accepts, as an executable evaluator of JSON
    Schema that the check is judged by.  [SchemaEqual], [SchemaLockstep]:
    keywords that must stay identical, as a bisimulation of two documents.
    [SchemaKeywords]: one lemma per keyword that judges a value.
    [SchemaSound]: one node; [SchemaCheck]: references, memoisation and the
    coinductive assumptions; [SchemaClaims]: the promises and an update
    that breaks them.

    ** What the theorems show

    - Delivery: at-least-once over any run; leases are exclusive; the head
      of the line is always deliverable; wake-ups are announced; memory is
      bounded; the persisted record of settled offsets recovers the shard;
      a shard simulates the abstract queue.
    - Metadata: the invariant holds in every reachable database; replicas
      never diverge and replay converges; caching by version is sound;
      deletion is complete; stale conditional entries are refused;
      credentials stay bound to their endpoint; owners change only by
      announced moves; delegation never escalates.
    - Controller: the plan is minimal and carrying it out terminates in
      balance; a rebalance pass stays within its budget, but for calls that
      fail and commit all the same, and targets only live, non-draining
      members; a sweep leaves no partition without an owner; a decommissioned
      node has no partition of an existing topic left, and its removal
      keeps a live majority and no undispatched record; marking members
      dead keeps a quorum.
    - Log: as long as a failed roll removes the file it created,
      acknowledged records survive every crash, replay returns exactly the
      records held, and a log opens after every crash; the outcome of a
      batched append, failures included.  A roll that overtakes a
      compaction keeps the segment it sealed from being deleted until the
      next roll, and a closed example shows what a file left by a failed
      roll hides.
    - Partition log: a record whose commit was acknowledged stays readable
      below the high-watermark through every failure and stop, until
      retention deletes it; an appended record is readable at once; a commit
      on a working disk succeeds; a log opens after every stop; frames read
      back, and the streaming check accepts exactly what a read accepts.
      A commit that fails after filling an empty segment wedges its log
      until it is opened again, and recovery takes a frame inside a torn
      record for one of its own.
    - Node protocol: a request its encoder accepts is served as that
      request; a peer reads exactly the frames that lie whole in what it
      received, in every interleaving and cut of the stream; of a request
      that failed as not sent no byte is ever on the stream; every waiter is
      answered once, with its own reply; a stream is served exactly when its
      first frame is the MAC of the session under the cluster secret, and
      is answered with the server's.
    - Schemas: an update the check accepts keeps every document the previous
      version accepted, but for names the open-model exception let through;
      an identical keyword gives identical verdicts; the enum index is
      exact.  A closed example shows an update that tightens and passes.

    ** Modelling choices, bounds and fuel

    A 64-bit integer is a [Z] with [i64] or [u64] applied where the source
    may wrap.  Go maps are [gmap]s and slices are lists; a map iterated in
    an unspecified order is only iterated where the order cannot matter or
    is sorted first.  Operations under one lock are one step; goroutines are
    the order of the steps.  Loops that are not structural carry fuel: the
    heap and purge loops take the length of the heap, the frontier loop the
    number of resolved offsets, the scans of the logs the length of the file,
    [blank] the length of its string, and lemmas show that this is enough.
    The schema check recurses on the nesting it may still descend, which is
    the code's own limit; the evaluator of the specification counts
    subschema applications and a document is accepted when some number of
    them suffices.  The evaluator speaks for documents that are one
    resource, with no identifier below the root, and that name a draft the
    way the code spells it ([validates] in [SchemaSpec]).
    Time is an argument of the operations that read the clock.

    A byte of a partition's file is on the device, in the page cache, or
    dropped by a failed sync.  A stop keeps the first, may keep or change
    the others, and leaves a file that reads as whole frames, frames that
    fail their checksum and stretches without a header: what a torn write
    leaves must not contain a whole frame of its own ([settled] in
    [PartRun]), and [recovery_reads_payload] shows what happens otherwise.
    Two outcomes of a system call are left out of the runs ([op_ok] of
    [PartRun], and of [WalRun] for the first): a roll whose directory sync
    and clean-up both fail, and a write of the 8-byte high-watermark file
    that stops in between, which the code takes for impossible within a
    sector.  A commit waits in [n_waiting] until the flusher receives it,
    and a closed log refuses it.

    The version counters of [Versions] are unbounded: a [uint64] that is
    incremented once per committed entry does not wrap.  In the stream
    client the removal of a waiter and the send of its answer are one step:
    the waiter's channel holds one answer and only the goroutine that
    removed the waiter sends on it.

    Parameters stand for what is outside the repository: the random draws of
    lease nonces, [unicode.IsPrint] and the digest of a PEM bundle ([lib]),
    the answer of a node asked for its status, the zstd codec, whose decoder
    inverts its encoder ([codec_ok]), and the regular expressions,
    formats and JSON decoder of the schema library.  bbolt is a set of finite maps whose commit may fail;
    hashicorp/raft is the order of the committed commands, the success of a
    call, and the voters and leader a call reports.

    ** What is not modelled

    The files beside a partition's log (consumer offsets, fan-out cursors,
    incarnation markers) and the copying of segments to another node, the
    broker's request paths, the responses' handling in the cluster's callers, remote shipping, HTTP
    handlers, the compilation and validation of schemas, configuration, TLS
    and process start-up; of the modelled parts: logging, error texts
    and metrics, the timers that start passes and purges, the wait for
    joining voters, snapshots and the files a database lives in, and the
    file system failures inside opening a log. *)

From stdpp Require Export base tactics option list numbers gmap fin_maps fin_sets strings sorting.
From Stdlib Require Export ZArith Lia.

Declare Scope narad_scope.
Delimit Scope narad_scope with narad.
#[global] Open Scope Z_scope.
#[global] Arguments Nat.div : simpl never.
#[global] Arguments Nat.modulo : simpl never.

Create HintDb narad.

(** ** Machine integers *)

Definition two63 : Z := 2 ^ 63.
Definition two64 : Z := 2 ^ 64.

Definition max_int64 : Z := two63 - 1.

(** Two's complement wrap-around of a 64-bit signed result. *)
Definition i64 (x : Z) : Z := (x + two63) mod two64 - two63.

(** Wrap-around of a 64-bit unsigned result. *)
Definition u64 (x : Z) : Z := x mod two64.

Definition in_i64 (x : Z) : Prop := - two63 <= x < two63.

#[global] Instance in_i64_dec x : Decision (in_i64 x).
Proof. unfold in_i64. apply _. Defined.

Lemma i64_id x : in_i64 x → i64 x = x.
Proof.
  unfold in_i64, i64, two63, two64. intros H.
  rewrite Z.mod_small; lia.
Qed.

Lemma i64_in x : in_i64 (i64 x).
Proof.
  unfold in_i64, i64, two63, two64.
  pose proof (Z.mod_pos_bound (x + 2 ^ 63) (2 ^ 64)). lia.
Qed.

Lemma u64_range x : 0 <= u64 x < two64.
Proof. apply Z.mod_pos_bound. unfold two64. lia. Qed.

(** [i64_norm] removes the wraps the context shows to be harmless. *)
Ltac i64_norm :=
  repeat match goal with
  | |- context [i64 ?x] => rewrite (i64_id x) by (unfold in_i64, two63, max_int64 in *; lia)
  | H : context [i64 ?x] |- _ =>
      rewrite (i64_id x) in H by (unfold in_i64, two63, max_int64 in *; lia)
  end.

(** ** Results *)

(** A call that returns a value or an error. *)
Inductive result (E A : Type) : Type :=
| Ok (a : A)
| Err (e : E).
Arguments Ok {E A} a.
Arguments Err {E A} e.

Definition is_ok {E A} (r : result E A) : bool :=
  match r with Ok _ => true | Err _ => false end.

Definition rbind {E A B} (r : result E A) (f : A → result E B) : result E B :=
  match r with Ok a => f a | Err e => Err e end.

Notation "'let!' x ':=' c 'in' k" := (rbind c (λ x, k))
  (at level 200, x pattern, c at level 100, k at level 200, right associativity) : narad_scope.
#[global] Open Scope narad_scope.

Lemma rbind_ok {E A B} (r : result E A) (f : A → result E B) b :
  rbind r f = Ok b ↔ ∃ a, r = Ok a ∧ f a = Ok b.
Proof. destruct r; naive_solver. Qed.
