(* ===== verification/Decimal.v ===== *)
(** * Decimal text

    The standard library's decimal conversions the program relies on:
    [strconv.AppendInt] / [fmt]'s [%d] for printing and [strconv.Atoi] /
    [strconv.ParseInt] for reading, over strings as lists of bytes.  They
    are used by receipt handles ([Handle.v]) and by the metastore's
    composite keys ([Keys.v]). *)

From S2P Require Import Prelude.
From Stdlib Require Export Ascii.
#[global] Open Scope char_scope.
#[global] Open Scope Z_scope.

Module Dec.

#[local] Arguments Z.mul : simpl never.
#[local] Arguments Z.add : simpl never.

Definition digit (d : Z) : ascii := ascii_of_nat (48 + Z.to_nat d).

Definition digit_val (c : ascii) : Z := Z.of_nat (nat_of_ascii c) - 48.

(** [s[i] < '0' || s[i] > '9'] is false. *)
Definition is_digit (c : ascii) : bool :=
  (48 <=? nat_of_ascii c)%nat && (nat_of_ascii c <=? 57)%nat.

(** Digits of a non-negative number, most significant first, in front of
    [acc]. *)
Fixpoint fmt_digits (fuel : nat) (n : Z) (acc : list ascii) : list ascii :=
  match fuel with
  | O => acc
  | S fuel =>
      if n <? 10 then digit n :: acc
      else fmt_digits fuel (n / 10) (digit (n mod 10) :: acc)
  end.

(** Twenty digits hold every 64-bit value. *)
Definition fmt_int (n : Z) : list ascii :=
  if n <? 0 then "-"%char :: fmt_digits 20 (- n) [] else fmt_digits 20 n [].

Definition parse_digits (s : list ascii) : Z :=
  foldl (λ a c, a * 10 + digit_val c) 0 s.

(** [strconv.ParseInt(s, 10, 64)] on a string of digits: [None] is
    [ErrSyntax] (empty) or [ErrRange]. *)
Definition parse_int (s : list ascii) : option Z :=
  match s with
  | [] => None
  | _ => if parse_digits s <=? max_int64 then Some (parse_digits s) else None
  end.

(** ** Lemmas *)

Lemma digit_spec d : 0 <= d < 10 → is_digit (digit d) = true ∧ digit_val (digit d) = d.
Proof.
  intros H. unfold is_digit, digit_val, digit.
  rewrite nat_ascii_embedding by lia. split; [|lia].
  apply andb_true_iff. rewrite !Nat.leb_le. lia.
Qed.

Lemma digit_val_range c : is_digit c = true → 0 <= digit_val c < 10.
Proof.
  unfold is_digit, digit_val. intros [?%Nat.leb_le ?%Nat.leb_le]%andb_true_iff. lia.
Qed.

Lemma fmt_digits_spec fuel n acc :
  0 <= n < 10 ^ Z.of_nat fuel → (0 < fuel)%nat →
  ∃ ds, fmt_digits fuel n acc = ds ++ acc ∧ ds ≠ [] ∧ forallb is_digit ds = true
        ∧ parse_digits ds = n.
Proof.
  revert n acc; induction fuel as [|fuel IH]; intros n acc Hn Hf; [lia|]. cbn [fmt_digits].
  destruct (Z.ltb_spec n 10) as [Hlt|Hge].
  - exists [digit n]. destruct (digit_spec n) as [Hd Hv]; [lia|].
    unfold parse_digits. cbn [foldl forallb]. rewrite Hd, Hv. by repeat split; try lia.
  - rewrite Nat2Z.inj_succ, Z.pow_succ_r in Hn by lia.
    assert (0 <= n / 10 < 10 ^ Z.of_nat fuel).
    { split; [apply Z.div_pos; lia|]. apply Z.div_lt_upper_bound; lia. }
    assert (0 < fuel)%nat.
    { destruct fuel; [|lia]. pose proof (Z.div_le_lower_bound n 10 1). cbn in Hn. lia. }
    destruct (IH (n / 10) (digit (n mod 10) :: acc)) as (ds & Heq & Hne & Hdig & Hval); [done..|].
    exists (ds ++ [digit (n mod 10)]).
    destruct (digit_spec (n mod 10)) as [Hd Hv]; [apply Z.mod_pos_bound; lia|].
    rewrite Heq, <-app_assoc. split; [done|]. split; [by destruct ds|].
    rewrite forallb_app. cbn [forallb]. rewrite Hdig, Hd. split; [done|].
    unfold parse_digits in *. rewrite foldl_app. cbn [foldl]. rewrite Hval, Hv.
    pose proof (Z.div_mod n 10). lia.
Qed.

Lemma fmt_int_nonneg n :
  0 <= n < 10 ^ 20 →
  fmt_int n ≠ [] ∧ forallb is_digit (fmt_int n) = true ∧ parse_digits (fmt_int n) = n.
Proof.
  intros Hn. unfold fmt_int. destruct (Z.ltb_spec n 0); [lia|].
  destruct (fmt_digits_spec 20 n []) as (ds & -> & ?); [done|lia|].
  by rewrite app_nil_r.
Qed.

Lemma parse_fmt_int n : 0 <= n <= max_int64 → parse_int (fmt_int n) = Some n.
Proof.
  intros Hn. unfold max_int64, two63 in Hn.
  destruct (fmt_int_nonneg n) as (Hne & _ & Hv); [lia|].
  unfold parse_int. destruct (fmt_int n); [done|]. rewrite Hv.
  unfold max_int64, two63. by destruct (Z.leb_spec n (2 ^ 63 - 1)); [|lia].
Qed.

(** Printing is injective on the non-negative numbers it can hold. *)
Lemma fmt_int_inj n m :
  0 <= n < 10 ^ 20 → 0 <= m < 10 ^ 20 → fmt_int n = fmt_int m → n = m.
Proof.
  intros (_ & _ & Hn)%fmt_int_nonneg (_ & _ & Hm)%fmt_int_nonneg Heq. congruence.
Qed.

Lemma digits_not_in s d : forallb is_digit s = true → is_digit d = false → d ∉ s.
Proof. intros Hs Hd Hin%list_elem_of_In. rewrite forallb_forall in Hs. apply Hs in Hin. congruence. Qed.

Lemma parse_digits_nonneg s : forallb is_digit s = true → 0 <= parse_digits s.
Proof.
  unfold parse_digits. enough (∀ a, 0 <= a → forallb is_digit s = true →
    0 <= foldl (λ a c, a * 10 + digit_val c) a s) as H by (apply H; lia).
  induction s as [|c s IH]; intros a Ha Hd; [done|]. cbn [foldl forallb] in *.
  apply andb_true_iff in Hd as [Hc Hd]. apply digit_val_range in Hc. apply IH; [lia|done].
Qed.

End Dec.
