(* ===== verification/Handle.v ===== *)
(** * Receipt handles

    [internal/consumer/handle.go]: the text form [partition:offset:nonce]
    of a receipt handle.  [DecodeHandle] is modelled byte for byte (the
    colon scan with its two indices, the guards, the digit check, the
    three integer parses and [ValidateHandle]).  The theorems give the
    round trip and the exact language the decoder accepts. *)

From S2P Require Import Prelude Decimal.

Module Handles.

Record Handle := MkHandle { Partition : Z; Offset : Z; Nonce : Z }.

#[global] Instance Handle_eq_dec : EqDecision Handle.
Proof. solve_decision. Defined.

Inductive handle_error := ErrHandleMalformed.

Definition colon : ascii := ":"%char.

Definition EncodeHandle (h : Handle) : list ascii :=
  Dec.fmt_int (Partition h) ++ [colon] ++ Dec.fmt_int (Offset h) ++ [colon]
  ++ Dec.fmt_int (Nonce h).

Definition asciiDigits (s : list ascii) : bool := forallb Dec.is_digit s.

Definition ValidateHandle (h : Handle) : result handle_error unit :=
  if (Partition h <? 0) || (Offset h <? 0) || (Nonce h <=? 0)
  then Err ErrHandleMalformed else Ok tt.

(** The scan [for i := 0; i < len(s); i++]: the indices of the first and
    second colon ([-1] while not seen), or [None] on a third one. *)
Fixpoint scan_colons (s : list ascii) (i first second : Z) : option (Z * Z) :=
  match s with
  | [] => Some (first, second)
  | c :: s =>
      if negb (Ascii.eqb c colon) then scan_colons s (i + 1) first second
      else if first <? 0 then scan_colons s (i + 1) i second
      else if second <? 0 then scan_colons s (i + 1) first i
      else None
  end.

(** [s[a:b]] *)
Definition slice (s : list ascii) (a b : Z) : list ascii :=
  take (Z.to_nat (b - a)) (drop (Z.to_nat a) s).

Definition parse_or_malformed (s : list ascii) : result handle_error Z :=
  match Dec.parse_int s with Some v => Ok v | None => Err ErrHandleMalformed end.

Definition DecodeHandle (s : list ascii) : result handle_error Handle :=
  let len := Z.of_nat (length s) in
  match scan_colons s 0 (-1) (-1) with
  | None => Err ErrHandleMalformed
  | Some (first, second) =>
      if (first <=? 0) || (second <=? first + 1) || (second =? len - 1)
      then Err ErrHandleMalformed else
      let partitionText := slice s 0 first in
      let offsetText := slice s (first + 1) second in
      let nonceText := slice s (second + 1) len in
      if negb (asciiDigits partitionText) || negb (asciiDigits offsetText)
         || negb (asciiDigits nonceText)
      then Err ErrHandleMalformed else
      let! partition := parse_or_malformed partitionText in
      let! offset := parse_or_malformed offsetText in
      let! nonce := parse_or_malformed nonceText in
      let h := MkHandle partition offset nonce in
      let! _ := ValidateHandle h in
      Ok h
  end.

(** ** Specification *)

Definition handle_ok (h : Handle) : Prop :=
  0 <= Partition h <= max_int64 ∧ 0 <= Offset h <= max_int64 ∧ 0 < Nonce h <= max_int64.

(** [s] is a non-empty digit string of value [v], within [int64]. *)
Definition digits_of (s : list ascii) (v : Z) : Prop :=
  s ≠ [] ∧ asciiDigits s = true ∧ Dec.parse_digits s = v ∧ v <= max_int64.

(** ** Lemmas *)

Definition no_colon (s : list ascii) : Prop := Forall (λ c, c ≠ colon) s.

Lemma digits_no_colon s : asciiDigits s = true → no_colon s.
Proof.
  induction s as [|c s IH]; simpl; intros H; constructor.
  - intros ->. by apply andb_true_iff in H as [? _].
  - apply IH. by apply andb_true_iff in H as [_ ?].
Qed.

Lemma scan_no_colon p r i first second :
  no_colon p →
  scan_colons (p ++ r) i first second = scan_colons r (i + Z.of_nat (length p)) first second.
Proof.
  intros Hp. revert i. induction Hp as [|c p Hc Hp IH]; intros i; simpl.
  - by rewrite Z.add_0_r.
  - destruct (Ascii.eqb_spec c colon); [done|]. simpl. rewrite IH. f_equal. lia.
Qed.

Lemma scan_colon r i first second :
  scan_colons (colon :: r) i first second =
    if first <? 0 then scan_colons r (i + 1) i second
    else if second <? 0 then scan_colons r (i + 1) first i else None.
Proof. reflexivity. Qed.

Lemma colon_split s : no_colon s ∨ ∃ p r, s = p ++ colon :: r ∧ no_colon p.
Proof.
  induction s as [|c s [IH|(p & r & -> & Hp)]].
  - left. constructor.
  - destruct (decide (c = colon)) as [->|].
    + right. exists [], s. split; [done|constructor].
    + left. by constructor.
  - right. destruct (decide (c = colon)) as [->|].
    + exists [], (p ++ colon :: r). split; [done|constructor].
    + exists (c :: p), r. split; [done|]. by constructor.
Qed.

(** What the scan says about the text: two colons and no third. *)
Lemma scan_colons_spec s first second :
  scan_colons s 0 (-1) (-1) = Some (first, second) → 0 < first → first < second →
  ∃ p o n, s = p ++ colon :: o ++ colon :: n
    ∧ no_colon p ∧ no_colon o ∧ no_colon n
    ∧ first = Z.of_nat (length p) ∧ second = first + 1 + Z.of_nat (length o).
Proof.
  destruct (colon_split s) as [Hs|(p & r & -> & Hp)].
  { rewrite <-(app_nil_r s), scan_no_colon by done. simpl. intros [= <- <-]. lia. }
  rewrite scan_no_colon, scan_colon by done. rewrite Z.add_0_l. simpl.
  destruct (colon_split r) as [Hr|(o & n & -> & Ho)].
  { rewrite <-(app_nil_r r), scan_no_colon by done. simpl. intros [= <- <-]. lia. }
  rewrite scan_no_colon, scan_colon by done.
  destruct (Z.ltb_spec (Z.of_nat (length p)) 0); [lia|]. simpl.
  destruct (colon_split n) as [Hn|(n1 & n2 & -> & Hn)].
  - rewrite <-(app_nil_r n), scan_no_colon by done. simpl. intros [= <- <-] _ _.
    exists p, o, n. rewrite app_nil_r. repeat split; done || lia.
  - rewrite scan_no_colon, scan_colon by done.
    destruct (Z.ltb_spec (Z.of_nat (length p)) 0); [lia|].
    destruct (Z.ltb_spec (Z.of_nat (length p) + 1 + Z.of_nat (length o)) 0); [lia|]. done.
Qed.

Lemma scan_colons_three p o n :
  no_colon p → no_colon o → no_colon n →
  scan_colons (p ++ colon :: o ++ colon :: n) 0 (-1) (-1) =
    Some (Z.of_nat (length p), Z.of_nat (length p) + 1 + Z.of_nat (length o)).
Proof.
  intros Hp Ho Hn. rewrite scan_no_colon, scan_colon by done. rewrite Z.add_0_l. simpl.
  rewrite scan_no_colon, scan_colon by done.
  destruct (Z.ltb_spec (Z.of_nat (length p)) 0); [lia|]. simpl.
  by rewrite <-(app_nil_r n), scan_no_colon by done.
Qed.

Lemma slice_parts p o n :
  let s := p ++ colon :: o ++ colon :: n in
  let first := Z.of_nat (length p) in
  let second := first + 1 + Z.of_nat (length o) in
  slice s 0 first = p ∧ slice s (first + 1) second = o
  ∧ slice s (second + 1) (Z.of_nat (length s)) = n.
Proof.
  intros s first second. subst s first second. unfold slice. split_and!.
  - rewrite Z.sub_0_r, Nat2Z.id. change (Z.to_nat 0) with 0%nat. rewrite drop_0.
    by rewrite take_app_length.
  - replace (Z.to_nat (Z.of_nat (length p) + 1)) with (length p + 1)%nat by lia.
    replace (Z.to_nat _) with (length o) by lia.
    rewrite drop_app_add, skipn_cons, drop_0. by rewrite take_app_length.
  - replace (Z.to_nat (Z.of_nat (length p) + 1 + Z.of_nat (length o) + 1))
      with (length p + S (length o + 1))%nat by lia.
    rewrite drop_app_add, skipn_cons, drop_app_add, skipn_cons, drop_0.
    apply take_ge. rewrite !length_app. cbn [length]. rewrite length_app. cbn [length]. lia.
Qed.

Lemma parse_or_malformed_ok s v :
  asciiDigits s = true → parse_or_malformed s = Ok v ↔ digits_of s v.
Proof.
  intros Hd. unfold parse_or_malformed, Dec.parse_int, digits_of. destruct s as [|c s]; [naive_solver|].
  destruct (Z.leb_spec (Dec.parse_digits (c :: s)) max_int64); naive_solver lia.
Qed.

Lemma ValidateHandle_ok h :
  ValidateHandle h = Ok tt ↔ 0 <= Partition h ∧ 0 <= Offset h ∧ 0 < Nonce h.
Proof.
  unfold ValidateHandle.
  destruct (Z.ltb_spec (Partition h) 0), (Z.ltb_spec (Offset h) 0), (Z.leb_spec (Nonce h) 0);
    simpl; naive_solver lia.
Qed.

(** The decoder on a well-delimited text. *)
Lemma DecodeHandle_parts p o n :
  p ≠ [] → o ≠ [] → n ≠ [] → asciiDigits p = true → asciiDigits o = true → asciiDigits n = true →
  DecodeHandle (p ++ colon :: o ++ colon :: n) =
    let! a := parse_or_malformed p in
    let! b := parse_or_malformed o in
    let! c := parse_or_malformed n in
    let! _ := ValidateHandle (MkHandle a b c) in
    Ok (MkHandle a b c).
Proof.
  intros Hp Ho Hn Dp Do Dn. unfold DecodeHandle.
  rewrite scan_colons_three by (by apply digits_no_colon).
  destruct (slice_parts p o n) as (-> & -> & ->). rewrite Dp, Do, Dn.
  rewrite !length_app. simpl length. rewrite !length_app. simpl length.
  destruct p, o, n; try done. simpl length.
  repeat match goal with
  | |- context [?a <=? ?b] => destruct (Z.leb_spec a b); [lia|]
  | |- context [?a =? ?b] => destruct (Z.eqb_spec a b); [lia|]
  end.
  done.
Qed.

(** ** Properties *)

(** Receipt handles round-trip: every handle the broker can mint
    (non-negative partition and offset, positive nonce, all within
    [int64]) decodes from its wire form to itself. *)
Theorem handle_roundtrip (h : Handle) :
  handle_ok h → DecodeHandle (EncodeHandle h) = Ok h.
Proof.
  intros (Hp & Ho & Hn). destruct h as [p o n]. simpl in *. unfold EncodeHandle. simpl.
  assert (max_int64 < 10 ^ 20) by (unfold max_int64, two63; lia).
  destruct (Dec.fmt_int_nonneg p) as (? & ? & ?); [lia|].
  destruct (Dec.fmt_int_nonneg o) as (? & ? & ?); [lia|].
  destruct (Dec.fmt_int_nonneg n) as (? & ? & ?); [lia|].
  rewrite DecodeHandle_parts by done.
  unfold parse_or_malformed. rewrite !Dec.parse_fmt_int by lia. simpl.
  by rewrite (proj2 (ValidateHandle_ok _)) by (simpl; lia).
Qed.

Lemma handle_roundtrip_witness :
  DecodeHandle (EncodeHandle (MkHandle 3 120 987654321)) = Ok (MkHandle 3 120 987654321).
Proof. apply (handle_roundtrip (MkHandle 3 120 987654321)). vm_compute. repeat split; discriminate. Defined.

(** The decoder accepts exactly the texts [p:o:n] made of three
    non-empty digit strings whose values fit [int64] and whose nonce is
    positive, and returns those values; every other text (a sign, a
    missing or extra field, a space, a value out of range) is
    [ErrHandleMalformed]. *)
Theorem DecodeHandle_exact (s : list ascii) (h : Handle) :
  DecodeHandle s = Ok h ↔
  ∃ p o n, s = p ++ colon :: o ++ colon :: n
    ∧ digits_of p (Partition h) ∧ digits_of o (Offset h) ∧ digits_of n (Nonce h)
    ∧ 0 < Nonce h.
Proof.
  split.
  - intros H. pose proof H as Hdec. unfold DecodeHandle in H.
    destruct (scan_colons s 0 (-1) (-1)) as [[first second]|] eqn:Hscan; [|done].
    destruct (Z.leb_spec first 0); [done|]. destruct (Z.leb_spec second (first + 1)); [done|].
    simpl in H. destruct (scan_colons_spec _ _ _ Hscan) as (p & o & n & -> & _ & _ & _ & -> & ->); [lia..|].
    destruct (slice_parts p o n) as (Ep & Eo & En). rewrite Ep, Eo, En in H.
    destruct (Z.eqb_spec (Z.of_nat (length p) + 1 + Z.of_nat (length o))
      (Z.of_nat (length (p ++ colon :: o ++ colon :: n)) - 1)) as [|Hlast]; [done|].
    destruct (asciiDigits p) eqn:Dp, (asciiDigits o) eqn:Do, (asciiDigits n) eqn:Dn; try done.
    simpl in H. apply rbind_ok in H as (a & Ha & H). apply rbind_ok in H as (b & Hb & H).
    apply rbind_ok in H as (c & Hc & H). apply rbind_ok in H as ([] & Hv & [= <-]).
    apply ValidateHandle_ok in Hv. simpl in Hv.
    exists p, o, n. apply parse_or_malformed_ok in Ha, Hb, Hc; [|done..].
    simpl. naive_solver.
  - intros (p & o & n & -> & (Hp & Dp & Vp & Rp) & (Ho & Do & Vo & Ro) & (Hn & Dn & Vn & Rn) & Hpos).
    rewrite DecodeHandle_parts by done.
    rewrite (proj2 (parse_or_malformed_ok p (Partition h) Dp)) by done. simpl.
    rewrite (proj2 (parse_or_malformed_ok o (Offset h) Do)) by done. simpl.
    rewrite (proj2 (parse_or_malformed_ok n (Nonce h) Dn)) by done. simpl.
    pose proof (Dec.parse_digits_nonneg _ Dp). pose proof (Dec.parse_digits_nonneg _ Do).
    rewrite (proj2 (ValidateHandle_ok _)) by (simpl; lia). by destruct h.
Qed.

End Handles.
