(* ===== verification/ExpiryHeap.v ===== *)
(** * The expiry heap of a partition shard

    [internal/consumer/shard.go] keeps a typed binary min-heap of lease
    deadlines ([expiryHeap], container/heap's algorithms without the
    boxing).  This file models the slice as a list, every operation index
    for index, and proves the heap correct: [push], [pop] and [init] keep
    the same entries and the heap order, and [pop] returns an entry whose
    deadline is minimal. *)

From S2P Require Import Prelude.

(** One slot of the heap. *)
Record expiryEntry := ExpiryEntry {
  ee_offset : Z;
  ee_expiresAt : Z;
  ee_nonce : Z;
}.

#[global] Instance expiryEntry_eq_dec : EqDecision expiryEntry.
Proof. solve_decision. Defined.

Definition expiryHeap := list expiryEntry.

Module Heap.

(** ** Operations *)

(** [h[i].expiresAtUnixMs < h[j].expiresAtUnixMs]; an index out of range
    panics in Go and is never reached (the callers stay below [len(h)]). *)
Definition less (h : list expiryEntry) (i j : nat) : bool :=
  match h !! i, h !! j with
  | Some a, Some b => ee_expiresAt a <? ee_expiresAt b
  | _, _ => false
  end.

Definition swap (h : list expiryEntry) (i j : nat) : list expiryEntry :=
  match h !! i, h !! j with
  | Some a, Some b => <[i:=b]> (<[j:=a]> h)
  | _, _ => h
  end.

Fixpoint up_loop (fuel : nat) (h : list expiryEntry) (j : nat) : list expiryEntry :=
  match fuel with
  | O => h
  | S fuel =>
      let i := ((j - 1) / 2)%nat in
      if (i =? j)%nat || negb (less h j i) then h
      else up_loop fuel (swap h i j) i
  end.

(** The index strictly decreases, so [j + 1] rounds are enough
    ([up_loop_fuel] below). *)
Definition up (h : list expiryEntry) (j : nat) : list expiryEntry :=
  up_loop (S j) h j.

Fixpoint down_loop (fuel : nat) (h : list expiryEntry) (i n : nat) : list expiryEntry :=
  match fuel with
  | O => h
  | S fuel =>
      let j1 := (2 * i + 1)%nat in
      if (n <=? j1)%nat then h
      else
        let j2 := (j1 + 1)%nat in
        let j := if (j2 <? n)%nat && less h j2 j1 then j2 else j1 in
        if negb (less h j i) then h
        else down_loop fuel (swap h i j) j n
  end.

(** The index strictly increases and stays below [n], so [n + 1] rounds
    are enough ([down_loop_fuel] below). *)
Definition down (h : list expiryEntry) (i n : nat) : list expiryEntry :=
  down_loop (S n) h i n.

Definition push (h : list expiryEntry) (e : expiryEntry) : list expiryEntry :=
  up (h ++ [e]) (length h).

(** [None] on the empty heap, where the code would panic. *)
Definition pop (h : list expiryEntry) : option (expiryEntry * list expiryEntry) :=
  let n := (length h - 1)%nat in
  let old := down (swap h 0 n) 0 n in
  match h, old !! n with
  | _ :: _, Some e => Some (e, take n old)
  | _, _ => None
  end.

(** [for i := n/2 - 1; i >= 0; i-- { h.down(i, n) }] *)
Definition init (h : list expiryEntry) : list expiryEntry :=
  let n := length h in
  foldl (λ h i, down h i n) h (rev (seq 0 (n / 2))).

(** ** Specification *)

Definition key (h : list expiryEntry) (i : nat) : Z :=
  match h !! i with Some e => ee_expiresAt e | None => 0 end.

Definition child (p c : nat) : Prop := (c = 2 * p + 1 ∨ c = 2 * p + 2)%nat.

(** Heap order between every parent at or after [lo] and its children
    before [n]. *)
Definition heap_from (lo n : nat) (h : list expiryEntry) : Prop :=
  ∀ p c, (lo <= p)%nat → child p c → (c < n)%nat → key h p <= key h c.

Definition heap_ok (h : list expiryEntry) : Prop := heap_from 0 (length h) h.

(** ** Lemmas *)

Lemma parent_child j : (0 < j)%nat → child ((j - 1) / 2) j.
Proof.
  intros. unfold child. pose proof (Nat.div_mod_eq (j - 1) 2).
  pose proof (Nat.mod_upper_bound (j - 1) 2). lia.
Qed.

Lemma child_parent p c : child p c → ((c - 1) / 2 = p)%nat.
Proof.
  unfold child. intros. pose proof (Nat.div_mod_eq (c - 1) 2).
  pose proof (Nat.mod_upper_bound (c - 1) 2). lia.
Qed.

Lemma less_key h i j :
  (i < length h)%nat → (j < length h)%nat → less h i j = (key h i <? key h j).
Proof.
  intros [a Ha]%lookup_lt_is_Some [b Hb]%lookup_lt_is_Some.
  unfold less, key. by rewrite Ha, Hb.
Qed.

Lemma swap_length h i j : length (swap h i j) = length h.
Proof. unfold swap. repeat case_match; rewrite ?length_insert; done. Qed.

Lemma insert_perm {A} (l : list A) i a x :
  l !! i = Some a → x :: l ≡ₚ a :: <[i:=x]> l.
Proof.
  revert i; induction l as [|y l IH]; intros [|i] H; simplify_eq/=.
  - apply Permutation_swap.
  - rewrite Permutation_swap, (IH _ H), Permutation_swap. done.
Qed.

Lemma swap_perm h i j : swap h i j ≡ₚ h.
Proof.
  unfold swap. destruct (h !! i) as [a|] eqn:Hi; [|done].
  destruct (h !! j) as [b|] eqn:Hj; [|done].
  destruct (decide (i = j)) as [->|Hne].
  - simplify_eq. rewrite !list_insert_id; [done..|by rewrite list_insert_id].
  - apply (Permutation_cons_inv (a:=a)). symmetry.
    rewrite (insert_perm h j b a Hj).
    apply insert_perm. by rewrite list_lookup_insert_ne.
Qed.

Lemma swap_lookup h i j k :
  (i < length h)%nat → (j < length h)%nat →
  swap h i j !! k = if decide (k = i) then h !! j else if decide (k = j) then h !! i else h !! k.
Proof.
  intros Hi Hj. unfold swap.
  destruct (lookup_lt_is_Some_2 _ _ Hi) as [a Ha].
  destruct (lookup_lt_is_Some_2 _ _ Hj) as [b Hb]. rewrite Ha, Hb.
  repeat case_decide; subst.
  - by rewrite list_lookup_insert_eq by (by rewrite length_insert).
  - rewrite list_lookup_insert_ne by done. by rewrite list_lookup_insert_eq.
  - by rewrite !list_lookup_insert_ne.
Qed.

Lemma swap_key h i j k :
  (i < length h)%nat → (j < length h)%nat →
  key (swap h i j) k = if decide (k = i) then key h j else if decide (k = j) then key h i else key h k.
Proof.
  intros. unfold key. rewrite swap_lookup by done. by repeat case_decide.
Qed.

(** *** [down] *)

Definition down_pre (lo : nat) (h : list expiryEntry) (i n : nat) : Prop :=
  (∀ p c, (lo <= p)%nat → p ≠ i → child p c → (c < n)%nat → key h p <= key h c)
  ∧ (∀ p c, (lo <= p)%nat → child p i → child i c → (c < n)%nat → key h p <= key h c).

(** The child [down] compares with: the one that expires first. *)
Definition down_child (h : list expiryEntry) (i n : nat) : nat :=
  if (2 * i + 1 + 1 <? n)%nat && less h (2 * i + 1 + 1) (2 * i + 1)
  then (2 * i + 1 + 1)%nat else (2 * i + 1)%nat.

Lemma down_child_min h i n :
  (n <= length h)%nat → (2 * i + 1 < n)%nat →
  child i (down_child h i n) ∧ (down_child h i n < n)%nat
  ∧ ∀ c, child i c → (c < n)%nat → key h (down_child h i n) <= key h c.
Proof.
  intros Hn Hi. unfold down_child, child.
  destruct (Nat.ltb_spec (2 * i + 1 + 1) n) as [Hlt|Hge]; cbn [andb].
  - rewrite less_key by lia.
    destruct (Z.ltb_spec (key h (2 * i + 1 + 1)) (key h (2 * i + 1)));
      (split; [lia|split; [lia|]]); intros c [-> | ->] ?;
      replace (2 * i + 1 + 1)%nat with (2 * i + 2)%nat in * by lia; lia.
  - split; [lia|split; [lia|]]. intros c [-> | ->] ?; lia.
Qed.

Lemma down_loop_S fuel h i n :
  down_loop (S fuel) h i n =
    if (n <=? 2 * i + 1)%nat then h
    else if negb (less h (down_child h i n) i) then h
    else down_loop fuel (swap h i (down_child h i n)) (down_child h i n) n.
Proof. reflexivity. Qed.

Ltac key_cases :=
  rewrite ?swap_key by lia; repeat case_decide; subst; try lia.

Lemma down_pre_swap lo h i j n :
  (n <= length h)%nat → (lo <= i)%nat → (j < n)%nat → child i j →
  (∀ c, child i c → (c < n)%nat → key h j <= key h c) →
  key h j < key h i →
  down_pre lo h i n → down_pre lo (swap h i j) j n.
Proof.
  intros Hn Hlo Hj Hc Hmin Hlt [H1 H2]. unfold down_pre, child in *. split.
  - intros p c Hp Hpj Hpc Hcn.
    assert ((p < c)%nat) by lia.
    key_cases.
    + apply Hmin; lia.
    + apply H2; lia.
    + apply H1; lia.
  - intros p c Hp Hpj Hjc Hcn. assert (p = i) as -> by lia.
    assert ((i < j < c)%nat) by lia. key_cases. apply H1; lia.
Qed.

Lemma down_loop_heap fuel h i n lo :
  (n <= length h)%nat → (lo <= i)%nat → (n < i + fuel)%nat →
  down_pre lo h i n → heap_from lo n (down_loop fuel h i n).
Proof.
  revert h i; induction fuel as [|fuel IH]; intros h i Hn Hlo Hf Hpre.
  { intros p c Hp Hc Hcn. apply (proj1 Hpre); unfold child in *; lia. }
  rewrite down_loop_S. destruct (Nat.leb_spec n (2 * i + 1)) as [Hle|Hgt].
  { intros p c Hp Hc Hcn. apply (proj1 Hpre); unfold child in *; lia. }
  destruct (down_child_min h i n) as (Hc & Hcn & Hmin); [lia..|].
  set (j := down_child h i n) in *. assert ((i < j)%nat) by (unfold child in *; lia).
  rewrite less_key by lia. destruct (Z.ltb_spec (key h j) (key h i)); simpl.
  - apply IH; rewrite ?swap_length; [lia..|]. by apply down_pre_swap.
  - intros p c Hp Hpc Hlt. destruct (decide (p = i)) as [->|Hne].
    + specialize (Hmin c Hpc Hlt). lia.
    + by apply (proj1 Hpre).
Qed.

Lemma down_loop_perm fuel h i n : down_loop fuel h i n ≡ₚ h.
Proof.
  revert h i; induction fuel as [|fuel IH]; intros h i; [done|].
  rewrite down_loop_S. repeat case_match; try done. by rewrite IH, swap_perm.
Qed.

(** [down] reads and writes only the indices from [i] up to [n]. *)
Lemma down_loop_frame fuel h i n k :
  (n <= length h)%nat → ((k < i)%nat ∨ (n <= k)%nat) → down_loop fuel h i n !! k = h !! k.
Proof.
  revert h i; induction fuel as [|fuel IH]; intros h i Hn Hk; [done|].
  rewrite down_loop_S. destruct (Nat.leb_spec n (2 * i + 1)); [done|].
  destruct (down_child_min h i n) as (Hc & Hcn & _); [lia..|].
  case_match; [done|]. unfold child in Hc.
  rewrite IH by (rewrite ?swap_length; lia).
  rewrite swap_lookup by lia. repeat case_decide; try lia; done.
Qed.

Lemma down_length h i n : length (down h i n) = length h.
Proof. apply Permutation_length, down_loop_perm. Qed.

(** Beyond [n + 1] rounds the loop has stopped: more fuel changes nothing. *)
Lemma down_loop_fuel fuel h i n :
  (n <= length h)%nat → (n < i + fuel)%nat → down_loop fuel h i n = down_loop (S fuel) h i n.
Proof.
  revert h i; induction fuel as [|fuel IH]; intros h i Hn Hf.
  { rewrite down_loop_S. destruct (Nat.leb_spec n (2 * i + 1)); [done|lia]. }
  rewrite (down_loop_S fuel), (down_loop_S (S fuel)).
  destruct (Nat.leb_spec n (2 * i + 1)); [done|].
  destruct (down_child_min h i n) as (Hc & Hcn & _); [lia..|].
  case_match; [done|]. apply IH; rewrite ?swap_length; unfold child in *; lia.
Qed.

(** *** [up] *)

Definition up_pre (h : list expiryEntry) (j n : nat) : Prop :=
  (∀ p c, c ≠ j → child p c → (c < n)%nat → key h p <= key h c)
  ∧ (∀ p c, child p j → child j c → (c < n)%nat → key h p <= key h c).

Lemma up_loop_S fuel h j :
  up_loop (S fuel) h j =
    if ((j - 1) / 2 =? j)%nat || negb (less h j ((j - 1) / 2)) then h
    else up_loop fuel (swap h ((j - 1) / 2) j) ((j - 1) / 2).
Proof. reflexivity. Qed.

Lemma up_pre_swap h i j :
  (j < length h)%nat → child i j → key h j < key h i →
  up_pre h j (length h) → up_pre (swap h i j) i (length h).
Proof.
  intros Hj Hc Hlt [H1 H2]. unfold up_pre, child in *. split.
  - intros p c Hci Hpc Hcn. key_cases.
    + assert (c = (2 * i + 1)%nat ∨ c = (2 * i + 2)%nat) by lia.
      assert (key h i <= key h c) by (apply H1; lia). lia.
    + apply H2; lia.
    + apply H1; lia.
  - intros p c Hpi Hic Hcn. assert ((p < i)%nat) by lia.
    assert (key h p <= key h i) by (apply H1; lia).
    key_cases. assert (key h i <= key h c) by (apply H1; lia). lia.
Qed.

Lemma up_loop_heap fuel h j :
  (j < length h)%nat → (j < fuel)%nat →
  up_pre h j (length h) → heap_from 0 (length h) (up_loop fuel h j).
Proof.
  revert h j; induction fuel as [|fuel IH]; intros h j Hj Hf Hpre; [lia|].
  destruct (decide (j = 0)%nat) as [->|Hj0].
  { intros p c _ Hpc Hcn. apply (proj1 Hpre); unfold child in *; lia. }
  rewrite up_loop_S. pose proof (parent_child j ltac:(lia)) as Hc. set (i := ((j - 1) / 2)%nat) in *.
  assert ((i < j)%nat) by (unfold child in *; lia).
  destruct (Nat.eqb_spec i j); [lia|]. simpl. rewrite less_key by lia.
  destruct (Z.ltb_spec (key h j) (key h i)); simpl.
  - rewrite <-(swap_length h i j). apply IH; rewrite ?swap_length; [lia..|].
    by apply up_pre_swap.
  - intros p c _ Hpc Hcn. destruct (decide (c = j)) as [->|].
    + assert (p = i) as -> by (unfold child in *; lia). lia.
    + by apply (proj1 Hpre).
Qed.

Lemma up_loop_perm fuel h j : up_loop fuel h j ≡ₚ h.
Proof.
  revert h j; induction fuel as [|fuel IH]; intros h j; [done|]. rewrite up_loop_S.
  case_match; [done|]. by rewrite IH, swap_perm.
Qed.

Lemma up_loop_fuel fuel h j :
  (j < fuel)%nat → up_loop fuel h j = up_loop (S fuel) h j.
Proof.
  revert h j; induction fuel as [|fuel IH]; intros h j Hf; [lia|].
  rewrite (up_loop_S fuel), (up_loop_S (S fuel)). case_match eqn:Hcase; [done|]. apply orb_false_iff in Hcase as [Hne%Nat.eqb_neq _].
  destruct (decide (j = 0)%nat) as [->|]; [done|].
  pose proof (parent_child j ltac:(lia)). apply IH. unfold child in *; lia.
Qed.

(** ** Correctness *)

Lemma heap_root_min n h k :
  heap_from 0 n h → (k < n)%nat → key h 0 <= key h k.
Proof.
  intros Hh. induction (lt_wf k) as [k _ IH]. intros Hk.
  destruct (decide (k = 0)%nat) as [->|]; [lia|].
  pose proof (parent_child k ltac:(lia)) as Hc.
  assert (((k - 1) / 2 < k)%nat) by (unfold child in Hc; lia).
  specialize (IH ((k - 1) / 2)%nat ltac:(lia) ltac:(lia)).
  specialize (Hh ((k - 1) / 2)%nat k ltac:(lia) Hc Hk). lia.
Qed.

Lemma heap_head_min e h x :
  heap_ok (e :: h) → x ∈ e :: h → ee_expiresAt e <= ee_expiresAt x.
Proof.
  intros Hh [k Hk]%list_elem_of_lookup.
  pose proof (heap_root_min _ _ k Hh (lookup_lt_Some _ _ _ Hk)) as Hle.
  unfold key in Hle at 2. by rewrite Hk in Hle.
Qed.

Lemma push_perm h e : push h e ≡ₚ e :: h.
Proof. unfold push, up. rewrite up_loop_perm. by rewrite Permutation_app_comm. Qed.

Lemma push_heap h e : heap_ok h → heap_ok (push h e).
Proof.
  intros Hh. unfold heap_ok. rewrite (Permutation_length (push_perm h e)).
  replace (length (e :: h)) with (length (h ++ [e])) by (rewrite length_app; simpl; lia).
  apply up_loop_heap; [rewrite length_app; simpl; lia|lia|].
  assert (∀ k, (k < length h)%nat → key (h ++ [e]) k = key h k) as Hkey.
  { intros k Hk. unfold key. by rewrite lookup_app_l. }
  rewrite length_app. simpl. unfold up_pre, child in *. split; intros p c ???; [|lia].
  rewrite !Hkey by lia. apply Hh; unfold child; lia.
Qed.

Lemma pop_spec h :
  heap_ok h → h ≠ [] →
  ∃ e h', pop h = Some (e, h') ∧ head h = Some e ∧ h ≡ₚ e :: h' ∧ heap_ok h'.
Proof.
  intros Hh Hne. unfold pop. set (n := (length h - 1)%nat).
  assert (length h = S n) as Hlen by (destruct h; simpl in *; [done|lia]).
  set (old := down (swap h 0 n) 0 n).
  assert (old !! n = h !! 0%nat) as Hn.
  { unfold old, down. rewrite down_loop_frame by (rewrite ?swap_length; lia).
    rewrite swap_lookup by lia. repeat case_decide; congruence. }
  assert (length old = S n) as Holdlen by (unfold old; by rewrite down_length, swap_length).
  assert (old ≡ₚ h) as Hperm by (unfold old, down; by rewrite down_loop_perm, swap_perm).
  destruct h as [|e h0]; [done|]. rewrite Hn. simpl.
  exists e, (take n old). split; [done|]. split; [done|]. split.
  - rewrite <-Hperm. rewrite <-(take_drop n old) at 1.
    rewrite (drop_S old e n) by done. rewrite drop_ge by lia.
    by rewrite Permutation_app_comm.
  - assert (heap_from 0 n old) as Hord.
    { unfold old. apply down_loop_heap; rewrite ?swap_length; [lia..|].
      unfold down_pre, child. split; intros p c ????; [|lia].
      rewrite !swap_key by lia. repeat case_decide; try lia.
      all: apply Hh; unfold child; lia. }
    intros p c Hp Hc Hlt. rewrite length_take in Hlt.
    assert ((p < c)%nat) by (unfold child in Hc; lia).
    unfold key. rewrite !lookup_take_lt by lia. apply Hord; auto with lia.
Qed.

Lemma init_loop_heap n h k :
  length h = n → (k <= n)%nat → heap_from k n h →
  heap_from 0 n (foldl (λ h i, down h i n) h (rev (seq 0 k))).
Proof.
  revert h; induction k as [|k IH]; intros h Hl Hk Hh; [done|].
  rewrite seq_S, rev_app_distr. simpl. apply IH; [by rewrite down_length|lia|].
  apply down_loop_heap; [lia..|]. unfold down_pre. split.
  - intros p c ????. apply Hh; auto with lia.
  - unfold child. lia.
Qed.

Lemma init_perm h : init h ≡ₚ h.
Proof.
  unfold init. generalize (length h) as n. intros n.
  generalize (rev (seq 0 (n / 2))) as l. intros l. revert h.
  induction l as [|i l IH]; intros h; [done|]. simpl.
  rewrite IH. apply down_loop_perm.
Qed.

Lemma init_heap h : heap_ok (init h).
Proof.
  unfold heap_ok. rewrite (Permutation_length (init_perm h)).
  pose proof (Nat.div_mod_eq (length h) 2). pose proof (Nat.mod_upper_bound (length h) 2).
  apply init_loop_heap; [done|lia|]. intros p c Hp Hc Hlt. unfold child in Hc. lia.
Qed.

Lemma heap_ok_nil : heap_ok [].
Proof. intros p c ? Hc Hlt. simpl in Hlt. lia. Qed.

#[global] Hint Resolve push_heap init_heap heap_ok_nil : narad.

(** Popping an [n]-entry heap until it is empty: the order in which
    leases come due. *)
Fixpoint drain (fuel : nat) (h : list expiryEntry) : list expiryEntry :=
  match fuel with
  | O => []
  | S fuel => match pop h with
              | Some (e, h') => e :: drain fuel h'
              | None => []
              end
  end.

Definition expires_le (a b : expiryEntry) : Prop := ee_expiresAt a <= ee_expiresAt b.

Lemma drain_sorted h :
  heap_ok h → StronglySorted expires_le (drain (length h) h) ∧ drain (length h) h ≡ₚ h.
Proof.
  remember (length h) as n eqn:Hn. revert h Hn.
  induction n as [|n IH]; intros h Hn Hh.
  { destruct h; [|done]. split; [constructor|done]. }
  destruct (pop_spec h Hh) as (e & h' & Hpop & Hhd & Hperm & Hh'); [by destruct h|].
  simpl. rewrite Hpop.
  assert (n = length h') as Hn' by (apply Permutation_length in Hperm; simpl in *; lia).
  destruct (IH h' Hn' Hh') as [Hsort Hdr]. split; [|by rewrite Hdr].
  constructor; [done|]. apply Forall_forall. intros x Hx.
  destruct h as [|e0 h0]; simplify_eq/=. apply (heap_head_min e h0); [done|].
  rewrite Hperm. apply list_elem_of_further. by rewrite <-Hdr.
Qed.

Lemma pushes_heap l h : heap_ok h → heap_ok (foldl push h l).
Proof. revert h; induction l as [|e l IH]; intros h Hh; simpl; auto with narad. Qed.

Lemma pushes_perm l h : foldl push h l ≡ₚ h ++ l.
Proof.
  revert h; induction l as [|e l IH]; intros h; simpl; [by rewrite app_nil_r|].
  rewrite IH, push_perm. simpl. by rewrite Permutation_middle.
Qed.

(** C38. The typed binary heap behind lease expiry is a correct priority
    queue: whatever sequence of entries is pushed, and whatever array
    [init] is run on, repeatedly popping yields exactly those entries,
    each once, in non-decreasing order of their deadline. *)
Theorem heap_drains_in_deadline_order (l : list expiryEntry) :
  (StronglySorted expires_le (drain (length l) (foldl push [] l))
   ∧ drain (length l) (foldl push [] l) ≡ₚ l)
  ∧ (StronglySorted expires_le (drain (length l) (init l))
     ∧ drain (length l) (init l) ≡ₚ l).
Proof.
  pose proof (pushes_perm l []) as Hp. pose proof (init_perm l) as Hi. split.
  - destruct (drain_sorted (foldl push [] l)) as [? Hd]; [by apply pushes_heap, heap_ok_nil|].
    rewrite (Permutation_length Hp) in *. split; [done|by rewrite Hd].
  - destruct (drain_sorted (init l)) as [? Hd]; [apply init_heap|].
    rewrite (Permutation_length Hi) in *. split; [done|by rewrite Hd].
Qed.

End Heap.
