(* ===== verification/Shard.v ===== *)
(** * One partition's reservation table

    [internal/consumer/shard.go] and the shard halves of [reserve.go] and
    [extend.go]: the operations that run under a [partitionShard]'s mutex.
    Every operation is a function from the shard and the clock reading to
    the shard it leaves behind and what the call reports.  The file gives
    the shard's representation invariant ([shard_ok]) and proves that every
    operation keeps it; the delivery properties built on it are in
    [Delivery.v] and [InFlight.v]. *)

From S2P Require Import Prelude ExpiryHeap.

(** ** Data *)

Record reservation := Reservation { expiresAtUnixMs : Z; rsv_nonce : Z }.

#[global] Instance reservation_eq_dec : EqDecision reservation.
Proof. solve_decision. Defined.

Record Caps := MkCaps { MaxInFlight : Z; MaxAckedAhead : Z }.

(** The fields of [partitionShard], guarded by its mutex.  [rng] is the
    stream of [uint64] draws the shard's ChaCha8 source will return next. *)
Record partitionShard := Shard {
  committed : Z;
  entries : gmap Z reservation;
  expiry : list expiryEntry;
  ackedAhead : gset Z;
  aheadVersion : Z;
  corrupt : gset Z;
  nextFree : Z;
  rng : list Z;
  maxInFlight : Z;
  maxAckedAhead : Z;
}.

Definition set_committed c sh := Shard c (entries sh) (expiry sh) (ackedAhead sh)
  (aheadVersion sh) (corrupt sh) (nextFree sh) (rng sh) (maxInFlight sh) (maxAckedAhead sh).
Definition set_entries e sh := Shard (committed sh) e (expiry sh) (ackedAhead sh)
  (aheadVersion sh) (corrupt sh) (nextFree sh) (rng sh) (maxInFlight sh) (maxAckedAhead sh).
Definition set_expiry h sh := Shard (committed sh) (entries sh) h (ackedAhead sh)
  (aheadVersion sh) (corrupt sh) (nextFree sh) (rng sh) (maxInFlight sh) (maxAckedAhead sh).
Definition set_ahead a v sh := Shard (committed sh) (entries sh) (expiry sh) a
  v (corrupt sh) (nextFree sh) (rng sh) (maxInFlight sh) (maxAckedAhead sh).
Definition set_corrupt c sh := Shard (committed sh) (entries sh) (expiry sh) (ackedAhead sh)
  (aheadVersion sh) c (nextFree sh) (rng sh) (maxInFlight sh) (maxAckedAhead sh).
Definition set_nextFree n sh := Shard (committed sh) (entries sh) (expiry sh) (ackedAhead sh)
  (aheadVersion sh) (corrupt sh) n (rng sh) (maxInFlight sh) (maxAckedAhead sh).
Definition set_rng r sh := Shard (committed sh) (entries sh) (expiry sh) (ackedAhead sh)
  (aheadVersion sh) (corrupt sh) (nextFree sh) r (maxInFlight sh) (maxAckedAhead sh).
Definition set_caps caps sh := Shard (committed sh) (entries sh) (expiry sh) (ackedAhead sh)
  (aheadVersion sh) (corrupt sh) (nextFree sh) (rng sh) (MaxInFlight caps) (MaxAckedAhead caps).

(** Go iterates a map in an unspecified order; the operations that do are
    modelled for an arbitrary enumeration of the map's bindings. *)
Class MapOrder := {
  map_range : gmap Z reservation → list (Z * reservation);
  map_range_perm : ∀ m, map_range m ≡ₚ map_to_list m;
}.

#[global] Instance map_order_default : MapOrder :=
  {| map_range := map_to_list; map_range_perm := λ m, Permutation_refl _ |}.

Definition len_entries sh : Z := Z.of_nat (size (entries sh)).
Definition len_ahead sh : Z := Z.of_nat (size (ackedAhead sh)).
Definition len_corrupt sh : Z := Z.of_nat (size (corrupt sh)).

(** ** Operations *)

Definition newPartitionShard (c : Z) (caps : Caps) (draws : list Z) : partitionShard :=
  Shard c ∅ [] ∅ 0 ∅ (i64 (c + 1)) draws (MaxInFlight caps) (MaxAckedAhead caps).

(** [for { n := int64(sh.rng.Uint64() >> 1); if n > 0 { return n } }].
    [None] when every draw supplied was rejected, where the code would go
    on drawing. *)
Fixpoint nextNonceLocked (draws : list Z) : option (Z * list Z) :=
  match draws with
  | [] => None
  | u :: draws =>
      let n := i64 (Z.shiftr u 1) in
      if 0 <? n then Some (n, draws) else nextNonceLocked draws
  end.

Definition freedLocked (off : Z) (sh : partitionShard) : partitionShard :=
  if off <? nextFree sh then set_nextFree off sh else sh.

Definition heapCompactSlack : Z := 16.

Definition entry_of (p : Z * reservation) : expiryEntry :=
  ExpiryEntry p.1 (expiresAtUnixMs p.2) (rsv_nonce p.2).

Definition compactExpiryLocked `{!MapOrder} (sh : partitionShard) : partitionShard :=
  if Z.of_nat (length (expiry sh)) <=? 2 * len_entries sh + heapCompactSlack then sh
  else set_expiry (Heap.init (entry_of <$> map_range (entries sh))) sh.

(** The heap entry [e] still describes the live reservation of its offset. *)
Definition entry_live (e : expiryEntry) (m : gmap Z reservation) : bool :=
  match m !! ee_offset e with
  | Some rsv => (rsv_nonce rsv =? ee_nonce e) && (expiresAtUnixMs rsv =? ee_expiresAt e)
  | None => false
  end.

(** The loop of [purgeExpiredLocked]; each round pops one heap entry, so
    [len(sh.expiry)] rounds are enough. *)
Fixpoint purge_loop (fuel : nat) (now : Z) (sh : partitionShard) (released : Z)
    : partitionShard * Z :=
  match fuel, expiry sh with
  | S fuel, e0 :: _ =>
      if ee_expiresAt e0 <=? now then
        match Heap.pop (expiry sh) with
        | None => (sh, released)
        | Some (e, h) =>
            let sh := set_expiry h sh in
            if entry_live e (entries sh)
            then purge_loop fuel now
                   (freedLocked (ee_offset e) (set_entries (delete (ee_offset e) (entries sh)) sh))
                   (released + 1)
            else purge_loop fuel now sh released
        end
      else (sh, released)
  | _, _ => (sh, released)
  end.

Definition purgeExpiredLocked `{!MapOrder} (now : Z) (sh : partitionShard) : partitionShard * Z :=
  let '(sh, released) := purge_loop (length (expiry sh)) now sh 0 in
  (compactExpiryLocked sh, released).

(** The loop of [advanceCommittedLocked]; each round removes a resolved
    offset, so one more round than there are resolved offsets is enough. *)
Fixpoint advance_loop (fuel : nat) (sh : partitionShard) : partitionShard :=
  match fuel with
  | O => sh
  | S fuel =>
      let next := i64 (committed sh + 1) in
      if decide (next ∈ ackedAhead sh) then
        advance_loop fuel (set_committed next
          (set_ahead (ackedAhead sh ∖ {[next]}) (u64 (aheadVersion sh + 1)) sh))
      else if decide (next ∈ corrupt sh) then
        advance_loop fuel (set_committed next (set_corrupt (corrupt sh ∖ {[next]}) sh))
      else sh
  end.

Definition advanceCommittedLocked (sh : partitionShard) : partitionShard :=
  let sh := advance_loop (S (size (ackedAhead sh) + size (corrupt sh))) sh in
  if nextFree sh <? i64 (committed sh + 1)
  then set_nextFree (i64 (committed sh + 1)) sh else sh.

Definition seed_one (sh : partitionShard) (off : Z) : partitionShard :=
  if committed sh <? off
  then set_ahead ({[off]} ∪ ackedAhead sh) (u64 (aheadVersion sh + 1)) sh else sh.

Definition seedAheadLocked (offsets : list Z) (sh : partitionShard) : partitionShard :=
  advanceCommittedLocked (foldl seed_one sh offsets).

Definition aheadFullLocked (sh : partitionShard) : bool :=
  maxAckedAhead sh <=? len_ahead sh + len_corrupt sh.

Definition resolvedOrReservedLocked (sh : partitionShard) (off : Z) : bool :=
  bool_decide (is_Some (entries sh !! off)) || bool_decide (off ∈ ackedAhead sh)
  || bool_decide (off ∈ corrupt sh).

Record ReserveResult := MkReserveResult {
  Reserved : bool;
  r_Offset : Z;
  r_Nonce : Z;
  ExpiresAtUnixMs : Z;
  SkipReason : string;
}.

Definition skipped (reason : string) : ReserveResult := MkReserveResult false 0 0 0 reason.

(** [time.Duration.Milliseconds], of a duration in nanoseconds. *)
Definition milliseconds (d : Z) : Z := Z.quot d 1000000.

Definition reserveLocked (off now visibilityTimeout : Z) (sh : partitionShard)
    : option (partitionShard * ReserveResult) :=
  match nextNonceLocked (rng sh) with
  | None => None
  | Some (nonce, draws) =>
      let exp := i64 (now + milliseconds visibilityTimeout) in
      let sh := set_rng draws sh in
      let sh := set_entries (<[off := Reservation exp nonce]> (entries sh)) sh in
      let sh := set_expiry (Heap.push (expiry sh) (ExpiryEntry off exp nonce)) sh in
      let sh := if nextFree sh <=? off then set_nextFree (i64 (off + 1)) sh else sh in
      Some (sh, MkReserveResult true off nonce exp "")
  end.

(** [for off := start; off < logTail; off++]: the first offset that can be
    handed out. *)
Fixpoint scan_free (fuel : nat) (sh : partitionShard) (off logTail : Z) : option Z :=
  match fuel with
  | O => None
  | S fuel =>
      if off <? logTail then
        if resolvedOrReservedLocked sh off then scan_free fuel sh (i64 (off + 1)) logTail
        else Some off
      else None
  end.

(** The body of [InFlight.ReserveNext] under the shard lock. *)
Definition reserveNextLocked `{!MapOrder} (now visibilityTimeout logTail : Z) (sh : partitionShard)
    : option (partitionShard * ReserveResult) :=
  let '(sh, _) := purgeExpiredLocked now sh in
  if maxInFlight sh <=? len_entries sh then Some (sh, skipped "cap") else
  let next := i64 (committed sh + 1) in
  if logTail <=? next then Some (sh, skipped "empty") else
  if aheadFullLocked sh then
    if resolvedOrReservedLocked sh next then Some (sh, skipped "ahead_full")
    else reserveLocked next now visibilityTimeout sh
  else
    let start := Z.max next (nextFree sh) in
    match scan_free (Z.to_nat (logTail - start)) sh start logTail with
    | Some off => reserveLocked off now visibilityTimeout sh
    | None => Some (sh, skipped "all_reserved")
    end.

Inductive handle_err := ErrHandleStale | ErrInvalidSkip.

(** What an operation under the lock asks its caller to do once the lock
    is dropped: the frontier to pass to [onCommit], if any, and whether the
    release notifier fires. *)
Record effects := Effects { eff_commit : option Z; eff_notify : bool }.

Definition no_effects : effects := Effects None false.

(** The set [resolveReserved] parks an offset in ahead of the frontier. *)
Inductive aheadSet := ackedAheadSet | corruptSet.

Definition handle_live (sh : partitionShard) (offset nonce : Z) : bool :=
  match entries sh !! offset with
  | Some rsv => rsv_nonce rsv =? nonce
  | None => false
  end.

(** The body of [InFlight.resolveReserved] (CommitHandle, SkipCorrupt). *)
Definition resolveLocked `{!MapOrder} (now offset nonce : Z) (aheadOf : aheadSet)
    (sh : partitionShard) : partitionShard * result handle_err unit * effects :=
  let '(sh, released) := purgeExpiredLocked now sh in
  let purged := 0 <? released in
  if negb (handle_live sh offset nonce) then (sh, Err ErrHandleStale, Effects None purged) else
  let wasAtCap := maxInFlight sh <=? len_entries sh in
  let aheadWasFull := aheadFullLocked sh in
  if offset =? i64 (committed sh + 1) then
    let sh := set_entries (delete offset (entries sh)) sh in
    let sh := advanceCommittedLocked (set_committed offset sh) in
    (sh, Ok tt, Effects (Some (committed sh)) (purged || wasAtCap || aheadWasFull))
  else
    let sh := match aheadOf with
              | ackedAheadSet => set_ahead ({[offset]} ∪ ackedAhead sh) (aheadVersion sh) sh
              | corruptSet => set_corrupt ({[offset]} ∪ corrupt sh) sh
              end in
    let persisted := bool_decide (offset ∈ ackedAhead sh) in
    let sh := if persisted then set_ahead (ackedAhead sh) (u64 (aheadVersion sh + 1)) sh else sh in
    let sh := set_entries (delete offset (entries sh)) sh in
    (sh, Ok tt, Effects (if persisted then Some (committed sh) else None) (purged || wasAtCap)).

(** The body of [InFlight.ExtendHandle]. *)
Definition extendLocked `{!MapOrder} (now offset nonce visibilityTimeout : Z)
    (sh : partitionShard) : partitionShard * result handle_err Z * effects :=
  let '(sh, released) := purgeExpiredLocked now sh in
  let purged := 0 <? released in
  if negb (handle_live sh offset nonce) then (sh, Err ErrHandleStale, Effects None purged) else
  let exp := i64 (now + milliseconds visibilityTimeout) in
  let sh := set_entries (<[offset := Reservation exp nonce]> (entries sh)) sh in
  let sh := set_expiry (Heap.push (expiry sh) (ExpiryEntry offset exp nonce)) sh in
  (sh, Ok exp, Effects None purged).

(** The body of [InFlight.ReleaseHandle]. *)
Definition releaseLocked `{!MapOrder} (now offset nonce : Z)
    (sh : partitionShard) : partitionShard * result handle_err unit * effects :=
  let '(sh, released) := purgeExpiredLocked now sh in
  let purged := 0 <? released in
  if negb (handle_live sh offset nonce) then (sh, Err ErrHandleStale, Effects None purged) else
  (freedLocked offset (set_entries (delete offset (entries sh)) sh), Ok tt, Effects None true).

(** The body of [InFlight.SkipMissingBelow] once [offset < oldest]. *)
Definition skipMissingLocked `{!MapOrder} (now offset nonce oldest : Z)
    (sh : partitionShard) : partitionShard * result handle_err Z * effects :=
  let '(sh, _) := purgeExpiredLocked now sh in
  if negb (handle_live sh offset nonce) then (sh, Err ErrHandleStale, no_effects) else
  let gone := filter (λ off, off < oldest) (ackedAhead sh) in
  let sh := set_entries (filter (λ p, oldest <= p.1) (entries sh)) sh in
  let sh := set_ahead (filter (λ off, oldest <= off) (ackedAhead sh))
              (u64 (aheadVersion sh + Z.of_nat (size gone))) sh in
  let sh := set_corrupt (filter (λ off, oldest <= off) (corrupt sh)) sh in
  let before := committed sh in
  let sh := if committed sh <? i64 (oldest - 1) then set_committed (i64 (oldest - 1)) sh else sh in
  let sh := advanceCommittedLocked sh in
  (sh, Ok (i64 (committed sh - before)), Effects (Some (committed sh)) true).

(** ** The representation invariant *)

(** An offset that needs no further delivery: at or below the frontier,
    acked ahead of it, or skipped as corrupt. *)
Definition resolved (sh : partitionShard) (o : Z) : Prop :=
  o <= committed sh ∨ o ∈ ackedAhead sh ∨ o ∈ corrupt sh.

(** What holds while the frontier is about to be collapsed. *)
Record shard_wk (sh : partitionShard) : Prop := {
  wk_range : in_i64 (committed sh) ∧ committed sh < max_int64;
  wk_entries : ∀ o r, entries sh !! o = Some r → committed sh < o < max_int64 ∧ 0 < rsv_nonce r;
  wk_ahead : ∀ o, o ∈ ackedAhead sh → committed sh < o < max_int64;
  wk_corrupt : ∀ o, o ∈ corrupt sh → committed sh < o < max_int64;
  wk_disj : ∀ o, is_Some (entries sh !! o) → o ∉ ackedAhead sh ∧ o ∉ corrupt sh;
  wk_disj2 : ackedAhead sh ## corrupt sh;
  wk_hint : ∀ o, committed sh < o < nextFree sh → resolvedOrReservedLocked sh o = true;
  wk_next : nextFree sh <= max_int64;
  wk_heap : Heap.heap_ok (expiry sh);
  wk_cover : ∀ o r, entries sh !! o = Some r → entry_of (o, r) ∈ expiry sh;
}.

(** What holds whenever the mutex is free: moreover the frontier is
    collapsed and the scan hint is past it. *)
Record shard_ok (sh : partitionShard) : Prop := {
  ok_wk : shard_wk sh;
  ok_hole : committed sh + 1 ∉ ackedAhead sh ∧ committed sh + 1 ∉ corrupt sh;
  ok_next : committed sh + 1 <= nextFree sh;
}.

#[export] Hint Resolve ok_wk : narad.

(** *** Automation *)

Ltac in_range := unfold in_i64, max_int64, two63 in *; lia.

(** Opens an invariant hypothesis into its fields. *)
Ltac open_wk H :=
  destruct H as [[Hrg1 Hrg2] Hent Hah Hco Hdj Hdj2 Hhint Hnx Hhp Hcv].
Ltac open_ok H :=
  destruct H as [[[Hrg1 Hrg2] Hent Hah Hco Hdj Hdj2 Hhint Hnx Hhp Hcv] [Hhole1 Hhole2] Hnext].

Lemma ror_true sh o :
  resolvedOrReservedLocked sh o = true ↔
  is_Some (entries sh !! o) ∨ o ∈ ackedAhead sh ∨ o ∈ corrupt sh.
Proof.
  unfold resolvedOrReservedLocked. rewrite !orb_true_iff, !bool_decide_eq_true. tauto.
Qed.

Lemma ror_false sh o :
  resolvedOrReservedLocked sh o = false ↔
  entries sh !! o = None ∧ o ∉ ackedAhead sh ∧ o ∉ corrupt sh.
Proof.
  rewrite <-not_true_iff_false, ror_true, eq_None_not_Some. tauto.
Qed.

Lemma next_no_wrap sh : shard_wk sh → i64 (committed sh + 1) = committed sh + 1.
Proof. intros [[? ?] _ _ _ _ _ _ _ _ _]. apply i64_id. in_range. Qed.

(** ** Nonces *)

Lemma nextNonce_pos draws n draws' :
  nextNonceLocked draws = Some (n, draws') → 0 < n.
Proof.
  induction draws as [|u draws IH]; [done|]. cbn [nextNonceLocked].
  destruct (Z.ltb_spec 0 (i64 (Z.shiftr u 1))); naive_solver.
Qed.

Lemma nextNonce_some draws :
  Exists (λ u, 2 <= u < two64) draws → is_Some (nextNonceLocked draws).
Proof.
  induction 1 as [u draws Hu|u draws _ IH]; cbn [nextNonceLocked].
  - assert (Z.shiftr u 1 = u / 2) as -> by (by rewrite Z.shiftr_div_pow2).
    assert (1 <= u / 2 < two63) as Hq.
    { unfold two64, two63 in *. split; [apply Z.div_le_lower_bound|apply Z.div_lt_upper_bound]; lia. }
    rewrite i64_id by in_range. destruct (Z.ltb_spec 0 (u / 2)); [eauto|lia].
  - case_match; eauto.
Qed.

(** ** Collapsing the frontier *)

(** The fields [advanceCommittedLocked] does not touch. *)
Definition same_leases (sh sh' : partitionShard) : Prop :=
  entries sh' = entries sh ∧ expiry sh' = expiry sh ∧ rng sh' = rng sh
  ∧ maxInFlight sh' = maxInFlight sh ∧ maxAckedAhead sh' = maxAckedAhead sh.

(** [sh'] is [sh] with the frontier moved over the contiguous run of
    resolved offsets right above it. *)
Record collapsed (sh sh' : partitionShard) : Prop := {
  col_leases : same_leases sh sh';
  col_le : committed sh <= committed sh';
  col_run : ∀ o, committed sh < o <= committed sh' → o ∈ ackedAhead sh ∨ o ∈ corrupt sh;
  col_ahead : ∀ o, o ∈ ackedAhead sh' ↔ o ∈ ackedAhead sh ∧ committed sh' < o;
  col_corrupt : ∀ o, o ∈ corrupt sh' ↔ o ∈ corrupt sh ∧ committed sh' < o;
}.

Lemma advance_loop_wk_ahead sh :
  shard_wk sh → committed sh + 1 ∈ ackedAhead sh →
  shard_wk (set_committed (committed sh + 1)
    (set_ahead (ackedAhead sh ∖ {[committed sh + 1]}) (u64 (aheadVersion sh + 1)) sh)).
Proof.
  intros [[? ?] He Ha Hc Hd ? Hh ? ? ?] Hin. split; simpl; auto.
  - pose proof (Ha _ Hin). split; in_range.
  - intros o r Ho. pose proof (He _ _ Ho). split; [|tauto].
    destruct (decide (o = committed sh + 1)) as [->|]; [|lia].
    destruct (Hd (committed sh + 1)); eauto. done.
  - intros o [Ho Hne]%elem_of_difference. pose proof (Ha _ Ho).
    rewrite elem_of_singleton in Hne. lia.
  - intros o Ho. pose proof (Hc _ Ho).
    assert (o ≠ committed sh + 1) by (intros ->; set_solver). lia.
  - intros o Ho. destruct (Hd o Ho). set_solver.
  - set_solver.
  - intros o Ho. specialize (Hh o ltac:(lia)). rewrite ror_true in *. simpl.
    assert (o ≠ committed sh + 1) by lia. set_solver.
Qed.

Lemma advance_loop_wk_corrupt sh :
  shard_wk sh → committed sh + 1 ∈ corrupt sh →
  shard_wk (set_committed (committed sh + 1) (set_corrupt (corrupt sh ∖ {[committed sh + 1]}) sh)).
Proof.
  intros [[? ?] He Ha Hc Hd ? Hh ? ? ?] Hin. split; simpl; auto.
  - pose proof (Hc _ Hin). split; in_range.
  - intros o r Ho. pose proof (He _ _ Ho). split; [|tauto].
    destruct (decide (o = committed sh + 1)) as [->|]; [|lia].
    destruct (Hd (committed sh + 1)); eauto. done.
  - intros o Ho. pose proof (Ha _ Ho).
    assert (o ≠ committed sh + 1) by (intros ->; set_solver). lia.
  - intros o [Ho Hne]%elem_of_difference. pose proof (Hc _ Ho).
    rewrite elem_of_singleton in Hne. lia.
  - intros o Ho. destruct (Hd o Ho). set_solver.
  - set_solver.
  - intros o Ho. specialize (Hh o ltac:(lia)). rewrite ror_true in *. simpl.
    assert (o ≠ committed sh + 1) by lia. set_solver.
Qed.

Lemma collapsed_refl sh : shard_wk sh → collapsed sh sh.
Proof.
  intros [_ _ Ha Hc _ _ _ _ _ _].
  split; [done|lia|lia|naive_solver..].
Qed.

Lemma collapsed_step sh sh1 sh' :
  same_leases sh sh1 → committed sh1 = committed sh + 1 →
  (committed sh + 1 ∈ ackedAhead sh ∨ committed sh + 1 ∈ corrupt sh) →
  (∀ o, o ∈ ackedAhead sh1 ↔ o ∈ ackedAhead sh ∧ o ≠ committed sh + 1) →
  (∀ o, o ∈ corrupt sh1 ↔ o ∈ corrupt sh ∧ o ≠ committed sh + 1) →
  collapsed sh1 sh' → collapsed sh sh'.
Proof.
  intros Hl Hc1 Hin Ha Hc [Hl' Hle Hrun Ha' Hc']. split.
  - unfold same_leases in *. destruct_and!. repeat split; congruence.
  - lia.
  - intros o Ho. destruct (decide (o = committed sh + 1)) as [->|]; [done|].
    destruct (Hrun o ltac:(lia)) as [Hi|Hi]; [left; by apply Ha in Hi as [Hi _]|right; by apply Hc in Hi as [Hi _]].
  - intros o. rewrite Ha', Ha. intuition lia.
  - intros o. rewrite Hc', Hc. intuition lia.
Qed.

Lemma advance_loop_spec fuel sh :
  (size (ackedAhead sh) + size (corrupt sh) < fuel)%nat → shard_wk sh →
  let sh' := advance_loop fuel sh in
  shard_wk sh' ∧ collapsed sh sh' ∧ nextFree sh' = nextFree sh
  ∧ committed sh' + 1 ∉ ackedAhead sh' ∧ committed sh' + 1 ∉ corrupt sh'.
Proof.
  revert sh; induction fuel as [|fuel IH]; intros sh Hf Hwk; [lia|]. cbn [advance_loop].
  rewrite next_no_wrap by done.
  destruct (decide (committed sh + 1 ∈ ackedAhead sh)) as [Hin|Hnin].
  - edestruct IH as (Hwk' & Hcol & Hnf & Hhole); [|by apply advance_loop_wk_ahead|].
    { simpl. assert (size (ackedAhead sh) ≠ 0%nat) by (intros ?%size_empty_inv; set_solver).
      rewrite size_difference by set_solver. rewrite size_singleton. lia. }
    split; [done|]. split; [|done].
    eapply collapsed_step; [| | | | |exact Hcol]; simpl; [done|done|by left| |].
    + intros o. set_solver.
    + intros o. pose proof (wk_disj2 _ Hwk). set_solver.
  - destruct (decide (committed sh + 1 ∈ corrupt sh)) as [Hin|Hnin'].
    + edestruct IH as (Hwk' & Hcol & Hnf & Hhole); [|by apply advance_loop_wk_corrupt|].
      { simpl. assert (size (corrupt sh) ≠ 0%nat) by (intros ?%size_empty_inv; set_solver).
        rewrite size_difference by set_solver. rewrite size_singleton. lia. }
      split; [done|]. split; [|done].
      eapply collapsed_step; [| | | | |exact Hcol]; simpl; [done|done|by right| |]; set_solver.
    + split; [done|]. split; [by apply collapsed_refl|done].
Qed.

(** [advanceCommittedLocked] restores the invariant and moves the frontier
    exactly over the resolved run. *)
Lemma advance_spec sh :
  shard_wk sh →
  shard_ok (advanceCommittedLocked sh) ∧ collapsed sh (advanceCommittedLocked sh).
Proof.
  intros Hwk. unfold advanceCommittedLocked.
  destruct (advance_loop_spec (S (size (ackedAhead sh) + size (corrupt sh))) sh)
    as (Hwk' & Hcol & _ & Hh1 & Hh2); [lia|done|].
  set (sh' := advance_loop _ _) in *. rewrite next_no_wrap by done.
  destruct (Z.ltb_spec (nextFree sh') (committed sh' + 1)).
  - split; [|by destruct Hcol].
    destruct Hwk' as [[? ?] ? ? ? ? ? ? ? ? ?]. split; [split|..]; simpl; auto; try lia; in_range.
  - split; [|done]. by split.
Qed.

Lemma collapsed_resolved sh sh' o :
  shard_wk sh → collapsed sh sh' → resolved sh' o ↔ resolved sh o.
Proof.
  intros Hwk [_ Hle Hrun Ha Hc]. unfold resolved. rewrite Ha, Hc.
  destruct (decide (o <= committed sh)); [split; intros _; left; lia|].
  destruct (decide (o <= committed sh')); [|intuition lia].
  specialize (Hrun o ltac:(lia)). tauto.
Qed.

(** ** Expiry *)

(** The leases still running at [now]. *)
Definition live (now : Z) (m : gmap Z reservation) : gmap Z reservation :=
  filter (λ p, now < expiresAtUnixMs p.2) m.

Lemma live_lookup now m o r :
  live now m !! o = Some r ↔ m !! o = Some r ∧ now < expiresAtUnixMs r.
Proof. unfold live. by rewrite map_lookup_filter_Some. Qed.

(** Everything but the lease table and its two indexes. *)
Definition same_frontier (sh sh' : partitionShard) : Prop :=
  committed sh' = committed sh ∧ ackedAhead sh' = ackedAhead sh
  ∧ aheadVersion sh' = aheadVersion sh ∧ corrupt sh' = corrupt sh ∧ rng sh' = rng sh
  ∧ maxInFlight sh' = maxInFlight sh ∧ maxAckedAhead sh' = maxAckedAhead sh.

#[global] Instance same_frontier_preorder : PreOrder same_frontier.
Proof.
  split; [by intros|]. intros a b c. unfold same_frontier. intros ??.
  destruct_and!. repeat split; congruence.
Qed.

Lemma freed_fields off sh :
  same_frontier sh (freedLocked off sh) ∧ entries (freedLocked off sh) = entries sh
  ∧ expiry (freedLocked off sh) = expiry sh
  ∧ nextFree (freedLocked off sh) = Z.min off (nextFree sh).
Proof.
  unfold freedLocked. destruct (Z.ltb_spec off (nextFree sh)); simpl;
    (split; [done|]); repeat split; lia.
Qed.

Lemma set_expiry_ok sh h :
  shard_ok sh → Heap.heap_ok h →
  (∀ o r, entries sh !! o = Some r → entry_of (o, r) ∈ h) → shard_ok (set_expiry h sh).
Proof. intros Hok ??. open_ok Hok. split; [split|..]; done. Qed.

(** Dropping one lease (expiry or nack) and lowering the scan hint to it. *)
Lemma drop_lease_ok sh h off r :
  shard_ok sh → entries sh !! off = Some r → Heap.heap_ok h →
  (∀ o r, o ≠ off → entries sh !! o = Some r → entry_of (o, r) ∈ h) →
  shard_ok (freedLocked off (set_entries (delete off (entries sh)) (set_expiry h sh))).
Proof.
  intros Hok Hoff Hheap Hcov. open_ok Hok.
  set (sh1 := set_entries (delete off (entries sh)) (set_expiry h sh)).
  destruct (freed_fields off sh1) as ((Hc & Ha & _ & Hk & _) & He & Hx & Hn).
  pose proof (Hent _ _ Hoff) as [? ?].
  split; [split|..]; rewrite ?Hc, ?Ha, ?Hk, ?He, ?Hx, ?Hn; simpl; try done; try lia.
  - intros o r' [_ Ho]%lookup_delete_Some. eauto.
  - intros o [r' [_ Ho]%lookup_delete_Some]. eauto.
  - intros o Ho. specialize (Hhint o ltac:(lia)). rewrite ror_true in *.
    rewrite He, Ha, Hk. simpl. rewrite lookup_delete_ne by lia. done.
  - intros o r' [Hne Ho]%lookup_delete_Some. by apply Hcov.
Qed.

Lemma live_all now m :
  (∀ o r, m !! o = Some r → now < expiresAtUnixMs r) → live now m = m.
Proof.
  intros H. apply map_eq. intros o. apply option_eq. intros r. rewrite live_lookup.
  naive_solver.
Qed.

Lemma live_delete now m o r :
  m !! o = Some r → expiresAtUnixMs r <= now → live now (delete o m) = live now m.
Proof.
  intros Ho Hr. apply map_eq. intros o'. apply option_eq. intros r'.
  rewrite !live_lookup, lookup_delete_Some. split; [tauto|]. intros [Ho' ?].
  repeat split; try done. intros <-. assert (r' = r) as -> by congruence. lia.
Qed.

Lemma entry_live_spec e m :
  entry_live e m = true ↔ m !! ee_offset e = Some (Reservation (ee_expiresAt e) (ee_nonce e)).
Proof.
  unfold entry_live. destruct (m !! ee_offset e) as [[x n]|]; [|naive_solver].
  simpl. rewrite andb_true_iff, !Z.eqb_eq. naive_solver.
Qed.

Lemma entry_of_eq o r e :
  entry_of (o, r) = e → o = ee_offset e ∧ r = Reservation (ee_expiresAt e) (ee_nonce e).
Proof. intros <-. by destruct r. Qed.

Section Ops.
Context {MO : MapOrder}.

(** When the first heap entry is not due, no lease is. *)
Lemma live_head now sh :
  shard_ok sh → (∀ e h, expiry sh = e :: h → now < ee_expiresAt e) →
  live now (entries sh) = entries sh.
Proof.
  intros Hok Hhd. apply live_all. intros o r Ho%(wk_cover _ (ok_wk _ Hok)).
  pose proof (wk_heap _ (ok_wk _ Hok)) as Hheap.
  destruct (expiry sh) as [|e h]; [by apply elem_of_nil in Ho|].
  pose proof (Heap.heap_head_min _ _ _ Hheap Ho). specialize (Hhd _ _ eq_refl). simpl in *. lia.
Qed.

(** The shard after one round of the purge loop popped [e]. *)
Definition purge_round (e : expiryEntry) (h : list expiryEntry) (sh : partitionShard) :=
  if entry_live e (entries sh)
  then freedLocked (ee_offset e) (set_entries (delete (ee_offset e) (entries sh)) (set_expiry h sh))
  else set_expiry h sh.

Lemma purge_round_ok e h sh :
  shard_ok sh → expiry sh ≡ₚ e :: h → Heap.heap_ok h → shard_ok (purge_round e h sh).
Proof.
  intros Hok Hperm Hh.
  assert (∀ o r, entries sh !! o = Some r → entry_of (o, r) ≠ e → entry_of (o, r) ∈ h) as Hcov.
  { intros o r Ho%(wk_cover _ (ok_wk _ Hok)) Hne. rewrite Hperm in Ho.
    apply elem_of_cons in Ho as [?|?]; done. }
  unfold purge_round. destruct (entry_live e (entries sh)) eqn:Hlive.
  - apply entry_live_spec in Hlive. eapply drop_lease_ok; [done|exact Hlive|done|].
    intros o r Hne Ho. apply Hcov; [done|]. intros [-> _]%entry_of_eq. done.
  - apply set_expiry_ok; [done..|]. intros o r Ho. apply Hcov; [done|].
    intros [-> ->]%entry_of_eq.
    assert (entry_live e (entries sh) = true) by (by apply entry_live_spec). congruence.
Qed.

Lemma purge_round_fields e h now sh :
  ee_expiresAt e <= now →
  same_frontier sh (purge_round e h sh) ∧ expiry (purge_round e h sh) = h
  ∧ live now (entries (purge_round e h sh)) = live now (entries sh)
  ∧ len_entries (purge_round e h sh) = len_entries sh - Z.b2z (entry_live e (entries sh)).
Proof.
  intros He. unfold purge_round, len_entries.
  destruct (entry_live e (entries sh)) eqn:Hlive; [|simpl; by repeat split; try lia].
  apply entry_live_spec in Hlive.
  destruct (freed_fields (ee_offset e)
    (set_entries (delete (ee_offset e) (entries sh)) (set_expiry h sh))) as (Hsf & -> & -> & _).
  split; [done|]. split; [done|]. simpl. split; [by apply (live_delete _ _ _ _ Hlive)|].
  rewrite map_size_delete_Some by done.
  assert (size (entries sh) ≠ 0%nat); [|lia].
  intros Hz%map_size_empty_inv. rewrite Hz in Hlive. by rewrite lookup_empty in Hlive.
Qed.

Lemma purge_loop_spec fuel now sh rel :
  (length (expiry sh) <= fuel)%nat → shard_ok sh →
  let '(sh', rel') := purge_loop fuel now sh rel in
  shard_ok sh' ∧ same_frontier sh sh' ∧ entries sh' = live now (entries sh)
  ∧ rel' = rel + len_entries sh - len_entries sh'.
Proof.
  revert sh rel; induction fuel as [|fuel IH]; intros sh rel Hf Hok; cbn [purge_loop].
  { destruct (expiry sh) eqn:Hx; [|simpl in Hf; lia].
    rewrite live_head by (done || by rewrite Hx). split_and!; done || lia. }
  destruct (expiry sh) as [|e0 h0] eqn:Hx.
  { rewrite live_head by (done || by rewrite Hx). split_and!; done || lia. }
  pose proof (wk_heap _ (ok_wk _ Hok)) as Hheap. rewrite Hx in Hheap.
  destruct (Z.leb_spec (ee_expiresAt e0) now) as [Hle|Hgt].
  2:{ rewrite live_head by (done || (rewrite Hx; naive_solver)). split_and!; done || lia. }
  destruct (Heap.pop_spec _ Hheap) as (e & h & -> & [= <-] & Hperm & Hh); [done|].
  pose proof (purge_round_ok e0 h sh Hok ltac:(by rewrite Hx) Hh) as Hok1.
  destruct (purge_round_fields e0 h now sh Hle) as (Hsf & Hex & Hlv & Hlen).
  assert (length h <= fuel)%nat by (apply Permutation_length in Hperm; simpl in *; lia).
  specialize (IH (purge_round e0 h sh) (rel + Z.b2z (entry_live e0 (entries sh)))
    ltac:(by rewrite Hex) Hok1).
  unfold purge_round in *. change (entries (set_expiry h sh)) with (entries sh).
  destruct (entry_live e0 (entries sh)); simpl in IH; rewrite ?Z.add_0_r in IH;
    destruct (purge_loop fuel now _ _) as [sh' rel']; destruct IH as (? & ? & He' & Hrel');
    (split; [done|]); (split; [by etrans|]); (split; [congruence|]); rewrite Hrel', Hlen; simpl; lia.
Qed.

Lemma compact_spec sh :
  shard_ok sh → shard_ok (compactExpiryLocked sh)
  ∧ same_frontier sh (compactExpiryLocked sh)
  ∧ entries (compactExpiryLocked sh) = entries sh.
Proof.
  intros Hok. unfold compactExpiryLocked. case_match; [done|]. split; [|done].
  apply set_expiry_ok; [done|apply Heap.init_heap|]. intros o r Ho.
  rewrite Heap.init_perm, list_elem_of_fmap. exists (o, r). split; [done|].
  by rewrite map_range_perm, elem_of_map_to_list.
Qed.

(** [purgeExpiredLocked] removes exactly the leases that have run out,
    counts them, and leaves everything else of the shard alone. *)
Lemma purge_spec now sh sh' rel :
  shard_ok sh → purgeExpiredLocked now sh = (sh', rel) →
  shard_ok sh' ∧ same_frontier sh sh' ∧ entries sh' = live now (entries sh)
  ∧ rel = len_entries sh - len_entries sh'.
Proof.
  intros Hok. unfold purgeExpiredLocked.
  pose proof (purge_loop_spec (length (expiry sh)) now sh 0 ltac:(lia) Hok) as Hl.
  destruct (purge_loop _ _ _ _) as [sh1 rel1]. destruct Hl as (Hok1 & Hsf1 & He1 & Hr1).
  intros [= <- <-]. destruct (compact_spec sh1 Hok1) as (Hok2 & Hsf2 & He2).
  split; [done|]. split; [by etrans|]. rewrite He2, He1. split; [done|].
  rewrite Hr1. unfold len_entries. by rewrite He2.
Qed.

End Ops.
