(* ===== verification/ShardOps.v ===== *)
(** * What each shard operation does

    Functional specifications of the operations of [Shard.v], one lemma
    per operation and per outcome: the lease table it leaves, what became
    of the resolved offsets, and that the representation invariant is
    kept.  [reserve_choice] is the plain reading of [ReserveNext] (walk up
    from the frontier, no scan hint); [reserveNext_choice] shows the
    optimised scan equal to it. *)

From S2P Require Import Prelude ExpiryHeap Shard.

(** ** The reference reading of [ReserveNext] *)

(** The offset [ReserveNext] hands out from a purged shard: none at the
    in-flight cap; at the acked-ahead cap only the one the frontier waits
    for; otherwise the lowest one above the frontier that is neither
    reserved nor resolved. *)
Definition reserve_choice (sh : partitionShard) (logTail : Z) : option Z :=
  if maxInFlight sh <=? len_entries sh then None else
  let next := committed sh + 1 in
  if aheadFullLocked sh then
    if (next <? logTail) && negb (resolvedOrReservedLocked sh next) then Some next else None
  else scan_free (Z.to_nat (logTail - next)) sh next logTail.

(** [o] is the lowest offset above the frontier that is neither reserved
    nor resolved. *)
Definition lowest_free (sh : partitionShard) (o : Z) : Prop :=
  committed sh < o ∧ resolvedOrReservedLocked sh o = false
  ∧ ∀ o', committed sh < o' < o → resolvedOrReservedLocked sh o' = true.

(** ** The scan *)

Lemma scan_free_some fuel sh off tail x :
  in_i64 off → tail <= max_int64 → scan_free fuel sh off tail = Some x →
  off <= x < tail ∧ resolvedOrReservedLocked sh x = false
  ∧ ∀ o, off <= o < x → resolvedOrReservedLocked sh o = true.
Proof.
  revert off; induction fuel as [|fuel IH]; intros off Hoff Htail; [done|]. cbn [scan_free].
  destruct (Z.ltb_spec off tail); [|done].
  destruct (resolvedOrReservedLocked sh off) eqn:Hr.
  - rewrite i64_id by in_range. intros (? & ? & Hlow)%IH; [|in_range|done].
    split; [lia|]. split; [done|]. intros o Ho.
    destruct (decide (o = off)) as [->|]; [done|apply Hlow; lia].
  - intros [= <-]. split; [lia|]. split; [done|lia].
Qed.

Lemma scan_free_none fuel sh off tail :
  in_i64 off → tail <= max_int64 → (Z.to_nat (tail - off) <= fuel)%nat →
  scan_free fuel sh off tail = None →
  ∀ o, off <= o < tail → resolvedOrReservedLocked sh o = true.
Proof.
  revert off; induction fuel as [|fuel IH]; intros off Hoff Htail Hf Hn o Ho; [lia|].
  cbn [scan_free] in Hn. destruct (Z.ltb_spec off tail); [|lia].
  destruct (resolvedOrReservedLocked sh off) eqn:Hr; [|done].
  rewrite i64_id in Hn by in_range.
  destruct (decide (o = off)) as [->|]; [done|].
  eapply (IH (off + 1)); [in_range|done|lia|done|lia].
Qed.

(** Starting the walk anywhere below the first free offset finds it. *)
Lemma scan_free_skip sh a b tail :
  in_i64 a → a <= b → in_i64 b → tail <= max_int64 →
  (∀ o, a <= o < b → resolvedOrReservedLocked sh o = true) →
  scan_free (Z.to_nat (tail - a)) sh a tail = scan_free (Z.to_nat (tail - b)) sh b tail.
Proof.
  intros Ha Hab Hb Ht Hall.
  destruct (scan_free (Z.to_nat (tail - a)) sh a tail) as [x|] eqn:Ea.
  - apply scan_free_some in Ea as (Hx & Hxf & Hxl); [|done..].
    assert (b <= x) as Hbx.
    { destruct (Z.le_gt_cases b x); [done|]. by rewrite Hall in Hxf by lia. }
    destruct (scan_free (Z.to_nat (tail - b)) sh b tail) as [y|] eqn:Eb.
    + apply scan_free_some in Eb as (Hy & Hyf & Hyl); [|done..].
      destruct (Z.lt_trichotomy x y) as [?|[->|?]]; [|done|].
      * by rewrite Hyl in Hxf by lia.
      * by rewrite Hxl in Hyf by lia.
    + eapply scan_free_none in Eb; [|done..|exact (conj Hbx (proj2 Hx))]. congruence.
  - destruct (scan_free (Z.to_nat (tail - b)) sh b tail) as [y|] eqn:Eb; [|done].
    apply scan_free_some in Eb as (Hy & Hyf & _); [|done..].
    eapply scan_free_none with (o := y) in Ea; [|done..|lia]. congruence.
Qed.

Lemma reserve_choice_lowest sh tail o :
  shard_ok sh → tail <= max_int64 → reserve_choice sh tail = Some o →
  lowest_free sh o ∧ o < tail ∧ len_entries sh < maxInFlight sh
  ∧ (aheadFullLocked sh = true → o = committed sh + 1).
Proof.
  intros Hok Ht. open_ok Hok. unfold reserve_choice, lowest_free.
  destruct (Z.leb_spec (maxInFlight sh) (len_entries sh)); [done|].
  destruct (aheadFullLocked sh).
  - destruct (Z.ltb_spec (committed sh + 1) tail); [|done].
    destruct (resolvedOrReservedLocked sh (committed sh + 1)) eqn:Hr; [done|].
    intros [= <-]. split_and!; try done; try lia.
  - intros (? & ? & Hl)%scan_free_some; [|in_range|done].
    split_and!; try done; try lia. intros o' ?. apply Hl. lia.
Qed.

Section Specs.
Context {MO : MapOrder}.

(** ** Reserving *)

(** The walk that starts at the scan hint [nextFree] takes the same
    decision as the plain walk from the committed frontier. *)
Lemma reserveNext_choice (now vt tail : Z) (sh : partitionShard) :
  shard_ok sh → tail <= max_int64 →
  let shp := (purgeExpiredLocked now sh).1 in
  match reserve_choice shp tail with
  | Some off => reserveNextLocked now vt tail sh = reserveLocked off now vt shp
  | None => ∃ reason, reserveNextLocked now vt tail sh = Some (shp, skipped reason)
  end.
Proof.
  intros Hok Ht. unfold reserveNextLocked, reserve_choice.
  destruct (purgeExpiredLocked now sh) as [shp rel] eqn:Hp. simpl.
  apply purge_spec in Hp as (Hokp & _); [|done]. pose proof Hokp as Hokp'. open_ok Hokp'.
  destruct (maxInFlight shp <=? len_entries shp); [eauto|].
  rewrite next_no_wrap by (by apply ok_wk).
  destruct (Z.leb_spec tail (committed shp + 1)) as [Hte|Hte].
  { destruct (Z.ltb_spec (committed shp + 1) tail); [lia|].
    replace (Z.to_nat (tail - (committed shp + 1))) with 0%nat by lia. simpl. destruct (aheadFullLocked shp); eauto. }
  destruct (Z.ltb_spec (committed shp + 1) tail); [|lia]. simpl.
  destruct (aheadFullLocked shp).
  { destruct (resolvedOrReservedLocked shp (committed shp + 1)); simpl; eauto. }
  rewrite (scan_free_skip shp (committed shp + 1) (Z.max (committed shp + 1) (nextFree shp)) tail);
    [|in_range|lia|in_range|done|intros o Ho; apply Hhint; lia].
  destruct (scan_free _ _ _ _); eauto.
Qed.

Lemma reserveLocked_some off now vt sh sh' r :
  reserveLocked off now vt sh = Some (sh', r) →
  ∃ nonce draws, nextNonceLocked (rng sh) = Some (nonce, draws)
    ∧ let exp := i64 (now + milliseconds vt) in
      r = MkReserveResult true off nonce exp ""
      ∧ entries sh' = <[off := Reservation exp nonce]> (entries sh)
      ∧ expiry sh' = Heap.push (expiry sh) (ExpiryEntry off exp nonce)
      ∧ committed sh' = committed sh ∧ ackedAhead sh' = ackedAhead sh
      ∧ aheadVersion sh' = aheadVersion sh ∧ corrupt sh' = corrupt sh ∧ rng sh' = draws
      ∧ maxInFlight sh' = maxInFlight sh ∧ maxAckedAhead sh' = maxAckedAhead sh
      ∧ nextFree sh' = if nextFree sh <=? off then i64 (off + 1) else nextFree sh.
Proof.
  unfold reserveLocked. destruct (nextNonceLocked (rng sh)) as [[n ds]|]; [|done].
  intros [= <- <-]. exists n, ds. split; [done|]. simpl.
  destruct (nextFree sh <=? off); by split_and!.
Qed.

Lemma push_mem h e x : x ∈ Heap.push h e ↔ x = e ∨ x ∈ h.
Proof. by rewrite Heap.push_perm, elem_of_cons. Qed.

(** A lease written at an offset that is neither at the frontier nor
    resolved keeps the invariant, whatever index entries are kept. *)
Lemma reserveLocked_ok off now vt sh sh' r :
  shard_ok sh → lowest_free sh off → off < max_int64 →
  reserveLocked off now vt sh = Some (sh', r) → shard_ok sh'.
Proof.
  intros Hok (Hgt & Hfree & Hlow) Hmax Hr. open_ok Hok.
  apply reserveLocked_some in Hr as (n & ds & Hn%nextNonce_pos & -> & He & Hx & Hc & Ha & _ & Hk & _ & _ & _ & Hnf).
  assert (nextFree sh <= off) as Hno.
  { destruct (Z.le_gt_cases (nextFree sh) off); [done|].
    rewrite (Hhint off) in Hfree by lia. done. }
  rewrite (proj2 (Z.leb_le _ _) Hno), i64_id in Hnf by in_range.
  apply ror_false in Hfree as (Hfe & Hfa & Hfc).
  split; [split|..]; rewrite ?Hc, ?Ha, ?Hk, ?He, ?Hx, ?Hnf; try done; try lia.
  - intros o r [[<- <-]|[_ Ho]]%lookup_insert_Some; [simpl; lia|by apply Hent in Ho].
  - intros o [r [[<- <-]|[_ Ho]]%lookup_insert_Some]; [done|apply Hdj; eauto].
  - intros o Ho. apply ror_true. rewrite He, Ha, Hk.
    destruct (decide (o = off)) as [->|]; [rewrite lookup_insert_eq; eauto|].
    rewrite lookup_insert_ne by done. apply ror_true. apply Hlow. lia.
  - auto with narad.
  - intros o r [[<- <-]|[_ Ho]]%lookup_insert_Some; rewrite push_mem; [by left|right; auto].
Qed.

(** Every field a reservation leaves alone (all but the lease table, its
    indexes and the nonce source). *)
Definition same_resolved (sh sh' : partitionShard) : Prop :=
  committed sh' = committed sh ∧ ackedAhead sh' = ackedAhead sh
  ∧ aheadVersion sh' = aheadVersion sh ∧ corrupt sh' = corrupt sh
  ∧ maxInFlight sh' = maxInFlight sh ∧ maxAckedAhead sh' = maxAckedAhead sh.

Lemma same_frontier_resolved sh sh' : same_frontier sh sh' → same_resolved sh sh'.
Proof. intros (?&?&?&?&_&?&?). by split_and!. Qed.

#[global] Instance same_resolved_preorder : PreOrder same_resolved.
Proof.
  split; [by intros|]. intros a b c. unfold same_resolved. intros ??.
  destruct_and!. repeat split; congruence.
Qed.

Lemma same_resolved_iff sh sh' o : same_resolved sh sh' → resolved sh' o ↔ resolved sh o.
Proof. intros (Hc & Ha & _ & Hk & _). unfold resolved. by rewrite Hc, Ha, Hk. Qed.

(** Everything [ReserveNext] can do to a shard. *)
Lemma reserveNext_spec now vt tail sh sh' r :
  shard_ok sh → tail <= max_int64 → reserveNextLocked now vt tail sh = Some (sh', r) →
  let shp := (purgeExpiredLocked now sh).1 in
  shard_ok sh' ∧ same_resolved sh sh'
  ∧ match reserve_choice shp tail with
    | Some off =>
        Reserved r = true ∧ r_Offset r = off ∧ 0 < r_Nonce r
        ∧ ExpiresAtUnixMs r = i64 (now + milliseconds vt)
        ∧ entries sh' = <[off := Reservation (ExpiresAtUnixMs r) (r_Nonce r)]> (live now (entries sh))
    | None => Reserved r = false ∧ entries sh' = live now (entries sh) ∧ rng sh' = rng sh
    end.
Proof.
  intros Hok Ht Hr. pose proof (reserveNext_choice now vt tail sh Hok Ht) as Hch.
  destruct (purgeExpiredLocked now sh) as [shp rel] eqn:Hp. simpl in *.
  apply purge_spec in Hp as (Hokp & Hsf & He & _); [|done].
  destruct (reserve_choice shp tail) as [off|] eqn:Hc.
  - rewrite Hr in Hch. symmetry in Hch.
    destruct (reserve_choice_lowest _ _ _ Hokp Ht Hc) as (Hlow & Htl & _).
    pose proof (reserveLocked_ok off now vt shp sh' r Hokp Hlow ltac:(in_range) Hch).
    apply reserveLocked_some in Hch as (n & ds & Hn%nextNonce_pos & -> & He' & _ & ? & ? & ? & ? & _ & ? & ? & _).
    split; [done|]. split.
    + etrans; [by apply same_frontier_resolved|]. by split_and!.
    + rewrite <-He. by split_and!.
  - destruct Hch as [reason Hch]. rewrite Hr in Hch. simplify_eq/=.
    split; [done|]. split; [by apply same_frontier_resolved|].
    destruct Hsf as (_&_&_&_&?&_). by split_and!.
Qed.

(** ** Resolving *)

Lemma handle_live_spec sh off n :
  handle_live sh off n = true ↔ ∃ x, entries sh !! off = Some (Reservation x n).
Proof.
  unfold handle_live. destruct (entries sh !! off) as [[x m]|]; [|naive_solver].
  simpl. rewrite Z.eqb_eq. naive_solver.
Qed.

(** A receipt handle names a running lease at [now]. *)
Definition holds_lease (now : Z) (sh : partitionShard) (off nonce : Z) : Prop :=
  ∃ x, entries sh !! off = Some (Reservation x nonce) ∧ now < x.

Lemma handle_live_purged now sh shp off n :
  entries shp = live now (entries sh) →
  handle_live shp off n = true ↔ holds_lease now sh off n.
Proof.
  intros He. rewrite handle_live_spec, He. unfold holds_lease.
  split; intros [x Hx]; exists x; by rewrite live_lookup in *.
Qed.

(** Removing the lease the frontier waits for and stepping onto it. *)
Lemma frontier_wk sh r :
  shard_ok sh → entries sh !! (committed sh + 1) = Some r →
  shard_wk (set_committed (committed sh + 1)
             (set_entries (delete (committed sh + 1) (entries sh)) sh)).
Proof.
  intros Hok Hr. open_ok Hok. pose proof (Hent _ _ Hr).
  split; simpl; try done.
  - split; in_range.
  - intros o r' [Hne Ho]%lookup_delete_Some. pose proof (Hent _ _ Ho). split; [lia|tauto].
  - intros o Ho. pose proof (Hah _ Ho). assert (o ≠ committed sh + 1) by (by intros ->). lia.
  - intros o Ho. pose proof (Hco _ Ho). assert (o ≠ committed sh + 1) by (by intros ->). lia.
  - intros o [r' [_ Ho]%lookup_delete_Some]. eauto.
  - intros o Ho. specialize (Hhint o ltac:(lia)). rewrite ror_true in *. simpl.
    by rewrite lookup_delete_ne by lia.
  - intros o r' [_ Ho]%lookup_delete_Some. eauto.
Qed.

Lemma elem_of_park (off o : Z) (s : gset Z) : o ∈ {[off]} ∪ s ↔ o = off ∨ o ∈ s.
Proof. by rewrite elem_of_union, elem_of_singleton. Qed.

(** Moving a lease ahead of the frontier into the acked-ahead set. *)
Lemma park_acked_ok sh off r v :
  shard_ok sh → entries sh !! off = Some r → off ≠ committed sh + 1 →
  shard_ok (set_entries (delete off (entries sh)) (set_ahead ({[off]} ∪ ackedAhead sh) v sh)).
Proof.
  intros Hok Hr Hne. open_ok Hok. pose proof (Hent _ _ Hr).
  destruct (Hdj off) as [Hna Hnc]; [eauto|].
  split; [split|..]; simpl; try done.
  - intros o r' [_ Ho]%lookup_delete_Some. eauto.
  - intros o [->|Ho]%elem_of_park; [lia|eauto].
  - intros o [r' [Hno Ho]%lookup_delete_Some]. destruct (Hdj o); [by eexists|]. split; [|done]. by rewrite elem_of_park; intros [?|?].
  - intros o [->|Ho]%elem_of_park; [done|by apply Hdj2].
  - intros o Ho. specialize (Hhint o Ho). rewrite ror_true in *. simpl. rewrite elem_of_park.
    destruct (decide (o = off)) as [->|]; [tauto|]. rewrite lookup_delete_ne by done. tauto.
  - intros o r' [_ Ho]%lookup_delete_Some. eauto.
  - split; [|done]. by rewrite elem_of_park; intros [?|?].
Qed.

(** The same for an offset skipped as corrupt. *)
Lemma park_corrupt_ok sh off r :
  shard_ok sh → entries sh !! off = Some r → off ≠ committed sh + 1 →
  shard_ok (set_entries (delete off (entries sh)) (set_corrupt ({[off]} ∪ corrupt sh) sh)).
Proof.
  intros Hok Hr Hne. open_ok Hok. pose proof (Hent _ _ Hr).
  destruct (Hdj off) as [Hna Hnc]; [eauto|].
  split; [split|..]; simpl; try done.
  - intros o r' [_ Ho]%lookup_delete_Some. eauto.
  - intros o [->|Ho]%elem_of_park; [lia|eauto].
  - intros o [r' [Hno Ho]%lookup_delete_Some]. destruct (Hdj o); [by eexists|]. split; [done|]. by rewrite elem_of_park; intros [?|?].
  - intros o Ho [->|Ho']%elem_of_park; [done|by apply (Hdj2 o)].
  - intros o Ho. specialize (Hhint o Ho). rewrite ror_true in *. simpl. rewrite elem_of_park.
    destruct (decide (o = off)) as [->|]; [tauto|]. rewrite lookup_delete_ne by done. tauto.
  - intros o r' [_ Ho]%lookup_delete_Some. eauto.
  - split; [done|]. by rewrite elem_of_park; intros [?|?].
Qed.

(** Everything [CommitHandle] and [SkipCorrupt] can do to a shard. *)
Lemma resolve_spec now off n k sh sh' res eff :
  shard_ok sh → resolveLocked now off n k sh = (sh', res, eff) →
  shard_ok sh' ∧
  match res with
  | Ok _ => holds_lease now sh off n
      ∧ entries sh' = delete off (live now (entries sh))
      ∧ committed sh <= committed sh'
      ∧ (∀ o, resolved sh' o ↔ resolved sh o ∨ o = off)
      ∧ maxInFlight sh' = maxInFlight sh ∧ maxAckedAhead sh' = maxAckedAhead sh
  | Err e => e = ErrHandleStale ∧ ¬ holds_lease now sh off n
      ∧ entries sh' = live now (entries sh) ∧ same_frontier sh sh'
  end.
Proof.
  intros Hok. unfold resolveLocked.
  destruct (purgeExpiredLocked now sh) as [shp rel] eqn:Hp.
  apply purge_spec in Hp as (Hokp & Hsf & He & _); [|done].
  destruct (handle_live shp off n) eqn:Hl; cbn [negb].
  2:{ intros [= <- <- <-]. split; [done|]. split; [done|]. split; [|done].
      intros Hh%(handle_live_purged now sh shp off n He). congruence. }
  pose proof Hl as Hl'. apply (handle_live_purged now sh shp off n He) in Hl'.
  apply handle_live_spec in Hl as [x Hx].
  destruct Hsf as (Hc & Ha & _ & Hk & _ & Hm1 & Hm2).
  assert (∀ o, resolved shp o ↔ resolved sh o) as Hres.
  { intros o. unfold resolved. by rewrite Hc, Ha, Hk. }
  rewrite next_no_wrap by (by apply ok_wk). rewrite <-He, <-Hc, <-Hm1, <-Hm2.
  destruct (Z.eqb_spec off (committed shp + 1)) as [->|Hne].
  - intros [= <- <- <-].
    pose proof (frontier_wk shp _ Hokp Hx) as Hwk. simpl in Hwk.
    destruct (advance_spec _ Hwk) as [Hok' Hcol]. split; [done|]. split; [done|].
    pose proof (col_leases _ _ Hcol) as (He' & _ & _ & Hm1' & Hm2').
    pose proof (col_le _ _ Hcol) as Hle. simpl in *.
    split; [done|]. split; [lia|]. split; [|done].
    intros o. rewrite (collapsed_resolved _ _ o Hwk Hcol), <-Hres. unfold resolved. simpl.
    pose proof (Z.le_gt_cases o (committed shp)). intuition lia.
  - destruct k; intros [= <- <- <-].
    + rewrite bool_decide_true by (simpl; set_solver). simpl.
      split; [by apply (park_acked_ok _ _ _ _ Hokp Hx)|].
      split; [done|]. split; [done|]. split; [done|]. split; [|done].
      intros o. rewrite <-Hres. unfold resolved. simpl. rewrite elem_of_park. tauto.
    + destruct (wk_disj _ (ok_wk _ Hokp) off) as [Hna _]; [eauto|].
      rewrite bool_decide_false by done. simpl.
      split; [by apply (park_corrupt_ok _ _ _ Hokp Hx)|].
      split; [done|]. split; [done|]. split; [done|]. split; [|done].
      intros o. rewrite <-Hres. unfold resolved. simpl. rewrite elem_of_park. tauto.
Qed.

(** *** Extending and releasing a lease *)

Lemma extend_spec now off n vt sh sh' res eff :
  shard_ok sh → extendLocked now off n vt sh = (sh', res, eff) →
  shard_ok sh' ∧ same_frontier sh sh' ∧
  match res with
  | Ok exp => holds_lease now sh off n ∧ exp = i64 (now + milliseconds vt)
      ∧ entries sh' = <[off := Reservation exp n]> (live now (entries sh))
  | Err e => e = ErrHandleStale ∧ ¬ holds_lease now sh off n
      ∧ entries sh' = live now (entries sh)
  end.
Proof.
  intros Hok. unfold extendLocked.
  destruct (purgeExpiredLocked now sh) as [shp rel] eqn:Hp.
  apply purge_spec in Hp as (Hokp & Hsf & He & _); [|done].
  destruct (handle_live shp off n) eqn:Hl; cbn [negb]; intros [= <- <- <-].
  - split; [|split; [done|]].
    + apply handle_live_spec in Hl as [x Hx]. open_ok Hokp. pose proof (Hent _ _ Hx) as Hoff.
      simpl in Hoff. split; [split|..]; simpl; try done.
      * intros o r [[<- <-]|[_ Ho]]%lookup_insert_Some; [done|eauto].
      * intros o [r [[<- <-]|[_ Ho]]%lookup_insert_Some]; apply Hdj; eauto.
      * intros o Ho. specialize (Hhint o Ho). rewrite ror_true in *. simpl.
        destruct (decide (o = off)) as [->|]; [rewrite lookup_insert_eq; eauto|].
        by rewrite lookup_insert_ne.
      * auto with narad.
      * intros o r [[<- <-]|[_ Ho]]%lookup_insert_Some; rewrite push_mem; [by left|right; auto].
    + simpl. rewrite He. split; [by apply (handle_live_purged now sh shp off n He)|done].
  - split; [done|]. split; [done|]. split; [done|]. split; [|done].
    intros Hh%(handle_live_purged now sh shp off n He). congruence.
Qed.

Lemma release_spec now off n sh sh' res eff :
  shard_ok sh → releaseLocked now off n sh = (sh', res, eff) →
  shard_ok sh' ∧ same_frontier sh sh' ∧
  match res with
  | Ok _ => holds_lease now sh off n ∧ entries sh' = delete off (live now (entries sh))
  | Err e => e = ErrHandleStale ∧ ¬ holds_lease now sh off n
      ∧ entries sh' = live now (entries sh)
  end.
Proof.
  intros Hok. unfold releaseLocked.
  destruct (purgeExpiredLocked now sh) as [shp rel] eqn:Hp.
  apply purge_spec in Hp as (Hokp & Hsf & He & _); [|done].
  destruct (handle_live shp off n) eqn:Hl; cbn [negb]; intros [= <- <- <-].
  - pose proof Hl as Hl'. apply (handle_live_purged now sh shp off n He) in Hl'.
    apply handle_live_spec in Hl as [x Hx].
    destruct (freed_fields off (set_entries (delete off (entries shp)) shp)) as (Hsf' & He' & _).
    split; [|split; [by etrans|]].
    + pose proof (drop_lease_ok shp (expiry shp) off _ Hokp Hx) as Hd.
      open_ok Hokp. destruct shp. apply Hd; eauto.
    + rewrite He'. simpl. by rewrite He.
  - split; [done|]. split; [done|]. split; [done|]. split; [|done].
    intros Hh%(handle_live_purged now sh shp off n He). congruence.
Qed.

(** *** Skipping what retention deleted *)

Definition keep_from (oldest : Z) (sh : partitionShard) (v : Z) : partitionShard :=
  set_committed (oldest - 1)
    (set_corrupt (filter (λ off, oldest <= off) (corrupt sh))
      (set_ahead (filter (λ off, oldest <= off) (ackedAhead sh)) v
        (set_entries (filter (λ p, oldest <= p.1) (entries sh)) sh))).

Lemma keep_from_wk oldest sh v :
  shard_ok sh → committed sh < oldest - 1 → oldest <= max_int64 → shard_wk (keep_from oldest sh v).
Proof.
  intros Hok Hlt Hmax. open_ok Hok. split; simpl; try done.
  - split; in_range.
  - intros o r [Ho ?]%map_lookup_filter_Some. apply Hent in Ho. simpl in *. lia.
  - intros o [? Ho]%elem_of_filter. apply Hah in Ho. lia.
  - intros o [? Ho]%elem_of_filter. apply Hco in Ho. lia.
  - intros o [r [Ho _]%map_lookup_filter_Some]. rewrite !elem_of_filter.
    destruct (Hdj o); [by eexists|tauto].
  - intros o [_ Ho]%elem_of_filter [_ Ho']%elem_of_filter. by apply (Hdj2 o).
  - intros o Ho. specialize (Hhint o ltac:(lia)). rewrite ror_true in *. simpl.
    rewrite !elem_of_filter. destruct Hhint as [[r Hr]|Hr]; [left; exists r|right; intuition lia].
    apply map_lookup_filter_Some. split; [done|simpl; lia].
  - intros o r [Ho _]%map_lookup_filter_Some. eauto.
Qed.

Lemma keep_from_resolved oldest sh v o :
  committed sh < oldest - 1 → resolved (keep_from oldest sh v) o ↔ resolved sh o ∨ o < oldest.
Proof.
  intros ?. unfold resolved. simpl. rewrite !elem_of_filter.
  destruct (Z.le_gt_cases oldest o); intuition lia.
Qed.

Lemma skipMissing_spec now off n oldest sh sh' res eff :
  shard_ok sh → off < oldest <= max_int64 → skipMissingLocked now off n oldest sh = (sh', res, eff) →
  shard_ok sh' ∧
  match res with
  | Ok d => holds_lease now sh off n
      ∧ entries sh' = filter (λ p, oldest <= p.1) (live now (entries sh))
      ∧ oldest - 1 <= committed sh' ∧ d = i64 (committed sh' - committed sh)
      ∧ (∀ o, resolved sh' o ↔ resolved sh o ∨ o < oldest)
      ∧ maxInFlight sh' = maxInFlight sh ∧ maxAckedAhead sh' = maxAckedAhead sh
      ∧ eff = Effects (Some (committed sh')) true
  | Err e => e = ErrHandleStale ∧ ¬ holds_lease now sh off n
      ∧ entries sh' = live now (entries sh) ∧ same_frontier sh sh' ∧ eff = no_effects
  end.
Proof.
  intros Hok Hold. unfold skipMissingLocked.
  destruct (purgeExpiredLocked now sh) as [shp rel] eqn:Hp.
  apply purge_spec in Hp as (Hokp & Hsf & He & _); [|done].
  destruct (handle_live shp off n) eqn:Hl; cbn [negb].
  2:{ intros [= <- <- <-]. split; [done|]. split_and!; try done.
      intros Hh%(handle_live_purged now sh shp off n He). congruence. }
  pose proof Hl as Hl'. apply (handle_live_purged now sh shp off n He) in Hl'.
  apply handle_live_spec in Hl as [x Hx]. pose proof (wk_entries _ (ok_wk _ Hokp) _ _ Hx) as [Hoff _].
  pose proof (proj1 (wk_range _ (ok_wk _ Hokp))) as Hrg. unfold in_i64 in Hrg.
  cbn [committed set_corrupt set_ahead set_entries aheadVersion ackedAhead corrupt].
  rewrite (i64_id (oldest - 1)) by in_range.
  destruct (Z.ltb_spec (committed shp) (oldest - 1)); [|lia].
  set (v := u64 _). fold (keep_from oldest shp v).
  change (set_committed (oldest - 1) _) with (keep_from oldest shp v).
  pose proof (keep_from_wk oldest shp v Hokp ltac:(lia) ltac:(lia)) as Hwk.
  destruct (advance_spec _ Hwk) as [Hok' Hcol]. intros [= <- <- <-].
  pose proof (col_leases _ _ Hcol) as (He' & _ & _ & Hm1' & Hm2').
  pose proof (col_le _ _ Hcol) as Hle. simpl in Hle.
  destruct Hsf as (Hc & Ha & _ & Hk & _ & Hm1 & Hm2).
  split; [done|]. split; [done|]. rewrite He', Hm1', Hm2', <-He, <-Hc. simpl.
  split; [done|]. split; [lia|]. split; [done|]. split; [|by split_and!].
  intros o. rewrite (collapsed_resolved _ _ o Hwk Hcol), keep_from_resolved by lia.
  unfold resolved. by rewrite Hc, Ha, Hk.
Qed.

(** *** Creation and recovery *)

Lemma new_ok c caps draws :
  in_i64 c → c < max_int64 → shard_ok (newPartitionShard c caps draws).
Proof.
  intros. assert (i64 (c + 1) = c + 1) as Hn by (apply i64_id; in_range).
  split; [split|..]; simpl; rewrite ?Hn; try done; try lia; try set_solver.
  all: auto with narad.
Qed.

Lemma seed_fold_fields offs sh :
  let sh' := foldl seed_one sh offs in
  same_leases sh sh' ∧ committed sh' = committed sh ∧ corrupt sh' = corrupt sh
  ∧ nextFree sh' = nextFree sh
  ∧ ∀ o, o ∈ ackedAhead sh' ↔ o ∈ ackedAhead sh ∨ (o ∈ offs ∧ committed sh < o).
Proof.
  revert sh; induction offs as [|x offs IH]; intros sh; cbn [foldl].
  { split; [done|]. split_and!; try done. intros o. rewrite elem_of_nil. tauto. }
  destruct (IH (seed_one sh x)) as (Hl & Hc & Hk & Hn & Ha).
  unfold seed_one in *. destruct (Z.ltb_spec (committed sh) x); simpl in *.
  - split; [done|]. split_and!; try done. intros o.
    rewrite Ha, elem_of_park, elem_of_cons. naive_solver.
  - split; [done|]. split_and!; try done. intros o. rewrite Ha, elem_of_cons. naive_solver lia.
Qed.

(** Recovery: the shard built from a persisted frontier and acked-ahead
    record resolves exactly what was persisted. *)
Lemma seed_spec c caps draws offs :
  in_i64 c → c < max_int64 → Forall (λ o, o < max_int64) offs →
  let sh := seedAheadLocked offs (newPartitionShard c caps draws) in
  shard_ok sh ∧ entries sh = ∅ ∧ c <= committed sh
  ∧ (∀ o, resolved sh o ↔ o <= c ∨ o ∈ offs)
  ∧ maxInFlight sh = MaxInFlight caps ∧ maxAckedAhead sh = MaxAckedAhead caps.
Proof.
  intros Hc Hm Hoffs. unfold seedAheadLocked.
  destruct (seed_fold_fields offs (newPartitionShard c caps draws))
    as ((He & Hx & Hr & Hm1 & Hm2) & Hc' & Hk & Hn & Ha).
  set (sh1 := foldl _ _ _) in *. simpl in *.
  assert (i64 (c + 1) = c + 1) as Hn1 by (apply i64_id; in_range).
  assert (shard_wk sh1) as Hwk.
  { split; rewrite ?Hc', ?He, ?Hk, ?Hn, ?Hx, ?Hn1; try done; try lia; try set_solver.
    - intros o [?|[Ho ?]]%Ha; [set_solver|].
      rewrite Forall_forall in Hoffs. apply Hoffs in Ho. lia.
    - intros o [r Hr0]. by rewrite lookup_empty in Hr0.
  }
  destruct (advance_spec _ Hwk) as [Hok Hcol].
  pose proof (col_leases _ _ Hcol) as (He' & _ & _ & Hm1' & Hm2').
  pose proof (col_le _ _ Hcol) as Hle.
  split; [done|]. split; [congruence|]. split; [lia|]. split; [|split; congruence].
  intros o. rewrite (collapsed_resolved _ _ o Hwk Hcol). unfold resolved. rewrite Hc', Hk, Ha.
  pose proof (Z.le_gt_cases o c). set_solver by lia.
Qed.

(** C10. [ReserveNext] is total and takes the reference decision: on every
    well-formed shard, given one usable random draw, it returns; it hands
    out an offset exactly when the plain walk up from the frontier (no scan
    hint) finds one the caps allow, and then that offset is the lowest one
    that is neither reserved nor resolved, below the log tail, under a
    fresh lease that ends at [now + visibilityTimeout].  The frontier and
    the resolved sets are untouched. *)
Theorem reserveNext_correct (now vt tail : Z) (sh : partitionShard) :
  shard_ok sh → tail <= max_int64 → Exists (λ u, 2 <= u < two64) (rng sh) →
  let shp := (purgeExpiredLocked now sh).1 in
  ∃ sh' r, reserveNextLocked now vt tail sh = Some (sh', r)
    ∧ shard_ok sh' ∧ same_resolved sh sh'
    ∧ match reserve_choice shp tail with
      | Some off =>
          Reserved r = true ∧ r_Offset r = off ∧ off < tail ∧ lowest_free shp off
          ∧ (aheadFullLocked shp = true → off = committed sh + 1)
          ∧ entries sh' = <[off := Reservation (i64 (now + milliseconds vt)) (r_Nonce r)]>
                            (live now (entries sh))
      | None => Reserved r = false ∧ entries sh' = live now (entries sh)
      end.
Proof.
  intros Hok Ht Hd. pose proof (reserveNext_choice now vt tail sh Hok Ht) as Hch.
  pose proof (reserveNext_spec now vt tail sh) as Hsp.
  destruct (purgeExpiredLocked now sh) as [shp rel] eqn:Hp. simpl in *.
  apply purge_spec in Hp as (Hokp & Hsf & _ & _); [|done].
  destruct Hsf as (Hcm & _ & _ & _ & Hrng & _).
  assert (∃ sh' r, reserveNextLocked now vt tail sh = Some (sh', r)) as (sh' & r & Hr).
  { destruct (reserve_choice shp tail) as [off|]; [|destruct Hch; eauto].
    rewrite Hch. unfold reserveLocked. rewrite Hrng.
    destruct (nextNonce_some _ Hd) as [[n ds] ->]. eauto. }
  exists sh', r. destruct (Hsp sh' r Hok Ht Hr) as (Hok' & Hsr & Hcase).
  split; [done|]. split; [done|]. split; [done|].
  destruct (reserve_choice shp tail) as [off|] eqn:Hc; [|tauto].
  destruct (reserve_choice_lowest _ _ _ Hokp Ht Hc) as (Hlow & Htl & _ & Hfull).
  destruct Hcase as (? & ? & _ & Hx & He). rewrite He, Hx. rewrite <-Hcm. by split_and!.
Qed.

End Specs.

(** A fresh partition with two offsets in its log. *)
Lemma reserveNext_correct_witness :
  ∃ sh' r, reserveNextLocked 1000 30000000000 2 (newPartitionShard (-1) (MkCaps 2 2) [8]) = Some (sh', r)
    ∧ shard_ok sh' ∧ same_resolved (newPartitionShard (-1) (MkCaps 2 2) [8]) sh'
    ∧ Reserved r = true ∧ r_Offset r = 0.
Proof.
  destruct (reserveNext_correct 1000 30000000000 2 (newPartitionShard (-1) (MkCaps 2 2) [8]))
    as (sh' & r & Hr & Hok & Hs & Hcase).
  - apply new_ok; done.
  - done.
  - by constructor.
  - exists sh', r. split_and!; try done; vm_compute in Hr; by injection Hr as <- <-.
Defined.
