(* ===== verification/Queue.v ===== *)
(** * The partition as an abstract lease queue

    What a partition shard promises, with none of its representation: a set
    of settled offsets and a table of running leases ([queue]).  [qstep] is
    the specification of the operations on it; [shard_refines_queue] and
    [shard_simulates_queue] show that [Shard.v] implements it, the heap, the
    scan hint, the frontier and the lazy purging included. *)

From S2P Require Import Prelude ExpiryHeap Shard ShardOps.

(** ** The specification *)

Record queue := Queue {
  settled : Z → Prop;
  leases : gmap Z reservation;
}.

Inductive qop :=
| QReserve (visibilityTimeout logTail : Z)
| QCommit (offset nonce : Z)
| QSkipCorrupt (offset nonce : Z)
| QSkipMissing (offset nonce oldest : Z)
| QExtend (offset nonce visibilityTimeout : Z)
| QRelease (offset nonce : Z)
| QPurge.

Inductive answer :=
| ALease (offset nonce deadline : Z)
| ANothing
| ADone
| ADeadline (deadline : Z)
| ASkipped (moved : Z)
| AStale.

(** Time passes: leases whose deadline is reached are gone. *)
Definition expire (now : Z) (q : queue) : queue := Queue (settled q) (live now (leases q)).

(** The offset below which everything is settled. *)
Definition frontier (q : queue) (c : Z) : Prop :=
  (∀ o, o <= c → settled q o) ∧ ¬ settled q (c + 1).

Definition vacant (q : queue) (o : Z) : Prop := ¬ settled q o ∧ leases q !! o = None.

(** The same settled offsets and leases. *)
Definition qequiv (q q' : queue) : Prop :=
  (∀ o, settled q o ↔ settled q' o) ∧ leases q = leases q'.

Definition handle_of (o : qop) : option (Z * Z) :=
  match o with
  | QCommit off n | QSkipCorrupt off n | QSkipMissing off n _
  | QExtend off n _ | QRelease off n => Some (off, n)
  | QReserve _ _ | QPurge => None
  end.

(** Why nothing may be handed out: nothing below the log tail is vacant,
    the running leases are at their cap, or so many offsets are settled
    ahead of the frontier that only the frontier's own offset may go out,
    and that one is not available. *)
Definition withheld (caps : Caps) (q : queue) (tail : Z) : Prop :=
  (∀ o, o < tail → ¬ vacant q o)
  ∨ MaxInFlight caps <= Z.of_nat (size (leases q))
  ∨ ∃ (S : gset Z) c, frontier q c ∧ (∀ o, o ∈ S → settled q o ∧ c < o)
      ∧ MaxAckedAhead caps <= Z.of_nat (size S) ∧ (vacant q (c + 1) → tail <= c + 1).

(** One operation at time [now]. *)
Inductive qstep (caps : Caps) (now : Z) : queue → qop → answer → queue → Prop :=
| qs_lease q q' vt tail off n :
    vacant q off → off < tail → (∀ o, o < off → ¬ vacant q o) → 0 < n →
    (∀ o, settled q' o ↔ settled q o) →
    leases q' = live now (<[off := Reservation (i64 (now + milliseconds vt)) n]> (leases q)) →
    qstep caps now q (QReserve vt tail) (ALease off n (i64 (now + milliseconds vt))) q'
| qs_nothing q q' vt tail :
    withheld caps q tail → qequiv q q' → qstep caps now q (QReserve vt tail) ANothing q'
| qs_commit q q' off n x o :
    o = QCommit off n ∨ o = QSkipCorrupt off n →
    leases q !! off = Some (Reservation x n) →
    (∀ o, settled q' o ↔ settled q o ∨ o = off) → leases q' = delete off (leases q) →
    qstep caps now q o ADone q'
| qs_skip q q' off n x oldest c c' :
    leases q !! off = Some (Reservation x n) →
    (∀ o, settled q' o ↔ settled q o ∨ o < oldest) →
    leases q' = filter (λ p, oldest <= p.1) (leases q) →
    frontier q c → frontier q' c' →
    qstep caps now q (QSkipMissing off n oldest) (ASkipped (i64 (c' - c))) q'
| qs_extend q q' off n x vt :
    leases q !! off = Some (Reservation x n) →
    (∀ o, settled q' o ↔ settled q o) →
    leases q' = live now (<[off := Reservation (i64 (now + milliseconds vt)) n]> (leases q)) →
    qstep caps now q (QExtend off n vt) (ADeadline (i64 (now + milliseconds vt))) q'
| qs_release q q' off n x :
    leases q !! off = Some (Reservation x n) →
    (∀ o, settled q' o ↔ settled q o) → leases q' = delete off (leases q) →
    qstep caps now q (QRelease off n) ADone q'
| qs_stale q q' o off n :
    handle_of o = Some (off, n) → (∀ x, leases q !! off ≠ Some (Reservation x n)) →
    qequiv q q' → qstep caps now q o AStale q'
| qs_purge q q' : qequiv q q' → qstep caps now q QPurge ADone q'.

(** A run of the specification under a clock that never goes back. *)
Inductive qrun (caps : Caps) : Z → queue → list (Z * qop * answer) → queue → Prop :=
| qrun_nil t q : qrun caps t q [] q
| qrun_cons t t' q q1 q' o a tr :
    t <= t' → qstep caps t' (expire t' q) o a q1 → qrun caps t' q1 tr q' → qrun caps t q ((t', o, a) :: tr) q'.

(** ** The implementation *)

Section Refinement.
Context {MO : MapOrder}.

Definition answer_of {A} (ok : A → answer) (r : result handle_err A) : answer :=
  match r with Ok a => ok a | Err _ => AStale end.

Definition shard_exec (now : Z) (o : qop) (sh : partitionShard) : option (partitionShard * answer) :=
  match o with
  | QReserve vt tail =>
      (λ x, (x.1, if Reserved x.2 then ALease (r_Offset x.2) (r_Nonce x.2) (ExpiresAtUnixMs x.2)
                  else ANothing)) <$> reserveNextLocked now vt tail sh
  | QCommit off n =>
      let '(sh, r, _) := resolveLocked now off n ackedAheadSet sh in Some (sh, answer_of (λ _, ADone) r)
  | QSkipCorrupt off n =>
      let '(sh, r, _) := resolveLocked now off n corruptSet sh in Some (sh, answer_of (λ _, ADone) r)
  | QSkipMissing off n oldest =>
      let '(sh, r, _) := skipMissingLocked now off n oldest sh in Some (sh, answer_of ASkipped r)
  | QExtend off n vt =>
      let '(sh, r, _) := extendLocked now off n vt sh in Some (sh, answer_of ADeadline r)
  | QRelease off n =>
      let '(sh, r, _) := releaseLocked now off n sh in Some (sh, answer_of (λ _, ADone) r)
  | QPurge => Some ((purgeExpiredLocked now sh).1, ADone)
  end.

Definition qop_ok (o : qop) : Prop :=
  match o with
  | QReserve _ tail => tail <= max_int64
  | QSkipMissing off _ oldest => off < oldest <= max_int64
  | _ => True
  end.

Definition caps_of (sh : partitionShard) : Caps := MkCaps (maxInFlight sh) (maxAckedAhead sh).

(** The queue a shard stands for at time [now]. *)
Definition abs (now : Z) (sh : partitionShard) : queue := Queue (resolved sh) (live now (entries sh)).

Inductive shard_run : Z → partitionShard → list (Z * qop * answer) → partitionShard → Prop :=
| srun_nil t sh : shard_run t sh [] sh
| srun_cons t t' sh sh1 sh' o a tr :
    t <= t' → qop_ok o → shard_exec t' o sh = Some (sh1, a) → shard_run t' sh1 tr sh' →
    shard_run t sh ((t', o, a) :: tr) sh'.

(** ** Lemmas *)

Lemma live_live t t' m : t <= t' → live t' (live t m) = live t' m.
Proof.
  intros Ht. apply map_eq. intros o. apply option_eq. intros r.
  rewrite !live_lookup. intuition lia.
Qed.

Lemma live_delete_at now off m : live now (delete off m) = delete off (live now m).
Proof. apply map_filter_delete. Qed.

Lemma live_insert_live now off r m : live now (<[off := r]> (live now m)) = live now (<[off := r]> m).
Proof.
  apply map_eq. intros o. apply option_eq. intros r'. rewrite !live_lookup, !lookup_insert.
  case_decide; [done|]. rewrite live_lookup. tauto.
Qed.

Lemma live_filter now oldest m :
  live now (filter (λ p : Z * reservation, oldest <= p.1) m) =
  filter (λ p : Z * reservation, oldest <= p.1) (live now m).
Proof. apply map_filter_comm. Qed.

Lemma abs_frontier now sh : shard_ok sh → frontier (abs now sh) (committed sh).
Proof.
  intros Hok. pose proof (ok_hole _ Hok). split; simpl; unfold resolved; intuition lia.
Qed.

Lemma abs_same now sh sh' :
  same_resolved sh sh' → live now (entries sh') = live now (entries sh) →
  qequiv (abs now sh) (abs now sh').
Proof. intros Hs He. split; [|done]. intros o. symmetry. by apply same_resolved_iff. Qed.

Lemma holds_abs now sh off n :
  holds_lease now sh off n ↔ ∃ x, leases (abs now sh) !! off = Some (Reservation x n).
Proof.
  unfold holds_lease. simpl. split; intros [x Hx]; exists x; [by apply live_lookup|by apply live_lookup in Hx].
Qed.

Lemma vacant_purged now sh o :
  shard_ok sh → let shp := (purgeExpiredLocked now sh).1 in
  vacant (abs now sh) o ↔ committed shp < o ∧ resolvedOrReservedLocked shp o = false.
Proof.
  intros Hok. destruct (purgeExpiredLocked now sh) as [shp rel] eqn:Hp. simpl.
  apply purge_spec in Hp as (_ & (Hc & Ha & _ & Hk & _) & He & _); [|done].
  unfold vacant. simpl. rewrite ror_false, He, Hc, Ha, Hk. unfold resolved.
  pose proof (Z.le_gt_cases o (committed sh)). intuition lia.
Qed.

Lemma none_withheld now tail sh shp :
  shard_ok sh → shard_ok shp → tail <= max_int64 → same_frontier sh shp →
  entries shp = live now (entries sh) → reserve_choice shp tail = None →
  (∀ o, shard_ok sh → vacant (abs now sh) o ↔ committed shp < o ∧ resolvedOrReservedLocked shp o = false) →
  withheld (caps_of sh) (abs now sh) tail.
Proof.
  intros Hok Hokp Ht (Hc & Ha & _ & Hk & _ & Hm1 & Hm2) He Hch Hv. unfold reserve_choice in Hch.
  destruct (Z.leb_spec (maxInFlight shp) (len_entries shp)) as [Hcap|_].
  { right; left. simpl. rewrite <-Hm1, <-He. exact Hcap. }
  pose proof Hokp as Hokp'. open_ok Hokp'. destruct (aheadFullLocked shp) eqn:Hfull.
  - right; right. exists (ackedAhead sh ∪ corrupt sh), (committed sh).
    pose proof (wk_ahead _ (ok_wk _ Hok)) as Hah'. pose proof (wk_corrupt _ (ok_wk _ Hok)) as Hco'.
    split; [by apply abs_frontier|]. split.
    + intros o Ho. simpl. unfold resolved. apply elem_of_union in Ho as [Ho|Ho];
        [apply Hah' in Ho as ?|apply Hco' in Ho as ?]; split; (tauto || lia).
    + unfold aheadFullLocked, len_ahead, len_corrupt in Hfull. apply Z.leb_le in Hfull. split.
      * rewrite size_union by (apply (wk_disj2 _ (ok_wk _ Hok))). simpl. rewrite <-Ha, <-Hk. lia.
      * intros [_ Hf]%Hv; [|done]. rewrite Hc in Hch. rewrite Hf in Hch.
        destruct (Z.ltb_spec (committed sh + 1) tail); [done|lia].
  - left. intros o Ho [Hgt Hf]%Hv; [|done].
    eapply scan_free_none in Hch; [by rewrite Hch in Hf|in_range|done|done|lia].
Qed.

Lemma reserve_refines now vt tail sh sh' r :
  shard_ok sh → tail <= max_int64 → reserveNextLocked now vt tail sh = Some (sh', r) →
  qstep (caps_of sh) now (abs now sh) (QReserve vt tail)
    (if Reserved r then ALease (r_Offset r) (r_Nonce r) (ExpiresAtUnixMs r) else ANothing)
    (abs now sh').
Proof.
  intros Hok Ht Hr. pose proof (vacant_purged now sh) as Hv.
  apply reserveNext_spec in Hr as (_ & Hsr & Hcase); [|done..].
  destruct (purgeExpiredLocked now sh) as [shp rel] eqn:Hp. cbn [fst] in *.
  apply purge_spec in Hp as Hps; [|done]. pose proof (proj1 Hps) as Hokp.
  destruct (reserve_choice shp tail) as [off|] eqn:Hch.
  - destruct Hcase as (-> & -> & Hn & Hx & He). rewrite Hx in *.
    destruct (reserve_choice_lowest _ _ _ Hokp Ht Hch) as ((Hgt & Hf & Hlow) & Htl & _).
    apply qs_lease; try done.
    + by apply Hv.
    + intros o Ho [? Hfo]%Hv; [|done]. rewrite Hlow in Hfo by lia. done.
    + intros o. by apply same_resolved_iff.
    + simpl. by rewrite He.
  - destruct Hcase as (-> & He & _). apply qs_nothing; [|apply abs_same; [done|by rewrite He, live_live]].
    destruct Hps as (_ & Hsf & Hep & _). by eapply none_withheld.
Qed.

Lemma stale_refines now sh sh' o off n :
  handle_of o = Some (off, n) → ¬ holds_lease now sh off n →
  entries sh' = live now (entries sh) → same_frontier sh sh' →
  qstep (caps_of sh) now (abs now sh) o AStale (abs now sh').
Proof.
  intros Ho Hn He Hs. eapply qs_stale; [done| |].
  - intros x Hx. apply Hn, holds_abs. eauto.
  - apply abs_same; [by apply same_frontier_resolved|]. by rewrite He, live_live.
Qed.

Lemma resolve_refines now off n kd sh sh' r eff o :
  shard_ok sh → resolveLocked now off n kd sh = (sh', r, eff) →
  o = QCommit off n ∨ o = QSkipCorrupt off n →
  qstep (caps_of sh) now (abs now sh) o (answer_of (λ _, ADone) r) (abs now sh').
Proof.
  intros Hok Hr Ho. apply resolve_spec in Hr as [_ Hr]; [|done]. destruct r as [u|e].
  - destruct Hr as (Hh & He & _ & Hres & _). apply holds_abs in Hh as [x Hx].
    eapply qs_commit; [done..|]. simpl. by rewrite He, live_delete_at, live_live.
  - destruct Hr as (_ & Hh & He & Hs). eapply stale_refines; [|done..]. by destruct Ho as [-> | ->].
Qed.

Lemma caps_of_same sh sh' : same_resolved sh sh' → caps_of sh' = caps_of sh.
Proof. intros (_ & _ & _ & _ & Hm1 & Hm2). unfold caps_of. by rewrite Hm1, Hm2. Qed.

Lemma exec_caps now o sh sh' a :
  shard_ok sh → qop_ok o → shard_exec now o sh = Some (sh', a) → caps_of sh' = caps_of sh.
Proof.
  intros Hok Ho Hx. destruct o; cbn [shard_exec] in Hx.
  - apply fmap_Some in Hx as ([s r] & Hr & [= -> ->]).
    apply reserveNext_spec in Hr as (_ & ? & _); [|done..]. by apply caps_of_same.
  - destruct (resolveLocked _ _ _ _ sh) as [[s [u|e]] eff] eqn:Hr; simplify_eq;
      apply resolve_spec in Hr as [_ Hr]; try done; unfold caps_of.
    + by destruct Hr as (_ & _ & _ & _ & -> & ->).
    + destruct Hr as (_ & _ & _ & Hs). by apply caps_of_same, same_frontier_resolved.
  - destruct (resolveLocked _ _ _ _ sh) as [[s [u|e]] eff] eqn:Hr; simplify_eq;
      apply resolve_spec in Hr as [_ Hr]; try done; unfold caps_of.
    + by destruct Hr as (_ & _ & _ & _ & -> & ->).
    + destruct Hr as (_ & _ & _ & Hs). by apply caps_of_same, same_frontier_resolved.
  - destruct (skipMissingLocked _ _ _ _ sh) as [[s [d|e]] eff] eqn:Hr; simplify_eq;
      apply skipMissing_spec in Hr as [_ Hr]; try done; unfold caps_of.
    + by destruct Hr as (_ & _ & _ & _ & _ & -> & -> & _).
    + destruct Hr as (_ & _ & _ & Hs & _). by apply caps_of_same, same_frontier_resolved.
  - destruct (extendLocked _ _ _ _ sh) as [[s r] eff] eqn:Hr; simplify_eq.
    apply extend_spec in Hr as (_ & Hs & _); [|done]. by apply caps_of_same, same_frontier_resolved.
  - destruct (releaseLocked _ _ _ sh) as [[s r] eff] eqn:Hr; simplify_eq.
    apply release_spec in Hr as (_ & Hs & _); [|done]. by apply caps_of_same, same_frontier_resolved.
  - simplify_eq. destruct (purgeExpiredLocked now sh) as [s r] eqn:Hp.
    apply purge_spec in Hp as (_ & Hs & _); [|done]. by apply caps_of_same, same_frontier_resolved.
Qed.

(** Every operation is a step of the specification. *)
Lemma exec_refines now o sh sh' a :
  shard_ok sh → qop_ok o → shard_exec now o sh = Some (sh', a) →
  shard_ok sh' ∧ qstep (caps_of sh) now (abs now sh) o a (abs now sh').
Proof.
  intros Hok Ho Hx. destruct o; cbn [shard_exec] in Hx.
  - apply fmap_Some in Hx as ([s r] & Hr & [= -> ->]). cbn [fst snd].
    split; [by eapply reserveNext_spec in Hr as [? _]|by apply reserve_refines].
  - destruct (resolveLocked _ _ _ _ sh) as [[s r] eff] eqn:Hr. simplify_eq.
    split; [by eapply resolve_spec in Hr as [? _]|]. eapply resolve_refines; eauto.
  - destruct (resolveLocked _ _ _ _ sh) as [[s r] eff] eqn:Hr. simplify_eq.
    split; [by eapply resolve_spec in Hr as [? _]|]. eapply resolve_refines; eauto.
  - destruct (skipMissingLocked _ _ _ _ sh) as [[s r] eff] eqn:Hr. simplify_eq.
    apply skipMissing_spec in Hr as [Hok' Hr]; [|done..]. split; [done|]. destruct r as [d|e].
    + destruct Hr as ((x & Hx)%holds_abs & He & _ & -> & Hres & _).
      eapply qs_skip; [done|done| |by apply abs_frontier..].
      simpl. by rewrite He, live_filter, live_live.
    + destruct Hr as (_ & Hh & He & Hs & _). by eapply stale_refines.
  - destruct (extendLocked _ _ _ _ sh) as [[s r] eff] eqn:Hr. simplify_eq.
    apply extend_spec in Hr as (Hok' & Hs & Hr); [|done..]. split; [done|]. destruct r as [d|e].
    + destruct Hr as ((x & Hx)%holds_abs & -> & He). eapply qs_extend; [done| |].
      * intros y. by apply same_resolved_iff, same_frontier_resolved.
      * simpl. by rewrite He.
    + destruct Hr as (_ & Hh & He). by eapply stale_refines.
  - destruct (releaseLocked _ _ _ sh) as [[s r] eff] eqn:Hr. simplify_eq.
    apply release_spec in Hr as (Hok' & Hs & Hr); [|done..]. split; [done|]. destruct r as [d|e].
    + destruct Hr as ((x & Hx)%holds_abs & He). eapply qs_release; [done| |].
      * intros y. by apply same_resolved_iff, same_frontier_resolved.
      * simpl. by rewrite He, live_delete_at, live_live.
    + destruct Hr as (_ & Hh & He). by eapply stale_refines.
  - simplify_eq. destruct (purgeExpiredLocked now sh) as [s r] eqn:Hp.
    apply purge_spec in Hp as (? & Hs & He & _); [|done]. split; [done|].
    apply qs_purge, abs_same; [by apply same_frontier_resolved|]. cbn [fst]. by rewrite He, live_live.
Qed.

Lemma expire_abs t t' sh : t <= t' → expire t' (abs t sh) = abs t' sh.
Proof. intros. unfold expire, abs. simpl. by rewrite live_live. Qed.

Lemma shard_run_ok t sh tr sh' : shard_run t sh tr sh' → shard_ok sh → shard_ok sh'.
Proof.
  induction 1 as [|t t' sh sh1 sh' o a tr Ht Ho Hx _ IH]; [done|]. intros Hok.
  apply IH. by eapply exec_refines.
Qed.

(** C5. Refinement: every run of a partition shard, from any well-formed
    shard and under a clock that never goes back, is a run of the abstract
    lease queue with the same answers: what is handed out is the lowest
    vacant offset, a handle works exactly while its lease runs, and only
    acks and skips settle offsets, and a refusal to hand anything out is
    justified by the caps or by there being nothing vacant.  The expiry
    heap, the scan hint and the lazy purge are unobservable. *)
Theorem shard_simulates_queue t sh tr sh' :
  shard_ok sh → shard_run t sh tr sh' →
  ∃ t', t <= t' ∧ qrun (caps_of sh) t (abs t sh) tr (abs t' sh').
Proof.
  intros Hok Hrun. induction Hrun as [t sh|t t' sh sh1 sh' o a tr Ht Ho Hx _ IH].
  - exists t. split; [lia|]. constructor.
  - destruct (exec_refines t' o sh sh1 a Hok Ho Hx) as [Hok1 Hq].
    destruct (IH Hok1) as (t2 & Ht2 & Hrun). exists t2. split; [lia|].
    rewrite (exec_caps t' o sh sh1 a) in Hrun by done.
    econstructor; [done| |exact Hrun]. by rewrite expire_abs.
Qed.

End Refinement.

(** Lease, ack, and a stale ack of the same handle. *)
Lemma shard_simulates_queue_witness :
  ∃ t' sh', 0 <= t'
    ∧ qrun (MkCaps 2 2) 0 (abs 0 (newPartitionShard (-1) (MkCaps 2 2) [8]))
        [(1000, QReserve 30000000000 5, ALease 0 4 31000); (2000, QCommit 0 4, ADone);
         (3000, QCommit 0 4, AStale)] (abs t' sh').
Proof.
  set (sh := newPartitionShard (-1) (MkCaps 2 2) [8]).
  set (s1 := match shard_exec 1000 (QReserve 30000000000 5) sh with Some x => x.1 | None => sh end).
  set (s2 := match shard_exec 2000 (QCommit 0 4) s1 with Some x => x.1 | None => sh end).
  set (s3 := match shard_exec 3000 (QCommit 0 4) s2 with Some x => x.1 | None => sh end).
  edestruct (shard_simulates_queue 0 sh
    [(1000, QReserve 30000000000 5, ALease 0 4 31000); (2000, QCommit 0 4, ADone); (3000, QCommit 0 4, AStale)] s3)
    as (t' & Ht & Hq).
  - apply new_ok; done.
  - apply (srun_cons 0 1000 sh s1); [done|done|by vm_compute|].
    apply (srun_cons 1000 2000 s1 s2); [done|done|by vm_compute|].
    apply (srun_cons 2000 3000 s2 s3); [done|done|by vm_compute|constructor].
  - by exists t', s3.
Defined.
