(* ===== verification/InFlight.v ===== *)
(** * The in-flight tracker

    [internal/consumer/inflight.go], [reserve.go], [extend.go],
    [purger.go] and [caps_follow.go]: the map of partition shards, its
    lazy creation from the persisted consumer state, the handle
    operations, the purger sweep, the drops, and the caps follower.  An
    operation takes the answers of the wired callbacks ([env]) and returns
    the tracker it leaves, the call's result, and the callbacks it invokes
    afterwards, in order ([event]). *)

From S2P Require Import Prelude ExpiryHeap Shard ShardOps.

(** ** State and environment *)

Abbreviation shardKey := (string * Z)%type.

Record CapsVersions := MkCapsVersions {
  TopicVersion : string → Z;
  MetadataVersion : Z;
}.

(** What the outside answers while one operation runs: the wired functions
    ([None] is a nil function), the clocks, the entropy a fresh shard is
    seeded with, and whether another goroutine holds [capsMu]. *)
Record env := Env {
  e_resolve : string → option Caps;
  e_recover : option (string → Z → option Z);
  e_recoverAhead : option (string → Z → option (Z * list Z));
  e_capsVersions : option CapsVersions;
  e_onCommit : bool;
  e_onDrop : bool;
  e_onRelease : bool;
  e_now : Z;
  e_nanos : Z;
  e_draws : list Z;
  e_capsBusy : bool;
}.

Record InFlight := MkInFlight {
  shards : gmap shardKey partitionShard;
  capsChecked : Z;
  capsRetryAt : Z;
  capsSeen : gmap string Z;
}.

Definition NewInFlight : InFlight := MkInFlight ∅ 0 0 ∅.

Definition set_shards s f := MkInFlight s (capsChecked f) (capsRetryAt f) (capsSeen f).
Definition set_seen s f := MkInFlight (shards f) (capsChecked f) (capsRetryAt f) s.
Definition put_shard k sh f := set_shards (<[k := sh]> (shards f)) f.

Inductive event :=
| EvCommit (topic : string) (partition offset : Z)
| EvRelease (topic : string) (partition : Z)
| EvDrop (topic : string) (partition : Z).

Inductive if_err :=
| EHandle (e : handle_err)
| EResolve
| ECapsNotPositive.

Section Tracker.
Context {MO : MapOrder}.

(** ** Callbacks *)

Definition onCommit (E : env) (t : string) (p off : Z) : list event :=
  if e_onCommit E then [EvCommit t p off] else [].

Definition notifyRelease (E : env) (t : string) (p : Z) : list event :=
  if e_onRelease E then [EvRelease t p] else [].

Definition run_effects (E : env) (t : string) (p : Z) (eff : effects) : list event :=
  match eff_commit eff with Some off => onCommit E t p off | None => [] end
  ++ (if eff_notify eff then notifyRelease E t p else []).

(** ** Caps *)

Definition resolvedCaps (E : env) (t : string) : result if_err Caps :=
  match e_resolve E t with
  | None => Err EResolve
  | Some caps =>
      if (MaxInFlight caps <=? 0) || (MaxAckedAhead caps <=? 0)
      then Err ECapsNotPositive else Ok caps
  end.

Definition RefreshCaps (E : env) (t : string) (f : InFlight) : InFlight * result if_err unit :=
  match resolvedCaps E t with
  | Err e => (f, Err e)
  | Ok caps =>
      (set_shards (map_imap (λ k sh, Some (if decide (k.1 = t) then set_caps caps sh else sh))
                     (shards f)) f, Ok tt)
  end.

(** [time.Second] in nanoseconds. *)
Definition capsRetryAfter : Z := 1000000000.

(** One topic of the [capsSeen.Range] in [followCaps]. *)
Definition follow_one (E : env) (v : CapsVersions) (acc : InFlight * bool) (ts : string * Z)
    : InFlight * bool :=
  let '(f, failed) := acc in
  let '(t, seen) := ts in
  let cur := TopicVersion v t in
  if seen =? cur then (f, failed) else
  match RefreshCaps E t f with
  | (f, Err _) => (f, true)
  | (f, Ok _) => (set_seen (<[t := cur]> (capsSeen f)) f, failed)
  end.

Definition followCaps (E : env) (v : CapsVersions) (latest : Z) (f : InFlight) : InFlight :=
  if e_nanos E <? capsRetryAt f then f else
  if e_capsBusy E then f else
  let '(f, failed) := foldl (follow_one E v) (f, false) (map_to_list (capsSeen f)) in
  if failed : bool
  then MkInFlight (shards f) (capsChecked f) (i64 (e_nanos E + capsRetryAfter)) (capsSeen f)
  else MkInFlight (shards f) latest (capsRetryAt f) (capsSeen f).

Definition checkCapsVersioned (E : env) (v : CapsVersions) (f : InFlight) : InFlight :=
  let latest := MetadataVersion v in
  if latest =? capsChecked f then f else followCaps E v latest f.

Definition checkCaps (E : env) (f : InFlight) : InFlight :=
  match e_capsVersions E with None => f | Some v => checkCapsVersioned E v f end.

Definition noteShardCaps (E : env) (t : string) (version : Z) (f : InFlight) : InFlight :=
  match e_capsVersions E with
  | None => f
  | Some _ =>
      match capsSeen f !! t with
      | Some cur => if version <? cur then (RefreshCaps E t f).1 else f
      | None => set_seen (<[t := version]> (capsSeen f)) f
      end
  end.

Definition forgetCaps (t : string) (f : InFlight) : InFlight :=
  set_seen (delete t (capsSeen f)) f.

(** ** Shards *)

Definition shard (f : InFlight) (t : string) (p : Z) : option partitionShard := shards f !! (t, p).

(** The frontier and acked-ahead offsets the two recovery functions
    report. *)
Definition recovered_state (E : env) (t : string) (p : Z) : Z * list Z :=
  let c := match e_recover E with
           | Some fn => match fn t p with Some off => off | None => -1 end
           | None => -1
           end in
  match e_recoverAhead E with
  | Some fn => match fn t p with
               | Some (aheadCommitted, offsets) => (Z.max c aheadCommitted, offsets)
               | None => (c, [])
               end
  | None => (c, [])
  end.

(** Returns the tracker, whether the fresh shard was stored, the frontier
    recovered and the frontier after seeding. *)
Definition recoverShard (E : env) (t : string) (p : Z) (caps : Caps) (f : InFlight)
    : InFlight * bool * Z * Z :=
  let '(c, ahead) := recovered_state E t p in
  let fresh := seedAheadLocked ahead (newPartitionShard c caps (e_draws E)) in
  match shard f t p with
  | Some _ => (f, false, c, committed fresh)
  | None => (put_shard (t, p) fresh f, true, c, committed fresh)
  end.

Definition shardOrCreate (E : env) (t : string) (p : Z) (f : InFlight)
    : InFlight * result if_err unit * list event :=
  match shard f t p with
  | Some _ => (checkCaps E f, Ok tt, [])
  | None =>
      let version := match e_capsVersions E with Some v => TopicVersion v t | None => 0 end in
      match resolvedCaps E t with
      | Err e => (f, Err e, [])
      | Ok caps =>
          let '(f, stored, recovered, advanced) := recoverShard E t p caps f in
          let f := noteShardCaps E t version f in
          (f, Ok tt, if stored && (recovered <? advanced) then onCommit E t p advanced else [])
      end
  end.

(** [InFlight.Init]: seeds a partition shard with a known frontier. *)
Definition Init (E : env) (t : string) (p c : Z) (f : InFlight) : InFlight * result if_err unit :=
  match resolvedCaps E t with
  | Err e => (f, Err e)
  | Ok caps => (put_shard (t, p) (newPartitionShard c caps (e_draws E)) f, Ok tt)
  end.

(** ** Queries *)

Definition Next (t : string) (p : Z) (f : InFlight) : Z :=
  match shard f t p with None => 0 | Some sh => i64 (committed sh + 1) end.

Definition Reservable (t : string) (p : Z) (f : InFlight) : option (Z * Z * Z) :=
  (λ sh, (i64 (committed sh + 1), len_entries sh, len_ahead sh)) <$> shard f t p.

Definition CommittedOffset (t : string) (p : Z) (f : InFlight) : option Z :=
  committed <$> shard f t p.

Definition Snapshot (t : string) (p : Z) (f : InFlight) : Z * Z :=
  match shard f t p with None => (0, 0) | Some sh => (len_entries sh, len_ahead sh) end.

(** The frontier, the acked-ahead offsets in ascending order, and the
    set's version. *)
Definition AheadSnapshot (t : string) (p : Z) (f : InFlight) : option (Z * list Z * Z) :=
  (λ sh, (committed sh, merge_sort Z.le (elements (ackedAhead sh)), aheadVersion sh))
    <$> shard f t p.

(** ** Handle operations *)

(** [None] only while no usable nonce has been drawn. *)
Definition ReserveNext (E : env) (t : string) (p visibilityTimeout logTail : Z) (f : InFlight)
    : option (InFlight * result if_err ReserveResult * list event) :=
  match shardOrCreate E t p f with
  | (f, Err e, evs) => Some (f, Err e, evs)
  | (f, Ok _, evs) =>
      match shard f t p with
      | None => None
      | Some sh =>
          match reserveNextLocked (e_now E) visibilityTimeout logTail sh with
          | None => None
          | Some (sh, r) => Some (put_shard (t, p) sh f, Ok r, evs)
          end
      end
  end.

(** A handle operation on an existing shard: [ErrHandleStale] when there is
    none. *)
Definition on_shard {A} (E : env) (t : string) (p : Z)
    (op : partitionShard → partitionShard * result handle_err A * effects) (f : InFlight)
    : InFlight * result if_err A * list event :=
  match shard f t p with
  | None => (f, Err (EHandle ErrHandleStale), [])
  | Some sh =>
      let '(sh, res, eff) := op sh in
      (put_shard (t, p) sh f,
       match res with Ok a => Ok a | Err e => Err (EHandle e) end,
       run_effects E t p eff)
  end.

Definition CommitHandle (E : env) (t : string) (p offset nonce : Z) :=
  on_shard E t p (resolveLocked (e_now E) offset nonce ackedAheadSet).

Definition SkipCorrupt (E : env) (t : string) (p offset nonce : Z) :=
  on_shard E t p (resolveLocked (e_now E) offset nonce corruptSet).

Definition SkipMissingBelow (E : env) (t : string) (p offset nonce oldest : Z) (f : InFlight)
    : InFlight * result if_err Z * list event :=
  if oldest <=? offset then (f, Err (EHandle ErrInvalidSkip), [])
  else on_shard E t p (skipMissingLocked (e_now E) offset nonce oldest) f.

Definition ExtendHandle (E : env) (t : string) (p offset nonce visibilityTimeout : Z) :=
  on_shard E t p (extendLocked (e_now E) offset nonce visibilityTimeout).

Definition ReleaseHandle (E : env) (t : string) (p offset nonce : Z) :=
  on_shard E t p (releaseLocked (e_now E) offset nonce).

(** ** The purger and the drops *)

Definition purge_one (E : env) (acc : InFlight * list event) (ks : shardKey * partitionShard)
    : InFlight * list event :=
  let '(f, evs) := acc in
  let '(k, sh) := ks in
  let '(sh, released) := purgeExpiredLocked (e_now E) sh in
  (put_shard k sh f,
   evs ++ (if (0 <? released) && e_onRelease E then [EvRelease k.1 k.2] else [])).

Definition purgeAll (E : env) (f : InFlight) : InFlight * list event :=
  foldl (purge_one E) (f, []) (map_to_list (shards f)).

Definition DropTopic (E : env) (t : string) (f : InFlight) : InFlight * list event :=
  let dropped := (λ ks, ks.1.2) <$> map_to_list (filter (λ ks, ks.1.1 = t) (shards f)) in
  let f := set_shards (filter (λ ks, ks.1.1 ≠ t) (shards f)) f in
  (forgetCaps t f, if e_onDrop E then EvDrop t <$> dropped else []).

Definition DropPartition (E : env) (t : string) (p : Z) (f : InFlight) : InFlight * list event :=
  (set_shards (delete (t, p) (shards f)) f, if e_onDrop E then [EvDrop t p] else []).

End Tracker.
