(* ===== verification/Delivery.v ===== *)
(** * The delivery contract of the in-flight tracker

    The operations of [InFlight.v] as one transition function ([exec]),
    the states reachable from an empty tracker, and the properties a
    consumer relies on: the representation invariant of every reachable
    shard, at-least-once (an offset is settled only by a successful ack or
    skip), exclusive leases, handles that stop working when the lease
    ends, recovery, and the wake-up discipline. *)

From S2P Require Import Prelude ExpiryHeap Shard ShardOps InFlight.

(** ** The transition function *)

Inductive op :=
| OReserve (t : string) (p visibilityTimeout logTail : Z)
| OCommit (t : string) (p offset nonce : Z)
| OSkipCorrupt (t : string) (p offset nonce : Z)
| OSkipMissing (t : string) (p offset nonce oldest : Z)
| OExtend (t : string) (p offset nonce visibilityTimeout : Z)
| ORelease (t : string) (p offset nonce : Z)
| OPurgeAll
| ORefreshCaps (t : string)
| ODropTopic (t : string)
| ODropPartition (t : string) (p : Z)
| OInit (t : string) (p c : Z).

Inductive outcome :=
| RFail (e : if_err)
| RDone
| RInt (z : Z)
| RReserve (r : ReserveResult).

Definition out_unit (r : result if_err unit) : outcome :=
  match r with Ok _ => RDone | Err e => RFail e end.
Definition out_int (r : result if_err Z) : outcome :=
  match r with Ok z => RInt z | Err e => RFail e end.
Definition out_reserve (r : result if_err ReserveResult) : outcome :=
  match r with Ok x => RReserve x | Err e => RFail e end.

Section Contract.
Context {MO : MapOrder}.

Definition exec (E : env) (o : op) (f : InFlight) : option (InFlight * outcome * list event) :=
  match o with
  | OReserve t p vt tail =>
      (λ x, (x.1.1, out_reserve x.1.2, x.2)) <$> ReserveNext E t p vt tail f
  | OCommit t p off n => let x := CommitHandle E t p off n f in Some (x.1.1, out_unit x.1.2, x.2)
  | OSkipCorrupt t p off n => let x := SkipCorrupt E t p off n f in Some (x.1.1, out_unit x.1.2, x.2)
  | OSkipMissing t p off n oldest =>
      let x := SkipMissingBelow E t p off n oldest f in Some (x.1.1, out_int x.1.2, x.2)
  | OExtend t p off n vt =>
      let x := ExtendHandle E t p off n vt f in Some (x.1.1, out_int x.1.2, x.2)
  | ORelease t p off n => let x := ReleaseHandle E t p off n f in Some (x.1.1, out_unit x.1.2, x.2)
  | OPurgeAll => let x := purgeAll E f in Some (x.1, RDone, x.2)
  | ORefreshCaps t => let x := RefreshCaps E t f in Some (x.1, out_unit x.2, [])
  | ODropTopic t => let x := DropTopic E t f in Some (x.1, RDone, x.2)
  | ODropPartition t p => let x := DropPartition E t p f in Some (x.1, RDone, x.2)
  | OInit t p c => let x := Init E t p c f in Some (x.1, out_unit x.2, [])
  end.

(** Offsets are [int64] values below the largest one: the log never hands
    out [MaxInt64], and the persisted files hold frontiers the shard
    reached. *)
Definition env_ok (E : env) : Prop :=
  ∀ t p, let '(c, offs) := recovered_state E t p in
    in_i64 c ∧ c < max_int64 ∧ Forall (λ o, o < max_int64) offs.

Definition op_ok (o : op) : Prop :=
  match o with
  | OReserve _ _ _ tail => tail <= max_int64
  | OSkipMissing _ _ _ _ oldest => oldest <= max_int64
  | OInit _ _ c => in_i64 c ∧ c < max_int64
  | _ => True
  end.

Definition inflight_ok (f : InFlight) : Prop := map_Forall (λ _ sh, shard_ok sh) (shards f).

Inductive reachable : InFlight → Prop :=
| reachable_new : reachable NewInFlight
| reachable_step E o f f' out evs :
    reachable f → env_ok E → op_ok o → exec E o f = Some (f', out, evs) → reachable f'.

(** ** Caps changes leave everything else alone *)

Definition caps_eq (a b : partitionShard) : Prop := ∃ c, b = set_caps c a.

#[global] Instance caps_eq_refl : Reflexive caps_eq.
Proof.
  intros [c e x a v k n r m1 m2]. by exists (MkCaps m1 m2).
Qed.

#[global] Instance caps_eq_trans : Transitive caps_eq.
Proof. intros a b c [x ->] [y ->]. by exists y. Qed.

(** The same shards, up to their caps. *)
Definition caps_only (f f' : InFlight) : Prop :=
  ∀ k, option_Forall2 caps_eq (shards f !! k) (shards f' !! k).

#[global] Instance caps_only_refl : Reflexive caps_only.
Proof. intros f k. destruct (shards f !! k); constructor. reflexivity. Qed.

#[global] Instance caps_only_trans : Transitive caps_only.
Proof.
  intros a b c Hab Hbc k. specialize (Hab k). specialize (Hbc k).
  destruct Hab as [x y Hxy|]; inversion Hbc; subst; constructor. by etrans.
Qed.

Lemma caps_only_same f f' : shards f' = shards f → caps_only f f'.
Proof. intros H k. rewrite H. destruct (shards f !! k); constructor. reflexivity. Qed.

Lemma RefreshCaps_only E t f : caps_only f (RefreshCaps E t f).1.
Proof.
  unfold RefreshCaps. destruct (resolvedCaps E t) as [caps|]; [|reflexivity].
  intros k. simpl. rewrite map_lookup_imap.
  destruct (shards f !! k) as [sh|]; simpl; constructor.
  case_decide; [by exists caps|reflexivity].
Qed.

Lemma follow_one_only E v f b ts : caps_only f (follow_one E v (f, b) ts).1.
Proof.
  destruct ts as [t seen]. unfold follow_one. case_match; [reflexivity|].
  pose proof (RefreshCaps_only E t f) as Hco. destruct (RefreshCaps E t f) as [f' [[]|e]]; simpl in *.
  - etrans; [exact Hco|]. by apply caps_only_same.
  - done.
Qed.

Lemma follow_fold_only E v l f b : caps_only f (foldl (follow_one E v) (f, b) l).1.
Proof.
  revert f b; induction l as [|ts l IH]; intros f b; [reflexivity|]. cbn [foldl].
  pose proof (follow_one_only E v f b ts) as Hco.
  destruct (follow_one E v (f, b) ts) as [f' b']. simpl in Hco. etrans; [exact Hco|apply IH].
Qed.

Lemma checkCaps_only E f : caps_only f (checkCaps E f).
Proof.
  unfold checkCaps, checkCapsVersioned, followCaps. destruct (e_capsVersions E) as [v|]; [|reflexivity].
  case_match; [reflexivity|]. case_match; [reflexivity|]. case_match; [reflexivity|].
  pose proof (follow_fold_only E v (map_to_list (capsSeen f)) f false) as Hco.
  destruct (foldl _ _ _) as [f' failed]. simpl in Hco.
  destruct failed; (etrans; [exact Hco|by apply caps_only_same]).
Qed.

Lemma noteShardCaps_only E t v f : caps_only f (noteShardCaps E t v f).
Proof.
  unfold noteShardCaps. destruct (e_capsVersions E); [|reflexivity].
  destruct (capsSeen f !! t); [case_match; [apply RefreshCaps_only|reflexivity]|].
  by apply caps_only_same.
Qed.

Lemma caps_eq_ok a b : caps_eq a b → shard_ok a → shard_ok b.
Proof. intros [c ->] Hok. open_ok Hok. split; [split|..]; done. Qed.

Lemma caps_eq_resolved a b o : caps_eq a b → resolved b o ↔ resolved a o.
Proof. by intros [c ->]. Qed.

Lemma caps_only_ok f f' : caps_only f f' → inflight_ok f → inflight_ok f'.
Proof.
  intros Hco Hok k sh Hk. specialize (Hco k). rewrite Hk in Hco.
  inversion Hco as [a b Hab Ha|]; subst. eapply caps_eq_ok; [exact Hab|]. by eapply Hok.
Qed.

(** ** What one operation does to one shard *)

(** [o] settles offset [x] of partition [k]: a successful ack, a
    successful corrupt skip, or a successful skip of deleted records. *)
Definition settles (o : op) (out : outcome) (k : shardKey) (x : Z) : Prop :=
  match o, out with
  | OCommit t p off _, RDone => k = (t, p) ∧ x = off
  | OSkipCorrupt t p off _, RDone => k = (t, p) ∧ x = off
  | OSkipMissing t p _ _ oldest, RInt _ => k = (t, p) ∧ x < oldest
  | _, _ => False
  end.

Definition reinit (o : op) (k : shardKey) : Prop :=
  match o with OInit t p _ => k = (t, p) | _ => False end.

(** From [f] to [f'] every shard stays well formed and every shard kept
    settles exactly the offsets in [done]. *)
Definition moves (f f' : InFlight) (done : shardKey → Z → Prop) : Prop :=
  inflight_ok f' ∧
  ∀ k sh sh' x, shards f !! k = Some sh → shards f' !! k = Some sh' →
    resolved sh' x ↔ resolved sh x ∨ done k x.

Definition nothing (_ : shardKey) (_ : Z) : Prop := False.

Lemma moves_caps f f' : inflight_ok f → caps_only f f' → moves f f' nothing.
Proof.
  intros Hok Hco. split; [by eapply caps_only_ok|]. intros k sh sh' x Hk Hk'.
  specialize (Hco k). rewrite Hk, Hk' in Hco. inversion Hco as [? ? Hab|]; subst.
  rewrite (caps_eq_resolved _ _ x Hab). unfold nothing. tauto.
Qed.

Lemma put_shard_lookup k sh f k' :
  shards (put_shard k sh f) !! k' = if decide (k = k') then Some sh else shards f !! k'.
Proof. simpl. apply lookup_insert. Qed.

(** An update of one shard. *)
Lemma moves_put f k sh sh' (done : Z → Prop) :
  inflight_ok f → shards f !! k = Some sh → shard_ok sh' →
  (∀ x, resolved sh' x ↔ resolved sh x ∨ done x) →
  moves f (put_shard k sh' f) (λ k' x, k' = k ∧ done x).
Proof.
  intros Hok Hk Hok' Hres. split.
  - intros k' s. rewrite put_shard_lookup. case_decide; [naive_solver|apply Hok].
  - intros k' s s' x Hs. rewrite put_shard_lookup. case_decide as Hkk; intros Hs'; simplify_eq.
    + rewrite Hres. naive_solver.
    + naive_solver.
Qed.

Lemma moves_weaken f f' d d' :
  (∀ k x, is_Some (shards f !! k) → d k x ↔ d' k x) → moves f f' d → moves f f' d'.
Proof.
  intros Hd [Hok Hm]. split; [done|]. intros k sh sh' x Hk Hk'.
  rewrite (Hm k sh sh' x Hk Hk'), Hd; eauto.
Qed.

Lemma moves_trans_caps f f1 f' d :
  inflight_ok f → caps_only f f1 → moves f1 f' d → moves f f' d.
Proof.
  intros Hok Hco [Hok' Hm]. split; [done|]. intros k sh sh' x Hk Hk'.
  specialize (Hco k). rewrite Hk in Hco. inversion Hco as [a b Hab Ha Hb|]; subst.
  rewrite (Hm k b sh' x), (caps_eq_resolved _ _ x Hab); done.
Qed.

Lemma same_frontier_iff sh sh' x : same_frontier sh sh' → resolved sh' x ↔ resolved sh x ∨ False.
Proof. intros H%same_frontier_resolved. rewrite (same_resolved_iff _ _ x H). tauto. Qed.

Lemma on_shard_moves {A} E t p (g : partitionShard → partitionShard * result handle_err A * effects)
    f f' res evs (done : result handle_err A → Z → Prop) :
  inflight_ok f →
  (∀ sh sh' r eff, shard_ok sh → g sh = (sh', r, eff) →
     shard_ok sh' ∧ ∀ x, resolved sh' x ↔ resolved sh x ∨ done r x) →
  (∀ e x, ¬ done (Err e) x) →
  on_shard E t p g f = (f', res, evs) →
  moves f f' (λ k x, match res with Ok a => k = (t, p) ∧ done (Ok a) x | Err _ => False end).
Proof.
  intros Hok Hg Herr. unfold on_shard, shard. destruct (shards f !! (t, p)) as [sh|] eqn:Hk.
  - destruct (g sh) as [[sh' r] eff] eqn:Hgs. intros [= <- <- <-].
    destruct (Hg _ _ _ _ (Hok _ _ Hk) Hgs) as [Hok' Hres].
    eapply moves_weaken; [|by eapply moves_put].
    intros k x _. simpl. destruct r as [a|e]; [done|]. split; [|done]. intros [_ Hd]. by apply Herr in Hd.
  - intros [= <- <- <-]. apply moves_caps; done.
Qed.

Lemma resolve_moves E t p off n kd f :
  inflight_ok f →
  let x := on_shard E t p (resolveLocked (e_now E) off n kd) f in
  moves f x.1.1 (λ k o, match x.1.2 with Ok _ => k = (t, p) ∧ o = off | Err _ => False end).
Proof.
  intros Hok. destruct (on_shard _ _ _ _ f) as [[f' res] evs] eqn:Hx. simpl.
  eapply (on_shard_moves _ _ _ _ _ _ _ _ (λ r o, is_ok r = true ∧ o = off)) in Hx as Hm; [|done| |].
  - eapply moves_weaken; [|exact Hm]. intros k o _. destruct res; naive_solver.
  - intros sh sh' r eff Hsh Hr. apply resolve_spec in Hr as [Hsh' Hr]; [|done]. split; [done|].
    intros o. destruct r as [[]|e].
    + destruct Hr as (_ & _ & _ & -> & _). simpl. naive_solver.
    + destruct Hr as (_ & _ & _ & Hsf). rewrite (same_frontier_iff _ _ o Hsf). simpl. naive_solver.
  - simpl. naive_solver.
Qed.

Lemma extend_moves E t p off n vt f :
  inflight_ok f → moves f (ExtendHandle E t p off n vt f).1.1 nothing.
Proof.
  intros Hok. unfold ExtendHandle. destruct (on_shard _ _ _ _ f) as [[f' res] evs] eqn:Hx. simpl.
  eapply (on_shard_moves _ _ _ _ _ _ _ _ (λ _ _, False)) in Hx as Hm; [|done| |by intros ? ? []].
  - eapply moves_weaken; [|exact Hm]. intros k o _. unfold nothing. destruct res; naive_solver.
  - intros sh sh' r eff Hsh Hr. apply extend_spec in Hr as (Hsh' & Hsf & _); [|done].
    split; [done|]. intros o. by apply same_frontier_iff.
Qed.

Lemma release_moves E t p off n f :
  inflight_ok f → moves f (ReleaseHandle E t p off n f).1.1 nothing.
Proof.
  intros Hok. unfold ReleaseHandle. destruct (on_shard _ _ _ _ f) as [[f' res] evs] eqn:Hx. simpl.
  eapply (on_shard_moves _ _ _ _ _ _ _ _ (λ _ _, False)) in Hx as Hm; [|done| |by intros ? ? []].
  - eapply moves_weaken; [|exact Hm]. intros k o _. unfold nothing. destruct res; naive_solver.
  - intros sh sh' r eff Hsh Hr. apply release_spec in Hr as (Hsh' & Hsf & _); [|done].
    split; [done|]. intros o. by apply same_frontier_iff.
Qed.

Lemma skipMissing_moves E t p off n oldest f :
  inflight_ok f → oldest <= max_int64 →
  let x := SkipMissingBelow E t p off n oldest f in
  moves f x.1.1 (λ k o, match x.1.2 with Ok _ => k = (t, p) ∧ o < oldest | Err _ => False end).
Proof.
  intros Hok Hmax. unfold SkipMissingBelow. destruct (Z.leb_spec oldest off); simpl.
  { apply moves_caps; done. }
  destruct (on_shard _ _ _ _ f) as [[f' res] evs] eqn:Hx. simpl.
  eapply (on_shard_moves _ _ _ _ _ _ _ _ (λ r o, is_ok r = true ∧ o < oldest)) in Hx as Hm; [|done| |].
  - eapply moves_weaken; [|exact Hm]. intros k o _. destruct res; naive_solver.
  - intros sh sh' r eff Hsh Hr. apply skipMissing_spec in Hr as [Hsh' Hr]; [|done|lia]. split; [done|].
    intros o. destruct r as [d|e].
    + destruct Hr as (_ & _ & _ & _ & -> & _). simpl. naive_solver.
    + destruct Hr as (_ & _ & _ & Hsf & _). rewrite (same_frontier_iff _ _ o Hsf). simpl. naive_solver.
  - simpl. naive_solver.
Qed.

Lemma moves_create f k sh :
  inflight_ok f → shards f !! k = None → shard_ok sh → moves f (put_shard k sh f) nothing.
Proof.
  intros Hok Hk Hsh. split.
  - intros k' s. rewrite put_shard_lookup. case_decide; [naive_solver|apply Hok].
  - intros k' s s' x Hs. rewrite put_shard_lookup. unfold nothing.
    case_decide; intros; simplify_eq. tauto.
Qed.

Lemma moves_trans f f1 f' :
  (∀ k, is_Some (shards f !! k) → is_Some (shards f1 !! k)) →
  moves f f1 nothing → moves f1 f' nothing → moves f f' nothing.
Proof.
  intros Hdom [_ H1] [Hok H2]. split; [done|]. intros k sh sh' x Hk Hk'.
  destruct (Hdom k) as [sh1 Hk1]; [eauto|]. unfold nothing in *.
  rewrite (H2 k sh1 sh' x Hk1 Hk'), (H1 k sh sh1 x Hk Hk1). tauto.
Qed.

Lemma caps_only_dom f f' k : caps_only f f' → is_Some (shards f !! k) ↔ is_Some (shards f' !! k).
Proof. intros Hco. destruct (Hco k); split; intros [? ?]; by eauto. Qed.

Lemma put_shard_dom f k sh k' : is_Some (shards f !! k') → is_Some (shards (put_shard k sh f) !! k').
Proof. intros H. rewrite put_shard_lookup. case_decide; eauto. Qed.

Lemma recovered_ok E t p caps :
  env_ok E → shard_ok (seedAheadLocked (recovered_state E t p).2
    (newPartitionShard (recovered_state E t p).1 caps (e_draws E))).
Proof.
  intros HE. specialize (HE t p). destruct (recovered_state E t p) as [c offs]. simpl.
  destruct HE as (? & ? & ?). by apply seed_spec.
Qed.

Lemma shardOrCreate_moves E t p f f' res evs :
  inflight_ok f → env_ok E → shardOrCreate E t p f = (f', res, evs) →
  moves f f' nothing ∧ (∀ k, is_Some (shards f !! k) → is_Some (shards f' !! k))
  ∧ (is_ok res = true → is_Some (shards f' !! (t, p))).
Proof.
  intros Hok HE. unfold shardOrCreate, shard.
  destruct (shards f !! (t, p)) as [sh|] eqn:Hk.
  { intros [= <- <- <-]. pose proof (checkCaps_only E f) as Hco.
    split; [by apply moves_caps|]. split; intros; apply (caps_only_dom _ _ _ Hco); eauto. }
  destruct (resolvedCaps E t) as [caps|e].
  2:{ intros [= <- <- <-]. split; [apply moves_caps; done|]. done. }
  unfold recoverShard, shard. rewrite Hk.
  pose proof (recovered_ok E t p caps HE) as Hfresh.
  destruct (recovered_state E t p) as [c offs]. simpl in Hfresh.
  intros [= <- <- <-]. set (f1 := put_shard _ _ f).
  pose proof (moves_create f (t, p) _ Hok Hk Hfresh) as Hm1. fold f1 in Hm1.
  pose proof (noteShardCaps_only E t
    match e_capsVersions E with Some v => TopicVersion v t | None => 0 end f1) as Hco.
  split; [|split].
  - eapply moves_trans; [|exact Hm1|apply moves_caps; [apply Hm1|done]].
    intros k ?. by apply put_shard_dom.
  - intros k ?. apply (caps_only_dom _ _ _ Hco). by apply put_shard_dom.
  - intros _. apply (caps_only_dom _ _ _ Hco). unfold f1. rewrite put_shard_lookup.
    by case_decide; eauto.
Qed.

Lemma reserve_moves E t p vt tail f f' res evs :
  inflight_ok f → env_ok E → tail <= max_int64 →
  ReserveNext E t p vt tail f = Some (f', res, evs) → moves f f' nothing.
Proof.
  intros Hok HE Ht. unfold ReserveNext.
  destruct (shardOrCreate E t p f) as [[f1 r1] evs1] eqn:Hsc.
  apply shardOrCreate_moves in Hsc as (Hm & Hdom & _); [|done..].
  destruct r1; [|by intros [= <- <- <-]]. unfold shard.
  destruct (shards f1 !! (t, p)) as [sh|] eqn:Hk; [|done].
  destruct (reserveNextLocked _ _ _ sh) as [[sh' r]|] eqn:Hr; [|done]. intros [= <- <- <-].
  pose proof (proj1 Hm _ _ Hk) as Hsh.
  apply reserveNext_spec in Hr as (Hsh' & Hsr & _); [|done..].
  eapply moves_trans; [exact Hdom|exact Hm|].
  eapply moves_weaken; [|eapply (moves_put f1 (t, p) sh sh' (λ _, False)); [apply Hm|done..|]].
  - unfold nothing. naive_solver.
  - intros x. rewrite (same_resolved_iff _ _ x Hsr). tauto.
Qed.

(** *** The purger sweep *)

Definition purged_shard (now : Z) (sh : partitionShard) : partitionShard :=
  (purgeExpiredLocked now sh).1.

Lemma purge_fold_shards E l f evs :
  NoDup l.*1 →
  ∀ k, shards (foldl (purge_one E) (f, evs) l).1 !! k =
    match list_to_map (M:=gmap shardKey partitionShard) l !! k with
    | Some sh => Some (purged_shard (e_now E) sh)
    | None => shards f !! k
    end.
Proof.
  revert f evs; induction l as [|[k0 sh0] l IH]; intros f evs Hnd k.
  { simpl. by rewrite lookup_empty. }
  apply NoDup_cons in Hnd as [Hni Hnd]. cbn [foldl fmap list_fmap fst] in *.
  unfold purge_one at 2. destruct (purgeExpiredLocked (e_now E) sh0) as [sh1 rel] eqn:Hp.
  rewrite IH by done. rewrite list_to_map_cons, put_shard_lookup, lookup_insert.
  case_decide; subst; [|done].
  rewrite not_elem_of_list_to_map_1 by done. unfold purged_shard. by rewrite Hp.
Qed.

Lemma purgeAll_shards E f k :
  shards (purgeAll E f).1 !! k = purged_shard (e_now E) <$> shards f !! k.
Proof.
  unfold purgeAll. rewrite purge_fold_shards by apply NoDup_fst_map_to_list.
  rewrite list_to_map_to_list. by destruct (shards f !! k).
Qed.

Lemma purged_shard_ok now sh :
  shard_ok sh → shard_ok (purged_shard now sh) ∧ same_frontier sh (purged_shard now sh).
Proof.
  intros Hok. unfold purged_shard. destruct (purgeExpiredLocked now sh) as [sh' rel] eqn:Hp.
  apply purge_spec in Hp as (? & ? & _); done.
Qed.

Lemma purgeAll_moves E f : inflight_ok f → moves f (purgeAll E f).1 nothing.
Proof.
  intros Hok. split.
  - intros k sh'. rewrite purgeAll_shards. intros (sh & Hk & ->)%fmap_Some.
    by apply purged_shard_ok, (Hok k).
  - intros k sh sh' x Hk. rewrite purgeAll_shards, Hk. intros [= <-].
    apply same_frontier_iff, purged_shard_ok. by eapply Hok.
Qed.

Lemma subset_moves f s :
  inflight_ok f → s ⊆ shards f → moves f (set_shards s f) nothing.
Proof.
  intros Hok Hs. split.
  - intros k sh Hk. simpl in Hk. eapply Hok, lookup_weaken; eauto.
  - intros k sh sh' x Hk Hk'. simpl in Hk'.
    eapply lookup_weaken in Hk'; [|exact Hs]. simplify_eq. unfold nothing. tauto.
Qed.

Lemma set_seen_moves f f' s d : moves f f' d → moves f (set_seen s f') d.
Proof. done. Qed.

(** Every operation keeps every shard well formed, and a shard that lives
    through it settles exactly what the operation settles. *)
Lemma exec_moves E o f f' out evs :
  inflight_ok f → env_ok E → op_ok o → exec E o f = Some (f', out, evs) →
  inflight_ok f' ∧
  ∀ k sh sh' x, ¬ reinit o k → shards f !! k = Some sh → shards f' !! k = Some sh' →
    resolved sh' x ↔ resolved sh x ∨ settles o out k x.
Proof.
  intros Hok HE Ho Hx.
  assert (∀ d, moves f f' d → (∀ k x, d k x ↔ settles o out k x) →
    inflight_ok f' ∧ ∀ k sh sh' x, ¬ reinit o k → shards f !! k = Some sh →
      shards f' !! k = Some sh' → resolved sh' x ↔ resolved sh x ∨ settles o out k x) as Hgen.
  { intros d [Hok' Hm] Hd. split; [done|]. intros k sh sh' x _ Hk Hk'.
    by rewrite (Hm k sh sh' x Hk Hk'), Hd. }
  destruct o; cbn [exec] in Hx; simplify_eq/=.
  - apply fmap_Some in Hx as ([[f1 r] ev] & Hr & [= -> -> ->]).
    apply (Hgen nothing); [by eapply reserve_moves|]. by destruct r.
  - eapply Hgen; [apply (resolve_moves E t p offset nonce ackedAheadSet f Hok)|].
    intros k x. unfold CommitHandle. by destruct (on_shard _ _ _ _ f) as [[? []] ?].
  - eapply Hgen; [apply (resolve_moves E t p offset nonce corruptSet f Hok)|].
    intros k x. unfold SkipCorrupt. by destruct (on_shard _ _ _ _ f) as [[? []] ?].
  - eapply Hgen; [by apply (skipMissing_moves E t p offset nonce oldest f Hok)|].
    intros k x. by destruct (SkipMissingBelow _ _ _ _ _ _ f) as [[? []] ?].
  - apply (Hgen nothing); [by apply extend_moves|done].
  - apply (Hgen nothing); [by apply release_moves|done].
  - apply (Hgen nothing); [by apply purgeAll_moves|done].
  - apply (Hgen nothing); [apply moves_caps, RefreshCaps_only; done|done].
  - apply (Hgen nothing); [apply (subset_moves f _ Hok), map_filter_subseteq|done].
  - apply (Hgen nothing); [apply (subset_moves f _ Hok), delete_subseteq|done].
  - unfold Init. destruct (resolvedCaps E t) as [caps|e]; cbn [fst snd out_unit].
    + destruct Ho as [Hc1 Hc2]. split.
      * intros k s. rewrite put_shard_lookup. case_decide; [intros [= <-]; by apply new_ok|apply Hok].
      * intros k sh sh' x Hk Hs. rewrite put_shard_lookup. case_decide; [congruence|].
        intros. simplify_eq. tauto.
    + split; [done|]. intros. simplify_eq. tauto.
Qed.

(** ** Runs *)

(** A run of the tracker during which partition [k] keeps its shard and
    every shard state of [k] satisfies [P]. *)
Inductive run (P : partitionShard → Prop) (k : shardKey) : InFlight → list (op * outcome) → InFlight → Prop :=
| run_nil f : run P k f [] f
| run_cons E o f f1 sh1 out evs tr f' :
    env_ok E → op_ok o → ¬ reinit o k → exec E o f = Some (f1, out, evs) →
    shards f1 !! k = Some sh1 → P sh1 → run P k f1 tr f' → run P k f ((o, out) :: tr) f'.

Lemma reachable_ok f : reachable f → inflight_ok f.
Proof.
  induction 1 as [|E o f f' out evs _ IH HE Ho Hx]; [by apply map_Forall_empty|].
  by eapply exec_moves.
Qed.

Lemma run_resolved P k f tr f' sh sh' x :
  inflight_ok f → run P k f tr f' → shards f !! k = Some sh → shards f' !! k = Some sh' →
  resolved sh' x ↔ resolved sh x ∨ Exists (λ s, settles s.1 s.2 k x) tr.
Proof.
  intros Hok Hrun. revert sh Hok.
  induction Hrun as [f|E o f f1 sh1 out evs tr f' HE Ho Hni Hx Hk1 _ _ IH]; intros sh Hok Hk Hk'.
  - simplify_eq. rewrite Exists_nil. tauto.
  - destruct (exec_moves E o f f1 out evs) as [Hok1 Hm]; [done..|].
    rewrite (IH sh1), (Hm k sh sh1 x), Exists_cons by done. simpl. tauto.
Qed.

(** ** Wake-ups *)

(** An offset above the frontier that is neither reserved nor resolved. *)
Definition free (sh : partitionShard) (o : Z) : Prop :=
  committed sh < o ∧ resolvedOrReservedLocked sh o = false.

Lemma free_iff sh o : free sh o ↔ ¬ resolved sh o ∧ entries sh !! o = None.
Proof.
  unfold free, resolved. rewrite ror_false. pose proof (Z.le_gt_cases o (committed sh)).
  intuition lia.
Qed.

Lemma choice_free sh tail o :
  shard_ok sh → tail <= max_int64 → reserve_choice sh tail = Some o → free sh o ∧ o < tail.
Proof.
  intros Hok Ht Hc. apply reserve_choice_lowest in Hc as ((? & ? & _) & ? & _); by unfold free.
Qed.

Lemma choice_none_all sh tail o :
  shard_ok sh → tail <= max_int64 → reserve_choice sh tail = None →
  len_entries sh < maxInFlight sh → aheadFullLocked sh = false → o < tail → ¬ free sh o.
Proof.
  intros Hok Ht Hc Hcap Hfull Ho [Hgt Hfree]. open_ok Hok. unfold reserve_choice in Hc.
  destruct (Z.leb_spec (maxInFlight sh) (len_entries sh)); [lia|]. rewrite Hfull in Hc.
  eapply scan_free_none in Hc; [|in_range|done|done|]; [by rewrite Hc in Hfree|lia].
Qed.

Lemma choice_none_next sh tail :
  reserve_choice sh tail = None → len_entries sh < maxInFlight sh → aheadFullLocked sh = true →
  committed sh + 1 < tail → ¬ free sh (committed sh + 1).
Proof.
  intros Hc Hcap Hfull Hlt [_ Hfree]. unfold reserve_choice in Hc.
  destruct (Z.leb_spec (maxInFlight sh) (len_entries sh)); [lia|]. rewrite Hfull in Hc.
  destruct (Z.ltb_spec (committed sh + 1) tail); [|lia]. by rewrite Hfree in Hc.
Qed.

Lemma scan_free_ext fuel sh sh' off tail :
  (∀ o, resolvedOrReservedLocked sh o = resolvedOrReservedLocked sh' o) →
  scan_free fuel sh off tail = scan_free fuel sh' off tail.
Proof.
  intros H. revert off; induction fuel as [|fuel IH]; intros off; [done|]. cbn [scan_free].
  by rewrite H, IH.
Qed.

(** The decision depends on which offsets are leased, not on the leases. *)
Lemma choice_ext sh sh' tail :
  same_frontier sh sh' → dom (entries sh') = dom (entries sh) →
  reserve_choice sh' tail = reserve_choice sh tail.
Proof.
  intros (Hc & Ha & _ & Hk & _ & Hm1 & Hm2) Hd.
  assert (len_entries sh' = len_entries sh) as Hl.
  { unfold len_entries. by rewrite <-!size_dom, Hd. }
  assert (∀ o, resolvedOrReservedLocked sh' o = resolvedOrReservedLocked sh o) as Hr.
  { intros o. unfold resolvedOrReservedLocked. rewrite Ha, Hk.
    by rewrite (bool_decide_ext (is_Some (entries sh' !! o)) (is_Some (entries sh !! o)))
      by (by rewrite <-!elem_of_dom, Hd). }
  unfold reserve_choice, aheadFullLocked, len_ahead, len_corrupt.
  rewrite Hc, Ha, Hk, Hm1, Hm2, Hl, Hr. by rewrite (scan_free_ext _ sh' sh _ _ Hr).
Qed.

(** A purge that released nothing left the lease table alone. *)
Lemma purge_zero now sh shp rel :
  shard_ok sh → purgeExpiredLocked now sh = (shp, rel) → (0 <? rel) = false →
  entries shp = entries sh.
Proof.
  intros Hok Hp Hz. apply purge_spec in Hp as (_ & _ & He & Hr); [|done].
  apply Z.ltb_ge in Hz. unfold len_entries in Hr.
  apply map_subseteq_size_eq; [rewrite He; apply map_filter_subseteq|lia].
Qed.

(** After an ack, the offsets that can be handed out are the same. *)
Lemma resolve_free now off n kd sh sh' u eff :
  shard_ok sh → live now (entries sh) = entries sh →
  resolveLocked now off n kd sh = (sh', Ok u, eff) → ∀ o, free sh' o ↔ free sh o.
Proof.
  intros Hok Hl Hr o. apply resolve_spec in Hr as (_ & ([x Hx] & He & _ & Hres & _)); [|done].
  rewrite !free_iff, Hres, He, Hl, lookup_delete.
  case_decide; subst; naive_solver.
Qed.

Lemma resolve_wakes now off n kd sh sh' res eff tail o :
  shard_ok sh → tail <= max_int64 → resolveLocked now off n kd sh = (sh', res, eff) →
  reserve_choice sh tail = None → reserve_choice sh' tail = Some o → eff_notify eff = true.
Proof.
  intros Hok Ht Hr Hnone Hsome. pose proof Hr as Hr0.
  pose proof (proj1 (resolve_spec _ _ _ _ _ _ _ _ Hok Hr)) as Hok'.
  destruct (choice_free _ _ _ Hok' Ht Hsome) as [Hfo Hot]. unfold resolveLocked in Hr.
  destruct (purgeExpiredLocked now sh) as [shp rel] eqn:Hp.
  destruct (0 <? rel) eqn:Hz.
  { repeat case_match; by simplify_eq. }
  pose proof (purge_zero _ _ _ _ Hok Hp Hz) as Hez.
  apply purge_spec in Hp as (Hokp & Hsf & He & _); [|done].
  assert (reserve_choice shp tail = None) as Hnp by (by rewrite (choice_ext sh) by (done || by rewrite Hez)).
  destruct (handle_live shp off n); cbn [negb] in Hr; [|simplify_eq; congruence].
  destruct (Z.leb_spec (maxInFlight shp) (len_entries shp)) as [Hcap|Hcap].
  { repeat case_match; by simplify_eq. }
  assert (∀ x, free sh' x → free shp x) as Hfree.
  { intros x Hx. assert (∃ u, res = Ok u) as [u ->] by (repeat case_match; simplify_eq; eauto).
    rewrite (resolve_free now off n kd sh sh' u eff) in Hx; [|done|by rewrite <-He|done].
    rewrite free_iff in *. by rewrite (same_resolved_iff sh shp x (same_frontier_resolved _ _ Hsf)), Hez. }
  destruct (aheadFullLocked shp) eqn:Hfull.
  2:{ exfalso. by eapply (choice_none_all shp tail o); [..|apply Hfree]. }
  destruct (off =? i64 (committed shp + 1)); [by simplify_eq|]. exfalso.
  assert (committed sh' = committed shp ∧ aheadFullLocked sh' = true) as [Hc Hfull'].
  { destruct kd; simplify_eq; revert Hfull; unfold aheadFullLocked, len_ahead, len_corrupt;
      case_bool_decide; simpl; rewrite !Z.leb_le; intros Hle; (split; [done|]).
    all: etrans; [exact Hle|].
    1,2: assert (size (ackedAhead shp) <= size ({[off]} ∪ ackedAhead shp))%nat
           by (apply subseteq_size, union_subseteq_r); lia.
    all: assert (size (corrupt shp) <= size ({[off]} ∪ corrupt shp))%nat
           by (apply subseteq_size, union_subseteq_r); lia. }
  destruct (reserve_choice_lowest _ _ _ Hok' Ht Hsome) as (_ & _ & _ & Hnext).
  rewrite (Hnext Hfull'), Hc in *.
  by eapply (choice_none_next shp tail); [..|apply Hfree].
Qed.

Lemma extend_wakes now off n vt sh sh' res eff tail o :
  shard_ok sh → extendLocked now off n vt sh = (sh', res, eff) →
  reserve_choice sh tail = None → reserve_choice sh' tail = Some o → eff_notify eff = true.
Proof.
  intros Hok Hr Hnone Hsome. pose proof (extend_spec _ _ _ _ _ _ _ _ Hok Hr) as (_ & Hsf & Hcase).
  unfold extendLocked in Hr. destruct (purgeExpiredLocked now sh) as [shp rel] eqn:Hp.
  destruct (0 <? rel) eqn:Hz.
  { repeat case_match; by simplify_eq. }
  pose proof (purge_zero _ _ _ _ Hok Hp Hz) as Hez.
  apply purge_spec in Hp as (_ & _ & He & _); [|done].
  rewrite (choice_ext sh) in Hsome; [congruence|done|].
  destruct res as [exp|e].
  - destruct Hcase as ((x & Hx & ?) & _ & ->). rewrite <-He, Hez, dom_insert_L.
    apply elem_of_dom_2 in Hx. set_solver.
  - destruct Hcase as (_ & _ & ->). by rewrite <-He, Hez.
Qed.

Lemma release_wakes now off n sh sh' res eff tail o :
  shard_ok sh → releaseLocked now off n sh = (sh', res, eff) →
  reserve_choice sh tail = None → reserve_choice sh' tail = Some o → eff_notify eff = true.
Proof.
  intros Hok Hr Hnone Hsome. unfold releaseLocked in Hr.
  destruct (purgeExpiredLocked now sh) as [shp rel] eqn:Hp.
  destruct (0 <? rel) eqn:Hz.
  { repeat case_match; by simplify_eq. }
  destruct (handle_live shp off n); cbn [negb] in Hr; simplify_eq; [done|].
  pose proof (purge_zero _ _ _ _ Hok Hp Hz) as Hez.
  apply purge_spec in Hp as (_ & Hsf & _); [|done].
  rewrite (choice_ext sh) in Hsome; [congruence|done|by rewrite Hez].
Qed.

Lemma purge_fold_mono E l f evs ev :
  ev ∈ evs → ev ∈ (foldl (purge_one E) (f, evs) l).2.
Proof.
  revert f evs; induction l as [|[k sh] l IH]; intros f evs Hin; [done|]. cbn [foldl].
  unfold purge_one at 2. destruct (purgeExpiredLocked (e_now E) sh). apply IH.
  apply elem_of_app. by left.
Qed.

Lemma purge_fold_events E l f evs k sh :
  e_onRelease E = true → (k, sh) ∈ l → (0 <? (purgeExpiredLocked (e_now E) sh).2) = true →
  EvRelease k.1 k.2 ∈ (foldl (purge_one E) (f, evs) l).2.
Proof.
  intros HE. revert f evs; induction l as [|[k0 sh0] l IH]; intros f evs Hin Hrel.
  { by apply elem_of_nil in Hin. }
  cbn [foldl]. unfold purge_one at 2. apply elem_of_cons in Hin as [[= <- <-]|Hin].
  - destruct (purgeExpiredLocked (e_now E) sh) as [sh1 rel]. simpl in Hrel.
    apply purge_fold_mono, elem_of_app. right. rewrite Hrel, HE. simpl. by apply list_elem_of_singleton.
  - destruct (purgeExpiredLocked (e_now E) sh0). by apply IH.
Qed.

(** The operations that announce what they make deliverable: all but
    [ReserveNext] itself, a refused [SkipMissingBelow], and the ones that
    change caps or shards. *)
Definition announces (o : op) (out : outcome) : Prop :=
  match o, out with
  | OCommit _ _ _ _, _ | OSkipCorrupt _ _ _ _, _ | OExtend _ _ _ _ _, _
  | ORelease _ _ _ _, _ | OPurgeAll, _ | OSkipMissing _ _ _ _ _, RInt _ => True
  | _, _ => False
  end.

Lemma on_shard_wakes {A} E t0 p0 (g : partitionShard → partitionShard * result handle_err A * effects)
    f f' res evs t p sh sh' tail o :
  (∀ s s' r eff, shard_ok s → g s = (s', r, eff) → reserve_choice s tail = None →
     reserve_choice s' tail = Some o → match r with Ok _ => is_ok res = true | Err _ => is_ok res = false end →
     eff_notify eff = true) →
  inflight_ok f → e_onRelease E = true → on_shard E t0 p0 g f = (f', res, evs) →
  shards f !! (t, p) = Some sh → shards f' !! (t, p) = Some sh' →
  reserve_choice sh tail = None → reserve_choice sh' tail = Some o → EvRelease t p ∈ evs.
Proof.
  intros Hg Hok HE. unfold on_shard, shard. destruct (shards f !! (t0, p0)) as [s|] eqn:Hs.
  2:{ intros [= <- <- <-] ????. simplify_eq. }
  destruct (g s) as [[s' r] eff] eqn:Hgs. intros [= <- <- <-] Hk.
  rewrite put_shard_lookup. case_decide as Heq; [|intros; simplify_eq; congruence].
  intros [= <-] Hn Hsome. simplify_eq.
  assert (eff_notify eff = true) as Hnot.
  { eapply Hg; [|done..|]; [by eapply Hok|by destruct r]. }
  unfold run_effects. apply elem_of_app. right. rewrite Hnot. unfold notifyRelease. rewrite HE.
  by apply list_elem_of_singleton.
Qed.

Lemma purgeAll_wakes E f t p sh sh' tail o :
  inflight_ok f → e_onRelease E = true →
  shards f !! (t, p) = Some sh → shards (purgeAll E f).1 !! (t, p) = Some sh' →
  reserve_choice sh tail = None → reserve_choice sh' tail = Some o →
  EvRelease t p ∈ (purgeAll E f).2.
Proof.
  intros Hok HE Hk. rewrite purgeAll_shards, Hk. intros [= <-] Hn Hs.
  apply (purge_fold_events E _ _ _ (t, p) sh); [done|by apply elem_of_map_to_list|].
  pose proof (Hok _ _ Hk) as Hsh. unfold purged_shard in Hs.
  destruct (purgeExpiredLocked (e_now E) sh) as [shp rel] eqn:Hp. simpl in *.
  destruct (0 <? rel) eqn:Hz; [done|].
  pose proof (purge_zero _ _ _ _ Hsh Hp Hz) as Hez.
  apply purge_spec in Hp as (_ & Hsf & _); [|done].
  rewrite (choice_ext sh) in Hs; [congruence|done|by rewrite Hez].
Qed.

(** ** The bound on the ahead-of-frontier state *)

(** The acked-ahead and corrupt offsets together with the leases that
    could still join them (all but the one the frontier waits for). *)
Definition pend (sh : partitionShard) : Z :=
  len_ahead sh + len_corrupt sh + Z.of_nat (size (delete (committed sh + 1) (entries sh))).

Lemma pend_mono sh sh' :
  ackedAhead sh' ⊆ ackedAhead sh → corrupt sh' ⊆ corrupt sh →
  delete (committed sh' + 1) (entries sh') ⊆ delete (committed sh + 1) (entries sh) →
  pend sh' <= pend sh.
Proof.
  intros Ha%subseteq_size Hk%subseteq_size He%map_subseteq_size.
  unfold pend, len_ahead, len_corrupt. lia.
Qed.

Lemma live_subseteq now m : live now m ⊆ m.
Proof. apply map_filter_subseteq. Qed.

Lemma pend_purge now sh shp rel :
  shard_ok sh → purgeExpiredLocked now sh = (shp, rel) → pend shp <= pend sh.
Proof.
  intros Hok Hp. apply purge_spec in Hp as (_ & (Hc & Ha & _ & Hk & _) & He & _); [|done].
  apply pend_mono; rewrite ?Ha, ?Hk, ?Hc, ?He; [done..|]. apply delete_mono, live_subseteq.
Qed.

(** Moving the frontier never grows the bound. *)
Lemma pend_collapsed sh sh' m :
  collapsed sh sh' → ackedAhead sh ⊆ ackedAhead m → corrupt sh ⊆ corrupt m →
  entries sh ⊆ delete (committed m + 1) (entries m) → pend sh' <= pend m.
Proof.
  intros [(He & _) _ _ Ha Hk] Ham Hkm Hem. apply pend_mono.
  - intros o [Ho _]%Ha. by apply Ham.
  - intros o [Ho _]%Hk. by apply Hkm.
  - rewrite He. etrans; [apply delete_subseteq|done].
Qed.

Lemma pend_parked sh sh' off r :
  entries sh !! off = Some r → off ≠ committed sh + 1 →
  committed sh' = committed sh → entries sh' = delete off (entries sh) →
  (size (ackedAhead sh') + size (corrupt sh') <= S (size (ackedAhead sh) + size (corrupt sh)))%nat →
  pend sh' <= pend sh.
Proof.
  intros Hr Hne Hc He Hs. unfold pend, len_ahead, len_corrupt. rewrite Hc, He.
  rewrite delete_delete, map_size_delete_Some by (rewrite lookup_delete_ne by done; eauto).
  assert (size (delete (committed sh + 1) (entries sh)) ≠ 0%nat); [|lia].
  intros Hz%map_size_empty_inv. apply (f_equal (.!! off)) in Hz.
  rewrite lookup_delete_ne, lookup_empty in Hz by done. congruence.
Qed.

Lemma pend_resolve now off n kd sh sh' res eff :
  shard_ok sh → resolveLocked now off n kd sh = (sh', res, eff) → pend sh' <= pend sh.
Proof.
  intros Hok. unfold resolveLocked.
  destruct (purgeExpiredLocked now sh) as [shp rel] eqn:Hp.
  pose proof (pend_purge _ _ _ _ Hok Hp) as Hpp.
  apply purge_spec in Hp as (Hokp & _); [|done].
  destruct (handle_live shp off n) eqn:Hl; cbn [negb]; [|by intros [= <- <- <-]].
  apply handle_live_spec in Hl as [x Hx]. rewrite next_no_wrap by (by apply ok_wk).
  destruct (Z.eqb_spec off (committed shp + 1)) as [->|Hne].
  - intros [= <- <- <-]. etrans; [|exact Hpp].
    eapply pend_collapsed; [apply advance_spec, (frontier_wk shp _ Hokp Hx)|done..].
  - intros Heq. etrans; [|exact Hpp]. apply (pend_parked shp sh' off _ Hx Hne).
    all: destruct kd; simplify_eq; case_bool_decide; try done; simpl.
    1,2: assert (size ({[off]} ∪ ackedAhead shp) <= 1 + size (ackedAhead shp))%nat
           by (rewrite size_union_alt, size_singleton; assert (size (ackedAhead shp ∖ {[off]}) <= size (ackedAhead shp))%nat by (apply subseteq_size; set_solver); lia); lia.
    all: assert (size ({[off]} ∪ corrupt shp) <= 1 + size (corrupt shp))%nat
           by (rewrite size_union_alt, size_singleton; assert (size (corrupt shp ∖ {[off]}) <= size (corrupt shp))%nat by (apply subseteq_size; set_solver); lia); lia.
Qed.

Lemma pend_extend now off n vt sh sh' res eff :
  shard_ok sh → extendLocked now off n vt sh = (sh', res, eff) → pend sh' <= pend sh.
Proof.
  intros Hok Hx. apply extend_spec in Hx as (_ & (Hc & Ha & _ & Hk & _) & Hcase); [|done].
  unfold pend, len_ahead, len_corrupt. rewrite Hc, Ha, Hk.
  assert (Z.of_nat (size (delete (committed sh + 1) (entries sh')))
          <= Z.of_nat (size (delete (committed sh + 1) (entries sh)))); [|lia].
  rewrite <-!size_dom, !dom_delete_L. apply inj_le. apply subseteq_size, difference_mono_r.
  pose proof (subseteq_dom _ _ (live_subseteq now (entries sh))) as Hd.
  destruct res as [exp|e].
  - destruct Hcase as ((x & Hx%elem_of_dom_2 & _) & _ & ->). rewrite dom_insert. set_solver.
  - by destruct Hcase as (_ & _ & ->).
Qed.

Lemma pend_release now off n sh sh' res eff :
  shard_ok sh → releaseLocked now off n sh = (sh', res, eff) → pend sh' <= pend sh.
Proof.
  intros Hok Hx. apply release_spec in Hx as (_ & (Hc & Ha & _ & Hk & _) & Hcase); [|done].
  apply pend_mono; rewrite ?Ha, ?Hk, ?Hc; [done..|]. apply delete_mono.
  destruct res; [destruct Hcase as [_ ->]|destruct Hcase as (_ & _ & ->)].
  - etrans; [apply delete_subseteq|apply live_subseteq].
  - apply live_subseteq.
Qed.

Lemma ahead_union sh :
  shard_ok sh → len_ahead sh + len_corrupt sh = Z.of_nat (size (ackedAhead sh ∪ corrupt sh)).
Proof.
  intros Hok. open_ok Hok. unfold len_ahead, len_corrupt. rewrite size_union; [lia|].
  intros o. apply Hdj2.
Qed.

Lemma pend_skipMissing now off n oldest sh sh' res eff :
  shard_ok sh → off < oldest <= max_int64 → skipMissingLocked now off n oldest sh = (sh', res, eff) →
  pend sh' <= pend sh.
Proof.
  intros Hok Ho Hx. apply skipMissing_spec in Hx as [Hok' Hcase]; [|done..]. destruct res as [d|e].
  2:{ destruct Hcase as (_ & _ & He & (Hc & Ha & _ & Hk & _) & _).
      apply pend_mono; rewrite ?Ha, ?Hk, ?Hc, ?He; [done..|]. apply delete_mono, live_subseteq. }
  destruct Hcase as ((x & Hx & _) & He & Hc & _ & Hres & _).
  pose proof (wk_entries _ (ok_wk _ Hok) _ _ Hx) as [Hgt _].
  unfold pend. rewrite !ahead_union by done.
  assert (delete (committed sh' + 1) (entries sh') ⊆ delete (committed sh + 1) (entries sh)) as Hsub.
  { etrans; [apply delete_subseteq|]. rewrite He. apply map_subseteq_spec. intros o r.
    rewrite map_lookup_filter_Some. intros [[Ho' _]%live_lookup ?]. simpl in *.
    rewrite lookup_delete_ne by lia. done. }
  apply map_subseteq_size in Hsub.
  assert (ackedAhead sh' ∪ corrupt sh' ⊆ ackedAhead sh ∪ corrupt sh) as Hu%subseteq_size; [|lia].
  intros o. pose proof Hok' as Hok2. open_ok Hok2. rewrite !elem_of_union. intros Hin.
  assert (committed sh' < o) by (destruct Hin as [Hin|Hin]; [apply Hah in Hin|apply Hco in Hin]; lia).
  assert (resolved sh' o) as [[? | ?] | ?]%Hres by (unfold resolved; tauto); [lia|done|lia].
Qed.

Lemma pend_reserve now vt tail sh sh' r :
  shard_ok sh → tail <= max_int64 → reserveNextLocked now vt tail sh = Some (sh', r) →
  pend sh' <= Z.max (pend sh) (maxAckedAhead sh' + maxInFlight sh' - 1).
Proof.
  intros Hok Ht Hr. apply reserveNext_spec in Hr as (_ & (Hc & Ha & _ & Hk & Hm1 & Hm2) & Hcase); [|done..].
  destruct (purgeExpiredLocked now sh) as [shp rel] eqn:Hp. cbn [fst] in Hcase.
  apply purge_spec in Hp as (Hokp & (Hc' & Ha' & _ & Hk' & _ & Hm1' & Hm2') & He & _); [|done].
  pose proof (map_subseteq_size _ _ (delete_mono _ _ (committed sh + 1) (live_subseteq now (entries sh)))) as Hsz.
  unfold pend, len_ahead, len_corrupt. rewrite Hc, Ha, Hk, Hm1, Hm2.
  destruct (reserve_choice shp tail) as [off|] eqn:Hch; [|destruct Hcase as (_ & -> & _); lia].
  destruct (reserve_choice_lowest _ _ _ Hokp Ht Hch) as (_ & _ & Hcap & Hnext).
  destruct Hcase as (_ & _ & _ & _ & ->).
  destruct (aheadFullLocked shp) eqn:Hfull.
  - rewrite (Hnext eq_refl), Hc', delete_insert_eq. lia.
  - unfold aheadFullLocked, len_ahead, len_corrupt in Hfull. apply Z.leb_gt in Hfull.
    unfold len_entries in Hcap. rewrite Ha', Hk', Hm2' in Hfull. rewrite He, Hm1' in Hcap.
    pose proof (map_subseteq_size _ _ (delete_subseteq
      (<[off:=Reservation (ExpiresAtUnixMs r) (r_Nonce r)]> (live now (entries sh))) (committed sh + 1))) as Hd.
    rewrite map_size_insert in Hd. unfold id in Hd. destruct (live now (entries sh) !! off); lia.
Qed.

(** A relation that every handle operation's shard step satisfies holds
    between the shards before and after the call. *)
Lemma on_shard_kept {A} (R : partitionShard → partitionShard → Prop) E t p
    (g : partitionShard → partitionShard * result handle_err A * effects) f k sh sh' :
  (∀ s, R s s) → (∀ s s' r eff, shard_ok s → g s = (s', r, eff) → R s s') → inflight_ok f →
  shards f !! k = Some sh → shards (on_shard E t p g f).1.1 !! k = Some sh' → R sh sh'.
Proof.
  intros Hrefl Hg Hok Hk. unfold on_shard, shard.
  destruct (shards f !! (t, p)) as [s|] eqn:Hs; [|intros; by simplify_eq/=].
  destruct (g s) as [[s' r] eff] eqn:Hgs. cbn [fst]. rewrite put_shard_lookup.
  case_decide; intros; simplify_eq; [|done]. eapply Hg; [|done]. by eapply Hok.
Qed.

Lemma caps_only_pend f f' k sh sh' :
  caps_only f f' → shards f !! k = Some sh → shards f' !! k = Some sh' → pend sh' = pend sh.
Proof.
  intros Hco Hk Hk'. specialize (Hco k). rewrite Hk, Hk' in Hco. by inversion Hco as [? ? [c ->]|].
Qed.

Lemma shardOrCreate_kept E t p f f' res evs k sh :
  shardOrCreate E t p f = (f', res, evs) → shards f !! k = Some sh →
  option_Forall2 caps_eq (Some sh) (shards f' !! k).
Proof.
  unfold shardOrCreate, shard. destruct (shards f !! (t, p)) as [s|] eqn:Hs.
  { intros [= <- <- <-] Hk. pose proof (checkCaps_only E f k) as Hco. by rewrite Hk in Hco. }
  destruct (resolvedCaps E t) as [caps|e].
  2:{ intros [= <- <- <-] Hk. rewrite Hk. by constructor. }
  unfold recoverShard, shard. rewrite Hs. destruct (recovered_state E t p) as [c offs].
  intros [= <- <- <-] Hk. set (f1 := put_shard _ _ f).
  assert (shards f1 !! k = Some sh) as Hk1.
  { unfold f1. rewrite put_shard_lookup. case_decide; [congruence|done]. }
  rewrite <-Hk1. apply noteShardCaps_only.
Qed.

Lemma exec_pend E o f f' out evs k sh sh' :
  inflight_ok f → env_ok E → op_ok o → exec E o f = Some (f', out, evs) → ¬ reinit o k →
  shards f !! k = Some sh → shards f' !! k = Some sh' →
  pend sh' <= Z.max (pend sh) (maxAckedAhead sh' + maxInFlight sh' - 1).
Proof.
  intros Hok HE Ho Hx Hni Hk Hk'.
  assert (pend sh' <= pend sh → pend sh' <= Z.max (pend sh) (maxAckedAhead sh' + maxInFlight sh' - 1))
    as Hle by lia.
  assert (∀ A (g : partitionShard → partitionShard * result handle_err A * effects) t p,
    (∀ s s' r eff, shard_ok s → g s = (s', r, eff) → pend s' <= pend s) →
    shards (on_shard E t p g f).1.1 !! k = Some sh' → pend sh' <= pend sh) as Hgen.
  { intros A g t p Hg Hs. by apply (on_shard_kept (λ a b, pend b <= pend a) E t p g f k sh sh'). }
  destruct o; cbn [exec] in Hx; simplify_eq.
  - apply fmap_Some in Hx as ([[f1 r] ev] & Hr & [= -> -> ->]). simpl in Hk'. unfold ReserveNext in Hr.
    destruct (shardOrCreate E t p f) as [[f2 [[]|e]] ev2] eqn:Hsc.
    2:{ simplify_eq. apply (shardOrCreate_kept _ _ _ _ _ _ _ _ _ Hsc) in Hk. rewrite Hk' in Hk.
        inversion Hk as [? ? [c ->]|]; subst. by apply Hle. }
    pose proof (shardOrCreate_kept _ _ _ _ _ _ _ _ _ Hsc Hk) as Hk2.
    apply shardOrCreate_moves in Hsc as ((Hok2 & _) & _); [|done..]. unfold shard in Hr.
    destruct (shards f2 !! (t, p)) as [s2|] eqn:Hs2; [|done].
    destruct (reserveNextLocked _ _ _ s2) as [[s' r']|] eqn:Hrn; [|done]. simplify_eq.
    rewrite put_shard_lookup in Hk'. case_decide; simplify_eq.
    + rewrite Hs2 in Hk2. inversion Hk2 as [? ? [c ->]|]; subst.
      eapply pend_reserve in Hrn; [done|by eapply Hok2|done].
    + rewrite Hk' in Hk2. inversion Hk2 as [? ? [c ->]|]; subst. by apply Hle.
  - eapply Hle, Hgen, Hk'. intros ?????. by eapply pend_resolve.
  - eapply Hle, Hgen, Hk'. intros ?????. by eapply pend_resolve.
  - unfold SkipMissingBelow in Hk'. destruct (Z.leb_spec oldest offset); [simplify_eq/=; lia|].
    eapply Hle, Hgen, Hk'. intros ?????. by eapply pend_skipMissing.
  - eapply Hle, Hgen, Hk'. intros ?????. by eapply pend_extend.
  - eapply Hle, Hgen, Hk'. intros ?????. by eapply pend_release.
  - rewrite purgeAll_shards, Hk in Hk'. simplify_eq/=. apply Hle. unfold purged_shard.
    destruct (purgeExpiredLocked _ sh) eqn:Hp. apply (pend_purge _ _ _ _ (Hok _ _ Hk) Hp).
  - apply Hle. erewrite (caps_only_pend f); [done|apply RefreshCaps_only|done..].
  - apply map_lookup_filter_Some in Hk' as [Hk' _]. simplify_eq. lia.
  - simpl in Hk'. apply lookup_delete_Some in Hk' as [_ Hk']. simplify_eq. lia.
  - unfold Init in Hk'. destruct (resolvedCaps E t); cbn [fst] in Hk'; [|simplify_eq; lia].
    rewrite put_shard_lookup in Hk'. case_decide; [by subst|simplify_eq; lia].
Qed.

(** ** Properties *)

(** C2. At-least-once: over any run in which a partition keeps its shard,
    an offset ends up settled (the frontier is at or past it, or it is
    recorded ahead of the frontier) exactly when it was settled before, or
    a [CommitHandle] / [SkipCorrupt] of that very offset, or a
    [SkipMissingBelow] past it, succeeded in the run.  Nothing else (lease
    expiry, nacks, extensions, purges, caps changes, other partitions) ever
    settles a message, and nothing settled ever comes back. *)
Theorem at_least_once (k : shardKey) f tr f' sh sh' x :
  reachable f → run (λ _, True) k f tr f' →
  shards f !! k = Some sh → shards f' !! k = Some sh' →
  resolved sh' x ↔ resolved sh x ∨ Exists (λ s, settles s.1 s.2 k x) tr.
Proof. intros Hr%reachable_ok. by apply run_resolved. Qed.

(** C37. The representation invariant holds in every reachable state:
    leases and resolved offsets lie above the frontier, are pairwise
    disjoint, the frontier is collapsed, every offset below the scan hint
    is taken, and every lease has its heap entry in a well-ordered heap. *)
Theorem reachable_shards_ok f k sh :
  reachable f → shards f !! k = Some sh → shard_ok sh.
Proof. intros Hr%reachable_ok Hk. by apply (Hr k). Qed.

(** C12. Leases are exclusive: in a reachable state [ReserveNext] never
    hands out an offset that is settled or under a running lease; the
    offset it hands out is above the frontier and below the log tail, and
    afterwards its lease is exactly the one reported, under a positive
    nonce. *)
Theorem reserve_exclusive E t p vt tail f f' r evs sh :
  reachable f → env_ok E → tail <= max_int64 → shards f !! (t, p) = Some sh →
  ReserveNext E t p vt tail f = Some (f', Ok r, evs) → Reserved r = true →
  ¬ resolved sh (r_Offset r) ∧ committed sh < r_Offset r < tail
  ∧ (∀ n, ¬ holds_lease (e_now E) sh (r_Offset r) n)
  ∧ 0 < r_Nonce r
  ∧ ∃ sh', shards f' !! (t, p) = Some sh'
      ∧ entries sh' !! r_Offset r = Some (Reservation (ExpiresAtUnixMs r) (r_Nonce r)).
Proof.
  intros Hr%reachable_ok HE Ht Hk Hx Hres. unfold ReserveNext, shardOrCreate, shard in Hx.
  rewrite Hk in Hx. pose proof (checkCaps_only E f) as Hco.
  pose proof (caps_only_ok _ _ Hco Hr) as Hr1. specialize (Hco (t, p)). rewrite Hk in Hco.
  destruct (shards (checkCaps E f) !! (t, p)) as [sh1|] eqn:Hk1; [|done].
  inversion Hco as [? ? [c ->] |]; subst. clear Hco.
  destruct (reserveNextLocked _ _ _ _) as [[sh' r']|] eqn:Hrn; [|done]. simplify_eq.
  pose proof (Hr1 _ _ Hk1) as Hok1. pose proof Hrn as Hrn'.
  apply reserveNext_spec in Hrn as (Hok' & _ & Hcase); [|done..].
  destruct (purgeExpiredLocked (e_now E) (set_caps c sh)) as [shp rel] eqn:Hp.
  apply purge_spec in Hp as (Hokp & Hsf & Hep & _); [|done]. cbn [fst] in Hcase.
  destruct (reserve_choice shp tail) as [off|] eqn:Hch; [|destruct Hcase as [Hf _]; congruence].
  destruct Hcase as (_ & Hoff & Hn & _ & He). simpl in Hep, He.
  destruct (choice_free _ _ _ Hokp Ht Hch) as [Hfree Htl]. rewrite Hoff.
  pose proof Hfree as [Hgt _]. apply free_iff in Hfree as [Hnr Hne].
  destruct Hsf as (Hc & Ha & _ & Hkk & _). simpl in *.
  split_and!; [| lia | lia | |done|].
  - contradict Hnr. unfold resolved in *. by rewrite Hc, Ha, Hkk.
  - intros n [x [Hx Hlt]]. rewrite Hep in Hne.
    assert (live (e_now E) (entries sh) !! off = Some (Reservation x n)) by (by apply live_lookup).
    congruence.
  - exists sh'. rewrite lookup_insert_eq. split; [done|]. by rewrite He, lookup_insert_eq.
Qed.

(** C13. Head-of-line progress: in every reachable state, whenever the offset the frontier waits for
    is in the log and not under a running lease, and fewer than
    [MaxInFlight] leases are running, [ReserveNext] hands out exactly that
    offset, even when the acked-ahead set is at its cap; so an expired or
    nacked message is always redelivered and the partition cannot stall. *)
Theorem head_of_line_progress now vt tail f k sh :
  reachable f → shards f !! k = Some sh → tail <= max_int64 → committed sh + 1 < tail →
  (∀ n, ¬ holds_lease now sh (committed sh + 1) n) →
  Z.of_nat (size (live now (entries sh))) < maxInFlight sh →
  Exists (λ u, 2 <= u < two64) (rng sh) →
  ∃ sh' r, reserveNextLocked now vt tail sh = Some (sh', r)
    ∧ Reserved r = true ∧ r_Offset r = committed sh + 1.
Proof.
  intros Hr%reachable_ok Hk0 Ht Hlt Hnl Hcap Hd. pose proof (Hr _ _ Hk0) as Hok.
  pose proof (reserveNext_choice now vt tail sh Hok Ht) as Hch.
  destruct (purgeExpiredLocked now sh) as [shp rel] eqn:Hp. cbn [fst] in Hch.
  apply purge_spec in Hp as (Hokp & (Hc & Ha & _ & Hk & Hrng & Hm & _) & He & _); [|done].
  assert (free shp (committed shp + 1)) as Hfree.
  { apply free_iff. unfold resolved. rewrite He, Hc, Ha, Hk.
    pose proof (ok_hole _ Hok). split; [intuition lia|].
    apply eq_None_not_Some. intros [[x n] [Hx ?]%live_lookup]. by apply (Hnl n); exists x. }
  assert (len_entries shp < maxInFlight shp) as Hcap' by (unfold len_entries; by rewrite He, Hm).
  assert (reserve_choice shp tail = Some (committed sh + 1)) as Hcho.
  { destruct (reserve_choice shp tail) as [o|] eqn:Hcho.
    - destruct (reserve_choice_lowest _ _ _ Hokp Ht Hcho) as ((Hgt & _ & Hlow) & _).
      destruct (Z.lt_trichotomy o (committed shp + 1)) as [?|[->|?]]; [lia|by rewrite Hc|].
      destruct Hfree as [_ Hf]. rewrite Hlow in Hf by lia. done.
    - exfalso. destruct (aheadFullLocked shp) eqn:Hfull.
      + by eapply (choice_none_next shp tail); [..|lia|].
      + by eapply (choice_none_all shp tail (committed shp + 1)); [..|lia|]. }
  rewrite Hcho in Hch. rewrite Hch. unfold reserveLocked. rewrite Hrng.
  destruct (nextNonce_some _ Hd) as [[n ds] ->]. eauto.
Qed.

(** C14. No lost wake-up: when a partition had nothing it could hand out (for
    a given log tail) and an ack, a nack, an extension, a corrupt skip, a
    successful skip of deleted records, or a purge sweep leaves it with
    something to hand out, that very call fires the release notifier of the
    partition, so a parked consumer is never left waiting. *)
Theorem no_lost_wakeup E o f f' out evs t p sh sh' tail x :
  reachable f → e_onRelease E = true → op_ok o → tail <= max_int64 →
  exec E o f = Some (f', out, evs) → announces o out →
  shards f !! (t, p) = Some sh → shards f' !! (t, p) = Some sh' →
  reserve_choice sh tail = None → reserve_choice sh' tail = Some x →
  EvRelease t p ∈ evs.
Proof.
  intros Hr%reachable_ok HE Ho Ht Hx Han Hk Hk' Hn Hs.
  assert (∀ A (g : partitionShard → partitionShard * result handle_err A * effects) t0 p0,
    (∀ s s' r eff, shard_ok s → g s = (s', r, eff) → reserve_choice s tail = None →
       reserve_choice s' tail = Some x →
       match r with Ok _ => is_ok (on_shard E t0 p0 g f).1.2 = true
                  | Err _ => is_ok (on_shard E t0 p0 g f).1.2 = false end →
       eff_notify eff = true) →
    shards (on_shard E t0 p0 g f).1.1 !! (t, p) = Some sh' → EvRelease t p ∈ (on_shard E t0 p0 g f).2) as Hgen.
  { intros A g t0 p0 Hg Hs'. destruct (on_shard E t0 p0 g f) as [[f2 res] evs2] eqn:Hos.
    by eapply (on_shard_wakes E t0 p0 g f f2 res evs2 t p sh sh' tail x). }
  destruct o; try done; cbn [exec] in Hx; simplify_eq.
  - eapply Hgen; [|exact Hk']. intros ????????? . by eapply resolve_wakes.
  - eapply Hgen; [|exact Hk']. intros ????????? . by eapply resolve_wakes.
  - unfold SkipMissingBelow in *. destruct (Z.leb_spec oldest offset); [done|].
    eapply Hgen; [|exact Hk']. intros s s' [d|e] eff Hsh Hg _ _ Hres.
    + apply skipMissing_spec in Hg as (_ & _ & _ & _ & _ & _ & _ & _ & ->); [done..|simpl in Ho; lia].
    + by destruct (on_shard _ _ _ _ _) as [[? []] ?].
  - eapply Hgen; [|exact Hk']. intros ????????? . by eapply extend_wakes.
  - eapply Hgen; [|exact Hk']. intros ????????? . by eapply release_wakes.
  - by eapply purgeAll_wakes.
Qed.

(** C36. Bounded memory: as long as a partition's caps stay within [A]
    acked-ahead and [I] in-flight, the acked-ahead and corrupt records it
    keeps never exceed [A + I - 1] (or what it already held); the
    acked-ahead cap is a bound on memory and on the persisted record, not
    only advice. *)
Theorem ahead_bounded A I k f tr f' sh sh' :
  reachable f →
  run (λ s, maxAckedAhead s <= A ∧ maxInFlight s <= I) k f tr f' →
  shards f !! k = Some sh → shards f' !! k = Some sh' →
  pend sh <= A + I - 1 → len_ahead sh' + len_corrupt sh' <= A + I - 1.
Proof.
  intros Hr%reachable_ok Hrun. revert sh Hr.
  induction Hrun as [f|E o f f1 sh1 out evs tr f' HE Ho Hni Hx Hk1 [HA HI] _ IH]; intros sh Hok Hk Hk' Hp.
  - simplify_eq. unfold pend in Hp. lia.
  - destruct (exec_moves E o f f1 out evs) as [Hok1 _]; [done..|].
    pose proof (exec_pend E o f f1 out evs k sh sh1 Hok HE Ho Hx Hni Hk Hk1).
    apply (IH sh1); [done..|lia].
Qed.

(** C35. Recovery: when the acked-ahead record persisted from a reachable
    shard ([AheadSnapshot]) is read back by a node that holds no shard for
    the partition, next to an older or equal [consumer.offset], the shard it
    builds is well formed, holds no lease, and has settled exactly the
    offsets at or below the frontier and those acked ahead of it: no acked
    message is redelivered by a restart, and no other is skipped. *)
Theorem recovery_roundtrip E evs t p f f' g offs v c0 sh :
  reachable f → shards f !! (t, p) = Some sh →
  AheadSnapshot t p f = Some (committed sh, offs, v) →
  shards g !! (t, p) = None →
  e_recover E = Some (λ _ _, Some c0) → c0 <= committed sh →
  e_recoverAhead E = Some (λ _ _, Some (committed sh, offs)) →
  shardOrCreate E t p g = (f', Ok tt, evs) →
  ∃ sh', shards f' !! (t, p) = Some sh' ∧ shard_ok sh' ∧ entries sh' = ∅
    ∧ ∀ o, resolved sh' o ↔ o <= committed sh ∨ o ∈ ackedAhead sh.
Proof.
  intros Hr%reachable_ok Hk Hsnap Hg Hrec Hc0 Hra Hx.
  pose proof (Hr _ _ Hk) as Hok. open_ok Hok.
  unfold AheadSnapshot, shard in Hsnap. rewrite Hk in Hsnap. simplify_eq/=.
  unfold shardOrCreate, shard in Hx. rewrite Hg in Hx.
  destruct (resolvedCaps E t) as [caps|]; [|done].
  unfold recoverShard, shard, recovered_state in Hx. rewrite Hg, Hrec, Hra in Hx.
  rewrite Z.max_r in Hx by lia. set (fresh := seedAheadLocked _ _) in Hx. simplify_eq.
  destruct (seed_spec (committed sh) caps (e_draws E) (merge_sort Z.le (elements (ackedAhead sh))))
    as (Hf & He & _ & Hres & _); [done|done| |].
  { apply Forall_forall. intros o Ho. rewrite merge_sort_Permutation, elem_of_elements in Ho.
    apply Hah in Ho. lia. }
  fold fresh in Hf, He, Hres. set (f1 := put_shard _ _ g).
  set (ver := match e_capsVersions E with Some _ => _ | None => _ end).
  pose proof (noteShardCaps_only E t ver f1 (t, p)) as Hcn.
  assert (shards f1 !! (t, p) = Some fresh) as Hf1.
  { unfold f1. rewrite put_shard_lookup. by case_decide. }
  rewrite Hf1 in Hcn. inversion Hcn as [? sh' Hce Heq Heq2|]; subst.
  exists sh'. split; [done|]. split; [by eapply caps_eq_ok|].
  split; [by destruct Hce as [c ->]|]. intros o. rewrite (caps_eq_resolved _ _ o Hce), Hres.
  by rewrite merge_sort_Permutation, elem_of_elements.
Qed.

End Contract.

(** ** A concrete partition *)

Definition demo_env (now : Z) : env :=
  Env (λ _, Some (MkCaps 2 2)) None None None true true true now 0 [8; 10; 12; 14] false.

Definition after (E : env) (o : op) (f : InFlight) : InFlight :=
  match exec E o f with Some (f', _, _) => f' | None => f end.

Definition orders : shardKey := ("orders", 0).

(** Offsets 0 and 1 are leased at 1000 ms for 30 s (nonces 4 and 5), then
    offset 1 is acked ahead of the frontier. *)
Definition demo0 : InFlight := after (demo_env 1000) (OReserve "orders" 0 30000000000 5) NewInFlight.
Definition demo1 : InFlight := after (demo_env 1000) (OReserve "orders" 0 30000000000 5) demo0.
Definition demo2 : InFlight := after (demo_env 2000) (OCommit "orders" 0 1 5) demo1.

Definition shard_of (f : InFlight) : partitionShard :=
  match shards f !! orders with Some sh => sh | None => newPartitionShard 0 (MkCaps 1 1) [] end.

Lemma demo_env_ok now : env_ok (demo_env now).
Proof. intros t p. simpl. split_and!; [done..|constructor]. Qed.

Lemma after_reachable now o f :
  reachable f → op_ok o → bool_decide (is_Some (exec (demo_env now) o f)) = true →
  reachable (after (demo_env now) o f).
Proof.
  intros Hr Ho [[[f' out] evs] Hx]%bool_decide_eq_true. unfold after. rewrite Hx.
  by eapply reachable_step; [..|exact Hx]; [|apply demo_env_ok|].
Qed.

Lemma demo0_reachable : reachable demo0.
Proof. apply after_reachable; [constructor|done|by vm_compute]. Qed.
Lemma demo1_reachable : reachable demo1.
Proof. apply after_reachable; [apply demo0_reachable|done|by vm_compute]. Qed.
Lemma demo2_reachable : reachable demo2.
Proof. apply after_reachable; [apply demo1_reachable|done|by vm_compute]. Qed.

Lemma demo_run P :
  P (shard_of demo2) → run P orders demo1 [(OCommit "orders" 0 1 5, RDone)] demo2.
Proof.
  intros HP. eapply (run_cons _ _ (demo_env 2000) _ demo1 demo2 (shard_of demo2) RDone [EvCommit "orders" 0 (-1); EvRelease "orders" 0]);
    [apply demo_env_ok|done|by intros []|by vm_compute|by vm_compute|done|constructor].
Qed.

Lemma at_least_once_witness : resolved (shard_of demo2) 1.
Proof.
  apply (at_least_once orders demo1 [(OCommit "orders" 0 1 5, RDone)] demo2 (shard_of demo1)).
  - apply demo1_reachable.
  - by apply demo_run.
  - by vm_compute.
  - by vm_compute.
  - right. by constructor.
Defined.

Lemma reachable_shards_ok_witness : shard_ok (shard_of demo2).
Proof. apply (reachable_shards_ok demo2 orders); [apply demo2_reachable|by vm_compute]. Defined.

(** The next reservation hands out offset 2, with nonce 6. *)
Lemma reserve_exclusive_witness : ¬ resolved (shard_of demo2) 2.
Proof.
  apply (reserve_exclusive (demo_env 2000) "orders" 0 30000000000 5 demo2
    (after (demo_env 2000) (OReserve "orders" 0 30000000000 5) demo2)
    (MkReserveResult true 2 6 32000 "") [] (shard_of demo2));
    [apply demo2_reachable|apply demo_env_ok|done|by vm_compute|by vm_compute|done].
Defined.

(** At 40 s the lease on offset 0 has run out: 0 is handed out again. *)
Lemma head_of_line_progress_witness :
  ∃ sh' r, reserveNextLocked 40000 30000000000 5 (shard_of demo2) = Some (sh', r)
    ∧ Reserved r = true ∧ r_Offset r = committed (shard_of demo2) + 1.
Proof.
  apply (head_of_line_progress 40000 30000000000 5 demo2 orders (shard_of demo2)).
  - apply demo2_reachable.
  - by vm_compute.
  - done.
  - by vm_compute.
  - intros n (x & Hx & Hlt). vm_compute in Hx. injection Hx as <- _. lia.
  - by vm_compute.
  - replace (rng (shard_of demo2)) with [12; 14] by (by vm_compute). by constructor.
Defined.

(** With both slots leased, an ack makes offset 2 deliverable. *)
Lemma no_lost_wakeup_witness : EvRelease "orders" 0 ∈ [EvCommit "orders" 0 (-1); EvRelease "orders" 0].
Proof.
  apply (no_lost_wakeup (demo_env 2000) (OCommit "orders" 0 1 5) demo1 demo2 RDone
    [EvCommit "orders" 0 (-1); EvRelease "orders" 0] "orders" 0 (shard_of demo1) (shard_of demo2) 5 2);
    [apply demo1_reachable|done|done|done|by vm_compute|done|by vm_compute..].
Defined.

Lemma ahead_bounded_witness : len_ahead (shard_of demo2) + len_corrupt (shard_of demo2) <= 2 + 2 - 1.
Proof.
  apply (ahead_bounded 2 2 orders demo1 [(OCommit "orders" 0 1 5, RDone)] demo2 (shard_of demo1));
    [apply demo1_reachable|apply demo_run; by vm_compute|by vm_compute..].
Defined.

(** A restart that reads back frontier -1 with offset 1 acked ahead. *)
Definition demo_restart : env :=
  Env (λ _, Some (MkCaps 2 2)) (Some (λ _ _, Some (-1))) (Some (λ _ _, Some (-1, [1]))) None
    true true true 50000 0 [20; 22] false.

Lemma recovery_roundtrip_witness :
  ∃ sh', shards (shardOrCreate demo_restart "orders" 0 NewInFlight).1.1 !! orders = Some sh'
    ∧ shard_ok sh' ∧ entries sh' = ∅
    ∧ ∀ o, resolved sh' o ↔ o <= committed (shard_of demo2) ∨ o ∈ ackedAhead (shard_of demo2).
Proof.
  apply (recovery_roundtrip demo_restart [] "orders" 0 demo2
    (shardOrCreate demo_restart "orders" 0 NewInFlight).1.1 NewInFlight [1] 1 (-1) (shard_of demo2));
    [apply demo2_reachable|by vm_compute|by vm_compute|done|by vm_compute|by vm_compute|by vm_compute|by vm_compute].
Defined.

(** [ReserveNext] is the exception to the wake-up discipline: its
    inline purge can evict several expired leases, of which it takes one
    over, and it never fires the notifier.  In this reachable state the
    partition is at its in-flight cap with both leases run out; the call
    re-leases offset 0, leaves offset 1 deliverable where nothing was, and
    announces nothing, and the purger finds nothing left to announce. *)
Theorem reserve_purge_not_announced :
  ∃ f f' out evs sh sh', reachable f
    ∧ exec (demo_env 40000) (OReserve "orders" 0 30000000000 2) f = Some (f', out, evs)
    ∧ shards f !! orders = Some sh ∧ shards f' !! orders = Some sh'
    ∧ reserve_choice sh 2 = None ∧ reserve_choice sh' 2 = Some 1
    ∧ EvRelease "orders" 0 ∉ evs
    ∧ (purgeAll (demo_env 40000) f').2 = [].
Proof.
  set (E := demo_env 40000). set (o := OReserve "orders" 0 30000000000 2).
  exists demo1, (after E o demo1), (RReserve (MkReserveResult true 0 6 70000 "")), [],
    (shard_of demo1), (shard_of (after E o demo1)).
  split; [apply demo1_reachable|]. split_and!; [by vm_compute..|apply not_elem_of_nil|by vm_compute].
Qed.
