(* ===== verification/Keys.v ===== *)
(** * The metastore's composite keys

    Schema versions and partition assignments are stored in bbolt under
    ["<topic>:<number>"] ([schemaKey], [assignmentKey] of
    [internal/persistence/metastore/fsm.go]); a topic's rows are found by a
    prefix scan and the number is read back with [strconv.Atoi].  The
    theorems show that, because topic names hold no [':'], the scan of a
    topic meets exactly that topic's rows and the number round-trips. *)

From S2P Require Import Prelude Decimal.
Import Dec.

(** ** Strings *)

(** [strings.CutPrefix(s, p)]: what follows the prefix, if it is one. *)
Fixpoint cut_prefix (p s : string) : option string :=
  match p, s with
  | EmptyString, _ => Some s
  | String a p, String b s => if decide (a = b) then cut_prefix p s else None
  | String _ _, EmptyString => None
  end.

Definition has_prefix (p s : string) : bool := bool_decide (is_Some (cut_prefix p s)).

(** A non-empty string of digits. *)
Definition atoi_digits (s : list ascii) : option Z :=
  match s with
  | [] => None
  | _ => if forallb is_digit s then Some (parse_digits s) else None
  end.

(** [strconv.Atoi]: an optional sign and at least one digit, in range. *)
Definition atoi (s : string) : option Z :=
  match String.list_ascii_of_string s with
  | "-"%char :: r => n ← atoi_digits r; if n <=? two63 then Some (- n) else None
  | "+"%char :: r => n ← atoi_digits r; if n <=? max_int64 then Some n else None
  | r => n ← atoi_digits r; if n <=? max_int64 then Some n else None
  end.

(** [fmt]'s [%d]. *)
Definition itoa (n : Z) : string := String.string_of_list_ascii (fmt_int n).

(** ** Keys *)

Definition row_prefix (topicName : string) : string := topicName +:+ ":".

Definition schemaKey (topicName : string) (version : Z) : string :=
  row_prefix topicName +:+ itoa version.

Definition assignmentKey (topicName : string) (partition : Z) : string :=
  row_prefix topicName +:+ itoa partition.

Definition no_colon (s : string) : Prop := ":"%char ∉ String.list_ascii_of_string s.

#[global] Instance no_colon_dec s : Decision (no_colon s).
Proof. unfold no_colon. apply _. Defined.

(** ** Lemmas *)

Lemma cut_prefix_app p s : cut_prefix p (p +:+ s) = Some s.
Proof. induction p as [|a p IH]; [done|]. simpl. by rewrite decide_True. Qed.

Lemma cut_prefix_some p s r : cut_prefix p s = Some r ↔ s = p +:+ r.
Proof.
  split; [|intros ->; apply cut_prefix_app].
  revert s; induction p as [|a p IH]; intros s; simpl; [naive_solver|].
  destruct s as [|b s]; [done|]. case_decide; [|done]. intros ->%IH. by subst.
Qed.

Lemma has_prefix_true p s : has_prefix p s = true ↔ ∃ r, s = p +:+ r.
Proof.
  unfold has_prefix. rewrite bool_decide_eq_true. unfold is_Some.
  setoid_rewrite cut_prefix_some. done.
Qed.

Lemma string_app_assoc (a b c : string) : (a +:+ b) +:+ c = a +:+ (b +:+ c).
Proof. induction a as [|x a IH]; [done|]. exact (f_equal (String x) IH). Qed.

Lemma list_ascii_app a b :
  String.list_ascii_of_string (a +:+ b) = String.list_ascii_of_string a ++ String.list_ascii_of_string b.
Proof. induction a as [|x a IH]; [done|]. exact (f_equal (cons x) IH). Qed.

Lemma no_colon_cons c s : no_colon (String c s) ↔ c ≠ ":"%char ∧ no_colon s.
Proof. unfold no_colon. simpl. rewrite elem_of_cons. intuition congruence. Qed.

(** The first colon ends the name. *)
Lemma row_prefix_inj t t' r r' :
  no_colon t → no_colon t' → row_prefix t +:+ r = row_prefix t' +:+ r' → t = t' ∧ r = r'.
Proof.
  unfold row_prefix. rewrite !string_app_assoc. revert t'.
  induction t as [|a t IH]; intros [|b t'] Ht Ht'; simpl.
  - intros Heq. injection Heq as Heq. split; [done|exact Heq].
  - intros Heq. injection Heq as <- _. by apply no_colon_cons in Ht' as [? _].
  - intros Heq. injection Heq as -> _. by apply no_colon_cons in Ht as [? _].
  - apply no_colon_cons in Ht as [_ Ht]. apply no_colon_cons in Ht' as [_ Ht'].
    intros Heq. injection Heq as -> Heq. by apply IH in Heq as [-> ->].
Qed.

Lemma has_prefix_key t t' n :
  no_colon t → no_colon t' → has_prefix (row_prefix t) (schemaKey t' n) = true ↔ t = t'.
Proof.
  intros Ht Ht'. rewrite has_prefix_true. unfold schemaKey. split.
  - intros [r Hr]. symmetry in Hr. by apply row_prefix_inj in Hr as [-> _].
  - intros ->. by eexists.
Qed.

Lemma not_digit_sign c : is_digit c = true → c ≠ "-"%char ∧ c ≠ "+"%char.
Proof. intros H; split; intros ->; by vm_compute in H. Qed.

(** Reading back a printed number. *)
Lemma atoi_itoa n : in_i64 n → atoi (itoa n) = Some n.
Proof.
  intros Hn. unfold in_i64, two63 in Hn. unfold atoi, itoa.
  rewrite String.list_ascii_of_string_of_list_ascii. unfold fmt_int.
  destruct (Z.ltb_spec n 0) as [Hneg|Hpos].
  - destruct (fmt_digits_spec 20 (- n) []) as (ds & -> & Hne & Hd & Hv); [lia|lia|].
    rewrite app_nil_r. cbn. unfold atoi_digits. destruct ds as [|d ds]; [done|]. rewrite Hd, Hv.
    cbn. destruct (Z.leb_spec (- n) two63) as [|Hbad]; [f_equal; lia|]. unfold two63 in Hbad. lia.
  - destruct (fmt_digits_spec 20 n []) as (ds & -> & Hne & Hd & Hv); [lia|lia|].
    rewrite app_nil_r. destruct ds as [|d ds]; [done|].
    assert (is_digit d = true) as Hdig by (simpl in Hd; by apply andb_true_iff in Hd as [? _]).
    assert ((n ← atoi_digits (d :: ds); if n <=? max_int64 then Some n else None) = Some n) as Hle.
    { unfold atoi_digits. rewrite Hd, Hv. cbn.
      destruct (Z.leb_spec n max_int64) as [|Hbad]; [done|]. unfold max_int64, two63 in Hbad. lia. }
    apply not_digit_sign in Hdig as [Hm Hp]. clear Hd Hv.
    destruct d as [[] [] [] [] [] [] [] []]; done.
Qed.

Lemma itoa_inj n m : in_i64 n → in_i64 m → itoa n = itoa m → n = m.
Proof. intros Hn%atoi_itoa Hm%atoi_itoa Heq. congruence. Qed.

Lemma schemaKey_inj t t' n n' :
  no_colon t → no_colon t' → in_i64 n → in_i64 n' →
  schemaKey t n = schemaKey t' n' ↔ t = t' ∧ n = n'.
Proof.
  intros Ht Ht' Hn Hn'. split; [|by intros [-> ->]].
  intros [-> Heq]%row_prefix_inj; [|done..]. split; [done|]. by apply itoa_inj.
Qed.

(** ** The number holds no colon, so a key has one reading *)

Lemma itoa_no_colon n : in_i64 n → no_colon (itoa n).
Proof.
  intros Hn. unfold in_i64, two63 in Hn. unfold no_colon, itoa.
  rewrite String.list_ascii_of_string_of_list_ascii. unfold fmt_int. destruct (Z.ltb_spec n 0).
  - destruct (fmt_digits_spec 20 (- n) []) as (ds & -> & _ & Hd & _); [lia|lia|].
    rewrite app_nil_r, not_elem_of_cons. split; [done|]. by apply digits_not_in.
  - destruct (fmt_digits_spec 20 n []) as (ds & -> & _ & Hd & _); [lia|lia|].
    rewrite app_nil_r. by apply digits_not_in.
Qed.

Lemma colon_in_app a b : no_colon (a +:+ (":" +:+ b)) → False.
Proof.
  unfold no_colon. intros H. apply H. rewrite list_ascii_app, elem_of_app. right. left.
Qed.

Lemma row_prefix_last t t' r r' :
  no_colon t' → no_colon r' → row_prefix t +:+ r = row_prefix t' +:+ r' → t = t' ∧ r = r'.
Proof.
  unfold row_prefix. rewrite !string_app_assoc. revert t'.
  induction t as [|a t IH]; intros [|b t'] Ht' Hr'; simpl.
  - intros Heq. injection Heq as Heq. split; [done|exact Heq].
  - intros Heq. injection Heq as <- _. by apply no_colon_cons in Ht' as [? _].
  - intros Heq. injection Heq as -> Heq. exfalso. apply (colon_in_app t r).
    match type of Heq with ?x = _ => change (no_colon x) end. by rewrite Heq.
  - apply no_colon_cons in Ht' as [_ Ht']. intros Heq. injection Heq as -> Heq.
    by apply IH in Heq as [-> ->].
Qed.

Lemma assignmentKey_topic t t' p p' :
  no_colon t' → in_i64 p' → assignmentKey t p = assignmentKey t' p' → t = t'.
Proof. intros Ht' Hp' Heq. by apply row_prefix_last in Heq as [-> _]; [|done|apply itoa_no_colon]. Qed.
