(* ===== verification/Json.v ===== *)
(** * JSON values

    [internal/persistence/metastore/json_value.go]: the value equality the
    state machine uses to compare schema histories, over a model of the
    parts of [encoding/json], [unicode/utf8] and [unicode/utf16] it calls
    (a decoder with [UseNumber] that reads one value).  The theorems show
    that number literals compare by exact decimal value and that the
    comparison is an equivalence, whatever the key order. *)

From S2P Require Import Prelude Decimal Keys.
Import Dec.

(** ** Bytes and runes *)

Abbreviation bytes := (list ascii).

Definition byte_val (c : ascii) : Z := Z.of_nat (nat_of_ascii c).
Definition byte_of (z : Z) : ascii := ascii_of_nat (Z.to_nat z).

Definition RuneError : Z := 65533.

Definition in_bytes (lo hi : Z) (c : ascii) : bool := (lo <=? byte_val c) && (byte_val c <=? hi).

(** The range the second byte of a sequence starting with [p0] must lie
    in, and the length of the sequence; [None] for a byte that starts
    none. *)
Definition utf8_first (p0 : Z) : option (nat * Z * Z) :=
  if p0 <? 194 then None
  else if p0 <=? 223 then Some (2%nat, 128, 191)
  else if p0 =? 224 then Some (3%nat, 160, 191)
  else if p0 =? 237 then Some (3%nat, 128, 159)
  else if p0 <=? 239 then Some (3%nat, 128, 191)
  else if p0 =? 240 then Some (4%nat, 144, 191)
  else if p0 <=? 243 then Some (4%nat, 128, 191)
  else if p0 =? 244 then Some (4%nat, 128, 143)
  else None.

(** The rune a non-empty input starts with and the bytes after it; [None]
    when the bytes are not the start of a valid encoding. *)
Definition valid_rune (c : ascii) (s : bytes) : option (Z * bytes) :=
  let p0 := byte_val c in
  if p0 <? 128 then Some (p0, s) else
  match utf8_first p0, s with
  | Some (2%nat, lo, hi), b1 :: r =>
      if in_bytes lo hi b1 then Some ((p0 mod 32) * 64 + byte_val b1 mod 64, r) else None
  | Some (3%nat, lo, hi), b1 :: b2 :: r =>
      if in_bytes lo hi b1 && in_bytes 128 191 b2
      then Some ((p0 mod 16) * 4096 + (byte_val b1 mod 64) * 64 + byte_val b2 mod 64, r)
      else None
  | Some (4%nat, lo, hi), b1 :: b2 :: b3 :: r =>
      if in_bytes lo hi b1 && in_bytes 128 191 b2 && in_bytes 128 191 b3
      then Some ((p0 mod 8) * 262144 + (byte_val b1 mod 64) * 4096 + (byte_val b2 mod 64) * 64
                 + byte_val b3 mod 64, r)
      else None
  | _, _ => None
  end.

(** [utf8.DecodeRune]: an invalid encoding reads as [RuneError], one byte
    wide. *)
Definition decode_rune (c : ascii) (s : bytes) : Z * bytes := default (RuneError, s) (valid_rune c s).

(** The runes of a string; [None] unless it is valid UTF-8
    ([utf8.ValidString]).  Each round consumes a byte. *)
Fixpoint runes_of (fuel : nat) (s : bytes) : option (list Z) :=
  match fuel, s with
  | _, [] => Some []
  | S fuel, c :: r => p ← valid_rune c r; rs ← runes_of fuel p.2; Some (p.1 :: rs)
  | O, _ :: _ => None
  end.

(** [utf8.EncodeRune] of a rune the decoder or an escape produced. *)
Definition encode_rune (r : Z) : bytes :=
  if r <? 128 then [byte_of r]
  else if r <? 2048 then [byte_of (192 + r / 64); byte_of (128 + r mod 64)]
  else if r <? 65536 then
    [byte_of (224 + r / 4096); byte_of (128 + (r / 64) mod 64); byte_of (128 + r mod 64)]
  else [byte_of (240 + r / 262144); byte_of (128 + (r / 4096) mod 64);
        byte_of (128 + (r / 64) mod 64); byte_of (128 + r mod 64)].

(** ** Values *)

(** [map\[string\]any], [\[\]any], [json.Number], [string], [bool], nil.
    An object's keys are distinct. *)
Inductive json :=
| JNull
| JBool (b : bool)
| JNumber (lit : string)
| JString (s : string)
| JArray (l : list json)
| JObject (m : list (string * json)).

(** [m\[k\] = v]: a duplicate key keeps its last value. *)
Fixpoint obj_set (k : string) (v : json) (m : list (string * json)) : list (string * json) :=
  match m with
  | [] => [(k, v)]
  | (k', v') :: m => if decide (k = k') then (k, v) :: m else (k', v') :: obj_set k v m
  end.

Fixpoint obj_get (k : string) (m : list (string * json)) : option json :=
  match m with
  | [] => None
  | (k', v') :: m => if decide (k = k') then Some v' else obj_get k m
  end.

(** ** Decoding *)

Definition is_space (c : ascii) : bool :=
  let n := byte_val c in (n =? 32) || (n =? 9) || (n =? 13) || (n =? 10).

Fixpoint skip_space (s : bytes) : bytes :=
  match s with
  | c :: r => if is_space c then skip_space r else s
  | [] => []
  end.

Definition hex_val (c : ascii) : option Z :=
  let n := byte_val c in
  if (48 <=? n) && (n <=? 57) then Some (n - 48)
  else if (97 <=? n) && (n <=? 102) then Some (n - 87)
  else if (65 <=? n) && (n <=? 70) then Some (n - 55)
  else None.

Definition hex4 (a b c d : ascii) : option Z :=
  a ← hex_val a; b ← hex_val b; c ← hex_val c; d ← hex_val d;
  Some (a * 4096 + b * 256 + c * 16 + d).

Definition is_surrogate (r : Z) : bool := (55296 <=? r) && (r <? 57344).

(** [utf16.DecodeRune]: [None] when the halves do not pair up. *)
Definition surrogate_pair (r1 r2 : Z) : option Z :=
  if (55296 <=? r1) && (r1 <? 56320) && (56320 <=? r2) && (r2 <? 57344)
  then Some ((r1 - 55296) * 1024 + (r2 - 56320) + 65536) else None.

(** The byte a one-letter escape stands for: quote, backslash, slash, b, f,
    n, r and t. *)
Definition escape_byte (c : ascii) : option ascii :=
  let n := byte_val c in
  if (n =? 34) || (n =? 92) || (n =? 47) then Some c
  else if n =? 98 then Some (byte_of 8)
  else if n =? 102 then Some (byte_of 12)
  else if n =? 110 then Some (byte_of 10)
  else if n =? 114 then Some (byte_of 13)
  else if n =? 116 then Some (byte_of 9)
  else None.

(** The body of a string literal after its opening quote: the unquoted
    text, invalid UTF-8 and unpaired surrogates replaced by [RuneError],
    and what follows the closing quote.  Each round consumes a byte. *)
Fixpoint parse_string (fuel : nat) (s : bytes) : option (bytes * bytes) :=
  match fuel, s with
  | S fuel, c :: r =>
      let n := byte_val c in
      let push out rest := p ← parse_string fuel rest; Some (out ++ p.1, p.2) in
      if n =? 34 then Some ([], r)
      else if n <? 32 then None
      else if n =? 92 then
        match r with
        | e :: r1 =>
            if byte_val e =? 117 then
              match r1 with
              | a :: b :: c :: d :: r2 =>
                  rr ← hex4 a b c d;
                  if is_surrogate rr then
                    let pair := match r2 with
                      | bs :: u :: a :: b :: c :: d :: r3 =>
                          if (byte_val bs =? 92) && (byte_val u =? 117)
                          then rr1 ← hex4 a b c d; dec ← surrogate_pair rr rr1; Some (dec, r3)
                          else None
                      | _ => None
                      end in
                    match pair with
                    | Some (dec, r3) => push (encode_rune dec) r3
                    | None => push (encode_rune RuneError) r2
                    end
                  else push (encode_rune rr) r2
              | _ => None
              end
            else b ← escape_byte e; push [b] r1
        | [] => None
        end
      else let '(rr, r1) := decode_rune c r in push (encode_rune rr) r1
  | _, _ => None
  end.

(** The longest run of digits. *)
Fixpoint span_digits (s : bytes) : bytes * bytes :=
  match s with
  | c :: r => if is_digit c then let '(d, r') := span_digits r in (c :: d, r') else ([], s)
  | [] => ([], [])
  end.

(** [0 | \[1-9\]\[0-9\]*]. *)
Definition parse_int_part (s : bytes) : option (bytes * bytes) :=
  match span_digits s with
  | ([], _) => None
  | (c :: d, r) => if byte_val c =? 48 then Some ([c], d ++ r) else Some (c :: d, r)
  end.

Definition parse_frac (s : bytes) : option (bytes * bytes) :=
  match s with
  | c :: r => if byte_val c =? 46
              then match span_digits r with
                   | ([], _) => None
                   | (d, r') => Some (c :: d, r')
                   end
              else Some ([], s)
  | [] => Some ([], [])
  end.

Definition parse_exp (s : bytes) : option (bytes * bytes) :=
  match s with
  | e :: r =>
      if (byte_val e =? 101) || (byte_val e =? 69) then
        let '(sign, r) := match r with
                          | c :: r' => if (byte_val c =? 43) || (byte_val c =? 45) then ([c], r') else ([], r)
                          | [] => ([], [])
                          end in
        match span_digits r with
        | ([], _) => None
        | (d, r') => Some (e :: sign ++ d, r')
        end
      else Some ([], s)
  | [] => Some ([], [])
  end.

(** A number literal, kept as text ([UseNumber]). *)
Definition parse_number (s : bytes) : option (bytes * bytes) :=
  let '(sign, s) := match s with
                    | c :: r => if byte_val c =? 45 then ([c], r) else ([], s)
                    | [] => ([], [])
                    end in
  i ← parse_int_part s; f ← parse_frac i.2; e ← parse_exp f.2;
  Some (sign ++ i.1 ++ f.1 ++ e.1, e.2).

Fixpoint strip (p s : bytes) : option bytes :=
  match p, s with
  | [], _ => Some s
  | a :: p, b :: s => if decide (a = b) then strip p s else None
  | _ :: _, [] => None
  end.

Definition chars (s : string) : bytes := String.list_ascii_of_string s.
Definition text (s : bytes) : string := String.string_of_list_ascii s.

(** [maxNestingDepth] of [encoding/json]. *)
Definition maxNestingDepth : Z := 10000.

(** One value, and what follows it.  Two rounds of fuel are enough for
    every byte consumed. *)
Fixpoint parse_value (fuel : nat) (depth : Z) (s : bytes) : option (json * bytes) :=
  match fuel, skip_space s with
  | S fuel, c :: r =>
      let n := byte_val c in
      if n =? 34 then p ← parse_string (S (length r)) r; Some (JString (text p.1), p.2)
      else if n =? 123 then
        if maxNestingDepth <=? depth then None else
        match skip_space r with
        | c' :: r' => if byte_val c' =? 125 then Some (JObject [], r')
                      else parse_members fuel (depth + 1) (c' :: r') []
        | [] => None
        end
      else if n =? 91 then
        if maxNestingDepth <=? depth then None else
        match skip_space r with
        | c' :: r' => if byte_val c' =? 93 then Some (JArray [], r')
                      else parse_elems fuel (depth + 1) (c' :: r') []
        | [] => None
        end
      else if n =? 116 then r ← strip (chars "rue") r; Some (JBool true, r)
      else if n =? 102 then r ← strip (chars "alse") r; Some (JBool false, r)
      else if n =? 110 then r ← strip (chars "ull") r; Some (JNull, r)
      else p ← parse_number (c :: r); Some (JNumber (text p.1), p.2)
  | _, _ => None
  end
with parse_elems (fuel : nat) (depth : Z) (s : bytes) (acc : list json) : option (json * bytes) :=
  match fuel with
  | O => None
  | S fuel =>
      v ← parse_value fuel depth s;
      match skip_space v.2 with
      | c :: r => if byte_val c =? 44 then parse_elems fuel depth r (acc ++ [v.1])
                  else if byte_val c =? 93 then Some (JArray (acc ++ [v.1]), r)
                  else None
      | [] => None
      end
  end
with parse_members (fuel : nat) (depth : Z) (s : bytes) (acc : list (string * json)) : option (json * bytes) :=
  match fuel with
  | O => None
  | S fuel =>
      match skip_space s with
      | q :: r =>
          if byte_val q =? 34 then
            k ← parse_string (S (length r)) r;
            match skip_space k.2 with
            | col :: r =>
                if byte_val col =? 58 then
                  v ← parse_value fuel depth r;
                  match skip_space v.2 with
                  | c :: r => if byte_val c =? 44 then parse_members fuel depth r (obj_set (text k.1) v.1 acc)
                              else if byte_val c =? 125 then Some (JObject (obj_set (text k.1) v.1 acc), r)
                              else None
                  | [] => None
                  end
                else None
            | [] => None
            end
          else None
      | [] => None
      end
  end.

(** [dec.Decode] of one value and [!dec.More()]: what follows is the end of
    the input or a closing bracket (which [More] does not count). *)
Definition decodeJSONValue (raw : string) : option json :=
  let s := chars raw in
  v ← parse_value (2 * length s + 2) 0 s;
  match skip_space v.2 with
  | [] => Some v.1
  | c :: _ => if (byte_val c =? 93) || (byte_val c =? 125) then Some v.1 else None
  end.

(** ** Equality *)

(** [strings.Cut(s, sep)] for a one-byte separator. *)
Fixpoint cut (sep : ascii) (s : bytes) : bytes * bytes * bool :=
  match s with
  | [] => ([], [], false)
  | c :: r => if decide (c = sep) then ([], r, true)
              else let '(a, b, found) := cut sep r in (c :: a, b, found)
  end.

Definition to_lower (c : ascii) : ascii :=
  let n := byte_val c in if (65 <=? n) && (n <=? 90) then byte_of (n + 32) else c.

Fixpoint trim_left (s : bytes) : bytes :=
  match s with
  | c :: r => if decide (c = "0"%char) then trim_left r else s
  | [] => []
  end.

Definition trim_right (s : bytes) : bytes := reverse (trim_left (reverse s)).

(** [strconv.ParseInt(s, 10, 32)]. *)
Definition parse_int32 (s : bytes) : option Z :=
  let '(neg, r) := match s with
                   | c :: r => if byte_val c =? 45 then (true, r)
                               else if byte_val c =? 43 then (false, r) else (false, s)
                   | [] => (false, [])
                   end in
  n ← atoi_digits r;
  if neg : bool then if n <=? 2 ^ 31 then Some (- n) else None
  else if n <? 2 ^ 31 then Some n else None.

(** The sign, the significant digits and the exponent of a literal;
    [None] for an exponent outside [int32].  No digits stand for zero. *)
Definition number_parts (lit : bytes) : option (bool * bytes * Z) :=
  let neg := match lit with c :: _ => byte_val c =? 45 | [] => false end in
  let lit := if neg then tail lit else lit in
  let '(mantissa, expPart, hasExp) := cut "e"%char (to_lower <$> lit) in
  exp ← (if hasExp : bool then parse_int32 expPart else Some 0);
  let '(intPart, fracPart, _) := cut "."%char mantissa in
  let digits := trim_left (intPart ++ fracPart) in
  let exp := exp - Z.of_nat (length fracPart) in
  let trimmed := trim_right digits in
  let exp := exp + Z.of_nat (length digits - length trimmed) in
  Some (neg, trimmed, exp).

Definition canonicalJSONNumber (lit : string) : option string :=
  p ← number_parts (chars lit);
  let '(neg, trimmed, exp) := p in
  Some (match trimmed with
        | [] => "0"%string
        | _ => text ((if neg : bool then ["-"%char] else []) ++ trimmed ++ ["e"%char] ++ fmt_int exp)
        end).

Definition jsonNumbersEqual (a b : string) : bool :=
  bool_decide (a = b) ||
  match canonicalJSONNumber a, canonicalJSONNumber b with
  | Some na, Some nb => bool_decide (na = nb)
  | _, _ => false
  end.

Fixpoint jsonValuesEqual (a b : json) {struct a} : bool :=
  match a, b with
  | JObject av, JObject bv =>
      (length av =? length bv)%nat &&
      forallb (λ kx, match obj_get kx.1 bv with Some y => jsonValuesEqual kx.2 y | None => false end) av
  | JArray av, JArray bv =>
      (fix go (av bv : list json) : bool :=
         match av, bv with
         | [], [] => true
         | x :: av, y :: bv => jsonValuesEqual x y && go av bv
         | _, _ => false
         end) av bv
  | JNumber x, JNumber y => jsonNumbersEqual x y
  | JString x, JString y => bool_decide (x = y)
  | JBool x, JBool y => Bool.eqb x y
  | JNull, JNull => true
  | _, _ => false
  end.

Definition jsonValueEqual (a b : string) : bool :=
  bool_decide (a = b) ||
  match decodeJSONValue a, decodeJSONValue b with
  | Some va, Some vb => jsonValuesEqual va vb
  | _, _ => false
  end.
