(* ===== verification/JsonNum.v ===== *)
(** * JSON numbers compare by value

    [canonicalJSONNumber] and [jsonNumbersEqual] of [json_value.go] against
    the exact decimal value of a literal: the significant digits and the
    exponent form a normal form of [N * 10^E]. *)

From S2P Require Import Prelude Decimal Keys Json.
Import Dec.

#[local] Arguments Z.mul : simpl never.
#[local] Arguments Z.add : simpl never.

Definition zeros (n : nat) : bytes := replicate n "0"%char.

(** ** Values of digit strings *)

Lemma parse_digits_app a b : parse_digits (a ++ b) = parse_digits a * 10 ^ Z.of_nat (length b) + parse_digits b.
Proof.
  unfold parse_digits. rewrite foldl_app. generalize (foldl (λ a c, a * 10 + digit_val c) 0 a). clear a.
  induction b as [|c b IH] using rev_ind; intros x; [simpl; lia|].
  rewrite !foldl_app, length_app. cbn [foldl length]. rewrite IH.
  rewrite Nat2Z.inj_add, Z.pow_add_r by lia. change (10 ^ Z.of_nat 1) with 10. lia.
Qed.

Lemma parse_zeros n : parse_digits (zeros n) = 0.
Proof.
  induction n as [|n IH]; [done|]. change (zeros (S n)) with (["0"%char] ++ zeros n).
  rewrite parse_digits_app, IH. change (parse_digits ["0"%char]) with 0. lia.
Qed.

Lemma parse_lead n s : parse_digits (zeros n ++ s) = parse_digits s.
Proof. rewrite parse_digits_app, parse_zeros. lia. Qed.

Lemma parse_trail s n : parse_digits (s ++ zeros n) = parse_digits s * 10 ^ Z.of_nat n.
Proof. rewrite parse_digits_app, parse_zeros. unfold zeros. rewrite length_replicate. lia. Qed.

(** ** Trimming *)

Lemma trim_left_spec s : ∃ n, s = zeros n ++ trim_left s ∧ head (trim_left s) ≠ Some "0"%char.
Proof.
  induction s as [|c s (n & Hs & Hh)]; [by exists 0%nat|]. cbn [trim_left]. case_decide as Hc.
  - exists (S n). subst c. split; [|done]. change (zeros (S n)) with ("0"%char :: zeros n). by rewrite Hs at 1.
  - exists 0%nat. split; [done|]. simpl. congruence.
Qed.

Lemma reverse_zeros n : reverse (zeros n) = zeros n.
Proof. apply reverse_replicate. Qed.

Lemma trim_right_spec s : ∃ n, s = trim_right s ++ zeros n ∧ last (trim_right s) ≠ Some "0"%char.
Proof.
  unfold trim_right. destruct (trim_left_spec (reverse s)) as (n & Hs & Hh). exists n. split.
  - rewrite <-(reverse_involutive s) at 1. rewrite Hs at 1. by rewrite reverse_app, reverse_zeros.
  - by rewrite last_reverse.
Qed.

(** ** Normal digit strings *)

(** No leading and no trailing zero. *)
Record normal (t : bytes) : Prop := {
  nm_digits : forallb is_digit t = true;
  nm_head : head t ≠ Some "0"%char;
  nm_last : last t ≠ Some "0"%char;
}.

Lemma digit_zero c : is_digit c = true → digit_val c = 0 → c = "0"%char.
Proof.
  unfold digit_val. intros _ H. rewrite <-(ascii_nat_embedding c). replace (nat_of_ascii c) with 48%nat by lia. done.
Qed.

Lemma digit_val_inj c d : digit_val c = digit_val d → c = d.
Proof.
  unfold digit_val. intros H. rewrite <-(ascii_nat_embedding c), <-(ascii_nat_embedding d). f_equal. lia.
Qed.

Lemma parse_positive t : forallb is_digit t = true → t ≠ [] → head t ≠ Some "0"%char → 0 < parse_digits t.
Proof.
  intros Hd Hne Hh. destruct t as [|c t]; [done|]. cbn [forallb] in Hd. apply andb_true_iff in Hd as [Hc Hd].
  change (c :: t) with ([c] ++ t). rewrite parse_digits_app.
  pose proof (parse_digits_nonneg t Hd). pose proof (digit_val_range c Hc) as Hv.
  assert (digit_val c ≠ 0) by (intros H0; apply digit_zero in H0; simpl in Hh; congruence).
  assert (0 < 10 ^ Z.of_nat (length t)) by (apply Z.pow_pos_nonneg; lia).
  change (parse_digits [c]) with (0 * 10 + digit_val c). nia.
Qed.

Lemma parse_last t : normal t → t ≠ [] → parse_digits t mod 10 ≠ 0.
Proof.
  intros [Hd Hh Hl] Hne. destruct t as [|c t _] using rev_ind; [done|].
  rewrite last_snoc in Hl. rewrite forallb_app in Hd. apply andb_true_iff in Hd as [_ Hd]. simpl in Hd.
  apply andb_true_iff in Hd as [Hc _]. rewrite parse_digits_app. simpl length. change (10 ^ Z.of_nat 1) with 10.
  change (parse_digits [c]) with (0 * 10 + digit_val c). pose proof (digit_val_range c Hc).
  replace (parse_digits t * 10 + (0 * 10 + digit_val c)) with (digit_val c + parse_digits t * 10) by lia.
  rewrite Z.mod_add, Z.mod_small by lia. intros H0%digit_zero; [congruence|done].
Qed.

(** A number has one digit string without leading zeros. *)
Lemma parse_inj a b :
  forallb is_digit a = true → forallb is_digit b = true → head a ≠ Some "0"%char → head b ≠ Some "0"%char →
  parse_digits a = parse_digits b → a = b.
Proof.
  revert b. induction a as [|c a IH] using rev_ind; intros b Ha Hb Hha Hhb Heq.
  - destruct b as [|d b]; [done|]. pose proof (parse_positive (d :: b) Hb ltac:(done) Hhb).
    change (parse_digits []) with 0 in Heq. lia.
  - destruct b as [|d b _] using rev_ind.
    { pose proof (parse_positive (a ++ [c]) Ha ltac:(by destruct a) Hha). change (parse_digits []) with 0 in Heq. lia. }
    rewrite !forallb_app in *. apply andb_true_iff in Ha as [Ha Hc], Hb as [Hb Hd].
    simpl in Hc, Hd. rewrite andb_true_r in Hc, Hd. rewrite !parse_digits_app in Heq. simpl length in Heq.
    change (10 ^ Z.of_nat 1) with 10 in Heq.
    change (parse_digits [c]) with (0 * 10 + digit_val c) in Heq.
    change (parse_digits [d]) with (0 * 10 + digit_val d) in Heq.
    pose proof (digit_val_range c Hc). pose proof (digit_val_range d Hd).
    assert (digit_val c = digit_val d) as ->%digit_val_inj by lia. f_equal. apply IH; try done; [|..|lia].
    + by destruct a.
    + by destruct b.
Qed.

(** Two normal forms of one value are the same. *)
Lemma normal_unique t1 t2 e1 e2 :
  normal t1 → normal t2 → t1 ≠ [] → t2 ≠ [] → e1 <= e2 →
  parse_digits t1 = parse_digits t2 * 10 ^ (e2 - e1) → t1 = t2 ∧ e1 = e2.
Proof.
  intros H1 H2 Hne1 Hne2 Hle Heq. destruct (decide (e1 = e2)) as [-> |Hne].
  - rewrite Z.sub_diag in Heq. change (10 ^ 0) with 1 in Heq. split; [|done].
    apply parse_inj; [apply H1|apply H2|apply H1|apply H2|lia].
  - exfalso. apply (parse_last t1 H1 Hne1). rewrite Heq.
    replace (e2 - e1) with (1 + (e2 - e1 - 1)) by lia. rewrite Z.pow_add_r by lia. change (10 ^ 1) with 10.
    replace (parse_digits t2 * (10 * 10 ^ (e2 - e1 - 1))) with (parse_digits t2 * 10 ^ (e2 - e1 - 1) * 10) by lia.
    by apply Z.mod_mul.
Qed.

(** ** The value of a literal *)

(** The text of a literal: sign, integer digits, fraction, exponent. *)
Definition lit_text (neg : bool) (i f : bytes) (x : option (ascii * bytes)) : bytes :=
  (if neg then ["-"%char] else []) ++ i ++ (match f with [] => [] | _ => "."%char :: f end) ++
  match x with None => [] | Some (c, s) => c :: s end.

Definition signed (neg : bool) (n : Z) : Z := if neg then - n else n.

(** [reads lit N E]: the literal's value is [N * 10^E]. *)
Inductive reads : string → Z → Z → Prop :=
| reads_lit neg i f x ex :
    i ≠ [] → forallb is_digit i = true → forallb is_digit f = true →
    match x with
    | None => ex = 0
    | Some (c, s) => (c = "e"%char ∨ c = "E"%char) ∧ parse_int32 s = Some ex
    end →
    reads (text (lit_text neg i f x)) (signed neg (parse_digits (i ++ f))) (ex - Z.of_nat (length f)).

(** [N1 * 10^E1 = N2 * 10^E2], in integers. *)
Definition same_value (N1 E1 N2 E2 : Z) : Prop :=
  N1 * 10 ^ (E1 - Z.min E1 E2) = N2 * 10 ^ (E2 - Z.min E1 E2).

Lemma chars_text s : chars (text s) = s.
Proof. apply String.list_ascii_of_string_of_list_ascii. Qed.

Lemma text_inj a b : text a = text b → a = b.
Proof. intros H. rewrite <-(chars_text a), <-(chars_text b). by rewrite H. Qed.

Lemma is_digit_range c : is_digit c = true ↔ 48 <= byte_val c <= 57.
Proof. unfold is_digit, byte_val. rewrite andb_true_iff, !Nat.leb_le. lia. Qed.

Lemma digit_not c d : is_digit c = true → is_digit d = false → c ≠ d.
Proof. congruence. Qed.

Lemma lower_digit c : is_digit c = true → to_lower c = c.
Proof. intros H%is_digit_range. unfold to_lower. rewrite (proj2 (andb_false_iff _ _)); [done|]. left. lia. Qed.

Lemma lower_digits s : forallb is_digit s = true → to_lower <$> s = s.
Proof.
  induction s as [|c s IH]; [done|]. cbn [forallb]. intros [Hc Hs]%andb_true_iff.
  rewrite fmap_cons, lower_digit, IH; done.
Qed.

Lemma lower_small c : byte_val c < 65 → to_lower c = c.
Proof. intros H. unfold to_lower. rewrite (proj2 (andb_false_iff _ _)); [done|]. left. lia. Qed.

Lemma atoi_digits_Some s n : atoi_digits s = Some n → forallb is_digit s = true.
Proof. destruct s; [done|]. unfold atoi_digits. by destruct (forallb is_digit _). Qed.

Lemma parse_int32_lower s n : parse_int32 s = Some n → to_lower <$> s = s ∧ - 2 ^ 31 <= n < 2 ^ 31.
Proof.
  unfold parse_int32. destruct s as [|c s]; [done|].
  destruct (byte_val c =? 45) eqn:Hm; [|destruct (byte_val c =? 43) eqn:Hp].
  1, 2: destruct (atoi_digits s) as [m|] eqn:Hs; [|done];
        apply atoi_digits_Some in Hs as Hd; rewrite fmap_cons, lower_digits, lower_small by (done || lia); cbn;
        intros Hn; split; [done|]; assert (0 <= m) by (destruct s; [done|]; unfold atoi_digits in Hs; rewrite Hd in Hs;
        injection Hs as <-; by apply parse_digits_nonneg); repeat case_match; simplify_eq; lia.
  destruct (atoi_digits (c :: s)) as [m|] eqn:Hs; [|done]. apply atoi_digits_Some in Hs as Hd.
  rewrite lower_digits by done. cbn [mbind option_bind]. intros Hn. split; [done|].
  assert (0 <= m) by (unfold atoi_digits in Hs; rewrite Hd in Hs; injection Hs as <-; by apply parse_digits_nonneg).
  cbn in Hn. repeat case_match; simplify_eq; lia.
Qed.

Lemma cut_app sep a r : sep ∉ a → cut sep (a ++ sep :: r) = (a, r, true).
Proof.
  induction a as [|c a IH]; simpl; [by rewrite decide_True|]. intros [Hc Ha]%not_elem_of_cons.
  rewrite decide_False, IH; done.
Qed.

Lemma cut_none sep a : sep ∉ a → cut sep a = (a, [], false).
Proof.
  induction a as [|c a IH]; simpl; [done|]. intros [Hc Ha]%not_elem_of_cons. rewrite decide_False, IH; done.
Qed.

(** ** The parts of a literal *)

Lemma mantissa_no_e i f :
  forallb is_digit i = true → forallb is_digit f = true →
  "e"%char ∉ i ++ match f with [] => [] | _ => "."%char :: f end.
Proof.
  intros Hi Hf. rewrite not_elem_of_app. split; [by apply digits_not_in|].
  destruct f as [|c f]; [apply not_elem_of_nil|]. rewrite not_elem_of_cons. split; [done|]. by apply digits_not_in.
Qed.

Lemma mantissa_lower i f :
  forallb is_digit i = true → forallb is_digit f = true →
  to_lower <$> (i ++ match f with [] => [] | _ => "."%char :: f end)
  = i ++ match f with [] => [] | _ => "."%char :: f end.
Proof.
  intros Hi Hf. rewrite fmap_app, lower_digits by done. f_equal. destruct f as [|c f]; [done|].
  rewrite fmap_cons, lower_digits by done. done.
Qed.

Lemma mantissa_cut i f :
  forallb is_digit i = true → forallb is_digit f = true →
  ∃ b, cut "."%char (i ++ match f with [] => [] | _ => "."%char :: f end) = (i, f, b).
Proof.
  intros Hi Hf. assert ("."%char ∉ i) by by apply digits_not_in. destruct f as [|c f].
  - exists false. rewrite app_nil_r. by apply cut_none.
  - exists true. by apply cut_app.
Qed.

Lemma lit_sign neg i r :
  i ≠ [] → forallb is_digit i = true →
  let lit := (if neg : bool then ["-"%char] else []) ++ i ++ r in
  (match lit with c :: _ => byte_val c =? 45 | [] => false end) = neg ∧
  (if neg then tail lit else lit) = i ++ r.
Proof.
  intros Hne Hi. destruct neg; [done|]. destruct i as [|c i]; [done|]. simpl. split; [|done].
  cbn [forallb] in Hi. apply andb_true_iff in Hi as [Hc%is_digit_range _]. lia.
Qed.

(** Trimming leaves a normal digit string and counts what it strips. *)
Lemma trimmed_normal ds :
  forallb is_digit ds = true →
  let t := trim_right (trim_left ds) in
  normal t ∧ ∃ z, length (trim_left ds) = (length t + z)%nat ∧ (z <= length ds)%nat ∧
                  parse_digits ds = parse_digits t * 10 ^ Z.of_nat z.
Proof.
  intros Hd t. destruct (trim_left_spec ds) as (z1 & H1 & Hh).
  destruct (trim_right_spec (trim_left ds)) as (z & H2 & Hl). fold t in H2, Hl. split.
  - split; [|..|done].
    + rewrite H1, H2, !forallb_app in Hd. by apply andb_true_iff in Hd as [_ [? _]%andb_true_iff].
    + rewrite H2 in Hh. by destruct t.
  - exists z. split_and!.
    + rewrite H2 at 1. unfold zeros. by rewrite length_app, length_replicate.
    + rewrite H1, H2. unfold zeros. rewrite !length_app, !length_replicate. lia.
    + rewrite H1, parse_lead, H2 at 1. apply parse_trail.
Qed.

Lemma length_lit neg i f x :
  (length (i ++ f) <= length (lit_text neg i f x))%nat ∧ (length f <= length (i ++ f))%nat.
Proof.
  unfold lit_text. rewrite !length_app. split; [|lia]. destruct f; simpl; lia.
Qed.

(** The exponent text and the mantissa [strings.Cut] finds. *)
Lemma lit_cut neg i f x ex :
  i ≠ [] → forallb is_digit i = true → forallb is_digit f = true →
  match x with None => ex = 0 | Some (c, s) => (c = "e"%char ∨ c = "E"%char) ∧ parse_int32 s = Some ex end →
  let lit := lit_text neg i f x in
  (match lit with c :: _ => byte_val c =? 45 | [] => false end) = neg ∧
  ∃ s (h : bool), cut "e"%char (to_lower <$> (if neg then tail lit else lit))
                  = (i ++ match f with [] => [] | _ => "."%char :: f end, s, h) ∧
                  (if h then parse_int32 s else Some 0) = Some ex ∧ - 2 ^ 31 <= ex < 2 ^ 31.
Proof.
  intros Hne Hi Hf Hx lit.
  destruct (lit_sign neg i ((match f with [] => [] | _ => "."%char :: f end) ++
    match x with None => [] | Some (c, s) => c :: s end) Hne Hi) as [Hn Hlit].
  change (lit_text neg i f x) with lit in Hn, Hlit. split; [exact Hn|].
  unfold lit, lit_text. rewrite Hlit, app_assoc, fmap_app, mantissa_lower by done.
  pose proof (mantissa_no_e i f Hi Hf) as Hno. destruct x as [[c s]|].
  - destruct Hx as [Hc Hs]. apply parse_int32_lower in Hs as Hs'. destruct Hs' as [Hs' Hr]. exists s, true.
    rewrite fmap_cons, Hs'. split_and!; [|done|lia|lia].
    replace (to_lower c) with "e"%char by (by destruct Hc as [-> | ->]). by apply cut_app.
  - subst ex. exists [], false. rewrite app_nil_r. split_and!; [by apply cut_none|done|lia|lia].
Qed.

(** What [canonicalJSONNumber] computes from a literal. *)
Lemma number_parts_reads lit N E :
  reads lit N E →
  ∃ neg t z, number_parts (chars lit) = Some (neg, t, E + Z.of_nat z) ∧ normal t ∧
    N = signed neg (parse_digits t * 10 ^ Z.of_nat z) ∧
    Z.abs (E + Z.of_nat z) <= 2 ^ 31 + Z.of_nat (length (chars lit)).
Proof.
  intros [neg i f x ex Hne Hi Hf Hx]. rewrite chars_text.
  destruct (lit_cut neg i f x ex Hne Hi Hf Hx) as (Hn & s & h & Hcut & Hex & Hr).
  destruct (mantissa_cut i f Hi Hf) as [b Hm]. destruct (length_lit neg i f x) as [Hl1 Hl2].
  assert (forallb is_digit (i ++ f) = true) as Hd by by rewrite forallb_app, Hi, Hf.
  destruct (trimmed_normal (i ++ f) Hd) as (Hnorm & z & Hlen & Hz & Hval).
  exists neg, (trim_right (trim_left (i ++ f))), z. split_and!; [|done|by rewrite Hval|lia].
  unfold number_parts. rewrite Hn, Hcut, Hex. cbn [mbind option_bind]. rewrite Hm. do 2 f_equal. lia.
Qed.

(** ** Comparing canonical texts *)

Lemma digits_split t1 t2 (r1 r2 : bytes) :
  forallb is_digit t1 = true → forallb is_digit t2 = true →
  t1 ++ "e"%char :: r1 = t2 ++ "e"%char :: r2 → t1 = t2 ∧ r1 = r2.
Proof.
  intros H1 H2 Heq. assert (cut "e"%char (t1 ++ "e"%char :: r1) = cut "e"%char (t2 ++ "e"%char :: r2)) as Hc by by rewrite Heq.
  rewrite !cut_app in Hc by by apply digits_not_in. by injection Hc as -> ->.
Qed.

Definition rendered (neg : bool) (t : bytes) (e : Z) : string :=
  match t with
  | [] => "0"%string
  | _ => text ((if neg then ["-"%char] else []) ++ t ++ ["e"%char] ++ fmt_int e)
  end.

(** One value, one normal form: both zero, or sign, digits and exponent. *)
Definition same_form (n1 : bool) (t1 : bytes) (e1 : Z) (n2 : bool) (t2 : bytes) (e2 : Z) : Prop :=
  (t1 = [] ∧ t2 = []) ∨ (t1 ≠ [] ∧ n1 = n2 ∧ t1 = t2 ∧ e1 = e2).

Lemma rendered_zero n t e : normal t → rendered n t e = "0"%string → t = [].
Proof.
  intros _ Heq. destruct t as [|c t]; [done|]. exfalso. apply (f_equal chars) in Heq. unfold rendered in Heq.
  rewrite chars_text in Heq.
  assert ("e"%char ∈ chars "0") as Hin by (rewrite <-Heq, !elem_of_app; right; right; left; by left).
  by repeat (apply elem_of_cons in Hin as [Hin|Hin]; [done|]); apply elem_of_nil in Hin.
Qed.

Lemma rendered_inj n1 t1 e1 n2 t2 e2 :
  normal t1 → normal t2 → in_i64 e1 → in_i64 e2 →
  rendered n1 t1 e1 = rendered n2 t2 e2 ↔ same_form n1 t1 e1 n2 t2 e2.
Proof.
  intros H1 H2 He1 He2. split; [|by intros [[-> ->]|(_ & -> & -> & ->)]].
  intros Heq. destruct t1 as [|c1 t1]; [left; split; [done|]; by apply (rendered_zero n2 t2 e2)|].
  destruct t2 as [|c2 t2]; [by apply rendered_zero in Heq|]. right. split; [done|].
  pose proof (nm_digits _ H1) as D1. pose proof (nm_digits _ H2) as D2. apply text_inj in Heq.
  assert (is_digit c1 = true ∧ is_digit c2 = true) as [Hc1 Hc2].
  { cbn [forallb] in D1, D2. by apply andb_true_iff in D1 as [? _], D2 as [? _]. }
  assert (n1 = n2 ∧ (c1 :: t1) ++ "e"%char :: fmt_int e1 = (c2 :: t2) ++ "e"%char :: fmt_int e2) as [-> Heq'].
  { destruct n1, n2; cbn [app] in Heq; [split; [done|]; by injection Heq as Hc Ht; cbn [app]; f_equal| | |by split].
    - injection Heq as Hc _. subst c2. discriminate Hc2.
    - injection Heq as Hc _. subst c1. discriminate Hc1. }
  apply digits_split in Heq' as [Ht He]; [|done..]. split_and!; [done|done|].
  apply itoa_inj; [done|done|]. unfold itoa. by rewrite He.
Qed.

(** ** The exact value decides *)

Lemma scaled n p z E m :
  m <= E → signed n (p * 10 ^ Z.of_nat z) * 10 ^ (E - m) = signed n p * 10 ^ (E + Z.of_nat z - m).
Proof.
  intros Hm. replace (E + Z.of_nat z - m) with (Z.of_nat z + (E - m)) by lia. rewrite Z.pow_add_r by lia.
  destruct n; simpl; lia.
Qed.

Lemma pow_cancel p q e m d : m <= e → 0 <= d → p * 10 ^ (e - m) = q * 10 ^ (e + d - m) → p = q * 10 ^ d.
Proof.
  intros Hm Hd. replace (e + d - m) with (d + (e - m)) by lia. rewrite Z.pow_add_r by lia.
  assert (0 < 10 ^ (e - m)) by (apply Z.pow_pos_nonneg; lia). nia.
Qed.

Lemma form_value n1 t1 e1 n2 t2 e2 m :
  normal t1 → normal t2 → m <= e1 → m <= e2 →
  signed n1 (parse_digits t1) * 10 ^ (e1 - m) = signed n2 (parse_digits t2) * 10 ^ (e2 - m)
  ↔ same_form n1 t1 e1 n2 t2 e2.
Proof.
  intros H1 H2 Hm1 Hm2. split; [|by intros [[-> ->]|(_ & -> & -> & ->)]; [destruct n1, n2|]].
  assert (0 < 10 ^ (e1 - m)) by (apply Z.pow_pos_nonneg; lia).
  assert (0 < 10 ^ (e2 - m)) by (apply Z.pow_pos_nonneg; lia).
  pose proof (λ Hne, parse_positive t1 (nm_digits _ H1) Hne (nm_head _ H1)) as P1.
  pose proof (λ Hne, parse_positive t2 (nm_digits _ H2) Hne (nm_head _ H2)) as P2.
  intros Heq. destruct (decide (t1 = [])) as [-> |Hne1]; [|specialize (P1 Hne1)].
  { left. split; [done|]. destruct (decide (t2 = [])) as [|Hne2]; [done|]. specialize (P2 Hne2).
    change (parse_digits []) with 0 in Heq. destruct n1, n2; simpl in Heq; nia. }
  destruct (decide (t2 = [])) as [-> |Hne2]; [|specialize (P2 Hne2)].
  { change (parse_digits []) with 0 in Heq. destruct n1, n2; simpl in Heq; nia. }
  right. split; [done|].
  assert (n1 = n2 ∧ parse_digits t1 * 10 ^ (e1 - m) = parse_digits t2 * 10 ^ (e2 - m)) as [-> Hp].
  { destruct n1, n2; simpl in Heq; split; try done; nia. }
  split; [done|]. destruct (Z.le_ge_cases e1 e2) as [Hle|Hle].
  - apply normal_unique; try done. apply (pow_cancel _ _ e1 m); [done|lia|]. by replace (e1 + (e2 - e1)) with e2 by lia.
  - destruct (normal_unique t2 t1 e2 e1) as [-> ->]; try done.
    apply (pow_cancel _ _ e2 m); [done|lia|]. by replace (e2 + (e1 - e2)) with e1 by lia.
Qed.

(** Two JSON number literals compare equal exactly when they denote the
    same decimal number, whatever their spelling (leading and trailing
    zeros, the position of the point, the exponent, the sign of zero).  The
    literals have the shape the JSON grammar gives them, an exponent in
    [int32] (others compare as text) and fewer than 2^62 bytes. *)
Theorem jsonNumbersEqual_exact a b Na Ea Nb Eb :
  reads a Na Ea → reads b Nb Eb →
  Z.of_nat (length (chars a)) < 2 ^ 62 → Z.of_nat (length (chars b)) < 2 ^ 62 →
  jsonNumbersEqual a b = true ↔ same_value Na Ea Nb Eb.
Proof.
  intros Ha Hb La Lb.
  destruct (number_parts_reads a Na Ea Ha) as (n1 & t1 & z1 & P1 & N1 & -> & B1).
  destruct (number_parts_reads b Nb Eb Hb) as (n2 & t2 & z2 & P2 & N2 & -> & B2).
  unfold same_value. rewrite !scaled by lia. rewrite form_value by (done || lia).
  rewrite <-rendered_inj by (done || (unfold in_i64, two63; lia)).
  assert (canonicalJSONNumber a = Some (rendered n1 t1 (Ea + Z.of_nat z1))) as Ca
    by (unfold canonicalJSONNumber; by rewrite P1).
  assert (canonicalJSONNumber b = Some (rendered n2 t2 (Eb + Z.of_nat z2))) as Cb
    by (unfold canonicalJSONNumber; by rewrite P2).
  unfold jsonNumbersEqual. rewrite Ca, Cb, orb_true_iff, !bool_decide_eq_true. split; [|by right].
  intros [-> |?]; [|done]. congruence.
Qed.

(** Both spellings of twelve and a half are one value. *)
Lemma jsonNumbersEqual_exact_witness :
  jsonNumbersEqual "12.50" "1250E-2" = true ↔ same_value 1250 (-2) 1250 (-2).
Proof.
  apply (jsonNumbersEqual_exact "12.50" "1250E-2").
  - exact (reads_lit false ["1"; "2"]%char ["5"; "0"]%char None 0 ltac:(done) eq_refl eq_refl eq_refl).
  - exact (reads_lit false ["1"; "2"; "5"; "0"]%char [] (Some ("E"%char, ["-"; "2"]%char)) (-2) ltac:(done) eq_refl eq_refl
             (conj (or_intror eq_refl) eq_refl)).
  - vm_compute. reflexivity.
  - vm_compute. reflexivity.
Defined.
