(* ===== verification/Meta.v ===== *)
(** * The metastore's records and buckets

    The values the Raft state machine stores
    ([internal/domain/topic], [internal/domain/user],
    [internal/domain/remote], [metastore.go]) and the bbolt buckets they
    live in ([fsm.go]).  Records are stored as their JSON encoding, which
    reads back as the value written; a bucket is modelled by the map of
    decoded records, and nil and empty slices, which encode alike, are one
    list. *)

From S2P Require Import Prelude Decimal Keys Json.
#[global] Open Scope string_scope.
#[global] Open Scope list_scope.
#[global] Open Scope Z_scope.

(** ** Topics *)

(** [topic.RemoteLink]. *)
Record RemoteLink := MkRemoteLink {
  rl_Name : string;
  rl_Topic : string;
  rl_TargetID : string;
  rl_From : string;
  rl_Lanes : Z;
  rl_Paused : bool;
  rl_PauseReason : string;
  rl_PausedBy : string;
  rl_PausedAtMs : Z;
  rl_Skip : gmap Z (list Z);
  rl_CreatedBy : string;
}.

#[global] Instance RemoteLink_eq_dec : EqDecision RemoteLink.
Proof. solve_decision. Defined.

(** [topic.Topic]; the role is a string, empty for a record written before
    roles existed. *)
Record Topic := MkTopic {
  t_Name : string;
  t_ID : string;
  t_Partitions : Z;
  t_RetentionMs : Z;
  t_VisibilityTimeoutMs : Z;
  t_MaxInFlightPerPartition : Z;
  t_MaxAckedAheadPerPartition : Z;
  t_CreatedAt : Z;
  t_Owner : string;
  t_Role : string;
  t_Children : list string;
  t_Parent : string;
  t_AttachEpoch : string;
  t_FanoutDelayMs : Z;
  t_AttachOffsets : list Z;
  t_Remote : option RemoteLink;
}.

#[global] Instance Topic_eq_dec : EqDecision Topic.
Proof. solve_decision. Defined.

Definition RoleStandalone : string := "standalone".
Definition RoleParent : string := "parent".
Definition RoleChild : string := "child".

Definition MaxChildrenPerParent : Z := 108.
Definition MaxFanoutDelayMs : Z := 365 * 24 * 60 * 60 * 1000.
Definition MinRetentionMs : Z := 60 * 60 * 1000.

Definition MaxRemoteChildrenPerParent : Z := 16.
Definition MinRemoteSourceRetentionMs : Z := 24 * 60 * 60 * 1000.
Definition MinRemoteLanes : Z := 1.
Definition MaxRemoteLanes : Z := 8.
Definition MaxRemotePauseReasonBytes : Z := 256.
Definition MaxRemoteSkipsPerPartition : Z := MaxRemoteLanes * 500.

Definition EffectiveRole (t : Topic) : string :=
  if decide (t_Role t = "") then RoleStandalone else t_Role t.

Definition IsParent (t : Topic) : bool := bool_decide (EffectiveRole t = RoleParent).
Definition IsChild (t : Topic) : bool := bool_decide (EffectiveRole t = RoleChild).

Definition IsRemoteChild (t : Topic) : bool :=
  match t_Remote t with Some _ => IsChild t | None => false end.

(** *** Names *)

Definition name_char (c : ascii) : bool :=
  in_bytes 65 90 c || in_bytes 97 122 c || in_bytes 48 57 c || bool_decide (c ∈ ["."; "_"; "-"]%char).

(** [^\\[A-Za-z0-9._-\\]{lo,hi}$]. *)
Definition name_matches (lo hi : nat) (s : list ascii) : bool :=
  (lo <=? length s)%nat && (length s <=? hi)%nat && forallb name_char s.

Definition ValidateTopicName (name : string) : bool :=
  negb (bool_decide (name = "" ∨ name = "." ∨ name = "..")) && name_matches 1 255 (chars name).

Lemma topic_name_ok name : ValidateTopicName name = true → no_colon name ∧ name ≠ "".
Proof.
  unfold ValidateTopicName, name_matches. rewrite !andb_true_iff, negb_true_iff, bool_decide_eq_false.
  intros [Hne [_ Hall]]. split; [|tauto]. intros Hin.
  rewrite forallb_forall in Hall. apply list_elem_of_In, Hall in Hin. by vm_compute in Hin.
Qed.

(** *** Remote links *)

Definition EffectiveLanes (l : RemoteLink) : Z :=
  if rl_Lanes l <? MinRemoteLanes then MinRemoteLanes else Z.min (rl_Lanes l) MaxRemoteLanes.

Definition ValidRemoteFrom (from : string) : bool :=
  bool_decide (from ∈ [""; "attach"; "unconsumed"; "earliest"]%string).

(** [slices.BinarySearch] and [slices.Insert] on an ascending list: the
    offset is inserted before the first one not below it, unless it is
    there already. *)
Fixpoint insert_sorted (off : Z) (offs : list Z) : list Z :=
  match offs with
  | [] => [off]
  | o :: r => if o <? off then o :: insert_sorted off r
              else if o =? off then offs else off :: offs
  end.

(** The trim loop of [WithSkip]: the lowest offset other than [off] goes
    first.  Each round drops one. *)
Fixpoint trim_skips (fuel : nat) (off : Z) (offs : list Z) : list Z :=
  match fuel with
  | O => offs
  | S fuel =>
      if Z.of_nat (length offs) <=? MaxRemoteSkipsPerPartition then offs else
      match offs with
      | o :: r => trim_skips fuel off
                    (if o =? off then match r with _ :: r' => o :: r' | [] => [o] end else r)
      | [] => []
      end
  end.

Definition WithSkip (skip : gmap Z (list Z)) (partition offset : Z) : gmap Z (list Z) :=
  let offs := insert_sorted offset (default [] (skip !! partition)) in
  <[partition := trim_skips (length offs) offset offs]> skip.

(** ** Members, assignments, users *)

Definition MemberAlive : string := "alive".
Definition MemberDead : string := "dead".

Record Member := MkMember {
  m_ID : string;
  m_Addr : string;
  m_ClusterAddr : string;
  m_Status : string;
  m_LastHeartbeat : Z;
  m_Draining : bool;
  m_Build : string;
  m_EntryTypes : Z;
}.

Record Assignment := MkAssignment {
  a_Topic : string;
  a_Partition : Z;
  a_OwnerID : string;
  a_TargetID : string;
}.

Record Grant := MkGrant {
  g_Action : string;
  g_Patterns : list string;
}.

Record User := MkUser {
  u_Username : string;
  u_PasswordHash : string;
  u_Grants : list Grant;
  u_Root : bool;
  u_CreatedAtMs : Z;
  u_UpdatedAtMs : Z;
}.

#[global] Instance Member_eq_dec : EqDecision Member.
Proof. solve_decision. Defined.
#[global] Instance Assignment_eq_dec : EqDecision Assignment.
Proof. solve_decision. Defined.
#[global] Instance Grant_eq_dec : EqDecision Grant.
Proof. solve_decision. Defined.
#[global] Instance User_eq_dec : EqDecision User.
Proof. solve_decision. Defined.

(** ** Remotes *)

Record Limits := MkLimits {
  l_MaxInFlight : Z;
  l_RequestTimeoutMs : Z;
  l_IdleConnTimeoutMs : Z;
  l_ConnMaxAgeMs : Z;
  l_CheckIntervalMs : Z;
  l_Compression : string;
}.

Record Envelope := MkEnvelope { env_V : Z; env_KV : string; env_CT : string }.

Record RemoteRecord := MkRemoteRecord {
  r_Name : string;
  r_ID : string;
  r_URL : string;
  r_Username : string;
  r_Credential : Envelope;
  r_CredentialVersion : Z;
  r_Fingerprint : string;
  r_PasswordSetAtMs : Z;
  r_PasswordSetBy : string;
  r_CAPEM : string;
  r_Limits : Limits;
  r_Revision : Z;
  r_CreatedAtMs : Z;
  r_CreatedBy : string;
}.

Record KeyVersion := MkKeyVersion { kv_Seals : Z; kv_FirstSealedAtMs : Z }.

(** The reserved [_keys] entry; a nil salt is [None]. *)
Record RemoteKeys := MkKeys {
  k_Salt : option string;
  k_Versions : gmap string KeyVersion;
}.

#[global] Instance Limits_eq_dec : EqDecision Limits.
Proof. solve_decision. Defined.
#[global] Instance Envelope_eq_dec : EqDecision Envelope.
Proof. solve_decision. Defined.
#[global] Instance RemoteRecord_eq_dec : EqDecision RemoteRecord.
Proof. solve_decision. Defined.
#[global] Instance KeyVersion_eq_dec : EqDecision KeyVersion.
Proof. solve_decision. Defined.
#[global] Instance RemoteKeys_eq_dec : EqDecision RemoteKeys.
Proof. solve_decision. Defined.

(** ** Errors *)

(** The sentinel errors of [internal/errs] and of the package, without
    their messages. *)
Inductive err :=
| ErrNotFound | ErrAlreadyExists | ErrTopicAlreadyExists | ErrInvalidArgument | ErrTopicChanged
| ErrFanoutRoleConflict | ErrFanoutChildLimit | ErrFanoutDelayTooLong | ErrFanoutSchemaMismatch
| ErrFanoutSchemaManaged | ErrSchemaHistoryFull | ErrMalformedSchemaKey
| ErrPartitionAssigned | ErrAssignmentLive
| ErrMemberRemoved | ErrMemberHeartbeatNewer | ErrRootProtected
| ErrRemoteChildConflict | ErrRemoteChildLimit | ErrRemoteTargetLinked | ErrRemoteRetentionFloor
| ErrRemoteStubImmutable | ErrRemoteChildStale
| ErrRemoteNotFound | ErrRemoteSaltRace | ErrRemoteKeyExhausted | ErrRemoteExists | ErrRemoteLimit
| ErrRemoteChanged (revision : Z) | ErrRemoteInUse (links : list string)
| ErrUndecodable.

#[global] Instance err_eq_dec : EqDecision err.
Proof. solve_decision. Defined.

(** ** Buckets *)

(** The metadata buckets.  The [remotes] bucket's reserved [_keys] entry is
    [remote_keys]. *)
Record buckets := Buckets {
  topics : gmap string Topic;
  schemas : gmap string string;
  assignments : gmap string Assignment;
  members : gmap string Member;
  users : gmap string User;
  removed_members : gmap string Z;
  remotes : gmap string RemoteRecord;
  remote_keys : option RemoteKeys;
}.

Definition empty_buckets : buckets := Buckets ∅ ∅ ∅ ∅ ∅ ∅ ∅ None.

Definition set_topics x b := Buckets x (schemas b) (assignments b) (members b) (users b)
  (removed_members b) (remotes b) (remote_keys b).
Definition set_schemas x b := Buckets (topics b) x (assignments b) (members b) (users b)
  (removed_members b) (remotes b) (remote_keys b).
Definition set_assignments x b := Buckets (topics b) (schemas b) x (members b) (users b)
  (removed_members b) (remotes b) (remote_keys b).
Definition set_members x b := Buckets (topics b) (schemas b) (assignments b) x (users b)
  (removed_members b) (remotes b) (remote_keys b).
Definition set_users x b := Buckets (topics b) (schemas b) (assignments b) (members b) x
  (removed_members b) (remotes b) (remote_keys b).
Definition set_removed x b := Buckets (topics b) (schemas b) (assignments b) (members b) (users b)
  x (remotes b) (remote_keys b).
Definition set_remotes x b := Buckets (topics b) (schemas b) (assignments b) (members b) (users b)
  (removed_members b) x (remote_keys b).
Definition set_remote_keys x b := Buckets (topics b) (schemas b) (assignments b) (members b) (users b)
  (removed_members b) (remotes b) x.

(** The rows of a bucket in key order, as a bbolt cursor meets them. *)
Definition in_key_order {A} (m : gmap string A) : list (string * A) :=
  merge_sort (λ x y, String.le x.1 y.1) (map_to_list m).

Lemma in_key_order_perm {A} (m : gmap string A) : in_key_order m ≡ₚ map_to_list m.
Proof. apply merge_sort_Permutation. Qed.

Lemma elem_of_in_key_order {A} (m : gmap string A) k x : (k, x) ∈ in_key_order m ↔ m !! k = Some x.
Proof. by rewrite in_key_order_perm, elem_of_map_to_list. Qed.

(** ** Record access *)

Definition getTopicRecord (b : buckets) (name : string) : result err Topic :=
  match topics b !! name with Some t => Ok t | None => Err ErrNotFound end.

Definition putTopicRecord (t : Topic) (b : buckets) : buckets :=
  set_topics (<[t_Name t := t]> (topics b)) b.

(** [deletePrefix]: the bucket without the keys that start with [prefix],
    and how many went. *)
Definition deletePrefix {A} (prefix : string) (m : gmap string A) : gmap string A * Z :=
  let gone := filter (λ kv, has_prefix prefix kv.1 = true) m in
  (filter (λ kv, has_prefix prefix kv.1 = false) m, Z.of_nat (size gone)).

Definition deleteTopicRecords (name : string) (b : buckets) : buckets :=
  Buckets (delete name (topics b))
    (deletePrefix (row_prefix name) (schemas b)).1
    (deletePrefix (row_prefix name) (assignments b)).1
    (members b) (users b) (removed_members b) (remotes b) (remote_keys b).

Definition memberTombstoned (b : buckets) (id : string) : bool :=
  bool_decide (is_Some (removed_members b !! id)).
