(* ===== verification/Versions.v ===== *)
(** * Domain versions

    [internal/persistence/metastore/domain_versions.go]: the versions the
    caches invalidate on, one per key in the topic, assignment and schema
    domains and one for each of the other domains, all drawn from one
    counter.  Deleted names become tombstones that are pruned in batches by
    raising a floor.  The lemmas show that no read ever goes back and that
    every bump is seen.  The counter is an unbounded integer here: [2^64]
    bumps are out of reach. *)

From S2P Require Import Prelude.

(** ** State *)

Record versionTable := MkTable { cells : gmap string Z; floor : Z }.

Record keyedVersions := MkKeyed { table : option versionTable; retired : gset string }.

Record metadataDomainVersions := MkVersions {
  next : Z;
  v_topics : keyedVersions;
  v_assignments : keyedVersions;
  v_schemas : keyedVersions;
  v_routingMembers : Z;
  v_users : Z;
  v_remotes : Z;
}.

Definition newMetadataDomainVersions : metadataDomainVersions :=
  MkVersions 0 (MkKeyed None ∅) (MkKeyed None ∅) (MkKeyed None ∅) 0 0 0.

Definition maxRetiredKeys : Z := 1024.

(** ** One domain *)

Definition version (k : keyedVersions) (key : string) : Z :=
  match table k with
  | None => 0
  | Some t => match cells t !! key with Some v => v | None => floor t end
  end.

Definition has_cell (k : keyedVersions) (key : string) : bool :=
  match table k with Some t => bool_decide (is_Some (cells t !! key)) | None => false end.

Definition set (key : string) (v : Z) (k : keyedVersions) : keyedVersions :=
  match table k with
  | Some t =>
      MkKeyed (Some (MkTable (<[key := v]> (cells t)) (floor t)))
        (if has_cell k key then retired k ∖ {[key]} else retired k)
  | None => MkKeyed (Some (MkTable {[key := v]} 0)) (retired k)
  end.

(** Returns the domain and the counter. *)
Definition retire (key : string) (v nxt : Z) (k : keyedVersions) : keyedVersions * Z :=
  let k := set key v k in
  let gone := {[key]} ∪ retired k in
  if Z.of_nat (size gone) <? maxRetiredKeys then (MkKeyed (table k) gone, nxt)
  else
    let old := match table k with Some t => cells t | None => ∅ end in
    (MkKeyed (Some (MkTable (filter (λ kv, kv.1 ∉ gone) old) (nxt + 1))) ∅, nxt + 1).

Definition reset (v : Z) (k : keyedVersions) : keyedVersions := MkKeyed (Some (MkTable ∅ v)) ∅.

(** ** All domains *)

Definition bumpTopic (name : string) (v : metadataDomainVersions) : metadataDomainVersions :=
  MkVersions (next v + 1) (set name (next v + 1) (v_topics v)) (v_assignments v) (v_schemas v)
    (v_routingMembers v) (v_users v) (v_remotes v).
Definition bumpAssignment (name : string) (v : metadataDomainVersions) : metadataDomainVersions :=
  MkVersions (next v + 1) (v_topics v) (set name (next v + 1) (v_assignments v)) (v_schemas v)
    (v_routingMembers v) (v_users v) (v_remotes v).
Definition bumpSchema (name : string) (v : metadataDomainVersions) : metadataDomainVersions :=
  MkVersions (next v + 1) (v_topics v) (v_assignments v) (set name (next v + 1) (v_schemas v))
    (v_routingMembers v) (v_users v) (v_remotes v).
Definition bumpRoutingMembers (v : metadataDomainVersions) : metadataDomainVersions :=
  MkVersions (next v + 1) (v_topics v) (v_assignments v) (v_schemas v) (next v + 1) (v_users v) (v_remotes v).
Definition bumpUsers (v : metadataDomainVersions) : metadataDomainVersions :=
  MkVersions (next v + 1) (v_topics v) (v_assignments v) (v_schemas v) (v_routingMembers v) (next v + 1) (v_remotes v).
Definition bumpRemotes (v : metadataDomainVersions) : metadataDomainVersions :=
  MkVersions (next v + 1) (v_topics v) (v_assignments v) (v_schemas v) (v_routingMembers v) (v_users v) (next v + 1).

Definition bumpAll (v : metadataDomainVersions) : metadataDomainVersions :=
  let n := next v + 1 in
  MkVersions n (reset n (v_topics v)) (reset n (v_assignments v)) (reset n (v_schemas v)) n n n.

Definition retireAssignments (name : string) (v : metadataDomainVersions) : metadataDomainVersions :=
  let '(a, n) := retire name (next v + 1) (next v + 1) (v_assignments v) in
  MkVersions n (v_topics v) a (v_schemas v) (v_routingMembers v) (v_users v) (v_remotes v).

Definition retireTopic (name : string) (v : metadataDomainVersions) : metadataDomainVersions :=
  let '(t, n) := retire name (next v + 1) (next v + 1) (v_topics v) in
  let '(a, n) := retire name (n + 1) (n + 1) (v_assignments v) in
  let '(s, n) := retire name (n + 1) (n + 1) (v_schemas v) in
  MkVersions n t a s (v_routingMembers v) (v_users v) (v_remotes v).

Definition topicVersion (v : metadataDomainVersions) (name : string) : Z := version (v_topics v) name.
Definition assignmentVersion (v : metadataDomainVersions) (name : string) : Z := version (v_assignments v) name.
Definition schemaVersion (v : metadataDomainVersions) (name : string) : Z := version (v_schemas v) name.

(** The calls a handler makes on the versions, in order. *)
Inductive bump :=
| BTopic (name : string) | BAssignment (name : string) | BSchema (name : string)
| BRoutingMembers | BUsers | BRemotes | BAll
| BRetireTopic (name : string) | BRetireAssignments (name : string).

#[global] Instance bump_eq_dec : EqDecision bump.
Proof. solve_decision. Defined.

Definition apply_bump (v : metadataDomainVersions) (b : bump) : metadataDomainVersions :=
  match b with
  | BTopic n => bumpTopic n v
  | BAssignment n => bumpAssignment n v
  | BSchema n => bumpSchema n v
  | BRoutingMembers => bumpRoutingMembers v
  | BUsers => bumpUsers v
  | BRemotes => bumpRemotes v
  | BAll => bumpAll v
  | BRetireTopic n => retireTopic n v
  | BRetireAssignments n => retireAssignments n v
  end.

(** ** Invariant and monotonicity *)

(** Nothing handed out is above the counter. *)
Definition keyed_ok (n : Z) (k : keyedVersions) : Prop :=
  match table k with
  | None => 0 <= n
  | Some t => 0 <= floor t <= n ∧ map_Forall (λ _ v, 0 <= v <= n) (cells t)
  end.

Record versions_ok (v : metadataDomainVersions) : Prop := {
  vo_topics : keyed_ok (next v) (v_topics v);
  vo_assignments : keyed_ok (next v) (v_assignments v);
  vo_schemas : keyed_ok (next v) (v_schemas v);
  vo_members : v_routingMembers v <= next v;
  vo_users : v_users v <= next v;
  vo_remotes : v_remotes v <= next v;
}.

(** Every read of [k'] is at least the read of [k]. *)
Definition keyed_le (k k' : keyedVersions) : Prop := ∀ key, version k key <= version k' key.

#[global] Instance keyed_le_preorder : PreOrder keyed_le.
Proof. split; [by intros k key|]. intros a b c Hab Hbc key. specialize (Hab key). specialize (Hbc key). lia. Qed.

Lemma keyed_ok_mono n n' k : keyed_ok n k → n <= n' → keyed_ok n' k.
Proof.
  unfold keyed_ok. destruct (table k) as [t|]; [|lia]. intros [Hf Hc] Hn. split; [lia|].
  eapply map_Forall_impl; [exact Hc|]. simpl. lia.
Qed.

Lemma keyed_ok_version n k key : keyed_ok n k → 0 <= version k key <= n.
Proof.
  unfold keyed_ok, version. destruct (table k) as [t|]; [|lia]. intros [Hf Hc].
  destruct (cells t !! key) as [v|] eqn:Hk; [|lia]. by apply Hc in Hk.
Qed.

Lemma version_set key v k key' :
  version (set key v k) key' =
    if decide (key = key') then v
    else match table k with None => 0 | Some _ => version k key' end.
Proof.
  unfold version, set. destruct (table k) as [t|]; simpl.
  - rewrite lookup_insert. by case_decide.
  - rewrite lookup_singleton. by case_decide.
Qed.

Lemma set_spec key n k :
  keyed_ok n k → let k' := set key (n + 1) k in
  keyed_ok (n + 1) k' ∧ keyed_le k k' ∧ version k key < version k' key.
Proof.
  intros Hok k'. pose proof (keyed_ok_version n k key Hok) as Hv. split; [|split].
  - subst k'. unfold keyed_ok, set in *. destruct (table k) as [t|]; simpl.
    + destruct Hok as [Hf Hc]. split; [lia|]. apply map_Forall_insert_2; [lia|].
      eapply map_Forall_impl; [exact Hc|]. simpl. lia.
    + split; [lia|]. apply map_Forall_singleton. lia.
  - intros key'. subst k'. rewrite version_set. pose proof (keyed_ok_version n k key' Hok).
    case_decide; [lia|]. unfold version. destruct (table k); lia.
  - subst k'. rewrite version_set, decide_True by done. lia.
Qed.

Lemma retire_spec key n k k' n' :
  keyed_ok n k → retire key (n + 1) (n + 1) k = (k', n') →
  n < n' ∧ keyed_ok n' k' ∧ keyed_le k k' ∧ version k key < version k' key.
Proof.
  intros Hok. unfold retire. destruct (set_spec key n k Hok) as (Hok1 & Hle1 & Hlt1).
  set (k1 := set key (n + 1) k) in *. destruct (Z.ltb_spec (Z.of_nat (size ({[key]} ∪ retired k1))) maxRetiredKeys).
  - intros [= <- <-]. split; [lia|]. by split_and!.
  - intros [= <- <-]. split; [lia|].
    assert (∀ key', version k1 key' <= version (MkKeyed (Some (MkTable
        (filter (λ kv, kv.1 ∉ {[key]} ∪ retired k1)
           match table k1 with Some t => cells t | None => ∅ end) (n + 1 + 1))) ∅) key') as Hle2.
    { intros key'. pose proof (keyed_ok_version (n + 1) k1 key' Hok1) as Hv.
      unfold version in *. simpl. destruct (filter _ _ !! key') as [v|] eqn:Hf; [|lia].
      apply map_lookup_filter_Some in Hf as [Hf _]. destruct (table k1) as [t|].
      - rewrite Hf. lia.
      - by rewrite lookup_empty in Hf. }
    split; [|split].
    + unfold keyed_ok in *. simpl. destruct (table k1) as [t|].
      * destruct Hok1 as [? Hc]. split; [lia|].
        intros key' v [Hv _]%map_lookup_filter_Some. apply Hc in Hv. simpl in Hv. lia.
      * split; [lia|]. rewrite map_filter_empty. apply map_Forall_empty.
    + etrans; [exact Hle1|]. exact Hle2.
    + specialize (Hle2 key). lia.
Qed.

Record versions_le (v v' : metadataDomainVersions) : Prop := {
  vl_next : next v <= next v';
  vl_topics : keyed_le (v_topics v) (v_topics v');
  vl_assignments : keyed_le (v_assignments v) (v_assignments v');
  vl_schemas : keyed_le (v_schemas v) (v_schemas v');
  vl_members : v_routingMembers v <= v_routingMembers v';
  vl_users : v_users v <= v_users v';
  vl_remotes : v_remotes v <= v_remotes v';
}.

#[global] Instance versions_le_preorder : PreOrder versions_le.
Proof.
  split.
  - intros v. split; done || lia.
  - intros a b c [] []. split; (lia || (etrans; eassumption)).
Qed.

(** What a call makes newer. *)
Definition newer (b : bump) (v v' : metadataDomainVersions) : Prop :=
  match b with
  | BTopic n => topicVersion v n < topicVersion v' n
  | BAssignment n | BRetireAssignments n => assignmentVersion v n < assignmentVersion v' n
  | BSchema n => schemaVersion v n < schemaVersion v' n
  | BRoutingMembers => v_routingMembers v < v_routingMembers v'
  | BUsers => v_users v < v_users v'
  | BRemotes => v_remotes v < v_remotes v'
  | BRetireTopic n => topicVersion v n < topicVersion v' n
      ∧ assignmentVersion v n < assignmentVersion v' n ∧ schemaVersion v n < schemaVersion v' n
  | BAll => ∀ n, topicVersion v n < topicVersion v' n
      ∧ assignmentVersion v n < assignmentVersion v' n ∧ schemaVersion v n < schemaVersion v' n
  end.

Lemma newer_le b v1 v2 v3 v4 :
  versions_le v1 v2 → newer b v2 v3 → versions_le v3 v4 → newer b v1 v4.
Proof.
  intros [_ Ht Ha Hs ? ? ?] Hn [_ Ht' Ha' Hs' ? ? ?].
  assert (∀ n, topicVersion v1 n <= topicVersion v2 n ∧ topicVersion v3 n <= topicVersion v4 n) as Hxt
    by (intros n; split; [apply Ht|apply Ht']).
  assert (∀ n, assignmentVersion v1 n <= assignmentVersion v2 n ∧ assignmentVersion v3 n <= assignmentVersion v4 n) as Hxa
    by (intros n; split; [apply Ha|apply Ha']).
  assert (∀ n, schemaVersion v1 n <= schemaVersion v2 n ∧ schemaVersion v3 n <= schemaVersion v4 n) as Hxs
    by (intros n; split; [apply Hs|apply Hs']).
  destruct b; simpl in *; try lia.
  all: try (specialize (Hxt name); specialize (Hxa name); specialize (Hxs name); lia).
  intros n. specialize (Hxt n); specialize (Hxa n); specialize (Hxs n); specialize (Hn n). lia.
Qed.

Lemma reset_spec n k : keyed_ok n k →
  keyed_ok (n + 1) (reset (n + 1) k) ∧ (∀ key, version k key < version (reset (n + 1) k) key).
Proof.
  intros Hok. split.
  - pose proof (keyed_ok_version n k EmptyString Hok). unfold keyed_ok, reset. simpl.
    split; [lia|]. apply map_Forall_empty.
  - intros key. pose proof (keyed_ok_version n k key Hok). unfold version at 2. simpl.
    rewrite lookup_empty. lia.
Qed.

Lemma keyed_le_lt k k' : (∀ key, version k key < version k' key) → keyed_le k k'.
Proof. intros H key. specialize (H key). lia. Qed.

Ltac bump_tac :=
  repeat match goal with |- _ ∧ _ => split end;
  match goal with |- versions_ok _ => split | |- versions_le _ _ => split | _ => idtac end; simpl;
  try done; try lia; try (eapply keyed_ok_mono; [eassumption|lia]); auto using keyed_le_lt.

Lemma apply_bump_spec v b :
  versions_ok v → let v' := apply_bump v b in
  versions_ok v' ∧ versions_le v v' ∧ newer b v v'.
Proof.
  intros [Ht Ha Hs Hm Hu Hr]. destruct b as [n|n|n| | | | |n|n]; simpl.
  - destruct (set_spec n _ _ Ht) as (? & ? & ?). bump_tac.
  - destruct (set_spec n _ _ Ha) as (? & ? & ?). bump_tac.
  - destruct (set_spec n _ _ Hs) as (? & ? & ?). bump_tac.
  - bump_tac.
  - bump_tac.
  - bump_tac.
  - destruct (reset_spec _ _ Ht) as [? Ht']. destruct (reset_spec _ _ Ha) as [? Ha'].
    destruct (reset_spec _ _ Hs) as [? Hs']. bump_tac.
    intros n. split_and!; [apply Ht'|apply Ha'|apply Hs'].
  - unfold retireTopic. destruct (retire n _ _ (v_topics v)) as [t n1] eqn:E1.
    apply retire_spec in E1 as (? & ? & ? & ?); [|done].
    destruct (retire n _ _ (v_assignments v)) as [a n2] eqn:E2.
    apply retire_spec in E2 as (? & ? & ? & ?); [|by eapply keyed_ok_mono; [eassumption|lia]].
    destruct (retire n _ _ (v_schemas v)) as [s n3] eqn:E3.
    apply retire_spec in E3 as (? & ? & ? & ?); [|by eapply keyed_ok_mono; [eassumption|lia]].
    bump_tac.
  - unfold retireAssignments. destruct (retire n _ _ (v_assignments v)) as [a n2] eqn:E2.
    apply retire_spec in E2 as (? & ? & ? & ?); [|done]. bump_tac.
Qed.

Definition apply_bumps (v : metadataDomainVersions) (bs : list bump) : metadataDomainVersions :=
  foldl apply_bump v bs.

Lemma apply_bumps_spec v bs :
  versions_ok v → versions_ok (apply_bumps v bs) ∧ versions_le v (apply_bumps v bs).
Proof.
  revert v; induction bs as [|b bs IH]; intros v Hok; [done|]. simpl.
  destruct (apply_bump_spec v b Hok) as (Hok' & Hle & _). destruct (IH _ Hok') as [? ?].
  split; [done|]. by etrans.
Qed.

(** Every call made is seen, whatever the calls before and after it. *)
Lemma apply_bumps_newer v bs b : versions_ok v → b ∈ bs → newer b v (apply_bumps v bs).
Proof.
  revert v; induction bs as [|b0 bs IH]; intros v Hok Hin; [by apply elem_of_nil in Hin|]. simpl.
  destruct (apply_bump_spec v b0 Hok) as (Hok' & Hle & Hn).
  destruct (apply_bumps_spec (apply_bump v b0) bs Hok') as [_ Hle'].
  apply elem_of_cons in Hin as [->|Hin].
  - eapply newer_le; [reflexivity|exact Hn|exact Hle'].
  - eapply newer_le; [exact Hle|by apply IH|reflexivity].
Qed.

Lemma new_versions_ok : versions_ok newMetadataDomainVersions.
Proof. split; simpl; unfold keyed_ok; simpl; lia. Qed.
