(* ===== verification/FsmTopics.v ===== *)
(** * The state machine's topic, schema and fan-out handlers

    [fsm_apply.go], [fsm_apply_create.go], [fsm_apply_cas.go],
    [fsm_apply_fanout.go], [fsm_schema.go] and [fsm_schema_budget.go] of
    [internal/persistence/metastore].  A handler is a function of the
    buckets and the payload: an error leaves the database untouched (the
    transaction is rolled back), success gives the buckets to commit and
    the domain-version calls that follow the commit. *)

From S2P Require Import Prelude Decimal Keys Json Meta Versions.

(** ** Schema histories *)

(** The rows under a topic's prefix, in key order. *)
Definition rows_of {A} (topicName : string) (m : gmap string A) : list (string * A) :=
  in_key_order (filter (λ kv, has_prefix (row_prefix topicName) kv.1 = true) m).

(** The number of a row's key. *)
Definition row_number (topicName key : string) : option Z :=
  s ← cut_prefix (row_prefix topicName) key; atoi s.

Fixpoint latest_loop (topicName : string) (rows : list (string * string)) (latest : Z) : result err Z :=
  match rows with
  | [] => Ok latest
  | (k, _) :: rows =>
      match row_number topicName k with
      | None => Err ErrMalformedSchemaKey
      | Some v => latest_loop topicName rows (if latest <? v then v else latest)
      end
  end.

Definition latestSchemaVersion (b : buckets) (topicName : string) : result err Z :=
  latest_loop topicName (rows_of topicName (schemas b)) 0.

Definition MaxSchemaVersions : Z := 1000.

Definition checkNextSchemaVersion (b : buckets) (topicName : string) (version : Z) : result err unit :=
  let! latest := latestSchemaVersion b topicName in
  if version <=? latest then Err ErrAlreadyExists
  else if negb (version =? latest + 1) then Err ErrInvalidArgument
  else if MaxSchemaVersions <? version then Err ErrSchemaHistoryFull
  else Ok tt.

Fixpoint history_loop (topicName : string) (rows : list (string * string)) (out : gmap Z string)
    : result err (gmap Z string) :=
  match rows with
  | [] => Ok out
  | (k, v) :: rows =>
      match row_number topicName k with
      | None => Err ErrMalformedSchemaKey
      | Some n => history_loop topicName rows (<[n := v]> out)
      end
  end.

Definition loadSchemaHistory (b : buckets) (topicName : string) : result err (gmap Z string) :=
  history_loop topicName (rows_of topicName (schemas b)) ∅.

Definition version_le (x y : Z * string) : Prop := x.1 <= y.1.

#[global] Instance version_le_dec x y : Decision (version_le x y).
Proof. unfold version_le. apply _. Defined.

Definition sortedVersions (h : gmap Z string) : list (Z * string) :=
  merge_sort version_le (map_to_list h).

Definition histories_equal (eqv : string → string → bool) (a b : gmap Z string) : bool :=
  (size a =? size b)%nat &&
  forallb (λ p, match b !! p.1 with Some other => eqv p.2 other | None => false end) (map_to_list a).

Definition schemaHistoriesEqual : gmap Z string → gmap Z string → bool :=
  histories_equal (λ x y, bool_decide (x = y)).

Definition schemaHistoriesValueEqual : gmap Z string → gmap Z string → bool :=
  histories_equal jsonValueEqual.

(** *** Budgets *)

Record schemaBudgets := MkBudgets { sb_topic : Z; sb_cluster : Z }.

Definition defaultSchemaBudgets : schemaBudgets := MkBudgets (4 * 2 ^ 20) (256 * 2 ^ 20).

Definition slen (s : string) : Z := Z.of_nat (String.length s).

Definition sum_bytes (rows : list (string * string)) : Z := foldl (λ n r, n + slen r.2) 0 rows.

Definition topicSchemaBytes (b : buckets) (topicName : string) : Z :=
  sum_bytes (rows_of topicName (schemas b)).

Definition clusterSchemaBytes (b : buckets) : Z := sum_bytes (in_key_order (schemas b)).

Fixpoint budget_loop (bud : schemaBudgets) (b : buckets) (added : list (string * Z)) (sum : Z)
    : result err Z :=
  match added with
  | [] => Ok sum
  | (name, n) :: added =>
      if n <=? 0 then budget_loop bud b added sum
      else if sb_topic bud <? topicSchemaBytes b name + n then Err ErrSchemaHistoryFull
      else budget_loop bud b added (sum + n)
  end.

Definition budget_check (bud : schemaBudgets) (b : buckets) (added : gmap string Z) : result err unit :=
  let! sum := budget_loop bud b (in_key_order added) 0 in
  if sum =? 0 then Ok tt
  else if sb_cluster bud <? clusterSchemaBytes b + sum then Err ErrSchemaHistoryFull
  else Ok tt.

(** ** Record updates *)

(** A child set back to standalone. *)
Definition clear_child_link (t : Topic) : Topic :=
  MkTopic (t_Name t) (t_ID t) (t_Partitions t) (t_RetentionMs t) (t_VisibilityTimeoutMs t)
    (t_MaxInFlightPerPartition t) (t_MaxAckedAheadPerPartition t) (t_CreatedAt t) (t_Owner t)
    RoleStandalone (t_Children t) "" "" 0 [] (t_Remote t).

Definition set_role_children (role : string) (children : list string) (t : Topic) : Topic :=
  MkTopic (t_Name t) (t_ID t) (t_Partitions t) (t_RetentionMs t) (t_VisibilityTimeoutMs t)
    (t_MaxInFlightPerPartition t) (t_MaxAckedAheadPerPartition t) (t_CreatedAt t) (t_Owner t)
    role children (t_Parent t) (t_AttachEpoch t) (t_FanoutDelayMs t) (t_AttachOffsets t) (t_Remote t).

Definition set_child_link (parent epoch : string) (delay : Z) (offsets : list Z) (t : Topic) : Topic :=
  MkTopic (t_Name t) (t_ID t) (t_Partitions t) (t_RetentionMs t) (t_VisibilityTimeoutMs t)
    (t_MaxInFlightPerPartition t) (t_MaxAckedAheadPerPartition t) (t_CreatedAt t) (t_Owner t)
    RoleChild (t_Children t) parent epoch delay offsets (t_Remote t).

(** [applyUpdateTopic]: the incarnation and the link of [cur]. *)
Definition carry_link (cur t : Topic) : Topic :=
  MkTopic (t_Name t) (t_ID cur) (t_Partitions t) (t_RetentionMs t) (t_VisibilityTimeoutMs t)
    (t_MaxInFlightPerPartition t) (t_MaxAckedAheadPerPartition t) (t_CreatedAt t) (t_Owner t)
    (t_Role cur) (t_Children cur) (t_Parent cur) (t_AttachEpoch cur) (t_FanoutDelayMs cur)
    (t_AttachOffsets cur) (t_Remote cur).

(** [applyUpdateTopicIf]: moreover the owner, the creation time and the
    visibility timeout. *)
Definition carry_fixed (cur t : Topic) : Topic :=
  MkTopic (t_Name t) (t_ID cur) (t_Partitions t) (t_RetentionMs t) (t_VisibilityTimeoutMs cur)
    (t_MaxInFlightPerPartition t) (t_MaxAckedAheadPerPartition t) (t_CreatedAt cur) (t_Owner cur)
    (t_Role cur) (t_Children cur) (t_Parent cur) (t_AttachEpoch cur) (t_FanoutDelayMs cur)
    (t_AttachOffsets cur) (t_Remote cur).

Definition unlinkChild (child : string) (parent : Topic) : Topic :=
  let children := filter (λ c, c ≠ child) (t_Children parent) in
  match children with
  | [] => set_role_children RoleStandalone [] parent
  | _ => set_role_children (t_Role parent) children parent
  end.

(** ** Checks *)

Definition checkDelayAgainstRetention (delayMs parentRetentionMs : Z) : result err unit :=
  if (delayMs <=? 0) || (parentRetentionMs =? 0) then Ok tt
  else if parentRetentionMs <? i64 (delayMs + MinRetentionMs) then Err ErrFanoutDelayTooLong
  else Ok tt.

Definition checkRemoteSourceRetention (retentionMs : Z) : result err unit :=
  if (retentionMs =? 0) || (MinRemoteSourceRetentionMs <=? retentionMs) then Ok tt
  else Err ErrRemoteRetentionFloor.

Definition retentionShrinks (current next : Z) : bool :=
  if next =? 0 then false else if current =? 0 then true else next <? current.

Definition sameTopicRecord (a b : Topic) : bool := bool_decide (a = b).

(** The loop over the children in [checkConfigUpdate]: whether one of them
    is remote. *)
Fixpoint config_children_loop (b : buckets) (children : list string) (retention : Z) (hasRemote : bool)
    : result err bool :=
  match children with
  | [] => Ok hasRemote
  | c :: children =>
      match getTopicRecord b c with
      | Err _ => config_children_loop b children retention hasRemote
      | Ok child =>
          let! _ := checkDelayAgainstRetention (t_FanoutDelayMs child) retention in
          config_children_loop b children retention (hasRemote || IsRemoteChild child)
      end
  end.

Definition checkConfigUpdate (b : buckets) (current next : Topic) : result err unit :=
  if IsRemoteChild current && negb (sameTopicRecord next current) then Err ErrRemoteStubImmutable else
  if negb (IsParent next) then Ok tt else
  let! hasRemote := config_children_loop b (t_Children next) (t_RetentionMs next) false in
  if hasRemote && retentionShrinks (t_RetentionMs current) (t_RetentionMs next)
  then checkRemoteSourceRetention (t_RetentionMs next) else Ok tt.

Definition expectIncarnation (current : Topic) (expected : string) : result err unit :=
  if decide (t_ID current = expected) then Ok tt else Err ErrTopicChanged.

Definition expectIncarnations (b : buckets) (parent parentID child childID : string) : result err unit :=
  let! p := getTopicRecord b parent in
  let! _ := expectIncarnation p parentID in
  let! c := getTopicRecord b child in
  expectIncarnation c childID.

(** ** Fan-out links *)

Record childLinkPayload := MkLink {
  cl_Parent : string;
  cl_Child : string;
  cl_Epoch : string;
  cl_DelayMs : Z;
  cl_Offsets : list Z;
}.

Record attachRules := MkRules { byValue : bool; rule_budgets : option schemaBudgets }.

(** Stores the parent's history under the child's name. *)
Definition adopt_history (child : string) (h : gmap Z string) (b : buckets) : buckets :=
  set_schemas (foldl (λ s p, <[schemaKey child p.1 := p.2]> s) (schemas b) (sortedVersions h)) b.

Definition reconcileSchemasForAttach (b : buckets) (parentName childName : string) (rules : attachRules)
    : result err (buckets * bool) :=
  let! parentSchemas := loadSchemaHistory b parentName in
  let! childSchemas := loadSchemaHistory b childName in
  if (size childSchemas =? 0)%nat then
    if (size parentSchemas =? 0)%nat then Ok (b, false) else
    let! _ := match rule_budgets rules with
              | None => Ok tt
              | Some bud =>
                  budget_check bud b {[childName := foldl (λ n p, n + slen p.2) 0 (map_to_list parentSchemas)]}
              end in
    Ok (adopt_history childName parentSchemas b, true)
  else if (size parentSchemas =? 0)%nat then Err ErrFanoutSchemaMismatch
  else if (if byValue rules then schemaHistoriesValueEqual else schemaHistoriesEqual)
            parentSchemas childSchemas
  then Ok (b, false) else Err ErrFanoutSchemaMismatch.

(** Returns the buckets and whether the child adopted the history. *)
Definition attachChildTx (p : childLinkPayload) (rules : attachRules) (b : buckets)
    : result err (buckets * bool) :=
  if decide (cl_Parent p = cl_Child p) then Err ErrFanoutRoleConflict else
  let! parent := getTopicRecord b (cl_Parent p) in
  let! child := getTopicRecord b (cl_Child p) in
  if IsChild parent then Err ErrFanoutRoleConflict
  else if IsParent child then Err ErrFanoutRoleConflict
  else if IsChild child && bool_decide (t_Parent child = cl_Parent p) then Err ErrAlreadyExists
  else if IsChild child then Err ErrFanoutRoleConflict
  else if MaxChildrenPerParent <=? Z.of_nat (length (t_Children parent)) then Err ErrFanoutChildLimit
  else if cl_DelayMs p <? 0 then Err ErrFanoutRoleConflict
  else if MaxFanoutDelayMs <? cl_DelayMs p then Err ErrFanoutDelayTooLong
  else
    let! _ := checkDelayAgainstRetention (cl_DelayMs p) (t_RetentionMs parent) in
    let! ba := reconcileSchemasForAttach b (cl_Parent p) (cl_Child p) rules in
    let '(b, adopted) := ba in
    let parent := set_role_children RoleParent (t_Children parent ++ [cl_Child p]) parent in
    let child := set_child_link (cl_Parent p) (cl_Epoch p) (cl_DelayMs p) (cl_Offsets p) child in
    Ok (putTopicRecord child (putTopicRecord parent b), adopted).

Definition bumpAttached (parent child : string) (schemaAdopted : bool) : list bump :=
  [BTopic parent; BTopic child] ++ (if schemaAdopted then [BSchema child] else []).

(** Returns the buckets and whether the child was a stub, deleted with its
    link. *)
Definition detachChildTx (parentName childName : string) (parent child : Topic) (b : buckets)
    : result err (buckets * bool) :=
  if negb (IsChild child) || negb (bool_decide (t_Parent child = parentName)) then Err ErrNotFound else
  let b := putTopicRecord (unlinkChild childName parent) b in
  if IsRemoteChild child then Ok (deleteTopicRecords childName b, true)
  else Ok (putTopicRecord (clear_child_link child) b, false).

Definition bumpDetached (parent child : string) (stubDeleted : bool) : list bump :=
  [BTopic parent; if stubDeleted then BRetireTopic child else BTopic child].

(** The children of a deleted parent: the topics left standalone and the
    stubs deleted. *)
Fixpoint dissolve_children (name : string) (children : list string) (b : buckets)
    (linked stubs : list string) : buckets * list string * list string :=
  match children with
  | [] => (b, linked, stubs)
  | c :: children =>
      match getTopicRecord b c with
      | Err _ => dissolve_children name children b linked stubs
      | Ok child =>
          if IsRemoteChild child && bool_decide (t_Parent child = name)
          then dissolve_children name children (deleteTopicRecords c b) linked (stubs ++ [c])
          else dissolve_children name children (putTopicRecord (clear_child_link child) b)
                 (linked ++ [c]) stubs
      end
  end.

Definition dissolveFanoutLinks (name : string) (b : buckets)
    : result err (buckets * list string * list string) :=
  let! t := getTopicRecord b name in
  let '(b, linked, stubs) :=
    if IsParent t then dissolve_children name (t_Children t) b [] [] else (b, [], []) in
  if IsChild t && negb (bool_decide (t_Parent t = "")) then
    match getTopicRecord b (t_Parent t) with
    | Err _ => Ok (b, linked, stubs)
    | Ok parent => Ok (putTopicRecord (unlinkChild name parent) b, linked ++ [t_Parent t], stubs)
    end
  else Ok (b, linked, stubs).

Definition deleteTopicTx (name : string) (b : buckets) : result err (buckets * list string * list string) :=
  let! _ := getTopicRecord b name in
  let! bls := dissolveFanoutLinks name b in
  let '(b, linked, stubs) := bls in
  Ok (deleteTopicRecords name b, linked, stubs).

Definition retireDeletedTopic (name : string) (linked stubs : list string) : list bump :=
  BRetireTopic name :: (BRetireTopic <$> stubs) ++ (BTopic <$> linked).

(** ** Handlers *)

(** What a handler commits and the version calls after the commit. *)
Abbreviation handled := (result err (buckets * list bump)).

Definition applyCreateTopic (t : Topic) (b : buckets) : handled :=
  match topics b !! t_Name t with
  | Some _ => Err ErrAlreadyExists
  | None => Ok (putTopicRecord t b, [BTopic (t_Name t)])
  end.

Definition applyUpdateTopic (t : Topic) (b : buckets) : handled :=
  let! current := getTopicRecord b (t_Name t) in
  let t := carry_link current t in
  let! _ := checkConfigUpdate b current t in
  Ok (putTopicRecord t b, [BTopic (t_Name t)]).

Definition applyDeleteTopic (name : string) (b : buckets) : handled :=
  let! bls := deleteTopicTx name b in
  let '(b, linked, stubs) := bls in
  Ok (b, retireDeletedTopic name linked stubs).

(** The children that are not stubs; one whose record is missing counts. *)
Definition is_local (b : buckets) (c : string) : bool :=
  match topics b !! c with Some t => negb (IsRemoteChild t) | None => true end.

Definition localChildren (b : buckets) (children : list string) : list string :=
  filter (λ c, is_local b c = true) children.

Fixpoint check_children_versions (b : buckets) (children : list string) (version : Z) : result err unit :=
  match children with
  | [] => Ok tt
  | c :: children =>
      let! _ := checkNextSchemaVersion b c version in check_children_versions b children version
  end.

Definition put_schemas (names : list string) (version : Z) (schema : string) (b : buckets) : buckets :=
  set_schemas (foldl (λ s n, <[schemaKey n version := schema]> s) (schemas b) names) b.

Record schemaPayload := MkSchema { sp_Topic : string; sp_Version : Z; sp_Schema : string }.

Definition applyPutSchema (p : schemaPayload) (b : buckets) : handled :=
  let! t := getTopicRecord b (sp_Topic p) in
  if IsChild t then Err ErrFanoutSchemaManaged else
  let childTopics := localChildren b (t_Children t) in
  let! _ := checkNextSchemaVersion b (sp_Topic p) (sp_Version p) in
  let! _ := check_children_versions b childTopics (sp_Version p) in
  Ok (put_schemas (sp_Topic p :: childTopics) (sp_Version p) (sp_Schema p) b,
      BSchema (sp_Topic p) :: (BSchema <$> childTopics)).

Definition applyAttachChild (p : childLinkPayload) (b : buckets) : handled :=
  let! r := attachChildTx p (MkRules false None) b in
  Ok (r.1, bumpAttached (cl_Parent p) (cl_Child p) r.2).

Definition applyDetachChild (p : childLinkPayload) (b : buckets) : handled :=
  let! parent := getTopicRecord b (cl_Parent p) in
  let! child := getTopicRecord b (cl_Child p) in
  let! r := detachChildTx (cl_Parent p) (cl_Child p) parent child b in
  Ok (r.1, bumpDetached (cl_Parent p) (cl_Child p) r.2).

(** *** Single-entry create *)

Record createLinkPayload := MkCreateLink {
  xl_Parent : string;
  xl_ParentID : string;
  xl_Epoch : string;
  xl_DelayMs : Z;
  xl_Offsets : list Z;
}.

Record createTopicWithPayload := MkCreateWith {
  cw_Topic : Topic;
  cw_Schema : string;
  cw_Link : option createLinkPayload;
}.

Definition fold_byte (c : ascii) : ascii := to_lower c.

(** [strings.EqualFold] on the ASCII names topics have. *)
Definition equal_fold (a b : string) : bool :=
  bool_decide (fold_byte <$> chars a = fold_byte <$> chars b).

(** An existing topic whose name differs only in letter case. *)
Definition foldedTopicName (b : buckets) (name : string) : option string :=
  List.find (λ k, bool_decide (String.length k = String.length name ∧ k ≠ name) && equal_fold k name)
    (in_key_order (topics b)).*1.

Definition createTopicWithTx (bud : schemaBudgets) (p : createTopicWithPayload) (b : buckets)
    : result err (buckets * (bool * bool)) :=
  let t := cw_Topic p in
  match topics b !! t_Name t with
  | Some _ => Err ErrAlreadyExists
  | None =>
      match foldedTopicName b (t_Name t) with
      | Some _ => Err ErrTopicAlreadyExists
      | None =>
          let b := putTopicRecord t b in
          let '(rows, n) := deletePrefix (row_prefix (t_Name t)) (assignments b) in
          let rowsCleared := 0 <? n in
          let '(schs, n) := deletePrefix (row_prefix (t_Name t)) (schemas b) in
          let schemaChanged := 0 <? n in
          let b := set_schemas schs (set_assignments rows b) in
          let! bs := if 0 <? slen (cw_Schema p) then
                       let! _ := budget_check bud b {[t_Name t := slen (cw_Schema p)]} in
                       Ok (put_schemas [t_Name t] 1 (cw_Schema p) b, true)
                     else Ok (b, schemaChanged) in
          let '(b, schemaChanged) := bs in
          match cw_Link p with
          | None => Ok (b, (rowsCleared, schemaChanged))
          | Some l =>
              let! parent := getTopicRecord b (xl_Parent l) in
              let! _ := expectIncarnation parent (xl_ParentID l) in
              let! ba := attachChildTx (MkLink (xl_Parent l) (t_Name t) (xl_Epoch l) (xl_DelayMs l) (xl_Offsets l))
                           (MkRules true (Some bud)) b in
              let '(b, adopted) := ba in
              Ok (b, (rowsCleared, schemaChanged || adopted))
          end
      end
  end.

Definition applyCreateTopicWith (bud : schemaBudgets) (p : createTopicWithPayload) (b : buckets) : handled :=
  if decide (t_Name (cw_Topic p) = "") then Err ErrInvalidArgument else
  let! r := createTopicWithTx bud p b in
  let '(b, (rowsCleared, schemaChanged)) := r in
  let name := t_Name (cw_Topic p) in
  Ok (b, [BTopic name] ++ (if rowsCleared : bool then [BAssignment name] else [])
         ++ (if schemaChanged : bool then [BSchema name] else [])
         ++ match cw_Link p with Some l => [BTopic (xl_Parent l)] | None => [] end).

(** *** Compare-and-set writes *)

Definition applyUpdateTopicIf (t : Topic) (expectID : string) (b : buckets) : handled :=
  let! current := getTopicRecord b (t_Name t) in
  let! _ := expectIncarnation current expectID in
  if t_Partitions t <? t_Partitions current then Err ErrTopicChanged else
  let next := carry_fixed current t in
  let! _ := checkConfigUpdate b current next in
  Ok (putTopicRecord next b, [BTopic (t_Name t)]).

Definition applyDeleteTopicIf (name expectID : string) (b : buckets) : handled :=
  let! current := getTopicRecord b name in
  let! _ := expectIncarnation current expectID in
  let! bls := deleteTopicTx name b in
  let '(b, linked, stubs) := bls in
  Ok (b, retireDeletedTopic name linked stubs).

(** [added\[child\] += n] for each child. *)
Definition add_bytes (names : list string) (n : Z) (added : gmap string Z) : gmap string Z :=
  foldl (λ m c, <[c := default 0 (m !! c) + n]> m) added names.

Definition applyPutSchemaIf (bud : schemaBudgets) (p : schemaPayload) (expectID : string) (b : buckets) : handled :=
  let! t := getTopicRecord b (sp_Topic p) in
  let! _ := expectIncarnation t expectID in
  if IsChild t then Err ErrFanoutSchemaManaged else
  let! _ := checkNextSchemaVersion b (sp_Topic p) (sp_Version p) in
  let children := localChildren b (t_Children t) in
  let! _ := check_children_versions b children (sp_Version p) in
  let! _ := budget_check bud b
              (add_bytes children (slen (sp_Schema p)) {[sp_Topic p := slen (sp_Schema p)]}) in
  Ok (put_schemas (sp_Topic p :: children) (sp_Version p) (sp_Schema p) b,
      BSchema (sp_Topic p) :: (BSchema <$> children)).

Definition applyAttachChildIf (bud : schemaBudgets) (p : childLinkPayload) (parentID childID : string)
    (b : buckets) : handled :=
  let! _ := expectIncarnations b (cl_Parent p) parentID (cl_Child p) childID in
  let! r := attachChildTx p (MkRules true (Some bud)) b in
  Ok (r.1, bumpAttached (cl_Parent p) (cl_Child p) r.2).

Definition applyDetachChildIf (parentName childName parentID childID : string) (b : buckets) : handled :=
  let! _ := expectIncarnations b parentName parentID childName childID in
  let! parent := getTopicRecord b parentName in
  let! child := getTopicRecord b childName in
  let! r := detachChildTx parentName childName parent child b in
  Ok (r.1, bumpDetached parentName childName r.2).
