(* ===== verification/FsmCluster.v ===== *)
(** * The state machine's assignment, member and user handlers

    [fsm_apply_assign.go], [fsm_apply_move.go], [fsm_apply_members.go],
    [fsm_apply_users.go] and the member handlers of [fsm_apply.go]. *)

From S2P Require Import Prelude Decimal Keys Json Meta Versions FsmTopics.

(** ** Assignments and moves *)

Definition readAssignment (b : buckets) (topicName : string) (partition : Z) : result err Assignment :=
  match assignments b !! assignmentKey topicName partition with
  | Some a => Ok a
  | None => Err ErrNotFound
  end.

Definition putAssignment (a : Assignment) (b : buckets) : buckets :=
  set_assignments (<[assignmentKey (a_Topic a) (a_Partition a) := a]> (assignments b)) b.

Definition set_target (target : string) (a : Assignment) : Assignment :=
  MkAssignment (a_Topic a) (a_Partition a) (a_OwnerID a) target.

Definition applyAssignPartition (a : Assignment) (b : buckets) : handled :=
  Ok (putAssignment a b, [BAssignment (a_Topic a)]).

Definition applyAssignPartitionIfAbsent (topicName : string) (partition : Z) (ownerID expectID : string)
    (b : buckets) : handled :=
  let! t := getTopicRecord b topicName in
  let! _ := expectIncarnation t expectID in
  if (partition <? 0) || (t_Partitions t <=? partition) then Err ErrInvalidArgument
  else if decide (ownerID = "") then Err ErrInvalidArgument
  else if memberTombstoned b ownerID then Err ErrInvalidArgument
  else match assignments b !! assignmentKey topicName partition with
       | Some _ => Err ErrPartitionAssigned
       | None => Ok (putAssignment (MkAssignment topicName partition ownerID "") b, [BAssignment topicName])
       end.

Definition applyPruneAssignment (topicName : string) (partition : Z) (b : buckets) : handled :=
  let key := assignmentKey topicName partition in
  match assignments b !! key with
  | None => Err ErrNotFound
  | Some _ =>
      let b' := set_assignments (delete key (assignments b)) b in
      match getTopicRecord b topicName with
      | Err _ => Ok (b', [BRetireAssignments topicName])
      | Ok t =>
          if (0 <=? partition) && (partition <? t_Partitions t) then Err ErrAssignmentLive
          else Ok (b', [BAssignment topicName])
      end
  end.

Definition applySetAssignmentTarget (topicName : string) (partition : Z) (targetID : string)
    (b : buckets) : handled :=
  let! a := readAssignment b topicName partition in
  if decide (a_TargetID a = targetID) then Ok (b, [])
  else Ok (putAssignment (set_target targetID a) b, [BAssignment topicName]).

Definition applyCompleteMove (topicName : string) (partition : Z) (expectedOwner targetID : string)
    (b : buckets) : handled :=
  let! a := readAssignment b topicName partition in
  if decide (a_OwnerID a = targetID ∧ a_TargetID a = "" ∧ targetID ≠ "") then Ok (b, [])
  else if decide (a_OwnerID a ≠ expectedOwner) then Err ErrInvalidArgument
  else if decide (a_TargetID a ≠ targetID) then Err ErrInvalidArgument
  else Ok (putAssignment (MkAssignment (a_Topic a) (a_Partition a) targetID "") b, [BAssignment topicName]).

Definition applyAbortMove (topicName : string) (partition : Z) (expectedTarget : string)
    (b : buckets) : handled :=
  let! a := readAssignment b topicName partition in
  if decide (a_TargetID a = "" ∨ a_TargetID a ≠ expectedTarget) then Ok (b, [])
  else Ok (putAssignment (set_target "" a) b, [BAssignment topicName]).

(** ** Members *)

Definition getMember (b : buckets) (id : string) : result err Member :=
  match members b !! id with Some m => Ok m | None => Err ErrNotFound end.

Definition putMember (id : string) (m : Member) (b : buckets) : buckets :=
  set_members (<[id := m]> (members b)) b.

Definition sameRoutingMember (a b : Member) : bool :=
  bool_decide (m_ID a = m_ID b ∧ m_Addr a = m_Addr b ∧ m_ClusterAddr a = m_ClusterAddr b
               ∧ m_Status a = m_Status b).

Definition set_draining (d : bool) (m : Member) : Member :=
  MkMember (m_ID m) (m_Addr m) (m_ClusterAddr m) (m_Status m) (m_LastHeartbeat m) d (m_Build m) (m_EntryTypes m).
Definition set_heartbeat (at_ : Z) (m : Member) : Member :=
  MkMember (m_ID m) (m_Addr m) (m_ClusterAddr m) (m_Status m) at_ (m_Draining m) (m_Build m) (m_EntryTypes m).
Definition set_status (s : string) (m : Member) : Member :=
  MkMember (m_ID m) (m_Addr m) (m_ClusterAddr m) s (m_LastHeartbeat m) (m_Draining m) (m_Build m) (m_EntryTypes m).

Definition applyMemberJoin (m : Member) (b : buckets) : handled :=
  if memberTombstoned b (m_ID m) then Err ErrMemberRemoved else
  match members b !! m_ID m with
  | None => Ok (putMember (m_ID m) m b, [BRoutingMembers])
  | Some current =>
      let m := set_draining (m_Draining current) m in
      Ok (putMember (m_ID m) m b, if sameRoutingMember current m then [] else [BRoutingMembers])
  end.

Definition applySetMemberDraining (id : string) (draining : bool) (b : buckets) : handled :=
  let! m := getMember b id in Ok (putMember id (set_draining draining m) b, []).

Definition applyMemberHeartbeat (id : string) (at_ : Z) (b : buckets) : handled :=
  let! m := getMember b id in Ok (putMember id (set_heartbeat at_ m) b, []).

Definition mark_dead (id : string) (m : Member) (b : buckets) : handled :=
  Ok (putMember id (set_status MemberDead m) b,
      if decide (m_Status m = MemberDead) then [] else [BRoutingMembers]).

Definition applyMemberDead (id : string) (b : buckets) : handled :=
  let! m := getMember b id in mark_dead id m b.

Definition applyMarkMemberDeadIf (id : string) (observed : Z) (b : buckets) : handled :=
  let! m := getMember b id in
  if observed <? m_LastHeartbeat m then Err ErrMemberHeartbeatNewer else mark_dead id m b.

Definition applyRemoveMember (id : string) (at_ : Z) (b : buckets) : handled :=
  Ok (set_removed (<[id := at_]> (removed_members b)) (set_members (delete id (members b)) b),
      if decide (is_Some (members b !! id)) then [BRoutingMembers] else []).

Definition applyReadmitMember (id : string) (b : buckets) : handled :=
  Ok (set_removed (delete id (removed_members b)) b, []).

(** ** Users *)

Definition set_root (r : bool) (u : User) : User :=
  MkUser (u_Username u) (u_PasswordHash u) (u_Grants u) r (u_CreatedAtMs u) (u_UpdatedAtMs u).
Definition set_grants (g : list Grant) (u : User) : User :=
  MkUser (u_Username u) (u_PasswordHash u) g (u_Root u) (u_CreatedAtMs u) (u_UpdatedAtMs u).

Definition putUser (name : string) (u : User) (b : buckets) : buckets :=
  set_users (<[name := u]> (users b)) b.

Definition putNewUser (u : User) (b : buckets) : handled :=
  match users b !! u_Username u with
  | Some _ => Err ErrAlreadyExists
  | None => Ok (putUser (u_Username u) u b, [BUsers])
  end.

Definition applyCreateUser (u : User) : buckets → handled := putNewUser (set_root false u).
Definition applySeedRootUser (u : User) : buckets → handled := putNewUser (set_root true u).

Definition applyUpdateUser (u : User) (b : buckets) : handled :=
  match users b !! u_Username u with
  | None => Err ErrNotFound
  | Some current =>
      let u := set_root (u_Root current) u in
      let u := if u_Root current then set_grants (u_Grants current) u else u in
      Ok (putUser (u_Username u) u b, [BUsers])
  end.

Definition mutateUser (username : string) (fn : User → result err User) (b : buckets) : handled :=
  match users b !! username with
  | None => Err ErrNotFound
  | Some current => let! u := fn current in Ok (putUser username u b, [BUsers])
  end.

Definition applySetUserPassword (username hash : string) (updatedAtMs : Z) : buckets → handled :=
  mutateUser username (λ c,
    Ok (MkUser (u_Username c) hash (u_Grants c) (u_Root c) (u_CreatedAtMs c) updatedAtMs)).

Definition applySetUserGrants (username : string) (grants : list Grant) (updatedAtMs : Z) : buckets → handled :=
  mutateUser username (λ c,
    if u_Root c then Err ErrRootProtected
    else Ok (MkUser (u_Username c) (u_PasswordHash c) grants (u_Root c) (u_CreatedAtMs c) updatedAtMs)).

Definition deleteUserRecord (username : string) (b : buckets) : result err buckets :=
  match users b !! username with
  | None => Err ErrNotFound
  | Some current =>
      if u_Root current then Err ErrRootProtected
      else Ok (set_users (delete username (users b)) b)
  end.

Definition applyDeleteUser (username : string) (b : buckets) : handled :=
  let! b := deleteUserRecord username b in Ok (b, [BUsers]).

Definition topicsOwnedBy (b : buckets) (username : string) : list Topic :=
  filter (λ t, t_Owner t = username) (in_key_order (topics b)).*2.

Definition clear_owner (t : Topic) : Topic :=
  MkTopic (t_Name t) (t_ID t) (t_Partitions t) (t_RetentionMs t) (t_VisibilityTimeoutMs t)
    (t_MaxInFlightPerPartition t) (t_MaxAckedAheadPerPartition t) (t_CreatedAt t) ""
    (t_Role t) (t_Children t) (t_Parent t) (t_AttachEpoch t) (t_FanoutDelayMs t)
    (t_AttachOffsets t) (t_Remote t).

Definition releaseOwnedTopics (username : string) (b : buckets) : buckets * list string :=
  let owned := topicsOwnedBy b username in
  (foldl (λ b t, putTopicRecord (clear_owner t) b) b owned, t_Name <$> owned).

Definition applyDeleteUserReleaseTopics (username : string) (b : buckets) : handled :=
  let! b := deleteUserRecord username b in
  let '(b, released) := releaseOwnedTopics username b in
  Ok (b, BUsers :: (BTopic <$> released)).
