(* ===== verification/FsmRemotes.v ===== *)
(** * The state machine's remote handlers

    [fsm_apply_remotes.go] (the registry of remote clusters),
    [fsm_apply_remote_child.go] (remote children's stubs) and the value
    rules they use from [internal/domain/remote] and
    [internal/domain/topic/remote_link.go].

    Two library answers are arguments: [isPrint], the character class of
    [unicode.IsPrint] (the Unicode tables), and [pemAnchor], the SHA-512
    digest of the certificates of a non-empty PEM bundle ([crypto/sha512]
    and [encoding/pem]), [None] for a bundle that holds anything else. *)

From S2P Require Import Prelude Decimal Keys Json Meta Versions FsmTopics.

Record lib := Lib { isPrint : Z → bool; pemAnchor : string → option string }.

(** A handler that commits and answers: a refusal can still commit (the
    seal count). *)
Abbreviation answered := (result err (buckets * list bump * option err)).

(** ** Value rules *)

Definition MaxRemotes : Z := 64.
Definition SealCap : Z := 2 ^ 30.
Definition EnvelopeVersion : Z := 1.

Definition is_lower (c : ascii) : bool := in_bytes 97 122 c.

(** [^\\[a-z\\]\\[a-z0-9-\\]{0,62}$]. *)
Definition ValidateName (name : string) : bool :=
  match chars name with
  | c :: r => is_lower c && (length r <=? 62)%nat
              && forallb (λ c, is_lower c || Dec.is_digit c || (byte_val c =? 45)) r
  | [] => false
  end.

Definition DefaultLimits : Limits := MkLimits 16 30000 30000 300000 60000 "none".

Definition or_default (x d : Z) : Z := if x =? 0 then d else x.

Definition WithDefaults (l : Limits) : Limits :=
  let d := DefaultLimits in
  MkLimits (or_default (l_MaxInFlight l) (l_MaxInFlight d))
    (or_default (l_RequestTimeoutMs l) (l_RequestTimeoutMs d))
    (or_default (l_IdleConnTimeoutMs l) (l_IdleConnTimeoutMs d))
    (or_default (l_ConnMaxAgeMs l) (l_ConnMaxAgeMs d))
    (or_default (l_CheckIntervalMs l) (l_CheckIntervalMs d))
    (if decide (l_Compression l = "") then l_Compression d else l_Compression l).

Definition within (lo hi x : Z) : bool := (lo <=? x) && (x <=? hi).

Definition Limits_Validate (l : Limits) : bool :=
  let l := WithDefaults l in
  within 1 256 (l_MaxInFlight l) && within 5000 120000 (l_RequestTimeoutMs l)
  && within 1000 300000 (l_IdleConnTimeoutMs l) && within 10000 3600000 (l_ConnMaxAgeMs l)
  && within 10000 3600000 (l_CheckIntervalMs l)
  && bool_decide (l_Compression l = "none" ∨ l_Compression l = "zstd").

Record LimitsPatch := MkLimitsPatch {
  lp_MaxInFlight : option Z;
  lp_RequestTimeoutMs : option Z;
  lp_IdleConnTimeoutMs : option Z;
  lp_ConnMaxAgeMs : option Z;
  lp_CheckIntervalMs : option Z;
  lp_Compression : option string;
}.

Definition Limits_Apply (l : Limits) (p : LimitsPatch) : Limits :=
  MkLimits (default (l_MaxInFlight l) (lp_MaxInFlight p))
    (default (l_RequestTimeoutMs l) (lp_RequestTimeoutMs p))
    (default (l_IdleConnTimeoutMs l) (lp_IdleConnTimeoutMs p))
    (default (l_ConnMaxAgeMs l) (lp_ConnMaxAgeMs p))
    (default (l_CheckIntervalMs l) (lp_CheckIntervalMs p))
    (default (l_Compression l) (lp_Compression p)).

Definition LimitsPatch_Validate (p : LimitsPatch) : bool :=
  let l := Limits_Apply (WithDefaults (MkLimits 0 0 0 0 0 "")) p in
  if decide (lp_MaxInFlight p = Some 0 ∨ lp_RequestTimeoutMs p = Some 0 ∨ lp_IdleConnTimeoutMs p = Some 0
             ∨ lp_ConnMaxAgeMs p = Some 0 ∨ lp_CheckIntervalMs p = Some 0 ∨ lp_Compression p = Some "")
  then false else Limits_Validate l.

(** What a ciphertext is bound to. *)
Record SealedTuple := MkTuple {
  st_Name : string;
  st_ID : string;
  st_URL : string;
  st_Username : string;
  st_TrustAnchor : string;
}.

#[global] Instance SealedTuple_eq_dec : EqDecision SealedTuple.
Proof. solve_decision. Defined.

Definition TrustAnchor (L : lib) (caPEM : string) : option string :=
  if decide (caPEM = "") then Some "system-roots" else pemAnchor L caPEM.

Definition TupleOf (L : lib) (r : RemoteRecord) : option SealedTuple :=
  anchor ← TrustAnchor L (r_CAPEM r);
  Some (MkTuple (r_Name r) (r_ID r) (r_URL r) (r_Username r) anchor).

Definition tupleEqual (a b : SealedTuple) : bool := bool_decide (a = b).

Definition sealedEnvelope (e : Envelope) : bool :=
  (env_V e =? EnvelopeVersion) && (slen (env_KV e) =? 16) && (0 <? slen (env_CT e)).

Definition reservedRemoteKey (k : string) : bool := has_prefix "_" k.

(** ** Registry access *)

Definition readRemoteKeys (b : buckets) : RemoteKeys := default (MkKeys None ∅) (remote_keys b).

Definition getRemoteRaw (b : buckets) (name : string) : result err RemoteRecord :=
  if bool_decide (name = "") || reservedRemoteKey name then Err ErrRemoteNotFound else
  match remotes b !! name with Some r => Ok r | None => Err ErrRemoteNotFound end.

Definition remoteExists (b : buckets) (name : string) : bool :=
  if bool_decide (name = "") || reservedRemoteKey name then false
  else bool_decide (is_Some (remotes b !! name)).

Definition countRemotes (b : buckets) : Z :=
  Z.of_nat (size (filter (λ kv, reservedRemoteKey kv.1 = false) (remotes b))).

Definition putRemote (name : string) (r : RemoteRecord) (b : buckets) : buckets :=
  set_remotes (<[name := r]> (remotes b)) b.

(** The keys with one more seal under [kv], and the count before it. *)
Definition countSeal (keys : RemoteKeys) (kv : string) (sealedAtMs : Z) : RemoteKeys * Z :=
  let v := k_Versions keys !! kv in
  let prior := match v with Some v => kv_Seals v | None => 0 end in
  let first := match v with Some v => kv_FirstSealedAtMs v | None => sealedAtMs end in
  (MkKeys (k_Salt keys) (<[kv := MkKeyVersion (u64 (prior + 1)) first]> (k_Versions keys)), prior).

(** ** Registry handlers *)

Record PutRemoteOp := MkPutRemote {
  pr_Record : RemoteRecord;
  pr_Salt : string;
  pr_SealedAtMs : Z;
  pr_Actor : string;
}.

(** The refusal decided inside the transaction of [applyPutRemote]. *)
Definition put_remote_refusal (b : buckets) (keys : RemoteKeys) (prior : Z) (op : PutRemoteOp) : option err :=
  let clash := match k_Salt keys with
               | None => bool_decide (pr_Salt op = "")
               | Some s => negb (bool_decide (pr_Salt op = "")) && negb (bool_decide (s = pr_Salt op))
               end in
  if clash then Some ErrRemoteSaltRace
  else if SealCap <=? prior then Some ErrRemoteKeyExhausted
  else match remotes b !! r_Name (pr_Record op) with
       | Some _ => Some ErrRemoteExists
       | None => if MaxRemotes <=? countRemotes b then Some ErrRemoteLimit else None
       end.

Definition applyPutRemote (op : PutRemoteOp) (b : buckets) : answered :=
  let rec := pr_Record op in
  if negb (ValidateName (r_Name rec)) || bool_decide (r_ID rec = "") || negb (sealedEnvelope (r_Credential rec))
  then Err ErrInvalidArgument else
  let '(keys, prior) := countSeal (readRemoteKeys b) (env_KV (r_Credential rec)) (pr_SealedAtMs op) in
  match put_remote_refusal b keys prior op with
  | Some e => Ok (set_remote_keys (Some keys) b, [], Some e)
  | None =>
      let salt := match k_Salt keys with None => Some (pr_Salt op) | Some s => Some s end in
      let rec := MkRemoteRecord (r_Name rec) (r_ID rec) (r_URL rec) (r_Username rec) (r_Credential rec) 1
                   (r_Fingerprint rec) (pr_SealedAtMs op) (pr_Actor op) (r_CAPEM rec) (r_Limits rec) 1
                   (pr_SealedAtMs op) (pr_Actor op) in
      Ok (set_remote_keys (Some (MkKeys salt (k_Versions keys))) (putRemote (r_Name rec) rec b),
          [BRemotes], None)
  end.

Record RemoteFields := MkFields {
  rf_URL : option string;
  rf_Username : option string;
  rf_CAPEM : option string;
  rf_Limits : option LimitsPatch;
}.

Record UpdateRemoteOp := MkUpdateRemote {
  ur_Name : string;
  ur_Fields : RemoteFields;
  ur_Credential : option Envelope;
  ur_Fingerprint : string;
  ur_SealedAgainst : option SealedTuple;
  ur_ExpectCredentialVersion : option Z;
  ur_Reseal : bool;
  ur_SealedAtMs : Z;
  ur_Actor : string;
}.

Definition applyRemoteFields (rec : RemoteRecord) (f : RemoteFields) : result err RemoteRecord :=
  let with_limits l :=
    MkRemoteRecord (r_Name rec) (r_ID rec) (default (r_URL rec) (rf_URL f))
      (default (r_Username rec) (rf_Username f)) (r_Credential rec) (r_CredentialVersion rec)
      (r_Fingerprint rec) (r_PasswordSetAtMs rec) (r_PasswordSetBy rec)
      (default (r_CAPEM rec) (rf_CAPEM f)) l (r_Revision rec) (r_CreatedAtMs rec) (r_CreatedBy rec) in
  match rf_Limits f with
  | None => Ok (with_limits (r_Limits rec))
  | Some p => if LimitsPatch_Validate p then Ok (with_limits (Limits_Apply (WithDefaults (r_Limits rec)) p))
              else Err ErrInvalidArgument
  end.

Definition checkRemoteUpdate (L : lib) (rec next : RemoteRecord) (op : UpdateRemoteOp) (priorSeals : Z)
    : option err :=
  let bound := negb (bool_decide (r_URL next = r_URL rec ∧ r_Username next = r_Username rec
                                  ∧ r_CAPEM next = r_CAPEM rec)) in
  let changed := ErrRemoteChanged (r_Revision rec) in
  let stale := match ur_ExpectCredentialVersion op with
               | Some v => negb (v =? r_CredentialVersion rec)
               | None => false
               end in
  match ur_Credential op with
  | None =>
      if negb bound && match rf_Limits (ur_Fields op) with None => true | Some _ => false end then Some ErrInvalidArgument
      else if bound then Some changed
      else if stale then Some changed else None
  | Some _ =>
      if stale then Some changed else
      match TupleOf L next, ur_SealedAgainst op with
      | Some tuple, Some sealed =>
          if negb (tupleEqual tuple sealed) then Some changed
          else if SealCap <=? priorSeals then Some ErrRemoteKeyExhausted else None
      | _, _ => Some changed
      end
  end.

Definition updated_remote (rec next : RemoteRecord) (op : UpdateRemoteOp) : RemoteRecord :=
  let rev := u64 (r_Revision rec + 1) in
  match ur_Credential op with
  | None =>
      MkRemoteRecord (r_Name next) (r_ID next) (r_URL next) (r_Username next) (r_Credential next)
        (r_CredentialVersion next) (r_Fingerprint next) (r_PasswordSetAtMs next) (r_PasswordSetBy next)
        (r_CAPEM next) (r_Limits next) rev (r_CreatedAtMs next) (r_CreatedBy next)
  | Some c =>
      MkRemoteRecord (r_Name next) (r_ID next) (r_URL next) (r_Username next) c
        (u64 (r_CredentialVersion rec + 1)) (ur_Fingerprint op)
        (if ur_Reseal op then r_PasswordSetAtMs next else ur_SealedAtMs op)
        (if ur_Reseal op then r_PasswordSetBy next else ur_Actor op)
        (r_CAPEM next) (r_Limits next) rev (r_CreatedAtMs next) (r_CreatedBy next)
  end.

Definition applyUpdateRemote (L : lib) (op : UpdateRemoteOp) (b : buckets) : answered :=
  let malformed := match ur_Credential op with
                   | Some c => negb (sealedEnvelope c) || match ur_SealedAgainst op with None => true | Some _ => false end
                   | None => false
                   end in
  if malformed then Err ErrInvalidArgument else
  let '(b, prior) :=
    match ur_Credential op with
    | Some c => let '(keys, prior) := countSeal (readRemoteKeys b) (env_KV c) (ur_SealedAtMs op) in
                (set_remote_keys (Some keys) b, prior)
    | None => (b, 0)
    end in
  match getRemoteRaw b (ur_Name op) with
  | Err e => Ok (b, [], Some e)
  | Ok rec =>
      match applyRemoteFields rec (ur_Fields op) with
      | Err e => Ok (b, [], Some e)
      | Ok next =>
          match checkRemoteUpdate L rec next op prior with
          | Some e => Ok (b, [], Some e)
          | None => Ok (putRemote (r_Name rec) (updated_remote rec next op) b, [BRemotes], None)
          end
      end
  end.

(** ** Stubs *)

(** [forEachStub]: the stubs in key order. *)
Definition stubs (b : buckets) : list Topic :=
  filter (λ t, IsRemoteChild t = true) (in_key_order (topics b)).*2.

Definition names_remote (name : string) (t : Topic) : bool :=
  match t_Remote t with Some l => bool_decide (rl_Name l = name) | None => false end.

Definition links_target (name topicName : string) (t : Topic) : bool :=
  match t_Remote t with
  | Some l => bool_decide (rl_Name l = name ∧ rl_Topic l = topicName)
  | None => false
  end.

Definition stubLinkingTarget (b : buckets) (remoteName remoteTopic : string) : string :=
  default "" (t_Name <$> List.find (links_target remoteName remoteTopic) (stubs b)).

Definition remoteChildrenNaming (b : buckets) (remoteName : string) : list string :=
  (λ t, t_Parent t +:+ "/" +:+ t_Name t) <$> filter (λ t, names_remote remoteName t = true) (stubs b).

Definition applyDeleteRemote (name : string) (force : bool) (b : buckets) : answered :=
  match getRemoteRaw b name with
  | Err e => Ok (b, [], Some e)
  | Ok _ =>
      match remoteChildrenNaming b name, force with
      | l :: ls, false => Ok (b, [], Some (ErrRemoteInUse (l :: ls)))
      | _, _ => Ok (set_remotes (delete name (remotes b)) b, [BRemotes], None)
      end
  end.

Record AttachRemoteChildOp := MkAttachRemote {
  ar_Parent : string;
  ar_ParentID : string;
  ar_Stub : string;
  ar_StubID : string;
  ar_Epoch : string;
  ar_DelayMs : Z;
  ar_Offsets : list Z;
  ar_Remote : RemoteLink;
  ar_CreatedAt : Z;
}.

Definition checkAttachRemoteChildOp (op : AttachRemoteChildOp) : result err unit :=
  if decide (ar_Parent op = "" ∨ ar_Stub op = "" ∨ rl_Name (ar_Remote op) = "" ∨ rl_Topic (ar_Remote op) = "")
  then Err ErrInvalidArgument
  else if decide (ar_Parent op = ar_Stub op) then Err ErrFanoutRoleConflict
  else if decide (ar_Epoch op = "") then Err ErrInvalidArgument
  else if ar_DelayMs op <? 0 then Err ErrInvalidArgument
  else if MaxFanoutDelayMs <? ar_DelayMs op then Err ErrFanoutDelayTooLong
  else if (rl_Lanes (ar_Remote op) <? 0) || (MaxRemoteLanes <? rl_Lanes (ar_Remote op)) then Err ErrInvalidArgument
  else if negb (ValidRemoteFrom (rl_From (ar_Remote op))) then Err ErrInvalidArgument
  else Ok tt.

Definition countRemoteChildren (b : buckets) (parent : Topic) : Z :=
  Z.of_nat (length (filter (λ c, match topics b !! c with
                                 | Some t => IsRemoteChild t
                                 | None => false
                                 end = true) (t_Children parent))).

(** The link as an attach stores it. *)
Definition attached_link (l : RemoteLink) : RemoteLink :=
  MkRemoteLink (rl_Name l) (rl_Topic l) (rl_TargetID l)
    (if decide (rl_From l = "") then "attach" else rl_From l)
    (EffectiveLanes l) false "" "" 0 ∅ (rl_CreatedBy l).

Definition new_stub (op : AttachRemoteChildOp) : Topic :=
  MkTopic (ar_Stub op) (ar_StubID op) 0 0 0 0 0 (ar_CreatedAt op) "" RoleChild []
    (ar_Parent op) (ar_Epoch op) (ar_DelayMs op) (ar_Offsets op) (Some (attached_link (ar_Remote op))).

Definition applyAttachRemoteChild (op : AttachRemoteChildOp) (b : buckets) : handled :=
  let! _ := checkAttachRemoteChildOp op in
  let! parent := getTopicRecord b (ar_Parent op) in
  let! _ := expectIncarnation parent (ar_ParentID op) in
  if IsChild parent then Err ErrFanoutRoleConflict
  else if negb (remoteExists b (rl_Name (ar_Remote op))) then Err ErrRemoteChildConflict
  else match topics b !! ar_Stub op with
  | Some _ => Err ErrAlreadyExists
  | None =>
      if MaxChildrenPerParent <=? Z.of_nat (length (t_Children parent)) then Err ErrFanoutChildLimit
      else if MaxRemoteChildrenPerParent <=? countRemoteChildren b parent then Err ErrRemoteChildLimit
      else
        let! _ := checkRemoteSourceRetention (t_RetentionMs parent) in
        let! _ := checkDelayAgainstRetention (ar_DelayMs op) (t_RetentionMs parent) in
        if decide (stubLinkingTarget b (rl_Name (ar_Remote op)) (rl_Topic (ar_Remote op)) ≠ "")
        then Err ErrRemoteTargetLinked
        else
          let parent := set_role_children RoleParent (t_Children parent ++ [ar_Stub op]) parent in
          Ok (putTopicRecord (new_stub op) (putTopicRecord parent b),
              [BTopic (ar_Parent op); BTopic (ar_Stub op)])
  end.

(** *** Link state *)

Record RemotePauseState := MkPause { ps_Paused : bool; ps_Reason : string; ps_By : string; ps_AtMs : Z }.

Record RemoteChildStateOp := MkStateOp {
  so_Parent : string;
  so_Stub : string;
  so_Epoch : string;
  so_Pause : option RemotePauseState;
  so_TargetID : option string;
  so_Lanes : option Z;
  so_Skip : option (Z * Z);
}.

Definition ValidateRemotePauseReason (L : lib) (reason : string) : bool :=
  if MaxRemotePauseReasonBytes <? slen reason then false else
  match runes_of (String.length reason) (chars reason) with
  | Some rs => forallb (isPrint L) rs
  | None => false
  end.

Definition set_pause (p : bool) (reason by_ : string) (at_ : Z) (l : RemoteLink) : RemoteLink :=
  MkRemoteLink (rl_Name l) (rl_Topic l) (rl_TargetID l) (rl_From l) (rl_Lanes l) p reason by_ at_
    (rl_Skip l) (rl_CreatedBy l).
Definition set_link_target (id : string) (l : RemoteLink) : RemoteLink :=
  MkRemoteLink (rl_Name l) (rl_Topic l) id (rl_From l) (rl_Lanes l) (rl_Paused l) (rl_PauseReason l)
    (rl_PausedBy l) (rl_PausedAtMs l) (rl_Skip l) (rl_CreatedBy l).
Definition set_lanes (n : Z) (l : RemoteLink) : RemoteLink :=
  MkRemoteLink (rl_Name l) (rl_Topic l) (rl_TargetID l) (rl_From l) n (rl_Paused l) (rl_PauseReason l)
    (rl_PausedBy l) (rl_PausedAtMs l) (rl_Skip l) (rl_CreatedBy l).
Definition set_skip (s : gmap Z (list Z)) (l : RemoteLink) : RemoteLink :=
  MkRemoteLink (rl_Name l) (rl_Topic l) (rl_TargetID l) (rl_From l) (rl_Lanes l) (rl_Paused l)
    (rl_PauseReason l) (rl_PausedBy l) (rl_PausedAtMs l) s (rl_CreatedBy l).

Definition set_remote (l : RemoteLink) (t : Topic) : Topic :=
  MkTopic (t_Name t) (t_ID t) (t_Partitions t) (t_RetentionMs t) (t_VisibilityTimeoutMs t)
    (t_MaxInFlightPerPartition t) (t_MaxAckedAheadPerPartition t) (t_CreatedAt t) (t_Owner t)
    (t_Role t) (t_Children t) (t_Parent t) (t_AttachEpoch t) (t_FanoutDelayMs t)
    (t_AttachOffsets t) (Some l).

(** The link with the fields the operation names changed. *)
Definition changed_link (L : lib) (op : RemoteChildStateOp) (link : RemoteLink) : result err RemoteLink :=
  let! link := match so_Pause op with
    | None => Ok link
    | Some p =>
        if ps_Paused p then
          if ValidateRemotePauseReason L (ps_Reason p)
          then Ok (set_pause true (ps_Reason p) (ps_By p) (ps_AtMs p) link)
          else Err ErrInvalidArgument
        else Ok (set_pause false "" "" 0 link)
    end in
  let link := match so_TargetID op with Some id => set_link_target id link | None => link end in
  let! link := match so_Lanes op with
    | None => Ok link
    | Some n => if (n <? MinRemoteLanes) || (MaxRemoteLanes <? n) then Err ErrInvalidArgument
                else Ok (set_lanes n link)
    end in
  match so_Skip op with
  | None => Ok link
  | Some (p, off) => if (p <? 0) || (off <? 0) then Err ErrInvalidArgument
                     else Ok (set_skip (WithSkip (rl_Skip link) p off) link)
  end.

Definition applySetRemoteChildState (L : lib) (op : RemoteChildStateOp) (b : buckets) : handled :=
  let! stub := getTopicRecord b (so_Stub op) in
  match t_Remote stub with
  | None => Err ErrNotFound
  | Some link =>
      if negb (IsRemoteChild stub) || negb (bool_decide (t_Parent stub = so_Parent op)) then Err ErrNotFound
      else if decide (t_AttachEpoch stub ≠ so_Epoch op) then Err ErrRemoteChildStale
      else
        let! link := changed_link L op link in
        Ok (putTopicRecord (set_remote link stub) b, [BTopic (so_Stub op)])
  end.
