(* ===== verification/Fsm.v ===== *)
(** * The Raft state machine

    [fsm.go] (the entry types and [Apply]), [command.go],
    [fsm_failstop.go] and [fsm_applied.go]: one log entry at a time, each
    entry's effects committed with its index, replayed entries skipped, and
    the machine stopped rather than diverged on an entry it cannot apply or
    a write the disk refuses. *)

From S2P Require Import Prelude Decimal Keys Json Meta Versions FsmTopics FsmCluster FsmRemotes.

(** ** Commands *)

(** The entry types, with their decoded payloads, in the order of their
    numbers. *)
Inductive command :=
| OpCreateTopic (t : Topic)
| OpUpdateTopic (t : Topic)
| OpDeleteTopic (name : string)
| OpPutSchema (p : schemaPayload)
| OpAssignPartition (a : Assignment)
| OpMemberJoin (m : Member)
| OpMemberHeartbeat (id : string) (at_ : Z)
| OpMemberDead (id : string)
| OpCreateUser (u : User)
| OpUpdateUser (u : User)
| OpDeleteUser (username : string)
| OpSeedRootUser (u : User)
| OpAttachChild (p : childLinkPayload)
| OpDetachChild (p : childLinkPayload)
| OpSetAssignmentTarget (t : string) (p : Z) (targetID : string)
| OpCompleteMove (t : string) (p : Z) (expectedOwner targetID : string)
| OpAbortMove (t : string) (p : Z) (expectedTarget : string)
| OpSetMemberDraining (id : string) (draining : bool)
| OpRemoveMember (id : string) (at_ : Z)
| OpReadmitMember (id : string)
| OpSetUserPassword (username hash : string) (at_ : Z)
| OpSetUserGrants (username : string) (grants : list Grant) (at_ : Z)
| OpCreateTopicWith (p : createTopicWithPayload)
| OpUpdateTopicIf (t : Topic) (expectID : string)
| OpDeleteTopicIf (name expectID : string)
| OpPutSchemaIf (p : schemaPayload) (expectID : string)
| OpAttachChildIf (p : childLinkPayload) (parentID childID : string)
| OpDetachChildIf (parent child parentID childID : string)
| OpAssignPartitionIfAbsent (t : string) (p : Z) (ownerID expectID : string)
| OpPruneAssignment (t : string) (p : Z)
| OpMarkMemberDeadIf (id : string) (observed : Z)
| OpDeleteUserReleaseTopics (username : string)
| OpAttachRemoteChild (op : AttachRemoteChildOp)
| OpSetRemoteChildState (op : RemoteChildStateOp)
| OpPutRemote (op : PutRemoteOp)
| OpUpdateRemote (op : UpdateRemoteOp)
| OpDeleteRemote (name : string) (force : bool).

Definition opCode (c : command) : Z :=
  match c with
  | OpCreateTopic _ => 1 | OpUpdateTopic _ => 2 | OpDeleteTopic _ => 3 | OpPutSchema _ => 4
  | OpAssignPartition _ => 5 | OpMemberJoin _ => 6 | OpMemberHeartbeat _ _ => 7 | OpMemberDead _ => 8
  | OpCreateUser _ => 9 | OpUpdateUser _ => 10 | OpDeleteUser _ => 11 | OpSeedRootUser _ => 12
  | OpAttachChild _ => 13 | OpDetachChild _ => 14 | OpSetAssignmentTarget _ _ _ => 15
  | OpCompleteMove _ _ _ _ => 16 | OpAbortMove _ _ _ => 17 | OpSetMemberDraining _ _ => 18
  | OpRemoveMember _ _ => 19 | OpReadmitMember _ => 20 | OpSetUserPassword _ _ _ => 21
  | OpSetUserGrants _ _ _ => 22 | OpCreateTopicWith _ => 23 | OpUpdateTopicIf _ _ => 24
  | OpDeleteTopicIf _ _ => 25 | OpPutSchemaIf _ _ => 26 | OpAttachChildIf _ _ _ => 27
  | OpDetachChildIf _ _ _ _ => 28 | OpAssignPartitionIfAbsent _ _ _ _ => 29
  | OpPruneAssignment _ _ => 30 | OpMarkMemberDeadIf _ _ => 31 | OpDeleteUserReleaseTopics _ => 32
  | OpAttachRemoteChild _ => 33 | OpSetRemoteChildState _ => 34 | OpPutRemote _ => 35
  | OpUpdateRemote _ => 36 | OpDeleteRemote _ _ => 37
  end.

Definition MaxEntryType : Z := 37.

(** A handler that answers with the outcome of its transaction. *)
Definition plain (h : handled) : answered :=
  match h with Ok (b, bs) => Ok (b, bs, None) | Err e => Err e end.

Definition dispatch (L : lib) (bud : schemaBudgets) (c : command) (b : buckets) : answered :=
  match c with
  | OpCreateTopic t => plain (applyCreateTopic t b)
  | OpUpdateTopic t => plain (applyUpdateTopic t b)
  | OpDeleteTopic n => plain (applyDeleteTopic n b)
  | OpPutSchema p => plain (applyPutSchema p b)
  | OpAssignPartition a => plain (applyAssignPartition a b)
  | OpMemberJoin m => plain (applyMemberJoin m b)
  | OpMemberHeartbeat id at_ => plain (applyMemberHeartbeat id at_ b)
  | OpMemberDead id => plain (applyMemberDead id b)
  | OpCreateUser u => plain (applyCreateUser u b)
  | OpUpdateUser u => plain (applyUpdateUser u b)
  | OpDeleteUser u => plain (applyDeleteUser u b)
  | OpSeedRootUser u => plain (applySeedRootUser u b)
  | OpAttachChild p => plain (applyAttachChild p b)
  | OpDetachChild p => plain (applyDetachChild p b)
  | OpSetAssignmentTarget t p g => plain (applySetAssignmentTarget t p g b)
  | OpCompleteMove t p e g => plain (applyCompleteMove t p e g b)
  | OpAbortMove t p g => plain (applyAbortMove t p g b)
  | OpSetMemberDraining id d => plain (applySetMemberDraining id d b)
  | OpRemoveMember id at_ => plain (applyRemoveMember id at_ b)
  | OpReadmitMember id => plain (applyReadmitMember id b)
  | OpSetUserPassword u h at_ => plain (applySetUserPassword u h at_ b)
  | OpSetUserGrants u g at_ => plain (applySetUserGrants u g at_ b)
  | OpCreateTopicWith p => plain (applyCreateTopicWith bud p b)
  | OpUpdateTopicIf t id => plain (applyUpdateTopicIf t id b)
  | OpDeleteTopicIf n id => plain (applyDeleteTopicIf n id b)
  | OpPutSchemaIf p id => plain (applyPutSchemaIf bud p id b)
  | OpAttachChildIf p pid cid => plain (applyAttachChildIf bud p pid cid b)
  | OpDetachChildIf p c pid cid => plain (applyDetachChildIf p c pid cid b)
  | OpAssignPartitionIfAbsent t p o id => plain (applyAssignPartitionIfAbsent t p o id b)
  | OpPruneAssignment t p => plain (applyPruneAssignment t p b)
  | OpMarkMemberDeadIf id obs => plain (applyMarkMemberDeadIf id obs b)
  | OpDeleteUserReleaseTopics u => plain (applyDeleteUserReleaseTopics u b)
  | OpAttachRemoteChild op => plain (applyAttachRemoteChild op b)
  | OpSetRemoteChildState op => plain (applySetRemoteChildState L op b)
  | OpPutRemote op => applyPutRemote op b
  | OpUpdateRemote op => applyUpdateRemote L op b
  | OpDeleteRemote n f => applyDeleteRemote n f b
  end.

(** The refusals a handler gives before it opens its transaction. *)
Definition refused_early (c : command) : option err :=
  match c with
  | OpCreateTopicWith p => if decide (t_Name (cw_Topic p) = "") then Some ErrInvalidArgument else None
  | OpPutRemote op =>
      if negb (ValidateName (r_Name (pr_Record op))) || bool_decide (r_ID (pr_Record op) = "")
         || negb (sealedEnvelope (r_Credential (pr_Record op)))
      then Some ErrInvalidArgument else None
  | OpUpdateRemote op =>
      match ur_Credential op with
      | Some c => if negb (sealedEnvelope c) || match ur_SealedAgainst op with None => true | Some _ => false end
                  then Some ErrInvalidArgument else None
      | None => None
      end
  | _ => None
  end.

(** ** Entries and the machine *)

(** What a log entry's bytes decode to: no envelope, an entry type this
    build does not know, a known type whose payload does not decode, or a
    command. *)
Inductive body :=
| Garbage
| UnknownType (op : Z)
| BadPayload (op : Z)
| Cmd (c : command).

Record entry := Entry { e_index : Z; e_body : body }.

(** How the database behaves while one entry is applied, retries
    included: the write transaction cannot be opened, it cannot be
    committed, or it commits; and whether a refused entry's index could be
    recorded. *)
Inductive tx_fate := TxNoBegin | TxNoCommit | TxCommits.

Record storage := Storage { st_tx : tx_fate; st_record : bool }.

(** [meta_*] is the [fsm_meta] bucket, [db] the others; both survive a
    restart.  The rest is in memory. *)
Record fsm := MkFsm {
  db : buckets;
  meta_applied : Z;
  meta_maxEntryType : Z;
  applied : Z;
  lastSeen : Z;
  mversion : Z;
  versions : metadataDomainVersions;
  stopped : bool;
}.

Inductive reply :=
| RStopped
| RSkipped
| RAnswer (e : option err).

Definition set_lastSeen (i : Z) (f : fsm) : fsm :=
  MkFsm (db f) (meta_applied f) (meta_maxEntryType f) (applied f) i (mversion f) (versions f) (stopped f).

Definition stop (f : fsm) : fsm :=
  MkFsm (db f) (meta_applied f) (meta_maxEntryType f) (applied f) (lastSeen f) (mversion f) (versions f) true.

(** [putFSMMeta] in the entry's own transaction or in [recordConsumed]'s. *)
Definition consume (io : storage) (index op : Z) (f : fsm) : fsm :=
  MkFsm (db f)
    (if st_record io then index else meta_applied f)
    (if st_record io then Z.max (meta_maxEntryType f) op else meta_maxEntryType f)
    index (lastSeen f) (mversion f) (versions f) (stopped f).

Definition commit (index op : Z) (b : buckets) (bs : list bump) (ok : bool) (f : fsm) : fsm :=
  MkFsm b index (Z.max (meta_maxEntryType f) op) index (lastSeen f)
    (if ok then mversion f + 1 else mversion f) (apply_bumps (versions f) bs) (stopped f).

Section Machine.
Context (L : lib) (bud : schemaBudgets).

Definition apply_command (io : storage) (index : Z) (c : command) (f : fsm) : fsm * reply :=
  match refused_early c with
  | Some e => (consume io index (opCode c) f, RAnswer (Some e))
  | None =>
      match st_tx io with
      | TxNoBegin => (stop f, RStopped)
      | fate =>
          match dispatch L bud c (db f) with
          | Err e => (consume io index (opCode c) f, RAnswer (Some e))
          | Ok (b, bs, ans) =>
              match fate with
              | TxCommits =>
                  (commit index (opCode c) b bs (match ans with None => true | Some _ => false end) f,
                   RAnswer ans)
              | _ => (stop f, RStopped)
              end
          end
      end
  end.

Definition Apply (io : storage) (e : entry) (f : fsm) : fsm * reply :=
  if stopped f then (f, RStopped) else
  let f := set_lastSeen (e_index e) f in
  if e_index e <=? applied f then (f, RSkipped) else
  match e_body e with
  | Garbage => (consume io (e_index e) 0 f, RAnswer (Some ErrUndecodable))
  | UnknownType _ => (stop f, RStopped)
  | BadPayload op => (consume io (e_index e) op f, RAnswer (Some ErrUndecodable))
  | Cmd c => apply_command io (e_index e) c f
  end.

(** A run of the log, each entry under its own storage behaviour. *)
Definition apply_log (log : list (storage * entry)) (f : fsm) : fsm :=
  foldl (λ f ie, (Apply ie.1 ie.2 f).1) f log.

End Machine.

(** ** Start *)

Definition empty_fsm : fsm := MkFsm empty_buckets 0 0 0 0 0 newMetadataDomainVersions false.

(** [newFSMWith] on a database whose recorded index can be trusted
    ([trustedApplied]): what was on disk, the rest fresh. *)
Definition reopen (f : fsm) : fsm :=
  MkFsm (db f) (meta_applied f) (meta_maxEntryType f) (meta_applied f) 0 0 newMetadataDomainVersions false.
