(* ===== verification/FanInv.v ===== *)
(** * The fan-out invariant

    What [attach], [detach], [delete] and the config updates keep true of
    the topic records: roles are exclusive and fan-out is one level deep,
    the parent's list of children and the children's parent names agree
    both ways, the caps hold, a delay child's parent retains records long
    enough, and every remote target is linked once.  The lemmas give the
    preservation for each change the handlers of [FsmTopics.v],
    [FsmCluster.v] and [FsmRemotes.v] make to the topics bucket. *)

From S2P Require Import Prelude Decimal Keys Json Meta Versions FsmTopics FsmCluster FsmRemotes.

Abbreviation topic_map := (gmap string Topic).

(** The topic a child says it is attached to. *)
Definition parent_of (T : topic_map) (c : string) : option string :=
  t ← T !! c; if IsChild t then Some (t_Parent t) else None.

(** The topics a parent says are attached to it. *)
Definition children_of (T : topic_map) (n : string) : list string :=
  match T !! n with Some t => t_Children t | None => [] end.

Record shape_ok (n : string) (t : Topic) : Prop := {
  sh_name : t_Name t = n;
  sh_colon : no_colon n;
  sh_nonempty : n ≠ "";
  sh_parent : IsParent t = true ↔ t_Children t ≠ [];
  sh_nodup : NoDup (t_Children t);
  sh_cap : Z.of_nat (length (t_Children t)) <= MaxChildrenPerParent;
  sh_child : IsChild t = false → t_Parent t = "" ∧ t_FanoutDelayMs t = 0;
  sh_remote : t_Remote t ≠ None → IsChild t = true ∧ t_Partitions t = 0;
  sh_delay : 0 <= t_FanoutDelayMs t <= MaxFanoutDelayMs;
}.

(** A parent that retains records for the delay of a child and the outage
    floor, or forever. *)
Definition buffers (retention delay : Z) : Prop :=
  delay = 0 ∨ retention = 0 ∨ delay + MinRetentionMs <= retention.

Definition is_stub (T : topic_map) (c : string) : bool :=
  match T !! c with Some t => IsRemoteChild t | None => false end.

(** How many of the names are stubs. *)
Definition stubs_in (T : topic_map) (l : list string) : Z :=
  Z.of_nat (length (filter (λ c, is_stub T c = true) l)).

Definition target_of (t : Topic) : option (string * string) :=
  (λ l, (rl_Name l, rl_Topic l)) <$> t_Remote t.

Record fan_ok (T : topic_map) : Prop := {
  fo_shape : map_Forall shape_ok T;
  fo_links : ∀ c n, parent_of T c = Some n ↔ c ∈ children_of T n;
  fo_delay : ∀ c tc n tn, T !! c = Some tc → T !! n = Some tn → c ∈ t_Children tn →
    buffers (t_RetentionMs tn) (t_FanoutDelayMs tc);
  fo_floor : ∀ c n tn, T !! n = Some tn → c ∈ t_Children tn → is_stub T c = true →
    t_RetentionMs tn = 0 ∨ MinRemoteSourceRetentionMs <= t_RetentionMs tn;
  fo_remotes : ∀ n tn, T !! n = Some tn →
    stubs_in T (t_Children tn) <= MaxRemoteChildrenPerParent;
  fo_target : ∀ c c' tc tc' x, T !! c = Some tc → T !! c' = Some tc' →
    target_of tc = Some x → target_of tc' = Some x → c = c';
}.

(** ** Roles *)

Lemma role_excl t : IsParent t = true → IsChild t = false.
Proof. unfold IsParent, IsChild. rewrite !bool_decide_eq_true, bool_decide_eq_false. by intros ->. Qed.

Lemma child_no_children n t : shape_ok n t → IsChild t = true → t_Children t = [].
Proof.
  intros Hs Hc. destruct (t_Children t) as [|x l] eqn:E; [done|].
  assert (IsParent t = true) as Hp by (apply (sh_parent _ _ Hs); by rewrite E).
  apply role_excl in Hp. congruence.
Qed.

Lemma role_of r t : t_Role t = r → r ≠ "" → EffectiveRole t = r.
Proof. intros Hr Hne. unfold EffectiveRole. rewrite decide_False; congruence. Qed.

Lemma remote_child_iff n t : shape_ok n t → IsRemoteChild t = true ↔ t_Remote t ≠ None.
Proof.
  intros Hs. unfold IsRemoteChild. destruct (t_Remote t) eqn:E; [|split; [done|by intros []]].
  split; [done|]. intros _. apply (sh_remote _ _ Hs). by rewrite E.
Qed.

(** ** Lookups *)

Lemma parent_of_some T c n :
  parent_of T c = Some n ↔ ∃ t, T !! c = Some t ∧ IsChild t = true ∧ t_Parent t = n.
Proof.
  unfold parent_of. destruct (T !! c) as [t|]; simpl; [|naive_solver].
  split.
  - intros Hp. exists t. destruct (IsChild t); [by simplify_eq|done].
  - intros (t0 & [= <-] & -> & ->). done.
Qed.

Lemma parent_of_insert n t T c :
  parent_of (<[n := t]> T) c =
    if decide (n = c) then (if IsChild t then Some (t_Parent t) else None) else parent_of T c.
Proof. unfold parent_of. rewrite lookup_insert. by case_decide. Qed.

Lemma children_of_insert n t T m :
  children_of (<[n := t]> T) m = if decide (n = m) then t_Children t else children_of T m.
Proof. unfold children_of. rewrite lookup_insert. by case_decide. Qed.

Lemma is_stub_insert n t T c :
  is_stub (<[n := t]> T) c = if decide (n = c) then IsRemoteChild t else is_stub T c.
Proof. unfold is_stub. rewrite lookup_insert. by case_decide. Qed.

Lemma children_some T c n : c ∈ children_of T n ↔ ∃ t, T !! n = Some t ∧ c ∈ t_Children t.
Proof.
  unfold children_of. destruct (T !! n) as [t|]; [naive_solver|].
  rewrite elem_of_nil. naive_solver.
Qed.

(** A linked child exists, is a child, and is linked nowhere else. *)
Lemma linked_child T c n tn :
  fan_ok T → T !! n = Some tn → c ∈ t_Children tn →
  c ≠ n ∧ ∃ tc, T !! c = Some tc ∧ IsChild tc = true ∧ t_Parent tc = n ∧ t_Children tc = [].
Proof.
  intros Hf Hn Hc. assert (parent_of T c = Some n) as (tc & Htc & Hch & Hp)%parent_of_some.
  { apply (fo_links _ Hf), children_some. eauto. }
  pose proof (child_no_children c tc (fo_shape _ Hf _ _ Htc) Hch) as Hnil.
  split; [|eauto]. intros ->. simplify_eq. rewrite Hnil in Hc. by apply elem_of_nil in Hc.
Qed.

(** A child's parent exists and lists it. *)
Lemma child_linked T c tc :
  fan_ok T → T !! c = Some tc → IsChild tc = true →
  ∃ tn, T !! t_Parent tc = Some tn ∧ c ∈ t_Children tn.
Proof.
  intros Hf Hc Hch. apply children_some, (fo_links _ Hf), parent_of_some. eauto.
Qed.

(** ** Creating and reconfiguring *)

(** A record as a create stores it, before any link. *)
Record fresh_topic (t : Topic) : Prop := {
  fr_role : t_Role t = "" ∨ t_Role t = RoleStandalone;
  fr_children : t_Children t = [];
  fr_parent : t_Parent t = "";
  fr_delay : t_FanoutDelayMs t = 0;
  fr_remote : t_Remote t = None;
}.

Lemma standalone_roles t : EffectiveRole t = RoleStandalone → IsParent t = false ∧ IsChild t = false.
Proof. unfold IsParent, IsChild. by intros ->. Qed.

Lemma fresh_roles t : fresh_topic t → IsParent t = false ∧ IsChild t = false.
Proof.
  intros [Hr _ _ _ _]. apply standalone_roles. unfold EffectiveRole.
  destruct Hr as [-> | ->]; by case_decide.
Qed.

Lemma fresh_shape n t : fresh_topic t → t_Name t = n → no_colon n → n ≠ "" → shape_ok n t.
Proof.
  intros Hf Hn Hc Hne. destruct (fresh_roles t Hf) as [Hp Hch]. destruct Hf as [_ Hcs Hpa Hd Hr].
  split; rewrite ?Hcs, ?Hpa, ?Hd, ?Hr, ?Hp, ?Hch; try done.
  apply NoDup_nil_2.
Qed.

Lemma absent_unlinked T n :
  fan_ok T → T !! n = None → (∀ c, parent_of T c ≠ Some n) ∧ (∀ m, n ∉ children_of T m).
Proof.
  intros Hf Hn. split.
  - intros c Hc. apply (fo_links _ Hf), children_some in Hc as (t & Ht & _). congruence.
  - intros m Hm. apply (fo_links _ Hf), parent_of_some in Hm as (t & Ht & _). congruence.
Qed.

Lemma stubs_in_ext T T' l :
  (∀ c, c ∈ l → is_stub T' c = is_stub T c) → stubs_in T' l = stubs_in T l.
Proof.
  intros Heq. unfold stubs_in. do 2 f_equal. induction l as [|x l IH]; [done|].
  rewrite !filter_cons, (Heq x) by left. rewrite IH by (intros; apply Heq; by right). done.
Qed.

Lemma fan_create T t :
  fan_ok T → fresh_topic t → T !! t_Name t = None → no_colon (t_Name t) → t_Name t ≠ "" →
  fan_ok (<[t_Name t := t]> T).
Proof.
  intros Hf Hfr Hn Hcol Hne. set (n := t_Name t) in *.
  destruct (fresh_roles t Hfr) as [Hp Hch]. destruct (absent_unlinked T n Hf Hn) as [Hnp Hnc].
  pose proof (fr_children _ Hfr) as Hcs. pose proof (fr_remote _ Hfr) as Hrem.
  assert (IsRemoteChild t = false) as Hrc by (unfold IsRemoteChild; by rewrite Hrem).
  split.
  - apply map_Forall_insert_2; [by apply fresh_shape|apply Hf].
  - intros c m. rewrite parent_of_insert, children_of_insert, Hch, Hcs.
    case_decide as Hnc1; case_decide as Hnm; subst.
    + rewrite elem_of_nil. done.
    + split; [done|]. intros H. by apply Hnc in H.
    + rewrite elem_of_nil. split; [|done]. intros H. by apply Hnp in H.
    + apply Hf.
  - intros c tc m tm Hc Hm Hin. apply lookup_insert_Some in Hm as [[<- <-]|[Hnm Hm]].
    { rewrite Hcs in Hin. by apply elem_of_nil in Hin. }
    apply lookup_insert_Some in Hc as [[<- <-]|[_ Hc]]; [|by eapply (fo_delay _ Hf)].
    exfalso. apply (Hnc m), children_some. eauto.
  - intros c m tm Hm Hin. rewrite is_stub_insert. apply lookup_insert_Some in Hm as [[<- <-]|[Hnm Hm]].
    { rewrite Hcs in Hin. by apply elem_of_nil in Hin. }
    case_decide; [by rewrite Hrc|]. by eapply (fo_floor _ Hf).
  - intros m tm Hm. apply lookup_insert_Some in Hm as [[<- <-]|[Hnm Hm]]; [by rewrite Hcs|].
    rewrite (stubs_in_ext T); [by apply (fo_remotes _ Hf m)|].
    intros c Hin. rewrite is_stub_insert. case_decide; [|done].
    exfalso. subst. apply (Hnc m), children_some. eauto.
  - intros c c' tc tc' x Hc Hc' Hx Hx'. unfold target_of in Hx, Hx'.
    apply lookup_insert_Some in Hc as [[<- <-]|[_ Hc]]; [by rewrite Hrem in Hx|].
    apply lookup_insert_Some in Hc' as [[<- <-]|[_ Hc']]; [by rewrite Hrem in Hx'|].
    by eapply (fo_target _ Hf).
Qed.

(** The fields a config update cannot touch. *)
Definition same_link (cur t : Topic) : Prop :=
  t_Name t = t_Name cur ∧ t_Role t = t_Role cur ∧ t_Children t = t_Children cur
  ∧ t_Parent t = t_Parent cur ∧ t_FanoutDelayMs t = t_FanoutDelayMs cur ∧ target_of t = target_of cur.

Lemma same_link_roles cur t :
  same_link cur t → IsParent t = IsParent cur ∧ IsChild t = IsChild cur ∧ IsRemoteChild t = IsRemoteChild cur.
Proof.
  intros (_ & Hr & _ & _ & _ & Ht).
  assert (IsChild t = IsChild cur) as Hc by (unfold IsChild, EffectiveRole; by rewrite Hr).
  split; [unfold IsParent, EffectiveRole; by rewrite Hr|]. split; [done|].
  unfold IsRemoteChild, target_of in *. by destruct (t_Remote t), (t_Remote cur).
Qed.

Lemma fan_config T cur t :
  fan_ok T → T !! t_Name cur = Some cur → same_link cur t →
  (t_Remote t ≠ None → t_Partitions t = 0) →
  (∀ c tc, c ∈ t_Children cur → T !! c = Some tc → buffers (t_RetentionMs t) (t_FanoutDelayMs tc)) →
  (∀ c, c ∈ t_Children cur → is_stub T c = true →
     t_RetentionMs t = 0 ∨ MinRemoteSourceRetentionMs <= t_RetentionMs t) →
  fan_ok (<[t_Name t := t]> T).
Proof.
  intros Hf Hn Hsl Hpart Hbuf Hfloor. destruct (same_link_roles cur t Hsl) as (Hp & Hc & Hr).
  destruct Hsl as (Hname & _ & Hcs & Hpa & Hd & Ht). rewrite Hname. set (n := t_Name cur) in *.
  pose proof (fo_shape _ Hf _ _ Hn) as Hsh.
  assert (∀ c, is_stub (<[n := t]> T) c = is_stub T c) as Hst.
  { intros c. rewrite is_stub_insert. case_decide; [|done]. subst c. unfold is_stub. by rewrite Hn. }
  split.
  - apply map_Forall_insert_2; [|apply Hf]. destruct Hsh as [S1 S2 S3 S4 S5 S6 S7 S8 S9].
    split; rewrite ?Hp, ?Hc, ?Hcs, ?Hpa, ?Hd; try done.
    intros Hrn. split; [|by apply Hpart]. apply S8. unfold target_of in Ht.
    by destruct (t_Remote t), (t_Remote cur).
  - intros c m. assert (parent_of (<[n := t]> T) c = parent_of T c) as ->.
    { rewrite parent_of_insert. case_decide; [|done]. subst c. unfold parent_of. rewrite Hn. simpl.
      by rewrite Hc, Hpa. }
    rewrite children_of_insert. case_decide; [|apply Hf]. subst m.
    rewrite Hcs, (fo_links _ Hf). unfold children_of. by rewrite Hn.
  - intros c tc m tm Hlc Hlm Hin. apply lookup_insert_Some in Hlm as [[<- <-]|[Hnm Hlm]].
    + rewrite Hcs in Hin. apply lookup_insert_Some in Hlc as [[<- <-]|[_ Hlc]].
      * by destruct (linked_child _ _ _ _ Hf Hn Hin) as [[] _].
      * by eapply Hbuf.
    + apply lookup_insert_Some in Hlc as [[<- <-]|[_ Hlc]]; [|by eapply (fo_delay _ Hf)].
      rewrite Hd. by eapply (fo_delay _ Hf).
  - intros c m tm Hlm Hin. rewrite Hst. apply lookup_insert_Some in Hlm as [[<- <-]|[Hnm Hlm]].
    + rewrite Hcs in Hin. by eapply Hfloor.
    + by eapply (fo_floor _ Hf).
  - intros m tm Hlm. rewrite (stubs_in_ext T) by done. apply lookup_insert_Some in Hlm as [[<- <-]|[Hnm Hlm]].
    + rewrite Hcs. by apply (fo_remotes _ Hf n).
    + by apply (fo_remotes _ Hf m).
  - assert (∀ c tc, <[n := t]> T !! c = Some tc → ∃ tc0, T !! c = Some tc0 ∧ target_of tc = target_of tc0)
      as Hold.
    { intros c tc [[<- <-]|[_ Hlc]]%lookup_insert_Some; eauto. }
    intros c c' tc tc' x (tc0 & H1 & ->)%Hold (tc0' & H2 & ->)%Hold. by apply (fo_target _ Hf).
Qed.

(** ** Linking *)

(** Not linked either way. *)
Definition unlinked (T : topic_map) (c : string) : Prop :=
  T !! c = None ∨ ∃ t, T !! c = Some t ∧ IsParent t = false ∧ IsChild t = false.

Lemma unlinked_not_child T c n : fan_ok T → unlinked T c → c ∉ children_of T n.
Proof.
  intros Hf Hu. rewrite <-(fo_links _ Hf), parent_of_some. intros (t & Ht & Hc & _).
  destruct Hu as [Hu|(t0 & Hu & _ & Hc0)]; congruence.
Qed.

Lemma unlinked_no_children T c : fan_ok T → unlinked T c → children_of T c = [].
Proof.
  intros Hf Hu. unfold children_of. destruct Hu as [-> |(t & Ht & Hp & _)]; [done|]. rewrite Ht.
  destruct (t_Children t) eqn:E; [done|].
  assert (IsParent t = true) by (apply (sh_parent _ _ (fo_shape _ Hf _ _ Ht)); by rewrite E).
  congruence.
Qed.

Definition linked_parent (c : string) (tp : Topic) : Topic :=
  set_role_children RoleParent (t_Children tp ++ [c]) tp.

Lemma linked_parent_roles c tp :
  IsParent (linked_parent c tp) = true ∧ IsChild (linked_parent c tp) = false
  ∧ IsRemoteChild (linked_parent c tp) = false.
Proof. split_and!; [done..|]. unfold IsRemoteChild. simpl. by destruct (t_Remote tp). Qed.

Lemma linked_parent_shape p c tp :
  shape_ok p tp → IsChild tp = false → c ∉ t_Children tp →
  Z.of_nat (length (t_Children tp)) < MaxChildrenPerParent → shape_ok p (linked_parent c tp).
Proof.
  intros [S1 S2 S3 S4 S5 S6 S7 S8 S9] Hch Hc Hlen. split; try done.
  - split; [|done]. intros _. simpl. by destruct (t_Children tp).
  - simpl. apply NoDup_app. split_and!; [done| |apply NoDup_singleton].
    intros x Hx Hx'. apply list_elem_of_singleton in Hx'. by subst.
  - simpl. rewrite length_app. simpl. unfold MaxChildrenPerParent in *. lia.
  - intros _. by apply S7.
  - intros Hr. simpl in Hr. apply S8 in Hr. destruct Hr. congruence.
Qed.

Section Link.
Context (T : topic_map) (p c : string) (tp tc : Topic).
Context (Hf : fan_ok T) (Hp : T !! p = Some tp) (Htp : IsChild tp = false).
Context (Hu : unlinked T c) (Hcp : c ≠ p).
Context (Hsh : shape_ok c tc) (Hc : IsChild tc = true) (Hpar : t_Parent tc = p).

Local Abbreviation T' := (<[c := tc]> (<[p := linked_parent c tp]> T)).

Lemma link_unlisted : c ∉ t_Children tp.
Proof. pose proof (unlinked_not_child T c p Hf Hu) as H. unfold children_of in H. by rewrite Hp in H. Qed.

Lemma link_children m : children_of T' m = if decide (m = p) then t_Children tp ++ [c] else children_of T m.
Proof.
  rewrite !children_of_insert. repeat case_decide; subst; try done.
  rewrite (unlinked_no_children T m Hf Hu). by apply (child_no_children m).
Qed.

Lemma link_parent m : parent_of T' m = if decide (m = c) then Some p else parent_of T m.
Proof.
  rewrite !parent_of_insert, Hc, Hpar. repeat case_decide; subst; try done.
  unfold parent_of. rewrite Hp. simpl. by rewrite Htp.
Qed.

Lemma link_stub m : is_stub T' m = if decide (m = c) then IsRemoteChild tc else is_stub T m.
Proof.
  rewrite !is_stub_insert. repeat case_decide; subst; try done.
  unfold is_stub. rewrite Hp. unfold IsRemoteChild. rewrite Htp. simpl.
  by destruct (t_Remote tp).
Qed.

Lemma link_lookup m t :
  T' !! m = Some t → m ≠ c →
  ∃ t0, T !! m = Some t0 ∧ t_RetentionMs t = t_RetentionMs t0 ∧ t_FanoutDelayMs t = t_FanoutDelayMs t0
    ∧ target_of t = target_of t0 ∧ t_Children t = if decide (m = p) then t_Children t0 ++ [c] else t_Children t0.
Proof.
  intros Hm Hne. rewrite lookup_insert_ne in Hm by done.
  apply lookup_insert_Some in Hm as [[<- <-]|[Hne' Hm]].
  - exists tp. rewrite decide_True by done. done.
  - exists t. rewrite decide_False by done. done.
Qed.

Lemma link_links m n : parent_of T' m = Some n ↔ m ∈ children_of T' n.
Proof.
  rewrite link_parent, link_children. pose proof (unlinked_not_child T c n Hf Hu) as Hn.
  case_decide as H1; case_decide as H2; subst m || idtac; subst n || idtac.
  - rewrite elem_of_app, list_elem_of_singleton. naive_solver.
  - naive_solver.
  - rewrite elem_of_app, list_elem_of_singleton, (fo_links _ Hf). unfold children_of. rewrite Hp. naive_solver.
  - apply (fo_links _ Hf).
Qed.

Lemma fan_link :
  Z.of_nat (length (t_Children tp)) < MaxChildrenPerParent →
  buffers (t_RetentionMs tp) (t_FanoutDelayMs tc) →
  (IsRemoteChild tc = true →
     (t_RetentionMs tp = 0 ∨ MinRemoteSourceRetentionMs <= t_RetentionMs tp)
     ∧ stubs_in T (t_Children tp) < MaxRemoteChildrenPerParent) →
  (∀ m tm, T !! m = Some tm → m ≠ c → target_of tc ≠ None → target_of tm ≠ target_of tc) →
  fan_ok T'.
Proof.
  intros Hlen Hbuf Hrem Htgt. pose proof link_unlisted as Hnin.
  assert (t_Children tc = []) as Hnil by (by apply (child_no_children c)).
  split.
  - apply map_Forall_insert_2; [done|]. apply map_Forall_insert_2; [|apply Hf].
    apply linked_parent_shape; try done. by apply Hf.
  - apply link_links.
  - intros x tx m tm Hx Hm Hin. destruct (decide (m = c)) as [-> |Hm'].
    { rewrite lookup_insert_eq in Hm. simplify_eq. rewrite Hnil in Hin. by apply elem_of_nil in Hin. }
    destruct (link_lookup m tm Hm Hm') as (tm0 & Htm0 & -> & _ & _ & Hcs). rewrite Hcs in Hin.
    destruct (decide (x = c)) as [-> |Hx'].
    { rewrite lookup_insert_eq in Hx. simplify_eq. case_decide; [by simplify_eq|].
      destruct (unlinked_not_child T c m Hf Hu). apply children_some. eauto. }
    destruct (link_lookup x tx Hx Hx') as (tx0 & Htx0 & _ & -> & _ & _).
    eapply (fo_delay _ Hf x _ m); try done. case_decide; [|done].
    apply elem_of_app in Hin as [|Heq%list_elem_of_singleton]; done.
  - intros x m tm Hm Hin. rewrite link_stub. destruct (decide (m = c)) as [-> |Hm'].
    { rewrite lookup_insert_eq in Hm. simplify_eq. rewrite Hnil in Hin. by apply elem_of_nil in Hin. }
    destruct (link_lookup m tm Hm Hm') as (tm0 & Htm0 & -> & _ & _ & Hcs). rewrite Hcs in Hin.
    destruct (decide (x = c)) as [-> |Hxc].
    { intros Hr. case_decide; [simplify_eq; by apply Hrem|].
      destruct (unlinked_not_child T c m Hf Hu). apply children_some. eauto. }
    eapply (fo_floor _ Hf x m); try done. case_decide; [|done].
    apply elem_of_app in Hin as [|Heq%list_elem_of_singleton]; done.
  - intros m tm Hm. destruct (decide (m = c)) as [-> |Hm'].
    { rewrite lookup_insert_eq in Hm. simplify_eq. by rewrite Hnil. }
    destruct (link_lookup m tm Hm Hm') as (tm0 & Htm0 & _ & _ & _ & ->).
    assert (stubs_in T' (t_Children tm0) = stubs_in T (t_Children tm0)) as Heq.
    { apply stubs_in_ext. intros x Hin. rewrite link_stub. case_decide; [|done]. subst x.
      destruct (unlinked_not_child T c m Hf Hu). apply children_some. eauto. }
    pose proof (fo_remotes _ Hf m _ Htm0). case_decide; [|lia]. subst m. assert (tm0 = tp) as -> by congruence.
    unfold stubs_in in *. rewrite filter_app, length_app, filter_cons.
    case_decide as Hr; simpl; [|lia]. rewrite link_stub, decide_True in Hr by done.
    destruct (Hrem Hr). lia.
  - intros x y tx ty z Hx Hy Hz1 Hz2.
    destruct (decide (x = c)) as [-> |Hxc]; destruct (decide (y = c)) as [-> |Hyc]; try done.
    + rewrite lookup_insert_eq in Hx. injection Hx as <-.
      destruct (link_lookup y ty Hy Hyc) as (ty0 & Hty0 & _ & _ & Ht & _).
      destruct (Htgt y ty0 Hty0 Hyc); [by rewrite Hz1|congruence].
    + rewrite lookup_insert_eq in Hy. injection Hy as <-.
      destruct (link_lookup x tx Hx Hxc) as (tx0 & Htx0 & _ & _ & Ht & _).
      destruct (Htgt x tx0 Htx0 Hxc); [by rewrite Hz2|congruence].
    + destruct (link_lookup x tx Hx Hxc) as (tx0 & Htx0 & _ & _ & Ht & _).
      destruct (link_lookup y ty Hy Hyc) as (ty0 & Hty0 & _ & _ & Ht' & _).
      apply (fo_target _ Hf x y tx0 ty0 z); congruence.
Qed.
End Link.

(** ** Unlinking *)

(** A record that keeps its own link and loses the children in [X]. *)
Record kept (X : string → Prop) (t t' : Topic) : Prop := {
  kp_child : IsChild t' = IsChild t;
  kp_parent : t_Parent t' = t_Parent t;
  kp_delay : t_FanoutDelayMs t' = t_FanoutDelayMs t;
  kp_retention : t_RetentionMs t' = t_RetentionMs t;
  kp_remote : t_Remote t' = t_Remote t;
  kp_children : t_Children t' `sublist_of` t_Children t;
  kp_elem : ∀ c, c ∈ t_Children t' ↔ c ∈ t_Children t ∧ ¬ X c;
}.

(** The links of the children in [X] are cut: each is gone or standalone,
    no parent lists one any more, and a topic that is gone was in no other
    link. *)
Record cut (X : string → Prop) (T T' : topic_map) : Prop := {
  ct_shape : map_Forall shape_ok T';
  ct_some : ∀ m t', T' !! m = Some t' → ∃ t, T !! m = Some t ∧
    ((X m ∧ IsChild t = true ∧ IsRemoteChild t = false ∧ t' = clear_child_link t) ∨ (¬ X m ∧ kept X t t'));
  ct_none : ∀ m t, T !! m = Some t → T' !! m = None →
    (IsChild t = true → X m) ∧ (∀ c, c ∈ t_Children t → X c);
}.

Section Cut.
Context (X : string → Prop) (T T' : topic_map) (Hf : fan_ok T) (Hcut : cut X T T').

(** What is listed in the new map was listed, with the same records. *)
Lemma cut_listed n tn' c :
  T' !! n = Some tn' → c ∈ t_Children tn' →
  ¬ X c ∧ ∃ tn tc, T !! n = Some tn ∧ T !! c = Some tc ∧ kept X tn tn' ∧ c ∈ t_Children tn
                   ∧ IsChild tc = true ∧ t_Parent tc = n.
Proof.
  intros Hn Hc. destruct (ct_some _ _ _ Hcut n tn' Hn) as (tn & Htn & [(HX & Hch & _ & ->)|(HX & Hk)]).
  - simpl in Hc. rewrite (child_no_children n tn) in Hc by (by apply Hf || done).
    by apply elem_of_nil in Hc.
  - destruct (proj1 (kp_elem _ _ _ Hk c) Hc) as [Hin HXc].
    destruct (linked_child T c n tn Hf Htn Hin) as (_ & tc & Htc & Hch & Hp & _).
    split; [done|]. exists tn, tc. done.
Qed.

Lemma cut_links c n : parent_of T' c = Some n ↔ c ∈ children_of T' n.
Proof.
  rewrite parent_of_some, children_some. split.
  - intros (tc' & Hc & Hch & Hp).
    destruct (ct_some _ _ _ Hcut c tc' Hc) as (tc & Htc & [(_ & _ & _ & ->)|(HX & Hk)]); [done|].
    rewrite (kp_child _ _ _ Hk) in Hch. rewrite (kp_parent _ _ _ Hk) in Hp.
    destruct (child_linked T c tc Hf Htc Hch) as (tn & Htn & Hin). rewrite Hp in Htn.
    destruct (T' !! n) as [tn'|] eqn:Hn.
    2:{ destruct (ct_none _ _ _ Hcut n tn Htn Hn) as [_ Hall]. by destruct HX; apply Hall. }
    exists tn'. split; [done|]. destruct (ct_some _ _ _ Hcut n tn' Hn) as (tn0 & Htn0 & Hor).
    assert (tn0 = tn) as -> by congruence. destruct Hor as [(_ & Hchn & _)|(_ & Hkn)].
    + rewrite (child_no_children n tn) in Hin by (by apply Hf || done). by apply elem_of_nil in Hin.
    + by apply (kp_elem _ _ _ Hkn).
  - intros (tn' & Hn & Hin). destruct (cut_listed n tn' c Hn Hin) as (HX & tn & tc & Htn & Htc & _ & _ & Hch & Hp).
    destruct (T' !! c) as [tc'|] eqn:Hc.
    2:{ destruct (ct_none _ _ _ Hcut c tc Htc Hc) as [Hx _]. by destruct HX; apply Hx. }
    exists tc'. split; [done|]. destruct (ct_some _ _ _ Hcut c tc' Hc) as (tc0 & Htc0 & [(HXc & _)|(_ & Hk)]); [done|].
    assert (tc0 = tc) as -> by congruence. by rewrite (kp_child _ _ _ Hk), (kp_parent _ _ _ Hk).
Qed.

Lemma cut_stub c : is_stub T' c = true → is_stub T c = true.
Proof.
  unfold is_stub. destruct (T' !! c) as [tc'|] eqn:Hc; [|done].
  destruct (ct_some _ _ _ Hcut c tc' Hc) as (tc & -> & [(_ & _ & _ & ->)|(_ & Hk)]); unfold IsRemoteChild.
  - simpl. by destruct (t_Remote tc).
  - by rewrite (kp_remote _ _ _ Hk), (kp_child _ _ _ Hk).
Qed.

Lemma cut_stubs_in l l' : l' `sublist_of` l → stubs_in T' l' <= stubs_in T l.
Proof.
  intros Hsub. unfold stubs_in. apply inj_le.
  induction Hsub as [|x l' l _ IH|x l' l _ IH]; [done|..]; rewrite !filter_cons.
  - case_decide as H1; case_decide as H2; simpl; try lia. by apply cut_stub in H1.
  - case_decide; simpl; lia.
Qed.

Lemma fan_cut : fan_ok T'.
Proof.
  split; [apply Hcut|apply cut_links|..].
  - intros c tc' n tn' Hc Hn Hin.
    destruct (cut_listed n tn' c Hn Hin) as (HX & tn & tc & Htn & Htc & Hk & Hin0 & _).
    destruct (ct_some _ _ _ Hcut c tc' Hc) as (tc0 & Htc0 & [(HXc & _)|(_ & Hkc)]); [done|].
    rewrite (kp_retention _ _ _ Hk), (kp_delay _ _ _ Hkc). by apply (fo_delay _ Hf c tc0 n tn).
  - intros c n tn' Hn Hin Hst.
    destruct (cut_listed n tn' c Hn Hin) as (HX & tn & tc & Htn & Htc & Hk & Hin0 & _).
    rewrite (kp_retention _ _ _ Hk). apply (fo_floor _ Hf c n tn); [done..|]. by apply cut_stub.
  - intros n tn' Hn. destruct (ct_some _ _ _ Hcut n tn' Hn) as (tn & Htn & Hor).
    etrans; [apply (cut_stubs_in (t_Children tn))|by apply (fo_remotes _ Hf n)].
    destruct Hor as [(_ & _ & _ & ->)|(_ & Hk)]; [done|apply Hk].
  - assert (∀ c tc' x, T' !! c = Some tc' → target_of tc' = Some x →
              ∃ tc, T !! c = Some tc ∧ target_of tc = Some x) as Hold.
    { intros c tc' x Hc. destruct (ct_some _ _ _ Hcut c tc' Hc) as (tc & Htc & [(_ & _ & _ & ->)|(_ & Hk)]).
      - eauto.
      - unfold target_of. rewrite (kp_remote _ _ _ Hk). eauto. }
    intros c c' tc tc' x Hc Hc' Hx Hx'. destruct (Hold c tc x Hc Hx) as (t1 & ? & ?).
    destruct (Hold c' tc' x Hc' Hx') as (t2 & ? & ?). by apply (fo_target _ Hf c c' t1 t2 x).
Qed.
End Cut.

Lemma kept_refl X t : (∀ c, c ∈ t_Children t → ¬ X c) → kept X t t.
Proof. intros HX. split; try done. intros c. split; [auto|tauto]. Qed.

Lemma kept_unlink X c t :
  IsChild t = false → (∀ x, x ∈ t_Children t → X x ↔ x = c) → kept X t (unlinkChild c t).
Proof.
  intros Hch HX. unfold unlinkChild.
  assert (∀ x, x ∈ filter (λ c', c' ≠ c) (t_Children t) ↔ x ∈ t_Children t ∧ ¬ X x) as Hel.
  { intros x. rewrite list_elem_of_filter. split.
    - intros [Hne Hin]. by rewrite (HX x Hin).
    - intros [Hin Hne]. by rewrite (HX x Hin) in Hne. }
  destruct (filter _ _) as [|y l] eqn:E.
  - split; try done. by apply sublist_nil_l.
  - split; try done. simpl. rewrite <-E. apply sublist_filter.
Qed.

Lemma unlink_shape p c t : shape_ok p t → IsChild t = false → shape_ok p (unlinkChild c t).
Proof.
  intros [S1 S2 S3 S4 S5 S6 S7 S8 S9] Hch. unfold unlinkChild.
  assert (Z.of_nat (length (filter (λ c', c' ≠ c) (t_Children t))) <= MaxChildrenPerParent) as Hlen.
  { assert (filter (λ c', c' ≠ c) (t_Children t) `sublist_of` t_Children t) as Hsub%sublist_length
      by apply sublist_filter. lia. }
  assert (NoDup (filter (λ c', c' ≠ c) (t_Children t))) as Hnd by (by apply NoDup_filter).
  destruct (filter _ _) as [|y l] eqn:E.
  - split; try done; [by intros _; apply S7|]. intros Hr. destruct (S8 Hr). congruence.
  - split; try done. split; [done|]. intros _. apply S4. intros Hn. by rewrite Hn in E.
Qed.

Lemma clear_shape c t : shape_ok c t → IsChild t = true → IsRemoteChild t = false → shape_ok c (clear_child_link t).
Proof.
  intros Hs Hc Hr. pose proof (child_no_children c t Hs Hc) as Hnil. pose proof (remote_child_iff c t Hs) as Hrm.
  destruct Hs as [S1 S2 S3 S4 S5 S6 S7 S8 S9]. split; simpl; rewrite ?Hnil; try done.
  - apply NoDup_nil_2.
  - intros Hn. apply Hrm in Hn. congruence.
Qed.

(** Detaching or deleting one child. *)
Lemma cut_one T T' p c tp tc :
  fan_ok T → T !! p = Some tp → T !! c = Some tc → IsChild tc = true → t_Parent tc = p →
  (∀ m, m ≠ c → T' !! m = <[p := unlinkChild c tp]> T !! m) →
  T' !! c = None ∨ IsRemoteChild tc = false ∧ T' !! c = Some (clear_child_link tc) →
  cut (λ x, x = c) T T'.
Proof.
  intros Hf Hp Hc Hch Hpar Hne Heq.
  destruct (child_linked T c tc Hf Hc Hch) as (tp0 & Htp0 & Hin). rewrite Hpar in Htp0. simplify_eq.
  destruct (linked_child T c _ tp Hf Hp Hin) as [Hcp _].
  pose proof (fo_shape _ Hf _ _ Hp) as Hsp. pose proof (fo_shape _ Hf _ _ Hc) as Hsc.
  assert (IsChild tp = false) as Htp.
  { apply role_excl, (sh_parent _ _ Hsp). intros Hn. rewrite Hn in Hin. by apply elem_of_nil in Hin. }
  assert (∀ m t, T' !! m = Some t → m = c ∧ IsRemoteChild tc = false ∧ t = clear_child_link tc
            ∨ m ≠ c ∧ m = t_Parent tc ∧ t = unlinkChild c tp ∨ m ≠ c ∧ m ≠ t_Parent tc ∧ T !! m = Some t) as Hlk.
  { intros m t Hm. destruct (decide (m = c)) as [-> |Hmc].
    - left. destruct Heq as [Heq|[Hr Heq]]; [congruence|]. split_and!; congruence.
    - right. rewrite (Hne m Hmc), lookup_insert in Hm. case_decide; [left|right]; split_and!; congruence. }
  split.
  - intros m t [(-> & Hr & ->)|[(_ & -> & ->)|(_ & _ & Hm)]]%Hlk.
    + by apply clear_shape.
    + by apply unlink_shape.
    + by apply Hf.
  - intros m t [(-> & Hr & ->)|[(Hmc & -> & ->)|(Hmc & Hmp & Hm)]]%Hlk.
    + exists tc. split; [done|]. by left.
    + exists tp. split; [done|]. right. split; [done|]. by apply kept_unlink.
    + exists t. split; [done|]. right. split; [done|]. apply kept_refl. intros x Hx ->.
      assert (parent_of T c = Some m) as Hpm by (apply (fo_links _ Hf), children_some; eauto).
      apply parent_of_some in Hpm as (tc0 & ? & _ & Hpm). congruence.
  - intros m t Hm Hm'. destruct (decide (m = c)) as [-> |Hmc].
    + assert (t = tc) as -> by congruence. split; [done|]. rewrite (child_no_children c tc) by done.
      intros x Hx. by apply elem_of_nil in Hx.
    + rewrite (Hne m Hmc), lookup_insert in Hm'. case_decide; congruence.
Qed.

(** Deleting a topic that is no child, with its children's links. *)
Lemma cut_all T T' n tn :
  fan_ok T → T !! n = Some tn → IsChild tn = false → T' !! n = None →
  (∀ m, m ≠ n → m ∉ t_Children tn → T' !! m = T !! m) →
  (∀ m tm, m ∈ t_Children tn → T !! m = Some tm →
     T' !! m = None ∨ IsRemoteChild tm = false ∧ T' !! m = Some (clear_child_link tm)) →
  cut (λ x, x ∈ t_Children tn) T T'.
Proof.
  intros Hf Hn Htn Hnone Hsame Hgone.
  assert (∀ m t, T' !! m = Some t → m ∈ t_Children tn ∧ (∃ tm, T !! m = Some tm ∧ IsChild tm = true
            ∧ IsRemoteChild tm = false ∧ t = clear_child_link tm)
            ∨ m ∉ t_Children tn ∧ m ≠ n ∧ T !! m = Some t) as Hlk.
  { intros m t Hm. destruct (decide (m = n)) as [-> |Hmn]; [congruence|].
    destruct (decide (m ∈ t_Children tn)) as [Hin|Hin].
    - left. split; [done|]. destruct (linked_child T m n tn Hf Hn Hin) as (_ & tm & Htm & Hch & _).
      exists tm. destruct (Hgone m tm Hin Htm) as [|[Hr Heq]]; [congruence|]. split_and!; congruence.
    - right. rewrite Hsame in Hm by done. done. }
  split.
  - intros m t [(_ & tm & Htm & Hch & Hr & ->)|(_ & _ & Hm)]%Hlk; [|by apply Hf].
    apply clear_shape; try done. by apply Hf.
  - intros m t [(Hin & tm & Htm & Hch & Hr & ->)|(Hin & Hmn & Hm)]%Hlk.
    + exists tm. split; [done|]. by left.
    + exists t. split; [done|]. right. split; [done|]. apply kept_refl. intros x Hx Hx'.
      destruct (linked_child T x m t Hf Hm Hx) as (_ & tx & Htx & _ & Hp & _).
      destruct (linked_child T x n tn Hf Hn Hx') as (_ & tx' & Htx' & _ & Hp' & _). congruence.
  - intros m t Hm Hm'. destruct (decide (m = n)) as [-> |Hmn].
    + assert (t = tn) as -> by congruence. split; [congruence|done].
    + destruct (decide (m ∈ t_Children tn)) as [Hin|Hin].
      * split; [done|]. destruct (linked_child T m n tn Hf Hn Hin) as (_ & tm & Htm & _ & _ & Hnil).
        assert (t = tm) as -> by congruence. rewrite Hnil. intros x Hx. by apply elem_of_nil in Hx.
      * rewrite Hsame in Hm' by done. congruence.
Qed.

(** What dissolving leaves of a topic. *)
Definition dissolved (name : string) (t : Topic) : option Topic :=
  if IsRemoteChild t && bool_decide (t_Parent t = name) then None else Some (clear_child_link t).

Definition names_ok (T : topic_map) : Prop := map_Forall (λ k t, t_Name t = k) T.

Lemma fan_names T : fan_ok T → names_ok T.
Proof. intros Hf k t Hk. apply (sh_name k t), (fo_shape _ Hf _ _ Hk). Qed.

Lemma foldl_alter_lookup {A} (f : option A → option A) (ks : list string) (M : gmap string A) m :
  NoDup ks →
  foldl (λ M k, partial_alter f k M) M ks !! m = if decide (m ∈ ks) then f (M !! m) else M !! m.
Proof.
  intros Hnd. revert M. induction Hnd as [|k ks Hk _ IH]; intros M; cbn [foldl].
  { rewrite decide_False by apply not_elem_of_nil. done. }
  rewrite IH, lookup_partial_alter. destruct (decide (k = m)) as [<- |Hkm].
  - rewrite decide_False, decide_True by (done || left). done.
  - destruct (decide (m ∈ ks)) as [H|H].
    + by rewrite decide_True by (by right).
    + rewrite decide_False; [done|]. rewrite not_elem_of_cons. done.
Qed.

Lemma dissolve_step b c t name :
  names_ok (topics b) → topics b !! c = Some t →
  topics (if IsRemoteChild t && bool_decide (t_Parent t = name) then deleteTopicRecords c b
          else putTopicRecord (clear_child_link t) b)
    = partial_alter (λ o, o ≫= dissolved name) c (topics b).
Proof.
  intros Hn Ht. apply map_eq. intros m. rewrite lookup_partial_alter. unfold dissolved.
  destruct (IsRemoteChild t && bool_decide (t_Parent t = name)) eqn:E; simpl.
  - rewrite lookup_delete. destruct (decide (c = m)) as [<- |]; [|done].
    rewrite Ht. simpl. by rewrite E.
  - rewrite (Hn c t Ht), lookup_insert. destruct (decide (c = m)) as [<- |]; [|done].
    rewrite Ht. simpl. by rewrite E.
Qed.

Lemma alter_names name c T :
  names_ok T → names_ok (partial_alter (λ o, o ≫= dissolved name) c T).
Proof.
  intros Hn k t. rewrite lookup_partial_alter. case_decide; [|apply Hn]. subst k.
  destruct (T !! c) as [t0|] eqn:E; [|done]. simpl. unfold dissolved. case_match; [done|].
  intros [= <-]. by apply (Hn c t0).
Qed.

Lemma dissolve_topics name children b linked stubs :
  names_ok (topics b) →
  topics (dissolve_children name children b linked stubs).1.1 =
    foldl (λ T c, partial_alter (λ o, o ≫= dissolved name) c T) (topics b) children.
Proof.
  revert b linked stubs. induction children as [|c children IH]; intros b linked stubs Hn; [done|].
  cbn [dissolve_children foldl]. unfold getTopicRecord. destruct (topics b !! c) as [t|] eqn:Ht.
  - pose proof (dissolve_step b c t name Hn Ht) as Hst. pose proof (alter_names name c _ Hn) as Hn'.
    destruct (IsRemoteChild t && _); rewrite IH, Hst by (by rewrite Hst); done.
  - rewrite IH by done. f_equal. apply map_eq. intros m. rewrite lookup_partial_alter.
    case_decide; [|done]. subst m. by rewrite Ht.
Qed.
