(* ===== verification/SchemaInv.v ===== *)
(** * The schema-history invariant

    What the handlers keep true of the schemas bucket: every row is a
    version of an existing topic with partitions, a topic's versions are
    [1, ..., k] without holes, and a local child's history is its parent's
    up to JSON value equality.  Under it the bucket scans of
    [fsm_schema.go] read exactly that history. *)

From S2P Require Import Prelude Decimal Keys Json Meta Versions FsmTopics FsmCluster FsmRemotes FanInv.

Abbreviation schema_map := (gmap string string).

(** The same history entry, up to JSON value equality. *)
Definition agree (a b : option string) : Prop :=
  match a, b with
  | None, None => True
  | Some x, Some y => jsonValueEqual x y = true
  | _, _ => False
  end.

Definition valid_version (v : Z) : Prop := 1 <= v <= MaxSchemaVersions.

Record sch_ok (T : topic_map) (S : schema_map) : Prop := {
  so_keys : ∀ k s, S !! k = Some s → ∃ n v t, k = schemaKey n v ∧ valid_version v
    ∧ T !! n = Some t ∧ IsRemoteChild t = false;
  so_contig : ∀ n v w, no_colon n → is_Some (S !! schemaKey n v) → valid_version v → 1 <= w <= v →
    is_Some (S !! schemaKey n w);
  so_child : ∀ c tc v, T !! c = Some tc → IsChild tc = true → IsRemoteChild tc = false → valid_version v →
    agree (S !! schemaKey (t_Parent tc) v) (S !! schemaKey c v);
}.

Lemma jsonValueEqual_refl s : jsonValueEqual s s = true.
Proof. unfold jsonValueEqual. by rewrite bool_decide_eq_true_2. Qed.

Lemma agree_refl o : agree o o.
Proof. destruct o; simpl; [apply jsonValueEqual_refl|done]. Qed.

Lemma valid_i64 v : valid_version v → in_i64 v.
Proof. unfold valid_version, MaxSchemaVersions, in_i64, two63. lia. Qed.

Lemma schemaKey_valid n n' v v' :
  no_colon n → no_colon n' → valid_version v → valid_version v' →
  schemaKey n v = schemaKey n' v' ↔ n = n' ∧ v = v'.
Proof. intros. apply schemaKey_inj; auto using valid_i64. Qed.

(** ** What the scans read *)

Lemma row_number_key n v : in_i64 v → row_number n (schemaKey n v) = Some v.
Proof.
  intros Hv. unfold row_number, schemaKey. rewrite cut_prefix_app. simpl. by apply atoi_itoa.
Qed.

Section Scan.
Context (T : topic_map) (S : schema_map) (Hf : fan_ok T) (Hs : sch_ok T S).
Context (n : string) (Hn : no_colon n).

Lemma rows_spec k s :
  (k, s) ∈ rows_of n S ↔ S !! k = Some s ∧ ∃ v, valid_version v ∧ k = schemaKey n v.
Proof.
  unfold rows_of. rewrite elem_of_in_key_order, map_lookup_filter_Some. simpl. split.
  - intros [Hk Hpre]. split; [done|]. destruct (so_keys _ _ Hs k s Hk) as (m & v & t & -> & Hv & Ht & _).
    apply has_prefix_key in Hpre; [|done|by apply (sh_colon _ t), (fo_shape _ Hf)]. subst m. eauto.
  - intros [Hk (v & Hv & ->)]. split; [done|]. by apply has_prefix_key.
Qed.

Lemma latest_loop_spec rows latest :
  (∀ k s, (k, s) ∈ rows → ∃ v, row_number n k = Some v) →
  ∃ r, latest_loop n rows latest = Ok r ∧ latest <= r
    ∧ (∀ k s v, (k, s) ∈ rows → row_number n k = Some v → v <= r)
    ∧ (r = latest ∨ ∃ k s, (k, s) ∈ rows ∧ row_number n k = Some r).
Proof.
  revert latest. induction rows as [|[k s] rows IH]; intros latest Hall; simpl.
  - exists latest. split_and!; [done|lia| |by left]. intros k s v Hin. by apply elem_of_nil in Hin.
  - destruct (Hall k s) as [v Hv]; [left|]. rewrite Hv.
    destruct (IH (if latest <? v then v else latest)) as (r & -> & Hle & Hmax & Hor).
    { intros k' s' Hin. apply (Hall k' s'). by right. }
    exists r. split_and!; [done|destruct (Z.ltb_spec latest v); lia| |].
    + intros k' s' v' [[= -> ->]|Hin]%elem_of_cons Hv'; [|by eapply Hmax].
      simplify_eq. destruct (Z.ltb_spec latest v); lia.
    + destruct Hor as [-> |(k' & s' & Hin & Hk')].
      * destruct (latest <? v); [right|by left]. exists k, s. split; [left|done].
      * right. exists k', s'. split; [by right|done].
Qed.

(** The latest version is the length of the history. *)
Lemma latest_spec b :
  schemas b = S → ∃ r, latestSchemaVersion b n = Ok r ∧ 0 <= r <= MaxSchemaVersions
    ∧ ∀ v, valid_version v → is_Some (S !! schemaKey n v) ↔ v <= r.
Proof.
  intros HS. unfold latestSchemaVersion. rewrite HS.
  assert (∀ k s, (k, s) ∈ rows_of n S → ∃ v, valid_version v ∧ row_number n k = Some v) as Hnum.
  { intros k s (_ & v & Hv & ->)%rows_spec. exists v. split; [done|]. by apply row_number_key, valid_i64. }
  destruct (latest_loop_spec (rows_of n S) 0) as (r & Hr & H0 & Hmax & Hor).
  { intros k s (v & _ & Hv)%Hnum. eauto. }
  exists r. split; [done|]. split.
  { destruct Hor as [-> |(k & s & Hin & Hk)]; [unfold MaxSchemaVersions; lia|].
    destruct (Hnum k s Hin) as (v & Hv & Hv'). simplify_eq. unfold valid_version in Hv. lia. }
  intros v Hv. split.
  - intros [s Hsv]. apply (Hmax (schemaKey n v) s v); [|by apply row_number_key, valid_i64].
    apply rows_spec. eauto.
  - intros Hle. destruct Hor as [-> |(k & s & Hin & Hk)]; [unfold valid_version in Hv; lia|].
    apply rows_spec in Hin as (Hkey & w & Hw & ->). rewrite row_number_key in Hk by (by apply valid_i64).
    simplify_eq. eapply (so_contig _ _ Hs n r); eauto. unfold valid_version in Hv. lia.
Qed.

Lemma history_loop_spec rows out :
  NoDup rows.*1 → (∀ k s, (k, s) ∈ rows → ∃ v, valid_version v ∧ k = schemaKey n v) →
  (∀ v, valid_version v → is_Some (out !! v) → schemaKey n v ∉ rows.*1) →
  ∃ h, history_loop n rows out = Ok h ∧
    ∀ v s, h !! v = Some s ↔ out !! v = Some s ∨ valid_version v ∧ (schemaKey n v, s) ∈ rows.
Proof.
  revert out. induction rows as [|[k s] rows IH]; intros out Hnd Hall Hout; simpl.
  { exists out. split; [done|]. intros v s. rewrite elem_of_nil. tauto. }
  destruct (Hall k s) as (v & Hv & ->); [left|]. rewrite row_number_key by (by apply valid_i64).
  rewrite fmap_cons in Hnd. apply NoDup_cons in Hnd as [Hnin Hnd]. simpl in Hnin.
  destruct (IH (<[v := s]> out)) as (h & -> & Hh); [done|..].
  - intros k' s' Hin. apply (Hall k' s'). by right.
  - intros w Hw. rewrite lookup_insert. case_decide as Hvw; [by subst|].
    intros Hi Hin. apply (Hout w Hw Hi). rewrite fmap_cons. by right.
  - exists h. split; [done|]. intros w s'. rewrite Hh, lookup_insert, elem_of_cons. case_decide as Hvw.
    + subst w. assert (out !! v = None) as ->.
      { apply eq_None_not_Some. intros Hi. apply (Hout v Hv Hi). rewrite fmap_cons. left. }
      split; [|].
      * intros [[= ->]|[_ Hin]]; [tauto|]. destruct Hnin. apply list_elem_of_fmap.
        exists (schemaKey n v, s'). done.
      * intros [?|[_ [[= ->]|Hin]]]; [done|tauto|]. tauto.
    + split; [tauto|]. intros [?|[Hw [Heq|?]]]; [tauto| |tauto].
      injection Heq as Heq ->. apply schemaKey_valid in Heq as [_ ->]; done.
Qed.

Lemma history_spec b :
  schemas b = S → ∃ h, loadSchemaHistory b n = Ok h ∧
    ∀ v s, h !! v = Some s ↔ valid_version v ∧ S !! schemaKey n v = Some s.
Proof.
  intros HS. unfold loadSchemaHistory. rewrite HS.
  destruct (history_loop_spec (rows_of n S) ∅) as (h & Hh & Hspec).
  - unfold rows_of. rewrite in_key_order_perm. apply NoDup_fst_map_to_list.
  - intros k s (_ & v & Hv & ->)%rows_spec. eauto.
  - intros v _ [s Hs']. by rewrite lookup_empty in Hs'.
  - exists h. split; [done|]. intros v s. rewrite Hspec, lookup_empty, rows_spec.
    split; [intros [?|(? & ? & _)]; done|]. intros [Hv Hk]. right. eauto.
Qed.
End Scan.

(** ** Changes to the topics alone *)

Lemma sch_topics T T' S :
  sch_ok T S →
  (∀ n t, T !! n = Some t → IsRemoteChild t = false → ∃ t', T' !! n = Some t' ∧ IsRemoteChild t' = false) →
  (∀ c t', T' !! c = Some t' → IsChild t' = true → IsRemoteChild t' = false →
     ∃ t, T !! c = Some t ∧ IsChild t = true ∧ IsRemoteChild t = false ∧ t_Parent t' = t_Parent t) →
  sch_ok T' S.
Proof.
  intros [Hk Hc Hch] H1 H2. split; [|done|].
  - intros k s (n & v & t & -> & Hv & Ht & Hr)%Hk. destruct (H1 n t Ht Hr) as (t' & ? & ?). naive_solver.
  - intros c t' v Ht' Hc' Hr' Hv. destruct (H2 c t' Ht' Hc' Hr') as (t & Ht & Hct & Hrt & ->). eauto.
Qed.

(** One record written with its child link unchanged. *)
Lemma sch_insert T S n t t' :
  sch_ok T S → T !! n = Some t → IsRemoteChild t' = IsRemoteChild t →
  (IsChild t' = true → IsChild t = true ∧ t_Parent t' = t_Parent t) →
  sch_ok (<[n := t']> T) S.
Proof.
  intros Hs Hn Hr Hl. apply (sch_topics T); [done|..].
  - intros m tm Hm Hrm. rewrite lookup_insert. case_decide; [|eauto]. subst m. simplify_eq. eexists. by rewrite Hr.
  - intros c tc Hc Hch Hrc. apply lookup_insert_Some in Hc as [[<- <-]|[_ Hc]]; [|eauto].
    destruct (Hl Hch) as [Hcc Hp]. exists t. rewrite <-Hr. done.
Qed.

(** A new record that is not a local child. *)
Lemma sch_insert_new T S n t :
  sch_ok T S → T !! n = None → IsChild t = false ∨ IsRemoteChild t = true →
  sch_ok (<[n := t]> T) S.
Proof.
  intros Hs Hn Hl. apply (sch_topics T); [done|..].
  - intros m tm Hm Hrm. rewrite lookup_insert_ne by congruence. eauto.
  - intros c tc Hc Hch Hrc. apply lookup_insert_Some in Hc as [[<- <-]|[_ Hc]]; [|eauto].
    destruct Hl; congruence.
Qed.

(** A topic without a record has no rows. *)
Lemma absent_rows T S n k :
  fan_ok T → sch_ok T S → no_colon n → (∀ t, T !! n = Some t → IsRemoteChild t = true) →
  is_Some (S !! k) → has_prefix (row_prefix n) k = false.
Proof.
  intros Hf Hs Hn Habs [s Hk]. destruct (so_keys _ _ Hs k s Hk) as (m & v & t & -> & Hv & Ht & Hr).
  apply not_true_is_false. intros Hpre.
  apply has_prefix_key in Hpre; [|done|by apply (sh_colon _ t), (fo_shape _ Hf)].
  subst m. apply Habs in Ht. congruence.
Qed.

Lemma deletePrefix_id {A} p (M : gmap string A) :
  (∀ k, is_Some (M !! k) → has_prefix p k = false) → deletePrefix p M = (M, 0).
Proof.
  intros H. unfold deletePrefix. f_equal.
  - apply map_filter_id. intros k x Hk. apply H. eauto.
  - match goal with |- Z.of_nat (size ?m) = _ => assert (m = ∅) as -> end; [|by rewrite map_size_empty].
    apply map_empty. intros k. apply map_lookup_filter_None. right.
    intros x Hk. simpl. rewrite (H k) by eauto. done.
Qed.

Lemma topic_no_colon T n t : fan_ok T → T !! n = Some t → no_colon n.
Proof. intros Hf Hn. by apply (sh_colon _ t), (fo_shape _ Hf). Qed.

Lemma parent_no_colon T c t : fan_ok T → T !! c = Some t → IsChild t = true → no_colon (t_Parent t).
Proof. intros Hf Hc Hch. destruct (child_linked T c t Hf Hc Hch) as (tp & Hp & _). by eapply topic_no_colon. Qed.

(** ** Deleting a topic's rows *)

Lemma deletePrefix_key {A} n m v (M : gmap string A) :
  no_colon n → no_colon m →
  (deletePrefix (row_prefix n) M).1 !! schemaKey m v = if decide (m = n) then None else M !! schemaKey m v.
Proof.
  intros Hn Hm. unfold deletePrefix. simpl. destruct (decide (m = n)) as [-> |Hne].
  - apply map_lookup_filter_None. right. intros x _. simpl.
    rewrite (proj2 (has_prefix_key n n v Hn Hn)); done.
  - destruct (M !! schemaKey m v) as [x|] eqn:E.
    + apply map_lookup_filter_Some. split; [done|]. simpl. apply not_true_is_false.
      intros Hpre. apply has_prefix_key in Hpre; congruence.
    + apply map_lookup_filter_None. by left.
Qed.

Lemma sch_delete T T' S n :
  fan_ok T → sch_ok T S → no_colon n →
  (∀ m t, m ≠ n → T !! m = Some t → IsRemoteChild t = false → ∃ t', T' !! m = Some t' ∧ IsRemoteChild t' = false) →
  (∀ c t', T' !! c = Some t' → IsChild t' = true → IsRemoteChild t' = false →
     c ≠ n ∧ t_Parent t' ≠ n ∧ ∃ t, T !! c = Some t ∧ IsChild t = true ∧ IsRemoteChild t = false
       ∧ t_Parent t' = t_Parent t) →
  sch_ok T' (deletePrefix (row_prefix n) S).1.
Proof.
  intros Hf Hs Hn H1 H2. split.
  - intros k s Hk. unfold deletePrefix in Hk. simpl in Hk. apply map_lookup_filter_Some in Hk as [Hk Hpre].
    destruct (so_keys _ _ Hs k s Hk) as (m & v & t & -> & Hv & Ht & Hr). simpl in Hpre.
    assert (m ≠ n) as Hmn.
    { intros ->. rewrite (proj2 (has_prefix_key n n v Hn Hn)) in Hpre by done. done. }
    destruct (H1 m t Hmn Ht Hr) as (t' & ? & ?). naive_solver.
  - intros m v w Hm. rewrite !deletePrefix_key by done. case_decide; [by intros []|].
    by apply (so_contig _ _ Hs).
  - intros c t' v Hc Hch Hr Hv. destruct (H2 c t' Hc Hch Hr) as (Hcn & Hpn & t & Ht & Hcht & Hrt & Hp).
    pose proof (parent_no_colon T c t Hf Ht Hcht) as Hpc. rewrite Hp in *.
    rewrite !deletePrefix_key, !decide_False by (done || by eapply topic_no_colon). by apply (so_child _ _ Hs).
Qed.

(** ** Registering a version *)

Lemma put_schemas_lookup names v s (S : schema_map) m w :
  (∀ n, n ∈ names → no_colon n) → no_colon m → valid_version v → valid_version w →
  foldl (λ M n, <[schemaKey n v := s]> M) S names !! schemaKey m w =
    if decide (m ∈ names ∧ w = v) then Some s else S !! schemaKey m w.
Proof.
  intros Hnames Hm Hv Hw. revert S. induction names as [|n names IH]; intros S; cbn [foldl].
  { rewrite decide_False; [done|]. by intros [?%elem_of_nil _]. }
  rewrite IH by (intros; apply Hnames; by right).
  destruct (decide (m ∈ names ∧ w = v)) as [Hd|Hd].
  { rewrite decide_True; [done|]. destruct Hd. split; [by right|done]. }
  rewrite lookup_insert. destruct (decide (schemaKey n v = schemaKey m w)) as [Heq|Hne].
  - apply schemaKey_valid in Heq as [-> ->]; [|apply Hnames; left|done..].
    rewrite decide_True; [done|]. split; [left|done].
  - rewrite decide_False; [done|]. intros [[-> |Hin]%elem_of_cons ->]; [done|]. tauto.
Qed.

Lemma put_schemas_elem names v s (S : schema_map) k x :
  foldl (λ M n, <[schemaKey n v := s]> M) S names !! k = Some x →
  S !! k = Some x ∨ ∃ n, n ∈ names ∧ k = schemaKey n v.
Proof.
  revert S. induction names as [|n names IH]; intros S; cbn [foldl]; [auto|].
  intros [Hk|(m & Hm & ->)]%IH.
  - apply lookup_insert_Some in Hk as [[<- _]|[_ Hk]]; [right; exists n; split; [left|done]|by left].
  - right. exists m. split; [by right|done].
Qed.

Lemma sch_put T S names v s :
  fan_ok T → sch_ok T S → valid_version v →
  (∀ n, n ∈ names → ∃ t, T !! n = Some t ∧ IsRemoteChild t = false) →
  (∀ n w, n ∈ names → valid_version w → is_Some (S !! schemaKey n w) ↔ w < v) →
  (∀ c tc, T !! c = Some tc → IsChild tc = true → IsRemoteChild tc = false →
     c ∈ names ↔ t_Parent tc ∈ names) →
  sch_ok T (foldl (λ M n, <[schemaKey n v := s]> M) S names).
Proof.
  intros Hf Hs Hv Hex Hlen Hcl.
  assert (∀ n, n ∈ names → no_colon n) as Hcol.
  { intros n (t & Ht & _)%Hex. by eapply topic_no_colon. }
  split.
  - intros k x [Hk|(n & Hn & ->)]%put_schemas_elem; [by apply (so_keys _ _ Hs k x)|].
    destruct (Hex n Hn) as (t & Ht & Hr). naive_solver.
  - intros n u w Hn Hu Hvu Hw. rewrite put_schemas_lookup in Hu |- * by (done || unfold valid_version in *; lia).
    destruct (decide (n ∈ names ∧ w = v)) as [|Hd]; [done|].
    destruct (decide (n ∈ names ∧ u = v)) as [[Hin ->]|Hd']; [|by eapply (so_contig _ _ Hs n u)].
    apply Hlen; [done|unfold valid_version in *; lia|]. destruct (decide (w = v)); [tauto|lia].
  - intros c tc u Hc Hch Hr Hu. pose proof (parent_no_colon T c tc Hf Hc Hch) as Hp.
    rewrite !put_schemas_lookup by (done || by eapply topic_no_colon).
    pose proof (Hcl c tc Hc Hch Hr) as Hiff.
    destruct (decide (t_Parent tc ∈ names ∧ u = v)) as [[Hin ->]|Hd].
    + rewrite decide_True by tauto. apply agree_refl.
    + rewrite decide_False by tauto. by apply (so_child _ _ Hs).
Qed.

(** ** Attaching a local child *)

(** The new link needs the two histories to agree; nothing else changes. *)
Lemma sch_link T T' S c tc' :
  sch_ok T S → T' !! c = Some tc' → IsRemoteChild tc' = false →
  (∀ n t, T !! n = Some t → IsRemoteChild t = false → ∃ t', T' !! n = Some t' ∧ IsRemoteChild t' = false) →
  (∀ m t', T' !! m = Some t' → m ≠ c → IsChild t' = true → IsRemoteChild t' = false →
     ∃ t, T !! m = Some t ∧ IsChild t = true ∧ IsRemoteChild t = false ∧ t_Parent t' = t_Parent t) →
  (∀ v, valid_version v → agree (S !! schemaKey (t_Parent tc') v) (S !! schemaKey c v)) →
  sch_ok T' S.
Proof.
  intros [Hk Hc Hch] Htc Hrc H1 H2 Hag. split; [|done|].
  - intros k s (n & v & t & -> & Hv & Ht & Hr)%Hk. destruct (H1 n t Ht Hr) as (t' & ? & ?). naive_solver.
  - intros m t' v Ht' Hc' Hr' Hv. destruct (decide (m = c)) as [-> |Hm].
    + assert (t' = tc') as -> by congruence. by apply Hag.
    + destruct (H2 m t' Ht' Hm Hc' Hr') as (t & Ht & Hct & Hrt & ->). eauto.
Qed.

Lemma adopt_loop_lookup (l : list (Z * string)) c (S : schema_map) m w :
  NoDup l.*1 → (∀ p, p ∈ l → valid_version p.1) → no_colon c → no_colon m → valid_version w →
  foldl (λ M p, <[schemaKey c p.1 := p.2]> M) S l !! schemaKey m w =
    match (list_to_map l : gmap Z string) !! w with
    | Some s => if decide (m = c) then Some s else S !! schemaKey m w
    | None => S !! schemaKey m w
    end.
Proof.
  intros Hnd Hval Hc Hm Hw. revert S. induction l as [|[v s] l IH]; intros S; [done|].
  rewrite fmap_cons in Hnd. apply NoDup_cons in Hnd as [Hnin Hnd]. cbn [foldl].
  rewrite IH by (done || intros; apply Hval; by right). simpl.
  assert (valid_version v) as Hv by (apply (Hval (v, s)); left).
  destruct (decide (v = w)) as [-> |Hvw].
  - rewrite lookup_insert_eq, (not_elem_of_list_to_map_1 l w) by done. rewrite lookup_insert.
    destruct (decide (m = c)) as [-> |Hmc]; [by rewrite decide_True|].
    rewrite decide_False; [done|]. intros [Heq _]%schemaKey_valid; congruence.
  - rewrite (lookup_insert_ne (list_to_map l)) by done.
    rewrite (lookup_insert_ne S); [done|]. intros [_ Heq]%schemaKey_valid; congruence.
Qed.

Lemma adopt_loop_elem (l : list (Z * string)) c (S : schema_map) k x :
  foldl (λ M p, <[schemaKey c p.1 := p.2]> M) S l !! k = Some x →
  S !! k = Some x ∨ ∃ p, p ∈ l ∧ k = schemaKey c p.1.
Proof.
  revert S. induction l as [|p l IH]; intros S; cbn [foldl]; [auto|].
  intros [Hk|(q & Hq & ->)]%IH.
  - apply lookup_insert_Some in Hk as [[<- _]|[_ Hk]]; [right; exists p; split; [left|done]|by left].
  - right. exists q. split; [by right|done].
Qed.

Lemma sortedVersions_perm h : sortedVersions h ≡ₚ map_to_list h.
Proof. apply merge_sort_Permutation. Qed.

Lemma adopt_lookup h c b m w :
  (∀ v s, h !! v = Some s → valid_version v) → no_colon c → no_colon m → valid_version w →
  schemas (adopt_history c h b) !! schemaKey m w =
    match h !! w with
    | Some s => if decide (m = c) then Some s else schemas b !! schemaKey m w
    | None => schemas b !! schemaKey m w
    end.
Proof.
  intros Hval Hc Hm Hw. unfold adopt_history. simpl.
  assert (NoDup (sortedVersions h).*1) as Hnd by (rewrite sortedVersions_perm; apply NoDup_fst_map_to_list).
  rewrite adopt_loop_lookup; try done.
  - rewrite (list_to_map_proper (sortedVersions h) (map_to_list h)) by (done || apply sortedVersions_perm).
    by rewrite list_to_map_to_list.
  - intros [v s]. rewrite sortedVersions_perm, elem_of_map_to_list. apply Hval.
Qed.

(** An empty history adopts the parent's. *)
Lemma sch_adopt T b p c h :
  fan_ok T → sch_ok T (schemas b) → no_colon p → p ≠ c →
  (∃ t, T !! c = Some t ∧ IsRemoteChild t = false) →
  (∀ t, T !! c = Some t → IsChild t = false ∧ IsParent t = false) →
  (∀ v s, h !! v = Some s ↔ valid_version v ∧ schemas b !! schemaKey p v = Some s) →
  (∀ v, valid_version v → schemas b !! schemaKey c v = None) →
  sch_ok T (schemas (adopt_history c h b))
  ∧ ∀ v, valid_version v →
      agree (schemas (adopt_history c h b) !! schemaKey p v) (schemas (adopt_history c h b) !! schemaKey c v).
Proof.
  intros Hf Hs Hp Hpc [tc [Hc Hrc]] Hun Hh Hnone. set (S' := schemas (adopt_history c h b)).
  pose proof (topic_no_colon T c tc Hf Hc) as Hcc.
  assert (∀ m w, no_colon m → valid_version w →
            S' !! schemaKey m w = if decide (m = c) then schemas b !! schemaKey p w else schemas b !! schemaKey m w) as Hlk.
  { intros m w Hm Hw. subst S'. rewrite adopt_lookup; [|intros v s; rewrite Hh; tauto|done..].
    destruct (h !! w) as [s|] eqn:E.
    - apply Hh in E as [_ ->]. done.
    - destruct (decide (m = c)) as [-> |]; [|done]. rewrite Hnone by done. symmetry.
      apply eq_None_not_Some. intros [s Hx]. by rewrite (proj2 (Hh w s)) in E. }
  split.
  - split.
    + intros k x Hk. subst S'. unfold adopt_history in Hk. simpl in Hk.
      apply adopt_loop_elem in Hk as [Hk|([v s] & Hin & ->)]; [by apply (so_keys _ _ Hs k x)|].
      rewrite sortedVersions_perm, elem_of_map_to_list, Hh in Hin. exists c, v, tc. naive_solver.
    + intros n v w Hn Hv Hvv Hw. rewrite Hlk in Hv |- * by (done || unfold valid_version in *; lia).
      destruct (decide (n = c)); by eapply (so_contig _ _ Hs _ v).
    + intros x tx v Hx Hch Hr Hv. pose proof (parent_no_colon T x tx Hf Hx Hch) as Hxp.
      rewrite !Hlk by (done || by eapply topic_no_colon).
      assert (x ≠ c) as Hxc by (intros ->; destruct (Hun tx Hx); congruence).
      rewrite (decide_False (P := x = c)) by done. rewrite decide_False; [by apply (so_child _ _ Hs)|].
      intros Heq. destruct (child_linked T x tx Hf Hx Hch) as (tp & Htp & Hin). rewrite Heq in Htp.
      destruct (Hun tp Htp) as [_ Hnp]. assert (IsParent tp = true); [|congruence].
      apply (sh_parent _ _ (fo_shape _ Hf _ _ Htp)). intros Hnil. rewrite Hnil in Hin. by apply elem_of_nil in Hin.
  - intros v Hv. rewrite !Hlk by done. rewrite decide_False, decide_True by done. apply agree_refl.
Qed.

(** ** Comparing histories *)

Lemma histories_equal_spec eqv a b :
  histories_equal eqv a b = true →
  (∀ v x, a !! v = Some x → ∃ y, b !! v = Some y ∧ eqv x y = true) ∧ dom b ⊆ dom a.
Proof.
  unfold histories_equal. rewrite andb_true_iff, Nat.eqb_eq, forallb_forall. intros [Hsz Hall].
  assert (∀ v x, a !! v = Some x → ∃ y, b !! v = Some y ∧ eqv x y = true) as Hfwd.
  { intros v x Hv. specialize (Hall (v, x)). rewrite <-list_elem_of_In, elem_of_map_to_list in Hall.
    specialize (Hall Hv). simpl in Hall. destruct (b !! v) as [y|]; [eauto|done]. }
  split; [done|].
  assert (dom a = dom b) as ->; [|done].
  apply set_subseteq_size_eq.
  - intros v. rewrite !elem_of_dom. intros [x (y & -> & _)%Hfwd]. done.
  - rewrite !size_dom. lia.
Qed.
