(* ===== verification/MetaInv.v ===== *)
(** * The metastore invariant

    The fan-out and schema invariants with the key discipline of the other
    buckets, and its preservation by every handler of the state machine.
    The commands are assumed to be as their proposers build them
    ([command_ok]): a created topic comes without link fields, and topic
    names obey [topic.ValidateName]. *)

From S2P Require Import Prelude Decimal Keys Json Meta Versions FsmTopics FsmCluster FsmRemotes Fsm FanInv SchemaInv.

(** Follows a handler that returned a value through its guards. *)
Ltac inv_ok H :=
  repeat match type of H with
  | rbind ?c _ = Ok _ => let E := fresh "E" in destruct c eqn:E; cbn [rbind] in H; [|discriminate H]
  | (match ?x with _ => _ end) = Ok _ =>
      let E := fresh "E" in destruct x eqn:E; try discriminate H
  | Ok _ = Ok _ => injection H; clear H; intros; subst
  end.

(** Reads a bucket of a written record of buckets. *)
Ltac buckets_cbn :=
  cbn [deleteTopicRecords putTopicRecord set_topics set_schemas set_assignments topics schemas assignments
       members users removed_members remotes remote_keys].

Definition assign_ok (A : gmap string Assignment) : Prop :=
  map_Forall (λ k a, k = assignmentKey (a_Topic a) (a_Partition a)
                     ∧ no_colon (a_Topic a) ∧ in_i64 (a_Partition a)) A.

(** The buckets the topic handlers write. *)
Record core_ok (b : buckets) : Prop := {
  co_fan : fan_ok (topics b);
  co_sch : sch_ok (topics b) (schemas b);
  co_assign : assign_ok (assignments b);
}.

Record meta_ok (b : buckets) : Prop := {
  mo_core : core_ok b;
  mo_members : map_Forall (λ k m, m_ID m = k ∧ removed_members b !! k = None) (members b);
  mo_users : map_Forall (λ k u, u_Username u = k) (users b);
  mo_remotes : map_Forall (λ k r, r_Name r = k ∧ reservedRemoteKey k = false ∧ k ≠ "") (remotes b);
  mo_remotes_cap : countRemotes b <= MaxRemotes;
}.

(** The buckets the topic handlers leave alone. *)
Definition rest_same (b b' : buckets) : Prop :=
  members b' = members b ∧ users b' = users b ∧ removed_members b' = removed_members b
  ∧ remotes b' = remotes b ∧ remote_keys b' = remote_keys b.

Lemma meta_core b b' : meta_ok b → rest_same b b' → core_ok b' → meta_ok b'.
Proof.
  intros [_ Hm Hu Hr Hc] (Em & Eu & Ed & Er & _) Hcore.
  split; unfold countRemotes in *; rewrite ?Em, ?Eu, ?Ed, ?Er; done.
Qed.

Lemma core_frame b b' :
  core_ok b → topics b' = topics b → schemas b' = schemas b → assignments b' = assignments b → core_ok b'.
Proof. intros [Hf Hs Ha] Et Es Ea. split; by rewrite ?Et, ?Es, ?Ea. Qed.

(** ** Lookups *)

Lemma getTopic_ok b n t : getTopicRecord b n = Ok t ↔ topics b !! n = Some t.
Proof. unfold getTopicRecord. destruct (topics b !! n); naive_solver. Qed.

Lemma core_name b n t : core_ok b → topics b !! n = Some t → t_Name t = n.
Proof. intros Hc Ht. by apply (fan_names _ (co_fan _ Hc)). Qed.

(** ** Creating *)

Lemma create_core b t :
  core_ok b → fresh_topic t → no_colon (t_Name t) → t_Name t ≠ "" → topics b !! t_Name t = None →
  core_ok (putTopicRecord t b).
Proof.
  intros [Hf Hs Ha] Hfr Hc Hne Hn. destruct (fresh_roles t Hfr) as [_ Hch].
  split; simpl; [by apply fan_create|apply sch_insert_new; auto|done].
Qed.

(** ** Reconfiguring *)

Lemma checkDelay_ok d r :
  0 <= d <= MaxFanoutDelayMs → checkDelayAgainstRetention d r = Ok tt → buffers r d.
Proof.
  unfold checkDelayAgainstRetention, buffers, MaxFanoutDelayMs, MinRetentionMs. intros Hd.
  destruct (Z.leb_spec d 0); simpl; [lia|]. destruct (Z.eqb_spec r 0); simpl; [lia|].
  i64_norm. case_match eqn:E; [done|]. apply Z.ltb_ge in E. lia.
Qed.

Lemma config_loop_spec b cs r h0 h :
  fan_ok (topics b) → config_children_loop b cs r h0 = Ok h →
  (∀ c t, c ∈ cs → topics b !! c = Some t → buffers r (t_FanoutDelayMs t))
  ∧ (h0 = true → h = true) ∧ (∀ c, c ∈ cs → is_stub (topics b) c = true → h = true).
Proof.
  intros Hf. revert h0. induction cs as [|c cs IH]; intros h0 H; cbn [config_children_loop] in H.
  { simplify_eq. split_and!; [|done|]; intros; exfalso; by eapply not_elem_of_nil. }
  unfold getTopicRecord in H. destruct (topics b !! c) as [t|] eqn:Ht.
  - inv_ok H. destruct a. destruct (IH _ H) as (H1 & H2 & H3). split_and!.
    + intros c' t' [-> |Hin]%elem_of_cons Ht'; [|by eapply H1]. simplify_eq.
      apply checkDelay_ok; [|done]. apply (sh_delay _ _ (fo_shape _ Hf _ _ Ht)).
    + intros ->. by apply H2.
    + intros c' [-> |Hin]%elem_of_cons Hst; [|by apply (H3 c')].
      unfold is_stub in Hst. rewrite Ht in Hst. apply H2. rewrite Hst. apply orb_true_r.
  - destruct (IH _ H) as (H1 & H2 & H3). split_and!; [|done|].
    + intros c' t' [-> |Hin]%elem_of_cons Ht'; [congruence|by eapply H1].
    + intros c' [-> |Hin]%elem_of_cons Hst; [|by apply (H3 c')]. unfold is_stub in Hst. by rewrite Ht in Hst.
Qed.

Lemma shrink_floor cur next :
  retentionShrinks cur next = false → cur = 0 ∨ MinRemoteSourceRetentionMs <= cur →
  next = 0 ∨ MinRemoteSourceRetentionMs <= next.
Proof.
  unfold retentionShrinks. destruct (Z.eqb_spec next 0); [auto|]. destruct (Z.eqb_spec cur 0); [done|].
  intros E%Z.ltb_ge. lia.
Qed.

Lemma floor_ok r : checkRemoteSourceRetention r = Ok tt → r = 0 ∨ MinRemoteSourceRetentionMs <= r.
Proof.
  unfold checkRemoteSourceRetention. case_match eqn:E; [|done]. intros _.
  apply orb_true_iff in E as [E%Z.eqb_eq|E%Z.leb_le]; auto.
Qed.

(** The link fields are carried over. *)
Definition carries (cur t : Topic) : Prop :=
  t_Name t = t_Name cur ∧ t_Role t = t_Role cur ∧ t_Children t = t_Children cur
  ∧ t_Parent t = t_Parent cur ∧ t_FanoutDelayMs t = t_FanoutDelayMs cur ∧ t_Remote t = t_Remote cur.

Lemma carries_same_link cur t : carries cur t → same_link cur t.
Proof. unfold carries, same_link, target_of. intros (? & ? & ? & ? & ? & ->). done. Qed.

Lemma config_core b cur t u :
  core_ok b → topics b !! t_Name cur = Some cur → carries cur t → checkConfigUpdate b cur t = Ok u →
  core_ok (putTopicRecord t b).
Proof.
  intros [Hf Hs Ha] Hcur Hca Hck. pose proof (carries_same_link _ _ Hca) as Hsl.
  destruct (same_link_roles _ _ Hsl) as (Hp & Hc & Hr). destruct Hca as (Hn & _ & Hcs & Hpa & _ & Hre).
  pose proof (fo_shape _ Hf _ _ Hcur) as Hsh. unfold checkConfigUpdate in Hck.
  destruct (IsRemoteChild cur && negb (sameTopicRecord t cur)) eqn:Estub; [done|].
  assert ((∀ c tc, c ∈ t_Children cur → topics b !! c = Some tc → buffers (t_RetentionMs t) (t_FanoutDelayMs tc))
          ∧ (∀ c, c ∈ t_Children cur → is_stub (topics b) c = true →
               t_RetentionMs t = 0 ∨ MinRemoteSourceRetentionMs <= t_RetentionMs t)) as [Hb Hfl].
  { destruct (IsParent t) eqn:Ep; cbn [negb] in Hck.
    - rewrite Hcs in Hck. inv_ok Hck.
      all: destruct (config_loop_spec _ _ _ _ _ Hf E) as (H1 & _ & H3); split; [done|].
      + intros c Hin Hst. by destruct u; apply floor_ok.
      + intros c Hin Hst. rewrite (H3 c Hin Hst) in E0. simpl in E0.
        apply (shrink_floor _ _ E0). by apply (fo_floor _ Hf c (t_Name cur)).
    - assert (t_Children cur = []) as ->; [|split; intros; exfalso; by eapply not_elem_of_nil].
      destruct (t_Children cur) eqn:Ec; [done|]. rewrite (proj2 (sh_parent _ _ Hsh)) in Hp; [done|by rewrite Ec]. }
  split; simpl; [|rewrite Hn; by apply (sch_insert _ _ _ cur); rewrite ?Hc|done].
  apply (fan_config _ cur); try done. intros Hrn. rewrite Hre in Hrn.
  rewrite (proj2 (remote_child_iff _ _ Hsh) Hrn) in Estub. simpl in Estub.
  apply negb_false_iff, bool_decide_eq_true in Estub. subst t. by apply (sh_remote _ _ Hsh).
Qed.

(** ** Attaching *)

Lemma agree_histories eqv b p c hp hc :
  (∀ x y, eqv x y = true → jsonValueEqual x y = true) →
  (∀ v s, hp !! v = Some s ↔ valid_version v ∧ schemas b !! schemaKey p v = Some s) →
  (∀ v s, hc !! v = Some s ↔ valid_version v ∧ schemas b !! schemaKey c v = Some s) →
  histories_equal eqv hp hc = true →
  ∀ v, valid_version v → agree (schemas b !! schemaKey p v) (schemas b !! schemaKey c v).
Proof.
  intros Heqv Hp Hc Heq v Hv. destruct (histories_equal_spec _ _ _ Heq) as [Hfwd Hdom].
  assert (∀ (h : gmap Z string) n, (∀ v s, h !! v = Some s ↔ valid_version v ∧ schemas b !! schemaKey n v = Some s) →
            schemas b !! schemaKey n v = h !! v) as Hrw.
  { intros h n Hh. destruct (h !! v) as [s|] eqn:E; [by apply Hh in E as [_ ->]|].
    apply eq_None_not_Some. intros [s Hs]. by rewrite (proj2 (Hh v s)) in E. }
  rewrite (Hrw _ _ Hp), (Hrw _ _ Hc). destruct (hp !! v) as [x|] eqn:Ex.
  - destruct (Hfwd v x Ex) as (y & -> & Hxy). by apply Heqv.
  - destruct (hc !! v) as [y|] eqn:Ey; [|done].
    assert (v ∈ dom hp) as [x Hx]%elem_of_dom by (by apply Hdom, elem_of_dom). congruence.
Qed.

Lemma empty_history b n (h : gmap Z string) :
  (∀ v s, h !! v = Some s ↔ valid_version v ∧ schemas b !! schemaKey n v = Some s) →
  (size h =? 0)%nat = true → ∀ v, valid_version v → schemas b !! schemaKey n v = None.
Proof.
  intros Hh Hsz%Nat.eqb_eq v Hv. apply map_size_empty_inv in Hsz. subst h.
  apply eq_None_not_Some. intros [s Hs]. specialize (Hh v s). rewrite lookup_empty in Hh. naive_solver.
Qed.

(** After the histories are reconciled they agree, and nothing but the
    child's history has changed. *)
Lemma reconcile_spec b p c tp tc rules b' ad :
  core_ok b → topics b !! p = Some tp → topics b !! c = Some tc → p ≠ c →
  IsParent tc = false → IsChild tc = false →
  reconcileSchemasForAttach b p c rules = Ok (b', ad) →
  (b' = set_schemas (schemas b') b) ∧ sch_ok (topics b) (schemas b')
  ∧ (∀ v, valid_version v → agree (schemas b' !! schemaKey p v) (schemas b' !! schemaKey c v))
  ∧ (ad = false → b' = b).
Proof.
  intros [Hf Hs Ha] Htp Htc Hpc Hnp Hnc H. unfold reconcileSchemasForAttach in H.
  assert (b = set_schemas (schemas b) b) as Hid by (by destruct b).
  pose proof (topic_no_colon _ _ _ Hf Htp) as Hcp. pose proof (topic_no_colon _ _ _ Hf Htc) as Hcc.
  destruct (history_spec _ _ Hf Hs p Hcp b eq_refl) as (hp & Ep & Hp).
  destruct (history_spec _ _ Hf Hs c Hcc b eq_refl) as (hc & Ec & Hc).
  rewrite Ep, Ec in H. cbn [rbind] in H. destruct (size hc =? 0)%nat eqn:Ehc.
  - pose proof (empty_history _ _ _ Hc Ehc) as Hcn. destruct (size hp =? 0)%nat eqn:Ehp.
    + inv_ok H. split_and!; try done. intros v Hv. rewrite Hcn, (empty_history _ _ _ Hp Ehp) by done. done.
    + assert (b' = adopt_history c hp b ∧ ad = true) as [-> ->].
      { destruct (rule_budgets rules); inv_ok H; done. }
      destruct (sch_adopt (topics b) b p c hp) as [H1 H2]; try done.
      * exists tc. split; [done|]. unfold IsRemoteChild. rewrite Hnc. by destruct (t_Remote tc).
      * intros t Ht. by simplify_eq.
  - destruct (size hp =? 0)%nat eqn:Ehp; [done|]. inv_ok H. split_and!; try done.
    destruct (byValue rules).
    + by apply (agree_histories jsonValueEqual _ p c hp hc).
    + apply (agree_histories (λ x y, bool_decide (x = y)) _ p c hp hc); try done.
      intros x y Hxy%bool_decide_eq_true. subst y. apply jsonValueEqual_refl.
Qed.

Lemma linked_topics_old (T : topic_map) p c tp tc' :
  T !! p = Some tp → IsChild tp = false →
  (∀ n t, T !! n = Some t → IsRemoteChild t = false → n ≠ c →
     ∃ t', <[c := tc']> (<[p := linked_parent c tp]> T) !! n = Some t' ∧ IsRemoteChild t' = false)
  ∧ (∀ m t', <[c := tc']> (<[p := linked_parent c tp]> T) !! m = Some t' → m ≠ c → IsChild t' = true →
       T !! m = Some t').
Proof.
  intros Hp Htp. destruct (linked_parent_roles c tp) as (_ & Hlc & Hlr). split.
  - intros n t Hn Hr Hnc. rewrite lookup_insert_ne by done. rewrite lookup_insert. case_decide; eauto.
  - intros m t' Hm Hmc Hch. rewrite lookup_insert_ne in Hm by done.
    apply lookup_insert_Some in Hm as [[<- <-]|[_ Hm]]; [congruence|done].
Qed.

Lemma attach_core b l rules b' ad :
  core_ok b → attachChildTx l rules b = Ok (b', ad) → core_ok b' ∧ rest_same b b'.
Proof.
  intros Hcore H. pose proof Hcore as [Hf Hs Ha]. unfold attachChildTx in H.
  destruct (decide (cl_Parent l = cl_Child l)) as [|Hpc]; [done|].
  destruct (getTopicRecord b (cl_Parent l)) as [tp|] eqn:Htp; cbn [rbind] in H; [|done].
  destruct (getTopicRecord b (cl_Child l)) as [tc|] eqn:Htc; cbn [rbind] in H; [|done].
  apply getTopic_ok in Htp, Htc. set (p := cl_Parent l) in *. set (c := cl_Child l) in *.
  destruct (IsChild tp) eqn:Hpch; [done|]. destruct (IsParent tc) eqn:Hcp; [done|].
  destruct (IsChild tc) eqn:Hcch; [by destruct (bool_decide (t_Parent tc = p))|]. cbn [andb] in H.
  destruct (Z.leb_spec MaxChildrenPerParent (Z.of_nat (length (t_Children tp)))); [done|].
  destruct (Z.ltb_spec (cl_DelayMs l) 0); [done|]. destruct (Z.ltb_spec MaxFanoutDelayMs (cl_DelayMs l)); [done|].
  destruct (checkDelayAgainstRetention _ _) as [[]|] eqn:Ed; cbn [rbind] in H; [|done].
  destruct (reconcileSchemasForAttach b p c rules) as [[b1 ad1]|] eqn:Er; cbn [rbind] in H; [|done].
  injection H as <- <-.
  destruct (reconcile_spec b p c tp tc rules b1 ad1) as (Hb1 & Hs1 & Hag & _); try done.
  assert (unlinked (topics b) c) as Hun by (right; exists tc; done).
  assert (t_Remote tc = None) as Hrem.
  { destruct (t_Remote tc) eqn:Erm; [|done]. destruct (sh_remote _ _ (fo_shape _ Hf _ _ Htc)); [by rewrite Erm|congruence]. }
  set (tc' := set_child_link p (cl_Epoch l) (cl_DelayMs l) (cl_Offsets l) tc).
  assert (topics (putTopicRecord tc' (putTopicRecord (linked_parent c tp) b1))
            = <[c := tc']> (<[p := linked_parent c tp]> (topics b))) as Htop.
  { simpl. rewrite (core_name b c tc), (core_name b p tp) by done. rewrite Hb1. done. }
  assert (IsRemoteChild tc' = false) as Hr' by (unfold IsRemoteChild; simpl; by rewrite Hrem).
  destruct (linked_topics_old (topics b) p c tp tc' Htp Hpch) as [Hold Hnew].
  split; [split|].
  - fold (linked_parent c tp). rewrite Htop. apply fan_link; try done.
    + destruct (fo_shape _ Hf _ _ Htc) as [S1 S2 S3 S4 S5 S6 S7 S8 S9]. split; try done.
      split; [done|]. intros Hne%S4. congruence.
    + by apply checkDelay_ok.
    + intros Hx. congruence.
    + unfold target_of at 1. simpl. rewrite Hrem. done.
  - fold (linked_parent c tp). rewrite Htop. simpl.
    apply (sch_link (topics b) _ _ c tc'); try done.
    + by rewrite lookup_insert_eq.
    + intros n t Hn Hr. destruct (decide (n = c)) as [-> |]; [|by eapply Hold]. exists tc'. by rewrite lookup_insert_eq.
    + intros m t' Hm Hmc Hch Hr. exists t'. split; [by apply Hnew|done].
  - simpl. rewrite Hb1. done.
  - unfold rest_same. simpl. rewrite Hb1. done.
Qed.

(** ** Detaching and deleting *)

Section CutSchemas.
Context (X : string → Prop) (T T' : topic_map) (S : schema_map).
Context (Hf : fan_ok T) (Hcut : cut X T T') (Hs : sch_ok T S).

Lemma cut_local n t t' :
  T !! n = Some t → T' !! n = Some t' → IsRemoteChild t = false → IsRemoteChild t' = false.
Proof.
  intros Hn Hn' Hr. destruct (ct_some _ _ _ Hcut n t' Hn') as (t0 & Ht0 & Hor).
  assert (t0 = t) as -> by congruence. unfold IsRemoteChild in *.
  destruct Hor as [(_ & _ & _ & ->)|(_ & Hk)].
  - simpl. by destruct (t_Remote t).
  - by rewrite (kp_remote _ _ _ Hk), (kp_child _ _ _ Hk).
Qed.

Lemma cut_child c t' :
  T' !! c = Some t' → IsChild t' = true → IsRemoteChild t' = false →
  ∃ t, T !! c = Some t ∧ IsChild t = true ∧ IsRemoteChild t = false ∧ t_Parent t' = t_Parent t.
Proof.
  intros Hc Hch Hr. destruct (ct_some _ _ _ Hcut c t' Hc) as (t & Ht & [(_ & _ & _ & ->)|(_ & Hk)]); [done|].
  exists t. unfold IsRemoteChild in *.
  rewrite (kp_remote _ _ _ Hk), (kp_child _ _ _ Hk) in Hr. rewrite (kp_child _ _ _ Hk) in Hch.
  split_and!; [done..|apply Hk].
Qed.

Lemma sch_cut :
  (∀ n t, T !! n = Some t → IsRemoteChild t = false → is_Some (T' !! n)) → sch_ok T' S.
Proof.
  intros Hex. apply (sch_topics T); [done| |apply cut_child].
  intros n t Hn Hr. destruct (Hex n t Hn Hr) as [t' Ht']. exists t'. split; [done|]. by eapply cut_local.
Qed.

Lemma sch_cut_delete name :
  no_colon name → T' !! name = None →
  (∀ n t, n ≠ name → T !! n = Some t → IsRemoteChild t = false → is_Some (T' !! n)) →
  sch_ok T' (deletePrefix (row_prefix name) S).1.
Proof.
  intros Hcol Hnone Hex. apply (sch_delete T); [done..| |].
  - intros n t Hne Hn Hr. destruct (Hex n t Hne Hn Hr) as [t' Ht']. exists t'. split; [done|]. by eapply cut_local.
  - intros c t' Hc Hch Hr. split; [congruence|]. split; [|by apply cut_child].
    destruct (child_linked T' c t' (fan_cut _ _ _ Hf Hcut) Hc Hch) as (tp & Htp & _). congruence.
Qed.
End CutSchemas.

Lemma assign_delete p A : assign_ok A → assign_ok (deletePrefix p A).1.
Proof. intros Ha k a [Hk _]%map_lookup_filter_Some. by apply Ha. Qed.

Lemma unlink_name c t : t_Name (unlinkChild c t) = t_Name t.
Proof. unfold unlinkChild. by destruct (filter _ _). Qed.

Lemma stub_rows b c :
  core_ok b → no_colon c → is_stub (topics b) c = true →
  deletePrefix (row_prefix c) (schemas b) = (schemas b, 0).
Proof.
  intros [Hf Hs _] Hc Hst. apply deletePrefix_id. intros k Hk.
  eapply (absent_rows (topics b) (schemas b) c k Hf Hs Hc); [|done].
  intros t Ht. unfold is_stub in Hst. by rewrite Ht in Hst.
Qed.

Lemma detach_core b p c tp tc b' st :
  core_ok b → topics b !! p = Some tp → topics b !! c = Some tc →
  detachChildTx p c tp tc b = Ok (b', st) → core_ok b' ∧ rest_same b b'.
Proof.
  intros Hcore Hp Hc H. pose proof Hcore as [Hf Hs Ha]. unfold detachChildTx in H.
  destruct (IsChild tc) eqn:Hch; [|done]. destruct (bool_decide (t_Parent tc = p)) eqn:Hpar; [|done].
  apply bool_decide_eq_true in Hpar. cbn [negb orb] in H.
  pose proof (core_name b p tp Hcore Hp) as Hnp. pose proof (core_name b c tc Hcore Hc) as Hnc.
  destruct (IsRemoteChild tc) eqn:Hr; injection H as <- <-.
  - split; [|done].
    assert (cut (λ x, x = c) (topics b) (delete c (<[p := unlinkChild c tp]> (topics b)))) as Hcut.
    { apply (cut_one _ _ p c tp tc); try done; [intros m Hm; by rewrite lookup_delete_ne|].
      left. by rewrite lookup_delete_eq. }
    split; buckets_cbn; rewrite ?unlink_name, ?Hnp.
    + by eapply fan_cut.
    + rewrite (stub_rows b c); [|done|by eapply topic_no_colon|unfold is_stub; by rewrite Hc].
      eapply sch_cut; [done..|]. intros n t Hn Hrn. destruct (decide (n = c)) as [-> |]; [congruence|].
      rewrite lookup_delete_ne, lookup_insert by done. case_decide; [done|]. by rewrite Hn.
    + by apply assign_delete.
  - split; [|done].
    assert (cut (λ x, x = c) (topics b) (<[c := clear_child_link tc]> (<[p := unlinkChild c tp]> (topics b)))) as Hcut.
    { apply (cut_one _ _ p c tp tc); try done; [intros m Hm; by rewrite lookup_insert_ne|].
      right. by rewrite lookup_insert_eq. }
    split; simpl; rewrite ?unlink_name, ?Hnp, ?Hnc; [by eapply fan_cut| |done].
    eapply sch_cut; [done..|]. intros n t Hn Hrn. rewrite !lookup_insert. repeat case_decide; [done..|]. by rewrite Hn.
Qed.

Definition stubs_have_no_rows (b : buckets) : Prop :=
  ∀ c t, topics b !! c = Some t → IsRemoteChild t = true →
    deletePrefix (row_prefix c) (schemas b) = (schemas b, 0).

Lemma core_stub_rows b : core_ok b → stubs_have_no_rows b.
Proof.
  intros Hc c t Ht Hr. apply stub_rows; [done|by eapply topic_no_colon; [apply Hc|]|].
  unfold is_stub. by rewrite Ht.
Qed.

Lemma clear_not_stub t : IsRemoteChild (clear_child_link t) = false.
Proof. unfold IsRemoteChild. simpl. by destruct (t_Remote t). Qed.

(** Dissolving writes the topics and the deleted stubs' assignments only. *)
Lemma dissolve_rest name children b linked stubs :
  stubs_have_no_rows b →
  let b' := (dissolve_children name children b linked stubs).1.1 in
  schemas b' = schemas b ∧ rest_same b b' ∧ (assign_ok (assignments b) → assign_ok (assignments b')).
Proof.
  revert b linked stubs. induction children as [|c children IH]; intros b linked stubs Hst; [done|].
  cbn [dissolve_children]. unfold getTopicRecord. destruct (topics b !! c) as [t|] eqn:Ht; [|by apply IH].
  destruct (IsRemoteChild t && bool_decide (t_Parent t = name)) eqn:Hr.
  - apply andb_true_iff in Hr as [Hr _]. pose proof (Hst c t Ht Hr) as Hno.
    destruct (IH (deleteTopicRecords c b) linked (stubs ++ [c])) as (Hs & Hrest & Has).
    { intros m tm Hm Hrm. buckets_cbn. rewrite Hno. simpl in Hm. apply lookup_delete_Some in Hm as [_ Hm]. by apply (Hst m tm). }
    split_and!; [|done|].
    + rewrite Hs. buckets_cbn. by rewrite Hno.
    + intros Ha. apply Has. buckets_cbn. by apply assign_delete.
  - apply (IH (putTopicRecord (clear_child_link t) b)). intros m tm Hm Hrm. simpl in *.
    apply lookup_insert_Some in Hm as [[_ <-]|[_ Hm]]; [|by apply (Hst m tm)].
    by rewrite clear_not_stub in Hrm.
Qed.

(** Deleting a parent or a standalone topic. *)
Lemma delete_top_core b name t linked stubs b1 l1 s1 :
  core_ok b → topics b !! name = Some t → IsChild t = false →
  (b1, l1, s1) = (if IsParent t then dissolve_children name (t_Children t) b linked stubs else (b, linked, stubs)) →
  core_ok (deleteTopicRecords name b1) ∧ rest_same b (deleteTopicRecords name b1).
Proof.
  intros Hcore Ht Hch Heq. pose proof Hcore as [Hf Hs Ha]. pose proof (fo_shape _ Hf _ _ Ht) as Hsh.
  assert (∀ m, topics b1 !! m = if decide (m ∈ t_Children t) then topics b !! m ≫= dissolved name else topics b !! m)
    as Htop.
  { destruct (IsParent t) eqn:Hp.
    - intros m. assert (b1 = (dissolve_children name (t_Children t) b linked stubs).1.1) as -> by (by rewrite <-Heq).
      rewrite dissolve_topics, foldl_alter_lookup by (by apply fan_names || apply Hsh). done.
    - injection Heq as -> -> ->. intros m. assert (t_Children t = []) as ->; [|done].
      destruct (t_Children t) eqn:E; [done|]. rewrite (proj2 (sh_parent _ _ Hsh)) in Hp; [done|by rewrite E]. }
  assert (schemas b1 = schemas b ∧ rest_same b b1 ∧ assign_ok (assignments b1)) as (Hs1 & Hr1 & Ha1).
  { destruct (IsParent t).
    - destruct (dissolve_rest name (t_Children t) b linked stubs (core_stub_rows b Hcore)) as (H1 & H2 & H3).
      rewrite <-Heq in *. auto.
    - by injection Heq as -> -> ->. }
  assert (cut (λ x, x ∈ t_Children t) (topics b) (delete name (topics b1))) as Hcut.
  { apply (cut_all _ _ name t); try done; [by rewrite lookup_delete_eq|..].
    - intros m Hm Hin. rewrite lookup_delete_ne, Htop, decide_False by done. done.
    - intros m tm Hin Hm. destruct (linked_child _ _ _ _ Hf Ht Hin) as (Hmn & tm0 & Htm0 & _ & Hp & _).
      rewrite lookup_delete_ne, Htop, decide_True by done. rewrite Hm. simplify_eq. simpl. unfold dissolved.
      destruct (IsRemoteChild tm); simpl; [left; by rewrite bool_decide_eq_true_2|by right]. }
  split; [|done]. split; buckets_cbn.
  - by eapply fan_cut.
  - rewrite Hs1. eapply sch_cut_delete; try done; [by eapply topic_no_colon|by rewrite lookup_delete_eq|].
    intros n tn Hne Hn Hr. rewrite lookup_delete_ne, Htop by done. rewrite Hn. case_decide; [|done].
    simpl. unfold dissolved. by rewrite Hr.
  - by apply assign_delete.
Qed.

Lemma delete_core b name b' linked stubs :
  core_ok b → deleteTopicTx name b = Ok (b', linked, stubs) → core_ok b' ∧ rest_same b b'.
Proof.
  intros Hcore H. pose proof Hcore as [Hf Hs Ha]. unfold deleteTopicTx, dissolveFanoutLinks in H.
  destruct (getTopicRecord b name) as [t|] eqn:Ht; cbn [rbind] in H; [|done]. apply getTopic_ok in Ht.
  destruct (if IsParent t then dissolve_children name (t_Children t) b [] [] else (b, [], []))
    as [[b1 l1] s1] eqn:Eb1.
  destruct (IsChild t) eqn:Hch; cbn [andb] in H; cycle 1.
  { cbn [rbind] in H. injection H as <- <- <-. by eapply delete_top_core. }
  assert (IsParent t = false) as Hp.
  { destruct (IsParent t) eqn:E; [|done]. apply role_excl in E. congruence. }
  rewrite Hp in Eb1. injection Eb1 as <- <- <-.
  destruct (child_linked _ _ _ Hf Ht Hch) as (tp & Htp & Hin).
  assert (t_Parent t ≠ "") as Hpne by (apply (sh_nonempty _ _ (fo_shape _ Hf _ _ Htp))).
  rewrite bool_decide_eq_false_2 in H by done. cbn [negb] in H.
  unfold getTopicRecord in H. rewrite Htp in H. cbn [rbind] in H. injection H as <- <- <-.
  pose proof (core_name _ _ _ Hcore Htp) as Hnp.
  assert (cut (λ x, x = name) (topics b) (delete name (<[t_Parent t := unlinkChild name tp]> (topics b)))) as Hcut.
  { apply (cut_one _ _ (t_Parent t) name tp t); try done; [intros m Hm; by rewrite lookup_delete_ne|].
    left. by rewrite lookup_delete_eq. }
  split; [|done]. split; buckets_cbn; rewrite ?unlink_name, ?Hnp; [by eapply fan_cut| |by apply assign_delete].
  eapply sch_cut_delete; try done; [by eapply topic_no_colon|by rewrite lookup_delete_eq|].
  intros n tn Hne Hn Hr. rewrite lookup_delete_ne, lookup_insert by done. case_decide; [done|]. by rewrite Hn.
Qed.

(** ** Stubs *)

Lemma elem_of_stubs b t : t ∈ stubs b ↔ IsRemoteChild t = true ∧ ∃ n, topics b !! n = Some t.
Proof.
  unfold stubs. rewrite list_elem_of_filter, list_elem_of_fmap. split.
  - intros [Hr ([n t'] & -> & Hin)]. apply elem_of_in_key_order in Hin. eauto.
  - intros [Hr [n Hn]]. split; [done|]. exists (n, t). split; [done|]. by apply elem_of_in_key_order.
Qed.

(** No stub links the target. *)
Lemma stubLinkingTarget_none b rn rt n t :
  fan_ok (topics b) → stubLinkingTarget b rn rt = "" → topics b !! n = Some t → target_of t ≠ Some (rn, rt).
Proof.
  intros Hf Hnone Hn Ht. pose proof (fo_shape _ Hf _ _ Hn) as Hsh.
  assert (IsRemoteChild t = true) as Hr.
  { apply (remote_child_iff _ _ Hsh). intros He. unfold target_of in Ht. by rewrite He in Ht. }
  unfold stubLinkingTarget in Hnone.
  destruct (List.find (links_target rn rt) (stubs b)) as [t'|] eqn:E.
  - simpl in Hnone. apply find_some in E as [Hin%list_elem_of_In _]. apply elem_of_stubs in Hin as [_ [m Hm]].
    pose proof (fo_shape _ Hf _ _ Hm) as Hsh'. rewrite (sh_name _ _ Hsh') in Hnone. by apply (sh_nonempty _ _ Hsh').
  - assert (links_target rn rt t = false) as Hl.
    { eapply find_none; [exact E|]. apply list_elem_of_In, elem_of_stubs. eauto. }
    unfold links_target in Hl. unfold target_of in Ht. destruct (t_Remote t) as [l|]; [|done].
    simpl in Ht. injection Ht as <- <-. by rewrite bool_decide_eq_true_2 in Hl.
Qed.

Lemma stub_core b op b' bs :
  core_ok b → no_colon (ar_Stub op) → applyAttachRemoteChild op b = Ok (b', bs) → core_ok b' ∧ rest_same b b'.
Proof.
  intros Hcore Hcol H. pose proof Hcore as [Hf Hs Ha]. unfold applyAttachRemoteChild in H.
  destruct (checkAttachRemoteChildOp op) as [[]|] eqn:Eck; cbn [rbind] in H; [|done].
  destruct (getTopicRecord b (ar_Parent op)) as [tp|] eqn:Htp; cbn [rbind] in H; [|done].
  apply getTopic_ok in Htp. destruct (expectIncarnation _ _); cbn [rbind] in H; [|done].
  destruct (IsChild tp) eqn:Hch; [done|]. destruct (negb (remoteExists _ _)); [done|].
  destruct (topics b !! ar_Stub op) eqn:Hst; [done|].
  destruct (Z.leb_spec MaxChildrenPerParent (Z.of_nat (length (t_Children tp)))); [done|].
  destruct (Z.leb_spec MaxRemoteChildrenPerParent (countRemoteChildren b tp)) as [|Hcount]; [done|].
  destruct (checkRemoteSourceRetention _) as [[]|] eqn:Efl; cbn [rbind] in H; [|done].
  destruct (checkDelayAgainstRetention _ _) as [[]|] eqn:Ed; cbn [rbind] in H; [|done].
  destruct (decide (stubLinkingTarget _ _ _ ≠ "")) as [|Htgt]; [done|]. apply dec_stable in Htgt.
  injection H as <- <-. pose proof (core_name _ _ _ Hcore Htp) as Hnp.
  unfold checkAttachRemoteChildOp in Eck. destruct (decide _) as [|Hne]; [done|].
  destruct (decide (ar_Parent op = ar_Stub op)) as [|Hps]; [done|]. destruct (decide (ar_Epoch op = "")); [done|].
  destruct (Z.ltb_spec (ar_DelayMs op) 0); [done|].
  destruct (Z.ltb_spec MaxFanoutDelayMs (ar_DelayMs op)); [done|].
  destruct (linked_topics_old (topics b) (ar_Parent op) (ar_Stub op) tp (new_stub op) Htp Hch) as [Hold Hnew].
  split; [|done]. split; buckets_cbn; fold (linked_parent (ar_Stub op) tp).
  - change (t_Name (new_stub op)) with (ar_Stub op). change (t_Name (linked_parent (ar_Stub op) tp)) with (t_Name tp).
    rewrite Hnp. apply fan_link; try done.
    + by left.
    + split; try done; [intros Hx; tauto|apply NoDup_nil_2].
    + by apply checkDelay_ok.
    + intros _. split; [by apply floor_ok|]. done.
    + intros m tm Hm _ _. by eapply stubLinkingTarget_none.
  - change (t_Name (new_stub op)) with (ar_Stub op). change (t_Name (linked_parent (ar_Stub op) tp)) with (t_Name tp).
    rewrite Hnp. apply (sch_topics (topics b)); [done|..].
    + intros m tm Hm Hr. apply (Hold m tm Hm Hr). congruence.
    + intros c tc Hc Hchc Hrc. destruct (decide (c = ar_Stub op)) as [-> |Hcs].
      * rewrite lookup_insert_eq in Hc. simplify_eq.
      * exists tc. split; [by apply Hnew|done].
  - done.
Qed.

Lemma changed_link_target L op l l' :
  changed_link L op l = Ok l' → rl_Name l' = rl_Name l ∧ rl_Topic l' = rl_Topic l.
Proof.
  unfold changed_link. intros H. inv_ok H; simplify_eq; simpl.
  all: repeat match goal with
       | H : (match ?x with _ => _ end) = _ |- _ => destruct x; simplify_eq; simpl in *
       | |- context [match ?x with _ => _ end] => destruct x; simpl
       end; try done.
Qed.

(** A record written with its link and retention unchanged. *)
Lemma same_core b cur t :
  core_ok b → topics b !! t_Name cur = Some cur → same_link cur t →
  t_RetentionMs t = t_RetentionMs cur → t_Partitions t = t_Partitions cur → core_ok (putTopicRecord t b).
Proof.
  intros [Hf Hs Ha] Hcur Hsl Hret Hpart. destruct (same_link_roles _ _ Hsl) as (Hp & Hc & Hr).
  pose proof (fo_shape _ Hf _ _ Hcur) as Hsh. pose proof Hsl as (Hn & _ & _ & Hpa & _ & Ht).
  split; simpl; [|rewrite Hn; by apply (sch_insert _ _ _ cur); rewrite ?Hc|done].
  apply (fan_config _ cur); try done; rewrite ?Hret, ?Hpart.
  - intros Hrn. apply (sh_remote _ _ Hsh). unfold target_of in Ht. by destruct (t_Remote t), (t_Remote cur).
  - intros c tc Hin Hc'. by apply (fo_delay _ Hf c tc (t_Name cur) cur).
  - intros c Hin Hst. by apply (fo_floor _ Hf c (t_Name cur) cur).
Qed.

Lemma state_core L b op b' bs :
  core_ok b → applySetRemoteChildState L op b = Ok (b', bs) → core_ok b' ∧ rest_same b b'.
Proof.
  intros Hcore H. unfold applySetRemoteChildState in H.
  destruct (getTopicRecord b (so_Stub op)) as [t|] eqn:Ht; cbn [rbind] in H; [|done]. apply getTopic_ok in Ht.
  destruct (t_Remote t) as [l|] eqn:El; [|done]. inv_ok H. split; [|done].
  pose proof (core_name _ _ _ Hcore Ht) as Hn. rewrite <-Hn in Ht.
  destruct (changed_link_target _ _ _ _ E1) as [Hrn Hrt].
  apply (same_core b t); try done. unfold same_link, target_of. simpl. rewrite El. simpl. by rewrite Hrn, Hrt.
Qed.

(** ** Registering a schema version *)

Lemma checkNext_spec b n v u :
  core_ok b → no_colon n → checkNextSchemaVersion b n v = Ok u →
  valid_version v ∧ ∀ w, valid_version w → is_Some (schemas b !! schemaKey n w) ↔ w < v.
Proof.
  intros [Hf Hs _] Hn H. unfold checkNextSchemaVersion in H.
  destruct (latest_spec _ _ Hf Hs n Hn b eq_refl) as (r & Er & Hr & Hiff). rewrite Er in H. cbn [rbind] in H.
  destruct (Z.leb_spec v r); [done|]. destruct (Z.eqb_spec v (r + 1)); [|done]. cbn [negb] in H.
  destruct (Z.ltb_spec MaxSchemaVersions v); [done|].
  split; [unfold valid_version; lia|]. intros w Hw. rewrite (Hiff w Hw). lia.
Qed.

Lemma check_children_spec b cs v u :
  check_children_versions b cs v = Ok u → ∀ c, c ∈ cs → checkNextSchemaVersion b c v = Ok tt.
Proof.
  revert u. induction cs as [|c cs IH]; intros u H c' Hin; [by apply elem_of_nil in Hin|].
  cbn [check_children_versions] in H. destruct (checkNextSchemaVersion b c v) as [[]|] eqn:E; [|done].
  cbn [rbind] in H. apply elem_of_cons in Hin as [-> |Hin]; [done|]. by eapply IH.
Qed.

Lemma localChildren_elem b n t c :
  core_ok b → topics b !! n = Some t →
  c ∈ localChildren b (t_Children t) ↔ ∃ tc, topics b !! c = Some tc ∧ IsChild tc = true
    ∧ IsRemoteChild tc = false ∧ t_Parent tc = n.
Proof.
  intros [Hf _ _] Hn. unfold localChildren. rewrite list_elem_of_filter. unfold is_local. split.
  - intros [Hl Hin]. destruct (linked_child _ _ _ _ Hf Hn Hin) as (_ & tc & Htc & Hch & Hp & _).
    rewrite Htc in Hl. exists tc. split_and!; try done. by apply negb_true_iff.
  - intros (tc & Htc & Hch & Hr & Hp). rewrite Htc, Hr. split; [done|].
    destruct (child_linked _ _ _ Hf Htc Hch) as (tn & Htn & Hin). congruence.
Qed.

Lemma put_schema_core b n t v s u u' :
  core_ok b → topics b !! n = Some t → IsChild t = false →
  checkNextSchemaVersion b n v = Ok u → check_children_versions b (localChildren b (t_Children t)) v = Ok u' →
  core_ok (put_schemas (n :: localChildren b (t_Children t)) v s b)
  ∧ rest_same b (put_schemas (n :: localChildren b (t_Children t)) v s b).
Proof.
  intros Hcore Hn Hch Hck Hcc. pose proof Hcore as [Hf Hs Ha]. split; [|done].
  pose proof (check_children_spec _ _ _ _ Hcc) as Hcc'.
  assert (IsRemoteChild t = false) as Hr by (unfold IsRemoteChild; rewrite Hch; by destruct (t_Remote t)).
  assert (∀ m, m ∈ n :: localChildren b (t_Children t) →
            ∃ tm, topics b !! m = Some tm ∧ IsRemoteChild tm = false ∧ ∃ u, checkNextSchemaVersion b m v = Ok u) as Hall.
  { intros m [-> |Hin]%elem_of_cons; [by exists t; split_and!; eauto|].
    pose proof (Hcc' m Hin). apply (localChildren_elem b n) in Hin as (tm & Htm & _ & Hrm & _); [|done..]. eauto. }
  split; [done| |done]. unfold put_schemas. buckets_cbn. apply sch_put; try done.
  - apply (checkNext_spec b n v u); [done|by eapply topic_no_colon|done].
  - intros m (tm & ? & ? & _)%Hall. eauto.
  - intros m w (tm & Htm & _ & um & Hum)%Hall. apply (checkNext_spec b m v um); [done|by eapply topic_no_colon|done].
  - intros c tc Hc Hcc2 Hrc. rewrite !elem_of_cons, !(localChildren_elem b n t) by done. split.
    + intros [-> |(tc' & Htc' & _ & _ & Hp)]; [congruence|]. left. congruence.
    + intros [Hp|(tp & Htp & Hchp & _)]; [right; exists tc; done|]. exfalso.
      destruct (child_linked _ _ _ Hf Hc Hcc2) as (tp' & Htp' & Hin). assert (tp' = tp) as -> by congruence.
      rewrite (child_no_children (t_Parent tc) tp) in Hin by (by apply Hf || done). by apply elem_of_nil in Hin.
Qed.

(** ** Creating in one entry *)

Lemma first_schema_core b n t s :
  core_ok b → topics b !! n = Some t → fresh_topic t → (∀ v, valid_version v → schemas b !! schemaKey n v = None) →
  core_ok (put_schemas [n] 1 s b).
Proof.
  intros [Hf Hs Ha] Hn Hfr Hno. destruct (fresh_roles t Hfr) as [_ Hch].
  split; [done| |done]. unfold put_schemas. buckets_cbn.
  apply sch_put; try done.
  - intros m Hm%list_elem_of_singleton. subst m. exists t. split; [done|].
    unfold IsRemoteChild. by rewrite (fr_remote _ Hfr).
  - intros m w Hm%list_elem_of_singleton Hw. subst m. rewrite Hno by done. unfold valid_version in Hw.
    split; [by intros []|intros ?; lia].
  - intros c tc Hc Hcc _. rewrite !list_elem_of_singleton. split; [intros ->; congruence|].
    intros Hp. destruct (child_linked _ _ _ Hf Hc Hcc) as (tp & Htp & Hin).
    assert (tp = t) as -> by congruence. rewrite (fr_children _ Hfr) in Hin. by apply elem_of_nil in Hin.
Qed.

(** The record, with no rows left over from an earlier incarnation. *)
Lemma create_rows_core b t rows n :
  core_ok b → fresh_topic t → no_colon (t_Name t) → t_Name t ≠ "" → topics b !! t_Name t = None →
  deletePrefix (row_prefix (t_Name t)) (assignments b) = (rows, n) →
  core_ok (set_schemas (schemas b) (set_assignments rows (putTopicRecord t b))).
Proof.
  intros Hcore Hfr Hcol Hne Hn Hrows. destruct (create_core b t Hcore Hfr Hcol Hne Hn) as [Hf Hs Ha].
  split; [done|done|]. buckets_cbn. replace rows with (deletePrefix (row_prefix (t_Name t)) (assignments b)).1
    by (by rewrite Hrows). by apply assign_delete, Hcore.
Qed.

Lemma rest_same_trans b1 b2 b3 : rest_same b1 b2 → rest_same b2 b3 → rest_same b1 b3.
Proof. intros (? & ? & ? & ? & ?) (? & ? & ? & ? & ?). split_and!; congruence. Qed.

Lemma fresh_no_rows b n :
  core_ok b → no_colon n → topics b !! n = None →
  deletePrefix (row_prefix n) (schemas b) = (schemas b, 0)
  ∧ ∀ v, schemas b !! schemaKey n v = None.
Proof.
  intros Hcore Hcol Hn.
  assert (∀ k, is_Some (schemas b !! k) → has_prefix (row_prefix n) k = false) as Hno.
  { intros k Hk. eapply (absent_rows (topics b)); try done; try apply Hcore. congruence. }
  split; [by apply deletePrefix_id|]. intros v. apply eq_None_not_Some. intros Hk%Hno.
  rewrite (proj2 (has_prefix_key n n v Hcol Hcol)) in Hk by done. done.
Qed.

Lemma create_with_core b bud p b' r :
  core_ok b → fresh_topic (cw_Topic p) → no_colon (t_Name (cw_Topic p)) → t_Name (cw_Topic p) ≠ "" →
  createTopicWithTx bud p b = Ok (b', r) → core_ok b' ∧ rest_same b b'.
Proof.
  intros Hcore Hfr Hcol Hne H. unfold createTopicWithTx in H. set (t := cw_Topic p) in *.
  destruct (topics b !! t_Name t) eqn:Hn; [done|]. destruct (foldedTopicName _ _); [done|].
  destruct (fresh_no_rows b (t_Name t) Hcore Hcol Hn) as [Hid Hnone].
  change (assignments (putTopicRecord t b)) with (assignments b) in H.
  change (schemas (putTopicRecord t b)) with (schemas b) in H. rewrite Hid in H.
  destruct (deletePrefix (row_prefix (t_Name t)) (assignments b)) as [rows nrows] eqn:Erows.
  pose proof (create_rows_core b t rows nrows Hcore Hfr Hcol Hne Hn Erows) as Hcore2.
  cbn beta iota zeta in H. set (b2 := set_schemas (schemas b) (set_assignments rows (putTopicRecord t b))) in *.
  assert (topics b2 !! t_Name t = Some t) as Ht2 by (simpl; by rewrite lookup_insert_eq).
  assert (∃ b3 changed, core_ok b3 ∧ rest_same b b3 ∧
            match cw_Link p with
            | None => Ok (b3, (0 <? nrows, changed))
            | Some l =>
                let! parent := getTopicRecord b3 (xl_Parent l) in
                let! _ := expectIncarnation parent (xl_ParentID l) in
                let! ba := attachChildTx (MkLink (xl_Parent l) (t_Name t) (xl_Epoch l) (xl_DelayMs l) (xl_Offsets l))
                             (MkRules true (Some bud)) b3 in
                let '(b, adopted) := ba in Ok (b, (0 <? nrows, changed || adopted))
            end = Ok (b', r)) as (b3 & ch & Hcore3 & Hrest3 & H3).
  { destruct (0 <? slen (cw_Schema p)).
    - destruct (budget_check _ _ _); cbn [rbind] in H; [|done]. eexists _, _. split; [|split; [|exact H]]; [|done].
      by apply (first_schema_core b2 (t_Name t) t).
    - cbn [rbind] in H. eexists _, _. by split; [|split; [|exact H]]. }
  clear H. destruct (cw_Link p) as [l|]; [|by injection H3 as <- <-].
  destruct (getTopicRecord b3 _); cbn [rbind] in H3; [|done].
  destruct (expectIncarnation _ _); cbn [rbind] in H3; [|done].
  destruct (attachChildTx _ _ b3) as [[b4 ad]|] eqn:E4; cbn [rbind] in H3; [|done]. injection H3 as <- <-.
  destruct (attach_core _ _ _ _ _ Hcore3 E4) as [? ?]. split; [done|]. by eapply rest_same_trans.
Qed.

(** ** Releasing a user's topics *)

Lemma owned_elem b u t : t ∈ topicsOwnedBy b u ↔ t_Owner t = u ∧ ∃ n, topics b !! n = Some t.
Proof.
  unfold topicsOwnedBy. rewrite list_elem_of_filter, list_elem_of_fmap. split.
  - intros [Hr ([n t'] & -> & Hin)]. apply elem_of_in_key_order in Hin. eauto.
  - intros [Hr [n Hn]]. split; [done|]. exists (n, t). split; [done|]. by apply elem_of_in_key_order.
Qed.

Lemma clear_owner_link t : same_link t (clear_owner t).
Proof. done. Qed.

(** Each topic written is the stored one without its owner. *)
Lemma release_core b l :
  core_ok b → (∀ t, t ∈ l → ∃ t0, topics b !! t_Name t = Some t0 ∧ clear_owner t0 = clear_owner t) →
  core_ok (foldl (λ b t, putTopicRecord (clear_owner t) b) b l)
  ∧ rest_same b (foldl (λ b t, putTopicRecord (clear_owner t) b) b l).
Proof.
  revert b. induction l as [|t l IH]; intros b Hcore Hl; [done|]. cbn [foldl].
  destruct (Hl t) as (t0 & Ht0 & Heq); [left|].
  assert (core_ok (putTopicRecord (clear_owner t) b)) as Hcore1.
  { rewrite <-Heq. apply (same_core b t0); try done. by rewrite (core_name _ _ _ Hcore Ht0). }
  destruct (IH (putTopicRecord (clear_owner t) b) Hcore1) as [H1 H2]; [|by split].
  intros t1 Hin. destruct (Hl t1) as (t2 & Ht2 & Heq2); [by right|]. simpl. rewrite lookup_insert.
  case_decide as Hnm; [|eauto]. exists (clear_owner t). split; [done|].
  assert (t0 = t2) as -> by (simpl in Hnm; congruence).
  change (clear_owner t = clear_owner t1). congruence.
Qed.

(** ** Every command *)

(** What the proposers of entries guarantee of a payload. *)
Definition command_ok (c : command) : Prop :=
  match c with
  | OpCreateTopic t => fresh_topic t ∧ ValidateTopicName (t_Name t) = true
  | OpCreateTopicWith p => fresh_topic (cw_Topic p) ∧ ValidateTopicName (t_Name (cw_Topic p)) = true
  | OpAttachRemoteChild op => ValidateTopicName (ar_Stub op) = true
  | OpAssignPartition a => ValidateTopicName (a_Topic a) = true ∧ in_i64 (a_Partition a)
  | OpAssignPartitionIfAbsent _ p _ _ => in_i64 p
  | _ => True
  end.

Lemma topic_handlers L bud c b b' bs ans :
  core_ok b → command_ok c → dispatch L bud c b = Ok (b', bs, ans) →
  match c with
  | OpCreateTopic _ | OpUpdateTopic _ | OpDeleteTopic _ | OpPutSchema _ | OpAttachChild _ | OpDetachChild _
  | OpCreateTopicWith _ | OpUpdateTopicIf _ _ | OpDeleteTopicIf _ _ | OpPutSchemaIf _ _ | OpAttachChildIf _ _ _
  | OpDetachChildIf _ _ _ _ | OpAttachRemoteChild _ | OpSetRemoteChildState _ => core_ok b' ∧ rest_same b b'
  | _ => True
  end.
Proof.
  intros Hcore Hok H.
  assert (∀ h : handled, plain h = Ok (b', bs, ans) → h = Ok (b', bs)) as Hplain.
  { intros [[b0 bs0]|e] Hp; simpl in Hp; congruence. }
  destruct c; try done; apply Hplain in H; clear Hplain.
  - destruct Hok as (Hfr & [Hcol Hne]%topic_name_ok). unfold applyCreateTopic in H. inv_ok H. split; [by apply create_core|done].
  - unfold applyUpdateTopic in H. inv_ok H. apply getTopic_ok in E.
    pose proof (core_name _ _ _ Hcore E) as Hn. rewrite <-Hn in E. split; [|done].
    by eapply (config_core _ a).
  - unfold applyDeleteTopic in H. inv_ok H. by eapply delete_core.
  - unfold applyPutSchema in H. inv_ok H. apply getTopic_ok in E. by eapply put_schema_core.
  - unfold applyAttachChild in H. inv_ok H. destruct a as [b1 ad]. by eapply attach_core.
  - unfold applyDetachChild in H. inv_ok H. apply getTopic_ok in E, E0. destruct a1 as [b1 st]. exact (detach_core _ _ _ _ _ _ _ Hcore E E0 E1).
  - destruct Hok as [Hfr [Hcol _]%topic_name_ok]. unfold applyCreateTopicWith in H. inv_ok H. by eapply create_with_core.
  - unfold applyUpdateTopicIf in H. inv_ok H. apply getTopic_ok in E.
    pose proof (core_name _ _ _ Hcore E) as Hn. rewrite <-Hn in E. split; [|done].
    by eapply (config_core _ a).
  - unfold applyDeleteTopicIf in H. inv_ok H. by eapply delete_core.
  - unfold applyPutSchemaIf in H. inv_ok H. apply getTopic_ok in E. by eapply put_schema_core.
  - unfold applyAttachChildIf in H. inv_ok H. destruct a0 as [b1 ad]. exact (attach_core _ _ _ _ _ Hcore E0).
  - unfold applyDetachChildIf in H. inv_ok H. apply getTopic_ok in E0, E1. destruct a2 as [b1 st]. exact (detach_core _ _ _ _ _ _ _ Hcore E0 E1 E2).
  - eapply stub_core; [done|by apply topic_name_ok|done].
  - by eapply state_core.
Qed.

Lemma plain_ok (h : handled) b bs ans : plain h = Ok (b, bs, ans) → h = Ok (b, bs) ∧ ans = None.
Proof. destruct h as [[b0 bs0]|e]; simpl; [|done]. intros H. by injection H as <- <- <-. Qed.

Lemma put_assignment_meta b a :
  meta_ok b → no_colon (a_Topic a) → in_i64 (a_Partition a) → meta_ok (putAssignment a b).
Proof.
  intros Hm Hcol Hp. apply (meta_core b); [done|done|]. destruct (mo_core _ Hm) as [Hf Hs Ha].
  split; [done|done|]. simpl. by apply map_Forall_insert_2.
Qed.

Lemma delete_assignment_meta b k : meta_ok b → meta_ok (set_assignments (delete k (assignments b)) b).
Proof.
  intros Hm. apply (meta_core b); [done|done|]. destruct (mo_core _ Hm) as [Hf Hs Ha].
  split; [done|done|]. simpl. by apply map_Forall_delete.
Qed.

Lemma read_assignment b t p a :
  meta_ok b → readAssignment b t p = Ok a →
  t = a_Topic a ∧ assignmentKey t p = assignmentKey (a_Topic a) (a_Partition a)
  ∧ no_colon (a_Topic a) ∧ in_i64 (a_Partition a).
Proof.
  intros Hm H. unfold readAssignment in H. destruct (assignments b !! assignmentKey t p) as [a0|] eqn:E; [|done].
  injection H as <-. apply (co_assign _ (mo_core _ Hm)) in E as (Hk & Hc & Hp).
  split; [|done]. by eapply assignmentKey_topic.
Qed.

Lemma assignment_handlers L bud c b b' bs ans :
  meta_ok b → command_ok c → dispatch L bud c b = Ok (b', bs, ans) →
  match c with
  | OpAssignPartition _ | OpSetAssignmentTarget _ _ _ | OpCompleteMove _ _ _ _ | OpAbortMove _ _ _
  | OpAssignPartitionIfAbsent _ _ _ _ | OpPruneAssignment _ _ => meta_ok b'
  | _ => True
  end.
Proof.
  intros Hm Hok H. destruct c; try done; apply plain_ok in H as [H _].
  - unfold applyAssignPartition in H. inv_ok H. destruct Hok as [[Hcol _]%topic_name_ok Hp]. by apply put_assignment_meta.
  - unfold applySetAssignmentTarget in H. inv_ok H; [done|].
    apply (read_assignment b) in E as (_ & _ & ? & ?); [|done]. by apply put_assignment_meta.
  - unfold applyCompleteMove in H. inv_ok H; [done|].
    apply (read_assignment b) in E as (_ & _ & ? & ?); [|done]. by apply put_assignment_meta.
  - unfold applyAbortMove in H. inv_ok H; [done|].
    apply (read_assignment b) in E as (_ & _ & ? & ?); [|done]. by apply put_assignment_meta.
  - unfold applyAssignPartitionIfAbsent in H. inv_ok H. apply getTopic_ok in E.
    apply put_assignment_meta; [done| |done]. by eapply topic_no_colon; [apply (mo_core _ Hm)|].
  - unfold applyPruneAssignment in H. inv_ok H; by apply delete_assignment_meta.
Qed.

Lemma put_member_meta b id m :
  meta_ok b → m_ID m = id → removed_members b !! id = None → meta_ok (putMember id m b).
Proof. intros [Hc Hm Hu Hr Hk] Hid Hrem. split; try done; [by apply (core_frame b)|]. by apply map_Forall_insert_2. Qed.

Lemma member_ids b id m : meta_ok b → getMember b id = Ok m → m_ID m = id ∧ removed_members b !! id = None.
Proof. intros Hm. unfold getMember. destruct (members b !! id) as [m0|] eqn:E; [|done]. intros [= <-]. by apply Hm. Qed.

Lemma member_handlers L bud c b b' bs ans :
  meta_ok b → dispatch L bud c b = Ok (b', bs, ans) →
  match c with
  | OpMemberJoin _ | OpMemberHeartbeat _ _ | OpMemberDead _ | OpSetMemberDraining _ _ | OpRemoveMember _ _
  | OpReadmitMember _ | OpMarkMemberDeadIf _ _ => meta_ok b'
  | _ => True
  end.
Proof.
  intros Hm H. destruct c; try done; apply plain_ok in H as [H _].
  - unfold applyMemberJoin, memberTombstoned in H. case_bool_decide as Hr; [done|].
    apply eq_None_not_Some in Hr. inv_ok H; by apply put_member_meta.
  - unfold applyMemberHeartbeat in H. inv_ok H. apply (member_ids b) in E as [? ?]; [|done]. by apply put_member_meta.
  - unfold applyMemberDead, mark_dead in H. inv_ok H. all: apply (member_ids b) in E as [? ?]; [|done]; by apply put_member_meta.
  - unfold applySetMemberDraining in H. inv_ok H. apply (member_ids b) in E as [? ?]; [|done]. by apply put_member_meta.
  - unfold applyRemoveMember in H. destruct Hm as [Hc Hm Hu Hr Hk].
    injection H as <- _. split; try done; [by apply (core_frame b)|]. intros k m. simpl. rewrite lookup_delete_Some. intros [Hne Hk'].
    rewrite lookup_insert_ne by done. by apply Hm.
  - unfold applyReadmitMember in H. destruct Hm as [Hc Hm Hu Hr Hk].
    injection H as <- _. split; try done; [by apply (core_frame b)|]. intros k m Hk'. simpl. destruct (Hm k m Hk') as [? Hrem]. split; [done|].
    rewrite lookup_delete. by case_decide.
  - unfold applyMarkMemberDeadIf, mark_dead in H. inv_ok H. all: apply (member_ids b) in E as [? ?]; [|done]; by apply put_member_meta.
Qed.

Lemma put_user_meta b n u : meta_ok b → u_Username u = n → meta_ok (putUser n u b).
Proof. intros [Hc Hm Hu Hr Hk] Hid. split; try done; [by apply (core_frame b)|]. by apply map_Forall_insert_2. Qed.

Lemma mutate_user_meta b n fn b' bs :
  meta_ok b → (∀ u u', fn u = Ok u' → u_Username u' = u_Username u) →
  mutateUser n fn b = Ok (b', bs) → meta_ok b'.
Proof.
  intros Hm Hfn H. unfold mutateUser in H. inv_ok H. apply put_user_meta; [done|].
  rewrite (Hfn _ _ E0). by apply (mo_users _ Hm).
Qed.

Lemma delete_user_meta b n b' : meta_ok b → deleteUserRecord n b = Ok b' → meta_ok b'.
Proof.
  intros [Hc Hm Hu Hr Hk] H. unfold deleteUserRecord in H. inv_ok H. split; try done; [by apply (core_frame b)|].
  simpl. by apply map_Forall_delete.
Qed.

Lemma user_handlers L bud c b b' bs ans :
  meta_ok b → dispatch L bud c b = Ok (b', bs, ans) →
  match c with
  | OpCreateUser _ | OpUpdateUser _ | OpDeleteUser _ | OpSeedRootUser _ | OpSetUserPassword _ _ _
  | OpSetUserGrants _ _ _ | OpDeleteUserReleaseTopics _ => meta_ok b'
  | _ => True
  end.
Proof.
  intros Hm H. destruct c; try done; apply plain_ok in H as [H _].
  - unfold applyCreateUser, putNewUser in H. inv_ok H. by apply put_user_meta.
  - unfold applyUpdateUser in H. inv_ok H. by apply put_user_meta.
  - unfold applyDeleteUser in H. inv_ok H. by eapply delete_user_meta.
  - unfold applySeedRootUser, putNewUser in H. inv_ok H. by apply put_user_meta.
  - eapply mutate_user_meta; [done| |done]. intros u u' [= <-]. done.
  - eapply mutate_user_meta; [done| |done]. simpl. intros u u' Hu. destruct (u_Root u); [done|]. by injection Hu as <-.
  - unfold applyDeleteUserReleaseTopics in H. inv_ok H. unfold releaseOwnedTopics in E0. injection E0 as <- <-.
    pose proof (delete_user_meta _ _ _ Hm E) as Hma.
    destruct (release_core a (topicsOwnedBy a username) (mo_core _ Hma)) as [Hc Hr].
    { intros t (_ & n & Hn)%owned_elem. exists t. rewrite (core_name _ _ _ (mo_core _ Hma) Hn). done. }
    by apply (meta_core a).
Qed.

(** *** Remotes *)

Lemma valid_name_key name : ValidateName name = true → reservedRemoteKey name = false ∧ name ≠ "".
Proof.
  unfold ValidateName, reservedRemoteKey. destruct name as [|c name]; [done|]. intros H. split; [|done].
  apply not_true_is_false. intros [r Hr]%has_prefix_true. injection Hr as -> _. simpl in H. done.
Qed.

Definition remotes_ok (R : gmap string RemoteRecord) : Prop :=
  map_Forall (λ k r, r_Name r = k ∧ reservedRemoteKey k = false ∧ k ≠ "") R.

Lemma count_remotes b : remotes_ok (remotes b) → countRemotes b = Z.of_nat (size (remotes b)).
Proof.
  intros Hr. unfold countRemotes. f_equal. f_equal. apply map_filter_id. intros k r Hk. by apply (Hr k r).
Qed.

Lemma remotes_meta b b' :
  meta_ok b → topics b' = topics b → schemas b' = schemas b → assignments b' = assignments b →
  members b' = members b → users b' = users b → removed_members b' = removed_members b →
  remotes_ok (remotes b') → Z.of_nat (size (remotes b')) <= MaxRemotes → meta_ok b'.
Proof.
  intros [Hc Hm Hu Hr Hk] Et Es Ea Em Eu Ed Hr' Hk'.
  split; rewrite ?Em, ?Eu, ?Ed; try done; [by apply (core_frame b)|]. by rewrite count_remotes.
Qed.

Lemma remotes_size b : meta_ok b → Z.of_nat (size (remotes b)) <= MaxRemotes.
Proof. intros Hm. rewrite <-count_remotes by apply Hm. apply Hm. Qed.

Lemma put_remote_meta op b b' bs ans :
  meta_ok b → applyPutRemote op b = Ok (b', bs, ans) → meta_ok b'.
Proof.
  intros Hm H. unfold applyPutRemote in H.
  destruct (ValidateName (r_Name (pr_Record op))) eqn:Hv; [|done]. cbn [negb orb] in H.
  case_match; [done|]. destruct (countSeal _ _ _) as [keys prior].
  destruct (put_remote_refusal b keys prior op) as [e|] eqn:Er.
  { injection H as <- <- <-. apply (remotes_meta b); try done; [apply Hm|by apply (remotes_size b)]. }
  injection H as <- <- <-. unfold put_remote_refusal in Er. case_match; [done|]. case_match; [done|].
  destruct (remotes b !! r_Name (pr_Record op)) eqn:Ex; [done|].
  destruct (Z.leb_spec MaxRemotes (countRemotes b)) as [|Hlt]; [done|]. rewrite count_remotes in Hlt by apply Hm.
  apply (remotes_meta b); try done; simpl.
  - apply map_Forall_insert_2; [split; [done|by apply valid_name_key]|apply Hm].
  - rewrite map_size_insert_None by done. lia.
Qed.

Lemma remote_fields_name rec f next : applyRemoteFields rec f = Ok next → r_Name next = r_Name rec.
Proof. unfold applyRemoteFields. intros H. inv_ok H; done. Qed.

Lemma getRemote_ok b n r : getRemoteRaw b n = Ok r → remotes b !! n = Some r.
Proof. unfold getRemoteRaw. intros H. by inv_ok H. Qed.

Lemma update_remote_meta L op b b' bs ans :
  meta_ok b → applyUpdateRemote L op b = Ok (b', bs, ans) → meta_ok b'.
Proof.
  intros Hm H. unfold applyUpdateRemote in H.
  destruct (match ur_Credential op with Some _ => _ | None => _ end) in H; [done|].
  destruct (match ur_Credential op with Some _ => _ | None => _ end) as [b1 prior] eqn:Eb1.
  assert (meta_ok b1 ∧ remotes b1 = remotes b) as [Hm1 Er1].
  { destruct (ur_Credential op) as [c|]; [|by injection Eb1 as <- <-].
    destruct (countSeal _ _ _) as [keys pr]. injection Eb1 as <- <-. split; [|done].
    apply (remotes_meta b); try done; [apply Hm|by apply (remotes_size b)]. }
  destruct (getRemoteRaw b1 (ur_Name op)) as [rec|] eqn:Eg; [|by injection H as <- <- <-].
  destruct (applyRemoteFields rec (ur_Fields op)) as [next|] eqn:Ef; [|by injection H as <- <- <-].
  destruct (checkRemoteUpdate _ _ _ _ _); injection H as <- <- <-; [done|].
  apply getRemote_ok in Eg. destruct (mo_remotes _ Hm1 _ _ Eg) as (Hn & Hres & Hne).
  apply (remotes_meta b1); try done; simpl; rewrite Hn.
  - apply map_Forall_insert_2; [|apply Hm1]. split; [|done]. rewrite <-Hn, <-(remote_fields_name _ _ _ Ef).
    unfold updated_remote. by destruct (ur_Credential op).
  - rewrite map_size_insert_Some by (by rewrite Eg). by apply remotes_size.
Qed.

Lemma delete_remote_meta n f b b' bs ans :
  meta_ok b → applyDeleteRemote n f b = Ok (b', bs, ans) → meta_ok b'.
Proof.
  intros Hm H. unfold applyDeleteRemote in H. destruct (getRemoteRaw b n); [|by injection H as <- <- <-].
  assert (meta_ok (set_remotes (delete n (remotes b)) b)) as Hd.
  { apply (remotes_meta b); try done; simpl; [apply map_Forall_delete, Hm|].
    pose proof (remotes_size b Hm). pose proof (map_subseteq_size _ _ (delete_subseteq (remotes b) n)). lia. }
  destruct (remoteChildrenNaming b n); [by injection H as <- <- <-|]. destruct f; by injection H as <- <- <-.
Qed.

(** Every committed transaction keeps the invariant. *)
Lemma dispatch_meta L bud c b b' bs ans :
  meta_ok b → command_ok c → dispatch L bud c b = Ok (b', bs, ans) → meta_ok b'.
Proof.
  intros Hm Hok H.
  pose proof (topic_handlers L bud c b b' bs ans (mo_core _ Hm) Hok H) as H1.
  pose proof (assignment_handlers L bud c b b' bs ans Hm Hok H) as H2.
  pose proof (member_handlers L bud c b b' bs ans Hm H) as H3.
  pose proof (user_handlers L bud c b b' bs ans Hm H) as H4.
  destruct c; try done; try (destruct H1; by eapply meta_core).
  - by eapply put_remote_meta.
  - by eapply update_remote_meta.
  - by eapply delete_remote_meta.
Qed.

Lemma empty_meta : meta_ok empty_buckets.
Proof.
  split; [|apply map_Forall_empty..|by rewrite count_remotes by apply map_Forall_empty].
  split; [|split|apply map_Forall_empty].
  - split; [apply map_Forall_empty|..].
    + intros c n. unfold parent_of, children_of. simpl. rewrite !lookup_empty. simpl. by rewrite elem_of_nil.
    + intros c tc n tn Hc. simpl in Hc; by rewrite lookup_empty in Hc.
    + intros c n tn Hn. simpl in Hn; by rewrite lookup_empty in Hn.
    + intros n tn Hn. simpl in Hn; by rewrite lookup_empty in Hn.
    + intros c c' tc tc' x Hc. simpl in Hc; by rewrite lookup_empty in Hc.
  - intros k s Hk. simpl in Hk; by rewrite lookup_empty in Hk.
  - intros n v w _ Hv. simpl in Hv. rewrite lookup_empty in Hv. by destruct Hv.
  - intros c tc v Hc. simpl in Hc; by rewrite lookup_empty in Hc.
Qed.
