(* ===== verification/Announce.v ===== *)
(** * Cache coherence of the metastore

    Readers cache decoded metadata and invalidate on the domain versions of
    [domain_versions.go].  This is sound when every committed change to
    what a reader of a domain sees comes with a version call for that
    domain and key: [announced].  The lemmas show it for each write a
    handler makes, and for every command. *)

From S2P Require Import Prelude Decimal Keys Json Meta Versions FsmTopics FsmCluster FsmRemotes Fsm FanInv SchemaInv MetaInv.

(** The rows a scan of a topic's prefix meets. *)
Definition under {A} (n : string) (M : gmap string A) : gmap string A :=
  filter (λ kv, has_prefix (row_prefix n) kv.1 = true) M.

(** What routing reads of a member. *)
Definition routing (m : Member) : string * string * string * string :=
  (m_ID m, m_Addr m, m_ClusterAddr m, m_Status m).

Record announced (bs : list bump) (b b' : buckets) : Prop := {
  an_topic : ∀ n, topics b' !! n = topics b !! n ∨ BTopic n ∈ bs ∨ BRetireTopic n ∈ bs;
  an_assignment : ∀ n, no_colon n → under n (assignments b') = under n (assignments b)
    ∨ BAssignment n ∈ bs ∨ BRetireAssignments n ∈ bs ∨ BRetireTopic n ∈ bs;
  an_schema : ∀ n, no_colon n → under n (schemas b') = under n (schemas b)
    ∨ BSchema n ∈ bs ∨ BRetireTopic n ∈ bs;
  an_members : routing <$> members b' = routing <$> members b ∨ BRoutingMembers ∈ bs;
  an_users : users b' = users b ∨ BUsers ∈ bs;
  an_remotes : remotes b' = remotes b ∨ BRemotes ∈ bs;
}.

#[global] Instance announced_preorder bs : PreOrder (announced bs).
Proof.
  split.
  - intros b. split; auto.
  - intros b1 b2 b3 [T1 A1 S1 M1 U1 R1] [T2 A2 S2 M2 U2 R2]. split.
    + intros n. destruct (T1 n) as [<- |?], (T2 n) as [-> |?]; auto.
    + intros n Hn. destruct (A1 n Hn) as [<- |?], (A2 n Hn) as [-> |?]; auto.
    + intros n Hn. destruct (S1 n Hn) as [<- |?], (S2 n Hn) as [-> |?]; auto.
    + destruct M1 as [<- |?], M2 as [-> |?]; auto.
    + destruct U1 as [<- |?], U2 as [-> |?]; auto.
    + destruct R1 as [<- |?], R2 as [-> |?]; auto.
Qed.

(** ** Rows *)

Lemma under_insert_other {A} n m r (M : gmap string A) x :
  no_colon n → no_colon m → n ≠ m → under n (<[row_prefix m +:+ r := x]> M) = under n M.
Proof.
  intros Hn Hm Hne. apply map_filter_insert_not'.
  - simpl. intros [r' Hr]%has_prefix_true. symmetry in Hr. apply row_prefix_inj in Hr as [? _]; done.
  - simpl. intros y _ [r' Hr]%has_prefix_true. symmetry in Hr. apply row_prefix_inj in Hr as [? _]; done.
Qed.

Lemma under_delete_other {A} n m r (M : gmap string A) :
  no_colon n → no_colon m → n ≠ m → under n (delete (row_prefix m +:+ r) M) = under n M.
Proof.
  intros Hn Hm Hne. apply map_filter_delete_not. intros y _ [r' Hr]%has_prefix_true.
  symmetry in Hr. apply row_prefix_inj in Hr as [? _]; done.
Qed.

Lemma under_deletePrefix_other {A} n m (M : gmap string A) :
  no_colon n → no_colon m → n ≠ m → under n (deletePrefix (row_prefix m) M).1 = under n M.
Proof.
  intros Hn Hm Hne. unfold under, deletePrefix. apply map_eq. intros k. apply option_eq. intros x.
  simpl. rewrite !map_lookup_filter_Some. simpl. split; [tauto|]. intros [Hk Hpre]. split_and!; try done.
  apply not_true_is_false. intros [r' Hr]%has_prefix_true. apply has_prefix_true in Hpre as [r Hpre].
  rewrite Hpre in Hr. apply row_prefix_inj in Hr as [? _]; done.
Qed.

(** ** Single writes *)

Section Writes.
Context (bs : list bump).

Lemma an_put_topic b t :
  BTopic (t_Name t) ∈ bs ∨ BRetireTopic (t_Name t) ∈ bs → announced bs b (putTopicRecord t b).
Proof.
  intros Hin. split; auto. intros n. simpl. rewrite lookup_insert. case_decide; [subst; auto|auto].
Qed.

Lemma an_delete_topic b n :
  no_colon n → BRetireTopic n ∈ bs → announced bs b (deleteTopicRecords n b).
Proof.
  intros Hn Hin. split; auto.
  - intros m. simpl. rewrite lookup_delete. case_decide; [subst; auto|auto].
  - intros m Hm. destruct (decide (m = n)) as [-> |]; [auto|]. left. by apply under_deletePrefix_other.
  - intros m Hm. destruct (decide (m = n)) as [-> |]; [auto|]. left. by apply under_deletePrefix_other.
Qed.

Lemma an_put_schema b n v s :
  no_colon n → BSchema n ∈ bs → announced bs b (set_schemas (<[schemaKey n v := s]> (schemas b)) b).
Proof.
  intros Hn Hin. split; auto. intros m Hm. destruct (decide (m = n)) as [-> |]; [auto|].
  left. by apply under_insert_other.
Qed.

Lemma an_put_assignment b a :
  no_colon (a_Topic a) → BAssignment (a_Topic a) ∈ bs → announced bs b (putAssignment a b).
Proof.
  intros Hn Hin. split; auto. intros m Hm. destruct (decide (m = a_Topic a)) as [-> |]; [auto|].
  left. by apply under_insert_other.
Qed.

Lemma an_delete_assignment b t p :
  no_colon t → BAssignment t ∈ bs ∨ BRetireAssignments t ∈ bs →
  announced bs b (set_assignments (delete (assignmentKey t p) (assignments b)) b).
Proof.
  intros Hn Hin. split; auto. intros m Hm. destruct (decide (m = t)) as [-> |]; [tauto|].
  left. by apply under_delete_other.
Qed.

Lemma an_put_schemas b names v s :
  (∀ n, n ∈ names → no_colon n ∧ BSchema n ∈ bs) → announced bs b (put_schemas names v s b).
Proof.
  unfold put_schemas. revert b. induction names as [|n names IH]; intros b Hall.
  - by destruct b.
  - cbn [foldl]. destruct (Hall n) as [Hn Hin]; [left|].
    etrans; [by apply (an_put_schema b n v s)|].
    refine (IH (set_schemas (<[schemaKey n v := s]> (schemas b)) b) _). intros m Hm. apply Hall. by right.
Qed.

Lemma an_adopt b c h : no_colon c → BSchema c ∈ bs → announced bs b (adopt_history c h b).
Proof.
  unfold adopt_history. intros Hc Hin. generalize (sortedVersions h). intros l. revert b.
  induction l as [|p l IH]; intros b; [by destruct b|]. cbn [foldl].
  etrans; [by apply (an_put_schema b c p.1 p.2)|].
  exact (IH (set_schemas (<[schemaKey c p.1 := p.2]> (schemas b)) b)).
Qed.

Lemma an_users_put b U : BUsers ∈ bs → announced bs b (set_users U b).
Proof. intros Hin. split; auto. Qed.

Lemma an_remotes_put b R : BRemotes ∈ bs → announced bs b (set_remotes R b).
Proof. intros Hin. split; auto. Qed.

Lemma an_keys b k : announced bs b (set_remote_keys k b).
Proof. split; auto. Qed.

Lemma an_member b id m m0 :
  members b !! id = Some m0 → routing m = routing m0 ∨ BRoutingMembers ∈ bs → announced bs b (putMember id m b).
Proof.
  intros Hm0 Hor. split; auto. destruct Hor as [Heq|]; [left|by right]. simpl.
  rewrite fmap_insert, Heq. apply insert_id. by rewrite lookup_fmap, Hm0.
Qed.

Lemma an_members_put b M R : BRoutingMembers ∈ bs → announced bs b (set_removed R (set_members M b)).
Proof. intros Hin. split; auto. Qed.
End Writes.

(** ** Transactions *)

Lemma reconcile_writes b p c rules b' ad :
  reconcileSchemasForAttach b p c rules = Ok (b', ad) →
  (ad = false ∧ b' = b) ∨ (ad = true ∧ ∃ h, b' = adopt_history c h b).
Proof.
  unfold reconcileSchemasForAttach. intros H. inv_ok H; eauto.
Qed.

Lemma an_attach bs b l rules b' ad :
  core_ok b → attachChildTx l rules b = Ok (b', ad) → bumpAttached (cl_Parent l) (cl_Child l) ad ⊆ bs →
  announced bs b b'.
Proof.
  intros Hcore H Hsub. unfold attachChildTx in H. inv_ok H. apply getTopic_ok in E0, E1.
  pose proof (core_name _ _ _ Hcore E0) as Hn0. pose proof (core_name _ _ _ Hcore E1) as Hn1.
  assert (announced bs b b0) as Hb0.
  { apply reconcile_writes in E10 as [[-> ->]|[-> [h ->]]]; [done|].
    apply an_adopt; [by eapply topic_no_colon; [apply Hcore|]|]. apply Hsub. unfold bumpAttached. set_solver. }
  etrans; [exact Hb0|]. etrans; apply an_put_topic; left; simpl; rewrite ?Hn0, ?Hn1; apply Hsub;
    unfold bumpAttached; set_solver.
Qed.

Lemma an_detach bs b p c tp tc b' st :
  core_ok b → topics b !! p = Some tp → topics b !! c = Some tc →
  detachChildTx p c tp tc b = Ok (b', st) → bumpDetached p c st ⊆ bs → announced bs b b'.
Proof.
  intros Hcore Hp Hc H Hsub. unfold detachChildTx in H.
  pose proof (core_name _ _ _ Hcore Hp) as Hnp. pose proof (core_name _ _ _ Hcore Hc) as Hnc.
  case_match; [done|]. destruct (IsRemoteChild tc); injection H as <- <-.
  - etrans; [apply an_put_topic|apply an_delete_topic].
    + left. rewrite unlink_name, Hnp. apply Hsub. left.
    + by eapply topic_no_colon; [apply Hcore|].
    + apply Hsub. right. left.
  - etrans; apply an_put_topic; left.
    + rewrite unlink_name, Hnp. apply Hsub. left.
    + simpl. rewrite Hnc. apply Hsub. right. left.
Qed.

Lemma dissolve_mono name cs b linked stubs :
  linked ⊆ (dissolve_children name cs b linked stubs).1.2 ∧ stubs ⊆ (dissolve_children name cs b linked stubs).2.
Proof.
  revert b linked stubs. induction cs as [|c cs IH]; intros b linked stubs; [done|].
  cbn [dissolve_children]. destruct (getTopicRecord b c) as [t|]; [|apply IH]. case_match.
  - destruct (IH (deleteTopicRecords c b) linked (stubs ++ [c])) as [H1 H2]. split; [done|]. set_solver.
  - destruct (IH (putTopicRecord (clear_child_link t) b) (linked ++ [c]) stubs) as [H1 H2]. split; [|done]. set_solver.
Qed.

Lemma an_dissolve bs name cs b linked stubs :
  names_ok (topics b) → (∀ c, is_Some (topics b !! c) → no_colon c) →
  (BTopic <$> (dissolve_children name cs b linked stubs).1.2) ⊆ bs →
  (BRetireTopic <$> (dissolve_children name cs b linked stubs).2) ⊆ bs →
  announced bs b (dissolve_children name cs b linked stubs).1.1.
Proof.
  revert b linked stubs. induction cs as [|c cs IH]; intros b linked stubs Hn Hcol Hl Hs; [done|].
  cbn [dissolve_children] in *. unfold getTopicRecord in *. destruct (topics b !! c) as [t|] eqn:Ht; [|by apply IH].
  destruct (IsRemoteChild t && bool_decide (t_Parent t = name)).
  - destruct (dissolve_mono name cs (deleteTopicRecords c b) linked (stubs ++ [c])) as [_ Hm].
    etrans; [apply (an_delete_topic _ _ c)|apply IH; try done].
    + apply Hcol. by rewrite Ht.
    + apply Hs, list_elem_of_fmap. exists c. split; [done|]. apply Hm, elem_of_app. right. left.
    + by apply map_Forall_delete.
    + simpl. intros m [tm [_ Hm']%lookup_delete_Some]. apply Hcol. eauto.
  - destruct (dissolve_mono name cs (putTopicRecord (clear_child_link t) b) (linked ++ [c]) stubs) as [Hm _].
    etrans; [apply (an_put_topic _ _ (clear_child_link t))|apply IH; try done].
    + left. simpl. rewrite (Hn c t Ht). apply Hl, list_elem_of_fmap. exists c. split; [done|].
      apply Hm, elem_of_app. right. left.
    + simpl. apply map_Forall_insert_2; [done|done].
    + simpl. intros m [tm Hm']. apply lookup_insert_Some in Hm' as [[<- _]|[_ Hm']]; [|eauto].
      rewrite (Hn c t Ht). apply Hcol. by rewrite Ht.
Qed.

Lemma retire_subset name linked stubs bs :
  retireDeletedTopic name linked stubs ⊆ bs →
  BRetireTopic name ∈ bs ∧ (BTopic <$> linked) ⊆ bs ∧ (BRetireTopic <$> stubs) ⊆ bs.
Proof. unfold retireDeletedTopic. set_solver. Qed.

Lemma an_delete bs name b b' linked stubs :
  core_ok b → deleteTopicTx name b = Ok (b', linked, stubs) → retireDeletedTopic name linked stubs ⊆ bs →
  announced bs b b'.
Proof.
  intros Hcore H (Hname & Hl & Hs)%retire_subset. unfold deleteTopicTx, dissolveFanoutLinks in H.
  destruct (getTopicRecord b name) as [t|] eqn:Ht; cbn [rbind] in H; [|done]. apply getTopic_ok in Ht.
  assert (no_colon name) as Hcol by (by eapply topic_no_colon; [apply Hcore|]).
  destruct (if IsParent t then dissolve_children name (t_Children t) b [] [] else (b, [], []))
    as [[b1 l1] s1] eqn:Eb1.
  assert (l1 ⊆ linked ∧ s1 = stubs ∧ ∃ b2, announced bs b1 b2 ∧ b' = deleteTopicRecords name b2)
    as (Hl1 & -> & b2 & Hb2 & ->).
  { destruct (IsChild t && _) eqn:Ech.
    - destruct (getTopicRecord b1 (t_Parent t)) as [tp|] eqn:Etp; cbn [rbind] in H; injection H as <- <- <-;
        [|split_and!; [done|done|by exists b1]].
      split_and!; [set_solver|done|]. eexists. split; [|done]. apply an_put_topic. rewrite unlink_name.
      assert (t_Name tp = t_Parent t) as ->.
      { apply getTopic_ok in Etp. destruct (IsParent t) eqn:Ep.
        - apply role_excl in Ep. rewrite Ep in Ech. done.
        - injection Eb1 as <- <- <-. by eapply core_name. }
      left. apply Hl, list_elem_of_fmap. eexists. split; [done|]. apply elem_of_app. right. left.
    - cbn [rbind] in H. injection H as <- <- <-. split_and!; [done|done|by exists b1]. }
  assert (announced bs b b1) as Hb1.
  { destruct (IsParent t); [|by injection Eb1 as <- <- <-].
    pose proof (an_dissolve bs name (t_Children t) b [] []) as Hd. rewrite Eb1 in Hd. apply Hd; clear Hd.
    - by apply fan_names, Hcore.
    - intros c [tc Hc]. by eapply topic_no_colon; [apply Hcore|].
    - simpl. set_solver.
    - done. }
  etrans; [exact Hb1|]. etrans; [exact Hb2|]. by apply an_delete_topic.
Qed.

Lemma deletePrefix_count {A} p (M : gmap string A) :
  0 <? (deletePrefix p M).2 = false → (deletePrefix p M).1 = M.
Proof.
  unfold deletePrefix. simpl. intros Hn%Z.ltb_ge. apply map_filter_id. intros k x Hk.
  apply not_true_is_false. intros Hpre.
  match type of Hn with context [size ?m] => assert (size m = 0%nat) as Hz%map_size_empty_inv by lia end.
  assert (filter (λ kv, has_prefix p kv.1 = true) M !! k = Some x) as Hf by (by apply map_lookup_filter_Some).
  rewrite Hz in Hf. by rewrite lookup_empty in Hf.
Qed.

Lemma an_clear_rows bs b n rows cnt :
  no_colon n → deletePrefix (row_prefix n) (assignments b) = (rows, cnt) →
  (0 <? cnt = true → BAssignment n ∈ bs) → announced bs b (set_assignments rows b).
Proof.
  intros Hn Hrows Hin. split; auto. simpl. intros m Hm.
  assert (rows = (deletePrefix (row_prefix n) (assignments b)).1) as -> by (by rewrite Hrows).
  destruct (decide (m = n)) as [-> |]; [|left; by apply under_deletePrefix_other].
  destruct (0 <? cnt) eqn:E; [auto|]. left. rewrite deletePrefix_count; [done|]. by rewrite Hrows.
Qed.

Lemma an_create_with bs bud p b b' rc sc :
  core_ok b → fresh_topic (cw_Topic p) → no_colon (t_Name (cw_Topic p)) → t_Name (cw_Topic p) ≠ "" →
  createTopicWithTx bud p b = Ok (b', (rc, sc)) →
  BTopic (t_Name (cw_Topic p)) ∈ bs → (rc = true → BAssignment (t_Name (cw_Topic p)) ∈ bs) →
  (sc = true → BSchema (t_Name (cw_Topic p)) ∈ bs) → (∀ l, cw_Link p = Some l → BTopic (xl_Parent l) ∈ bs) →
  announced bs b b'.
Proof.
  intros Hcore Hfr Hcol Hne H Ht Hrc Hsc Hlk. unfold createTopicWithTx in H. set (t := cw_Topic p) in *.
  destruct (topics b !! t_Name t) eqn:Hn; [done|]. destruct (foldedTopicName _ _); [done|].
  destruct (fresh_no_rows b (t_Name t) Hcore Hcol Hn) as [Hid Hnone].
  change (assignments (putTopicRecord t b)) with (assignments b) in H.
  change (schemas (putTopicRecord t b)) with (schemas b) in H. rewrite Hid in H.
  destruct (deletePrefix (row_prefix (t_Name t)) (assignments b)) as [rows nrows] eqn:Erows.
  pose proof (create_rows_core b t rows nrows Hcore Hfr Hcol Hne Hn Erows) as Hcore2.
  cbn beta iota zeta in H. set (b2 := set_schemas (schemas b) (set_assignments rows (putTopicRecord t b))) in *.
  assert (topics b2 !! t_Name t = Some t) as Ht2 by (simpl; by rewrite lookup_insert_eq).
  assert ((0 <? nrows = true → BAssignment (t_Name t) ∈ bs) → announced bs b b2) as Hb2.
  { intros Hr. etrans; [by apply (an_put_topic bs b t); left|].
    by apply (an_clear_rows bs (putTopicRecord t b) (t_Name t) rows nrows). }
  destruct (0 <? slen (cw_Schema p)).
  - destruct (budget_check _ _ _); cbn [rbind] in H; [|done].
    set (b3 := put_schemas [t_Name t] 1 (cw_Schema p) b2) in *.
    assert (core_ok b3) as Hcore3 by (by apply (first_schema_core b2 (t_Name t) t)).
    assert (BSchema (t_Name t) ∈ bs → announced bs b2 b3) as Hb3.
    { intros Hs. apply an_put_schemas. intros n Hin%list_elem_of_singleton. by subst n. }
    destruct (cw_Link p) as [l|]; [|injection H as <- <- <-; etrans; auto].
    inv_ok H. etrans; [by apply Hb2|]. etrans; [by apply Hb3, Hsc|]. eapply an_attach; [done|exact E1|].
    simpl. unfold bumpAttached. pose proof (Hlk l eq_refl). specialize (Hsc eq_refl).
    case_match; set_solver.
  - cbn [rbind] in H. destruct (cw_Link p) as [l|]; [|injection H as <- <- <-; auto].
    inv_ok H. etrans; [by apply Hb2|]. eapply an_attach; [done|exact E1|].
    simpl. unfold bumpAttached. pose proof (Hlk l eq_refl). case_match; [specialize (Hsc eq_refl)|]; set_solver.
Qed.

(** ** Every command *)

Lemma an_topic_handlers L bud c b b' bs ans :
  meta_ok b → command_ok c → dispatch L bud c b = Ok (b', bs, ans) →
  match c with
  | OpCreateTopic _ | OpUpdateTopic _ | OpDeleteTopic _ | OpPutSchema _ | OpAttachChild _ | OpDetachChild _
  | OpCreateTopicWith _ | OpUpdateTopicIf _ _ | OpDeleteTopicIf _ _ | OpPutSchemaIf _ _ | OpAttachChildIf _ _ _
  | OpDetachChildIf _ _ _ _ | OpAttachRemoteChild _ | OpSetRemoteChildState _ => announced bs b b'
  | _ => True
  end.
Proof.
  intros Hm Hok H. pose proof (mo_core _ Hm) as Hcore.
  assert (∀ n t, topics b !! n = Some t → ∀ m, m ∈ n :: localChildren b (t_Children t) →
            no_colon m ∧ BSchema m ∈ BSchema n :: (BSchema <$> localChildren b (t_Children t))) as Hloc.
  { intros n t Hn m Hin. split.
    - apply elem_of_cons in Hin as [-> |Hin]; [by eapply topic_no_colon; [apply Hcore|]|].
      apply (localChildren_elem b n) in Hin as (tm & Htm & _); [|done..]. by eapply topic_no_colon; [apply Hcore|].
    - apply elem_of_cons in Hin as [-> |Hin]; [left|right]. apply list_elem_of_fmap. eauto. }
  destruct c; try done; apply plain_ok in H as [H _].
  - unfold applyCreateTopic in H. inv_ok H. apply an_put_topic. left. left.
  - unfold applyUpdateTopic in H. inv_ok H. apply an_put_topic. left. left.
  - unfold applyDeleteTopic in H. inv_ok H. by eapply an_delete.
  - unfold applyPutSchema in H. inv_ok H. apply getTopic_ok in E. by apply an_put_schemas, Hloc.
  - unfold applyAttachChild in H. inv_ok H. destruct a as [b1 ad]. by eapply an_attach.
  - unfold applyDetachChild in H. inv_ok H. apply getTopic_ok in E, E0. destruct a1 as [b1 st].
    by eapply (an_detach _ b _ _ _ _ b1 st Hcore E E0 E1).
  - destruct Hok as [Hfr [Hcol _]%topic_name_ok]. unfold applyCreateTopicWith in H.
    destruct (decide (t_Name (cw_Topic p) = "")) as [|Hne]; [done|].
    destruct (createTopicWithTx bud p b) as [[b1 [rc sc]]|] eqn:E; [|done]. cbn [rbind] in H. injection H as <- <-.
    eapply an_create_with; [done..|exact E|left|intros ->|intros ->|intros l Hl].
    + right. apply elem_of_app. left. left.
    + right. apply elem_of_app. right. apply elem_of_app. left. left.
    + rewrite Hl. right. apply elem_of_app. right. apply elem_of_app. right. left.
  - unfold applyUpdateTopicIf in H. inv_ok H. apply an_put_topic. left. left.
  - unfold applyDeleteTopicIf in H. inv_ok H. by eapply an_delete.
  - unfold applyPutSchemaIf in H. inv_ok H. apply getTopic_ok in E. by apply an_put_schemas, Hloc.
  - unfold applyAttachChildIf in H. inv_ok H. destruct a0 as [b1 ad]. by eapply an_attach.
  - unfold applyDetachChildIf in H. inv_ok H. apply getTopic_ok in E0, E1. destruct a2 as [b1 st].
    by eapply (an_detach _ b _ _ _ _ b1 st Hcore E0 E1 E2).
  - unfold applyAttachRemoteChild in H. inv_ok H. apply getTopic_ok in E0.
    etrans; apply an_put_topic; left; [|by right; left]. simpl. rewrite (core_name _ _ _ Hcore E0). left.
  - unfold applySetRemoteChildState in H. inv_ok H. apply getTopic_ok in E.
    apply an_put_topic. left. simpl. rewrite (core_name _ _ _ Hcore E). left.
Qed.

Lemma an_cluster_handlers L bud c b b' bs ans :
  meta_ok b → command_ok c → dispatch L bud c b = Ok (b', bs, ans) →
  match c with
  | OpAssignPartition _ | OpSetAssignmentTarget _ _ _ | OpCompleteMove _ _ _ _ | OpAbortMove _ _ _
  | OpAssignPartitionIfAbsent _ _ _ _ | OpPruneAssignment _ _
  | OpMemberJoin _ | OpMemberHeartbeat _ _ | OpMemberDead _ | OpSetMemberDraining _ _ | OpRemoveMember _ _
  | OpReadmitMember _ | OpMarkMemberDeadIf _ _ => announced bs b b'
  | _ => True
  end.
Proof.
  intros Hm Hok H. pose proof (mo_core _ Hm) as Hcore.
  assert (∀ id m, getMember b id = Ok m → members b !! id = Some m) as Hget.
  { intros id m. unfold getMember. destruct (members b !! id); naive_solver. }
  destruct c; try done; apply plain_ok in H as [H _].
  - unfold applyAssignPartition in H. inv_ok H. destruct Hok as [[Hcol _]%topic_name_ok _]. apply an_put_assignment; [done|left].
  - unfold applyMemberJoin in H. destruct (memberTombstoned _ _); [done|].
    destruct (members b !! m_ID m) as [cur|] eqn:Ec; injection H as <- <-.
    + apply (an_member _ _ _ _ cur); [done|]. destruct (sameRoutingMember _ _) eqn:Es; [left|right; left].
      unfold sameRoutingMember in Es. apply bool_decide_eq_true in Es as (? & ? & ? & ?). unfold routing. congruence.
    + split; auto. right. left.
  - unfold applyMemberHeartbeat in H. inv_ok H. apply Hget in E. eapply an_member; [done|]. by left.
  - unfold applyMemberDead, mark_dead in H. inv_ok H. apply Hget in E. eapply an_member; [done|].
    case_decide as Hd; [left; unfold routing; simpl; congruence|right; left].
  - unfold applySetAssignmentTarget in H. inv_ok H; [done|].
    apply (read_assignment b) in E as (-> & _ & ? & ?); [|done]. apply an_put_assignment; [done|left].
  - unfold applyCompleteMove in H. inv_ok H; [done|].
    apply (read_assignment b) in E as (-> & _ & ? & ?); [|done]. apply an_put_assignment; [done|left].
  - unfold applyAbortMove in H. inv_ok H; [done|].
    apply (read_assignment b) in E as (-> & _ & ? & ?); [|done]. apply an_put_assignment; [done|left].
  - unfold applySetMemberDraining in H. inv_ok H. apply Hget in E. eapply an_member; [done|]. by left.
  - unfold applyRemoveMember in H. injection H as <- <-. case_decide; [apply an_members_put; left|].
    split; auto. left. simpl. by rewrite delete_id by (by apply eq_None_not_Some).
  - unfold applyReadmitMember in H. inv_ok H. split; auto.
  - unfold applyAssignPartitionIfAbsent in H. inv_ok H. apply getTopic_ok in E.
    apply an_put_assignment; [by eapply topic_no_colon; [apply Hcore|]|left].
  - unfold applyPruneAssignment in H.
    destruct (assignments b !! assignmentKey t p) as [a|] eqn:Ea; [|done].
    assert (readAssignment b t p = Ok a) as Hr by (unfold readAssignment; by rewrite Ea).
    apply (read_assignment b) in Hr as (-> & _ & Hc & _); [|done].
    inv_ok H; apply an_delete_assignment; try done; [left; left|right; left].
  - unfold applyMarkMemberDeadIf, mark_dead in H. inv_ok H. apply Hget in E. eapply an_member; [done|].
    case_decide as Hd; [left; unfold routing; simpl; congruence|right; left].
Qed.

Lemma an_release bs b l :
  (∀ t, t ∈ l → BTopic (t_Name t) ∈ bs) → announced bs b (foldl (λ b t, putTopicRecord (clear_owner t) b) b l).
Proof.
  revert b. induction l as [|t l IH]; intros b Hl; [done|]. cbn [foldl].
  etrans; [apply (an_put_topic bs b (clear_owner t)); left; apply (Hl t); left|]. apply IH. intros t' Hin. apply Hl. by right.
Qed.

Lemma an_user_handlers L bud c b b' bs ans :
  dispatch L bud c b = Ok (b', bs, ans) →
  match c with
  | OpCreateUser _ | OpUpdateUser _ | OpDeleteUser _ | OpSeedRootUser _ | OpSetUserPassword _ _ _
  | OpSetUserGrants _ _ _ | OpDeleteUserReleaseTopics _ | OpPutRemote _ | OpUpdateRemote _ | OpDeleteRemote _ _ =>
      announced bs b b'
  | _ => True
  end.
Proof.
  intros H. destruct c; try done; try (apply plain_ok in H as [H _]).
  - unfold applyCreateUser, putNewUser in H. inv_ok H. apply an_users_put. left.
  - unfold applyUpdateUser in H. inv_ok H. apply an_users_put. left.
  - unfold applyDeleteUser in H. inv_ok H. unfold deleteUserRecord in E. inv_ok E. apply an_users_put. left.
  - unfold applySeedRootUser, putNewUser in H. inv_ok H. apply an_users_put. left.
  - unfold applySetUserPassword, mutateUser in H. inv_ok H. all: apply an_users_put; left.
  - unfold applySetUserGrants, mutateUser in H. inv_ok H. all: apply an_users_put; left.
  - unfold applyDeleteUserReleaseTopics in H. inv_ok H. unfold releaseOwnedTopics in E0. injection E0 as <- <-.
    unfold deleteUserRecord in E. inv_ok E.
    etrans; [apply an_users_put; left|]. apply an_release. intros t Ht. right.
    apply list_elem_of_fmap. exists (t_Name t). split; [done|]. apply list_elem_of_fmap. eauto.
  - unfold dispatch, applyPutRemote in H. case_match; [done|]. destruct (countSeal _ _ _) as [keys prior].
    case_match; injection H as <- <- <-; [apply an_keys|].
    etrans; [apply an_remotes_put; left|]. apply (an_keys _ (putRemote _ _ b)).
  - unfold dispatch, applyUpdateRemote in H.
    destruct (match ur_Credential op with Some _ => _ | None => _ end) in H; [done|].
    destruct (match ur_Credential op with Some _ => _ | None => _ end) as [b1 prior] eqn:Eb1.
    assert (announced bs b b1) as Hb1.
    { destruct (ur_Credential op) as [c|]; [|by injection Eb1 as <- <-].
      destruct (countSeal _ _ _) as [keys pr]. injection Eb1 as <- <-. apply an_keys. }
    clear Eb1. etrans; [exact Hb1|]. repeat case_match; try done; injection H as <- <- <-; try done.
    apply an_remotes_put. left.
  - unfold dispatch, applyDeleteRemote in H. repeat case_match; injection H as <- <- <-; try done;
      apply an_remotes_put; left.
Qed.

Lemma dispatch_announced L bud c b b' bs ans :
  meta_ok b → command_ok c → dispatch L bud c b = Ok (b', bs, ans) → announced bs b b'.
Proof.
  intros Hm Hok H. pose proof (an_topic_handlers L bud c b b' bs ans Hm Hok H) as H1.
  pose proof (an_cluster_handlers L bud c b b' bs ans Hm Hok H) as H2.
  pose proof (an_user_handlers L bud c b b' bs ans H) as H3. by destruct c.
Qed.
