(* ===== verification/History.v ===== *)
(** * What a command can change

    Over all the commands of the state machine: a topic keeps its
    incarnation until it is deleted, a registered schema version is never
    rewritten, a partition changes owner only by the move that was
    announced for it, a root user keeps its rights, and a removed member
    stays out until it is readmitted. *)

From S2P Require Import Prelude Decimal Keys Json Meta Versions FsmTopics FsmCluster FsmRemotes Fsm FanInv SchemaInv MetaInv.

(** ** Topics and schema rows *)

(** No topic appears or changes incarnation, and a schema row goes only
    with its topic. *)
Record ages (b b' : buckets) : Prop := {
  ag_ids : ∀ n t', topics b' !! n = Some t' → ∃ t, topics b !! n = Some t ∧ t_ID t' = t_ID t;
  ag_rows : ∀ k s, schemas b !! k = Some s → schemas b' !! k = Some s
    ∨ ∃ n, no_colon n ∧ has_prefix (row_prefix n) k = true ∧ topics b' !! n = None;
}.

#[global] Instance ages_preorder : PreOrder ages.
Proof.
  split.
  - intros b. split; eauto.
  - intros b1 b2 b3 [I1 R1] [I2 R2]. split.
    + intros n t3 (t2 & Ht2 & ->)%I2. destruct (I1 n t2 Ht2) as (t1 & ? & ->). eauto.
    + intros k s Hk. destruct (R1 k s Hk) as [Hk2|(n & Hc & Hp & Hn)]; [by apply R2|].
      right. exists n. split_and!; try done. destruct (topics b3 !! n) as [t3|] eqn:E; [|done].
      apply I2 in E as (t2 & ? & _). congruence.
Qed.

Lemma ages_put b t t0 : topics b !! t_Name t = Some t0 → t_ID t = t_ID t0 → ages b (putTopicRecord t b).
Proof.
  intros H0 Hid. split; [|auto]. simpl. intros n t' Hn.
  apply lookup_insert_Some in Hn as [[<- <-]|[_ Hn]]; eauto.
Qed.

Lemma ages_delete b n : no_colon n → ages b (deleteTopicRecords n b).
Proof.
  intros Hn. split; buckets_cbn.
  - intros m t' [_ Hm]%lookup_delete_Some. eauto.
  - intros k s Hk. destruct (has_prefix (row_prefix n) k) eqn:E.
    + right. exists n. split_and!; [done|done|by rewrite lookup_delete_eq].
    + left. by apply map_lookup_filter_Some.
Qed.

Lemma ages_schemas b S' :
  (∀ k s, schemas b !! k = Some s → S' !! k = Some s) → ages b (set_schemas S' b).
Proof. intros HS. split; simpl; eauto. Qed.

Lemma ages_dissolve name cs b linked stubs :
  names_ok (topics b) → (∀ c, is_Some (topics b !! c) → no_colon c) →
  ages b (dissolve_children name cs b linked stubs).1.1.
Proof.
  revert b linked stubs. induction cs as [|c cs IH]; intros b linked stubs Hn Hcol; [done|].
  cbn [dissolve_children]. unfold getTopicRecord. destruct (topics b !! c) as [t|] eqn:Ht; [|by apply IH].
  destruct (IsRemoteChild t && bool_decide (t_Parent t = name)).
  - etrans; [apply (ages_delete b c)|apply IH].
    + apply Hcol. by rewrite Ht.
    + by apply map_Forall_delete.
    + simpl. intros m [tm [_ Hm']%lookup_delete_Some]. apply Hcol. eauto.
  - etrans; [apply (ages_put b (clear_child_link t) t); simpl; [by rewrite (Hn c t Ht)|done]|apply IH].
    + simpl. by apply map_Forall_insert_2.
    + simpl. intros m [tm Hm']. apply lookup_insert_Some in Hm' as [[<- _]|[_ Hm']]; [|eauto].
      rewrite (Hn c t Ht). apply Hcol. by rewrite Ht.
Qed.

Lemma unlink_id c t : t_ID (unlinkChild c t) = t_ID t.
Proof. unfold unlinkChild. by destruct (filter _ _). Qed.

Lemma core_no_colon b n : core_ok b → is_Some (topics b !! n) → no_colon n.
Proof. intros Hc [t Ht]. by eapply topic_no_colon; [apply Hc|]. Qed.

Lemma ages_reconcile b p c tp tc rules b' ad :
  core_ok b → topics b !! p = Some tp → topics b !! c = Some tc →
  reconcileSchemasForAttach b p c rules = Ok (b', ad) → ages b b' ∧ topics b' = topics b.
Proof.
  intros Hcore Htp Htc H. pose proof Hcore as [Hf Hs _]. unfold reconcileSchemasForAttach in H.
  pose proof (topic_no_colon _ _ _ Hf Htp) as Hcp. pose proof (topic_no_colon _ _ _ Hf Htc) as Hcc.
  destruct (history_spec _ _ Hf Hs p Hcp b eq_refl) as (hp & Ep & Hp).
  destruct (history_spec _ _ Hf Hs c Hcc b eq_refl) as (hc & Ec & Hc).
  rewrite Ep, Ec in H. cbn [rbind] in H. destruct (size hc =? 0)%nat eqn:Ehc.
  - destruct (size hp =? 0)%nat; [by injection H as <- <-|].
    assert (b' = adopt_history c hp b) as -> by (destruct (rule_budgets rules); by inv_ok H).
    split; [|done]. apply ages_schemas. intros k s Hk.
    destruct (so_keys _ _ Hs k s Hk) as (n & v & t & -> & Hv & Ht & _).
    change (schemas (adopt_history c hp b) !! schemaKey n v = Some s).
    rewrite adopt_lookup; [|intros w x; rewrite Hp; tauto|done|by eapply topic_no_colon|done].
    destruct (hp !! v); [|done]. case_decide; [subst n|done].
    by rewrite (empty_history _ _ _ Hc Ehc) in Hk.
  - destruct (size hp =? 0)%nat; [done|]. inv_ok H. done.
Qed.

Lemma ages_attach b l rules b' ad : core_ok b → attachChildTx l rules b = Ok (b', ad) → ages b b'.
Proof.
  intros Hcore H. unfold attachChildTx in H.
  destruct (decide (cl_Parent l = cl_Child l)) as [|Hpc]; [done|].
  destruct (getTopicRecord b (cl_Parent l)) as [tp|] eqn:Htp; cbn [rbind] in H; [|done].
  destruct (getTopicRecord b (cl_Child l)) as [tc|] eqn:Htc; cbn [rbind] in H; [|done].
  apply getTopic_ok in Htp, Htc. do 7 (case_match; [done|]).
  destruct (checkDelayAgainstRetention _ _); cbn [rbind] in H; [|done].
  destruct (reconcileSchemasForAttach b _ _ rules) as [[b1 ad1]|] eqn:Er; cbn [rbind] in H; [|done].
  injection H as <- <-.
  pose proof (core_name _ _ _ Hcore Htp) as Hnp. pose proof (core_name _ _ _ Hcore Htc) as Hnc.
  destruct (ages_reconcile b _ _ tp tc _ _ _ Hcore Htp Htc Er) as [Hb1 Et].
  etrans; [exact Hb1|]. etrans.
  - eapply (ages_put b1 (set_role_children RoleParent (t_Children tp ++ [cl_Child l]) tp) tp); [|done].
    simpl. by rewrite Et, Hnp.
  - eapply (ages_put _ (set_child_link _ _ _ _ tc) tc); [|done]. simpl.
    rewrite Et, Hnp, Hnc, lookup_insert_ne by done. done.
Qed.

Lemma ages_detach b p c tp tc b' st :
  core_ok b → topics b !! p = Some tp → topics b !! c = Some tc →
  detachChildTx p c tp tc b = Ok (b', st) → ages b b'.
Proof.
  intros Hcore Hp Hc H. unfold detachChildTx in H.
  pose proof (core_name _ _ _ Hcore Hp) as Hnp. pose proof (core_name _ _ _ Hcore Hc) as Hnc.
  destruct (IsChild tc) eqn:Hch; [|done]. destruct (bool_decide (t_Parent tc = p)) eqn:Hpar; [|done].
  apply bool_decide_eq_true in Hpar. cbn [negb orb] in H.
  assert (ages b (putTopicRecord (unlinkChild c tp) b)) as H1.
  { apply (ages_put b _ tp); [by rewrite unlink_name, Hnp|apply unlink_id]. }
  etrans; [exact H1|]. destruct (IsRemoteChild tc); injection H as <- <-.
  - apply ages_delete. apply (core_no_colon b); [done|]. by rewrite Hc.
  - apply (ages_put _ _ tc); [|done]. simpl. rewrite unlink_name, Hnc, Hnp. apply lookup_insert_Some.
    right. split; [|done]. intros <-. destruct (child_linked _ _ _ (co_fan _ Hcore) Hc Hch) as (tp' & Htp' & Hin).
    rewrite Hpar in Htp'. destruct (linked_child _ _ _ _ (co_fan _ Hcore) Htp' Hin). done.
Qed.

Lemma ages_delete_topic b name b' linked stubs :
  core_ok b → deleteTopicTx name b = Ok (b', linked, stubs) → ages b b'.
Proof.
  intros Hcore H. unfold deleteTopicTx, dissolveFanoutLinks in H.
  destruct (getTopicRecord b name) as [t|] eqn:Ht; cbn [rbind] in H; [|done]. apply getTopic_ok in Ht.
  assert (no_colon name) as Hcol by (apply (core_no_colon b); [done|by rewrite Ht]).
  destruct (if IsParent t then dissolve_children name (t_Children t) b [] [] else (b, [], []))
    as [[b1 l1] s1] eqn:Eb1.
  assert (ages b b1) as Hb1.
  { destruct (IsParent t); [|by injection Eb1 as <- <- <-].
    pose proof (ages_dissolve name (t_Children t) b [] []) as Hd. rewrite Eb1 in Hd. apply Hd.
    - by apply fan_names, Hcore.
    - intros c. by apply core_no_colon. }
  etrans; [exact Hb1|]. destruct (IsChild t && _) eqn:Ech.
  - destruct (getTopicRecord b1 (t_Parent t)) as [tp|] eqn:Etp; cbn [rbind] in H; injection H as <- <- <-;
      [|by apply ages_delete].
    assert (b1 = b) as ->.
    { destruct (IsParent t) eqn:Ep; [|congruence]. apply role_excl in Ep. by rewrite Ep in Ech. }
    apply getTopic_ok in Etp. etrans; [|by apply ages_delete].
    apply (ages_put _ _ tp); [|apply unlink_id]. by rewrite unlink_name, (core_name _ _ _ Hcore Etp).
  - cbn [rbind] in H. injection H as <- <- <-. by apply ages_delete.
Qed.

Lemma ages_put_schema b n t v s u u' :
  core_ok b → topics b !! n = Some t →
  checkNextSchemaVersion b n v = Ok u → check_children_versions b (localChildren b (t_Children t)) v = Ok u' →
  ages b (put_schemas (n :: localChildren b (t_Children t)) v s b).
Proof.
  intros Hcore Hn Hck Hcc. pose proof (check_children_spec _ _ _ _ Hcc) as Hcc'.
  assert (∀ m, m ∈ n :: localChildren b (t_Children t) →
            no_colon m ∧ ∃ u, checkNextSchemaVersion b m v = Ok u) as Hall.
  { intros m [-> |Hin]%elem_of_cons; [split; [apply (core_no_colon b); by rewrite ?Hn|eauto]|].
    pose proof (Hcc' m Hin). apply (localChildren_elem b n) in Hin as (tm & Htm & _); [|done..].
    split; [apply (core_no_colon b); by rewrite ?Htm|eauto]. }
  apply ages_schemas. intros k x Hk.
  destruct (so_keys _ _ (co_sch _ Hcore) k x Hk) as (m & w & tm & -> & Hw & Htm & _).
  destruct (checkNext_spec b n v u Hcore) as [Hv _]; [apply (core_no_colon b); by rewrite ?Hn|done|].
  rewrite put_schemas_lookup; [|intros m' Hm'; by apply Hall|apply (core_no_colon b); by rewrite ?Htm|done|done].
  case_decide as Hd; [|done]. destruct Hd as [Hin ->]. destruct (Hall m Hin) as (Hm & um & Hum).
  destruct (checkNext_spec b m v um Hcore Hm Hum) as [_ Hiff].
  assert (v < v); [|lia]. apply (Hiff v Hv). eauto.
Qed.

Lemma ages_frame b b' : topics b' = topics b → schemas b' = schemas b → ages b b'.
Proof. intros Ht Hs. split; rewrite ?Ht, ?Hs; eauto. Qed.

Lemma ages_create_with bud p b b' r :
  core_ok b → fresh_topic (cw_Topic p) → no_colon (t_Name (cw_Topic p)) → t_Name (cw_Topic p) ≠ "" →
  createTopicWithTx bud p b = Ok (b', r) →
  topics b !! t_Name (cw_Topic p) = None ∧ ages (putTopicRecord (cw_Topic p) b) b'.
Proof.
  intros Hcore Hfr Hcol Hne H. unfold createTopicWithTx in H. set (t := cw_Topic p) in *.
  destruct (topics b !! t_Name t) eqn:Hn; [done|]. split; [done|]. destruct (foldedTopicName _ _); [done|].
  destruct (fresh_no_rows b (t_Name t) Hcore Hcol Hn) as [Hid Hnone].
  change (assignments (putTopicRecord t b)) with (assignments b) in H.
  change (schemas (putTopicRecord t b)) with (schemas b) in H. rewrite Hid in H.
  destruct (deletePrefix (row_prefix (t_Name t)) (assignments b)) as [rows nrows] eqn:Erows.
  pose proof (create_rows_core b t rows nrows Hcore Hfr Hcol Hne Hn Erows) as Hcore2.
  cbn beta iota zeta in H. set (b2 := set_schemas (schemas b) (set_assignments rows (putTopicRecord t b))) in *.
  assert (ages (putTopicRecord t b) b2) as Hb2 by (by apply ages_frame).
  assert (topics b2 !! t_Name t = Some t) as Ht2 by (simpl; by rewrite lookup_insert_eq).
  etrans; [exact Hb2|]. destruct (0 <? slen (cw_Schema p)).
  - destruct (budget_check _ _ _); cbn [rbind] in H; [|done].
    set (b3 := put_schemas [t_Name t] 1 (cw_Schema p) b2) in *.
    assert (core_ok b3) as Hcore3 by (by apply (first_schema_core b2 (t_Name t) t)).
    assert (ages b2 b3) as Hb3.
    { apply ages_schemas. intros k s Hk. simpl in Hk |- *. apply lookup_insert_Some. right. split; [|done].
      intros <-. by rewrite Hnone in Hk. }
    etrans; [exact Hb3|]. destruct (cw_Link p) as [l|]; [|by injection H as <- <-].
    inv_ok H. by eapply ages_attach.
  - cbn [rbind] in H. destruct (cw_Link p) as [l|]; [|by injection H as <- <-].
    inv_ok H. by eapply ages_attach.
Qed.

Lemma ages_release b l :
  names_ok (topics b) → (∀ t, t ∈ l → ∃ t0, topics b !! t_Name t = Some t0 ∧ clear_owner t0 = clear_owner t) →
  ages b (foldl (λ b t, putTopicRecord (clear_owner t) b) b l).
Proof.
  revert b. induction l as [|t l IH]; intros b Hn Hl; [done|]. cbn [foldl].
  destruct (Hl t) as (t0 & Ht0 & Heq); [left|].
  etrans; [apply (ages_put b (clear_owner t) t0); [done|]|apply IH].
  - change (t_ID (clear_owner t) = t_ID (clear_owner t0)). by rewrite Heq.
  - simpl. by apply map_Forall_insert_2.
  - intros t1 Hin. destruct (Hl t1) as (t2 & Ht2 & Heq2); [by right|]. simpl. rewrite lookup_insert.
    case_decide as Hnm; [|eauto]. exists (clear_owner t). split; [done|].
    assert (t0 = t2) as -> by (simpl in Hnm; congruence).
    change (clear_owner t = clear_owner t1). congruence.
Qed.

(** Over every command: topics are created by a create alone. *)
Lemma dispatch_ages L bud c b b' bs ans :
  meta_ok b → command_ok c → dispatch L bud c b = Ok (b', bs, ans) →
  ages b b' ∨ ∃ t, topics b !! t_Name t = None ∧ ages (putTopicRecord t b) b'.
Proof.
  intros Hm Hok H. pose proof (mo_core _ Hm) as Hcore.
  destruct c; cbn [dispatch] in H; try (apply plain_ok in H as [H _]).
  - unfold applyCreateTopic in H. inv_ok H. right. by exists t.
  - unfold applyUpdateTopic in H. inv_ok H. apply getTopic_ok in E. left. by apply (ages_put _ _ a).
  - unfold applyDeleteTopic in H. inv_ok H. left. by eapply ages_delete_topic.
  - unfold applyPutSchema in H. inv_ok H. apply getTopic_ok in E. left. by eapply ages_put_schema.
  - unfold applyAssignPartition in H. inv_ok H. left. by apply ages_frame.
  - unfold applyMemberJoin in H. inv_ok H; left; by apply ages_frame.
  - unfold applyMemberHeartbeat in H. inv_ok H. left. by apply ages_frame.
  - unfold applyMemberDead, mark_dead in H. inv_ok H; left; by apply ages_frame.
  - unfold applyCreateUser, putNewUser in H. inv_ok H. left. by apply ages_frame.
  - unfold applyUpdateUser in H. inv_ok H; left; by apply ages_frame.
  - unfold applyDeleteUser in H. inv_ok H. unfold deleteUserRecord in E. inv_ok E. left. by apply ages_frame.
  - unfold applySeedRootUser, putNewUser in H. inv_ok H. left. by apply ages_frame.
  - unfold applyAttachChild in H. inv_ok H. destruct a as [b1 ad]. left. by eapply ages_attach.
  - unfold applyDetachChild in H. inv_ok H. apply getTopic_ok in E, E0. destruct a1 as [b1 st]. left.
    exact (ages_detach b _ _ _ _ b1 st Hcore E E0 E1).
  - unfold applySetAssignmentTarget in H. inv_ok H; left; by apply ages_frame.
  - unfold applyCompleteMove in H. inv_ok H; left; by apply ages_frame.
  - unfold applyAbortMove in H. inv_ok H; left; by apply ages_frame.
  - unfold applySetMemberDraining in H. inv_ok H. left. by apply ages_frame.
  - unfold applyRemoveMember in H. inv_ok H; left; by apply ages_frame.
  - unfold applyReadmitMember in H. inv_ok H; left; by apply ages_frame.
  - unfold applySetUserPassword, mutateUser in H. inv_ok H; left; by apply ages_frame.
  - unfold applySetUserGrants, mutateUser in H. inv_ok H; left; by apply ages_frame.
  - destruct Hok as [Hfr [Hcol _]%topic_name_ok]. unfold applyCreateTopicWith in H. inv_ok H. right. eexists. by eapply ages_create_with.
  - unfold applyUpdateTopicIf in H. inv_ok H. apply getTopic_ok in E. left. by apply (ages_put _ _ a).
  - unfold applyDeleteTopicIf in H. inv_ok H. left. by eapply ages_delete_topic.
  - unfold applyPutSchemaIf in H. inv_ok H. apply getTopic_ok in E. left. by eapply ages_put_schema.
  - unfold applyAttachChildIf in H. inv_ok H. destruct a0 as [b1 ad]. left. by eapply ages_attach.
  - unfold applyDetachChildIf in H. inv_ok H. apply getTopic_ok in E0, E1. destruct a2 as [b1 st]. left.
    exact (ages_detach b _ _ _ _ b1 st Hcore E0 E1 E2).
  - unfold applyAssignPartitionIfAbsent in H. inv_ok H. left. by apply ages_frame.
  - unfold applyPruneAssignment in H. inv_ok H; left; by apply ages_frame.
  - unfold applyMarkMemberDeadIf, mark_dead in H. inv_ok H; left; by apply ages_frame.
  - unfold applyDeleteUserReleaseTopics in H. inv_ok H. unfold releaseOwnedTopics in E0. injection E0 as <- <-.
    pose proof (delete_user_meta _ _ _ Hm E) as Hma. unfold deleteUserRecord in E. inv_ok E.
    left. etrans; [|apply ages_release]; [by apply ages_frame|by apply fan_names, Hma|].
    intros t (_ & n & Hn)%owned_elem. exists t. rewrite (core_name _ _ _ (mo_core _ Hma) Hn). done.
  - unfold applyAttachRemoteChild in H. inv_ok H. apply getTopic_ok in E0. right. exists (new_stub op).
    pose proof (core_name _ _ _ Hcore E0) as Hn. split; [done|]. split; [|auto].
    intros m t' Hm'. simpl in Hm' |- *. rewrite Hn, lookup_insert in Hm'. rewrite lookup_insert.
    destruct (decide (ar_Stub op = m)); [by exists t'; simplify_eq|].
    apply lookup_insert_Some in Hm' as [[<- <-]|[_ Hm']]; eauto.
  - unfold applySetRemoteChildState in H. inv_ok H. apply getTopic_ok in E. left.
    apply (ages_put _ _ a); [|done]. simpl. by rewrite (core_name _ _ _ Hcore E).
  - unfold applyPutRemote in H. repeat case_match; try done; injection H as <- _ _; left; by apply ages_frame.
  - unfold applyUpdateRemote in H. repeat case_match; simplify_eq; left; by apply ages_frame.
  - unfold applyDeleteRemote in H. repeat case_match; injection H as <- _ _; left; by apply ages_frame.
Qed.

(** ** Assignments *)

(** Rows are only removed, and all of them with a topic that goes. *)
Definition rows_removed (b b' : buckets) : Prop :=
  assignments b' ⊆ assignments b ∧
  ∀ n, is_Some (topics b !! n) →
    is_Some (topics b' !! n) ∨ ∀ k, has_prefix (row_prefix n) k = true → assignments b' !! k = None.

#[global] Instance rows_removed_preorder : PreOrder rows_removed.
Proof.
  unfold rows_removed. split; [intros b; split; [reflexivity|auto]|]. intros b1 b2 b3 [S1 T1] [S2 T2].
  split; [by etrans|]. intros n Hn. destruct (T1 n Hn) as [H1|H1]; [by apply T2|]. right. intros k Hk.
  specialize (H1 k Hk). by eapply lookup_weaken_None.
Qed.

Lemma removed_same b b' :
  assignments b' = assignments b → (∀ n, is_Some (topics b !! n) → is_Some (topics b' !! n)) → rows_removed b b'.
Proof. unfold rows_removed. intros -> H. split; [done|]. auto. Qed.

(** Closes [rows_removed] for a handler that puts topic records at most. *)
Ltac rows_same :=
  apply removed_same; [done|]; intros ?n ?Hn;
  first [assumption | simpl; rewrite ?lookup_insert_is_Some'; solve [auto 10]].

Lemma removed_delete b n : rows_removed b (deleteTopicRecords n b).
Proof.
  split; [apply map_filter_subseteq|]. intros m Hm. simpl. destruct (decide (n = m)) as [<-|Hne]; [right|left; by rewrite lookup_delete_ne].
  intros k Hk. apply map_lookup_filter_None. right. intros x _. simpl. by rewrite Hk.
Qed.

Lemma removed_put b t : rows_removed b (putTopicRecord t b).
Proof. rows_same. Qed.

Lemma removed_dissolve name cs b linked stubs : rows_removed b (dissolve_children name cs b linked stubs).1.1.
Proof.
  revert b linked stubs. induction cs as [|c cs IH]; intros b linked stubs; [done|].
  cbn [dissolve_children]. destruct (getTopicRecord b c) as [t|]; [|apply IH]. case_match.
  - etrans; [apply (removed_delete b c)|apply IH].
  - etrans; [|apply IH]. apply removed_put.
Qed.

Lemma removed_attach b l rules b' ad : attachChildTx l rules b = Ok (b', ad) → rows_removed b b'.
Proof.
  intros H. unfold attachChildTx in H. inv_ok H.
  match goal with H : reconcileSchemasForAttach _ _ _ _ = _ |- _ => rename H into Hr end.
  unfold reconcileSchemasForAttach in Hr. inv_ok Hr; rows_same.
Qed.

Lemma removed_delete_topic b name b' linked stubs :
  deleteTopicTx name b = Ok (b', linked, stubs) → rows_removed b b'.
Proof.
  intros H. unfold deleteTopicTx, dissolveFanoutLinks in H.
  destruct (getTopicRecord b name) as [t|] eqn:Ht; cbn [rbind] in H; [|done].
  destruct (if IsParent t then dissolve_children name (t_Children t) b [] [] else (b, [], []))
    as [[b1 l1] s1] eqn:Eb1.
  assert (rows_removed b b1) as Hb1.
  { destruct (IsParent t); [|by injection Eb1 as <- <- <-].
    pose proof (removed_dissolve name (t_Children t) b [] []) as Hd. by rewrite Eb1 in Hd. }
  etrans; [exact Hb1|]. destruct (IsChild t && _).
  - destruct (getTopicRecord b1 (t_Parent t)) as [tp|]; cbn [rbind] in H; injection H as <- <- <-;
      [|apply removed_delete]. etrans; [apply (removed_put b1 (unlinkChild name tp))|apply removed_delete].
  - cbn [rbind] in H. injection H as <- <- <-. apply removed_delete.
Qed.

Lemma removed_create_with bud p b b' r : createTopicWithTx bud p b = Ok (b', r) → rows_removed b b'.
Proof.
  intros H. unfold createTopicWithTx in H. set (t := cw_Topic p) in *.
  destruct (topics b !! t_Name t) eqn:Hn; [done|]. destruct (foldedTopicName _ _); [done|].
  change (assignments (putTopicRecord t b)) with (assignments b) in H.
  destruct (deletePrefix (row_prefix (t_Name t)) (assignments b)) as [rows nrows] eqn:Erows.
  destruct (deletePrefix (row_prefix (t_Name t)) (schemas _)) as [schs nschs] eqn:Eschs.
  cbn beta iota zeta in H. set (b2 := set_schemas schs (set_assignments rows (putTopicRecord t b))) in *.
  assert (rows_removed b b2) as Hb2.
  { unfold rows_removed. simpl. replace rows with (deletePrefix (row_prefix (t_Name t)) (assignments b)).1
      by (by rewrite Erows).
    split; [apply map_filter_subseteq|]. intros n Hx. left. rewrite lookup_insert_is_Some'. by right. }
  etrans; [exact Hb2|]. destruct (0 <? slen (cw_Schema p)).
  - destruct (budget_check _ _ _); cbn [rbind] in H; [|done].
    destruct (cw_Link p) as [l|]; [|injection H as <- <-; rows_same].
    inv_ok H. etrans; [|by eapply removed_attach]. rows_same.
  - cbn [rbind] in H. destruct (cw_Link p) as [l|]; [|by injection H as <- <-].
    inv_ok H. by eapply removed_attach.
Qed.

Lemma removed_release b l : rows_removed b (foldl (λ b t, putTopicRecord (clear_owner t) b) b l).
Proof. revert b. induction l as [|t l IH]; intros b; [done|]. etrans; [|apply (IH (putTopicRecord (clear_owner t) b))]. apply removed_put. Qed.

(** The commands that write assignment rows. *)
Definition writes_rows (c : command) : bool :=
  match c with
  | OpAssignPartition _ | OpSetAssignmentTarget _ _ _ | OpCompleteMove _ _ _ _ | OpAbortMove _ _ _
  | OpAssignPartitionIfAbsent _ _ _ _ => true
  | _ => false
  end.

Lemma dispatch_removed L bud c b b' bs ans :
  writes_rows c = false → dispatch L bud c b = Ok (b', bs, ans) → rows_removed b b'.
Proof.
  intros Hw H. destruct c; try done; clear Hw; cbn [dispatch] in H; try (apply plain_ok in H as [H _]).
  - unfold applyCreateTopic in H. inv_ok H. rows_same.
  - unfold applyUpdateTopic in H. inv_ok H. rows_same.
  - unfold applyDeleteTopic in H. inv_ok H. by eapply removed_delete_topic.
  - unfold applyPutSchema in H. inv_ok H. rows_same.
  - unfold applyMemberJoin in H. inv_ok H; rows_same.
  - unfold applyMemberHeartbeat in H. inv_ok H; rows_same.
  - unfold applyMemberDead, mark_dead in H. inv_ok H; rows_same.
  - unfold applyCreateUser, putNewUser in H. inv_ok H; rows_same.
  - unfold applyUpdateUser in H. inv_ok H; rows_same.
  - unfold applyDeleteUser in H. inv_ok H. unfold deleteUserRecord in E. inv_ok E. rows_same.
  - unfold applySeedRootUser, putNewUser in H. inv_ok H; rows_same.
  - unfold applyAttachChild in H. inv_ok H. destruct a. by eapply removed_attach.
  - unfold applyDetachChild, detachChildTx in H. inv_ok H. destruct a1. simpl. inv_ok E1.
    + etrans; [|apply removed_delete]. rows_same.
    + rows_same.
  - unfold applySetMemberDraining in H. inv_ok H; rows_same.
  - unfold applyRemoveMember in H. inv_ok H; rows_same.
  - unfold applyReadmitMember in H. inv_ok H; rows_same.
  - unfold applySetUserPassword, mutateUser in H. inv_ok H; rows_same.
  - unfold applySetUserGrants, mutateUser in H. inv_ok H; rows_same.
  - unfold applyCreateTopicWith in H. inv_ok H. by eapply removed_create_with.
  - unfold applyUpdateTopicIf in H. inv_ok H; rows_same.
  - unfold applyDeleteTopicIf in H. inv_ok H. by eapply removed_delete_topic.
  - unfold applyPutSchemaIf in H. inv_ok H; rows_same.
  - unfold applyAttachChildIf in H. inv_ok H. destruct a0. by eapply removed_attach.
  - unfold applyDetachChildIf, detachChildTx in H. inv_ok H. destruct a2. simpl. inv_ok E2.
    + etrans; [|apply removed_delete]. rows_same.
    + rows_same.
  - unfold applyPruneAssignment in H. inv_ok H; (split; [apply delete_subseteq|simpl; auto]).
  - unfold applyMarkMemberDeadIf, mark_dead in H. inv_ok H; rows_same.
  - unfold applyDeleteUserReleaseTopics in H. inv_ok H. unfold releaseOwnedTopics in E0. injection E0 as <- <-.
    unfold deleteUserRecord in E. inv_ok E. etrans; [|apply removed_release]. rows_same.
  - unfold applyAttachRemoteChild in H. inv_ok H. rows_same.
  - unfold applySetRemoteChildState in H. inv_ok H. rows_same.
  - unfold applyPutRemote in H. repeat case_match; try done; injection H as <- _ _; rows_same.
  - unfold applyUpdateRemote in H. repeat case_match; simplify_eq; rows_same.
  - unfold applyDeleteRemote in H. repeat case_match; injection H as <- _ _; rows_same.
Qed.

Lemma put_lookup b a k x y :
  assignments b !! k = Some x → assignments (putAssignment a b) !! k = Some y →
  y = x ∨ y = a ∧ k = assignmentKey (a_Topic a) (a_Partition a).
Proof. intros Hx. simpl. rewrite lookup_insert. case_decide; intros; simplify_eq; auto. Qed.

(** Who owns a partition changes only by completing the move announced for
    it. *)
Lemma owner_changes L bud c b b' bs ans k a a' :
  meta_ok b → (∀ x, c ≠ OpAssignPartition x) → dispatch L bud c b = Ok (b', bs, ans) →
  assignments b !! k = Some a → assignments b' !! k = Some a' →
  a_OwnerID a' = a_OwnerID a ∨
  ∃ t p, c = OpCompleteMove t p (a_OwnerID a) (a_OwnerID a') ∧ k = assignmentKey t p
         ∧ a_TargetID a = a_OwnerID a' ∧ a_TargetID a' = "".
Proof.
  intros Hm Hc H Hk Hk'. destruct (writes_rows c) eqn:Hw; cycle 1.
  { left. assert (assignments b !! k = Some a') by (by eapply lookup_weaken; [|by eapply dispatch_removed]). congruence. }
  assert (∀ t p x, readAssignment b t p = Ok x → ∀ y, assignments (putAssignment y b) !! k = Some a' →
            assignmentKey (a_Topic y) (a_Partition y) = assignmentKey (a_Topic x) (a_Partition x) →
            a' = a ∨ k = assignmentKey t p ∧ x = a ∧ a' = y) as Hput.
  { intros t p x Hr y Hlk Hy. destruct (put_lookup b y k a a' Hk Hlk) as [-> |[-> ->]]; [auto|right].
    pose proof (read_assignment b t p x Hm Hr) as (_ & Hkey & _). rewrite Hy, <-Hkey in Hk |- *.
    unfold readAssignment in Hr. rewrite Hk in Hr. naive_solver. }
  destruct c; try done; cbn [dispatch] in H; apply plain_ok in H as [H _].
  - by destruct (Hc a0).
  - unfold applySetAssignmentTarget in H. inv_ok H; [left; congruence|].
    destruct (Hput t p a0 E _ Hk' eq_refl) as [-> |(_ & -> & ->)]; by left.
  - unfold applyCompleteMove in H. inv_ok H; [left; congruence|].
    assert (a_OwnerID a0 = expectedOwner) as Ho by (by apply dec_stable).
    assert (a_TargetID a0 = targetID) as Ht by (by apply dec_stable). clear E0 E1 E2. destruct (Hput t p a0 E _ Hk' eq_refl) as [-> |(-> & -> & ->)]; [by left|].
    right. exists t, p. simpl. by rewrite Ho, Ht.
  - unfold applyAbortMove in H. inv_ok H; [left; congruence|].
    destruct (Hput t p a0 E _ Hk' eq_refl) as [-> |(_ & -> & ->)]; by left.
  - unfold applyAssignPartitionIfAbsent in H. inv_ok H.
    apply (put_lookup _ _ _ a) in Hk' as [-> |[-> ->]]; [by left| |done]. simpl in Hk. congruence.
Qed.

(** ** Users and members *)

Definition writes_users (c : command) : bool :=
  match c with
  | OpCreateUser _ | OpUpdateUser _ | OpDeleteUser _ | OpSeedRootUser _ | OpSetUserPassword _ _ _
  | OpSetUserGrants _ _ _ | OpDeleteUserReleaseTopics _ => true
  | _ => false
  end.

Definition writes_members (c : command) : bool :=
  match c with
  | OpMemberJoin _ | OpMemberHeartbeat _ _ | OpMemberDead _ | OpSetMemberDraining _ _ | OpRemoveMember _ _
  | OpReadmitMember _ | OpMarkMemberDeadIf _ _ => true
  | _ => false
  end.

Lemma release_rest b l :
  users (foldl (λ b t, putTopicRecord (clear_owner t) b) b l) = users b
  ∧ removed_members (foldl (λ b t, putTopicRecord (clear_owner t) b) b l) = removed_members b.
Proof. revert b. induction l as [|t l IH]; intros b; [done|]. exact (IH (putTopicRecord (clear_owner t) b)). Qed.

Lemma dispatch_rest L bud c b b' bs ans :
  core_ok b → command_ok c → dispatch L bud c b = Ok (b', bs, ans) →
  (writes_users c = false → users b' = users b) ∧
  (writes_members c = false → removed_members b' = removed_members b).
Proof.
  intros Hcore Hok H. pose proof (topic_handlers L bud c b b' bs ans Hcore Hok H) as Ht.
  destruct c; try (destruct Ht as (_ & _ & ? & ? & _); done); clear Ht; cbn [dispatch] in H;
    try (apply plain_ok in H as [H _]).
  all: try (unfold applyAssignPartition, applyMemberJoin, applyMemberHeartbeat, applyMemberDead,
    applyMarkMemberDeadIf, mark_dead, applySetMemberDraining, applyRemoveMember, applyReadmitMember,
    applySetAssignmentTarget, applyCompleteMove, applyAbortMove, applyAssignPartitionIfAbsent,
    applyPruneAssignment, applyCreateUser, applySeedRootUser, putNewUser, applyUpdateUser,
    applySetUserPassword, applySetUserGrants, mutateUser in H; inv_ok H; done).
  - unfold applyDeleteUser in H. inv_ok H. unfold deleteUserRecord in E. by inv_ok E.
  - unfold applyDeleteUserReleaseTopics in H. inv_ok H. unfold releaseOwnedTopics in E0. injection E0 as <- <-.
    unfold deleteUserRecord in E. inv_ok E. split; [done|]. intros _. by rewrite (proj2 (release_rest _ _)).
  - unfold applyPutRemote in H. repeat case_match; try done; by injection H as <- _ _.
  - unfold applyUpdateRemote in H. repeat case_match; by simplify_eq.
  - unfold applyDeleteRemote in H. repeat case_match; by injection H as <- _ _.
Qed.

(** A root user survives every command with its rights. *)
Lemma root_kept L bud c b b' bs ans n u :
  meta_ok b → command_ok c → dispatch L bud c b = Ok (b', bs, ans) → users b !! n = Some u → u_Root u = true →
  ∃ u', users b' !! n = Some u' ∧ u_Root u' = true ∧ u_Grants u' = u_Grants u.
Proof.
  intros Hm Hok H Hn Hroot. destruct (writes_users c) eqn:Hw; cycle 1.
  { exists u. rewrite (proj1 (dispatch_rest L bud c b b' bs ans (mo_core _ Hm) Hok H)) by done. done. }
  assert (∀ m x, (m = n → u_Root x = true ∧ u_Grants x = u_Grants u) →
            ∃ u', users (putUser m x b) !! n = Some u' ∧ u_Root u' = true ∧ u_Grants u' = u_Grants u) as Hput.
  { intros m x Hx. simpl. rewrite lookup_insert. case_decide; [subst; exists x; naive_solver|eauto]. }
  assert (∀ m b1, deleteUserRecord m b = Ok b1 → users b1 !! n = Some u) as Hdel.
  { intros m b1 Hd. unfold deleteUserRecord in Hd. inv_ok Hd. simpl. rewrite lookup_delete_ne; [done|]. congruence. }
  destruct c; try done; cbn [dispatch] in H; apply plain_ok in H as [H _].
  - unfold applyCreateUser, putNewUser in H. inv_ok H. apply Hput. simpl in *. intros <-. congruence.
  - unfold applyUpdateUser in H. destruct (users b !! u_Username u0) as [cur|] eqn:E; [|done]. injection H as <- <-.
    apply Hput. intros Heq. assert (u_Username u0 = n) as Hn0 by (by destruct (u_Root cur)).
    assert (cur = u) as -> by congruence. by rewrite Hroot.
  - unfold applyDeleteUser in H. inv_ok H. exists u. split; [by eapply Hdel|done].
  - unfold applySeedRootUser, putNewUser in H. inv_ok H. apply Hput. simpl in *. intros <-. congruence.
  - unfold applySetUserPassword, mutateUser in H. inv_ok H. apply Hput. simpl. intros ->. by simplify_eq.
  - unfold applySetUserGrants, mutateUser in H. inv_ok H. apply Hput. intros ->.
    destruct (u_Root _) eqn:Er in E0; [done|]. congruence.
  - unfold applyDeleteUserReleaseTopics in H. inv_ok H. unfold releaseOwnedTopics in E0. injection E0 as <- <-.
    exists u. rewrite (proj1 (release_rest _ _)). split; [by eapply Hdel|done].
Qed.

(** A tombstone goes only by a readmission. *)
Lemma tombstone_kept L bud c b b' bs ans id :
  meta_ok b → command_ok c → dispatch L bud c b = Ok (b', bs, ans) → is_Some (removed_members b !! id) →
  c ≠ OpReadmitMember id → is_Some (removed_members b' !! id).
Proof.
  intros Hm Hok H Hid Hc. destruct (writes_members c) eqn:Hw; cycle 1.
  { by rewrite (proj2 (dispatch_rest L bud c b b' bs ans (mo_core _ Hm) Hok H)) by done. }
  destruct c; try done; cbn [dispatch] in H; apply plain_ok in H as [H _].
  - unfold applyMemberJoin in H. by inv_ok H.
  - unfold applyMemberHeartbeat in H. by inv_ok H.
  - unfold applyMemberDead, mark_dead in H. by inv_ok H.
  - unfold applySetMemberDraining in H. by inv_ok H.
  - unfold applyRemoveMember in H. injection H as <- <-. simpl. rewrite lookup_insert. by case_decide.
  - unfold applyReadmitMember in H. injection H as <- <-. simpl. rewrite lookup_delete_ne; [done|]. congruence.
  - unfold applyMarkMemberDeadIf, mark_dead in H. by inv_ok H.
Qed.
