(* ===== verification/Replication.v ===== *)
(** * The replicated state machine

    Theorems about runs of [Apply]: the invariant of every reachable
    database, the soundness of the domain versions as cache keys, and that
    replicas whose disks fail and which restart and replay at different
    points still hold the database of a prefix of the one log. *)

From S2P Require Import Prelude Decimal Keys Json Meta Versions FsmTopics FsmCluster FsmRemotes Fsm FanInv SchemaInv MetaInv Announce.

Section Replication.
Context (L : lib) (bud : schemaBudgets).

Local Abbreviation Apply := (Apply L bud).
Local Abbreviation apply_log := (apply_log L bud).
Local Abbreviation dispatch := (dispatch L bud).

(** What holds of the entries in the log. *)
Definition entry_ok (e : entry) : Prop :=
  match e_body e with Cmd c => command_ok c | _ => True end.

(** ** One entry *)

(** The buckets after one entry on a machine whose disk works. *)
Definition ideal_step (b : buckets) (e : entry) : buckets :=
  match e_body e with
  | Cmd c =>
      match refused_early c with
      | Some _ => b
      | None => match dispatch c b with Ok (b', _, _) => b' | Err _ => b end
      end
  | _ => b
  end.

Definition ideal (es : list entry) : buckets := foldl ideal_step empty_buckets es.

Definition known (e : entry) : Prop := ∀ op, e_body e ≠ UnknownType op.

(** What one [Apply] does, whatever the disk does. *)
Inductive applied_as (io : storage) (e : entry) (f f' : fsm) : Prop :=
| as_stopped :
    f' = f ∨ f' = stop f ∨ f' = stop (set_lastSeen (e_index e) f) → stopped f' = true →
    applied_as io e f f'
| as_skipped :
    stopped f = false → e_index e <= applied f → f' = set_lastSeen (e_index e) f → applied_as io e f f'
| as_refused op :
    stopped f = false → applied f < e_index e → known e → ideal_step (db f) e = db f →
    f' = consume io (e_index e) op (set_lastSeen (e_index e) f) → applied_as io e f f'
| as_committed c b bs ans ok :
    stopped f = false → applied f < e_index e → e_body e = Cmd c → dispatch c (db f) = Ok (b, bs, ans) →
    ideal_step (db f) e = b →
    f' = commit (e_index e) (opCode c) b bs ok (set_lastSeen (e_index e) f) → applied_as io e f f'.

Lemma Apply_cases io e f : applied_as io e f (Apply io e f).1.
Proof.
  unfold Fsm.Apply. destruct (stopped f) eqn:Hst; [apply as_stopped; auto|].
  change (applied (set_lastSeen (e_index e) f)) with (applied f).
  destruct (Z.leb_spec (e_index e) (applied f)) as [Hle|Hlt]; [by apply as_skipped|].
  destruct (e_body e) as [|op|op|c] eqn:Hb.
  - apply (as_refused _ _ _ _ 0); try done; [intros op; by rewrite Hb|]. unfold ideal_step. by rewrite Hb.
  - apply as_stopped; auto.
  - apply (as_refused _ _ _ _ op); try done; [intros op'; by rewrite Hb|]. unfold ideal_step. by rewrite Hb.
  - unfold apply_command. change (db (set_lastSeen (e_index e) f)) with (db f).
    assert (known e) as Hkn by (intros op; by rewrite Hb).
    destruct (refused_early c) as [er|] eqn:Hre.
    { eapply as_refused; try done. unfold ideal_step. by rewrite Hb, Hre. }
    destruct (st_tx io) eqn:Hio; [apply as_stopped; auto|..].
    all: destruct (dispatch c (db f)) as [[[b bs] ans]|er] eqn:Hd.
    all: try (eapply as_refused; try done; unfold ideal_step; by rewrite Hb, Hre, Hd).
    + apply as_stopped; auto.
    + eapply as_committed; try done. unfold ideal_step. by rewrite Hb, Hre, Hd.
Qed.

(** ** The invariant of reachable databases *)

(** A machine applies entries, or is stopped and started again. *)
Inductive machine_step :=
| MApply (io : storage) (e : entry)
| MRestart.

Definition machine (f : fsm) (s : machine_step) : fsm :=
  match s with MApply io e => (Apply io e f).1 | MRestart => reopen f end.

Definition step_ok (s : machine_step) : Prop :=
  match s with MApply _ e => entry_ok e | MRestart => True end.

Record fsm_ok (f : fsm) : Prop := {
  fk_meta : meta_ok (db f);
  fk_versions : versions_ok (versions f);
}.

Lemma ideal_step_meta b e : meta_ok b → entry_ok e → meta_ok (ideal_step b e).
Proof.
  intros Hm He. unfold ideal_step, entry_ok in *. destruct (e_body e) as [| | |c]; try done.
  destruct (refused_early c); [done|]. destruct (dispatch c b) as [[[b' bs] ans]|] eqn:Hd; [|done].
  by eapply dispatch_meta.
Qed.

Lemma Apply_ok io e f : fsm_ok f → entry_ok e → fsm_ok (Apply io e f).1.
Proof.
  intros [Hm Hv] He. destruct (Apply_cases io e f) as [Heq _|_ _ ->|op _ _ _ _ ->|c b bs ans ok _ _ Hb Hd Hid ->].
  - destruct Heq as [-> |[-> | ->]]; by split.
  - by split.
  - by split.
  - split; simpl; [rewrite <-Hid; by apply ideal_step_meta|by apply apply_bumps_spec].
Qed.

Lemma machine_ok f s : fsm_ok f → step_ok s → fsm_ok (machine f s).
Proof.
  intros Hf Hs. destruct s as [io e|]; [by apply Apply_ok|]. destruct Hf. split; [done|apply new_versions_ok].
Qed.

Lemma empty_fsm_ok : fsm_ok empty_fsm.
Proof. split; [apply empty_meta|apply new_versions_ok]. Qed.

Lemma run_ok steps f : fsm_ok f → Forall step_ok steps → fsm_ok (foldl machine f steps).
Proof.
  intros Hf Hs. revert f Hf. induction Hs as [|s steps H1 _ IH]; intros f Hf; [done|]. by apply IH, machine_ok.
Qed.

(** C1. In every database a machine can reach from entries whose payloads
    their proposers have checked (valid topic names, fresh topics, partition
    numbers that fit [int64]: [command_ok]), whatever its disk does and
    however often it restarts, the fan-out links agree both ways and obey
    the caps, delays and retention floors; every schema row is a version
    [1..k] of an existing topic and a local child's history is its
    parent's; assignments, members, users and remotes are under their own
    keys, and no removed member is a member. *)
Theorem metadata_invariant steps :
  Forall step_ok steps → meta_ok (db (foldl machine empty_fsm steps)).
Proof. intros Hs. by apply fk_meta, run_ok; [apply empty_fsm_ok|]. Qed.

(** ** The versions as cache keys *)

(** No version goes back, and a version that did not move means that what
    it covers did not change. *)
Record coherent (n : string) (f f' : fsm) : Prop := {
  ch_le : versions_le (versions f) (versions f');
  ch_topic : topicVersion (versions f') n = topicVersion (versions f) n →
    topics (db f') !! n = topics (db f) !! n;
  ch_assignment : assignmentVersion (versions f') n = assignmentVersion (versions f) n →
    rows_of n (assignments (db f')) = rows_of n (assignments (db f));
  ch_schema : schemaVersion (versions f') n = schemaVersion (versions f) n →
    rows_of n (schemas (db f')) = rows_of n (schemas (db f));
  ch_members : v_routingMembers (versions f') = v_routingMembers (versions f) →
    routing <$> members (db f') = routing <$> members (db f);
  ch_users : v_users (versions f') = v_users (versions f) → users (db f') = users (db f);
  ch_remotes : v_remotes (versions f') = v_remotes (versions f) → remotes (db f') = remotes (db f);
}.

#[local] Instance coherent_preorder n : PreOrder (coherent n).
Proof.
  split.
  - intros f. by split.
  - intros f1 f2 f3 [L1 T1 A1 S1 M1 U1 R1] [L2 T2 A2 S2 M2 U2 R2].
    pose proof (vl_topics _ _ L1 n). pose proof (vl_topics _ _ L2 n).
    pose proof (vl_assignments _ _ L1 n). pose proof (vl_assignments _ _ L2 n).
    pose proof (vl_schemas _ _ L1 n). pose proof (vl_schemas _ _ L2 n).
    pose proof (vl_members _ _ L1). pose proof (vl_members _ _ L2).
    pose proof (vl_users _ _ L1). pose proof (vl_users _ _ L2).
    pose proof (vl_remotes _ _ L1). pose proof (vl_remotes _ _ L2).
    split; [by etrans|..]; unfold topicVersion, assignmentVersion, schemaVersion in *; intros Heq.
    + rewrite T2, T1 by lia. done.
    + rewrite A2, A1 by lia. done.
    + rewrite S2, S1 by lia. done.
    + rewrite M2, M1 by lia. done.
    + rewrite U2, U1 by lia. done.
    + rewrite R2, R1 by lia. done.
Qed.

Lemma coherent_same n f f' : db f' = db f → versions f' = versions f → coherent n f f'.
Proof. intros Hd Hv. split; rewrite ?Hd, ?Hv; done. Qed.

(** An announced change is coherent. *)
Lemma coherent_announced n bs f f' :
  no_colon n → versions_ok (versions f) → announced bs (db f) (db f') →
  versions f' = apply_bumps (versions f) bs → coherent n f f'.
Proof.
  intros Hn Hok [T A S M U R] Hv. pose proof (λ b, apply_bumps_newer (versions f) bs b Hok) as Hnew.
  rewrite <-Hv in Hnew. split; [rewrite Hv; by apply apply_bumps_spec|..]; intros Heq.
  - destruct (T n) as [|[Hin|Hin]]; [done|apply Hnew in Hin..]; simpl in Hin; lia.
  - destruct (A n Hn) as [Hu|[Hin|[Hin|Hin]]]; [|apply Hnew in Hin; simpl in Hin; lia..].
    unfold rows_of. unfold under in Hu. by rewrite Hu.
  - destruct (S n Hn) as [Hu|[Hin|Hin]]; [|apply Hnew in Hin; simpl in Hin; lia..].
    unfold rows_of. unfold under in Hu. by rewrite Hu.
  - destruct M as [|Hin]; [done|]. apply Hnew in Hin; simpl in Hin; lia.
  - destruct U as [|Hin]; [done|]. apply Hnew in Hin; simpl in Hin; lia.
  - destruct R as [|Hin]; [done|]. apply Hnew in Hin; simpl in Hin; lia.
Qed.

Lemma Apply_coherent n io e f :
  no_colon n → fsm_ok f → entry_ok e → coherent n f (Apply io e f).1.
Proof.
  intros Hn [Hm Hv] He. destruct (Apply_cases io e f) as [Heq _|_ _ ->|op _ _ _ _ ->|c b bs ans ok _ _ Hb Hd Hid ->].
  - destruct Heq as [-> |[-> | ->]]; by apply coherent_same.
  - by apply coherent_same.
  - by apply coherent_same.
  - apply (coherent_announced n bs); try done. simpl. unfold entry_ok in He. rewrite Hb in He.
    by eapply dispatch_announced.
Qed.

Lemma log_coherent n log f :
  no_colon n → fsm_ok f → Forall (λ ie, entry_ok ie.2) log → coherent n f (apply_log log f).
Proof.
  intros Hn Hf Hl. revert f Hf. induction Hl as [|[io e] log H1 _ IH]; intros f Hf; [done|].
  cbn [Fsm.apply_log foldl]. etrans; [by apply Apply_coherent|]. by apply IH, Apply_ok.
Qed.

(** C8. Caching by domain version is sound: for a topic name without a colon,
    and entries whose payloads their proposers have checked ([command_ok]),
    between any two points of a machine's life in which a topic's version, or its assignments' or
    schemas' version, reads the same, that topic's record, assignment rows
    or schema rows are the same; so too the members routing sees, the users
    and the remotes under their versions.  No version ever reads lower
    than before. *)
Theorem cache_coherence steps log n :
  Forall step_ok steps → Forall (λ ie, entry_ok ie.2) log → no_colon n →
  let f := foldl machine empty_fsm steps in coherent n f (apply_log log f).
Proof.
  intros Hs Hl Hn f. apply log_coherent; [done| |done]. apply run_ok; [apply empty_fsm_ok|done].
Qed.

(** ** Failures, restarts and replay *)

Section Log.
Context (es : list entry).

(** The index a machine has applied after [k] entries. *)
Definition index_at (k : nat) : Z :=
  match k with O => 0 | S i => match es !! i with Some e => e_index e | None => 0 end end.

(** Raft's indices are positive and increasing. *)
Definition increasing : Prop := ∀ i e, es !! i = Some e → index_at i < e_index e.

(** One life of a replica: it starts from its database and applies the log
    from the beginning, each entry under its own disk behaviour, until it
    is killed. *)
Definition life (ios : list storage) (f : fsm) : fsm := apply_log (zip ios es) (reopen f).

Definition lives (ls : list (list storage)) : fsm := foldl (λ f ios, life ios f) empty_fsm ls.

(** What is on disk is the database of the first [k] entries. *)
Record on_disk (k : nat) (f : fsm) : Prop := {
  od_len : (k <= length es)%nat;
  od_index : meta_applied f = index_at k;
  od_db : db f = ideal (take k es);
  od_known : Forall known (take k es);
}.

(** In memory the machine may be ahead of its recorded index, by entries
    that were refused. *)
Record running (k a : nat) (f : fsm) : Prop := {
  ru_disk : on_disk k f;
  ru_le : (k <= a <= length es)%nat;
  ru_applied : applied f = index_at a;
  ru_noop : ∀ i e, (k <= i < a)%nat → es !! i = Some e → ideal_step (db f) e = db f ∧ known e;
}.

Context (Hinc : increasing).

Lemma index_mono i j : (i <= j <= length es)%nat → index_at i <= index_at j.
Proof.
  intros [Hij Hj]. induction Hij as [|j Hij IH]; [lia|].
  destruct (lookup_lt_is_Some_2 es j) as [e He]; [lia|]. pose proof (Hinc j e He).
  specialize (IH ltac:(lia)). simpl. rewrite He. lia.
Qed.

Lemma ideal_snoc k e : es !! k = Some e → ideal (take (S k) es) = ideal_step (ideal (take k es)) e.
Proof. intros He. rewrite (take_S_r _ _ e He). unfold ideal. by rewrite foldl_app. Qed.

Lemma noops_ideal k a b :
  (k <= a <= length es)%nat → b = ideal (take k es) →
  (∀ i e, (k <= i < a)%nat → es !! i = Some e → ideal_step b e = b ∧ known e) →
  b = ideal (take a es) ∧ (Forall known (take k es) → Forall known (take a es)).
Proof.
  intros [Hka Ha] Hb. induction Hka as [|a Hka IH]; intros Hno; [done|].
  destruct (lookup_lt_is_Some_2 es a) as [e He]; [lia|]. destruct (Hno a e) as [Hid Hkn]; [lia|done|].
  destruct IH as [Hba Hk]; [lia|intros i e' Hi; apply Hno; lia|]. split.
  - rewrite (ideal_snoc a e He), <-Hba. done.
  - intros Hf. rewrite (take_S_r _ _ e He). apply Forall_app. auto.
Qed.

(** A machine that has run may record its index. *)
Lemma running_record k a f :
  running k a f → on_disk a (MkFsm (db f) (index_at a) (meta_maxEntryType f) (applied f) (lastSeen f)
                               (mversion f) (versions f) (stopped f)).
Proof.
  intros [[Hl Hi Hd Hk] Hle Ha Hno]. destruct (noops_ideal k a (db f) Hle Hd Hno) as [Hb Hkn].
  split; [lia|done|done|auto].
Qed.

Definition good (io : storage) : Prop := st_tx io = TxCommits.

Lemma good_not_stopped io e f : good io → known e → stopped f = false → stopped (Apply io e f).1 = false.
Proof.
  intros Hg Hk Hst. unfold Fsm.Apply. rewrite Hst. case_match; [done|].
  destruct (e_body e) as [|op|op|c] eqn:Hb; try done; [by destruct (Hk op)|].
  unfold apply_command. destruct (refused_early c); [done|]. rewrite Hg.
  by destruct (dispatch c _) as [[[b bs] ans]|].
Qed.

(** One more entry. *)
Lemma running_step io e f k a i :
  running k a f → stopped f = false → es !! i = Some e → (i <= a)%nat →
  (∃ k', on_disk k' (Apply io e f).1) ∧
  (stopped (Apply io e f).1 = false → ∃ k' a', running k' a' (Apply io e f).1 ∧ (S i <= a')%nat).
Proof.
  intros Hrun Hst He Hia. pose proof Hrun as [Hd Hle Ha Hno]. pose proof Hd as [Hl Hi Hdb Hkn].
  pose proof (lookup_lt_Some _ _ _ He) as Hlt.
  destruct (Apply_cases io e f) as [Heq Hs|_ Hskip ->|op _ Happ Hke Hid ->|c b bs ans ok _ Happ Hb _ Hid ->].
  - split; [|congruence]. exists k. destruct Heq as [-> |[-> | ->]]; by destruct Hd.
  - assert (i < a)%nat as Hlt'.
    { destruct (decide (i = a)) as [-> |]; [|lia]. pose proof (Hinc a e He). lia. }
    split; [exists k; by destruct Hd|]. intros _. exists k, a. split; [|lia]. by destruct Hrun as [[] ? ? ?].
  - assert (i = a) as ->.
    { destruct (decide (i = a)); [done|]. pose proof (index_mono (S i) a ltac:(lia)) as Hm. simpl in Hm.
      rewrite He in Hm. lia. }
    assert (running k (S a) (consume io (e_index e) op (set_lastSeen (e_index e) f)) ∨
            running (S a) (S a) (consume io (e_index e) op (set_lastSeen (e_index e) f))) as Hr.
    { assert (∀ j e', (k <= j < S a)%nat → es !! j = Some e' → ideal_step (db f) e' = db f ∧ known e') as Hno'.
      { intros j e' Hj Hj'. destruct (decide (j = a)) as [-> |]; [|apply (Hno j); [lia|done]]. by simplify_eq. }
      destruct (noops_ideal k (S a) (db f)) as [Hb1 Hb2]; [lia|done|done|].
      unfold consume. destruct (st_record io); [right|left]; split; simpl; rewrite ?He; try lia; try done.
      split; simpl; rewrite ?He; try done; auto. }
    destruct Hr as [Hr|Hr]; (split; [eexists; apply Hr|]); intros _; eexists _, (S a); (split; [exact Hr|lia]).
  - assert (i = a) as ->.
    { destruct (decide (i = a)); [done|]. pose proof (index_mono (S i) a ltac:(lia)) as Hm. simpl in Hm.
      rewrite He in Hm. lia. }
    destruct (noops_ideal k a (db f)) as [Hb1 Hb2]; [lia|done|done|].
    assert (on_disk (S a) (commit (e_index e) (opCode c) b bs ok (set_lastSeen (e_index e) f))) as Hd'.
    { split; simpl; rewrite ?He; [lia|done|by rewrite (ideal_snoc a e He), <-Hb1|].
      rewrite (take_S_r _ _ e He). apply Forall_app. split; [auto|]. apply Forall_singleton.
      intros op. by rewrite Hb. }
    split; [by eexists|]. intros _. exists (S a), (S a). split; [|lia].
    split; [done|lia|simpl; by rewrite He|]. intros j e' Hj. lia.
Qed.

Lemma stopped_log log f : stopped f = true → apply_log log f = f.
Proof.
  intros Hst. induction log as [|[io e] log IH]; [done|]. cbn [Fsm.apply_log foldl fst snd].
  assert ((Apply io e f).1 = f) as -> by (unfold Fsm.Apply; by rewrite Hst). exact IH.
Qed.

Lemma running_log ios rest i f k a :
  rest = drop i es → running k a f → stopped f = false → (i <= a)%nat →
  let f' := apply_log (zip ios rest) f in
  (∃ k', on_disk k' f') ∧
  (length ios = length rest → Forall good ios → Forall known es →
     stopped f' = false ∧ ∃ k', running k' (length es) f').
Proof.
  revert ios i f k a. induction rest as [|e rest IH]; intros ios i f k a Hrest Hrun Hst Hia.
  { replace (zip ios []) with ([] : list (storage * entry)) by (by destruct ios). simpl.
    split; [exists k; apply Hrun|]. intros _ _ _. split; [done|]. exists k.
    assert (length es <= i)%nat as Hi.
    { pose proof (length_drop es i) as Hlen. rewrite <-Hrest in Hlen. simpl in Hlen. lia. }
    assert (a = length es) as <- by (pose proof (ru_le _ _ _ Hrun); lia). done. }
  assert (es !! i = Some e) as He.
  { rewrite <-(Nat.add_0_r i), <-lookup_drop, <-Hrest. done. }
  destruct ios as [|io ios].
  { split; [exists k; apply Hrun|done]. }
  change (apply_log (zip (io :: ios) (e :: rest)) f) with (apply_log (zip ios rest) (Apply io e f).1).
  destruct (running_step io e f k a i Hrun Hst He Hia) as [Hdisk Hgo].
  destruct (stopped (Apply io e f).1) eqn:Hst'.
  - rewrite stopped_log by done. split; [done|].
    intros Hlen Hgood Hkn. apply Forall_cons in Hgood as [Hg _].
    rewrite good_not_stopped in Hst'; [done|done| |done]. rewrite Forall_lookup in Hkn. by apply (Hkn i).
  - destruct (Hgo eq_refl) as (k' & a' & Hrun' & Hia').
    destruct (IH ios (S i) (Apply io e f).1 k' a') as [H1 H2]; [|done|done|done|].
    { replace (S i) with (i + 1)%nat by lia. rewrite <-drop_drop, <-Hrest. done. }
    split; [done|]. intros Hlen Hgood Hkn. apply Forall_cons in Hgood as [_ Hgood].
    apply H2; [simpl in Hlen; lia|done|done].
Qed.

Lemma reopen_running k f : on_disk k f → running k k (reopen f).
Proof.
  intros [Hl Hi Hd Hk]. split; [by split|lia|done|]. intros i e Hik. lia.
Qed.

Lemma lives_on_disk ls f k : on_disk k f → ∃ k', on_disk k' (foldl (λ f ios, life ios f) f ls).
Proof.
  revert f k. induction ls as [|ios ls IH]; intros f k Hd; [eauto|]. simpl.
  destruct (running_log ios es 0 (reopen f) k k) as [[k' Hk'] _];
    [done|by apply reopen_running|done|lia|]. by eapply IH.
Qed.

Lemma empty_on_disk : on_disk 0 empty_fsm.
Proof. split; [lia|done|done|by apply Forall_nil]. Qed.

End Log.

(** C7. A replica never diverges: after any number of lives, each killed
    or stopped anywhere and with any disk behaviour, its database is
    exactly that of a prefix of the log, with the index recorded in it, and
    no entry of an unknown type is in that prefix. *)
Theorem replica_is_prefix es ls :
  increasing es → ∃ k, on_disk es k (lives es ls).
Proof. intros Hinc. by apply (lives_on_disk es Hinc ls _ 0), empty_on_disk. Qed.

(** C6. Replay recovers: whatever happened in a replica's earlier lives, a
    life on a working disk that replays the log from the beginning ends
    running, with the database of the whole log: two replicas that have
    caught up agree. *)
Theorem replicas_converge es ls ios :
  increasing es → Forall known es → length ios = length es → Forall good ios →
  let f := life es ios (lives es ls) in
  db f = ideal es ∧ stopped f = false ∧ applied f = index_at es (length es).
Proof.
  intros Hinc Hkn Hlen Hgood f.
  destruct (lives_on_disk es Hinc ls _ 0 (empty_on_disk es)) as [k Hk].
  destruct (running_log es Hinc ios es 0 (reopen (lives es ls)) k k) as [_ Hrun];
    [done|by apply reopen_running|done|lia|].
  destruct (Hrun Hlen Hgood Hkn) as (Hst & k' & [[Hl Hi Hd Hk'] Hle Ha Hno]). split_and!; [|done|done].
  destruct (noops_ideal es k' (length es) (db f)) as [-> _]; [lia|done|done|]. by rewrite take_ge by lia.
Qed.

End Replication.
