(* ===== verification/MetaClaims.v ===== *)
(** * What the metastore promises its clients

    Theorems about single entries and runs of the state machine, on the
    databases a machine can reach: incarnations and schema versions are
    stable, partitions change owner only by the announced move, deletes are
    complete, stale compare-and-set writes are refused, removed members
    stay out, root users are protected, and a remote's credential is only
    ever sent where it was sealed for. *)

From S2P Require Import Prelude Decimal Keys Json Meta Versions FsmTopics FsmCluster FsmRemotes Fsm FanInv SchemaInv MetaInv Announce History Replication.

Section Claims.
Context (L : lib) (bud : schemaBudgets).

Local Abbreviation Apply := (Apply L bud).
Local Abbreviation machine := (machine L bud).
Local Abbreviation dispatch := (dispatch L bud).

(** A machine state reached by entries as their proposers build them. *)
Definition reached (f : fsm) : Prop :=
  ∃ steps, Forall step_ok steps ∧ f = foldl machine empty_fsm steps.

Lemma reached_ok f : reached f → fsm_ok f.
Proof. intros (steps & Hs & ->). apply run_ok; [apply empty_fsm_ok|done]. Qed.

Lemma reached_apply io e f : reached f → entry_ok e → reached (Apply io e f).1.
Proof.
  intros (steps & Hs & ->) He. exists (steps ++ [MApply io e]). split; [by apply Forall_app; auto|].
  by rewrite foldl_app.
Qed.

(** The database after an entry: untouched, or what its handler commits. *)
Lemma Apply_db io e f :
  db (Apply io e f).1 = db f ∨
  ∃ c bs ans, e_body e = Cmd c ∧ dispatch c (db f) = Ok (db (Apply io e f).1, bs, ans).
Proof.
  destruct (Apply_cases L bud io e f) as [Heq _|_ _ ->|op _ _ _ _ ->|c b bs ans ok _ _ Hb Hd _ ->].
  - left. destruct Heq as [-> |[-> | ->]]; done.
  - by left.
  - by left.
  - right. exists c, bs, ans. done.
Qed.

(** *** Topics and schemas *)

(** A topic keeps its incarnation id as long as it exists: no entry
    changes it, so the compare-and-set entries, which carry it, can tell a
    topic from a later one of the same name. *)
Theorem incarnation_stable f io e n t t' :
  reached f → entry_ok e → topics (db f) !! n = Some t → topics (db (Apply io e f).1) !! n = Some t' →
  t_ID t' = t_ID t.
Proof.
  intros Hf He Ht Ht'. destruct (Apply_db io e f) as [Heq|(c & bs & ans & Hb & Hd)]; [congruence|].
  unfold entry_ok in He. rewrite Hb in He. pose proof (fk_meta _ (reached_ok f Hf)) as Hm.
  destruct (dispatch_ages _ _ _ _ _ _ _ Hm He Hd) as [Hag|(tn & Hn & Hag)];
    destruct (ag_ids _ _ Hag n t' Ht') as (t0 & Ht0 & ->).
  - congruence.
  - simpl in Ht0. rewrite lookup_insert_ne in Ht0 by congruence. congruence.
Qed.

(** A registered schema version is never rewritten: no entry changes
    or drops a version of a topic that still exists after it. *)
Theorem schema_version_immutable f io e n v s :
  reached f → entry_ok e → schemas (db f) !! schemaKey n v = Some s →
  is_Some (topics (db (Apply io e f).1) !! n) → schemas (db (Apply io e f).1) !! schemaKey n v = Some s.
Proof.
  intros Hf He Hs [t' Ht']. destruct (Apply_db io e f) as [Heq|(c & bs & ans & Hb & Hd)]; [congruence|].
  unfold entry_ok in He. rewrite Hb in He. pose proof (fk_meta _ (reached_ok f Hf)) as Hm.
  pose proof (dispatch_meta _ _ _ _ _ _ _ Hm He Hd) as Hm'.
  assert (no_colon n) as Hn by (by eapply topic_no_colon; [apply (co_fan _ (mo_core _ Hm'))|]).
  assert (∃ b0, schemas b0 = schemas (db f) ∧ ages b0 (db (Apply io e f).1)) as (b0 & Hb0 & Hag).
  { destruct (dispatch_ages _ _ _ _ _ _ _ Hm He Hd) as [Hag|(tn & _ & Hag)]; [by eexists|].
    by exists (putTopicRecord tn (db f)). }
  rewrite <-Hb0 in Hs. destruct (ag_rows _ _ Hag _ _ Hs) as [|(m & Hmc & Hpre & Hnone)]; [done|].
  apply has_prefix_key in Hpre; [|done..]. congruence.
Qed.

(** Dissolving a topic's links removes its stubs and no other topic. *)
Lemma dissolve_keeps b n b2 l2 s2 m tm :
  core_ok b → dissolveFanoutLinks n b = Ok (b2, l2, s2) → topics b !! m = Some tm → topics b2 !! m = None →
  IsRemoteChild tm = true ∧ t_Parent tm = n.
Proof.
  intros Hcore H Hm Hnone. unfold dissolveFanoutLinks in H.
  destruct (getTopicRecord b n) as [t|] eqn:Ht; cbn [rbind] in H; [|done]. apply getTopic_ok in Ht.
  destruct (if IsParent t then dissolve_children n (t_Children t) b [] [] else (b, [], []))
    as [[b1 l1] s1] eqn:Eb1.
  assert (topics b1 !! m = None) as Hb1.
  { case_match; [case_match|]; injection H as <- <- <-; try done.
    simpl in Hnone. by apply lookup_insert_None in Hnone as [? _]. }
  destruct (IsParent t); [|congruence].
  assert (b1 = (dissolve_children n (t_Children t) b [] []).1.1) as Heq by (by rewrite Eb1).
  rewrite Heq, dissolve_topics, foldl_alter_lookup in Hb1.
  2:{ apply (sh_nodup _ _ (fo_shape _ (co_fan _ Hcore) _ _ Ht)). }
  2:{ by apply fan_names, Hcore. }
  rewrite Hm in Hb1. case_decide; [|done]. simpl in Hb1. unfold dissolved in Hb1. case_match eqn:E; [|done].
  apply andb_true_iff in E as [? Hp]. by apply bool_decide_eq_true in Hp.
Qed.

(** Deleting a topic is complete: no record, schema row or assignment
    row of it is left, nothing is linked to it any more, and no other topic
    goes but the remote stubs that were attached to it. *)
Theorem delete_topic_complete f n b' bs :
  reached f → applyDeleteTopic n (db f) = Ok (b', bs) →
  topics b' !! n = None ∧ rows_of n (schemas b') = [] ∧ rows_of n (assignments b') = []
  ∧ (∀ m t', topics b' !! m = Some t' → n ∉ t_Children t' ∧ (IsChild t' = true → t_Parent t' ≠ n))
  ∧ (∀ m t, topics (db f) !! m = Some t → m ≠ n → topics b' !! m = None →
       IsRemoteChild t = true ∧ t_Parent t = n).
Proof.
  intros Hf H. pose proof (fk_meta _ (reached_ok f Hf)) as Hm. unfold applyDeleteTopic in H.
  destruct (deleteTopicTx n (db f)) as [[[b1 l] st]|] eqn:Hd; [|done]. cbn [rbind] in H. injection H as <- <-.
  destruct (delete_core _ _ _ _ _ (mo_core _ Hm) Hd) as [[Hfan _ _] _].
  pose proof Hd as Hd'. unfold deleteTopicTx in Hd.
  destruct (getTopicRecord (db f) n) as [t|] eqn:Ht; cbn [rbind] in Hd; [|done]. apply getTopic_ok in Ht.
  destruct (dissolveFanoutLinks n (db f)) as [[[b2 l2] s2]|] eqn:Hdis; cbn [rbind] in Hd; [|done].
  injection Hd as <- <- <-.
  assert (topics (deleteTopicRecords n b2) !! n = None) as Hnone by (simpl; by rewrite lookup_delete_eq).
  assert (∀ {A} (M : gmap string A), rows_of n (deletePrefix (row_prefix n) M).1 = []) as Hrows.
  { intros A M. apply Permutation_nil_r. unfold rows_of. rewrite in_key_order_perm.
    match goal with |- map_to_list ?x ≡ₚ _ => assert (x = ∅) as -> end; [|by rewrite map_to_list_empty].
    apply map_empty. intros k. apply map_lookup_filter_None. right. intros x Hx. unfold deletePrefix in Hx.
    simpl in Hx. apply map_lookup_filter_Some in Hx as [_ Hx]. simpl in *. congruence. }
  split_and!; [done|apply Hrows|apply Hrows| |].
  - intros m t' Hm'. split.
    + intros Hin. destruct (linked_child _ _ _ _ Hfan Hm' Hin) as (_ & tc & Htc & _). congruence.
    + intros Hch Hp. destruct (child_linked _ _ _ Hfan Hm' Hch) as (tp & Htp & _). congruence.
  - intros m tm Htm Hmn Hgone. simpl in Hgone. rewrite lookup_delete_ne in Hgone by done.
    by eapply dissolve_keeps; [apply Hm|..].
Qed.
(** *** Compare and set *)

(** The incarnations a command is conditional on. *)
Definition expects (c : command) : list (string * string) :=
  match c with
  | OpUpdateTopicIf t id => [(t_Name t, id)]
  | OpDeleteTopicIf n id => [(n, id)]
  | OpPutSchemaIf p id => [(sp_Topic p, id)]
  | OpAttachChildIf p pid cid => [(cl_Parent p, pid); (cl_Child p, cid)]
  | OpDetachChildIf p c pid cid => [(p, pid); (c, cid)]
  | OpAssignPartitionIfAbsent t _ _ id => [(t, id)]
  | OpAttachRemoteChild op => [(ar_Parent op, ar_ParentID op)]
  | OpCreateTopicWith p => match cw_Link p with Some l => [(xl_Parent l, xl_ParentID l)] | None => [] end
  | _ => []
  end.

Definition stale (b : buckets) (n id : string) : Prop := ∀ t, topics b !! n = Some t → t_ID t ≠ id.

Lemma stale_get b n id :
  stale b n id → getTopicRecord b n = Err ErrNotFound ∨
  ∃ t, getTopicRecord b n = Ok t ∧ expectIncarnation t id = Err ErrTopicChanged.
Proof.
  intros Hs. unfold getTopicRecord. destruct (topics b !! n) as [t|] eqn:E; [right|by left].
  exists t. split; [done|]. unfold expectIncarnation. by rewrite decide_False by (by apply Hs).
Qed.

Lemma stale_pair b p pid c cid :
  stale b p pid ∨ stale b c cid → ∃ er, expectIncarnations b p pid c cid = Err er.
Proof.
  unfold expectIncarnations. intros [Hs|Hs].
  - destruct (stale_get b p pid Hs) as [-> |(t & -> & He)]; simpl; rewrite ?He; simpl; eauto.
  - destruct (getTopicRecord b p) as [tp|]; simpl; [|eauto]. destruct (expectIncarnation tp pid); simpl; [|eauto].
    destruct (stale_get b c cid Hs) as [-> |(t & -> & He)]; simpl; rewrite ?He; simpl; eauto.
Qed.

Lemma stale_create b p l :
  cw_Link p = Some l → stale b (xl_Parent l) (xl_ParentID l) → ∃ er, createTopicWithTx bud p b = Err er.
Proof.
  intros Hl Hs. unfold createTopicWithTx. set (t := cw_Topic p).
  destruct (topics b !! t_Name t) eqn:Hn; [eauto|]. destruct (foldedTopicName _ _); [eauto|].
  destruct (deletePrefix (row_prefix (t_Name t)) (assignments _)) as [rows nrows].
  destruct (deletePrefix (row_prefix (t_Name t)) (schemas _)) as [schs nschs]. rewrite Hl.
  assert (∀ b3 ch, topics b3 = <[t_Name t := t]> (topics b) → ∃ er : err,
            (let! parent := getTopicRecord b3 (xl_Parent l) in
             let! _ := expectIncarnation parent (xl_ParentID l) in
             let! ba := attachChildTx (MkLink (xl_Parent l) (t_Name t) (xl_Epoch l) (xl_DelayMs l) (xl_Offsets l))
                          (MkRules true (Some bud)) b3 in
             let '(b, adopted) := ba in Ok (b, (0 <? nrows, ch || adopted))) = Err er) as Hgo.
  { intros b3 ch Hb3. destruct (decide (xl_Parent l = t_Name t)) as [Heq|Hne].
    - destruct (getTopicRecord b3 _); simpl; [|eauto]. destruct (expectIncarnation _ _); simpl; [|eauto].
      unfold attachChildTx. simpl. rewrite decide_True by done. simpl. eauto.
    - unfold getTopicRecord. rewrite Hb3, lookup_insert_ne by done.
      destruct (stale_get b _ _ Hs) as [H|(tp & H & H2)]; unfold getTopicRecord in H; rewrite H; simpl; [eauto|].
      rewrite H2. simpl. eauto. }
  destruct (0 <? slen (cw_Schema p)).
  - destruct (budget_check _ _ _); cbn [rbind]; [|eauto]. by apply Hgo.
  - cbn [rbind]. by apply Hgo.
Qed.

Lemma stale_dispatch c b n id :
  (n, id) ∈ expects c → stale b n id → ∃ er, dispatch c b = Err er.
Proof.
  intros Hin Hs. destruct c; simpl in Hin; try by apply elem_of_nil in Hin.
  - destruct (cw_Link p) as [l|] eqn:Hl; [|by apply elem_of_nil in Hin]. apply list_elem_of_singleton in Hin.
    simplify_eq. destruct (stale_create b p l Hl Hs) as [er Her]. simpl. unfold applyCreateTopicWith.
    case_decide; [simpl; eauto|]. rewrite Her. simpl. eauto.
  - apply list_elem_of_singleton in Hin. simplify_eq. simpl. unfold applyUpdateTopicIf.
    destruct (stale_get b _ _ Hs) as [-> |(tp & -> & H2)]; simpl; [eauto|]. rewrite H2. simpl. eauto.
  - apply list_elem_of_singleton in Hin. simplify_eq. simpl. unfold applyDeleteTopicIf.
    destruct (stale_get b _ _ Hs) as [-> |(tp & -> & H2)]; simpl; [eauto|]. rewrite H2. simpl. eauto.
  - apply list_elem_of_singleton in Hin. simplify_eq. simpl. unfold applyPutSchemaIf.
    destruct (stale_get b _ _ Hs) as [-> |(tp & -> & H2)]; simpl; [eauto|]. rewrite H2. simpl. eauto.
  - simpl. unfold applyAttachChildIf.
    destruct (stale_pair b (cl_Parent p) parentID (cl_Child p) childID) as [er ->]; [|simpl; eauto].
    apply elem_of_cons in Hin as [?|?%list_elem_of_singleton]; simplify_eq; auto.
  - simpl. unfold applyDetachChildIf.
    destruct (stale_pair b parent parentID child childID) as [er ->]; [|simpl; eauto].
    apply elem_of_cons in Hin as [?|?%list_elem_of_singleton]; simplify_eq; auto.
  - apply list_elem_of_singleton in Hin. simplify_eq. simpl. unfold applyAssignPartitionIfAbsent.
    destruct (stale_get b _ _ Hs) as [-> |(tp & -> & H2)]; simpl; [eauto|]. rewrite H2. simpl. eauto.
  - apply list_elem_of_singleton in Hin. simplify_eq. simpl. unfold applyAttachRemoteChild.
    destruct (checkAttachRemoteChildOp op); simpl; [|eauto].
    destruct (stale_get b _ _ Hs) as [-> |(tp & -> & H2)]; simpl; [eauto|]. rewrite H2. simpl. eauto.
Qed.

(** A conditional entry whose topic was deleted, or deleted and created
    again, since it was proposed is refused and changes nothing; no other
    topic that merely has the name is touched. *)
Theorem stale_entry_refused f io idx c n id :
  (n, id) ∈ expects c → stale (db f) n id →
  (∃ er, dispatch c (db f) = Err er) ∧ db (Apply io (Entry idx (Cmd c)) f).1 = db f.
Proof.
  intros Hin Hs. destruct (stale_dispatch c (db f) n id Hin Hs) as [er Her]. split; [eauto|].
  destruct (Apply_db io (Entry idx (Cmd c)) f) as [|(c' & bs & ans & Hb & Hd)]; [done|].
  simpl in Hb. simplify_eq. congruence.
Qed.

(** *** Partitions *)

(** C34. A partition that has an owner gets another one only by completing
    the move announced for it: apart from a raw assignment, the one entry
    that changes the owner of a row is the completion that names the
    current owner and the target recorded in the row, and it clears the
    target. *)
Theorem owner_changes_by_move f io e k a a' :
  reached f → (∀ x, e_body e ≠ Cmd (OpAssignPartition x)) →
  assignments (db f) !! k = Some a → assignments (db (Apply io e f).1) !! k = Some a' →
  a_OwnerID a' = a_OwnerID a ∨
  ∃ t p, e_body e = Cmd (OpCompleteMove t p (a_OwnerID a) (a_OwnerID a')) ∧ k = assignmentKey t p
         ∧ a_TargetID a = a_OwnerID a' ∧ a_TargetID a' = "".
Proof.
  intros Hf Hne Hk Hk'. destruct (Apply_db io e f) as [Heq|(c & bs & ans & Hb & Hd)]; [left; congruence|].
  pose proof (fk_meta _ (reached_ok f Hf)) as Hm.
  assert (∀ x, c ≠ OpAssignPartition x) as Hc by (intros x ->; by destruct (Hne x)).
  destruct (owner_changes L bud c _ _ _ _ k a a' Hm Hc Hd Hk Hk') as [?|(t & p & -> & ?)]; [by left|].
  right. exists t, p. done.
Qed.

(** Completing a move is exact and safe to retry: it succeeds when the
    row still has the expected owner and target, or when the move was
    completed already; afterwards the partition is owned by the target with
    no move pending, no other row has changed, and the same entry again
    changes nothing. *)
Theorem complete_move_exact f t p owner target b' bs :
  reached f → target ≠ "" → applyCompleteMove t p owner target (db f) = Ok (b', bs) →
  (∃ a, readAssignment (db f) t p = Ok a
        ∧ (a_OwnerID a = owner ∧ a_TargetID a = target ∨ a_OwnerID a = target ∧ a_TargetID a = ""))
  ∧ (∃ a', readAssignment b' t p = Ok a' ∧ a_OwnerID a' = target ∧ a_TargetID a' = "")
  ∧ (∀ k, k ≠ assignmentKey t p → assignments b' !! k = assignments (db f) !! k)
  ∧ applyCompleteMove t p owner target b' = Ok (b', []).
Proof.
  intros Hf Hne H. pose proof (fk_meta _ (reached_ok f Hf)) as Hm. set (b := db f) in *.
  unfold applyCompleteMove in H. destruct (readAssignment b t p) as [a|] eqn:Hr; cbn [rbind] in H; [|done].
  pose proof (read_assignment b t p a Hm Hr) as (_ & Hkey & _).
  assert (∀ b1 a1, readAssignment b1 t p = Ok a1 → a_OwnerID a1 = target → a_TargetID a1 = "" →
            applyCompleteMove t p owner target b1 = Ok (b1, [])) as Hretry.
  { intros b1 a1 Hr1 Ho Ht. unfold applyCompleteMove. rewrite Hr1. simpl. by rewrite decide_True. }
  destruct (decide _) as [(Ho & Ht & _)|Hnot].
  { injection H as <- <-. split_and!; eauto. }
  destruct (decide (a_OwnerID a ≠ owner)) as [|Ho]; [done|].
  destruct (decide (a_TargetID a ≠ target)) as [|Ht]; [done|]. apply dec_stable in Ho, Ht.
  injection H as <- <-. set (a' := MkAssignment (a_Topic a) (a_Partition a) target "").
  assert (readAssignment (putAssignment a' b) t p = Ok a') as Hr'.
  { unfold readAssignment. simpl. by rewrite Hkey, lookup_insert_eq. }
  split_and!; [by exists a; auto|by exists a'| |by eapply Hretry].
  intros k Hk. simpl. rewrite lookup_insert_ne; [done|]. by rewrite <-Hkey.
Qed.

(** *** Members and users *)

(** A removed member stays out: until an entry readmits it, no entry
    makes it a member again, however late a join of it arrives. *)
Theorem removed_member_stays_out f log id :
  reached f → is_Some (removed_members (db f) !! id) →
  Forall (λ ie, entry_ok ie.2 ∧ e_body ie.2 ≠ Cmd (OpReadmitMember id)) log →
  members (db (apply_log L bud log f)) !! id = None.
Proof.
  intros Hf Hid Hl. revert f Hf Hid. induction Hl as [|[io e] log [He Hne] _ IH]; intros f Hf Hid.
  - destruct (members (db f) !! id) as [m|] eqn:E; [|done].
    pose proof (fk_meta _ (reached_ok f Hf)) as Hm. destruct (mo_members _ Hm _ _ E) as [_ Hnone].
    rewrite Hnone in Hid. by destruct Hid.
  - apply (IH (Apply io e f).1); [by apply reached_apply|]. simpl in *.
    destruct (Apply_db io e f) as [-> |(c & bs & ans & Hb & Hd)]; [done|].
    unfold entry_ok in He. rewrite Hb in He, Hne. pose proof (fk_meta _ (reached_ok f Hf)) as Hm.
    eapply tombstone_kept; [exact Hm|exact He|exact Hd|done|congruence].
Qed.

(** A root user is protected: no entry deletes it, demotes it or
    changes its grants. *)
Theorem root_user_protected f log n u :
  reached f → users (db f) !! n = Some u → u_Root u = true →
  Forall (λ ie, entry_ok ie.2) log →
  ∃ u', users (db (apply_log L bud log f)) !! n = Some u' ∧ u_Root u' = true ∧ u_Grants u' = u_Grants u.
Proof.
  intros Hf Hn Hr Hl. revert f u Hf Hn Hr. induction Hl as [|[io e] log He _ IH]; intros f u Hf Hn Hr; [eauto|].
  assert (∃ u1, users (db (Apply io e f).1) !! n = Some u1 ∧ u_Root u1 = true ∧ u_Grants u1 = u_Grants u)
    as (u1 & Hn1 & Hr1 & Hg1).
  { destruct (Apply_db io e f) as [-> |(c & bs & ans & Hb & Hd)]; [eauto|].
    unfold entry_ok in He. simpl in He. rewrite Hb in He. pose proof (fk_meta _ (reached_ok f Hf)) as Hm.
    eapply root_kept; [exact Hm|exact He|exact Hd|done|done]. }
  destruct (IH (Apply io e f).1 u1) as (u' & ? & ? & ?); [by apply reached_apply|done|done|].
  exists u'. split_and!; [done|done|congruence].
Qed.

(** *** Remotes *)

Definition writes_remotes (c : command) : bool :=
  match c with OpPutRemote _ | OpUpdateRemote _ | OpDeleteRemote _ _ => true | _ => false end.

Lemma release_remotes b l :
  remotes (foldl (λ b t, putTopicRecord (clear_owner t) b) b l) = remotes b
  ∧ remote_keys (foldl (λ b t, putTopicRecord (clear_owner t) b) b l) = remote_keys b.
Proof. revert b. induction l as [|t l IH]; intros b; [done|]. exact (IH (putTopicRecord (clear_owner t) b)). Qed.

Lemma dispatch_remotes c b b' bs ans :
  core_ok b → command_ok c → dispatch c b = Ok (b', bs, ans) → writes_remotes c = false →
  remotes b' = remotes b ∧ remote_keys b' = remote_keys b.
Proof.
  intros Hcore Hok H Hw. pose proof (topic_handlers L bud c b b' bs ans Hcore Hok H) as Ht.
  destruct c; try done; try (destruct Ht as (_ & _ & _ & _ & ? & ?); done); clear Ht; cbn [Fsm.dispatch] in H;
    apply plain_ok in H as [H _].
  all: try (unfold applyAssignPartition, applyMemberJoin, applyMemberHeartbeat, applyMemberDead,
    applyMarkMemberDeadIf, mark_dead, applySetMemberDraining, applyRemoveMember, applyReadmitMember,
    applySetAssignmentTarget, applyCompleteMove, applyAbortMove, applyAssignPartitionIfAbsent,
    applyPruneAssignment, applyCreateUser, applySeedRootUser, putNewUser, applyUpdateUser,
    applySetUserPassword, applySetUserGrants, mutateUser in H; inv_ok H; done).
  - unfold applyDeleteUser in H. inv_ok H. unfold deleteUserRecord in E. by inv_ok E.
  - unfold applyDeleteUserReleaseTopics in H. inv_ok H. unfold releaseOwnedTopics in E0. injection E0 as <- <-.
    unfold deleteUserRecord in E. inv_ok E. rewrite (proj1 (release_remotes _ _)), (proj2 (release_remotes _ _)). done.
Qed.

(** The seals counted under a key version. *)
Definition seals (b : buckets) (kv : string) : Z :=
  match k_Versions (readRemoteKeys b) !! kv with Some v => kv_Seals v | None => 0 end.

(** The sealed credential a command carries. *)
Definition carried (c : command) : option Envelope :=
  match c with
  | OpPutRemote op => Some (r_Credential (pr_Record op))
  | OpUpdateRemote op => ur_Credential op
  | _ => None
  end.

Lemma countSeal_spec keys kv at_ keys' prior :
  countSeal keys kv at_ = (keys', prior) →
  prior = match k_Versions keys !! kv with Some v => kv_Seals v | None => 0 end
  ∧ k_Salt keys' = k_Salt keys
  ∧ ∀ x, match k_Versions keys' !! x with Some v => kv_Seals v | None => 0 end =
         if decide (kv = x) then u64 (prior + 1)
         else match k_Versions keys !! x with Some v => kv_Seals v | None => 0 end.
Proof.
  unfold countSeal. intros H. injection H as <- <-. split_and!; [done|done|]. intros x. simpl.
  rewrite lookup_insert. by case_decide.
Qed.

(** Every seal is counted, also that of a refused write, and no
    credential is accepted under a key version whose count has reached the
    cap; once the cluster has a salt it never changes. *)
Theorem seals_counted f c b' bs ans :
  reached f → command_ok c → dispatch c (db f) = Ok (b', bs, ans) →
  (∀ kv, seals b' kv =
     match carried c with
     | Some e => if decide (env_KV e = kv) then u64 (seals (db f) kv + 1) else seals (db f) kv
     | None => seals (db f) kv
     end)
  ∧ (∀ e, carried c = Some e → ans = None → seals (db f) (env_KV e) < SealCap)
  ∧ (∀ s, k_Salt (readRemoteKeys (db f)) = Some s → k_Salt (readRemoteKeys b') = Some s).
Proof.
  intros Hf Hok H. pose proof (mo_core _ (fk_meta _ (reached_ok f Hf))) as Hcore. set (b := db f) in *.
  destruct (writes_remotes c) eqn:Hw; cycle 1.
  { destruct (dispatch_remotes c b b' bs ans Hcore Hok H Hw) as [_ Hk]. unfold seals, readRemoteKeys. rewrite Hk.
    by destruct c. }
  destruct c; try done; cbn [Fsm.dispatch carried] in *.
  - unfold applyPutRemote in H. case_match; [done|].
    destruct (countSeal _ _ _) as [keys prior] eqn:Ec. apply countSeal_spec in Ec as (Hp & Hsalt & Hall).
    destruct (put_remote_refusal b keys prior op) as [er|] eqn:Er; injection H as <- <- <-.
    + split_and!; [|done|]; unfold seals; simpl.
      * intros kv. rewrite Hall. repeat case_decide; subst; done.
      * intros s Hs. rewrite <-Hsalt in Hs. done.
    + split_and!; unfold seals; simpl.
      * intros kv. rewrite Hall. repeat case_decide; subst; done.
      * intros e [= <-] _. unfold put_remote_refusal in Er. case_match; [done|].
        destruct (Z.leb_spec SealCap prior); [done|]. by subst prior.
      * intros s Hs. rewrite <-Hsalt in Hs. unfold readRemoteKeys. simpl. by rewrite Hs.
  - unfold applyUpdateRemote in H. destruct (ur_Credential op) as [e|] eqn:Ecr.
    + case_match; [done|]. destruct (countSeal _ _ _) as [keys prior] eqn:Ec.
      apply countSeal_spec in Ec as (Hp & Hsalt & Hall). set (b1 := set_remote_keys (Some keys) b) in *.
      assert (remote_keys b' = Some keys ∧ (ans = None → prior < SealCap)) as [Hk Hans].
      { destruct (getRemoteRaw b1 _); [|by injection H as <- <- <-].
        destruct (applyRemoteFields _ _); [|by injection H as <- <- <-].
        destruct (checkRemoteUpdate _ _ _ _ _) eqn:Eck; injection H as <- <- <-; split; try done.
        intros _. unfold checkRemoteUpdate in Eck. rewrite Ecr in Eck. repeat case_match; try done.
        all: match goal with E : (SealCap <=? _) = false |- _ => by apply Z.leb_gt in E end. }
      unfold seals, readRemoteKeys. rewrite Hk. simpl. split_and!.
      * intros kv. rewrite Hall. repeat case_decide; subst; done.
      * intros e' [= <-] Ha. subst prior. by apply Hans.
      * intros s Hs. rewrite <-Hs. apply Hsalt.
    + assert (remote_keys b' = remote_keys b) as Hk.
      { repeat case_match; try done; by injection H as <- <- <-. }
      unfold seals, readRemoteKeys. by rewrite Hk.
  - unfold applyDeleteRemote in H. assert (remote_keys b' = remote_keys b) as Hk.
    { repeat case_match; by injection H as <- <- <-. }
    unfold seals, readRemoteKeys. by rewrite Hk.
Qed.

(** A remote's credential is bound to where it is sent: an entry that
    changes a registered remote's URL, username, CA bundle or credential
    carries a credential sealed against exactly the remote as it is stored
    afterwards. *)
Theorem credential_binding f io e n r r' :
  reached f → entry_ok e → remotes (db f) !! n = Some r → remotes (db (Apply io e f).1) !! n = Some r' →
  (r_URL r', r_Username r', r_CAPEM r', r_Credential r') ≠ (r_URL r, r_Username r, r_CAPEM r, r_Credential r) →
  ∃ op env sealed, e_body e = Cmd (OpUpdateRemote op) ∧ ur_Credential op = Some env ∧ r_Credential r' = env
    ∧ ur_SealedAgainst op = Some sealed ∧ TupleOf L r' = Some sealed.
Proof.
  intros Hf He Hr Hr' Hch. destruct (Apply_db io e f) as [Heq|(c & bs & ans & Hb & Hd)]; [congruence|].
  pose proof (fk_meta _ (reached_ok f Hf)) as Hm. unfold entry_ok in He. rewrite Hb in He.
  set (b' := db (Apply io e f).1) in *. set (b := db f) in *. destruct (writes_remotes c) eqn:Hw; cycle 1.
  { destruct (dispatch_remotes c b b' bs ans (mo_core _ Hm) He Hd Hw) as [Hk _]. congruence. }
  rewrite Hb. clear Hb. destruct c; try done; cbn [Fsm.dispatch] in Hd.
  - exfalso. unfold applyPutRemote in Hd. case_match; [done|]. destruct (countSeal _ _ _) as [keys prior].
    destruct (put_remote_refusal b keys prior op) as [er|] eqn:Er.
    { injection Hd as Hb' _ _. rewrite <-Hb' in Hr'. simpl in Hr'. congruence. }
    injection Hd as Hb' _ _. rewrite <-Hb' in Hr'. simpl in Hr'. unfold put_remote_refusal in Er.
    destruct (match k_Salt keys with None => _ | Some _ => _ end) in Er; [done|].
    destruct (SealCap <=? prior) in Er; [done|]. destruct (remotes b !! r_Name (pr_Record op)) eqn:Ex; [done|].
    rewrite lookup_insert_ne in Hr' by congruence. congruence.
  - exists op. unfold applyUpdateRemote in Hd.
    destruct (match ur_Credential op with Some _ => _ | None => _ end) in Hd; [done|].
    destruct (match ur_Credential op with Some _ => _ | None => _ end) as [b1 prior] eqn:Eb1.
    assert (remotes b1 = remotes b) as Er1.
    { destruct (ur_Credential op); [|by injection Eb1 as <- <-]. destruct (countSeal _ _ _). by injection Eb1 as <- <-. }
    clear Eb1. destruct (getRemoteRaw b1 (ur_Name op)) as [rec|] eqn:Eg; [|exfalso; injection Hd as <- _ _; congruence].
    destruct (applyRemoteFields rec (ur_Fields op)) as [next|] eqn:Ef; [|exfalso; injection Hd as <- _ _; congruence].
    destruct (checkRemoteUpdate L rec next op prior) eqn:Eck; injection Hd as Hb' _ _; [exfalso; congruence|].
    apply getRemote_ok in Eg. rewrite Er1 in Eg. destruct (mo_remotes _ Hm _ _ Eg) as (Hn & _).
    rewrite <-Hb' in Hr'. simpl in Hr'. rewrite Hn, Er1 in Hr'.
    apply lookup_insert_Some in Hr' as [[Hname <-]|[_ Hr']]; [|congruence].
    assert (rec = r) as -> by congruence.
    unfold checkRemoteUpdate in Eck. unfold updated_remote in *. destruct (ur_Credential op) as [env|] eqn:Ecr.
    + case_match; [done|]. destruct (TupleOf L next) as [tuple|] eqn:Et; [|done].
      destruct (ur_SealedAgainst op) as [sealed|]; [|done]. unfold tupleEqual in Eck.
      case_bool_decide; [|done]. subst. exists env, sealed. split_and!; try done.
    + exfalso. simpl in Hch. apply Hch. clear Hch. case_match; [done|].
      destruct (bool_decide (r_URL next = r_URL r ∧ r_Username next = r_Username r ∧ r_CAPEM next = r_CAPEM r)) eqn:Eb; [|done].
      apply bool_decide_eq_true in Eb as (-> & -> & ->). f_equal. unfold applyRemoteFields in Ef.
      repeat case_match; by simplify_eq.
  - exfalso. unfold applyDeleteRemote in Hd.
    assert (remotes b' = remotes b ∨ remotes b' = delete name (remotes b)) as [Hk|Hk].
    { repeat case_match; injection Hd as <- _ _; auto. }
    + congruence.
    + rewrite Hk in Hr'. apply lookup_delete_Some in Hr' as [_ Hr']. congruence.
Qed.

End Claims.

(** ** A run of the metastore

    A small cluster's log, applied by the definitions, on which the
    theorems of [Replication.v] and [MetaClaims.v] are instantiated. *)

Definition demo_lib : lib := Lib (λ _, true) (λ _, None).
Definition demo_bud : schemaBudgets := defaultSchemaBudgets.
Definition works : storage := Storage TxCommits true.

Definition new_topic (name id : string) (partitions : Z) : Topic :=
  MkTopic name id partitions 0 30000 100 100 0 "alice" "" [] "" "" 0 [] None.

Definition node (id : string) : Member := MkMember id (id +:+ "-http") (id +:+ "-rpc") MemberAlive 1 false "b1" 37.

Definition sealed (ct : string) : Envelope := MkEnvelope 1 "0123456789abcdef" ct.

Definition dr : RemoteRecord :=
  MkRemoteRecord "dr" "r-1" "https://dr.example" "svc" (sealed "c1") 0 "fp1" 0 "" "" DefaultLimits 0 0 "".

Definition dr_moved : SealedTuple := MkTuple "dr" "r-1" "https://dr2.example" "svc" "system-roots".

Definition demo_log : list command :=
  [ OpCreateTopicWith (MkCreateWith (new_topic "orders" "id-1" 2) "{}" None)
  ; OpCreateTopicWith (MkCreateWith (new_topic "audit" "id-2" 1) "" (Some (MkCreateLink "orders" "id-1" "e1" 0 [])))
  ; OpMemberJoin (node "n1")
  ; OpMemberJoin (node "n2")
  ; OpSeedRootUser (MkUser "root" "h" [MkGrant "admin" ["*"]] true 0 0)
  ; OpAssignPartitionIfAbsent "orders" 0 "n1" "id-1"
  ; OpSetAssignmentTarget "orders" 0 "n2"
  ; OpCompleteMove "orders" 0 "n1" "n2"
  ; OpRemoveMember "n1" 5
  ; OpMemberJoin (node "n1")
  ; OpPutRemote (MkPutRemote dr "salt" 7 "alice")
  ; OpUpdateRemote (MkUpdateRemote "dr" (MkFields (Some "https://dr2.example") None None None)
      (Some (sealed "c2")) "fp2" (Some dr_moved) None false 8 "alice")
  ; OpPutSchemaIf (MkSchema "orders" 2 "{}") "id-1"
  ; OpUpdateUser (MkUser "root" "h2" [] false 0 9)
  ; OpDeleteTopicIf "orders" "id-1"
  ; OpDeleteTopicIf "orders" "id-1" ].

Definition demo_entry (i : nat) (c : command) : entry := Entry (Z.of_nat i + 1) (Cmd c).

Definition demo_entries : list entry := imap demo_entry demo_log.

(** The machine after the first [k] entries. *)
Definition demo (k : nat) : fsm :=
  foldl (machine demo_lib demo_bud) empty_fsm (MApply works <$> take k demo_entries).

Lemma demo_entries_ok : Forall entry_ok demo_entries.
Proof.
  assert (∀ n id p, fresh_topic (new_topic n id p)) as Hfr by (intros; split; auto).
  repeat (apply Forall_cons; split); try done; try apply Forall_nil; try (split; [apply Hfr|done]).
  all: by vm_compute.
Qed.

Lemma demo_reached k : reached demo_lib demo_bud (demo k).
Proof.
  exists (MApply works <$> take k demo_entries). split; [|done]. apply Forall_fmap.
  eapply Forall_impl; [apply Forall_take, demo_entries_ok|]. done.
Qed.

Lemma demo_lookup k e : demo_entries !! k = Some e → entry_ok e.
Proof. intros He. pose proof demo_entries_ok as Hall. rewrite Forall_lookup in Hall. by apply (Hall k). Qed.

Definition entry_at (k : nat) : entry := nth k demo_entries (Entry 0 Garbage).

Lemma entry_at_ok k : entry_ok (entry_at k).
Proof.
  unfold entry_at. destruct (nth_in_or_default k demo_entries (Entry 0 Garbage)) as [Hin| ->]; [|done].
  apply list_elem_of_In in Hin. pose proof demo_entries_ok as Hall. rewrite Forall_forall in Hall. auto.
Qed.

(** The machine after entry [k] of the log, from the state before it. *)
Definition demo_next (k : nat) : fsm := (Apply demo_lib demo_bud works (entry_at k) (demo k)).1.

Ltac some_of x := destruct x eqn:?; [|exfalso; by vm_compute in *].

Lemma metadata_invariant_witness :
  topics (db (demo 2)) !! "audit" ≠ None ∧ meta_ok (db (demo 2)).
Proof.
  split; [by vm_compute|]. apply (metadata_invariant demo_lib demo_bud (MApply works <$> take 2 demo_entries)).
  apply Forall_fmap. eapply Forall_impl; [apply Forall_take, demo_entries_ok|]. done.
Defined.

Lemma cache_coherence_witness :
  topicVersion (versions (demo_next 2)) "orders" = topicVersion (versions (demo 2)) "orders"
  ∧ v_routingMembers (versions (demo_next 2)) ≠ v_routingMembers (versions (demo 2))
  ∧ coherent "orders" (demo 2) (demo_next 2).
Proof.
  split; [by vm_compute|]. split; [by vm_compute|].
  apply (cache_coherence demo_lib demo_bud (MApply works <$> take 2 demo_entries) [(works, entry_at 2)] "orders").
  - apply Forall_fmap. eapply Forall_impl; [apply Forall_take, demo_entries_ok|]. done.
  - apply Forall_singleton, entry_at_ok.
  - refine (bool_decide_unpack _ _). by vm_compute.
Defined.

Lemma demo_increasing : increasing demo_entries.
Proof.
  intros i e He. do 16 (destruct i as [|i]; [vm_compute in He; simplify_eq; by vm_compute|]).
  rewrite lookup_ge_None_2 in He; [done|]. vm_compute. lia.
Qed.

(** A disk whose write transactions fail. *)
Definition broken : storage := Storage TxNoCommit false.

Definition demo_lives : list (list storage) :=
  [[works; works; broken]; [works; works; works; Storage TxCommits false]].

Lemma replica_is_prefix_witness :
  ∃ k, on_disk demo_lib demo_bud demo_entries k (lives demo_lib demo_bud demo_entries demo_lives).
Proof. apply (replica_is_prefix demo_lib demo_bud demo_entries demo_lives), demo_increasing. Defined.

Lemma replicas_converge_witness :
  let f := life demo_lib demo_bud demo_entries (replicate 16 works)
             (lives demo_lib demo_bud demo_entries demo_lives) in
  db f = ideal demo_lib demo_bud demo_entries ∧ stopped f = false ∧ applied f = index_at demo_entries 16.
Proof.
  apply (replicas_converge demo_lib demo_bud demo_entries demo_lives (replicate 16 works)).
  - apply demo_increasing.
  - repeat (apply Forall_cons; split; [intros op; by simpl|]). apply Forall_nil. done.
  - done.
  - apply Forall_replicate. done.
Defined.

Definition topic_at (k : nat) (n : string) : Topic := default (new_topic "" "" 0) (topics (db (demo k)) !! n).

(** Attaching [audit] rewrites the record of [orders]. *)
Lemma incarnation_stable_witness :
  topic_at 2 "orders" ≠ topic_at 1 "orders" ∧ t_ID (topic_at 2 "orders") = t_ID (topic_at 1 "orders").
Proof.
  split; [by vm_compute|].
  apply (incarnation_stable demo_lib demo_bud (demo 1) works (entry_at 1) "orders").
  - apply demo_reached.
  - apply entry_at_ok.
  - by vm_compute.
  - by vm_compute.
Defined.

(** Version 1 when version 2 is registered. *)
Lemma schema_version_immutable_witness :
  schemas (db (demo 12)) !! schemaKey "audit" 1 = Some "{}"
  ∧ schemas (db (demo_next 12)) !! schemaKey "audit" 2 = Some "{}"
  ∧ schemas (db (demo_next 12)) !! schemaKey "audit" 1 = Some "{}".
Proof.
  split; [by vm_compute|]. split; [by vm_compute|].
  apply (schema_version_immutable demo_lib demo_bud (demo 12) works (entry_at 12) "audit" 1 "{}").
  - apply demo_reached.
  - apply entry_at_ok.
  - by vm_compute.
  - exists (topic_at 13 "audit"). by vm_compute.
Defined.

Definition deleted_orders : buckets * list bump :=
  match applyDeleteTopic "orders" (db (demo 14)) with Ok r => r | Err _ => (empty_buckets, []) end.

Lemma delete_topic_complete_witness :
  is_Some (topics (db (demo 14)) !! "orders") ∧ rows_of "orders" (assignments (db (demo 14))) ≠ []
  ∧ topics deleted_orders.1 !! "orders" = None ∧ rows_of "orders" (assignments deleted_orders.1) = [].
Proof.
  split; [exists (topic_at 14 "orders"); by vm_compute|]. split; [by vm_compute|].
  destruct (delete_topic_complete demo_lib demo_bud (demo 14) "orders" deleted_orders.1 deleted_orders.2)
    as (H1 & _ & H3 & _); [apply demo_reached|vm_compute; reflexivity|]. exact (conj H1 H3).
Defined.

(** The second delete finds the topic gone. *)
Lemma stale_entry_refused_witness :
  (∃ er, dispatch demo_lib demo_bud (OpDeleteTopicIf "orders" "id-1") (db (demo 15)) = Err er)
  ∧ db (demo_next 15) = db (demo 15).
Proof.
  apply (stale_entry_refused demo_lib demo_bud (demo 15) works 16 (OpDeleteTopicIf "orders" "id-1") "orders" "id-1").
  - left.
  - intros t Ht. by vm_compute in Ht.
Defined.

Definition row_at (k : nat) : Assignment :=
  default (MkAssignment "" 0 "" "") (assignments (db (demo k)) !! assignmentKey "orders" 0).

Lemma owner_changes_by_move_witness :
  a_OwnerID (row_at 7) = "n1" ∧ a_OwnerID (row_at 8) = "n2"
  ∧ (a_OwnerID (row_at 8) = a_OwnerID (row_at 7) ∨
     ∃ t p, e_body (entry_at 7) = Cmd (OpCompleteMove t p (a_OwnerID (row_at 7)) (a_OwnerID (row_at 8)))
            ∧ assignmentKey "orders" 0 = assignmentKey t p
            ∧ a_TargetID (row_at 7) = a_OwnerID (row_at 8) ∧ a_TargetID (row_at 8) = "").
Proof.
  split; [by vm_compute|]. split; [by vm_compute|].
  apply (owner_changes_by_move demo_lib demo_bud (demo 7) works (entry_at 7) (assignmentKey "orders" 0)).
  - apply demo_reached.
  - intros x. by simpl.
  - by vm_compute.
  - by vm_compute.
Defined.

Definition moved : buckets * list bump :=
  match applyCompleteMove "orders" 0 "n1" "n2" (db (demo 7)) with Ok r => r | Err _ => (empty_buckets, []) end.

Lemma complete_move_exact_witness :
  applyCompleteMove "orders" 0 "n1" "n2" (db (demo 7)) = Ok (moved.1, moved.2)
  ∧ applyCompleteMove "orders" 0 "n1" "n2" moved.1 = Ok (moved.1, []).
Proof.
  assert (applyCompleteMove "orders" 0 "n1" "n2" (db (demo 7)) = Ok (moved.1, moved.2)) as H by (by vm_compute).
  split; [exact H|].
  apply (complete_move_exact demo_lib demo_bud (demo 7) "orders" 0 "n1" "n2" moved.1 moved.2
           (demo_reached 7) ltac:(done) H).
Defined.

(** A late join of the removed node. *)
Lemma removed_member_stays_out_witness :
  is_Some (members (db (demo 8)) !! "n1")
  ∧ members (db (apply_log demo_lib demo_bud [(works, entry_at 9)] (demo 9))) !! "n1" = None.
Proof.
  split; [exists (node "n1"); by vm_compute|].
  apply (removed_member_stays_out demo_lib demo_bud (demo 9) [(works, entry_at 9)] "n1").
  - apply demo_reached.
  - exists 5. by vm_compute.
  - apply Forall_singleton. split; [apply entry_at_ok|by simpl].
Defined.

Definition root_user : User := MkUser "root" "h" [MkGrant "admin" ["*"]] true 0 0.

Lemma root_user_protected_witness :
  ∃ u', users (db (apply_log demo_lib demo_bud [(works, entry_at 13)] (demo 13))) !! "root" = Some u'
        ∧ u_Root u' = true ∧ u_Grants u' = u_Grants root_user.
Proof.
  apply (root_user_protected demo_lib demo_bud (demo 13) [(works, entry_at 13)] "root" root_user).
  - apply demo_reached.
  - by vm_compute.
  - done.
  - apply Forall_singleton, entry_at_ok.
Defined.

Definition put_dr : command := OpPutRemote (MkPutRemote dr "salt" 7 "alice").

(** A second registration of the name is refused, and its seal counted. *)
Definition put_again : buckets * list bump * option err :=
  match dispatch demo_lib demo_bud put_dr (db (demo 11)) with Ok r => r | Err _ => (empty_buckets, [], None) end.

Lemma seals_counted_witness :
  put_again.2 = Some ErrRemoteExists ∧
  seals put_again.1.1 "0123456789abcdef" = u64 (seals (db (demo 11)) "0123456789abcdef" + 1).
Proof.
  split; [by vm_compute|].
  destruct (seals_counted demo_lib demo_bud (demo 11) put_dr put_again.1.1 put_again.1.2 put_again.2)
    as (H & _); [apply demo_reached|exact I|vm_compute; reflexivity|].
  rewrite (H "0123456789abcdef"). unfold carried, put_dr.
  destruct (decide _) as [_|Hne]; [reflexivity|]. by destruct Hne.
Defined.

Definition remote_at (k : nat) : RemoteRecord := default dr (remotes (db (demo k)) !! "dr").

Lemma credential_binding_witness :
  r_URL (remote_at 12) = "https://dr2.example" ∧
  ∃ op env sealed, e_body (entry_at 11) = Cmd (OpUpdateRemote op) ∧ ur_Credential op = Some env
    ∧ r_Credential (remote_at 12) = env ∧ ur_SealedAgainst op = Some sealed
    ∧ TupleOf demo_lib (remote_at 12) = Some sealed.
Proof.
  split; [by vm_compute|].
  apply (credential_binding demo_lib demo_bud (demo 11) works (entry_at 11) "dr" (remote_at 11)).
  - apply demo_reached.
  - apply entry_at_ok.
  - by vm_compute.
  - by vm_compute.
  - by vm_compute.
Defined.
