(* ===== verification/Users.v ===== *)
(** * Users, grants and delegation

    [internal/domain/user/user.go]: what a user's grants allow, and the
    rule that decides which grants a user may hand out.  The theorems show
    that a grant pattern covers another exactly when it matches every topic
    the other matches, and that delegation never escalates. *)

From S2P Require Import Prelude Decimal Keys Json Meta.

Definition ActionProduce : string := "produce".
Definition ActionConsume : string := "consume".
Definition ActionCreate : string := "create".
Definition ActionAdmin : string := "admin".

(** [strings.CutSuffix(s, "*")]. *)
Fixpoint cut_star (s : string) : option string :=
  match s with
  | EmptyString => None
  | String c EmptyString => if decide (c = "*"%char) then Some EmptyString else None
  | String c r => String c <$> cut_star r
  end.

(** [strings.TrimSuffix(s, "*")]. *)
Definition trim_star (s : string) : string := default s (cut_star s).

(** ** What grants allow *)

Definition IsAdmin (u : User) : bool :=
  u_Root u || existsb (λ g, bool_decide (g_Action g = ActionAdmin)) (u_Grants u).

Definition MatchPattern (pattern name : string) : bool :=
  match cut_star pattern with
  | Some prefix => has_prefix prefix name
  | None => bool_decide (pattern = name)
  end.

Definition Allowed (u : User) (action topicName : string) : bool :=
  IsAdmin u ||
  existsb (λ g, bool_decide (g_Action g = action) && existsb (λ p, MatchPattern p topicName) (g_Patterns g))
    (u_Grants u).

Definition AllowedAny (u : User) (topicName : string) : bool :=
  IsAdmin u || existsb (λ g, existsb (λ p, MatchPattern p topicName) (g_Patterns g)) (u_Grants u).

(** ** Delegation *)

Definition patternCovers (have want : string) : bool :=
  match cut_star have with
  | Some havePrefix => has_prefix havePrefix (trim_star want)
  | None => bool_decide (have = want)
  end.

Definition patternCovered (granted : list Grant) (action requested : string) : bool :=
  existsb (λ g, bool_decide (g_Action g = action) && existsb (λ have, patternCovers have requested) (g_Patterns g))
    granted.

(** [User{Grants: granted}]. *)
Definition holding (granted : list Grant) : User := MkUser "" "" granted false 0 0.

Definition Covers (granted requested : list Grant) : bool :=
  IsAdmin (holding granted) ||
  forallb (λ want, negb (bool_decide (g_Action want = ActionAdmin))
                   && forallb (patternCovered granted (g_Action want)) (g_Patterns want)) requested.

Definition CanDelegate (u : User) (requested : list Grant) : bool :=
  forallb (λ g, negb (bool_decide (g_Action g = ActionAdmin) && negb (u_Root u))) requested
  && (IsAdmin u || Covers (u_Grants u) requested).

(** ** Validation *)

Definition ValidateUsername (name : string) : bool :=
  negb (bool_decide (name = "." ∨ name = "..")) && name_matches 1 64 (chars name).

Definition MaxPasswordBytes : Z := 72.

Definition ValidatePassword (password : string) : bool :=
  negb (bool_decide (password = "")) && (Z.of_nat (String.length password) <=? MaxPasswordBytes).

Definition pattern_ok (p : string) : bool :=
  negb (bool_decide (p = "")) && name_matches 0 255 (chars (trim_star p)).

Definition grant_ok (g : Grant) : bool :=
  if decide (g_Action g ∈ [ActionProduce; ActionConsume; ActionCreate])
  then match g_Patterns g with [] => false | ps => forallb pattern_ok ps end
  else if decide (g_Action g = ActionAdmin) then match g_Patterns g with [] => true | _ => false end
  else false.

Definition ValidateGrants (grants : list Grant) : bool := forallb grant_ok grants.

(** ** Lemmas *)

Lemma cut_star_some s r : cut_star s = Some r ↔ s = r +:+ "*".
Proof.
  revert r. induction s as [|c s IH]; intros r.
  { split; [done|]. by destruct r. }
  destruct s as [|c' s].
  - cbn [cut_star]. case_decide as Hc.
    + subst c. split; [by intros [= <-]|]. intros Hr. destruct r as [|d r]; [done|].
      exfalso. injection Hr as _ Hr. by destruct r.
    + split; [done|]. intros Hr. exfalso. destruct r as [|d r].
      * by injection Hr as ->.
      * injection Hr as _ Hr. by destruct r.
  - change (cut_star (String c (String c' s))) with (String c <$> cut_star (String c' s)).
    rewrite fmap_Some. setoid_rewrite IH. split.
    + intros (r' & Hr' & ->). exact (f_equal (String c) Hr').
    + intros Hr. destruct r as [|d r]; [done|]. injection Hr as -> Hr. exists r. by split.
Qed.

Lemma has_prefix_trans p q s : has_prefix p q = true → has_prefix q s = true → has_prefix p s = true.
Proof.
  rewrite !has_prefix_true. intros [r ->] [r' ->]. exists (r +:+ r'). apply string_app_assoc.
Qed.

Lemma has_prefix_refl s : has_prefix s s = true.
Proof. apply has_prefix_true. exists EmptyString. induction s as [|c s IH]; [done|]. exact (f_equal (String c) IH). Qed.

Lemma trim_none s : cut_star s = None → trim_star s = s.
Proof. unfold trim_star. by intros ->. Qed.

Lemma app_star_ne (x w : string) : x = w +:+ (x +:+ "x") → False.
Proof.
  intros H. apply (f_equal String.length) in H.
  assert (∀ a b, String.length (a +:+ b) = (String.length a + String.length b)%nat) as Hlen.
  { intros a b. induction a as [|c a IH]; [done|]. exact (f_equal S IH). }
  rewrite !Hlen in H. simpl in H. lia.
Qed.

Lemma covers_matches have want name :
  patternCovers have want = true → MatchPattern want name = true → MatchPattern have name = true.
Proof.
  unfold patternCovers, MatchPattern, trim_star. destruct (cut_star have) as [h|] eqn:Eh.
  - destruct (cut_star want) as [w|]; simpl; [by apply has_prefix_trans|].
    intros Hp Heq%bool_decide_eq_true. by subst.
  - rewrite bool_decide_eq_true. intros <-. by rewrite Eh.
Qed.

(** A grant pattern covers another exactly when it matches every topic
    name the other matches. *)
Theorem patternCovers_exact have want :
  patternCovers have want = true ↔ ∀ name, MatchPattern want name = true → MatchPattern have name = true.
Proof.
  split; [intros Hc name; by apply covers_matches|]. intros Hall. unfold patternCovers, trim_star.
  destruct (cut_star have) as [h|] eqn:Eh.
  - destruct (cut_star want) as [w|] eqn:Ew; simpl.
    + specialize (Hall w). unfold MatchPattern in Hall. rewrite Eh, Ew in Hall. by apply Hall, has_prefix_refl.
    + specialize (Hall want). unfold MatchPattern in Hall. rewrite Eh, Ew in Hall.
      by apply Hall, bool_decide_eq_true.
  - apply bool_decide_eq_true. destruct (cut_star want) as [w|] eqn:Ew.
    + exfalso. specialize (Hall (w +:+ (have +:+ "x"))). unfold MatchPattern in Hall. rewrite Eh, Ew in Hall.
      eapply app_star_ne, bool_decide_eq_true, Hall, has_prefix_true. eauto.
    + specialize (Hall want). unfold MatchPattern in Hall. rewrite Eh, Ew in Hall.
      eapply bool_decide_eq_true, Hall. by apply bool_decide_eq_true.
Qed.

(** C39. Delegation never escalates: whoever may hand out a set of grants
    may do everything that set allows, and only a root user can hand out
    the admin action. *)
Theorem delegation_no_escalation u requested action topicName :
  CanDelegate u requested = true →
  (IsAdmin (holding requested) = true → u_Root u = true)
  ∧ (Allowed (holding requested) action topicName = true → Allowed u action topicName = true).
Proof.
  unfold CanDelegate. rewrite andb_true_iff, forallb_forall. intros [Hadm Hcov].
  assert (IsAdmin (holding requested) = true → u_Root u = true) as Hroot.
  { unfold IsAdmin. simpl. intros (g & Hin & Hg)%existsb_exists. specialize (Hadm g Hin). rewrite Hg in Hadm.
    simpl in Hadm. by destruct (u_Root u). }
  split; [done|]. unfold Allowed at 1. rewrite orb_true_iff. intros [Hr%Hroot|Hal].
  { unfold Allowed, IsAdmin. by rewrite Hr. }
  unfold Allowed. destruct (IsAdmin u) eqn:Ha; [done|]. simpl in *. unfold Covers in Hcov.
  assert (IsAdmin (holding (u_Grants u)) = false) as Hnot.
  { unfold IsAdmin in *. simpl. by apply orb_false_iff in Ha as [_ ->]. }
  rewrite Hnot in Hcov. simpl in Hcov. rewrite forallb_forall in Hcov.
  apply existsb_exists in Hal as (g & Hin & Hg). apply andb_true_iff in Hg as [Hact%bool_decide_eq_true Hpat].
  apply existsb_exists in Hpat as (p & Hp & Hm). specialize (Hcov g Hin).
  apply andb_true_iff in Hcov as [_ Hcov]. rewrite forallb_forall in Hcov. specialize (Hcov p Hp).
  unfold patternCovered in Hcov. apply existsb_exists in Hcov as (g' & Hin' & Hg').
  apply andb_true_iff in Hg' as [Hact'%bool_decide_eq_true Hpat]. apply existsb_exists in Hpat as (have & Hh & Hc).
  apply existsb_exists. exists g'. split; [done|]. rewrite Hact', Hact, bool_decide_eq_true_2 by done. simpl.
  apply existsb_exists. exists have. split; [done|]. by eapply covers_matches.
Qed.

Definition demo_user : User := MkUser "ann" "h" [MkGrant "produce" ["orders-*"]] false 0 0.

Lemma delegation_no_escalation_witness :
  CanDelegate demo_user [MkGrant "produce" ["orders-eu"]] = true
  ∧ CanDelegate demo_user [MkGrant "produce" ["*"]] = false
  ∧ (Allowed (holding [MkGrant "produce" ["orders-eu"]]) "produce" "orders-eu" = true →
     Allowed demo_user "produce" "orders-eu" = true).
Proof.
  split; [by vm_compute|]. split; [by vm_compute|].
  apply (delegation_no_escalation demo_user [MkGrant "produce" ["orders-eu"]] "produce" "orders-eu").
  by vm_compute.
Defined.
