(* ===== verification/Plan.v ===== *)
(** * The rebalance planner

    [internal/cluster/controller/plan.go]: from the partitions each node
    holds and the nodes that may receive some, the moves that balance the
    counts.  Counts are far below 2^63, so they are plain integers. *)

From S2P Require Import Prelude.

Record PartitionRef := MkRef { pr_Topic : string; pr_Partition : Z }.

#[global] Instance PartitionRef_eq_dec : EqDecision PartitionRef.
Proof. solve_decision. Defined.

Record RebalanceMove := MkMove { mv_Partition : PartitionRef; mv_From : string; mv_To : string }.

Record PlanInput := MkInput {
  Load : gmap string Z;
  Movable : gmap string (list PartitionRef);
  Receivers : list string;
  Avoid : option (RebalanceMove → bool);
}.

(** A Go map read: the zero value for a missing key. *)
Definition count_of (m : gmap string Z) (n : string) : Z := default 0 (m !! n).

Definition parts_of (m : gmap string (list PartitionRef)) (n : string) : list PartitionRef := default [] (m !! n).

Definition zsum {A} (f : A → Z) (l : list A) : Z := foldr (λ x a, f x + a) 0 l.

(** [sort.Strings]. *)
Definition sort_strings (l : list string) : list string := merge_sort String.le l.

(** [sort.SearchStrings] on a sorted slice: the first index not below [s]. *)
Fixpoint SearchStrings (sorted : list string) (s : string) : nat :=
  match sorted with
  | [] => 0
  | x :: rest => if decide (String.le s x) then 0 else S (SearchStrings rest s)
  end.

Definition contains (sorted : list string) (s : string) : bool :=
  bool_decide (sorted !! SearchStrings sorted s = Some s).

Definition sortedKeys {A} (m : gmap string A) : list string := sort_strings (map_to_list m).*1.

(** [less], as the order [sort.Slice] sorts by. *)
Definition ref_le (a b : PartitionRef) : Prop :=
  if decide (pr_Topic a = pr_Topic b) then pr_Partition a <= pr_Partition b else String.le (pr_Topic a) (pr_Topic b).

#[global] Instance ref_le_dec a b : Decision (ref_le a b).
Proof. unfold ref_le. destruct (decide (pr_Topic a = pr_Topic b)); apply _. Defined.

(** The order of [capacities]: more load first, then the lower ID. *)
Definition rank_le (load : gmap string Z) (a b : string) : Prop :=
  count_of load b < count_of load a ∨ count_of load a = count_of load b ∧ String.le a b.

#[global] Instance rank_le_dec load a b : Decision (rank_le load a b).
Proof. unfold rank_le. apply _. Defined.

Definition ranked (receivers : list string) (load : gmap string Z) : list string := merge_sort (rank_le load) receivers.

Definition bump (caps : gmap string Z) (n : string) : gmap string Z := <[n := count_of caps n + 1]> caps.

Definition capacities (receivers : list string) (load : gmap string Z) (total : Z) : gmap string Z :=
  let r := Z.of_nat (length receivers) in
  let base := total / r in
  let rem := total mod r in
  let caps := foldl (λ caps n, <[n := base]> caps) ∅ receivers in
  foldl bump caps (take (Z.to_nat rem) (ranked receivers load)).

Definition total_load (receivers : list string) (load : gmap string Z) : Z :=
  zsum (count_of load) receivers
  + zsum snd (filter (λ nc, contains receivers nc.1 = false) (map_to_list load)).

Record shedItem := Shed { sh_from : string; sh_part : PartitionRef }.

(** What one node sheds. *)
Definition surplus (movable : gmap string (list PartitionRef)) (caps : gmap string Z) (node : string) : Z :=
  Z.of_nat (length (parts_of movable node)) - count_of caps node.

Definition shed (movable : gmap string (list PartitionRef)) (caps : gmap string Z) (node : string) : list shedItem :=
  Shed node <$> take (Z.to_nat (surplus movable caps node)) (merge_sort ref_le (parts_of movable node)).

Definition shed_pool (movable : gmap string (list PartitionRef)) (caps : gmap string Z) : list shedItem :=
  concat (shed movable caps <$> sortedKeys movable).

Definition deficits (receivers : list string) (load caps : gmap string Z) : gmap string Z :=
  foldl (λ deficit r, let d := count_of caps r - count_of load r in if 0 <? d then <[r := d]> deficit else deficit) ∅ receivers.

(** One candidate of [pickReceiver]'s loop. *)
Definition pick_step (deficit : gmap string Z) (item : shedItem) (avoid : option (RebalanceMove → bool))
    (acc : string * Z * bool) (r : string) : string * Z * bool :=
  let '(best, bestDef, bestAvoided) := acc in
  let d := count_of deficit r in
  if (d <=? 0) || bool_decide (r = sh_from item) then acc
  else
    let avoided := match avoid with Some f => f (MkMove (sh_part item) (sh_from item) r) | None => false end in
    let better :=
      if decide (best = "") then true
      else if negb (Bool.eqb bestAvoided avoided) then negb avoided
      else if decide (d ≠ bestDef) then bestDef <? d else false in
    if better then (r, d, avoided) else acc.

Definition pickReceiver (receivers : list string) (deficit : gmap string Z) (item : shedItem)
    (avoid : option (RebalanceMove → bool)) : string :=
  (foldl (pick_step deficit item avoid) ("", 0, true) receivers).1.1.

Definition take_slot (deficit : gmap string Z) (to : string) : gmap string Z :=
  let d := count_of deficit to - 1 in if decide (d = 0) then delete to deficit else <[to := d]> deficit.

(** The loop over the pool. *)
Fixpoint place (receivers : list string) (deficit : gmap string Z) (pool : list shedItem)
    (avoid : option (RebalanceMove → bool)) : list RebalanceMove :=
  match pool with
  | [] => []
  | item :: pool =>
      let to := pickReceiver receivers deficit item avoid in
      if decide (to = "") then []
      else MkMove (sh_part item) (sh_from item) to :: place receivers (take_slot deficit to) pool avoid
  end.

Definition PlanRebalance (input : PlanInput) : list RebalanceMove :=
  let receivers := sort_strings (Receivers input) in
  match receivers with
  | [] => []
  | _ =>
      let total := total_load receivers (Load input) in
      let caps := capacities receivers (Load input) total in
      place receivers (deficits receivers (Load input) caps) (shed_pool (Movable input) caps) (Avoid input)
  end.

(** ** Balance and its cost

    The capacities the planner aims at and the number of moves it takes to
    reach them: a closed form of the surplus, that it is least over all
    balanced targets, and that moving one partition lowers it by at most
    one. *)

(** ** Sums *)

#[local] Arguments zsum : simpl never.

Lemma zsum_nil {A} (f : A → Z) : zsum f [] = 0.
Proof. done. Qed.

Lemma zsum_cons {A} (f : A → Z) x l : zsum f (x :: l) = f x + zsum f l.
Proof. done. Qed.

Lemma zsum_app {A} (f : A → Z) l1 l2 : zsum f (l1 ++ l2) = zsum f l1 + zsum f l2.
Proof. induction l1 as [|x l1 IH]; [done|]. rewrite <-app_comm_cons, !zsum_cons, IH. lia. Qed.

#[global] Instance zsum_perm {A} (f : A → Z) : Proper ((≡ₚ) ==> (=)) (zsum f).
Proof. induction 1; rewrite ?zsum_cons; lia. Qed.

Lemma zsum_ext {A} (f g : A → Z) l : (∀ x, x ∈ l → f x = g x) → zsum f l = zsum g l.
Proof.
  induction l as [|x l IH]; intros H; [done|]. rewrite !zsum_cons, (H x) by (by left). f_equal. apply IH. intros y Hy. apply H. by right.
Qed.

Lemma zsum_add {A} (f g : A → Z) l : zsum (λ x, f x + g x) l = zsum f l + zsum g l.
Proof. induction l as [|x l IH]; [done|]. rewrite !zsum_cons, IH. lia. Qed.

Lemma zsum_le {A} (f g : A → Z) l : (∀ x, x ∈ l → f x <= g x) → zsum f l <= zsum g l.
Proof.
  induction l as [|x l IH]; intros H; [done|]. rewrite !zsum_cons. pose proof (H x ltac:(by left)).
  assert (zsum f l <= zsum g l); [|lia]. apply IH. intros y Hy. apply H. by right.
Qed.

Lemma zsum_const {A} (c : Z) (l : list A) : zsum (λ _, c) l = c * Z.of_nat (length l).
Proof. induction l as [|x l IH]; rewrite ?zsum_cons, ?zsum_nil; cbn [length]; lia. Qed.

Lemma zsum_nonneg {A} (f : A → Z) l : (∀ x, x ∈ l → 0 <= f x) → 0 <= zsum f l.
Proof. intros H. rewrite <-(Z.mul_0_l (Z.of_nat (length l))), <-zsum_const. by apply zsum_le. Qed.

(** Counting as a sum of ones. *)
Definition ones {A} (P : A → Prop) `{!∀ x, Decision (P x)} (x : A) : Z := if decide (P x) then 1 else 0.

Lemma zsum_ones {A} (P : A → Prop) `{!∀ x, Decision (P x)} l : zsum (ones P) l = Z.of_nat (length (filter P l)).
Proof.
  induction l as [|x l IH]; [done|]. rewrite zsum_cons, IH, filter_cons. unfold ones.
  destruct (decide (P x)); cbn [length]; lia.
Qed.

Lemma zsum_filter {A} (P : A → Prop) `{!∀ x, Decision (P x)} (f : A → Z) l :
  zsum f l = zsum f (filter P l) + zsum f (filter (λ x, ¬ P x) l).
Proof.
  induction l as [|x l IH]; [done|]. rewrite zsum_cons, IH, !filter_cons.
  destruct (decide (P x)), (decide (¬ P x)); rewrite ?zsum_cons; try tauto; lia.
Qed.

Lemma zsum_update {A} `{EqDecision A} (f g : A → Z) (s : A) l :
  NoDup l → (∀ x, x ≠ s → g x = f x) → zsum g l = zsum f l + (if decide (s ∈ l) then g s - f s else 0).
Proof.
  intros Hnd Hg. induction Hnd as [|x l Hx _ IH]; [done|]. rewrite !zsum_cons, IH.
  destruct (decide (x = s)) as [->|Hne].
  - rewrite (decide_False (P := s ∈ l)), decide_True by (done || by left). lia.
  - rewrite Hg by done. destruct (decide (s ∈ l)) as [Hs|Hs].
    + rewrite (decide_True (P := s ∈ x :: l)) by (by right). lia.
    + rewrite (decide_False (P := s ∈ x :: l)); [lia|]. intros [?|?]%elem_of_cons; congruence.
Qed.

(** ** Sorting *)

#[global] Instance rank_le_total load : Total (rank_le load).
Proof.
  intros a b. unfold rank_le. destruct (Z.lt_trichotomy (count_of load a) (count_of load b)) as [?|[?|?]]; [by right; left| |by left; left].
  destruct (total String.le a b); [left|right]; right; auto.
Qed.

#[global] Instance rank_le_trans load : Transitive (rank_le load).
Proof.
  intros a b c [H1|[H1 L1]] [H2|[H2 L2]]; unfold rank_le; [left; lia..|]. right. split; [lia|]. by etrans.
Qed.

Lemma ranked_perm R load : ranked R load ≡ₚ R.
Proof. apply merge_sort_Permutation. Qed.

Lemma ranked_sorted R load : StronglySorted (rank_le load) (ranked R load).
Proof. apply StronglySorted_merge_sort; apply _. Qed.

Lemma sort_strings_perm l : sort_strings l ≡ₚ l.
Proof. apply merge_sort_Permutation. Qed.

Lemma contains_spec l s : StronglySorted String.le l → contains l s = bool_decide (s ∈ l).
Proof.
  intros Hs. unfold contains. apply bool_decide_ext. induction Hs as [|x l _ IH Hx]; cbn [SearchStrings].
  - rewrite elem_of_nil. done.
  - case_decide as Hle; cbn [lookup list_lookup].
    + rewrite elem_of_cons. split; [intros [= ->]; by left|]. intros [->|Hin]; [done|].
      rewrite Forall_forall in Hx. specialize (Hx s Hin). f_equal. by apply (anti_symm String.le).
    + rewrite IH, elem_of_cons. split; [by right|]. intros [->|?]; [|done]. by destruct Hle.
Qed.

(** Taking the first [k] of a list sorted downwards takes as many of the
    large ones as there is room for. *)
Lemma top_count load (base : Z) l k :
  StronglySorted (rank_le load) l →
  length (filter (λ n, base < count_of load n) (take k l)) = Nat.min k (length (filter (λ n, base < count_of load n) l)).
Proof.
  intros Hs. revert k. induction Hs as [|x l _ IH Hx]; intros [|k]; cbn [take]; [done..|].
  rewrite !filter_cons. destruct (decide (base < count_of load x)) as [Hlt|Hge]; cbn [length]; [rewrite IH; lia|].
  assert (filter (λ n, base < count_of load n) l = []) as Hnil.
  { apply elem_of_nil_inv. intros y [Hlt Hy]%list_elem_of_filter. rewrite Forall_forall in Hx. destruct (Hx y Hy) as [?|[? _]]; lia. }
  rewrite Hnil, IH, Hnil. cbn. lia.
Qed.

(** ** Capacities *)

Lemma fill_lookup base R caps n :
  foldl (λ caps n, <[n := base]> caps) caps R !! n = if decide (n ∈ R) then Some base else (caps : gmap string Z) !! n.
Proof.
  revert caps. induction R as [|x R IH]; intros caps; cbn [foldl]; [done|]. rewrite IH.
  destruct (decide (n ∈ R)) as [Hn|Hn].
  - by rewrite decide_True by (by right).
  - destruct (decide (n = x)) as [->|Hne].
    + rewrite lookup_insert_eq, decide_True by (by left). done.
    + rewrite lookup_insert_ne by done. rewrite decide_False; [done|]. by intros [?|?]%elem_of_cons.
Qed.

Lemma bump_count l caps n :
  NoDup l → count_of (foldl bump caps l) n = count_of caps n + (if decide (n ∈ l) then 1 else 0).
Proof.
  intros Hnd. revert caps. induction Hnd as [|x l Hx _ IH]; intros caps; cbn [foldl]; [rewrite decide_False by set_solver; lia|].
  rewrite IH. unfold bump, count_of at 1. destruct (decide (n = x)) as [->|Hne].
  - rewrite lookup_insert_eq, decide_False, decide_True by (done || by left). cbn. lia.
  - rewrite lookup_insert_ne by done. fold (count_of caps n). destruct (decide (n ∈ l)).
    + by rewrite decide_True by (by right).
    + rewrite decide_False; [done|]. by intros [?|?]%elem_of_cons.
Qed.

Lemma capacities_spec R load total n :
  NoDup R →
  let r := Z.of_nat (length R) in
  count_of (capacities R load total) n =
    if decide (n ∈ R) then total / r + (if decide (n ∈ take (Z.to_nat (total mod r)) (ranked R load)) then 1 else 0) else 0.
Proof.
  intros Hnd r. unfold capacities. fold r. rewrite bump_count.
  - unfold count_of. rewrite fill_lookup, lookup_empty. destruct (decide (n ∈ R)) as [Hn|Hn]; [done|]. cbn.
    rewrite decide_False; [done|]. intros Hin. apply Hn. rewrite <-(ranked_perm R load). by eapply elem_of_take in Hin as (? & Hin & _); apply list_elem_of_lookup_2 in Hin.
  - eapply sublist_NoDup; [|apply sublist_take]. by rewrite ranked_perm.
Qed.

(** ** The cost of balancing *)

Definition pos (x : Z) : Z := Z.max 0 x.

Section Cost.
Context (R : list string) (total : Z).
Hypothesis R_nodup : NoDup R.
Hypothesis R_some : R ≠ [].

Let r := Z.of_nat (length R).
Let base := total / r.
Let rem := total mod r.

Lemma r_pos : 0 < r.
Proof. clear R_nodup. unfold r. destruct R; [done|]. cbn. lia. Qed.

Lemma base_rem : total = base * r + rem ∧ 0 <= rem < r.
Proof. unfold base, rem. pose proof r_pos. rewrite (Z.mul_comm _ r). split; [by apply Z.div_mod; lia|]. by apply Z.mod_pos_bound. Qed.

(** How many receivers hold more than the lower share. *)
Definition high (L : string → Z) : Z := zsum (ones (λ n, base < L n)) R.

(** The surplus over the best balanced target, and what other nodes hold. *)
Definition cost (L : string → Z) : Z :=
  zsum (λ n, pos (L n - base)) R - Z.min rem (high L) + (total - zsum L R).

(** Every receiver at the lower or the upper share, no other load. *)
Definition balanced (L : string → Z) : Prop := (∀ n, n ∈ R → base <= L n <= base + 1) ∧ zsum L R = total.

Lemma excess_capacities load :
  zsum (λ n, pos (count_of load n - count_of (capacities R load total) n)) R
  = zsum (λ n, pos (count_of load n - base)) R - Z.min rem (high (count_of load)).
Proof.
  set (top := take (Z.to_nat rem) (ranked R load)).
  assert (∀ n, n ∈ R → pos (count_of load n - count_of (capacities R load total) n)
    = pos (count_of load n - base) + - ones (λ n, n ∈ top ∧ base < count_of load n) n) as Hn.
  { intros n Hn. rewrite capacities_spec by done. fold r base rem top. rewrite decide_True by done. unfold ones, pos.
    destruct (decide (n ∈ top ∧ base < count_of load n)) as [[Ht Hb]|Hno]; [rewrite decide_True by done; lia|].
    destruct (decide (n ∈ top)) as [Ht|]; [|lia]. destruct (decide (base < count_of load n)); [tauto|lia]. }
  rewrite (zsum_ext _ _ _ Hn), zsum_add. assert (∀ f : string → Z, zsum (λ n, - f n) R = - zsum f R) as Hneg.
  { intros f. clear. induction R as [|x l IH]; [done|]. rewrite !zsum_cons, IH. lia. }
  rewrite Hneg, zsum_ones. enough (Z.of_nat (length (filter (λ n, n ∈ top ∧ base < count_of load n) R)) = Z.min rem (high (count_of load))) by lia.
  unfold high. rewrite zsum_ones, <-(ranked_perm R load). pose proof base_rem as [_ Hrem].
  assert (filter (λ n, n ∈ top ∧ base < count_of load n) (ranked R load) ≡ₚ filter (λ n, base < count_of load n) top) as ->.
  { apply NoDup_Permutation.
    - apply NoDup_filter. by rewrite ranked_perm.
    - apply NoDup_filter. eapply sublist_NoDup; [|apply sublist_take]. by rewrite ranked_perm.
    - intros x. rewrite !list_elem_of_filter. split; [tauto|]. intros [Hb Ht]. split_and!; [done..|].
      by apply elem_of_take in Ht as (i & Hi & _); apply list_elem_of_lookup_2 in Hi. }
  unfold top. rewrite top_count by apply ranked_sorted. lia.
Qed.

(** No balanced target is cheaper. *)
Lemma cost_least (c L : string → Z) :
  (∀ n, n ∈ R → base <= c n <= base + 1) → zsum c R = total →
  cost L <= zsum (λ n, pos (L n - c n)) R + (total - zsum L R).
Proof.
  intros Hc Hsum. unfold cost.
  assert (zsum (ones (λ n, c n = base + 1)) R = rem) as Hones.
  { pose proof base_rem as [Ht _]. assert (zsum c R = zsum (λ n, base + ones (λ n, c n = base + 1) n) R) as He.
    { apply zsum_ext. intros n Hn. specialize (Hc n Hn). unfold ones. destruct (decide (c n = base + 1)); lia. }
    rewrite zsum_add, zsum_const in He. fold r in He. lia. }
  assert (zsum (λ n, pos (L n - base)) R <= zsum (λ n, pos (L n - c n)) R + zsum (ones (λ n, c n = base + 1 ∧ base < L n)) R) as Hle.
  { rewrite <-zsum_add. apply zsum_le. intros n Hn. specialize (Hc n Hn). unfold ones, pos.
    destruct (decide (c n = base + 1 ∧ base < L n)); lia. }
  assert (zsum (ones (λ n, c n = base + 1 ∧ base < L n)) R <= rem).
  { rewrite <-Hones. apply zsum_le. intros n _. unfold ones. destruct (decide (c n = base + 1 ∧ base < L n)), (decide (c n = base + 1)); lia. }
  assert (zsum (ones (λ n, c n = base + 1 ∧ base < L n)) R <= high L).
  { apply zsum_le. intros n _. unfold ones. destruct (decide (c n = base + 1 ∧ base < L n)), (decide (base < L n)); lia. }
  lia.
Qed.

(** One load less somewhere, and one more: the cost of each half. *)
Lemma cost_dec L L' s :
  (∀ n, n ≠ s → L' n = L n) → L' s = L s - 1 → cost L <= cost L'.
Proof.
  intros Hn Hs. unfold cost, high.
  rewrite (zsum_update L L' s R R_nodup Hn).
  rewrite (zsum_update (λ n, pos (L n - base)) (λ n, pos (L' n - base)) s R R_nodup) by (intros x Hx; by rewrite Hn).
  rewrite (zsum_update (ones (λ n, base < L n)) (ones (λ n, base < L' n)) s R R_nodup) by (intros x Hx; unfold ones; by rewrite Hn).
  unfold ones, pos. destruct (decide (s ∈ R)); [|lia]. destruct (decide (base < L' s)), (decide (base < L s)); lia.
Qed.

Lemma cost_inc L L' t :
  (∀ n, n ≠ t → L' n = L n) → L' t = L t + 1 → cost L - 1 <= cost L'.
Proof.
  intros Hn Hs. unfold cost, high.
  rewrite (zsum_update L L' t R R_nodup Hn).
  rewrite (zsum_update (λ n, pos (L n - base)) (λ n, pos (L' n - base)) t R R_nodup) by (intros x Hx; by rewrite Hn).
  rewrite (zsum_update (ones (λ n, base < L n)) (ones (λ n, base < L' n)) t R R_nodup) by (intros x Hx; unfold ones; by rewrite Hn).
  unfold ones, pos. destruct (decide (t ∈ R)); [|lia]. destruct (decide (base < L' t)), (decide (base < L t)); lia.
Qed.

Lemma cost_ext L L' : (∀ n, L n = L' n) → cost L = cost L'.
Proof.
  intros H. unfold cost, high. rewrite (zsum_ext L L' R) by auto.
  rewrite (zsum_ext (λ n, pos (L n - base)) (λ n, pos (L' n - base)) R) by (intros n _; by rewrite H).
  by rewrite (zsum_ext (ones (λ n, base < L n)) (ones (λ n, base < L' n)) R) by (intros n _; unfold ones; by rewrite H).
Qed.

Lemma balanced_cost L : balanced L → cost L = 0.
Proof.
  intros [Hb Ht]. unfold cost, high. rewrite Ht. pose proof base_rem as [Htot _].
  assert (∀ n, n ∈ R → pos (L n - base) = ones (λ n, base < L n) n) as H1.
  { intros n Hn. specialize (Hb n Hn). unfold ones, pos. destruct (decide (base < L n)); lia. }
  rewrite (zsum_ext _ _ _ H1). enough (zsum (ones (λ n, base < L n)) R = rem) by lia.
  rewrite <-(zsum_ext _ _ _ H1). assert (zsum L R = zsum (λ n, base + pos (L n - base)) R) as H2.
  { apply zsum_ext. intros n Hn. specialize (Hb n Hn). unfold pos. lia. }
  rewrite zsum_add, zsum_const in H2. fold r in H2. lia.
Qed.

End Cost.
