(* ===== verification/PlanClaims.v ===== *)
(** * The plans of the rebalance planner

    First what [PlanRebalance] returns: each node sheds the partitions above its
    capacity, each receiver is given at most its deficit, and the deficits
    always suffice.  Then what carrying a plan out achieves. *)

From S2P Require Import Prelude Plan.

#[local] Arguments zsum : simpl never.

Lemma zsum_subset {A} `{EqDecision A} (f : A → Z) l1 l2 :
  NoDup l1 → (∀ x, x ∈ l1 → 0 < f x → x ∈ l2) → (∀ x, x ∈ l2 → 0 <= f x) → zsum f l1 <= zsum f l2.
Proof.
  intros Hnd. revert l2. induction Hnd as [|x l1 Hx _ IH]; intros l2 H12 Hpos; [by apply zsum_nonneg|]. rewrite zsum_cons.
  destruct (decide (0 < f x)) as [Hf|Hf].
  - assert (∃ k, l2 ≡ₚ x :: k) as [k Hk].
    { destruct (list_elem_of_split l2 x (H12 x ltac:(by left) Hf)) as (a & b & ->). exists (a ++ b). symmetry. apply Permutation_middle. }
    rewrite Hk, zsum_cons.
    enough (zsum f l1 <= zsum f k) by lia. apply IH.
    + intros y Hy Hfy. specialize (H12 y ltac:(by right) Hfy). rewrite Hk in H12. apply elem_of_cons in H12 as [->|?]; [done|done].
    + intros y Hy. apply Hpos. rewrite Hk. by right.
  - enough (zsum f l1 <= zsum f l2) by lia. apply IH; [|done]. intros y Hy. apply H12. by right.
Qed.

(** Nonnegative summands bounded one by one, with equal sums, are equal. *)
Lemma zsum_tight {A} (f g : A → Z) l x : (∀ y, y ∈ l → f y <= g y) → zsum f l = zsum g l → x ∈ l → f x = g x.
Proof.
  induction l as [|y l IH]; intros Hle Hs Hx; [by apply elem_of_nil in Hx|]. rewrite !zsum_cons in Hs.
  pose proof (Hle y ltac:(by left)). assert (zsum f l <= zsum g l) by (apply zsum_le; intros z Hz; apply Hle; by right).
  apply elem_of_cons in Hx as [->|Hx]; [lia|]. apply IH; [intros z Hz; apply Hle; by right|lia|done].
Qed.

(** ** Picking a receiver *)

Section Pick.
Context (R : list string) (deficit : gmap string Z) (item : shedItem) (avoid : option (RebalanceMove → bool)).
Hypothesis R_named : "" ∉ R.

Definition candidate (r : string) : Prop := 0 < count_of deficit r ∧ r ≠ sh_from item.

Lemma pick_step_spec acc r :
  r ≠ "" → pick_step deficit item avoid acc r = acc ∧ (¬ candidate r ∨ acc.1.1 ≠ "")
  ∨ (pick_step deficit item avoid acc r).1.1 = r ∧ candidate r.
Proof.
  intros Hr. destruct acc as [[best bestDef] bestAvoided]. unfold pick_step, candidate.
  destruct (Z.leb_spec (count_of deficit r) 0); cbn [orb]; [left; split; [done|left; lia]|].
  case_bool_decide as Hf; [left; split; [done|left; tauto]|].
  destruct (decide (best = "")) as [->|Hb]; [by right|]. cbn [fst].
  destruct (if negb _ then _ else _); [by right|]. left. split; [done|]. by right.
Qed.

Lemma pick_fold l acc :
  (∀ r, r ∈ l → r ≠ "") →
  let best := (foldl (pick_step deficit item avoid) acc l).1.1 in
  (best = acc.1.1 ∨ best ∈ l ∧ candidate best) ∧ (best = "" → acc.1.1 = "" ∧ ∀ r, r ∈ l → ¬ candidate r).
Proof.
  revert acc. induction l as [|r l IH]; intros acc Hne; cbn [foldl].
  { split; [by left|]. intros H. split; [done|]. intros r Hr. by apply elem_of_nil in Hr. }
  assert (r ≠ "") as Hr by (apply Hne; by left). destruct (IH (pick_step deficit item avoid acc r)) as [I1 I2].
  { intros x Hx. apply Hne. by right. }
  destruct (pick_step_spec acc r Hr) as [[He Hno]|[He Hc]]; rewrite He in *.
  - split; [destruct I1 as [?|[? ?]]; [by left|right; split; [by right|done]]|]. intros Hb. destruct (I2 Hb) as [Ha Hl].
    split; [done|]. intros x [->|Hx]%elem_of_cons; [by destruct Hno|by apply Hl].
  - split; [right; destruct I1 as [->|[? ?]]; (split; [|done]); [by left|by right]|]. intros Hb. by destruct (I2 Hb).
Qed.

Lemma pickReceiver_spec :
  let to := pickReceiver R deficit item avoid in
  (to = "" ∧ (∀ r, r ∈ R → ¬ candidate r)) ∨ (to ≠ "" ∧ to ∈ R ∧ candidate to).
Proof.
  intros to. destruct (pick_fold R ("", 0, true)) as [H1 H2]; [intros r Hr ->; done|]. fold (pickReceiver R deficit item avoid) in *. fold to in H1, H2.
  destruct (decide (to = "")) as [E|E]; [left; split; [done|]; by apply H2|]. right. split; [done|]. destruct H1; [done|done].
Qed.

End Pick.

(** ** Placing the pool *)

Definition to_count (n : string) (ms : list RebalanceMove) : Z := zsum (ones (λ m, mv_To m = n)) ms.
Definition from_count (n : string) (ms : list RebalanceMove) : Z := zsum (ones (λ m, mv_From m = n)) ms.

Lemma take_slot_count deficit to n :
  count_of (take_slot deficit to) n = count_of deficit n - (if decide (to = n) then 1 else 0).
Proof.
  unfold take_slot, count_of at 1. destruct (decide (to = n)) as [->|Hne].
  - destruct (decide (count_of deficit n - 1 = 0)); [rewrite lookup_delete_eq; cbn; lia|]. rewrite lookup_insert_eq. done.
  - case_decide; [rewrite lookup_delete_ne by done|rewrite lookup_insert_ne by done]; unfold count_of; lia.
Qed.

Definition shed_of (m : RebalanceMove) : shedItem := Shed (mv_From m) (mv_Partition m).

Lemma place_spec R deficit pool avoid :
  NoDup R → "" ∉ R → (∀ n, 0 <= count_of deficit n) → (∀ i, i ∈ pool → count_of deficit (sh_from i) = 0) →
  Z.of_nat (length pool) <= zsum (count_of deficit) R →
  let ms := place R deficit pool avoid in
  shed_of <$> ms = pool ∧ (∀ n, to_count n ms <= count_of deficit n) ∧ (∀ m, m ∈ ms → mv_To m ∈ R ∧ mv_To m ≠ mv_From m).
Proof.
  intros Hnd Hne. revert deficit. induction pool as [|i pool IH]; intros deficit Hpos Hfrom Hlen; cbn [place].
  { split_and!; [done| |intros m Hm; by apply elem_of_nil in Hm]. intros n. by apply Hpos. }
  destruct (pickReceiver_spec R deficit i avoid Hne) as [[_ Hno]|(Hto & HinR & Hd & Hf)].
  { exfalso. assert (zsum (count_of deficit) R <= 0); [|cbn [length] in Hlen; lia].
    rewrite <-(Z.mul_0_l (Z.of_nat (length R))), <-zsum_const. apply zsum_le. intros r Hr. specialize (Hno r Hr). unfold candidate in Hno.
    destruct (decide (r = sh_from i)) as [->|]; [rewrite Hfrom by (by left); lia|]. destruct (decide (0 < count_of deficit r)); [tauto|lia]. }
  rewrite decide_False by done. set (to := pickReceiver R deficit i avoid) in *.
  destruct (IH (take_slot deficit to)) as (H1 & H2 & H3).
  - intros n. rewrite take_slot_count. specialize (Hpos n). destruct (decide (to = n)) as [<-|]; lia.
  - intros j Hj. rewrite take_slot_count. pose proof (Hfrom j ltac:(by right)) as Hz. rewrite decide_False; [lia|]. intros E. rewrite E in Hd. lia.
  - rewrite (zsum_update (count_of deficit) (count_of (take_slot deficit to)) to R Hnd).
    + rewrite decide_True by done. rewrite take_slot_count, decide_True by done. cbn [length] in Hlen. lia.
    + intros x Hx. rewrite take_slot_count, decide_False by done. lia.
  - split_and!.
    + rewrite fmap_cons, H1. by destruct i.
    + intros n. specialize (H2 n). rewrite take_slot_count in H2. unfold to_count in *. rewrite zsum_cons. unfold ones at 1. cbn [mv_To].
      destruct (decide (to = n)); lia.
    + intros m [->|Hm]%elem_of_cons; [done|by apply H3].
Qed.

(** ** The pool and the deficits *)

Lemma deficits_lookup R load caps n (D : gmap string Z) :
  NoDup R →
  foldl (λ deficit r, let d := count_of caps r - count_of load r in if 0 <? d then <[r := d]> deficit else deficit) D R !! n
  = if decide (n ∈ R ∧ 0 < count_of caps n - count_of load n) then Some (count_of caps n - count_of load n) else D !! n.
Proof.
  intros Hnd. revert D. induction Hnd as [|x R Hx _ IH]; intros D; cbn [foldl].
  { rewrite decide_False; [done|]. intros [Hn _]. by apply elem_of_nil in Hn. }
  rewrite IH. cbn zeta. destruct (decide (n = x)) as [->|Hne].
  - rewrite decide_False by tauto. destruct (Z.ltb_spec 0 (count_of caps x - count_of load x)) as [Hlt|Hge].
    + rewrite lookup_insert_eq, decide_True; [done|]. split; [by left|done].
    + rewrite decide_False; [done|]. intros [_ ?]. lia.
  - destruct (decide (n ∈ R ∧ 0 < count_of caps n - count_of load n)) as [[H1 H2]|Hno].
    + rewrite decide_True; [done|]. split; [by right|done].
    + rewrite decide_False; [|intros [[?|?]%elem_of_cons ?]; tauto]. destruct (0 <? _); [by rewrite lookup_insert_ne|done].
Qed.

Lemma deficits_count R load caps n :
  NoDup R → count_of (deficits R load caps) n = if decide (n ∈ R) then pos (count_of caps n - count_of load n) else 0.
Proof.
  intros Hnd. unfold count_of at 1, deficits. rewrite deficits_lookup by done. unfold pos.
  destruct (decide (n ∈ R)) as [Hn|Hn]; [|rewrite decide_False by tauto; by rewrite lookup_empty].
  destruct (decide (0 < count_of caps n - count_of load n)) as [Hd|Hd].
  - rewrite decide_True by done. cbn. lia.
  - rewrite decide_False by tauto. rewrite lookup_empty. cbn. lia.
Qed.

Lemma shed_length movable caps n : 0 <= count_of caps n → Z.of_nat (length (shed movable caps n)) = pos (surplus movable caps n).
Proof.
  intros Hc. unfold shed, pos. rewrite length_fmap, length_take, merge_sort_Permutation. unfold surplus. lia.
Qed.

Lemma elem_of_sortedKeys {A} (m : gmap string A) n : n ∈ sortedKeys m ↔ is_Some (m !! n).
Proof.
  unfold sortedKeys. rewrite sort_strings_perm. rewrite list_elem_of_fmap. split.
  - intros ([k x] & -> & Hin). apply elem_of_map_to_list in Hin. by eexists.
  - intros [x Hx]. exists (n, x). by rewrite elem_of_map_to_list.
Qed.

Lemma nodup_sortedKeys {A} (m : gmap string A) : NoDup (sortedKeys m).
Proof. unfold sortedKeys. rewrite sort_strings_perm. apply NoDup_fst_map_to_list. Qed.

Lemma pool_length movable caps :
  (∀ n, 0 <= count_of caps n) →
  Z.of_nat (length (shed_pool movable caps)) = zsum (λ n, pos (surplus movable caps n)) (sortedKeys movable).
Proof.
  intros Hc. unfold shed_pool. induction (sortedKeys movable) as [|n l IH]; [done|].
  rewrite fmap_cons. cbn [concat]. rewrite length_app, zsum_cons, Nat2Z.inj_add, IH, shed_length by done. lia.
Qed.

Lemma elem_of_pool movable caps i :
  i ∈ shed_pool movable caps ↔ i ∈ shed movable caps (sh_from i) ∧ is_Some (movable !! sh_from i).
Proof.
  unfold shed_pool. rewrite list_elem_of_In, in_concat. split.
  - intros (l & Hl%list_elem_of_In & Hi%list_elem_of_In). apply list_elem_of_fmap in Hl as (n & -> & Hn%elem_of_sortedKeys).
    assert (sh_from i = n) as ->; [|done]. unfold shed in Hi. by apply list_elem_of_fmap in Hi as (p & -> & _).
  - intros [Hi Hn]. eexists. rewrite <-!list_elem_of_In. split; [|exact Hi]. apply list_elem_of_fmap_2. by apply elem_of_sortedKeys.
Qed.

Lemma shed_surplus movable caps n i : i ∈ shed movable caps n → 0 < surplus movable caps n.
Proof.
  unfold shed. intros (p & _ & Hp)%list_elem_of_fmap. destruct (decide (0 < surplus movable caps n)); [done|].
  replace (Z.to_nat (surplus movable caps n)) with 0%nat in Hp by lia. rewrite take_0 in Hp. by apply elem_of_nil in Hp.
Qed.

(** ** Capacities add up to the load *)

Lemma capacities_nonneg R load total n : NoDup R → 0 <= total → 0 <= count_of (capacities R load total) n.
Proof.
  intros Hnd Ht. rewrite capacities_spec by done. destruct (decide (n ∈ R)); [|lia].
  pose proof (Z.div_pos total (Z.of_nat (length R)) Ht). destruct R; [by apply elem_of_nil in e|]. cbn [length] in *. destruct (decide _); lia.
Qed.

Lemma capacities_share R load total n :
  NoDup R → n ∈ R → let base := total / Z.of_nat (length R) in base <= count_of (capacities R load total) n <= base + 1.
Proof. intros Hnd Hn base. rewrite capacities_spec, decide_True by done. fold base. destruct (decide _); lia. Qed.

Lemma capacities_sum R load total : NoDup R → R ≠ [] → zsum (count_of (capacities R load total)) R = total.
Proof.
  intros Hnd Hne. set (rem := total mod Z.of_nat (length R)). set (base := total / Z.of_nat (length R)).
  rewrite (zsum_ext _ (λ n, base + ones (λ n, n ∈ take (Z.to_nat rem) (ranked R load)) n)).
  2:{ intros n Hn. rewrite capacities_spec, decide_True by done. done. }
  rewrite zsum_add, zsum_const, zsum_ones. pose proof (base_rem R total Hne) as [Ht Hr].
  assert (filter (λ n, n ∈ take (Z.to_nat rem) (ranked R load)) R ≡ₚ take (Z.to_nat rem) (ranked R load)) as ->.
  { apply NoDup_Permutation; [by apply NoDup_filter|eapply sublist_NoDup; [|apply sublist_take]; by rewrite ranked_perm|].
    intros x. rewrite list_elem_of_filter. split; [tauto|]. intros Hx. split; [done|]. rewrite <-(ranked_perm R load).
    by apply elem_of_take in Hx as (i & Hi & _); apply list_elem_of_lookup_2 in Hi. }
  rewrite length_take, ranked_perm. fold rem base in Ht, Hr. lia.
Qed.

(** ** The plan *)

(** Receivers are distinct member IDs, and a node's load counts at least
    the partitions that may move off it. *)
Record input_ok (input : PlanInput) : Prop := {
  in_nodup : NoDup (Receivers input);
  in_named : "" ∉ Receivers input;
  in_some : Receivers input ≠ [];
  in_load : ∀ n, Z.of_nat (length (parts_of (Movable input) n)) <= count_of (Load input) n;
}.

Definition plan_receivers (input : PlanInput) : list string := sort_strings (Receivers input).
Definition plan_total (input : PlanInput) : Z := total_load (plan_receivers input) (Load input).
Definition plan_caps (input : PlanInput) : gmap string Z := capacities (plan_receivers input) (Load input) (plan_total input).

Section Plan.
Context (input : PlanInput).
Hypothesis Hin : input_ok input.

Let R := plan_receivers input.
Let L := count_of (Load input).
Let T := plan_total input.
Let caps := plan_caps input.

Lemma plan_R_nodup : NoDup R.
Proof. unfold R, plan_receivers. rewrite sort_strings_perm. apply Hin. Qed.

Lemma plan_R_named : "" ∉ R.
Proof. unfold R, plan_receivers. rewrite sort_strings_perm. apply Hin. Qed.

Lemma plan_R_some : R ≠ [].
Proof.
  unfold R, plan_receivers. intros E. apply (in_some _ Hin). apply Permutation_nil_r. by rewrite <-(sort_strings_perm (Receivers input)), E.
Qed.

Lemma plan_L_nonneg n : 0 <= L n.
Proof. pose proof (in_load _ Hin n). unfold L. lia. Qed.

(** What nodes outside the receivers hold. *)
Definition others : list (string * Z) := filter (λ nc, contains R nc.1 = false) (map_to_list (Load input)).

Lemma plan_contains n : contains R n = bool_decide (n ∈ R).
Proof. apply contains_spec. unfold R, plan_receivers, sort_strings. apply StronglySorted_merge_sort; apply _. Qed.

Lemma others_sum : zsum snd others = T - zsum L R.
Proof. unfold T, plan_total, total_load. fold R others. fold L. lia. Qed.

Lemma others_counts (f : string → Z) : (∀ n, f n = L n) → zsum snd others = zsum f (others.*1).
Proof.
  intros Hf. unfold others. assert (∀ nc, nc ∈ map_to_list (Load input) → nc.2 = L nc.1) as Hl.
  { intros [n c] Hnc%elem_of_map_to_list. cbn [fst snd]. unfold L, count_of. by rewrite Hnc. }
  induction (map_to_list (Load input)) as [|[n c] l IH]; [done|]. rewrite filter_cons.
  assert (zsum snd (filter (λ nc, contains R nc.1 = false) l) = zsum f (filter (λ nc, contains R nc.1 = false) l).*1) as IH'.
  { apply IH. intros x Hx. apply Hl. by right. }
  case_decide; [|done]. rewrite fmap_cons, !zsum_cons, IH', Hf. cbn [fst snd]. f_equal. apply (Hl (n, c)). by left.
Qed.

Lemma elem_of_others n : n ∈ others.*1 ↔ is_Some (Load input !! n) ∧ n ∉ R.
Proof.
  unfold others. rewrite list_elem_of_fmap. split.
  - intros ([m c] & -> & [Hc Hm%elem_of_map_to_list]%list_elem_of_filter). cbn in *. rewrite plan_contains in Hc.
    split; [by eexists|]. by apply bool_decide_eq_false in Hc.
  - intros [[c Hc] Hn]. exists (n, c). split; [done|]. rewrite list_elem_of_filter, elem_of_map_to_list, plan_contains. cbn. by rewrite bool_decide_false.
Qed.

Lemma others_nodup : NoDup others.*1.
Proof.
  unfold others. eapply sublist_NoDup; [apply (NoDup_fst_map_to_list (Load input))|]. apply fmap_sublist, sublist_filter.
Qed.

Lemma plan_T_nonneg : 0 <= T.
Proof.
  pose proof others_sum. rewrite (others_counts L) in H by done. assert (0 <= zsum L others.*1) by (apply zsum_nonneg; intros; apply plan_L_nonneg).
  assert (0 <= zsum L R) by (apply zsum_nonneg; intros; apply plan_L_nonneg). lia.
Qed.

Lemma plan_caps_outside n : n ∉ R → count_of caps n = 0.
Proof. intros Hn. unfold caps, plan_caps. rewrite capacities_spec by apply plan_R_nodup. by rewrite decide_False. Qed.

Lemma plan_caps_nonneg n : 0 <= count_of caps n.
Proof. apply capacities_nonneg; [apply plan_R_nodup|apply plan_T_nonneg]. Qed.

(** Over and under capacity balance out. *)
Lemma over_under : zsum (λ n, pos (L n - count_of caps n)) R + (T - zsum L R) = zsum (λ n, pos (count_of caps n - L n)) R.
Proof.
  assert (zsum (count_of caps) R = T) as Hs by exact (capacities_sum R (Load input) T plan_R_nodup plan_R_some).
  enough (zsum (λ n, pos (L n - count_of caps n)) R + zsum (count_of caps) R = zsum (λ n, pos (count_of caps n - L n)) R + zsum L R) by lia.
  rewrite <-!zsum_add. apply zsum_ext. intros n _. unfold pos. lia.
Qed.

(** The load above capacity, over all the nodes that hold any. *)
Lemma over_sum (f : string → Z) keys :
  NoDup keys → (∀ n, n ∈ keys → f n <= pos (L n - count_of caps n)) → zsum f keys <= zsum (λ n, pos (L n - count_of caps n)) R + (T - zsum L R).
Proof.
  intros Hnd Hf. rewrite <-others_sum, (others_counts (λ n, L n)) by done.
  rewrite (zsum_ext L (λ n, pos (L n - count_of caps n)) others.*1), <-zsum_app.
  2:{ intros n [_ Hn]%elem_of_others. rewrite plan_caps_outside by done. unfold pos. pose proof (plan_L_nonneg n). lia. }
  etrans; [by apply (zsum_le f (λ n, pos (L n - count_of caps n)))|]. apply zsum_subset; [done| |intros n _; unfold pos; lia].
  intros n _ Hp. rewrite elem_of_app. destruct (decide (n ∈ R)) as [|Hn]; [by left|]. right. apply elem_of_others. split; [|done].
  destruct (Load input !! n) eqn:E; [done|]. exfalso. revert Hp. unfold pos. pose proof (plan_caps_nonneg n).
  replace (L n) with 0 by (unfold L, count_of; by rewrite E). lia.
Qed.

Lemma plan_pool_length :
  Z.of_nat (length (shed_pool (Movable input) caps)) <= zsum (λ n, pos (L n - count_of caps n)) R + (T - zsum L R).
Proof.
  rewrite pool_length by apply plan_caps_nonneg. apply over_sum; [apply nodup_sortedKeys|].
  intros n _. pose proof (in_load _ Hin n). unfold pos, surplus. fold (L n) in H. lia.
Qed.

(** The moves shed exactly the pool, give no receiver more than it lacks,
    and never move a partition to where it is. *)
Lemma plan_spec avoid :
  let ms := place R (deficits R (Load input) caps) (shed_pool (Movable input) caps) avoid in
  shed_of <$> ms = shed_pool (Movable input) caps
  ∧ (∀ n, to_count n ms <= if decide (n ∈ R) then pos (count_of caps n - L n) else 0)
  ∧ (∀ m, m ∈ ms → mv_To m ∈ R ∧ mv_To m ≠ mv_From m).
Proof.
  intros ms. destruct (place_spec R (deficits R (Load input) caps) (shed_pool (Movable input) caps) avoid) as (H1 & H2 & H3);
    [apply plan_R_nodup|apply plan_R_named| | | |].
  - intros n. rewrite deficits_count by apply plan_R_nodup. unfold pos. destruct (decide (n ∈ R)); lia.
  - intros i [Hi%shed_surplus _]%elem_of_pool. rewrite deficits_count by apply plan_R_nodup.
    destruct (decide (sh_from i ∈ R)); [|done]. pose proof (in_load _ Hin (sh_from i)). unfold surplus in Hi. unfold pos. lia.
  - etrans; [apply plan_pool_length|]. rewrite over_under. apply Z.eq_le_incl, zsum_ext. intros n Hn.
    rewrite deficits_count by apply plan_R_nodup. by rewrite decide_True.
  - split_and!; [done| |done]. intros n. etrans; [apply H2|]. by rewrite deficits_count by apply plan_R_nodup.
Qed.

Lemma plan_eq : PlanRebalance input = place R (deficits R (Load input) caps) (shed_pool (Movable input) caps) (Avoid input).
Proof.
  pose proof plan_R_some as Hne. unfold R, caps, plan_caps, plan_total, plan_receivers in *. unfold PlanRebalance.
  by destruct (sort_strings (Receivers input)).
Qed.

End Plan.

(** ** What the rebalance planner achieves

    On a settled cluster the plan is the shortest way to balance: carrying
    out any part of it shortens the next plan by exactly that much, all of
    it balances the cluster, and no other sequence of moves gets there in
    fewer. *)

(** ** Settled clusters *)

(** How many partitions a node holds. *)
Definition held (M : gmap string (list PartitionRef)) (n : string) : Z := Z.of_nat (length (parts_of M n)).

(** The planner's input when no move is in flight, as [buildPlanInput]
    makes it: the receivers count from zero, the others as they appear. *)
Definition settled_input (rs : list string) (M : gmap string (list PartitionRef)) (avoid : option (RebalanceMove → bool)) : PlanInput :=
  MkInput (((λ ps, Z.of_nat (length ps)) <$> M) ∪ list_to_map ((λ r, (r, 0)) <$> rs)) M rs avoid.

Definition tot (M : gmap string (list PartitionRef)) : Z := zsum (held M) (sortedKeys M).

(** Every receiver at the lower or the upper share, nothing elsewhere. *)
Definition balanced_on (rs : list string) (M : gmap string (list PartitionRef)) : Prop :=
  let base := tot M / Z.of_nat (length rs) in
  (∀ n, n ∈ rs → base <= held M n <= base + 1) ∧ (∀ n, n ∉ rs → held M n = 0).

(** A move carried out. *)
Fixpoint remove_first (p : PartitionRef) (l : list PartitionRef) : list PartitionRef :=
  match l with [] => [] | q :: l => if decide (q = p) then l else q :: remove_first p l end.

Definition relocate (M : gmap string (list PartitionRef)) (m : RebalanceMove) : gmap string (list PartitionRef) :=
  let p := mv_Partition m in
  if decide (p ∈ parts_of M (mv_From m)) then
    let M := <[mv_From m := remove_first p (parts_of M (mv_From m))]> M in
    <[mv_To m := parts_of M (mv_To m) ++ [p]]> M
  else M.

Lemma parts_insert M n k ps : parts_of (<[k := ps]> M) n = if decide (k = n) then ps else parts_of M n.
Proof. unfold parts_of. destruct (decide (k = n)) as [->|]; [by rewrite lookup_insert_eq|by rewrite lookup_insert_ne]. Qed.

Lemma remove_first_perm p l : p ∈ l → l ≡ₚ p :: remove_first p l.
Proof.
  induction l as [|q l IH]; intros Hp; [by apply elem_of_nil in Hp|]. cbn. case_decide as E; [by subst|].
  apply elem_of_cons in Hp as [?|Hp]; [congruence|]. rewrite (IH Hp) at 1. apply Permutation_swap.
Qed.

Lemma relocate_parts M m n :
  mv_Partition m ∈ parts_of M (mv_From m) → mv_From m ≠ mv_To m →
  parts_of (relocate M m) n =
    if decide (mv_To m = n) then parts_of M n ++ [mv_Partition m]
    else if decide (mv_From m = n) then remove_first (mv_Partition m) (parts_of M n) else parts_of M n.
Proof.
  intros Hp Hne. unfold relocate. rewrite decide_True by done. rewrite !parts_insert.
  destruct (decide (mv_To m = n)) as [<-|]; [by rewrite decide_False|]. destruct (decide (mv_From m = n)) as [<-|]; done.
Qed.

Lemma remove_first_length p l : p ∈ l → Z.of_nat (length (remove_first p l)) = Z.of_nat (length l) - 1.
Proof. intros Hp. rewrite (remove_first_perm p l Hp) at 2. cbn [length]. lia. Qed.

Lemma relocate_held M m n :
  mv_Partition m ∈ parts_of M (mv_From m) → mv_From m ≠ mv_To m →
  held (relocate M m) n = held M n - ones (λ m, mv_From m = n) m + ones (λ m, mv_To m = n) m.
Proof.
  intros Hp Hne. unfold held, ones. rewrite relocate_parts by done.
  destruct (decide (mv_To m = n)) as [<-|]; [rewrite decide_False by done; rewrite length_app; cbn [length]; lia|].
  destruct (decide (mv_From m = n)) as [<-|]; [rewrite remove_first_length by done|]; lia.
Qed.

Lemma held_nonneg M n : 0 <= held M n.
Proof. unfold held. lia. Qed.

Lemma held_key M n : 0 < held M n → n ∈ sortedKeys M.
Proof. unfold held, parts_of. intros H. apply elem_of_sortedKeys. destruct (M !! n); [done|]. cbn in H. lia. Qed.

(** The total over any list of nodes that has all those that hold some. *)
Lemma tot_over M K : NoDup K → (∀ n, 0 < held M n → n ∈ K) → zsum (held M) K = tot M.
Proof.
  intros Hnd HK. apply Z.le_antisymm; apply zsum_subset; try done; try (intros; apply held_nonneg).
  - intros n _. apply held_key.
  - apply nodup_sortedKeys.
  - intros n _. apply HK.
Qed.

Lemma relocate_tot M m : tot (relocate M m) = tot M.
Proof.
  destruct (decide (mv_Partition m ∈ parts_of M (mv_From m))) as [Hp|Hp]; [|unfold relocate; by rewrite decide_False].
  set (K := remove_dups (mv_To m :: mv_From m :: sortedKeys M ++ sortedKeys (relocate M m))).
  assert (NoDup K) as HK by apply NoDup_remove_dups.
  assert (∀ n, n = mv_To m ∨ n = mv_From m ∨ n ∈ sortedKeys M ∨ n ∈ sortedKeys (relocate M m) → n ∈ K) as Hin.
  { intros n Hn. unfold K. rewrite elem_of_remove_dups. set_solver. }
  rewrite <-(tot_over M K), <-(tot_over (relocate M m) K); try done; try (intros n Hn%held_key; apply Hin; tauto).
  destruct (decide (mv_From m = mv_To m)) as [E|Hne].
  - apply zsum_ext. intros n _. unfold held, relocate. rewrite decide_True by done. rewrite !parts_insert, E.
    destruct (decide (mv_To m = n)) as [<-|]; [|done]. rewrite decide_True by done. rewrite length_app, Nat2Z.inj_add, remove_first_length by congruence. cbn [length]. lia.
  - rewrite (zsum_ext (held (relocate M m)) (λ n, held M n + (ones (λ m, mv_To m = n) m + - ones (λ m, mv_From m = n) m))) by (intros n _; rewrite relocate_held by done; lia).
    rewrite !zsum_add. enough (∀ x, x ∈ K → zsum (λ n, if decide (x = n) then 1 else 0) K = 1) as H1.
    { assert (∀ f : string → Z, zsum (λ n, - f n) K = - zsum f K) as Hneg.
      { intros f. clear. induction K as [|x k IH]; [done|]. rewrite !zsum_cons, IH. lia. }
      rewrite Hneg. unfold ones. rewrite !H1 by (apply Hin; tauto). lia. }
    intros x Hx. rewrite (zsum_update (λ _, 0) (λ n, if decide (x = n) then 1 else 0) x K HK) by (intros y Hy; by rewrite decide_False).
    rewrite zsum_const, !decide_True by done. lia.
Qed.

(** ** Carrying out moves *)

Definition from_parts (n : string) (ms : list RebalanceMove) : list PartitionRef := mv_Partition <$> filter (λ m, mv_From m = n) ms.

(** Every move finds its partition where it says. *)
Definition available (M : gmap string (list PartitionRef)) (ms : list RebalanceMove) : Prop :=
  (∀ n, ∃ rest, parts_of M n ≡ₚ from_parts n ms ++ rest) ∧ (∀ m, m ∈ ms → mv_From m ≠ mv_To m).

Lemma available_head M m ms : available M (m :: ms) → mv_Partition m ∈ parts_of M (mv_From m) ∧ mv_From m ≠ mv_To m ∧ available (relocate M m) ms.
Proof.
  intros [Ha Hne]. assert (mv_From m ≠ mv_To m) as Hm by (apply Hne; by left).
  assert (mv_Partition m ∈ parts_of M (mv_From m)) as Hp.
  { destruct (Ha (mv_From m)) as [rest Hr]. rewrite Hr. unfold from_parts. rewrite filter_cons, decide_True by done. rewrite fmap_cons. by left. }
  split_and!; [done..|]. split; [|intros x Hx; apply Hne; by right]. intros n. rewrite relocate_parts by done.
  destruct (Ha n) as [rest Hr]. unfold from_parts in Hr. rewrite filter_cons in Hr. fold (from_parts n ms) in Hr.
  destruct (decide (mv_To m = n)) as [<-|Hn].
  - rewrite decide_False in Hr by done. exists (rest ++ [mv_Partition m]). fold (from_parts (mv_To m) ms) in Hr. rewrite Hr. by rewrite app_assoc.
  - destruct (decide (mv_From m = n)) as [<-|]; [|by exists rest]. exists rest.
    apply (Permutation_cons_inv (a := mv_Partition m)). rewrite <-remove_first_perm by done. by rewrite Hr, fmap_cons.
Qed.

Lemma carried M ms k n :
  available M ms → held (foldl relocate M (take k ms)) n = held M n - from_count n (take k ms) + to_count n (take k ms).
Proof.
  revert M k. induction ms as [|m ms IH]; intros M [|k] Ha; cbn [take foldl]; try (unfold from_count, to_count; rewrite !zsum_nil; lia).
  destruct (available_head M m ms Ha) as (Hp & Hne & Ha'). rewrite (IH _ _ Ha'), relocate_held by done.
  unfold from_count, to_count. rewrite !zsum_cons. lia.
Qed.

Lemma carried_tot ms M : tot (foldl relocate M ms) = tot M.
Proof. revert M. induction ms as [|m ms IH]; intros M; cbn [foldl]; [done|]. by rewrite IH, relocate_tot. Qed.

Lemma pool_of movable caps n : filter (λ i, sh_from i = n) (shed_pool movable caps) = shed movable caps n.
Proof.
  unfold shed_pool. pose proof (nodup_sortedKeys movable) as Hnd. pose proof (elem_of_sortedKeys movable n) as Hk.
  assert (∀ l, NoDup l → filter (λ i, sh_from i = n) (concat (shed movable caps <$> l)) = if decide (n ∈ l) then shed movable caps n else []) as H.
  { clear. intros l Hnd. induction Hnd as [|x l Hx _ IH]; [done|]. rewrite fmap_cons. cbn [concat]. rewrite filter_app, IH.
    assert (filter (λ i, sh_from i = n) (shed movable caps x) = if decide (n = x) then shed movable caps x else []) as ->.
    { unfold shed. induction (take _ _) as [|p ps IHp]; [by destruct (decide (n = x))|]. rewrite !fmap_cons, filter_cons. cbn [sh_from].
      destruct (decide (n = x)) as [->|Hne]; [rewrite decide_True by done; by rewrite IHp|]. by rewrite decide_False by congruence. }
    destruct (decide (n = x)) as [->|Hne].
    - rewrite decide_False by done. rewrite decide_True by (by left). by rewrite app_nil_r.
    - cbn [app]. destruct (decide (n ∈ l)); [by rewrite decide_True by (by right)|]. rewrite decide_False; [done|]. by intros [?|?]%elem_of_cons. }
  rewrite (H _ Hnd). destruct (decide (n ∈ sortedKeys movable)) as [|Hn]; [done|]. rewrite Hk in Hn.
  unfold shed, parts_of. destruct (movable !! n); [by destruct Hn|]. cbn [default from_option].
  change (merge_sort ref_le []) with (@nil PartitionRef). by rewrite take_nil.
Qed.

Lemma from_parts_shed ms pool n : shed_of <$> ms = pool → from_parts n ms = sh_part <$> filter (λ i, sh_from i = n) pool.
Proof.
  intros <-. unfold from_parts. induction ms as [|m ms IH]; [done|]. rewrite fmap_cons, !filter_cons. cbn [sh_from shed_of].
  destruct (decide (mv_From m = n)); rewrite ?fmap_cons, IH; done.
Qed.

Lemma from_count_parts n ms : from_count n ms = Z.of_nat (length (from_parts n ms)).
Proof. unfold from_count, from_parts. by rewrite zsum_ones, length_fmap. Qed.

Lemma count_prefix (P : RebalanceMove → Prop) `{!∀ m, Decision (P m)} ms k : 0 <= zsum (ones P) (take k ms) <= zsum (ones P) ms.
Proof.
  rewrite <-(take_drop k ms) at 3. rewrite zsum_app. assert (∀ l, 0 <= zsum (ones P) l) as Hp; [|pose proof (Hp (drop k ms)); pose proof (Hp (take k ms)); lia].
  intros l. apply zsum_nonneg. intros x _. unfold ones. destruct (decide (P x)); lia.
Qed.

(** Everything goes to receivers. *)
Lemma to_counts R ms : NoDup R → (∀ m, m ∈ ms → mv_To m ∈ R) → zsum (λ n, to_count n ms) R = Z.of_nat (length ms).
Proof.
  intros Hnd. induction ms as [|m ms IH]; intros Hto; unfold to_count in *.
  - rewrite (zsum_ext _ (λ _, 0)) by done. by rewrite zsum_const.
  - rewrite (zsum_ext _ (λ n, ones (λ m, mv_To m = n) m + zsum (ones (λ m, mv_To m = n)) ms)) by (intros; by rewrite zsum_cons).
    rewrite zsum_add, IH by (intros x Hx; apply Hto; by right).
    rewrite (zsum_update (λ _, 0) (λ n, ones (λ m, mv_To m = n) m) (mv_To m) R Hnd) by (intros x Hx; unfold ones; by rewrite decide_False).
    rewrite zsum_const, decide_True by (apply Hto; by left). unfold ones. rewrite decide_True by done. cbn [length]. lia.
Qed.

Section Settled.
Context (rs : list string).
Hypothesis rs_nodup : NoDup rs.
Hypothesis rs_named : "" ∉ rs.
Hypothesis rs_some : rs ≠ [].

Let R := sort_strings rs.

Lemma settled_count M avoid n : count_of (Load (settled_input rs M avoid)) n = held M n.
Proof.
  unfold count_of, held, parts_of, settled_input. cbn [Load]. rewrite lookup_union, lookup_fmap.
  destruct (M !! n); cbn; [by destruct (list_to_map _ !! n)|].
  destruct (list_to_map ((λ r, (r, 0)) <$> rs) !! n) eqn:E; [|done]. cbn.
  apply elem_of_list_to_map_2, list_elem_of_fmap in E as (r & [= -> ->] & _). done.
Qed.

Lemma settled_ok M avoid : input_ok (settled_input rs M avoid).
Proof. split; try done. intros n. rewrite settled_count. unfold held. cbn. lia. Qed.

Lemma R_facts : NoDup R ∧ R ≠ [] ∧ length R = length rs ∧ (∀ n, n ∈ R ↔ n ∈ rs).
Proof.
  unfold R. split_and!; [by rewrite sort_strings_perm| |by rewrite sort_strings_perm|intros n; by rewrite sort_strings_perm].
  intros E. apply rs_some, Permutation_nil_r. by rewrite <-(sort_strings_perm rs), E.
Qed.

Lemma settled_total M avoid : plan_total (settled_input rs M avoid) = tot M.
Proof.
  pose proof (settled_ok M avoid) as Hok. set (inp := settled_input rs M avoid) in *. pose proof (others_sum inp) as Ho.
  rewrite (others_counts inp (held M)) in Ho by (intros n; symmetry; apply settled_count).
  assert (zsum (count_of (Load inp)) (plan_receivers inp) = zsum (held M) R) as Hr by (apply zsum_ext; intros n _; apply settled_count).
  rewrite Hr in Ho. enough (zsum (held M) ((others inp).*1 ++ R) = tot M) as H by (rewrite zsum_app in H; lia).
  destruct R_facts as (Hnd & _ & _ & _). apply tot_over.
  - apply NoDup_app. split_and!; [apply others_nodup| |done]. by intros n [_ Hn]%elem_of_others.
  - intros n Hn. rewrite elem_of_app. destruct (decide (n ∈ R)); [by right|]. left. apply elem_of_others. split; [|done].
    unfold inp, settled_input. cbn [Load]. apply held_key, elem_of_sortedKeys in Hn as [ps Hps].
    exists (Z.of_nat (length ps)). apply lookup_union_Some_l. by rewrite lookup_fmap, Hps.
Qed.

(** The length of the plan is the cost of balancing. *)
Lemma plan_length M avoid : Z.of_nat (length (PlanRebalance (settled_input rs M avoid))) = cost R (tot M) (held M).
Proof.
  pose proof (settled_ok M avoid) as Hok. set (inp := settled_input rs M avoid) in *. destruct R_facts as (Hnd & Hne & _ & _).
  destruct (plan_spec inp Hok (Avoid inp)) as (Hshed & _ & _). rewrite <-plan_eq in Hshed by done.
  rewrite <-(length_fmap shed_of), Hshed. set (caps := plan_caps inp).
  assert (∀ n, held M n = count_of (Load inp) n) as HL by (intros n; symmetry; apply settled_count).
  rewrite (cost_ext R (tot M) _ _ HL). unfold cost. rewrite <-(excess_capacities R (tot M) Hnd Hne (Load inp)).
  assert (capacities R (Load inp) (tot M) = caps) as ->.
  { unfold caps, plan_caps. unfold inp. by rewrite settled_total. }
  rewrite <-(settled_total M avoid). fold inp. apply Z.le_antisymm; [apply (plan_pool_length inp Hok)|].
  rewrite pool_length by (apply plan_caps_nonneg; done). 
  assert (plan_receivers inp = R) as HR by done. rewrite <-HR, <-others_sum, (others_counts inp (count_of (Load inp))), HR by done.
  rewrite (zsum_ext (count_of (Load inp)) (λ n, pos (count_of (Load inp) n - count_of caps n)) (others inp).*1), <-zsum_app.
  2:{ intros n [_ Hn]%elem_of_others. unfold caps. rewrite plan_caps_outside by done. unfold pos. rewrite <-HL. pose proof (held_nonneg M n). lia. }
  etrans; [|apply Z.eq_le_incl, (zsum_ext (λ n, pos (count_of (Load inp) n - count_of caps n)) _ (sortedKeys M)); intros n _; rewrite <-HL; reflexivity].
  apply zsum_subset.
  - apply NoDup_app. split_and!; [done| |apply others_nodup]. intros n Hn Ho. apply elem_of_others in Ho. tauto.
  - intros n _ Hp. apply held_key. revert Hp. rewrite HL. unfold pos. pose proof (plan_caps_nonneg inp Hok n). fold caps in H. lia.
  - intros n _. unfold pos. lia.
Qed.

Section Run.
Context (M : gmap string (list PartitionRef)) (avoid : option (RebalanceMove → bool)).

Let input := settled_input rs M avoid.
Let ms := PlanRebalance input.
Let caps := plan_caps input.

Lemma plan_facts :
  available M ms ∧ (∀ n, from_count n ms = pos (held M n - count_of caps n))
  ∧ (∀ n, to_count n ms <= if decide (n ∈ R) then pos (count_of caps n - held M n) else 0)
  ∧ (∀ m, m ∈ ms → mv_To m ∈ R).
Proof.
  pose proof (settled_ok M avoid) as Hok. fold input in Hok. destruct (plan_spec input Hok (Avoid input)) as (Hs & Hto & Hm).
  rewrite <-plan_eq in Hs, Hto, Hm by done. fold ms caps in Hs, Hto, Hm.
  assert (∀ n, from_parts n ms = take (Z.to_nat (surplus M caps n)) (merge_sort ref_le (parts_of M n))) as Hf.
  { intros n. rewrite (from_parts_shed ms _ n Hs), pool_of. unfold shed. rewrite <-list_fmap_compose. apply list_fmap_id. }
  split_and!.
  - split; [|intros m Hin E; by destruct (Hm m Hin)]. intros n. rewrite Hf. eexists. rewrite take_drop. by rewrite merge_sort_Permutation.
  - intros n. rewrite from_count_parts, Hf, length_take, merge_sort_Permutation. unfold surplus, held, pos.
    pose proof (plan_caps_nonneg input Hok n) as Hc. fold caps in Hc. lia.
  - intros n. specialize (Hto n). change (plan_receivers input) with R in Hto.
    assert (count_of (Load input) n = held M n) as HL by apply settled_count. by rewrite HL in Hto.
  - intros m Hin. by destruct (Hm m Hin).
Qed.

(** Part of the plan carried out: what is still above the capacities it was
    made for. *)
Lemma carried_excess k :
  (k <= length ms)%nat → let M' := foldl relocate M (take k ms) in
  zsum (λ n, pos (held M' n - count_of caps n)) R + (tot M - zsum (held M') R)
  = zsum (λ n, pos (held M n - count_of caps n)) R + (tot M - zsum (held M) R) - Z.of_nat k.
Proof.
  intros Hk M'. destruct plan_facts as (Ha & Hfrom & Hto & Hin). destruct R_facts as (Hnd & _ & _ & _).
  assert (∀ n, held M' n = held M n - from_count n (take k ms) + to_count n (take k ms)) as Hh by (intros n; by apply carried).
  assert (∀ n, n ∈ R → pos (held M' n - count_of caps n) = pos (held M n - count_of caps n) + - from_count n (take k ms)) as Hp.
  { intros n Hn. rewrite Hh. specialize (Hfrom n). specialize (Hto n). rewrite decide_True in Hto by done.
    pose proof (count_prefix (λ m, mv_From m = n) ms k) as C1. pose proof (count_prefix (λ m, mv_To m = n) ms k) as C2.
    fold (from_count n ms) (from_count n (take k ms)) in C1. fold (to_count n ms) (to_count n (take k ms)) in C2. unfold pos in *. lia. }
  assert (zsum (λ n, to_count n (take k ms)) R = Z.of_nat k) as Hsum.
  { rewrite to_counts; [rewrite length_take; lia|done|]. intros m Hm. apply Hin.
    by apply elem_of_take in Hm as (i & Hi & _); apply list_elem_of_lookup_2 in Hi. }
  rewrite (zsum_ext _ _ _ Hp), zsum_add. rewrite (zsum_ext (held M') (λ n, (held M n + to_count n (take k ms)) + - from_count n (take k ms)) R).
  2:{ intros n _. rewrite Hh. lia. }
  rewrite !zsum_add, Hsum. lia.
Qed.

End Run.

Lemma caps_share M avoid n :
  n ∈ R → let base := tot M / Z.of_nat (length rs) in base <= count_of (plan_caps (settled_input rs M avoid)) n <= base + 1.
Proof.
  intros Hn base. destruct R_facts as (Hnd & _ & Hlen & _). pose proof (capacities_share R (Load (settled_input rs M avoid)) (tot M) n Hnd Hn) as H.
  rewrite Hlen in H. unfold plan_caps. by rewrite settled_total.
Qed.

Lemma caps_sum M avoid : zsum (count_of (plan_caps (settled_input rs M avoid))) R = tot M.
Proof.
  destruct R_facts as (Hnd & Hne & _ & _). unfold plan_caps. rewrite settled_total. by apply capacities_sum.
Qed.

(** One move lowers the cost by at most one. *)
Lemma relocate_cost M m : cost R (tot M) (held M) - 1 <= cost R (tot M) (held (relocate M m)).
Proof.
  destruct R_facts as (Hnd & Hne & _ & _).
  destruct (decide (mv_Partition m ∈ parts_of M (mv_From m))) as [Hp|Hp]; [|unfold relocate; rewrite decide_False by done; lia].
  destruct (decide (mv_From m = mv_To m)) as [E|Hft].
  - rewrite (cost_ext R (tot M) (held (relocate M m)) (held M)); [lia|]. intros n. unfold held, relocate. rewrite decide_True by done.
    rewrite !parts_insert, E. destruct (decide (mv_To m = n)) as [<-|]; [|done]. rewrite decide_True by done.
    rewrite length_app, Nat2Z.inj_add, remove_first_length by congruence. cbn [length]. lia.
  - set (L1 := λ n, held M n - ones (λ m, mv_From m = n) m).
    assert (cost R (tot M) (held M) <= cost R (tot M) L1) as H1.
    { apply (cost_dec R (tot M) Hnd) with (s := mv_From m).
      - intros n Hn. unfold L1, ones. rewrite decide_False by congruence. lia.
      - unfold L1, ones. by rewrite decide_True. }
    enough (cost R (tot M) L1 - 1 <= cost R (tot M) (held (relocate M m))) by lia.
    apply (cost_inc R (tot M) Hnd) with (t := mv_To m).
    + intros n Hn. rewrite relocate_held by done. unfold L1, ones. rewrite (decide_False (P := mv_To m = n)) by congruence. lia.
    + rewrite relocate_held by done. unfold L1, ones. rewrite !(decide_True (P := mv_To m = mv_To m)) by done. lia.
Qed.

Lemma carried_cost ms M : cost R (tot M) (held M) - Z.of_nat (length ms) <= cost R (tot M) (held (foldl relocate M ms)).
Proof.
  revert M. induction ms as [|m ms IH]; intros M; cbn [foldl length]; [lia|].
  specialize (IH (relocate M m)). rewrite relocate_tot in IH. pose proof (relocate_cost M m). lia.
Qed.

Lemma balanced_on_cost M : balanced_on rs M → cost R (tot M) (held M) = 0.
Proof.
  intros [Hb Ho]. destruct R_facts as (Hnd & Hne & Hlen & Hin). apply balanced_cost; [done|].
  split; [intros n Hn; rewrite Hlen; by apply Hb, Hin|]. apply tot_over; [done|]. intros n Hn.
  destruct (decide (n ∈ R)) as [|HnR]; [done|]. rewrite Ho in Hn; [lia|]. by rewrite <-Hin.
Qed.

Lemma plan_excess M avoid :
  let caps := plan_caps (settled_input rs M avoid) in
  Z.of_nat (length (PlanRebalance (settled_input rs M avoid))) = zsum (λ n, pos (held M n - count_of caps n)) R + (tot M - zsum (held M) R).
Proof.
  intros caps. destruct R_facts as (Hnd & Hne & _ & _). rewrite plan_length.
  rewrite (cost_ext R (tot M) (held M) (count_of (Load (settled_input rs M avoid)))) by (intros n; symmetry; apply settled_count).
  unfold cost. rewrite <-(excess_capacities R (tot M) Hnd Hne (Load (settled_input rs M avoid))).
  rewrite (zsum_ext (count_of (Load (settled_input rs M avoid))) (held M) R) by (intros n _; apply settled_count). f_equal.
  apply zsum_ext. intros n _. rewrite settled_count. unfold caps, plan_caps. by rewrite settled_total.
Qed.

Lemma plan_progress M avoid avoid' k :
  let ms := PlanRebalance (settled_input rs M avoid) in
  (k <= length ms)%nat →
  length (PlanRebalance (settled_input rs (foldl relocate M (take k ms)) avoid')) = (length ms - k)%nat.
Proof.
  intros ms Hk. destruct R_facts as (Hnd & Hne & _ & _). set (M' := foldl relocate M (take k ms)).
  pose proof (carried_excess M avoid k Hk) as He. cbv zeta in He. fold ms in He. fold M' in He.
  pose proof (plan_excess M avoid) as H0. cbv zeta in H0. fold ms in H0.
  pose proof (carried_cost (take k ms) M) as Hlow. fold M' in Hlow. rewrite length_take, <-(plan_length M avoid) in Hlow. fold ms in Hlow.
  assert (cost R (tot M) (held M') <= zsum (λ n, pos (held M' n - count_of (plan_caps (settled_input rs M avoid)) n)) R + (tot M - zsum (held M') R)) as Hup.
  { apply cost_least; [done| |apply caps_sum]. intros n Hn. destruct R_facts as (_ & _ & -> & _). by apply caps_share. }
  pose proof (plan_length M' avoid') as Hl. assert (tot M' = tot M) as Ht by apply carried_tot. rewrite Ht in Hl. lia.
Qed.

Lemma plan_balances M avoid : balanced_on rs (foldl relocate M (PlanRebalance (settled_input rs M avoid))).
Proof.
  set (ms := PlanRebalance (settled_input rs M avoid)). destruct R_facts as (Hnd & Hne & Hlen & Hin).
  pose proof (carried_excess M avoid (length ms) ltac:(done)) as He. cbv zeta in He. fold ms in He. rewrite take_ge in He by done.
  set (M' := foldl relocate M ms) in *. pose proof (plan_excess M avoid) as H0. cbv zeta in H0. fold ms in H0.
  assert (tot M' = tot M) as Ht by apply carried_tot. set (caps := plan_caps (settled_input rs M avoid)) in *.
  assert (0 <= zsum (λ n, pos (held M' n - count_of caps n)) R) as Hp by (apply zsum_nonneg; intros; unfold pos; lia).
  assert (zsum (held M') R <= tot M) as Hle.
  { rewrite <-Ht. apply zsum_subset; [done|intros n _; apply held_key|intros; apply held_nonneg]. }
  assert (∀ n, n ∈ R → held M' n <= count_of caps n) as Hcap.
  { intros n Hn. pose proof (zsum_tight (λ _, 0) (λ n, pos (held M' n - count_of caps n)) R n) as Hz. cbn in Hz.
    assert (0 = pos (held M' n - count_of caps n)) as Hzero; [|unfold pos in Hzero; lia]. apply Hz; [intros; unfold pos; lia| |done]. rewrite zsum_const. lia. }
  assert (∀ n, n ∈ R → held M' n = count_of caps n) as Heq.
  { intros n Hn. apply (zsum_tight _ _ R); [done| |done]. unfold caps. rewrite caps_sum. lia. }
  split.
  - intros n Hn. rewrite Ht, Heq by by apply Hin. apply caps_share. by apply Hin.
  - intros n Hn. destruct (decide (held M' n = 0)); [done|]. exfalso. pose proof (held_nonneg M' n).
    assert (zsum (held M') (n :: R) <= tot M'); [|rewrite zsum_cons in *; lia].
    apply zsum_subset; [|intros x _; apply held_key|intros; apply held_nonneg]. constructor; [by rewrite Hin|done].
Qed.

End Settled.

(** C25. Rebalancing terminates.  On a settled cluster, carrying out any
    [k] moves of a plan leaves a next plan exactly [k] moves shorter,
    whatever moves the planner is told to avoid then; carrying out all of it
    balances the receivers to within one partition and empties the other
    nodes; and a balanced cluster is left alone. *)
Theorem rebalance_converges rs M avoid avoid' :
  NoDup rs → "" ∉ rs → rs ≠ [] →
  let ms := PlanRebalance (settled_input rs M avoid) in
  (∀ k, (k <= length ms)%nat →
     length (PlanRebalance (settled_input rs (foldl relocate M (take k ms)) avoid')) = (length ms - k)%nat)
  ∧ balanced_on rs (foldl relocate M ms)
  ∧ (balanced_on rs M → ms = []).
Proof.
  intros Hnd Hne Hsome ms. split_and!.
  - intros k. by apply plan_progress.
  - by apply plan_balances.
  - intros Hb. apply length_zero_iff_nil. pose proof (plan_length rs Hnd Hne Hsome M avoid) as Hl. fold ms in Hl.
    rewrite balanced_on_cost in Hl; [lia|done..].
Qed.

(** The plan is minimal: no sequence of moves that leaves the cluster
    balanced is shorter. *)
Theorem plan_minimal rs M avoid ms' :
  NoDup rs → "" ∉ rs → rs ≠ [] → balanced_on rs (foldl relocate M ms') →
  (length (PlanRebalance (settled_input rs M avoid)) <= length ms')%nat.
Proof.
  intros Hnd Hne Hsome Hb. pose proof (plan_length rs Hnd Hne Hsome M avoid) as Hl.
  pose proof (carried_cost rs Hnd Hsome ms' M) as Hc. apply balanced_on_cost in Hb; [|done..]. rewrite carried_tot in Hb. lia.
Qed.

(** ** A cluster with a draining node *)

Definition demo_placement : gmap string (list PartitionRef) :=
  list_to_map [("a", MkRef "t" <$> [0; 1; 2; 3]); ("b", MkRef "u" <$> [0; 1]); ("d", MkRef "v" <$> [0; 1; 2])].

Lemma rebalance_converges_witness :
  let ms := PlanRebalance (settled_input ["a"; "b"; "c"] demo_placement None) in
  length ms = 4%nat ∧ balanced_on ["a"; "b"; "c"] (foldl relocate demo_placement ms) ∧
  length (PlanRebalance (settled_input ["a"; "b"; "c"] (foldl relocate demo_placement (take 1 ms)) None)) = 3%nat.
Proof.
  destruct (rebalance_converges ["a"; "b"; "c"] demo_placement None None) as (H1 & H2 & _); [by apply (bool_decide_unpack _); vm_compute|by apply (bool_decide_unpack _); vm_compute|done|].
  split_and!; [by vm_compute|exact H2|]. exact (H1 1%nat ltac:(apply (bool_decide_unpack _); by vm_compute)).
Defined.

Lemma plan_minimal_witness :
  (length (PlanRebalance (settled_input ["a"; "b"; "c"] demo_placement None))
   <= length (PlanRebalance (settled_input ["a"; "b"; "c"] demo_placement None)))%nat.
Proof.
  apply (plan_minimal ["a"; "b"; "c"] demo_placement None); [by apply (bool_decide_unpack _); vm_compute|by apply (bool_decide_unpack _); vm_compute|done|].
  apply plan_balances; [by apply (bool_decide_unpack _); vm_compute|by apply (bool_decide_unpack _); vm_compute|done].
Defined.
