(* ===== verification/Store.v ===== *)
(** * The metastore as its clients on the leader use it

    A client of the store runs as a sequence of calls: reads of the local
    replica, proposals, and questions about the Raft configuration.  Between
    two calls any number of other commands may commit, a call may fail, and
    the client may be cut short.  A program ([prog]) is a function of the
    world that answers its calls; the calls' circumstances are an argument,
    so a theorem about all of them covers every interleaving.

    [internal/persistence/metastore]: [ListMembers], [ListTopics],
    [ListAssignments], [GetTopic], [OrphanAssignments] and the proposals of
    [assignments.go], [members.go] and [membership.go]. *)

From S2P Require Import Prelude Decimal Keys Json Meta Versions FsmTopics FsmCluster FsmRemotes Fsm.

(** What happens around one call: the commands others commit before it,
    whether it succeeds, whether a proposal that fails commits all the same,
    whether every member applies the newer entry types, and the Raft
    configuration as this node sees it ([None] when it cannot be read). *)
Record call := MkCall {
  cl_others : list command;
  cl_ok : bool;
  cl_landed : bool;
  cl_usable : bool;
  cl_voters : option (list string);
  cl_nonvoters : option (list string);
  cl_leader : string;
}.

Inductive event :=
| Proposed (c : command) (b : buckets)   (** a proposal, and the database then *)
| ServerRemoved (id : string) (voters : list string)
| LeadershipTransferred.

Record world := World { w_db : buckets; w_calls : list call; w_log : list event }.

(** A proposal's error: the state machine's refusal, a call that failed
    ([errs.ErrUnavailable], a context error), or an entry type some member
    does not apply yet ([ErrEntryTypeNotYetUsable]). *)
Inductive store_err := Refused (e : err) | Unavailable | NotYetUsable.

(** [None]: the program returned early or was cut short. *)
Definition prog (A : Type) : Type := world → option A * world.

#[global] Instance prog_ret : MRet prog := λ A a w, (Some a, w).
#[global] Instance prog_bind : MBind prog := λ A B f p w,
  match p w with (Some a, w) => f a w | (None, w) => (None, w) end.

(** An early return. *)
Definition stop {A} : prog A := λ w, (None, w).

(** [p]'s early return ends [p] alone. *)
Definition attempt {A} (p : prog A) : prog (option A) := λ w, let '(a, w) := p w in (Some a, w).

(** A failed call makes the caller return. *)
Definition or_stop {A} (p : prog (option A)) : prog A := p ≫= λ r, match r with Some a => mret a | None => stop end.

Definition require (c : bool) : prog unit := if c then mret () else stop.

Fixpoint each {A} (l : list A) (f : A → prog unit) : prog unit :=
  match l with [] => mret () | x :: l => f x ≫= λ _, each l f end.

(** A loop that carries a value. *)
Fixpoint fold_each {A B} (l : list A) (f : B → A → prog B) (b : B) : prog B :=
  match l with [] => mret b | x :: l => f b x ≫= fold_each l f end.

Section Store.
Context (L : lib) (bud : schemaBudgets).

(** One committed command. *)
Definition commit (b : buckets) (c : command) : buckets :=
  match refused_early c with
  | Some _ => b
  | None => match dispatch L bud c b with Ok (b, _, _) => b | Err _ => b end
  end.

(** What the proposer is told. *)
Definition answer (b : buckets) (c : command) : result store_err unit :=
  match refused_early c with
  | Some e => Err (Refused e)
  | None => match dispatch L bud c b with Ok (_, _, None) => Ok () | Ok (_, _, Some e) => Err (Refused e) | Err e => Err (Refused e) end
  end.

(** The next call, after what others committed. *)
Definition next : prog call := λ w,
  match w_calls w with
  | [] => (None, w)
  | cl :: calls => (Some cl, World (foldl commit (w_db w) (cl_others cl)) calls (w_log w))
  end.

Definition note (e : event) : prog unit := λ w, (Some (), World (w_db w) (w_calls w) (w_log w ++ [e])).
Definition database : prog buckets := λ w, (Some (w_db w), w).
Definition apply_cmd (c : command) : prog unit := λ w, (Some (), World (commit (w_db w) c) (w_calls w) (w_log w)).

(** A read of the replica; [None] when it fails. *)
Definition view {A} (f : buckets → A) : prog (option A) :=
  cl ← next; b ← database; mret (if cl_ok cl then Some (f b) else None).

(** [Store.apply]; an error of the call says nothing about the command: it
    commits ([cl_landed]) or not, or is among what commits later. *)
Definition submit (cl : call) (c : command) : prog (result store_err unit) :=
  b ← database; _ ← note (Proposed c b);
  if cl_ok cl then _ ← apply_cmd c; mret (answer b c)
  else if cl_landed cl then _ ← apply_cmd c; mret (Err Unavailable)
  else mret (Err Unavailable).

Definition propose (c : command) : prog (result store_err unit) := cl ← next; submit cl c.

(** [applyIfUsable]. *)
Definition propose_if_usable (c : command) : prog (result store_err unit) :=
  cl ← next; if cl_usable cl then submit cl c else mret (Err NotYetUsable).

(** ** Reads *)

Definition list_members (b : buckets) : list Member := (in_key_order (members b)).*2.
Definition list_topics (b : buckets) : list Topic := (in_key_order (topics b)).*2.
Definition list_assignments (topicName : string) (b : buckets) : list Assignment := (rows_of topicName (assignments b)).*2.

Definition ListMembers : prog (option (list Member)) := view list_members.
Definition ListTopics : prog (option (list Topic)) := view list_topics.
Definition ListAssignments (topicName : string) : prog (option (list Assignment)) := view (list_assignments topicName).
Definition GetTopic (name : string) : prog (option (result err Topic)) := view (λ b, getTopicRecord b name).

Definition Voters : prog (option (list string)) := cl ← next; mret (cl_voters cl).
Definition Nonvoters : prog (option (list string)) := cl ← next; mret (cl_nonvoters cl).
Definition LeaderID : prog string := cl ← next; mret (cl_leader cl).

(** [IsLeader], [Barrier] and [LeaderBarrier]: whether the caller may go on. *)
Definition IsLeader : prog bool := cl ← next; mret (cl_ok cl).
Definition Barrier : prog bool := cl ← next; mret (cl_ok cl).

(** [RemoveServer], with the voters the caller had read. *)
Definition RemoveServer (id : string) (voters : list string) : prog bool :=
  cl ← next; _ ← note (ServerRemoved id voters); mret (cl_ok cl).
Definition TransferLeadership : prog unit := _ ← next; note LeadershipTransferred.

(** ** Proposals *)

Definition AssignPartition (t : string) (p : Z) (owner : string) := propose (OpAssignPartition (MkAssignment t p owner "")).
Definition AssignPartitionIfAbsent (t : string) (p : Z) (owner expectID : string) :=
  propose_if_usable (OpAssignPartitionIfAbsent t p owner expectID).
Definition PruneAssignment (t : string) (p : Z) := propose_if_usable (OpPruneAssignment t p).
Definition SetAssignmentTarget (t : string) (p : Z) (target : string) := propose (OpSetAssignmentTarget t p target).
Definition AbortMove (t : string) (p : Z) (expected : string) := propose (OpAbortMove t p expected).
Definition RemoveMember (id : string) (at_ : Z) := propose (OpRemoveMember id at_).

Definition MarkMemberDeadObserved (id : string) (observed : Z) : prog (result store_err unit) :=
  r ← propose_if_usable (OpMarkMemberDeadIf id observed);
  match r with
  | Err NotYetUsable => propose (OpMemberDead id)
  | r => mret r
  end.

(** [placePartition] of the store and of the controller. *)
Definition placePartition (t : string) (topicID : string) (p : Z) (owner : string) : prog (result store_err unit) :=
  r ← AssignPartitionIfAbsent t p owner topicID;
  match r with
  | Err NotYetUsable => AssignPartition t p owner
  | Err (Refused ErrPartitionAssigned) => mret (Ok ())
  | r => mret r
  end.

(** ** Orphan rows *)

(** [splitAssignmentKey]: the last colon separates the two. *)
Fixpoint split_last_colon (s : string) : option (string * string) :=
  match s with
  | EmptyString => None
  | String c s' =>
      match split_last_colon s' with
      | Some (t, p) => Some (String c t, p)
      | None => if decide (c = ":"%char) then Some (EmptyString, s') else None
      end
  end.

Definition splitAssignmentKey (key : string) : option (string * Z) :=
  match split_last_colon key with
  | Some (t, p) =>
      if decide (t = "") then None
      else match atoi p with Some n => if n <? 0 then None else Some (t, n) | None => None end
  | None => None
  end.

Definition orphan_row (b : buckets) (kv : string * Assignment) : option Assignment :=
  match splitAssignmentKey kv.1 with
  | None => None
  | Some (name, partition) =>
      if match topics b !! name with Some t => partition <? t_Partitions t | None => false end then None
      else Some (MkAssignment name partition (a_OwnerID kv.2) "")
  end.

Definition orphan_assignments (b : buckets) : list Assignment := omap (orphan_row b) (in_key_order (assignments b)).
Definition OrphanAssignments : prog (option (list Assignment)) := view orphan_assignments.

End Store.

(** ** Reasoning about store clients

    A triple [{{ P }} p {{ Q }}] for the programs of [Store.v]: from a world
    where [P] holds, [p] ends with a result in [Q], or returns early with
    the log still as it has to be.  The rules are for facts about the
    database that no command others may commit destroys ([stable]). *)

Definition triple {A} (E P : world → Prop) (p : prog A) (Q : A → world → Prop) : Prop :=
  ∀ w, P w → match p w with (Some a, w') => Q a w' | (None, w') => E w' end.

Section Rules.
Context {E : world → Prop}.
Implicit Types P : world → Prop.

Lemma triple_ret {A} P (a : A) (Q : A → world → Prop) : (∀ w, P w → Q a w) → triple E P (mret a) Q.
Proof. intros H w Hw. by apply H. Qed.

Lemma triple_bind {A B} P (p : prog A) (f : A → prog B) M (Q : B → world → Prop) :
  triple E P p M → (∀ a, triple E (M a) (f a) Q) → triple E P (p ≫= f) Q.
Proof.
  intros Hp Hf w Hw. specialize (Hp w Hw). unfold mbind, prog_bind.
  destruct (p w) as [[a|] w']; [by apply Hf|done].
Qed.

Lemma triple_conseq {A} P P' (p : prog A) (Q Q' : A → world → Prop) :
  triple E P' p Q' → (∀ w, P w → P' w) → (∀ a w, Q' a w → Q a w) → triple E P p Q.
Proof. intros Hp HP HQ w Hw. specialize (Hp w (HP w Hw)). destruct (p w) as [[a|] w']; auto. Qed.

Lemma triple_exit {A} (E' : world → Prop) P (p : prog A) (Q : A → world → Prop) :
  triple E' P p Q → (∀ w, E' w → E w) → triple E P p Q.
Proof. intros Hp HE w Hw. specialize (Hp w Hw). destruct (p w) as [[a|] w']; auto. Qed.

Lemma triple_stop {A} P (Q : A → world → Prop) : (∀ w, P w → E w) → triple E P stop Q.
Proof. intros H w Hw. by apply H. Qed.

Lemma triple_require P c : (∀ w, P w → E w) → triple E P (require c) (λ _ w, c = true ∧ P w).
Proof. intros H w Hw. destruct c; simpl; auto. Qed.

Lemma triple_or_stop {A} P (p : prog (option A)) (Q : A → world → Prop) :
  triple E P p (λ r w, match r with Some a => Q a w | None => E w end) → triple E P (or_stop p) Q.
Proof.
  intros Hp. eapply triple_bind; [exact Hp|]. intros [a|]; [by apply triple_ret|by apply triple_stop].
Qed.

Lemma triple_attempt {A} P (p : prog A) (Q : option A → world → Prop) :
  triple (Q None) P p (λ a, Q (Some a)) → triple E P (attempt p) Q.
Proof. intros Hp w Hw. specialize (Hp w Hw). unfold attempt. by destruct (p w) as [[a|] w']. Qed.

Lemma triple_each {A} P (l : list A) (f : A → prog unit) :
  (∀ x, x ∈ l → triple E P (f x) (λ _, P)) → triple E P (each l f) (λ _, P).
Proof.
  induction l as [|x l IH]; intros Hf; [by apply triple_ret|].
  eapply triple_bind; [apply Hf; left|]. intros []. apply IH. intros y Hy. apply Hf. by right.
Qed.

(** The invariant says what is left to do. *)
Lemma triple_fold_each {A B} (I : list A → B → world → Prop) (f : B → A → prog B) l b :
  (∀ x l b, triple E (I (x :: l) b) (f b x) (I l)) → triple E (I l b) (fold_each l f b) (I []).
Proof.
  intros Hf. revert b. induction l as [|x l IH]; intros b; [by apply triple_ret|].
  cbn [fold_each]. eapply triple_bind; [apply Hf|]. intros a. apply IH.
Qed.

End Rules.

(** What a pass may rely on and has to keep: an invariant of the database,
    what the commands of others may be, and what it may log. *)
Section Stable.
Context (L : lib) (bud : schemaBudgets).
Context (sound : buckets → Prop) (ok_cmd : command → Prop) (ok_call : call → Prop) (ok_event : event → Prop).

Record good (w : world) : Prop := {
  gd_db : sound (w_db w);
  gd_calls : Forall (λ cl, ok_call cl ∧ Forall ok_cmd (cl_others cl)) (w_calls w);
  gd_log : Forall ok_event (w_log w);
}.

Definition holds (F : buckets → Prop) (w : world) : Prop := good w ∧ F (w_db w).

Definition stable (F : buckets → Prop) : Prop := ∀ b c, sound b → ok_cmd c → F b → F (commit L bud b c).

Context (sound_stable : ∀ b c, sound b → ok_cmd c → sound (commit L bud b c)).

Lemma holds_good F w : holds F w → good w.
Proof. by intros [? _]. Qed.

Lemma others_stable F b cs : stable F → sound b → Forall ok_cmd cs → F b → sound (foldl (commit L bud) b cs) ∧ F (foldl (commit L bud) b cs).
Proof.
  intros HF Hb Hcs. revert b Hb. induction Hcs as [|c cs Hc _ IH]; intros b Hb H; [done|].
  simpl. apply IH; [by apply sound_stable|by apply HF].
Qed.

Lemma triple_next F : stable F → triple (holds F) (holds F) (next L bud) (λ cl w, ok_call cl ∧ holds F w).
Proof.
  intros HF w [[Hdb Hcalls Hlog] H]. unfold next. destruct (w_calls w) as [|cl calls] eqn:E; [by split; [split; rewrite ?E|]|].
  apply Forall_cons in Hcalls as [[Hcl Hcs] Hcalls].
  destruct (others_stable F (w_db w) (cl_others cl) HF Hdb Hcs H) as [? ?]. done.
Qed.

Lemma triple_view {A} F (f : buckets → A) : stable F →
  triple (holds F) (holds F) (view L bud f) (λ r w, holds F w ∧ match r with Some x => x = f (w_db w) | None => True end).
Proof.
  intros HF. eapply triple_bind; [by apply triple_next|]. intros cl w [_ Hw]. simpl. split; [done|]. by destruct (cl_ok cl).
Qed.

Lemma triple_list {A} F (f : buckets → A) : stable F →
  triple (holds F) (holds F) (or_stop (view L bud f)) (λ x w, holds F w ∧ x = f (w_db w)).
Proof.
  intros HF. apply triple_or_stop. eapply triple_conseq; [by apply triple_view|done|].
  intros [x|] w [Hw Hx]; done.
Qed.

Lemma triple_ask {A} F (f : call → A) : stable F →
  triple (holds F) (holds F) (cl ← next L bud; mret (f cl)) (λ r w, holds F w ∧ ∃ cl, ok_call cl ∧ r = f cl).
Proof. intros HF. eapply triple_bind; [by apply triple_next|]. intros cl. apply triple_ret. naive_solver. Qed.

Lemma triple_ask_list {A} F (f : call → option A) : stable F →
  triple (holds F) (holds F) (or_stop (cl ← next L bud; mret (f cl))) (λ r w, holds F w ∧ ∃ cl, ok_call cl ∧ Some r = f cl).
Proof.
  intros HF. apply triple_or_stop. eapply triple_conseq; [by apply triple_ask|done|].
  intros [x|] w [Hw Hx]; done.
Qed.

Lemma triple_note F e : ok_event e → triple (holds F) (holds F) (note e) (λ _, holds F).
Proof. intros He w [[Hdb Hc Hl] H]. split; [split; simpl; [done..|]|done]. apply Forall_app. by repeat constructor. Qed.

Lemma triple_submit F cl c : stable F → ok_cmd c → (∀ b, sound b → F b → ok_event (Proposed c b)) →
  triple (holds F) (holds F) (submit L bud cl c) (λ _, holds F).
Proof.
  intros HF Hc He w [[Hdb Hcs Hl] H]. unfold submit. simpl.
  assert (Forall ok_event (w_log w ++ [Proposed c (w_db w)])) by (apply Forall_app; repeat constructor; auto).
  destruct (cl_ok cl), (cl_landed cl); simpl; (split; [split|]; simpl; [|done..|]); auto.
Qed.

Lemma triple_propose F c : stable F → ok_cmd c → (∀ b, sound b → F b → ok_event (Proposed c b)) →
  triple (holds F) (holds F) (propose L bud c) (λ _, holds F).
Proof. intros HF Hc He. eapply triple_bind; [by apply triple_next|]. intros cl w [_ Hw]. by apply triple_submit. Qed.

Lemma triple_propose_if_usable F c : stable F → ok_cmd c → (∀ b, sound b → F b → ok_event (Proposed c b)) →
  triple (holds F) (holds F) (propose_if_usable L bud c) (λ _, holds F).
Proof.
  intros HF Hc He. eapply triple_bind; [by apply triple_next|]. intros cl w [_ Hw]. destruct (cl_usable cl); [by apply triple_submit|done].
Qed.

(** ** Programs that keep a fact, whatever they return *)

Context (F : buckets → Prop) (HF : stable F).

Definition keeps {A} (p : prog A) : Prop := triple (holds F) (holds F) p (λ _, holds F).

Lemma keeps_ret {A} (a : A) : keeps (mret a).
Proof. by apply triple_ret. Qed.

Lemma keeps_stop {A} : keeps (stop (A := A)).
Proof. by apply triple_stop. Qed.

Lemma keeps_require c : keeps (require c).
Proof. destruct c; [apply keeps_ret|apply keeps_stop]. Qed.

Lemma keeps_bind {A B} (p : prog A) (f : A → prog B) : keeps p → (∀ a, keeps (f a)) → keeps (p ≫= f).
Proof. intros Hp Hf. eapply triple_bind; [exact Hp|exact Hf]. Qed.

Lemma keeps_bind_with {A B} (R : A → Prop) (p : prog A) (f : A → prog B) :
  triple (holds F) (holds F) p (λ a w, holds F w ∧ R a) → (∀ a, R a → keeps (f a)) → keeps (p ≫= f).
Proof. intros Hp Hf. eapply triple_bind; [exact Hp|]. intros a w [Hw HR]. by apply Hf. Qed.

Lemma keeps_ask {A B} (g : call → A) (f : A → prog B) :
  (∀ cl, ok_call cl → keeps (f (g cl))) → keeps ((cl ← next L bud; mret (g cl)) ≫= f).
Proof. intros Hf. apply (keeps_bind_with (λ a, ∃ cl, ok_call cl ∧ a = g cl)); [by apply triple_ask|]. intros a (cl & Hcl & ->). auto. Qed.

Lemma keeps_require_bind {B} c (f : () → prog B) : (c = true → keeps (f ())) → keeps (require c ≫= f).
Proof.
  intros Hf. apply (keeps_bind_with (λ _, c = true)); [|intros []; exact Hf]. destruct c; [by apply triple_ret|by apply triple_stop].
Qed.

Lemma keeps_or_stop {A} (p : prog (option A)) : keeps p → keeps (or_stop p).
Proof. intros Hp. apply keeps_bind; [done|]. intros [a|]; [apply keeps_ret|apply keeps_stop]. Qed.

Lemma keeps_attempt {A} (p : prog A) : keeps p → keeps (attempt p).
Proof. intros Hp. by apply (triple_attempt _ _ (λ _, holds F)). Qed.

Lemma keeps_each {A} (l : list A) f : (∀ x, x ∈ l → keeps (f x)) → keeps (each l f).
Proof. apply triple_each. Qed.

Lemma keeps_fold_each {A B} (l : list A) (f : B → A → prog B) b : (∀ b x, keeps (f b x)) → keeps (fold_each l f b).
Proof. intros Hf. apply (triple_fold_each (λ _ _, holds F)). intros x l' b'. apply Hf. Qed.

Lemma keeps_next : keeps (next L bud).
Proof. eapply triple_conseq; [by apply triple_next|done|]. by intros ? w [_ ?]. Qed.

Lemma keeps_view {A} (f : buckets → A) : keeps (view L bud f).
Proof. eapply triple_conseq; [by apply triple_view|done|]. by intros ? w [? _]. Qed.

Lemma keeps_note e : ok_event e → keeps (note e).
Proof. apply triple_note. Qed.

Lemma keeps_propose c : ok_cmd c → (∀ b, sound b → F b → ok_event (Proposed c b)) → keeps (propose L bud c).
Proof. by apply triple_propose. Qed.

Lemma keeps_propose_if_usable c : ok_cmd c → (∀ b, sound b → F b → ok_event (Proposed c b)) → keeps (propose_if_usable L bud c).
Proof. by apply triple_propose_if_usable. Qed.

End Stable.

(** The facts a program may rely on can be weakened at its end. *)
Lemma keeps_triple {A} sound ok_cmd ok_call ok_event F (p : prog A) (Q : A → world → Prop) :
  keeps sound ok_cmd ok_call ok_event F p → (∀ a w, holds sound ok_cmd ok_call ok_event F w → Q a w) →
  triple (good sound ok_cmd ok_call ok_event) (holds sound ok_cmd ok_call ok_event F) p Q.
Proof.
  intros Hp HQ. eapply triple_exit; [eapply triple_conseq; [exact Hp|done|exact HQ]|]. apply holds_good.
Qed.

(** Steps through a program; the events and the proposals are left. *)
Ltac keep_step :=
  match goal with
  | |- keeps _ _ _ _ _ (mret _) => apply keeps_ret
  | |- keeps _ _ _ _ _ stop => apply keeps_stop
  | |- keeps _ _ _ _ _ (require _) => apply keeps_require
  | |- keeps _ _ _ _ _ (or_stop _) => apply keeps_or_stop
  | |- keeps _ _ _ _ _ (attempt _) => apply keeps_attempt
  | |- keeps _ _ _ _ _ (each _ _) => apply keeps_each; intros ? ?
  | |- keeps _ _ _ _ _ (fold_each _ _ _) => apply keeps_fold_each; intros ? ?
  | |- keeps _ _ _ _ _ (next _ _) => apply keeps_next; [solve [assumption | done]..]
  | |- keeps _ _ _ _ _ (view _ _ _) => apply keeps_view; [solve [assumption | done]..]
  | |- keeps _ _ _ _ _ (require _ ≫= _) => apply keeps_require_bind; intros ?
  | |- keeps _ _ _ _ _ (_ ≫= _) => apply keeps_bind; [|intros ?]
  | |- keeps _ _ _ _ _ (if _ then _ else _) => case_match
  | |- keeps _ _ _ _ _ (match _ with _ => _ end) => case_match
  | |- keeps _ _ _ _ _ (ListMembers _ _) => unfold ListMembers
  | |- keeps _ _ _ _ _ (ListTopics _ _) => unfold ListTopics
  | |- keeps _ _ _ _ _ (ListAssignments _ _ _) => unfold ListAssignments
  | |- keeps _ _ _ _ _ (GetTopic _ _ _) => unfold GetTopic
  | |- keeps _ _ _ _ _ (Voters _ _) => unfold Voters
  | |- keeps _ _ _ _ _ (Nonvoters _ _) => unfold Nonvoters
  | |- keeps _ _ _ _ _ (LeaderID _ _) => unfold LeaderID
  | |- keeps _ _ _ _ _ (IsLeader _ _) => unfold IsLeader
  | |- keeps _ _ _ _ _ (Barrier _ _) => unfold Barrier
  | |- keeps _ _ _ _ _ (RemoveServer _ _ _ _) => unfold RemoveServer
  | |- keeps _ _ _ _ _ (TransferLeadership _ _) => unfold TransferLeadership
  end.

Ltac keep := repeat keep_step.
