(* ===== verification/Placement.v ===== *)
(** * Placing unassigned partitions

    [internal/persistence/metastore/assignments.go]: who may take new
    partitions and which of them takes which, shared by topic creates and by
    the controller's sweep. *)

From S2P Require Import Prelude Decimal Keys Json Meta Versions FsmTopics FsmCluster FsmRemotes Fsm Store.

Definition AliveMembers (ms : list Member) : list Member := filter (λ m, m_Status m = MemberAlive) ms.

(** The logging of an all-draining cluster aside, the live members that are
    not being decommissioned. *)
Definition PlacementMembers (ms : list Member) : list Member :=
  let alive := AliveMembers ms in
  let out := filter (λ m, m_Draining m = false) alive in
  if decide (out ≠ [] ∨ alive = []) then out else [].

Inductive placement_err := ErrNoAliveMembers | ErrAllMembersDraining.

Definition PlacementRefusal (ms : list Member) : option placement_err :=
  match AliveMembers ms with
  | [] => Some ErrNoAliveMembers
  | alive => if decide (Exists (λ m, m_Draining m = false) alive) then None else Some ErrAllMembersDraining
  end.

Definition id_le (a b : Member) : Prop := String.le (m_ID a) (m_ID b).
#[global] Instance id_le_dec a b : Decision (id_le a b).
Proof. unfold id_le. apply _. Defined.

Definition RoundRobinMembers (active : list Member) : list Member := merge_sort id_le active.

(** [active[i % len(active)].ID]. *)
Definition ring (active : list Member) (i : Z) : string :=
  default "" (m_ID <$> active !! Z.to_nat (i mod Z.of_nat (length active))).

Definition RoundRobinOwner (active : list Member) (partition : Z) : option string :=
  if decide (active = [] ∨ partition < 0) then None else Some (ring active partition).

Fixpoint affine_loop (active : list Member) (partition : Z) (avoidOwner : string) (i fuel : nat) : option string :=
  match fuel with
  | O => None
  | S fuel =>
      let candidate := ring active (partition + Z.of_nat i) in
      if decide (candidate ≠ avoidOwner) then Some candidate else affine_loop active partition avoidOwner (S i) fuel
  end.

(** The loop looks at every member once. *)
Definition AntiAffineOwner (active : list Member) (partition : Z) (avoidOwner : string) : option string :=
  if decide (active = [] ∨ partition < 0) then None
  else Some (default (ring active partition) (affine_loop active partition avoidOwner 0 (length active))).

(** [Deferred]: the parent's partition has no owner yet. *)
Inductive owner_choice := Owner (id : string) | NoOwner | Deferred.

Definition choice_of (o : option string) : owner_choice := match o with Some id => Owner id | None => NoOwner end.

Definition ChildAwareOwner (active : list Member) (partition : Z) (parentOwners : gmap Z string) (parentPartitions : Z) : owner_choice :=
  if (parentPartitions =? 0) || (parentPartitions <=? partition) then choice_of (RoundRobinOwner active partition)
  else
    let avoid := default "" (parentOwners !! partition) in
    if decide (avoid = "") then Deferred else choice_of (AntiAffineOwner active partition avoid).

Definition owners_map (rows : list Assignment) : gmap Z string :=
  foldl (λ m a, <[a_Partition a := a_OwnerID a]> m) ∅ rows.

Section Assign.
Context (L : lib) (bud : schemaBudgets).

(** [parentOwnersFor]: no constraint ([∅], 0) for a topic that is no child
    or whose parent is gone; [None] when the parent's rows cannot be read. *)
Definition parentOwnersFor (topicName : string) : prog (option (gmap Z string * Z)) :=
  t ← GetTopic L bud topicName;
  match t with
  | Some (Ok t) =>
      if decide (t_Parent t = "") then mret (Some (∅, 0)) else
      parent ← GetTopic L bud (t_Parent t);
      match parent with
      | Some (Ok parent) =>
          rows ← ListAssignments L bud (t_Parent t);
          mret ((λ rows, (owners_map rows, t_Partitions parent)) <$> rows)
      | _ => mret (Some (∅, 0))
      end
  | _ => mret (Some (∅, 0))
  end.

(** The loop over the partitions to place; a failed placement ends it. *)
Fixpoint place_new (topicName topicID : string) (active : list Member) (parentOwners : gmap Z string) (parentPartitions : Z)
    (assigned : gset Z) (partitions : list Z) : prog (result store_err unit) :=
  match partitions with
  | [] => mret (Ok ())
  | p :: rest =>
      let go := place_new topicName topicID active parentOwners parentPartitions assigned rest in
      if decide (p ∈ assigned) then go
      else match ChildAwareOwner active p parentOwners parentPartitions with
           | Deferred => go
           | NoOwner => mret (Ok ())
           | Owner owner =>
               r ← placePartition L bud topicName topicID p owner;
               match r with Ok _ => go | Err e => mret (Err e) end
           end
  end.

(** [AssignNewPartitions] from the point where it holds the assignment
    lock. *)
Definition AssignNewPartitions (topicName : string) (fromPartition toPartition : Z)
    : prog (result (placement_err + store_err) unit) :=
  if toPartition <=? fromPartition then mret (Ok ()) else
  ms ← ListMembers L bud;
  match ms with
  | None => mret (Err (inr Unavailable))
  | Some ms =>
      match PlacementMembers ms with
      | [] => mret match PlacementRefusal ms with Some e => Err (inl e) | None => Ok () end
      | active =>
          let active := RoundRobinMembers active in
          constraint ← parentOwnersFor topicName;
          match constraint with
          | None => mret (Err (inr Unavailable))
          | Some (parentOwners, parentPartitions) =>
              t ← GetTopic L bud topicName;
              let topicID := match t with Some (Ok t) => t_ID t | _ => "" end in
              existing ← ListAssignments L bud topicName;
              match existing with
              | None => mret (Err (inr Unavailable))
              | Some existing =>
                  r ← place_new topicName topicID active parentOwners parentPartitions
                        (list_to_set (a_Partition <$> existing)) (seqZ fromPartition (toPartition - fromPartition));
                  mret match r with Ok _ => Ok () | Err e => Err (inr e) end
              end
          end
      end
  end.

End Assign.

(** ** Properties of the choice *)

Lemma ring_in active i : active ≠ [] → ∃ m, m ∈ active ∧ ring active i = m_ID m.
Proof.
  intros Hne. unfold ring. assert (0 < Z.of_nat (length active)) by (destruct active; [done|cbn; lia]).
  pose proof (Z.mod_pos_bound i (Z.of_nat (length active)) H).
  destruct (lookup_lt_is_Some_2 active (Z.to_nat (i mod Z.of_nat (length active)))) as [m Hm]; [lia|].
  exists m. rewrite Hm. split; [by eapply list_elem_of_lookup_2|done].
Qed.

Lemma affine_loop_some active p avoid i fuel o :
  affine_loop active p avoid i fuel = Some o → o ≠ avoid ∧ ∃ j, o = ring active j.
Proof.
  revert i. induction fuel as [|fuel IH]; intros i; cbn [affine_loop]; [done|]. case_decide as Hd; [|apply IH].
  intros [= <-]. eauto.
Qed.

Lemma affine_loop_none active p avoid i fuel :
  affine_loop active p avoid i fuel = None → ∀ j, (i <= j < i + fuel)%nat → ring active (p + Z.of_nat j) = avoid.
Proof.
  revert i. induction fuel as [|fuel IH]; intros i; cbn [affine_loop]; [lia|]. case_decide as Hd; [done|].
  intros Hn j Hj. destruct (decide (j = i)) as [->|]; [|apply (IH (S i) Hn); lia].
  destruct (decide (ring active (p + Z.of_nat i) = avoid)); [done|]. by destruct Hd.
Qed.

(** Walking the ring once meets every member. *)
Lemma ring_covers active p m : m ∈ active → ∃ j, (j < length active)%nat ∧ ring active (p + Z.of_nat j) = m_ID m.
Proof.
  intros [k Hk]%list_elem_of_lookup. pose proof (lookup_lt_Some _ _ _ Hk) as Hlt. set (n := Z.of_nat (length active)).
  assert (0 < n) as Hn by (unfold n; lia). exists (Z.to_nat ((Z.of_nat k - p) mod n)).
  pose proof (Z.mod_pos_bound (Z.of_nat k - p) n Hn). split; [unfold n in *; lia|]. unfold ring. fold n.
  rewrite Z2Nat.id by lia. rewrite Z.add_mod_idemp_r by lia. replace (p + (Z.of_nat k - p)) with (Z.of_nat k) by lia.
  rewrite Z.mod_small by (unfold n; lia). by rewrite Nat2Z.id, Hk.
Qed.

(** A chosen owner is an active member, and not the one to avoid unless it
    is the only one. *)
Lemma AntiAffineOwner_spec active p avoid o :
  AntiAffineOwner active p avoid = Some o →
  (∃ m, m ∈ active ∧ o = m_ID m) ∧ (o = avoid → ∀ m, m ∈ active → m_ID m = avoid).
Proof.
  unfold AntiAffineOwner. case_decide as Hd; [done|]. assert (active ≠ []) as Hne by tauto.
  destruct (affine_loop active p avoid 0 (length active)) as [c|] eqn:E; cbn; intros [= <-].
  - destruct (affine_loop_some _ _ _ _ _ _ E) as (Hc & j & ->). split; [|done].
    destruct (ring_in active j Hne) as (m & Hm & ->). eauto.
  - split; [destruct (ring_in active p Hne) as (m & Hm & ->); eauto|]. intros _ m Hm.
    destruct (ring_covers active p m Hm) as (j & Hj & <-). apply (affine_loop_none _ _ _ _ _ E). lia.
Qed.

Lemma PlacementMembers_spec ms m : m ∈ PlacementMembers ms ↔ m ∈ ms ∧ m_Status m = MemberAlive ∧ m_Draining m = false.
Proof.
  unfold PlacementMembers. case_decide as Hd.
  - unfold AliveMembers. rewrite !list_elem_of_filter. tauto.
  - rewrite elem_of_nil. split; [done|]. intros (Hm & Ha & Hdr). destruct Hd. left. intros E.
    assert (m ∈ filter (λ m, m_Draining m = false) (AliveMembers ms)) as Hin by (unfold AliveMembers; rewrite !list_elem_of_filter; done).
    rewrite E in Hin. by apply elem_of_nil in Hin.
Qed.

Lemma ChildAwareOwner_spec active p parentOwners n o :
  0 <= p → ChildAwareOwner active p parentOwners n = Owner o →
  (∃ m, m ∈ active ∧ o = m_ID m) ∧
  (p < n → is_Some (parentOwners !! p) ∧ (parentOwners !! p = Some o → ∀ m, m ∈ active → m_ID m = o)).
Proof.
  intros Hp. unfold ChildAwareOwner. destruct ((n =? 0) || (n <=? p)) eqn:E.
  - unfold RoundRobinOwner. case_decide as Hd; [done|]. intros [= <-]. split.
    + destruct (ring_in active p) as (m & Hm & ->); [tauto|]. eauto.
    + intros Hlt. apply orb_true_iff in E as [?%Z.eqb_eq|?%Z.leb_le]; lia.
  - case_decide as Ha; [done|]. destruct (AntiAffineOwner _ _ _) as [c|] eqn:Ec; [|done]. intros [= <-].
    destruct (AntiAffineOwner_spec _ _ _ _ Ec) as [H1 H2]. split; [done|]. intros _.
    destruct (parentOwners !! p) as [a|]; [|done]. cbn in H2. split; [done|]. intros [= ->]. by apply H2.
Qed.
