(* ===== verification/Controller.v ===== *)
(** * The leader's passes

    [internal/cluster/controller]: what the Raft leader does on every tick.
    Each pass is a program over the metastore ([Store.v]): placing
    partitions without an owner ([reconcile.go]), pruning rows of no
    partition ([orphans.go]), marking silent members dead ([heartbeat.go],
    [breaker.go]), planning moves ([rebalance.go], over [Plan.v]) and
    completing decommissions ([decommission.go], [decommission_status.go]).
    Logging and metrics are left out, and a [Blocker] is its code without
    the message. *)

From S2P Require Import Prelude Decimal Keys Json Meta Versions FsmTopics FsmCluster FsmRemotes Fsm Store Placement Plan.

Record NodeStatus := MkNodeStatus {
  ns_Draining : bool;
  ns_ProduceInFlight : Z;
  ns_DispatchBacklog : Z;
  ns_QuarantinedCopies : Z;
}.

(** [NodeStatusResult]: the status, or its error: [ErrNodeStatusUnsupported]
    or another. *)
Inductive NodeStatusResult := Status (st : NodeStatus) | StatusUnsupported | StatusFailed.

(** Durations in nanoseconds.  [c_NodeStatus] asks the node at an address
    for its status; [None] when it is not configured. *)
Record Config := MkConfig {
  c_DeadTimeout : Z;
  c_MaxInFlightMoves : Z;
  c_MinVoters : Z;
  c_DeadTargetAbortAfter : Z;
  c_NodeStatus : option (string → NodeStatusResult);
}.

(** A reading of the clock: monotonic nanoseconds and Unix seconds. *)
Record clock := MkClock { k_now : Z; k_unix : Z }.

Definition DefaultMinVoters : Z := 3.
Definition DefaultMaxInFlightMoves : Z := 8.

(** [leaderTerm.since]; [None] is the zero time of passes outside a leader
    loop. *)
Definition deadFor (since : option Z) (lastHeartbeat d : Z) (now : clock) : bool :=
  if match since with Some s => k_now now - s <? d | None => false end then false
  else lastHeartbeat <? k_unix now - Z.quot d 1000000000.

(** ** Members marked dead *)

Definition id_set (ms : list Member) : gset string := list_to_set (m_ID <$> ms).

(** [alive[m.ID] = m.Status == MemberAlive]. *)
Definition alive_ids (ms : list Member) : gset string := id_set (filter (λ m, m_Status m = MemberAlive) ms).

Definition alive_after (voters : list string) (ms verdict : list Member) (leaderID : string) : list string :=
  filter (λ v, v = leaderID ∨ v ∈ alive_ids ms ∧ v ∉ id_set verdict) voters.

(** The refused and the allowed. *)
Definition splitDeadVerdict (voters : list string) (ms verdict : list Member) (leaderID : string) : list Member * list Member :=
  if decide (voters = []) then ([], verdict)
  else
    let quorum := (length voters / 2 + 1)%nat in
    if decide (quorum <= length (alive_after voters ms verdict leaderID))%nat then ([], verdict)
    else (filter (λ m, m_ID m ∈ voters) verdict, filter (λ m, m_ID m ∉ voters) verdict).

(** ** Why a decommission cannot progress *)

Inductive block_code :=
| BlockedBelowMinVoters | BlockedNoHealthyMajority | BlockedMoveTarget | BlockedDispatchBacklog
| BlockedNodeStatusUnavailable | BlockedNoReceivers | BlockedOwnerDead | BlockedMoveBudgetFull | BlockedLeaderTransfer.

#[global] Instance block_code_eq_dec : EqDecision block_code.
Proof. solve_decision. Defined.

Record Blocker := MkBlocker { b_Code : block_code; b_stall : bool }.

Definition stallReasons (c : block_code) : bool :=
  match c with
  | BlockedBelowMinVoters | BlockedNoHealthyMajority | BlockedNodeStatusUnavailable | BlockedNoReceivers | BlockedOwnerDead => true
  | _ => false
  end.

Definition needsOperator (b : Blocker) : bool := b_stall b || stallReasons (b_Code b).

Record DecommissionView := MkView {
  v_Node : Member;
  v_Members : list Member;
  v_Voters : list string;
  v_LeaderID : string;
  v_MinVoters : Z;
  v_MaxInFlightMoves : Z;
  v_Owned : Z;
  v_Outbound : Z;
  v_Inbound : Z;
  v_InboundFromDeadSource : Z;
  v_InFlight : Z;
  v_Status : option NodeStatusResult;
}.

(** The voters left when [id] goes, and those of them alive by [ms]. *)
Definition remaining_voters (voters : list string) (id : string) : list string := filter (λ v, v ≠ id) voters.
Definition healthy_voters (ms : list Member) (voters : list string) : list string := filter (λ v, v ∈ alive_ids ms) voters.

Definition CheckVoterRemoval (voters : list string) (ms : list Member) (id : string) (minVoters : Z) : option Blocker :=
  let minVoters := if minVoters <=? 0 then DefaultMinVoters else minVoters in
  if decide (id ∉ voters) then None
  else
    let remaining := remaining_voters voters id in
    if Z.of_nat (length remaining) <? minVoters then Some (MkBlocker BlockedBelowMinVoters false)
    else if (length (healthy_voters ms remaining) * 2 <=? length remaining)%nat then Some (MkBlocker BlockedNoHealthyMajority false)
    else None.

Definition ownershipBlockers (v : DecommissionView) : list Blocker :=
  if decide (m_Status (v_Node v) = MemberDead) then [MkBlocker BlockedOwnerDead false]
  else if decide (filter (λ m, m_ID m ≠ m_ID (v_Node v) ∧ m_Status m = MemberAlive ∧ m_Draining m = false) (v_Members v) = [])
  then [MkBlocker BlockedNoReceivers false]
  else
    let budget := if v_MaxInFlightMoves v <=? 0 then DefaultMaxInFlightMoves else v_MaxInFlightMoves v in
    if (v_Outbound v =? 0) && (budget <=? v_InFlight v) then [MkBlocker BlockedMoveBudgetFull false] else [].

Definition statusBlocker (v : DecommissionView) : option Blocker :=
  match v_Status v with
  | None | Some StatusUnsupported => None
  | Some StatusFailed => Some (MkBlocker BlockedNodeStatusUnavailable false)
  | Some (Status st) =>
      if negb (ns_Draining st) || (0 <? ns_ProduceInFlight st) || (0 <? ns_DispatchBacklog st)
      then Some (MkBlocker BlockedDispatchBacklog false) else None
  end.

Definition DecommissionBlockers (v : DecommissionView) : list Blocker :=
  let id := m_ID (v_Node v) in
  let out := (if 0 <? v_Owned v then ownershipBlockers v else [])
    ++ (if 0 <? v_InboundFromDeadSource v then [MkBlocker BlockedMoveTarget true]
        else if 0 <? v_Inbound v then [MkBlocker BlockedMoveTarget false] else [])
    ++ option_list (CheckVoterRemoval (v_Voters v) (v_Members v) id (v_MinVoters v)) in
  match out with
  | _ :: _ => out
  | [] =>
      if decide (id = v_LeaderID v ∧ id ∈ v_Voters v) then [MkBlocker BlockedLeaderTransfer false]
      else option_list (statusBlocker v)
  end.

Definition DecommissionPreflight (v : DecommissionView) : list Blocker :=
  option_list (CheckVoterRemoval (v_Voters v) (v_Members v) (m_ID (v_Node v)) (v_MinVoters v))
  ++ (if 0 <? v_Owned v
      then filter (λ b, b_Code b = BlockedOwnerDead ∨ b_Code b = BlockedNoReceivers) (ownershipBlockers v)
      else []).

(** [memberStatuses]. *)
Definition memberStatuses (ms : list Member) : gmap string string :=
  foldl (λ s m, <[m_ID m := m_Status m]> s) ∅ ms.

Definition sourceGone (owner : string) (status : gmap string string) : bool :=
  match status !! owner with None => true | Some st => bool_decide (st = MemberDead) end.

Record placement := MkPlacement {
  u_owned : gmap string Z;
  u_outbound : gmap string Z;
  u_inbound : gmap string Z;
  u_inFlight : list Assignment;
}.

Definition usage_row (u : placement) (a : Assignment) : placement :=
  let owned := bump (u_owned u) (a_OwnerID a) in
  if decide (a_TargetID a = "") then MkPlacement owned (u_outbound u) (u_inbound u) (u_inFlight u)
  else MkPlacement owned (bump (u_outbound u) (a_OwnerID a)) (bump (u_inbound u) (a_TargetID a)) (u_inFlight u ++ [a]).

Definition inboundFromDeadSource (inFlight : list Assignment) (node : string) (status : gmap string string) : Z :=
  Z.of_nat (length (filter (λ a, a_TargetID a = node ∧ sourceGone (a_OwnerID a) status = true) inFlight)).

(** The order of removal: dead members first, then by ID. *)
Definition drain_le (a b : Member) : Prop :=
  if decide (m_Status a = MemberDead) then m_Status b ≠ MemberDead ∨ id_le a b
  else m_Status b ≠ MemberDead ∧ id_le a b.

#[global] Instance drain_le_dec a b : Decision (drain_le a b).
Proof. unfold drain_le. destruct (decide (m_Status a = MemberDead)); apply _. Defined.

Definition drainingMembers (ms : list Member) : list Member := merge_sort drain_le (filter (λ m, m_Draining m = true) ms).

(** [strings.TrimSpace(s) == ""]: nothing but white space, in UTF-8. *)
Definition of_bytes (l : list nat) : string := foldr (λ n s, String (Ascii.ascii_of_nat n) s) "" l.

Definition white_space : list string :=
  of_bytes <$> [[9]; [10]; [11]; [12]; [13]; [32]; [194; 133]; [194; 160]; [225; 154; 128]; [226; 128; 168]; [226; 128; 169];
                [226; 128; 175]; [226; 129; 159]; [227; 128; 128]]%nat
              ++ ((λ n, [226; 128; n]%nat) <$> seq 128 11).

Fixpoint blank_from (fuel : nat) (s : string) : bool :=
  match fuel with
  | O => bool_decide (s = "")
  | S fuel =>
      if decide (s = "") then true
      else match omap (λ sp, cut_prefix sp s) white_space with s' :: _ => blank_from fuel s' | [] => false end
  end.

Definition blank (s : string) : bool := blank_from (String.length s) s.

Section Passes.
Context (L : lib) (bud : schemaBudgets) (cfg : Config).

Definition applyBreaker (ms verdict : list Member) : prog (list Member) :=
  if decide (verdict = []) then mret [] else
  voters ← Voters L bud;
  match voters with
  | None => mret []
  | Some voters =>
      leaderID ← LeaderID L bud;
      let '(refused, allowed) := splitDeadVerdict voters ms verdict leaderID in
      mret (if decide (refused = []) then verdict else allowed)
  end.

Definition dead_verdict (since : option Z) (now : clock) (ms : list Member) : list Member :=
  filter (λ m, m_Status m ≠ MemberDead ∧ deadFor since (m_LastHeartbeat m) (c_DeadTimeout cfg) now = true) ms.

(** [barrierOK]: a barrier has succeeded in this term already. *)
Definition checkHeartbeats (since : option Z) (barrierOK : bool) (now : clock) : prog unit :=
  leads ← IsLeader L bud; _ ← require leads;
  ok ← (if barrierOK then mret true else Barrier L bud); _ ← require ok;
  ms ← or_stop (ListMembers L bud);
  marks ← applyBreaker ms (dead_verdict since now ms);
  each marks (λ m, _ ← MarkMemberDeadObserved L bud (m_ID m) (m_LastHeartbeat m); mret ()).

(** ** Unassigned partitions *)

(** The loop of [assignTopic]; a placement that fails is left to the next
    tick. *)
Fixpoint assign_loop (t : Topic) (active : list Member) (parentOwners : gmap Z string) (parentPartitions : Z)
    (assigned : gset Z) (partitions : list Z) : prog unit :=
  match partitions with
  | [] => mret ()
  | p :: rest =>
      let go := assign_loop t active parentOwners parentPartitions assigned rest in
      if decide (p ∈ assigned) then go
      else match ChildAwareOwner active p parentOwners parentPartitions with
           | Deferred => go
           | NoOwner => mret ()
           | Owner owner => _ ← placePartition L bud (t_Name t) (t_ID t) p owner; go
           end
  end.

(** What a child's placement has to avoid; [None]: not this tick. *)
Definition parent_constraint (t : Topic) : prog (option (gmap Z string * Z)) :=
  if decide (t_Parent t = "") then mret (Some (∅, 0)) else
  rows ← ListAssignments L bud (t_Parent t);
  match rows with
  | None => mret None
  | Some rows =>
      parent ← GetTopic L bud (t_Parent t);
      mret match parent with
           | Some (Ok parent) => Some (owners_map rows, t_Partitions parent)
           | Some (Err ErrNotFound) => Some (owners_map rows, 0)
           | _ => None
           end
  end.

Definition assignTopic (listed : Topic) (active : list Member) : prog unit :=
  if decide (active = []) then mret () else
  t ← GetTopic L bud (t_Name listed);
  match t with
  | Some (Ok t) =>
      if decide (t_ID t ≠ t_ID listed) then mret () else
      constraint ← parent_constraint t;
      match constraint with
      | None => mret ()
      | Some (parentOwners, parentPartitions) =>
          existing ← ListAssignments L bud (t_Name t);
          match existing with
          | None => mret ()
          | Some existing =>
              assign_loop t active parentOwners parentPartitions (list_to_set (a_Partition <$> existing))
                (seqZ 0 (t_Partitions t))
          end
      end
  | _ => mret ()
  end.

(** [sort.SliceStable] by "has no parent": the two kinds, each in order. *)
Definition parents_first (ts : list Topic) : list Topic :=
  filter (λ t, t_Parent t = "") ts ++ filter (λ t, t_Parent t ≠ "") ts.

Definition reconcileAssignments : prog unit :=
  leads ← IsLeader L bud; _ ← require leads;
  ok ← Barrier L bud; _ ← require ok;
  ms ← or_stop (ListMembers L bud);
  let active := PlacementMembers ms in
  _ ← require (bool_decide (active ≠ []));
  ts ← or_stop (ListTopics L bud);
  each (parents_first ts) (λ t, assignTopic t (RoundRobinMembers active)).

(** ** Orphan rows *)

Fixpoint prune_loop (usable : bool) (orphans : list Assignment) : prog unit :=
  match orphans with
  | [] => mret ()
  | a :: rest =>
      if usable then
        r ← PruneAssignment L bud (a_Topic a) (a_Partition a);
        prune_loop match r with Err NotYetUsable => false | _ => true end rest
      else prune_loop false rest
  end.

Definition pruneOrphanAssignments : prog unit :=
  leads ← IsLeader L bud; _ ← require leads;
  ok ← Barrier L bud; _ ← require ok;
  orphans ← or_stop (OrphanAssignments L bud);
  prune_loop true orphans.

(** ** Rebalancing *)

Record plan_view := MkPlanView {
  pv_load : gmap string Z;
  pv_movable : gmap string (list PartitionRef);
  pv_parentOwners : gmap string (gmap Z string);
  pv_byName : gmap string Topic;
  pv_inFlight : list Assignment;
}.

(** One row: in flight, it counts at a live target; settled, at a live
    owner, where it may move. *)
Definition plan_row (aliveSet : gset string) (topicName : string) (v : plan_view) (a : Assignment) : plan_view :=
  let '(MkPlanView load movable owners byName inFlight) := v in
  if decide (a_TargetID a ≠ "") then
    MkPlanView (if decide (a_TargetID a ∈ aliveSet) then bump load (a_TargetID a) else load) movable owners byName (inFlight ++ [a])
  else if decide (a_OwnerID a ∈ aliveSet) then
    MkPlanView (bump load (a_OwnerID a))
      (<[a_OwnerID a := parts_of movable (a_OwnerID a) ++ [MkRef topicName (a_Partition a)]]> movable) owners byName inFlight
  else v.

Definition plan_topic (aliveSet : gset string) (v : plan_view) (t : Topic) (rows : list Assignment) : plan_view :=
  let '(MkPlanView load movable owners byName inFlight) := foldl (plan_row aliveSet (t_Name t)) v rows in
  MkPlanView load movable (<[t_Name t := owners_map rows]> owners) (<[t_Name t := t]> byName) inFlight.

Definition buildPlanInput (ts : list Topic) (receivers : list string) (aliveSet : gset string) : prog plan_view :=
  fold_each ts (λ v t, rows ← or_stop (ListAssignments L bud (t_Name t)); mret (plan_topic aliveSet v t rows))
    (MkPlanView (list_to_map ((λ r, (r, 0)) <$> receivers)) ∅ ∅ ∅ []).

Definition antiAffinityAvoid (byName : gmap string Topic) (parentOwners : gmap string (gmap Z string)) (m : RebalanceMove) : bool :=
  match byName !! pr_Topic (mv_Partition m) with
  | None => false
  | Some t =>
      if decide (t_Parent t = "") then false
      else match parentOwners !! t_Parent t with
           | None => false
           | Some owners => bool_decide (default "" (owners !! pr_Partition (mv_Partition m)) = mv_To m)
           end
  end.

Definition moveKey (a : Assignment) : string := a_Topic a +:+ "/" +:+ itoa (a_Partition a) +:+ "->" +:+ a_TargetID a.

Definition find_member (ms : list Member) (id : string) : option Member := last (filter (λ m, m_ID m = id) ms).

(** Whether a move's target cannot complete it. *)
Definition target_gone (since : option Z) (now : clock) (ms : list Member) (inRaft : option (list string)) (a : Assignment) : bool :=
  match find_member ms (a_TargetID a) with
  | None => true
  | Some m =>
      (bool_decide (m_Status m = MemberDead) && deadFor since (m_LastHeartbeat m) (c_DeadTargetAbortAfter cfg) now)
      || match inRaft with
         | Some servers => bool_decide (a_TargetID a ∉ servers) && (bool_decide (m_Status m = MemberDead) || m_Draining m)
         | None => false (* unknown *)
         end
  end.

(** [inRaft]; no server at all is the nil slice, which reads as unknown. *)
Definition raft_servers : prog (option (list string)) :=
  voters ← Voters L bud;
  match voters with
  | None => mret None
  | Some voters =>
      nonvoters ← Nonvoters L bud;
      mret match nonvoters with
           | None => None
           | Some nonvoters => if decide (voters ++ nonvoters = []) then None else Some (voters ++ nonvoters)
           end
  end.

Definition abortDeadTargetMoves (since : option Z) (now : clock) (inFlight : list Assignment) (ms : list Member) : prog (gset string) :=
  if decide (inFlight = []) then mret ∅ else
  inRaft ← raft_servers;
  fold_each inFlight (λ aborted a,
    if target_gone since now ms inRaft a then
      r ← SetAssignmentTarget L bud (a_Topic a) (a_Partition a) "";
      mret match r with Ok _ => {[moveKey a]} ∪ aborted | Err _ => aborted end
    else mret aborted) ∅.

(** The loop that records the plan, up to the budget. *)
Fixpoint set_targets (moves : list RebalanceMove) (budget : Z) : prog unit :=
  match moves with
  | [] => mret ()
  | m :: moves =>
      if budget <=? 0 then mret () else
      r ← SetAssignmentTarget L bud (pr_Topic (mv_Partition m)) (pr_Partition (mv_Partition m)) (mv_To m);
      set_targets moves match r with Ok _ => budget - 1 | Err _ => budget end
  end.

Definition reconcileRebalance (since : option Z) (now : clock) : prog unit :=
  leads ← IsLeader L bud; _ ← require (leads && (0 <? c_MaxInFlightMoves cfg));
  ok ← Barrier L bud; _ ← require ok;
  ms ← or_stop (ListMembers L bud);
  let alive := AliveMembers ms in
  let receivers := m_ID <$> filter (λ m, m_Draining m = false) alive in
  _ ← require (bool_decide (receivers ≠ []));
  ts ← or_stop (ListTopics L bud);
  v ← buildPlanInput ts receivers (id_set alive);
  aborted ← abortDeadTargetMoves since now (pv_inFlight v) ms;
  let budget := c_MaxInFlightMoves cfg - (Z.of_nat (length (pv_inFlight v)) - Z.of_nat (size aborted)) in
  _ ← require (0 <? budget);
  set_targets (PlanRebalance (MkInput (pv_load v) (pv_movable v) receivers
                                (Some (antiAffinityAvoid (pv_byName v) (pv_parentOwners v))))) budget.

(** ** Decommissioning *)

Definition placementUsage : prog placement :=
  ts ← or_stop (ListTopics L bud);
  fold_each ts (λ u t, rows ← or_stop (ListAssignments L bud (t_Name t)); mret (foldl usage_row u rows))
    (MkPlacement ∅ ∅ ∅ []).

Definition abortMovesTo (inFlight : list Assignment) (targets : gset string) (status : gmap string string) : prog Z :=
  fold_each inFlight (λ cleared a,
    if decide (a_TargetID a ∉ targets) then mret cleared
    else if sourceGone (a_OwnerID a) status then mret cleared
    else
      r ← AbortMove L bud (a_Topic a) (a_Partition a) (a_TargetID a);
      mret match r with Ok _ => cleared + 1 | Err _ => cleared end) 0.

(** The nodes are asked at the same time; the answers do not depend on each
    other. *)
Definition drainingStatuses (draining : list Member) : prog (gmap string NodeStatusResult) :=
  match c_NodeStatus cfg with
  | None => mret ∅
  | Some NodeStatus =>
      leaderID ← LeaderID L bud;
      mret (foldl (λ out m,
        if decide (m_ID m = leaderID) then out
        else <[m_ID m := if blank (m_Addr m) then StatusFailed else NodeStatus (m_Addr m)]> out) ∅ draining)
  end.

(** [RemoveServer] for a voter or a non-voter, then the member record. *)
Definition removeDrainedNode (now : clock) (id : string) (ms : list Member) : prog unit :=
  voters ← or_stop (Voters L bud);
  _ ← (if decide (id ∈ voters) then
         _ ← require (bool_decide (CheckVoterRemoval voters ms id (c_MinVoters cfg) = None));
         leaderID ← LeaderID L bud;
         if decide (leaderID = id) then _ ← TransferLeadership L bud; stop
         else removed ← RemoveServer L bud id voters; require removed
       else
         nonvoters ← or_stop (Nonvoters L bud);
         if decide (id ∈ nonvoters) then removed ← RemoveServer L bud id voters; require removed else mret ());
  _ ← RemoveMember L bud id (k_unix now);
  mret ().

(** One draining member of the pass. *)
Definition decommission_node (now : clock) (ms : list Member) (statuses : gmap string NodeStatusResult)
    (usage : placement) (m : Member) : prog unit :=
  voters ← or_stop (Voters L bud);
  leaderID ← LeaderID L bud;
  let nodeStatus :=
    match statuses !! m_ID m with
    | Some r => Some r
    | None => if decide (c_NodeStatus cfg ≠ None ∧ m_ID m ≠ leaderID) then Some StatusFailed else None
    end in
  let bs := DecommissionBlockers
    (MkView m ms voters leaderID (c_MinVoters cfg) (c_MaxInFlightMoves cfg)
       (count_of (u_owned usage) (m_ID m)) (count_of (u_outbound usage) (m_ID m)) (count_of (u_inbound usage) (m_ID m))
       (inboundFromDeadSource (u_inFlight usage) (m_ID m) (memberStatuses ms)) (Z.of_nat (length (u_inFlight usage))) nodeStatus) in
  match bs with
  | b :: _ => if decide (b_Code b = BlockedLeaderTransfer) then TransferLeadership L bud else mret ()
  | [] =>
      if 0 <? count_of (u_owned usage) (m_ID m) then mret ()
      else _ ← attempt (removeDrainedNode now (m_ID m) ms); mret ()
  end.

(** What runs under the assignment lock. *)
Definition decommission_locked (now : clock) (ms : list Member) (statuses : gmap string NodeStatusResult) : prog unit :=
  let draining := drainingMembers ms in
  usage ← placementUsage;
  cleared ← abortMovesTo (u_inFlight usage) (id_set draining) (memberStatuses ms);
  usage ← (if 0 <? cleared then placementUsage else mret usage);
  each draining (decommission_node now ms statuses usage).

Definition reconcileDecommission (now : clock) : prog unit :=
  leads ← IsLeader L bud; _ ← require leads;
  ok ← Barrier L bud; _ ← require ok;
  ms ← or_stop (ListMembers L bud);
  let draining := drainingMembers ms in
  if decide (draining = []) then mret () else
  statuses ← drainingStatuses draining;
  decommission_locked now ms statuses.

(** ** The members view *)

Record view_counts := MkCounts { vc_usage : placement; vc_fromDead : gmap string Z }.

Definition view_row (status : gmap string string) (v : view_counts) (a : Assignment) : view_counts :=
  MkCounts (usage_row (vc_usage v) a)
    (if decide (a_TargetID a ≠ "" ∧ sourceGone (a_OwnerID a) status = true) then bump (vc_fromDead v) (a_TargetID a) else vc_fromDead v).

Definition DecommissionViews : prog (gmap string DecommissionView) :=
  ms ← or_stop (ListMembers L bud);
  voters ← or_stop (Voters L bud);
  ts ← or_stop (ListTopics L bud);
  v ← fold_each ts (λ v t, rows ← or_stop (ListAssignments L bud (t_Name t)); mret (foldl (view_row (memberStatuses ms)) v rows))
        (MkCounts (MkPlacement ∅ ∅ ∅ []) ∅);
  leaderID ← LeaderID L bud;
  let u := vc_usage v in
  mret (foldl (λ views m, <[m_ID m :=
    MkView m ms voters leaderID DefaultMinVoters DefaultMaxInFlightMoves
      (count_of (u_owned u) (m_ID m)) (count_of (u_outbound u) (m_ID m)) (count_of (u_inbound u) (m_ID m))
      (count_of (vc_fromDead v) (m_ID m)) (Z.of_nat (length (u_inFlight u))) None]> views) ∅ ms).

End Passes.
