(* ===== verification/Decommission.v ===== *)
(** * Decommissioning is safe

    A node leaves only once no assignment row of a topic names it, and leaving it keeps
    a healthy Raft majority; other commands commit around every step of the
    pass. *)

From S2P Require Import Prelude Decimal Keys Json Meta Versions FsmTopics FsmCluster FsmRemotes Fsm FanInv SchemaInv MetaInv History.
From S2P Require Import Store Placement Plan Controller.

(** ** Rows that name a node *)

Definition names (id : string) (a : Assignment) : Prop := a_OwnerID a = id ∨ a_TargetID a = id.

(** What others do while the assignment lock is held: nothing is placed on
    the node and no move is aimed at it. *)
Definition keeps_off (id : string) (c : command) : Prop :=
  match c with
  | OpAssignPartition a => ¬ names id a
  | OpAssignPartitionIfAbsent _ _ owner _ => owner ≠ id
  | OpSetAssignmentTarget _ _ target => target ≠ id
  | _ => True
  end.

(** A row of [b0] that names the node and belongs to no topic there. *)
Definition orphaned (b0 : buckets) (id k : string) (a : Assignment) : Prop :=
  topics b0 !! a_Topic a = None ∧ ∃ a0, assignments b0 !! k = Some a0 ∧ names id a0.

(** The rows naming the node belong to topics among [ns], or were orphans
    in [b0]. *)
Definition within (b0 : buckets) (id : string) (ns : list string) (b : buckets) : Prop :=
  ∀ k a, assignments b !! k = Some a → names id a → a_Topic a ∈ ns ∨ orphaned b0 id k a.

Definition on_record (b0 : buckets) (id : string) (b : buckets) : Prop :=
  ∀ k a, assignments b !! k = Some a → names id a → is_Some (topics b !! a_Topic a) ∨ orphaned b0 id k a.

Section Fades.
Context (L : lib) (bud : schemaBudgets) (b0 : buckets) (id : string) (id_given : id ≠ "").

Lemma put_fades b t p x y k a' :
  meta_ok b → readAssignment b t p = Ok x → a_Topic y = a_Topic x → a_Partition y = a_Partition x → (names id y → names id x) →
  assignments (putAssignment y b) !! k = Some a' → names id a' → ∃ a, assignments b !! k = Some a ∧ names id a.
Proof.
  intros Hm Hr Et Ep Hn Hk Ha. simpl in Hk. apply lookup_insert_Some in Hk as [[<- <-]|[_ Hk]]; [|eauto].
  pose proof (read_assignment b t p x Hm Hr) as (_ & Hkey & _). unfold readAssignment in Hr.
  destruct (assignments b !! assignmentKey t p) as [x0|] eqn:E; [|done]. injection Hr as ->.
  exists x. rewrite Et, Ep, <-Hkey. auto.
Qed.

Lemma row_fades b c k a' :
  meta_ok b → keeps_off id c → assignments (commit L bud b c) !! k = Some a' → names id a' →
  ∃ a, assignments b !! k = Some a ∧ names id a.
Proof.
  intros Hm Hoff Hk Ha. unfold commit in Hk. destruct (refused_early c); [eauto|].
  destruct (dispatch L bud c b) as [[[b' bs] ans]|] eqn:H; [|eauto]. destruct (writes_rows c) eqn:Hw; cycle 1.
  { exists a'. split; [|done]. eapply lookup_weaken; [exact Hk|]. by eapply dispatch_removed. }
  destruct c; try done; cbn [dispatch] in H; apply plain_ok in H as [H _]; simpl in Hoff.
  - unfold applyAssignPartition in H. inv_ok H. simpl in Hk. apply lookup_insert_Some in Hk as [[_ <-]|[_ Hk]]; [done|eauto].
  - unfold applySetAssignmentTarget in H. inv_ok H; [eauto|]. refine (put_fades _ _ _ _ _ _ _ Hm E _ _ _ Hk Ha); [done..|]. unfold names. simpl. naive_solver.
  - unfold applyCompleteMove in H. inv_ok H; [eauto|]. pose proof n1 as Et%dec_stable.
    refine (put_fades _ _ _ _ _ _ _ Hm E _ _ _ Hk Ha); [done..|]. unfold names. simpl. naive_solver.
  - unfold applyAbortMove in H. inv_ok H; [eauto|]. refine (put_fades _ _ _ _ _ _ _ Hm E _ _ _ Hk Ha); [done..|]. unfold names. simpl. naive_solver.
  - unfold applyAssignPartitionIfAbsent in H. inv_ok H. simpl in Hk. apply lookup_insert_Some in Hk as [[_ <-]|[_ Hk]]; [|eauto].
    unfold names in Ha. simpl in Ha. naive_solver.
Qed.

Lemma topic_stays b c n :
  is_Some (topics b !! n) → is_Some (topics (commit L bud b c) !! n)
  ∨ ∀ k, has_prefix (row_prefix n) k = true → assignments (commit L bud b c) !! k = None.
Proof.
  intros Hn. unfold commit. destruct (refused_early c); [auto|].
  destruct (dispatch L bud c b) as [[[b' bs] ans]|] eqn:H; [|auto]. destruct (writes_rows c) eqn:Hw; cycle 1.
  { apply dispatch_removed in H as [_ H]; [|done]. auto. }
  left. destruct c; try done; cbn [dispatch] in H; apply plain_ok in H as [H _].
  - unfold applyAssignPartition in H. by inv_ok H.
  - unfold applySetAssignmentTarget in H. by inv_ok H.
  - unfold applyCompleteMove in H. by inv_ok H.
  - unfold applyAbortMove in H. by inv_ok H.
  - unfold applyAssignPartitionIfAbsent in H. by inv_ok H.
Qed.

Definition settled_db (b : buckets) : Prop := meta_ok b ∧ on_record b0 id b.
Definition off_cmd (c : command) : Prop := command_ok c ∧ keeps_off id c.

Lemma commit_meta b c : meta_ok b → command_ok c → meta_ok (commit L bud b c).
Proof.
  intros Hm Hc. unfold commit. destruct (refused_early c); [done|].
  destruct (dispatch L bud c b) as [[[b' bs] ans]|] eqn:H; [|done]. by eapply dispatch_meta.
Qed.

(** A row keeps its key, so its topic. *)
Lemma same_topic b b' k a a' :
  meta_ok b → meta_ok b' → assignments b !! k = Some a → assignments b' !! k = Some a' → a_Topic a = a_Topic a'.
Proof.
  intros Hm Hm' Ha Ha'. apply (co_assign _ (mo_core _ Hm)) in Ha as (-> & Hc & Hp).
  apply (co_assign _ (mo_core _ Hm')) in Ha' as (Hk & Hc' & Hp'). by eapply assignmentKey_topic.
Qed.

Lemma within_stable ns : stable L bud settled_db off_cmd (within b0 id ns).
Proof.
  intros b c [Hm _] [Hc Hoff] Hw k a' Hk Ha. destruct (row_fades b c k a' Hm Hoff Hk Ha) as (a & Hk0 & Ha0).
  unfold orphaned. rewrite <-(same_topic b _ k a a' Hm (commit_meta b c Hm Hc) Hk0 Hk). by eapply Hw.
Qed.

Lemma settled_stable b c : settled_db b → off_cmd c → settled_db (commit L bud b c).
Proof.
  intros [Hm Hr] [Hc Hoff]. pose proof (commit_meta b c Hm Hc) as Hm'. split; [done|]. intros k a' Hk Ha.
  destruct (row_fades b c k a' Hm Hoff Hk Ha) as (a & Hk0 & Ha0).
  unfold orphaned. destruct (Hr k a Hk0 Ha0) as [Hin|Ho]; [left|right; by rewrite <-(same_topic b _ k a a' Hm Hm' Hk0 Hk)].
  destruct (topic_stays b c (a_Topic a) Hin) as [Hs|Hs]; rewrite (same_topic b _ k a a' Hm Hm' Hk0 Hk) in Hs; [done|].
  apply (co_assign _ (mo_core _ Hm')) in Hk as Hkey. destruct Hkey as (-> & Hcol & _).
  rewrite Hs in Hk; [done|]. apply has_prefix_true. by eexists.
Qed.

End Fades.

(** ** What the usage counts *)

Definition unseen (id : string) (u : placement) : Prop := count_of (u_owned u) id = 0 ∧ count_of (u_inbound u) id = 0.
Definition counted (id : string) (u : placement) : Prop := 0 <= count_of (u_owned u) id ∧ 0 <= count_of (u_inbound u) id.

Lemma count_bump m n id : count_of (bump m n) id = count_of m id + (if decide (n = id) then 1 else 0).
Proof.
  unfold count_of, bump. destruct (decide (n = id)) as [->|Hne].
  - by rewrite lookup_insert_eq.
  - rewrite lookup_insert_ne by done. lia.
Qed.

Lemma usage_row_counts id u a : id ≠ "" → counted id u →
  counted id (usage_row u a) ∧ (unseen id (usage_row u a) → unseen id u ∧ ¬ names id a).
Proof.
  intros Hid [H1 H2]. unfold usage_row, counted, unseen, names.
  destruct (decide (a_TargetID a = "")) as [Et|Et]; cbn [u_owned u_inbound]; rewrite ?count_bump; repeat case_decide; naive_solver lia.
Qed.

Lemma usage_rows_counts id u rows : id ≠ "" → counted id u →
  counted id (foldl usage_row u rows) ∧ (unseen id (foldl usage_row u rows) → unseen id u ∧ ∀ a, a ∈ rows → ¬ names id a).
Proof.
  intros Hid. revert u. induction rows as [|a rows IH]; intros u Hu.
  { split; [done|]. intros Hs. split; [done|]. by intros a ?%elem_of_nil. }
  destruct (usage_row_counts id u a Hid Hu) as [Hu' Hs']. destruct (IH _ Hu') as [Hc Hs]. split; [done|].
  intros [H1 H2]%Hs. apply Hs' in H1 as [? ?]. split; [done|]. intros a' [->|?]%elem_of_cons; auto.
Qed.

Lemma no_blockers v : DecommissionBlockers v = [] →
  v_Inbound v <= 0 ∧ CheckVoterRemoval (v_Voters v) (v_Members v) (m_ID (v_Node v)) (v_MinVoters v) = None
  ∧ statusBlocker v = None.
Proof.
  unfold DecommissionBlockers. destruct (_ ++ _ ++ _) as [|x l] eqn:E; [|by intros [=]].
  apply app_eq_nil in E as [_ [Ei Ev]%app_eq_nil]. intros H. split; [|split].
  - destruct (0 <? v_InboundFromDeadSource v); [done|]. destruct (0 <? v_Inbound v) eqn:Hz; [done|]. lia.
  - by destruct (CheckVoterRemoval _ _ _ _).
  - case_decide; [done|]. by destruct (statusBlocker v).
Qed.

Section Clears.
Context (L : lib) (bud : schemaBudgets) (cfg : Config) (b0 : buckets) (id : string) (id_given : id ≠ "").

Definition clears_event (e : event) : Prop :=
  match e with Proposed (OpRemoveMember i _) b => i = id → within b0 id [] b | _ => True end.

Notation sound := (settled_db b0 id).
Notation ok_cmd := (off_cmd id).
Notation ok := (good sound ok_cmd (λ _, True) clears_event).
Notation with_ := (holds sound ok_cmd (λ _, True) clears_event).
Notation stays := (stable L bud sound ok_cmd).

Lemma stays_and P F : stays F → stays (λ b, P ∧ F b).
Proof. intros HF b c Hs Hc [? ?]. split; [done|]. by apply HF. Qed.

Lemma stays_impl (P : Prop) F : stays F → stays (λ b, P → F b).
Proof. intros HF b c Hs Hc H HP. by apply HF; auto. Qed.

Lemma stays_true : stays (λ _, True).
Proof. done. Qed.

(** Part way through a read, [ns] to go: unless it has counted the node, the
    rows naming it are among those. *)
Definition reading (ns : list string) (u : placement) (b : buckets) : Prop := counted id u ∧ (unseen id u → within b0 id ns b).

Lemma reading_stays ns u : stays (reading ns u).
Proof. apply stays_and, stays_impl. by apply within_stable. Qed.

Lemma read_topic t ns u b :
  meta_ok b → no_colon t → reading (t :: ns) u b → reading ns (foldl usage_row u (list_assignments t b)) b.
Proof.
  intros Hm Ht [Hc Hw]. destruct (usage_rows_counts id u (list_assignments t b) id_given Hc) as [Hc' Hs]. split; [done|].
  intros [Hu Hn]%Hs k a Hk Ha. destruct (decide (a_Topic a = t)) as [<-|Hne]; cycle 1.
  { destruct (Hw Hu k a Hk Ha) as [Hin|?]; [left; set_solver|by right]. }
  exfalso. apply (Hn a); [|done]. unfold list_assignments, rows_of. apply list_elem_of_fmap. exists (k, a). split; [done|].
  apply elem_of_in_key_order, map_lookup_filter_Some. split; [done|]. simpl.
  apply (co_assign _ (mo_core _ Hm)) in Hk as (-> & _). apply has_prefix_true. by eexists.
Qed.

Lemma placementUsage_clear F : stays F →
  triple ok (with_ F) (placementUsage L bud) (λ u, with_ (λ b, F b ∧ reading [] u b)).
Proof.
  intros HF. eapply triple_bind; [eapply triple_exit; [apply (triple_list L bud); [by apply settled_stable|exact HF]|apply holds_good]|]. intros ts.
  eapply (triple_conseq _ (λ w, Forall (λ t, no_colon (t_Name t)) ts ∧ with_ (λ b, F b ∧ reading (t_Name <$> ts) (MkPlacement ∅ ∅ ∅ []) b) w)).
  - eapply (triple_fold_each (λ ts u w, Forall (λ t, no_colon (t_Name t)) ts ∧ with_ (λ b, F b ∧ reading (t_Name <$> ts) u b) w)).
    intros t l u w [[Ht Hl]%Forall_cons Hw]. revert w Hw.
    eapply triple_bind; [eapply triple_exit; [apply (triple_list L bud)|apply holds_good]|].
    + by apply settled_stable.
    + intros b c Hs Hc [? ?]. split; [by apply HF|by apply (reading_stays (t_Name <$> t :: l) u)].
    + intros rows w [[Hg [HFb Hr]] ->]. split; [done|]. split; [done|]. split; [done|]. apply read_topic; [|done|done]. apply Hg.
  - intros w [[Hg HFb] ->]. destruct (gd_db _ _ _ _ _ Hg) as [Hm Hr]. split.
    + apply Forall_forall. intros t (p & -> & Hp)%list_elem_of_fmap. destruct p as [n t]. apply elem_of_in_key_order in Hp. simpl.
      rewrite (core_name _ _ _ (mo_core _ Hm) Hp). eapply core_no_colon; [apply Hm|by rewrite Hp].
    + split; [done|]. split; [done|]. split; [split; done|]. intros _ k a Hk Ha.
      destruct (Hr k a Hk Ha) as [[t Ht]|?]; [left|by right]. apply list_elem_of_fmap. exists t.
      split; [by rewrite (core_name _ _ _ (mo_core _ Hm) Ht)|]. apply list_elem_of_fmap. exists (a_Topic a, t).
      split; [done|]. by apply elem_of_in_key_order.
  - intros u w [_ Hw]. done.
Qed.

Notation keep_it F := (keeps sound ok_cmd (λ _, True) clears_event F).

Lemma sound_stays b c : sound b → ok_cmd c → sound (commit L bud b c).
Proof. by apply settled_stable. Qed.
Hint Resolve sound_stays : core.

Lemma abortMovesTo_keeps F inFlight targets status : stays F → keep_it F (abortMovesTo L bud inFlight targets status).
Proof.
  intros HF. pose proof sound_stays. unfold abortMovesTo, AbortMove. keep. apply keeps_propose; [done..|by split|done].
Qed.

Lemma removeDrainedNode_keeps F now i ms : stays F → (∀ b, F b → i = id → within b0 id [] b) →
  keep_it F (removeDrainedNode L bud cfg now i ms).
Proof.
  intros HF Hclear. pose proof sound_stays. unfold removeDrainedNode, RemoveMember. keep.
  all: try by apply keeps_note.
  apply keeps_propose; [done..|by split|]. intros b _ Hb Hi. by apply Hclear.
Qed.

Lemma decommission_node_keeps now ms statuses u m :
  keep_it (reading [] u) (decommission_node L bud cfg now ms statuses u m).
Proof.
  pose proof sound_stays. pose proof (reading_stays [] u). unfold decommission_node. keep.
  all: try by apply keeps_note.
  all: eapply removeDrainedNode_keeps; [done|]; intros b [[Hc1 Hc2] Hclear] Hi; apply Hclear; split; rewrite <-Hi in *; [lia|].
  all: match goal with H : DecommissionBlockers _ = [] |- _ => apply no_blockers in H as [Hin _] end; simpl in Hin; lia.
Qed.

Lemma locked_clears now ms statuses : triple ok (with_ (λ _, True)) (decommission_locked L bud cfg now ms statuses) (λ _, ok).
Proof.
  pose proof sound_stays. eapply triple_bind; [by apply placementUsage_clear|]. intros u. cbn beta.
  eapply (triple_conseq _ (with_ (reading [] u)) _ _ (λ _, ok)); [|intros w [? [_ ?]]; by split|done].
  eapply triple_bind; [apply (keeps_triple _ _ _ _ _ _ (λ _, with_ (reading [] u))); [apply abortMovesTo_keeps, reading_stays|done]|].
  intros cleared. eapply (triple_bind _ _ _ (λ u, with_ (reading [] u))).
  - destruct (0 <? cleared); [|by apply triple_ret].
    eapply triple_conseq; [by apply (placementUsage_clear (λ _, True))|intros w [? _]; by split|]. intros v w [? [_ ?]]; by split.
  - intros v. apply keeps_triple; [|intros ? w; apply holds_good]. apply keeps_each. intros m _. apply decommission_node_keeps.
Qed.

End Clears.

(** C23. A node is removed from the member table only when nothing is left on
    it: while the assignment lock keeps others from placing on it or aiming
    moves at it, the decommission pass, on a database that satisfies the
    metadata invariant, proposes its removal only in a database where no
    assignment row names it, as owner or as the target of a move, except a
    row that named it at the start of the pass already and belonged to no
    topic then (an orphan, which the pass does not read).  This holds
    whatever else with a payload its proposer has checked ([command_ok])
    commits between the steps of the pass: moves to and from
    the node being completed, topics being created and deleted, and calls of
    the pass that fail and commit all the same included. *)
Theorem decommission_clears L bud cfg now ms statuses id w r w' at_ b :
  id ≠ "" → meta_ok (w_db w) → w_log w = [] →
  Forall (λ cl, Forall (λ c, command_ok c ∧ keeps_off id c) (cl_others cl)) (w_calls w) →
  decommission_locked L bud cfg now ms statuses w = (r, w') → Proposed (OpRemoveMember id at_) b ∈ w_log w' →
  ∀ k a, assignments b !! k = Some a → a_OwnerID a = id ∨ a_TargetID a = id →
    topics (w_db w) !! a_Topic a = None ∧ ∃ a0, assignments (w_db w) !! k = Some a0 ∧ (a_OwnerID a0 = id ∨ a_TargetID a0 = id).
Proof.
  intros Hid Hm Hlog Hcalls Hrun Hin k a Hk Hn.
  assert (on_record (w_db w) id (w_db w)) as Hr.
  { intros k' a' Hk' Ha'. destruct (topics (w_db w) !! a_Topic a') as [t|] eqn:E; [by left|right]. split; [done|by exists a']. }
  assert (good (settled_db (w_db w) id) (off_cmd id) (λ _, True) (clears_event (w_db w) id) w') as Hg.
  { pose proof (locked_clears L bud cfg (w_db w) id Hid now ms statuses w) as H. rewrite Hrun in H.
    destruct r; apply H; (split; [|done]); (split; [done| |by rewrite Hlog]); eapply Forall_impl; [exact Hcalls|done|exact Hcalls|done]. }
  apply gd_log in Hg. eapply Forall_forall in Hg; [|exact Hin]. destruct (Hg eq_refl k a Hk Hn) as [?%elem_of_nil|?]; done.
Qed.

(** ** Leaving Raft *)

Definition min_voters (cfg : Config) : Z := if c_MinVoters cfg <=? 0 then DefaultMinVoters else c_MinVoters cfg.

(** The voters left are enough, and more than half of them are alive. *)
Definition quorum_kept (cfg : Config) (ms : list Member) (voters : list string) (id : string) : Prop :=
  let rest := remaining_voters voters id in
  min_voters cfg <= Z.of_nat (length rest) ∧ (length rest < 2 * length (healthy_voters ms rest))%nat.

(** The node said that it refuses produce, answers none, and has handed
    every record on; or its release cannot say. *)
Definition handed_on (r : NodeStatusResult) : Prop :=
  match r with
  | Status st => ns_Draining st = true ∧ ns_ProduceInFlight st <= 0 ∧ ns_DispatchBacklog st <= 0
  | StatusUnsupported => True
  | StatusFailed => False
  end.

Lemma voter_removal_kept cfg voters ms id :
  CheckVoterRemoval voters ms id (c_MinVoters cfg) = None → id ∈ voters → quorum_kept cfg ms voters id.
Proof.
  intros H Hin. unfold CheckVoterRemoval in H. rewrite decide_False in H by tauto. cbv zeta in H. fold (min_voters cfg) in H.
  destruct (Z.of_nat _ <? _) eqn:E1; [done|]. destruct (_ <=? _)%nat eqn:E2; [done|].
  apply Nat.leb_gt in E2. split; lia.
Qed.

Lemma statuses_read (ask : string → NodeStatusResult) leader draining (st0 : gmap string NodeStatusResult) id r :
  foldl (λ out m, if decide (m_ID m = leader) then out
                  else <[m_ID m := if blank (m_Addr m) then StatusFailed else ask (m_Addr m)]> out) st0 draining !! id = Some r →
  st0 !! id = Some r ∨ ∃ m, m ∈ draining ∧ m_ID m = id ∧ (r = StatusFailed ∨ r = ask (m_Addr m)).
Proof.
  revert st0. induction draining as [|m draining IH]; intros st0; [by left|]. simpl. intros [H|(m' & ? & ?)]%IH; [|right; set_solver].
  case_decide; [by left|]. apply lookup_insert_Some in H as [[Hid H]|[_ H]]; [right|by left].
  exists m. split; [left|]. split; [done|]. destruct (blank _); auto.
Qed.

Section Leaves.
Context (L : lib) (bud : schemaBudgets) (cfg : Config) (ms : list Member) (id : string) (follower : Prop).

(** A node that answered, for a member the pass read as draining. *)
Definition answered : Prop :=
  ∀ ask, c_NodeStatus cfg = Some ask → ∃ m, m ∈ ms ∧ m_ID m = id ∧ m_Draining m = true ∧ handed_on (ask (m_Addr m)).

Definition leaves_event (e : event) : Prop :=
  match e with
  | ServerRemoved i voters => i = id → (id ∈ voters → quorum_kept cfg ms voters id) ∧ (follower → answered)
  | _ => True
  end.

Definition not_leading (cl : call) : Prop := follower → cl_leader cl ≠ id.

Notation keep_it := (keeps (λ _, True) (λ _, True) not_leading leaves_event (λ _, True)).

(** What the statuses the pass works with say of the node. *)
Definition statuses_ok (statuses : gmap string NodeStatusResult) : Prop :=
  (c_NodeStatus cfg = None → statuses = ∅)
  ∧ ∀ ask r, c_NodeStatus cfg = Some ask → statuses !! id = Some r →
      ∃ m, m ∈ ms ∧ m_ID m = id ∧ m_Draining m = true ∧ (r = StatusFailed ∨ r = ask (m_Addr m)).

Lemma all_stable F : (∀ b, F b) → stable L bud (λ _, True) (λ _, True) F.
Proof. by intros H b c _ _ _. Qed.

Lemma draining_member m : m ∈ drainingMembers ms → m ∈ ms ∧ m_Draining m = true.
Proof. unfold drainingMembers. rewrite merge_sort_Permutation, list_elem_of_filter. tauto. Qed.

Lemma drainingStatuses_ok :
  triple (holds (λ _, True) (λ _, True) not_leading leaves_event (λ _, True))
         (holds (λ _, True) (λ _, True) not_leading leaves_event (λ _, True)) (drainingStatuses L bud cfg (drainingMembers ms))
         (λ st w, holds (λ _, True) (λ _, True) not_leading leaves_event (λ _, True) w ∧ statuses_ok st).
Proof.
  unfold drainingStatuses. destruct (c_NodeStatus cfg) as [ask|] eqn:E.
  - eapply triple_bind; [by apply (triple_ask L bud)|]. intros leader. apply triple_ret. intros w [Hw _]. split; [done|].
    split; [by rewrite E|]. intros ask' r Ha Hr. rewrite E in Ha. injection Ha as <-.
    apply statuses_read in Hr as [Hr|(m & [? ?]%draining_member & Hid & Hr)]; [done|eauto 6].
  - apply triple_ret. intros w Hw. split; [done|]. split; [done|]. by rewrite E.
Qed.

Lemma remove_leaves now i : (i = id → follower → answered) → keep_it (removeDrainedNode L bud cfg now i ms).
Proof.
  intros Ha. assert (stable L bud (λ _, True) (λ _, True) (λ _, True)) by done.
  unfold removeDrainedNode, RemoveMember. keep.
  - apply keeps_note. done.
  - apply keeps_note. intros ->. split; [|auto].
    intros Hin. apply voter_removal_kept; [by eapply bool_decide_eq_true|done].
  - apply keeps_note. intros ->. split; [done|auto].
  - by apply keeps_propose.
Qed.

Lemma status_clear v r : statusBlocker v = None → v_Status v = Some r → handed_on r.
Proof.
  unfold statusBlocker. intros H Hv. rewrite Hv in H. destruct r; simpl; [|done|done].
  destruct (ns_Draining st); simpl in *; [|done]. destruct (_ || _) eqn:E; [done|]. apply orb_false_iff in E. lia.
Qed.

Lemma node_leaves now statuses u m : statuses_ok statuses → keep_it (decommission_node L bud cfg now ms statuses u m).
Proof.
  intros [Hn Hs]. assert (stable L bud (λ _, True) (λ _, True) (λ _, True)) by done.
  unfold decommission_node.
  keep_step; [keep|]. unfold LeaderID. apply keeps_ask; [done..|]. intros cl Hcl. cbv zeta.
  match goal with |- context [DecommissionBlockers ?x] => set (v := x) end.
  destruct (DecommissionBlockers v) eqn:E; [|keep; by apply keeps_note]. apply no_blockers in E as (_ & _ & Est).
  keep. apply remove_leaves. intros Hi Hf ask Hask.
  destruct (statuses !! id) as [r|] eqn:Er.
  - destruct (Hs ask r Hask eq_refl) as (m' & ? & ? & ? & Hr). apply (status_clear _ r) in Est; [|unfold v; simpl; by rewrite Hi, Er].
    exists m'. split_and!; try done. destruct Hr as [-> | ->]; done.
  - apply (status_clear _ StatusFailed) in Est; [done|]. unfold v. simpl. rewrite Hi, Er, decide_True; [done|].
    split; [by rewrite Hask|]. intros Hl. by apply Hcl.
Qed.

Lemma locked_leaves now statuses : statuses_ok statuses → keep_it (decommission_locked L bud cfg now ms statuses).
Proof.
  intros Hs. assert (stable L bud (λ _, True) (λ _, True) (λ _, True)) by done.
  unfold decommission_locked, placementUsage, abortMovesTo, AbortMove. keep. all: try by apply keeps_propose.
  by apply node_leaves.
Qed.

End Leaves.

(** C27. A node is taken out of the Raft configuration only safely.  When the
    pass removes a voter, at least [MinVoters] voters remain and more than
    half of those that remain are alive by the member table the pass read;
    and a node that no call of the pass reports as the leader has itself
    answered that it refuses client produce, is answering none, and has an
    empty dispatch backlog (or runs a release that cannot report it). *)
Theorem decommission_keeps_quorum L bud cfg now b0 c1 c2 c3 calls r w' id voters :
  let ms := list_members (foldl (commit L bud) b0 (cl_others c1 ++ cl_others c2 ++ cl_others c3)) in
  reconcileDecommission L bud cfg now (World b0 (c1 :: c2 :: c3 :: calls) []) = (r, w') → ServerRemoved id voters ∈ w_log w' →
  (id ∈ voters → quorum_kept cfg ms voters id) ∧ (Forall (λ cl, cl_leader cl ≠ id) calls → answered cfg ms id).
Proof.
  cbv zeta. intros Hrun Hin. set (ms := list_members _). set (follower := Forall (λ cl, cl_leader cl ≠ id) calls).
  assert (Forall (leaves_event cfg ms id follower) (w_log w')) as Hev; [|by eapply Forall_forall in Hev; [|exact Hin]; apply Hev].
  assert (stable L bud (λ _, True) (λ _, True) (λ _, True)) by done.
  unfold reconcileDecommission, IsLeader, Barrier, ListMembers, view, or_stop, mbind, prog_bind, next, mret, prog_ret in Hrun. simpl in Hrun.
  destruct (cl_ok c1); simpl in Hrun; [|by injection Hrun as <- <-]. destruct (cl_ok c2); simpl in Hrun; [|by injection Hrun as <- <-].
  destruct (cl_ok c3); simpl in Hrun; [|by injection Hrun as <- <-]. rewrite <-!foldl_app in Hrun. fold ms in Hrun.
  case_decide; [by injection Hrun as <- <-|].
  pose proof (keeps_bind_with (λ _, True) (λ _, True) (not_leading id follower) (leaves_event cfg ms id follower) (λ _, True)
    (statuses_ok cfg ms id) _ (decommission_locked L bud cfg now ms) (drainingStatuses_ok L bud cfg ms id follower)
    (locked_leaves L bud cfg ms id follower now)) as Hk.
  match goal with _ : context [drainingStatuses _ _ _ _ ?w] |- _ => specialize (Hk w) end.
  unfold mbind, prog_bind in Hk. rewrite Hrun in Hk.
  assert (good (λ _, True) (λ _, True) (not_leading id follower) (leaves_event cfg ms id follower) w') as Hg; [|apply Hg].
  destruct r; apply Hk; (split; [|done]); (split; [done| |done]); apply Forall_forall; intros cl Hcl; split; [|by apply Forall_true| |by apply Forall_true];
    intros Hf; by eapply Forall_forall in Hf.
Qed.
