(* ===== verification/Heartbeats.v ===== *)
(** * Members are marked dead within a quorum

    The heartbeat pass marks only members whose heartbeats expired, and the
    voters it marks leave a quorum of voters alive. *)

From S2P Require Import Prelude Decimal Keys Json Meta Versions FsmTopics FsmCluster FsmRemotes Fsm.
From S2P Require Import Store Placement Plan Controller.

Definition mark_of (e : event) : option string :=
  match e with Proposed (OpMarkMemberDeadIf id _) _ | Proposed (OpMemberDead id) _ => Some id | _ => None end.

Definition marked (log : list event) : list string := omap mark_of log.

(** The voters that count as alive once the members of [D] are marked. *)
Definition voters_alive (ms : list Member) (leader : string) (D : list string) (voters : list string) : list string :=
  filter (λ v, v = leader ∨ v ∈ alive_ids ms ∧ v ∉ D) voters.

Lemma filter_length_mono {A} (P Q : A → Prop) `{∀ x, Decision (P x), ∀ x, Decision (Q x)} l :
  (∀ x, P x → Q x) → (length (filter P l) <= length (filter Q l))%nat.
Proof.
  intros HPQ. induction l as [|x l IH]; [done|]. rewrite !filter_cons. repeat case_decide; simpl; try lia. naive_solver.
Qed.

(** The marks [applyBreaker] lets through. *)
Lemma breaker_split voters ms verdict leader refused allowed D :
  splitDeadVerdict voters ms verdict leader = (refused, allowed) →
  D ⊆ m_ID <$> (if decide (refused = []) then verdict else allowed) → (∃ v, v ∈ voters ∧ v ∈ D) →
  (length voters / 2 + 1 <= length (voters_alive ms leader D voters))%nat.
Proof.
  intros H HD (v & Hv & HvD). unfold splitDeadVerdict in H. destruct (decide (voters = [])) as [->|_]; [by apply elem_of_nil in Hv|].
  destruct (decide (_ <= _)%nat) as [Hq|Hq].
  - injection H as <- <-. rewrite decide_True in HD by done. etrans; [exact Hq|]. apply filter_length_mono.
    intros x [->|[Ha Hx]]; [by left|right]. split; [done|]. intros Hd. apply Hx. unfold id_set. apply elem_of_list_to_set. by apply HD.
  - exfalso. injection H as <- <-. apply HD in HvD. apply list_elem_of_fmap in HvD as (m & -> & Hm). case_decide as Er.
    + assert (m ∈ filter (λ m, m_ID m ∈ voters) verdict) as Hr by (by apply list_elem_of_filter).
      rewrite Er in Hr. by apply elem_of_nil in Hr.
    + by apply list_elem_of_filter in Hm as [? _].
Qed.

Section Marks.
Context (L : lib) (bud : schemaBudgets) (ids : list string).

Definition marks_event (e : event) : Prop := ∀ id, mark_of e = Some id → id ∈ ids.

Notation any := (λ _, True).
Notation keep_it := (keeps any any any marks_event any).

Lemma mark_one m : m_ID m ∈ ids → keep_it (_ ← MarkMemberDeadObserved L bud (m_ID m) (m_LastHeartbeat m); mret ()).
Proof.
  intros Hm. assert (stable L bud any any any) by done. unfold MarkMemberDeadObserved. keep.
  - apply keeps_propose_if_usable; try done. intros b _ _ id [= <-]. done.
  - apply keeps_propose; try done. intros b _ _ id [= <-]. done.
Qed.

Lemma marked_in log : Forall marks_event log → marked log ⊆ ids.
Proof. intros H id (e & He & Hid)%list_elem_of_omap. by eapply Forall_forall in H; [apply H|]. Qed.

Lemma mark_all marks b calls r w' : (m_ID <$> marks) ⊆ ids →
  each marks (λ m, _ ← MarkMemberDeadObserved L bud (m_ID m) (m_LastHeartbeat m); mret ()) (World b calls []) = (r, w') →
  marked (w_log w') ⊆ ids.
Proof.
  intros Hids Hrun.
  assert (keep_it (each marks (λ m, _ ← MarkMemberDeadObserved L bud (m_ID m) (m_LastHeartbeat m); mret ()))) as Hk.
  { apply keeps_each. intros m Hm. apply mark_one, Hids, list_elem_of_fmap. eauto. }
  specialize (Hk (World b calls [])). rewrite Hrun in Hk. apply marked_in.
  assert (holds any any any marks_event any (World b calls [])) as H0.
  { split; [|done]. split; [done| |by constructor]. apply Forall_forall. intros cl _. split; [done|]. by apply Forall_true. }
  destruct r; by apply Hk in H0 as [[_ _ ?] _].
Qed.

End Marks.

Definition mark_member (L : lib) (bud : schemaBudgets) (m : Member) : prog unit :=
  _ ← MarkMemberDeadObserved L bud (m_ID m) (m_LastHeartbeat m); mret ().

(** The pass up to its verdict: it returns without a mark, or it judges the
    members it read. *)
Lemma heartbeats_read L bud cfg since (barrierOK : bool) now b0 c1 cb c2 calls r w' :
  let first := c1 :: (if barrierOK then [] else [cb]) ++ [c2] in
  let ms := list_members (foldl (commit L bud) b0 (concat (cl_others <$> first))) in
  checkHeartbeats L bud cfg since barrierOK now (World b0 (first ++ calls) []) = (r, w') →
  w_log w' = [] ∨ ∃ b, (applyBreaker L bud ms (dead_verdict cfg since now ms) ≫= λ marks, each marks (mark_member L bud))
                         (World b calls []) = (r, w').
Proof.
  cbv zeta. set (ms := list_members _). intros Hrun.
  unfold checkHeartbeats, IsLeader, Barrier, ListMembers, view, or_stop in Hrun. cbv [mbind prog_bind mret prog_ret] in Hrun.
  unfold next in Hrun. simpl in Hrun. destruct (cl_ok c1); simpl in Hrun; [|left; by injection Hrun as <- <-].
  destruct barrierOK; simpl in Hrun; [|destruct (cl_ok cb); simpl in Hrun; [|left; by injection Hrun as <- <-]];
    (destruct (cl_ok c2); simpl in Hrun; [right|left; by injection Hrun as <- <-]);
    match type of Hrun with context [list_members ?x] => replace (list_members x) with ms in Hrun
      by (unfold ms; simpl; by rewrite ?app_nil_r, ?foldl_app) end; by eexists.
Qed.

Lemma allowed_verdict voters ms verdict leader refused allowed m :
  splitDeadVerdict voters ms verdict leader = (refused, allowed) →
  m ∈ (if decide (refused = []) then verdict else allowed) → m ∈ verdict.
Proof.
  unfold splitDeadVerdict. intros H. repeat case_decide; try done; injection H as <- <-; try done.
  by intros [_ ?]%list_elem_of_filter.
Qed.

(** C28. The dead-marking breaker holds.  Whatever other commands commit
    meanwhile, a heartbeat pass marks only members that its table shows not
    dead and whose heartbeat expired on this leader's clock; if a member it
    marks is a voter, then the voters still counted alive, the leader among
    them, are a quorum; and without the Raft configuration it marks nobody. *)
Theorem dead_marks_keep_quorum L bud cfg since (barrierOK : bool) now b0 c1 cb c2 c3 c4 calls r w' :
  let first := c1 :: (if barrierOK then [] else [cb]) ++ [c2] in
  let ms := list_members (foldl (commit L bud) b0 (concat (cl_others <$> first))) in
  let D := marked (w_log w') in
  checkHeartbeats L bud cfg since barrierOK now (World b0 (first ++ c3 :: c4 :: calls) []) = (r, w') →
  (∀ id, id ∈ D → ∃ m, m ∈ ms ∧ m_ID m = id ∧ m_Status m ≠ MemberDead
     ∧ deadFor since (m_LastHeartbeat m) (c_DeadTimeout cfg) now = true)
  ∧ match cl_voters c3 with
    | None => D = []
    | Some voters => (∃ v, v ∈ voters ∧ v ∈ D) → (length voters / 2 + 1 <= length (voters_alive ms (cl_leader c4) D voters))%nat
    end.
Proof.
  cbv zeta. set (ms := list_members _). set (D := marked (w_log w')). set (verdict := dead_verdict cfg since now ms).
  assert (D = [] → (∀ id, id ∈ D → ∃ m, m ∈ ms ∧ m_ID m = id ∧ m_Status m ≠ MemberDead
     ∧ deadFor since (m_LastHeartbeat m) (c_DeadTimeout cfg) now = true) ∧ match cl_voters c3 with None => D = []
    | Some voters => (∃ v, v ∈ voters ∧ v ∈ D) → (length voters / 2 + 1 <= length (voters_alive ms (cl_leader c4) D voters))%nat
    end) as Hnone.
  { intros ->. split; [by intros id ?%elem_of_nil|]. destruct (cl_voters c3); [|done]. by intros (v & _ & ?%elem_of_nil). }
  intros [Hlog|[b Hb]]%heartbeats_read; [apply Hnone; unfold D; by rewrite Hlog|]. fold ms verdict in Hb.
  unfold applyBreaker, Voters, LeaderID in Hb. case_decide; [apply Hnone; unfold D; by injection Hb as <- <-|].
  cbv [mbind prog_bind mret prog_ret] in Hb. unfold next in Hb. simpl in Hb.
  destruct (cl_voters c3) as [voters|]; simpl in Hb; [|apply Hnone; unfold D; by injection Hb as <- <-]. clear Hnone.
  destruct (splitDeadVerdict voters ms verdict (cl_leader c4)) as [refused allowed] eqn:Es. simpl in Hb.
  apply (mark_all L bud (m_ID <$> (if decide (refused = []) then verdict else allowed))) in Hb; [|done]. fold D in Hb.
  split; [|intros HD; by eapply breaker_split].
  intros id (m & -> & Hm)%Hb%list_elem_of_fmap. apply (allowed_verdict _ _ _ _ _ _ _ Es) in Hm.
  apply list_elem_of_filter in Hm as [[? ?] ?]. eauto.
Qed.
