(* ===== verification/Sweep.v ===== *)
(** * The sweep gives every partition an owner

    One undisturbed pass of [reconcileAssignments]: with a member that can
    take partitions, every partition of every topic has an owner after it,
    and no owner it found was changed. *)

From S2P Require Import Prelude Decimal Keys Json Meta Versions FsmTopics FsmCluster FsmRemotes Fsm FanInv SchemaInv MetaInv.
From S2P Require Import Store Placement Plan Controller.

(** ** Undisturbed programs *)

(** Nothing commits before the call, and it succeeds. *)
Definition quiet (cl : call) : Prop := cl_others cl = [] ∧ cl_ok cl = true.

(** With [n] quiet calls the program completes, in [Q]. *)
Definition completes {A} (p : prog A) (b : buckets) (n : nat) (Q : A → buckets → Prop) : Prop :=
  ∀ calls log, Forall quiet calls → (n <= length calls)%nat →
  ∃ a b' m log', p (World b calls log) = (Some a, World b' (drop m calls) log') ∧ (m <= n)%nat ∧ Q a b'.

Lemma completes_ret {A} (a : A) b (Q : A → buckets → Prop) : Q a b → completes (mret a) b 0 Q.
Proof. intros HQ calls log _ _. exists a, b, 0%nat, log. done. Qed.

Lemma completes_bind {A B} (p : prog A) (f : A → prog B) b n m (M : A → buckets → Prop) Q :
  completes p b n M → (∀ a b', M a b' → completes (f a) b' m Q) → completes (p ≫= f) b (n + m) Q.
Proof.
  intros Hp Hf calls log Hq Hn. destruct (Hp calls log Hq) as (a & b1 & i & log1 & Hr & Hi & HM); [lia|].
  destruct (Hf a b1 HM (drop i calls) log1) as (c & b2 & j & log2 & Hr' & Hj & HQ); [by apply Forall_drop|rewrite length_drop; lia|].
  exists c, b2, (i + j)%nat, log2. unfold mbind, prog_bind. rewrite Hr, Hr', drop_drop. split; [done|]. split; [lia|done].
Qed.

Lemma completes_weaken {A} (p : prog A) b n m Q (Q' : A → buckets → Prop) :
  completes p b n Q → (n <= m)%nat → (∀ a b', Q a b' → Q' a b') → completes p b m Q'.
Proof.
  intros Hp Hnm HQ calls log Hq Hm. destruct (Hp calls log Hq) as (a & b1 & i & log1 & Hr & Hi & H); [lia|].
  exists a, b1, i, log1. split; [done|]. split; [lia|auto].
Qed.

Lemma completes_or_stop {A} (p : prog (option A)) b n Q :
  completes p b n (λ r b', ∃ a, r = Some a ∧ Q a b') → completes (or_stop p) b n Q.
Proof.
  intros Hp. rewrite <-(Nat.add_0_r n). eapply completes_bind; [exact Hp|]. intros r b' (a & -> & HQ). by apply completes_ret.
Qed.

Lemma completes_require b c (Q : unit → buckets → Prop) : c = true → Q () b → completes (require c) b 0 Q.
Proof. intros -> HQ. by apply completes_ret. Qed.

Lemma completes_each {A} (f : A → prog unit) (cost : A → nat) (I : list A → buckets → Prop) l b :
  (∀ x l b, I (x :: l) b → completes (f x) b (cost x) (λ _ b', I l b')) → I l b →
  completes (each l f) b (sum_list_with cost l) (λ _ b', I [] b').
Proof.
  intros Hf. revert b. induction l as [|x l IH]; intros b Hb; [by apply completes_ret|].
  simpl. eapply completes_bind; [by apply Hf|]. intros [] b' Hb'. by apply IH.
Qed.

Section Quietly.
Context (L : lib) (bud : schemaBudgets).

Lemma completes_view {A} (f : buckets → A) b (Q : option A → buckets → Prop) : Q (Some (f b)) b → completes (view L bud f) b 1 Q.
Proof.
  intros HQ calls log Hq Hn. destruct calls as [|cl calls]; [simpl in Hn; lia|]. apply Forall_cons in Hq as [[Ho Hok] _].
  exists (Some (f b)), b, 1%nat, log. unfold view, mbind, prog_bind, next. simpl. rewrite Ho, Hok, drop_0. done.
Qed.

Lemma completes_list {A} (f : buckets → A) b (Q : A → buckets → Prop) : Q (f b) b → completes (or_stop (view L bud f)) b 1 Q.
Proof. intros HQ. apply completes_or_stop, completes_view. eauto. Qed.

Lemma completes_leads b (Q : bool → buckets → Prop) : Q true b → completes (IsLeader L bud) b 1 Q ∧ completes (Barrier L bud) b 1 Q.
Proof.
  intros HQ. split; intros calls log Hq Hn; (destruct calls as [|cl calls]; [simpl in Hn; lia|]);
    apply Forall_cons in Hq as [[Ho Hok] _]; exists true, b, 1%nat, log;
    unfold IsLeader, Barrier, mbind, prog_bind, next; simpl; rewrite Ho, Hok, drop_0; done.
Qed.

(** Both ways to place a free partition end in the same row. *)
Lemma completes_place t p owner b topic :
  topics b !! t = Some topic → 0 <= p < t_Partitions topic → owner ≠ "" → removed_members b !! owner = None →
  assignments b !! assignmentKey t p = None →
  completes (placePartition L bud t (t_ID topic) p owner) b 2 (λ _ b', b' = putAssignment (MkAssignment t p owner "") b).
Proof.
  intros Ht Hp Ho Hrem Hfree.
  set (b' := putAssignment (MkAssignment t p owner "") b).
  assert (dispatch L bud (OpAssignPartitionIfAbsent t p owner (t_ID topic)) b = Ok (b', [BAssignment t], None)) as Hif.
  { cbn [dispatch]. unfold applyAssignPartitionIfAbsent, getTopicRecord, expectIncarnation, memberTombstoned. rewrite Ht. cbn [rbind].
    rewrite decide_True by done. cbn [rbind]. destruct ((p <? 0) || _) eqn:E; [lia|]. rewrite decide_False by done.
    rewrite Hrem. rewrite bool_decide_false by (by intros []). by rewrite Hfree. }
  intros calls log Hq Hn. destruct calls as [|cl [|cl2 calls]]; [simpl in Hn; lia..|].
  apply Forall_cons in Hq as [[Ho1 Hok1] [[Ho2 Hok2] _]%Forall_cons].
  unfold placePartition, AssignPartitionIfAbsent, AssignPartition, propose_if_usable, propose, submit, note, database, apply_cmd, mbind, prog_bind, mret, prog_ret.
  unfold next. cbn [w_calls w_db w_log]. rewrite Ho1. cbn [foldl]. destruct (cl_usable cl); [rewrite Hok1; cbn [w_calls w_db w_log]|].
  - unfold commit, answer. cbn [refused_early]. rewrite !Hif.
    exists (Ok ()), b', 1%nat. eexists. split; [done|]. split; [lia|done].
  - simpl. rewrite Ho2, Hok2. simpl. exists (Ok ()), b', 2%nat. eexists. split; [done|]. split; [lia|done].
Qed.

End Quietly.

(** ** What a sweep adds *)

(** A row the sweep may add: on an active member, for a partition on record,
    and for a child off the owner of the parent's partition if any other
    member is active. *)
Definition placed (active : list Member) (b : buckets) (a : Assignment) : Prop :=
  a_TargetID a = "" ∧ (∃ m, m ∈ active ∧ a_OwnerID a = m_ID m)
  ∧ ∃ t, topics b !! a_Topic a = Some t ∧ 0 <= a_Partition a < t_Partitions t
    ∧ ∀ tp, t_Parent t ≠ "" → topics b !! t_Parent t = Some tp → a_Partition a < t_Partitions tp →
        ∃ pa, assignments b !! assignmentKey (t_Parent t) (a_Partition a) = Some pa
          ∧ (a_OwnerID pa = a_OwnerID a → ∀ m, m ∈ active → m_ID m = a_OwnerID a).

Record grown (active : list Member) (b b' : buckets) : Prop := {
  gr_meta : meta_ok b';
  gr_topics : topics b' = topics b;
  gr_removed : removed_members b' = removed_members b;
  gr_rows : assignments b ⊆ assignments b';
  gr_new : ∀ k a, assignments b' !! k = Some a → assignments b !! k = Some a ∨ placed active b' a;
}.

Definition has_owner (b : buckets) (n : string) (p : Z) : Prop := is_Some (assignments b !! assignmentKey n p).

Lemma has_owner_grown active b b' n p : grown active b b' → has_owner b n p → has_owner b' n p.
Proof. intros Hg [a Ha]. exists a. by eapply lookup_weaken; [|apply Hg]. Qed.

Lemma placed_mono active b b' a : topics b' = topics b → assignments b ⊆ assignments b' → placed active b a → placed active b' a.
Proof.
  intros Ht Hr (H1 & H2 & t & H3 & H4 & H5). split; [done|]. split; [done|]. rewrite Ht. exists t. split; [done|]. split; [done|].
  intros tp Hp Htp Hlt. destruct (H5 tp Hp Htp Hlt) as (pa & ? & ?). exists pa. split; [by eapply lookup_weaken|done].
Qed.

Lemma grown_refl active b : meta_ok b → grown active b b.
Proof. intros Hm. split; auto. Qed.

Lemma grown_trans active b1 b2 b3 : grown active b1 b2 → grown active b2 b3 → grown active b1 b3.
Proof.
  intros [M1 T1 R1 A1 N1] [M2 T2 R2 A2 N2]. split; [done|congruence|congruence|by etrans|].
  intros k a [H|H]%N2; [|by right]. apply N1 in H as [?|H]; [by left|right]. by eapply placed_mono.
Qed.

Lemma key_inj n p p' : no_colon n → in_i64 p → in_i64 p' → assignmentKey n p = assignmentKey n p' → p = p'.
Proof. intros Hn Hp Hp' H. by apply (schemaKey_inj n n p p') in H as [_ ?]. Qed.

Lemma list_assignments_in b n a : meta_ok b → no_colon n →
  a ∈ list_assignments n b ↔ a_Topic a = n ∧ assignments b !! assignmentKey n (a_Partition a) = Some a.
Proof.
  intros Hm Hn. unfold list_assignments, rows_of. rewrite list_elem_of_fmap. split.
  - intros ([k a'] & -> & [Hk Hp]%elem_of_in_key_order%map_lookup_filter_Some). simpl in *.
    pose proof (co_assign _ (mo_core _ Hm) k a' Hk) as (-> & Hc & _).
    assert (n = a_Topic a') as -> by (by apply (has_prefix_key n (a_Topic a') (a_Partition a'))). done.
  - intros [<- Hk]. eexists (_, a). split; [done|]. apply elem_of_in_key_order, map_lookup_filter_Some. split; [exact Hk|].
    apply has_prefix_true. by eexists.
Qed.

Lemma assigned_spec b n p : meta_ok b → no_colon n → in_i64 p →
  p ∈ (list_to_set (a_Partition <$> list_assignments n b) : gset Z) ↔ has_owner b n p.
Proof.
  intros Hm Hn Hp. rewrite elem_of_list_to_set, list_elem_of_fmap. split.
  - intros (a & -> & [_ Ha]%list_assignments_in); [by eexists|done|done].
  - intros [a Ha]. pose proof (co_assign _ (mo_core _ Hm) _ _ Ha) as (Hk & Hc & Hp').
    assert (n = a_Topic a) as -> by (by eapply assignmentKey_topic). apply key_inj in Hk as ->; [|done..].
    exists a. split; [done|]. by apply list_assignments_in.
Qed.

Lemma owners_map_spec rows (m0 : gmap Z string) p o :
  foldl (λ m a, <[a_Partition a := a_OwnerID a]> m) m0 rows !! p = Some o →
  m0 !! p = Some o ∨ ∃ a, a ∈ rows ∧ a_Partition a = p ∧ a_OwnerID a = o.
Proof.
  revert m0. induction rows as [|a rows IH]; intros m0; [by left|]. simpl. intros [H|(a' & ? & ?)]%IH; [|right; set_solver].
  apply lookup_insert_Some in H as [[<- <-]|[_ H]]; [right|by left]. exists a. split; [left|done].
Qed.

Lemma owners_map_full rows (m0 : gmap Z string) p :
  (∃ a, a ∈ rows ∧ a_Partition a = p) ∨ is_Some (m0 !! p) →
  is_Some (foldl (λ m a, <[a_Partition a := a_OwnerID a]> m) m0 rows !! p).
Proof.
  revert m0. induction rows as [|a rows IH]; intros m0; [by intros [(a & ?%elem_of_nil & _)|?]|]. simpl. intros H. apply IH.
  destruct H as [(a' & [->|H]%elem_of_cons & Hp)|H].
  - right. rewrite Hp, lookup_insert_eq. done.
  - left. eauto.
  - right. rewrite lookup_insert_is_Some'. by right.
Qed.

Section Sweep.
Context (L : lib) (bud : schemaBudgets) (active : list Member).

(** The members the sweep places on can take partitions. *)
Definition usable (b : buckets) : Prop := ∀ m, m ∈ active → m_ID m ≠ "" ∧ removed_members b !! m_ID m = None.

(** The sweep knows the owners of the parent's partitions. *)
Definition informed (t : Topic) (po : gmap Z string) (pp : Z) (b : buckets) : Prop :=
  ∀ tp p, t_Parent t ≠ "" → topics b !! t_Parent t = Some tp → p < t_Partitions tp →
    pp = t_Partitions tp ∧ ∀ o, po !! p = Some o → ∃ pa, assignments b !! assignmentKey (t_Parent t) p = Some pa ∧ a_OwnerID pa = o.

Lemma informed_grown t po pp b b' : grown active b b' → informed t po pp b → informed t po pp b'.
Proof.
  intros Hg Hi tp p Hp Htp Hlt. rewrite (gr_topics _ _ _ Hg) in Htp. destruct (Hi tp p Hp Htp Hlt) as [-> Ho]. split; [done|].
  intros o (pa & Hpa & Hown)%Ho. exists pa. split; [by eapply lookup_weaken; [|apply Hg]|done].
Qed.

Lemma place_grown b n t po pp p o :
  meta_ok b → topics b !! n = Some t → in_i64 (t_Partitions t) → 0 <= p < t_Partitions t → informed t po pp b →
  ChildAwareOwner active p po pp = Owner o → assignments b !! assignmentKey n p = None →
  grown active b (putAssignment (MkAssignment n p o "") b).
Proof.
  intros Hm Ht Hfit Hp Hi Ho Hfree. destruct (ChildAwareOwner_spec active p po pp o) as [(m & Hin & ->) Haff]; [lia|done|].
  assert (assignments b ⊆ assignments (putAssignment (MkAssignment n p (m_ID m) "") b)) as Hsub by (by apply insert_subseteq).
  split; [| done | done | exact Hsub |].
  - apply put_assignment_meta; [done| |simpl; unfold in_i64 in *; lia]. by eapply topic_no_colon; [apply (mo_core _ Hm)|].
  - intros k a H. simpl in H. apply lookup_insert_Some in H as [[<- <-]|[_ Hk]]; [right|by left]. split; [done|]. split; [eauto|]. exists t. split; [done|]. split; [done|].
    simpl. intros tp Hpar Htp Hlt. destruct (Hi tp p Hpar Htp Hlt) as [-> Hpo]. destruct (Haff Hlt) as [[o' Ho'] Hav].
    destruct (Hpo o' Ho') as (pa & Hpa & Hown). exists pa. split; [by eapply lookup_weaken|].
    intros Heq m' Hm'. apply Hav; [|done]. congruence.
Qed.

Lemma assign_loop_completes n t po pp assigned ps b :
  meta_ok b → usable b → topics b !! n = Some t → in_i64 (t_Partitions t) → informed t po pp b → NoDup ps →
  (∀ p, p ∈ ps → 0 <= p < t_Partitions t) → (∀ p, p ∈ ps → p ∈ assigned ↔ has_owner b n p) →
  (∀ p, p ∈ ps → ∃ o, ChildAwareOwner active p po pp = Owner o) →
  completes (assign_loop L bud t active po pp assigned ps) b (2 * length ps)
    (λ _ b', grown active b b' ∧ ∀ p, p ∈ ps → has_owner b' n p).
Proof.
  intros Hm Hu Ht Hfit Hi Hnd Hr Ha Ho. assert (t_Name t = n) as Hn by (by eapply core_name; [apply Hm|]).
  assert (no_colon n) as Hcol by (by eapply topic_no_colon; [apply (mo_core _ Hm)|]).
  revert b Hm Hu Ht Hi Ha. induction Hnd as [|p ps Hp Hnd IH]; intros b Hm Hu Ht Hi Ha.
  { apply completes_ret. split; [by apply grown_refl|]. by intros p ?%elem_of_nil. }
  cbn [assign_loop]. case_decide as Hd.
  - eapply completes_weaken; [apply (IH ltac:(set_solver) ltac:(set_solver) b); try done; set_solver|simpl; lia|].
    intros [] b' [Hg Hf]. split; [done|]. intros q [->|?]%elem_of_cons; [|auto]. eapply has_owner_grown; [done|]. apply Ha; [left|done].
  - destruct (Ho p) as [o Hch]; [left|]. rewrite Hch.
    assert (assignments b !! assignmentKey n p = None) as Hfree.
    { apply eq_None_not_Some. intros Hs. apply Hd, Ha; [left|done]. }
    destruct (ChildAwareOwner_spec active p po pp o) as [(m & Hin & Ho') _]; [by apply Hr; left|done|].
    replace (2 * length (p :: ps))%nat with (2 + 2 * length ps)%nat by (simpl; lia). rewrite Hn.
    eapply completes_bind; [apply completes_place; [exact Ht|apply Hr; left|subst o; by apply Hu..|exact Hfree]|].
    intros r b1 ->. set (b1 := putAssignment _ b).
    assert (grown active b b1) as Hg by (eapply place_grown; try done; apply Hr; left).
    eapply completes_weaken; [apply (IH ltac:(set_solver) ltac:(set_solver) b1)|done|].
    + apply Hg.
    + intros m' Hm'. rewrite (gr_removed _ _ _ Hg). by apply Hu.
    + by rewrite (gr_topics _ _ _ Hg).
    + by eapply informed_grown.
    + intros q Hq. rewrite (Ha q) by (by right). unfold has_owner, b1. simpl. rewrite lookup_insert_ne; [done|].
      intros Hk. apply key_inj in Hk as ->; [done|done|..]; unfold in_i64 in *; pose proof (Hr p ltac:(left)); pose proof (Hr q ltac:(by right)); lia.
    + intros [] b' [Hg' Hf]. split; [by eapply grown_trans|]. intros q [->|?]%elem_of_cons; [|auto].
      eapply has_owner_grown; [done|]. unfold has_owner, b1. simpl. rewrite lookup_insert_eq. done.
Qed.

Lemma owner_chosen p po pp :
  active ≠ [] → 0 <= p → (p < pp → ∃ o, po !! p = Some o ∧ o ≠ "") → ∃ o, ChildAwareOwner active p po pp = Owner o.
Proof.
  intros Hne Hp Ho. unfold ChildAwareOwner. destruct ((pp =? 0) || (pp <=? p)) eqn:E.
  - unfold RoundRobinOwner. rewrite decide_False by (intros [?|?]; [done|lia]). by eexists.
  - apply orb_false_iff in E. destruct Ho as (o & -> & Hne'); [lia|]. cbn [default]. rewrite decide_False by done.
    unfold AntiAffineOwner. rewrite decide_False by (intros [?|?]; [done|lia]). by eexists.
Qed.

(** Every partition of the topic has an owner. *)
Definition full (t : Topic) (b : buckets) : Prop := ∀ p, 0 <= p < t_Partitions t → has_owner b (t_Name t) p.

Definition owned_rows (b : buckets) : Prop := ∀ k a, assignments b !! k = Some a → a_OwnerID a ≠ "".
Definition counts_fit (b : buckets) : Prop := ∀ n t, topics b !! n = Some t → in_i64 (t_Partitions t).

(** What a topic's placement needs of its parent: none on record, or all
    its partitions placed. *)
Definition parent_full (t : Topic) (b : buckets) : Prop := ∀ tp, t_Parent t ≠ "" → topics b !! t_Parent t = Some tp → full tp b.

Lemma parent_constraint_completes t b :
  meta_ok b → owned_rows b → counts_fit b → parent_full t b →
  completes (parent_constraint L bud t) b 2 (λ r b', b' = b ∧ ∃ po pp, r = Some (po, pp) ∧ informed t po pp b
    ∧ ∀ p, 0 <= p < pp → ∃ o, po !! p = Some o ∧ o ≠ "").
Proof.
  intros Hm Hown Hfit Hfull. unfold parent_constraint. case_decide as Hp.
  { eapply completes_weaken; [by apply (completes_ret _ _ (λ r b', r = Some (∅, 0) ∧ b' = b))|lia|].
    intros r b' [-> ->]. split; [done|]. exists ∅, 0. split; [done|]. split; [by intros tp p Hp'|lia]. }
  replace 2%nat with (1 + (1 + 0))%nat by lia. eapply completes_bind; [apply (completes_view L bud _ b (λ r b', r = Some (list_assignments (t_Parent t) b) ∧ b' = b)); done|].
  intros r b1 [-> ->]. eapply completes_bind; [apply (completes_view L bud _ b (λ r b', r = Some (getTopicRecord b (t_Parent t)) ∧ b' = b)); done|].
  intros r b1 [-> ->]. apply completes_ret. split; [done|]. set (rows := list_assignments (t_Parent t) b).
  unfold getTopicRecord. destruct (topics b !! t_Parent t) as [tp|] eqn:Htp; cycle 1.
  { exists (owners_map rows), 0. split; [done|]. split; [|lia]. intros tp' p _ Htp'. congruence. }
  pose proof (core_name _ _ _ (mo_core _ Hm) Htp) as Hname.
  assert (no_colon (t_Parent t)) as Hcol by (by eapply topic_no_colon; [apply (mo_core _ Hm)|]).
  assert (∀ p o, owners_map rows !! p = Some o → ∃ pa, assignments b !! assignmentKey (t_Parent t) p = Some pa ∧ a_OwnerID pa = o) as Hpo.
  { intros p o [?|(a & Ha & <- & <-)]%owners_map_spec; [done|]. apply list_assignments_in in Ha as [_ ?]; eauto. }
  exists (owners_map rows), (t_Partitions tp). split; [done|]. split.
  - intros tp' p _ Htp' Hlt. rewrite Htp in Htp'. injection Htp' as <-. eauto.
  - intros p Hlt. assert (p ∈ (list_to_set (a_Partition <$> rows) : gset Z)) as Hin.
    { apply assigned_spec; [done|done|pose proof (Hfit _ _ Htp); unfold in_i64 in *; lia|]. rewrite <-Hname. by apply Hfull. }
    apply elem_of_list_to_set, list_elem_of_fmap in Hin as (a & -> & Ha).
    destruct (owners_map_full rows ∅ (a_Partition a)) as [o Ho]; [left; eauto|]. exists o. split; [done|].
    destruct (Hpo _ _ Ho) as (pa & Hpa & <-). by eapply Hown.
Qed.

Lemma assignTopic_completes t b :
  meta_ok b → usable b → active ≠ [] → owned_rows b → counts_fit b → parent_full t b → topics b !! t_Name t = Some t →
  completes (assignTopic L bud t active) b (4 + 2 * Z.to_nat (t_Partitions t)) (λ _ b', grown active b b' ∧ full t b').
Proof.
  intros Hm Hu Hne Hown Hfit Hfull Ht. unfold assignTopic. rewrite decide_False by done.
  pose proof (Hfit _ _ Ht) as Hi64. assert (no_colon (t_Name t)) as Hcol by (by eapply topic_no_colon; [apply (mo_core _ Hm)|]).
  replace (4 + 2 * Z.to_nat (t_Partitions t))%nat with (1 + (2 + (1 + 2 * Z.to_nat (t_Partitions t))))%nat by lia.
  eapply completes_bind; [apply (completes_view L bud _ b (λ r b', r = Some (Ok t) ∧ b' = b)); unfold getTopicRecord; by rewrite Ht|].
  intros r b1 [-> ->]. rewrite decide_False by tauto.
  eapply completes_bind; [by apply parent_constraint_completes|]. intros r b1 (-> & po & pp & -> & Hi & Ho).
  eapply completes_bind; [apply (completes_view L bud _ b (λ r b', r = Some (list_assignments (t_Name t) b) ∧ b' = b)); done|].
  intros r b1 [-> ->].
  assert (∀ p, p ∈ seqZ 0 (t_Partitions t) → 0 <= p < t_Partitions t) as Hr by (intros p; rewrite elem_of_seqZ; lia).
  eapply completes_weaken; [apply (assign_loop_completes (t_Name t)); try done|by rewrite length_seqZ|].
  - apply NoDup_seqZ.
  - intros p Hp%Hr. apply assigned_spec; [done|done|unfold in_i64 in *; lia].
  - intros p Hp%Hr. apply owner_chosen; [done|lia|]. intros Hlt. apply Ho. lia.
  - intros [] b' [Hg Hf]. split; [done|]. intros p Hp. apply Hf, elem_of_seqZ. lia.
Qed.

End Sweep.

(** ** The pass *)

Lemma list_members_in b m : meta_ok b → m ∈ list_members b → members b !! m_ID m = Some m.
Proof.
  intros Hm ([k m'] & -> & Hk%elem_of_in_key_order)%list_elem_of_fmap. simpl. destruct (mo_members _ Hm k m' Hk) as [-> _]. done.
Qed.

Lemma list_topics_in b t : meta_ok b → t ∈ list_topics b ↔ topics b !! t_Name t = Some t.
Proof.
  intros Hm. unfold list_topics. rewrite list_elem_of_fmap. split.
  - intros ([n t'] & -> & Hn%elem_of_in_key_order). simpl. by rewrite (core_name _ _ _ (mo_core _ Hm) Hn).
  - intros Ht. eexists (_, t). split; [done|]. by apply elem_of_in_key_order.
Qed.

Lemma parents_first_in ts t : t ∈ parents_first ts ↔ t ∈ ts.
Proof. unfold parents_first. rewrite elem_of_app, !list_elem_of_filter. destruct (decide (t_Parent t = "")); naive_solver. Qed.

(** A child's parent is on record and no child itself. *)
Lemma parent_top b t tp : meta_ok b → topics b !! t_Name t = Some t → t_Parent t ≠ "" → topics b !! t_Parent t = Some tp → t_Parent tp = "".
Proof.
  intros Hm Ht Hp Htp. pose proof (co_fan _ (mo_core _ Hm)) as Hf. pose proof (fo_shape _ Hf _ _ Ht) as Hs.
  destruct (IsChild t) eqn:Hc; [|by destruct (sh_child _ _ Hs Hc)].
  assert (t_Name t ∈ children_of (topics b) (t_Parent t)) as Hin.
  { apply (fo_links _ Hf), parent_of_some. eauto. }
  unfold children_of in Hin. rewrite Htp in Hin. pose proof (fo_shape _ Hf _ _ Htp) as Hsp.
  apply (sh_child _ _ Hsp), role_excl, (sh_parent _ _ Hsp). intros E. rewrite E in Hin. by apply elem_of_nil in Hin.
Qed.

Section Pass.
Context (L : lib) (bud : schemaBudgets) (b0 : buckets).

Definition sweep_active : list Member := RoundRobinMembers (PlacementMembers (list_members b0)).

(** Topics still to do, after [b0]: those without a parent first. *)
Definition sweeping (rest : list Topic) (b : buckets) : Prop :=
  grown sweep_active b0 b ∧ (∃ tops kids, rest = tops ++ kids ∧ Forall (λ t, t_Parent t = "") tops ∧ Forall (λ t, t_Parent t ≠ "") kids)
  ∧ Forall (λ t, topics b0 !! t_Name t = Some t) rest ∧ ∀ t, topics b0 !! t_Name t = Some t → t ∈ rest ∨ full t b.

Definition sweep_cost (t : Topic) : nat := 4 + 2 * Z.to_nat (t_Partitions t).

Context (Hm : meta_ok b0) (Hfit : counts_fit b0) (Hown : owned_rows b0) (Hids : members b0 !! "" = None) (Hne : sweep_active ≠ []).

Lemma active_member m : m ∈ sweep_active → members b0 !! m_ID m = Some m ∧ m_Status m = MemberAlive ∧ m_Draining m = false.
Proof.
  unfold sweep_active, RoundRobinMembers. rewrite merge_sort_Permutation, PlacementMembers_spec. intros (Hin & Ha & Hd).
  split; [|done]. by apply list_members_in.
Qed.

Lemma active_usable b : grown sweep_active b0 b → usable sweep_active b.
Proof.
  intros Hg m (Hin & _)%active_member. rewrite (gr_removed _ _ _ Hg). split; [congruence|]. by destruct (mo_members _ Hm _ _ Hin).
Qed.

Lemma grown_owned b : grown sweep_active b0 b → owned_rows b.
Proof.
  intros Hg k a Hk. apply (gr_new _ _ _ Hg) in Hk as [Hk|(_ & (m & (Hin & _)%active_member & ->) & _)]; [by eapply Hown|]. congruence.
Qed.

Lemma sweep_topic t rest b : sweeping (t :: rest) b → completes (assignTopic L bud t sweep_active) b (sweep_cost t) (λ _ b', sweeping rest b').
Proof.
  intros (Hg & (tops & kids & Hsplit & Htops & Hkids) & [Ht Hrest]%Forall_cons & Hdone).
  pose proof (gr_topics _ _ _ Hg) as Et.
  assert (parent_full t b) as Hpf.
  { intros tp Hp Htp. rewrite Et in Htp. pose proof (parent_top b0 t tp Hm Ht Hp Htp) as Htop.
    destruct (Hdone tp) as [Hin|Hf]; [by rewrite (core_name _ _ _ (mo_core _ Hm) Htp)| |done].
    destruct tops as [|x tops]; simpl in Hsplit; [|injection Hsplit as <- ->; by apply Forall_cons in Htops as [? _]].
    subst kids. by eapply Forall_forall in Hkids. }
  eapply completes_weaken; [apply assignTopic_completes; try done|done|].
  - apply Hg.
  - by apply active_usable.
  - by apply grown_owned.
  - intros n x. rewrite Et. apply Hfit.
  - by rewrite Et.
  - intros [] b' [Hg' Hf]. split; [by eapply grown_trans|]. split; [|split; [done|]].
    + destruct tops as [|x tops]; simpl in Hsplit.
      * subst kids. exists [], rest. split; [done|]. split; [done|]. by apply Forall_cons in Hkids as [_ ?].
      * injection Hsplit as <- ->. exists tops, kids. split; [done|]. split; [|done]. by apply Forall_cons in Htops as [_ ?].
    + intros x [[->|?]%elem_of_cons|Hx]%Hdone; [by right|by left|right]. intros p Hp. eapply has_owner_grown; [done|]. by apply Hx.
Qed.

Lemma sweep_completes :
  completes (reconcileAssignments L bud) b0 (4 + sum_list_with sweep_cost (parents_first (list_topics b0))) (λ _ b', sweeping [] b').
Proof.
  unfold reconcileAssignments. set (n := sum_list_with _ _).
  replace (4 + n)%nat with (1 + (0 + (1 + (0 + (1 + (0 + (1 + n)))))))%nat by lia.
  eapply completes_bind; [by apply (completes_leads L bud b0 (λ r b', r = true ∧ b' = b0))|]. intros r b [-> ->].
  eapply completes_bind; [by apply (completes_require _ _ (λ _ b', b' = b0))|]. intros [] b ->.
  eapply completes_bind; [by apply (completes_leads L bud b0 (λ r b', r = true ∧ b' = b0))|]. intros r b [-> ->].
  eapply completes_bind; [by apply (completes_require _ _ (λ _ b', b' = b0))|]. intros [] b ->.
  eapply completes_bind; [by apply (completes_list L bud _ _ (λ r b', r = list_members b0 ∧ b' = b0))|]. intros r b [-> ->].
  eapply completes_bind; [apply (completes_require _ _ (λ _ b', b' = b0)); [|done]|].
  { apply bool_decide_eq_true. intros E. apply Hne. unfold sweep_active. by rewrite E. }
  intros [] b ->.
  eapply completes_bind; [by apply (completes_list L bud _ _ (λ r b', r = list_topics b0 ∧ b' = b0))|]. intros r b [-> ->].
  apply (completes_each _ sweep_cost sweeping); [intros x l b; apply sweep_topic|].
  assert (∀ t, t ∈ parents_first (list_topics b0) ↔ topics b0 !! t_Name t = Some t) as Hin.
  { intros t. rewrite parents_first_in. by apply list_topics_in. }
  split; [by apply grown_refl|]. split; [|split; [|by intros t ?%Hin; left]].
  - eexists _, _. split; [done|]. split; apply Forall_forall; by intros t [? _]%list_elem_of_filter.
  - apply Forall_forall. by intros t ?%Hin.
Qed.

End Pass.

(** C24. A sweep leaves no partition without an owner: on a database that
    satisfies the metadata invariant, in which every assignment row has an
    owner, partition counts fit [int64] and no member has the empty name,
    with a live member that is not
    draining and enough undisturbed calls, [reconcileAssignments] completes,
    every partition of every topic then has an owner, no row it found is
    changed, and each row it adds is on a live, non-draining member, for a
    child off the owner of the parent's partition unless that is the only
    such member. *)
Theorem sweep_places_all L bud b calls log :
  meta_ok b → counts_fit b → owned_rows b → members b !! "" = None → sweep_active b ≠ [] → Forall quiet calls →
  (4 + sum_list_with sweep_cost (parents_first (list_topics b)) <= length calls)%nat →
  ∃ b' m log', reconcileAssignments L bud (World b calls log) = (Some (), World b' (drop m calls) log')
    ∧ (∀ n t p, topics b !! n = Some t → 0 <= p < t_Partitions t → has_owner b' n p)
    ∧ assignments b ⊆ assignments b'
    ∧ ∀ k a, assignments b' !! k = Some a → assignments b !! k = Some a ∨ placed (sweep_active b) b' a.
Proof.
  intros Hm Hfit Hown Hids Hne Hq Hn.
  destruct (sweep_completes L bud b Hm Hfit Hown Hids Hne calls log Hq Hn) as ([] & b' & m & log' & Hrun & _ & Hg & _ & _ & Hf).
  exists b', m, log'. split; [done|]. split; [|split; [apply Hg|apply Hg]].
  intros n t p Ht Hp. pose proof (core_name _ _ _ (mo_core _ Hm) Ht) as <-. destruct (Hf t Ht) as [?%elem_of_nil|Hfull]; [done|by apply Hfull].
Qed.
