(* ===== verification/Rebalance.v ===== *)
(** * A rebalance pass moves what it may, within its budget

    One pass of [reconcileRebalance] with no other command in between:
    whatever calls fail, and whichever of those commit all the same, owners
    stay, a new target goes to a settled partition of a live owner and names
    a live member that is not draining, and the moves in flight stay within
    the budget, but for one move per call that failed and committed. *)

From S2P Require Import Prelude Decimal Keys Json Meta Versions FsmTopics FsmCluster FsmRemotes Fsm FanInv SchemaInv MetaInv.
From S2P Require Import Store Placement Plan PlanClaims Controller Decommission Sweep.

Definition alone (cl : call) : Prop := cl_others cl = [].

(** A call that failed, and whose command committed all the same. *)
Definition lost (cl : call) : Prop := cl_ok cl = false ∧ cl_landed cl = true.
#[global] Instance lost_dec cl : Decision (lost cl).
Proof. apply _. Defined.

Definition lost_calls (calls : list call) : Z := Z.of_nat (length (filter lost calls)).

Lemma lost_cons cl calls : lost_calls (cl :: calls) = lost_calls calls + (if decide (lost cl) then 1 else 0).
Proof. unfold lost_calls. rewrite filter_cons. case_decide; cbn [length]; lia. Qed.

Lemma lost_nonneg calls : 0 <= lost_calls calls.
Proof. unfold lost_calls. lia. Qed.

(** At most [n] of the calls to come are lost; no program adds one. *)
Definition low (n : Z) (w : world) : Prop := lost_calls (w_calls w) <= n.
Definition spends {A} (p : prog A) : Prop := ∀ w n, low n w → low n (p w).2.

Lemma spends_bind {A B} (p : prog A) (f : A → prog B) : spends p → (∀ a, spends (f a)) → spends (p ≫= f).
Proof.
  intros Hp Hf w n Hw. specialize (Hp w n Hw). unfold mbind, prog_bind. destruct (p w) as [[a|] w']; [by apply Hf|done].
Qed.

Lemma spends_next L bud : spends (next L bud).
Proof.
  intros w n. unfold next, low. destruct (w_calls w) as [|cl calls] eqn:E; cbn [snd w_calls]; [by rewrite E|]. rewrite lost_cons. case_decide; lia.
Qed.

Lemma spends_ask L bud {A} (f : call → A) : spends (cl ← next L bud; mret (f cl)).
Proof. apply spends_bind; [apply spends_next|]. by intros cl w n. Qed.

Lemma spends_view L bud {A} (f : buckets → A) : spends (view L bud f).
Proof. apply spends_bind; [apply spends_next|]. by intros cl w n. Qed.

Lemma spends_or_stop {A} (p : prog (option A)) : spends p → spends (or_stop p).
Proof. intros Hp. apply spends_bind; [done|]. by intros [a|] w n. Qed.

Lemma spends_raft_servers L bud : spends (raft_servers L bud).
Proof.
  unfold raft_servers. apply spends_bind; [apply spends_ask|]. intros [v|]; [|by intros w n]. apply spends_bind; [apply spends_ask|]. by intros [n|] w ?.
Qed.

Lemma triple_low {A} (E P : world → Prop) (p : prog A) (Q : A → world → Prop) n :
  triple E P p Q → spends p → triple (λ w, E w ∧ low n w) (λ w, P w ∧ low n w) p (λ a w, Q a w ∧ low n w).
Proof. intros Hp Hs w [Hw Hn]. specialize (Hp w Hw). specialize (Hs w n Hn). by destruct (p w) as [[a|] w']. Qed.

Section Pass.
Context (L : lib) (bud : schemaBudgets) (cfg : Config) (b0 : buckets) (Hm : meta_ok b0).

Abbreviation rows := (gmap string Assignment).

(** The database with these rows. *)
Notation db A := (set_assignments A b0).

Definition keyed (A : rows) : Prop := map_Forall (λ k a, k = assignmentKey (a_Topic a) (a_Partition a)) A.

Definition flies (a : Assignment) : Prop := a_TargetID a ≠ "" ∧ is_Some (topics b0 !! a_Topic a).

Definition flying (A : rows) : rows := filter (λ kv, flies kv.2) A.

Definition retarget (t : string) (p : Z) (target : string) (A : rows) : rows :=
  match A !! assignmentKey t p with
  | Some x => if decide (a_TargetID x = target) then A else <[assignmentKey t p := set_target target x]> A
  | None => A
  end.

Lemma commit_retarget t p target A : keyed A →
  commit L bud (db A) (OpSetAssignmentTarget t p target) = db (retarget t p target A)
  ∧ (answer L bud (db A) (OpSetAssignmentTarget t p target) = Ok () → is_Some (A !! assignmentKey t p)).
Proof.
  intros HA. unfold commit, answer, retarget. cbn [refused_early dispatch]. unfold applySetAssignmentTarget, readAssignment.
  cbn [assignments set_assignments]. destruct (A !! assignmentKey t p) as [x|] eqn:Hx; cbn [rbind plain]; [|done].
  case_decide; [done|]. cbn [rbind plain]. split; [|done]. unfold putAssignment. simpl.
  by rewrite <-(HA _ _ Hx).
Qed.

Lemma retarget_keyed t p target A : keyed A → keyed (retarget t p target A).
Proof.
  intros HA. unfold retarget. destruct (A !! assignmentKey t p) as [x|] eqn:Hx; [|done]. case_decide; [done|].
  apply map_Forall_insert_2; [|done]. simpl. apply (HA _ _ Hx).
Qed.

Lemma flying_insert A k y : (size (flying (<[k := y]> A)) <= size (flying A) + 1)%nat.
Proof.
  unfold flying. rewrite map_filter_insert. case_decide.
  - rewrite map_size_insert. case_match; unfold id; lia.
  - rewrite map_filter_delete, map_size_delete. case_match; unfold id; lia.
Qed.

Lemma flying_cleared A k x y : A !! k = Some x → flies x → ¬ flies y → (size (flying (<[k := y]> A)) + 1 = size (flying A))%nat.
Proof.
  intros Hk Hx Hy. unfold flying. rewrite map_filter_insert_False by done. rewrite map_filter_delete, map_size_delete_Some.
  - assert (size (flying A) ≠ 0)%nat; [|unfold flying in *; lia]. apply map_size_non_empty_iff. intros E.
    assert (flying A !! k = Some x) as H by (by apply map_lookup_filter_Some). by rewrite E, lookup_empty in H.
  - exists x. by apply map_lookup_filter_Some.
Qed.

(** ** The planner's view *)

Context (aliveSet : gset string).

(** What the view says when the rows in [todo] are still to be read. *)
Record viewed (todo : Assignment → Prop) (v : plan_view) : Prop := {
  vw_all : ∀ k a, assignments b0 !! k = Some a → flies a → todo a ∨ a ∈ pv_inFlight v;
  vw_row : ∀ a, a ∈ pv_inFlight v → assignments b0 !! assignmentKey (a_Topic a) (a_Partition a) = Some a ∧ flies a ∧ ¬ todo a;
  vw_nodup : NoDup (pv_inFlight v);
  vw_movable : ∀ n r, r ∈ parts_of (pv_movable v) n → n ∈ aliveSet
    ∧ ∃ a, assignments b0 !! assignmentKey (pr_Topic r) (pr_Partition r) = Some a ∧ a_OwnerID a = n ∧ a_TargetID a = "";
  vw_load : ∀ n, Z.of_nat (length (parts_of (pv_movable v) n)) <= count_of (pv_load v) n;
}.

Lemma viewed_ext todo todo' v :
  (∀ k a, assignments b0 !! k = Some a → todo a ↔ todo' a) → viewed todo v → viewed todo' v.
Proof.
  intros He [H1 H2 H3 H4 H5]. split; try done.
  - intros k a Hk Hf. rewrite <-(He k a Hk). eauto.
  - intros a (Hr & Hf & Hn)%H2. split; [done|]. split; [done|]. by rewrite <-(He _ a Hr).
Qed.

Lemma parts_of_insert M n l m : parts_of (<[n := l]> M) m = if decide (n = m) then l else parts_of M m.
Proof. unfold parts_of. rewrite lookup_insert. by case_decide. Qed.

Lemma viewed_row todo v a :
  assignments b0 !! assignmentKey (a_Topic a) (a_Partition a) = Some a → is_Some (topics b0 !! a_Topic a) → todo a → viewed todo v →
  viewed (λ x, todo x ∧ x ≠ a) (plan_row aliveSet (a_Topic a) v a).
Proof.
  intros Ha Ht Htodo [H1 H2 H3 H4 H5]. destruct v as [load movable owners byName inFlight]. simpl in *.
  assert (∀ k x, assignments b0 !! k = Some x → flies x → x ≠ a → (todo x ∧ x ≠ a) ∨ x ∈ inFlight) as Hrest.
  { intros k x Hk Hf Hne. destruct (H1 k x Hk Hf); auto. }
  destruct (decide (a_TargetID a ≠ "")) as [Htg|Htg].
  - split; simpl.
    + intros k x Hk Hf. destruct (decide (x = a)) as [->|Hne]; [right; set_solver|]. destruct (Hrest k x Hk Hf Hne); [by left|right; set_solver].
    + intros x [Hx|Hx]%elem_of_app; [destruct (H2 x Hx) as (? & ? & ?); tauto|]. apply list_elem_of_singleton in Hx as ->.
      split; [done|]. split; [by split|tauto].
    + apply NoDup_app. split; [done|]. split; [|apply NoDup_singleton]. intros x Hx ->%list_elem_of_singleton. by apply H2 in Hx as (_ & _ & ?).
    + done.
    + intros n. specialize (H5 n). case_decide; [rewrite count_bump; case_decide; lia|done].
  - apply dec_stable in Htg. case_decide as Hal.
    + split; simpl; [|intros x (? & ? & ?)%H2; tauto|done| |].
      * intros k x Hk Hf. apply (Hrest k x Hk Hf). intros ->. by destruct Hf.
      * intros n r. rewrite parts_of_insert. case_decide as Hn; [|apply H4]. subst n. intros [Hr|Hr]%elem_of_app; [by apply H4|].
        apply list_elem_of_singleton in Hr as ->. simpl. eauto.
      * intros n. rewrite parts_of_insert, count_bump. specialize (H5 n). case_decide as Hn; [subst n; rewrite length_app; simpl; lia|lia].
    + split; simpl; [|intros x (? & ? & ?)%H2; tauto|done..].
      intros k x Hk Hf. apply (Hrest k x Hk Hf). intros ->. by destruct Hf.
Qed.

Lemma viewed_rows todo v n rs :
  is_Some (topics b0 !! n) → NoDup rs →
  (∀ a, a ∈ rs → a_Topic a = n ∧ assignments b0 !! assignmentKey (a_Topic a) (a_Partition a) = Some a ∧ todo a) → viewed todo v →
  viewed (λ x, todo x ∧ x ∉ rs) (foldl (plan_row aliveSet n) v rs).
Proof.
  intros Hn Hnd. revert todo v. induction Hnd as [|a rs Hna Hnd IH]; intros todo v Hrs Hv.
  { eapply viewed_ext; [|exact Hv]. intros k a _. rewrite elem_of_nil. tauto. }
  simpl. destruct (Hrs a) as (<- & Hk & Htodo); [left|].
  eapply viewed_ext; [|apply (IH (λ x, todo x ∧ x ≠ a))].
  - intros k x _. simpl. rewrite elem_of_cons. tauto.
  - intros x Hx. destruct (Hrs x) as (? & ? & ?); [by right|]. split_and!; try done. by intros ->.
  - by apply viewed_row.
Qed.

Lemma list_assignments_nodup n : NoDup (list_assignments n b0).
Proof.
  unfold list_assignments, rows_of. apply NoDup_fmap_2_strong; [|rewrite in_key_order_perm; apply NoDup_map_to_list].
  intros [k a] [k' a'] Hk Hk' Heq. simpl in Heq. subst a'.
  apply elem_of_in_key_order, map_lookup_filter_Some in Hk as [Hk _], Hk' as [Hk' _].
  destruct (co_assign _ (mo_core _ Hm) _ _ Hk) as [-> _]. by destruct (co_assign _ (mo_core _ Hm) _ _ Hk') as [-> _].
Qed.

Lemma viewed_topic t ts v :
  topics b0 !! t_Name t = Some t → t_Name t ∉ t_Name <$> ts → viewed (λ a, a_Topic a ∈ t_Name <$> t :: ts) v →
  viewed (λ a, a_Topic a ∈ t_Name <$> ts) (plan_topic aliveSet v t (list_assignments (t_Name t) b0)).
Proof.
  intros Ht Hn Hv. assert (no_colon (t_Name t)) as Hcol by (by eapply topic_no_colon; [apply (mo_core _ Hm)|]).
  pose proof (viewed_rows (λ a, a_Topic a ∈ t_Name <$> t :: ts) v (t_Name t) (list_assignments (t_Name t) b0) ltac:(by rewrite Ht) (list_assignments_nodup _)) as Hr.
  unfold plan_topic.
  destruct (foldl (plan_row aliveSet (t_Name t)) v (list_assignments (t_Name t) b0)) as [load movable owners byName inFlight].
  assert (viewed (λ a, a_Topic a ∈ t_Name <$> ts) (MkPlanView load movable owners byName inFlight)) as [H1 H2 H3 H4 H5]; [|by split].
  eapply viewed_ext; [|apply Hr; [|done]].
  - intros k a Hk. simpl. rewrite list_assignments_in by done. rewrite elem_of_cons. split.
    + intros [[Heq|?] Hnin]; [|done]. destruct Hnin. split; [done|]. rewrite <-Heq. by destruct (co_assign _ (mo_core _ Hm) _ _ Hk) as [<- _].
    + intros Hin. split; [by right|]. intros [Heq _]. by rewrite Heq in Hin.
  - intros a Ha. apply list_assignments_in in Ha as [Heq Hk]; [|done|done]. rewrite <-Heq in Hk. split_and!; try done. simpl. rewrite Heq. left.
Qed.

(** ** The rows after the pass *)

Context (since : option Z) (now : clock) (ms : list Member).

(** What a pass may do to a row: nothing, drop a move whose target cannot
    complete it, or start a move off a live owner to a live member that is
    not draining. *)
Definition stepped (a a' : Assignment) : Prop :=
  a' = a
  ∨ (a' = set_target "" a ∧ a_TargetID a ≠ "" ∧ ∃ inRaft, target_gone cfg since now ms inRaft a = true)
  ∨ ∃ to, a' = set_target to a ∧ a_TargetID a = "" ∧ to ≠ a_OwnerID a
      ∧ (∃ m, m ∈ ms ∧ m_ID m = to ∧ m_Status m = MemberAlive ∧ m_Draining m = false)
      ∧ ∃ m, m ∈ ms ∧ m_ID m = a_OwnerID a ∧ m_Status m = MemberAlive.

Definition rows_step (A : rows) : Prop :=
  ∀ k, match assignments b0 !! k, A !! k with Some a, Some a' => stepped a a' | None, None => True | _, _ => False end.

Lemma rows_step_insert A k a y : rows_step A → assignments b0 !! k = Some a → stepped a y → rows_step (<[k := y]> A).
Proof.
  intros HA Hk Hy k'. specialize (HA k'). rewrite lookup_insert. case_decide as E; [subst k'; by rewrite Hk|done].
Qed.

(** How many lost calls the pass has before it. *)
Context (N : Z).

Notation any := (λ _, True).
Notation at_db F := (holds any (λ _, False) any any F).

(** The database has these rows, and at most [n] lost calls are to come. *)
Definition at_rows (A : rows) (n : Z) (w : world) : Prop := at_db (λ b, b = db A) w ∧ low n w.

Lemma at_rows_mono A n n' w : at_rows A n w → n <= n' → at_rows A n' w.
Proof. intros [Hw Hn] Hle. split; [done|]. unfold low in *. lia. Qed.

Lemma no_others F : stable L bud any (λ _, False) F.
Proof. by intros b c _ []. Qed.

(** A target is set, or not, or the call fails and it is set all the same. *)
Lemma triple_set_target t p target A n : keyed A →
  triple (at_rows A n) (at_rows A n) (SetAssignmentTarget L bud t p target)
    (λ r w, match r with
            | Ok _ => is_Some (A !! assignmentKey t p) ∧ at_rows (retarget t p target A) n w
            | Err _ => at_rows A n w ∨ at_rows (retarget t p target A) (n - 1) w
            end).
Proof.
  intros HA w [Hw Hn]. unfold SetAssignmentTarget, propose.
  pose proof (triple_next L bud any (λ _, False) any any ltac:(done) _ (no_others (λ b, b = db A)) w Hw) as Hnext.
  unfold mbind at 1, prog_bind at 1. destruct (next L bud w) as [[cl|] w1] eqn:E; [|by split; [|by apply (f_equal snd) in E; cbn in E; subst; apply (spends_next L bud)]].
  assert (lost_calls (w_calls w1) + (if decide (lost cl) then 1 else 0) <= n) as Hn1.
  { unfold next in E. unfold low in Hn. destruct (w_calls w) as [|cl' calls] eqn:Ec; [done|]. injection E as <- <-. by rewrite lost_cons in Hn. }
  destruct Hnext as (_ & [Hdb Hcs Hl] & Hw1). destruct w1 as [b calls log]. simpl in Hw1, Hn1, Hcs. subst b. unfold submit, at_rows, low.
  destruct (commit_retarget t p target A HA) as [Hc Ha].
  assert (∀ A' log', at_db (λ b, b = db A') (World (db A') calls log')) as Hat by (intros; split; [split; [done|done|by apply Forall_true]|done]).
  destruct (cl_ok cl) eqn:Eok; simpl.
  - rewrite Hc. rewrite decide_False in Hn1 by (intros [? _]; congruence).
    destruct (answer L bud (db A) (OpSetAssignmentTarget t p target)) as [[]|e] eqn:Ea.
    + split; [by apply Ha|]. split; [done|]. simpl. lia.
    + left. assert (retarget t p target A = A) as ->; [|split; [done|simpl; lia]].
      unfold retarget. destruct (A !! assignmentKey t p) as [x|] eqn:Hx; [|done]. case_decide; [done|].
      exfalso. revert Ea. unfold answer. simpl. unfold applySetAssignmentTarget, readAssignment. simpl. rewrite Hx. simpl. by rewrite decide_False.
  - destruct (cl_landed cl) eqn:El; simpl.
    + right. rewrite Hc. rewrite decide_True in Hn1 by done. split; [done|]. simpl. lia.
    + left. split; [done|]. simpl. case_decide; lia.
Qed.

Record aborting (rest : list Assignment) (aborted : gset string) (A : rows) : Prop := {
  ab_keyed : keyed A;
  ab_step : rows_step A;
  ab_rest : ∀ a, a ∈ rest → A !! assignmentKey (a_Topic a) (a_Partition a) = Some a;
  ab_size : (size (flying A) + size aborted <= size (flying (assignments b0)))%nat;
}.

Lemma abort_one a rest aborted A inRaft :
  NoDup (a :: rest) → (∀ x, x ∈ a :: rest → assignments b0 !! assignmentKey (a_Topic x) (a_Partition x) = Some x ∧ flies x) →
  target_gone cfg since now ms inRaft a = true → aborting (a :: rest) aborted A →
  aborting rest ({[moveKey a]} ∪ aborted) (retarget (a_Topic a) (a_Partition a) "" A).
Proof.
  intros [Hna _]%NoDup_cons Hf Hg [Hk Hs Hr Hsz]. destruct (Hf a) as [Ha0 Hfl]; [left|]. pose proof (Hr a ltac:(left)) as Ha.
  split; [by apply retarget_keyed|..]; unfold retarget; rewrite Ha, decide_False by (intros E; by destruct Hfl).
  - eapply rows_step_insert; [done|exact Ha0|]. right. left. split; [done|]. split; [apply Hfl|eauto].
  - intros x Hx. rewrite lookup_insert_ne; [apply Hr; by right|]. intros Heq. destruct (Hf x) as [Hx0 _]; [by right|].
    rewrite Heq in Ha0. congruence.
  - pose proof (flying_cleared A _ a (set_target "" a) Ha Hfl) as Hc. rewrite size_union_alt in *.
    assert (size ({[moveKey a]} : gset string) + size (aborted ∖ {[moveKey a]}) <= 1 + size aborted)%nat as Hsa.
    { rewrite size_singleton. pose proof (subseteq_size (aborted ∖ {[moveKey a]}) aborted ltac:(set_solver)). lia. }
    specialize (Hc ltac:(by intros [? _])). lia.
Qed.

(** The move was dropped, and the caller does not know. *)
Lemma abort_unknown a rest aborted A inRaft :
  NoDup (a :: rest) → (∀ x, x ∈ a :: rest → assignments b0 !! assignmentKey (a_Topic x) (a_Partition x) = Some x ∧ flies x) →
  target_gone cfg since now ms inRaft a = true → aborting (a :: rest) aborted A →
  aborting rest aborted (retarget (a_Topic a) (a_Partition a) "" A).
Proof.
  intros Hnd Hf Hg Hab. destruct (abort_one a rest aborted A inRaft Hnd Hf Hg Hab) as [H1 H2 H3 H4]. split; try done.
  pose proof (subseteq_size aborted ({[moveKey a]} ∪ aborted) ltac:(set_solver)). lia.
Qed.

(** The pass has ended: rows as they may be, within the budget. *)
Definition ended (w : world) : Prop :=
  ∃ A, w_db w = db A ∧ rows_step A ∧ Z.of_nat (size (flying A)) <= Z.max (Z.of_nat (size (flying (assignments b0)))) (c_MaxInFlightMoves cfg) + N.

Lemma ended_at A n w : rows_step A → at_rows A n w →
  Z.of_nat (size (flying A)) + n <= Z.max (Z.of_nat (size (flying (assignments b0)))) (c_MaxInFlightMoves cfg) + N → ended w.
Proof. intros HA [[_ Hw] Hn] Hs. exists A. unfold low in Hn. pose proof (lost_nonneg (w_calls w)). split_and!; [done..|lia]. Qed.

Lemma aborting_ended rest aborted A w : aborting rest aborted A → at_rows A N w → ended w.
Proof. intros [Hk Hs _ Hsz] Hw. apply (ended_at A N); [done..|lia]. Qed.

Definition abort_state (rest : list Assignment) (aborted : gset string) (w : world) : Prop :=
  NoDup rest ∧ (∀ x, x ∈ rest → assignments b0 !! assignmentKey (a_Topic x) (a_Partition x) = Some x ∧ flies x)
  ∧ ∃ A, aborting rest aborted A ∧ at_rows A N w.

Lemma abort_skip a rest aborted w : abort_state (a :: rest) aborted w → abort_state rest aborted w.
Proof.
  intros ([_ Hnd]%NoDup_cons & Hf & A & [Hk Hs Hr Hsz] & Hw). split; [done|]. split; [intros x Hx; apply Hf; by right|].
  exists A. split; [|done]. split; try done. intros x Hx. apply Hr. by right.
Qed.

Lemma ask_at {B} (f : call → B) A n :
  triple (at_rows A n) (at_rows A n) (cl ← next L bud; mret (f cl)) (λ _, at_rows A n).
Proof. apply triple_low; [|apply spends_ask]. apply keeps_bind; [apply keeps_next; [done|apply no_others]|]. intros cl. apply keeps_ret. Qed.

Lemma abortDeadTargetMoves_ok inFlight :
  triple ended (λ w, abort_state inFlight ∅ w) (abortDeadTargetMoves L bud cfg since now inFlight ms) (abort_state []).
Proof.
  unfold abortDeadTargetMoves. case_decide as E; [subst; by apply triple_ret|].
  eapply (triple_bind _ _ _ (λ _, abort_state inFlight ∅)).
  - intros w (Hnd & Hf & A & Hab & Hw). assert (keeps any (λ _, False) any any (λ b, b = db A) (raft_servers L bud)) as Hk.
    { assert (∀ (b : buckets) (c : command), (λ _ : buckets, True) b → (λ _ : command, False) c → (λ _ : buckets, True) (commit L bud b c)) by done.
      pose proof (no_others (λ b, b = db A)). unfold raft_servers. keep. }
    pose proof (triple_low _ _ _ _ N Hk (spends_raft_servers L bud) w Hw) as Hk'.
    destruct (raft_servers L bud w) as [[r|] w']; [split; eauto|by eapply aborting_ended].
  - intros inRaft. apply triple_fold_each. intros a rest aborted. destruct (target_gone cfg since now ms inRaft a) eqn:Hg; cycle 1.
    { apply triple_ret. apply abort_skip. }
    intros w (Hnd & Hf & A & Hab & Hw).
    pose proof (triple_set_target (a_Topic a) (a_Partition a) "" A N (ab_keyed _ _ _ Hab) w Hw) as Ht.
    assert (NoDup rest ∧ ∀ x, x ∈ rest → assignments b0 !! assignmentKey (a_Topic x) (a_Partition x) = Some x ∧ flies x) as [Hnd' Hf'].
    { split; [by apply NoDup_cons in Hnd as [_ ?]|]. intros x Hx. apply Hf. by right. }
    unfold mbind, prog_bind. destruct (SetAssignmentTarget _ _ _ _ _ w) as [[[[]|e]|] w']; simpl.
    + destruct Ht as [_ Hw']. split; [done|]. split; [done|]. exists (retarget (a_Topic a) (a_Partition a) "" A). split; [by eapply abort_one|done].
    + destruct Ht as [Hw'|Hw']; [apply (abort_skip a); split; [done|]; split; [done|]; by exists A|].
      split; [done|]. split; [done|]. exists (retarget (a_Topic a) (a_Partition a) "" A). split; [by eapply abort_unknown|]. eapply at_rows_mono; [done|lia].
    + by eapply aborting_ended.
Qed.

(** A move of a plan over the view. *)
Definition plannable (mv : RebalanceMove) : Prop :=
  (∃ a, assignments b0 !! assignmentKey (pr_Topic (mv_Partition mv)) (pr_Partition (mv_Partition mv)) = Some a
        ∧ a_OwnerID a = mv_From mv ∧ a_TargetID a = "")
  ∧ mv_To mv ≠ mv_From mv ∧ (∃ m, m ∈ ms ∧ m_ID m = mv_To mv ∧ m_Status m = MemberAlive ∧ m_Draining m = false)
  ∧ ∃ m, m ∈ ms ∧ m_ID m = mv_From mv ∧ m_Status m = MemberAlive.

Lemma retarget_step mv A : rows_step A → plannable mv →
  rows_step (retarget (pr_Topic (mv_Partition mv)) (pr_Partition (mv_Partition mv)) (mv_To mv) A).
Proof.
  intros HA ((a & Ha & Hown & Hset) & Hne & Hto & Hfrom). unfold retarget.
  destruct (A !! _) as [x|] eqn:Hx; [|done]. case_decide; [done|]. eapply rows_step_insert; [done|exact Ha|].
  specialize (HA (assignmentKey (pr_Topic (mv_Partition mv)) (pr_Partition (mv_Partition mv)))). rewrite Ha, Hx in HA.
  right. right. exists (mv_To mv). subst. rewrite Hown. split; [|done].
  destruct HA as [->|[(_ & ? & _)|(to & -> & _)]]; done.
Qed.

Lemma retarget_flying t p target A : (size (flying (retarget t p target A)) <= size (flying A) + 1)%nat.
Proof. unfold retarget. destruct (A !! _) as [x|]; [|lia]. case_decide; [lia|]. apply flying_insert. Qed.

Lemma set_targets_ok moves budget A n :
  Forall plannable moves → keyed A → rows_step A → 0 <= budget → Z.of_nat (size (flying A)) + budget + n <= c_MaxInFlightMoves cfg + N →
  triple ended (at_rows A n) (set_targets L bud moves budget) (λ _, ended).
Proof.
  intros Hmv. revert budget A n. induction Hmv as [|mv moves Hmv _ IH]; intros budget A n Hk Hs Hb Hsz.
  { apply triple_ret. intros w Hw. apply (ended_at A n); [done..|lia]. }
  cbn [set_targets]. destruct (budget <=? 0) eqn:Eb; [apply triple_ret; intros w Hw; apply (ended_at A n); [done..|lia]|].
  eapply triple_bind; [eapply triple_exit; [by apply triple_set_target|intros w Hw; apply (ended_at A n); [done..|lia]]|].
  set (A' := retarget _ _ _ A). assert (keyed A') as Hk' by by apply retarget_keyed. assert (rows_step A') as Hs' by by apply retarget_step.
  pose proof (retarget_flying (pr_Topic (mv_Partition mv)) (pr_Partition (mv_Partition mv)) (mv_To mv) A) as Hsize. fold A' in Hsize.
  intros [[]|e] w; cbn beta iota.
  - intros [_ Hw]. by eapply (IH _ A' n); [done..|lia|lia|].
  - intros [Hw|Hw]; [by eapply (IH _ A n)|by eapply (IH _ A' (n - 1)); [done..|lia|]].
Qed.

End Pass.

(** ** The whole pass *)

Section Whole.
Context (L : lib) (bud : schemaBudgets) (cfg : Config) (b0 : buckets) (Hm : meta_ok b0) (Hids : members b0 !! "" = None).
Context (since : option Z) (now : clock) (N : Z).

Notation any := (λ _, True).
Notation start := (at_rows b0 (assignments b0) N).
Notation done_ := (ended cfg b0 since now (list_members b0) N).
Notation alive := (AliveMembers (list_members b0)).
Notation receivers := (m_ID <$> filter (λ m, m_Draining m = false) alive).

Lemma db_self : set_assignments (assignments b0) b0 = b0.
Proof. by destruct b0. Qed.

Lemma start_rows : rows_step cfg b0 since now (list_members b0) (assignments b0).
Proof. intros k. destruct (assignments b0 !! k); [by left|done]. Qed.

Lemma start_keyed : keyed (assignments b0).
Proof. intros k a Hk. by destruct (co_assign _ (mo_core _ Hm) _ _ Hk). Qed.

Lemma start_done w : start w → done_ w.
Proof. intros Hw. apply (ended_at cfg b0 since now (list_members b0) N (assignments b0) N); [apply start_rows|done|lia]. Qed.

Lemma read_start {B} (f : buckets → B) : triple done_ start (or_stop (view L bud f)) (λ x w, start w ∧ x = f b0).
Proof.
  eapply triple_exit; [|apply start_done]. intros w Hw.
  pose proof (triple_low _ _ _ _ N (triple_list L bud any (λ _, False) any any ltac:(done) _ f (no_others L bud (λ b, b = set_assignments (assignments b0) b0)))
    (spends_or_stop _ (spends_view L bud f)) w Hw) as H.
  destruct (or_stop (view L bud f) w) as [[x|] w']; [|done]. destruct H as [[[Hg Hw'] ->] Hlow]. split; [done|]. by rewrite Hw', db_self.
Qed.

Lemma members_nodup : NoDup (m_ID <$> list_members b0).
Proof.
  unfold list_members. rewrite <-list_fmap_compose. apply NoDup_fmap_2_strong; [|rewrite in_key_order_perm; apply NoDup_map_to_list].
  intros [k m] [k' m'] Hk%elem_of_in_key_order Hk'%elem_of_in_key_order. simpl.
  destruct (mo_members _ Hm _ _ Hk) as [<- _], (mo_members _ Hm _ _ Hk') as [<- _]. intros E. rewrite E in Hk. congruence.
Qed.

Lemma receivers_sublist : receivers `sublist_of` m_ID <$> list_members b0.
Proof. apply fmap_sublist. etrans; [apply sublist_filter|apply sublist_filter]. Qed.

Lemma plan_plannable v avoid : receivers ≠ [] → viewed b0 (id_set alive) (λ _, False) v →
  Forall (plannable b0 (list_members b0)) (PlanRebalance (MkInput (pv_load v) (pv_movable v) receivers avoid)).
Proof.
  intros Hne Hv. set (input := MkInput _ _ _ _).
  assert (input_ok input) as Hin.
  { split; simpl; [|intros (m & Hid & [_ Hin]%list_elem_of_filter)%list_elem_of_fmap|done|apply Hv].
    - eapply sublist_NoDup; [apply members_nodup|apply receivers_sublist].
    - apply list_elem_of_filter in Hin as [_ Hin]. apply list_members_in in Hin; [|done]. congruence. }
  destruct (plan_spec input Hin avoid) as (Hshed & _ & Hto). rewrite plan_eq by done. simpl in Hshed, Hto |- *.
  set (mvs := place _ _ _ _) in *. apply Forall_forall. intros mv Hmv. destruct (Hto mv Hmv) as [HR Hdiff].
  assert (shed_of mv ∈ shed_pool (pv_movable v) (plan_caps input)) as Hs by (rewrite <-Hshed; by apply list_elem_of_fmap_2).
  apply elem_of_pool in Hs as [Hs _]. simpl in Hs. unfold shed in Hs. apply list_elem_of_fmap in Hs as (r & [= Er] & Hr).
  assert (r ∈ parts_of (pv_movable v) (mv_From mv)) as Hr'.
  { eapply elem_of_submseteq; [exact Hr|]. etrans; [apply sublist_submseteq, sublist_take|]. by rewrite merge_sort_Permutation. }
  subst r. destruct (vw_movable _ _ _ _ Hv _ _ Hr') as [Hal Hrow]. split; [done|]. split; [done|]. split.
  - unfold plan_receivers in HR. rewrite sort_strings_perm in HR. simpl in HR.
    apply list_elem_of_fmap in HR as (m & -> & [? Hin']%list_elem_of_filter). unfold AliveMembers in Hin'.
    apply list_elem_of_filter in Hin' as [? ?]. eauto 6.
  - unfold id_set in Hal. apply elem_of_list_to_set, list_elem_of_fmap in Hal as (m & -> & Hal).
    unfold AliveMembers in Hal. apply list_elem_of_filter in Hal as [? ?]. eauto.
Qed.

Lemma buildPlanInput_ok :
  triple done_ start (buildPlanInput L bud (list_topics b0) receivers (id_set alive))
    (λ v w, viewed b0 (id_set alive) (λ _, False) v ∧ start w).
Proof.
  eapply triple_conseq; [apply (triple_fold_each (λ ts v w, (NoDup (t_Name <$> ts) ∧ (∀ t, t ∈ ts → topics b0 !! t_Name t = Some t)
    ∧ viewed b0 (id_set alive) (λ a, a_Topic a ∈ t_Name <$> ts) v) ∧ start w))| |].
  - intros t ts v w [(Hnd & Hts & Hv) Hw]. revert w Hw. eapply triple_bind; [apply read_start|].
    intros rows. apply triple_ret. intros w [Hw ->].
    rewrite fmap_cons, NoDup_cons in Hnd. destruct Hnd as [Hn Hnd]. split; [|done].
    split; [done|]. split; [intros x Hx; apply Hts; by right|]. apply viewed_topic; [done|apply Hts; left|done|done].
  - intros w Hw. split; [|done]. split; [|split; [intros t; by apply list_topics_in|]].
    + unfold list_topics. rewrite <-list_fmap_compose. apply NoDup_fmap_2_strong; [|rewrite in_key_order_perm; apply NoDup_map_to_list].
      intros [k t] [k' t'] Hk%elem_of_in_key_order Hk'%elem_of_in_key_order. simpl.
      rewrite (core_name _ _ _ (mo_core _ Hm) Hk), (core_name _ _ _ (mo_core _ Hm) Hk'). intros ->. congruence.
    + split; simpl; try (by intros a ?%elem_of_nil); [| |by intros n r ?%elem_of_nil|].
      * intros k a _ [_ [t Ht]]. left. apply list_elem_of_fmap. exists t. split; [by rewrite (core_name _ _ _ (mo_core _ Hm) Ht)|].
        apply list_topics_in; [done|]. by rewrite (core_name _ _ _ (mo_core _ Hm) Ht).
      * constructor.
      * intros n. unfold count_of. simpl. destruct (list_to_map _ !! n) as [x|] eqn:E; [|done].
        apply elem_of_list_to_map_2, list_elem_of_fmap in E as (r & [= _ ->] & _). done.
  - intros v w [(_ & _ & Hv) Hw]. split; [|done]. eapply viewed_ext; [|exact Hv]. intros k a _. simpl. rewrite elem_of_nil. done.
Qed.

Lemma flying_listed v : viewed b0 (id_set alive) (λ _, False) v → (size (flying b0 (assignments b0)) <= length (pv_inFlight v))%nat.
Proof.
  intros Hv. rewrite <-length_map_to_list, <-(length_fmap snd). apply submseteq_length, NoDup_submseteq.
  - apply NoDup_fmap_2_strong; [|apply NoDup_map_to_list].
    intros [k a] [k' a'] Hk%elem_of_map_to_list%map_lookup_filter_Some Hk'%elem_of_map_to_list%map_lookup_filter_Some. simpl.
    intros <-. destruct Hk as [Hk _], Hk' as [Hk' _]. by rewrite (start_keyed _ _ Hk), (start_keyed _ _ Hk').
  - intros a ([k a'] & -> & [Hk Hf]%elem_of_map_to_list%map_lookup_filter_Some)%list_elem_of_fmap. simpl in *.
    by destruct (vw_all _ _ _ _ Hv k a' Hk Hf).
Qed.

Lemma rebalance_ended : triple done_ start (reconcileRebalance L bud cfg since now) (λ _, done_).
Proof.
  unfold reconcileRebalance. assert (∀ c, triple done_ start (require c) (λ _ w, c = true ∧ start w)) as Hreq.
  { intros c. apply triple_require, start_done. }
  assert (triple done_ start (IsLeader L bud) (λ _, start) ∧ triple done_ start (Barrier L bud) (λ _, start)) as [Hl Hb].
  { split; (eapply triple_exit; [apply ask_at|apply start_done]). }
  eapply triple_bind; [exact Hl|]. intros leads. eapply triple_bind; [apply Hreq|]. intros [].
  eapply (triple_conseq _ start _ _ (λ _, done_)); [|by intros w [_ ?]|done].
  eapply triple_bind; [exact Hb|]. intros bar. eapply triple_bind; [apply Hreq|]. intros [].
  eapply (triple_conseq _ start _ _ (λ _, done_)); [|by intros w [_ ?]|done].
  eapply triple_bind; [apply read_start|].
  intros ms w [Hw ->]. revert w Hw. eapply triple_bind; [apply Hreq|]. intros [] w [Hne%bool_decide_eq_true Hw]. revert w Hw.
  eapply triple_bind; [apply read_start|].
  intros ts w [Hw ->]. revert w Hw. eapply triple_bind; [apply buildPlanInput_ok|]. intros v w [Hv Hw]. revert w Hw.
  set (aborts := abort_state cfg b0 since now (list_members b0) N).
  eapply (triple_bind _ _ _ (aborts [])); [eapply (triple_conseq _ (aborts (pv_inFlight v) ∅) _ _ (aborts [])); [by apply abortDeadTargetMoves_ok| |done]|].
  { intros w Hw. split; [apply Hv|]. split; [intros a Ha; by apply Hv in Ha as (? & ? & _)|]. exists (assignments b0).
    split; [|done]. split; [apply start_keyed|apply start_rows|intros a Ha; by apply Hv in Ha as (? & _)|rewrite size_empty; lia]. }
  intros aborted w (_ & _ & A & Hab & Hw). revert w Hw. pose proof (flying_listed v Hv). pose proof (ab_size _ _ _ _ _ _ _ _ Hab).
  eapply triple_bind; [apply triple_require; intros w Hw; by eapply aborting_ended|]. intros [] w [Hbud Hw]. revert w Hw.
  apply set_targets_ok; [by apply plan_plannable|by apply Hab|by apply Hab|lia|lia].
Qed.

End Whole.

(** C26. A rebalance pass with no other command in between, on a database
    that satisfies the metadata invariant and has no member without a name,
    whatever calls fail, whichever of the failed proposals commit all the
    same, and wherever the pass is cut short: every assignment row is still
    there with its owner; a row changes only by dropping a move whose target
    cannot complete it, or by getting a target where it had none, and then
    the owner is alive and the target another live member that is not
    draining; and the moves in flight are no more than before or than
    [MaxInFlightMoves], plus one for each call that failed and committed,
    since the pass does not take those off its budget. *)
Theorem rebalance_within_budget L bud cfg since now b calls log r w' :
  meta_ok b → members b !! "" = None → Forall alone calls →
  reconcileRebalance L bud cfg since now (World b calls log) = (r, w') →
  rows_step cfg b since now (list_members b) (assignments (w_db w'))
  ∧ Z.of_nat (size (flying b (assignments (w_db w'))))
      <= Z.max (Z.of_nat (size (flying b (assignments b)))) (c_MaxInFlightMoves cfg) + lost_calls calls.
Proof.
  intros Hm Hids Hcalls Hrun. pose proof (rebalance_ended L bud cfg b Hm Hids since now (lost_calls calls) (World b calls log)) as H. rewrite Hrun in H.
  assert (ended cfg b since now (list_members b) (lost_calls calls) w') as (A & -> & HA & Hsz); [|done].
  assert (at_rows b (assignments b) (lost_calls calls) (World b calls log)) as Hstart; [|by destruct r; apply H].
  split; [|unfold low; cbn; lia]. split; [|simpl; by rewrite db_self]. split; [done| |by apply Forall_true].
  eapply Forall_impl; [exact Hcalls|]. intros cl Hcl. split; [done|]. by rewrite Hcl.
Qed.
