(* ===== verification/ControllerDemo.v ===== *)
(** * A cluster under its controller

    A five-node cluster with a draining node, a move aimed at it and
    partitions without an owner, on which the theorems about the leader's
    passes are instantiated. *)

From S2P Require Import Prelude Decimal Keys Json Meta Versions FsmTopics FsmCluster FsmRemotes Fsm FanInv SchemaInv MetaInv History MetaClaims.
From S2P Require Import Store Placement Plan Controller Decommission Heartbeats Sweep Rebalance.

(** ["orders"] has four partitions, one of them unassigned; ["audit"] is
    attached to it. *)
Definition cluster_log : list command :=
  [ OpCreateTopicWith (MkCreateWith (new_topic "orders" "id-1" 4) "" None)
  ; OpCreateTopicWith (MkCreateWith (new_topic "audit" "id-2" 1) "" (Some (MkCreateLink "orders" "id-1" "e1" 0 [])))
  ; OpMemberJoin (node "n1"); OpMemberJoin (node "n2"); OpMemberJoin (node "n3"); OpMemberJoin (node "n4"); OpMemberJoin (node "n5")
  ; OpAssignPartition (MkAssignment "orders" 0 "n1" "")
  ; OpAssignPartition (MkAssignment "orders" 1 "n1" "")
  ; OpAssignPartition (MkAssignment "orders" 2 "n1" "")
  ; OpSetAssignmentTarget "orders" 0 "n5"
  ; OpSetMemberDraining "n5" true ].

Definition cluster_db : buckets := foldl (commit demo_lib demo_bud) empty_buckets cluster_log.

Lemma cluster_meta : meta_ok cluster_db.
Proof.
  assert (Forall command_ok cluster_log) as Hok.
  { repeat (apply Forall_cons; split); try done; try apply Forall_nil; (split; [split; auto|by vm_compute]) || by vm_compute. }
  unfold cluster_db. assert (meta_ok empty_buckets) as Hm by apply empty_meta. revert Hm.
  generalize empty_buckets. induction Hok as [|c cs Hc _ IH]; intros b Hm; [done|]. simpl. by apply IH, commit_meta.
Qed.

Definition demo_config : Config :=
  MkConfig 30000000000 2 3 60000000000 (Some (λ _, Status (MkNodeStatus true 0 0 0))).

Definition demo_clock : clock := MkClock 90000000000 1000.

Definition five : list string := ["n1"; "n2"; "n3"; "n4"; "n5"].

(** A call while others commit [cs], and an undisturbed one. *)
Definition call_amid (cs : list command) : call := MkCall cs true false true (Some five) (Some []) "n1".
Definition quiet_call : call := call_amid [].

Definition beat : call := call_amid [OpMemberHeartbeat "n2" 7].

(** Runs of one pass, from the calls on. *)
Definition run {A} (p : prog A) (calls : list call) : option A * world := p (World cluster_db calls []).

Definition last_event (w : world) : event := default LeadershipTransferred (last (w_log w)).

Lemma last_event_in w : w_log w ≠ [] → last_event w ∈ w_log w.
Proof.
  intros Hne. unfold last_event. destruct (last (w_log w)) as [e|] eqn:E.
  - apply last_Some_elem_of in E. done.
  - apply last_None in E. done.
Qed.

Definition demo_locked : option unit * world :=
  run (decommission_locked demo_lib demo_bud demo_config demo_clock (list_members cluster_db)
         {["n5" := Status (MkNodeStatus true 0 0 0)]}) (beat :: replicate 12 quiet_call).

(** The database in which the removal was proposed. *)
Definition removal_db : buckets := match last_event demo_locked.2 with Proposed _ b => b | _ => empty_buckets end.

Lemma removal_proposed : Proposed (OpRemoveMember "n5" 1000) removal_db ∈ w_log demo_locked.2.
Proof.
  assert (last_event demo_locked.2 = Proposed (OpRemoveMember "n5" 1000) removal_db) as <-.
  { unfold removal_db. destruct (last_event demo_locked.2) as [c b| |] eqn:E; [|by vm_compute in E..].
    assert ((match last_event demo_locked.2 with Proposed c _ => c | _ => OpReadmitMember "" end) = OpRemoveMember "n5" 1000) as Hc by (by vm_compute).
    rewrite E in Hc. by rewrite Hc. }
  apply last_event_in. by vm_compute.
Qed.

Lemma demo_locked_run :
  decommission_locked demo_lib demo_bud demo_config demo_clock (list_members cluster_db)
    {["n5" := Status (MkNodeStatus true 0 0 0)]} (World cluster_db (beat :: replicate 12 quiet_call) []) = (demo_locked.1, demo_locked.2).
Proof. change (demo_locked = (demo_locked.1, demo_locked.2)). by destruct demo_locked. Qed.

Lemma demo_calls_off : Forall (λ cl, Forall (λ c, command_ok c ∧ keeps_off "n5" c) (cl_others cl)) (beat :: replicate 12 quiet_call).
Proof. repeat constructor. Qed.

Definition demo_world : world := World cluster_db (beat :: replicate 12 quiet_call) [].

Lemma decommission_clears_witness :
  Proposed (OpRemoveMember "n5" 1000) removal_db ∈ w_log demo_locked.2
  ∧ ∀ k a, assignments removal_db !! k = Some a → a_OwnerID a = "n5" ∨ a_TargetID a = "n5" →
      topics (w_db demo_world) !! a_Topic a = None
      ∧ ∃ a0, assignments (w_db demo_world) !! k = Some a0 ∧ (a_OwnerID a0 = "n5" ∨ a_TargetID a0 = "n5").
Proof.
  split; [apply removal_proposed|].
  exact (decommission_clears demo_lib demo_bud demo_config demo_clock (list_members cluster_db)
    {["n5" := Status (MkNodeStatus true 0 0 0)]} "n5" demo_world demo_locked.1 demo_locked.2 1000
    removal_db ltac:(done) cluster_meta eq_refl demo_calls_off demo_locked_run removal_proposed).
Defined.

Definition demo_decommission : option unit * world :=
  run (reconcileDecommission demo_lib demo_bud demo_config demo_clock) (replicate 17 quiet_call).

Lemma demo_decommission_run :
  reconcileDecommission demo_lib demo_bud demo_config demo_clock (World cluster_db (replicate 17 quiet_call) [])
  = (demo_decommission.1, demo_decommission.2).
Proof. change (demo_decommission = (demo_decommission.1, demo_decommission.2)). by destruct demo_decommission. Qed.

Lemma n5_leaves : ServerRemoved "n5" five ∈ w_log demo_decommission.2.
Proof.
  assert (w_log demo_decommission.2 !! 1%nat = Some (ServerRemoved "n5" five)) as H by (by vm_compute).
  by eapply list_elem_of_lookup_2.
Qed.

Lemma n5_follows : Forall (λ cl, cl_leader cl ≠ "n5") (replicate 14 quiet_call).
Proof. by apply Forall_replicate. Qed.

Lemma n5_votes : "n5" ∈ five.
Proof. unfold five. set_solver. Qed.

Lemma decommission_keeps_quorum_witness :
  let ms := list_members (foldl (commit demo_lib demo_bud) cluster_db (cl_others quiet_call ++ cl_others quiet_call ++ cl_others quiet_call)) in
  ServerRemoved "n5" five ∈ w_log demo_decommission.2 ∧ quorum_kept demo_config ms five "n5" ∧ answered demo_config ms "n5".
Proof.
  pose proof (decommission_keeps_quorum demo_lib demo_bud demo_config demo_clock cluster_db quiet_call quiet_call quiet_call
    (replicate 14 quiet_call) demo_decommission.1 demo_decommission.2 "n5" five demo_decommission_run n5_leaves) as [H1 H2].
  exact (conj n5_leaves (conj (H1 n5_votes) (H2 n5_follows))).
Defined.

(** ** Heartbeats: two members are silent *)

Definition beats : call := call_amid [OpMemberHeartbeat "n1" 999; OpMemberHeartbeat "n2" 999; OpMemberHeartbeat "n3" 999].

Definition demo_heartbeats : option unit * world :=
  run (checkHeartbeats demo_lib demo_bud demo_config (Some 0) true demo_clock) (quiet_call :: beats :: replicate 4 quiet_call).

Lemma demo_heartbeats_run :
  checkHeartbeats demo_lib demo_bud demo_config (Some 0) true demo_clock (World cluster_db (quiet_call :: beats :: replicate 4 quiet_call) [])
  = (demo_heartbeats.1, demo_heartbeats.2).
Proof. change (demo_heartbeats = (demo_heartbeats.1, demo_heartbeats.2)). by destruct demo_heartbeats. Qed.

Lemma two_marked : marked (w_log demo_heartbeats.2) = ["n4"; "n5"].
Proof. by vm_compute. Qed.

Lemma marked_voter : ∃ v, v ∈ five ∧ v ∈ marked (w_log demo_heartbeats.2).
Proof. exists "n5". rewrite two_marked. split; [apply n5_votes|set_solver]. Qed.

Lemma dead_marks_keep_quorum_witness :
  let ms := list_members (foldl (commit demo_lib demo_bud) cluster_db (concat (cl_others <$> [quiet_call; beats]))) in
  marked (w_log demo_heartbeats.2) = ["n4"; "n5"]
  ∧ (length five / 2 + 1 <= length (voters_alive ms "n1" (marked (w_log demo_heartbeats.2)) five))%nat.
Proof.
  pose proof (dead_marks_keep_quorum demo_lib demo_bud demo_config (Some 0) true demo_clock cluster_db quiet_call quiet_call beats
    quiet_call quiet_call (replicate 2 quiet_call) demo_heartbeats.1 demo_heartbeats.2 demo_heartbeats_run) as [_ H].
  exact (conj two_marked (H marked_voter)).
Defined.

(** ** The sweep and a rebalance *)

Lemma cluster_no_anonymous : members cluster_db !! "" = None.
Proof. by vm_compute. Qed.

Lemma quiet_calls n : Forall quiet (replicate n quiet_call).
Proof. by apply Forall_replicate. Qed.

Lemma cluster_fits : counts_fit cluster_db.
Proof.
  assert (map_Forall (λ _ t, in_i64 (t_Partitions t)) (topics cluster_db)) as H; [|exact H].
  refine (bool_decide_unpack _ _). by vm_compute.
Qed.

Lemma cluster_owned : owned_rows cluster_db.
Proof.
  assert (map_Forall (λ _ a, a_OwnerID a ≠ "") (assignments cluster_db)) as H; [|exact H].
  refine (bool_decide_unpack _ _). by vm_compute.
Qed.

Lemma cluster_active : sweep_active cluster_db ≠ [].
Proof. by vm_compute. Qed.

Lemma sweep_calls : (4 + sum_list_with sweep_cost (parents_first (list_topics cluster_db)) <= length (replicate 22 quiet_call))%nat.
Proof. refine (bool_decide_unpack _ _). by vm_compute. Qed.

Lemma sweep_places_all_witness :
  assignments cluster_db !! "orders:3" = None
  ∧ ∃ b' m log', reconcileAssignments demo_lib demo_bud (World cluster_db (replicate 22 quiet_call) []) = (Some (), World b' (drop m (replicate 22 quiet_call)) log')
    ∧ (∀ n t p, topics cluster_db !! n = Some t → 0 <= p < t_Partitions t → has_owner b' n p)
    ∧ assignments cluster_db ⊆ assignments b'
    ∧ ∀ k a, assignments b' !! k = Some a → assignments cluster_db !! k = Some a ∨ placed (sweep_active cluster_db) b' a.
Proof.
  split; [by vm_compute|].
  exact (sweep_places_all demo_lib demo_bud cluster_db (replicate 22 quiet_call) [] cluster_meta cluster_fits cluster_owned
    cluster_no_anonymous cluster_active (quiet_calls 22) sweep_calls).
Defined.

(** A proposal that fails, and commits all the same. *)
Definition lost_call : call := MkCall [] false true true (Some five) (Some []) "n1".
Definition rebalance_calls : list call := replicate 8 quiet_call ++ lost_call :: replicate 4 quiet_call.

Definition demo_rebalance : option unit * world :=
  run (reconcileRebalance demo_lib demo_bud demo_config (Some 0) demo_clock) rebalance_calls.

Lemma demo_rebalance_run :
  reconcileRebalance demo_lib demo_bud demo_config (Some 0) demo_clock (World cluster_db rebalance_calls [])
  = (demo_rebalance.1, demo_rebalance.2).
Proof. change (demo_rebalance = (demo_rebalance.1, demo_rebalance.2)). by destruct demo_rebalance. Qed.

Lemma alone_calls : Forall alone rebalance_calls.
Proof. repeat constructor. Qed.

Lemma rebalance_within_budget_witness :
  size (flying cluster_db (assignments (w_db demo_rebalance.2))) = 2%nat
  ∧ rows_step demo_config cluster_db (Some 0) demo_clock (list_members cluster_db) (assignments (w_db demo_rebalance.2)).
Proof.
  split; [by vm_compute|].
  exact (proj1 (rebalance_within_budget demo_lib demo_bud demo_config (Some 0) demo_clock cluster_db rebalance_calls []
    demo_rebalance.1 demo_rebalance.2 cluster_meta cluster_no_anonymous alone_calls demo_rebalance_run)).
Defined.
