(* ===== verification/Octets.v ===== *)
(** * Byte strings

    Byte slices as lists of integers, the fixed-width big-endian encodings
    of [encoding/binary], and the CRC-32 of [hash/crc32], which the
    write-ahead log's frames are made of. *)

From S2P Require Import Prelude.

Abbreviation octets := (list Z).

#[local] Arguments Z.mul : simpl never.
#[local] Arguments Z.add : simpl never.
#[local] Arguments Z.pow : simpl never.

Definition blen (s : octets) : Z := Z.of_nat (length s).

(** [make([]byte, n)]. *)
Definition zero_bytes (n : nat) : octets := replicate n 0.

(** ** Big endian *)

(** [binary.BigEndian.PutUint32] ([n = 4]) and [PutUint64] ([n = 8]). *)
Fixpoint put_be (n : nat) (x : Z) : octets :=
  match n with
  | O => []
  | S n => (x / 256 ^ Z.of_nat n) mod 256 :: put_be n x
  end.

(** [binary.BigEndian.Uint32] and [Uint64]. *)
Definition get_be (s : octets) : Z := foldl (λ a b, a * 256 + b mod 256) 0 s.

Lemma length_put_be n x : length (put_be n x) = n.
Proof. induction n; simpl; congruence. Qed.

Lemma get_be_from a n x :
  foldl (λ a b, a * 256 + b mod 256) a (put_be n x) = a * 256 ^ Z.of_nat n + x mod 256 ^ Z.of_nat n.
Proof.
  revert a. induction n as [|n IH]; intros a; cbn [put_be foldl].
  - change (256 ^ Z.of_nat 0) with 1. rewrite Z.mod_1_r. lia.
  - rewrite IH, Zmod_mod. replace (Z.of_nat (S n)) with (1 + Z.of_nat n) by lia. rewrite Z.pow_add_r by lia.
    change (256 ^ 1) with 256. set (p := 256 ^ Z.of_nat n). assert (0 < p) by (apply Z.pow_pos_nonneg; lia).
    rewrite (Z.mul_comm 256 p), Z.rem_mul_r by lia. lia.
Qed.

Lemma get_put_be n x : 0 <= x < 256 ^ Z.of_nat n → get_be (put_be n x) = x.
Proof. intros H. unfold get_be. rewrite get_be_from, Z.mod_small by done. lia. Qed.

Lemma get_be_nonneg s : 0 <= get_be s.
Proof.
  unfold get_be. assert (∀ a, 0 <= a → 0 <= foldl (λ a b, a * 256 + b mod 256) a s) as H; [|by apply H].
  induction s as [|b s IH]; intros a Ha; [done|]. cbn [foldl]. apply IH.
  pose proof (Z.mod_pos_bound b 256). lia.
Qed.

(** ** CRC-32 *)

Definition u32 (x : Z) : Z := x mod 2 ^ 32.

Lemma u32_range x : 0 <= u32 x < 2 ^ 32.
Proof. apply Z.mod_pos_bound. lia. Qed.

Lemma u32_id x : 0 <= x < 2 ^ 32 → u32 x = x.
Proof. apply Z.mod_small. Qed.

(** The reversed polynomials of [crc32.IEEE] and [crc32.Castagnoli]. *)
Definition crc_poly : Z := 0xedb88320.
Definition castagnoli : Z := 0x82f63b78.

(** One entry of [crc32.MakeTable(poly)], bit by bit. *)
Fixpoint crc_bits (poly : Z) (k : nat) (c : Z) : Z :=
  match k with
  | O => c
  | S k => crc_bits poly k (if Z.testbit c 0 then Z.lxor (Z.shiftr c 1) poly else Z.shiftr c 1)
  end.

Definition crc_step (poly crc v : Z) : Z :=
  u32 (Z.lxor (crc_bits poly 8 (Z.land (Z.lxor crc v) 255)) (Z.shiftr crc 8)).

(** Bitwise complement of a [uint32]. *)
Definition not32 (x : Z) : Z := u32 (Z.lnot x).

(** [crc32.Update(crc, tab, p)] for the table of a polynomial. *)
Definition crc_update_tab (poly crc : Z) (p : octets) : Z := not32 (foldl (crc_step poly) (not32 crc) p).

(** [crc32.Update(crc, crc32.IEEETable, p)]. *)
Definition crc_update (crc : Z) (p : octets) : Z := crc_update_tab crc_poly crc p.

(** [crc32.ChecksumIEEE]. *)
Definition crc32 (p : octets) : Z := crc_update 0 p.

Lemma not32_not32 x : 0 <= x < 2 ^ 32 → not32 (not32 x) = x.
Proof.
  intros H. unfold not32, u32, Z.lnot. rewrite <-!Z.sub_1_r.
  assert ((- x - 1) mod 2 ^ 32 = 2 ^ 32 - 1 - x) as ->.
  { symmetry. apply Z.mod_unique with (-1); lia. }
  symmetry. apply Z.mod_unique with (-1); lia.
Qed.

Lemma crc_steps_range poly c p : 0 <= c < 2 ^ 32 → 0 <= foldl (crc_step poly) c p < 2 ^ 32.
Proof. revert c. induction p as [|v p IH]; intros c Hc; [done|]. apply IH, u32_range. Qed.

(** Checksums can be taken piece by piece. *)
Lemma crc_update_tab_app poly crc a b :
  crc_update_tab poly crc (a ++ b) = crc_update_tab poly (crc_update_tab poly crc a) b.
Proof.
  unfold crc_update_tab. rewrite foldl_app, not32_not32; [done|]. apply crc_steps_range, u32_range.
Qed.

Lemma crc_update_app crc a b : crc_update crc (a ++ b) = crc_update (crc_update crc a) b.
Proof. apply crc_update_tab_app. Qed.

Lemma crc_update_tab_range poly crc p : 0 <= crc_update_tab poly crc p < 2 ^ 32.
Proof. apply u32_range. Qed.

Lemma crc32_range p : 0 <= crc32 p < 2 ^ 32.
Proof. apply u32_range. Qed.

(** The checksum of the check string of the CRC-32 standard. *)
Example crc32_check : crc32 [49; 50; 51; 52; 53; 54; 55; 56; 57] = 0xcbf43926.
Proof. vm_compute. reflexivity. Qed.

(** The same string under the Castagnoli polynomial. *)
Example crc32c_check : crc_update_tab castagnoli 0 [49; 50; 51; 52; 53; 54; 55; 56; 57] = 0xe3069283.
Proof. vm_compute. reflexivity. Qed.

(** ** SHA-256 and HMAC

    [crypto/sha256] and [crypto/hmac] over byte strings (FIPS 180-4,
    RFC 2104), which the stream handshake's proofs are made of. *)

(** ** SHA-256 *)

Definition add32 (a b : Z) : Z := u32 (a + b).
Definition rotr (n x : Z) : Z := Z.lor (Z.shiftr x n) (u32 (Z.shiftl x (32 - n))).

Definition bsig0 (x : Z) : Z := Z.lxor (rotr 2 x) (Z.lxor (rotr 13 x) (rotr 22 x)).
Definition bsig1 (x : Z) : Z := Z.lxor (rotr 6 x) (Z.lxor (rotr 11 x) (rotr 25 x)).
Definition ssig0 (x : Z) : Z := Z.lxor (rotr 7 x) (Z.lxor (rotr 18 x) (Z.shiftr x 3)).
Definition ssig1 (x : Z) : Z := Z.lxor (rotr 17 x) (Z.lxor (rotr 19 x) (Z.shiftr x 10)).
Definition choose (x y z : Z) : Z := Z.lxor (Z.land x y) (Z.land (not32 x) z).
Definition majority (x y z : Z) : Z := Z.lxor (Z.land x y) (Z.lxor (Z.land x z) (Z.land y z)).

(** The constants are the first 32 bits of the fractional parts of cube
    and square roots of the first primes. *)
Definition is_prime (n : Z) : bool := forallb (λ d, negb (n mod Z.of_nat d =? 0)) (seq 2 (Z.to_nat n - 2)).
Definition primes : list Z := filter (λ n, is_prime n = true) (Z.of_nat <$> seq 2 310).

(** The bits of the integer cube root of [n], from [2 ^ k] down. *)
Fixpoint cube_root (k : nat) (r n : Z) : Z :=
  match k with
  | O => r
  | S k => let r' := r + 2 ^ Z.of_nat k in cube_root k (if r' * r' * r' <=? n then r' else r) n
  end.

Definition round_constants : list Z := Eval vm_compute in (λ p, u32 (cube_root 36 0 (p * 2 ^ 96))) <$> primes.

Record hash_state := MkHash { ha : Z; hb : Z; hc : Z; hd : Z; he : Z; hf : Z; hg : Z; hh : Z }.

Definition root_bits (p : Z) : Z := u32 (Z.sqrt (p * 2 ^ 64)).
Definition initial_hash : hash_state := Eval vm_compute in
  MkHash (root_bits 2) (root_bits 3) (root_bits 5) (root_bits 7) (root_bits 11) (root_bits 13) (root_bits 17) (root_bits 19).

(** The message schedule: the words so far, latest first. *)
Fixpoint schedule (n : nat) (w : list Z) : list Z :=
  match n with
  | O => w
  | S n =>
      let at_ k := nth k w 0 in
      schedule n (add32 (add32 (ssig1 (at_ 1%nat)) (at_ 6%nat)) (add32 (ssig0 (at_ 14%nat)) (at_ 15%nat)) :: w)
  end.

Definition round (s : hash_state) (kw : Z * Z) : hash_state :=
  let t1 := add32 (hh s) (add32 (bsig1 (he s)) (add32 (choose (he s) (hf s) (hg s)) (add32 kw.1 kw.2))) in
  let t2 := add32 (bsig0 (ha s)) (majority (ha s) (hb s) (hc s)) in
  MkHash (add32 t1 t2) (ha s) (hb s) (hc s) (add32 (hd s) t1) (he s) (hf s) (hg s).

Fixpoint words (n : nat) (block : octets) : list Z :=
  match n with O => [] | S n => get_be (take 4 block) :: words n (drop 4 block) end.

Definition compress (h : hash_state) (block : octets) : hash_state :=
  let w := rev (schedule 48 (rev (words 16 block))) in
  let s := foldl round h (zip round_constants w) in
  MkHash (add32 (ha h) (ha s)) (add32 (hb h) (hb s)) (add32 (hc h) (hc s)) (add32 (hd h) (hd s))
    (add32 (he h) (he s)) (add32 (hf h) (hf s)) (add32 (hg h) (hg s)) (add32 (hh h) (hh s)).

Fixpoint blocks (n : nat) (h : hash_state) (s : octets) : hash_state :=
  match n with O => h | S n => blocks n (compress h (take 64 s)) (drop 64 s) end.

(** The message, a one bit, zeros up to 56 modulo 64 bytes, and the length
    in bits. *)
Definition padded (s : octets) : octets :=
  s ++ [0x80] ++ zero_bytes (Z.to_nat ((55 - blen s) mod 64)) ++ put_be 8 (blen s * 8).

Definition sha256 (s : octets) : octets :=
  let p := padded s in
  let h := blocks (length p / 64) initial_hash p in
  [ha h; hb h; hc h; hd h; he h; hf h; hg h; hh h] ≫= put_be 4.

(** ** HMAC *)

Definition block_key (key : octets) : octets :=
  let key := if 64 <? blen key then sha256 key else key in
  key ++ zero_bytes (64 - length key).

Definition hmac_sha256 (key msg : octets) : octets :=
  let k := block_key key in
  sha256 ((Z.lxor 0x5c <$> k) ++ sha256 ((Z.lxor 0x36 <$> k) ++ msg)).

Lemma length_sha256 s : length (sha256 s) = 32%nat.
Proof. unfold sha256. cbn [mbind list_bind]. rewrite !length_app, !length_put_be. done. Qed.

Lemma length_hmac key msg : length (hmac_sha256 key msg) = 32%nat.
Proof. apply length_sha256. Qed.

(** The standard's digest of [abc]. *)
Example sha256_abc :
  sha256 [97; 98; 99] =
    [0xba; 0x78; 0x16; 0xbf; 0x8f; 0x01; 0xcf; 0xea; 0x41; 0x41; 0x40; 0xde; 0x5d; 0xae; 0x22; 0x23;
     0xb0; 0x03; 0x61; 0xa3; 0x96; 0x17; 0x7a; 0x9c; 0xb4; 0x10; 0xff; 0x61; 0xf2; 0x00; 0x15; 0xad].
Proof. vm_compute. reflexivity. Qed.

(** Test case 2 of RFC 4231: key [Jefe], data [what do ya want for nothing?]. *)
Example hmac_jefe :
  hmac_sha256 [74; 101; 102; 101]
    [119; 104; 97; 116; 32; 100; 111; 32; 121; 97; 32; 119; 97; 110; 116; 32; 102; 111; 114; 32; 110; 111; 116; 104; 105; 110; 103; 63] =
    [0x5b; 0xdc; 0xc1; 0x46; 0xbf; 0x60; 0x75; 0x4e; 0x6a; 0x04; 0x24; 0x26; 0x08; 0x95; 0x75; 0xc7;
     0x5a; 0x00; 0x3f; 0x08; 0x9d; 0x27; 0x39; 0x83; 0x9d; 0xec; 0x58; 0xb9; 0x64; 0xec; 0x38; 0x43].
Proof. vm_compute. reflexivity. Qed.
