(* ===== verification/NodeWire.v ===== *)
(** * The node-to-node wire protocol

    [internal/protocol/node]: every request and reply of the node RPC as
    bytes.  A request is its operation byte and its fields; integers are
    big-endian, strings and byte slices carry a 32-bit length.  Both are
    byte lists here.  A buffer's capacity is a hint and not modelled; an
    error is its kind without the text. *)

From S2P Require Import Prelude Octets.

Inductive wire_err :=
| ErrUnexpectedEOF
| ErrTrailing             (** [TrailingPayloadError] *)
| ErrUnexpectedOperation
| ErrFieldTooLarge
| ErrPartitionRange
| ErrInvalidField.

Abbreviation encoded := (result wire_err octets).

(** ** Operations *)

Definition OpProduce : Z := 1.
Definition OpConsume : Z := 2.
Definition OpAck : Z := 3.
Definition OpCreateTopic : Z := 4.
Definition OpAlterTopic : Z := 5.
Definition OpDeleteTopic : Z := 6.
Definition OpPurgeTopic : Z := 7.
Definition OpTopicPartitionStats : Z := 8.
Definition OpRegisterMember : Z := 9.
Definition OpCommitProduce : Z := 10.
Definition OpCommitProduceBatch : Z := 11.
Definition OpCreateUser : Z := 12.
Definition OpUpdateUser : Z := 13.
Definition OpDeleteUser : Z := 14.
Definition OpAttachChild : Z := 15.
Definition OpDetachChild : Z := 16.
Definition OpFanoutCursors : Z := 17.
Definition OpExtendAck : Z := 18.
Definition OpNack : Z := 19.
Definition OpGetTopic : Z := 20.
Definition OpJoinCluster : Z := 21.
Definition OpListPartitionSegments : Z := 22.
Definition OpFetchSegmentChunk : Z := 23.
Definition OpPrepareHandoff : Z := 24.
Definition OpDecommissionMember : Z := 25.
Definition OpCompleteMove : Z := 26.
Definition OpAbortMove : Z := 27.
Definition OpGetAssignment : Z := 28.
Definition OpAppliedIndex : Z := 29.
Definition OpTokenRegister : Z := 30.
Definition OpTokenNotify : Z := 31.
Definition OpAckBatch : Z := 32.
Definition OpNodeStatus : Z := 33.
Definition OpForgetServer : Z := 34.
Definition OpRemoteWrite : Z := 35.
Definition OpRemoteCheck : Z := 36.

(** ** The writer: the bytes so far *)

Definition MaxUint16 : Z := 65535.
Definition MaxUint32 : Z := 2 ^ 32 - 1.
Definition MinInt32 : Z := - 2 ^ 31.
Definition MaxInt32 : Z := 2 ^ 31 - 1.

Definition opWriter (op : Z) : octets := [op].
Definition w_u8 (w : octets) (v : Z) : octets := w ++ [v].
Definition w_u16 (w : octets) (v : Z) : octets := w ++ put_be 2 v.
Definition w_u32 (w : octets) (v : Z) : octets := w ++ put_be 4 v.
Definition w_i32 (w : octets) (v : Z) : octets := w ++ put_be 4 v.
Definition w_i64 (w : octets) (v : Z) : octets := w ++ put_be 8 v.
Definition w_bool (w : octets) (v : bool) : octets := w ++ [if v then 1 else 0].

(** [string] and [bytes] encode alike. *)
Definition w_bytes (w : octets) (v : octets) : encoded :=
  if MaxUint32 <? blen v then Err ErrFieldTooLarge else Ok (w ++ put_be 4 (blen v) ++ v).
Definition w_string (w : octets) (v : octets) : encoded := w_bytes w v.

(** An optional trailing string, written only when set. *)
Definition w_string_if_set (w : octets) (v : octets) : encoded := if decide (v = []) then Ok w else w_string w v.

Definition partitionField (partition : Z) : result wire_err Z :=
  if (partition <? MinInt32) || (MaxInt32 <? partition) then Err ErrPartitionRange else Ok partition.

(** ** The reader: the bytes left *)

Definition reader (A : Type) : Type := octets → result wire_err (A * octets).

#[global] Instance reader_ret : MRet reader := λ A a r, Ok (a, r).
#[global] Instance reader_bind : MBind reader := λ A B f p r, let! (a, r) := p r in f a r.

Definition fails {A} (e : wire_err) : reader A := λ _, Err e.
Definition remaining : reader Z := λ r, Ok (blen r, r).

(** The next [n] bytes. *)
Definition r_take (n : nat) : reader octets := λ r,
  if (length r <? n)%nat then Err ErrUnexpectedEOF else Ok (take n r, drop n r).

Definition i32 (x : Z) : Z := (x + 2 ^ 31) mod 2 ^ 32 - 2 ^ 31.

Definition r_u8 : reader Z := b ← r_take 1; mret (get_be b).
Definition r_u16 : reader Z := b ← r_take 2; mret (get_be b).
Definition r_u32 : reader Z := b ← r_take 4; mret (get_be b).
Definition r_i32 : reader Z := b ← r_take 4; mret (i32 (get_be b)).
Definition r_i64 : reader Z := b ← r_take 8; mret (i64 (get_be b)).
Definition r_bool : reader bool :=
  v ← r_u8; if v =? 0 then mret false else if v =? 1 then mret true else fails ErrInvalidField.
Definition r_bytes : reader octets := n ← r_u32; r_take (Z.to_nat n).
Definition r_string : reader octets := r_bytes.
Definition r_done : reader unit := λ r, if decide (r = []) then Ok ((), []) else Err ErrTrailing.

(** [if r.remaining() > 0]: an optional trailing field. *)
Definition r_optional {A} (p : reader A) (absent : A) : reader A :=
  n ← remaining; if 0 <? n then p else mret absent.

Definition opReader (expected : Z) : reader unit :=
  op ← r_u8; if op =? expected then mret () else fails ErrUnexpectedOperation.

(** A decoder: the operation, the fields and nothing else. *)
Definition run {A} (p : reader A) (payload : octets) : result wire_err A := let! (a, _) := p payload in Ok a.

Definition OperationOf (payload : octets) : result wire_err Z :=
  match payload with [] => Err ErrUnexpectedEOF | op :: _ => Ok op end.

(** A loop of the writer or the reader. *)
Fixpoint w_each {A} (f : octets → A → encoded) (w : octets) (l : list A) : encoded :=
  match l with [] => Ok w | x :: l => let! w := f w x in w_each f w l end.

Fixpoint r_times {A} (p : reader A) (n : nat) : reader (list A) :=
  match n with O => mret [] | S n => x ← p; l ← r_times p n; mret (x :: l) end.

(** ** Produce *)

Record ProduceRequest := MkProduce { p_Topic : octets; p_Key : octets; p_Partition : Z; p_Payload : octets }.

Definition EncodeProduceRequest (req : ProduceRequest) : encoded :=
  let w := opWriter OpProduce in
  let! w := w_string w (p_Topic req) in
  let! w := w_string w (p_Key req) in
  let! partition := partitionField (p_Partition req) in
  let w := w_i32 w partition in
  w_bytes w (p_Payload req).

Definition DecodeProduceRequest : octets → result wire_err ProduceRequest := run (
  _ ← opReader OpProduce; topic ← r_string; key ← r_string; partition ← r_i32; body ← r_bytes; _ ← r_done;
  mret (MkProduce topic key partition body)).

Record CommitProduceRequest := MkCommitProduce {
  cp_Topic : octets;
  cp_TopicID : octets;
  cp_Key : octets;
  cp_TargetPartition : Z;
  cp_Payload : octets;
  cp_CreatedAtUnixMs : Z;
}.

Definition set_topic_id (id : octets) (r : CommitProduceRequest) : CommitProduceRequest :=
  MkCommitProduce (cp_Topic r) id (cp_Key r) (cp_TargetPartition r) (cp_Payload r) (cp_CreatedAtUnixMs r).

Definition writeCommitProduce (w : octets) (req : CommitProduceRequest) : encoded :=
  let! w := w_string w (cp_Topic req) in
  let! w := w_string w (cp_Key req) in
  let! partition := partitionField (cp_TargetPartition req) in
  let w := w_i32 w partition in
  let! w := w_bytes w (cp_Payload req) in
  Ok (w_i64 w (cp_CreatedAtUnixMs req)).

Definition readCommitProduce : reader CommitProduceRequest :=
  topic ← r_string; key ← r_string; partition ← r_i32; body ← r_bytes; createdAt ← r_i64;
  mret (MkCommitProduce topic [] key partition body createdAt).

Definition EncodeCommitProduceRequest (req : CommitProduceRequest) : encoded :=
  let! w := writeCommitProduce (opWriter OpCommitProduce) req in
  w_string_if_set w (cp_TopicID req).

Definition DecodeCommitProduceRequest : octets → result wire_err CommitProduceRequest := run (
  _ ← opReader OpCommitProduce; record ← readCommitProduce; id ← r_optional r_string []; _ ← r_done;
  mret (set_topic_id id record)).

(** The runs of records with the same topic ID: their length and the ID. *)
Fixpoint topic_runs (records : list CommitProduceRequest) : list (Z * octets) :=
  match records with
  | [] => []
  | r :: records =>
      match topic_runs records with
      | (n, id) :: runs => if decide (cp_TopicID r = id) then (n + 1, id) :: runs else (1, cp_TopicID r) :: (n, id) :: runs
      | [] => [(1, cp_TopicID r)]
      end
  end.

Definition write_run (w : octets) (run : Z * octets) : encoded := w_string (w_i32 w run.1) run.2.

Definition EncodeCommitProduceBatchRequest (records : list CommitProduceRequest) : encoded :=
  if MaxInt32 <? Z.of_nat (length records) then Err ErrInvalidField else
  let withIDs := existsb (λ r, negb (bool_decide (cp_TopicID r = []))) records in
  let w := w_i32 (opWriter OpCommitProduceBatch) (Z.of_nat (length records)) in
  let! w := w_each writeCommitProduce w records in
  if withIDs then
    let runs := topic_runs records in
    w_each write_run (w_i32 w (Z.of_nat (length runs))) runs
  else Ok w.

(** [readCommitProduceTopicIDs]: the runs, over the records still without
    an ID. *)
Fixpoint read_runs (runs : nat) (records : list CommitProduceRequest) : reader (list CommitProduceRequest) :=
  match runs with
  | O => if decide (records = []) then mret [] else fails ErrInvalidField
  | S runs =>
      n ← r_i32;
      if (n <=? 0) || (Z.of_nat (length records) <? n) then fails ErrInvalidField else
      id ← r_string;
      rest ← read_runs runs (drop (Z.to_nat n) records);
      mret ((set_topic_id id <$> take (Z.to_nat n) records) ++ rest)
  end.

Definition readCommitProduceTopicIDs (records : list CommitProduceRequest) : reader (list CommitProduceRequest) :=
  runs ← r_i32;
  if (runs <? 0) || (Z.of_nat (length records) <? runs) then fails ErrInvalidField else read_runs (Z.to_nat runs) records.

Definition DecodeCommitProduceBatchRequest : octets → result wire_err (list CommitProduceRequest) := run (
  _ ← opReader OpCommitProduceBatch; count ← r_i32;
  if count <? 0 then fails ErrInvalidField else
  records ← r_times readCommitProduce (Z.to_nat count);
  records ← r_optional (readCommitProduceTopicIDs records) records;
  _ ← r_done; mret records).

(** ** Consume *)

Record ConsumeRequest := MkConsume {
  c_Topic : octets;
  c_Partition : Z;
  c_HasPartition : bool;
  c_Offset : Z;
  c_HasOffset : bool;
  c_WaitNanos : Z;
  c_LocalOnly : bool;
  c_Claim : bool;
  c_Max : Z;
}.

Definition EncodeConsumeRequest (req : ConsumeRequest) : encoded :=
  let! partition := partitionField (c_Partition req) in
  if (c_Max req <? 0) || (MaxInt32 <? c_Max req) then Err ErrInvalidField else
  let! w := w_string (opWriter OpConsume) (c_Topic req) in
  let w := w_i32 w partition in
  let w := w_bool w (c_HasPartition req) in
  let w := w_i64 w (c_Offset req) in
  let w := w_bool w (c_HasOffset req) in
  let w := w_i64 w (c_WaitNanos req) in
  let w := w_bool w (c_LocalOnly req) in
  let batch := 1 <? c_Max req in
  let w := if c_Claim req || batch then w_bool w (c_Claim req) else w in
  Ok (if batch then w_i32 w (c_Max req) else w).

Definition r_max : reader Z :=
  v ← r_i32; if v <? 0 then fails ErrInvalidField else mret (if 1 <? v then v else 0).

Definition DecodeConsumeRequest : octets → result wire_err ConsumeRequest := run (
  _ ← opReader OpConsume; topic ← r_string; partition ← r_i32; hasPartition ← r_bool; offset ← r_i64; hasOffset ← r_bool;
  waitNanos ← r_i64; localOnly ← r_bool; claim ← r_optional r_bool false; batchMax ← r_optional r_max 0; _ ← r_done;
  mret (MkConsume topic partition hasPartition offset hasOffset waitNanos localOnly claim batchMax)).

(** ** Acks *)

Record AckRequest := MkAck { k_Topic : octets; k_Partition : Z; k_Offset : Z; k_Nonce : Z }.

Definition encodeAckShapedRequest (op : Z) (req : AckRequest) : encoded :=
  let! partition := partitionField (k_Partition req) in
  let! w := w_string (opWriter op) (k_Topic req) in
  Ok (w_i64 (w_i64 (w_i32 w partition) (k_Offset req)) (k_Nonce req)).

Definition decodeAckShapedRequest (op : Z) : octets → result wire_err AckRequest := run (
  _ ← opReader op; topic ← r_string; partition ← r_i32; offset ← r_i64; nonce ← r_i64; _ ← r_done;
  mret (MkAck topic partition offset nonce)).

Definition EncodeAckRequest := encodeAckShapedRequest OpAck.
Definition DecodeAckRequest := decodeAckShapedRequest OpAck.
Definition EncodeExtendAckRequest := encodeAckShapedRequest OpExtendAck.
Definition DecodeExtendAckRequest := decodeAckShapedRequest OpExtendAck.
Definition EncodeNackRequest := encodeAckShapedRequest OpNack.
Definition DecodeNackRequest := decodeAckShapedRequest OpNack.

Definition MaxAckBatch : Z := 1024.

(** [AckModeAck], [AckModeExtend] and [AckModeNack] are 0, 1 and 2. *)
Definition AckModeNack : Z := 2.

Record AckBatchItem := MkAckItem { i_Topic : octets; i_Partition : Z; i_Offset : Z; i_Nonce : Z; i_Mode : Z }.

Definition ackBatchItemMin : Z := 1 + 4 + 4 + 8 + 8.

Definition write_ack_item (w : octets) (item : AckBatchItem) : encoded :=
  if AckModeNack <? i_Mode item then Err ErrInvalidField else
  let! partition := partitionField (i_Partition item) in
  let! w := w_string (w_u8 w (i_Mode item)) (i_Topic item) in
  Ok (w_i64 (w_i64 (w_i32 w partition) (i_Offset item)) (i_Nonce item)).

Definition EncodeAckBatchRequest (items : list AckBatchItem) : encoded :=
  if MaxAckBatch <? Z.of_nat (length items) then Err ErrInvalidField else
  w_each write_ack_item (w_i32 (opWriter OpAckBatch) (Z.of_nat (length items))) items.

(** Consecutive equal topics share one string, which is the same value. *)
Definition read_ack_item : reader AckBatchItem :=
  mode ← r_u8;
  if AckModeNack <? mode then fails ErrInvalidField else
  name ← r_bytes; partition ← r_i32; offset ← r_i64; nonce ← r_i64;
  mret (MkAckItem name partition offset nonce mode).

Definition DecodeAckBatchRequest : octets → result wire_err (list AckBatchItem) := run (
  _ ← opReader OpAckBatch; count ← r_i32; n ← remaining;
  if (count <? 0) || (MaxAckBatch <? count) || (n / ackBatchItemMin <? count) then fails ErrInvalidField else
  items ← r_times read_ack_item (Z.to_nat count); _ ← r_done; mret items).

Record AckResult := MkAckResult { ar_Status : Z; ar_Error : octets }.

Definition AppendAckResult (dst : octets) (res : AckResult) : encoded :=
  if (ar_Status res <? 0) || (MaxUint16 <? ar_Status res) then Err ErrInvalidField
  else w_string (w_u16 dst (ar_Status res)) (ar_Error res).

Definition AppendAckBatchReplyHeader (dst : octets) (n : Z) : encoded :=
  if (n <? 0) || (MaxAckBatch <? n) then Err ErrInvalidField else Ok (w_i32 dst n).

Definition AppendAckBatchReply (dst : octets) (results : list AckResult) : encoded :=
  let! out := AppendAckBatchReplyHeader dst (Z.of_nat (length results)) in
  w_each AppendAckResult out results.

Definition DecodeAckBatchReply : octets → result wire_err (list AckResult) := run (
  count ← r_i32; n ← remaining;
  if (count <? 0) || (MaxAckBatch <? count) || (n / 6 <? count) then fails ErrInvalidField else
  results ← r_times (status ← r_u16; msg ← r_string; mret (MkAckResult status msg)) (Z.to_nat count); _ ← r_done; mret results).

(** ** Topics *)

Record TopicBodyRequest := MkTopicBody { tb_Topic : octets; tb_Body : octets; tb_Actor : octets }.

Definition EncodeTopicBodyRequest (op : Z) (req : TopicBodyRequest) : encoded :=
  let! w := w_string (opWriter op) (tb_Topic req) in
  let! w := w_bytes w (tb_Body req) in
  w_string_if_set w (tb_Actor req).

Definition DecodeTopicBodyRequest (op : Z) : octets → result wire_err TopicBodyRequest := run (
  _ ← opReader op; topic ← r_string; body ← r_bytes; actor ← r_optional r_string []; _ ← r_done; mret (MkTopicBody topic body actor)).

Record TopicNameRequest := MkTopicName { tn_Topic : octets; tn_ID : octets; tn_Actor : octets }.

Definition EncodeTopicNameRequest (op : Z) (req : TopicNameRequest) : encoded :=
  let! w := w_string (opWriter op) (tn_Topic req) in
  let! w := (if decide (tn_ID req ≠ [] ∨ tn_Actor req ≠ []) then w_string w (tn_ID req) else Ok w) in
  w_string_if_set w (tn_Actor req).

Definition DecodeTopicNameRequest (op : Z) : octets → result wire_err TopicNameRequest := run (
  _ ← opReader op; topic ← r_string; id ← r_optional r_string []; actor ← r_optional r_string []; _ ← r_done;
  mret (MkTopicName topic id actor)).

(** A topic and a partition: the shape of [TopicPartitionStatsRequest],
    [PartitionSegmentsRequest] and [GetAssignmentRequest]. *)
Record PartitionRequest := MkPartitionRequest { pt_Topic : octets; pt_Partition : Z }.

Definition encode_partition (op : Z) (req : PartitionRequest) : encoded :=
  let! w := w_string (opWriter op) (pt_Topic req) in
  let! partition := partitionField (pt_Partition req) in
  Ok (w_i32 w partition).

Definition decode_partition (op : Z) : octets → result wire_err PartitionRequest := run (
  _ ← opReader op; topic ← r_string; partition ← r_i32; _ ← r_done; mret (MkPartitionRequest topic partition)).

Definition EncodeTopicPartitionStatsRequest := encode_partition OpTopicPartitionStats.
Definition DecodeTopicPartitionStatsRequest := decode_partition OpTopicPartitionStats.
Definition EncodePartitionSegmentsRequest := encode_partition OpListPartitionSegments.
Definition DecodePartitionSegmentsRequest := decode_partition OpListPartitionSegments.
Definition EncodeGetAssignmentRequest := encode_partition OpGetAssignment.
Definition DecodeGetAssignmentRequest := decode_partition OpGetAssignment.

Record ChildLinkRequest := MkChildLink { l_Parent : octets; l_Child : octets; l_DelayMs : Z; l_Actor : octets }.

Definition EncodeChildLinkRequest (op : Z) (req : ChildLinkRequest) : encoded :=
  let! w := w_string (opWriter op) (l_Parent req) in
  let! w := w_string w (l_Child req) in
  w_string_if_set (w_i64 w (l_DelayMs req)) (l_Actor req).

Definition DecodeChildLinkRequest (op : Z) : octets → result wire_err ChildLinkRequest := run (
  _ ← opReader op; parent ← r_string; child ← r_string; delayMs ← r_i64; actor ← r_optional r_string []; _ ← r_done;
  mret (MkChildLink parent child delayMs actor)).

(** ** Partition transfer and moves *)

Record FetchSegmentChunkRequest := MkFetch { f_Topic : octets; f_Partition : Z; f_BaseOffset : Z; f_At : Z; f_Length : Z }.

Definition EncodeFetchSegmentChunkRequest (req : FetchSegmentChunkRequest) : encoded :=
  let! w := w_string (opWriter OpFetchSegmentChunk) (f_Topic req) in
  let! partition := partitionField (f_Partition req) in
  Ok (w_i64 (w_i64 (w_i64 (w_i32 w partition) (f_BaseOffset req)) (f_At req)) (f_Length req)).

Definition DecodeFetchSegmentChunkRequest : octets → result wire_err FetchSegmentChunkRequest := run (
  _ ← opReader OpFetchSegmentChunk; topic ← r_string; partition ← r_i32; base ← r_i64; at_ ← r_i64; length ← r_i64; _ ← r_done;
  mret (MkFetch topic partition base at_ length)).

Record PrepareHandoffRequest := MkHandoff { h_Topic : octets; h_Partition : Z; h_FreezeTTLNanos : Z; h_FreezeToken : octets }.

Definition EncodePrepareHandoffRequest (req : PrepareHandoffRequest) : encoded :=
  let! w := w_string (opWriter OpPrepareHandoff) (h_Topic req) in
  let! partition := partitionField (h_Partition req) in
  w_string_if_set (w_i64 (w_i32 w partition) (h_FreezeTTLNanos req)) (h_FreezeToken req).

Definition DecodePrepareHandoffRequest : octets → result wire_err PrepareHandoffRequest := run (
  _ ← opReader OpPrepareHandoff; topic ← r_string; partition ← r_i32; ttl ← r_i64; token ← r_optional r_string []; _ ← r_done;
  mret (MkHandoff topic partition ttl token)).

Record CompleteMoveRequest := MkCompleteMove { cm_Topic : octets; cm_Partition : Z; cm_ExpectedOwner : octets; cm_TargetID : octets }.

Definition EncodeCompleteMoveRequest (req : CompleteMoveRequest) : encoded :=
  let! w := w_string (opWriter OpCompleteMove) (cm_Topic req) in
  let! partition := partitionField (cm_Partition req) in
  let! w := w_string (w_i32 w partition) (cm_ExpectedOwner req) in
  w_string w (cm_TargetID req).

Definition DecodeCompleteMoveRequest : octets → result wire_err CompleteMoveRequest := run (
  _ ← opReader OpCompleteMove; topic ← r_string; part ← r_i32; owner ← r_string; target ← r_string; _ ← r_done;
  mret (MkCompleteMove topic part owner target)).

Record AbortMoveRequest := MkAbortMove { am_Topic : octets; am_Partition : Z; am_ExpectedTarget : octets }.

Definition EncodeAbortMoveRequest (req : AbortMoveRequest) : encoded :=
  let! w := w_string (opWriter OpAbortMove) (am_Topic req) in
  let! partition := partitionField (am_Partition req) in
  w_string (w_i32 w partition) (am_ExpectedTarget req).

Definition DecodeAbortMoveRequest : octets → result wire_err AbortMoveRequest := run (
  _ ← opReader OpAbortMove; topic ← r_string; part ← r_i32; target ← r_string; _ ← r_done; mret (MkAbortMove topic part target)).

(** ** Members *)

Record JoinClusterRequest := MkJoin { j_ID : octets; j_ClusterAddr : octets; j_Fresh : bool; j_EntryTypes : Z }.

Definition EncodeJoinClusterRequest (req : JoinClusterRequest) : encoded :=
  let! w := w_string (opWriter OpJoinCluster) (j_ID req) in
  let! w := w_string w (j_ClusterAddr req) in
  let w := w_bool w (j_Fresh req) in
  Ok (if j_EntryTypes req =? 0 then w else w_u32 w (j_EntryTypes req)).

Definition DecodeJoinClusterRequest : octets → result wire_err JoinClusterRequest := run (
  _ ← opReader OpJoinCluster; id ← r_string; clusterAddr ← r_string; fresh ← r_optional r_bool false; entryTypes ← r_optional r_u32 0; _ ← r_done;
  mret (MkJoin id clusterAddr fresh entryTypes)).

Record MemberRequest := MkMemberRequest {
  mr_ID : octets;
  mr_Addr : octets;
  mr_ClusterAddr : octets;
  mr_Status : octets;
  mr_LastHeartbeat : Z;
  mr_Build : octets;
  mr_EntryTypes : Z;
}.

Definition EncodeMemberRequest (req : MemberRequest) : encoded :=
  let! w := w_string (opWriter OpRegisterMember) (mr_ID req) in
  let! w := w_string w (mr_Addr req) in
  let! w := w_string w (mr_ClusterAddr req) in
  let! w := w_string w (mr_Status req) in
  let w := w_i64 w (mr_LastHeartbeat req) in
  if decide (mr_Build req ≠ [] ∨ mr_EntryTypes req ≠ 0) then
    let! w := w_string w (mr_Build req) in
    Ok (w_u32 w (mr_EntryTypes req))
  else Ok w.

Definition DecodeMemberRequest : octets → result wire_err MemberRequest := run (
  _ ← opReader OpRegisterMember; id ← r_string; addr ← r_string; clusterAddr ← r_string; status ← r_string; lastHeartbeat ← r_i64;
  version ← r_optional (build ← r_string; entryTypes ← r_u32; mret (build, entryTypes)) ([], 0);
  _ ← r_done; mret (MkMemberRequest id addr clusterAddr status lastHeartbeat version.1 version.2)).

Record DecommissionRequest := MkDecommission { d_ID : octets; d_Cancel : bool }.

Definition EncodeDecommissionRequest (req : DecommissionRequest) : encoded :=
  let! w := w_string (opWriter OpDecommissionMember) (d_ID req) in
  Ok (w_bool w (d_Cancel req)).

Definition DecodeDecommissionRequest : octets → result wire_err DecommissionRequest := run (
  _ ← opReader OpDecommissionMember; id ← r_string; cancel ← r_bool; _ ← r_done; mret (MkDecommission id cancel)).

(** [ForgetServerRequest] is its ID. *)
Definition EncodeForgetServerRequest (id : octets) : encoded := w_string (opWriter OpForgetServer) id.
Definition DecodeForgetServerRequest : octets → result wire_err octets := run (
  _ ← opReader OpForgetServer; id ← r_string; _ ← r_done; mret id).

(** ** Users and remotes *)

Record UserRequest := MkUserRequest { ur_Username : octets; ur_Body : octets }.

Definition EncodeUserRequest (op : Z) (req : UserRequest) : encoded :=
  let! w := w_string (opWriter op) (ur_Username req) in
  w_bytes w (ur_Body req).

Definition DecodeUserRequest (op : Z) : octets → result wire_err UserRequest := run (
  _ ← opReader op; username ← r_string; body ← r_bytes; _ ← r_done; mret (MkUserRequest username body)).

Record RemoteWriteRequest := MkRemoteWrite { rw_SubOp : octets; rw_Actor : octets; rw_RequestID : octets; rw_Body : octets }.

Definition EncodeRemoteWriteRequest (req : RemoteWriteRequest) : encoded :=
  let! w := w_each w_string (opWriter OpRemoteWrite) [rw_SubOp req; rw_Actor req; rw_RequestID req] in
  w_bytes w (rw_Body req).

Definition DecodeRemoteWriteRequest : octets → result wire_err RemoteWriteRequest := run (
  _ ← opReader OpRemoteWrite; subOp ← r_string; actor ← r_string; requestID ← r_string; body ← r_bytes; _ ← r_done;
  mret (MkRemoteWrite subOp actor requestID body)).

Record RemoteCheckRequest := MkRemoteCheck { rc_Mode : octets; rc_RequestID : octets; rc_Body : octets }.

Definition EncodeRemoteCheckRequest (req : RemoteCheckRequest) : encoded :=
  let! w := w_string (opWriter OpRemoteCheck) (rc_Mode req) in
  let! w := w_string w (rc_RequestID req) in
  w_bytes w (rc_Body req).

Definition DecodeRemoteCheckRequest : octets → result wire_err RemoteCheckRequest := run (
  _ ← opReader OpRemoteCheck; mode ← r_string; requestID ← r_string; body ← r_bytes; _ ← r_done;
  mret (MkRemoteCheck mode requestID body)).

(** ** Probes and tokens *)

Definition encode_probe (op : Z) : encoded := Ok (opWriter op).
Definition decode_probe (op : Z) : octets → result wire_err unit := run (_ ← opReader op; r_done).

Definition EncodeAppliedIndexRequest := encode_probe OpAppliedIndex.
Definition DecodeAppliedIndexRequest := decode_probe OpAppliedIndex.
Definition EncodeNodeStatusRequest := encode_probe OpNodeStatus.
Definition DecodeNodeStatusRequest := decode_probe OpNodeStatus.

Definition maxTokenBatch : Z := 4096.

Record TokenRegistration := MkTokenReg { tr_Topic : octets; tr_TTLNanos : Z }.
Record TokenDelta := MkTokenDelta { td_From : octets; td_Add : list TokenRegistration; td_Drop : list octets }.

Definition write_token (w : octets) (a : TokenRegistration) : encoded :=
  let! w := w_string w (tr_Topic a) in
  Ok (w_i64 w (tr_TTLNanos a)).

Definition EncodeTokenDelta (delta : TokenDelta) : encoded :=
  if (maxTokenBatch <? Z.of_nat (length (td_Add delta))) || (maxTokenBatch <? Z.of_nat (length (td_Drop delta)))
  then Err ErrInvalidField else
  let! w := w_string (opWriter OpTokenRegister) (td_From delta) in
  let! w := w_each write_token (w_i32 w (Z.of_nat (length (td_Add delta)))) (td_Add delta) in
  w_each w_string (w_i32 w (Z.of_nat (length (td_Drop delta)))) (td_Drop delta).

(** A bounded count. *)
Definition r_count (max : Z) : reader nat :=
  n ← r_i32; if (n <? 0) || (max <? n) then fails ErrInvalidField else mret (Z.to_nat n).

(** Bytes after the last known field are ignored, here and in the notify
    request. *)
Definition DecodeTokenDelta : octets → result wire_err TokenDelta := run (
  _ ← opReader OpTokenRegister; from ← r_string;
  adds ← r_count maxTokenBatch;
  add ← r_times (topic ← r_string; ttl ← r_i64; mret (MkTokenReg topic ttl)) adds;
  drops ← r_count maxTokenBatch;
  drop ← r_times r_string drops;
  mret (MkTokenDelta from add drop)).

Record TokenNotifyRequest := MkTokenNotify { tq_From : octets; tq_Topic : octets }.

Definition EncodeTokenNotifyRequest (req : TokenNotifyRequest) : encoded :=
  let! w := w_string (opWriter OpTokenNotify) (tq_From req) in
  w_string w (tq_Topic req).

Definition DecodeTokenNotifyRequest : octets → result wire_err TokenNotifyRequest := run (
  _ ← opReader OpTokenNotify; from ← r_string; topic ← r_string; mret (MkTokenNotify from topic)).

(** The reply's verdict. *)
Definition EncodeTokenNotifyReply (claiming : bool) : octets := [if claiming then 1 else 0].
Definition DecodeTokenNotifyReply (body : octets) : bool := bool_decide (body = [1]).

(** ** Replies *)

Record Response := MkResponse { s_Status : Z; s_ContentType : octets; s_Body : octets }.

Definition AppendResponse (dst : octets) (res : Response) : encoded :=
  if (s_Status res <? 0) || (MaxUint16 <? s_Status res) then Err ErrInvalidField else
  let! w := w_string (w_u16 dst (s_Status res)) (s_ContentType res) in
  w_bytes w (s_Body res).

Definition EncodeResponse (res : Response) : encoded :=
  if (s_Status res <? 0) || (MaxUint16 <? s_Status res) then Err ErrInvalidField else
  let! w := w_string (w_u16 [] (s_Status res)) (s_ContentType res) in
  w_bytes w (s_Body res).

Definition DecodeResponse : octets → result wire_err Response := run (
  status ← r_u16; contentType ← r_bytes; body ← r_bytes; _ ← r_done; mret (MkResponse status contentType body)).

(** ** Every request the server serves *)

Inductive message :=
| MProduce (req : ProduceRequest)
| MConsume (req : ConsumeRequest)
| MAck (req : AckRequest)
| MCreateTopic (req : TopicBodyRequest)
| MAlterTopic (req : TopicBodyRequest)
| MDeleteTopic (req : TopicNameRequest)
| MPurgeTopic (req : TopicNameRequest)
| MTopicPartitionStats (req : PartitionRequest)
| MRegisterMember (req : MemberRequest)
| MCommitProduce (req : CommitProduceRequest)
| MCommitProduceBatch (records : list CommitProduceRequest)
| MCreateUser (req : UserRequest)
| MUpdateUser (req : UserRequest)
| MDeleteUser (req : UserRequest)
| MAttachChild (req : ChildLinkRequest)
| MDetachChild (req : ChildLinkRequest)
| MFanoutCursors (req : TopicNameRequest)
| MExtendAck (req : AckRequest)
| MNack (req : AckRequest)
| MGetTopic (req : TopicNameRequest)
| MJoinCluster (req : JoinClusterRequest)
| MListPartitionSegments (req : PartitionRequest)
| MFetchSegmentChunk (req : FetchSegmentChunkRequest)
| MPrepareHandoff (req : PrepareHandoffRequest)
| MDecommissionMember (req : DecommissionRequest)
| MCompleteMove (req : CompleteMoveRequest)
| MAbortMove (req : AbortMoveRequest)
| MGetAssignment (req : PartitionRequest)
| MAppliedIndex
| MTokenRegister (delta : TokenDelta)
| MTokenNotify (req : TokenNotifyRequest)
| MAckBatch (items : list AckBatchItem)
| MNodeStatus
| MForgetServer (id : octets)
| MRemoteWrite (req : RemoteWriteRequest)
| MRemoteCheck (req : RemoteCheckRequest).

Definition EncodeMessage (m : message) : encoded :=
  match m with
  | MProduce req => EncodeProduceRequest req
  | MConsume req => EncodeConsumeRequest req
  | MAck req => EncodeAckRequest req
  | MCreateTopic req => EncodeTopicBodyRequest OpCreateTopic req
  | MAlterTopic req => EncodeTopicBodyRequest OpAlterTopic req
  | MDeleteTopic req => EncodeTopicNameRequest OpDeleteTopic req
  | MPurgeTopic req => EncodeTopicNameRequest OpPurgeTopic req
  | MTopicPartitionStats req => EncodeTopicPartitionStatsRequest req
  | MRegisterMember req => EncodeMemberRequest req
  | MCommitProduce req => EncodeCommitProduceRequest req
  | MCommitProduceBatch records => EncodeCommitProduceBatchRequest records
  | MCreateUser req => EncodeUserRequest OpCreateUser req
  | MUpdateUser req => EncodeUserRequest OpUpdateUser req
  | MDeleteUser req => EncodeUserRequest OpDeleteUser req
  | MAttachChild req => EncodeChildLinkRequest OpAttachChild req
  | MDetachChild req => EncodeChildLinkRequest OpDetachChild req
  | MFanoutCursors req => EncodeTopicNameRequest OpFanoutCursors req
  | MExtendAck req => EncodeExtendAckRequest req
  | MNack req => EncodeNackRequest req
  | MGetTopic req => EncodeTopicNameRequest OpGetTopic req
  | MJoinCluster req => EncodeJoinClusterRequest req
  | MListPartitionSegments req => EncodePartitionSegmentsRequest req
  | MFetchSegmentChunk req => EncodeFetchSegmentChunkRequest req
  | MPrepareHandoff req => EncodePrepareHandoffRequest req
  | MDecommissionMember req => EncodeDecommissionRequest req
  | MCompleteMove req => EncodeCompleteMoveRequest req
  | MAbortMove req => EncodeAbortMoveRequest req
  | MGetAssignment req => EncodeGetAssignmentRequest req
  | MAppliedIndex => EncodeAppliedIndexRequest
  | MTokenRegister delta => EncodeTokenDelta delta
  | MTokenNotify req => EncodeTokenNotifyRequest req
  | MAckBatch items => EncodeAckBatchRequest items
  | MNodeStatus => EncodeNodeStatusRequest
  | MForgetServer id => EncodeForgetServerRequest id
  | MRemoteWrite req => EncodeRemoteWriteRequest req
  | MRemoteCheck req => EncodeRemoteCheckRequest req
  end.

Definition decodes {A} (wrap : A → message) (r : result wire_err A) : result wire_err message :=
  let! a := r in Ok (wrap a).

(** [controlHandler] and the decoder each handler it names starts with;
    [None] is an operation the server does not serve. *)
Definition controlHandler (op : Z) : option (octets → result wire_err message) :=
  if op =? OpGetTopic then Some (λ b, decodes MGetTopic (DecodeTopicNameRequest OpGetTopic b))
  else if op =? OpJoinCluster then Some (λ b, decodes MJoinCluster (DecodeJoinClusterRequest b))
  else if op =? OpPrepareHandoff then Some (λ b, decodes MPrepareHandoff (DecodePrepareHandoffRequest b))
  else if op =? OpDecommissionMember then Some (λ b, decodes MDecommissionMember (DecodeDecommissionRequest b))
  else if op =? OpForgetServer then Some (λ b, decodes MForgetServer (DecodeForgetServerRequest b))
  else if op =? OpCompleteMove then Some (λ b, decodes MCompleteMove (DecodeCompleteMoveRequest b))
  else if op =? OpAbortMove then Some (λ b, decodes MAbortMove (DecodeAbortMoveRequest b))
  else if op =? OpGetAssignment then Some (λ b, decodes MGetAssignment (DecodeGetAssignmentRequest b))
  else if op =? OpAlterTopic then Some (λ b, decodes MAlterTopic (DecodeTopicBodyRequest OpAlterTopic b))
  else if op =? OpPurgeTopic then Some (λ b, decodes MPurgeTopic (DecodeTopicNameRequest OpPurgeTopic b))
  else if op =? OpTopicPartitionStats then Some (λ b, decodes MTopicPartitionStats (DecodeTopicPartitionStatsRequest b))
  else if op =? OpTokenRegister then Some (λ b, decodes MTokenRegister (DecodeTokenDelta b))
  else if op =? OpTokenNotify then Some (λ b, decodes MTokenNotify (DecodeTokenNotifyRequest b))
  else if op =? OpRegisterMember then Some (λ b, decodes MRegisterMember (DecodeMemberRequest b))
  else if op =? OpCreateUser then Some (λ b, decodes MCreateUser (DecodeUserRequest OpCreateUser b))
  else if op =? OpUpdateUser then Some (λ b, decodes MUpdateUser (DecodeUserRequest OpUpdateUser b))
  else if op =? OpDeleteUser then Some (λ b, decodes MDeleteUser (DecodeUserRequest OpDeleteUser b))
  else if op =? OpAttachChild then Some (λ b, decodes MAttachChild (DecodeChildLinkRequest OpAttachChild b))
  else if op =? OpDetachChild then Some (λ b, decodes MDetachChild (DecodeChildLinkRequest OpDetachChild b))
  else if op =? OpFanoutCursors then Some (λ b, decodes MFanoutCursors (DecodeTopicNameRequest OpFanoutCursors b))
  else if op =? OpAppliedIndex then Some (λ b, decodes (λ _, MAppliedIndex) (DecodeAppliedIndexRequest b))
  else None.

(** [serveOther]: a request outside the consume and ack family, decoded by
    its handler. *)
Definition serveOther (op : Z) (payload : octets) : result wire_err message :=
  if op =? OpProduce then decodes MProduce (DecodeProduceRequest payload)
  else if op =? OpCommitProduce then decodes MCommitProduce (DecodeCommitProduceRequest payload)
  else if op =? OpCommitProduceBatch then decodes MCommitProduceBatch (DecodeCommitProduceBatchRequest payload)
  else if op =? OpListPartitionSegments then decodes MListPartitionSegments (DecodePartitionSegmentsRequest payload)
  else if op =? OpFetchSegmentChunk then decodes MFetchSegmentChunk (DecodeFetchSegmentChunkRequest payload)
  else if op =? OpCreateTopic then decodes MCreateTopic (DecodeTopicBodyRequest OpCreateTopic payload)
  else if op =? OpDeleteTopic then decodes MDeleteTopic (DecodeTopicNameRequest OpDeleteTopic payload)
  else if op =? OpNodeStatus then decodes (λ _, MNodeStatus) (DecodeNodeStatusRequest payload)
  else if op =? OpRemoteWrite then decodes MRemoteWrite (DecodeRemoteWriteRequest payload)
  else if op =? OpRemoteCheck then decodes MRemoteCheck (DecodeRemoteCheckRequest payload)
  else match controlHandler op with Some handle => handle payload | None => Err ErrUnexpectedOperation end.

(** [serve]: which request a payload is.  The handlers' slots and what they
    do with the request are not part of it. *)
Definition serve (payload : octets) : result wire_err message :=
  let! op := OperationOf payload in
  if op =? OpConsume then decodes MConsume (DecodeConsumeRequest payload)
  else if op =? OpAck then decodes MAck (DecodeAckRequest payload)
  else if op =? OpExtendAck then decodes MExtendAck (DecodeExtendAckRequest payload)
  else if op =? OpNack then decodes MNack (DecodeNackRequest payload)
  else if op =? OpAckBatch then decodes MAckBatch (DecodeAckBatchRequest payload)
  else serveOther op payload.
