(* ===== verification/NodeRoundTrip.v ===== *)
(** * Round trips of the node protocol

    First the lemmas on the writer and the reader of [NodeWire] that its round trips
    are made of: a field written and read back, loops of fields, optional
    trailing fields, and what the reader can yield on any bytes.  Then the
    round trips themselves. *)

From S2P Require Import Prelude Octets NodeWire.

#[local] Arguments Z.mul : simpl never.
#[local] Arguments Z.add : simpl never.
#[local] Arguments Z.sub : simpl never.
#[local] Arguments Z.pow : simpl never.
#[local] Arguments Z.div : simpl never.
#[local] Arguments put_be : simpl never.
#[local] Arguments get_be : simpl never.

(** ** Representable fields *)

Definition str_fits (v : octets) : Prop := blen v <= MaxUint32.
Definition part_fits (p : Z) : Prop := MinInt32 <= p <= MaxInt32.
Definition in_u8 (x : Z) : Prop := 0 <= x < 256.
Definition in_u16 (x : Z) : Prop := 0 <= x <= MaxUint16.
Definition in_u32 (x : Z) : Prop := 0 <= x <= MaxUint32.

#[export] Hint Unfold str_fits part_fits in_u8 in_u16 in_u32 in_i64 : wire.

Ltac wire_lia := unfold str_fits, blen, part_fits, in_u8, in_u16, in_u32, in_i64, two63, MaxUint16, MaxUint32, MinInt32, MaxInt32 in *; lia.

(** ** Fields *)

(** [reads p b a]: on the bytes [b] and whatever follows, [p] reads [a] and
    leaves what follows. *)
Definition reads {A} (p : reader A) (b : octets) (a : A) : Prop := ∀ rest, p (b ++ rest) = Ok (a, rest).

Lemma reads_bind {A B} (p : reader A) (f : A → reader B) b1 b2 a c :
  reads p b1 a → reads (f a) b2 c → reads (p ≫= f) (b1 ++ b2) c.
Proof.
  intros H1 H2 rest. rewrite <-app_assoc. unfold mbind, reader_bind. rewrite H1. exact (H2 rest).
Qed.

Lemma reads_ret {A} (a : A) : reads (mret a) [] a.
Proof. done. Qed.

Lemma reads_map {A B} (p : reader A) (g : A → B) b a : reads p b a → reads (x ← p; mret (g x)) b (g a).
Proof. intros H. rewrite <-(app_nil_r b). by apply (reads_bind _ _ _ _ a); [|apply reads_ret]. Qed.

Lemma reads_take b : reads (r_take (length b)) b b.
Proof.
  intros rest. unfold r_take. rewrite length_app.
  destruct (Nat.ltb_spec (length b + length rest) (length b)); [lia|].
  by rewrite take_app_length, drop_app_length.
Qed.

Lemma reads_be {A} n x (g : Z → A) : 0 <= x < 256 ^ Z.of_nat n → reads (b ← r_take n; mret (g (get_be b))) (put_be n x) (g x).
Proof.
  intros Hx. pose proof (reads_take (put_be n x)) as H. rewrite length_put_be in H.
  rewrite <-(get_put_be n x) at 2 by done. by apply (reads_map _ (λ b, g (get_be b))).
Qed.

Lemma put_be_mod n x : put_be n (x mod 256 ^ Z.of_nat n) = put_be n x.
Proof.
  assert (∀ m k, (k <= m)%nat → put_be k (x mod 256 ^ Z.of_nat m) = put_be k x) as H; [|by apply H].
  intros m. induction k as [|k IH]; intros Hk; [done|]. unfold put_be; fold put_be. rewrite IH by lia. f_equal.
  replace (Z.of_nat m) with (Z.of_nat k + Z.of_nat (m - k)) by lia. rewrite Z.pow_add_r by lia.
  set (a := 256 ^ Z.of_nat k). assert (0 < a) by (apply Z.pow_pos_nonneg; lia).
  assert (∃ c, 256 ^ Z.of_nat (m - k) = 256 * c ∧ 0 < c) as (c & -> & Hc).
  { exists (256 ^ (Z.of_nat (m - k) - 1)). split; [|apply Z.pow_pos_nonneg; lia].
    rewrite <-Z.pow_succ_r by lia. f_equal. lia. }
  rewrite Z.rem_mul_r, (Z.mul_comm a), Z.div_add by lia.
  rewrite (Z.div_small (x mod a)) by (apply Z.mod_pos_bound; lia). rewrite Z.add_0_l.
  rewrite Z.rem_mul_r by lia. rewrite (Z.mul_comm 256), Z_mod_plus_full. apply Zmod_mod.
Qed.

Lemma reads_u8 x : in_u8 x → reads r_u8 [x] x.
Proof.
  intros H. assert (get_be [x] = x) as E.
  { change (get_be [x]) with (0 * 256 + x mod 256). rewrite Z.mod_small by wire_lia. lia. }
  rewrite <-E at 2. apply (reads_map (r_take 1) get_be), (reads_take [x]).
Qed.

Lemma reads_u16 x : in_u16 x → reads r_u16 (put_be 2 x) x.
Proof. intros H. apply (reads_be 2 x id). change (256 ^ Z.of_nat 2) with 65536. wire_lia. Qed.

Lemma reads_u32 x : in_u32 x → reads r_u32 (put_be 4 x) x.
Proof. intros H. apply (reads_be 4 x id). change (256 ^ Z.of_nat 4) with (2 ^ 32). wire_lia. Qed.

Lemma reads_i32 x : part_fits x → reads r_i32 (put_be 4 x) x.
Proof.
  intros H. rewrite <-(put_be_mod 4 x). change (256 ^ Z.of_nat 4) with (2 ^ 32).
  assert (i32 (x mod 2 ^ 32) = x) as E.
  { unfold i32. rewrite Zplus_mod_idemp_l, Z.mod_small by wire_lia. lia. }
  rewrite <-E at 2. apply (reads_be 4 _ i32). apply Z.mod_pos_bound. done.
Qed.

Lemma reads_i64 x : in_i64 x → reads r_i64 (put_be 8 x) x.
Proof.
  intros H. rewrite <-(put_be_mod 8 x). change (256 ^ Z.of_nat 8) with (2 ^ 64).
  assert (i64 (x mod 2 ^ 64) = x) as E.
  { unfold i64, two64. rewrite Zplus_mod_idemp_l, Z.mod_small by (unfold two63; wire_lia). lia. }
  rewrite <-E at 2. apply (reads_be 8 _ i64). apply Z.mod_pos_bound. done.
Qed.

Lemma reads_bool (v : bool) : reads r_bool [if v then 1 else 0] v.
Proof. destruct v; intros rest; reflexivity. Qed.

Lemma reads_bytes v : str_fits v → reads r_bytes (put_be 4 (blen v) ++ v) v.
Proof.
  intros H. apply (reads_bind _ _ _ _ (blen v)); [apply reads_u32; unfold blen; wire_lia|].
  unfold blen. rewrite Nat2Z.id. apply reads_take.
Qed.

Lemma reads_op op : in_u8 op → reads (opReader op) [op] ().
Proof.
  intros H. rewrite <-(app_nil_r [op]). apply (reads_bind _ _ _ _ op); [by apply reads_u8|].
  rewrite Z.eqb_refl. apply reads_ret.
Qed.

(** ** Steps of a decoder *)

Lemma reads_step {A B} (p : reader A) b a (f : A → reader B) rest : reads p b a → (p ≫= f) (b ++ rest) = f a rest.
Proof. intros H. unfold mbind, reader_bind. by rewrite H. Qed.

Lemma bytes_step {B} v (f : octets → reader B) rest :
  str_fits v → (r_bytes ≫= f) (put_be 4 (blen v) ++ v ++ rest) = f v rest.
Proof. intros H. rewrite app_assoc. by apply reads_step, reads_bytes. Qed.

Lemma string_step {B} v (f : octets → reader B) rest :
  str_fits v → (r_string ≫= f) (put_be 4 (blen v) ++ v ++ rest) = f v rest.
Proof. apply bytes_step. Qed.

Lemma i64_step {B} x (f : Z → reader B) rest : in_i64 x → (r_i64 ≫= f) (put_be 8 x ++ rest) = f x rest.
Proof. intros H. by apply reads_step, reads_i64. Qed.

Lemma i32_step {B} x (f : Z → reader B) rest : part_fits x → (r_i32 ≫= f) (put_be 4 x ++ rest) = f x rest.
Proof. intros H. by apply reads_step, reads_i32. Qed.

Lemma u32_step {B} x (f : Z → reader B) rest : in_u32 x → (r_u32 ≫= f) (put_be 4 x ++ rest) = f x rest.
Proof. intros H. by apply reads_step, reads_u32. Qed.

Lemma u16_step {B} x (f : Z → reader B) rest : in_u16 x → (r_u16 ≫= f) (put_be 2 x ++ rest) = f x rest.
Proof. intros H. by apply reads_step, reads_u16. Qed.

Lemma u8_step {B} x (f : Z → reader B) rest : in_u8 x → (r_u8 ≫= f) ([x] ++ rest) = f x rest.
Proof. intros H. by apply reads_step, reads_u8. Qed.

Lemma bool_step {B} (v : bool) (f : bool → reader B) rest : (r_bool ≫= f) ([if v then 1 else 0] ++ rest) = f v rest.
Proof. apply reads_step, reads_bool. Qed.

Lemma op_step {B} op (f : unit → reader B) rest : in_u8 op → (opReader op ≫= f) ([op] ++ rest) = f () rest.
Proof. intros H. by apply reads_step, reads_op. Qed.

Lemma done_step {B} (f : unit → reader B) : (r_done ≫= f) [] = f () [].
Proof. done. Qed.

Lemma absent_step {A B} (p : reader A) d (f : A → reader B) : (r_optional p d ≫= f) [] = f d [].
Proof. done. Qed.

Lemma present_step {A B} (p : reader A) d (f : A → reader B) r : r ≠ [] → (r_optional p d ≫= f) r = (p ≫= f) r.
Proof. by destruct r. Qed.

Lemma remaining_step {B} (f : Z → reader B) r : (remaining ≫= f) r = f (blen r) r.
Proof. done. Qed.

Lemma assoc_step {A B C} (p : reader A) (g : A → reader B) (f : B → reader C) r : ((p ≫= g) ≫= f) r = (p ≫= λ x, g x ≫= f) r.
Proof. unfold mbind, reader_bind. by destruct (p r) as [[??]|]. Qed.

Lemma ret_step {A B} (a : A) (f : A → reader B) r : (mret a ≫= f) r = f a r.
Proof. done. Qed.

Lemma put_be_ne n x r : put_be (S n) x ++ r ≠ [].
Proof. done. Qed.

Lemma cons_ne (x : Z) r : [x] ++ r ≠ [].
Proof. done. Qed.

(** [wire] runs a decoder on bytes that are the fields it expects. *)
Ltac wire_side := solve [assumption | done | apply put_be_ne | apply cons_ne | wire_lia | unfold in_u8; vm_compute; by split].
Ltac wire_step :=
  first
  [ rewrite bytes_step by wire_side
  | rewrite string_step by wire_side
  | rewrite i64_step by wire_side
  | rewrite i32_step by wire_side
  | rewrite u32_step by wire_side
  | rewrite u16_step by wire_side
  | rewrite bool_step
  | rewrite (bool_step true)
  | rewrite (bool_step false)
  | rewrite u8_step by wire_side
  | rewrite op_step by wire_side
  | rewrite done_step
  | rewrite absent_step
  | rewrite present_step by wire_side
  | rewrite ret_step
  | rewrite assoc_step ]; cbv beta.
Ltac wire := repeat wire_step.

(** ** Round trips of one request *)

Lemma w_bytes_eq w v : w_bytes w v = if decide (str_fits v) then Ok (w ++ put_be 4 (blen v) ++ v) else Err ErrFieldTooLarge.
Proof. unfold w_bytes. destruct (Z.ltb_spec MaxUint32 (blen v)); case_decide; try done; wire_lia. Qed.

Lemma w_string_eq w v : w_string w v = if decide (str_fits v) then Ok (w ++ put_be 4 (blen v) ++ v) else Err ErrFieldTooLarge.
Proof. apply w_bytes_eq. Qed.

Lemma partitionField_eq p : partitionField p = if decide (part_fits p) then Ok p else Err ErrPartitionRange.
Proof.
  unfold partitionField. destruct (Z.ltb_spec p MinInt32), (Z.ltb_spec MaxInt32 p); simpl; case_decide; try done; wire_lia.
Qed.

(** [coded op enc dec a fits]: the encoding is refused only when the value
    does not fit, and is otherwise a payload of operation [op] that [dec]
    decodes to [a]. *)
Definition coded {A} (op : Z) (enc : encoded) (dec : octets → result wire_err A) (a : A) (fits : Prop) : Prop :=
  match enc with
  | Ok bs => (∃ tl, bs = op :: tl) ∧ dec bs = Ok a
  | Err _ => ¬ fits
  end.

Lemma run_decoded {A} (p : reader A) b a rest : p (b ++ []) = Ok (a, rest) → run p b = Ok a.
Proof. rewrite app_nil_r. unfold run. by intros ->. Qed.

(** [encode] follows the encoder's branches, [recode] also runs the decoder
    on the bytes of each. *)
Ltac encode :=
  repeat first
  [ progress cbn [rbind]
  | rewrite w_bytes_eq
  | rewrite w_string_eq
  | rewrite partitionField_eq
  | case_decide ];
  unfold w_i64, w_i32, w_u32, w_u16, w_u8, w_bool, opWriter.
Ltac recode :=
  encode; try (cbn; naive_solver);
  (split; [by eexists|]); eapply run_decoded; rewrite <-?app_assoc; wire; try reflexivity.

(** ** Loops *)

(** [writes enc w p a min fits]: the encoding is refused only when the value
    does not fit, and otherwise appends at least [min] bytes to [w], which
    [p] reads as [a]. *)
Definition writes {A} (enc : encoded) (w : octets) (p : reader A) (a : A) (min : nat) (fits : Prop) : Prop :=
  match enc with
  | Ok w' => ∃ b, w' = w ++ b ∧ (min <= length b)%nat ∧ reads p b a
  | Err _ => ¬ fits
  end.

Lemma writes_each {A B} (f : octets → A → encoded) (p : reader B) (g : A → B) min (fit : A → Prop) w l :
  (∀ w x, x ∈ l → writes (f w x) w p (g x) min (fit x)) →
  writes (w_each f w l) w (r_times p (length l)) (g <$> l) (min * length l) (Forall fit l).
Proof.
  revert w. induction l as [|x l IH]; intros w H; cbn.
  - exists []. rewrite app_nil_r. split; [done|]. split; [cbn; lia|apply reads_ret].
  - pose proof (H w x) as Hx. unfold writes in Hx. destruct (f w x) as [w1|e]; cbn; [|intros HF; inv HF; set_solver].
    destruct Hx as (b & -> & Hm & Hr); [set_solver|]. specialize (IH (w ++ b)).
    destruct (w_each f (w ++ b) l) as [w2|e]; cbn in *; [|intros HF; inv HF; apply IH; [set_solver|done]].
    destruct IH as (b2 & -> & Hm2 & Hr2); [set_solver|]. exists (b ++ b2). rewrite app_assoc. split; [done|].
    split; [rewrite length_app; lia|]. apply (reads_bind _ _ _ _ (g x)); [done|].
    apply (reads_map _ (λ l, g x :: l)). done.
Qed.

(** [appends]: follows an encoder that appends to [w]. *)
Ltac appends :=
  encode; try (cbn; naive_solver);
  eexists; (split; [by rewrite <-?app_assoc|]);
  (split; [rewrite ?length_app, ?length_put_be; cbn; lia|]);
  intros rest; rewrite <-?app_assoc; wire; try reflexivity.

(** ** Requests

    Which requests are representable, and that every request an encoder
    accepts is served as that request. *)

(** ** Typed and representable requests

    [X_typed] says the integer fields are values of their Go types,
    [X_fits] that the encoder can represent the request. *)

Definition produce_fits (r : ProduceRequest) : Prop :=
  str_fits (p_Topic r) ∧ str_fits (p_Key r) ∧ part_fits (p_Partition r) ∧ str_fits (p_Payload r).

Definition record_fits (r : CommitProduceRequest) : Prop :=
  str_fits (cp_Topic r) ∧ str_fits (cp_Key r) ∧ part_fits (cp_TargetPartition r) ∧ str_fits (cp_Payload r) ∧ str_fits (cp_TopicID r).

Definition consume_typed (r : ConsumeRequest) : Prop := in_i64 (c_Offset r) ∧ in_i64 (c_WaitNanos r).
Definition consume_fits (r : ConsumeRequest) : Prop :=
  part_fits (c_Partition r) ∧ 0 <= c_Max r <= MaxInt32 ∧ str_fits (c_Topic r).

(** A batch size of 1 is the single-message form, sent as 0. *)
Definition consume_canon (r : ConsumeRequest) : ConsumeRequest :=
  MkConsume (c_Topic r) (c_Partition r) (c_HasPartition r) (c_Offset r) (c_HasOffset r) (c_WaitNanos r) (c_LocalOnly r) (c_Claim r)
    (if 1 <? c_Max r then c_Max r else 0).

Definition ack_typed (r : AckRequest) : Prop := in_i64 (k_Offset r) ∧ in_i64 (k_Nonce r).
Definition ack_fits (r : AckRequest) : Prop := part_fits (k_Partition r) ∧ str_fits (k_Topic r).

Definition item_typed (i : AckBatchItem) : Prop := in_i64 (i_Offset i) ∧ in_i64 (i_Nonce i) ∧ in_u8 (i_Mode i).
Definition item_fits (i : AckBatchItem) : Prop := i_Mode i <= AckModeNack ∧ part_fits (i_Partition i) ∧ str_fits (i_Topic i).

Definition topic_body_fits (r : TopicBodyRequest) : Prop := str_fits (tb_Topic r) ∧ str_fits (tb_Body r) ∧ str_fits (tb_Actor r).
Definition topic_name_fits (r : TopicNameRequest) : Prop := str_fits (tn_Topic r) ∧ str_fits (tn_ID r) ∧ str_fits (tn_Actor r).
Definition partition_fits (r : PartitionRequest) : Prop := str_fits (pt_Topic r) ∧ part_fits (pt_Partition r).
Definition link_fits (r : ChildLinkRequest) : Prop := str_fits (l_Parent r) ∧ str_fits (l_Child r) ∧ str_fits (l_Actor r).
Definition fetch_typed (r : FetchSegmentChunkRequest) : Prop := in_i64 (f_BaseOffset r) ∧ in_i64 (f_At r) ∧ in_i64 (f_Length r).
Definition fetch_fits (r : FetchSegmentChunkRequest) : Prop := str_fits (f_Topic r) ∧ part_fits (f_Partition r).
Definition handoff_fits (r : PrepareHandoffRequest) : Prop := str_fits (h_Topic r) ∧ part_fits (h_Partition r) ∧ str_fits (h_FreezeToken r).
Definition complete_fits (r : CompleteMoveRequest) : Prop :=
  str_fits (cm_Topic r) ∧ part_fits (cm_Partition r) ∧ str_fits (cm_ExpectedOwner r) ∧ str_fits (cm_TargetID r).
Definition abort_fits (r : AbortMoveRequest) : Prop := str_fits (am_Topic r) ∧ part_fits (am_Partition r) ∧ str_fits (am_ExpectedTarget r).
Definition join_fits (r : JoinClusterRequest) : Prop := str_fits (j_ID r) ∧ str_fits (j_ClusterAddr r).
Definition member_typed (r : MemberRequest) : Prop := in_i64 (mr_LastHeartbeat r) ∧ in_u32 (mr_EntryTypes r).
Definition member_fits (r : MemberRequest) : Prop :=
  str_fits (mr_ID r) ∧ str_fits (mr_Addr r) ∧ str_fits (mr_ClusterAddr r) ∧ str_fits (mr_Status r) ∧ str_fits (mr_Build r).
Definition user_fits (r : UserRequest) : Prop := str_fits (ur_Username r) ∧ str_fits (ur_Body r).
Definition remote_write_fits (r : RemoteWriteRequest) : Prop :=
  str_fits (rw_SubOp r) ∧ str_fits (rw_Actor r) ∧ str_fits (rw_RequestID r) ∧ str_fits (rw_Body r).
Definition remote_check_fits (r : RemoteCheckRequest) : Prop := str_fits (rc_Mode r) ∧ str_fits (rc_RequestID r) ∧ str_fits (rc_Body r).
Definition token_typed (a : TokenRegistration) : Prop := in_i64 (tr_TTLNanos a).
Definition token_fits (a : TokenRegistration) : Prop := str_fits (tr_Topic a).
Definition delta_fits (d : TokenDelta) : Prop :=
  Z.of_nat (length (td_Add d)) <= maxTokenBatch ∧ Z.of_nat (length (td_Drop d)) <= maxTokenBatch ∧ str_fits (td_From d) ∧
  Forall token_fits (td_Add d) ∧ Forall str_fits (td_Drop d).

Definition message_typed (m : message) : Prop :=
  match m with
  | MConsume r => consume_typed r
  | MAck r | MExtendAck r | MNack r => ack_typed r
  | MRegisterMember r => member_typed r
  | MCommitProduce r => in_i64 (cp_CreatedAtUnixMs r)
  | MCommitProduceBatch l => Forall (λ r, in_i64 (cp_CreatedAtUnixMs r)) l
  | MAttachChild r | MDetachChild r => in_i64 (l_DelayMs r)
  | MJoinCluster r => in_u32 (j_EntryTypes r)
  | MFetchSegmentChunk r => fetch_typed r
  | MPrepareHandoff r => in_i64 (h_FreezeTTLNanos r)
  | MTokenRegister d => Forall token_typed (td_Add d)
  | MAckBatch l => Forall item_typed l
  | _ => True
  end.

Definition message_fits (m : message) : Prop :=
  match m with
  | MProduce r => produce_fits r
  | MConsume r => consume_fits r
  | MAck r | MExtendAck r | MNack r => ack_fits r
  | MCreateTopic r | MAlterTopic r => topic_body_fits r
  | MDeleteTopic r | MPurgeTopic r | MFanoutCursors r | MGetTopic r => topic_name_fits r
  | MTopicPartitionStats r | MListPartitionSegments r | MGetAssignment r => partition_fits r
  | MRegisterMember r => member_fits r
  | MCommitProduce r => record_fits r
  | MCommitProduceBatch l => Z.of_nat (length l) <= MaxInt32 ∧ Forall record_fits l
  | MCreateUser r | MUpdateUser r | MDeleteUser r => user_fits r
  | MAttachChild r | MDetachChild r => link_fits r
  | MJoinCluster r => join_fits r
  | MFetchSegmentChunk r => fetch_fits r
  | MPrepareHandoff r => handoff_fits r
  | MDecommissionMember r => str_fits (d_ID r)
  | MCompleteMove r => complete_fits r
  | MAbortMove r => abort_fits r
  | MAppliedIndex | MNodeStatus => True
  | MTokenRegister d => delta_fits d
  | MTokenNotify r => str_fits (tq_From r) ∧ str_fits (tq_Topic r)
  | MAckBatch l => Z.of_nat (length l) <= MaxAckBatch ∧ Forall item_fits l
  | MForgetServer id => str_fits id
  | MRemoteWrite r => remote_write_fits r
  | MRemoteCheck r => remote_check_fits r
  end.

(** What the server reads of a request. *)
Definition message_canon (m : message) : message := match m with MConsume r => MConsume (consume_canon r) | _ => m end.

(** ** Fixed-shape requests *)

Lemma produce_coded req : coded OpProduce (EncodeProduceRequest req) DecodeProduceRequest req (produce_fits req).
Proof. destruct req. unfold coded, EncodeProduceRequest, produce_fits; cbn. recode. Qed.

Lemma ack_coded op req :
  in_u8 op → ack_typed req → coded op (encodeAckShapedRequest op req) (decodeAckShapedRequest op) req (ack_fits req).
Proof. destruct req. intros Hop [??]. unfold coded, encodeAckShapedRequest, ack_fits; cbn in *. recode. Qed.

Lemma partition_coded op req : in_u8 op → coded op (encode_partition op req) (decode_partition op) req (partition_fits req).
Proof. destruct req. intros Hop. unfold coded, encode_partition, partition_fits; cbn. recode. Qed.

Lemma fetch_coded req :
  fetch_typed req → coded OpFetchSegmentChunk (EncodeFetchSegmentChunkRequest req) DecodeFetchSegmentChunkRequest req (fetch_fits req).
Proof. destruct req. intros (?&?&?). unfold coded, EncodeFetchSegmentChunkRequest, fetch_fits; cbn in *. recode. Qed.

Lemma complete_coded req : coded OpCompleteMove (EncodeCompleteMoveRequest req) DecodeCompleteMoveRequest req (complete_fits req).
Proof. destruct req. unfold coded, EncodeCompleteMoveRequest, complete_fits; cbn. recode. Qed.

Lemma abort_coded req : coded OpAbortMove (EncodeAbortMoveRequest req) DecodeAbortMoveRequest req (abort_fits req).
Proof. destruct req. unfold coded, EncodeAbortMoveRequest, abort_fits; cbn. recode. Qed.

Lemma decommission_coded req :
  coded OpDecommissionMember (EncodeDecommissionRequest req) DecodeDecommissionRequest req (str_fits (d_ID req)).
Proof. destruct req. unfold coded, EncodeDecommissionRequest; cbn. recode. Qed.

Lemma forget_coded id : coded OpForgetServer (EncodeForgetServerRequest id) DecodeForgetServerRequest id (str_fits id).
Proof. unfold coded, EncodeForgetServerRequest; cbn. recode. Qed.

Lemma user_coded op req : in_u8 op → coded op (EncodeUserRequest op req) (DecodeUserRequest op) req (user_fits req).
Proof. destruct req. intros Hop. unfold coded, EncodeUserRequest, user_fits; cbn. recode. Qed.

Lemma remote_write_coded req : coded OpRemoteWrite (EncodeRemoteWriteRequest req) DecodeRemoteWriteRequest req (remote_write_fits req).
Proof. destruct req. unfold coded, EncodeRemoteWriteRequest, remote_write_fits; cbn. recode. Qed.

Lemma remote_check_coded req : coded OpRemoteCheck (EncodeRemoteCheckRequest req) DecodeRemoteCheckRequest req (remote_check_fits req).
Proof. destruct req. unfold coded, EncodeRemoteCheckRequest, remote_check_fits; cbn. recode. Qed.

Lemma notify_coded req :
  coded OpTokenNotify (EncodeTokenNotifyRequest req) DecodeTokenNotifyRequest req (str_fits (tq_From req) ∧ str_fits (tq_Topic req)).
Proof. destruct req. unfold coded, EncodeTokenNotifyRequest; cbn. recode. Qed.

(** ** Requests with optional fields *)

Lemma topic_body_coded op req : in_u8 op → coded op (EncodeTopicBodyRequest op req) (DecodeTopicBodyRequest op) req (topic_body_fits req).
Proof. destruct req. intros Hop. unfold coded, EncodeTopicBodyRequest, w_string_if_set, topic_body_fits; cbn. recode; by subst. Qed.

Lemma topic_name_coded op req : in_u8 op → coded op (EncodeTopicNameRequest op req) (DecodeTopicNameRequest op) req (topic_name_fits req).
Proof.
  destruct req as [t id actor]. intros Hop. unfold coded, EncodeTopicNameRequest, w_string_if_set, topic_name_fits; cbn.
  recode; [by subst|]. assert (id = []) as -> by (by apply dec_stable; intros ?; auto). by subst.
Qed.

Lemma link_coded op req :
  in_u8 op → in_i64 (l_DelayMs req) → coded op (EncodeChildLinkRequest op req) (DecodeChildLinkRequest op) req (link_fits req).
Proof. destruct req. intros Hop ?. unfold coded, EncodeChildLinkRequest, w_string_if_set, link_fits; cbn in *. recode; by subst. Qed.

Lemma handoff_coded req :
  in_i64 (h_FreezeTTLNanos req) → coded OpPrepareHandoff (EncodePrepareHandoffRequest req) DecodePrepareHandoffRequest req (handoff_fits req).
Proof. destruct req. intros ?. unfold coded, EncodePrepareHandoffRequest, w_string_if_set, handoff_fits; cbn in *. recode; by subst. Qed.

Lemma join_coded req :
  in_u32 (j_EntryTypes req) → coded OpJoinCluster (EncodeJoinClusterRequest req) DecodeJoinClusterRequest req (join_fits req).
Proof.
  destruct req as [id addr fresh ets]. intros ?. unfold coded, EncodeJoinClusterRequest, join_fits; cbn in *.
  destruct (Z.eqb_spec ets 0); recode; by subst.
Qed.

Lemma member_coded req :
  member_typed req → coded OpRegisterMember (EncodeMemberRequest req) DecodeMemberRequest req (member_fits req).
Proof.
  destruct req. intros [??]. unfold coded, EncodeMemberRequest, member_fits; cbn in *. recode.
  assert (mr_Build = []) as -> by (by apply dec_stable; intros ?; auto).
  assert (mr_EntryTypes = 0) as -> by (by apply dec_stable; intros ?; auto). done.
Qed.

Lemma max_step {B} x (f : Z → reader B) rest :
  0 <= x <= MaxInt32 → (r_max ≫= f) (put_be 4 x ++ rest) = f (if 1 <? x then x else 0) rest.
Proof.
  intros H. unfold r_max. rewrite assoc_step, i32_step by wire_lia. by destruct (Z.ltb_spec x 0); [lia|].
Qed.

Lemma consume_coded req :
  consume_typed req → coded OpConsume (EncodeConsumeRequest req) DecodeConsumeRequest (consume_canon req) (consume_fits req).
Proof.
  destruct req as [t p hp o ho w l c n]. intros [??]. unfold coded, EncodeConsumeRequest, consume_canon, consume_fits; cbn in *.
  destruct (Z.ltb_spec n 0); [encode; cbn; lia|]. destruct (Z.ltb_spec MaxInt32 n); [encode; cbn; lia|]. cbn.
  destruct (Z.ltb_spec 1 n), c; cbn; recode; rewrite max_step, (proj2 (Z.ltb_lt 1 n)) by lia; cbv beta; wire; reflexivity.
Qed.

(** ** Batches of acks *)

Lemma item_writes w i :
  item_typed i → writes (write_ack_item w i) w read_ack_item i 25 (item_fits i).
Proof.
  destruct i as [t p o n m]. intros (?&?&?). unfold writes, write_ack_item, item_fits; cbn in *.
  destruct (Z.ltb_spec AckModeNack m) as [|Hm]; [cbn; lia|].
  unfold read_ack_item. appends. apply Z.ltb_ge in Hm. rewrite Hm. wire. reflexivity.
Qed.

Lemma ack_batch_coded l :
  Forall item_typed l →
  coded OpAckBatch (EncodeAckBatchRequest l) DecodeAckBatchRequest l (Z.of_nat (length l) <= MaxAckBatch ∧ Forall item_fits l).
Proof.
  intros Ht. unfold coded, EncodeAckBatchRequest. destruct (Z.ltb_spec MaxAckBatch (Z.of_nat (length l))) as [|Hn]; [lia|].
  assert (writes (w_each write_ack_item (w_i32 (opWriter OpAckBatch) (Z.of_nat (length l))) l)
    (w_i32 (opWriter OpAckBatch) (Z.of_nat (length l))) (r_times read_ack_item (length l)) (id <$> l) (25 * length l) (Forall item_fits l)) as H.
  { apply writes_each. intros w x Hx. apply item_writes. by eapply Forall_forall. }
  rewrite list_fmap_id in H. unfold writes in H. destruct (w_each _ _ _); [|naive_solver].
  destruct H as (b & -> & Hb & Hr). split; [by eexists|]. eapply run_decoded. unfold w_i32, opWriter.
  rewrite <-!app_assoc. unfold MaxAckBatch in Hn. wire. rewrite remaining_step. cbv beta. unfold MaxAckBatch, ackBatchItemMin.
  rewrite (proj2 (Z.ltb_ge (Z.of_nat (length l)) 0)), (proj2 (Z.ltb_ge 1024 _)) by lia.
  rewrite (proj2 (Z.ltb_ge (blen (b ++ []) / _) _)) by (unfold blen; rewrite app_nil_r; apply Z.div_le_lower_bound; lia).
  cbn [orb]. rewrite Nat2Z.id, (reads_step _ _ _ _ _ Hr). cbv beta. wire. reflexivity.
Qed.

(** ** Records committed to their owners *)

Definition strip (r : CommitProduceRequest) : CommitProduceRequest := set_topic_id [] r.

Definition body_fits (r : CommitProduceRequest) : Prop :=
  str_fits (cp_Topic r) ∧ str_fits (cp_Key r) ∧ part_fits (cp_TargetPartition r) ∧ str_fits (cp_Payload r).

Lemma record_writes w r :
  in_i64 (cp_CreatedAtUnixMs r) → writes (writeCommitProduce w r) w readCommitProduce (strip r) 24 (body_fits r).
Proof.
  destruct r. intros ?. unfold writes, writeCommitProduce, body_fits, strip, set_topic_id; cbn in *. unfold readCommitProduce. appends.
Qed.

Lemma set_strip r : set_topic_id (cp_TopicID r) (strip r) = r.
Proof. by destruct r. Qed.

Lemma commit_coded r :
  in_i64 (cp_CreatedAtUnixMs r) →
  coded OpCommitProduce (EncodeCommitProduceRequest r) DecodeCommitProduceRequest r (record_fits r).
Proof.
  intros Ht. pose proof (record_writes (opWriter OpCommitProduce) r Ht) as H. unfold coded, EncodeCommitProduceRequest, w_string_if_set, writes in *.
  unfold record_fits. unfold body_fits in H. destruct (writeCommitProduce _ r) as [w|]; cbn [rbind]; [|naive_solver].
  destruct H as (b & -> & _ & Hr). unfold opWriter. encode; try naive_solver;
    (split; [by eexists|]); eapply run_decoded; rewrite <-!app_assoc; wire; rewrite (reads_step _ _ _ _ _ Hr); cbv beta; wire.
  - rewrite <-H, set_strip. reflexivity.
  - rewrite set_strip. reflexivity.
Qed.

(** *** Runs of topic IDs *)

(** The IDs the runs stand for. *)
Definition expand (runs : list (Z * octets)) : list octets := runs ≫= λ run, replicate (Z.to_nat run.1) run.2.

Lemma topic_runs_pos l : Forall (λ run, 0 < run.1) (topic_runs l).
Proof.
  induction l as [|r l IH]; cbn; [done|]. destruct (topic_runs l) as [|[n id] runs]; [by repeat constructor|].
  inv IH. case_decide; repeat constructor; cbn in *; try done; lia.
Qed.

Lemma topic_runs_expand l : expand (topic_runs l) = cp_TopicID <$> l.
Proof.
  induction l as [|r l IH]; cbn; [done|]. pose proof (topic_runs_pos l) as Hp.
  destruct (topic_runs l) as [|[n id] runs]; [by destruct l|].
  inv Hp. case_decide as E; rewrite <-IH; unfold expand; cbn in *; [|done].
  rewrite E. replace (Z.to_nat (n + 1)) with (S (Z.to_nat n)) by lia. done.
Qed.

Lemma expand_length runs : Forall (λ run, 0 < run.1) runs → (length runs <= length (expand runs))%nat.
Proof.
  induction 1 as [|[n id] runs Hn _ IH]; cbn in *; [lia|]. unfold expand in *. cbn. rewrite length_app, length_replicate. lia.
Qed.

Lemma restamp id l : Forall (λ r, cp_TopicID r = id) l → set_topic_id id <$> (strip <$> l) = l.
Proof.
  induction 1 as [|r l <- _ IH]; [done|]. cbn. rewrite set_strip. by f_equal.
Qed.

(** Reading the runs of [l]'s topic IDs over the records read without them
    gives [l] back. *)
Lemma runs_write w runs l :
  Forall (λ run, 0 < run.1) runs → expand runs = cp_TopicID <$> l → Z.of_nat (length l) <= MaxInt32 →
  writes (w_each write_run w runs) w (read_runs (length runs) (strip <$> l)) l 0 (Forall (λ r, str_fits (cp_TopicID r)) l).
Proof.
  intros Hp. revert w l. induction Hp as [|[n id] runs Hn _ IH]; intros w l E Hl.
  { destruct l; [|done]. exists []. rewrite app_nil_r. split; [done|]. split; [lia|]. apply reads_ret. }
  unfold expand in E. cbn in E, Hn. set (k := Z.to_nat n) in *.
  assert (k <= length l)%nat as Hk.
  { pose proof (f_equal length E) as L. rewrite length_app, length_replicate, length_fmap in L. lia. }
  assert (Forall (λ r, cp_TopicID r = id) (take k l)) as Hid.
  { apply (f_equal (take k)) in E. rewrite take_app_length' in E by by rewrite length_replicate.
    apply Forall_fmap with (f := cp_TopicID) (P := λ x, x = id). rewrite fmap_take, <-E. apply Forall_replicate. done. }
  apply (f_equal (drop k)) in E. rewrite drop_app_length', <-fmap_drop in E by by rewrite length_replicate.
  assert (Forall (λ r, str_fits (cp_TopicID r)) l → str_fits id) as Hf.
  { intros HF. assert (0 < k)%nat as Hk0 by (subst k; lia). clearbody k. destruct l as [|r l]; [cbn in Hk; lia|]. destruct k as [|k']; [lia|]. inv Hid. by inv HF. }
  cbn [w_each]. unfold write_run at 1. cbn [fst snd]. encode; [|cbn; auto].
  specialize (IH ((w ++ put_be 4 n) ++ put_be 4 (blen id) ++ id) (drop k l) E).
  rewrite length_drop in IH. specialize (IH ltac:(lia)). unfold writes in *.
  destruct (w_each _ _ runs); [|intros HF; by apply IH, Forall_drop].
  destruct IH as (b & -> & _ & Hr). eexists. split; [by rewrite <-!app_assoc|]. split; [lia|].
  intros rest. cbn [length read_runs]. rewrite <-!app_assoc. wire.
  rewrite (proj2 (Z.leb_gt n 0)), (proj2 (Z.ltb_ge _ n)) by (rewrite ?length_fmap; lia). cbn [orb]. wire.
  fold k. rewrite <-fmap_drop, (reads_step _ _ _ _ _ Hr). cbv beta. rewrite <-fmap_take, restamp, take_drop by done. done.
Qed.

Lemma no_ids_strip l :
  existsb (λ r, negb (bool_decide (cp_TopicID r = []))) l = false → strip <$> l = l.
Proof.
  induction l as [|r l IH]; [done|]. cbn. intros [H1 H2]%orb_false_iff. f_equal; [|by apply IH].
  apply negb_false_iff, bool_decide_eq_true in H1. by destruct r; cbn in *; subst.
Qed.

Lemma topic_runs_length l : (length (topic_runs l) <= length l)%nat.
Proof. pose proof (expand_length _ (topic_runs_pos l)) as H. by rewrite topic_runs_expand, length_fmap in H. Qed.

(** The trailer of topic IDs, read after the records. *)
Lemma trailer_writes w l :
  Z.of_nat (length l) <= MaxInt32 →
  writes (w_each write_run (w_i32 w (Z.of_nat (length (topic_runs l)))) (topic_runs l)) w
    (readCommitProduceTopicIDs (strip <$> l)) l 4 (Forall (λ r, str_fits (cp_TopicID r)) l).
Proof.
  intros Hl. pose proof (topic_runs_length l) as Hn.
  pose proof (runs_write (w_i32 w (Z.of_nat (length (topic_runs l)))) _ l (topic_runs_pos l) (topic_runs_expand l) Hl) as H.
  unfold writes, w_i32 in *. destruct (w_each _ _ _); [|done]. destruct H as (b & -> & _ & Hr).
  eexists. split; [by rewrite <-app_assoc|]. split; [rewrite length_app, length_put_be; lia|].
  intros rest. unfold readCommitProduceTopicIDs. rewrite <-app_assoc. wire.
  rewrite (proj2 (Z.ltb_ge (Z.of_nat _) 0)), (proj2 (Z.ltb_ge _ _)) by (rewrite ?length_fmap; lia). cbn [orb].
  rewrite Nat2Z.id. apply Hr.
Qed.

Lemma commit_batch_coded l :
  Forall (λ r, in_i64 (cp_CreatedAtUnixMs r)) l →
  coded OpCommitProduceBatch (EncodeCommitProduceBatchRequest l) DecodeCommitProduceBatchRequest l
    (Z.of_nat (length l) <= MaxInt32 ∧ Forall record_fits l).
Proof.
  intros Ht. unfold coded, EncodeCommitProduceBatchRequest. destruct (Z.ltb_spec MaxInt32 (Z.of_nat (length l))) as [|Hn]; [lia|].
  set (w0 := w_i32 _ _).
  assert (writes (w_each writeCommitProduce w0 l) w0 (r_times readCommitProduce (length l)) (strip <$> l) (24 * length l) (Forall body_fits l)) as H.
  { apply writes_each. intros w x Hx. apply record_writes. exact (proj1 (Forall_forall _ _) Ht x Hx). }
  unfold writes in H. destruct (w_each writeCommitProduce _ _) as [w|]; cbn [rbind].
  2:{ intros [_ HF]. apply H. eapply Forall_impl; [exact HF|]. unfold record_fits, body_fits. naive_solver. }
  destruct H as (b & -> & _ & Hr). subst w0. unfold w_i32 at 1 2, opWriter.
  destruct (existsb _ l) eqn:Eids.
  - pose proof (trailer_writes (([OpCommitProduceBatch] ++ put_be 4 (Z.of_nat (length l))) ++ b) l Hn) as H.
    unfold writes in H. destruct (w_each write_run _ _).
    2:{ intros [_ HF]. apply H. eapply Forall_impl; [exact HF|]. unfold record_fits. naive_solver. }
    destruct H as (c & -> & Hc & Hr2). split; [by eexists|]. eapply run_decoded. rewrite <-!app_assoc. wire.
    rewrite (proj2 (Z.ltb_ge (Z.of_nat _) 0)), Nat2Z.id, (reads_step _ _ _ _ _ Hr) by lia. cbv beta.
    rewrite present_step by (destruct c; [cbn in Hc; lia|done]). rewrite (reads_step _ _ _ _ _ Hr2). cbv beta. wire. reflexivity.
  - split; [by eexists|]. eapply run_decoded. unfold w_i32. rewrite <-!app_assoc. wire.
    rewrite (proj2 (Z.ltb_ge (Z.of_nat _) 0)), Nat2Z.id, (reads_step _ _ _ _ _ Hr) by lia. cbv beta. wire.
    rewrite no_ids_strip by done. reflexivity.
Qed.

(** ** Tokens and probes *)

Lemma token_writes w a :
  token_typed a → writes (write_token w a) w (topic ← r_string; ttl ← r_i64; mret (MkTokenReg topic ttl)) a 0 (token_fits a).
Proof. destruct a. intros ?. unfold writes, write_token, token_fits, token_typed in *; cbn in *. appends. Qed.

Lemma topic_writes w v : writes (w_string w v) w r_string v 0 (str_fits v).
Proof. unfold writes. encode; [|done]. eexists. split; [done|]. split; [lia|]. by apply reads_bytes. Qed.

Lemma count_step {B} max n (f : nat → reader B) rest :
  Z.of_nat n <= max → max <= MaxInt32 → (r_count max ≫= f) (put_be 4 (Z.of_nat n) ++ rest) = f n rest.
Proof.
  intros H Hm. unfold r_count. rewrite assoc_step, i32_step by wire_lia.
  rewrite (proj2 (Z.ltb_ge (Z.of_nat _) 0)), (proj2 (Z.ltb_ge max _)) by lia. cbn [orb]. rewrite Nat2Z.id. done.
Qed.

Lemma delta_coded d :
  Forall token_typed (td_Add d) → coded OpTokenRegister (EncodeTokenDelta d) DecodeTokenDelta d (delta_fits d).
Proof.
  destruct d as [from add drop]. unfold coded, EncodeTokenDelta, delta_fits. cbn [td_From td_Add td_Drop]. intros Ht.
  destruct (Z.ltb_spec maxTokenBatch (Z.of_nat (length add))) as [|Ha]; [cbn; lia|].
  destruct (Z.ltb_spec maxTokenBatch (Z.of_nat (length drop))) as [|Hd]; [cbn; lia|]. cbn [orb]. encode; [|naive_solver].
  pose proof (writes_each write_token _ id 0 token_fits (([OpTokenRegister] ++ put_be 4 (blen from) ++ from) ++ put_be 4 (Z.of_nat (length add))) add
    (λ w x Hx, token_writes w x (proj1 (Forall_forall _ _) Ht x Hx))) as H1.
  rewrite list_fmap_id in H1. unfold writes in H1. destruct (w_each write_token _ _); cbn [rbind]; [|naive_solver].
  destruct H1 as (b & -> & _ & Hr).
  pose proof (writes_each w_string _ id 0 str_fits (((([OpTokenRegister] ++ put_be 4 (blen from) ++ from) ++ put_be 4 (Z.of_nat (length add))) ++ b) ++
    put_be 4 (Z.of_nat (length drop))) drop (λ w x _, topic_writes w x)) as H1.
  rewrite list_fmap_id in H1. unfold writes in H1. destruct (w_each w_string _ _); [|naive_solver].
  destruct H1 as (c & -> & _ & Hr2). split; [by eexists|]. eapply run_decoded. rewrite <-!app_assoc. wire.
  rewrite count_step by (done || (unfold maxTokenBatch; wire_lia)). cbv beta. rewrite (reads_step _ _ _ _ _ Hr). cbv beta.
  rewrite count_step by (done || (unfold maxTokenBatch; wire_lia)). cbv beta. rewrite (reads_step _ _ _ _ _ Hr2). reflexivity.
Qed.

Lemma probe_coded op : in_u8 op → coded op (encode_probe op) (decode_probe op) () True.
Proof.
  intros H. split; [by eexists|]. eapply run_decoded. unfold opWriter. wire. reflexivity.
Qed.
