(* ===== verification/NodeServe.v ===== *)
(** * What the node server serves

    Every request an encoder accepts is served as that request, and
    whatever the server accepts is a typed, representable request that
    survives being encoded and served again. *)

From S2P Require Import Prelude Octets NodeWire NodeRoundTrip.

#[local] Arguments Z.mul : simpl never.
#[local] Arguments Z.add : simpl never.
#[local] Arguments Z.div : simpl never.
#[local] Arguments Z.pow : simpl never.
#[local] Arguments put_be : simpl never.
#[local] Arguments get_be : simpl never.

(** ** What a reader can yield *)

Definition yields {A} (p : reader A) (P : A → Prop) : Prop := ∀ r a r', p r = Ok (a, r') → P a.

Lemma yields_bind {A B} (p : reader A) (f : A → reader B) P Q :
  yields p P → (∀ a, P a → yields (f a) Q) → yields (p ≫= f) Q.
Proof.
  intros Hp Hf r b r'. unfold mbind, reader_bind. intros ([a r1] & E & Eb)%rbind_ok. exact (Hf a (Hp _ _ _ E) _ _ _ Eb).
Qed.

Lemma yields_ret {A} (a : A) (P : A → Prop) : P a → yields (mret a) P.
Proof. intros H r b r' [= <- <-]. done. Qed.

Lemma yields_fails {A} e (P : A → Prop) : yields (fails e) P.
Proof. done. Qed.

Lemma yields_any {A} (p : reader A) : yields p (λ _, True).
Proof. done. Qed.

Lemma yields_if {A} (b : bool) (p q : reader A) P : (b = true → yields p P) → (b = false → yields q P) → yields (if b then p else q) P.
Proof. destruct b; auto. Qed.

Lemma yields_optional {A} (p : reader A) d P : yields p P → P d → yields (r_optional p d) P.
Proof. intros Hp Hd. apply (yields_bind _ _ (λ _, True)); [done|]. intros n _. apply yields_if; intros; [done|by apply yields_ret]. Qed.

Lemma yields_take n : yields (r_take n) (λ b, length b = n).
Proof.
  intros r a r'. unfold r_take. destruct (Nat.ltb_spec (length r) n); [done|]. intros [= <- <-]. rewrite length_take. lia.
Qed.

Lemma get_be_bound s : get_be s < 256 ^ Z.of_nat (length s).
Proof.
  assert (∀ a, foldl (λ a b, a * 256 + b mod 256) a s < (a + 1) * 256 ^ Z.of_nat (length s)) as H;
    [|specialize (H 0); unfold get_be; lia].
  induction s as [|b s IH]; intros a; cbn [foldl length]; [change (256 ^ Z.of_nat 0) with 1; lia|].
  eapply Z.lt_le_trans; [apply IH|]. replace (Z.of_nat (S (length s))) with (1 + Z.of_nat (length s)) by lia.
  rewrite Z.pow_add_r by lia. change (256 ^ 1) with 256. set (q := 256 ^ _). assert (0 < q) by (apply Z.pow_pos_nonneg; lia).
  pose proof (Z.mod_pos_bound b 256). nia.
Qed.

Lemma yields_be {A} n (g : Z → A) (P : A → Prop) :
  (∀ x, 0 <= x < 256 ^ Z.of_nat n → P (g x)) → yields (b ← r_take n; mret (g (get_be b))) P.
Proof.
  intros H. apply (yields_bind _ _ _ _ (yields_take n)). intros b <-. apply yields_ret, H.
  pose proof (get_be_nonneg b). pose proof (get_be_bound b). lia.
Qed.

Lemma yields_u8 : yields r_u8 in_u8.
Proof. apply (yields_be 1 id). intros x. change (256 ^ Z.of_nat 1) with 256. done. Qed.

Lemma yields_u16 : yields r_u16 in_u16.
Proof. apply (yields_be 2 id). intros x. change (256 ^ Z.of_nat 2) with 65536. cbn. wire_lia. Qed.

Lemma yields_u32 : yields r_u32 in_u32.
Proof. apply (yields_be 4 id). intros x. change (256 ^ Z.of_nat 4) with (2 ^ 32). cbn. wire_lia. Qed.

Lemma yields_i32 : yields r_i32 part_fits.
Proof.
  apply (yields_be 4 i32). intros x _. unfold i32. pose proof (Z.mod_pos_bound (x + 2 ^ 31) (2 ^ 32)). wire_lia.
Qed.

Lemma yields_i64 : yields r_i64 in_i64.
Proof. apply (yields_be 8 i64). intros x _. apply i64_in. Qed.

Lemma yields_bytes : yields r_bytes str_fits.
Proof.
  apply (yields_bind _ _ _ _ yields_u32). intros n Hn r a r' E. apply yields_take in E. wire_lia.
Qed.

Lemma yields_times {A} (p : reader A) n P : yields p P → yields (r_times p n) (λ l, length l = n ∧ Forall P l).
Proof.
  intros Hp. induction n as [|n IH]; cbn [r_times]; [by apply yields_ret|].
  apply (yields_bind _ _ _ _ Hp). intros a Ha. apply (yields_bind _ _ _ _ IH). intros l [Hl HF].
  apply yields_ret. split; [cbn; lia|by constructor].
Qed.

Lemma yields_run {A} (p : reader A) P b a : yields p P → run p b = Ok a → P a.
Proof. intros Hp ([a' r] & E & [= <-])%rbind_ok. exact (Hp _ _ _ E). Qed.

Lemma nil_fits : str_fits [].
Proof. done. Qed.

Lemma zero_u32 : in_u32 0.
Proof. done. Qed.

(** [yield] collects the ranges of the fields a decoder read. *)
Ltac yield_step :=
  match goal with
  | |- yields (mbind _ r_string) _ => apply (yields_bind _ _ _ _ yields_bytes); intros ??
  | |- yields (mbind _ r_bytes) _ => apply (yields_bind _ _ _ _ yields_bytes); intros ??
  | |- yields (mbind _ r_i64) _ => apply (yields_bind _ _ _ _ yields_i64); intros ??
  | |- yields (mbind _ r_i32) _ => apply (yields_bind _ _ _ _ yields_i32); intros ??
  | |- yields (mbind _ r_u32) _ => apply (yields_bind _ _ _ _ yields_u32); intros ??
  | |- yields (mbind _ r_u8) _ => apply (yields_bind _ _ _ _ yields_u8); intros ??
  | |- yields (mbind _ (r_optional r_string [])) _ =>
      apply (yields_bind _ _ _ _ (yields_optional _ _ _ yields_bytes nil_fits)); intros ??
  | |- yields (mbind _ (r_optional r_u32 0)) _ =>
      apply (yields_bind _ _ _ _ (yields_optional _ _ _ yields_u32 zero_u32)); intros ??
  | |- yields (mbind _ (opReader _)) _ => apply (yields_bind _ _ _ _ (yields_any _)); intros ??
  | |- yields (mbind _ (r_optional r_bool _)) _ => apply (yields_bind _ _ _ _ (yields_any _)); intros ??
  | |- yields (mbind _ r_bool) _ => apply (yields_bind _ _ _ _ (yields_any _)); intros ??
  | |- yields (mbind _ r_done) _ => apply (yields_bind _ _ _ _ (yields_any _)); intros ??
  | |- yields (mbind _ remaining) _ => apply (yields_bind _ _ _ _ (yields_any _)); intros ??
  | |- yields (mret _) _ => apply yields_ret
  end.
Ltac yield := repeat yield_step; try done.

(** The claim on a decoded request is a claim on its reader. *)
Ltac by_read :=
  match goal with
  | |- _ = Ok ?a → ?G => let P := eval pattern a in G in match P with ?F _ => apply (yields_run _ F) end
  end; yield.

Lemma produce_read b req : DecodeProduceRequest b = Ok req → produce_fits req.
Proof. by_read. Qed.

Lemma ack_read op b req : decodeAckShapedRequest op b = Ok req → ack_typed req ∧ ack_fits req.
Proof. by_read. Qed.

Lemma partition_read op b req : decode_partition op b = Ok req → partition_fits req.
Proof. by_read. Qed.

Lemma fetch_read b req : DecodeFetchSegmentChunkRequest b = Ok req → fetch_typed req ∧ fetch_fits req.
Proof. by_read. Qed.

Lemma complete_read b req : DecodeCompleteMoveRequest b = Ok req → complete_fits req.
Proof. by_read. Qed.

Lemma abort_read b req : DecodeAbortMoveRequest b = Ok req → abort_fits req.
Proof. by_read. Qed.

Lemma decommission_read b req : DecodeDecommissionRequest b = Ok req → str_fits (d_ID req).
Proof. by_read. Qed.

Lemma forget_read b id : DecodeForgetServerRequest b = Ok id → str_fits id.
Proof. by_read. Qed.

Lemma user_read op b req : DecodeUserRequest op b = Ok req → user_fits req.
Proof. by_read. Qed.

Lemma remote_write_read b req : DecodeRemoteWriteRequest b = Ok req → remote_write_fits req.
Proof. by_read. Qed.

Lemma remote_check_read b req : DecodeRemoteCheckRequest b = Ok req → remote_check_fits req.
Proof. by_read. Qed.

Lemma notify_read b req : DecodeTokenNotifyRequest b = Ok req → str_fits (tq_From req) ∧ str_fits (tq_Topic req).
Proof. by_read. Qed.

Lemma topic_body_read op b req : DecodeTopicBodyRequest op b = Ok req → topic_body_fits req.
Proof. by_read. Qed.

Lemma topic_name_read op b req : DecodeTopicNameRequest op b = Ok req → topic_name_fits req.
Proof. by_read. Qed.

Lemma link_read op b req : DecodeChildLinkRequest op b = Ok req → in_i64 (l_DelayMs req) ∧ link_fits req.
Proof. by_read. Qed.

Lemma handoff_read b req : DecodePrepareHandoffRequest b = Ok req → in_i64 (h_FreezeTTLNanos req) ∧ handoff_fits req.
Proof. by_read. Qed.

Lemma join_read b req : DecodeJoinClusterRequest b = Ok req → in_u32 (j_EntryTypes req) ∧ join_fits req.
Proof. by_read. Qed.

Lemma member_read b req : DecodeMemberRequest b = Ok req → member_typed req ∧ member_fits req.
Proof.
  by_read. apply (yields_bind _ _ (λ v, str_fits v.1 ∧ in_u32 v.2)).
  - apply yields_optional; [yield|]. split; [done|cbn; wire_lia].
  - intros [bd ets] [??]. yield.
Qed.

Lemma consume_read b req : DecodeConsumeRequest b = Ok req → consume_typed req ∧ consume_fits req ∧ consume_canon req = req.
Proof.
  by_read. apply (yields_bind _ _ (λ n, n = 0 ∨ 1 < n <= MaxInt32)).
  - apply yields_optional; [|by left]. unfold r_max. yield. apply yields_if; intros; [done|]. apply yields_ret.
    destruct (Z.ltb_spec 1 a8); [right; wire_lia|by left].
  - intros n Hn. yield. unfold consume_typed, consume_fits, consume_canon; cbn. split; [done|]. split; [repeat split; try done; wire_lia|].
    f_equal. destruct (Z.ltb_spec 1 n); lia.
Qed.

Lemma ack_batch_read b l :
  DecodeAckBatchRequest b = Ok l → Forall item_typed l ∧ Z.of_nat (length l) <= MaxAckBatch ∧ Forall item_fits l.
Proof.
  by_read. apply yields_if; intros Hc; [done|].
  apply orb_false_iff in Hc as [[Hc1%Z.ltb_ge Hc2%Z.ltb_ge]%orb_false_iff _].
  apply (yields_bind _ _ (λ l, length l = Z.to_nat a0 ∧ Forall (λ i, item_typed i ∧ item_fits i) l)).
  - apply yields_times. unfold read_ack_item. yield. apply yields_if; intros Hm; [done|]. apply Z.ltb_ge in Hm. yield.
  - intros items [Hl HF]. yield. apply Forall_and in HF as [??]. split; [done|]. split; [lia|done].
Qed.

Lemma delta_read b d : DecodeTokenDelta b = Ok d → Forall token_typed (td_Add d) ∧ delta_fits d.
Proof.
  assert (yields (r_count maxTokenBatch) (λ n, Z.of_nat n <= maxTokenBatch)) as Hc.
  { unfold r_count. yield. apply yields_if; intros Hb; [done|]. apply orb_false_iff in Hb as [?%Z.ltb_ge ?%Z.ltb_ge]. apply yields_ret. lia. }
  by_read. apply (yields_bind _ _ _ _ Hc). intros n Hn.
  apply (yields_bind _ _ (λ l, length l = n ∧ Forall (λ a, token_typed a ∧ token_fits a) l)); [apply yields_times; yield|].
  intros add [Ha HF]. apply (yields_bind _ _ _ _ Hc). intros k Hk.
  apply (yields_bind _ _ _ _ (yields_times _ _ _ yields_bytes)). intros drop [Hd HD].
  yield. apply Forall_and in HF as [??]. unfold delta_fits. cbn. split; [done|]. repeat split; try done; lia.
Qed.

(** *** Records *)

Definition record_typed (r : CommitProduceRequest) : Prop := in_i64 (cp_CreatedAtUnixMs r).

Lemma record_yields : yields readCommitProduce (λ r, record_typed r ∧ record_fits r).
Proof. unfold readCommitProduce. yield. Qed.

Lemma stamp_fits id r : str_fits id → record_typed r ∧ record_fits r → record_typed (set_topic_id id r) ∧ record_fits (set_topic_id id r).
Proof. destruct r. unfold record_typed, record_fits. cbn. naive_solver. Qed.

Lemma commit_read b r : DecodeCommitProduceRequest b = Ok r → record_typed r ∧ record_fits r.
Proof. by_read. apply (yields_bind _ _ _ _ record_yields). intros r' Hr. yield. by apply stamp_fits. Qed.

Lemma runs_yield n l :
  Forall (λ r, record_typed r ∧ record_fits r) l →
  yields (read_runs n l) (λ l', length l' = length l ∧ Forall (λ r, record_typed r ∧ record_fits r) l').
Proof.
  revert l. induction n as [|n IH]; intros l Hl; cbn [read_runs].
  { case_decide as E; [|done]. apply yields_ret. by subst. }
  yield. apply yields_if; intros Hc; [done|]. apply orb_false_iff in Hc as [?%Z.leb_gt ?%Z.ltb_ge].
  yield. apply (yields_bind _ _ _ _ (IH _ (Forall_drop _ _ _ Hl))). intros rest [Hlen HF]. yield. split.
  - rewrite length_app, length_fmap, Hlen, length_take, length_drop. lia.
  - apply Forall_app. split; [|done]. apply Forall_fmap. eapply Forall_impl; [apply Forall_take, Hl|]. intros r Hr. by apply stamp_fits.
Qed.

Lemma commit_batch_read b l :
  DecodeCommitProduceBatchRequest b = Ok l → Forall record_typed l ∧ Z.of_nat (length l) <= MaxInt32 ∧ Forall record_fits l.
Proof.
  by_read. apply yields_if; intros Hc; [done|]. apply Z.ltb_ge in Hc.
  apply (yields_bind _ _ _ _ (yields_times _ _ _ record_yields)). intros records [Hlen HF].
  apply (yields_bind _ _ (λ l, length l = length records ∧ Forall (λ r, record_typed r ∧ record_fits r) l)).
  - apply yields_optional; [|done]. unfold readCommitProduceTopicIDs. yield. apply yields_if; intros; [done|]. by apply runs_yield.
  - intros l' [Hl HF']. yield. apply Forall_and in HF' as [??]. split; [done|]. split; [wire_lia|done].
Qed.

(** ** Serving *)

Lemma coded_served {A} op enc (dec : octets → result wire_err A) a fits (wrap : A → message) :
  coded op enc dec a fits → (∀ tl, serve (op :: tl) = decodes wrap (dec (op :: tl))) →
  match enc with Ok bytes => serve bytes = Ok (wrap a) | Err _ => ¬ fits end.
Proof. unfold coded. destruct enc; [|done]. intros [[tl ->] E] H. by rewrite H, E. Qed.

Lemma u8_op op : (0 <=? op) && (op <? 256) = true → in_u8 op.
Proof. unfold in_u8. lia. Qed.

Lemma encode_serve m :
  message_typed m →
  match EncodeMessage m with
  | Ok bytes => serve bytes = Ok (message_canon m)
  | Err _ => ¬ message_fits m
  end.
Proof.
  intros Ht. destruct m; cbn [EncodeMessage message_canon message_fits message_typed] in *.
  - exact (coded_served _ _ _ _ _ MProduce (produce_coded _) (λ _, eq_refl)).
  - exact (coded_served _ _ _ _ _ MConsume (consume_coded _ Ht) (λ _, eq_refl)).
  - exact (coded_served _ _ _ _ _ MAck (ack_coded OpAck _ (u8_op OpAck eq_refl) Ht) (λ _, eq_refl)).
  - exact (coded_served _ _ _ _ _ MCreateTopic (topic_body_coded OpCreateTopic _ (u8_op OpCreateTopic eq_refl)) (λ _, eq_refl)).
  - exact (coded_served _ _ _ _ _ MAlterTopic (topic_body_coded OpAlterTopic _ (u8_op OpAlterTopic eq_refl)) (λ _, eq_refl)).
  - exact (coded_served _ _ _ _ _ MDeleteTopic (topic_name_coded OpDeleteTopic _ (u8_op OpDeleteTopic eq_refl)) (λ _, eq_refl)).
  - exact (coded_served _ _ _ _ _ MPurgeTopic (topic_name_coded OpPurgeTopic _ (u8_op OpPurgeTopic eq_refl)) (λ _, eq_refl)).
  - exact (coded_served _ _ _ _ _ MTopicPartitionStats (partition_coded OpTopicPartitionStats _ (u8_op OpTopicPartitionStats eq_refl)) (λ _, eq_refl)).
  - exact (coded_served _ _ _ _ _ MRegisterMember (member_coded _ Ht) (λ _, eq_refl)).
  - exact (coded_served _ _ _ _ _ MCommitProduce (commit_coded _ Ht) (λ _, eq_refl)).
  - exact (coded_served _ _ _ _ _ MCommitProduceBatch (commit_batch_coded _ Ht) (λ _, eq_refl)).
  - exact (coded_served _ _ _ _ _ MCreateUser (user_coded OpCreateUser _ (u8_op OpCreateUser eq_refl)) (λ _, eq_refl)).
  - exact (coded_served _ _ _ _ _ MUpdateUser (user_coded OpUpdateUser _ (u8_op OpUpdateUser eq_refl)) (λ _, eq_refl)).
  - exact (coded_served _ _ _ _ _ MDeleteUser (user_coded OpDeleteUser _ (u8_op OpDeleteUser eq_refl)) (λ _, eq_refl)).
  - exact (coded_served _ _ _ _ _ MAttachChild (link_coded OpAttachChild _ (u8_op OpAttachChild eq_refl) Ht) (λ _, eq_refl)).
  - exact (coded_served _ _ _ _ _ MDetachChild (link_coded OpDetachChild _ (u8_op OpDetachChild eq_refl) Ht) (λ _, eq_refl)).
  - exact (coded_served _ _ _ _ _ MFanoutCursors (topic_name_coded OpFanoutCursors _ (u8_op OpFanoutCursors eq_refl)) (λ _, eq_refl)).
  - exact (coded_served _ _ _ _ _ MExtendAck (ack_coded OpExtendAck _ (u8_op OpExtendAck eq_refl) Ht) (λ _, eq_refl)).
  - exact (coded_served _ _ _ _ _ MNack (ack_coded OpNack _ (u8_op OpNack eq_refl) Ht) (λ _, eq_refl)).
  - exact (coded_served _ _ _ _ _ MGetTopic (topic_name_coded OpGetTopic _ (u8_op OpGetTopic eq_refl)) (λ _, eq_refl)).
  - exact (coded_served _ _ _ _ _ MJoinCluster (join_coded _ Ht) (λ _, eq_refl)).
  - exact (coded_served _ _ _ _ _ MListPartitionSegments (partition_coded OpListPartitionSegments _ (u8_op OpListPartitionSegments eq_refl)) (λ _, eq_refl)).
  - exact (coded_served _ _ _ _ _ MFetchSegmentChunk (fetch_coded _ Ht) (λ _, eq_refl)).
  - exact (coded_served _ _ _ _ _ MPrepareHandoff (handoff_coded _ Ht) (λ _, eq_refl)).
  - exact (coded_served _ _ _ _ _ MDecommissionMember (decommission_coded _) (λ _, eq_refl)).
  - exact (coded_served _ _ _ _ _ MCompleteMove (complete_coded _) (λ _, eq_refl)).
  - exact (coded_served _ _ _ _ _ MAbortMove (abort_coded _) (λ _, eq_refl)).
  - exact (coded_served _ _ _ _ _ MGetAssignment (partition_coded OpGetAssignment _ (u8_op OpGetAssignment eq_refl)) (λ _, eq_refl)).
  - exact (coded_served _ _ _ _ _ (λ _, MAppliedIndex) (probe_coded OpAppliedIndex (u8_op OpAppliedIndex eq_refl)) (λ _, eq_refl)).
  - exact (coded_served _ _ _ _ _ MTokenRegister (delta_coded _ Ht) (λ _, eq_refl)).
  - exact (coded_served _ _ _ _ _ MTokenNotify (notify_coded _) (λ _, eq_refl)).
  - exact (coded_served _ _ _ _ _ MAckBatch (ack_batch_coded _ Ht) (λ _, eq_refl)).
  - exact (coded_served _ _ _ _ _ (λ _, MNodeStatus) (probe_coded OpNodeStatus (u8_op OpNodeStatus eq_refl)) (λ _, eq_refl)).
  - exact (coded_served _ _ _ _ _ MForgetServer (forget_coded _) (λ _, eq_refl)).
  - exact (coded_served _ _ _ _ _ MRemoteWrite (remote_write_coded _) (λ _, eq_refl)).
  - exact (coded_served _ _ _ _ _ MRemoteCheck (remote_check_coded _) (λ _, eq_refl)).
Qed.

Lemma decodes_ok {A} (wrap : A → message) r m : decodes wrap r = Ok m → ∃ a, r = Ok a ∧ m = wrap a.
Proof. unfold decodes. intros (a & E & [= <-])%rbind_ok. eauto. Qed.

Definition acceptable (m : message) : Prop := message_typed m ∧ message_fits m ∧ message_canon m = m.

(** [decoded H]: what the decoder of [H] guarantees. *)
Ltac decoded H :=
  match type of H with
  | DecodeProduceRequest _ = _ => apply produce_read in H
  | DecodeConsumeRequest _ = _ => apply consume_read in H
  | DecodeAckRequest _ = _ => apply (ack_read OpAck) in H
  | DecodeExtendAckRequest _ = _ => apply (ack_read OpExtendAck) in H
  | DecodeNackRequest _ = _ => apply (ack_read OpNack) in H
  | DecodeAckBatchRequest _ = _ => apply ack_batch_read in H
  | DecodeTopicBodyRequest _ _ = _ => apply topic_body_read in H
  | DecodeTopicNameRequest _ _ = _ => apply topic_name_read in H
  | DecodeTopicPartitionStatsRequest _ = _ => apply (partition_read OpTopicPartitionStats) in H
  | DecodePartitionSegmentsRequest _ = _ => apply (partition_read OpListPartitionSegments) in H
  | DecodeGetAssignmentRequest _ = _ => apply (partition_read OpGetAssignment) in H
  | DecodeMemberRequest _ = _ => apply member_read in H
  | DecodeCommitProduceRequest _ = _ => apply commit_read in H
  | DecodeCommitProduceBatchRequest _ = _ => apply commit_batch_read in H
  | DecodeUserRequest _ _ = _ => apply user_read in H
  | DecodeChildLinkRequest _ _ = _ => apply link_read in H
  | DecodeJoinClusterRequest _ = _ => apply join_read in H
  | DecodeFetchSegmentChunkRequest _ = _ => apply fetch_read in H
  | DecodePrepareHandoffRequest _ = _ => apply handoff_read in H
  | DecodeDecommissionRequest _ = _ => apply decommission_read in H
  | DecodeCompleteMoveRequest _ = _ => apply complete_read in H
  | DecodeAbortMoveRequest _ = _ => apply abort_read in H
  | DecodeTokenDelta _ = _ => apply delta_read in H
  | DecodeTokenNotifyRequest _ = _ => apply notify_read in H
  | DecodeForgetServerRequest _ = _ => apply forget_read in H
  | DecodeRemoteWriteRequest _ = _ => apply remote_write_read in H
  | DecodeRemoteCheckRequest _ = _ => apply remote_check_read in H
  | _ => idtac
  end.
Ltac accept H :=
  apply decodes_ok in H as (? & H & ->); decoded H; unfold acceptable; cbn [message_typed message_fits message_canon];
  first [ by split; [|split] | destruct H as (? & ? & E); rewrite E; done | by destruct H ].

Lemma controlHandler_acceptable op handle b m : controlHandler op = Some handle → handle b = Ok m → acceptable m.
Proof.
  unfold controlHandler. intros Hh Hm.
  repeat (match type of Hh with (if ?c then _ else _) = _ => destruct c end;
    [injection Hh as <-; cbv beta in Hm; accept Hm|]). done.
Qed.

Lemma serveOther_acceptable op b m : serveOther op b = Ok m → acceptable m.
Proof.
  unfold serveOther. intros Hm.
  repeat (match type of Hm with (if ?c then _ else _) = _ => destruct c end; [accept Hm|]).
  destruct (controlHandler op) as [handle|] eqn:Hh; [|done]. by eapply controlHandler_acceptable.
Qed.

Lemma serve_acceptable b m : serve b = Ok m → acceptable m.
Proof.
  unfold serve. intros (op & _ & Hm)%rbind_ok.
  repeat (match type of Hm with (if ?c then _ else _) = _ => destruct c end; [accept Hm|]).
  by eapply serveOther_acceptable.
Qed.

(** ** Claims *)

(** C30. A request of the node protocol that its encoder accepts is, on the
    wire, a payload the server serves as that same request, for every
    operation and with every optional field present or absent (a consume
    batch size of one is read as the single-message form); an encoder
    refuses a request only when a field does not fit the format. *)
Theorem request_roundtrip m (Ht : message_typed m) :
  match EncodeMessage m with
  | Ok bytes => serve bytes = Ok (message_canon m)
  | Err _ => ¬ message_fits m
  end.
Proof. by apply encode_serve. Qed.

(** Any bytes the server accepts as a request are stable: the request
    they stand for can be encoded again, and serving that encoding gives
    the same request. *)
Theorem request_stable bytes m (Hs : serve bytes = Ok m) :
  ∃ bytes', EncodeMessage m = Ok bytes' ∧ serve bytes' = Ok m.
Proof.
  apply serve_acceptable in Hs as (Ht & Hf & Hc). pose proof (encode_serve m Ht) as H.
  destruct (EncodeMessage m) as [bytes'|]; [|done]. exists bytes'. by rewrite H, Hc.
Qed.
