(* ===== verification/ClusterStream.v ===== *)
(** * Frames on a cluster stream

    [internal/protocol/clusterwire]: the 20-byte frame header, a frame
    written in one or two [Write] calls, frames read back from a stream,
    and the payload of an error frame.  A stream is the bytes that reached
    it; a [Write] is an outcome the transport chooses, how many bytes it
    took and whether it failed. *)

From S2P Require Import Prelude Octets.

#[local] Arguments Z.mul : simpl never.
#[local] Arguments Z.add : simpl never.
#[local] Arguments Z.pow : simpl never.
#[local] Arguments put_be : simpl never.
#[local] Arguments get_be : simpl never.

Definition MaxStreamFramePayloadBytes : Z := 16777216.
Definition streamFrameHeaderBytes : nat := 20.
Definition streamMagic : Z := 0x4e525331.
Definition streamVersion : Z := 1.

Definition StreamFrameError : Z := 3.
Definition StreamFramePing : Z := 4.
Definition StreamFramePong : Z := 5.
Definition StreamFrameNodeRequest : Z := 8.
Definition StreamFrameNodeReply : Z := 9.
Definition StreamFrameAuth : Z := 10.
Definition StreamFrameCancel : Z := 11.

Record StreamFrame := MkFrame { fr_Type : Z; fr_RequestID : Z; fr_Payload : octets }.

#[global] Instance StreamFrame_eq_dec : EqDecision StreamFrame.
Proof. solve_decision. Defined.

Inductive stream_err :=
| SEOF               (** [io.EOF] *)
| SUnexpectedEOF
| SBadMagic
| SBadVersion
| STooLarge
| STrailing.

(** ** Writing *)

Definition appendStreamFrameHeader (dst : octets) (frame : StreamFrame) : octets :=
  dst ++ put_be 4 streamMagic ++ [streamVersion] ++ [fr_Type frame] ++ [0; 0] ++ put_be 8 (fr_RequestID frame) ++
    put_be 4 (blen (fr_Payload frame)).

Definition AppendStreamFrame (dst : octets) (frame : StreamFrame) : octets :=
  appendStreamFrameHeader dst frame ++ fr_Payload frame.

(** Why a [Write] failed: its deadline ([os.ErrDeadlineExceeded]) or the
    stream. *)
Inductive conn_err := CDeadline | CFailed.

(** One [Write] of [p] to a stream holding [wire]: the transport takes a
    prefix of [p], and fails when it takes less than all of it. *)
Definition write_outcome : Type := nat * option conn_err.
Definition conn_write (o : write_outcome) (wire p : octets) : octets * nat * option conn_err :=
  let n := Nat.min o.1 (length p) in
  (wire ++ take n p, n, match o.2 with Some e => Some e | None => if (n <? length p)%nat then Some CFailed else None end).

Inductive write_err := WTooLarge | WConn (e : conn_err).

(** [WriteStreamFrameInto]: one [Write]. *)
Definition WriteStreamFrameInto (o : write_outcome) (wire : octets) (frame : StreamFrame) : octets * option write_err :=
  if MaxStreamFramePayloadBytes <? blen (fr_Payload frame) then (wire, Some WTooLarge) else
  let '(wire, _, err) := conn_write o wire (AppendStreamFrame [] frame) in (wire, WConn <$> err).

Definition stagedLeadBytes : Z := 16384.

(** [WriteStreamFrameStaged]: the stream, how many bytes of the frame were
    written, and the error. *)
Definition WriteStreamFrameStaged (o1 o2 : write_outcome) (wire : octets) (frame : StreamFrame) (maxStaged : Z)
    : octets * nat * option write_err :=
  if MaxStreamFramePayloadBytes <? blen (fr_Payload frame) then (wire, 0%nat, Some WTooLarge) else
  if Z.of_nat streamFrameHeaderBytes + blen (fr_Payload frame) <=? maxStaged then
    let '(wire, n, err) := conn_write o1 wire (AppendStreamFrame [] frame) in (wire, n, WConn <$> err)
  else
    let lead := Z.to_nat (Z.max (Z.min stagedLeadBytes (maxStaged - Z.of_nat streamFrameHeaderBytes)) 0) in
    let buf := appendStreamFrameHeader [] frame ++ take lead (fr_Payload frame) in
    let '(wire, n, err) := conn_write o1 wire buf in
    match err with
    | Some e => (wire, n, Some (WConn e))
    | None => let '(wire, m, err) := conn_write o2 wire (drop lead (fr_Payload frame)) in (wire, (n + m)%nat, WConn <$> err)
    end.

(** ** Reading *)

(** [io.ReadFull] of [n] bytes. *)
Definition ReadFull (n : nat) (r : octets) : result stream_err (octets * octets) :=
  if (n <=? length r)%nat then Ok (take n r, drop n r)
  else Err (if decide (r = []) then SEOF else SUnexpectedEOF).

(** [header[a:b]]. *)
Definition slice (a b : nat) (s : octets) : octets := take (b - a) (drop a s).

Definition parseStreamFrameHeader (header : octets) : result stream_err (Z * Z * Z) :=
  if negb (get_be (slice 0 4 header) =? streamMagic) then Err SBadMagic else
  if negb (get_be (slice 4 5 header) =? streamVersion) then Err SBadVersion else
  Ok (get_be (slice 5 6 header), get_be (slice 8 16 header), get_be (slice 16 20 header)).

(** [ReadStreamFrame]; the buffered and the plain path read the header with
    the same results. *)
Definition ReadStreamFrame (maxPayloadBytes : Z) (r : octets) : result stream_err (StreamFrame * octets) :=
  let max := if maxPayloadBytes <=? 0 then MaxStreamFramePayloadBytes else maxPayloadBytes in
  let! (header, r) := ReadFull streamFrameHeaderBytes r in
  let! (typ, id, payloadLen) := parseStreamFrameHeader header in
  if max <? payloadLen then Err STooLarge else
  let! (payload, r) := ReadFull (Z.to_nat payloadLen) r in
  Ok (MkFrame typ id payload, r).

(** A read loop over the bytes of a stream: the frames read and the error
    that ended it.  A frame has a header, so the length of the bytes is
    enough fuel. *)
Fixpoint read_frames (fuel : nat) (max : Z) (r : octets) : list StreamFrame * stream_err :=
  match fuel with
  | O => ([], SEOF)
  | S fuel =>
      match ReadStreamFrame max r with
      | Err e => ([], e)
      | Ok (f, r) => let '(fs, e) := read_frames fuel max r in (f :: fs, e)
      end
  end.

Definition frames_of (max : Z) (r : octets) : list StreamFrame * stream_err := read_frames (S (length r)) max r.

(** ** Error frames *)

Definition EncodeStreamError (message : octets) : octets :=
  let message := if 65535 <? blen message then take (Z.to_nat 65535) message else message in
  put_be 2 (blen message) ++ message.

Definition DecodeStreamError (payload : octets) : result stream_err octets :=
  if blen payload <? 2 then Err SUnexpectedEOF else
  let msgLen := get_be (take 2 payload) in
  if blen payload <? 2 + msgLen then Err SUnexpectedEOF else
  if negb (blen payload =? 2 + msgLen) then Err STrailing else
  Ok (take (Z.to_nat msgLen) (drop 2 payload)).

(** ** Frames read back *)

Definition frame_bytes (f : StreamFrame) : octets := AppendStreamFrame [] f.
Definition stream_bytes (fs : list StreamFrame) : octets := fs ≫= frame_bytes.

(** A frame of its Go types whose payload is within the cap. *)
Definition frame_ok (f : StreamFrame) : Prop :=
  0 <= fr_Type f < 256 ∧ 0 <= fr_RequestID f < two64 ∧ blen (fr_Payload f) <= MaxStreamFramePayloadBytes.

#[global] Instance frame_ok_dec f : Decision (frame_ok f).
Proof. unfold frame_ok. apply _. Defined.

Lemma header_length f : length (appendStreamFrameHeader [] f) = 20%nat.
Proof. unfold appendStreamFrameHeader. rewrite ?length_app, !length_put_be. done. Qed.

Lemma frame_bytes_length f : length (frame_bytes f) = (20 + length (fr_Payload f))%nat.
Proof. unfold frame_bytes, AppendStreamFrame. by rewrite length_app, header_length. Qed.

Lemma ReadFull_app a r : ReadFull (length a) (a ++ r) = Ok (a, r).
Proof.
  unfold ReadFull. rewrite length_app, (proj2 (Nat.leb_le _ _)) by lia. by rewrite take_app_length, drop_app_length.
Qed.

Lemma ReadFull_header f r : ReadFull 20 (appendStreamFrameHeader [] f ++ r) = Ok (appendStreamFrameHeader [] f, r).
Proof. rewrite <-ReadFull_app. by rewrite header_length. Qed.

Lemma get_be_1 x : 0 <= x < 256 → get_be [x] = x.
Proof. intros H. change (get_be [x]) with (0 * 256 + x mod 256). rewrite Z.mod_small by lia. lia. Qed.

Lemma slice_middle a b c i j : length a = i → length b = (j - i)%nat → slice i j (a ++ b ++ c) = b.
Proof. intros Ha Hb. unfold slice. rewrite drop_app_length' by done. by rewrite take_app_length'. Qed.

Lemma parse_header f :
  frame_ok f → parseStreamFrameHeader (appendStreamFrameHeader [] f) = Ok (fr_Type f, fr_RequestID f, blen (fr_Payload f)).
Proof.
  intros (Ht & Hi & Hp). unfold parseStreamFrameHeader, appendStreamFrameHeader. cbn [app].
  set (m := put_be 4 streamMagic). set (i := put_be 8 _). set (n := put_be 4 (blen _)).
  assert (length m = 4%nat) by apply length_put_be. assert (length i = 8%nat) by apply length_put_be.
  assert (length n = 4%nat) by apply length_put_be.
  assert (get_be m = streamMagic) as Em by by vm_compute.
  assert (get_be i = fr_RequestID f) as Ei by (apply get_put_be; unfold two64 in Hi; done).
  assert (get_be n = blen (fr_Payload f)) as En.
  { apply get_put_be. change (256 ^ Z.of_nat 4) with (2 ^ 32). unfold blen, MaxStreamFramePayloadBytes in *. lia. }
  pose proof (slice_middle [] m ([streamVersion; fr_Type f; 0; 0] ++ i ++ n) 0 4) as S0.
  pose proof (slice_middle m [streamVersion] ([fr_Type f; 0; 0] ++ i ++ n) 4 5) as S1.
  pose proof (slice_middle (m ++ [streamVersion]) [fr_Type f] ([0; 0] ++ i ++ n) 5 6) as S2.
  pose proof (slice_middle (m ++ [streamVersion; fr_Type f; 0; 0]) i n 8 16) as S3.
  pose proof (slice_middle (m ++ [streamVersion; fr_Type f; 0; 0] ++ i) n [] 16 20) as S4.
  rewrite app_nil_r in S4. rewrite <-?app_assoc in *. cbn [app] in *.
  rewrite S0, S1, S2, S3, S4 by (rewrite ?length_app; cbn; rewrite ?length_app; lia).
  rewrite Em, Ei, En, !get_be_1 by (done || by vm_compute). done.
Qed.

Lemma read_frame f r max :
  frame_ok f → max <= 0 ∨ blen (fr_Payload f) <= max → ReadStreamFrame max (frame_bytes f ++ r) = Ok (f, r).
Proof.
  intros Hf Hm. unfold ReadStreamFrame, frame_bytes, AppendStreamFrame, streamFrameHeaderBytes.
  rewrite <-app_assoc, ReadFull_header. cbn [rbind].
  rewrite parse_header by done. cbn [rbind]. destruct Hf as (_ & _ & Hp).
  rewrite (proj2 (Z.ltb_ge _ _)) by (destruct (Z.leb_spec max 0); lia).
  unfold blen. rewrite Nat2Z.id, ReadFull_app. cbn [rbind]. by destruct f.
Qed.

Lemma ReadFull_short n r : (length r < n)%nat → ∃ e, ReadFull n r = Err e ∧ (e = SEOF ∨ e = SUnexpectedEOF).
Proof.
  intros H. unfold ReadFull. rewrite (proj2 (Nat.leb_gt _ _)) by lia. case_decide; eauto.
Qed.

(** A frame cut short is never read. *)
Lemma read_cut f n max :
  frame_ok f → max <= 0 ∨ blen (fr_Payload f) <= max → (n < length (frame_bytes f))%nat →
  ∃ e, ReadStreamFrame max (take n (frame_bytes f)) = Err e ∧ (e = SEOF ∨ e = SUnexpectedEOF).
Proof.
  intros Hf Hm Hn. rewrite frame_bytes_length in Hn. unfold ReadStreamFrame, streamFrameHeaderBytes.
  destruct (decide (n < 20)%nat) as [Hh|Hh].
  { destruct (ReadFull_short 20 (take n (frame_bytes f))) as (e & -> & He); [rewrite length_take; lia|]. exists e. done. }
  unfold frame_bytes, AppendStreamFrame. rewrite take_app_ge, header_length by (rewrite header_length; lia).
  rewrite ReadFull_header. cbn [rbind]. rewrite parse_header by done. cbn [rbind].
  destruct Hf as (_ & _ & Hp). rewrite (proj2 (Z.ltb_ge _ _)) by (destruct (Z.leb_spec max 0); lia).
  destruct (ReadFull_short (Z.to_nat (blen (fr_Payload f))) (take (n - 20) (fr_Payload f))) as (e & -> & He);
    [rewrite length_take; unfold blen; lia|]. exists e. done.
Qed.

Definition readable (max : Z) (f : StreamFrame) : Prop := frame_ok f ∧ (max <= 0 ∨ blen (fr_Payload f) <= max).

Lemma stream_bytes_cons f fs : stream_bytes (f :: fs) = frame_bytes f ++ stream_bytes fs.
Proof. done. Qed.

Lemma stream_bytes_app fs gs : stream_bytes (fs ++ gs) = stream_bytes fs ++ stream_bytes gs.
Proof. apply bind_app. Qed.

Lemma stream_bytes_length fs : (20 * length fs <= length (stream_bytes fs))%nat.
Proof.
  induction fs as [|f fs IH]; [done|]. rewrite stream_bytes_cons, length_app, frame_bytes_length. cbn [length]. lia.
Qed.

Lemma read_frames_stream fs tail fuel max e :
  Forall (readable max) fs → ReadStreamFrame max tail = Err e → (length fs < fuel)%nat →
  read_frames fuel max (stream_bytes fs ++ tail) = (fs, e).
Proof.
  intros HF Ht. revert fuel. induction HF as [|f fs [Hf Hm] _ IH]; intros [|fuel] Hfuel; cbn [length] in *; try lia; cbn [read_frames].
  - change (stream_bytes [] ++ tail) with tail. by rewrite Ht.
  - rewrite stream_bytes_cons, <-app_assoc, read_frame by done.
    by rewrite IH by lia.
Qed.

(** Bytes cut anywhere out of a sequence of frames: the frames before the
    cut are read, the frame it falls in is not. *)
Lemma frames_of_cut fs n max :
  Forall (readable max) fs →
  ∃ k e, frames_of max (take n (stream_bytes fs)) = (take k fs, e) ∧ (e = SEOF ∨ e = SUnexpectedEOF) ∧
    (length (stream_bytes (take k fs)) <= n)%nat ∧ ((k < length fs)%nat → (n < length (stream_bytes (take (S k) fs)))%nat).
Proof.
  intros HF.
  assert (∃ k tail e, take n (stream_bytes fs) = stream_bytes (take k fs) ++ tail ∧ ReadStreamFrame max tail = Err e ∧
    (e = SEOF ∨ e = SUnexpectedEOF) ∧ (length (stream_bytes (take k fs)) <= n)%nat ∧
    ((k < length fs)%nat → (n < length (stream_bytes (take (S k) fs)))%nat)) as (k & tail & e & E & He & Hee & Hk & Hn).
  { clear -HF. revert n. induction HF as [|f fs [Hf Hm] _ IH]; intros n.
    { exists 0%nat, [], SEOF. change (stream_bytes []) with (@nil Z). rewrite take_nil.
      split; [done|]. split; [done|]. split; [by left|]. split; [cbn; lia|]. cbn [length]. lia. }
    rewrite stream_bytes_cons.
    destruct (decide (n < length (frame_bytes f))%nat) as [Hn|Hn].
    { destruct (read_cut f n max Hf Hm Hn) as (e & He & Hee). exists 0%nat, (take n (frame_bytes f)), e.
      rewrite take_app_le by lia. split; [done|]. split; [done|]. split; [done|]. split; [cbn; lia|]. intros _. cbn [take]. by rewrite stream_bytes_cons, app_nil_r. }
    destruct (IH (n - length (frame_bytes f))%nat) as (k & tail & e & E & He & Hee & Hk & Hk2).
    exists (S k), tail, e. rewrite take_app_ge, E by lia.
    change (take (S k) (f :: fs)) with (f :: take k fs). change (take (S (S k)) (f :: fs)) with (f :: take (S k) fs).
    rewrite !stream_bytes_cons, !length_app, <-app_assoc.
    split; [done|]. split; [done|]. split; [done|]. split; [lia|]. cbn [length]. intros Hl. specialize (Hk2 ltac:(lia)). lia. }
  exists k, e. split; [|done]. unfold frames_of. rewrite E. apply read_frames_stream; [by apply Forall_take|done|].
  rewrite length_app. pose proof (stream_bytes_length (take k fs)). lia.
Qed.

(** ** What a write leaves on the stream *)

Lemma conn_write_spec o wire p :
  ∃ n err, conn_write o wire p = (wire ++ take n p, n, err) ∧ (n <= length p)%nat ∧ (err = None → n = length p).
Proof.
  unfold conn_write. do 2 eexists. split; [done|]. split; [lia|]. destruct o as [k [e|]]; cbn [fst snd]; [done|].
  destruct (Nat.ltb_spec (Nat.min k (length p)) (length p)); [done|]. lia.
Qed.

(** However it is staged and wherever it is cut off, a write puts a prefix
    of the frame's bytes on the stream and reports its length; all of them
    when it succeeds. *)
Lemma staged_spec o1 o2 wire f maxStaged :
  ∃ n err, WriteStreamFrameStaged o1 o2 wire f maxStaged = (wire ++ take n (frame_bytes f), n, err) ∧
    (n <= length (frame_bytes f))%nat ∧ (err = None → n = length (frame_bytes f)) ∧ (err = Some WTooLarge → n = 0%nat).
Proof.
  unfold WriteStreamFrameStaged. destruct (Z.ltb_spec MaxStreamFramePayloadBytes (blen (fr_Payload f))) as [|Hmax].
  { exists 0%nat, (Some WTooLarge). rewrite take_0, app_nil_r. repeat split; try done. lia. }
  destruct (Z.leb_spec (Z.of_nat streamFrameHeaderBytes + blen (fr_Payload f)) maxStaged) as [|Hst].
  { destruct (conn_write_spec o1 wire (frame_bytes f)) as (n & err & E & Hn & Hall). unfold frame_bytes in E. rewrite E.
    exists n, (WConn <$> err). split; [done|]. split; [done|]. split; [|by destruct err]. by destruct err; [|intros _; apply Hall]. }
  set (lead := Z.to_nat _). set (buf := appendStreamFrameHeader [] f ++ take lead (fr_Payload f)).
  assert (frame_bytes f = buf ++ drop lead (fr_Payload f)) as Ef.
  { unfold frame_bytes, AppendStreamFrame, buf. by rewrite <-app_assoc, take_drop. }
  destruct (conn_write_spec o1 wire buf) as (n & err & E & Hn & Hall). rewrite E, Ef.
  destruct err as [e|].
  { exists n, (Some (WConn e)). rewrite take_app_le by done. rewrite length_app. repeat split; try done. lia. }
  specialize (Hall eq_refl). subst n.
  destruct (conn_write_spec o2 (wire ++ take (length buf) buf) (drop lead (fr_Payload f))) as (m & err & E2 & Hm & Hall2). rewrite E2.
  exists (length buf + m)%nat, (WConn <$> err). rewrite take_ge, take_app_add, length_app, <-app_assoc by lia.
  split; [done|]. split; [lia|]. split; [destruct err; [done|]; intros _; rewrite Hall2; done|by destruct err].
Qed.

(** An error message survives, up to the truncation at 64 KiB. *)
Lemma stream_error_roundtrip msg : DecodeStreamError (EncodeStreamError msg) = Ok (take (Z.to_nat 65535) msg).
Proof.
  unfold EncodeStreamError. set (m := if 65535 <? blen msg then take (Z.to_nat 65535) msg else msg).
  assert (m = take (Z.to_nat 65535) msg ∧ blen m <= 65535) as [Em Hm].
  { subst m. unfold blen. destruct (Z.ltb_spec 65535 (Z.of_nat (length msg))); [split; [done|]; rewrite length_take; lia|]. rewrite take_ge by lia. split; [done|lia]. }
  clearbody m. unfold DecodeStreamError. assert (length (put_be 2 (blen m)) = 2%nat) as L by apply length_put_be.
  assert (blen (put_be 2 (blen m) ++ m) = 2 + blen m) as Lb by (unfold blen at 1; rewrite length_app, L; unfold blen; lia).
  rewrite take_app_length', drop_app_length' by done. rewrite get_put_be by (change (256 ^ Z.of_nat 2) with 65536; unfold blen in *; lia).
  rewrite Lb. unfold blen at 1. rewrite (proj2 (Z.ltb_ge _ 2)) by lia. rewrite Z.ltb_irrefl, Z.eqb_refl. cbn [negb].
  unfold blen. rewrite Nat2Z.id, take_ge by lia. by rewrite Em.
Qed.
