(* ===== verification/StreamClient.v ===== *)
(** * Requests multiplexed over one stream

    The client of [internal/platform/clusterrpc/stream_client.go]: many
    requests share one stream, each with its request ID, a waiter channel
    in [pending] and a turn at the write slot, while one goroutine reads
    replies.  The goroutines' interleavings are a step relation; a step is
    the code between two points another goroutine can observe.  How a
    [Write] ends, when a deadline or a context ends and what the peer
    sends are the environment's choice. *)

From S2P Require Import Prelude Octets ClusterStream.

(** ** Errors *)

Inductive cause :=
| EContext (deadline : bool)       (** [ctx.Err()] *)
| ERequestTimeout                  (** [errRequestTimeout] *)
| EFallbackTimeout                 (** [errFallbackReplyTimeout] *)
| EWriteStalled
| EPayloadTooLarge
| EStreamClosed
| EConn (e : conn_err)
| ERead (e : stream_err)
| EUnsupported (typ : Z)
| EPeer (message : octets)
| EBadError (e : stream_err).

(** An error and whether it carries the [ErrNotSent] mark. *)
Record err := MkErr { e_cause : cause; e_not_sent : bool }.

Definition notSent (e : err) : err := MkErr (e_cause e) true.
Definition maybeSent (e : err) : err := MkErr (e_cause e) false.
Definition plain (c : cause) : err := MkErr c false.

Definition deadline_exceeded (c : cause) : bool :=
  match c with EContext d => d | ERequestTimeout | EFallbackTimeout | EWriteStalled => true | _ => false end.

(** ** State *)

Abbreviation streamResult := (result err StreamFrame).

(** The earliest deadline of a request: its caller's own, its context's, or
    neither. *)
Inductive limit := LOwn | LContext | LNone.

(** Where a request's goroutine is in [roundTrip]. *)
Inductive phase :=
| PStart (f : StreamFrame) (l : limit)                (** registered, entering [writeFrame] *)
| PQueued (f : StreamFrame) (l : limit)               (** waiting in [lockWrite] *)
| PLocked (f : StreamFrame) (l : limit)               (** holding the write slot *)
| PWrote (f : StreamFrame) (l : limit) (n : nat) (r : option write_err)
                                                      (** [WriteStreamFrameStaged] returned *)
| PFailed (e : err)                                   (** [writeFrame] returned an error *)
| PWaiting (l : limit)                                (** in the reply wait *)
| PDone (r : streamResult).

(** [log] is a ghost: every frame handed to the stream and how many of its
    bytes went out. *)
Record client := MkClient {
  wire : octets;
  slot : option Z;
  nextID : Z;
  closed : bool;
  closeErr : option err;
  pending : gset Z;
  chan : gmap Z (list streamResult);
  phases : gmap Z phase;
  cancels : gset Z;
  draining : option err;
  reading : bool;
  log : list (StreamFrame * nat);
}.

Definition newStreamClient : client := MkClient [] None 0 false None ∅ ∅ ∅ ∅ None true [].

Definition set_phase (id : Z) (p : phase) (c : client) : client :=
  MkClient (wire c) (slot c) (nextID c) (closed c) (closeErr c) (pending c) (chan c) (<[id := p]> (phases c)) (cancels c)
    (draining c) (reading c) (log c).
Definition set_slot (s : option Z) (c : client) : client :=
  MkClient (wire c) s (nextID c) (closed c) (closeErr c) (pending c) (chan c) (phases c) (cancels c) (draining c) (reading c) (log c).
Definition set_pending (p : gset Z) (c : client) : client :=
  MkClient (wire c) (slot c) (nextID c) (closed c) (closeErr c) p (chan c) (phases c) (cancels c) (draining c) (reading c) (log c).
Definition set_chan (ch : gmap Z (list streamResult)) (c : client) : client :=
  MkClient (wire c) (slot c) (nextID c) (closed c) (closeErr c) (pending c) ch (phases c) (cancels c) (draining c) (reading c) (log c).
Definition set_cancels (s : gset Z) (c : client) : client :=
  MkClient (wire c) (slot c) (nextID c) (closed c) (closeErr c) (pending c) (chan c) (phases c) s (draining c) (reading c) (log c).
Definition set_draining (d : option err) (c : client) : client :=
  MkClient (wire c) (slot c) (nextID c) (closed c) (closeErr c) (pending c) (chan c) (phases c) (cancels c) d (reading c) (log c).
Definition stop_reading (c : client) : client :=
  MkClient (wire c) (slot c) (nextID c) (closed c) (closeErr c) (pending c) (chan c) (phases c) (cancels c) (draining c) false (log c).

(** ** Operations *)

Definition closeError (c : client) : err := default (plain EStreamClosed) (closeErr c).

(** [closeWithError] up to the abort of the stream; [drain] is the rest of
    it.  A second close changes nothing but a cause not yet recorded. *)
Definition closeWithError (e : err) (c : client) : client :=
  MkClient (wire c) (slot c) (nextID c) true (Some (default (maybeSent e) (closeErr c))) (pending c) (chan c) (phases c) (cancels c)
    (if closed c then draining c else Some (maybeSent e)) (reading c) (log c).

(** [ch <- result]. *)
Definition send (id : Z) (r : streamResult) (ch : gmap Z (list streamResult)) : gmap Z (list streamResult) :=
  <[id := default [] (ch !! id) ++ [r]]> ch.

(** The end of [closeWithError]: every pending waiter gets the error. *)
Definition drain (e : err) (c : client) : client :=
  set_draining None (set_pending ∅ (set_chan (set_fold (λ id ch, send id (Err e) ch) (chan c) (pending c)) c)).

Definition removePending (id : Z) (c : client) : client := set_pending (pending c ∖ {[id]}) c.

(** [complete].  The source sends after it has left [pendingMu]; the channel
    has room for the one result it is ever sent, only the goroutine that
    took the entry sends on it, and a waiter that times out meanwhile does
    so here with the result in its channel ([S_timeout]), so nobody can
    tell the two from one step. *)
Definition complete (id : Z) (r : streamResult) (c : client) : client :=
  if decide (id ∈ pending c) then set_chan (send id r (chan c)) (removePending id c) else c.

Definition maxRetainedWriteBuffer : Z := 262144.

(** The write itself. *)
Definition put_frame (o1 o2 : write_outcome) (f : StreamFrame) (c : client) : client * nat * option write_err :=
  let '(w, n, r) := WriteStreamFrameStaged o1 o2 (wire c) f maxRetainedWriteBuffer in
  (MkClient w (slot c) (nextID c) (closed c) (closeErr c) (pending c) (chan c) (phases c) (cancels c) (draining c) (reading c)
     (log c ++ [(f, n)]), n, r).

Definition write_cause (w : write_err) : cause := match w with WTooLarge => EPayloadTooLarge | WConn e => EConn e end.

(** A write that sent nothing before its deadline leaves the stream open. *)
Definition stalled (n : nat) (w : write_err) : bool :=
  match n, w with O, WConn CDeadline => true | _, _ => false end.

(** [writeLocked] after a failed write: the client and the error. *)
Definition write_failed (n : nat) (w : write_err) (c : client) : client * err :=
  let e := plain (write_cause w) in
  if stalled n w then (c, notSent e)
  else (closeWithError e c, if decide (n = O) then notSent e else e).

(** [writeFrame] after [writeLocked] returned [e]. *)
Definition frame_error (l : limit) (e : err) (c : client) : err :=
  if closed c then e else
  match l with LOwn => notSent (plain ERequestTimeout) | LContext => notSent (plain (EContext true)) | LNone => notSent (plain EWriteStalled) end.

(** [readLoop] on one frame. *)
Definition read_frame_step (f : StreamFrame) (c : client) : client :=
  if (fr_Type f =? StreamFrameNodeReply) || (fr_Type f =? StreamFramePong) then complete (fr_RequestID f) (Ok f) c
  else if fr_Type f =? StreamFrameError then
    match DecodeStreamError (fr_Payload f) with
    | Err e => complete (fr_RequestID f) (Err (plain (EBadError e))) c
    | Ok m => complete (fr_RequestID f) (Err (plain (EPeer m))) c
    end
  else stop_reading (closeWithError (plain (EUnsupported (fr_Type f))) c).

(** [writeCancel], from taking the write slot to freeing it. *)
Definition cancel_frame (id : Z) : StreamFrame := MkFrame StreamFrameCancel id [].
Definition writeCancel (o1 o2 : write_outcome) (id : Z) (c : client) : client :=
  if closed c then c else
  let '(c, n, r) := put_frame o1 o2 (cancel_frame id) c in
  match r with None => c | Some w => (write_failed n w c).1 end.

(** The error a reply wait that ran out ends with: the caller's own
    deadline, the client's fallback for callers without one, or the
    context's. *)
Definition wait_error (l : limit) (e : err) : Prop :=
  (l = LOwn ∧ e = plain ERequestTimeout) ∨ (l = LNone ∧ e = plain EFallbackTimeout) ∨ (∃ d, e = plain (EContext d)).

(** The error of a caller that gave up waiting for the write slot. *)
Definition queue_error (l : limit) (e : err) : Prop := (∃ d, e = plain (EContext d)) ∨ (l = LOwn ∧ e = plain ERequestTimeout).

(** ** Steps *)

Inductive step : client → client → Prop :=
| S_begin c l typ payload :
    0 <= typ < 256 → nextID c + 1 < two64 →
    let id := nextID c + 1 in
    step c (MkClient (wire c) (slot c) id (closed c) (closeErr c) ({[id]} ∪ pending c) (<[id := []]> (chan c))
              (<[id := PStart (MkFrame typ id payload) l]> (phases c)) (cancels c) (draining c) (reading c) (log c))
| S_refused c id f l :
    phases c !! id = Some (PStart f l) → closed c = true → step c (set_phase id (PFailed (notSent (closeError c))) c)
| S_too_large c id f l :
    phases c !! id = Some (PStart f l) → closed c = false → MaxStreamFramePayloadBytes < blen (fr_Payload f) →
    step c (set_phase id (PFailed (notSent (plain EPayloadTooLarge))) c)
| S_queue c id f l :
    phases c !! id = Some (PStart f l) → closed c = false → blen (fr_Payload f) <= MaxStreamFramePayloadBytes →
    step c (set_phase id (PQueued f l) c)
| S_gave_up c id f l e :
    phases c !! id = Some (PQueued f l) → queue_error l e → step c (set_phase id (PFailed (notSent e)) c)
| S_lock c id f l :
    phases c !! id = Some (PQueued f l) → slot c = None → step c (set_slot (Some id) (set_phase id (PLocked f l) c))
| S_write_closed c id f l :
    phases c !! id = Some (PLocked f l) → closed c = true →
    step c (set_slot None (set_phase id (PFailed (notSent (closeError c))) c))
| S_write c id f l o1 o2 c' n r :
    phases c !! id = Some (PLocked f l) → closed c = false → put_frame o1 o2 f c = (c', n, r) →
    step c (set_phase id (PWrote f l n r) c')
| S_written c id f l n :
    phases c !! id = Some (PWrote f l n None) → step c (set_slot None (set_phase id (PWaiting l) c))
| S_write_failed c id f l n w c' e :
    phases c !! id = Some (PWrote f l n (Some w)) → write_failed n w c = (c', e) →
    step c (set_slot None (set_phase id (PFailed (frame_error l e c')) c'))
| S_fail c id e :
    phases c !! id = Some (PFailed e) → step c (set_phase id (PDone (Err e)) (removePending id c))
| S_result c id l r rs :
    phases c !! id = Some (PWaiting l) → chan c !! id = Some (r :: rs) →
    step c (set_phase id (PDone r) (set_chan (<[id := rs]> (chan c)) c))
| S_timeout c id l e :
    phases c !! id = Some (PWaiting l) → wait_error l e →
    step c (set_phase id (PDone (Err e))
              (set_cancels (if closed c then cancels c else {[id]} ∪ cancels c) (removePending id c)))
| S_cancel c id o1 o2 :
    id ∈ cancels c → slot c = None → step c (set_cancels (cancels c ∖ {[id]}) (writeCancel o1 o2 id c))
| S_cancel_drop c id : id ∈ cancels c → step c (set_cancels (cancels c ∖ {[id]}) c)
| S_read c f : reading c = true → step c (read_frame_step f c)
| S_read_error c e : reading c = true → step c (stop_reading (closeWithError (plain (ERead e)) c))
| S_close c e : step c (closeWithError e c)
| S_drain c e : draining c = Some e → step c (drain e c).

Inductive reachable : client → Prop :=
| reachable_new : reachable newStreamClient
| reachable_step c c' : reachable c → step c c' → reachable c'.
