(* ===== verification/StreamInv.v ===== *)
(** * Invariants of the stream client

    What holds in every state the interleavings of [StreamClient] reach:
    request IDs and the write slot ([inv_ids]), the bytes on the stream
    ([inv_log]), which requests left ([inv_sent]) and the waiters'
    channels ([inv_chan]). *)

From S2P Require Import Prelude Octets ClusterStream StreamClient.

#[local] Arguments put_be : simpl never.
#[local] Arguments Z.add : simpl never.

(** ** Request IDs and the write slot *)

Definition phase_frame (p : phase) : option StreamFrame :=
  match p with PStart f _ | PQueued f _ | PLocked f _ | PWrote f _ _ _ => Some f | _ => None end.

(** The phases past the size check of [writeFrame]. *)
Definition sized (p : phase) : bool := match p with PQueued _ _ | PLocked _ _ | PWrote _ _ _ _ => true | _ => false end.
Definition writing (p : phase) : bool := match p with PLocked _ _ | PWrote _ _ _ _ => true | _ => false end.

Record inv_ids (c : client) : Prop := {
  ids_next : 0 <= nextID c < two64;
  ids_phase id p : phases c !! id = Some p → 0 < id <= nextID c;
  ids_pending id : id ∈ pending c → 0 < id <= nextID c;
  ids_log f n : (f, n) ∈ log c → 0 < fr_RequestID f <= nextID c;
  ids_cancels id : id ∈ cancels c → ∃ e, phases c !! id = Some (PDone (Err e)) ∧ e_not_sent e = false;
  ids_frame id p f : phases c !! id = Some p → phase_frame p = Some f → fr_RequestID f = id ∧ 0 <= fr_Type f < 256;
  ids_sized id p f : phases c !! id = Some p → phase_frame p = Some f → sized p = true → blen (fr_Payload f) <= MaxStreamFramePayloadBytes;
  ids_slot id p : phases c !! id = Some p → writing p = true → slot c = Some id;
}.

(** Steps that only move one request between phases, unfolded. *)
Ltac step_cases :=
  unfold set_phase, set_slot, set_pending, set_chan, set_cancels, set_draining, stop_reading, removePending, drain in *; cbn in *.
Ltac at_id :=
  repeat match goal with
  | H : <[?i := _]> _ !! ?j = Some _ |- _ => apply lookup_insert_Some in H as [[<- H]|[? H]]; [match type of H with _ = ?q => first [is_var q; subst q | idtac] end|]
  end.

Lemma put_frame_eq o1 o2 f c c' n r :
  put_frame o1 o2 f c = (c', n, r) →
  c' = MkClient (wire c ++ take n (frame_bytes f)) (slot c) (nextID c) (closed c) (closeErr c) (pending c) (chan c) (phases c)
         (cancels c) (draining c) (reading c) (log c ++ [(f, n)]) ∧
  (n <= length (frame_bytes f))%nat ∧ (r = None → n = length (frame_bytes f)).
Proof.
  unfold put_frame. destruct (staged_spec o1 o2 (wire c) f maxRetainedWriteBuffer) as (n' & err' & -> & Hn & Hall & _).
  intros [= <- <- <-]. done.
Qed.

(** What a step that is not about one request's phase leaves alone. *)
Definition same_ids (c c' : client) : Prop :=
  nextID c' = nextID c ∧ phases c' = phases c ∧ slot c' = slot c ∧ cancels c' = cancels c ∧ pending c' ⊆ pending c.

Lemma same_ids_close e c : same_ids c (closeWithError e c) ∧ log (closeWithError e c) = log c.
Proof. unfold same_ids. cbn. set_solver. Qed.

Lemma same_ids_complete id r c : same_ids c (complete id r c) ∧ log (complete id r c) = log c.
Proof. unfold same_ids, complete. case_decide; cbn; set_solver. Qed.

Lemma same_ids_read f c : same_ids c (read_frame_step f c) ∧ log (read_frame_step f c) = log c.
Proof.
  unfold read_frame_step. repeat case_match; try apply same_ids_complete.
  pose proof (same_ids_close (plain (EUnsupported (fr_Type f))) c). done.
Qed.

Lemma same_ids_failed n w c : same_ids c (write_failed n w c).1 ∧ log (write_failed n w c).1 = log c.
Proof. unfold write_failed. destruct (stalled n w); [unfold same_ids; set_solver|apply same_ids_close]. Qed.

Lemma same_ids_trans c1 c2 c3 : same_ids c1 c2 → same_ids c2 c3 → same_ids c1 c3.
Proof. intros (E1&E2&E3&E4&?) (F1&F2&F3&F4&?). repeat split; try congruence. set_solver. Qed.

Lemma inv_ids_same c c' : inv_ids c → same_ids c c' → log c' = log c → inv_ids c'.
Proof.
  intros [] (E1 & E2 & E3 & E4 & E5) E6. split; rewrite ?E1, ?E2, ?E3, ?E4, ?E6; try done. set_solver.
Qed.

Lemma inv_ids_phase c id p p' :
  inv_ids c → phases c !! id = Some p →
  (∀ e, p ≠ PDone e) →
  (∀ f, phase_frame p' = Some f → phase_frame p = Some f ∧ (sized p' = true → blen (fr_Payload f) <= MaxStreamFramePayloadBytes)) →
  (writing p' = true → slot c = Some id) → inv_ids (set_phase id p' c).
Proof.
  intros [] Hp Hd Hf Hs. split; cbn; try done.
  - intros i q Hi. at_id; eauto.
  - intros i Hi. destruct (ids_cancels0 i Hi) as (e & He & ?). exists e. rewrite lookup_insert_ne; [done|]. intros ->. naive_solver.
  - intros i q f Hi Hq. at_id; [|eauto]. destruct (Hf f Hq). eauto.
  - intros i q f Hi Hq. at_id; [|eauto]. destruct (Hf f Hq). eauto.
  - intros i q Hi Hq. at_id; eauto.
Qed.

Lemma inv_ids_unlock c id p p' :
  inv_ids c → phases c !! id = Some p → writing p = true → phase_frame p' = None → writing p' = false →
  inv_ids (set_slot None (set_phase id p' c)).
Proof.
  intros Hinv Hp Hw Hf Hw'. pose proof Hinv as []. pose proof (ids_slot0 id p Hp Hw) as Hs.
  destruct (inv_ids_phase c id p p' Hinv Hp) as []; [by intros e ->|by rewrite Hf|by rewrite Hw'|].
  split; cbn in *; try done. intros i q Hi Hq. at_id; [congruence|]. pose proof (ids_slot0 i q Hi Hq). congruence.
Qed.

Lemma inv_ids_lock c id f l :
  inv_ids c → phases c !! id = Some (PQueued f l) → slot c = None → inv_ids (set_slot (Some id) (set_phase id (PLocked f l) c)).
Proof.
  intros [] Hp Hs. split; cbn; try done.
  - intros i q Hi. at_id; eauto.
  - intros i Hi. destruct (ids_cancels0 i Hi) as (e & He & ?). exists e. rewrite lookup_insert_ne; [done|]. intros ->. naive_solver.
  - intros i q g Hi Hq. at_id; [|eauto]. injection Hq as <-. by apply (ids_frame0 id _ f Hp).
  - intros i q g Hi Hq. at_id; [|eauto]. injection Hq as <-. intros _. by apply (ids_sized0 id _ f Hp).
  - intros i q Hi Hq. at_id; [done|]. pose proof (ids_slot0 i q Hi Hq). congruence.
Qed.

Lemma inv_ids_begin c l typ payload (id := nextID c + 1) :
  inv_ids c → 0 <= typ < 256 → id < two64 →
  inv_ids (MkClient (wire c) (slot c) id (closed c) (closeErr c) ({[id]} ∪ pending c) (<[id := []]> (chan c))
    (<[id := PStart (MkFrame typ id payload) l]> (phases c)) (cancels c) (draining c) (reading c) (log c)).
Proof.
  intros [] Ht Hid. split; cbn; subst id; try lia.
  - intros i q Hi. at_id; [lia|]. specialize (ids_phase0 i q Hi). lia.
  - intros i [?%elem_of_singleton|Hi]%elem_of_union; [lia|]. specialize (ids_pending0 i Hi). lia.
  - intros f n Hf. specialize (ids_log0 f n Hf). lia.
  - intros i Hi. destruct (ids_cancels0 i Hi) as (e & He & ?). exists e. rewrite lookup_insert_ne; [done|].
    specialize (ids_phase0 i _ He). lia.
  - intros i q f Hi Hq. at_id; [by injection Hq as <-|eauto].
  - intros i q f Hi Hq. at_id; [done|eauto].
  - intros i q Hi Hq. at_id; [done|eauto].
Qed.

(** A frame of a known request handed to the stream. *)
Lemma inv_ids_put c f n w : inv_ids c → 0 < fr_RequestID f <= nextID c →
  inv_ids (MkClient w (slot c) (nextID c) (closed c) (closeErr c) (pending c) (chan c) (phases c)
    (cancels c) (draining c) (reading c) (log c ++ [(f, n)])).
Proof. intros [] Hf. split; cbn; try done. intros g k [Hg|[= -> ->]%list_elem_of_singleton]%elem_of_app; eauto. Qed.

Lemma writeCancel_ids o1 o2 id c :
  inv_ids c → id ∈ cancels c → inv_ids (writeCancel o1 o2 id c) ∧ same_ids c (writeCancel o1 o2 id c).
Proof.
  intros Hinv Hid. unfold writeCancel. destruct (closed c); [split; [done|unfold same_ids; set_solver]|].
  destruct (put_frame o1 o2 (cancel_frame id) c) as [[c' n] r] eqn:E. apply put_frame_eq in E as (-> & _).
  destruct (ids_cancels c Hinv id Hid) as (e & He & _). pose proof (ids_phase c Hinv id _ He).
  set (c' := MkClient _ _ _ _ _ _ _ _ _ _ _ _). assert (inv_ids c') as Hc' by by apply inv_ids_put.
  assert (same_ids c c') as Hs by (unfold same_ids; set_solver). destruct r as [w|]; [|done].
  pose proof (same_ids_failed n w c') as [Hs' Hl]. split; [by eapply inv_ids_same|by eapply same_ids_trans].
Qed.

Lemma inv_ids_cancels c s p : inv_ids c → s ⊆ cancels c → p ⊆ pending c → inv_ids (set_cancels s (set_pending p c)).
Proof. intros [] Hs Hp. split; cbn; try done; set_solver. Qed.

Lemma set_pending_same c : set_pending (pending c) c = c.
Proof. by destruct c. Qed.

Lemma inv_ids_timeout c id l e :
  inv_ids c → phases c !! id = Some (PWaiting l) → wait_error l e →
  inv_ids (set_phase id (PDone (Err e)) (set_cancels (if closed c then cancels c else {[id]} ∪ cancels c) (removePending id c))).
Proof.
  intros [] Hp He. assert (e_not_sent e = false) as Hns by (destruct He as [[_ ->]|[[_ ->]|[d ->]]]; done).
  split; cbn; try done.
  - intros i q Hi. at_id; eauto.
  - set_solver.
  - intros i Hi. destruct (decide (i = id)) as [->|Hne]; [exists e; by rewrite lookup_insert_eq|].
    destruct (ids_cancels0 i) as (e' & ? & ?); [destruct (closed c); set_solver|]. exists e'. by rewrite lookup_insert_ne.
  - intros i q f Hi Hq. at_id; [done|eauto].
  - intros i q f Hi Hq. at_id; [done|eauto].
  - intros i q Hi Hq. at_id; [done|eauto].
Qed.

Lemma step_ids c c' : inv_ids c → step c c' → inv_ids c'.
Proof.
  intros Hinv Hst. destruct Hst.
  - by apply inv_ids_begin.
  - eapply inv_ids_phase; eauto; done.
  - eapply inv_ids_phase; eauto; done.
  - eapply inv_ids_phase; eauto; cbn; naive_solver.
  - eapply inv_ids_phase; eauto; done.
  - by apply inv_ids_lock.
  - by eapply inv_ids_unlock.
  - apply put_frame_eq in H1 as (-> & _). pose proof (ids_slot c Hinv id _ H eq_refl).
    destruct (ids_frame c Hinv id _ f H eq_refl) as [Hf _]. pose proof (ids_phase c Hinv id _ H).
    pose proof (ids_sized c Hinv id _ f H eq_refl eq_refl).
    eapply inv_ids_phase; [apply inv_ids_put; [done|lia]|exact H|done|cbn; naive_solver|done].
  - by eapply inv_ids_unlock.
  - pose proof (same_ids_failed n w c) as [Hs Hl]. rewrite H0 in Hs, Hl. cbn in Hs, Hl.
    assert (inv_ids c') as Hc' by by eapply inv_ids_same. destruct Hs as (_ & Ep & _). rewrite <-Ep in H.
    by eapply inv_ids_unlock.
  - apply (inv_ids_phase _ _ (PFailed e)); try done. exact (inv_ids_cancels c (cancels c) (pending c ∖ {[id]}) Hinv ltac:(done) ltac:(set_solver)).
  - apply (inv_ids_phase _ _ (PWaiting l)); try done. by destruct Hinv; split.
  - by eapply inv_ids_timeout.
  - destruct (writeCancel_ids o1 o2 id c Hinv H) as [Hc' (_ & _ & _ & Ec & _)]. rewrite <-Ec.
    rewrite <-(set_pending_same (writeCancel o1 o2 id c)) at 2. apply inv_ids_cancels; [done|set_solver|done].
  - rewrite <-(set_pending_same c) at 2. apply inv_ids_cancels; [done|set_solver|done].
  - destruct (same_ids_read f c). by eapply inv_ids_same.
  - destruct (same_ids_close (plain (ERead e)) c). by eapply inv_ids_same.
  - destruct (same_ids_close e c). by eapply inv_ids_same.
  - eapply inv_ids_same; [done| |done]. unfold same_ids. cbn. set_solver.
Qed.

(** ** The bytes on the stream *)

Definition entry_bytes (x : StreamFrame * nat) : octets := take x.2 (frame_bytes x.1).
Definition cut (x : StreamFrame * nat) : Prop := (0 < x.2 < length (frame_bytes x.1))%nat.

(** The stream holds the frames of the log, at most the last of them cut
    off, and a cut frame closes the stream before anyone else writes. *)
Record inv_log (c : client) : Prop := {
  log_wire : wire c = log c ≫= entry_bytes;
  log_ok f n : (f, n) ∈ log c → frame_ok f ∧ (n <= length (frame_bytes f))%nat;
  log_cut pre x post : log c = pre ++ x :: post → cut x →
    post = [] ∧ (closed c = true ∨ ∃ id f l w, phases c !! id = Some (PWrote f l x.2 (Some w)));
}.

Lemma inv_log_same c c' :
  inv_log c → log c' = log c → wire c' = wire c → (closed c = true → closed c' = true) →
  (∀ id f l n w, (0 < n)%nat → phases c !! id = Some (PWrote f l n (Some w)) →
    closed c' = true ∨ phases c' !! id = Some (PWrote f l n (Some w))) → inv_log c'.
Proof.
  intros [] El Ew Hc Hp. split; rewrite ?El, ?Ew; try done. intros pre x post E Hx.
  destruct (log_cut0 pre x post E Hx) as [-> [H|(id & f & l & w & H)]]; [auto|]. split; [done|].
  destruct (Hp _ _ _ _ _ (proj1 Hx) H); [auto|]. right. eauto.
Qed.

Lemma inv_log_phase c id p p' :
  inv_log c → phases c !! id = Some p → (∀ f l n w, p ≠ PWrote f l n (Some w)) → inv_log (set_phase id p' c).
Proof.
  intros Hinv Hp Hne. apply (inv_log_same c); try done. intros i f l n w _ Hi. right. cbn. rewrite lookup_insert_ne; [done|].
  intros ->. naive_solver.
Qed.

(** Nobody is between a cut-off write and the close: every frame of the log
    is whole or absent. *)
Lemma no_cut c :
  inv_log c → closed c = false → (∀ id f l n r, phases c !! id ≠ Some (PWrote f l n r)) → ∀ x, x ∈ log c → ¬ cut x.
Proof.
  intros [] Hc Hp x (pre & post & E)%list_elem_of_split Hx. destruct (log_cut0 _ _ _ E Hx) as [_ [?|(id & f & l & w & ?)]]; [congruence|].
  by eapply Hp.
Qed.

Lemma inv_log_put c c' f n :
  inv_log c → (∀ x, x ∈ log c → ¬ cut x) → frame_ok f → (n <= length (frame_bytes f))%nat →
  log c' = log c ++ [(f, n)] → wire c' = wire c ++ take n (frame_bytes f) →
  (cut (f, n) → closed c' = true ∨ ∃ id g l w, phases c' !! id = Some (PWrote g l n (Some w))) → inv_log c'.
Proof.
  intros [] Hno Hf Hn El Ew Hc. split.
  - rewrite El, Ew, bind_app, log_wire0. cbn. by rewrite app_nil_r.
  - rewrite El. intros g k [Hg|[= -> ->]%list_elem_of_singleton]%elem_of_app; [by apply log_ok0|done].
  - rewrite El. intros pre x post E Hx. destruct post as [|y post _] using rev_ind.
    + apply app_inj_tail in E as [_ <-]. split; [done|]. by apply Hc.
    + rewrite app_comm_cons, app_assoc in E. apply app_inj_tail in E as [E _]. exfalso. apply (Hno x); [|done]. rewrite E. set_solver.
Qed.

Lemma no_writer c id f l : inv_ids c → phases c !! id = Some (PLocked f l) → ∀ i g k n r, phases c !! i ≠ Some (PWrote g k n r).
Proof.
  intros [] Hp i g k n r Hi. pose proof (ids_slot0 _ _ Hp eq_refl). pose proof (ids_slot0 _ _ Hi eq_refl). naive_solver.
Qed.

Lemma no_writer_free c : inv_ids c → slot c = None → ∀ i g k n r, phases c !! i ≠ Some (PWrote g k n r).
Proof. intros [] Hs i g k n r Hi. pose proof (ids_slot0 _ _ Hi eq_refl). congruence. Qed.

Lemma write_failed_closes n w c : stalled n w = true ∨ closed (write_failed n w c).1 = true.
Proof. unfold write_failed. destruct (stalled n w); auto. Qed.

Lemma stalled_zero n w : stalled n w = true → n = 0%nat.
Proof. by destruct n. Qed.

Lemma writeCancel_log o1 o2 id c :
  inv_ids c → inv_log c → id ∈ cancels c → slot c = None → inv_log (writeCancel o1 o2 id c).
Proof.
  intros Hids Hinv Hid Hs. unfold writeCancel. destruct (closed c) eqn:Hc; [done|].
  destruct (put_frame o1 o2 (cancel_frame id) c) as [[c' n] r] eqn:E. apply put_frame_eq in E as (-> & Hn & Hr).
  destruct (ids_cancels c Hids id Hid) as (e & He & _). pose proof (ids_phase c Hids id _ He). pose proof (ids_next c Hids).
  assert (frame_ok (cancel_frame id)) by (split; [done|]; split; [cbn; lia|done]).
  pose proof (no_cut c Hinv Hc (no_writer_free c Hids Hs)) as Hno.
  destruct r as [w|].
  - eapply (inv_log_put c); try done; unfold write_failed; [by destruct (stalled n w)..|].
    intros [Hlt _]. left. destruct (stalled n w) eqn:Hst; [|done]. apply stalled_zero in Hst. cbn [fst snd] in Hlt. lia.
  - eapply (inv_log_put c); try done. intros [_ Hlt]. cbn [fst snd] in Hlt. rewrite (Hr eq_refl) in Hlt. lia.
Qed.

Lemma step_log c c' : inv_ids c → inv_log c → step c c' → inv_log c'.
Proof.
  intros Hids Hinv Hst. destruct Hst.
  - apply (inv_log_same c); try done. intros i f k n w _ Hi. right. cbn. rewrite lookup_insert_ne; [done|].
    pose proof (ids_phase c Hids i _ Hi). subst id. lia.
  - by eapply inv_log_phase.
  - by eapply inv_log_phase.
  - by eapply inv_log_phase.
  - by eapply inv_log_phase.
  - apply (inv_log_same (set_phase id (PLocked f l) c)); try done; [by eapply inv_log_phase|auto].
  - apply (inv_log_same (set_phase id (PFailed (notSent (closeError c))) c)); try done; [by eapply inv_log_phase|auto].
  - apply put_frame_eq in H1 as (-> & Hn & Hr). destruct (ids_frame c Hids id _ f H eq_refl) as [Hf Ht].
    pose proof (ids_phase c Hids id _ H). pose proof (ids_sized c Hids id _ f H eq_refl eq_refl). pose proof (ids_next c Hids).
    eapply (inv_log_put c); try done; [by apply no_cut; [..|eapply no_writer]|split; [done|]; split; [lia|done]|].
    intros [_ Hlt]. right. exists id, f, l. destruct r as [w|]; [|cbn [fst snd] in Hlt; rewrite (Hr eq_refl) in Hlt; lia].
    exists w. cbn. by rewrite lookup_insert_eq.
  - apply (inv_log_same (set_phase id (PWaiting l) c)); try done; [by eapply inv_log_phase|auto].
  - assert (log c' = log c ∧ wire c' = wire c ∧ phases c' = phases c ∧ (closed c = true → closed c' = true)) as (E1 & E2 & E3 & E4).
    { unfold write_failed in H0. by destruct (stalled n w); injection H0 as <- <-. }
    apply (inv_log_same c); try done. intros i g k m v Hm Hi. cbn. rewrite E3. destruct (decide (i = id)) as [->|]; [|right; by rewrite lookup_insert_ne].
    left. rewrite H in Hi. simplify_eq. pose proof (write_failed_closes m v c) as Hc. rewrite H0 in Hc.
    destruct Hc as [Hst%stalled_zero|]; [lia|done].
  - apply (inv_log_same (set_phase id (PDone (Err e)) c)); try done; [by eapply inv_log_phase|auto].
  - apply (inv_log_same (set_phase id (PDone r) c)); try done; [by eapply inv_log_phase|auto].
  - apply (inv_log_same (set_phase id (PDone (Err e)) c)); try done; [by eapply inv_log_phase|auto].
  - apply (inv_log_same (writeCancel o1 o2 id c)); try done; [by apply writeCancel_log|auto].
  - apply (inv_log_same c); auto.
  - unfold read_frame_step, complete. repeat case_match; repeat case_decide; apply (inv_log_same c); auto.
  - apply (inv_log_same c); auto.
  - apply (inv_log_same c); auto.
  - apply (inv_log_same c); auto.
Qed.

(** ** Which requests left *)

(** Some byte of a frame of the request went out. *)
Definition sent (c : client) (id : Z) : Prop := ∃ f n, (f, n) ∈ log c ∧ fr_RequestID f = id ∧ (0 < n)%nat.

(** The phases that say nothing of the request was sent. *)
Definition claims_unsent (p : phase) : Prop :=
  match p with
  | PStart _ _ | PQueued _ _ | PLocked _ _ => True
  | PWrote _ _ n _ => n = 0%nat
  | PFailed e | PDone (Err e) => e_not_sent e = true
  | PWaiting _ | PDone (Ok _) => False
  end.

Definition chan_of (c : client) (id : Z) : list streamResult := default [] (chan c !! id).

Record inv_sent (c : client) : Prop := {
  sent_phase id p : phases c !! id = Some p → claims_unsent p → ¬ sent c id;
  sent_chan id e : Err e ∈ chan_of c id → e_not_sent e = false;
  sent_draining e : draining c = Some e → e_not_sent e = false;
}.

Lemma chan_of_drain e c id :
  chan_of (drain e c) id = if decide (id ∈ pending c) then chan_of c id ++ [Err e] else chan_of c id.
Proof.
  set (P := λ (ch : gmap Z (list streamResult)) (X : gset Z), default [] (ch !! id) =
    if decide (id ∈ X) then chan_of c id ++ [Err e] else chan_of c id).
  change (P (set_fold (λ i ch, send i (Err e) ch) (chan c) (pending c)) (pending c)).
  apply (set_fold_ind_L P); subst P; cbv beta; [by rewrite decide_False by set_solver|].
  intros i X ch Hi IH. unfold send. destruct (decide (i = id)) as [->|Hne].
  - rewrite lookup_insert_eq, decide_True by set_solver. cbn. by rewrite IH, decide_False.
  - rewrite lookup_insert_ne, IH by done. repeat case_decide; set_solver.
Qed.

Lemma chan_of_complete i r c id :
  chan_of (complete i r c) id = if decide (i = id ∧ id ∈ pending c) then chan_of c id ++ [r] else chan_of c id.
Proof.
  unfold complete, chan_of. case_decide as Hp; cbn; [|case_decide; naive_solver]. unfold send.
  destruct (decide (i = id)) as [->|Hne]; [rewrite lookup_insert_eq, decide_True; done|].
  rewrite lookup_insert_ne, decide_False by naive_solver. done.
Qed.

Lemma inv_sent_same c c' :
  inv_sent c → log c' = log c → phases c' = phases c →
  (∀ id e, Err e ∈ chan_of c' id → Err e ∈ chan_of c id ∨ e_not_sent e = false) →
  (∀ e, draining c' = Some e → draining c = Some e ∨ e_not_sent e = false) → inv_sent c'.
Proof.
  intros [] El Ep Hch Hd. split.
  - intros id p. unfold sent. rewrite El, Ep. apply sent_phase0.
  - intros id e He. destruct (Hch id e He); eauto.
  - intros e He. destruct (Hd e He); eauto.
Qed.

Lemma inv_sent_phase c id p p' :
  inv_sent c → phases c !! id = Some p → (claims_unsent p' → claims_unsent p) → inv_sent (set_phase id p' c).
Proof. intros [] Hp Hc. split; [|done..]. cbn. intros i q Hi Hq. at_id; eauto. Qed.

Lemma inv_sent_put c c' f n :
  inv_sent c → log c' = log c ++ [(f, n)] → chan c' = chan c → draining c' = draining c →
  (∀ id p, phases c' !! id = Some p → claims_unsent p → (fr_RequestID f = id → n = 0%nat) ∧ ¬ sent c id) → inv_sent c'.
Proof.
  intros [] El Ech Ed Hp. split.
  - intros id p Hi Hc (g & k & Hin & Hg & Hk). destruct (Hp id p Hi Hc) as [H0 Hns]. rewrite El in Hin.
    apply elem_of_app in Hin as [?|[= -> ->]%list_elem_of_singleton]; [apply Hns; by exists g, k|]. specialize (H0 Hg). lia.
  - unfold chan_of. rewrite Ech. apply sent_chan0.
  - rewrite Ed. apply sent_draining0.
Qed.

Lemma inv_sent_close e c : inv_sent c → inv_sent (closeWithError e c).
Proof. intros H. apply (inv_sent_same c); auto. cbn. destruct (closed c); [auto|]. intros e' [= <-]. auto. Qed.

Lemma inv_sent_complete i r c : inv_sent c → (∀ e, r = Err e → e_not_sent e = false) → inv_sent (complete i r c).
Proof.
  intros H Hr. destruct (same_ids_complete i r c) as [(_ & Ep & _) El]. apply (inv_sent_same c); auto.
  - intros id e. rewrite chan_of_complete. case_decide; [|auto]. intros [?|<-%list_elem_of_singleton]%elem_of_app; eauto.
  - intros e. unfold complete. case_decide; auto.
Qed.

Lemma inv_sent_failed n w c : inv_sent c → inv_sent (write_failed n w c).1.
Proof. intros H. unfold write_failed. destruct (stalled n w); [done|]. by apply inv_sent_close. Qed.

Lemma writeCancel_sent o1 o2 id c : inv_ids c → inv_sent c → id ∈ cancels c → inv_sent (writeCancel o1 o2 id c).
Proof.
  intros Hids Hinv Hid. unfold writeCancel. destruct (closed c); [done|].
  destruct (put_frame o1 o2 (cancel_frame id) c) as [[c' n] r] eqn:E. apply put_frame_eq in E as (-> & _).
  set (c' := MkClient _ _ _ _ _ _ _ _ _ _ _ _). assert (inv_sent c') as Hc'.
  { apply (inv_sent_put c c' (cancel_frame id) n); try done. intros i p Hi Hp. split; [|by eapply sent_phase].
    cbn. intros <-. destruct (ids_cancels c Hids id Hid) as (e & He & Hf). cbn in Hi. rewrite He in Hi. simplify_eq. cbn in Hp. congruence. }
  destruct r as [w|]; [by apply inv_sent_failed|done].
Qed.

(** An error marked [ErrNotSent] after a write means nothing went out. *)
Lemma frame_error_unsent n w l c c' e :
  write_failed n w c = (c', e) → e_not_sent (frame_error l e c') = true → n = 0%nat.
Proof.
  unfold write_failed, frame_error. destruct (stalled n w) eqn:Hst; [intros _ _; by eapply stalled_zero|].
  intros [= <- <-]. cbn. by case_decide.
Qed.

Lemma step_sent c c' : inv_ids c → inv_sent c → step c c' → inv_sent c'.
Proof.
  intros Hids Hinv Hst. destruct Hst.
  - destruct Hinv. split; cbn.
    + intros i p Hi Hp. at_id; [|by eapply sent_phase0]. intros (f & n & Hin & Hf & _).
      pose proof (ids_log c Hids f n Hin). subst id. lia.
    + intros i e. unfold chan_of. cbn. destruct (decide (id = i)) as [<-|]; [rewrite lookup_insert_eq; set_solver|].
      rewrite lookup_insert_ne by done. apply sent_chan0.
    + done.
  - by eapply inv_sent_phase.
  - by eapply inv_sent_phase.
  - by eapply inv_sent_phase.
  - by eapply inv_sent_phase.
  - apply (inv_sent_same (set_phase id (PLocked f l) c)); auto. by eapply inv_sent_phase.
  - apply (inv_sent_same (set_phase id (PFailed (notSent (closeError c))) c)); auto. by eapply inv_sent_phase.
  - apply put_frame_eq in H1 as (-> & _). destruct (ids_frame c Hids id _ f H eq_refl) as [Hf _].
    eapply (inv_sent_put c); try done. cbn. intros i p Hi Hp. at_id.
    + split; [done|]. by apply (sent_phase c Hinv id _ H).
    + split; [congruence|]. by apply (sent_phase c Hinv i _ Hi).
  - apply (inv_sent_same (set_phase id (PWaiting l) c)); auto. by eapply inv_sent_phase.
  - pose proof (inv_sent_failed n w c Hinv) as Hc. destruct (same_ids_failed n w c) as [(_ & Ep & _) _]. rewrite H0 in Hc, Ep. cbn in Hc, Ep.
    apply (inv_sent_same (set_phase id (PFailed (frame_error l e c')) c')); auto. eapply inv_sent_phase; [done|by rewrite Ep|].
    cbn. by eapply frame_error_unsent.
  - apply (inv_sent_same (set_phase id (PDone (Err e)) c)); auto. by eapply inv_sent_phase.
  - assert (∀ e, r = Err e → e_not_sent e = false) as Hr.
    { intros e ->. apply (sent_chan c Hinv id). unfold chan_of. rewrite H0. cbn. set_solver. }
    apply (inv_sent_same (set_phase id (PDone r) c)); auto.
    + eapply inv_sent_phase; [done..|]. destruct r; cbn; [done|]. intros ?. by rewrite Hr in *.
    + intros i e. unfold chan_of. cbn. destruct (decide (id = i)) as [<-|]; [rewrite lookup_insert_eq, H0; cbn; set_solver|].
      rewrite lookup_insert_ne by done. auto.
  - apply (inv_sent_same (set_phase id (PDone (Err e)) c)); auto. eapply inv_sent_phase; [done..|]. cbn.
    destruct H0 as [[_ ->]|[[_ ->]|[d ->]]]; done.
  - apply (inv_sent_same (writeCancel o1 o2 id c)); auto. by apply writeCancel_sent.
  - apply (inv_sent_same c); auto.
  - unfold read_frame_step. repeat case_match; try (apply inv_sent_complete; [done|]; by intros ? [= <-]).
    apply (inv_sent_same (closeWithError (plain (EUnsupported (fr_Type f))) c)); auto. by apply inv_sent_close.
  - apply (inv_sent_same (closeWithError (plain (ERead e)) c)); auto. by apply inv_sent_close.
  - by apply inv_sent_close.
  - apply (inv_sent_same c); auto; [|done]. intros i e'. rewrite chan_of_drain. case_decide; [|auto].
    intros [?|[= ->]%list_elem_of_singleton]%elem_of_app; [auto|]. right. by apply (sent_draining c Hinv).
Qed.

(** ** The waiters' channels *)

(** The phases of a request that still expects its result. *)
Definition expecting (p : phase) : bool := match p with PFailed _ | PDone _ => false | _ => true end.

(** The phases a pending request can be in once a closed stream failed its
    waiters: it registered after the close and will be refused. *)
Definition late (p : phase) : bool := match p with PStart _ _ | PFailed _ => true | _ => false end.

Definition result_id (id : Z) (r : streamResult) : Prop := match r with Ok f => fr_RequestID f = id | Err _ => True end.

Record inv_chan (c : client) : Prop := {
  chan_once id : (length (chan_of c id) + (if decide (id ∈ pending c) then 1 else 0) <= 1)%nat;
  chan_waits id p : phases c !! id = Some p → expecting p = true → id ∈ pending c ∨ chan_of c id ≠ [];
  chan_open : closed c = false → draining c = None;
  chan_late id : closed c = true → draining c = None → id ∈ pending c → ∃ p, phases c !! id = Some p ∧ late p = true;
  chan_ids id r : r ∈ chan_of c id → result_id id r;
  chan_done id r : phases c !! id = Some (PDone r) → result_id id r;
}.

(** A step that changes only phases, the slot and what a request's waiter
    does not see. *)
Lemma inv_chan_phase c c' id p p' :
  inv_chan c → phases c !! id = Some p →
  phases c' = <[id := p']> (phases c) → pending c' = pending c → chan c' = chan c → closed c' = closed c → draining c' = draining c →
  (expecting p' = true → expecting p = true) → (closed c = true → late p = true → late p' = true) → (∀ r, p' = PDone r → result_id id r) →
  inv_chan c'.
Proof.
  intros [] Hp Eph Epe Ech Ecl Edr Hex Hlate Hdone. unfold chan_of in *. split; unfold chan_of; rewrite ?Eph, ?Epe, ?Ech, ?Ecl, ?Edr; try done.
  - intros i q Hi Hq. at_id; [eapply chan_waits0; [done|by apply Hex]|by eapply chan_waits0].
  - intros i H1 H2 H3. destruct (chan_late0 i H1 H2 H3) as (q & Hq & Hl). destruct (decide (i = id)) as [->|Hne].
    + exists p'. rewrite lookup_insert_eq. simplify_eq. auto.
    + exists q. by rewrite lookup_insert_ne by done.
  - intros i r Hi. at_id; [|by eapply chan_done0]. by apply Hdone.
Qed.

Lemma inv_chan_close e c : inv_chan c → inv_chan (closeWithError e c).
Proof.
  intros []. split; try done. cbn. intros id _ Hd. destruct (closed c) eqn:Hc; [|done]. by apply chan_late0.
Qed.

Lemma inv_chan_failed n w c : inv_chan c → inv_chan (write_failed n w c).1.
Proof. intros H. unfold write_failed. destruct (stalled n w); [done|by apply inv_chan_close]. Qed.

Lemma inv_chan_complete id r c : inv_chan c → result_id id r → inv_chan (complete id r c).
Proof.
  intros [] Hr. unfold complete. case_decide as Hin; [|by split].
  set (c' := set_chan _ _). assert (∀ i, chan_of c' i = if decide (i = id) then chan_of c id ++ [r] else chan_of c i) as Hc.
  { intros i. subst c'. unfold chan_of, send. cbn. case_decide; subst; [by rewrite lookup_insert_eq|by rewrite lookup_insert_ne]. }
  split.
  - intros i. rewrite Hc. cbn. pose proof (chan_once0 i) as Ho. pose proof (chan_once0 id) as Hid. rewrite decide_True in Hid by done.
    destruct (decide (i = id)) as [->|]; [rewrite decide_False by set_solver; rewrite length_app; cbn; lia|].
    destruct (decide (i ∈ pending c)); [rewrite decide_True by set_solver|rewrite decide_False by set_solver]; lia.
  - intros i p Hi Hp. rewrite Hc. destruct (decide (i = id)) as [->|]; [right; by destruct (chan_of c id)|].
    destruct (chan_waits0 i p Hi Hp); [left; cbn; set_solver|by right].
  - done.
  - cbn. intros i H1 H2 H3. apply chan_late0; [done|done|set_solver].
  - intros i q. rewrite Hc. case_decide; subst; [|by apply chan_ids0].
    intros [?|<-%list_elem_of_singleton]%elem_of_app; [by apply chan_ids0|done].
  - done.
Qed.

Lemma inv_chan_remove c c' id p p' :
  inv_chan c → phases c !! id = Some p → phases c' = <[id := p']> (phases c) → pending c' = pending c ∖ {[id]} → chan c' = chan c →
  closed c' = closed c → draining c' = draining c → expecting p' = false → (∀ r, p' = PDone r → result_id id r) → inv_chan c'.
Proof.
  intros [] Hp Eph Epe Ech Ecl Edr Hex Hdone. unfold chan_of in *. split; unfold chan_of; rewrite ?Eph, ?Epe, ?Ech, ?Ecl, ?Edr; try done.
  - intros i. pose proof (chan_once0 i). repeat case_decide; try lia. set_solver.
  - intros i q Hi Hq. at_id; [congruence|]. destruct (chan_waits0 i q Hi Hq); [left; set_solver|by right].
  - intros i H1 H2 H3. destruct (chan_late0 i H1 H2) as (q & Hq & Hl); [set_solver|]. exists q. rewrite lookup_insert_ne by set_solver. done.
  - intros i r Hi. at_id; [|by eapply chan_done0]. by apply Hdone.
Qed.

Lemma inv_chan_begin c l typ payload (id := nextID c + 1) :
  inv_ids c → inv_chan c →
  inv_chan (MkClient (wire c) (slot c) id (closed c) (closeErr c) ({[id]} ∪ pending c) (<[id := []]> (chan c))
    (<[id := PStart (MkFrame typ id payload) l]> (phases c)) (cancels c) (draining c) (reading c) (log c)).
Proof.
  intros Hids []. assert (id ∉ pending c) as Hn by (intros H; pose proof (ids_pending c Hids id H); subst id; lia).
  assert (∀ r, phases c !! id ≠ Some r) as Hnp by (intros r H; pose proof (ids_phase c Hids id r H); subst id; lia).
  clearbody id. unfold chan_of in *. split; unfold chan_of; cbn; try done.
  - intros i. destruct (decide (i = id)) as [->|Hne]; [rewrite lookup_insert_eq; cbn; case_decide; lia|].
    rewrite lookup_insert_ne by done. pose proof (chan_once0 i). repeat case_decide; try lia. set_solver.
  - intros i p Hi Hp. at_id; [left; set_solver|]. rewrite lookup_insert_ne by done.
    destruct (chan_waits0 i p Hi Hp); [left; set_solver|by right].
  - intros i H1 H2 [->%elem_of_singleton|Hi]%elem_of_union; [eexists; by rewrite lookup_insert_eq|].
    destruct (chan_late0 i H1 H2 Hi) as (p & Hp & ?). exists p. rewrite lookup_insert_ne; [done|]. naive_solver.
  - intros i r. destruct (decide (i = id)) as [->|Hne]; [rewrite lookup_insert_eq; set_solver|]. rewrite lookup_insert_ne by done. apply chan_ids0.
  - intros i r Hi. at_id; [done|]. by eapply chan_done0.
Qed.

Lemma inv_chan_drain e c : inv_chan c → draining c = Some e → inv_chan (drain e c).
Proof.
  intros [] Hd. split; try done.
  - intros id. rewrite chan_of_drain. cbn. rewrite (decide_False (P := id ∈ ∅)) by set_solver. pose proof (chan_once0 id).
    case_decide; rewrite ?length_app; cbn; lia.
  - intros id p Hi Hp. right. rewrite chan_of_drain. destruct (chan_waits0 id p Hi Hp); [rewrite decide_True by done; by destruct (chan_of c id)|].
    case_decide; [by destruct (chan_of c id)|done].
  - intros id r. rewrite chan_of_drain. case_decide; [|by apply chan_ids0].
    intros [?| ->%list_elem_of_singleton]%elem_of_app; [by apply chan_ids0|done].
Qed.

(** Receiving a result takes the one the channel holds. *)
Lemma inv_chan_result c id l r rs :
  inv_chan c → phases c !! id = Some (PWaiting l) → chan c !! id = Some (r :: rs) →
  inv_chan (set_phase id (PDone r) (set_chan (<[id := rs]> (chan c)) c)).
Proof.
  intros [] Hp Hch. assert (chan_of c id = r :: rs) as Hc by (unfold chan_of; by rewrite Hch).
  assert (id ∉ pending c ∧ rs = []) as [Hn ->].
  { pose proof (chan_once0 id) as H. rewrite Hc in H. cbn in H. case_decide; [lia|]. split; [done|]. destruct rs; [done|cbn in H; lia]. }
  assert (∀ i, i ≠ id → default [] (<[id := []]> (chan c) !! i) = chan_of c i) as Hne.
  { intros i Hi. by rewrite lookup_insert_ne. }
  split; unfold chan_of; cbn; try done.
  - intros i. destruct (decide (i = id)) as [->|?]; [rewrite lookup_insert_eq, decide_False by done; cbn; lia|]. rewrite Hne by done. apply chan_once0.
  - intros i p Hi Hq. at_id; [done|]. rewrite Hne by done. by eapply chan_waits0.
  - intros i H1 H2 H3. destruct (chan_late0 i H1 H2 H3) as (p & ? & ?). exists p. rewrite lookup_insert_ne; [done|]. naive_solver.
  - intros i q. destruct (decide (i = id)) as [->|?]; [rewrite lookup_insert_eq; set_solver|]. rewrite Hne by done. apply chan_ids0.
  - intros i q Hi. at_id; [|by eapply chan_done0]. simplify_eq. apply chan_ids0. rewrite Hc. set_solver.
Qed.

Lemma inv_chan_same c c' :
  inv_chan c → phases c' = phases c → pending c' = pending c → chan c' = chan c → closed c' = closed c → draining c' = draining c →
  inv_chan c'.
Proof. intros [] Eph Epe Ech Ecl Edr. unfold chan_of in *. split; unfold chan_of; rewrite ?Eph, ?Epe, ?Ech, ?Ecl, ?Edr; done. Qed.

Lemma writeCancel_chan o1 o2 id c : inv_chan c → inv_chan (writeCancel o1 o2 id c).
Proof.
  intros Hinv. unfold writeCancel. destruct (closed c) eqn:Hc; [done|].
  destruct (put_frame o1 o2 (cancel_frame id) c) as [[c' n] r] eqn:E. apply put_frame_eq in E as (-> & _).
  set (c' := MkClient _ _ _ _ _ _ _ _ _ _ _ _). assert (inv_chan c') as Hc' by (apply (inv_chan_same c); subst c'; auto).
  destruct r as [w|]; [by apply inv_chan_failed|done].
Qed.

Lemma inv_chan_read f c : inv_chan c → inv_chan (read_frame_step f c).
Proof.
  intros Hinv. unfold read_frame_step. repeat case_match; try (by apply inv_chan_complete).
  apply (inv_chan_same (closeWithError (plain (EUnsupported (fr_Type f))) c)); auto. by apply inv_chan_close.
Qed.

Lemma step_chan c c' : inv_ids c → inv_chan c → step c c' → inv_chan c'.
Proof.
  intros Hids Hinv Hst. destruct Hst.
  - by apply inv_chan_begin.
  - by eapply (inv_chan_phase c _ id (PStart f l)).
  - by eapply (inv_chan_phase c _ id (PStart f l)).
  - eapply (inv_chan_phase c _ id (PStart f l)); try done. congruence.
  - by eapply (inv_chan_phase c _ id (PQueued f l)).
  - by eapply (inv_chan_phase c _ id (PQueued f l)).
  - by eapply (inv_chan_phase c _ id (PLocked f l)).
  - apply put_frame_eq in H1 as (-> & _). by eapply (inv_chan_phase c _ id (PLocked f l)).
  - by eapply (inv_chan_phase c _ id (PWrote f l n None)).
  - pose proof (inv_chan_failed n w c Hinv) as Hc. destruct (same_ids_failed n w c) as [(_ & Ep & _) _]. rewrite H0 in Hc, Ep. cbn in Hc, Ep.
    eapply (inv_chan_phase c' _ id (PWrote f l n (Some w))); try done. by rewrite Ep.
  - by eapply (inv_chan_remove c _ id (PFailed e)); try done; intros ? [= <-].
  - by eapply inv_chan_result.
  - by eapply (inv_chan_remove c _ id (PWaiting l)); try done; intros ? [= <-].
  - eapply (inv_chan_same (writeCancel o1 o2 id c)); try done. by apply writeCancel_chan.
  - by eapply (inv_chan_same c).
  - by apply inv_chan_read.
  - eapply (inv_chan_same (closeWithError (plain (ERead e)) c)); try done. by apply inv_chan_close.
  - by apply inv_chan_close.
  - by apply inv_chan_drain.
Qed.

(** ** All of them, in every reachable state *)

Definition stream_inv (c : client) : Prop := inv_ids c ∧ inv_log c ∧ inv_sent c ∧ inv_chan c.

Lemma stream_inv_new : stream_inv newStreamClient.
Proof.
  split; [|split; [|split]]; split; cbn; try done; try set_solver; try lia.
  intros pre x post E. by destruct pre.
Qed.

Lemma reachable_inv c : reachable c → stream_inv c.
Proof.
  induction 1 as [|c c' _ (Hi & Hl & Hs & Hc) Hst]; [apply stream_inv_new|].
  split; [by eapply step_ids|]. split; [by eapply step_log|]. split; [by eapply step_sent|by eapply step_chan].
Qed.
