(* ===== verification/StreamServer.v ===== *)
(** * The serving side of a stream

    [internal/platform/clusterrpc/stream_server.go]: the handshake, the
    frames a stream serves, and the context each request runs under, which
    a client's cancel, the handler's reply and the end of the stream
    cancel.  The map of running requests changes under one lock and the
    cancellations run after it, so between the two a context is owed its
    cancellation ([owed]) by the goroutine that took it out.  The handler
    and the transport are the environment's. *)

From S2P Require Import Prelude Decimal Octets ClusterStream.

(** ** State *)

Record server := MkServer {
  out : octets;                  (** bytes written back *)
  aborted : bool;                (** [abortStream] was called *)
  inflight : gmap Z nat;         (** request ID to its context *)
  contexts : list (Z * bool);    (** every [requestContext]: its request ID, and whether it was cancelled *)
  owed : gset nat;
  notified : list Z;             (** [HandleStreamCancel] calls *)
  ended : bool;                  (** [serve] returned *)
}.

Definition newStreamServerConn : server := MkServer [] false ∅ [] ∅ [] false.

(** ** Replies *)

Definition retainedWriteBuffer : Z := 262144.

Definition server_writeFrame (o1 o2 : write_outcome) (f : StreamFrame) (s : server) : server * bool :=
  let '(w, _, r) := WriteStreamFrameStaged o1 o2 (out s) f retainedWriteBuffer in
  let failed := match r with Some _ => true | None => false end in
  (MkServer w (aborted s || failed) (inflight s) (contexts s) (owed s) (notified s) (ended s), negb failed).

Definition writeError (o1 o2 : write_outcome) (requestID : Z) (message : octets) (s : server) : server :=
  (server_writeFrame o1 o2 (MkFrame StreamFrameError requestID (EncodeStreamError message)) s).1.

(** [replyWriteTimeout], in seconds: [defaultStreamTimeout] and one more per
    256 KiB. *)
Definition replyWriteTimeout (payloadBytes : Z) : Z := 5 + payloadBytes / 262144.

(** ** The handshake *)

Definition maxAuthFramePayloadBytes : Z := 64.

(** A string's bytes. *)
Definition text (s : string) : octets := (λ c, Z.of_nat (nat_of_ascii c)) <$> String.list_ascii_of_string s.

Definition authContext : octets := text "narad-cluster-auth-v1".
Definition clientProofContext : octets := text "narad-cluster-auth-v1/client".
Definition serverProofContext : octets := text "narad-cluster-auth-v1/server".

(** What the handshake knows of the TLS session: the peer speaks the legacy
    protocol, or the exported keying material. *)
Inductive sessionBinding := Legacy | Bound (key : octets).

Definition deriveKey (secret context : octets) : octets := hmac_sha256 secret context.
Definition sessionProof (secret role key : octets) : octets := hmac_sha256 secret (role ++ key).
Definition clientProof (secret key : octets) : octets := sessionProof secret clientProofContext key.
Definition serverProof (secret key : octets) : octets := sessionProof secret serverProofContext key.
Definition legacyAuthToken (secret : octets) : octets := deriveKey secret authContext.

Record connAuth := MkAuth { legacy : bool; expectedClient : octets; serverReply : octets }.

Definition newConnAuth (secret : octets) (binding : sessionBinding) : option connAuth :=
  if decide (secret = []) then None else
  Some match binding with
       | Legacy => MkAuth true (legacyAuthToken secret) []
       | Bound key => MkAuth false (clientProof secret key) (serverProof secret key)
       end.

Definition authFrame (proof : octets) : StreamFrame := MkFrame StreamFrameAuth 0 proof.

(** [verifyAuthToken]; the source compares in constant time. *)
Definition verifyAuthToken (expected : octets) (f : StreamFrame) : bool :=
  if negb (fr_Type f =? StreamFrameAuth) || bool_decide (expected = []) then false else bool_decide (fr_Payload f = expected).

(** [authenticate] on what the stream brings: whether the stream is served,
    and what is left to read. *)
Definition authenticate (o1 o2 : write_outcome) (auth : option connAuth) (r : octets) (s : server) : server * bool * octets :=
  match auth with
  | None => (s, true, r)
  | Some a =>
      match ReadStreamFrame maxAuthFramePayloadBytes r with
      | Err _ => (s, false, r)
      | Ok (f, r) =>
          if negb (verifyAuthToken (expectedClient a) f) then (s, false, r)
          else if legacy a then (s, true, r)
          else let '(s, ok) := server_writeFrame o1 o2 (authFrame (serverReply a)) s in (s, ok, r)
      end
  end.

(** ** Request contexts *)

(** [beginRequest]: a reused request ID ends the earlier request. *)
Definition beginRequest (id : Z) (s : server) : server * nat :=
  let i := length (contexts s) in
  (MkServer (out s) (aborted s) (<[id := i]> (inflight s)) (contexts s ++ [(id, false)])
     (match inflight s !! id with Some prev => {[prev]} ∪ owed s | None => owed s end) (notified s) (ended s), i).

Definition endRequest (id : Z) (s : server) : server :=
  match inflight s !! id with
  | Some i => MkServer (out s) (aborted s) (delete id (inflight s)) (contexts s) ({[i]} ∪ owed s) (notified s) (ended s)
  | None => s
  end.

(** [cancelRequest]: the entry stays until the handler responds. *)
Definition cancelRequest (id : Z) (s : server) : server :=
  match inflight s !! id with
  | Some i => MkServer (out s) (aborted s) (inflight s) (contexts s) ({[i]} ∪ owed s) (notified s) (ended s)
  | None => s
  end.

Definition cancelInflight (s : server) : server :=
  MkServer (out s) (aborted s) (inflight s) (contexts s) (map_img (SA := gset nat) (inflight s) ∪ owed s) (notified s) (ended s).

(** [requestContext.cancel]. *)
Definition run_cancel (i : nat) (s : server) : server :=
  MkServer (out s) (aborted s) (inflight s) (alter (λ x, (x.1, true)) i (contexts s)) (owed s ∖ {[i]}) (notified s) (ended s).

(** [finishRequest]: the reply of a handler. *)
Definition finishRequest (o1 o2 : write_outcome) (f : StreamFrame) (s : server) : server :=
  (server_writeFrame o1 o2 f (endRequest (fr_RequestID f) s)).1.

(** ** Frames *)

(** The message for a frame no handler took. *)
Definition unsupported_text (typ : Z) : octets :=
  text "unsupported stream frame type " ++ ((λ c, Z.of_nat (nat_of_ascii c)) <$> Dec.fmt_int typ).

(** [handleFrame]; [handled] is what [HandleStreamRequest] returns. *)
Definition handleFrame (o1 o2 : write_outcome) (handled : bool) (f : StreamFrame) (s : server) : server :=
  if fr_Type f =? StreamFramePing then (server_writeFrame o1 o2 (MkFrame StreamFramePong (fr_RequestID f) []) s).1
  else if fr_Type f =? StreamFrameCancel then
    let s := cancelRequest (fr_RequestID f) s in
    MkServer (out s) (aborted s) (inflight s) (contexts s) (owed s) (notified s ++ [fr_RequestID f]) (ended s)
  else
    let '(s, _) := beginRequest (fr_RequestID f) s in
    if handled then s else writeError o1 o2 (fr_RequestID f) (unsupported_text (fr_Type f)) (endRequest (fr_RequestID f) s).

(** ** Interleavings *)

Definition end_serve (s : server) : server :=
  MkServer (out s) (aborted s) (inflight s) (contexts s) (owed s) (notified s) true.

(** The serve loop handles frames until it ends, after which the requests
    still running are cancelled; handlers respond, and owed cancellations
    run, at any time. *)
Inductive serve_step : server → server → Prop :=
| V_frame s o1 o2 handled f : ended s = false → serve_step s (handleFrame o1 o2 handled f s)
| V_respond s o1 o2 f : serve_step s (finishRequest o1 o2 f s)
| V_cancel s i : i ∈ owed s → serve_step s (run_cancel i s)
| V_end s : serve_step s (end_serve s)
| V_cancel_inflight s : ended s = true → serve_step s (cancelInflight s).

Inductive served : server → Prop :=
| served_new : served newStreamServerConn
| served_step s s' : served s → serve_step s s' → served s'.

(** A request's context that nothing has cancelled. *)
Definition live (s : server) (i : nat) (id : Z) : Prop := contexts s !! i = Some (id, false).

(** A live context is the one its request ID leads to, unless a goroutine
    is about to cancel it. *)
Record inv_contexts (s : server) : Prop := {
  ctx_live i id : live s i id → inflight s !! id = Some i ∨ i ∈ owed s;
  ctx_inflight id i : inflight s !! id = Some i → ∃ b, contexts s !! i = Some (id, b);
}.

Lemma writes_keep o1 o2 f s :
  contexts (server_writeFrame o1 o2 f s).1 = contexts s ∧ inflight (server_writeFrame o1 o2 f s).1 = inflight s ∧
  owed (server_writeFrame o1 o2 f s).1 = owed s ∧ ended (server_writeFrame o1 o2 f s).1 = ended s.
Proof. unfold server_writeFrame. by destruct (WriteStreamFrameStaged _ _ _ _ _) as [[w n] r]. Qed.

Lemma inv_contexts_same s s' :
  inv_contexts s → contexts s' = contexts s → inflight s' = inflight s → owed s ⊆ owed s' → inv_contexts s'.
Proof.
  intros [] Ec Ei Ho. unfold live in *. split; unfold live; rewrite ?Ec, ?Ei; [|done]. intros i id Hl.
  destruct (ctx_live0 i id Hl); [auto|]. right. set_solver.
Qed.

Lemma inv_contexts_write o1 o2 f s : inv_contexts s → inv_contexts (server_writeFrame o1 o2 f s).1.
Proof. intros H. destruct (writes_keep o1 o2 f s) as (E1 & E2 & E3 & _). eapply inv_contexts_same; [done..|]. by rewrite E3. Qed.

Lemma inv_contexts_end id s : inv_contexts s → inv_contexts (endRequest id s).
Proof.
  intros [] . unfold endRequest. destruct (inflight s !! id) as [i|] eqn:Hi; [|by split]. split; cbn.
  - intros j k Hl. destruct (ctx_live0 j k Hl) as [Hj|Hj]; [|right; set_solver].
    destruct (decide (k = id)) as [->|Hne]; [right; set_solver|]. left. by rewrite lookup_delete_ne.
  - intros k j [_ Hj]%lookup_delete_Some. by apply ctx_inflight0.
Qed.

Lemma inv_contexts_cancel id s : inv_contexts s → inv_contexts (cancelRequest id s).
Proof. intros H. unfold cancelRequest. destruct (inflight s !! id); [|done]. eapply inv_contexts_same; [done..|]. cbn. set_solver. Qed.

Lemma inv_contexts_begin id s : inv_contexts s → inv_contexts (beginRequest id s).1.
Proof.
  intros []. unfold beginRequest, live in *. split; unfold live; cbn.
  - intros i k Hl. destruct (decide (i = length (contexts s))) as [->|Hne].
    + rewrite lookup_app_r, Nat.sub_diag in Hl by lia. injection Hl as <-. left. by rewrite lookup_insert_eq.
    + assert (contexts s !! i = Some (k, false)) as Hl'.
      { destruct (decide (i < length (contexts s))%nat); [by rewrite lookup_app_l in Hl by lia|].
        apply lookup_lt_Some in Hl. rewrite length_app in Hl. cbn in Hl. lia. }
      destruct (ctx_live0 i k Hl') as [Hi|Hi]; [|right; destruct (inflight s !! id); set_solver].
      destruct (decide (k = id)) as [->|]; [right; rewrite Hi; set_solver|left; by rewrite lookup_insert_ne].
  - intros k i [[<- <-]|[_ Hi]]%lookup_insert_Some; [exists false; by rewrite lookup_app_r, Nat.sub_diag by lia|].
    destruct (ctx_inflight0 k i Hi) as [b Hb]. exists b. rewrite lookup_app_l; [done|]. by eapply lookup_lt_Some.
Qed.

Lemma inv_contexts_frame o1 o2 handled f s : inv_contexts s → inv_contexts (handleFrame o1 o2 handled f s).
Proof.
  intros H. unfold handleFrame. destruct (fr_Type f =? StreamFramePing); [by apply inv_contexts_write|].
  destruct (fr_Type f =? StreamFrameCancel); [by eapply inv_contexts_same; [apply (inv_contexts_cancel (fr_RequestID f) s H)|..]|].
  pose proof (inv_contexts_begin (fr_RequestID f) s H) as Hb. destruct (beginRequest (fr_RequestID f) s) as [s' i]. cbn in Hb.
  destruct handled; [done|]. by apply inv_contexts_write, inv_contexts_end.
Qed.

Lemma inv_contexts_run i s : inv_contexts s → inv_contexts (run_cancel i s).
Proof.
  intros []. split; unfold live in *; cbn.
  - intros j id Hj. destruct (decide (i = j)) as [->|Hne].
    + rewrite list_lookup_alter_eq in Hj. destruct (contexts s !! j) as [[]|]; naive_solver.
    + rewrite list_lookup_alter_ne in Hj by done. destruct (ctx_live0 j id Hj); [auto|right; set_solver].
  - intros id j Hj. destruct (ctx_inflight0 id j Hj) as [b Hb]. destruct (decide (i = j)) as [->|Hne].
    + exists true. by rewrite list_lookup_alter_eq, Hb.
    + exists b. by rewrite list_lookup_alter_ne.
Qed.

Lemma served_contexts s : served s → inv_contexts s.
Proof.
  induction 1 as [|s s' _ IH Hst]; [by split|]. destruct Hst.
  - by apply inv_contexts_frame.
  - by apply inv_contexts_write, inv_contexts_end.
  - by apply inv_contexts_run.
  - by eapply inv_contexts_same.
  - eapply inv_contexts_same; [done..|]. cbn. set_solver.
Qed.

(** ** Claims *)

(** A request's context does not outlive its request.  In every
    interleaving at most one context of a request ID is neither cancelled
    nor about to be; a client's cancel for an ID reaches every context of
    it that is still live; and once the stream ended and its running
    requests were cancelled, none is left live. *)
Theorem contexts_cancelled s (Hs : served s) :
  (∀ i j id, live s i id → live s j id → i ∉ owed s → j ∉ owed s → i = j) ∧
  (∀ i id, live s i id → i ∈ owed (cancelRequest id s)) ∧
  (∀ i id, live s i id → i ∈ owed (cancelInflight s)).
Proof.
  apply served_contexts in Hs as [Hl Hi]. split; [|split].
  - intros i j id H1 H2 Ho1 Ho2. destruct (Hl i id H1), (Hl j id H2); naive_solver.
  - intros i id H. unfold cancelRequest. destruct (Hl i id H) as [E|E]; [rewrite E; cbn; set_solver|]. destruct (inflight s !! id); cbn; set_solver.
  - intros i id H. cbn. destruct (Hl i id H) as [E|E]; [|set_solver]. apply elem_of_union_l, elem_of_map_img. eauto.
Qed.

(** The two proofs of a session, in full: a MAC under the cluster secret of
    the direction and the session's exported key; a legacy peer shows the
    fixed token and gets no proof back. *)
Definition client_shows (secret : octets) (binding : sessionBinding) : octets :=
  match binding with
  | Legacy => hmac_sha256 secret (text "narad-cluster-auth-v1")
  | Bound key => hmac_sha256 secret (text "narad-cluster-auth-v1/client" ++ key)
  end.
Definition server_shows (secret : octets) (binding : sessionBinding) : option octets :=
  match binding with
  | Legacy => None
  | Bound key => Some (hmac_sha256 secret (text "narad-cluster-auth-v1/server" ++ key))
  end.

Lemma shows_length secret binding : length (client_shows secret binding) = 32%nat.
Proof. destruct binding; apply length_hmac. Qed.

Lemma verify_exact expected f :
  expected ≠ [] → verifyAuthToken expected f = true ↔ fr_Type f = StreamFrameAuth ∧ fr_Payload f = expected.
Proof.
  intros He. unfold verifyAuthToken. rewrite (bool_decide_false (expected = [])), orb_false_r by done.
  destruct (Z.eqb_spec (fr_Type f) StreamFrameAuth); cbn [negb]; [rewrite bool_decide_eq_true; naive_solver|naive_solver].
Qed.

(** What a server's write leaves: all of the frame, or a stream aborted. *)
Lemma server_write_exact o1 o2 f s :
  let '(s', ok) := server_writeFrame o1 o2 f s in
  (ok = true → out s' = out s ++ frame_bytes f ∧ aborted s' = aborted s) ∧ (ok = false → aborted s' = true).
Proof.
  unfold server_writeFrame. destruct (staged_spec o1 o2 (out s) f retainedWriteBuffer) as (n & err & -> & _ & Hall & _).
  destruct err; cbn; [split; [done|by rewrite orb_true_r]|]. split; [|done]. intros _. by rewrite (Hall eq_refl), take_ge, orb_false_r.
Qed.

(** C33. With a cluster secret configured, the handshake of a stream, on
    every input: it is served exactly when its first frame, under the
    64-byte cap, is an auth frame, of whatever request ID, whose payload is
    the MAC under the secret of the client's role and this session's key
    (for a legacy peer, of the fixed context), and the answer, the MAC of
    the server's role and the session's key, was written whole (a legacy
    peer gets none).  The server writes nothing to a peer that has not
    shown its proof, and what follows the proof is left for the serve
    loop.  A peer that sends its proof first is understood, whatever its
    request ID and whatever follows. *)
Theorem handshake_exact secret binding o1 o2 s r (Hs : secret ≠ []) :
  let '(s', ok, r') := authenticate o1 o2 (newConnAuth secret binding) r s in
  let shown := ∃ id, ReadStreamFrame maxAuthFramePayloadBytes r = Ok (MkFrame StreamFrameAuth id (client_shows secret binding), r') in
  (ok = true ↔ shown ∧
     match server_shows secret binding with
     | None => True
     | Some proof => (server_writeFrame o1 o2 (MkFrame StreamFrameAuth 0 proof) s).2 = true
     end) ∧
  (ok = true → out s' = out s ++ match server_shows secret binding with None => [] | Some proof => frame_bytes (MkFrame StreamFrameAuth 0 proof) end) ∧
  (¬ shown → s' = s ∧ ok = false) ∧
  (∀ id rest, 0 <= id < two64 →
     ReadStreamFrame maxAuthFramePayloadBytes (frame_bytes (MkFrame StreamFrameAuth id (client_shows secret binding)) ++ rest)
     = Ok (MkFrame StreamFrameAuth id (client_shows secret binding), rest)).
Proof.
  pose proof (shows_length secret binding) as Hlen. set (proof := client_shows secret binding) in *.
  assert (proof ≠ []) as Hne by (intros E; rewrite E in Hlen; done).
  assert (∀ id rest, 0 <= id < two64 → ReadStreamFrame maxAuthFramePayloadBytes (frame_bytes (MkFrame StreamFrameAuth id proof) ++ rest)
    = Ok (MkFrame StreamFrameAuth id proof, rest)) as Hread.
  { intros id rest Hid. apply read_frame; [split; [done|split; [done|]]|right]; unfold blen; cbn [fr_Payload]; rewrite Hlen; by vm_compute. }
  assert (∃ a, newConnAuth secret binding = Some a ∧ expectedClient a = proof ∧
    match server_shows secret binding with None => legacy a = true | Some p => legacy a = false ∧ serverReply a = p end) as (a & -> & Ea & Hreply).
  { unfold newConnAuth. rewrite decide_False by done. eexists. split; [done|]. by destruct binding. }
  cbn [authenticate]. rewrite Ea. destruct (ReadStreamFrame maxAuthFramePayloadBytes r) as [[f r1]|e]; [|by split; [split; [done|intros [[] ]]|]].
  destruct (verifyAuthToken proof f) eqn:Ev; cbn [negb].
  2: { assert (¬ ∃ id, @Ok stream_err _ (f, r1) = Ok (MkFrame StreamFrameAuth id proof, r1)) as Hno.
       { intros [id [= ->]]. rewrite (proj2 (verify_exact proof _ Hne)) in Ev by done. done. }
       split; [split; [done|by intros []]|]. done. }
  apply verify_exact in Ev as [Et Ep]; [|done]. destruct f as [t id p]. cbn in Et, Ep. subst t p.
  destruct (server_shows secret binding) as [p|].
  - destruct Hreply as [-> ->]. change (authFrame p) with (MkFrame StreamFrameAuth 0 p).
    pose proof (server_write_exact o1 o2 (MkFrame StreamFrameAuth 0 p) s) as Hw.
    destruct (server_writeFrame o1 o2 (MkFrame StreamFrameAuth 0 p) s) as [s' ok]. destruct Hw as [Hw _]. cbn [snd].
    split_and!; [split; [eauto|by intros [_ ?]]|intros E; by apply Hw| |done]. intros Hno. destruct Hno. eauto.
  - rewrite Hreply. rewrite app_nil_r. split_and!; [split; eauto|done| |done]. intros Hno. destruct Hno. eauto.
Qed.
