(* ===== verification/StreamClaims.v ===== *)
(** * What the stream client guarantees

    The claims over every interleaving, from the invariants of [StreamInv],
    and the way of one request through the codec, the frame and the
    stream. *)

From S2P Require Import Prelude Octets NodeWire NodeRoundTrip NodeServe ClusterStream StreamClient StreamInv StreamServer.

#[local] Arguments put_be : simpl never.

(** ** The frames that went out whole *)

Definition is_whole (x : StreamFrame * nat) : bool := bool_decide (x.2 = length (frame_bytes x.1)).
Definition whole (c : client) : list StreamFrame := (filter (λ x, is_whole x = true) (log c)).*1.

Lemma frame_bytes_pos f : (0 < length (frame_bytes f))%nat.
Proof. rewrite frame_bytes_length. lia. Qed.

Lemma uncut_bytes l :
  (∀ f n, (f, n) ∈ l → (n <= length (frame_bytes f))%nat ∧ ¬ cut (f, n)) →
  l ≫= entry_bytes = stream_bytes (filter (λ x, is_whole x = true) l).*1.
Proof.
  induction l as [|[f n] l IH]; intros H; [done|].
  change (((f, n) :: l) ≫= entry_bytes) with (take n (frame_bytes f) ++ l ≫= entry_bytes).
  rewrite IH by (intros g k Hg; apply H; set_solver). destruct (H f n ltac:(set_solver)) as [Hn Hc]. unfold cut in Hc. cbn [fst snd] in Hc.
  destruct (decide (n = length (frame_bytes f))) as [->|Hne].
  - rewrite filter_cons_True by (unfold is_whole; cbn [fst snd]; by rewrite bool_decide_true). by rewrite take_ge by lia.
  - rewrite filter_cons_False by (unfold is_whole; cbn [fst snd]; by rewrite bool_decide_false).
    assert (n = 0%nat) as -> by lia. done.
Qed.

(** The stream holds the whole frames and perhaps the start of one more. *)
Lemma wire_shape c :
  inv_log c → ∃ extra n, wire c = take n (stream_bytes (whole c ++ extra)) ∧ Forall frame_ok (whole c ++ extra) ∧
    (length (stream_bytes (whole c)) <= n)%nat ∧ (∀ f, f ∈ extra → (n < length (stream_bytes (whole c ++ extra)))%nat ∧ extra = [f]).
Proof.
  intros Hinv. pose proof Hinv as [Hw Hok Hcut].
  assert (Forall frame_ok (whole c)) as HF.
  { apply Forall_forall. intros f ([g n] & -> & Hg)%list_elem_of_fmap. apply list_elem_of_filter in Hg as [_ Hg]. by apply Hok in Hg as [? _]. }
  assert ((∀ x, x ∈ log c → ¬ cut x) ∨ ∃ pre x, log c = pre ++ [x] ∧ cut x ∧ ∀ y, y ∈ pre → ¬ cut y) as [Hno|(pre & [f n] & El & Hx & Hno)].
  { destruct (log c) as [|x pre _] using rev_ind; [left; set_solver|].
    assert (∀ y, y ∈ pre → ¬ cut y) as Hpre.
    { intros y (a & b & ->)%list_elem_of_split Hy. destruct (Hcut a y (b ++ [x])) as [E _]; [by rewrite <-app_assoc|done|]. by destruct b. }
    destruct (decide (0 < x.2 < length (frame_bytes x.1))%nat); [right; eauto|left]. intros y [?| ->%list_elem_of_singleton]%elem_of_app; auto. }
  - exists [], (length (stream_bytes (whole c))). rewrite app_nil_r, take_ge by lia. split; [|split; [done|split; [lia|set_solver]]].
    rewrite Hw. apply uncut_bytes. intros f n Hin. split; [by apply Hok|by apply Hno].
  - assert (whole c = (filter (λ x, is_whole x = true) pre).*1) as Ewh.
    { unfold whole. rewrite El, filter_app, fmap_app. rewrite (filter_cons_False _ (f, n)), filter_nil, app_nil_r; [done|].
      unfold is_whole, cut in *. cbn [fst snd] in *. rewrite bool_decide_eq_true. lia. }
    destruct Hx as [H1 H2]. cbn [fst snd] in H1, H2.
    exists [f], (length (stream_bytes (whole c)) + n)%nat. split; [|split].
    + rewrite stream_bytes_app, take_app_add, Hw, El, bind_app, uncut_bytes, <-Ewh.
      * change ([(f, n)] ≫= entry_bytes) with (take n (frame_bytes f) ++ []). by rewrite stream_bytes_cons, !app_nil_r.
      * intros g k Hg. split; [apply Hok; rewrite El; set_solver|by apply Hno].
    + apply Forall_app. split; [done|]. apply Forall_singleton. apply (Hok f n). rewrite El. set_solver.
    + split; [lia|]. intros g ->%list_elem_of_singleton. split; [|done].
      rewrite stream_bytes_app, length_app, stream_bytes_cons, app_nil_r. lia.
Qed.

(** The frames of [fs] that lie within the first [k] bytes of the stream. *)
Fixpoint within (k : nat) (fs : list StreamFrame) : list StreamFrame :=
  match fs with
  | [] => []
  | f :: fs => if decide (length (frame_bytes f) <= k)%nat then f :: within (k - length (frame_bytes f)) fs else []
  end.

Lemma within_exact fs k j :
  (length (stream_bytes (take j fs)) <= k)%nat → ((j < length fs)%nat → (k < length (stream_bytes (take (S j) fs)))%nat) →
  within k fs = take j fs.
Proof.
  revert k j. induction fs as [|f fs IH]; intros k j H1 H2; [by rewrite take_nil|]. cbn [within]. destruct j as [|j].
  - rewrite decide_False; [done|]. specialize (H2 ltac:(cbn; lia)). cbn [take] in H2. rewrite stream_bytes_cons, app_nil_r in H2. lia.
  - cbn [take length] in *. rewrite stream_bytes_cons, length_app in H1. rewrite decide_True by lia. f_equal. apply IH; [lia|].
    intros Hj. specialize (H2 ltac:(lia)). rewrite stream_bytes_cons, length_app in H2. lia.
Qed.

Lemma within_sub fs k f : f ∈ within k fs → f ∈ fs.
Proof.
  revert k. induction fs as [|g fs IH]; intros k; [done|]. cbn. case_decide; [|by intros ?%elem_of_nil].
  intros [->|Hf]%elem_of_cons; [by left|right; by eapply IH].
Qed.

Lemma stream_bytes_split n fs : stream_bytes fs = stream_bytes (take n fs) ++ stream_bytes (drop n fs).
Proof. by rewrite <-stream_bytes_app, take_drop. Qed.

(** Whatever part of the stream has arrived is read as the whole frames
    that lie in it. *)
Lemma arrived_frames c k :
  inv_log c → ∃ e, frames_of MaxStreamFramePayloadBytes (take k (wire c)) = (within k (whole c), e) ∧ (e = SEOF ∨ e = SUnexpectedEOF).
Proof.
  intros Hinv. destruct (wire_shape c Hinv) as (extra & n & Hw & HF & Hlen & Hx). rewrite Hw, take_take.
  destruct (frames_of_cut (whole c ++ extra) (k `min` n) MaxStreamFramePayloadBytes) as (j & e & E & He & Hj & Hj2).
  { eapply Forall_impl; [exact HF|]. intros f Hf. split; [done|]. right. apply Hf. }
  exists e. rewrite E. split; [|done]. f_equal. rewrite length_app in Hj2.
  assert (j <= length (whole c) ∨ extra = [])%nat as [Hle| ->].
  { destruct extra as [|f extra]; [by right|left]. destruct (Hx f ltac:(set_solver)) as [Hn [= ->]].
    destruct (decide (j <= length (whole c))%nat); [done|]. rewrite take_ge in Hj by (rewrite length_app; cbn; lia). lia. }
  - rewrite take_app_le in * by done. symmetry. apply within_exact; [lia|]. intros Hlt. specialize (Hj2 ltac:(lia)).
    rewrite take_app_le in Hj2 by lia. pose proof (f_equal length (stream_bytes_split (S j) (whole c))) as Hs. rewrite length_app in Hs. lia.
  - rewrite app_nil_r in *. symmetry. apply within_exact; [lia|]. intros Hlt. specialize (Hj2 ltac:(cbn; lia)).
    pose proof (f_equal length (stream_bytes_split (S j) (whole c))) as Hs. rewrite length_app in Hs. lia.
Qed.

(** A request that ended stays as it ended. *)
Lemma done_stays c c' id r : inv_ids c → step c c' → phases c !! id = Some (PDone r) → phases c' !! id = Some (PDone r).
Proof.
  intros Hids Hst Hd. assert (∀ i p q, phases c !! i = Some p → (∀ x, p ≠ PDone x) → <[i := q]> (phases c) !! id = Some (PDone r)) as Hother.
  { intros i p q Hi Hp. rewrite lookup_insert_ne; [done|]. intros ->. rewrite Hd in Hi. injection Hi as <-. by apply (Hp r). }
  destruct Hst; cbn; try (by eapply Hother).
  - rewrite lookup_insert_ne; [done|]. pose proof (ids_phase _ Hids id _ Hd). subst id0. lia.
  - apply put_frame_eq in H1 as (-> & _). cbn. by eapply Hother.
  - pose proof (same_ids_failed n w c) as [(_ & E & _) _]. rewrite H0 in E. cbn in E. rewrite E. by eapply Hother.
  - destruct (writeCancel_ids o1 o2 id0 c Hids H) as [_ (_ & -> & _)]. done.
  - done.
  - pose proof (same_ids_read f c) as [(_ & -> & _) _]. done.
  - done.
  - done.
  - done.
Qed.

(** ** Claims *)

(** C31. Whatever prefix of the stream a peer has received, in any
    interleaving of requests, cancels, timeouts, failing writes and
    closes, it reads as the frames that were written whole and lie in that
    prefix, all of them, in the order they were written, and nothing else:
    a frame cut off by a failed write is never read and never corrupts
    another, and no whole frame that has arrived is lost.  [log] is every
    frame handed to the stream with how many of its bytes went out. *)
Theorem peer_reads_whole_frames c k (Hr : reachable c) :
  wire c = log c ≫= entry_bytes ∧
  ∃ e, frames_of MaxStreamFramePayloadBytes (take k (wire c)) = (within k (filter (λ x, is_whole x = true) (log c)).*1, e)
    ∧ (e = SEOF ∨ e = SUnexpectedEOF).
Proof. apply reachable_inv in Hr as (_ & Hl & _). split; [apply Hl|by apply arrived_frames]. Qed.

(** C29. A request that failed with the not-sent mark never reaches the
    peer, now or later: of a frame of its ID handed to the stream not one
    byte went out, the stream being exactly what the entries of [log] say
    went out, and no frame the peer reads from any prefix of the stream
    carries its ID. *)
Theorem not_sent_never_arrives c c' id e
    (Hr : reachable c) (Hd : phases c !! id = Some (PDone (Err e))) (Hm : e_not_sent e = true) (Hl : rtc step c c') :
  wire c' = log c' ≫= entry_bytes ∧
  (∀ f n, (f, n) ∈ log c' → fr_RequestID f = id → n = 0%nat) ∧
  (∀ k f, f ∈ (frames_of MaxStreamFramePayloadBytes (take k (wire c'))).1 → fr_RequestID f ≠ id).
Proof.
  assert (reachable c' ∧ phases c' !! id = Some (PDone (Err e))) as [Hr' Hd'].
  { clear Hm. induction Hl as [c|c c1 c2 Hst _ IH]; [done|]. apply IH; [by eapply reachable_step|].
    apply (done_stays c); [by apply reachable_inv|done..]. }
  apply reachable_inv in Hr' as (_ & Hlog & Hs & _). pose proof (sent_phase c' Hs id _ Hd' Hm) as Hno.
  assert (∀ f n, (f, n) ∈ log c' → fr_RequestID f = id → n = 0%nat) as Hz.
  { intros f n Hin Hf. destruct n as [|n]; [done|]. destruct Hno. exists f, (S n). split_and!; [done..|lia]. }
  split; [apply Hlog|]. split; [done|]. intros k f Hf Hid. destruct (arrived_frames c' k Hlog) as (e' & E & _). rewrite E in Hf.
  apply within_sub, list_elem_of_fmap in Hf as ([g n] & -> & Hg). apply list_elem_of_filter in Hg as [Hw Hg].
  unfold is_whole in Hw. cbn [fst snd] in *. apply bool_decide_eq_true in Hw. pose proof (frame_bytes_pos g). specialize (Hz g n Hg Hid). lia.
Qed.

(** C32. Every waiter is answered once and with its own reply: a channel
    never holds or is owed more than the one result it has room for, a
    request that returns a reply returns one with its own request ID, and
    on a stream that closed and failed its waiters every request still
    waiting has a result to take. *)
Theorem waiters_answered c (Hr : reachable c) :
  (∀ id, (length (chan_of c id) + (if decide (id ∈ pending c) then 1 else 0) <= 1)%nat) ∧
  (∀ id f, phases c !! id = Some (PDone (Ok f)) → fr_RequestID f = id) ∧
  (∀ id l, phases c !! id = Some (PWaiting l) → closed c = true → draining c = None → ∃ r, chan c !! id = Some [r]).
Proof.
  apply reachable_inv in Hr as (_ & _ & _ & Hinv). split; [apply (chan_once c Hinv)|].
  split; [intros id f Hd; by apply (chan_done c Hinv id (Ok f))|].
  intros id l Hp Hc Hdr. destruct (chan_waits c Hinv id _ Hp eq_refl) as [Hin|Hne].
  - destruct (chan_late c Hinv id Hc Hdr Hin) as (p & Hp' & Hl). by simplify_eq.
  - pose proof (chan_once c Hinv id) as Ho. unfold chan_of in *. destruct (chan c !! id) as [[|r [|r' rs]]|]; cbn in *; try done; [by exists r|lia].
Qed.

(** End to end: an encoded request written as a frame, in one or two
    writes, behind whole frames on a stream is read by the peer as that
    frame and served as that request. *)
Theorem request_delivered m bytes id fs o1 o2 maxStaged w n
    (Ht : message_typed m) (He : EncodeMessage m = Ok bytes) (Hid : 0 <= id < two64)
    (Hb : blen bytes <= MaxStreamFramePayloadBytes) (Hfs : Forall frame_ok fs)
    (Hw : WriteStreamFrameStaged o1 o2 (stream_bytes fs) (MkFrame StreamFrameNodeRequest id bytes) maxStaged = (w, n, None)) :
  frames_of MaxStreamFramePayloadBytes w = (fs ++ [MkFrame StreamFrameNodeRequest id bytes], SEOF) ∧
  serve bytes = Ok (message_canon m).
Proof.
  split; [|pose proof (encode_serve m Ht) as H; by rewrite He in H].
  set (f := MkFrame _ _ _) in *. assert (frame_ok f) as Hf by (split; [done|]; split; done).
  destruct (staged_spec o1 o2 (stream_bytes fs) f maxStaged) as (n' & err' & E & _ & Hall & _). rewrite Hw in E. injection E as -> -> <-.
  rewrite (Hall eq_refl), take_ge by done.
  assert (stream_bytes fs ++ frame_bytes f = stream_bytes (fs ++ [f]) ++ []) as ->.
  { by rewrite stream_bytes_app, stream_bytes_cons, !app_nil_r. }
  unfold frames_of. apply read_frames_stream; [|done|].
  - apply Forall_app. split; [|apply Forall_singleton]; [eapply Forall_impl; [exact Hfs|]|]; [intros g Hg|]; (split; [done|right]); [apply Hg|apply Hf].
  - rewrite app_nil_r. pose proof (stream_bytes_length (fs ++ [f])). lia.
Qed.

(** ** The node protocol on concrete inputs

    A batch, an old-format frame, a client with one request on the stream
    and one that gave up, and a served connection: states in which the
    claims of [NodeServe], [StreamClaims] and [StreamServer] apply. *)

(** ** Requests *)

(** Three records, the last with another incarnation of the topic. *)
Definition demo_record (id : octets) (key : Z) : CommitProduceRequest := MkCommitProduce [111; 114; 100] id [key] 2 [1; 2; 3] 1700000000000.
Definition demo_batch : message := MCommitProduceBatch [demo_record [7] 1; demo_record [7] 2; demo_record [] 3].

Lemma demo_batch_typed : message_typed demo_batch.
Proof. repeat constructor; by vm_compute. Qed.

(** The batch is accepted and served as itself. *)
Lemma request_roundtrip_witness :
  is_ok (EncodeMessage demo_batch) = true ∧
  match EncodeMessage demo_batch with
  | Ok bytes => serve bytes = Ok (message_canon demo_batch)
  | Err _ => ¬ message_fits demo_batch
  end.
Proof. split; [by vm_compute|]. exact (request_roundtrip demo_batch demo_batch_typed). Defined.

(** A notify frame with a field of a newer peer behind the known ones. *)
Definition newer_notify : octets := [31; 0; 0; 0; 1; 97; 0; 0; 0; 1; 98; 9].

Lemma newer_notify_served : serve newer_notify = Ok (MTokenNotify (MkTokenNotify [97] [98])).
Proof. by vm_compute. Qed.

Lemma request_stable_witness :
  ∃ bytes', EncodeMessage (MTokenNotify (MkTokenNotify [97] [98])) = Ok bytes' ∧ serve bytes' = Ok (MTokenNotify (MkTokenNotify [97] [98])).
Proof. exact (request_stable newer_notify _ newer_notify_served). Defined.

(** ** A client's stream *)

Definition whole_write : write_outcome := (1000%nat, None).
Definition demo_request : StreamFrame := MkFrame StreamFrameNodeRequest 1 [31; 0].

(** Request 1 is registered, queues, takes the slot, writes and waits;
    request 2 registers, queues and gives up. *)
Definition demo_1 : client :=
  MkClient [] None 1 false None ({[1]} ∪ ∅) (<[1 := []]> ∅) (<[1 := PStart demo_request LOwn]> ∅) ∅ None true [].
Definition demo_2 : client := set_phase 1 (PQueued demo_request LOwn) demo_1.
Definition demo_3 : client := set_slot (Some 1) (set_phase 1 (PLocked demo_request LOwn) demo_2).
Definition demo_4 : client := set_phase 1 (PWrote demo_request LOwn 22 None) (put_frame whole_write whole_write demo_request demo_3).1.1.
Definition demo_5 : client := set_slot None (set_phase 1 (PWaiting LOwn) demo_4).
Definition late_request : StreamFrame := MkFrame StreamFrameNodeRequest 2 [32].
Definition demo_6 : client :=
  MkClient (wire demo_5) (slot demo_5) 2 (closed demo_5) (closeErr demo_5) ({[2]} ∪ pending demo_5) (<[2 := []]> (chan demo_5))
    (<[2 := PStart late_request LContext]> (phases demo_5)) (cancels demo_5) (draining demo_5) (reading demo_5) (log demo_5).
Definition demo_7 : client := set_phase 2 (PQueued late_request LContext) demo_6.
Definition gave_up : err := notSent (plain (EContext true)).
Definition demo_8 : client := set_phase 2 (PFailed gave_up) demo_7.
Definition demo_client : client := set_phase 2 (PDone (Err gave_up)) (removePending 2 demo_8).

Lemma demo_reachable : reachable demo_client.
Proof.
  assert (reachable demo_1) as H1.
  { apply (reachable_step newStreamClient); [constructor|]. by apply (S_begin newStreamClient LOwn StreamFrameNodeRequest [31; 0]). }
  assert (reachable demo_2) as H2 by (apply (reachable_step demo_1); [done|]; by eapply S_queue).
  assert (reachable demo_3) as H3 by (apply (reachable_step demo_2); [done|]; by eapply S_lock).
  assert (reachable demo_4) as H4.
  { apply (reachable_step demo_3); [done|]. by eapply (S_write demo_3 1 demo_request LOwn whole_write whole_write). }
  assert (reachable demo_5) as H5 by (apply (reachable_step demo_4); [done|]; by eapply S_written).
  assert (reachable demo_6) as H6.
  { apply (reachable_step demo_5); [done|]. by apply (S_begin demo_5 LContext StreamFrameNodeRequest [32]). }
  assert (reachable demo_7) as H7 by (apply (reachable_step demo_6); [done|]; by eapply S_queue).
  assert (reachable demo_8) as H8.
  { apply (reachable_step demo_7); [done|]. eapply (S_gave_up demo_7 2); [done|]. left. by exists true. }
  apply (reachable_step demo_8); [done|]. by eapply S_fail.
Qed.

(** Complete: the frame of request 1 is read. *)
Lemma demo_arrived : within 22 (filter (λ x, is_whole x = true) (log demo_client)).*1 = [demo_request].
Proof. by vm_compute. Qed.

Lemma peer_reads_whole_frames_witness :
  wire demo_client = log demo_client ≫= entry_bytes ∧
  ∃ e, frames_of MaxStreamFramePayloadBytes (take 22 (wire demo_client)) = ([demo_request], e) ∧ (e = SEOF ∨ e = SUnexpectedEOF).
Proof. rewrite <-demo_arrived. exact (peer_reads_whole_frames demo_client 22 demo_reachable). Defined.

(** The stream is closed after request 2 gave up. *)
Lemma demo_later : rtc step demo_client (closeWithError (plain EStreamClosed) demo_client).
Proof. eapply rtc_l; [apply S_close|done]. Qed.

Lemma not_sent_never_arrives_witness :
  let c' := closeWithError (plain EStreamClosed) demo_client in
  wire c' = log c' ≫= entry_bytes ∧
  (∀ f n, (f, n) ∈ log c' → fr_RequestID f = 2 → n = 0%nat) ∧
  (∀ k f, f ∈ (frames_of MaxStreamFramePayloadBytes (take k (wire c'))).1 → fr_RequestID f ≠ 2).
Proof. exact (not_sent_never_arrives demo_client _ 2 gave_up demo_reachable eq_refl eq_refl demo_later). Defined.

Lemma waiters_answered_witness :
  (∀ id, (length (chan_of demo_client id) + (if decide (id ∈ pending demo_client) then 1 else 0) <= 1)%nat) ∧
  (∀ id f, phases demo_client !! id = Some (PDone (Ok f)) → fr_RequestID f = id) ∧
  (∀ id l, phases demo_client !! id = Some (PWaiting l) → closed demo_client = true → draining demo_client = None → ∃ r, chan demo_client !! id = Some [r]).
Proof. exact (waiters_answered demo_client demo_reachable). Defined.

(** ** From the request to the handler *)

Definition ack_bytes : octets := [3; 0; 0; 0; 1; 97; 0; 0; 0; 0; 0; 0; 0; 0; 0; 0; 0; 5; 0; 0; 0; 0; 0; 0; 0; 6].
Definition demo_ack : message := MAck (MkAck [97] 0 5 6).
Definition ping : StreamFrame := MkFrame StreamFramePing 9 [].

(** An ack behind a ping, staged in two writes. *)
Definition demo_write : octets * nat * option write_err :=
  WriteStreamFrameStaged whole_write whole_write (stream_bytes [ping]) (MkFrame StreamFrameNodeRequest 7 ack_bytes) 30.

Lemma demo_ack_typed : message_typed demo_ack.
Proof. split; by vm_compute. Qed.

Lemma demo_ack_encodes : EncodeMessage demo_ack = Ok ack_bytes.
Proof. by vm_compute. Qed.

Lemma demo_write_eq : demo_write = (demo_write.1.1, demo_write.1.2, None).
Proof. by vm_compute. Qed.

Lemma request_delivered_witness :
  frames_of MaxStreamFramePayloadBytes demo_write.1.1 = ([ping] ++ [MkFrame StreamFrameNodeRequest 7 ack_bytes], SEOF) ∧
  serve ack_bytes = Ok (message_canon demo_ack).
Proof.
  refine (request_delivered demo_ack ack_bytes 7 [ping] whole_write whole_write 30 _ _ demo_ack_typed demo_ack_encodes _ _ _ demo_write_eq).
  - split; by vm_compute.
  - by vm_compute.
  - repeat constructor; by vm_compute.
Defined.

(** ** The serving side *)

(** Two requests begun on one stream, the second cancelled by the client. *)
Definition served_1 : server := handleFrame whole_write whole_write true (MkFrame StreamFrameNodeRequest 1 [2]) newStreamServerConn.
Definition served_2 : server := handleFrame whole_write whole_write true (MkFrame StreamFrameNodeRequest 2 [2]) served_1.
Definition served_3 : server := handleFrame whole_write whole_write true (MkFrame StreamFrameCancel 2 []) served_2.

Lemma demo_served : served served_3.
Proof.
  apply (served_step served_2); [|by apply V_frame]. apply (served_step served_1); [|by apply V_frame].
  apply (served_step newStreamServerConn); [constructor|by apply V_frame].
Qed.

Lemma contexts_cancelled_witness :
  (∀ i j id, live served_3 i id → live served_3 j id → i ∉ owed served_3 → j ∉ owed served_3 → i = j) ∧
  (∀ i id, live served_3 i id → i ∈ owed (cancelRequest id served_3)) ∧
  (∀ i id, live served_3 i id → i ∈ owed (cancelInflight served_3)).
Proof. exact (contexts_cancelled served_3 demo_served). Defined.

Definition demo_secret : octets := [115; 51; 99].
Definition demo_binding : sessionBinding := Bound [1; 2].
Definition demo_hello : octets := frame_bytes (MkFrame StreamFrameAuth 5 (client_shows demo_secret demo_binding)) ++ [9].

(** A client of this session, its request ID not 0, is served. *)
Lemma handshake_exact_witness :
  (authenticate whole_write whole_write (newConnAuth demo_secret demo_binding) demo_hello newStreamServerConn).1.2 = true ∧
  ∃ id, ReadStreamFrame maxAuthFramePayloadBytes demo_hello = Ok (MkFrame StreamFrameAuth id (client_shows demo_secret demo_binding), [9]).
Proof.
  assert (demo_secret ≠ []) as Hs by done.
  assert ((authenticate whole_write whole_write (newConnAuth demo_secret demo_binding) demo_hello newStreamServerConn).1.2 = true) as Hok by by vm_compute.
  assert ((authenticate whole_write whole_write (newConnAuth demo_secret demo_binding) demo_hello newStreamServerConn).2 = [9]) as Hr by by vm_compute.
  pose proof (handshake_exact demo_secret demo_binding whole_write whole_write newStreamServerConn demo_hello Hs) as H.
  destruct (authenticate _ _ _ _ _) as [[s' ok] r']. cbn in Hok, Hr. subst r'. split; [done|]. by apply H.
Defined.

(** ** A cut the reader takes for a clean end *)

(** A stream cut right behind a header whose payload has not arrived is
    read as [io.EOF], the error of a stream that ended between frames. *)
Lemma cut_after_header_is_eof : frames_of MaxStreamFramePayloadBytes (take 20 (frame_bytes demo_request)) = ([], SEOF).
Proof. by vm_compute. Qed.
