(* ===== verification/WalFrame.v ===== *)
(** * Frames, recovery scan and replay of the write-ahead log

    [internal/persistence/wal]: the frame codec ([frame.go]), the scan
    [Open] recovers a log with ([recovery.go]) and the replay of one
    segment ([replay.go]), as functions of a segment file's bytes.
    Positions in a file are [nat], sequence numbers [uint64] in [Z]. *)

From S2P Require Import Prelude Octets.

(** ** Frames *)

Definition frameMagic : Z := 0x4e57414c.
Definition frameHeaderSize : nat := 20.

(** [errZeroHeader] wraps [errCorruptFrame]. *)
Inductive frame_err := ErrZeroHeader | ErrCorruptFrame.

(** The header and the payload as laid out in a file. *)
Definition frame (seq : Z) (payload : octets) : octets :=
  put_be 4 frameMagic ++ put_be 4 (blen payload) ++ put_be 8 seq ++ put_be 4 (crc32 payload) ++ payload.

Definition appendFrame (dst : octets) (seq : Z) (payload : octets) : octets := dst ++ frame seq payload.

(** [fill] is the payload the callback appends in place, [None] one that
    left the reserved region.  [None] is the error, which leaves the buffer
    unchanged. *)
Definition appendFrameWith (dst : octets) (seq : Z) (size : nat) (fill : option octets) : option octets :=
  match fill with
  | Some p => if decide (length p = size) then Some (dst ++ frame seq p) else None
  | None => None
  end.

Record frameHeader := MkHeader { h_seq : Z; h_size : nat; h_crc : Z }.

(** What a read of the next item yields: the item and the bytes after it,
    the end of the data ([ok = false]: a clean or truncated end of file), or
    a validation failure. *)
Inductive read (A : Type) := RdOk (a : A) (rest : octets) | RdEnd | RdErr (e : frame_err).
Arguments RdOk {A}. Arguments RdEnd {A}. Arguments RdErr {A}.

Definition field (from n : nat) (s : octets) : Z := get_be (take n (drop from s)).

Definition parse_header (maxRecord : Z) (header : octets) : frameHeader + frame_err :=
  if decide (header = zero_bytes frameHeaderSize) then inr ErrZeroHeader
  else if decide (field 0 4 header ≠ frameMagic) then inr ErrCorruptFrame
  else
    let n := field 4 4 header in
    if decide (n = 0) then inr ErrCorruptFrame
    else if maxRecord <? n then inr ErrCorruptFrame
    else inl (MkHeader (field 8 8 header) (Z.to_nat n) (field 16 4 header)).

Definition readHeader (maxRecord : Z) (s : octets) : read frameHeader :=
  if decide (length s < frameHeaderSize)%nat then RdEnd
  else match parse_header maxRecord (take frameHeaderSize s) with
       | inl h => RdOk h (drop frameHeaderSize s)
       | inr e => RdErr e
       end.

Definition readPayload (h : frameHeader) (s : octets) : read octets :=
  if decide (length s < h_size h)%nat then RdEnd
  else let payload := take (h_size h) s in
       if decide (crc32 payload = h_crc h) then RdOk payload (drop (h_size h) s) else RdErr ErrCorruptFrame.

Definition replayReadBufferSize : nat := Z.to_nat 65536.

(** [skipPayload]: the checksum taken chunk by chunk through the read
    buffer.  Each round consumes a byte at least, so [left + 1] rounds are
    enough. *)
Fixpoint skip_loop (fuel left : nat) (sum crc : Z) (s : octets) : read unit :=
  match fuel with
  | O => RdEnd
  | S fuel =>
      if decide (left = 0)%nat then (if decide (sum = crc) then RdOk tt s else RdErr ErrCorruptFrame)
      else
        let want := Nat.min left replayReadBufferSize in
        let chunk := take want s in
        let sum := crc_update sum chunk in
        let left := (left - length chunk)%nat in
        if decide (length chunk < want ∧ 0 < left)%nat then RdEnd
        else skip_loop fuel left sum crc (drop (length chunk) s)
  end.

Definition skipPayload (h : frameHeader) (s : octets) : read unit :=
  skip_loop (S (h_size h)) (h_size h) 0 (h_crc h) s.

Definition readFrame (maxRecord : Z) (s : octets) : read (Z * octets) :=
  match readHeader maxRecord s with
  | RdOk h s =>
      match readPayload h s with
      | RdOk payload s => RdOk (h_seq h, payload) s
      | RdEnd => RdEnd
      | RdErr e => RdErr e
      end
  | RdEnd => RdEnd
  | RdErr e => RdErr e
  end.

(** ** Looking for frames after damage *)

(** [bytes.Index]. *)
Fixpoint bytes_index (pat s : octets) : option nat :=
  if decide (take (length pat) s = pat) then Some 0%nat
  else match s with [] => None | _ :: s => S <$> bytes_index pat s end.

Definition magic_bytes : octets := put_be 4 frameMagic.

Definition magic_chunk : nat := Z.to_nat 4096.

(** [nextMagicPos]: chunks after the first overlap the previous one by
    three bytes.  Each round but the last covers a chunk, so [size + 1]
    rounds are enough. *)
Fixpoint magic_loop (fuel : nat) (f : octets) (start size pos : nat) : nat :=
  match fuel with
  | O => size
  | S fuel =>
      if decide (pos < size)%nat then
        let stop := Nat.min (pos + magic_chunk) size in
        let readStart := (if decide (start < pos) then pos - 3 else pos)%nat in
        match bytes_index magic_bytes (take (stop - readStart) (drop readStart f)) with
        | Some idx => (readStart + idx)%nat
        | None => magic_loop fuel f start size stop
        end
      else size
  end.

Definition nextMagicPos (f : octets) (start size : nat) : nat := magic_loop (S size) f start size start.

(** [frameAt]: the header of a complete valid frame at [pos]. *)
Definition frameAt (f : octets) (pos size : nat) (maxRecord : Z) : option frameHeader :=
  if decide (size < pos + frameHeaderSize)%nat then None else
  let header := take frameHeaderSize (drop pos f) in
  if decide (length header < frameHeaderSize)%nat then None else
  if decide (field 0 4 header ≠ frameMagic) then None else
  let n := field 4 4 header in
  if decide (n = 0) then None else if maxRecord <? n then None else
  let n := Z.to_nat n in
  if decide (size < pos + frameHeaderSize + n)%nat then None else
  let payload := take n (drop (pos + frameHeaderSize) f) in
  if decide (length payload < n)%nat then None else
  let h := MkHeader (field 8 8 header) n (field 16 4 header) in
  if decide (crc32 payload = h_crc h) then Some h else None.

(** The loop of [hasLaterValidFrame]; the position grows each round. *)
Fixpoint later_loop (fuel : nat) (f : octets) (pos : nat) (maxRecord : Z) : bool :=
  match fuel with
  | O => false
  | S fuel =>
      if decide (pos < length f)%nat then
        match frameAt f pos (length f) maxRecord with
        | Some _ => true
        | None => later_loop fuel f (nextMagicPos f (S pos) (length f)) maxRecord
        end
      else false
  end.

Definition hasLaterValidFrame (f : octets) (start : nat) (maxRecord : Z) : bool :=
  later_loop (S (length f)) f (nextMagicPos f start (length f)) maxRecord.

(** ** Torn writes into a prepared segment *)

Definition prepTrailerSize : nat := 16.

(** "NWPREP01" *)
Definition prepTrailerMagic : octets := [78; 87; 80; 82; 69; 80; 48; 49].

Definition appendPrepTrailer (dst : octets) (limit : Z) : octets := dst ++ prepTrailerMagic ++ put_be 8 limit.

(** [allZero]; the source compares block by block. *)
Definition allZero (f : octets) (start stop : nat) : bool :=
  forallb (λ b, b =? 0) (take (stop - start) (drop start f)).

(** The loop of [tornPreparedWrite] over the frames after the damage. *)
Fixpoint torn_loop (fuel : nat) (f : octets) (bad windowEnd zerosEnd pos : nat) (firstSeq prevSeq maxRecord : Z) : bool :=
  match fuel with
  | O => false
  | S fuel =>
      if decide (pos < windowEnd)%nat then
        match frameAt f pos zerosEnd maxRecord with
        | None => torn_loop fuel f bad windowEnd zerosEnd (nextMagicPos f (S pos) windowEnd) firstSeq prevSeq maxRecord
        | Some h =>
            let stop := (pos + frameHeaderSize + h_size h)%nat in
            if decide (windowEnd < stop)%nat then false
            else if h_seq h <=? prevSeq then false
            else if Z.of_nat (pos - bad) / Z.of_nat (frameHeaderSize + 1) <? u64 (h_seq h - firstSeq) then false
            else torn_loop fuel f bad windowEnd zerosEnd (nextMagicPos f stop windowEnd) firstSeq (h_seq h) maxRecord
        end
      else true
  end.

Definition tornPreparedWrite (f : octets) (bad : nat) (firstSeq maxRecord : Z) : bool :=
  if decide (length f - prepTrailerSize <= bad)%nat then false else
  let zerosEnd := (length f - prepTrailerSize)%nat in
  let trailer := drop zerosEnd f in
  if decide (take 8 trailer ≠ prepTrailerMagic) then false else
  let limit := field 8 8 trailer in
  if decide (limit = 0) then false else
  let windowEnd := if limit <? Z.of_nat (zerosEnd - bad) then (bad + Z.to_nat limit)%nat else zerosEnd in
  if negb (allZero f windowEnd zerosEnd) then false
  else torn_loop (S (length f)) f bad windowEnd zerosEnd (nextMagicPos f (S bad) windowEnd) firstSeq firstSeq maxRecord.

(** ** The scan of one segment *)

(** The end of the valid data, the highest sequence number and whether a
    record was read. *)
Record scanned := MkScanned { validEnd : nat; maxSeq : Z; sawRecord : bool }.

(** The loop of [scanSegment]; each round reads a frame. *)
Fixpoint scan_loop (fuel : nat) (f : octets) (base maxRecord : Z) (tolerateCorruptTail : bool)
    (offset : nat) (st : scanned) : result frame_err scanned :=
  match fuel with
  | O => Ok st
  | S fuel =>
      match readFrame maxRecord (drop offset f) with
      | RdErr e =>
          if tolerateCorruptTail then
            let torn :=
              if hasLaterValidFrame f (S offset) maxRecord
              then tornPreparedWrite f offset (if sawRecord st then u64 (maxSeq st + 1) else base) maxRecord
              else true in
            if torn then Ok st else Err e
          else Err e
      | RdEnd => Ok st
      | RdOk (seq, payload) _ =>
          let offset := (offset + frameHeaderSize + length payload)%nat in
          scan_loop fuel f base maxRecord tolerateCorruptTail offset (MkScanned offset (Z.max (maxSeq st) seq) true)
      end
  end.

Definition scanSegment (base : Z) (f : octets) (maxRecord : Z) (tolerateCorruptTail : bool)
    : result frame_err scanned :=
  scan_loop (S (length f)) f base maxRecord tolerateCorruptTail 0 (MkScanned 0 0 false).

(** [scanForOpen]: the next sequence number and the end of the valid data
    of the last segment. *)
Fixpoint scanForOpen (segments : list (Z * octets)) (maxRecord nextSeq : Z) : result frame_err (Z * nat) :=
  match segments with
  | [] => Ok (nextSeq, 0%nat)
  | (base, f) :: rest =>
      let last := match rest with [] => true | _ => false end in
      let! st := scanSegment base f maxRecord last in
      let nextSeq := if sawRecord st && (nextSeq <=? maxSeq st) then u64 (maxSeq st + 1) else nextSeq in
      match rest with
      | [] => Ok (nextSeq, validEnd st)
      | _ => scanForOpen rest maxRecord nextSeq
      end
  end.

(** ** Replay of one segment *)

Record RecordID := MkID { id_SegmentBase : Z; id_Offset : nat; id_Seq : Z }.
Record Cursor := MkCursor { c_SegmentBase : Z; c_Offset : nat; c_Seq : Z }.
Record WalRecord := MkRecord { rec_ID : RecordID; rec_Payload : octets }.

Definition CursorAfter (r : WalRecord) : Cursor :=
  MkCursor (id_SegmentBase (rec_ID r)) (id_Offset (rec_ID r) + frameHeaderSize + length (rec_Payload r))
    (u64 (id_Seq (rec_ID r) + 1)).

Section Replay.
(** The state and the errors of the callbacks: [fn] consumes a record,
    [peek], if given, decides whether to pass over one. *)
Context {A E : Type} (fn : A → WalRecord → Cursor → result E A) (peek : option (A → RecordID → Cursor → result E bool)).

Inductive replay_err := ReplayStopped (e : E) | ReplayCorrupt (e : frame_err).

(** The loop of [replayOpenSegment]; [limit] is [None] for [noLimit] and
    [stop] the end of the complete frames [peek] may see. *)
Fixpoint replay_loop (fuel : nat) (f : octets) (base from maxRecord : Z) (limit stop : option nat)
    (offset : nat) (a : A) : A * result replay_err unit :=
  match fuel with
  | O => (a, Ok tt)
  | S fuel =>
      if match limit with Some n => n <=? offset | None => false end%nat then (a, Ok tt) else
      match readHeader maxRecord (drop offset f) with
      | RdErr ErrZeroHeader =>
          (a, match limit with None => Ok tt | Some _ => Err (ReplayCorrupt ErrCorruptFrame) end)
      | RdErr e => (a, Err (ReplayCorrupt e))
      | RdEnd => (a, Ok tt)
      | RdOk h s =>
          let id := MkID base offset (h_seq h) in
          let next := MkCursor base (offset + frameHeaderSize + h_size h) (u64 (h_seq h + 1)) in
          let skip :=
            if h_seq h <? from then Ok (Some true)
            else match peek with
                 | None => Ok (Some false)
                 | Some pk =>
                     if match stop with Some n => n <? c_Offset next | None => false end%nat then Ok None
                     else match pk a id next with Ok b => Ok (Some b) | Err e => Err e end
                 end in
          match skip with
          | Err e => (a, Err (ReplayStopped e))
          | Ok None => (a, Ok tt)
          | Ok (Some true) =>
              match skipPayload h s with
              | RdErr e => (a, Err (ReplayCorrupt e))
              | RdEnd => (a, Ok tt)
              | RdOk _ _ => replay_loop fuel f base from maxRecord limit stop (c_Offset next) a
              end
          | Ok (Some false) =>
              match readPayload h s with
              | RdErr e => (a, Err (ReplayCorrupt e))
              | RdEnd => (a, Ok tt)
              | RdOk payload _ =>
                  match fn a (MkRecord id payload) next with
                  | Err e => (a, Err (ReplayStopped e))
                  | Ok a => replay_loop fuel f base from maxRecord limit stop (c_Offset next) a
                  end
              end
          end
      end
  end.

Definition replayOpenSegment (base : Z) (f : octets) (from : Z) (offset : nat) (limit : option nat)
    (maxRecord : Z) (a : A) : A * result replay_err unit :=
  let stop := match peek, limit with Some _, None => Some (length f) | _, _ => limit end in
  replay_loop (S (length f)) f base from maxRecord limit stop offset a.

(** ** Replay of a directory *)

Definition cursorOffset (base : Z) (c : Cursor) : nat :=
  if decide (c_SegmentBase c = base ∧ 0 < c_Offset c)%nat then c_Offset c else 0.

(** [next] is the base of the segment after this one, if any. *)
Definition shouldSkipSegment (base : Z) (next : option Z) (c : Cursor) : bool :=
  ((0 <? c_SegmentBase c) && (base <? c_SegmentBase c)) ||
  match next with Some b => b <=? c_Seq c | None => false end.

(** The loop over the listed segments; [active] is the active segment and
    its synced size when the log is open. *)
Fixpoint replay_segments (segments : list (Z * octets)) (active : option (Z * nat)) (maxRecord : Z)
    (c : Cursor) (a : A) : A * result replay_err unit :=
  match segments with
  | [] => (a, Ok tt)
  | (base, f) :: rest =>
      if match active with Some (b, _) => b <? base | None => false end then (a, Ok tt)
      else if shouldSkipSegment base (fst <$> head rest) c then replay_segments rest active maxRecord c a
      else
        let limit := match active with
                     | Some (b, durable) => if decide (base = b) then Some durable else None
                     | None => None
                     end in
        match replayOpenSegment base f (c_Seq c) (cursorOffset base c) limit maxRecord a with
        | (a, Ok _) => replay_segments rest active maxRecord c a
        | (a, Err e) => (a, Err e)
        end
  end.

End Replay.
