(* ===== verification/WalScan.v ===== *)
(** * Reading frames back

    The codec's round trip, the end of a truncated file, the checksum taken
    while skipping, and what the scan and the replay make of a run of
    frames. *)

From S2P Require Import Prelude Octets WalFrame.

#[local] Arguments put_be : simpl never.
#[local] Arguments crc32 : simpl never.
#[global] Arguments frame : simpl never.

Create HintDb len.
#[export] Hint Rewrite @length_app @length_take @length_drop @length_cons @length_nil @length_replicate length_put_be : len.
Ltac len := autorewrite with len in *; try lia.

(** ** One frame *)

Definition payload_ok (m : Z) (p : octets) : Prop := (0 < length p)%nat ∧ blen p <= m.

Lemma length_frame s p : length (frame s p) = (frameHeaderSize + length p)%nat.
Proof. unfold frame, frameHeaderSize. len. Qed.

(** The header of a frame, field by field. *)
Definition header_bytes (s : Z) (p : octets) : octets :=
  put_be 4 frameMagic ++ put_be 4 (blen p) ++ put_be 8 s ++ put_be 4 (crc32 p).

Lemma frame_header s p : frame s p = header_bytes s p ++ p.
Proof. unfold frame, header_bytes. by rewrite <-!app_assoc. Qed.

Lemma length_header s p : length (header_bytes s p) = frameHeaderSize.
Proof. unfold header_bytes, frameHeaderSize. len. Qed.

Lemma field_app a b c from n :
  length a = from → length b = n → field from n (a ++ b ++ c) = get_be b.
Proof. intros <- Hb. unfold field. rewrite drop_app_length, take_app_length'; done. Qed.

Lemma header_fields s p :
  0 <= s < two64 → blen p < 2 ^ 32 →
  field 0 4 (header_bytes s p) = frameMagic ∧ field 4 4 (header_bytes s p) = blen p ∧
  field 8 8 (header_bytes s p) = s ∧ field 16 4 (header_bytes s p) = crc32 p.
Proof.
  intros Hs Hp. unfold header_bytes, blen in *. split_and!.
  - etrans; [exact (field_app [] (put_be 4 frameMagic) _ 0 4 eq_refl (length_put_be _ _))|]. by apply get_put_be.
  - erewrite field_app by apply length_put_be. apply get_put_be. lia.
  - rewrite app_assoc. erewrite field_app by len. apply get_put_be. unfold two64 in Hs. lia.
  - rewrite !app_assoc. rewrite <-(app_nil_r (put_be 4 (crc32 p))).
    erewrite field_app by len. apply get_put_be, crc32_range.
Qed.

Lemma header_not_zero s p : header_bytes s p ≠ zero_bytes frameHeaderSize.
Proof. intros H. apply (f_equal (λ l, head l)) in H. vm_compute in H. discriminate. Qed.

Lemma parse_header_frame m s p :
  0 <= s < two64 → payload_ok m p → m < 2 ^ 32 →
  parse_header m (header_bytes s p) = inl (MkHeader s (length p) (crc32 p)).
Proof.
  intros Hs [Hp0 Hpm] Hm. destruct (header_fields s p Hs) as (F0 & F1 & F2 & F3); [lia|].
  unfold parse_header. rewrite decide_False by apply header_not_zero. rewrite F0, F1, F2, F3.
  rewrite decide_False by congruence. rewrite decide_False by (unfold blen; lia).
  rewrite (proj2 (Z.ltb_ge _ _)) by lia. unfold blen. by rewrite Nat2Z.id.
Qed.

Lemma readHeader_frame m s p r :
  0 <= s < two64 → payload_ok m p → m < 2 ^ 32 →
  readHeader m (frame s p ++ r) = RdOk (MkHeader s (length p) (crc32 p)) (p ++ r).
Proof.
  intros Hs Hp Hm. unfold readHeader. rewrite frame_header, <-app_assoc.
  rewrite decide_False by (rewrite length_app, length_header; lia).
  rewrite take_app_length' by by rewrite length_header.
  rewrite drop_app_length' by by rewrite length_header. by rewrite parse_header_frame.
Qed.

(** The codec's round trip, whatever follows. *)
Lemma readFrame_frame m s p r :
  0 <= s < two64 → payload_ok m p → m < 2 ^ 32 → readFrame m (frame s p ++ r) = RdOk (s, p) r.
Proof.
  intros Hs Hp Hm. unfold readFrame. rewrite readHeader_frame by done. unfold readPayload. cbn [h_size h_seq h_crc].
  rewrite decide_False by len. rewrite take_app_length, drop_app_length. by rewrite decide_True.
Qed.

(** A frame cut short reads as the end of the data. *)
Lemma readFrame_cut m s p k :
  0 <= s < two64 → payload_ok m p → m < 2 ^ 32 → (k < length (frame s p))%nat →
  readFrame m (take k (frame s p)) = RdEnd.
Proof.
  intros Hs Hp Hm Hk. rewrite length_frame in Hk. unfold readFrame, readHeader.
  destruct (decide (length (take k (frame s p)) < frameHeaderSize)%nat) as [|Hlen]; [done|].
  rewrite length_take, length_frame in Hlen. rewrite frame_header.
  rewrite take_app, length_header, (take_ge (header_bytes s p)) by (rewrite length_header; lia).
  rewrite take_app_length' by by rewrite length_header.
  rewrite drop_app_length' by by rewrite length_header. rewrite parse_header_frame by done.
  unfold readPayload. cbn [h_size]. by rewrite decide_True by len.
Qed.

Lemma readFrame_nil m : readFrame m [] = RdEnd.
Proof. done. Qed.

(** ** Skipping verifies what reading verifies *)

Lemma skip_loop_spec fuel left sum crc s :
  (left < fuel)%nat → 0 <= sum < 2 ^ 32 →
  skip_loop fuel left sum crc s =
    if decide (length s < left)%nat then RdEnd
    else if decide (crc_update sum (take left s) = crc) then RdOk tt (drop left s) else RdErr ErrCorruptFrame.
Proof.
  revert left sum s. induction fuel as [|fuel IH]; intros left sum s Hf Hs; [lia|]. cbn [skip_loop].
  destruct (decide (left = 0%nat)) as [-> |Hl].
  { rewrite (decide_False (P := (length s < 0)%nat)) by lia. rewrite take_0, drop_0.
    unfold crc_update, crc_update_tab. cbn [foldl]. by rewrite not32_not32. }
  set (want := Nat.min left replayReadBufferSize).
  assert (0 < replayReadBufferSize)%nat by (unfold replayReadBufferSize; lia).
  destruct (decide (length s < want)%nat) as [Hshort|Hlong].
  - rewrite (decide_True (P := (_ ∧ _))) by len. by rewrite decide_True by lia.
  - rewrite (decide_False (P := (_ ∧ _))) by len. rewrite length_take, (Nat.min_l want) by lia.
    rewrite IH by (lia || apply u32_range). rewrite length_drop.
    destruct (decide (length s < left)%nat) as [Hls|Hls]; [by rewrite decide_True by lia|].
    rewrite decide_False by lia. rewrite <-crc_update_app, take_take_drop, drop_drop.
    replace (want + (left - want))%nat with left by lia. done.
Qed.

(** [skipPayload], which checksums a record chunk by chunk through the read
    buffer without keeping it, accepts, refuses and consumes exactly
    what [readPayload] does. *)
Lemma skipPayload_verifies h s :
  skipPayload h s = match readPayload h s with
                    | RdOk _ rest => RdOk tt rest
                    | RdEnd => RdEnd
                    | RdErr e => RdErr e
                    end.
Proof.
  unfold skipPayload, readPayload. rewrite skip_loop_spec by lia. unfold crc32. by repeat case_decide.
Qed.

(** ** Runs of frames *)

(** The frames of consecutive records, and the records they hold. *)
Fixpoint frames (s : Z) (ps : list octets) : octets :=
  match ps with [] => [] | p :: ps => frame s p ++ frames (s + 1) ps end.

Fixpoint numbered (s : Z) (ps : list octets) : list (Z * octets) :=
  match ps with [] => [] | p :: ps => (s, p) :: numbered (s + 1) ps end.

(** The valid frames a file starts with. *)
Fixpoint parse (fuel : nat) (m : Z) (f : octets) : list (Z * octets) :=
  match fuel with
  | O => []
  | S fuel => match readFrame m f with RdOk r rest => r :: parse fuel m rest | _ => [] end
  end.

Definition records (m : Z) (f : octets) : list (Z * octets) := parse (S (length f)) m f.

Definition rsize (r : Z * octets) : nat := (frameHeaderSize + length r.2)%nat.
Definition rsizes (rs : list (Z * octets)) : nat := sum_list (rsize <$> rs).

Lemma frames_app s a b : frames s (a ++ b) = frames s a ++ frames (s + Z.of_nat (length a)) b.
Proof.
  revert s. induction a as [|p a IH]; intros s; simpl; [by rewrite Z.add_0_r|].
  rewrite IH, <-app_assoc. by replace (s + Z.of_nat (S (length a))) with (s + 1 + Z.of_nat (length a)) by lia.
Qed.

Lemma numbered_app s a b : numbered s (a ++ b) = numbered s a ++ numbered (s + Z.of_nat (length a)) b.
Proof.
  revert s. induction a as [|p a IH]; intros s; simpl; [by rewrite Z.add_0_r|].
  rewrite IH. by replace (s + Z.of_nat (S (length a))) with (s + 1 + Z.of_nat (length a)) by lia.
Qed.

Lemma numbered_lookup s ps i : numbered s ps !! i = (λ p, (s + Z.of_nat i, p)) <$> ps !! i.
Proof.
  revert s i. induction ps as [|p ps IH]; intros s [|i]; simpl; [done..|by rewrite Z.add_0_r|].
  rewrite IH. destruct (ps !! i); simpl; [|done]. do 2 f_equal. lia.
Qed.

Lemma length_numbered s ps : length (numbered s ps) = length ps.
Proof. revert s. induction ps; simpl; congruence. Qed.

Lemma elem_of_numbered s ps r :
  r ∈ numbered s ps ↔ s <= r.1 ∧ ps !! Z.to_nat (r.1 - s) = Some r.2.
Proof.
  rewrite list_elem_of_lookup. destruct r as [q p]. cbn [fst snd]. split.
  - intros [i Hi]. rewrite numbered_lookup in Hi. apply fmap_Some in Hi as (p' & Hp & [= -> ->]).
    split; [lia|]. rewrite <-Hp. f_equal. lia.
  - intros [Hs Hp]. exists (Z.to_nat (q - s)). rewrite numbered_lookup, Hp. simpl. do 2 f_equal. lia.
Qed.

Lemma rsizes_cons r rs : rsizes (r :: rs) = (rsize r + rsizes rs)%nat.
Proof. done. Qed.

Lemma rsizes_app a b : rsizes (a ++ b) = (rsizes a + rsizes b)%nat.
Proof. induction a as [|r a IH]; [done|]. rewrite <-app_comm_cons, !rsizes_cons, IH. lia. Qed.

Lemma rsizes_numbered s ps : rsizes (numbered s ps) = length (frames s ps).
Proof.
  revert s. induction ps as [|p ps IH]; intros s; [done|]. cbn [numbered frames].
  by rewrite rsizes_cons, IH, length_app, length_frame.
Qed.

Lemma length_frames_ge s ps : (length ps <= length (frames s ps))%nat.
Proof.
  revert s. induction ps as [|p ps IH]; intros s; [done|]. cbn [frames length]. rewrite length_app, length_frame.
  specialize (IH (s + 1)). unfold frameHeaderSize. lia.
Qed.

(** A frame that was read is what it was read from. *)
Lemma readFrame_ok m f q p rest :
  readFrame m f = RdOk (q, p) rest →
  f = take (rsize (q, p)) f ++ rest ∧ length (take (rsize (q, p)) f) = rsize (q, p) ∧ payload_ok m p.
Proof.
  unfold readFrame, readHeader. destruct (decide _) as [|Hl]; [done|].
  destruct (parse_header m (take frameHeaderSize f)) as [h|] eqn:Hh; [|done].
  unfold readPayload. destruct (decide _) as [|Hs]; [done|]. destruct (decide _) as [Hc|]; [|done].
  intros [= <- <- <-]. rewrite length_drop in Hs. rewrite drop_drop. unfold rsize. cbn [snd].
  assert (0 < Z.of_nat (h_size h) <= m) as Hm.
  { unfold parse_header in Hh. repeat case_decide; try done. case_match eqn:E; [done|].
    injection Hh as <-. cbn [h_size]. apply Z.ltb_ge in E.
    pose proof (get_be_nonneg (take 4 (drop 4 (take frameHeaderSize f)))) as Hn.
    fold (field 4 4 (take frameHeaderSize f)) in Hn. lia. }
  rewrite length_take_le by len. split_and!; [by rewrite take_drop|len|split; unfold blen; len].
Qed.

Lemma parse_fuel m f n1 n2 : (length f < n1)%nat → (length f < n2)%nat → parse n1 m f = parse n2 m f.
Proof.
  revert n2 f. induction n1 as [|n1 IH]; intros [|n2] f H1 H2; [lia..|]. cbn [parse].
  destruct (readFrame m f) as [[q p] rest| |] eqn:Hr; [|done..]. f_equal.
  apply readFrame_ok in Hr as (Hf & Hl & _). apply (f_equal length) in Hf. rewrite length_app, Hl in Hf.
  unfold rsize, frameHeaderSize in Hf. apply IH; lia.
Qed.

Lemma records_cons m f r rest : readFrame m f = RdOk r rest → records m f = r :: records m rest.
Proof.
  intros Hr. assert (records m f = r :: parse (length f) m rest) as ->.
  { unfold records. cbn [parse]. by rewrite Hr. }
  f_equal. destruct r as [q p].
  apply readFrame_ok in Hr as (Hf & Hl & _). apply (f_equal length) in Hf. rewrite length_app, Hl in Hf.
  unfold rsize, frameHeaderSize in Hf. apply parse_fuel; lia.
Qed.

Lemma records_stop m f : (∀ r rest, readFrame m f ≠ RdOk r rest) → records m f = [].
Proof. intros H. unfold records. cbn [parse]. destruct (readFrame m f) as [r rest| |] eqn:E; [|done..]. by destruct (H r rest). Qed.

(** Sequence numbers a run of [n] records starting at [s] can carry. *)
Definition seqs_ok (s : Z) (n : nat) : Prop := 0 <= s ∧ s + Z.of_nat n <= two64.

Lemma records_frames m s ps r :
  m < 2 ^ 32 → Forall (payload_ok m) ps → seqs_ok s (length ps) →
  records m (frames s ps ++ r) = numbered s ps ++ records m r.
Proof.
  intros Hm. revert s. induction ps as [|p ps IH]; intros s Hps [Hs0 Hs1]; [done|].
  apply Forall_cons in Hps as [Hp Hps]. cbn [frames numbered length] in *. rewrite <-app_assoc.
  erewrite records_cons by (apply readFrame_frame; done || lia). cbn [app]. f_equal. apply IH; [done|]. split; lia.
Qed.

(** What a reader finds in a file is the file's beginning. *)
Lemma records_length m f : (rsizes (records m f) <= length f)%nat.
Proof.
  remember (length f) as n eqn:Hn. revert f Hn. induction n as [n IH] using lt_wf_ind. intros f ->.
  destruct (readFrame m f) as [[q p] rest| |] eqn:Hr; [|rewrite records_stop; [cbn; lia|congruence]..].
  rewrite (records_cons m f _ _ Hr), rsizes_cons.
  apply readFrame_ok in Hr as (Hf & Hl & _). apply (f_equal length) in Hf. rewrite length_app, Hl in Hf.
  unfold rsize, frameHeaderSize in *. cbn [snd] in *. specialize (IH (length rest) ltac:(lia) rest eq_refl). lia.
Qed.

Lemma readFrame_rest m f q p rest : readFrame m f = RdOk (q, p) rest → rest = drop (rsize (q, p)) f.
Proof.
  intros (Hf & Hl & _)%readFrame_ok. rewrite Hf at 1. by rewrite drop_app_length' by done.
Qed.

(** ** The scan finds the records *)

Definition last_seq (a : Z) (rs : list (Z * octets)) : Z := foldl (λ x r, Z.max x r.1) a rs.

Definition scan_result (st : scanned) (rs : list (Z * octets)) : scanned :=
  MkScanned (validEnd st + rsizes rs) (last_seq (maxSeq st) rs) (sawRecord st || negb (bool_decide (rs = []))).

Lemma scan_result_cons st q p rs off :
  validEnd st = off →
  scan_result (MkScanned (off + frameHeaderSize + length p) (Z.max (maxSeq st) q) true) rs
  = scan_result st ((q, p) :: rs).
Proof.
  intros <-. unfold scan_result. cbn [validEnd maxSeq sawRecord]. rewrite rsizes_cons. f_equal.
  - unfold rsize. cbn [snd]. lia.
  - rewrite (bool_decide_eq_false_2 ((q, p) :: rs = [])) by done. by rewrite orb_true_r.
Qed.

Lemma scan_loop_records fuel f base m tol off st :
  (length f - off < fuel)%nat → validEnd st = off → (off <= length f)%nat →
  let rs := records m (drop off f) in
  let r := drop (off + rsizes rs) f in
  (∀ st', scan_loop fuel f base m tol off st = Ok st' → st' = scan_result st rs)
  ∧ (readFrame m r = RdEnd → scan_loop fuel f base m tol off st = Ok (scan_result st rs)).
Proof.
  revert off st. induction fuel as [|fuel IH]; intros off st Hf Hv Ho rs r; [lia|]. cbn [scan_loop].
  assert (records m (drop off f) = [] → scan_result st rs = st) as Hst0.
  { intros H0. unfold rs, scan_result. rewrite H0. destruct st. cbn. by rewrite Nat.add_0_r, orb_false_r. }
  destruct (readFrame m (drop off f)) as [[q p] rest| |e] eqn:Hr.
  - pose proof (readFrame_rest _ _ _ _ _ Hr) as ->. pose proof (readFrame_ok _ _ _ _ _ Hr) as (_ & Hl & _).
    rewrite length_take, length_drop in Hl. unfold r, rs. rewrite (records_cons _ _ _ _ Hr), rsizes_cons, drop_drop.
    unfold rsize in *. cbn [snd] in *. assert (frameHeaderSize = 20%nat) as H20 by done.
    destruct (IH (off + frameHeaderSize + length p)%nat (MkScanned (off + frameHeaderSize + length p) (Z.max (maxSeq st) q) true))
      as [IH1 IH2]; [lia|done|lia|].
    rewrite (scan_result_cons st q p _ off Hv) in IH1, IH2.
    replace (off + (frameHeaderSize + length p))%nat with (off + frameHeaderSize + length p)%nat by lia.
    split; [exact IH1|]. intros Hend. apply IH2. rewrite <-Hend. do 2 f_equal. lia.
  - assert (records m (drop off f) = []) as H0 by (apply records_stop; congruence).
    rewrite (Hst0 H0). split; [by intros ? [= <-]|done].
  - assert (records m (drop off f) = []) as H0 by (apply records_stop; congruence).
    rewrite (Hst0 H0). split.
    + intros st'. repeat case_match; intros [=]; congruence.
    + unfold r, rs. rewrite H0, Nat.add_0_r, Hr. done.
Qed.

Definition scan_of (rs : list (Z * octets)) : scanned :=
  MkScanned (rsizes rs) (last_seq 0 rs) (negb (bool_decide (rs = []))).

(** Whatever the scan accepts, it is the records the file starts with. *)
Lemma scanSegment_ok base f m tol st : scanSegment base f m tol = Ok st → st = scan_of (records m f).
Proof.
  intros H. unfold scanSegment in H.
  destruct (scan_loop_records (S (length f)) f base m tol 0 (MkScanned 0 0 false)) as [H1 _]; [lia|done|lia|].
  rewrite drop_0 in H1. by apply H1.
Qed.

(** A file that ends after its records, cleanly or in a cut frame, is
    accepted. *)
Lemma scanSegment_end base f m tol :
  readFrame m (drop (rsizes (records m f)) f) = RdEnd → scanSegment base f m tol = Ok (scan_of (records m f)).
Proof.
  intros H. unfold scanSegment.
  destruct (scan_loop_records (S (length f)) f base m tol 0 (MkScanned 0 0 false)) as [_ H2]; [lia|done|lia|].
  rewrite drop_0 in H2. by apply H2.
Qed.

Lemma last_seq_numbered a s ps :
  a <= s → ps ≠ [] → last_seq a (numbered s ps) = s + Z.of_nat (length ps) - 1.
Proof.
  revert a s. induction ps as [|p ps IH]; intros a s Ha Hne; [done|]. unfold last_seq in *. cbn [numbered foldl fst length].
  destruct ps as [|p' ps]; [cbn; lia|]. rewrite IH by (done || lia). cbn [length]. lia.
Qed.

(** ** A run of frames cut anywhere *)

Lemma frames_cut m s ps k :
  m < 2 ^ 32 → Forall (payload_ok m) ps → seqs_ok s (length ps) →
  ∃ n, (n <= length ps)%nat ∧ records m (take k (frames s ps)) = numbered s (take n ps)
    ∧ readFrame m (drop (length (frames s (take n ps))) (take k (frames s ps))) = RdEnd
    ∧ take (length (frames s (take n ps))) (take k (frames s ps)) = frames s (take n ps)
    ∧ ∀ j, (j <= length ps)%nat → (length (frames s (take j ps)) <= k)%nat → (j <= n)%nat.
Proof.
  intros Hm. revert s k. induction ps as [|p ps IH]; intros s k Hps Hs.
  { exists 0%nat. cbn [frames take numbered length]. rewrite take_nil, drop_nil.
    split_and!; [lia|done|done|done|intros j ? _; lia]. }
  apply Forall_cons in Hps as [Hp Hps]. destruct Hs as [Hs0 Hs1]. cbn [length] in Hs1. cbn [frames].
  destruct (decide (k < length (frame s p))%nat) as [Hk|Hk].
  - exists 0%nat. assert (readFrame m (take k (frame s p)) = RdEnd) as Hcut by (apply readFrame_cut; done || lia).
    rewrite take_app_le by lia. cbn [take frames numbered length]. rewrite drop_0, take_0.
    split_and!; [lia|by apply records_stop; congruence|done|done|].
    intros [|j] _ Hj; [lia|]. cbn [take frames] in Hj. rewrite length_app in Hj. lia.
  - destruct (IH (s + 1) (k - length (frame s p))%nat Hps) as (n & Hn & Hrec & Hend & Hpre & Hmax); [split; lia|].
    exists (S n). rewrite take_app_ge by lia. cbn [take frames numbered length].
    assert (length (frame s p ++ frames (s + 1) (take n ps)) = length (frame s p) + length (frames (s + 1) (take n ps)))%nat as Hl
      by by rewrite length_app.
    split_and!; [lia| | | |].
    + erewrite records_cons by (apply readFrame_frame; done || lia). by rewrite Hrec.
    + rewrite Hl, <-drop_drop, drop_app_length. done.
    + rewrite Hl, take_app_add, Hpre. done.
    + intros [|j] Hj1 Hj2; [lia|]. cbn [take frames] in Hj2. rewrite length_app in Hj2. cbn [length] in Hj1.
      specialize (Hmax j ltac:(lia) ltac:(lia)). lia.
Qed.

(** ** Zeros hold no record *)

Lemma records_zeros m n r : (frameHeaderSize <= n)%nat → records m (zero_bytes n ++ r) = [].
Proof.
  intros Hn. apply records_stop. intros x rest. unfold readFrame, readHeader, zero_bytes.
  rewrite decide_False by len. rewrite take_app_le by len. rewrite take_replicate, Nat.min_l by lia.
  unfold parse_header. by rewrite decide_True.
Qed.

(** ** The records of a prefix *)

Lemma readFrame_take m f r rest k :
  readFrame m f = RdOk r rest → (rsize r <= k)%nat → readFrame m (take k f) = RdOk r (take (k - rsize r) rest).
Proof.
  destruct r as [q p]. unfold readFrame, readHeader, rsize. cbn [snd].
  destruct (decide (length f < _)%nat) as [|Hl]; [done|].
  destruct (parse_header m (take frameHeaderSize f)) as [h|] eqn:Hh; [|done].
  unfold readPayload. destruct (decide _) as [|Hs]; [done|]. destruct (decide _) as [Hc|]; [|done].
  intros [= <- <- <-] Hk. rewrite length_drop in Hs. rewrite length_take, length_drop, Nat.min_l in Hk by lia.
  rewrite decide_False by len. rewrite take_take, Nat.min_l, Hh by lia.
  rewrite skipn_firstn_comm. rewrite decide_False by len. rewrite take_take, Nat.min_l by lia.
  rewrite decide_True by done. rewrite skipn_firstn_comm. f_equal. rewrite length_take, length_drop, Nat.min_l by lia.
  f_equal. lia.
Qed.

Lemma records_take m f : records m (take (rsizes (records m f)) f) = records m f.
Proof.
  remember (length f) as n eqn:Hn. revert f Hn. induction n as [n IH] using lt_wf_ind. intros f ->.
  destruct (readFrame m f) as [[q p] rest| |] eqn:Hr; [|rewrite (records_stop m f) by congruence; done..].
  rewrite (records_cons m f _ _ Hr), rsizes_cons.
  assert (length rest < length f)%nat as Hlt.
  { apply readFrame_ok in Hr as (Hf & Hl & _). apply (f_equal length) in Hf. rewrite length_app, Hl in Hf.
    unfold rsize, frameHeaderSize in Hf. lia. }
  erewrite records_cons by (eapply readFrame_take; [exact Hr|lia]). f_equal.
  replace (rsize (q, p) + rsizes (records m rest) - rsize (q, p))%nat with (rsizes (records m rest)) by lia.
  by apply (IH (length rest)).
Qed.
