(* ===== verification/Wal.v ===== *)
(** * The write-ahead log

    [internal/persistence/wal]: the state of an open log, staging
    ([append.go]), group commit ([sync.go]), segment rolls and preparation
    ([append.go], [prealloc.go]), compaction ([compact.go]) and [Open]
    ([wal.go]).  A file is what a reader sees of it and what a power loss
    leaves of it; operations take the outcomes of the system calls they
    make.  The flusher runs concurrently with appends, so a flush is three
    steps: it detaches the buffer under [mu], writes and syncs it under
    [fileOps] alone, and reports under [mu] again. *)

From S2P Require Import Prelude Octets WalFrame.

(** ** Options *)

Record Options := MkOptions {
  SegmentBytes : Z;
  MaxRecord : Z;
  CompactRotateBytes : Z;
  Prealloc : bool;  (** [SegmentPrealloc.enabled]. *)
  preparedWriteLimit : Z;
}.

Definition defaultSegmentBytes : Z := 64 * 2 ^ 20.
Definition defaultMaxRecord : Z := 16 * 2 ^ 20.
Definition defaultCompactRotateBytes : Z := 2 ^ 20.
Definition defaultPreparedWriteLimit : Z := 16 * 2 ^ 20.

Definition normalizeOptions (o : Options) : Options :=
  MkOptions (if SegmentBytes o <=? 0 then defaultSegmentBytes else SegmentBytes o)
    (if MaxRecord o <=? 0 then defaultMaxRecord else MaxRecord o)
    (if CompactRotateBytes o <=? 0 then defaultCompactRotateBytes else CompactRotateBytes o)
    (Prealloc o)
    (if preparedWriteLimit o <=? 0 then defaultPreparedWriteLimit else preparedWriteLimit o).

(** ** State *)

(** What readers see, and what is known to be on the device. *)
Record file := File { cur : octets; syn : octets }.

(** The segments of a directory by base, as [listSegments] returns them. *)
Abbreviation dir := (gmap Z file).

(** A flush under way; [f_done] is its outcome once the I/O is over. *)
Record flight := Flight {
  f_base : Z;
  f_end : Z;
  f_buffer : octets;
  f_batch : option nat;
  f_limit : Z;
  f_done : option bool;
}.

(** A [CompactBefore] between its snapshot and its listing. *)
Record compaction := Compaction { cp_seq : Z; cp_active : Z; cp_floor : Z }.

Record Log := MkLog {
  opts : Options;
  disk : dir;
  removed : dir;              (** names removed, not known to be gone from the device *)
  fpos : nat;                 (** the active handle's file offset *)
  open : bool;                (** [file != nil] *)
  dead : bool;                (** the active handle was closed by a failed roll *)
  segmentBase : Z;
  segmentSize : Z;
  nextSeq : Z;
  writeBuffer : octets;
  pending : option nat;
  closed : bool;
  syncErr : bool;
  writeFailed : bool;
  compactFloor : Z;
  durableSize : Z;
  activePrepared : bool;
  prepRequested : bool;
  preparing : bool;           (** [prepareSpare] is running *)
  spareReady : bool;
  flying : option flight;
  compacting : option compaction;
  outcomes : gmap nat bool;   (** completed batches and whether they succeeded *)
  nextBatch : nat;
  handed : octets;            (** the bytes handed to the active segment's file *)
}.

Definition set_disk d l := MkLog (opts l) d (removed l) (fpos l) (open l) (dead l) (segmentBase l) (segmentSize l) (nextSeq l)
  (writeBuffer l) (pending l) (closed l) (syncErr l) (writeFailed l) (compactFloor l) (durableSize l) (activePrepared l)
  (prepRequested l) (preparing l) (spareReady l) (flying l) (compacting l) (outcomes l) (nextBatch l) (handed l).
Definition set_io d p w h l := MkLog (opts l) d (removed l) p (open l) (dead l) (segmentBase l) (segmentSize l) (nextSeq l)
  (writeBuffer l) (pending l) (closed l) (syncErr l) w (compactFloor l) (durableSize l) (activePrepared l)
  (prepRequested l) (preparing l) (spareReady l) (flying l) (compacting l) (outcomes l) (nextBatch l) h.
Definition set_staged buf pend size seq l := MkLog (opts l) (disk l) (removed l) (fpos l) (open l) (dead l) (segmentBase l) size seq
  buf pend (closed l) (syncErr l) (writeFailed l) (compactFloor l) (durableSize l) (activePrepared l)
  (prepRequested l) (preparing l) (spareReady l) (flying l) (compacting l) (outcomes l) (nextBatch l) (handed l).
Definition set_flags cl er du l := MkLog (opts l) (disk l) (removed l) (fpos l) (open l) (dead l) (segmentBase l) (segmentSize l) (nextSeq l)
  (writeBuffer l) (pending l) cl er (writeFailed l) (compactFloor l) du (activePrepared l)
  (prepRequested l) (preparing l) (spareReady l) (flying l) (compacting l) (outcomes l) (nextBatch l) (handed l).
Definition set_prep rq pr rd l := MkLog (opts l) (disk l) (removed l) (fpos l) (open l) (dead l) (segmentBase l) (segmentSize l) (nextSeq l)
  (writeBuffer l) (pending l) (closed l) (syncErr l) (writeFailed l) (compactFloor l) (durableSize l) (activePrepared l)
  rq pr rd (flying l) (compacting l) (outcomes l) (nextBatch l) (handed l).
Definition set_flying fl oc l := MkLog (opts l) (disk l) (removed l) (fpos l) (open l) (dead l) (segmentBase l) (segmentSize l) (nextSeq l)
  (writeBuffer l) (pending l) (closed l) (syncErr l) (writeFailed l) (compactFloor l) (durableSize l) (activePrepared l)
  (prepRequested l) (preparing l) (spareReady l) fl (compacting l) oc (nextBatch l) (handed l).
Definition set_batches nb l := MkLog (opts l) (disk l) (removed l) (fpos l) (open l) (dead l) (segmentBase l) (segmentSize l) (nextSeq l)
  (writeBuffer l) (pending l) (closed l) (syncErr l) (writeFailed l) (compactFloor l) (durableSize l) (activePrepared l)
  (prepRequested l) (preparing l) (spareReady l) (flying l) (compacting l) (outcomes l) nb (handed l).
Definition set_compact d rm fl cp l := MkLog (opts l) d rm (fpos l) (open l) (dead l) (segmentBase l) (segmentSize l) (nextSeq l)
  (writeBuffer l) (pending l) (closed l) (syncErr l) (writeFailed l) fl (durableSize l) (activePrepared l)
  (prepRequested l) (preparing l) (spareReady l) (flying l) cp (outcomes l) (nextBatch l) (handed l).
Definition set_prepared ap dd l := MkLog (opts l) (disk l) (removed l) (fpos l) (open l) dd (segmentBase l) (segmentSize l) (nextSeq l)
  (writeBuffer l) (pending l) (closed l) (syncErr l) (writeFailed l) (compactFloor l) (durableSize l) ap
  (prepRequested l) (preparing l) (spareReady l) (flying l) (compacting l) (outcomes l) (nextBatch l) (handed l).
Definition set_open o l := MkLog (opts l) (disk l) (removed l) (fpos l) o (dead l) (segmentBase l) (segmentSize l) (nextSeq l)
  (writeBuffer l) (pending l) (closed l) (syncErr l) (writeFailed l) (compactFloor l) (durableSize l) (activePrepared l)
  (prepRequested l) (preparing l) (spareReady l) (flying l) (compacting l) (outcomes l) (nextBatch l) (handed l).

(** [listSegments]: sorted by base. *)
Definition by_base (a b : Z * file) : Prop := a.1 <= b.1.
#[global] Instance by_base_dec a b : Decision (by_base a b).
Proof. unfold by_base. apply _. Defined.
Definition listSegments (d : dir) : list (Z * file) := merge_sort by_base (map_to_list d).

(** [completeBatch]. *)
Definition completeBatch (b : option nat) (ok : bool) (oc : gmap nat bool) : gmap nat bool :=
  match b with Some b => <[b := ok]> oc | None => oc end.

(** ** Writing *)

(** The outcome of writing and syncing one run: [k] bytes of it reached the
    file when the write failed. *)
Inductive io := IoOk | IoWriteFails (k : nat) | IoSyncFails.

(** [frameRunEnd]'s loop over the staged frames. *)
Fixpoint run_end (fuel : nat) (buffer : octets) (limit : Z) (stop : nat) : nat :=
  match fuel with
  | O => stop
  | S fuel =>
      if decide (stop + frameHeaderSize <= length buffer)%nat then
        let next := (stop + frameHeaderSize + Z.to_nat (field (stop + 4) 4 buffer))%nat in
        if decide ((0 < stop)%nat ∧ limit < Z.of_nat next) then stop else run_end fuel buffer limit next
      else stop
  end.

Definition frameRunEnd (buffer : octets) (limit : Z) : nat :=
  let stop := run_end (S (length buffer)) buffer limit 0 in
  if decide (stop = 0 ∨ length buffer < stop)%nat then length buffer else stop.

Definition next_run (buffer : octets) (limit : Z) : octets :=
  if (0 <? limit) && (limit <? blen buffer) then take (frameRunEnd buffer limit) buffer else buffer.

(** Bytes written at a position of a file, over what was there. *)
Definition write_at (pos : nat) (data f : octets) : octets := take pos f ++ data ++ drop (pos + length data) f.

(** The loop of [writeAndSyncFileOps]: the file, the handle's offset and
    whether every run was written and synced.  A run is never empty, so
    there are at most as many as bytes. *)
Fixpoint write_runs (fuel : nat) (ios : list io) (f : file) (pos : nat) (buffer : octets) (limit : Z)
    : file * nat * bool :=
  match fuel, buffer with
  | S fuel, _ :: _ =>
      let run := next_run buffer limit in
      match head ios with
      | Some (IoWriteFails k) =>
          (File (write_at pos (take k run) (cur f)) (syn f), (pos + length (take k run))%nat, false)
      | Some IoSyncFails => (File (write_at pos run (cur f)) (syn f), (pos + length run)%nat, false)
      | _ =>
          let c := write_at pos run (cur f) in
          write_runs fuel (tail ios) (File c c) (pos + length run) (drop (length run) buffer) limit
      end
  | _, _ => (f, pos, true)
  end.

(** [writeAndSyncFileOps] on the active segment. *)
Definition writeAndSync (ios : list io) (buffer : octets) (limit : Z) (l : Log) : Log * bool :=
  if writeFailed l then (l, false) else
  if dead l then (set_io (disk l) (fpos l) true (handed l) l, false) else
  match disk l !! segmentBase l with
  | None => (set_io (disk l) (fpos l) true (handed l) l, false)
  | Some f =>
      let '(f, pos, ok) := write_runs (length buffer) ios f (fpos l) buffer limit in
      (set_io (<[segmentBase l := f]> (disk l)) pos (negb ok) (handed l ++ buffer) l, ok)
  end.

Definition writeLimit (l : Log) : Z := if activePrepared l then preparedWriteLimit (opts l) else 0.

(** Whether nobody holds [fileOps]: a flush holds it while its I/O runs. *)
Definition fileOps_free (l : Log) : bool :=
  match flying l with Some fl => match f_done fl with None => false | Some _ => true end | None => true end.

(** [syncLocked] with the completion of its batch. *)
Definition syncLocked (ios : list io) (l : Log) : Log * bool :=
  match writeBuffer l with
  | [] => (l, true)
  | buffer =>
      let batch := pending l in
      let '(l, ok) := writeAndSync ios buffer (writeLimit l) l in
      let l := set_staged [] None (segmentSize l) (nextSeq l) l in
      let l := if ok then set_flags (closed l) (syncErr l) (segmentSize l) l
               else set_flags (closed l) true (durableSize l) l in
      (set_flying (flying l) (completeBatch batch ok (outcomes l)) l, ok)
  end.

(** ** Rolling *)

(** How far a roll gets.  [left] says whether a file the roll had created
    could not be removed again. *)
Inductive roll_io :=
| RollOk (renamed : bool)
| RollTrimFails
| RollTrimSyncFails
| RollCreateFails
| RollOpenFails (left : bool)
| RollDirSyncFails (left : bool)
| RollCloseFails (left : bool).

(** A prepared file: zeros and the trailer, synced. *)
Definition prepared_file (o : Options) : octets :=
  appendPrepTrailer (zero_bytes (Z.to_nat (SegmentBytes o))) (preparedWriteLimit o).

(** [createSegmentLocked] and the directory sync: the new file, whether it
    is prepared, or [None] with the leftover of a failure. *)
Definition roll_created (usePrepared : bool) (rio : roll_io) (l : Log) : Log * option (octets * bool) :=
  let taken := match disk l !! nextSeq l with Some _ => true | None => false end in
  let spare := usePrepared && spareReady l in
  let l := if spare then set_prep (prepRequested l) (preparing l) false l else l in
  let renamed := spare && negb taken && match rio with RollOk r => r | _ => true end in
  let content := if renamed then prepared_file (opts l) else [] in
  let leave (keep : bool) := if keep then set_disk (<[nextSeq l := File content content]> (disk l)) l else l in
  if taken then (l, None)
  else match rio with
       | RollCreateFails => (l, None)
       | RollOpenFails keep => if renamed then (leave keep, None) else (l, None)
       | RollDirSyncFails keep => (leave keep, None)
       | RollCloseFails keep => (set_prepared (activePrepared l) true (leave keep), None)
       | _ => (l, Some (content, renamed))
       end.

(** The trim of a prepared segment before it is sealed. *)
Definition roll_trimmed (rio : roll_io) (l : Log) : Log * bool :=
  if activePrepared l then
    match disk l !! segmentBase l with
    | None => (l, false)
    | Some f =>
        let c := take (Z.to_nat (segmentSize l)) (cur f) in
        match rio with
        | RollTrimFails => (l, false)
        | RollTrimSyncFails => (set_disk (<[segmentBase l := File c (syn f)]> (disk l)) l, false)
        | _ => (set_prepared false (dead l) (set_disk (<[segmentBase l := File c c]> (disk l)) l), true)
        end
    end
  else (l, true).

Definition rollLocked (usePrepared : bool) (rio : roll_io) (l : Log) : Log * bool :=
  if writeFailed l then (set_flags (closed l) true (durableSize l) l, false) else
  match roll_trimmed rio l with
  | (l, false) => (l, false)
  | (l, true) =>
      match roll_created usePrepared rio l with
      | (l, None) => (l, false)
      | (l, Some (content, prepared)) =>
          (MkLog (opts l) (<[nextSeq l := File content content]> (disk l)) (removed l) 0 (open l) (dead l)
             (nextSeq l) 0 (nextSeq l) (writeBuffer l) (pending l) (closed l) (syncErr l) (writeFailed l)
             0 0 prepared false (preparing l) (spareReady l) (flying l) (compacting l) (outcomes l)
             (nextBatch l) [], true)
      end
  end.

(** The sync and the roll before a frame that would overflow the segment. *)
Definition sync_and_roll (ios : list io) (rio : roll_io) (usePrepared : bool) (l : Log) : Log * bool :=
  match syncLocked ios l with
  | (l, false) => (l, false)
  | (l, true) => rollLocked usePrepared rio l
  end.

(** ** Appending *)

Inductive append_err := ErrNotAppendable | ErrEmptyPayload | ErrTooLarge | ErrSyncOrRoll | ErrFill | ErrNoRecords.

Definition appendable (l : Log) : bool := negb (closed l) && negb (syncErr l) && open l.

(** One record to append: its size, what its [fill] produces, and the
    outcomes of the sync and the roll it may need. *)
Record item := Item { it_size : nat; it_fill : option octets; it_ios : list io; it_roll : roll_io }.

Definition overflows (size : nat) (l : Log) : bool :=
  (0 <? segmentSize l) && (SegmentBytes (opts l) <? segmentSize l + Z.of_nat (frameHeaderSize + size)).

Definition requestPrep (l : Log) : Log :=
  if negb (Prealloc (opts l)) || prepRequested l || (segmentSize l <? Z.quot (SegmentBytes (opts l)) 2) then l
  else set_prep true (preparing l) (spareReady l) l.

(** [l.pending], created on first use. *)
Definition with_batch (l : Log) : Log :=
  match pending l with
  | Some _ => l
  | None => set_batches (S (nextBatch l))
              (set_staged (writeBuffer l) (Some (nextBatch l)) (segmentSize l) (nextSeq l) l)
  end.

(** Staging after any roll: the record's id, or the log unchanged but for
    the batch. *)
Definition stage_record (it : item) (l : Log) : Log * option RecordID :=
  let l := with_batch l in
  let id := MkID (segmentBase l) (Z.to_nat (segmentSize l)) (nextSeq l) in
  match appendFrameWith (writeBuffer l) (nextSeq l) (it_size it) (it_fill it) with
  | None => (l, None)
  | Some buffer =>
      (requestPrep (set_staged buffer (pending l) (segmentSize l + Z.of_nat (frameHeaderSize + it_size it))
                      (u64 (nextSeq l + 1)) l), Some id)
  end.

(** What happened to the log's records: [EvPut] stages one, [EvAccepted]
    reports it to the caller with the batch that decides its fate,
    [EvCompact] asks for the records below a sequence number to go. *)
Inductive wal_event :=
| EvPut (seq : Z) (payload : octets)
| EvAccepted (id : RecordID) (payload : octets) (batch : nat)
| EvCompact (seq : Z).

(** The size checks of [Append], [AppendWith] and [AppendManyWith]. *)
Definition size_err (o : Options) (size : nat) : option append_err :=
  if decide (size = 0)%nat then Some ErrEmptyPayload
  else if MaxRecord o <? Z.of_nat size then Some ErrTooLarge else None.

Definition sizes_err (o : Options) (items : list item) : option append_err :=
  head (omap (λ it, size_err o (it_size it)) items).

(** [stagedMark]. *)
Record stagedMark := MkMark { mk_buffered : nat; mk_size : Z; mk_seq : Z; mk_pending : option nat }.

Definition markLocked (l : Log) : stagedMark :=
  MkMark (length (writeBuffer l)) (segmentSize l) (nextSeq l) (pending l).

Definition withdrawLocked (m : stagedMark) (l : Log) : Log :=
  set_staged (take (mk_buffered m) (writeBuffer l)) (mk_pending m) (mk_size m) (mk_seq m) l.

(** One round of [appendManyLocked]'s loop, and the body of
    [appendLocked]: the log, the mark, the id of the record staged and the
    events.  [None] while the round waits for [fileOps]. *)
Definition stage_one (it : item) (l : Log) (m : stagedMark)
    : option (Log * stagedMark * result append_err RecordID * list wal_event) :=
  if overflows (it_size it) l && negb (fileOps_free l) then None else
  let '(l, m, ready) :=
    if overflows (it_size it) l then
      let '(l, ok) := sync_and_roll (it_ios it) (it_roll it) true l in (l, markLocked l, ok)
    else (l, m, true) in
  if ready : bool then
    match stage_record it l with
    | (l, Some id) => Some (l, m, Ok id, [EvPut (id_Seq id) (default [] (it_fill it))])
    | (l, None) => Some (l, m, Err ErrFill, [])
    end
  else Some (l, m, Err ErrSyncOrRoll, []).

Fixpoint stage_many (items : list item) (l : Log) (m : stagedMark) (ids : list (RecordID * octets))
    (evs : list wal_event) : option (Log * result append_err (list (RecordID * octets)) * list wal_event) :=
  match items with
  | [] => Some (l, Ok ids, evs)
  | it :: items =>
      match stage_one it l m with
      | None => None
      | Some (l, m, Err e, evs') => Some (withdrawLocked m l, Err e, evs ++ evs')
      | Some (l, m, Ok id, evs') => stage_many items l m (ids ++ [(id, default [] (it_fill it))]) (evs ++ evs')
      end
  end.

(** The records accepted, with the batch of the last. *)
Definition accepted (l : Log) (ids : list (RecordID * octets)) : list wal_event :=
  match pending l with
  | Some b => (λ ip, EvAccepted ip.1 ip.2 b) <$> ids
  | None => []
  end.

(** [AppendManyWith] up to its wait ([stageMany], [appendManyLocked]). *)
Definition AppendManyWith (items : list item) (l : Log)
    : option (Log * result append_err (list (RecordID * octets)) * list wal_event) :=
  match items with
  | [] => Some (l, Err ErrNoRecords, [])
  | _ =>
      match sizes_err (opts l) items with
      | Some e => Some (l, Err e, [])
      | None =>
          if negb (appendable l) then Some (l, Err ErrNotAppendable, [])
          else match stage_many items l (markLocked l) [] [] with
               | None => None
               | Some (l, Ok ids, evs) => Some (l, Ok ids, evs ++ accepted l ids)
               | Some (l, Err e, evs) => Some (l, Err e, evs)
               end
      end
  end.

(** [AppendWith] up to its wait ([stage], [appendLocked]). *)
Definition AppendWith (it : item) (l : Log)
    : option (Log * result append_err RecordID * list wal_event) :=
  match size_err (opts l) (it_size it) with
  | Some e => Some (l, Err e, [])
  | None =>
      if negb (appendable l) then Some (l, Err ErrNotAppendable, [])
      else match stage_one it l (markLocked l) with
           | None => None
           | Some (l, _, Ok id, evs) => Some (l, Ok id, evs ++ accepted l [(id, default [] (it_fill it))])
           | Some (l, _, Err e, evs) => Some (l, Err e, evs)
           end
  end.

(** [Append] up to its wait. *)
Definition Append (payload : octets) (ios : list io) (rio : roll_io) (l : Log) :=
  AppendWith (Item (length payload) (Some payload) ios rio) l.

(** ** Flushing *)

(** [flushSync] until it holds [fileOps] alone; a flusher has one flush at a
    time. *)
Definition flush_detach (l : Log) : option Log :=
  match flying l with
  | Some _ => None
  | None =>
      match writeBuffer l with
      | [] => Some l
      | buffer =>
          let fl := Flight (segmentBase l) (segmentSize l) buffer (pending l) (writeLimit l)
                      (if open l then None else Some false) in
          Some (set_flying (Some fl) (outcomes l) (set_staged [] None (segmentSize l) (nextSeq l) l))
      end
  end.

Definition flush_io (ios : list io) (l : Log) : option Log :=
  match flying l with
  | Some fl =>
      match f_done fl with
      | Some _ => None
      | None =>
          let '(l, ok) := writeAndSync ios (f_buffer fl) (f_limit fl) l in
          Some (set_flying (Some (Flight (f_base fl) (f_end fl) (f_buffer fl) (f_batch fl) (f_limit fl) (Some ok)))
                  (outcomes l) l)
      end
  | None => None
  end.

(** The rest of [flushSync], with [flushed]. *)
Definition flush_finish (l : Log) : option Log :=
  match flying l with
  | Some fl =>
      match f_done fl with
      | None => None
      | Some true =>
          let du := if bool_decide (segmentBase l = f_base fl) && (durableSize l <? f_end fl) then f_end fl else durableSize l in
          Some (set_flying None (completeBatch (f_batch fl) true (outcomes l)) (set_flags (closed l) (syncErr l) du l))
      | Some false =>
          let oc := completeBatch (f_batch fl) false (completeBatch (pending l) false (outcomes l)) in
          Some (set_flying None oc (set_staged [] None (segmentSize l) (nextSeq l) (set_flags (closed l) true (durableSize l) l)))
      end
  | None => None
  end.

(** ** Preparing *)

(** [prepLoop] deciding to prepare, and the end of [prepareSpare]. *)
Definition prep_start (l : Log) : option Log :=
  if Prealloc (opts l) && prepRequested l && negb (spareReady l) && negb (closed l) && negb (syncErr l) && negb (preparing l)
  then Some (set_prep (prepRequested l) true (spareReady l) l) else None.

Definition prep_finish (ok : bool) (l : Log) : option Log :=
  if preparing l then Some (set_prep (prepRequested l) false (spareReady l || ok) l) else None.

(** ** Compacting *)

(** [rotateFullyCompacted]. *)
Definition rotateFullyCompacted (seq : Z) (ios : list io) (rio : roll_io) (l : Log) : option (Log * bool) :=
  if closed l || syncErr l || negb (open l) then Some (l, true)
  else if (seq <? nextSeq l) || (segmentSize l <? CompactRotateBytes (opts l)) then Some (l, true)
  else if negb (fileOps_free l) then None
  else Some (sync_and_roll ios rio false l).

(** [CompactBefore] up to its snapshot of the active segment and the
    floor. *)
Definition compact_start (seq : Z) (ios : list io) (rio : roll_io) (l : Log) : option (Log * list wal_event) :=
  match compacting l with
  | Some _ => None
  | None =>
      match rotateFullyCompacted seq ios rio l with
      | None => None
      | Some (l, false) => Some (l, [EvCompact seq])
      | Some (l, true) =>
          if seq <? compactFloor l then Some (l, [EvCompact seq])
          else Some (set_compact (disk l) (removed l) (compactFloor l)
                       (Some (Compaction seq (segmentBase l) (compactFloor l))) l, [EvCompact seq])
      end
  end.

(** The listing loop: what is kept, what is removed, and whether a removal
    failed ([oks] are the outcomes of [os.Remove]). *)
Fixpoint compact_loop (segments : list (Z * file)) (cp : compaction) (oks : list bool)
    : list (Z * file) * list (Z * file) * bool :=
  match segments with
  | [] => ([], [], true)
  | s :: rest =>
      let keep :=
        bool_decide (s.1 = cp_active cp) ||
        match head rest with Some n => cp_seq cp <? n.1 | None => true end in
      if keep then let '(ks, rs, ok) := compact_loop rest cp oks in (s :: ks, rs, ok)
      else match head oks with
           | Some false => ([], [], false)
           | _ => let '(ks, rs, ok) := compact_loop rest cp (tail oks) in (ks, s :: rs, ok)
           end
  end.

Definition max_uint64 : Z := two64 - 1.

(** The floor the listing leaves. *)
Fixpoint next_floor (kept : list (Z * file)) (active : Z) : Z :=
  match kept with
  | [] => max_uint64
  | s :: rest =>
      if decide (s.1 = active) then next_floor rest active
      else match head rest with Some n => n.1 | None => max_uint64 end
  end.

Definition compact_finish (oks : list bool) (l : Log) : option Log :=
  match compacting l with
  | None => None
  | Some cp =>
      let '(kept, gone, ok) := compact_loop (listSegments (disk l)) cp oks in
      let d := foldr (λ s, delete s.1) (disk l) gone in
      let rm := foldr (λ s, <[s.1 := s.2]>) (removed l) gone in
      let floor := if ok && (compactFloor l =? cp_floor cp) then next_floor kept (cp_active cp) else compactFloor l in
      Some (set_compact d rm floor None l)
  end.

(** [FirstSeq]. *)
Definition FirstSeq (l : Log) : Z :=
  match listSegments (disk l) with [] => nextSeq l | s :: _ => s.1 end.

(** ** Closing *)

Definition close_begin (l : Log) : option Log := Some (set_flags true (syncErr l) (durableSize l) l).

(** After the last flush. *)
Definition close_file (l : Log) : option Log :=
  if closed l then
    match flying l, writeBuffer l with None, [] => Some (set_open false l) | _, _ => None end
  else None.

(** ** Opening *)

(** [Open] on the segments of a directory.  [nb] is the first batch
    identity not in use. *)
Definition Open (o : Options) (d : dir) (oc : gmap nat bool) (nb : nat) : result frame_err Log :=
  let o := normalizeOptions o in
  let d := if decide (d = ∅) then {[0 := File [] []]} else d in
  let segments := listSegments d in
  let! r := scanForOpen ((λ s, (s.1, cur s.2)) <$> segments) (MaxRecord o) 0 in
  let '(seq, validEnd) := r in
  match last segments with
  | None => Err ErrCorruptFrame
  | Some (base, f) =>
      let c := take validEnd (cur f) in
      Ok (MkLog o (<[base := File c c]> d) ∅ validEnd true false base (Z.of_nat validEnd)
            (if seq <? base then base else seq) [] None false false false 0 (Z.of_nat validEnd)
            false false false false None None oc nb c)
  end.

(** ** Replaying *)

Definition contents (d : dir) : list (Z * octets) := (λ s, (s.1, cur s.2)) <$> listSegments d.

(** The package function [ReplayFromCursor], on a log that is not open. *)
Definition ReplayFromCursor {A E} (d : dir) (c : Cursor) (maxRecord : Z) (fn : A → WalRecord → Cursor → result E A) (a : A) :=
  replay_segments fn None (contents d) None (if maxRecord <=? 0 then defaultMaxRecord else maxRecord) c a.

(** [Log.ReplayFromCursorPeek]: the active segment alone when the cursor is
    in it, else every segment up to it, read to its synced size. *)
Definition Log_ReplayFromCursorPeek {A E} (l : Log) (c : Cursor) (peek : option (A → RecordID → Cursor → result E bool))
    (fn : A → WalRecord → Cursor → result E A) (a : A) :=
  let active := segmentBase l in
  let durable := Z.to_nat (durableSize l) in
  let m := MaxRecord (opts l) in
  match (if decide (c_SegmentBase c = active) then disk l !! active else None) with
  | Some f => replayOpenSegment fn peek active (cur f) (c_Seq c) (cursorOffset active c) (Some durable) m a
  | None => replay_segments fn peek (contents (disk l)) (Some (active, durable)) m c a
  end.
