(* ===== verification/WalRun.v ===== *)
(** * Runs of the write-ahead log

    The interleavings of a log's operations, what a crash or a power loss
    leaves of its directory, and the states a log reaches over any number of
    lives.  The sync loop, the preparer, the compaction and the appending
    goroutines are steps in any order; an operation that waits for
    [fileOps] is not enabled while a flush holds it. *)

From S2P Require Import Prelude Octets WalFrame WalScan Wal.

Inductive wal_op :=
| OpAppend (it : item)
| OpAppendMany (items : list item)
| OpFlushDetach
| OpFlushIO (ios : list io)
| OpFlushFinish
| OpPrepStart
| OpPrepFinish (ok : bool)
| OpCompact (seq : Z) (ios : list io) (rio : roll_io)
| OpCompactFinish (oks : list bool)
| OpClose
| OpCloseFile.

Definition silent (r : option Log) : option (Log * list wal_event) := (λ l, (l, [])) <$> r.

Definition exec (op : wal_op) (l : Log) : option (Log * list wal_event) :=
  match op with
  | OpAppend it => (λ r, (r.1.1, r.2)) <$> AppendWith it l
  | OpAppendMany items => (λ r, (r.1.1, r.2)) <$> AppendManyWith items l
  | OpFlushDetach => silent (flush_detach l)
  | OpFlushIO ios => silent (flush_io ios l)
  | OpFlushFinish => silent (flush_finish l)
  | OpPrepStart => silent (prep_start l)
  | OpPrepFinish ok => silent (prep_finish ok l)
  | OpCompact seq ios rio => compact_start seq ios rio l
  | OpCompactFinish oks => silent (compact_finish oks l)
  | OpClose => silent (close_begin l)
  | OpCloseFile => silent (close_file l)
  end.

(** A failed roll removes the file it created. *)
Definition roll_clean (rio : roll_io) : Prop :=
  match rio with
  | RollOpenFails keep | RollDirSyncFails keep | RollCloseFails keep => keep = false
  | _ => True
  end.

Definition op_items (op : wal_op) : list item :=
  match op with OpAppend it => [it] | OpAppendMany items => items | _ => [] end.

(** Failed rolls leave nothing behind and sequence numbers do not run out. *)
Definition op_ok (op : wal_op) (l : Log) : Prop :=
  Forall (λ it, roll_clean (it_roll it)) (op_items op)
  ∧ nextSeq l + Z.of_nat (length (op_items op)) < two64
  ∧ match op with OpCompact _ _ rio => roll_clean rio | _ => True end.

(** ** Crashes *)

(** What a power loss may leave of a file: at least the length that was
    certain, each byte as it was synced or as it was last written. *)
Record file_image (f : file) (c : octets) : Prop := {
  fi_long : (Nat.min (length (syn f)) (length (cur f)) <= length c)%nat;
  fi_bytes : ∀ i x, c !! i = Some x → cur f !! i = Some x ∨ syn f !! i = Some x;
}.

(** A roll may be under way: nothing is staged or in flight, and the
    segment is not empty. *)
Definition rolling (l : Log) : Prop :=
  writeBuffer l = [] ∧ fileOps_free l = true ∧ writeFailed l = false ∧ 0 < segmentSize l.

(** The active segment as a roll trims it. *)
Definition trimmed (l : Log) (f : file) : file := File (take (Z.to_nat (segmentSize l)) (cur f)) (syn f).

Definition segment_image (l : Log) (base : Z) (f : file) (c : octets) : Prop :=
  file_image f c ∨ base = segmentBase l ∧ rolling l ∧ file_image (trimmed l f) c.

(** A file a roll under way has created: empty, or the prepared spare. *)
Definition created (l : Log) (c : octets) : Prop := c = [] ∨ spareReady l = true ∧ c = prepared_file (opts l).

(** The directories a crash may leave.  Removed segments may come back; the
    segment a roll is creating may be there, the active one trimmed and
    synced by then.  In a prepared segment, whose pages a device may write in
    any order, the frames that check out are frames that were written. *)
Record crash (l : Log) (d : dir) : Prop := {
  cr_keeps : ∀ base f, disk l !! base = Some f →
    ∃ c, d !! base = Some (File c c) ∧ segment_image l base f c;
  cr_only : ∀ base g, d !! base = Some g →
    is_Some (disk l !! base)
    ∨ (∃ f, removed l !! base = Some f ∧ file_image f (cur g) ∧ syn g = cur g)
    ∨ (rolling l ∧ base = nextSeq l ∧ created l (cur g) ∧ syn g = cur g
       ∧ ∀ f, disk l !! segmentBase l = Some f → activePrepared l = true →
           d !! segmentBase l = Some (File (cur (trimmed l f)) (cur (trimmed l f))));
  cr_torn : activePrepared l = true → ∀ g, d !! segmentBase l = Some g →
    take (rsizes (records (MaxRecord (opts l)) (cur g))) (cur g) `prefix_of` handed l;
}.

(** ** Lives *)

Section Lives.
Context (o : Options).

(** A log, and what happened to its records since it was first opened. *)
Inductive reached : Log → list wal_event → Prop :=
| reached_open l : Open o ∅ ∅ 0 = Ok l → reached l []
| reached_exec l tr op l' evs :
    reached l tr → op_ok op l → exec op l = Some (l', evs) → reached l' (tr ++ evs)
| reached_crash l tr d l' :
    reached l tr → crash l d → Open o d (outcomes l) (nextBatch l) = Ok l' → reached l' tr.

End Lives.

(** ** Observations *)

(** The caller of an append was told that its record is durable. *)
Definition acked (l : Log) (tr : list wal_event) (seq : Z) (payload : octets) : Prop :=
  ∃ id b, EvAccepted id payload b ∈ tr ∧ id_Seq id = seq ∧ outcomes l !! b = Some true.

(** The records below were given up by a compaction. *)
Fixpoint cut (tr : list wal_event) : Z :=
  match tr with
  | [] => 0
  | EvCompact seq :: tr => Z.max seq (cut tr)
  | _ :: tr => cut tr
  end.

(** The records a replay from a sequence number delivers. *)
Definition collect (a : list (Z * octets)) (r : WalRecord) (_ : Cursor) : result unit (list (Z * octets)) :=
  Ok (a ++ [(id_Seq (rec_ID r), rec_Payload r)]).

Definition replay_from (l : Log) (seq : Z) := Log_ReplayFromCursorPeek l (MkCursor 0 0 seq) None collect [].
