(* ===== verification/WalInv.v ===== *)
(** * The write-ahead log's invariant

    All the records ever staged, in order, are a list whose indices are the
    sequence numbers.  A sealed segment holds the frames of a range of it;
    the active segment, the buffer in flight and the write buffer hold the
    rest.  [dur] is the number of records known to be on the device. *)

From S2P Require Import Prelude Octets WalFrame WalScan Wal WalRun.

(** ** Ranges of the record list *)

Definition slice (all : list octets) (a b : nat) : list octets := take (b - a) (drop a all).

Definition seg (all : list octets) (a b : nat) : octets := frames (Z.of_nat a) (slice all a b).

Lemma length_slice all a b : (b <= length all)%nat → length (slice all a b) = (b - a)%nat.
Proof. intros H. unfold slice. len. Qed.

Lemma slice_split all a b c : (a <= b <= c)%nat → slice all a c = slice all a b ++ slice all b c.
Proof.
  intros H. unfold slice. replace (c - a)%nat with ((b - a) + (c - b))%nat by lia.
  rewrite <-(take_drop (b - a) (take _ _)). rewrite take_take, skipn_firstn_comm, drop_drop.
  rewrite Nat.min_l by lia. do 2 f_equal; [lia|f_equal; lia].
Qed.

Lemma seg_split all a b c :
  (a <= b <= c)%nat → (b <= length all)%nat → seg all a c = seg all a b ++ seg all b c.
Proof.
  intros H Hb. unfold seg. rewrite (slice_split all a b c) by done. rewrite frames_app, length_slice by done.
  do 2 f_equal. lia.
Qed.

Lemma seg_nil all a : seg all a a = [].
Proof. unfold seg, slice. by rewrite Nat.sub_diag, take_0. Qed.

Lemma slice_app all x a b : (b <= length all)%nat → slice (all ++ x) a b = slice all a b.
Proof.
  intros H. unfold slice. destruct (decide (a <= length all)%nat).
  - rewrite drop_app_le by done. apply take_app_le. len.
  - replace (b - a)%nat with 0%nat by lia. done.
Qed.

Lemma seg_app all x a b : (b <= length all)%nat → seg (all ++ x) a b = seg all a b.
Proof. intros H. unfold seg. by rewrite slice_app. Qed.

Lemma slice_take all n a b : (b <= n)%nat → slice (take n all) a b = slice all a b.
Proof.
  intros H. unfold slice. rewrite skipn_firstn_comm, take_take. f_equal. lia.
Qed.

Lemma seg_take all n a b : (b <= n)%nat → seg (take n all) a b = seg all a b.
Proof. intros H. unfold seg. by rewrite slice_take. Qed.

Lemma seg_snoc all p a :
  (a <= length all)%nat →
  seg (all ++ [p]) a (S (length all)) = seg all a (length all) ++ frame (Z.of_nat (length all)) p.
Proof.
  intros Ha. rewrite (seg_split _ a (length all)) by (len || lia). rewrite seg_app by lia. f_equal.
  unfold seg, slice. rewrite drop_app_length. replace (S (length all) - length all)%nat with 1%nat by lia.
  cbn. by rewrite app_nil_r.
Qed.

Lemma seg_mono all a b c :
  (a <= b <= c)%nat → (b <= length all)%nat → (length (seg all a b) <= length (seg all a c))%nat.
Proof. intros H Hb. rewrite (seg_split all a b c) by done. len. Qed.

Lemma slice_lookup all a b i :
  slice all a b !! i = if decide (i < b - a)%nat then all !! (a + i)%nat else None.
Proof. unfold slice. case_decide; [by rewrite lookup_take_lt, lookup_drop|by rewrite lookup_take_ge by lia]. Qed.

Lemma slice_forall (P : octets → Prop) all a b : Forall P all → Forall P (slice all a b).
Proof. intros H. by apply Forall_take, Forall_drop. Qed.

(** ** Segments *)

(** A sealed segment: the whole of a non-empty range, synced. *)
Definition sealed (all : list octets) (x y : nat) (f : file) : Prop :=
  (x < y <= length all)%nat ∧ f = File (seg all x y) (seg all x y).

(** The segments other than the active one, on disk or removed, hold
    ranges that do not overlap the segments after them. *)
Definition segs_ok (all : list octets) (b : nat) (d rm : dir) : Prop :=
  ∀ base f, d !! base = Some f ∨ rm !! base = Some f → base = Z.of_nat b ∨
    ∃ x y, base = Z.of_nat x ∧ sealed all x y f ∧ (y <= b)%nat ∧
      ∀ base' g, d !! base' = Some g ∨ rm !! base' = Some g → base < base' → Z.of_nat y <= base'.

(** No record at or above [k] is missing from the sealed segments. *)
Definition covered (all : list octets) (k : Z) (b : nat) (d : dir) : Prop :=
  ∀ s, k <= Z.of_nat s → (s < b)%nat → ∃ x y f, d !! Z.of_nat x = Some f ∧ sealed all x y f ∧ (x <= s < y)%nat ∧ (y <= b)%nat.

(** The active segment's file: it starts with the durable records; when it
    is not prepared it holds a prefix of the records and nothing else. *)
Record active_ok (all : list octets) (b dur : nat) (prepared : bool) (f : file) : Prop := {
  ac_cur : seg all b dur `prefix_of` cur f;
  ac_syn : seg all b dur `prefix_of` syn f;
  ac_plain : prepared = false → ∃ j k, (j <= k <= length (seg all b (length all)))%nat ∧
    syn f = take j (seg all b (length all)) ∧ cur f = take k (seg all b (length all));
}.

(** The part of a flush not written yet. *)
Definition in_flight (fly : option flight) : octets :=
  match fly with Some fl => match f_done fl with None => f_buffer fl | Some _ => [] end | None => [] end.

Definition flight_batch (fly : option flight) : option nat := fl ← fly; f_batch fl.

(** While no write has failed, the file, the flush and the write buffer
    hold the records in order: the handle's offset, the unwritten part of
    the flush, the write buffer, the bytes handed over, and the file. *)
Record healthy (all : list octets) (b dur w : nat) (pos : nat) (fly buf hd : octets) (prepared : bool) (af : option file) : Prop := {
  he_le : (dur <= w <= length all)%nat;
  he_pos : pos = length (seg all b dur);
  he_fly : fly = seg all dur w;
  he_buf : buf = seg all w (length all);
  he_handed : hd = seg all b dur;
  he_plain : prepared = false → af = Some (File (seg all b dur) (seg all b dur));
}.

(** A flush: it went to the active segment or to one before it; unless it
    failed, its end is the end of a record, which is durable once it is
    done. *)
Record flight_ok (all : list octets) (b dur w : nat) (failed : bool) (fl : flight) : Prop := {
  fk_base : ∃ x, f_base fl = Z.of_nat x ∧ (x <= b)%nat;
  fk_end : f_base fl = Z.of_nat b → f_done fl ≠ Some false →
    ∃ x, (b <= x <= length all)%nat ∧ f_end fl = Z.of_nat (length (seg all b x)) ∧
      (f_done fl = Some true → (x <= dur)%nat) ∧ (f_done fl = None → failed = false → x = w);
  fk_active : f_done fl = None → f_base fl = Z.of_nat b;
}.

(** A record a caller was told about is where its batch says. *)
Record tag_ok (all : list octets) (dur w : nat) (failed : bool) (nb : nat) (oc : gmap nat bool) (fly : option flight)
    (pend : option nat) (s : nat) (p : octets) (bt : nat) : Prop := {
  tg_old : (bt < nb)%nat;
  tg_acked : oc !! bt = Some true → (s < dur)%nat ∧ all !! s = Some p;
  tg_fly : ∀ fl, fly = Some fl → f_batch fl = Some bt →
    all !! s = Some p ∧ (f_done fl = Some true → (s < dur)%nat) ∧ (f_done fl = None → failed = false → (s < w)%nat);
  tg_pending : pend = Some bt → all !! s = Some p;
}.

Record batches_ok (pend : option nat) (fly : option flight) (oc : gmap nat bool) (nb : nat) : Prop := {
  bk_pending : ∀ bt, pend = Some bt → (bt < nb)%nat ∧ oc !! bt = None ∧ flight_batch fly ≠ Some bt;
  bk_flight : ∀ bt, flight_batch fly = Some bt → (bt < nb)%nat ∧ oc !! bt = None;
  bk_old : ∀ bt, is_Some (oc !! bt) → (bt < nb)%nat;
}.

Record options_ok (o : Options) : Prop := {
  oo_max : 0 < MaxRecord o < 2 ^ 32;
  oo_seg : Z.of_nat frameHeaderSize <= SegmentBytes o;
  oo_rotate : 0 < CompactRotateBytes o;
}.

Record Inv (o : Options) (l : Log) (tr : list wal_event) (all : list octets) (b dur w : nat) : Prop := {
  iv_opts : opts l = o;
  iv_pay : Forall (payload_ok (MaxRecord o)) all;
  iv_room : Z.of_nat (length all) < two64;
  iv_le : (b <= dur <= length all)%nat;
  iv_base : segmentBase l = Z.of_nat b;
  iv_seq : nextSeq l = Z.of_nat (length all);
  iv_size : segmentSize l = Z.of_nat (length (seg all b (length all)));
  iv_file : ∃ f, disk l !! Z.of_nat b = Some f ∧ active_ok all b dur (activePrepared l) f;
  iv_gone : removed l !! Z.of_nat b = None;
  iv_healthy : writeFailed l = false →
    healthy all b dur w (fpos l) (in_flight (flying l)) (writeBuffer l) (handed l) (activePrepared l) (disk l !! Z.of_nat b);
  iv_handed : ∃ h, (dur <= h <= length all)%nat ∧ handed l = seg all b h;
  iv_durable : ∃ x, (b <= x <= dur)%nat ∧ durableSize l = Z.of_nat (length (seg all b x));
  iv_flight : ∀ fl, flying l = Some fl → flight_ok all b dur w (writeFailed l) fl;
  iv_closed : open l = false → writeBuffer l = [] ∧ flying l = None;
  iv_failed : (∃ fl, flying l = Some fl ∧ f_done fl = Some false) ∨ syncErr l = true → writeFailed l = true;
  iv_batches : batches_ok (pending l) (flying l) (outcomes l) (nextBatch l);
  iv_segs : segs_ok all b (disk l) (removed l);
  iv_covered : covered all (cut tr) b (disk l);
  iv_compact : ∀ cp, compacting l = Some cp → cp_seq cp <= cut tr;
  iv_put : ∀ s p, all !! s = Some p → EvPut (Z.of_nat s) p ∈ tr;
  iv_tags : ∀ id p bt, EvAccepted id p bt ∈ tr →
    ∃ s, id_Seq id = Z.of_nat s ∧ tag_ok all dur w (writeFailed l) (nextBatch l) (outcomes l) (flying l) (pending l) s p bt;
}.

(** ** What a step leaves alone *)

(** The file of a segment, on disk or removed. *)
Definition file_at (l : Log) (base : Z) (f : file) : Prop :=
  disk l !! base = Some f ∨ disk l !! base = None ∧ removed l !! base = Some f.

Lemma file_at_or l base f : file_at l base f → disk l !! base = Some f ∨ removed l !! base = Some f.
Proof. unfold file_at. tauto. Qed.

(** Within a life the durable records stay what and where they are: a
    sealed segment keeps its file, on disk or removed, and the active one
    what it holds durably, also once it is sealed. *)
Record evolves (l : Log) (all : list octets) (b dur : nat) (l' : Log) (all' : list octets) (b' dur' : nat) : Prop := {
  ev_keeps : take dur all `prefix_of` all';
  ev_dur : (dur <= dur')%nat;
  ev_sealed : ∀ base f, base ≠ Z.of_nat b → file_at l base f → file_at l' base f;
  ev_active : b' = b ∧ durableSize l <= durableSize l'
    ∨ (b < b')%nat ∧ ∃ f, file_at l' (Z.of_nat b) f ∧ seg all b dur `prefix_of` cur f;
}.

Lemma evolves_quiet l all b dur l' z :
  disk l' = disk l → removed l' = removed l → durableSize l' = durableSize l →
  evolves l all b dur l' (all ++ z) b dur.
Proof.
  intros Hd Hr Hs. split; [|done| |by left; rewrite Hs].
  - exists (drop dur all ++ z). by rewrite app_assoc, take_drop.
  - intros base f _. unfold file_at. by rewrite Hd, Hr.
Qed.

Lemma evolves_same l all b dur l' :
  disk l' = disk l → removed l' = removed l → durableSize l' = durableSize l → evolves l all b dur l' all b dur.
Proof. intros. rewrite <-(app_nil_r all) at 2. by apply evolves_quiet. Qed.

(** The active file changed, and more may be durable. *)
Lemma evolves_active l all b dur l' dur' :
  (∀ base, base ≠ Z.of_nat b → disk l' !! base = disk l !! base) → removed l' = removed l → durableSize l <= durableSize l' →
  (dur <= dur')%nat → evolves l all b dur l' all b dur'.
Proof.
  intros Hd Hr Hs Hdur. split; [exists (drop dur all); by rewrite take_drop|done| |by left].
  intros base g Hne. unfold file_at. by rewrite (Hd base Hne), Hr.
Qed.

Lemma evolves_trans o l tr all b dur w l' tr' all' b' dur' w' l'' all'' b'' dur'' :
  Inv o l tr all b dur w → Inv o l' tr' all' b' dur' w' →
  evolves l all b dur l' all' b' dur' → evolves l' all' b' dur' l'' all'' b'' dur'' → evolves l all b dur l'' all'' b'' dur''.
Proof.
  intros H H' [K1 D1 S1 A1] [K2 D2 S2 A2].
  pose proof (iv_le _ _ _ _ _ _ _ H) as Hle. pose proof (iv_le _ _ _ _ _ _ _ H') as Hle'.
  assert (take dur all = take dur all') as Hk.
  { destruct K1 as [r Hr]. rewrite Hr, take_app_le by len. by rewrite take_take, Nat.min_id. }
  assert (seg all b dur = seg all' b dur) as Hseg.
  { rewrite <-(seg_take all dur b dur), <-(seg_take all' dur b dur) by lia. by rewrite Hk. }
  split; [|lia|..].
  - etrans; [|exact K2]. rewrite Hk. exists (drop dur (take dur' all')).
    rewrite <-(take_drop dur (take dur' all')) at 1. by rewrite take_take, Nat.min_l by lia.
  - intros base f Hne Hf. apply S2, S1; [|done..]. intros ->.
    destruct (iv_segs _ _ _ _ _ _ _ H (Z.of_nat b') f (file_at_or _ _ _ Hf)) as [?|(x & y & ? & [? _] & ? & _)]; [done|]. destruct A1 as [[-> _]|[? _]]; [done|lia].
  - destruct A1 as [[-> Hs1]|(Hb & f & Hf & Hpre)].
    + destruct A2 as [[-> Hs2]|(Hb & f & Hf & Hpre)]; [left; split; [done|lia]|right; split; [done|]]. exists f. split; [done|].
      rewrite Hseg. etrans; [|exact Hpre]. rewrite (seg_split all' b dur dur') by lia. by eexists.
    + right. split; [destruct A2 as [[-> _]|[? _]]; lia|]. exists f. split; [|done]. apply S2; [lia|done].
Qed.

(** ** Steps that touch no record *)

Lemma inv_prep o l tr all b dur w rq pr rd :
  Inv o l tr all b dur w → Inv o (set_prep rq pr rd l) tr all b dur w.
Proof. intros []; by constructor. Qed.

Lemma inv_close o l tr all b dur w :
  Inv o l tr all b dur w → Inv o (set_flags true (syncErr l) (durableSize l) l) tr all b dur w.
Proof. intros []; by constructor. Qed.

Lemma inv_close_file o l tr all b dur w :
  Inv o l tr all b dur w → writeBuffer l = [] → flying l = None → Inv o (set_open false l) tr all b dur w.
Proof. intros [] ? ?; by constructor. Qed.

(** ** More records *)

Lemma sealed_app all z x y f : sealed all x y f → sealed (all ++ z) x y f.
Proof. intros [Hxy ->]. split; [len|]. by rewrite seg_app by lia. Qed.

Lemma segs_ok_app all z b d rm : segs_ok all b d rm → segs_ok (all ++ z) b d rm.
Proof.
  intros H base f Hf. destruct (H base f Hf) as [?|(x & y & ? & Hs & ? & ?)]; [by left|].
  right. exists x, y. split_and!; [done|by apply sealed_app|done..].
Qed.

Lemma covered_app all z k b d : covered all k b d → covered (all ++ z) k b d.
Proof.
  intros H s Hk Hs. destruct (H s Hk Hs) as (x & y & f & ? & ? & ? & ?). exists x, y, f.
  split_and!; [done|by apply sealed_app|lia..].
Qed.

Lemma active_ok_app all z b dur pr f :
  (b <= dur <= length all)%nat → active_ok all b dur pr f → active_ok (all ++ z) b dur pr f.
Proof.
  intros Hle [Hc Hs Hp]. split; [by rewrite seg_app by lia..|]. intros E. destruct (Hp E) as (j & k & ? & -> & ->).
  rewrite (seg_split (all ++ z) b (length all)) by len. rewrite seg_app by lia.
  exists j, k. rewrite !take_app_le by lia. split_and!; [lia|len|done..].
Qed.

Lemma healthy_app all z b dur w pos fly buf hd pr af :
  (b <= dur)%nat → healthy all b dur w pos fly buf hd pr af →
  healthy (all ++ z) b dur w pos fly (buf ++ seg (all ++ z) (length all) (length (all ++ z))) hd pr af.
Proof.
  intros Hb [Hle -> -> -> -> Hp]. split; [len|by rewrite seg_app by lia|by rewrite seg_app by lia| |by rewrite seg_app by lia|].
  - rewrite (seg_split (all ++ z) w (length all)) by len. by rewrite (seg_app all z w (length all)) by lia.
  - intros E. rewrite seg_app by lia. by apply Hp.
Qed.

Lemma flight_ok_app all z b dur w wf fl : (b <= dur <= length all)%nat → flight_ok all b dur w wf fl → flight_ok (all ++ z) b dur w wf fl.
Proof.
  intros Hle [H1 H2 H3]. split; [done| |done]. intros Hb Hd. destruct (H2 Hb Hd) as (x & ? & -> & ? & ?).
  exists x. rewrite seg_app by lia. split_and!; [lia|len|done..].
Qed.

Lemma tag_ok_app all z dur w wf nb oc fly pend s p bt :
  tag_ok all dur w wf nb oc fly pend s p bt → tag_ok (all ++ z) dur w wf nb oc fly pend s p bt.
Proof.
  intros [H1 H2 H3 H4]. split; [done|..].
  - intros Ho. destruct (H2 Ho) as [? Hl]. split; [done|]. by apply lookup_app_l_Some.
  - intros fl Hf Hb. destruct (H3 fl Hf Hb) as (Hl & ? & ?). split_and!; [by apply lookup_app_l_Some|done..].
  - intros Hp. by apply lookup_app_l_Some, H4.
Qed.

(** Events that are about no compaction. *)
Lemma cut_trace_app tr evs : cut (tr ++ evs) = Z.max (cut tr) (cut evs).
Proof.
  assert (∀ t, 0 <= cut t) as Hc by (induction t as [|[]]; simpl; lia).
  induction tr as [|e tr IH]; [cbn; specialize (Hc evs); lia|]. destruct e; cbn [app cut]; rewrite IH; lia.
Qed.

Lemma cut_silent tr evs : cut evs = 0 → cut (tr ++ evs) = cut tr.
Proof. intros H. rewrite cut_trace_app, H. pose proof (cut_trace_app tr []) as E. rewrite app_nil_r in E. cbn in E. lia. Qed.

(** A batch is opened. *)
Lemma inv_with_batch o l tr all b dur w :
  Inv o l tr all b dur w → open l = true → Inv o (with_batch l) tr all b dur w ∧ is_Some (pending (with_batch l)).
Proof.
  intros H Ho. unfold with_batch. destruct (pending l) as [bt|] eqn:Hp; [by rewrite Hp; eauto|]. split; [|by eexists].
  destruct H. constructor; try done; cbn.
  - destruct iv_batches0 as [B1 B2 B3]. split.
    + intros bt [= <-]. split_and!; [lia| |].
      * destruct (outcomes l !! nextBatch l) eqn:E; [|done]. specialize (B3 (nextBatch l) ltac:(by eexists)). lia.
      * intros E. apply B2 in E as [? _]. lia.
    + intros bt E. destruct (B2 bt E). split; [lia|done].
    + intros bt E. specialize (B3 bt E). lia.
  - intros id p bt E. destruct (iv_tags0 id p bt E) as (s & ? & [T1 T2 T3 T4]). exists s. split; [done|].
    split; [lia|done|done|]. intros [= <-]. lia.
Qed.

(** A record is staged. *)
Lemma inv_stage o l tr all b dur w p bt :
  Inv o l tr all b dur w → payload_ok (MaxRecord o) p → Z.of_nat (length all) + 1 < two64 → pending l = Some bt → open l = true →
  Inv o (set_staged (writeBuffer l ++ frame (nextSeq l) p) (Some bt)
           (segmentSize l + Z.of_nat (frameHeaderSize + length p)) (u64 (nextSeq l + 1)) l)
    (tr ++ [EvPut (nextSeq l) p]) (all ++ [p]) b dur w.
Proof.
  intros H Hp Hroom Hbt Ho. destruct H.
  assert (length (all ++ [p]) = S (length all)) as HN by len.
  assert (u64 (nextSeq l + 1) = Z.of_nat (S (length all))) as Hseq.
  { rewrite iv_seq0. unfold u64. rewrite Z.mod_small by lia. lia. }
  constructor; try done; cbn [set_staged opts disk removed fpos open segmentBase segmentSize nextSeq writeBuffer pending syncErr
    writeFailed durableSize activePrepared flying compacting outcomes nextBatch handed].
  - apply Forall_app. by rewrite Forall_singleton.
  - lia.
  - lia.
  - by rewrite Hseq, HN.
  - rewrite HN, seg_snoc, length_app, length_frame, iv_size0 by lia. lia.
  - destruct iv_file0 as (f & Hf & Ha). exists f. split; [done|]. by apply active_ok_app.
  - intros Hw. specialize (iv_healthy0 Hw).
    apply (healthy_app all [p]) in iv_healthy0; [|lia]. rewrite (HN : length (all ++ [p]) = _) in iv_healthy0.
    replace (seg (all ++ [p]) (length all) (S (length all))) with (frame (nextSeq l) p) in iv_healthy0; [done|].
    rewrite seg_snoc, seg_nil by lia. by rewrite iv_seq0.
  - destruct iv_handed0 as (h & ? & ->). exists h. split; [lia|]. by rewrite seg_app by lia.
  - destruct iv_durable0 as (x & ? & ->). exists x. split; [lia|]. by rewrite seg_app by lia.
  - intros fl Hfl. by apply flight_ok_app, iv_flight0.
  - congruence.
  - by rewrite <-Hbt.
  - by apply segs_ok_app.
  - rewrite cut_silent by done. by apply covered_app.
  - intros cp Hcp. rewrite cut_silent by done. by apply iv_compact0.
  - intros s q. rewrite lookup_app_Some. intros [Hs|[Hs Hq]].
    + apply elem_of_app. left. by apply iv_put0.
    + apply list_lookup_singleton_Some in Hq as [? <-]. apply elem_of_app. right. apply list_elem_of_singleton.
      rewrite iv_seq0. do 2 f_equal. lia.
  - intros id q bt' Hin. apply elem_of_app in Hin as [Hin|Hin]; [|by apply list_elem_of_singleton in Hin].
    destruct (iv_tags0 id q bt' Hin) as (s & ? & Ht). exists s. split; [done|]. rewrite <-Hbt. by apply tag_ok_app.
Qed.

(** The caller is told. *)
Lemma inv_accept o l tr all b dur w id p bt s :
  Inv o l tr all b dur w → pending l = Some bt → id_Seq id = Z.of_nat s → all !! s = Some p →
  Inv o l (tr ++ [EvAccepted id p bt]) all b dur w.
Proof.
  intros H Hp Hid Hs. destruct H. constructor; try done.
  - by rewrite cut_silent.
  - rewrite cut_silent; done.
  - intros q r Hq. apply elem_of_app. left. by apply iv_put0.
  - intros id' q bt' Hin. apply elem_of_app in Hin as [Hin|Hin]; [by apply iv_tags0|].
    apply list_elem_of_singleton in Hin as [= -> -> ->]. exists s. split; [done|].
    destruct (bk_pending _ _ _ _ iv_batches0 bt Hp) as (? & Ho & Hf). split; [done|congruence| |done].
    intros fl Hfl Hb. destruct Hf. rewrite Hfl. done.
Qed.

(** ** Writing *)

Lemma next_run_take buffer limit :
  buffer ≠ [] → ∃ n, (0 < n <= length buffer)%nat ∧ next_run buffer limit = take n buffer.
Proof.
  intros Hne. assert (0 < length buffer)%nat by (destruct buffer; [done|cbn; lia]). unfold next_run.
  case_match; [|exists (length buffer); split; [lia|by rewrite take_ge]].
  exists (frameRunEnd buffer limit). split; [|done]. unfold frameRunEnd. case_decide; lia.
Qed.

Lemma write_at_end A data : write_at (length A) data A = A ++ data.
Proof. unfold write_at. rewrite take_ge, drop_ge by lia. by rewrite app_nil_r. Qed.

Lemma write_at_prefix A data c : A `prefix_of` c → A ++ data `prefix_of` write_at (length A) data c.
Proof. intros [r ->]. unfold write_at. rewrite take_app_length, app_assoc. by eexists. Qed.

Lemma prefix_app_inv {A} (a b c : list A) : a ++ b `prefix_of` c → a `prefix_of` c.
Proof. intros [r ->]. rewrite <-app_assoc. by eexists. Qed.

(** Writing to a file that is all data: the data grows by the buffer, or by
    two prefixes of it, one synced and one not. *)
Lemma write_runs_plain fuel ios A buffer limit f pos ok :
  (length buffer <= fuel)%nat → write_runs fuel ios (File A A) (length A) buffer limit = (f, pos, ok) →
  if ok then f = File (A ++ buffer) (A ++ buffer) ∧ pos = length (A ++ buffer)
  else ∃ j k, (j <= k <= length buffer)%nat ∧ f = File (A ++ take k buffer) (A ++ take j buffer).
Proof.
  revert ios A buffer. induction fuel as [|fuel IH]; intros ios A buffer Hf.
  { destruct buffer; [|cbn in Hf; lia]. intros [= <- <- <-]. by rewrite app_nil_r. }
  destruct buffer as [|x buffer]; [intros [= <- <- <-]; by rewrite app_nil_r|].
  remember (x :: buffer) as buf eqn:Eb. assert (buf ≠ []) as Hne by by subst. 
  cbn [write_runs]. rewrite Eb at 1. destruct (next_run_take buf limit Hne) as (n & Hn & Hrun). cbn [cur syn].
  destruct (head ios) as [[|k|]|].
  2: { intros [= <- <- <-]. rewrite Hrun, take_take, write_at_end. exists 0%nat, (Nat.min k n).
       rewrite take_0, app_nil_r. split; [lia|done]. }
  2: { intros [= <- <- <-]. rewrite Hrun, write_at_end. exists 0%nat, n. rewrite take_0, app_nil_r. split; [lia|done]. }
  all: rewrite Hrun, write_at_end, length_take, Nat.min_l by lia; intros Hw;
    replace (length A + n)%nat with (length (A ++ take n buf)) in Hw by len;
    apply IH in Hw; [|len]; rewrite <-!app_assoc, take_drop in Hw; destruct ok; [done|];
    destruct Hw as (j & k & Hjk & ->); exists (n + j)%nat, (n + k)%nat; rewrite length_drop in Hjk;
    (split; [lia|]); rewrite <-!app_assoc, !take_take_drop; done.
Qed.

(** Writing over a prepared file keeps the data in front. *)
Lemma write_runs_prefix fuel ios A buffer limit f0 f pos ok :
  (length buffer <= fuel)%nat → A `prefix_of` cur f0 → A `prefix_of` syn f0 →
  write_runs fuel ios f0 (length A) buffer limit = (f, pos, ok) →
  if ok then A ++ buffer `prefix_of` cur f ∧ A ++ buffer `prefix_of` syn f ∧ pos = length (A ++ buffer)
  else A `prefix_of` cur f ∧ A `prefix_of` syn f.
Proof.
  revert ios A buffer f0. induction fuel as [|fuel IH]; intros ios A buffer f0 Hf Hc Hs.
  { destruct buffer; [|cbn in Hf; lia]. intros [= <- <- <-]. by rewrite app_nil_r. }
  destruct buffer as [|x buffer]; [intros [= <- <- <-]; by rewrite app_nil_r|].
  remember (x :: buffer) as buf eqn:Eb. assert (buf ≠ []) as Hne by by subst.
  cbn [write_runs]. rewrite Eb at 1. destruct (next_run_take buf limit Hne) as (n & Hn & Hrun). cbn [cur syn].
  destruct (head ios) as [[|k|]|].
  2, 3: intros [= <- <- <-]; split; [by eapply prefix_app_inv, write_at_prefix|done].
  all: intros Hw; rewrite Hrun in Hw; pose proof (write_at_prefix A (take n buf) (cur f0) Hc) as Hp;
    rewrite length_take, Nat.min_l in Hw by lia;
    replace (length A + n)%nat with (length (A ++ take n buf)) in Hw by len;
    apply IH in Hw; [|len|done|done]; rewrite <-!app_assoc, take_drop in Hw; destruct ok; [done|];
    destruct Hw; split; by eapply prefix_app_inv.
Qed.

(** A write to the active segment: what is handed over becomes durable, or
    the log is latched and no durable record is touched. *)
Lemma writeAndSync_spec o l tr all b dur w ios x limit l' ok :
  Inv o l tr all b dur w → writeFailed l = false → (dur <= x <= length all)%nat →
  writeAndSync ios (seg all dur x) limit l = (l', ok) →
  ∃ f pos hd, l' = set_io (<[segmentBase l := f]> (disk l)) pos (negb ok) hd l ∧
    active_ok all b (if ok then x else dur) (activePrepared l) f ∧
    if ok then pos = length (seg all b x) ∧ hd = seg all b x ∧
               (activePrepared l = false → f = File (seg all b x) (seg all b x))
    else ∃ h, (dur <= h <= length all)%nat ∧ hd = seg all b h.
Proof.
  intros H Hw Hx. destruct (iv_healthy _ _ _ _ _ _ _ H Hw) as [_ Hpos _ _ Hhd Hplain].
  pose proof (iv_le _ _ _ _ _ _ _ H) as Hle. destruct (iv_file _ _ _ _ _ _ _ H) as (f & Hf & Ha).
  unfold writeAndSync. rewrite Hw, (iv_base _ _ _ _ _ _ _ H), Hf. destruct (dead l).
  { intros [= <- <-]. exists f, (fpos l), (handed l). rewrite insert_id by done. split_and!; [done|done|].
    exists dur. split; [lia|done]. }
  destruct (write_runs _ _ _ _ _ _) as [[f' pos] ok'] eqn:Hr. intros [= <- <-].
  assert (seg all b dur ++ seg all dur x = seg all b x) as Hsplit by (symmetry; apply seg_split; lia).
  exists f', pos, (handed l ++ seg all dur x). split; [done|]. rewrite Hhd, Hsplit. rewrite Hpos in Hr.
  pose proof (write_runs_prefix _ _ (seg all b dur) _ _ _ _ _ _ ltac:(done) (ac_cur _ _ _ _ _ Ha) (ac_syn _ _ _ _ _ Ha) Hr) as Hp.
  rewrite Hsplit in Hp. destruct (activePrepared l) eqn:Eap.
  - destruct ok'.
    + destruct Hp as (? & ? & ->). split; [by split|]. by split_and!.
    + destruct Hp. split; [by split|]. exists x. split; [lia|done].
  - specialize (Hplain eq_refl). rewrite Hf in Hplain. injection Hplain as ->.
    pose proof (write_runs_plain _ _ (seg all b dur) _ _ _ _ _ ltac:(done) Hr) as Hq. rewrite Hsplit in Hq.
    assert (∀ n, (n <= length (seg all dur x))%nat →
      seg all b dur ++ take n (seg all dur x) = take (length (seg all b dur) + n) (seg all b (length all))) as Htk.
    { intros n Hn. rewrite (seg_split all b dur (length all)), take_app_add by lia.
      rewrite (seg_split all dur x (length all)) by lia. by rewrite take_app_le by done. }
    assert (length (seg all b x) <= length (seg all b (length all)))%nat by (apply seg_mono; lia).
    destruct ok'.
    + destruct Hq as [-> ->]. split; [|by split_and!]. split; [done..|]. intros _.
      exists (length (seg all b x)), (length (seg all b x)). cbn [syn cur].
      rewrite (seg_split all b x (length all)), take_app_length by lia. split_and!; [done|len|done..].
    + destruct Hq as (j & k & Hjk & ->). destruct Hp. split; [|exists x; split; [lia|done]]. split; [done..|]. intros _.
      exists (length (seg all b dur) + j)%nat, (length (seg all b dur) + k)%nat. cbn [syn cur].
      rewrite !Htk by lia. apply (f_equal length) in Hsplit. rewrite length_app in Hsplit. split_and!; [lia|lia|done..].
Qed.

Lemma seg_empty all a b : (a <= b <= length all)%nat → seg all a b = [] → a = b.
Proof.
  intros Hab H. pose proof (length_frames_ge (Z.of_nat a) (slice all a b)) as Hl. unfold seg in H. rewrite H in Hl.
  rewrite length_slice in Hl by lia. cbn in Hl. lia.
Qed.

(** ** The active file does not matter to the others *)

Lemma segs_ok_active all b d rm f :
  is_Some (d !! Z.of_nat b) → segs_ok all b d rm → segs_ok all b (<[Z.of_nat b := f]> d) rm.
Proof.
  intros [f0 Hf0] H.
  assert (∀ base g, <[Z.of_nat b := f]> d !! base = Some g ∨ rm !! base = Some g →
    ∃ g', d !! base = Some g' ∨ rm !! base = Some g') as Hdom.
  { intros base g [Hg|Hg]; [|by eauto]. apply lookup_insert_Some in Hg as [[<- _]|[_ Hg]]; eauto. }
  intros base g Hg. destruct (decide (base = Z.of_nat b)) as [|Hne]; [by left|]. right.
  rewrite lookup_insert_ne in Hg by done. destruct (H base g Hg) as [?|(x & y & ? & ? & ? & Hn)]; [done|].
  exists x, y. split_and!; [done..|]. intros base' g' Hg' Hlt. destruct (Hdom base' g' Hg') as [g'' ?]. by eapply Hn.
Qed.

Lemma covered_active all k b d f : covered all k b d → covered all k b (<[Z.of_nat b := f]> d).
Proof.
  intros H s Hk Hs. destruct (H s Hk Hs) as (x & y & g & Hd & Hse & ? & ?). exists x, y, g.
  rewrite lookup_insert_ne; [done|]. destruct Hse. lia.
Qed.

Lemma tag_ok_dur all dur dur' w wf nb oc fly pend s p bt :
  (dur <= dur')%nat → tag_ok all dur w wf nb oc fly pend s p bt → tag_ok all dur' w wf nb oc fly pend s p bt.
Proof.
  intros Hd [H1 H2 H3 H4]. split; [done| | |done].
  - intros Ho. destruct (H2 Ho). split; [lia|done].
  - intros fl Hf Hb. destruct (H3 fl Hf Hb) as (? & Ht & ?). split_and!; [done| |done]. intros E. specialize (Ht E). lia.
Qed.

(** ** Flushing *)

Lemma inv_detach o l tr all b dur w l' :
  Inv o l tr all b dur w → flush_detach l = Some l' → ∃ w', Inv o l' tr all b dur w' ∧ evolves l all b dur l' all b dur.
Proof.
  intros H. unfold flush_detach. destruct (flying l) eqn:Hfl; [done|]. destruct (writeBuffer l) as [|z buf] eqn:Hbuf.
  { intros [= <-]. exists w. split; [done|by apply evolves_same]. }
  intros [= <-]. exists (length all). split; [|by apply evolves_same].
  assert (open l = true) as Ho.
  { destruct (open l) eqn:E; [done|]. destruct (iv_closed _ _ _ _ _ _ _ H E). congruence. }
  rewrite Ho. destruct H. constructor; try done; cbn.
  - intros Hw. destruct (iv_healthy0 Hw) as [Hle Hpos Hfly Hbf Hhd Hpl]. rewrite Hfl in Hfly. cbn in Hfly.
    assert (dur = w) as -> by (apply (seg_empty all); [lia|done]). rewrite Hbuf in Hbf.
    split; [lia|done|done|by rewrite seg_nil|done|done].
  - intros fl [= <-]. split; cbn; [|intros _ _|done].
    + exists b. rewrite iv_base0. split; [done|lia].
    + exists (length all). rewrite iv_size0. split_and!; [lia|lia|done|done|done].
  - congruence.
  - intros [(fl & [= <-] & Hd)|E]; [done|]. apply iv_failed0. by right.
  - destruct iv_batches0 as [B1 B2 B3]. split; [done| |done]. intros bt Hb.
    destruct (pending l) as [bt'|] eqn:Hp; [|done]. cbn in Hb. injection Hb as <-. by destruct (B1 bt' eq_refl) as (? & ? & ?).
  - intros id p bt Hin. destruct (iv_tags0 id p bt Hin) as (s & Hs & [T1 T2 T3 T4]). exists s. split; [done|].
    split; [done|done| |done]. intros fl [= <-] Hb. cbn in Hb. specialize (T4 Hb).
    split_and!; [done|done|]. intros _ _. by apply lookup_lt_Some in T4.
Qed.

Lemma inv_flush_io o l tr all b dur w ios l' :
  Inv o l tr all b dur w → flush_io ios l = Some l' → ∃ dur', Inv o l' tr all b dur' w ∧ evolves l all b dur l' all b dur'.
Proof.
  intros H. unfold flush_io. destruct (flying l) as [fl|] eqn:Hfl; [|done]. destruct (f_done fl) eqn:Hd; [done|].
  destruct (iv_flight _ _ _ _ _ _ _ H fl Hfl) as [F1 F2 F3]. destruct (writeAndSync ios (f_buffer fl) (f_limit fl) l) as [l1 ok] eqn:Hws.
  intros [= <-]. destruct (writeFailed l) eqn:Hw.
  - unfold writeAndSync in Hws. rewrite Hw in Hws. injection Hws as <- <-. exists dur. split; [|by apply evolves_same]. destruct H.
    constructor; try done; cbn.
    + by rewrite Hw.
    + intros fl' [= <-]. split; cbn; [done|done|done].
    + intros Ho. destruct (iv_closed0 Ho). congruence.
    + destruct iv_batches0. rewrite Hfl in *. by split.
    + intros id p bt Hin. destruct (iv_tags0 id p bt Hin) as (s & Hs & [T1 T2 T3 T4]). exists s. split; [done|].
      split; [done|done| |done]. intros fl' [= <-] Hb. cbn in Hb |- *. destruct (T3 fl Hfl Hb) as (? & _ & _). by split_and!.
  - destruct (iv_healthy _ _ _ _ _ _ _ H Hw) as [Hle Hpos Hfly Hbf Hhd Hpl]. rewrite Hfl in Hfly. cbn in Hfly. rewrite Hd in Hfly.
    rewrite Hfly in Hws.
    destruct (writeAndSync_spec o l tr all b dur w ios w (f_limit fl) l1 ok H Hw ltac:(lia) Hws) as (f & pos & hd & -> & Ha & Hok).
    assert (is_Some (disk l !! Z.of_nat b)) as Hdf by (destruct (iv_file _ _ _ _ _ _ _ H) as (? & ? & _); by eexists).
    exists (if ok then w else dur). destruct H. rewrite iv_base0 in *.
    assert (dur <= if ok then w else dur)%nat by (destruct ok; lia).
    split; [|apply evolves_active; [intros base ?; apply lookup_insert_ne; congruence|done..]].
    constructor; try done; cbn.
    + destruct ok; lia.
    + exists f. rewrite lookup_insert_eq. done.
    + rewrite lookup_insert_eq. destruct ok; [|done]. intros _. destruct Hok as (-> & -> & Hpl').
      split; [lia|done|by rewrite seg_nil|done|done|]. intros E. by rewrite Hpl'.
    + destruct ok; [destruct Hok as (_ & -> & _); exists w; split; [lia|done]|]. done.
    + destruct iv_durable0 as (x & ? & ->). exists x. split; [lia|done].
    + intros fl' [= <-]. split; cbn; [done| |done]. intros Hb Hne. destruct ok; [|done].
      destruct (F2 Hb) as (x & ? & ? & _ & Hx); [congruence|]. pose proof (Hx Hd eq_refl). subst x.
      exists w. split_and!; [lia|lia|done|lia|done].
    + intros Ho. destruct (iv_closed0 Ho). congruence.
    + destruct ok; [|done]. intros [(fl' & [= <-] & ?)|E]; [done|].
      assert (writeFailed l = true) by (apply iv_failed0; by right). congruence.
    + destruct iv_batches0. rewrite Hfl in *. by split.
    + apply segs_ok_active; done.
    + by apply covered_active.
    + intros id p bt Hin. destruct (iv_tags0 id p bt Hin) as (s & Hs & [T1 T2 T3 T4]). exists s. split; [done|].
      split; [done| | |done].
      * intros Ho. destruct (T2 Ho). split; [lia|done].
      * intros fl' [= <-] Hb. cbn in Hb |- *. destruct (T3 fl Hfl Hb) as (? & _ & Hx). split_and!; [done| |done].
        intros [= ->]. by apply Hx.
Qed.

Lemma completeBatch_lookup bt ok oc b : completeBatch bt ok oc !! b = if decide (bt = Some b) then Some ok else oc !! b.
Proof.
  destruct bt as [bt|]; cbn; [|by rewrite decide_False]. destruct (decide (bt = b)) as [-> |Hne].
  - by rewrite lookup_insert_eq, decide_True.
  - rewrite lookup_insert_ne, decide_False by congruence. done.
Qed.

Lemma inv_finish o l tr all b dur w l' :
  Inv o l tr all b dur w → flush_finish l = Some l' → Inv o l' tr all b dur w ∧ evolves l all b dur l' all b dur.
Proof.
  intros H. unfold flush_finish. destruct (flying l) as [fl|] eqn:Hfl; [|done]. destruct (f_done fl) as [[|]|] eqn:Hd; [..|done].
  - intros [= <-]. split; [|apply evolves_active; [done..| |done]; cbn; case_match eqn:E; [|done]; apply andb_true_iff in E as [_ E]; lia].
    destruct H. constructor; try done; cbn.
    + intros Hw. destruct (iv_healthy0 Hw). split; try done. by rewrite Hfl in he_fly0; cbn in he_fly0; rewrite Hd in he_fly0.
    + destruct (iv_flight0 fl Hfl) as [F1 F2 F3]. case_match eqn:E; [|done]. apply andb_true_iff in E as [E _].
      apply bool_decide_eq_true in E. rewrite iv_base0 in E. destruct (F2 (eq_sym E)) as (x & ? & -> & Hx & _); [congruence|].
      exists x. split; [|done]. specialize (Hx Hd). lia.
    + intros Ho. destruct (iv_closed0 Ho). congruence.
    + intros [(? & ? & _)|E]; [done|]. apply iv_failed0. by right.
    + destruct iv_batches0 as [B1 B2 B3]. rewrite Hfl in *. split; [|done|].
      * intros bt Hp. destruct (B1 bt Hp) as (? & ? & Hf). split_and!; [done| |done].
        rewrite completeBatch_lookup, decide_False by (intros E; apply Hf; cbn; by rewrite E). done.
      * intros bt. rewrite completeBatch_lookup. case_decide as E; [|by apply B3]. intros _. by destruct (B2 bt E).
    + intros id p bt Hin. destruct (iv_tags0 id p bt Hin) as (s & Hs & [T1 T2 T3 T4]). exists s. split; [done|].
      split; [done| |done|done]. rewrite completeBatch_lookup. case_decide as E; [|done]. intros _.
      destruct (T3 fl Hfl E) as (? & Ht & _). split; [by apply Ht|done].
  - intros [= <-]. pose proof (iv_failed _ _ _ _ _ _ _ H) as Hwf. specialize (Hwf ltac:(left; eauto)).
    split; [|by apply evolves_same]. destruct H. constructor; try done; cbn.
    + by rewrite Hwf.
    + destruct iv_batches0 as [B1 B2 B3]. split; [done..|]. intros bt. rewrite !completeBatch_lookup.
      case_decide as E; [intros _; apply B2; by rewrite Hfl|]. case_decide as E2; [intros _; by apply B1|apply B3].
    + intros id p bt Hin. destruct (iv_tags0 id p bt Hin) as (s & Hs & [T1 T2 T3 T4]). exists s. split; [done|].
      split; [done| |done|done]. rewrite !completeBatch_lookup. case_decide; [done|]. case_decide; done.
Qed.

(** A failed write latches the log. *)
Lemma inv_latched o l tr all b dur w f pos h :
  Inv o l tr all b dur w → active_ok all b dur (activePrepared l) f → (dur <= h <= length all)%nat →
  Inv o (set_io (<[segmentBase l := f]> (disk l)) pos true (seg all b h) l) tr all b dur w.
Proof.
  intros H Ha Hh. destruct H. rewrite iv_base0.
  assert (is_Some (disk l !! Z.of_nat b)) as Hdf by (destruct iv_file0 as (? & ? & _); by eexists).
  constructor; try done; cbn.
  - exists f. by rewrite lookup_insert_eq.
  - by exists h.
  - intros fl Hfl. destruct (iv_flight0 fl Hfl) as [F1 F2 F3]. split; [done| |done]. intros Hb Hd.
    destruct (F2 Hb Hd) as (x & ? & ? & Hx & _). by exists x.
  - by apply segs_ok_active.
  - by apply covered_active.
  - intros id p bt Hin. destruct (iv_tags0 id p bt Hin) as (s & Hs & [T1 T2 T3 T4]). exists s. split; [done|].
    split; [done..| |done]. intros fl Hf Hb. destruct (T3 fl Hf Hb) as (? & ? & _). by split_and!.
Qed.

(** A latched log fails what is staged. *)
Lemma inv_failed_batch o l tr all b dur w :
  Inv o l tr all b dur w → writeFailed l = true →
  Inv o (set_flying (flying l) (completeBatch (pending l) false (outcomes l))
           (set_flags (closed l) true (durableSize l) (set_staged [] None (segmentSize l) (nextSeq l) l))) tr all b dur w.
Proof.
  intros H Hw. destruct H. constructor; try done; cbn.
  - by rewrite Hw.
  - intros Ho. by destruct (iv_closed0 Ho).
  - destruct iv_batches0 as [B1 B2 B3]. split; [done|..].
    + intros bt Hf. destruct (B2 bt Hf). split; [done|]. rewrite completeBatch_lookup, decide_False; [done|].
      intros E. by destruct (B1 bt E) as (_ & _ & ?).
    + intros bt. rewrite completeBatch_lookup. case_decide as E; [|by apply B3]. intros _. by destruct (B1 bt E).
  - intros id p bt Hin. destruct (iv_tags0 id p bt Hin) as (s & Hs & [T1 T2 T3 T4]). exists s. split; [done|].
    split; [done| |done|done]. rewrite completeBatch_lookup. by case_decide.
Qed.

(** The staged records are written and synced. *)
Lemma inv_synced_batch o l tr all b w f :
  Inv o l tr all b w w → writeFailed l = false → in_flight (flying l) = [] → fileOps_free l = true →
  active_ok all b (length all) (activePrepared l) f →
  (activePrepared l = false → f = File (seg all b (length all)) (seg all b (length all))) →
  let l1 := set_io (<[segmentBase l := f]> (disk l)) (length (seg all b (length all))) false (seg all b (length all)) l in
  Inv o (set_flying (flying l) (completeBatch (pending l) true (outcomes l))
           (set_flags (closed l) (syncErr l) (segmentSize l) (set_staged [] None (segmentSize l) (nextSeq l) l1)))
    tr all b (length all) (length all).
Proof.
  intros H Hw Hinf Hfree Ha Hpl l1. subst l1. destruct H. rewrite iv_base0.
  assert (is_Some (disk l !! Z.of_nat b)) as Hdf by (destruct iv_file0 as (? & ? & _); by eexists).
  constructor; try done; cbn; [lia|..].
  - exists f. by rewrite lookup_insert_eq.
  - intros _. rewrite lookup_insert_eq. split; [lia|done|by rewrite seg_nil|by rewrite seg_nil|done|]. intros E. by rewrite Hpl.
  - exists (length all). split; [lia|done].
  - exists (length all). split; [lia|done].
  - intros fl Hfl. destruct (iv_flight0 fl Hfl) as [F1 F2 F3]. split; [done| |done]. intros Hb Hd.
    destruct (F2 Hb Hd) as (x & ? & ? & _ & _). exists x. split_and!; [lia..|done|lia|].
    intros E. unfold fileOps_free in Hfree. rewrite Hfl in Hfree. by rewrite E in Hfree.
  - intros Ho. by destruct (iv_closed0 Ho).
  - intros E. rewrite <-Hw. by apply iv_failed0.
  - destruct iv_batches0 as [B1 B2 B3]. split; [done|..].
    + intros bt Hf. destruct (B2 bt Hf). split; [done|]. rewrite completeBatch_lookup, decide_False; [done|].
      intros E. by destruct (B1 bt E) as (_ & _ & ?).
    + intros bt. rewrite completeBatch_lookup. case_decide as E; [|by apply B3]. intros _. by destruct (B1 bt E).
  - by apply segs_ok_active.
  - by apply covered_active.
  - intros id p bt Hin. destruct (iv_tags0 id p bt Hin) as (s & Hs & [T1 T2 T3 T4]). exists s. split; [done|].
    split; [done|..|done].
    + rewrite completeBatch_lookup. case_decide as E.
      * intros _. specialize (T4 E). split; [by apply lookup_lt_Some in T4|done].
      * intros Ho. destruct (T2 Ho). split; [lia|done].
    + intros fl Hf Hb. destruct (T3 fl Hf Hb) as (Hl & ? & _). apply lookup_lt_Some in Hl as ?. by split_and!.
Qed.

Lemma free_not_flying l : fileOps_free l = true → in_flight (flying l) = [].
Proof. unfold fileOps_free, in_flight. destruct (flying l) as [fl|]; [|done]. by destruct (f_done fl). Qed.

(** [syncLocked], with nobody else writing. *)
Lemma inv_syncLocked o l tr all b dur w ios l' ok :
  Inv o l tr all b dur w → fileOps_free l = true → syncLocked ios l = (l', ok) →
  (∃ dur' w', Inv o l' tr all b dur' w' ∧ evolves l all b dur l' all b dur') ∧ writeBuffer l' = [] ∧ flying l' = flying l
  ∧ open l' = open l ∧ segmentSize l' = segmentSize l.
Proof.
  intros H Hfree. unfold syncLocked. destruct (writeBuffer l) as [|z buf] eqn:Hbuf.
  { intros [= <- <-]. split; [|by split_and!]. exists dur, w. split; [done|by apply evolves_same]. }
  rewrite <-Hbuf. destruct (writeAndSync ios (writeBuffer l) (writeLimit l) l) as [l1 ok1] eqn:Hws.
  pose proof (free_not_flying l Hfree) as Hinf. destruct (writeFailed l) eqn:Hw.
  - unfold writeAndSync in Hws. rewrite Hw in Hws. injection Hws as <- <-. intros [= <- <-].
    split; [|by split_and!]. exists dur, w. split; [by apply inv_failed_batch|by apply evolves_same].
  - destruct (iv_healthy _ _ _ _ _ _ _ H Hw) as [Hle Hpos Hfly Hbf Hhd Hpl]. rewrite Hinf in Hfly.
    assert (dur = w) as <- by (apply (seg_empty all); [lia|done]). rewrite Hbf in Hws.
    destruct (writeAndSync_spec o l tr all b dur dur ios (length all) (writeLimit l) l1 ok1 H Hw ltac:(lia) Hws)
      as (f & pos & hd & -> & Ha & Hok).
    destruct ok1; intros [= <- <-].
    + destruct Hok as (-> & -> & Hpl'). split; [|by split_and!]. exists (length all), (length all).
      split; [by apply (inv_synced_batch o l tr all b dur f)|].
      destruct (iv_durable _ _ _ _ _ _ _ H) as (x & Hx & Hdx). pose proof (iv_size _ _ _ _ _ _ _ H) as Hsz.
      apply evolves_active; [|done| |lia].
      * intros base Hne. cbn. rewrite lookup_insert_ne; [done|]. rewrite (iv_base _ _ _ _ _ _ _ H). congruence.
      * cbn. rewrite Hdx, Hsz, (seg_split all b x (length all)), length_app by lia. lia.
    + destruct Hok as (h & Hh & ->). split; [|by split_and!]. exists dur, dur.
      split; [apply (inv_failed_batch o (set_io _ _ _ _ l)); [|done]; by apply inv_latched|]. apply evolves_active; [|done..].
      intros base Hne. cbn. rewrite lookup_insert_ne; [done|]. rewrite (iv_base _ _ _ _ _ _ _ H). congruence.
Qed.

(** ** Rolling *)

(** Nothing is staged or in flight, and no write has failed: every record
    is on the device. *)
Lemma quiet_durable o l tr all b dur w :
  Inv o l tr all b dur w → fileOps_free l = true → writeBuffer l = [] → writeFailed l = false →
  dur = length all ∧ w = length all.
Proof.
  intros H Hfree Hbuf Hw. destruct (iv_healthy _ _ _ _ _ _ _ H Hw) as [Hle _ Hfly Hbf _ _].
  rewrite (free_not_flying l Hfree) in Hfly. rewrite Hbuf in Hbf.
  assert (dur = w) by (apply (seg_empty all); [lia|done]). assert (w = length all) by (apply (seg_empty all); [lia|done]). lia.
Qed.

(** The active file is replaced by one with the same records. *)
Lemma inv_retrim o l tr all b ap f :
  let N := length all in
  Inv o l tr all b N N → writeFailed l = false → active_ok all b N ap f →
  (ap = false → f = File (seg all b N) (seg all b N)) →
  Inv o (set_prepared ap (dead l) (set_disk (<[segmentBase l := f]> (disk l)) l)) tr all b N N.
Proof.
  intros N H Hw Ha Hpl. destruct H. rewrite iv_base0.
  assert (is_Some (disk l !! Z.of_nat b)) as Hdf by (destruct iv_file0 as (? & ? & _); by eexists).
  constructor; try done; cbn.
  - exists f. by rewrite lookup_insert_eq.
  - intros _. rewrite lookup_insert_eq. destruct (iv_healthy0 Hw). split; try done. intros E. by rewrite Hpl.
  - by apply segs_ok_active.
  - by apply covered_active.
Qed.

Lemma plain_active_ok all b : (b <= length all)%nat →
  active_ok all b (length all) false (File (seg all b (length all)) (seg all b (length all))).
Proof.
  intros Hb. split; [done..|]. intros _. exists (length (seg all b (length all))), (length (seg all b (length all))).
  cbn. by rewrite take_ge.
Qed.

Lemma inv_trim o l tr all b rio l' ok :
  let N := length all in
  Inv o l tr all b N N → writeFailed l = false → roll_trimmed rio l = (l', ok) →
  Inv o l' tr all b N N ∧ (ok = true → disk l' !! Z.of_nat b = Some (File (seg all b N) (seg all b N)))
  ∧ writeFailed l' = false ∧ writeBuffer l' = writeBuffer l ∧ flying l' = flying l ∧ nextSeq l' = nextSeq l ∧ open l' = open l
  ∧ evolves l all b N l' all b N.
Proof.
  intros N H Hw. pose proof (iv_base _ _ _ _ _ _ _ H) as Hb0.
  assert (∀ f, let d := <[Z.of_nat b := f]> (disk l) in ∀ base, base ≠ Z.of_nat b → d !! base = disk l !! base) as Hother.
  { intros f d base Hne. by apply lookup_insert_ne. }
  unfold roll_trimmed. destruct (activePrepared l) eqn:Eap.
  - destruct (iv_file _ _ _ _ _ _ _ H) as (f & Hf & Ha). pose proof (iv_base _ _ _ _ _ _ _ H) as Hb.
    pose proof (iv_le _ _ _ _ _ _ _ H). rewrite Hb, Hf.
    assert (take (Z.to_nat (segmentSize l)) (cur f) = seg all b N) as Hc.
    { rewrite (iv_size _ _ _ _ _ _ _ H), Nat2Z.id. destruct (ac_cur _ _ _ _ _ Ha) as [r Hr]. rewrite Hr. apply take_app_length. }
    rewrite Hc. assert (∀ P Q : Log * bool, (match rio with RollTrimFails => (l, false) | RollTrimSyncFails => P | _ => Q end) = (l', ok) →
      (l' = l ∧ ok = false) ∨ P = (l', ok) ∨ Q = (l', ok)) as Hcase by (intros P Q; destruct rio; intros; simplify_eq; auto).
    intros [[-> ->]|[E|E]]%Hcase; [by split_and!; try apply evolves_same| |]; injection E as <- <-.
    + split; [|by split_and!; try (apply evolves_active; [apply Hother|done..])]. pose proof (inv_retrim o l tr all b true (File (seg all b N) (syn f)) H Hw) as Hr.
      rewrite Hb in Hr. rewrite Eap in Ha. destruct (Hr ltac:(split; [done|apply Ha|done]) ltac:(done)); by constructor; cbn in *; rewrite ?Eap.
    + split; [|split_and!; try done; [intros _; cbn; by rewrite lookup_insert_eq|apply evolves_active; [apply Hother|done..]]].
      pose proof (inv_retrim o l tr all b false (File (seg all b N) (seg all b N)) H Hw) as Hr. rewrite Hb in Hr.
      apply Hr; [by apply plain_active_ok; lia|done].
  - intros [= <- <-]. split_and!; try done; [|by apply evolves_same]. intros _. by apply (he_plain _ _ _ _ _ _ _ _ _ _ (iv_healthy _ _ _ _ _ _ _ H Hw)).
Qed.

Lemma inv_dead o l tr all b dur w dd : Inv o l tr all b dur w → Inv o (set_prepared (activePrepared l) dd l) tr all b dur w.
Proof. intros []; by constructor. Qed.

(** A fresh segment after the last record. *)
Lemma segs_ok_roll all b d rm g :
  let N := length all in
  (b < N)%nat → d !! Z.of_nat b = Some (File (seg all b N) (seg all b N)) → rm !! Z.of_nat b = None → segs_ok all b d rm →
  segs_ok all N (<[Z.of_nat N := g]> d) rm ∧ rm !! Z.of_nat N = None.
Proof.
  intros N HbN Hb Hgone H.
  assert (∀ base' g', d !! base' = Some g' ∨ rm !! base' = Some g' → base' <= Z.of_nat b) as Hmax.
  { intros base' g' Hg'. destruct (H base' g' Hg') as [->|(x & y & -> & [? _] & ? & _)]; lia. }
  split; [|destruct (rm !! Z.of_nat N) as [f|] eqn:E; [|done]; specialize (Hmax (Z.of_nat N) f ltac:(by right)); lia].
  intros base f Hf. destruct (decide (base = Z.of_nat N)) as [|Hne]; [by left|]. right.
  rewrite lookup_insert_ne in Hf by done.
  assert (∀ (y : nat) base' g', (y <= N)%nat → <[Z.of_nat N := g]> d !! base' = Some g' ∨ rm !! base' = Some g' →
    (d !! base' = Some g' ∨ rm !! base' = Some g' → Z.of_nat y <= base') → Z.of_nat y <= base') as Hnew.
  { intros y base' g' Hy Hg' Hold. destruct (decide (base' = Z.of_nat N)) as [->|?]; [lia|].
    rewrite lookup_insert_ne in Hg' by done. by apply Hold. }
  destruct (H base f Hf) as [->|(x & y & -> & Hs & Hy & Hn)].
  - destruct Hf as [Hf|Hf]; [|congruence]. exists b, N. rewrite Hb in Hf. injection Hf as <-.
    split_and!; [done|split; [lia|done]|lia|]. intros base' g' Hg' Hlt. apply (Hnew N base' g'); [lia|done|].
    intros Hg''. specialize (Hmax base' g' Hg''). lia.
  - exists x, y. split_and!; [done..|lia|]. intros base' g' Hg' Hlt. apply (Hnew y base' g'); [lia|done|].
    intros Hg''. by eapply Hn.
Qed.

Lemma covered_roll all k b d g :
  let N := length all in
  (b < N)%nat → d !! Z.of_nat b = Some (File (seg all b N) (seg all b N)) → covered all k b d →
  covered all k N (<[Z.of_nat N := g]> d).
Proof.
  intros N HbN Hb H s Hk Hs. destruct (decide (s < b)%nat) as [Hsb|Hsb].
  - destruct (H s Hk Hsb) as (x & y & f & Hf & Hse & ? & ?). exists x, y, f. destruct Hse as [? ->].
    rewrite lookup_insert_ne by lia. split_and!; [done|split; [lia|done]|lia..].
  - eexists b, N, _. rewrite lookup_insert_ne by lia. split_and!; [exact Hb|split; [lia|done]|lia..].
Qed.

Lemma inv_fresh o l tr all b content prepared :
  let N := length all in
  Inv o l tr all b N N → fileOps_free l = true → writeBuffer l = [] → writeFailed l = false → (b < N)%nat →
  disk l !! Z.of_nat b = Some (File (seg all b N) (seg all b N)) → (prepared = false → content = []) →
  Inv o (MkLog (opts l) (<[nextSeq l := File content content]> (disk l)) (removed l) 0 (open l) (dead l)
           (nextSeq l) 0 (nextSeq l) (writeBuffer l) (pending l) (closed l) (syncErr l) (writeFailed l)
           0 0 prepared false (preparing l) (spareReady l) (flying l) (compacting l) (outcomes l) (nextBatch l) [])
    tr all N N N.
Proof.
  intros N H Hfree Hbuf Hw HbN Hb Hc. pose proof (free_not_flying l Hfree) as Hinf. destruct H. rewrite iv_seq0. fold N.
  destruct (segs_ok_roll all b (disk l) (removed l) (File content content) HbN Hb iv_gone0 iv_segs0) as [Hsegs Hgone].
  assert (∀ fl, flying l = Some fl → f_done fl ≠ None) as Hdone.
  { intros fl Hfl E. unfold fileOps_free in Hfree. by rewrite Hfl, E in Hfree. }
  constructor; try done; cbn.
  - by rewrite seg_nil.
  - exists (File content content). rewrite lookup_insert_eq. split; [done|].
    split; cbn; [rewrite seg_nil; apply prefix_nil..|]. intros E. exists 0%nat, 0%nat. rewrite (Hc E). split_and!; [lia|lia|done..].
  - intros _. rewrite lookup_insert_eq. split; [lia|by rewrite seg_nil|by rewrite Hinf, seg_nil|fold N; by rewrite seg_nil|by rewrite seg_nil|].
    intros E. by rewrite (Hc E), seg_nil.
  - exists N. rewrite seg_nil. split; [lia|done].
  - exists N. rewrite seg_nil. split; [lia|done].
  - intros fl Hfl. destruct (iv_flight0 fl Hfl) as [(x & Hx & ?) _ _]. split; [exists x; split; [done|lia]| |].
    + intros E. rewrite Hx in E. lia.
    + intros E. by destruct (Hdone fl Hfl).
  - by apply (covered_roll all (cut tr) b).
Qed.

Lemma evolves_fresh o l tr all b w f l' c :
  let N := length all in
  Inv o l tr all b N w → (b < N)%nat → disk l !! Z.of_nat b = Some f → disk l' = <[nextSeq l := c]> (disk l) → removed l' = removed l →
  evolves l all b N l' all N N.
Proof.
  intros N H HbN Hf Hd Hr. pose proof (iv_seq _ _ _ _ _ _ _ H) as Hseq. fold N in Hseq.
  split; [unfold N; by rewrite firstn_all|done| |right].
  - intros base g Hne Hg. unfold file_at. rewrite Hd, Hr, lookup_insert_ne; [done|].
    destruct (iv_segs _ _ _ _ _ _ _ H base g (file_at_or _ _ _ Hg)) as [?|(x & y & ? & [? _] & ? & _)]; lia.
  - split; [done|]. exists f. split; [left; rewrite Hd, lookup_insert_ne; [done|lia]|].
    destruct (iv_file _ _ _ _ _ _ _ H) as (f' & Hf' & Ha). rewrite Hf in Hf'. injection Hf' as <-. apply Ha.
Qed.

(** A clean [createSegmentLocked]: nothing new on disk unless it succeeds. *)
Lemma roll_created_spec up rio l l' r :
  roll_clean rio → roll_created up rio l = (l', r) →
  ∃ rd, let lc := set_prep (prepRequested l) (preparing l) rd l in
    (l' = lc ∧ ∀ content prepared, r = Some (content, prepared) → prepared = false → content = [])
    ∨ (l' = set_prepared (activePrepared l) true lc ∧ r = None).
Proof.
  intros Hclean. unfold roll_created. set (spare := up && spareReady l).
  set (lc := if spare then _ else l).
  assert (∃ rd, lc = set_prep (prepRequested l) (preparing l) rd l) as [rd Hlc].
  { unfold lc. destruct spare; [by eexists|]. exists (spareReady l). by destruct l. }
  clearbody lc. set (renamed := _ && _). clearbody renamed. subst lc. intros Hr. exists rd. revert Hr.
  destruct (disk l !! nextSeq l); [intros [= <- <-]; by left|].
  destruct rio; cbn in Hclean; subst; try (intros [= <- <-]; by auto).
  all: try (intros [= <- <-]; left; split; [done|]; intros content prepared [= <- <-] E; by rewrite E).
  destruct renamed; intros [= <- <-]; left; by split.
Qed.

Lemma inv_roll o l tr all b dur w up rio l' ok :
  Inv o l tr all b dur w → fileOps_free l = true → writeBuffer l = [] → 0 < segmentSize l → roll_clean rio →
  rollLocked up rio l = (l', ok) →
  (∃ b' dur' w', Inv o l' tr all b' dur' w' ∧ evolves l all b dur l' all b' dur')
  ∧ writeBuffer l' = [] ∧ open l' = open l ∧ flying l' = flying l.
Proof.
  intros H Hfree Hbuf Hsize Hclean. unfold rollLocked. destruct (writeFailed l) eqn:Hw.
  { intros [= <- <-]. split; [|done]. exists b, dur, w. split; [|by apply evolves_same]. destruct H. by constructor. }
  destruct (quiet_durable _ _ _ _ _ _ _ H Hfree Hbuf Hw) as [-> ->]. set (N := length all) in *.
  assert (b < N)%nat as HbN.
  { pose proof (iv_le _ _ _ _ _ _ _ H). rewrite (iv_size _ _ _ _ _ _ _ H) in Hsize.
    destruct (decide (b = N)) as [E|]; [|lia]. fold N in Hsize. rewrite E, seg_nil in Hsize. done. }
  destruct (roll_trimmed rio l) as [l1 ok1] eqn:Ht.
  destruct (inv_trim o l tr all b rio l1 ok1 H Hw Ht) as (H1 & Hsealed & Hw1 & Hbuf1 & Hfl1 & Hseq1 & Hop1 & Hev).
  destruct ok1; [|intros [= <- <-]; split; [by eauto|]; rewrite Hbuf1, Hop1, Hfl1; done]. specialize (Hsealed eq_refl).
  destruct (roll_created up rio l1) as [l2 r] eqn:Hr. apply roll_created_spec in Hr as [rd Hr]; [|done]. cbn in Hr.
  pose proof (inv_prep o l1 tr all b N N (prepRequested l1) (preparing l1) rd H1) as H2.
  assert (∀ l2, disk l2 = disk l1 → removed l2 = removed l1 → durableSize l2 = durableSize l1 → evolves l all b N l2 all b N) as Hev2.
  { intros l3 ? ? ?. eapply evolves_trans; [exact H|exact H1|exact Hev|by apply evolves_same]. }
  assert (fileOps_free l1 = true) as Hfree1 by (unfold fileOps_free; by rewrite Hfl1).
  destruct Hr as [[-> Hc]|[-> ->]].
  - destruct r as [[content prepared]|]; intros [= <- <-]; cbn.
    + split; [|rewrite Hbuf1, Hop1, Hfl1; done]. exists N, N, N. split.
      * apply (inv_fresh o (set_prep (prepRequested l1) (preparing l1) rd l1) tr all b content prepared); try done; [|by eapply Hc].
        cbn. by rewrite Hbuf1.
      * eapply evolves_trans; [exact H|exact H1|exact Hev|]. by apply (evolves_fresh o l1 tr all b N (File (seg all b N) (seg all b N)) _ (File content content)).
    + split; [by exists b, N, N; auto|]. rewrite Hbuf1, Hop1, Hfl1. done.
  - intros [= <- <-]. split; [exists b, N, N; split; [by apply (inv_dead o (set_prep _ _ _ l1))|by apply Hev2]|]. cbn. rewrite Hbuf1, Hop1, Hfl1. done.
Qed.

(** The sync and the roll before a frame that would overflow. *)
Lemma inv_sync_and_roll o l tr all b dur w ios rio up l' ok :
  Inv o l tr all b dur w → fileOps_free l = true → 0 < segmentSize l → roll_clean rio →
  sync_and_roll ios rio up l = (l', ok) →
  (∃ b' dur' w', Inv o l' tr all b' dur' w' ∧ evolves l all b dur l' all b' dur') ∧ writeBuffer l' = [] ∧ open l' = open l.
Proof.
  intros H Hfree Hsize Hclean. unfold sync_and_roll. destruct (syncLocked ios l) as [l1 ok1] eqn:Hs.
  destruct (inv_syncLocked _ _ _ _ _ _ _ _ _ _ H Hfree Hs) as ((dur1 & w1 & H1 & Hev1) & Hbuf1 & Hfl1 & Hop1 & Hsz1).
  destruct ok1; [|intros [= <- <-]; by eauto 8]. intros Hr.
  destruct (inv_roll o l1 tr all b dur1 w1 up rio l' ok H1) as ((b2 & dur2 & w2 & H2 & Hev2) & ? & Hop & _); [|done|by rewrite Hsz1|done|done|].
  - unfold fileOps_free. by rewrite Hfl1.
  - split; [|by rewrite Hop, Hop1]. exists b2, dur2, w2. split; [done|]. eapply evolves_trans; [exact H|exact H1|done..].
Qed.

(** ** Appending *)

Lemma inv_events o l tr all b dur w evs :
  Forall (λ e, match e with EvPut _ _ => True | _ => False end) evs → Inv o l tr all b dur w → Inv o l (tr ++ evs) all b dur w.
Proof.
  intros He H. assert (cut evs = 0) as Hc by (induction He as [|[] evs]; done). destruct H. constructor; try done.
  - by rewrite cut_silent.
  - intros cp. rewrite cut_silent by done. apply iv_compact0.
  - intros s p Hs. apply elem_of_app. left. by apply iv_put0.
  - intros id p bt Hin. apply elem_of_app in Hin as [Hin|Hin]; [by apply iv_tags0|].
    rewrite Forall_forall in He. by apply He in Hin.
Qed.

Lemma inv_batches_more o l tr all b dur w : Inv o l tr all b dur w → Inv o (set_batches (S (nextBatch l)) l) tr all b dur w.
Proof.
  intros H. destruct H. constructor; try done; cbn.
  - destruct iv_batches0 as [B1 B2 B3]. split.
    + intros bt E. destruct (B1 bt E) as (? & ? & ?). split_and!; [lia|done..].
    + intros bt E. destruct (B2 bt E). split; [lia|done].
    + intros bt E. specialize (B3 bt E). lia.
  - intros id p bt Hin. destruct (iv_tags0 id p bt Hin) as (s & Hs & []). exists s. split; [done|]. split; [lia|done..].
Qed.

Lemma inv_requestPrep o l tr all b dur w : Inv o l tr all b dur w → Inv o (requestPrep l) tr all b dur w.
Proof. intros H. unfold requestPrep. case_match; [done|]. by apply inv_prep. Qed.

Lemma withdraw_mark l : withdrawLocked (markLocked l) l = l.
Proof. destruct l. unfold withdrawLocked, markLocked, set_staged. cbn. by rewrite firstn_all. Qed.

Lemma evolves_like l all b dur l1 l2 all' b' dur' :
  disk l2 = disk l1 → removed l2 = removed l1 → durableSize l2 = durableSize l1 →
  evolves l all b dur l1 all' b' dur' → evolves l all b dur l2 all' b' dur'.
Proof. intros Hd Hr Hs [K D S A]. unfold file_at in *. by split; unfold file_at; rewrite ?Hd, ?Hr, ?Hs. Qed.

(** The records and the state a step started from. *)
Record origin := Origin { og_log : Log; og_all : list octets; og_b : nat; og_dur : nat }.
Definition from_origin (g : origin) (l : Log) (all : list octets) (b dur : nat) : Prop :=
  evolves (og_log g) (og_all g) (og_b g) (og_dur g) l all b dur.

(** A mark the log can go back to. *)
Definition rewindable (o : Options) (g : origin) (tr : list wal_event) (m : stagedMark) (l : Log) : Prop :=
  (mk_buffered m <= length (writeBuffer l))%nat
  ∧ ∃ all b dur w, Inv o (withdrawLocked m l) tr all b dur w ∧ from_origin g (withdrawLocked m l) all b dur.

Lemma rewindable_mark o g l tr all b dur w : Inv o l tr all b dur w → from_origin g l all b dur → rewindable o g tr (markLocked l) l.
Proof. intros H Hg. split; [done|]. rewrite withdraw_mark. by eauto 8. Qed.

Lemma rewindable_batch o g tr m l : rewindable o g tr m l → rewindable o g tr m (with_batch l).
Proof.
  intros [Hm (all & b & dur & w & H & Hg)]. unfold with_batch. destruct (pending l); [by split; eauto 8|]. split; [done|].
  exists all, b, dur, w. split; [|by eapply evolves_like; [..|exact Hg]]. apply inv_batches_more in H. by destruct H; constructor.
Qed.

Lemma rewindable_stage o g tr m l x pend size seq evs :
  Forall (λ e, match e with EvPut _ _ => True | _ => False end) evs → rewindable o g tr m l →
  rewindable o g (tr ++ evs) m (requestPrep (set_staged (writeBuffer l ++ x) pend size seq l)).
Proof.
  intros He [Hm (all & b & dur & w & H & Hg)]. apply (inv_events _ _ _ _ _ _ _ evs He) in H.
  assert (take (mk_buffered m) (writeBuffer l ++ x) = take (mk_buffered m) (writeBuffer l)) as Ht by by rewrite take_app_le.
  unfold requestPrep. case_match; (split; [cbn; len|]); exists all, b, dur, w; (split; [|by eapply evolves_like; [..|exact Hg]]); destruct H; unfold withdrawLocked in *;
    by constructor; cbn in *; rewrite ?Ht.
Qed.

Lemma size_err_ok o size p :
  size_err o size = None → length p = size → payload_ok (MaxRecord o) p.
Proof.
  unfold size_err. case_decide; [done|]. case_match eqn:E; [done|]. apply Z.ltb_ge in E. intros _ <-. split; unfold blen; lia.
Qed.

(** One record: staged, with any sync and roll it needed; or not, and the
    log can still go back to the mark. *)
Lemma inv_stage_one o g l tr all b dur w it m l' m' r evs :
  Inv o l tr all b dur w → (∀ l1 all1 b1 dur1, evolves l all b dur l1 all1 b1 dur1 → from_origin g l1 all1 b1 dur1) →
  rewindable o g tr m l → size_err o (it_size it) = None → roll_clean (it_roll it) →
  Z.of_nat (length all) + 1 < two64 → open l = true → stage_one it l m = Some (l', m', r, evs) →
  rewindable o g (tr ++ evs) m' l' ∧ open l' = true ∧
  ∃ all' b' dur' w', Inv o l' (tr ++ evs) all' b' dur' w' ∧ evolves l all b dur l' all' b' dur' ∧
    match r with
    | Ok id => ∃ p, it_fill it = Some p ∧ all' = all ++ [p] ∧ id_Seq id = Z.of_nat (length all) ∧ is_Some (pending l')
    | Err _ => all' = all
    end.
Proof.
  intros H Hg Hm Hsize Hclean Hroom Hopen. unfold stage_one. destruct (overflows _ l && negb _) eqn:Hblock; [done|].
  assert (∃ l1 m1 ready, (if overflows (it_size it) l then
      let '(l, ok) := sync_and_roll (it_ios it) (it_roll it) true l in (l, markLocked l, ok) else (l, m, true)) = (l1, m1, ready)
    ∧ rewindable o g tr m1 l1 ∧ open l1 = true ∧ ∃ b1 dur1 w1, Inv o l1 tr all b1 dur1 w1 ∧ evolves l all b dur l1 all b1 dur1)
    as (l1 & m1 & ready & -> & Hm1 & Hop1 & b1 & dur1 & w1 & H1 & Hev1).
  { destruct (overflows (it_size it) l) eqn:Hov; [|exists l, m, true; split_and!; [done..|]; exists b, dur, w; split; [done|by apply evolves_same]].
    apply andb_false_iff in Hblock as [?|Hfree%negb_false_iff]; [done|].
    apply andb_true_iff in Hov as [Hpos _]. apply Z.ltb_lt in Hpos.
    destruct (sync_and_roll (it_ios it) (it_roll it) true l) as [l1 ok] eqn:Hsr.
    destruct (inv_sync_and_roll _ _ _ _ _ _ _ _ _ _ _ _ H Hfree Hpos Hclean Hsr) as ((b1 & dur1 & w1 & H1 & Hev1) & _ & Hop).
    exists l1, (markLocked l1), ok. split_and!; [done|by eapply rewindable_mark; [|apply Hg]|by rewrite Hop|by eauto]. }
  destruct ready; [|intros [= <- <- <- <-]; rewrite app_nil_r; split_and!; [done..|]; by exists all, b1, dur1, w1].
  assert (∀ l2 z, disk l2 = disk l1 → removed l2 = removed l1 → durableSize l2 = durableSize l1 →
    evolves l all b dur l2 (all ++ z) b1 dur1) as Hev2.
  { intros l2 z ? ? ?. eapply evolves_trans; [exact H|exact H1|exact Hev1|by apply evolves_quiet]. }
  assert (disk (with_batch l1) = disk l1 ∧ removed (with_batch l1) = removed l1 ∧ durableSize (with_batch l1) = durableSize l1)
    as (Hd2 & Hr2 & Hs2) by (unfold with_batch; by case_match).
  destruct (inv_with_batch _ _ _ _ _ _ _ H1 Hop1) as [H2 [bt Hbt]]. apply rewindable_batch in Hm1.
  assert (open (with_batch l1) = true) as Hop2 by (unfold with_batch; by case_match).
  unfold stage_record. set (l2 := with_batch l1) in *. unfold appendFrameWith.
  pose proof (Hev2 l2 [] Hd2 Hr2 Hs2) as Hev3. rewrite app_nil_r in Hev3.
  destruct (it_fill it) as [p|] eqn:Hfill; [|intros [= <- <- <- <-]; rewrite app_nil_r; by eauto 11].
  destruct (decide (length p = it_size it)) as [Hlen|]; [|intros [= <- <- <- <-]; rewrite app_nil_r; by eauto 11].
  intros [= <- <- <- <-]. cbn [default]. rewrite Hbt.
  pose proof (inv_stage o l2 tr all b1 dur1 w1 p bt H2 (size_err_ok _ _ _ Hsize Hlen) Hroom Hbt Hop2) as H3.
  rewrite <-Hlen. split_and!; [|unfold requestPrep; by case_match|].
  - cbn [id_Seq]. apply rewindable_stage; [by repeat constructor|done].
  - exists (all ++ [p]), b1, dur1, w1. split; [by apply inv_requestPrep|].
    split; [unfold requestPrep; case_match; by apply Hev2|]. exists p. split_and!; [done..| |].
    + cbn. by rewrite (iv_seq _ _ _ _ _ _ _ H2).
    + unfold requestPrep. case_match; by eexists.
Qed.

(** Ids and payloads of records that are staged. *)
Definition staged_ids (all : list octets) (ids : list (RecordID * octets)) : Prop :=
  Forall (λ ip, ∃ s, id_Seq ip.1 = Z.of_nat s ∧ all !! s = Some ip.2) ids.

Lemma staged_ids_app all z ids : staged_ids all ids → staged_ids (all ++ z) ids.
Proof.
  intros H. eapply Forall_impl; [exact H|]. intros ip (s & ? & ?). exists s. split; [done|]. by apply lookup_app_l_Some.
Qed.

Lemma inv_accepted o l tr all b dur w ids :
  Inv o l tr all b dur w → staged_ids all ids → Inv o l (tr ++ accepted l ids) all b dur w.
Proof.
  intros H Hids. unfold accepted. destruct (pending l) as [bt|] eqn:Hp; [|by rewrite app_nil_r].
  revert tr H. induction Hids as [|[id p] ids (s & Hs & Hl) _ IH]; intros tr H; [by rewrite app_nil_r|].
  rewrite fmap_cons, cons_middle, app_assoc. apply IH. by eapply inv_accept.
Qed.

Lemma inv_stage_many o g items l tr all b dur w m ids evs l' r evs' :
  Inv o l (tr ++ evs) all b dur w → (∀ l1 all1 b1 dur1, evolves l all b dur l1 all1 b1 dur1 → from_origin g l1 all1 b1 dur1) →
  rewindable o g (tr ++ evs) m l → staged_ids all ids →
  Forall (λ it, size_err o (it_size it) = None ∧ roll_clean (it_roll it)) items →
  Z.of_nat (length all) + Z.of_nat (length items) < two64 → open l = true →
  stage_many items l m ids evs = Some (l', r, evs') →
  ∃ all' b' dur' w', Inv o l' (tr ++ evs') all' b' dur' w' ∧ from_origin g l' all' b' dur' ∧
    match r with Ok ids' => staged_ids all' ids' | Err _ => True end.
Proof.
  revert l all b dur w m ids evs. induction items as [|it items IH]; intros l all b dur w m ids evs H Hg Hm Hids Hit Hroom Hop.
  { intros [= <- <- <-]. exists all, b, dur, w. split_and!; [done| |done]. by apply Hg, evolves_same. }
  apply Forall_cons in Hit as [[Hsize Hclean] Hit]. cbn [length stage_many] in *.
  destruct (stage_one it l m) as [[[[l1 m1] r1] evs1]|] eqn:Hone; [|done].
  destruct (inv_stage_one o g l (tr ++ evs) all b dur w it m l1 m1 r1 evs1 H Hg Hm Hsize Hclean ltac:(lia) Hop Hone)
    as (Hm1 & Hop1 & all1 & b1 & dur1 & w1 & H1 & Hev1 & Hr1). rewrite <-app_assoc in Hm1, H1.
  destruct r1 as [id|e].
  - destruct Hr1 as (p & Hfill & -> & Hid & _). rewrite Hfill. cbn [default].
    apply (IH _ _ _ _ _ _ _ _ H1); [|done| |done|len|done].
    { intros l2 all2 b2 dur2 Hev2. apply Hg. eapply evolves_trans; [exact H|exact H1|done..]. }
    apply Forall_app. split; [by apply staged_ids_app|].
    constructor; [|constructor]. exists (length all). split; [done|]. by apply list_lookup_middle.
  - intros [= <- <- <-]. destruct Hm1 as [_ (all2 & b2 & dur2 & w2 & H2 & ?)]. by eauto 8.
Qed.

Lemma inv_append o l tr all b dur w it l' r evs :
  Inv o l tr all b dur w → roll_clean (it_roll it) → Z.of_nat (length all) + 1 < two64 →
  AppendWith it l = Some (l', r, evs) →
  ∃ all' b' dur' w', Inv o l' (tr ++ evs) all' b' dur' w' ∧ evolves l all b dur l' all' b' dur'.
Proof.
  intros H Hclean Hroom. pose proof (evolves_same l all b dur l eq_refl eq_refl eq_refl) as Hrefl.
  unfold AppendWith. rewrite (iv_opts _ _ _ _ _ _ _ H).
  destruct (size_err o (it_size it)) eqn:Hsize; [intros [= <- <- <-]; rewrite app_nil_r; by eauto 8|].
  destruct (appendable l) eqn:Hap; cbn [negb]; [|intros [= <- <- <-]; rewrite app_nil_r; by eauto 8].
  apply andb_true_iff in Hap as [_ Hop]. destruct (stage_one it l (markLocked l)) as [[[[l1 m1] r1] evs1]|] eqn:Hone; [|done].
  destruct (inv_stage_one o (Origin l all b dur) l tr all b dur w it _ l1 m1 r1 evs1 H (λ _ _ _ _ H, H)
    (rewindable_mark _ (Origin l all b dur) _ _ _ _ _ _ H Hrefl) Hsize Hclean Hroom Hop Hone) as (_ & _ & all1 & b1 & dur1 & w1 & H1 & Hev1 & Hr1).
  destruct r1 as [id|e]; intros [= <- <- <-]; [|by eauto 8]. destruct Hr1 as (p & Hfill & -> & Hid & _).
  rewrite Hfill. cbn [default]. exists (all ++ [p]), b1, dur1, w1. rewrite app_assoc. split; [|done]. apply inv_accepted; [done|].
  constructor; [|constructor]. exists (length all). split; [done|]. by apply list_lookup_middle.
Qed.

Lemma sizes_err_ok o items : sizes_err o items = None → Forall (λ it, size_err o (it_size it) = None) items.
Proof.
  unfold sizes_err. induction items as [|it items IH]; [constructor|]. cbn. destruct (size_err o (it_size it)) eqn:E; [done|].
  intros H. constructor; [done|]. by apply IH.
Qed.

Lemma inv_append_many o l tr all b dur w items l' r evs :
  Inv o l tr all b dur w → Forall (λ it, roll_clean (it_roll it)) items →
  Z.of_nat (length all) + Z.of_nat (length items) < two64 →
  AppendManyWith items l = Some (l', r, evs) →
  ∃ all' b' dur' w', Inv o l' (tr ++ evs) all' b' dur' w' ∧ evolves l all b dur l' all' b' dur'.
Proof.
  intros H Hclean Hroom. pose proof (evolves_same l all b dur l eq_refl eq_refl eq_refl) as Hrefl.
  unfold AppendManyWith. rewrite (iv_opts _ _ _ _ _ _ _ H).
  destruct items as [|it items]; [intros [= <- <- <-]; rewrite app_nil_r; by eauto 8|].
  destruct (sizes_err o (it :: items)) eqn:Hsize; [intros [= <- <- <-]; rewrite app_nil_r; by eauto 8|].
  destruct (appendable l) eqn:Hap; cbn [negb]; [|intros [= <- <- <-]; rewrite app_nil_r; by eauto 8].
  apply andb_true_iff in Hap as [_ Hop].
  destruct (stage_many (it :: items) l (markLocked l) [] []) as [[[l1 r1] evs1]|] eqn:Hmany; [|done].
  assert (Inv o l (tr ++ []) all b dur w) as H0 by by rewrite app_nil_r.
  destruct (inv_stage_many o (Origin l all b dur) (it :: items) l tr all b dur w (markLocked l) [] [] l1 r1 evs1 H0 (λ _ _ _ _ H, H))
    as (all1 & b1 & dur1 & w1 & H1 & Hev1 & Hr1); [by eapply rewindable_mark|constructor| |done..|].
  { apply Forall_and. split; [by apply sizes_err_ok|done]. }
  destruct r1 as [ids|e]; intros [= <- <- <-]; [|by eauto 8].
  exists all1, b1, dur1, w1. rewrite app_assoc. split; [by apply inv_accepted|done].
Qed.
