(* ===== verification/WalCrash.v ===== *)
(** * Compaction, crashes and recovery

    The segments in order, what compaction removes, the states a crash
    leaves, and the log [Open] makes of them. *)

From S2P Require Import Prelude Octets WalFrame WalScan Wal WalRun WalInv.

(** ** Segments in order *)

#[local] Instance by_base_trans : Transitive by_base.
Proof. intros a b c. unfold by_base. lia. Qed.

#[local] Instance by_base_total : Total by_base.
Proof. intros a b. unfold by_base. lia. Qed.

Lemma elem_of_listSegments d base f : (base, f) ∈ listSegments d ↔ d !! base = Some f.
Proof. unfold listSegments. by rewrite merge_sort_Permutation, elem_of_map_to_list. Qed.

Definition ascending (l : list (Z * file)) : Prop := StronglySorted (λ a b, a.1 < b.1) l.

Lemma listSegments_ascending d : ascending (listSegments d).
Proof.
  assert (NoDup (listSegments d).*1) as Hnd.
  { unfold listSegments. eapply NoDup_Permutation_proper; [|apply (NoDup_fst_map_to_list d)].
    by rewrite merge_sort_Permutation. }
  assert (StronglySorted by_base (listSegments d)) as Hs by (apply StronglySorted_merge_sort; apply _).
  unfold ascending. induction Hs as [|a l Hl IH Ha]; [constructor|]. cbn in Hnd. apply NoDup_cons in Hnd as [Hna Hnd].
  constructor; [by apply IH|]. rewrite Forall_forall in Ha |- *. intros x Hx. specialize (Ha x Hx). unfold by_base in Ha.
  assert (a.1 ≠ x.1); [|lia]. intros E. apply Hna. rewrite E. by apply list_elem_of_fmap_2.
Qed.

Lemma ascending_split l1 a l2 :
  ascending (l1 ++ a :: l2) → (∀ x, x ∈ l1 → x.1 < a.1) ∧ (∀ x, x ∈ l2 → a.1 < x.1) ∧ ascending l2 ∧ ascending (a :: l2).
Proof.
  induction l1 as [|y l1 IH]; cbn; intros H.
  - apply StronglySorted_inv in H as Ha. destruct Ha as [Hl Ha]. rewrite Forall_forall in Ha.
    split_and!; [intros x Hx; by apply elem_of_nil in Hx|done|done|done].
  - apply StronglySorted_inv in H as [Hl Hy]. destruct (IH Hl) as (H1 & H2 & H3). split_and!; [|done|apply H3..].
    intros x [->|Hx]%elem_of_cons; [|by apply H1]. rewrite Forall_forall in Hy. apply Hy. rewrite elem_of_app. right. by left.
Qed.

(** The segment with the highest base comes last. *)
Lemma listSegments_last d base f :
  d !! base = Some f → (∀ base' g, d !! base' = Some g → base' <= base) → ∃ l, listSegments d = l ++ [(base, f)].
Proof.
  intros Hf Hmax. apply elem_of_listSegments in Hf. apply list_elem_of_split in Hf as (l1 & l2 & Heq).
  pose proof (listSegments_ascending d) as Hs. rewrite Heq in Hs. destruct (ascending_split _ _ _ Hs) as (_ & Hl2 & _).
  destruct l2 as [|[base' g] l2]; [by exists l1|]. exfalso.
  assert (d !! base' = Some g) as Hg by (apply elem_of_listSegments; rewrite Heq; apply elem_of_app; right; right; by left).
  specialize (Hmax base' g Hg). specialize (Hl2 (base', g) ltac:(by left)). cbn in Hl2. lia.
Qed.

(** ** Compaction *)

Lemma compact_loop_gone segments cp oks ks rs ok :
  compact_loop segments cp oks = (ks, rs, ok) →
  ∀ s, s ∈ rs → ∃ l1 n l2, segments = l1 ++ s :: n :: l2 ∧ n.1 <= cp_seq cp.
Proof.
  revert oks ks rs ok. induction segments as [|s0 rest IH]; intros oks ks rs ok; cbn [compact_loop].
  { intros [= <- <- <-] s Hs. by apply elem_of_nil in Hs. }
  set (keep := _ || _). destruct keep eqn:Hkeep.
  - destruct (compact_loop rest cp oks) as [[ks' rs'] ok'] eqn:E. intros [= <- <- <-] s Hs.
    destruct (IH _ _ _ _ E s Hs) as (l1 & n & l2 & -> & Hn). by exists (s0 :: l1), n, l2.
  - assert (∃ n l2, rest = n :: l2 ∧ n.1 <= cp_seq cp) as (n & l2 & Hrest & Hn).
    { unfold keep in Hkeep. apply orb_false_iff in Hkeep as [_ Hk]. destruct rest as [|n l2]; [done|].
      exists n, l2. split; [done|]. cbn in Hk. by apply Z.ltb_ge in Hk. }
    destruct (compact_loop rest cp (tail oks)) as [[ks' rs'] ok'] eqn:E.
    assert (∀ s, s ∈ s0 :: rs' → ∃ l1 n l2, s0 :: rest = l1 ++ s :: n :: l2 ∧ n.1 <= cp_seq cp) as Hgo.
    { intros s [->|Hs]%elem_of_cons; [by exists [], n, l2; rewrite Hrest|].
      destruct (IH _ _ _ _ E s Hs) as (l1 & n' & l2' & -> & Hn'). by exists (s0 :: l1), n', l2'. }
    destruct (head oks) as [[|]|]; intros [= <- <- <-]; try exact Hgo. intros s Hs. by apply elem_of_nil in Hs.
Qed.

Lemma foldr_delete_lookup (gone : list (Z * file)) (d : dir) base f :
  foldr (λ s, delete s.1) d gone !! base = Some f ↔ d !! base = Some f ∧ base ∉ gone.*1.
Proof.
  induction gone as [|s gone IH]; cbn; [rewrite elem_of_nil; tauto|]. rewrite lookup_delete_Some, IH, elem_of_cons. naive_solver.
Qed.

Lemma foldr_insert_lookup (gone : list (Z * file)) (rm : dir) base f :
  foldr (λ s, <[s.1 := s.2]>) rm gone !! base = Some f → (base, f) ∈ gone ∨ rm !! base = Some f.
Proof.
  induction gone as [|s gone IH]; cbn; [by right|]. rewrite lookup_insert_Some. intros [[<- <-]|[_ H]].
  - left. destruct s. by left.
  - destruct (IH H); [left; by right|by right].
Qed.

Lemma foldr_insert_notin (gone : list (Z * file)) (rm : dir) base :
  base ∉ gone.*1 → foldr (λ s, <[s.1 := s.2]>) rm gone !! base = rm !! base.
Proof. induction gone as [|s gone IH]; cbn; [done|]. intros [? ?]%not_elem_of_cons. by rewrite lookup_insert_ne, IH by congruence. Qed.

Lemma foldr_insert_in (gone : list (Z * file)) (rm : dir) base f :
  base ∈ gone.*1 → (∀ g, (base, g) ∈ gone → g = f) → foldr (λ s, <[s.1 := s.2]>) rm gone !! base = Some f.
Proof.
  induction gone as [|[b g] gone IH]; cbn; [by intros ?%elem_of_nil|]. intros Hin Hall. destruct (decide (b = base)) as [->|Hne].
  - rewrite lookup_insert_eq. f_equal. apply Hall. by left.
  - rewrite lookup_insert_ne by done. apply IH; [by apply elem_of_cons in Hin as [?|?]|]. intros g' Hg'. apply Hall. by right.
Qed.

(** Two ranges from the same start with the same frames are the same. *)
Lemma sealed_inj all x y y' f : sealed all x y f → sealed all x y' f → y = y'.
Proof.
  assert (∀ y y', (y <= y')%nat → sealed all x y f → sealed all x y' f → y = y') as H.
  { intros u v Huv [Hu ->] [Hv E]. injection E as E. rewrite (seg_split all x u v) in E by lia.
    apply (f_equal length) in E. rewrite length_app in E. apply (seg_empty all); [lia|]. apply length_zero_iff_nil. lia. }
  intros H1 H2. destruct (Nat.le_ge_cases y y'); [|symmetry]; by apply H.
Qed.

Lemma segs_ok_subset all b d rm d' rm' :
  segs_ok all b d rm → (∀ base f, d' !! base = Some f ∨ rm' !! base = Some f → d !! base = Some f ∨ rm !! base = Some f) →
  segs_ok all b d' rm'.
Proof.
  intros H Hsub base f Hf. destruct (H base f (Hsub _ _ Hf)) as [?|(x & y & ? & ? & ? & Hn)]; [by left|]. right.
  exists x, y. split_and!; [done..|]. intros base' g Hg. by eapply Hn, Hsub.
Qed.

Lemma evolves_removed o l tr all b dur w (gone : list (Z * file)) l' :
  Inv o l tr all b dur w → disk l' = foldr (λ s, delete s.1) (disk l) gone → removed l' = foldr (λ s, <[s.1 := s.2]>) (removed l) gone →
  durableSize l' = durableSize l → (∀ s, s ∈ gone → disk l !! s.1 = Some s.2 ∧ ∃ n g, disk l !! n = Some g ∧ s.1 < n ∧ n <= cut tr) →
  evolves l all b dur l' all b dur.
Proof.
  intros H Hd Hr Hs Hg. split; [exists (drop dur all); by rewrite take_drop|done| |left; split; [done|lia]].
  intros base f Hne Hf. unfold file_at. rewrite Hd, Hr. destruct (decide (base ∈ gone.*1)) as [Hin|Hin].
  - right. split; [apply eq_None_not_Some; intros [g Hgone]; by apply foldr_delete_lookup in Hgone as [_ ?]|].
    apply foldr_insert_in; [done|]. intros g Hin'. destruct (Hg _ Hin') as [Hdisk _]. cbn in Hdisk.
    destruct Hf as [Hf|[Hf _]]; congruence.
  - destruct Hf as [Hf|[Hf Hrm]]; [left; by apply foldr_delete_lookup|right]. split; [|by rewrite foldr_insert_notin].
    apply eq_None_not_Some. intros [g Hgone]. apply foldr_delete_lookup in Hgone as [? _]. congruence.
Qed.

Lemma inv_compact_finish o l tr all b dur w oks l' :
  Inv o l tr all b dur w → compact_finish oks l = Some l' → Inv o l' tr all b dur w ∧ evolves l all b dur l' all b dur.
Proof.
  intros H. unfold compact_finish. destruct (compacting l) as [cp|] eqn:Hcp; [|done].
  destruct (compact_loop (listSegments (disk l)) cp oks) as [[kept gone] ok] eqn:Hloop. intros [= <-].
  pose proof (compact_loop_gone _ _ _ _ _ _ Hloop) as Hgone. pose proof (listSegments_ascending (disk l)) as Hasc.
  assert (∀ s, s ∈ gone → disk l !! s.1 = Some s.2 ∧ ∃ n g, disk l !! n = Some g ∧ s.1 < n ∧ n <= cut tr) as Hg.
  { intros s Hs. destruct (Hgone s Hs) as (l1 & [n g] & l2 & Heq & Hn). rewrite Heq in Hasc.
    assert (s ∈ listSegments (disk l) ∧ (n, g) ∈ listSegments (disk l)) as [Hs' Hn'].
    { rewrite Heq, !elem_of_app. split; right; [by left|right; by left]. }
    destruct s as [base f]. apply elem_of_listSegments in Hs', Hn'. split; [done|]. exists n, g.
    destruct (ascending_split _ _ _ Hasc) as (_ & Hlt & _). specialize (Hlt (n, g) ltac:(by left)).
    pose proof (iv_compact _ _ _ _ _ _ _ H cp Hcp). cbn in *. split_and!; [done..|lia]. }
  assert (Z.of_nat b ∉ gone.*1) as Hb.
  { intros Hin. apply list_elem_of_fmap in Hin as (s & Hs & Hin). destruct (Hg s Hin) as (_ & n & g & Hn & Hlt & _).
    destruct (iv_segs _ _ _ _ _ _ _ H n g) as [?|(x & y & ? & [? _] & ? & _)]; [by left|lia..]. }
  assert (foldr (λ s, delete s.1) (disk l) gone !! Z.of_nat b = disk l !! Z.of_nat b) as Hdb.
  { destruct (iv_file _ _ _ _ _ _ _ H) as (f & Hf & _). rewrite Hf. apply foldr_delete_lookup. done. }
  split; [|by apply (evolves_removed o l tr all b dur w gone)].
  destruct H. constructor; try done; cbn.
  - by rewrite Hdb.
  - destruct (foldr _ (removed l) gone !! Z.of_nat b) as [f|] eqn:E; [|done]. apply foldr_insert_lookup in E as [E|E]; [|congruence].
    destruct Hb. apply list_elem_of_fmap. by exists (Z.of_nat b, f).
  - by rewrite Hdb.
  - eapply segs_ok_subset; [exact iv_segs|]. intros base f [E|E].
    + apply foldr_delete_lookup in E as [? _]. by left.
    + apply foldr_insert_lookup in E as [E|E]; [|by right]. left. by apply (Hg (base, f)).
  - intros s Hk Hs. destruct (iv_covered s Hk Hs) as (x & y & f & Hx & Hsealed & Hxy & Hyb). exists x, y, f. split_and!; [|done|lia..].
    apply foldr_delete_lookup. split; [done|]. intros Hin. apply list_elem_of_fmap in Hin as ([base g] & E & Hin). cbn in E. subst base.
    destruct (Hg _ Hin) as (_ & n & g' & Hn & Hlt & Hcut). cbn in Hlt.
    destruct (iv_segs (Z.of_nat x) f) as [?|(x' & y' & Ex & Hsealed' & _ & Hnext)]; [by left|lia|]. apply Nat2Z.inj in Ex as <-.
    rewrite (sealed_inj _ _ _ _ _ Hsealed' Hsealed) in Hnext. specialize (Hnext n g' ltac:(by left) Hlt). lia.
Qed.

Lemma inv_compact_event o l tr all b dur w seq :
  Inv o l tr all b dur w → Inv o l (tr ++ [EvCompact seq]) all b dur w.
Proof.
  intros H. assert (cut tr <= cut (tr ++ [EvCompact seq])) as Hc by (rewrite cut_trace_app; lia).
  destruct H. constructor; try done.
  - intros s Hk. apply iv_covered. lia.
  - intros c E. specialize (iv_compact c E). lia.
  - intros s p Hs. apply elem_of_app. left. by apply iv_put.
  - intros id p bt Hin. apply elem_of_app in Hin as [Hin|Hin]; [by apply iv_tags|]. by apply list_elem_of_singleton in Hin.
Qed.

Lemma inv_compacting o l tr all b dur w cp :
  Inv o l tr all b dur w → cp_seq cp <= cut tr →
  Inv o (set_compact (disk l) (removed l) (compactFloor l) (Some cp) l) tr all b dur w.
Proof. intros H Hcp. destruct H. constructor; try done. by intros c [= <-]. Qed.

Lemma inv_compact_start o l tr all b dur w seq ios rio l' evs :
  options_ok o → Inv o l tr all b dur w → roll_clean rio → compact_start seq ios rio l = Some (l', evs) →
  ∃ b' dur' w', Inv o l' (tr ++ evs) all b' dur' w' ∧ evolves l all b dur l' all b' dur'.
Proof.
  intros Ho H Hclean. pose proof (evolves_same l all b dur l eq_refl eq_refl eq_refl) as Hrefl. unfold compact_start. destruct (compacting l) eqn:Hcp; [done|].
  destruct (rotateFullyCompacted seq ios rio l) as [[l1 ok]|] eqn:Hrot; [|done].
  assert (∃ b1 dur1 w1, Inv o l1 tr all b1 dur1 w1 ∧ evolves l all b dur l1 all b1 dur1) as (b1 & dur1 & w1 & H1 & Hev).
  { revert Hrot. unfold rotateFullyCompacted. case_match; [intros [= <- <-]; by eauto|]. case_match eqn:Hsz; [intros [= <- <-]; by eauto|].
    case_match eqn:Hfree; [done|]. apply negb_false_iff in Hfree. intros [= Hsr].
    apply orb_false_iff in Hsz as [_ Hsz]. apply Z.ltb_ge in Hsz. rewrite (iv_opts _ _ _ _ _ _ _ H) in Hsz. destruct Ho.
    by destruct (inv_sync_and_roll _ _ _ _ _ _ _ _ _ _ _ _ H Hfree ltac:(lia) Hclean Hsr). }
  apply (inv_compact_event _ _ _ _ _ _ _ seq) in H1.
  destruct ok; [case_match|]; intros [= <- <-]; exists b1, dur1, w1; [done| |done].
  split; [|by eapply evolves_like; [..|exact Hev]]. apply inv_compacting; [done|]. rewrite cut_trace_app. cbn. lia.
Qed.

(** ** Every step *)

Lemma inv_exec o l tr all b dur w op l' evs :
  options_ok o → Inv o l tr all b dur w → op_ok op l → exec op l = Some (l', evs) →
  ∃ all' b' dur' w', Inv o l' (tr ++ evs) all' b' dur' w' ∧ evolves l all b dur l' all' b' dur'.
Proof.
  intros Ho H (Hclean & Hroom & Hrc) Hex. rewrite (iv_seq _ _ _ _ _ _ _ H) in Hroom.
  assert (∀ r, silent r = Some (l', evs) → r = Some l' ∧ evs = []) as Hsil by (by intros [?|] [= <- <-]).
  destruct op; cbn [exec op_items length] in *.
  - apply Forall_cons in Hclean as [Hclean _]. destruct (AppendWith it l) as [[[l1 r] evs1]|] eqn:E; [|done].
    injection Hex as <- <-. by eapply inv_append.
  - destruct (AppendManyWith items l) as [[[l1 r] evs1]|] eqn:E; [|done]. injection Hex as <- <-. by eapply inv_append_many.
  - apply Hsil in Hex as [Hex ->]. rewrite app_nil_r. apply (inv_detach _ _ _ _ _ _ _ _ H) in Hex as [? [? ?]]. by eauto 8.
  - apply Hsil in Hex as [Hex ->]. rewrite app_nil_r. apply (inv_flush_io _ _ _ _ _ _ _ _ _ H) in Hex as [? [? ?]]. by eauto 8.
  - apply Hsil in Hex as [Hex ->]. rewrite app_nil_r. apply (inv_finish _ _ _ _ _ _ _ _ H) in Hex as [? ?]. by eauto 8.
  - apply Hsil in Hex as [Hex ->]. rewrite app_nil_r. revert Hex. unfold prep_start. case_match; [|done]. intros [= <-].
    exists all, b, dur, w. split; [by apply inv_prep|by apply evolves_same].
  - apply Hsil in Hex as [Hex ->]. rewrite app_nil_r. revert Hex. unfold prep_finish. case_match; [|done]. intros [= <-].
    exists all, b, dur, w. split; [by apply inv_prep|by apply evolves_same].
  - apply (inv_compact_start _ _ _ _ _ _ _ _ _ _ _ _ Ho H Hrc) in Hex as (? & ? & ? & ? & ?). by eauto 8.
  - apply Hsil in Hex as [Hex ->]. rewrite app_nil_r. apply (inv_compact_finish _ _ _ _ _ _ _ _ _ H) in Hex as [? ?]. by eauto 8.
  - apply Hsil in Hex as [[= <-] ->]. rewrite app_nil_r. exists all, b, dur, w. split; [by apply inv_close|by apply evolves_same].
  - apply Hsil in Hex as [Hex ->]. rewrite app_nil_r. revert Hex. unfold close_file. case_match; [|done].
    destruct (flying l) eqn:E1; [done|]. destruct (writeBuffer l) eqn:E2; [|done]. intros [= <-].
    exists all, b, dur, w. split; [by apply inv_close_file|by apply evolves_same].
Qed.

(** ** What a crash leaves *)

Lemma lookup_prefix (c f : octets) : (∀ i x, c !! i = Some x → f !! i = Some x) → c `prefix_of` f.
Proof.
  revert f. induction c as [|x c IH]; intros f H; [apply prefix_nil|].
  destruct f as [|y f]; [specialize (H 0%nat x eq_refl); by rewrite lookup_nil in H|]. specialize (H 0%nat x eq_refl) as Hx. injection Hx as ->.
  apply prefix_cons, IH. intros i z. apply (H (S i) z).
Qed.

Lemma prefix_lookup (a c : octets) i x : a `prefix_of` c → a !! i = Some x → c !! i = Some x.
Proof. intros [r ->] H. by apply lookup_app_l_Some. Qed.

Lemma prefix_firstn (a c : octets) : a `prefix_of` c → take (length a) c = a.
Proof. intros [r ->]. apply take_app_length. Qed.

(** Data both written and synced is in every image. *)
Lemma image_prefix a f c : a `prefix_of` cur f → a `prefix_of` syn f → file_image f c → a `prefix_of` c.
Proof.
  intros Hc Hs [Hl Hb]. apply prefix_length in Hc as Hlc. apply prefix_length in Hs as Hls.
  apply lookup_prefix. intros i x Hx. assert (i < length c)%nat as Hi by (apply lookup_lt_Some in Hx; lia).
  destruct (lookup_lt_is_Some_2 c i Hi) as [y Hy]. rewrite Hy. f_equal.
  pose proof (prefix_lookup _ _ _ _ Hc Hx). pose proof (prefix_lookup _ _ _ _ Hs Hx). destruct (Hb i y Hy); congruence.
Qed.

(** An image holds nothing that was not written. *)
Lemma image_within f c full : cur f `prefix_of` full → syn f `prefix_of` full → file_image f c → c `prefix_of` full.
Proof.
  intros Hc Hs [_ Hb]. apply lookup_prefix. intros i x Hx. destruct (Hb i x Hx); [exact (prefix_lookup _ _ _ _ Hc H)|exact (prefix_lookup _ _ _ _ Hs H)].
Qed.

Lemma image_same s c : file_image (File s s) c → c = s.
Proof.
  intros H. assert (s `prefix_of` c) as H1 by by apply (image_prefix s (File s s)).
  assert (c `prefix_of` s) as H2 by by apply (image_within (File s s)).
  apply prefix_length_eq; [done|]. by apply prefix_length in H1.
Qed.

(** ** The directory a crash leaves *)

(** The last segment starts with the records [b..n) and no others; the
    segments before it are sealed, with no record from [k] on missing. *)
Record image (m : Z) (all : list octets) (k : Z) (b n : nat) (d : dir) : Prop := {
  im_le : (b <= n <= length all)%nat;
  im_last : ∃ c, d !! Z.of_nat b = Some (File c c) ∧ records m c = numbered (Z.of_nat b) (slice all b n)
    ∧ take (length (seg all b n)) c = seg all b n;
  im_segs : segs_ok all b d ∅;
  im_covered : covered all k b d;
}.

Section Crash.
Context (o : Options) (l : Log) (tr : list wal_event) (all : list octets) (b dur w : nat) (d : dir).
Hypothesis Hopts : options_ok o.
Hypothesis HI : Inv o l tr all b dur w.
Hypothesis Hcrash : crash l d.

Let N := length all.
Let m := MaxRecord o.

(** The directory without the segment a roll was creating. *)
Let d0 : dir := if decide (b = N) then d else delete (Z.of_nat N) d.

Lemma bases_below base f : disk l !! base = Some f ∨ removed l !! base = Some f → base <= Z.of_nat b.
Proof. intros Hf. destruct (iv_segs _ _ _ _ _ _ _ HI base f Hf) as [->|(x & y & -> & [? _] & ? & _)]; lia. Qed.

(** A segment of the image, other than the active one and one being
    created, is a segment of the log, unharmed. *)
Lemma crash_old base g :
  d !! base = Some g → base ≠ Z.of_nat b → base ≠ Z.of_nat N → disk l !! base = Some g ∨ removed l !! base = Some g.
Proof.
  intros Hg Hne HneN. pose proof (iv_base _ _ _ _ _ _ _ HI) as Hb.
  assert (∀ f, disk l !! base = Some f ∨ removed l !! base = Some f → file_image f (cur g) → syn g = cur g → g = f) as Hgo.
  { intros f Hf Hi Hs. destruct (iv_segs _ _ _ _ _ _ _ HI base f Hf) as [?|(x & y & _ & [_ ->] & _ & _)]; [done|].
    apply image_same in Hi. destruct g as [c s]. cbn in *. congruence. }
  destruct (cr_only _ _ Hcrash base g Hg) as [[f Hf]|[(f & Hf & Hi & Hs)|(_ & E & _)]].
  - destruct (cr_keeps _ _ Hcrash base f Hf) as (c & Hc & [Hi|(E & _)]); [|congruence].
    rewrite Hc in Hg. injection Hg as <-. left. rewrite Hf. f_equal. symmetry. by apply Hgo; [left|..].
  - right. rewrite Hf. f_equal. symmetry. by apply Hgo; [right|..].
  - rewrite (iv_seq _ _ _ _ _ _ _ HI) in E. done.
Qed.

Lemma crash_segs : segs_ok all b d0 ∅ ∧ covered all (cut tr) b d0.
Proof.
  assert (∀ base g, d0 !! base = Some g → d !! base = Some g ∧ (base = Z.of_nat b ∨ base ≠ Z.of_nat N)) as Hd0.
  { intros base g. unfold d0. destruct (decide (b = N)) as [E|]; [|rewrite lookup_delete_Some; intros [? ?]; split; [done|right; congruence]].
    intros Hg. split; [done|]. rewrite <-E. destruct (decide (base = Z.of_nat b)); [by left|by right]. }
  assert (∀ base g, d0 !! base = Some g → base = Z.of_nat b ∨ disk l !! base = Some g ∨ removed l !! base = Some g) as Hin.
  { intros base g Hg. destruct (Hd0 base g Hg) as [Hd HN]. destruct (decide (base = Z.of_nat b)); [by left|]. right.
    apply crash_old; [done..|]. by destruct HN. }
  split.
  - intros base g [Hg|Hg]; [|by rewrite lookup_empty in Hg]. destruct (Hin base g Hg) as [?|Hold]; [by left|].
    destruct (iv_segs _ _ _ _ _ _ _ HI base g Hold) as [?|(x & y & -> & Hs & Hy & Hn)]; [by left|]. right.
    exists x, y. split_and!; [done..|]. intros base' g' [Hg'|Hg'] Hlt; [|by rewrite lookup_empty in Hg'].
    destruct (Hin base' g' Hg') as [->|Hold']; [lia|]. by eapply Hn.
  - intros s Hk Hs. destruct (iv_covered _ _ _ _ _ _ _ HI s Hk Hs) as (x & y & f & Hf & Hsealed & Hxy & Hyb). destruct Hsealed as [Hx ->].
    exists x, y, (File (seg all x y) (seg all x y)). split_and!; [|split; [lia|done]|lia..].
    destruct (cr_keeps _ _ Hcrash _ _ Hf) as (c & Hc & [Hi%image_same|(E & _)]).
    + subst c. unfold d0. destruct (decide (b = N)); [done|]. rewrite lookup_delete_ne by lia. done.
    + rewrite (iv_base _ _ _ _ _ _ _ HI) in E. lia.
Qed.

(** The active segment's image. *)
Lemma crash_active c :
  d !! Z.of_nat b = Some (File c c) → ∃ f, disk l !! Z.of_nat b = Some f ∧ active_ok all b dur (activePrepared l) f ∧
    ∃ f', (f' = f ∨ f' = trimmed l f) ∧ file_image f' c ∧ seg all b dur `prefix_of` cur f' ∧ seg all b dur `prefix_of` syn f'.
Proof.
  intros Hc. destruct (iv_file _ _ _ _ _ _ _ HI) as (f & Hf & Ha). exists f. split_and!; [done..|].
  pose proof (iv_le _ _ _ _ _ _ _ HI). destruct (cr_keeps _ _ Hcrash _ _ Hf) as (c' & Hc' & Hi). rewrite Hc in Hc'. injection Hc' as <-.
  destruct Hi as [Hi|(_ & _ & Hi)]; [exists f|exists (trimmed l f)]; (split_and!; [by auto|done| |apply Ha]); [apply Ha|].
  cbn. rewrite (iv_size _ _ _ _ _ _ _ HI), Nat2Z.id. destruct (ac_cur _ _ _ _ _ Ha) as [r ->].
  assert (length (seg all b dur) <= length (seg all b (length all)))%nat by (apply seg_mono; lia).
  rewrite take_app_ge by done. by eexists.
Qed.

(** When no segment was being created. *)
Lemma crash_image_active :
  (b = N ∨ d !! Z.of_nat N = None) →
  ∃ n, image m all (cut tr) b n d ∧ (dur <= n)%nat ∧
    (activePrepared l = false → ∀ c, d !! Z.of_nat b = Some (File c c) → readFrame m (drop (length (seg all b n)) c) = RdEnd).
Proof.
  intros HN. destruct crash_segs as [Hsegs Hcov]. assert (d0 = d) as Hd.
  { unfold d0. destruct (decide (b = N)); [done|]. destruct HN as [|HN]; [done|]. by rewrite delete_id. }
  rewrite Hd in Hsegs, Hcov. destruct (iv_file _ _ _ _ _ _ _ HI) as (f0 & Hf0 & _).
  destruct (cr_keeps _ _ Hcrash _ _ Hf0) as (c & Hc & _). destruct (crash_active c Hc) as (f & Hf & Ha & f' & Hf' & Hi & Hpc & Hps).
  pose proof (iv_le _ _ _ _ _ _ _ HI) as Hle. fold N in Hle. pose proof (image_prefix _ _ _ Hpc Hps Hi) as Hpre.
  assert (m < 2 ^ 32) as Hm by (destruct Hopts; unfold m; lia).
  assert (∀ h, (b <= h <= N)%nat → Forall (payload_ok m) (slice all b h) ∧ seqs_ok (Z.of_nat b) (length (slice all b h))) as Hsl.
  { intros h Hh. split; [apply slice_forall, HI|]. rewrite length_slice by (unfold N in Hh; lia). pose proof (iv_room _ _ _ _ _ _ _ HI). split; lia. }
  assert (∃ h v, (dur <= h <= N)%nat ∧ take v c = take v (seg all b h) ∧ records m c = records m (take v (seg all b h))
    ∧ (length (seg all b dur) <= v)%nat ∧ (activePrepared l = false → c = take v (seg all b h)))
    as (h & v & Hh & Htake & Hrec & Hv & Hplain).
  { destruct (activePrepared l) eqn:Eap.
    - pose proof (cr_torn _ _ Hcrash Eap (File c c)) as Ht. rewrite (iv_base _ _ _ _ _ _ _ HI), (iv_opts _ _ _ _ _ _ _ HI) in Ht.
      specialize (Ht Hc). cbn [cur] in Ht. fold m in Ht. destruct (iv_handed _ _ _ _ _ _ _ HI) as (h & Hh & Hhd); rewrite Hhd in Ht.
      set (v := rsizes (records m c)) in *. assert (v <= length c)%nat by apply records_length.
      apply prefix_firstn in Ht as Ht'. rewrite length_take, Nat.min_l in Ht' by done.
      exists h, v. fold N in Hh. split_and!; [lia|lia|by rewrite Ht'|by rewrite Ht'; unfold v; rewrite records_take| |done].
      destruct Hpre as [r Hr]. unfold v. rewrite Hr. destruct (Hsl dur ltac:(lia)). unfold seg.
      rewrite records_frames, rsizes_app, rsizes_numbered by done. lia.
    - assert (c `prefix_of` seg all b N) as Hw.
      { destruct (ac_plain _ _ _ _ _ Ha eq_refl) as (j & k & _ & Hs & Hcu). eapply (image_within f'); [..|exact Hi].
        - destruct Hf' as [-> | ->]; cbn; rewrite Hcu; rewrite ?take_take; apply prefix_take.
        - destruct Hf' as [-> | ->]; cbn; rewrite Hs; apply prefix_take. }
      apply prefix_firstn in Hw as Hw'. exists N, (length c). rewrite Hw', firstn_all.
      apply prefix_length in Hpre. split_and!; [lia|lia|done|done|done|done]. }
  destruct (Hsl h ltac:(lia)) as [Hpay Hseq].
  destruct (frames_cut m (Z.of_nat b) (slice all b h) v Hm Hpay Hseq) as (n & Hn & Hr & Hend & Hpre' & Hmax).
  rewrite length_slice in Hn by lia. assert (take n (slice all b h) = slice all b (b + n)) as Hsn.
  { unfold slice. rewrite take_take. f_equal. lia. }
  rewrite Hsn in *. fold (seg all b (b + n)) in *. fold (seg all b h) in *.
  assert (length (seg all b (b + n)) <= v)%nat as Hnv.
  { apply (f_equal length) in Hpre'. rewrite !length_take in Hpre'. lia. }
  exists (b + n)%nat. split_and!.
  - split; [lia| |done|done]. exists c. split_and!; [done|by rewrite Hrec|].
    rewrite <-Hpre' at 2. rewrite take_take, Nat.min_l by done.
    rewrite <-(Nat.min_l (length (seg all b (b + n))) v), <-!take_take, Htake by done. done.
  - specialize (Hmax (dur - b)%nat). rewrite length_slice in Hmax by lia.
    assert (take (dur - b) (slice all b h) = slice all b dur) as Hsd by (unfold slice; rewrite take_take; f_equal; lia).
    rewrite Hsd in Hmax. specialize (Hmax ltac:(lia) Hv). lia.
  - intros E c' Hc'. rewrite Hc in Hc'. injection Hc' as <-. rewrite (Hplain E). exact Hend.
Qed.

(** When a roll had created the next segment. *)
Lemma crash_image_fresh g :
  (b < N)%nat → d !! Z.of_nat N = Some g →
  image m all (cut tr) N N d ∧ dur = N ∧ (cur g = [] ∨ spareReady l = true) ∧ g = File (cur g) (cur g).
Proof.
  intros HbN Hg. destruct crash_segs as [Hsegs Hcov].
  assert (∀ f, disk l !! Z.of_nat N = Some f ∨ removed l !! Z.of_nat N = Some f → False) as Hno.
  { intros f Hf%bases_below. lia. }
  destruct (cr_only _ _ Hcrash _ _ Hg) as [[f Hf]|[(f & Hf & _)|(Hroll & _ & Hcre & Hsyn & Htrim)]]; [by destruct (Hno f); auto..|].
  destruct Hroll as (Hbuf & Hfree & Hw & _). destruct (quiet_durable _ _ _ _ _ _ _ HI Hfree Hbuf Hw) as [-> ->].
  assert (d0 = delete (Z.of_nat N) d) as Hd0 by (unfold d0; by rewrite decide_False by lia).
  assert (d0 !! Z.of_nat b = Some (File (seg all b N) (seg all b N))) as Hb.
  { rewrite Hd0, lookup_delete_ne by lia. destruct (iv_file _ _ _ _ _ _ _ HI) as (f & Hf & Ha).
    assert (cur (trimmed l f) = seg all b N) as Htr.
    { cbn. rewrite (iv_size _ _ _ _ _ _ _ HI), Nat2Z.id. apply prefix_firstn, Ha. }
    destruct (activePrepared l) eqn:Eap.
    - rewrite (iv_base _ _ _ _ _ _ _ HI) in Htrim. rewrite (Htrim f Hf eq_refl), Htr. done.
    - pose proof (he_plain _ _ _ _ _ _ _ _ _ _ (iv_healthy _ _ _ _ _ _ _ HI Hw) Eap) as Hpl. rewrite Hf in Hpl. injection Hpl as ->.
      destruct (cr_keeps _ _ Hcrash _ _ Hf) as (c & -> & [Hi|(_ & _ & Hi)]); [by rewrite (image_same _ _ Hi)|].
      cbn in Htr. unfold trimmed in Hi. cbn in Hi. rewrite Htr in Hi. by rewrite (image_same _ _ Hi). }
  assert (g = File (cur g) (cur g)) as Hgg by (destruct g; cbn in *; congruence).
  assert (<[Z.of_nat N := g]> d0 = d) as Hins by (rewrite Hd0; by apply insert_delete_id).
  destruct (segs_ok_roll all b d0 ∅ g HbN Hb (lookup_empty _) Hsegs) as [Hsegs' _].
  pose proof (covered_roll all (cut tr) b d0 g HbN Hb Hcov) as Hcov'. fold N in Hsegs', Hcov'. rewrite Hins in Hsegs', Hcov'.
  split_and!; [split; [lia| |done|done]|done|by destruct Hcre as [?|[? _]]; auto|done].
  exists (cur g). rewrite <-Hgg, seg_nil. split_and!; [done| |done].
  replace (slice all N N) with (@nil octets) by (unfold slice; by rewrite Nat.sub_diag). cbn [numbered].
  destruct Hcre as [->|[_ ->]]; [done|]. unfold prepared_file, appendPrepTrailer.
  apply records_zeros. rewrite (iv_opts _ _ _ _ _ _ _ HI). destruct Hopts. lia.
Qed.

End Crash.

(** ** Opening *)

Lemma numbered_nil s ps : numbered s ps = [] ↔ ps = [].
Proof. by destruct ps. Qed.

(** The scan of segments that hold ranges in order: what the last one's
    scan makes of it. *)
Lemma scanForOpen_segments m all (ls : list (Z * file)) b c nxt :
  m < 2 ^ 32 → Forall (payload_ok m) all → Z.of_nat (length all) < two64 →
  (∀ base f, (base, f) ∈ ls → ∃ x y, base = Z.of_nat x ∧ sealed all x y f ∧ (y <= b)%nat ∧
     ∀ base' g, (base', g) ∈ ls → base < base' → Z.of_nat y <= base') →
  ascending ls → 0 <= nxt <= Z.of_nat b → (∀ base f, (base, f) ∈ ls → nxt <= base) →
  ∃ nxt', 0 <= nxt' <= Z.of_nat b ∧
  scanForOpen (((λ s, (s.1, cur s.2)) <$> ls) ++ [(Z.of_nat b, c)]) m nxt =
    let! st := scanSegment (Z.of_nat b) c m true in
    Ok (if sawRecord st && (nxt' <=? maxSeq st) then u64 (maxSeq st + 1) else nxt', validEnd st).
Proof.
  intros Hm Hpay Hroom. revert nxt. induction ls as [|[base f] ls IH]; intros nxt Hls Hasc Hnxt Hle.
  { exists nxt. split; [done|]. cbn [fmap list_fmap app scanForOpen]. done. }
  destruct (Hls base f ltac:(by left)) as (x & y & -> & [Hxy ->] & Hyb & Hnext).
  apply (ascending_split []) in Hasc as (_ & Hlt & Hasc' & _).
  destruct (IH (Z.of_nat y)) as (nxt' & Hnxt' & Heq).
  - intros base' g Hg. destruct (Hls base' g ltac:(by right)) as (x' & y' & ? & ? & ? & Hn'). exists x', y'. split_and!; [done..|].
    intros base'' g'' Hg''. apply (Hn' base'' g''). by right.
  - done.
  - lia.
  - intros base' g Hg. apply (Hnext base' g); [by right|]. by apply (Hlt (base', g)).
  - exists nxt'. split; [done|]. rewrite <-Heq. cbn [fmap list_fmap app scanForOpen fst snd cur].
    assert (records m (seg all x y) = numbered (Z.of_nat x) (slice all x y)) as Hrec.
    { rewrite <-(app_nil_r (seg all x y)). unfold seg. rewrite records_frames; [apply app_nil_r|done|by apply slice_forall|].
      rewrite length_slice by lia. split; lia. }
    assert (slice all x y ≠ []) as Hne by (intros E; apply (f_equal length) in E; rewrite length_slice in E by lia; cbn in E; lia).
    set (lastp := match _ ++ _ with [] => true | _ => false end).
    rewrite scanSegment_end; [|rewrite Hrec, rsizes_numbered; fold (seg all x y); by rewrite drop_ge].
    cbn [rbind]. rewrite Hrec. unfold scan_of. cbn [sawRecord maxSeq validEnd].
    rewrite bool_decide_eq_false_2 by by rewrite numbered_nil. cbn [negb andb].
    specialize (Hle (Z.of_nat x) _ ltac:(by left)).
    rewrite last_seq_numbered by (done || lia). rewrite length_slice by lia.
    rewrite (proj2 (Z.leb_le _ _)) by lia.
    replace (u64 (Z.of_nat x + Z.of_nat (y - x) - 1 + 1)) with (Z.of_nat y) by (unfold u64; rewrite Z.mod_small; lia).
    destruct ls; done.
Qed.

(** The log that [Open] makes of an image. *)
Definition opened (o : Options) (all : list octets) (b n : nat) (d : dir) (oc : gmap nat bool) (nb : nat) : Log :=
  MkLog o (<[Z.of_nat b := File (seg all b n) (seg all b n)]> d) ∅ (length (seg all b n)) true false (Z.of_nat b)
    (Z.of_nat (length (seg all b n))) (Z.of_nat n) [] None false false false 0 (Z.of_nat (length (seg all b n)))
    false false false false None None oc nb (seg all b n).

Lemma open_image raw all k b n d oc nb :
  let o := normalizeOptions raw in
  options_ok o → Forall (payload_ok (MaxRecord o)) all → Z.of_nat (length all) < two64 →
  image (MaxRecord o) all k b n d →
  (∀ l', Open raw d oc nb = Ok l' → l' = opened o all b n d oc nb)
  ∧ (∀ c, d !! Z.of_nat b = Some (File c c) → readFrame (MaxRecord o) (drop (length (seg all b n)) c) = RdEnd →
       Open raw d oc nb = Ok (opened o all b n d oc nb)).
Proof.
  intros o Ho Hpay Hroom [Hle (c & Hc & Hrec & Htake) Hsegs _]. unfold Open. fold o.
  rewrite (decide_False (P := d = ∅)) by (intros E; rewrite E, lookup_empty in Hc; done).
  assert (∀ base g, d !! base = Some g → base <= Z.of_nat b) as Hmax.
  { intros base g Hg. destruct (Hsegs base g ltac:(by left)) as [->|(x & y & -> & [? _] & ? & _)]; lia. }
  destruct (listSegments_last d _ _ Hc Hmax) as [ls Hls]. rewrite Hls.
  pose proof (listSegments_ascending d) as Hasc. rewrite Hls in Hasc. destruct (ascending_split _ _ _ Hasc) as (Hbelow & _).
  assert (∀ s, s ∈ ls → d !! s.1 = Some s.2) as Hin.
  { intros [base f] Hs. apply elem_of_listSegments. rewrite Hls, elem_of_app. by left. }
  assert (ascending ls) as Hasc'.
  { unfold ascending in *. clear -Hasc. induction ls as [|a ls IH]; [constructor|]. cbn in Hasc.
    apply StronglySorted_inv in Hasc as [H1 H2]. constructor; [by apply IH|]. by apply Forall_app in H2 as [? _]. }
  destruct (scanForOpen_segments (MaxRecord o) all ls b c 0) as (nxt & Hnxt & Hscan); [destruct Ho; lia|done|done| |done|lia| |].
  { intros base f Hs. destruct (Hsegs base f ltac:(left; apply (Hin (base, f)); done)) as [->|(x & y & -> & Hse & Hy & Hn)].
    - specialize (Hbelow _ Hs). cbn in Hbelow. lia.
    - exists x, y. split_and!; [done..|]. intros base' g Hg. apply (Hn base' g). left. by apply (Hin (base', g)). }
  { intros base f Hs. specialize (Hin _ Hs). cbn in Hin. destruct (Hsegs base f ltac:(by left)) as [->|(x & y & -> & _)]; lia. }
  rewrite fmap_app. cbn [fmap list_fmap fst snd cur]. rewrite Hscan, last_snoc.
  assert (∀ st, st = scan_of (records (MaxRecord o) c) →
    validEnd st = length (seg all b n) ∧
    (let seq := if sawRecord st && (nxt <=? maxSeq st) then u64 (maxSeq st + 1) else nxt in if seq <? Z.of_nat b then Z.of_nat b else seq) = Z.of_nat n) as Hst.
  { intros st ->. rewrite Hrec. unfold scan_of. cbn [validEnd sawRecord maxSeq]. rewrite rsizes_numbered. split; [done|].
    destruct (decide (b = n)) as [->|Hbn].
    - unfold slice. rewrite Nat.sub_diag, take_0. cbn. case_match; lia.
    - assert (slice all b n ≠ []) as Hne by (intros E; apply (f_equal length) in E; rewrite length_slice in E by lia; cbn in E; lia).
      rewrite bool_decide_eq_false_2 by by rewrite numbered_nil. cbn [negb andb]. rewrite last_seq_numbered by (done || lia).
      rewrite length_slice by lia. rewrite (proj2 (Z.leb_le _ _)) by lia.
      replace (u64 (Z.of_nat b + Z.of_nat (n - b) - 1 + 1)) with (Z.of_nat n) by (unfold u64; rewrite Z.mod_small; unfold two64 in *; lia).
      by rewrite (proj2 (Z.ltb_ge _ _)) by lia. }
  split.
  - intros l'. destruct (scanSegment (Z.of_nat b) c (MaxRecord o) true) as [st|] eqn:Hsc; [|done]. cbn [rbind].
    apply scanSegment_ok in Hsc. destruct (Hst st Hsc) as [Hv Hs]. cbn zeta in Hs. rewrite Hs, Hv. cbn [cur]. rewrite Htake. by intros [= <-].
  - intros c' Hc' Hend. rewrite Hc in Hc'. injection Hc' as <-. rewrite scanSegment_end by by rewrite Hrec, rsizes_numbered.
    cbn [rbind]. destruct (Hst _ eq_refl) as [Hv Hs]. cbn zeta in Hs. rewrite Hs, Hv. cbn [cur]. by rewrite Htake.
Qed.

Lemma sealed_take all n x y f : (y <= n)%nat → sealed all x y f → sealed (take n all) x y f.
Proof. intros Hy [Hxy ->]. split; [len|]. by rewrite seg_take. Qed.

(** A log opened on an image satisfies the invariant for the records it
    found. *)
Lemma inv_opened o tr all b n d oc nb :
  Forall (payload_ok (MaxRecord o)) all → Z.of_nat (length all) < two64 → image (MaxRecord o) all (cut tr) b n d →
  (∀ bt, is_Some (oc !! bt) → (bt < nb)%nat) → (∀ s p, all !! s = Some p → EvPut (Z.of_nat s) p ∈ tr) →
  (∀ id p bt, EvAccepted id p bt ∈ tr → (bt < nb)%nat ∧ ∃ s, id_Seq id = Z.of_nat s ∧
     (oc !! bt = Some true → (s < n)%nat ∧ all !! s = Some p)) →
  Inv o (opened o all b n d oc nb) tr (take n all) b n n.
Proof.
  intros Hpay Hroom [Hle (c & Hc & _ & _) Hsegs Hcov] Hoc Hput Htags.
  assert (length (take n all) = n) as Hn by len. assert (seg (take n all) b n = seg all b n) as Hseg by by rewrite seg_take.
  constructor; try done; cbn [opened opts disk removed fpos open segmentBase segmentSize nextSeq writeBuffer pending syncErr
    writeFailed durableSize activePrepared flying compacting outcomes nextBatch handed]; rewrite ?Hn, ?Hseg.
  - by apply Forall_take.
  - lia.
  - lia.
  - done.
  - done.
  - eexists. rewrite lookup_insert_eq. split; [done|]. pose proof (plain_active_ok (take n all) b) as Hp. rewrite Hn, Hseg in Hp. apply Hp. lia.
  - intros _. rewrite lookup_insert_eq.
    split; rewrite ?Hn, ?Hseg, ?seg_nil; try done; lia.
  - exists n. rewrite Hseg. split; [lia|done].
  - exists n. rewrite Hseg. split; [lia|done].
  - intros [(? & ? & _)|?]; done.
  - apply segs_ok_active; [by eexists|]. intros base f Hf. destruct (Hsegs base f Hf) as [?|(x & y & ? & ? & ? & ?)]; [by left|].
    right. exists x, y. split_and!; [done|apply sealed_take; [lia|done]|done..].
  - apply covered_active. intros s Hk Hs. destruct (Hcov s Hk Hs) as (x & y & f & ? & ? & ? & ?). exists x, y, f.
    split_and!; [done|apply sealed_take; [lia|done]|lia..].
  - intros s p Hs. apply Hput. by apply lookup_take_Some in Hs as [? _].
  - intros id p bt Hin. destruct (Htags id p bt Hin) as (? & s & ? & Ha). exists s. split; [done|]. split; [done| |done|done].
    intros E. destruct (Ha E). split; [done|]. by rewrite lookup_take_lt.
Qed.

(** ** Every life *)

Lemma crash_image o l tr all b dur w d :
  options_ok o → Inv o l tr all b dur w → crash l d →
  ∃ b' n, image (MaxRecord o) all (cut tr) b' n d ∧ (dur <= n)%nat ∧
    (activePrepared l = false → spareReady l = false →
     ∀ c, d !! Z.of_nat b' = Some (File c c) → readFrame (MaxRecord o) (drop (length (seg all b' n)) c) = RdEnd).
Proof.
  intros Ho HI Hc. pose proof (iv_le _ _ _ _ _ _ _ HI) as Hle.
  destruct (decide (b = length all ∨ d !! Z.of_nat (length all) = None)) as [HN|HN].
  - destruct (crash_image_active o l tr all b dur w d Ho HI Hc HN) as (n & ? & ? & Hend). exists b, n. split_and!; [done..|]. intros E _. by apply Hend.
  - assert (b ≠ length all) as Hb by tauto. assert (d !! Z.of_nat (length all) ≠ None) as HN' by tauto. clear HN. destruct (d !! Z.of_nat (length all)) as [g|] eqn:Hg; [|done].
    destruct (crash_image_fresh o l tr all b dur w d Ho HI Hc g ltac:(lia) Hg) as (? & ? & Hcur & Hgg).
    exists (length all), (length all). split_and!; [done|lia|]. intros _ Hsp c Hc'. rewrite Hg in Hc'. injection Hc' as Hc'.
    destruct Hcur as [Hcur|]; [|congruence]. rewrite Hc' in Hcur. cbn in Hcur. subst c. by rewrite drop_nil.
Qed.

Theorem reached_inv raw l tr :
  options_ok (normalizeOptions raw) → reached raw l tr → ∃ all b dur w, Inv (normalizeOptions raw) l tr all b dur w.
Proof.
  intros Ho. set (o := normalizeOptions raw) in *. induction 1 as [l Hopen|l tr op l' evs _ IH Hop Hex|l tr d l' _ IH Hcr Hopen].
  - assert (image (MaxRecord o) [] 0 0 0 {[0 := File [] []]}) as Him.
    { split; [done| |intros base f [Hf|Hf]; [|done]; apply lookup_singleton_Some in Hf as [<- _]; by left|intros s _ Hs; lia].
      exists []. by rewrite lookup_singleton_eq. }
    destruct (open_image raw [] 0 0 0 {[0 := File [] []]} ∅ 0 Ho ltac:(constructor) ltac:(done) Him) as [Heq _].
    rewrite (Heq l Hopen). exists (take 0 []), 0%nat, 0%nat, 0%nat. apply (inv_opened o []); try done.
    + intros bt [x Hx]. by rewrite lookup_empty in Hx.
    + intros id p bt Hin. by apply elem_of_nil in Hin.
  - destruct IH as (all & b & dur & w & HI). destruct (inv_exec _ _ _ _ _ _ _ _ _ _ Ho HI Hop Hex) as (all' & b' & dur' & w' & ? & _). by eauto.
  - destruct IH as (all & b & dur & w & HI). destruct (crash_image o l tr all b dur w d Ho HI Hcr) as (b' & n & Him & Hn & _).
    destruct (open_image raw all (cut tr) b' n d (outcomes l) (nextBatch l) Ho) as [Heq _]; [apply HI..|done|].
    rewrite (Heq l' Hopen). exists (take n all), b', n, n. apply inv_opened; try done; [apply HI..|].
    intros id p bt Hin. destruct (iv_tags _ _ _ _ _ _ _ HI id p bt Hin) as (s & Hs & [T1 T2 _ _]). split; [done|].
    exists s. split; [done|]. intros E. destruct (T2 E). split; [lia|done].
Qed.
