(* ===== verification/WalReplay.v ===== *)
(** * Replay against the records of a log

    The records a log holds durably, segment by segment, and that replay
    from a cursor feeds exactly those at or after it to its callback. *)

From S2P Require Import Prelude Octets WalFrame WalScan Wal WalRun WalInv WalCrash.

(** Records with their place in a segment, and the cursor after each. *)
Fixpoint located (base : Z) (off : nat) (rs : list (Z * octets)) : list (WalRecord * Cursor) :=
  match rs with
  | [] => []
  | (q, p) :: rs =>
      let off' := (off + frameHeaderSize + length p)%nat in
      (MkRecord (MkID base off q) p, MkCursor base off' (u64 (q + 1))) :: located base off' rs
  end.

(** What a segment holds durably: an active one up to its synced size. *)
Definition durable_part (l : Log) (s : Z * file) : octets :=
  if decide (s.1 = segmentBase l) then take (Z.to_nat (durableSize l)) (cur s.2) else cur s.2.

Definition durable_records (l : Log) : list (WalRecord * Cursor) :=
  concat ((λ s, located s.1 0 (records (MaxRecord (opts l)) (durable_part l s))) <$> listSegments (disk l)).

Definition rec_pair (rc : WalRecord * Cursor) : Z * octets := (id_Seq (rec_ID rc.1), rec_Payload rc.1).

(** A replay starts at the beginning of the log, where an earlier replay was
    told to resume, or in a segment since compacted away whose predecessors
    are done with. *)
Definition cursor_ok (l : Log) (c : Cursor) : Prop :=
  (c_SegmentBase c = 0 ∧ c_Offset c = 0%nat ∧ 0 <= c_Seq c) ∨ c ∈ (durable_records l).*2 ∨
  (disk l !! c_SegmentBase c = None ∧ 0 <= c_SegmentBase c <= c_Seq c ∧
   ∀ rc, rc ∈ durable_records l → id_SegmentBase (rec_ID rc.1) < c_SegmentBase c → id_Seq (rec_ID rc.1) < c_Seq c).

(** The records a segment holds durably, whether it is listed or removed. *)
Definition held_records (l : Log) (base : Z) (f : file) : list (Z * octets) := records (MaxRecord (opts l)) (durable_part l (base, f)).

(** A cursor the log handed out in this life: at a durable record or after
    one, in a segment that may have been removed since; or at the
    beginning. *)
Definition placed (l : Log) (c : Cursor) : Prop :=
  (c_SegmentBase c = 0 ∧ c_Offset c = 0%nat ∧ 0 <= c_Seq c)
  ∨ ∃ f i, file_at l (c_SegmentBase c) f ∧ (i <= length (held_records l (c_SegmentBase c) f))%nat
      ∧ c_Offset c = rsizes (take i (held_records l (c_SegmentBase c) f)) ∧ c_Seq c = c_SegmentBase c + Z.of_nat i.

Section Feed.
Context {A E : Type} (fn : A → WalRecord → Cursor → result E A) (peek : option (A → RecordID → Cursor → result E bool)).

(** The callbacks on a list of records: [peek] may pass over one, either may
    stop. *)
Fixpoint feed (rs : list (WalRecord * Cursor)) (a : A) : A * result (@replay_err E) unit :=
  match rs with
  | [] => (a, Ok tt)
  | (r, c) :: rs =>
      match match peek with None => Ok false | Some pk => pk a (rec_ID r) c end with
      | Err e => (a, Err (ReplayStopped e))
      | Ok true => feed rs a
      | Ok false =>
          match fn a r c with
          | Err e => (a, Err (ReplayStopped e))
          | Ok a => feed rs a
          end
      end
  end.

Definition from_seq (s : Z) (rs : list (WalRecord * Cursor)) : list (WalRecord * Cursor) :=
  filter (λ rc, s <= id_Seq (rec_ID rc.1)) rs.

Lemma feed_app r1 r2 a :
  feed (r1 ++ r2) a = match feed r1 a with (a, Ok _) => feed r2 a | (a, Err e) => (a, Err e) end.
Proof.
  revert a. induction r1 as [|[r c] r1 IH]; intros a; [done|]. cbn [feed app].
  destruct (match peek with None => _ | Some _ => _ end) as [[|]|]; [apply IH| |done]. destruct (fn a r c); [apply IH|done].
Qed.

(** ** One segment *)

Lemma replay_loop_frames fuel f base from m limit stop off a s ps :
  m < 2 ^ 32 → Forall (payload_ok m) ps → seqs_ok s (length ps) → (length ps < fuel)%nat →
  frames s ps `prefix_of` drop off f → (off <= length f)%nat →
  let stop_at := (off + length (frames s ps))%nat in
  (limit = Some stop_at ∨ limit = None ∧ stop_at = length f) →
  match stop with Some n => (stop_at <= n)%nat | None => True end →
  replay_loop fn peek fuel f base from m limit stop off a = feed (from_seq from (located base off (numbered s ps))) a.
Proof.
  intros Hm. revert fuel off a s. induction ps as [|p ps IH]; intros fuel off a s Hps Hs Hfuel Hpre Hoff stop_at Hlim Hstop.
  all: destruct fuel as [|fuel]; [cbn in Hfuel; lia|].
  { cbn [replay_loop numbered located]. unfold stop_at in *. cbn [frames length] in *. destruct Hlim as [->|[-> Hend]].
    - assert ((off + 0 <=? off)%nat = true) as -> by (apply Nat.leb_le; lia). done.
    - by rewrite drop_ge by lia. }
  apply Forall_cons in Hps as [Hp Hps]. destruct Hs as [Hs0 Hs1]. cbn [length] in Hs1, Hfuel.
  subst stop_at. cbn [frames] in *. rewrite length_app, length_frame in Hlim, Hstop.
  destruct Hpre as [r Hr]. rewrite <-app_assoc in Hr. cbn [replay_loop].
  assert (match limit with Some n => (n <=? off)%nat | None => false end = false) as ->.
  { destruct Hlim as [->|[-> _]]; [|done]. apply Nat.leb_gt. unfold frameHeaderSize. lia. }
  rewrite Hr, readHeader_frame by (done || lia). cbn [h_seq h_size c_Offset numbered located].
  assert (readPayload (MkHeader s (length p) (crc32 p)) (p ++ frames (s + 1) ps ++ r) = RdOk p (frames (s + 1) ps ++ r)) as Hpay.
  { unfold readPayload. cbn [h_size h_crc]. rewrite decide_False by len. by rewrite take_app_length, drop_app_length, decide_True. }
  assert (frames (s + 1) ps `prefix_of` drop (off + frameHeaderSize + length p) f) as Hpre'.
  { rewrite <-Nat.add_assoc, <-drop_drop, Hr, drop_app_length' by by rewrite length_frame. by eexists. }
  assert (off + frameHeaderSize + length p <= length f)%nat as Hoff'.
  { apply (f_equal length) in Hr. rewrite length_drop, !length_app, length_frame in Hr. lia. }
  assert (∀ a, replay_loop fn peek fuel f base from m limit stop (off + frameHeaderSize + length p) a
    = feed (from_seq from (located base (off + frameHeaderSize + length p) (numbered (s + 1) ps))) a) as Hrec.
  { intros a'. apply IH; [done|split; lia|lia|done|done| |].
    - destruct Hlim as [->|[-> ?]]; [left; f_equal; lia|right; split; [done|lia]].
    - destruct stop; [lia|done]. }
  unfold from_seq. rewrite filter_cons. cbn [rec_ID id_Seq fst].
  destruct (Z.ltb_spec s from) as [Hlt|Hge].
  - rewrite decide_False by lia. by rewrite skipPayload_verifies, Hpay.
  - rewrite decide_True by lia. cbn [feed rec_ID].
    assert (match stop with Some n => (n <? off + frameHeaderSize + length p)%nat | None => false end = false) as ->.
    { destruct stop; [|done]. apply Nat.ltb_ge. lia. }
    destruct peek as [pk|].
    + destruct (pk a _ _) as [[|]|]; [|rewrite Hpay; destruct (fn a _ _); [apply Hrec|done]|done].
      rewrite skipPayload_verifies, Hpay. apply Hrec.
    + rewrite Hpay. destruct (fn a _ _); [apply Hrec|done].
Qed.

End Feed.

(** ** Located records *)

Lemma located_app base off r1 r2 :
  located base off (r1 ++ r2) = located base off r1 ++ located base (off + rsizes r1) r2.
Proof.
  revert off. induction r1 as [|[q p] r1 IH]; intros off; [by rewrite Nat.add_0_r|]. cbn [located app].
  rewrite IH, rsizes_cons. unfold rsize. cbn [snd]. do 3 f_equal. lia.
Qed.

Lemma located_pairs base off rs : rec_pair <$> located base off rs = rs.
Proof. revert off. induction rs as [|[q p] rs IH]; intros off; [done|]. cbn. by rewrite IH. Qed.

Lemma located_lookup base off rs i r c :
  located base off rs !! i = Some (r, c) → ∃ q p, rs !! i = Some (q, p) ∧ r = MkRecord (MkID base (off + rsizes (take i rs)) q) p ∧
    c = MkCursor base (off + rsizes (take (S i) rs)) (u64 (q + 1)).
Proof.
  revert off i. induction rs as [|[q p] rs IH]; intros off i; [done|]. destruct i as [|i]; cbn [located lookup list_lookup take].
  - intros [= <- <-]. exists q, p. rewrite take_0, rsizes_cons. change (rsizes []) with 0%nat. unfold rsize. cbn [snd]. split_and!; [done|f_equal; f_equal; lia|f_equal; lia].
  - intros (q' & p' & Hl & -> & ->)%IH. exists q', p'. rewrite !rsizes_cons. change (rsize (q, p)) with (frameHeaderSize + length p)%nat.
    split_and!; [done|f_equal; f_equal; lia|f_equal; lia].
Qed.

Lemma take_numbered s ps n : take n (numbered s ps) = numbered s (take n ps).
Proof. revert s n. induction ps as [|p ps IH]; intros s [|n]; [done..|]. cbn. by rewrite IH. Qed.

Lemma from_seq_app s r1 r2 : from_seq s (r1 ++ r2) = from_seq s r1 ++ from_seq s r2.
Proof. apply filter_app. Qed.

Lemma from_seq_none s rs : (∀ rc, rc ∈ rs → id_Seq (rec_ID rc.1) < s) → from_seq s rs = [].
Proof.
  intros H. induction rs as [|rc rs IH]; [done|]. unfold from_seq in *. rewrite filter_cons, decide_False.
  - apply IH. intros x Hx. apply H. by right.
  - specialize (H rc ltac:(by left)). lia.
Qed.

Lemma elem_of_located base off rs rc : rc ∈ located base off rs → rec_pair rc ∈ rs.
Proof. intros H. rewrite <-(located_pairs base off rs). by apply list_elem_of_fmap_2. Qed.

Lemma seg_records_located all x e base off s :
  (e <= length all)%nat → Z.of_nat e <= s → from_seq s (located base off (numbered (Z.of_nat x) (slice all x e))) = [].
Proof.
  intros He Hs. apply from_seq_none. intros rc Hrc%elem_of_located. apply elem_of_numbered in Hrc as [Hx Hl].
  apply lookup_lt_Some in Hl. rewrite length_slice in Hl by done. cbn in *. lia.
Qed.

(** ** Segments *)

Section Log.
Context (o : Options) (l : Log) (tr : list wal_event) (all : list octets) (b dur w : nat).
Hypothesis Hopts : options_ok o.
Hypothesis HI : Inv o l tr all b dur w.

Let m := MaxRecord o.

(** A listed segment holds the records [x..e) durably, none of which
    belongs to a later segment. *)
Definition holds (s : Z * file) (x e : nat) : Prop :=
  s.1 = Z.of_nat x ∧ durable_part l s = seg all x e ∧ (x <= e <= length all)%nat ∧
  ∀ s', s' ∈ listSegments (disk l) → s.1 < s'.1 → Z.of_nat e <= s'.1.

Lemma records_seg x e : (x <= e <= length all)%nat → records m (seg all x e) = numbered (Z.of_nat x) (slice all x e).
Proof.
  intros He. rewrite <-(app_nil_r (seg all x e)). unfold seg.
  rewrite records_frames; [apply app_nil_r|destruct Hopts; unfold m; lia|apply slice_forall, HI|].
  rewrite length_slice by lia. pose proof (iv_room _ _ _ _ _ _ _ HI). split; lia.
Qed.

Lemma durable_index : ∃ dx, (b <= dx <= dur)%nat ∧ durableSize l = Z.of_nat (length (seg all b dx)).
Proof. apply (iv_durable _ _ _ _ _ _ _ HI). Qed.

(** Every listed segment holds a range; a sealed one all of its file. *)
Lemma listed_holds s :
  s ∈ listSegments (disk l) → ∃ x e, holds s x e ∧ (s.1 ≠ segmentBase l → cur s.2 = seg all x e ∧ (x < e <= b)%nat)
    ∧ (s.1 = segmentBase l → x = b ∧ seg all x e `prefix_of` cur s.2 ∧ durableSize l = Z.of_nat (length (seg all x e)) ∧ (e <= dur)%nat).
Proof.
  intros Hs. destruct s as [base f]. assert (disk l !! base = Some f) as Hf by by apply elem_of_listSegments.
  pose proof (iv_base _ _ _ _ _ _ _ HI) as Hb. pose proof (iv_le _ _ _ _ _ _ _ HI) as Hle.
  destruct (decide (base = Z.of_nat b)) as [->|Hne].
  - destruct durable_index as (dx & Hdx & Hdz). destruct (iv_file _ _ _ _ _ _ _ HI) as (f' & Hf' & Ha). rewrite Hf in Hf'. injection Hf' as <-.
    assert (seg all b dx `prefix_of` cur f) as Hpre.
    { etrans; [|apply Ha]. rewrite (seg_split all b dx dur) by lia. by eexists. }
    exists b, dx. cbn [fst snd]. rewrite Hb. split_and!; [|done|intros _; by split_and!; try lia].
    split_and!; [done| |lia..|].
    + unfold durable_part. cbn [fst snd]. rewrite Hb, decide_True, Hdz, Nat2Z.id by done. by apply prefix_firstn.
    + intros [base' g] Hs' Hlt. exfalso. apply elem_of_listSegments in Hs'. cbn in Hlt.
      destruct (iv_segs _ _ _ _ _ _ _ HI base' g ltac:(by left)) as [->|(x & y & -> & [? _] & ? & _)]; lia.
  - destruct (iv_segs _ _ _ _ _ _ _ HI base f ltac:(by left)) as [?|(x & y & -> & [Hxy ->] & Hy & Hn)]; [done|].
    exists x, y. cbn [fst snd cur]. split_and!; [|intros _; split; [done|lia]|intros E; congruence].
    split_and!; [done| |lia..|].
    + unfold durable_part. cbn [fst snd cur]. rewrite decide_False by congruence. done.
    + intros [base' g] Hs' Hlt. apply elem_of_listSegments in Hs'. cbn in *. by eapply (Hn base' g); [left|].
Qed.

Definition seg_records (s : Z * file) : list (WalRecord * Cursor) := located s.1 0 (records m (durable_part l s)).

Lemma durable_records_eq : durable_records l = concat (seg_records <$> listSegments (disk l)).
Proof. unfold durable_records, seg_records, m. by rewrite (iv_opts _ _ _ _ _ _ _ HI). Qed.

Lemma holds_records s x e : holds s x e → seg_records s = located (Z.of_nat x) 0 (numbered (Z.of_nat x) (slice all x e)).
Proof. intros (Hs & Hd & He & _). unfold seg_records. by rewrite Hs, Hd, records_seg. Qed.

(** ** Cursors *)

(** Where a cursor points: into a segment's records, at [q]. *)
Definition fits (c : Cursor) (x q : nat) : Prop :=
  c_SegmentBase c = Z.of_nat x ∧ c_Seq c = Z.of_nat q ∧ (x <= q)%nat ∧
  (∀ s, s ∈ listSegments (disk l) → s.1 < c_SegmentBase c → from_seq (c_Seq c) (seg_records s) = []) ∧
  (c_Offset c = 0%nat ∨ ∀ s e, s ∈ listSegments (disk l) → holds s x e → c_Offset c = length (seg all x q) ∧ (q <= e)%nat).

Lemma holds_inj s x e e' : holds s x e → holds s x e' → e = e'.
Proof.
  intros (_ & H1 & He & _) (_ & H2 & He' & _). rewrite H1 in H2. apply (f_equal (records m)) in H2.
  rewrite !records_seg in H2 by done. apply (f_equal length) in H2. rewrite !length_numbered, !length_slice in H2 by lia. lia.
Qed.

Lemma elem_of_durable rc : rc ∈ durable_records l ↔ ∃ s, s ∈ listSegments (disk l) ∧ rc ∈ seg_records s.
Proof.
  rewrite durable_records_eq, list_elem_of_In, in_concat. split.
  - intros (rs & Hrs%list_elem_of_In & Hin%list_elem_of_In). apply list_elem_of_fmap in Hrs as (s & -> & Hs). by exists s.
  - intros (s & Hs & Hin). exists (seg_records s). rewrite <-!list_elem_of_In. split; [by apply list_elem_of_fmap_2|done].
Qed.

Lemma seg_records_base s rc : rc ∈ seg_records s → id_SegmentBase (rec_ID rc.1) = s.1.
Proof.
  intros [i Hi]%list_elem_of_lookup. destruct rc as [r c]. by apply located_lookup in Hi as (q & p & _ & -> & _).
Qed.

(** A cursor handed out with a durable record. *)
Lemma issued_fits c : c ∈ (durable_records l).*2 → ∃ x q, fits c x q.
Proof.
  intros ([r c'] & -> & (s & Hs & Hin)%elem_of_durable)%list_elem_of_fmap. cbn [snd].
  destruct (listed_holds s Hs) as (x & e & Hh & _). rewrite (holds_records s x e Hh) in Hin.
  pose proof Hh as (Hb & _ & He & _). apply list_elem_of_lookup in Hin as [i Hi].
  apply located_lookup in Hi as (q & p & Hq & -> & ->).
  rewrite numbered_lookup in Hq. apply fmap_Some in Hq as (p' & Hp & [= -> ->]).
  apply lookup_lt_Some in Hp. rewrite length_slice in Hp by lia. pose proof (iv_room _ _ _ _ _ _ _ HI) as Hroom.
  exists x, (x + S i)%nat. unfold fits, u64. cbn [c_SegmentBase c_Seq c_Offset]. rewrite Z.mod_small by lia.
  split_and!; [done|lia|lia| |].
  - intros s' Hs' Hlt. destruct (listed_holds s' Hs') as (x' & e' & Hh' & _). rewrite (holds_records s' x' e' Hh').
    destruct Hh' as (_ & _ & ? & Hn'). specialize (Hn' s Hs ltac:(lia)). apply seg_records_located; lia.
  - right. intros s' e' Hs' Hh'. assert (s' = s) as ->.
    { destruct s as [base f], s' as [base' f'], Hh' as [Hb' _]. cbn in *. subst.
      apply elem_of_listSegments in Hs, Hs'. congruence. }
    rewrite (holds_inj s x e' e) by done. split; [|lia].
    rewrite take_numbered, rsizes_numbered. unfold seg, slice. rewrite take_take.
    by replace (S i `min` (e - x))%nat with (x + S i - x)%nat by lia.
Qed.

Lemma listed_nonneg s : s ∈ listSegments (disk l) → 0 <= s.1.
Proof. intros Hs. destruct (listed_holds s Hs) as (x & e & (-> & _) & _). lia. Qed.

Lemma cursor_fits c : cursor_ok l c → ∃ x q, fits c x q.
Proof.
  intros [(H0 & H1 & H2)|[Hin|(Hn & Hle & Hlow)]].
  - exists 0%nat, (Z.to_nat (c_Seq c)). split_and!; [done|lia|lia| |by left].
    intros s Hs Hlt. pose proof (listed_nonneg s Hs). lia.
  - by apply issued_fits.
  - exists (Z.to_nat (c_SegmentBase c)), (Z.to_nat (c_Seq c)). split_and!; [lia..| |right].
    + intros s Hs Hlt. apply from_seq_none. intros rc Hrc. apply Hlow; [apply elem_of_durable; by exists s|].
      by rewrite (seg_records_base s rc Hrc).
    + intros [base f] e Hs%elem_of_listSegments [Hb _]. cbn in Hb. replace base with (c_SegmentBase c) in Hs by lia. congruence.
Qed.

(** Every segment, also a removed one, holds a range. *)
Lemma at_holds base f :
  file_at l base f → ∃ x e, base = Z.of_nat x ∧ (x <= e <= dur)%nat ∧ durable_part l (base, f) = seg all x e
    ∧ (x ≠ b → (x < b)%nat ∧ cur f = seg all x e) ∧ (x = b → durableSize l = Z.of_nat (length (seg all b e)))
    ∧ ∀ base' g, file_at l base' g → base < base' → Z.of_nat e <= base'.
Proof.
  intros Hf. pose proof (iv_base _ _ _ _ _ _ _ HI) as Hb. pose proof (iv_le _ _ _ _ _ _ _ HI) as Hle. unfold durable_part. cbn [fst snd].
  destruct (decide (base = Z.of_nat b)) as [->|Hne].
  - destruct durable_index as (dx & Hdx & Hdz). destruct (iv_file _ _ _ _ _ _ _ HI) as (f' & Hf' & Ha).
    assert (f' = f) as -> by (destruct Hf as [Hf|[Hf _]]; congruence). exists b, dx. rewrite decide_True by done.
    split_and!; [done|lia|lia| |done|done|].
    + rewrite Hdz, Nat2Z.id. apply prefix_firstn. etrans; [|apply Ha]. rewrite (seg_split all b dx dur) by lia. by eexists.
    + intros base' g Hg Hlt. exfalso. destruct (iv_segs _ _ _ _ _ _ _ HI base' g (file_at_or _ _ _ Hg)) as [?|(x & y & -> & [? _] & ? & _)]; lia.
  - destruct (iv_segs _ _ _ _ _ _ _ HI base f (file_at_or _ _ _ Hf)) as [?|(x & y & -> & [Hxy ->] & Hy & Hn)]; [done|].
    exists x, y. rewrite decide_False by congruence. cbn [cur]. split_and!; [done|lia|lia|done|intros _; split; [lia|done]|lia|].
    intros base' g Hg. by apply (Hn base' g), file_at_or.
Qed.

Lemma held_seg base f x e :
  base = Z.of_nat x → (x <= e <= length all)%nat → durable_part l (base, f) = seg all x e →
  held_records l base f = numbered (Z.of_nat x) (slice all x e).
Proof. intros -> He Hd. unfold held_records. rewrite (iv_opts _ _ _ _ _ _ _ HI), Hd. by apply records_seg. Qed.

Lemma placed_fits c : placed l c → ∃ x q, fits c x q.
Proof.
  intros [(H0 & H1 & H2)|(f & i & Hf & Hi & Ho & Hs)].
  { apply cursor_fits. by left. }
  destruct (at_holds _ _ Hf) as (x & e & Hx & He & Hd & _ & _ & Hn). pose proof (iv_le _ _ _ _ _ _ _ HI) as Hle. rewrite (held_seg _ f x e) in Hi, Ho by done || lia.
  rewrite length_numbered, length_slice in Hi by lia. exists x, (x + i)%nat. split_and!; [done|lia|lia| |].
  - intros s Hls Hlt. destruct (listed_holds s Hls) as (x' & e' & Hh & _). rewrite (holds_records s x' e' Hh).
    destruct Hh as (Hx' & Hd' & He' & _). apply seg_records_located; [lia|].
    assert (file_at l s.1 s.2) as Hs' by (left; apply elem_of_listSegments; by destruct s).
    destruct (at_holds _ _ Hs') as (x2 & e2 & Hx2 & He2 & Hd2 & _ & _ & Hn2). assert (x2 = x') as -> by lia.
    replace (s.1, s.2) with s in Hd2 by by destruct s. assert (e' = e2) as ->.
    { rewrite Hd' in Hd2. apply (f_equal (records m)) in Hd2. rewrite !records_seg in Hd2 by lia.
      apply (f_equal length) in Hd2. rewrite !length_numbered, !length_slice in Hd2 by lia. lia. }
    specialize (Hn2 _ _ Hf Hlt). lia.
  - right. intros s e' Hls (Hb & Hd' & He' & _). assert (disk l !! s.1 = Some s.2) as Hds by (apply elem_of_listSegments; by destruct s).
    assert (s.2 = f) as Hsf by (destruct Hf as [Hf|[Hf _]]; rewrite Hx in Hf; congruence).
    assert (s = (c_SegmentBase c, f)) as -> by (destruct s; cbn in *; congruence). assert (e' = e) as ->.
    { rewrite Hd' in Hd. apply (f_equal (records m)) in Hd. rewrite !records_seg in Hd by lia.
      apply (f_equal length) in Hd. rewrite !length_numbered, !length_slice in Hd by lia. lia. }
    split; [|lia]. rewrite Ho, take_numbered, rsizes_numbered. unfold seg, slice. rewrite take_take.
    by replace (i `min` (e - x))%nat with (x + i - x)%nat by lia.
Qed.

(** Both cursors of a durable record. *)
Lemma issued_placed rc :
  rc ∈ durable_records l → placed l rc.2 ∧ placed l (MkCursor (id_SegmentBase (rec_ID rc.1)) (id_Offset (rec_ID rc.1)) (id_Seq (rec_ID rc.1)))
    ∧ c_Seq rc.2 = id_Seq (rec_ID rc.1) + 1.
Proof.
  intros (s & Hs & Hin)%elem_of_durable. destruct rc as [r c]. cbn [fst snd].
  assert (file_at l s.1 s.2) as Hf by (left; apply elem_of_listSegments; by destruct s).
  destruct (listed_holds s Hs) as (x & e & (Hx & Hd & He & _) & _).
  assert (held_records l s.1 s.2 = numbered (Z.of_nat x) (slice all x e)) as Hh by (apply held_seg; [done..|by destruct s]).
  unfold seg_records in Hin. rewrite Hd, records_seg in Hin by done. rewrite Hx in Hin.
  apply list_elem_of_lookup in Hin as [i Hi]. apply located_lookup in Hi as (q & p & Hq & -> & ->).
  pose proof (lookup_lt_Some _ _ _ Hq) as Hlt. rewrite numbered_lookup in Hq. apply fmap_Some in Hq as (p' & Hp & [= -> ->]).
  pose proof (iv_room _ _ _ _ _ _ _ HI) as Hroom. rewrite length_numbered, length_slice in Hlt by lia.
  unfold u64. cbn [rec_ID id_Seq id_SegmentBase id_Offset c_Seq]. rewrite Z.mod_small by lia.
  split_and!; [right; exists s.2, (S i)|right; exists s.2, i|done]; cbn [c_SegmentBase c_Offset c_Seq]; rewrite <-Hx, Hh, length_numbered, length_slice by lia.
  all: rewrite Hx in *; split_and!; try (done || lia).
Qed.

(** ** Replay *)

Context {A E : Type} (fn : A → WalRecord → Cursor → result E A) (peek : option (A → RecordID → Cursor → result E bool)).

(** Where replay starts in a segment: at the records from [k] on, those
    before it being below the cursor. *)
Lemma cursor_place c x0 q0 s x e :
  fits c x0 q0 → s ∈ listSegments (disk l) → holds s x e →
  ∃ k, (x <= k <= e)%nat ∧ cursorOffset s.1 c = length (seg all x k) ∧ (k = x ∨ k = q0).
Proof.
  intros (Hb & Hq & Hle & _ & Ho) Hs Hh. pose proof Hh as (Hx & Hd & He & _). unfold cursorOffset.
  case_decide as Hc; [|exists x; rewrite seg_nil; split_and!; [lia..|done|by left]].
  destruct Hc as [Hc1 Hc2]. assert (x0 = x) as -> by lia. destruct Ho as [Ho|Ho]; [lia|].
  destruct (Ho s e Hs Hh) as [Hoff Hqe]. exists q0. split_and!; [lia..|done|by right].
Qed.

Definition limit_of (s : Z * file) : option nat :=
  if decide (s.1 = segmentBase l) then Some (Z.to_nat (durableSize l)) else None.

Lemma replay_one c x0 q0 s a :
  fits c x0 q0 → s ∈ listSegments (disk l) →
  replayOpenSegment fn peek s.1 (cur s.2) (c_Seq c) (cursorOffset s.1 c) (limit_of s) m a
  = feed fn peek (from_seq (c_Seq c) (seg_records s)) a.
Proof.
  intros Hf Hs. destruct (listed_holds s Hs) as (x & e & Hh & Hsealed & Hact).
  destruct (cursor_place c x0 q0 s x e Hf Hs Hh) as (k & Hk & -> & Hkq).
  rewrite (holds_records s x e Hh). pose proof Hh as (Hx & Hd & He & _). rewrite Hx.
  rewrite (slice_split all x k e), numbered_app, located_app, from_seq_app by lia.
  assert (from_seq (c_Seq c) (located (Z.of_nat x) 0 (numbered (Z.of_nat x) (slice all x k))) = []) as ->.
  { destruct Hkq as [->| ->]; [unfold slice; by rewrite Nat.sub_diag, take_0|]. apply seg_records_located; [lia|]. destruct Hf as (_ & -> & _). lia. }
  rewrite length_slice, rsizes_numbered by lia. cbn [app Nat.add]. replace (Z.of_nat x + Z.of_nat (k - x)) with (Z.of_nat k) by lia.
  change (length (frames (Z.of_nat x) (slice all x k))) with (length (seg all x k)).
  assert (seg all x e `prefix_of` cur s.2 ∧ (limit_of s = Some (length (seg all x e)) ∨ limit_of s = None ∧ length (seg all x e) = length (cur s.2))) as [[r Hr] Hlim].
  { unfold limit_of. case_decide as Hc.
    - destruct (Hact Hc) as (_ & ? & -> & _). split; [done|]. left. f_equal. lia.
    - destruct (Hsealed Hc) as [-> _]. split; [done|by right]. }
  pose proof (seg_split all x k e ltac:(lia) ltac:(lia)) as Hsp.
  assert (length (seg all x e) = length (seg all x k) + length (frames (Z.of_nat k) (slice all k e)))%nat as Hlen by (rewrite Hsp, length_app; done).
  unfold replayOpenSegment. apply replay_loop_frames.
  - destruct Hopts. unfold m. lia.
  - apply slice_forall, HI.
  - pose proof (iv_room _ _ _ _ _ _ _ HI). rewrite length_slice by lia. split; lia.
  - pose proof (length_frames_ge (Z.of_nat k) (slice all k e)). rewrite Hr, length_app. lia.
  - rewrite Hr, Hsp, <-app_assoc, drop_app_length. by eexists.
  - rewrite Hr, length_app. lia.
  - rewrite <-Hlen. done.
  - rewrite <-Hlen. destruct Hlim as [->|[-> ->]]; destruct peek; done || lia.
Qed.

Definition contents_of (ss : list (Z * file)) : list (Z * octets) := (λ s, (s.1, cur s.2)) <$> ss.

(** A segment passed over has nothing at or above the cursor. *)
Lemma skipped c x0 q0 s rest pre :
  fits c x0 q0 → listSegments (disk l) = pre ++ s :: rest →
  shouldSkipSegment s.1 (fst <$> head (contents_of rest)) c = true → from_seq (c_Seq c) (seg_records s) = [].
Proof.
  intros Hf Hl Hskip. assert (s ∈ listSegments (disk l)) as Hs by (rewrite Hl; set_solver).
  unfold shouldSkipSegment in Hskip. apply orb_true_iff in Hskip as [Hskip|Hskip].
  - apply andb_true_iff in Hskip as [H1%Z.ltb_lt H2%Z.ltb_lt]. destruct Hf as (_ & _ & _ & Hlow & _). by apply Hlow.
  - destruct rest as [|s' rest]; [done|]. cbn in Hskip. apply Z.leb_le in Hskip.
    destruct (listed_holds s Hs) as (x & e & Hh & _). rewrite (holds_records s x e Hh). destruct Hh as (Hx & _ & ? & Hn).
    pose proof (listSegments_ascending (disk l)) as Hasc. rewrite Hl in Hasc. apply ascending_split in Hasc as (_ & Hgt & _).
    specialize (Hn s' ltac:(rewrite Hl; set_solver) ltac:(apply Hgt; by left)). apply seg_records_located; lia.
Qed.

Lemma replay_listed c x0 q0 rest pre a :
  fits c x0 q0 → listSegments (disk l) = pre ++ rest →
  replay_segments fn peek (contents_of rest) (Some (segmentBase l, Z.to_nat (durableSize l))) m c a
  = feed fn peek (from_seq (c_Seq c) (concat (seg_records <$> rest))) a.
Proof.
  intros Hf. revert pre a. induction rest as [|s rest IH]; intros pre a Hl; [done|].
  assert (s ∈ listSegments (disk l)) as Hs by (rewrite Hl; set_solver).
  specialize (IH (pre ++ [s])). rewrite <-app_assoc in IH. specialize (λ a, IH a Hl). cbn [fmap list_fmap concat].
  cbn [replay_segments contents_of fmap list_fmap]. fold (contents_of rest).
  assert ((segmentBase l <? s.1) = false) as ->.
  { apply Z.ltb_ge. destruct (listed_holds s Hs) as (x & e & (Hx & _) & Hse & Hac). rewrite (iv_base _ _ _ _ _ _ _ HI) in *.
    destruct (decide (s.1 = Z.of_nat b)) as [|Hne]; [lia|]. destruct (Hse Hne). lia. }
  rewrite from_seq_app, feed_app. destruct (shouldSkipSegment _ _ _) eqn:Eskip.
  - rewrite (skipped c x0 q0 s rest pre) by done. apply IH.
  - change (if decide (s.1 = segmentBase l) then _ else _) with (limit_of s). rewrite (replay_one c x0 q0 s a) by done.
    destruct (feed _ _ _ a) as [a' [[]|]]; [apply IH|done].
Qed.

(** Replaying an open log gives the callbacks exactly its durable records at
    or after the cursor, in order. *)
Lemma replay_fits c x0 q0 a :
  fits c x0 q0 → Log_ReplayFromCursorPeek l c peek fn a = feed fn peek (from_seq (c_Seq c) (durable_records l)) a.
Proof.
  intros Hf. unfold Log_ReplayFromCursorPeek. rewrite (iv_opts _ _ _ _ _ _ _ HI). fold m.
  rewrite durable_records_eq. destruct (iv_file _ _ _ _ _ _ _ HI) as (f & Hfile & _).
  pose proof (iv_base _ _ _ _ _ _ _ HI) as Hb. rewrite <-Hb in Hfile.
  case_decide as Hc; [rewrite Hfile|apply (replay_listed c x0 q0 _ []); done].
  assert ((segmentBase l, f) ∈ listSegments (disk l)) as Hs by by apply elem_of_listSegments.
  pose proof (replay_one c x0 q0 _ a Hf Hs) as Hr. unfold limit_of in Hr. cbn [fst snd] in Hr. rewrite decide_True in Hr by done.
  rewrite Hr. f_equal. apply list_elem_of_split in Hs as (l1 & l2 & Hl).
  pose proof (listSegments_ascending (disk l)) as Hasc. rewrite Hl in Hasc. apply ascending_split in Hasc as (Hlt & Hgt & _).
  assert (l2 = []) as ->.
  { destruct l2 as [|s l2]; [done|]. specialize (Hgt s ltac:(by left)). cbn in Hgt.
    destruct (listed_holds s ltac:(rewrite Hl; set_solver)) as (x & e & (Hx & _) & Hse & _). destruct (Hse ltac:(lia)). lia. }
  rewrite Hl, fmap_app, concat_app, from_seq_app. cbn [fmap list_fmap concat]. rewrite app_nil_r.
  enough (from_seq (c_Seq c) (concat (seg_records <$> l1)) = []) as -> by done.
  apply from_seq_none. intros rc (rs & Hrs%list_elem_of_In & Hin%list_elem_of_In)%list_elem_of_In%in_concat.
  apply list_elem_of_fmap in Hrs as (s & -> & Hin1). destruct Hf as (_ & _ & _ & Hlow & _).
  specialize (Hlow s ltac:(rewrite Hl; set_solver) ltac:(rewrite Hc; by apply Hlt)).
  destruct (decide (c_Seq c <= id_Seq (rec_ID rc.1))) as [Hge|]; [|lia]. exfalso.
  assert (rc ∈ from_seq (c_Seq c) (seg_records s)) as Hrc by by apply list_elem_of_filter. rewrite Hlow in Hrc. by apply elem_of_nil in Hrc.
Qed.

Lemma replay_open_log c a :
  cursor_ok l c → Log_ReplayFromCursorPeek l c peek fn a = feed fn peek (from_seq (c_Seq c) (durable_records l)) a.
Proof. intros (x0 & q0 & Hf)%cursor_fits. by eapply replay_fits. Qed.

Lemma replay_placed c a :
  placed l c → Log_ReplayFromCursorPeek l c peek fn a = feed fn peek (from_seq (c_Seq c) (durable_records l)) a.
Proof. intros (x0 & q0 & Hf)%placed_fits. by eapply replay_fits. Qed.

End Log.
