(* ===== verification/WalClaims.v ===== *)
(** * The records a log holds

    The durable records of a reached log are a range of the sequence numbers
    it handed out, and a replay from the compaction point delivers that
    range. *)

From S2P Require Import Prelude Octets WalFrame WalScan Wal WalRun WalInv WalCrash WalReplay.

Definition by_seq (r r' : Z * octets) : Prop := r.1 < r'.1.

#[global] Instance by_seq_antisymm : AntiSymm (=) by_seq.
Proof. intros x y. unfold by_seq. lia. Qed.

Lemma by_seq_nodup rs : StronglySorted by_seq rs → NoDup rs.
Proof.
  induction 1 as [|r rs _ IH Hr]; constructor; [|done]. intros Hin. rewrite Forall_forall in Hr.
  specialize (Hr r Hin). unfold by_seq in Hr. lia.
Qed.

(** Records in order are determined by which they are. *)
Lemma by_seq_unique r1 r2 :
  StronglySorted by_seq r1 → StronglySorted by_seq r2 → (∀ r, r ∈ r1 ↔ r ∈ r2) → r1 = r2.
Proof.
  intros H1 H2 H. apply (StronglySorted_unique by_seq); [done..|].
  by apply NoDup_Permutation; [apply by_seq_nodup..|].
Qed.

Lemma by_seq_numbered s ps : StronglySorted by_seq (numbered s ps).
Proof.
  revert s. induction ps as [|p ps IH]; intros s; cbn [numbered]; constructor; [apply IH|].
  apply Forall_forall. intros r [Hs _]%elem_of_numbered. unfold by_seq. cbn. lia.
Qed.

Lemma by_seq_app r1 r2 :
  StronglySorted by_seq r1 → StronglySorted by_seq r2 → (∀ x y, x ∈ r1 → y ∈ r2 → by_seq x y) →
  StronglySorted by_seq (r1 ++ r2).
Proof.
  intros H1 H2 H. induction H1 as [|r r1 _ IH Hr]; [done|]. cbn. constructor.
  - apply IH. intros x y Hx. apply H. by right.
  - apply Forall_app. split; [done|]. apply Forall_forall. intros y Hy. apply H; [by left|done].
Qed.

Lemma by_seq_filter (P : Z * octets → Prop) `{!∀ r, Decision (P r)} rs :
  StronglySorted by_seq rs → StronglySorted by_seq (filter P rs).
Proof.
  induction 1 as [|r rs _ IH Hr]; [constructor|]. rewrite filter_cons. case_decide; [|done]. constructor; [done|].
  rewrite Forall_forall in *. intros x [_ Hx]%list_elem_of_filter. by apply Hr.
Qed.

Lemma from_seq_pairs s rs : rec_pair <$> from_seq s rs = filter (λ r, s <= r.1) (rec_pair <$> rs).
Proof.
  induction rs as [|rc rs IH]; [done|]. unfold from_seq in *. rewrite fmap_cons, !filter_cons. cbn [rec_pair fst].
  destruct (decide (s <= id_Seq (rec_ID rc.1))); [by rewrite fmap_cons, IH|done].
Qed.

Lemma feed_collect rs a : feed collect None rs a = (a ++ (rec_pair <$> rs), Ok tt).
Proof.
  revert a. induction rs as [|[r c] rs IH]; intros a; cbn [feed]; [by rewrite app_nil_r|].
  cbn [collect]. rewrite IH. cbn. by rewrite <-app_assoc.
Qed.

Section Held.
Context (o : Options) (l : Log) (tr : list wal_event) (all : list octets) (b dur w : nat).
Hypothesis Hopts : options_ok o.
Hypothesis HI : Inv o l tr all b dur w.

Lemma holds_pairs s x e :
  holds l all s x e → rec_pair <$> seg_records o l s = numbered (Z.of_nat x) (slice all x e).
Proof. intros Hh. by rewrite (holds_records o l tr all b dur w Hopts HI s x e Hh), located_pairs. Qed.

Lemma elem_of_segment x e r :
  (x <= e <= length all)%nat →
  r ∈ numbered (Z.of_nat x) (slice all x e) ↔ Z.of_nat x <= r.1 < Z.of_nat e ∧ all !! Z.to_nat r.1 = Some r.2.
Proof.
  intros He. rewrite elem_of_numbered. split.
  - intros [Hs Hl]. pose proof (lookup_lt_Some _ _ _ Hl) as Hlt. rewrite length_slice in Hlt by lia. split; [lia|].
    unfold slice in Hl. apply lookup_take_Some in Hl as [Hl _]. rewrite lookup_drop in Hl. rewrite <-Hl. f_equal. lia.
  - intros [Hs Hl]. split; [lia|]. unfold slice. rewrite lookup_take_lt, lookup_drop by lia. rewrite <-Hl. f_equal. lia.
Qed.

Lemma segments_sorted ss pre :
  listSegments (disk l) = pre ++ ss → StronglySorted by_seq (rec_pair <$> concat (seg_records o l <$> ss)).
Proof.
  revert pre. induction ss as [|s ss IH]; intros pre Hl; [constructor|]. cbn [fmap list_fmap concat]. fold (list_fmap _ _ (seg_records o l) ss).
  rewrite fmap_app. assert (s ∈ listSegments (disk l)) as Hs by (rewrite Hl; set_solver).
  destruct (listed_holds o l tr all b dur w HI s Hs) as (x & e & Hh & _). rewrite (holds_pairs s x e Hh).
  apply by_seq_app; [apply by_seq_numbered|apply (IH (pre ++ [s])); by rewrite <-app_assoc|].
  intros y z Hy Hz. destruct Hh as (Hx & _ & He & Hn). apply elem_of_segment in Hy as [Hy _]; [|done].
  apply list_elem_of_fmap in Hz as (rc & -> & (rs & Hrs%list_elem_of_In & Hin%list_elem_of_In)%list_elem_of_In%in_concat).
  apply list_elem_of_fmap in Hrs as (s' & -> & Hs'). assert (s' ∈ listSegments (disk l)) as Hls by (rewrite Hl; set_solver).
  pose proof (listSegments_ascending (disk l)) as Hasc. rewrite Hl in Hasc. apply ascending_split in Hasc as (_ & Hgt & _).
  destruct (listed_holds o l tr all b dur w HI s' Hls) as (x' & e' & Hh' & _). apply (list_elem_of_fmap_2 rec_pair) in Hin.
  rewrite (holds_pairs s' x' e' Hh') in Hin. destruct Hh' as (Hx' & _ & He' & _). apply elem_of_segment in Hin as [Hz _]; [|done].
  specialize (Hn s' Hls (Hgt s' Hs')). unfold by_seq. lia.
Qed.

Lemma seg_len_le a x y :
  (a <= x <= length all)%nat → (a <= y <= length all)%nat → (length (seg all a x) <= length (seg all a y))%nat → (x <= y)%nat.
Proof.
  intros Hx Hy Hl. destruct (decide (x <= y)%nat); [done|]. exfalso.
  rewrite (seg_split all a y x), length_app in Hl by lia. assert (seg all y x = []) as Hnil by (apply length_zero_iff_nil; lia).
  apply seg_empty in Hnil; lia.
Qed.

Lemma seg_len_inj a x y :
  (a <= x <= length all)%nat → (a <= y <= length all)%nat → length (seg all a x) = length (seg all a y) → x = y.
Proof. intros Hx Hy Hl. apply Nat.le_antisymm; apply (seg_len_le a); lia. Qed.

Lemma held_below dx r :
  (b <= dx <= dur)%nat → durableSize l = Z.of_nat (length (seg all b dx)) →
  r ∈ (rec_pair <$> durable_records l) → 0 <= r.1 < Z.of_nat dx ∧ all !! Z.to_nat r.1 = Some r.2.
Proof.
  intros Hdx Hds (rc & -> & (s & Hs & Hin)%(elem_of_durable o l tr all b dur w HI))%list_elem_of_fmap.
  pose proof (iv_le _ _ _ _ _ _ _ HI) as Hle. pose proof (iv_base _ _ _ _ _ _ _ HI) as Hb.
  destruct (listed_holds o l tr all b dur w HI s Hs) as (x & e & Hh & Hse & Hac). apply (list_elem_of_fmap_2 rec_pair) in Hin.
  rewrite (holds_pairs s x e Hh) in Hin. destruct Hh as (Hx & _ & He & _). apply elem_of_segment in Hin as [Hr Hl]; [|done].
  split; [|done]. destruct (decide (s.1 = segmentBase l)) as [Ha|Ha]; [|destruct (Hse Ha); lia].
  destruct (Hac Ha) as (-> & _ & Hd & He'). assert (e = dx) as ->; [apply (seg_len_inj b)|]; lia.
Qed.

Lemma held_above dx q p :
  (b <= dx <= dur)%nat → durableSize l = Z.of_nat (length (seg all b dx)) → cut tr <= q →
  0 <= q < Z.of_nat dx → all !! Z.to_nat q = Some p → (q, p) ∈ (rec_pair <$> durable_records l).
Proof.
  intros Hdx Hds Hcut Hq Hp. pose proof (iv_le _ _ _ _ _ _ _ HI) as Hle. pose proof (iv_base _ _ _ _ _ _ _ HI) as Hb.
  enough (∃ s x e, s ∈ listSegments (disk l) ∧ holds l all s x e ∧ Z.of_nat x <= q < Z.of_nat e) as (s & x & e & Hs & Hh & Hx).
  { assert ((q, p) ∈ rec_pair <$> seg_records o l s) as Hin.
    { rewrite (holds_pairs s x e Hh). destruct Hh as (_ & _ & He & _). by apply elem_of_segment. }
    apply list_elem_of_fmap in Hin as (rc & -> & Hin). apply list_elem_of_fmap_2.
    apply (elem_of_durable o l tr all b dur w HI). by exists s. }
  destruct (decide (q < Z.of_nat b)) as [Hlt|Hge].
  - destruct (iv_covered _ _ _ _ _ _ _ HI (Z.to_nat q)) as (x & y & f & Hf & [Hxy ->] & Hin & Hyb); [lia..|].
    assert ((Z.of_nat x, File (seg all x y) (seg all x y)) ∈ listSegments (disk l)) as Hs by by apply elem_of_listSegments.
    destruct (listed_holds o l tr all b dur w HI _ Hs) as (x' & e & Hh & Hse & _). pose proof Hh as (Hx' & _ & He & _). cbn in Hx', Hse.
    assert (x' = x) as -> by lia. destruct (Hse ltac:(lia)) as [Heq _]. apply (f_equal length) in Heq.
    apply seg_len_inj in Heq; [|lia..]. subst e. eexists _, x, y. split_and!; [exact Hs|done|lia..].
  - destruct (iv_file _ _ _ _ _ _ _ HI) as (f & Hf & _).
    assert ((Z.of_nat b, f) ∈ listSegments (disk l)) as Hs by by apply elem_of_listSegments.
    destruct (listed_holds o l tr all b dur w HI _ Hs) as (x & e & Hh & _ & Hac). destruct (Hac ltac:(done)) as (-> & _ & Hd & ?).
    pose proof Hh as (_ & _ & He & _). assert (e = dx) as -> by (apply (seg_len_inj b); lia).
    eexists _, b, dx. split_and!; [exact Hs|done|lia..].
Qed.

(** A replay from [k] on, nothing at or above [k] having been given up,
    delivers the range from [k] to the durable end. *)
Lemma replay_range dx (k : nat) :
  (b <= dx <= dur)%nat → durableSize l = Z.of_nat (length (seg all b dx)) → cut tr <= Z.of_nat k →
  replay_from l (Z.of_nat k) = (numbered (Z.of_nat k) (slice all k dx), Ok tt).
Proof.
  intros Hdx Hds Hcut. unfold replay_from. pose proof (iv_le _ _ _ _ _ _ _ HI) as Hle.
  rewrite (replay_open_log o l tr all b dur w Hopts HI) by (left; cbn; lia). rewrite feed_collect. cbn [app c_Seq]. f_equal.
  rewrite from_seq_pairs. apply by_seq_unique.
  - apply by_seq_filter. rewrite (durable_records_eq o l tr all b dur w HI). by apply (segments_sorted _ []).
  - apply by_seq_numbered.
  - intros [q p]. rewrite list_elem_of_filter. cbn [fst]. destruct (decide (k <= dx)%nat) as [Hk|Hk].
    + rewrite elem_of_segment by lia. cbn [fst snd]. split.
      * intros [Hq Hin]. destruct (held_below dx _ Hdx Hds Hin). cbn in *. split; [lia|done].
      * intros [Hq Hp]. split; [lia|]. apply (held_above dx); done || lia.
    + unfold slice. replace (dx - k)%nat with 0%nat by lia. rewrite take_0. cbn [numbered]. rewrite elem_of_nil.
      split; [|done]. intros [Hq Hin]. destruct (held_below dx _ Hdx Hds Hin). cbn in *. lia.
Qed.

End Held.

(** ** Within a life *)

Section Evolves.
Context (o : Options) (l l' : Log) (tr tr' : list wal_event) (all all' : list octets) (b dur w b' dur' w' : nat).
Hypothesis Hopts : options_ok o.
Hypothesis HI : Inv o l tr all b dur w.
Hypothesis HI' : Inv o l' tr' all' b' dur' w'.
Hypothesis Hev : evolves l all b dur l' all' b' dur'.

Lemma evolves_lookup i : (i < dur)%nat → all' !! i = all !! i.
Proof using HI Hev.
  intros Hi. pose proof (iv_le _ _ _ _ _ _ _ HI) as Hle. destruct (ev_keeps _ _ _ _ _ _ _ _ Hev) as [r Hr].
  rewrite Hr, lookup_app_l by len. by apply lookup_take_lt.
Qed.

Lemma evolves_slice x e : (e <= dur)%nat → slice all' x e = slice all x e.
Proof using HI Hev.
  intros He. pose proof (iv_le _ _ _ _ _ _ _ HI) as Hle. destruct (ev_keeps _ _ _ _ _ _ _ _ Hev) as [r Hr].
  rewrite Hr, slice_app, slice_take by len. done.
Qed.

(** A segment keeps the records it holds durably. *)
Lemma held_evolves base f :
  file_at l base f → ∃ f', file_at l' base f' ∧ held_records l base f `prefix_of` held_records l' base f'.
Proof using All.
  intros Hf. pose proof (iv_le _ _ _ _ _ _ _ HI) as Hle. pose proof (iv_le _ _ _ _ _ _ _ HI') as Hle'.
  destruct (at_holds o l tr all b dur w HI base f Hf) as (x & e & Hx & He & Hd & Hc & Ha & _).
  rewrite (held_seg o l tr all b dur w Hopts HI base f x e Hx ltac:(lia) Hd). pose proof (ev_dur _ _ _ _ _ _ _ _ Hev) as Hdur.
  assert (∀ y, (y <= dur)%nat → seg all' x y = seg all x y) as Hseg by (intros y Hy; unfold seg; by rewrite evolves_slice).
  assert (∀ f' x' e', base = Z.of_nat x' → (x' <= e' <= dur')%nat → durable_part l' (base, f') = seg all' x' e' → (e <= e')%nat →
    numbered (Z.of_nat x) (slice all x e) `prefix_of` held_records l' base f') as Hgo.
  { intros f' x' e' Hx' He' Hd' Hee. assert (x' = x) as -> by lia.
    rewrite (held_seg o l' tr' all' b' dur' w' Hopts HI' base f' x e' Hx' ltac:(lia) Hd').
    rewrite <-(evolves_slice x e), (slice_split all' x e e'), numbered_app by lia. by eexists. }
  destruct (decide (x = b)) as [->|Hne].
  - destruct (ev_active _ _ _ _ _ _ _ _ Hev) as [[-> Hsz]|(Hbb & f' & Hf' & Hpre)].
    + destruct (iv_file _ _ _ _ _ _ _ HI') as (f' & Hf' & _). assert (file_at l' base f') as Hfa by (left; by rewrite Hx).
      exists f'. split; [done|]. destruct (at_holds o l' tr' all' b dur' w' HI' base f' Hfa) as (x' & e' & Hx' & He' & Hd' & _ & Ha' & _).
      apply (Hgo f' x' e'); [done..|]. assert (x' = b) as -> by lia. rewrite (Ha eq_refl), (Ha' eq_refl), <-Hseg in Hsz by lia.
      apply (seg_len_le all' b); lia.
    + exists f'. split; [by rewrite Hx|].
      destruct (at_holds o l' tr' all' b' dur' w' HI' (Z.of_nat b) f' Hf') as (x' & e' & Hx' & He' & Hd' & Hc' & _).
      apply (Hgo f' x' e'); [lia|done|by rewrite Hx|]. assert (x' = b) as -> by lia. destruct (Hc' ltac:(lia)) as [_ Hcur].
      rewrite Hcur in Hpre. apply prefix_length in Hpre. rewrite <-Hseg in Hpre by lia. apply seg_len_le in Hpre; lia.
  - exists f. assert (file_at l' base f) as Hf' by (apply Hev; [lia|done]). split; [done|]. destruct (Hc Hne) as [Hxb Hcur].
    destruct (at_holds o l' tr' all' b' dur' w' HI' base f Hf') as (x' & e' & Hx' & He' & Hd' & Hc' & _).
    apply (Hgo f x' e'); [done..|]. assert (x' = x) as -> by lia. destruct Hc' as [_ Hcur'].
    { destruct (ev_active _ _ _ _ _ _ _ _ Hev) as [[-> _]|[? _]]; lia. }
    rewrite Hcur in Hcur'. apply (f_equal length) in Hcur'. rewrite <-Hseg in Hcur' by lia. apply seg_len_inj in Hcur'; lia.
Qed.

Lemma placed_evolves c : placed l c → placed l' c.
Proof using All.
  intros [H|(f & i & Hf & Hi & Ho & Hs)]; [by left|right]. destruct (held_evolves _ _ Hf) as (f' & Hf' & r & Hr).
  exists f', i. rewrite Hr. split_and!; [done|len| |done]. by rewrite take_app_le by lia.
Qed.

End Evolves.

(** ** Logs that prepare no segments *)

(** With [Prealloc] off nothing is ever prepared. *)
Definition unprepared (l : Log) : Prop :=
  Prealloc (opts l) = false ∧ prepRequested l = false ∧ preparing l = false ∧ spareReady l = false ∧ activePrepared l = false.

Ltac unprep := intros; repeat case_match; simplify_eq/=; by eauto.

Lemma unprepared_write ios buf lim l l' ok : writeAndSync ios buf lim l = (l', ok) → unprepared l → unprepared l'.
Proof. unfold writeAndSync. unprep. Qed.

Lemma unprepared_sync ios l l' ok : syncLocked ios l = (l', ok) → unprepared l → unprepared l'.
Proof.
  unfold syncLocked. destruct (writeBuffer l); [by intros [= <- _]|].
  destruct (writeAndSync _ _ _ _) as [l1 ok1] eqn:E. intros [= <- <-] H. apply (unprepared_write _ _ _ _ _ _ E) in H. by destruct ok1.
Qed.

Lemma unprepared_roll up rio l l' ok : rollLocked up rio l = (l', ok) → unprepared l → unprepared l'.
Proof.
  intros E (Hp & Hr & Hg & Hs & Ha). revert E. unfold rollLocked, roll_trimmed, roll_created. rewrite Ha, Hs, andb_false_r. cbn [andb].
  destruct (writeFailed l); [by intros [= <- _]|]. intros E. repeat case_match; simplify_eq/=; done.
Qed.

Lemma unprepared_sync_roll ios rio up l l' ok : sync_and_roll ios rio up l = (l', ok) → unprepared l → unprepared l'.
Proof.
  unfold sync_and_roll. destruct (syncLocked ios l) as [l1 [|]] eqn:E; intros E' H; apply (unprepared_sync _ _ _ _ E) in H; [|by simplify_eq].
  by eapply unprepared_roll.
Qed.

Lemma unprepared_stage it l l' id : stage_record it l = (l', id) → unprepared l → unprepared l'.
Proof.
  intros E H. unfold stage_record in E. assert (unprepared (with_batch l)) as Hb by (unfold with_batch; destruct (pending l); exact H).
  destruct (appendFrameWith _ _ _ _); injection E as <- <-; [|done]. unfold requestPrep. cbn [opts set_staged].
  pose proof Hb as (Hp & _). rewrite Hp. exact Hb.
Qed.

Lemma unprepared_one it l m l' m' r evs : stage_one it l m = Some (l', m', r, evs) → unprepared l → unprepared l'.
Proof.
  unfold stage_one. destruct (overflows (it_size it) l && negb (fileOps_free l)); [done|]. intros E H.
  assert (∃ l1 m1 ok, unprepared l1 ∧ (if overflows (it_size it) l then
      let '(l, ok) := sync_and_roll (it_ios it) (it_roll it) true l in (l, markLocked l, ok) else (l, m, true)) = (l1, m1, ok))
    as (l1 & m1 & ok & H1 & E1).
  { destruct (overflows _ _); [|by eauto]. destruct (sync_and_roll _ _ _ _) as [l1 ok] eqn:Es. eapply unprepared_sync_roll in Es; eauto. }
  rewrite E1 in E. destruct ok; [|by simplify_eq]. destruct (stage_record it l1) as [l2 [id|]] eqn:Es; simplify_eq; by eapply unprepared_stage.
Qed.

Lemma unprepared_many items l m ids evs l' r evs' :
  stage_many items l m ids evs = Some (l', r, evs') → unprepared l → unprepared l'.
Proof.
  revert l m ids evs. induction items as [|it items IH]; intros l m ids evs; cbn [stage_many]; [by intros [= <- _ _]|].
  destruct (stage_one it l m) as [[[[l1 m1] [id|e]] ev]|] eqn:E; [| |done]; intros E' H; apply (unprepared_one _ _ _ _ _ _ _ E) in H; [by eapply IH|].
  by simplify_eq.
Qed.

Lemma unprepared_exec op l l' evs : exec op l = Some (l', evs) → unprepared l → unprepared l'.
Proof.
  intros E H. destruct op; cbn [exec] in E.
  - apply fmap_Some in E as ([[l1 r] ev] & E & [= -> ->]). unfold AppendWith in E.
    destruct (size_err _ _); [by simplify_eq|]. destruct (negb _); [by simplify_eq|].
    destruct (stage_one _ _ _) as [[[[l2 m2] [id|e]] ev2]|] eqn:Es; simplify_eq; by eapply unprepared_one.
  - apply fmap_Some in E as ([[l1 r] ev] & E & [= -> ->]). unfold AppendManyWith in E.
    destruct items; [by simplify_eq|]. destruct (sizes_err _ _); [by simplify_eq|]. destruct (negb _); [by simplify_eq|].
    destruct (stage_many _ _ _ _ _) as [[[l2 [ids|e]] ev2]|] eqn:Es; simplify_eq; by eapply unprepared_many.
  - apply fmap_Some in E as (l1 & E & [= -> ->]). unfold flush_detach in E. unprep.
  - apply fmap_Some in E as (l1 & E & [= -> ->]). unfold flush_io in E. destruct (flying l); [|done]. destruct (f_done _); [done|].
    destruct (writeAndSync _ _ _ _) as [l2 ok] eqn:Ew. simplify_eq. by apply (unprepared_write _ _ _ _ _ _ Ew) in H.
  - apply fmap_Some in E as (l1 & E & [= -> ->]). unfold flush_finish in E. unprep.
  - apply fmap_Some in E as (l1 & E & [= -> ->]). destruct H as (Hp & _). unfold prep_start in E. by rewrite Hp in E.
  - apply fmap_Some in E as (l1 & E & [= -> ->]). destruct H as (_ & _ & Hp & _). unfold prep_finish in E. by rewrite Hp in E.
  - unfold compact_start, rotateFullyCompacted in E. destruct (compacting l); [done|].
    destruct (_ || _ || _); [unprep|]. destruct (_ || _); [unprep|]. destruct (negb _); [done|].
    destruct (sync_and_roll _ _ _ _) as [l2 ok] eqn:Es. apply (unprepared_sync_roll _ _ _ _ _ _ Es) in H. unprep.
  - apply fmap_Some in E as (l1 & E & [= -> ->]). unfold compact_finish in E. unprep.
  - by injection E as <- <-.
  - apply fmap_Some in E as (l1 & E & [= -> ->]). unfold close_file in E. unprep.
Qed.

Lemma unprepared_open raw d oc nb l : Open raw d oc nb = Ok l → Prealloc raw = false → unprepared l.
Proof.
  unfold Open. destruct (scanForOpen _ _ _) as [[seq ve]|]; [|done]. cbn. destruct (last _) as [[]|]; [|done]. by intros [= <-].
Qed.

Lemma reached_unprepared raw l tr : Prealloc raw = false → reached raw l tr → unprepared l.
Proof.
  intros Hp. induction 1 as [l Ho|l tr op l' evs _ IH _ He|l tr d l' _ _ _ Ho];
    [by eapply unprepared_open|by eapply unprepared_exec|by eapply unprepared_open].
Qed.

(** ** What the write-ahead log promises

    Crash safety, replay, opening and appending, over every run of a log:
    any interleaving of its goroutines, any I/O failure, any number of
    crashes and restarts. *)

Lemma cut_nonneg tr : 0 <= cut tr.
Proof. induction tr as [|[]]; simpl; lia. Qed.

Lemma slice_prefix all k x y : (x <= y)%nat → numbered (Z.of_nat k) (slice all k x) `prefix_of` numbered (Z.of_nat k) (slice all k y).
Proof.
  intros Hxy. destruct (decide (k <= x)%nat) as [Hk|Hk].
  - rewrite (slice_split all k x y), numbered_app by lia. by eexists.
  - unfold slice. replace (x - k)%nat with 0%nat by lia. rewrite take_0. apply prefix_nil.
Qed.

Lemma numbered_seqs s ps : (numbered s ps).*1 = seqZ s (Z.of_nat (length ps)).
Proof.
  revert s. induction ps as [|p ps IH]; intros s; [done|]. cbn [numbered fmap list_fmap fst length].
  rewrite seqZ_cons by lia. f_equal. change (list_fmap _ _ fst) with (fmap (M := list) (A := Z * octets) fst). rewrite IH.
  replace (Z.succ s) with (s + 1) by lia. f_equal. lia.
Qed.

(** After a crash, the opened log holds a prefix of the records at least as
    long as what was durable. *)
Lemma reopened raw l tr d l' :
  let o := normalizeOptions raw in
  options_ok o → reached raw l tr → crash l d → Open raw d (outcomes l) (nextBatch l) = Ok l' →
  ∃ all b dur w b' n, Inv o l tr all b dur w ∧ Inv o l' tr (take n all) b' n n ∧ (dur <= n <= length all)%nat
    ∧ durableSize l' = Z.of_nat (length (seg (take n all) b' n)) ∧ nextSeq l' = Z.of_nat n.
Proof.
  intros o Ho Hr Hcr Hopen. destruct (reached_inv raw l tr Ho Hr) as (all & b & dur & w & HI). fold o in HI.
  destruct (crash_image o l tr all b dur w d Ho HI Hcr) as (b' & n & Him & Hn & _).
  destruct (open_image raw all (cut tr) b' n d (outcomes l) (nextBatch l) Ho) as [Heq _]; [apply HI..|done|].
  pose proof (Heq l' Hopen) as ->. fold o. exists all, b, dur, w, b', n. split_and!; [done| |done|apply Him| |done].
  - apply inv_opened; try done; [apply HI..|].
    intros id p bt Hin. destruct (iv_tags _ _ _ _ _ _ _ HI id p bt Hin) as (s & Hs & [T1 T2 _ _]). split; [done|].
    exists s. split; [done|]. intros E. destruct (T2 E). split; [lia|done].
  - cbn. by rewrite seg_take.
Qed.

(** C4. Crash safety of the log, as long as failed rolls clean up: a roll
    that fails has removed the file it created ([roll_clean];
    [leftover_segment_hides_record] shows what happens otherwise).  Whatever
    else a log did before it, with failing writes, syncs, trims, creates and
    removes and with earlier crashes, a crash or power loss that leaves any
    directory the device may hold, followed by an [Open] that succeeds,
    loses no acknowledged record: replaying the opened log from the
    compaction point delivers every record a caller was told is durable, it
    continues everything a replay delivered before the crash, it delivers
    only payloads that were appended under their sequence number, and it
    delivers consecutive sequence numbers up to the next one to be handed
    out. *)
Theorem crash_keeps_acked raw l tr d l' :
  options_ok (normalizeOptions raw) → reached raw l tr → crash l d → Open raw d (outcomes l) (nextBatch l) = Ok l' →
  ∃ before after, replay_from l (cut tr) = (before, Ok tt) ∧ replay_from l' (cut tr) = (after, Ok tt)
    ∧ (∀ s p, acked l tr s p → cut tr <= s → (s, p) ∈ after)
    ∧ before `prefix_of` after
    ∧ (∀ s p, (s, p) ∈ after → EvPut s p ∈ tr)
    ∧ after.*1 = seqZ (cut tr) (nextSeq l' - cut tr).
Proof.
  intros Ho Hr Hcr Hopen. destruct (reopened raw l tr d l' Ho Hr Hcr Hopen) as (all & b & dur & w & b' & n & HI & HI' & Hn & Hds & Hseq).
  pose proof (cut_nonneg tr) as Hc. destruct (iv_durable _ _ _ _ _ _ _ HI) as (dx & Hdx & Hdz). set (k := Z.to_nat (cut tr)).
  assert (cut tr = Z.of_nat k) as Hk by lia. pose proof (iv_le _ _ _ _ _ _ _ HI') as Hle.
  pose proof (replay_range _ l tr all b dur w Ho HI dx k Hdx Hdz ltac:(lia)) as H1.
  pose proof (replay_range _ l' tr (take n all) b' n n Ho HI' n k ltac:(lia) Hds ltac:(lia)) as H2.
  rewrite slice_take in H2 by done. rewrite Hk. eexists _, _. split_and!; [exact H1|exact H2|..].
  - intros s p (id & bt & Hin & Hid & Hoc) Hs. destruct (iv_tags _ _ _ _ _ _ _ HI id p bt Hin) as (q & Hq & [_ T _ _]).
    destruct (T Hoc) as [Hlt Hp]. apply elem_of_segment; [lia|]. cbn. rewrite <-Hid, Hq, Nat2Z.id. split; [lia|done].
  - apply slice_prefix. lia.
  - intros s p [Hs Hl]%elem_of_numbered. cbn in *. pose proof (lookup_lt_Some _ _ _ Hl) as Hlt.
    destruct (decide (k <= n)%nat); [|unfold slice in Hlt; rewrite length_take in Hlt; lia].
    assert ((s, p) ∈ numbered (Z.of_nat k) (slice all k n)) as Hin by (apply elem_of_numbered; done).
    apply elem_of_segment in Hin as [Hr' Hp]; [|lia]. cbn in *. apply (iv_put _ _ _ _ _ _ _ HI) in Hp.
    by replace (Z.of_nat (Z.to_nat s)) with s in Hp by lia.
  - rewrite numbered_seqs, Hseq, length_slice by lia. destruct (decide (k <= n)%nat); [f_equal; lia|].
    replace (n - k)%nat with 0%nat by lia. unfold seqZ. by replace (Z.to_nat (Z.of_nat n - Z.of_nat k)) with 0%nat by lia.
Qed.

(** C11. Replay of an open log whose failed rolls have removed the files they
    created.  From the start of the log, from a cursor
    handed out with a durable record, or from a cursor whose segment was
    since compacted away, replay runs the callbacks on exactly the durable
    records at or after the cursor's sequence number, in order: a [peek]
    that skips a record passes over it alone, and the first error of either
    callback stops the replay and is returned.  The segments skipped and the
    offsets seeked past by the optimised paths never cost a record. *)
Theorem replay_exact raw l tr c A E (fn : A → WalRecord → Cursor → result E A) peek a :
  options_ok (normalizeOptions raw) → reached raw l tr → cursor_ok l c →
  Log_ReplayFromCursorPeek l c peek fn a = feed fn peek (from_seq (c_Seq c) (durable_records l)) a.
Proof.
  intros Ho Hr Hc. destruct (reached_inv raw l tr Ho Hr) as (all & b & dur & w & HI).
  by apply (replay_open_log (normalizeOptions raw) l tr all b dur w).
Qed.

(** C15. A log that prepares no segments, and whose failed rolls have removed
    the files they created, opens again after every crash: a torn or missing tail is cut off, never taken for corruption. *)
Theorem open_after_crash raw l tr d :
  options_ok (normalizeOptions raw) → Prealloc raw = false → reached raw l tr → crash l d →
  ∃ l', Open raw d (outcomes l) (nextBatch l) = Ok l'.
Proof.
  intros Ho Hp Hr Hcr. destruct (reached_inv raw l tr Ho Hr) as (all & b & dur & w & HI).
  destruct (crash_image _ l tr all b dur w d Ho HI Hcr) as (b' & n & Him & _ & Hend).
  destruct (reached_unprepared raw l tr Hp Hr) as (_ & _ & _ & Hs & Ha). pose proof Him as [_ (c & Hc & _) _ _].
  destruct (open_image raw all (cut tr) b' n d (outcomes l) (nextBatch l) Ho) as [_ Hok]; [apply HI..|done|].
  eexists. apply (Hok c Hc). by apply Hend.
Qed.

(** ** Appending *)

Lemma nextSeq_sync ios l l' ok : syncLocked ios l = (l', ok) → nextSeq l' = nextSeq l ∧ writeBuffer l' = [].
Proof.
  unfold syncLocked, writeAndSync. destruct (writeBuffer l) eqn:E; [by intros [= <- _]|].
  intros H. repeat case_match; by simplify_eq/=.
Qed.

Lemma nextSeq_roll up rio l l' ok : rollLocked up rio l = (l', ok) → nextSeq l' = nextSeq l ∧ writeBuffer l' = writeBuffer l.
Proof.
  unfold rollLocked. destruct (writeFailed l); [by intros [= <- _]|].
  assert (∀ l1 ok1, roll_trimmed rio l = (l1, ok1) → nextSeq l1 = nextSeq l ∧ writeBuffer l1 = writeBuffer l) as Ht.
  { unfold roll_trimmed. intros l1 ok1 H. repeat case_match; by simplify_eq/=. }
  assert (∀ l0 l1 c, roll_created up rio l0 = (l1, c) → nextSeq l1 = nextSeq l0 ∧ writeBuffer l1 = writeBuffer l0) as Hc.
  { unfold roll_created. intros l0 l1 c H. repeat case_match; by simplify_eq/=. }
  destruct (roll_trimmed rio l) as [l1 [|]] eqn:E1; destruct (Ht _ _ eq_refl) as [<- <-]; [|by intros [= <- _]].
  destruct (roll_created up rio l1) as [l2 [[]|]] eqn:E2; destruct (Hc _ _ _ E2) as [<- <-]; by intros [= <- _].
Qed.

Lemma nextSeq_sync_roll ios rio up l l' ok : sync_and_roll ios rio up l = (l', ok) → nextSeq l' = nextSeq l ∧ writeBuffer l' = [].
Proof.
  unfold sync_and_roll. destruct (syncLocked ios l) as [l1 [|]] eqn:E; destruct (nextSeq_sync _ _ _ _ E) as [<- Hb]; [|by intros [= <- _]].
  intros H. apply nextSeq_roll in H as [-> ->]. done.
Qed.

(** The mark is where the call began, or where an inline sync left the
    buffer empty. *)
Definition mark_ok (l0 l : Log) (m : stagedMark) : Prop :=
  (m = markLocked l0 ∧ writeBuffer l0 `prefix_of` writeBuffer l ∧ disk l = disk l0 ∧ segmentBase l = segmentBase l0) ∨ mk_buffered m = 0%nat.

Lemma stage_record_fields it l l' r :
  stage_record it l = (l', r) → disk l' = disk l ∧ segmentBase l' = segmentBase l ∧ writeBuffer l `prefix_of` writeBuffer l' ∧
  match r with
  | Some id => id_Seq id = nextSeq l ∧ nextSeq l' = u64 (nextSeq l + 1) ∧ is_Some (it_fill it)
  | None => nextSeq l' = nextSeq l
  end.
Proof.
  unfold stage_record. assert (∃ l1, l1 = with_batch l ∧ disk l1 = disk l ∧ segmentBase l1 = segmentBase l ∧ writeBuffer l1 = writeBuffer l ∧ nextSeq l1 = nextSeq l)
    as (l1 & <- & <- & <- & <- & <-) by (eexists; split; [done|]; unfold with_batch; by destruct (pending l)).
  unfold appendFrameWith, requestPrep. intros H. repeat case_match; simplify_eq/=; split_and!; eauto using prefix_app_r.
Qed.

Lemma stage_one_outcome it l0 l m l' m' r evs :
  stage_one it l m = Some (l', m', r, evs) → mark_ok l0 l m →
  mark_ok l0 l' m' ∧ match r with
    | Ok id => id_Seq id = nextSeq l ∧ nextSeq l' = u64 (nextSeq l + 1) ∧ is_Some (it_fill it)
    | Err _ => True
    end.
Proof.
  unfold stage_one. destruct (overflows (it_size it) l && negb (fileOps_free l)); [done|]. intros E Hm.
  assert (∃ l1 m1 ok, mark_ok l0 l1 m1 ∧ nextSeq l1 = nextSeq l ∧ (if overflows (it_size it) l then
      let '(l, ok) := sync_and_roll (it_ios it) (it_roll it) true l in (l, markLocked l, ok) else (l, m, true)) = (l1, m1, ok))
    as (l1 & m1 & ok & H1 & <- & E1).
  { destruct (overflows _ _); [|by eauto 10]. destruct (sync_and_roll _ _ _ _) as [l1 ok] eqn:Es. eexists _, _, _. split_and!; [..|done].
    - right. cbn. by destruct (nextSeq_sync_roll _ _ _ _ _ _ Es) as [_ ->].
    - by destruct (nextSeq_sync_roll _ _ _ _ _ _ Es) as [-> _]. }
  rewrite E1 in E. destruct ok; [|by simplify_eq]. destruct (stage_record it l1) as [l2 rid] eqn:Es.
  destruct (stage_record_fields it l1 l2 rid Es) as (Hd & Hb & Hpre & Hid).
  assert (mark_ok l0 l2 m1) as H2.
  { destruct H1 as [(-> & ? & ? & ?)|?]; [left|by right]. split_and!; [done|by etrans|congruence..]. }
  destruct rid as [id|]; simplify_eq; done.
Qed.

Definition restored (l l' : Log) : Prop :=
  writeBuffer l' = writeBuffer l ∧ pending l' = pending l ∧ segmentSize l' = segmentSize l ∧ nextSeq l' = nextSeq l
  ∧ segmentBase l' = segmentBase l ∧ disk l' = disk l.

Lemma stage_many_outcome items l0 l m ids evs l' r evs' :
  stage_many items l m ids evs = Some (l', r, evs') → mark_ok l0 l m → 0 <= nextSeq l →
  nextSeq l + Z.of_nat (length items) < two64 →
  match r with
  | Ok ids' => ∃ new, ids' = ids ++ new ∧ (λ ip, id_Seq ip.1) <$> new = seqZ (nextSeq l) (Z.of_nat (length items))
      ∧ Some <$> new.*2 = it_fill <$> items ∧ nextSeq l' = nextSeq l + Z.of_nat (length items)
  | Err _ => restored l0 l' ∨ writeBuffer l' = []
  end.
Proof.
  revert l m ids evs. induction items as [|it items IH]; intros l m ids evs; cbn [stage_many].
  { intros [= <- <- _] _ _ _. exists []. rewrite app_nil_r. split_and!; [done..|cbn; lia]. }
  destruct (stage_one it l m) as [[[[l1 m1] [id|e]] ev]|] eqn:E; [| |done]; intros E' Hm H0 Hn;
    destruct (stage_one_outcome it l0 l m l1 m1 _ ev E Hm) as [Hm1 Hid]; cbn [length] in Hn.
  - destruct Hid as (Hid & Hseq & [p Hp]). assert (nextSeq l1 = nextSeq l + 1) as Hs by (rewrite Hseq; unfold u64; rewrite Z.mod_small; lia).
    specialize (IH _ _ _ _ E' Hm1 ltac:(lia) ltac:(lia)). destruct r as [ids'|]; [|done].
    destruct IH as (new & -> & Hsq & Hpl & Hnx). exists ((id, p) :: new). rewrite Hp. cbn [default from_option].
    rewrite <-app_assoc. split_and!; [done| |by rewrite !fmap_cons, Hp, Hpl|rewrite Hnx; cbn; lia].
    cbn [length]. rewrite fmap_cons, Hsq, (seqZ_cons (nextSeq l)) by lia. cbn [fst]. rewrite Hid, Hs. f_equal. f_equal; lia.
  - simplify_eq. destruct Hm1 as [(-> & [r Hr] & Hd & Hb)|Hz].
    + left. unfold restored. cbn. rewrite Hr, take_app_length. done.
    + right. cbn. by rewrite Hz, take_0.
Qed.

(** Appending several records.  A call that succeeds hands out
    consecutive sequence numbers, one per record in slice order, for exactly
    the payloads filled in.  A call that fails leaves none of its records
    behind to be written later: the log is as the call found it, or an
    inline sync had written what was staged and nothing is staged. *)
Theorem append_many_outcome items l l' r evs :
  AppendManyWith items l = Some (l', r, evs) → 0 <= nextSeq l → nextSeq l + Z.of_nat (length items) < two64 →
  match r with
  | Ok ids => (λ ip, id_Seq ip.1) <$> ids = seqZ (nextSeq l) (Z.of_nat (length items))
      ∧ Some <$> ids.*2 = it_fill <$> items ∧ nextSeq l' = nextSeq l + Z.of_nat (length items)
  | Err _ => restored l l' ∨ writeBuffer l' = []
  end.
Proof.
  unfold AppendManyWith. intros E H0 Hn. destruct items as [|it items]; [simplify_eq; by left|].
  destruct (sizes_err _ _); [simplify_eq; by left|]. destruct (negb _); [simplify_eq; by left|].
  destruct (stage_many _ _ _ _ _) as [[[l1 r1] ev1]|] eqn:Es; [|done].
  assert (mark_ok l l (markLocked l)) as Hm by by left.
  pose proof (stage_many_outcome _ l _ _ _ _ _ _ _ Es Hm H0 Hn) as Hout. destruct r1 as [ids|]; simplify_eq; [|done].
  destruct Hout as (new & -> & ? & ? & ?). done.
Qed.

(** ** A run *)

(** Steps in order, each enabled and allowed. *)
#[global] Instance roll_clean_dec rio : Decision (roll_clean rio).
Proof. destruct rio; cbn; apply _. Defined.

#[global] Instance op_ok_dec op l : Decision (op_ok op l).
Proof.
  unfold op_ok. apply and_dec; [apply _|]. apply and_dec; [apply _|]. destruct op; apply _.
Defined.

Fixpoint exec_all (ops : list wal_op) (l : Log) : option (Log * list wal_event) :=
  match ops with
  | [] => Some (l, [])
  | op :: ops =>
      if bool_decide (op_ok op l) then
        match exec op l with
        | Some (l, evs) => (λ r, (r.1, evs ++ r.2)) <$> exec_all ops l
        | None => None
        end
      else None
  end.

Lemma reached_all raw l tr ops l' evs : reached raw l tr → exec_all ops l = Some (l', evs) → reached raw l' (tr ++ evs).
Proof.
  revert l tr evs. induction ops as [|op ops IH]; intros l tr evs Hr; cbn [exec_all].
  { intros [= <- <-]. by rewrite app_nil_r. }
  case_bool_decide as Hok; [|done]. destruct (exec op l) as [[l1 ev1]|] eqn:E; [|done].
  intros ([l2 ev2] & Hl & [= -> ->])%fmap_Some. rewrite app_assoc. apply (IH l1); [by eapply reached_exec|done].
Qed.

Lemma reached_run raw l ops l' evs : Open raw ∅ ∅ 0 = Ok l → exec_all ops l = Some (l', evs) → reached raw l' evs.
Proof. intros Ho He. exact (reached_all raw l [] ops l' evs (reached_open raw l Ho) He). Qed.

(** A crash that keeps each file's name, its synced bytes and some of the
    bytes written after them. *)
Definition torn_at (k : nat) (f : file) : file := let c := take (length (syn f) + k) (cur f) in File c c.

Lemma crash_torn l k : activePrepared l = false → crash l (torn_at k <$> disk l).
Proof.
  intros Hp. split; [| |congruence].
  - intros base f Hf. eexists. rewrite lookup_fmap, Hf. split; [done|]. left. split; [rewrite length_take; lia|].
    intros i x [Hi _]%lookup_take_Some. by left.
  - intros base g Hg. left. rewrite lookup_fmap in Hg. apply fmap_Some in Hg as (f & Hf & _). by eexists.
Qed.

Definition demo_opts : Options := MkOptions 64 16 32 false 0.
Definition demo_put (x : Z) : item := Item 8 (Some (replicate 8 x)) [] (RollOk false).

(** Three records with a roll before the third, two flushed; a fourth
    written but not synced. *)
Definition demo_ops : list wal_op :=
  [OpAppendMany [demo_put 1; demo_put 2]; OpFlushDetach; OpFlushIO []; OpFlushFinish;
   OpAppend (demo_put 3); OpFlushDetach; OpFlushIO []; OpFlushFinish; OpAppend (demo_put 4); OpFlushDetach; OpFlushIO [IoSyncFails]].

Definition opened_or (r : result frame_err Log) : Log :=
  match r with Ok l => l | Err _ => opened demo_opts [] 0 0 ∅ ∅ 0 end.
Definition demo_start : Log := opened_or (Open demo_opts ∅ ∅ 0).
Definition demo_end : Log * list wal_event := default (demo_start, []) (exec_all demo_ops demo_start).
Definition demo_crash : dir := torn_at 7 <$> disk demo_end.1.
Definition demo_reopened : Log := opened_or (Open demo_opts demo_crash (outcomes demo_end.1) (nextBatch demo_end.1)).

Lemma demo_options : options_ok (normalizeOptions demo_opts).
Proof. by repeat split. Qed.

Lemma wal_demo_reached : reached demo_opts demo_end.1 demo_end.2.
Proof.
  apply (reached_run demo_opts demo_start demo_ops); by vm_compute.
Qed.

Lemma demo_crashes : crash demo_end.1 demo_crash.
Proof. apply crash_torn. by vm_compute. Qed.

Lemma demo_opens : Open demo_opts demo_crash (outcomes demo_end.1) (nextBatch demo_end.1) = Ok demo_reopened.
Proof. by vm_compute. Qed.

Lemma crash_keeps_acked_witness :
  acked demo_end.1 demo_end.2 2 (replicate 8 3) ∧ ∃ before after,
    replay_from demo_end.1 (cut demo_end.2) = (before, Ok tt) ∧ replay_from demo_reopened (cut demo_end.2) = (after, Ok tt)
    ∧ (∀ s p, acked demo_end.1 demo_end.2 s p → cut demo_end.2 <= s → (s, p) ∈ after) ∧ before `prefix_of` after
    ∧ (∀ s p, (s, p) ∈ after → EvPut s p ∈ demo_end.2) ∧ after.*1 = seqZ (cut demo_end.2) (nextSeq demo_reopened - cut demo_end.2).
Proof.
  split.
  - exists (MkID 2 0 2), 1%nat. split_and!; [|done|by vm_compute].
    apply list_elem_of_lookup. exists 5%nat. by vm_compute.
  - exact (crash_keeps_acked demo_opts _ _ _ _ demo_options wal_demo_reached demo_crashes demo_opens).
Defined.

(** From the cursor after the first record, in a sealed segment. *)
Lemma replay_exact_witness :
  Log_ReplayFromCursorPeek demo_end.1 (MkCursor 0 28 1) None collect []
  = feed collect None (from_seq 1 (durable_records demo_end.1)) []
  ∧ rec_pair <$> from_seq 1 (durable_records demo_end.1) = [(1, replicate 8 2); (2, replicate 8 3)].
Proof.
  split; [|by vm_compute].
  apply (replay_exact demo_opts demo_end.1 demo_end.2 (MkCursor 0 28 1)); [apply demo_options|apply wal_demo_reached|].
  right. left. apply list_elem_of_lookup. exists 0%nat. by vm_compute.
Defined.

Lemma open_after_crash_witness : ∃ l', Open demo_opts demo_crash (outcomes demo_end.1) (nextBatch demo_end.1) = Ok l'.
Proof. exact (open_after_crash demo_opts _ _ _ demo_options eq_refl wal_demo_reached demo_crashes). Defined.

(** The second record's [fill] comes back short, so neither is staged. *)
Definition demo_short : list item := [demo_put 1; Item 8 (Some [2]) [] (RollOk false)].

Lemma append_many_outcome_witness :
  ∃ l' evs, AppendManyWith demo_short demo_start = Some (l', Err ErrFill, evs) ∧ (restored demo_start l' ∨ writeBuffer l' = []).
Proof.
  assert ((λ r, r.1.2) <$> AppendManyWith demo_short demo_start = Some (Err ErrFill)) as H by by vm_compute.
  apply fmap_Some in H as ([[l' r] evs] & E & Hr). cbn in Hr. subst r. exists l', evs. split; [done|].
  apply (append_many_outcome demo_short demo_start l' (Err ErrFill) evs E); by vm_compute.
Defined.
