(* ===== verification/WalFaults.v ===== *)
(** * Where the write-ahead log falls short

    Two behaviours of [internal/persistence/wal] that its comments rule out:
    a compaction that overlooks a roll, after which the segment the roll
    sealed is not deleted until the next one, and a failed roll whose file
    stays behind and hides an acknowledged record from a replay. *)

From S2P Require Import Prelude Octets WalFrame WalScan Wal WalRun WalInv WalCrash WalReplay WalClaims.

(** ** Runs *)

(** Operations in a row, with rolls that may leave a file behind. *)
Fixpoint exec_any (ops : list wal_op) (l : Log) : option (Log * list wal_event) :=
  match ops with
  | [] => Some (l, [])
  | op :: ops =>
      match exec op l with
      | Some (l, evs) => (λ r, (r.1, evs ++ r.2)) <$> exec_any ops l
      | None => None
      end
  end.

(** ** A compaction that overlooks a roll *)

(** What no operation but a compaction changes: a compaction under way, the
    segments, and the floor unless a roll resets it. *)
Record still (l l' : Log) : Prop := {
  st_compacting : compacting l' = compacting l;
  st_disk : ∀ k, is_Some (disk l !! k) → is_Some (disk l' !! k);
  st_floor : compactFloor l' = compactFloor l ∨ compactFloor l' = 0;
}.

Lemma still_refl l : still l l.
Proof. constructor; auto. Qed.

Lemma still_trans l1 l2 l3 : still l1 l2 → still l2 l3 → still l1 l3.
Proof. intros [A1 A2 A3] [B1 B2 B3]. constructor; [congruence|auto|destruct B3 as [->|]; auto]. Qed.

Lemma insert_keeps (d : dir) b f k : is_Some (d !! k) → is_Some (<[b := f]> d !! k).
Proof. intros H. apply lookup_insert_is_Some'. by right. Qed.

Ltac still := solve [constructor; cbn; auto using insert_keeps | constructor; cbn; repeat case_match; cbn; auto using insert_keeps].

Lemma still_write ios buffer limit l : still l (writeAndSync ios buffer limit l).1.
Proof. unfold writeAndSync. repeat case_match; still. Qed.

Lemma still_sync ios l : still l (syncLocked ios l).1.
Proof.
  unfold syncLocked. destruct (writeBuffer l) as [|x buf]; [apply still_refl|].
  pose proof (still_write ios (x :: buf) (writeLimit l) l) as H. destruct (writeAndSync _ _ _ _) as [l1 ok]. cbn in H.
  eapply still_trans; [exact H|]. destruct ok; still.
Qed.

Lemma still_trimmed rio l : still l (roll_trimmed rio l).1.
Proof. unfold roll_trimmed. repeat case_match; still. Qed.

Lemma still_created up rio l : still l (roll_created up rio l).1.
Proof. unfold roll_created. cbv zeta. repeat (still || case_match). Qed.

Lemma still_roll up rio l : still l (rollLocked up rio l).1.
Proof.
  unfold rollLocked. destruct (writeFailed l); [still|].
  pose proof (still_trimmed rio l) as H1. destruct (roll_trimmed rio l) as [l1 [|]]; [|done]. cbn in H1.
  pose proof (still_created up rio l1) as H2. destruct (roll_created up rio l1) as [l2 [[c p]|]]; cbn in *; [|by eapply still_trans].
  eapply still_trans; [exact H1|]. eapply still_trans; [exact H2|]. still.
Qed.

Lemma still_sync_and_roll ios rio up l : still l (sync_and_roll ios rio up l).1.
Proof.
  unfold sync_and_roll. pose proof (still_sync ios l) as H. destruct (syncLocked ios l) as [l1 [|]]; [|done]. cbn in H.
  eapply still_trans; [exact H|apply still_roll].
Qed.

Lemma still_stage it l : still l (stage_record it l).1.
Proof. unfold stage_record, with_batch, requestPrep. repeat (still || case_match). Qed.

Lemma still_stage_one it l m l' m' r evs : stage_one it l m = Some (l', m', r, evs) → still l l'.
Proof.
  unfold stage_one. destruct (_ && _); [done|]. pose proof (still_sync_and_roll (it_ios it) (it_roll it) true l) as H.
  destruct (overflows _ _); [destruct (sync_and_roll _ _ _ _) as [l1 [|]]; cbn in H|].
  - pose proof (still_stage it l1) as Hs. destruct (stage_record it l1) as [l2 [id|]]; intros [= <- _ _ _]; by eapply still_trans.
  - by intros [= <- _ _ _].
  - pose proof (still_stage it l) as Hs. destruct (stage_record it l) as [l2 [id|]]; by intros [= <- _ _ _].
Qed.

Lemma still_stage_many items l m ids evs l' r evs' : stage_many items l m ids evs = Some (l', r, evs') → still l l'.
Proof.
  revert l m ids evs. induction items as [|it items IH]; intros l m ids evs; cbn [stage_many].
  { intros [= <- _ _]. apply still_refl. }
  destruct (stage_one it l m) as [[[[l1 m1] [id|e]] ev1]|] eqn:E; [| |done]; apply still_stage_one in E.
  - intros H. eapply still_trans; [exact E|by eapply IH].
  - intros [= <- _ _]. eapply still_trans; [exact E|]. still.
Qed.

Lemma still_rotate seq ios rio l l' ok : rotateFullyCompacted seq ios rio l = Some (l', ok) → still l l'.
Proof.
  unfold rotateFullyCompacted. repeat case_match; try done; [intros [= <- _]; apply still_refl..|].
  intros [= E]. pose proof (still_sync_and_roll ios rio false l) as Hr. by rewrite E in Hr.
Qed.

(** Every operation but those of a compaction. *)
Lemma still_exec op l l' evs :
  exec op l = Some (l', evs) → match op with OpCompact _ _ _ | OpCompactFinish _ => True | _ => still l l' end.
Proof.
  destruct op as [it|items| |ios| | |ok|seq ios rio|oks| |]; cbn [exec]; try done.
  - intros ([[l1 r] ev]&E&[= -> ->])%fmap_Some. unfold AppendWith in E. destruct (size_err _ _); [injection E as <- _ _; apply still_refl|].
    destruct (negb _); [injection E as <- _ _; apply still_refl|].
    destruct (stage_one it l (markLocked l)) as [[[[l2 m2] [id|e]] ev2]|] eqn:Es; [| |done]; injection E as <- _ _; by eapply still_stage_one.
  - intros ([[l1 r] ev]&E&[= -> ->])%fmap_Some. unfold AppendManyWith in E. destruct items as [|it items]; [injection E as <- _ _; apply still_refl|].
    destruct (sizes_err _ _); [injection E as <- _ _; apply still_refl|]. destruct (negb _); [injection E as <- _ _; apply still_refl|].
    destruct (stage_many _ _ _ _ _) as [[[l2 [ids|e]] ev2]|] eqn:Es; [| |done]; injection E as <- _ _; by eapply still_stage_many.
  - intros (l1&E&[= -> ->])%fmap_Some. unfold flush_detach in E. repeat case_match; simplify_eq; still.
  - intros (l1&E&[= -> ->])%fmap_Some. unfold flush_io in E. destruct (flying l) as [fl|]; [|done]. destruct (f_done fl); [done|].
    pose proof (still_write ios (f_buffer fl) (f_limit fl) l) as H. destruct (writeAndSync _ _ _ _) as [l2 ok]. injection E as <-.
    eapply still_trans; [exact H|]. still.
  - intros (l1&E&[= -> ->])%fmap_Some. unfold flush_finish in E. repeat case_match; simplify_eq; still.
  - intros (l1&E&[= -> ->])%fmap_Some. unfold prep_start in E. repeat case_match; simplify_eq; still.
  - intros (l1&E&[= -> ->])%fmap_Some. unfold prep_finish in E. repeat case_match; simplify_eq; still.
  - intros (l1&E&[= -> ->])%fmap_Some. unfold close_begin in E. simplify_eq. still.
  - intros (l1&E&[= -> ->])%fmap_Some. unfold close_file in E. repeat case_match; simplify_eq; still.
Qed.

(** Under the largest floor no compaction starts. *)
Lemma floor_blocks op l l' evs :
  compacting l = None → compactFloor l = max_uint64 → (∀ seq ios rio, op = OpCompact seq ios rio → seq < max_uint64) →
  exec op l = Some (l', evs) →
  compactFloor l' = 0 ∨ compacting l' = None ∧ compactFloor l' = max_uint64 ∧ ∀ k, is_Some (disk l !! k) → is_Some (disk l' !! k).
Proof.
  intros Hc Hf Hseq E. pose proof (still_exec op l l' evs E) as Hs.
  assert (still l l' → compactFloor l' = 0 ∨ compacting l' = None ∧ compactFloor l' = max_uint64 ∧ ∀ k, is_Some (disk l !! k) → is_Some (disk l' !! k)) as Hst.
  { intros [S1 S2 [S3|S3]]; [right; rewrite S1, S3; auto|by left]. }
  destruct op as [it|items| |ios| | |ok|seq ios rio|oks| |]; auto; cbn [exec] in E.
  - unfold compact_start in E. rewrite Hc in E. destruct (rotateFullyCompacted seq ios rio l) as [[l1 ok]|] eqn:Er; [|done].
    pose proof (still_rotate _ _ _ _ _ _ Er) as Hr. destruct ok; [|injection E as <- _; auto].
    specialize (Hseq seq ios rio eq_refl). destruct (st_floor _ _ Hr) as [Hf1|Hf1].
    + rewrite Hf1, Hf, (proj2 (Z.ltb_lt _ _)) in E by lia. injection E as <- _. auto.
    + left. rewrite Hf1 in E. destruct (seq <? 0); injection E as <- _; done.
  - apply fmap_Some in E as (l1&E&_). unfold compact_finish in E. by rewrite Hc in E.
Qed.

Lemma floor_blocks_all ops l l' evs :
  compacting l = None → compactFloor l = max_uint64 → (∀ seq ios rio, OpCompact seq ios rio ∈ ops → seq < max_uint64) →
  exec_any ops l = Some (l', evs) →
  (∃ ops1 ops2 l1 evs1, ops = ops1 ++ ops2 ∧ exec_any ops1 l = Some (l1, evs1) ∧ compactFloor l1 = 0)
  ∨ ∀ k, is_Some (disk l !! k) → is_Some (disk l' !! k).
Proof.
  revert l evs. induction ops as [|op ops IH]; intros l evs Hc Hf Hseq; cbn [exec_any]; [intros [= <- _]; by right|].
  destruct (exec op l) as [[l1 ev1]|] eqn:E; [|done]. intros ([l2 ev2]&E2&[= -> ->])%fmap_Some.
  destruct (floor_blocks op l l1 ev1 Hc Hf ltac:(intros ??? ->; eapply Hseq; by left) E) as [H0|(H1&H2&H3)].
  { left. exists [op], ops, l1, (ev1 ++ []). split; [done|]. cbn. by rewrite E. }
  destruct (IH l1 ev2 H1 H2 ltac:(intros ??? ?; eapply Hseq; by right) E2) as [(o1&o2&l3&ev3&->&E3&H0)|Hk]; [left|right; auto].
  exists (op :: o1), o2, l3, (ev1 ++ ev3). split; [done|]. cbn. by rewrite E, E3.
Qed.

(** What a compaction that began before a roll keeps and deletes. *)
Lemma compact_loop_race cp pre fa b fb oks :
  Forall (λ s : Z * file, s.1 < cp_active cp) pre → cp_active cp <= cp_seq cp → Forall (λ ok, ok = true) oks → b ≠ cp_active cp →
  compact_loop (pre ++ [(cp_active cp, fa); (b, fb)]) cp oks = ([(cp_active cp, fa); (b, fb)], pre, true).
Proof.
  intros Hpre Hseq Hok Hb. revert oks Hok. induction Hpre as [|s pre Hs Hpre IH]; intros oks Hok; cbn [app compact_loop fst].
  { rewrite bool_decide_true by done. cbn [orb head]. by rewrite orb_true_r. }
  rewrite bool_decide_false by lia. cbn [orb].
  assert (match head (pre ++ [(cp_active cp, fa); (b, fb)]) with Some n => cp_seq cp <? n.1 | None => true end = false) as ->.
  { destruct Hpre as [|s' pre' Hs' _]; cbn; lia. }
  assert (Forall (λ ok, ok = true) (tail oks)) as Ht by (destruct Hok; by cbn). rewrite (IH _ Ht).
  destruct Hok as [|? ? -> _]; done.
Qed.

(** C40. A roll during a compaction is not noticed when the floor was already
    0, the value the roll resets it to.  Let a compaction whose argument
    covers the segment that was active when it began end after one roll, on
    a floor that reads as when it began.  It sets the floor to the maximum,
    and from then on, until a roll resets the floor, no [CompactBefore] with
    any argument below the maximum deletes the segment that roll sealed,
    whatever else is done to the log. *)
Theorem compaction_floor_race l cp pre fa fb oks l1 ops l2 evs :
  compacting l = Some cp → compactFloor l = cp_floor cp →
  listSegments (disk l) = pre ++ [(cp_active cp, fa); (segmentBase l, fb)] →
  cp_active cp <= cp_seq cp → Forall (λ ok, ok = true) oks → compact_finish oks l = Some l1 →
  exec_any ops l1 = Some (l2, evs) → (∀ seq ios rio, OpCompact seq ios rio ∈ ops → seq < max_uint64) →
  compactFloor l1 = max_uint64
  ∧ ((∃ ops1 ops2 l' evs', ops = ops1 ++ ops2 ∧ exec_any ops1 l1 = Some (l', evs') ∧ compactFloor l' = 0)
     ∨ is_Some (disk l2 !! cp_active cp)).
Proof.
  intros Hcp Hf Hl Hseq Hok Hfin Hex Hops. pose proof (listSegments_ascending (disk l)) as Hasc. rewrite Hl in Hasc.
  apply StronglySorted_app in Hasc as (Hlt&_&Hab). apply StronglySorted_inv in Hab as [_ Hab]. apply Forall_cons in Hab as [Hab _]. cbn in Hab.
  assert (Forall (λ s : Z * file, s.1 < cp_active cp) pre) as Hpre.
  { apply Forall_forall. intros s Hs. apply (Hlt s (cp_active cp, fa) Hs). by left. }
  unfold compact_finish in Hfin. rewrite Hcp, Hl, (compact_loop_race cp pre fa (segmentBase l) fb oks Hpre Hseq Hok ltac:(lia)) in Hfin.
  rewrite Hf, Z.eqb_refl in Hfin. cbn [andb next_floor fst] in Hfin. rewrite decide_True, decide_False in Hfin by (done || lia).
  cbn [head] in Hfin. injection Hfin as <-. split; [done|].
  destruct (λ Hn Hm, floor_blocks_all ops _ _ _ Hn Hm Hops Hex) as [H|H]; [done..|by left|right]. apply H. cbn.
  assert (is_Some (disk l !! cp_active cp)) as Hin.
  { exists fa. apply elem_of_listSegments. rewrite Hl. set_solver. }
  clear -Hpre Hin. induction Hpre as [|s pre Hs Hpre IH]; [done|]. cbn [foldr]. rewrite lookup_delete_ne by lia. done.
Qed.

(** The compaction begins, a record that overflows the segment rolls it, and
    the compaction is about to end. *)
Definition demo_race : option (Log * list wal_event) :=
  exec_any [OpAppendMany [demo_put 1; demo_put 2]; OpFlushDetach; OpFlushIO []; OpFlushFinish;
            OpCompact 1 [] (RollOk false); OpAppend (demo_put 3)] demo_start.
Definition demo_after : list wal_op := [OpFlushDetach; OpFlushIO []; OpFlushFinish; OpCompact 2 [] (RollOk false)].

Definition demo_racing : Log := (default (demo_start, []) demo_race).1.
Definition demo_file (base : Z) : file := default (File [] []) (disk demo_racing !! base).
Definition demo_compacted : Log := default demo_start (compact_finish [] demo_racing).
Definition demo_later : Log := (default (demo_start, []) (exec_any demo_after demo_compacted)).1.

(** A [CompactBefore 2] after the third record is durable leaves the segment
    that holds records 0 and 1 where it is. *)
Lemma compaction_floor_race_witness :
  compactFloor demo_compacted = max_uint64
  ∧ ((∃ ops1 ops2 l' evs', demo_after = ops1 ++ ops2 ∧ exec_any ops1 demo_compacted = Some (l', evs') ∧ compactFloor l' = 0)
     ∨ is_Some (disk demo_later !! 0))
  ∧ (listSegments (disk demo_later)).*1 = [0; 2] ∧ segmentBase demo_later = 2.
Proof.
  assert ((∀ seq ios rio, OpCompact seq ios rio ∈ demo_after → seq < max_uint64)) as Hops.
  { intros seq ios rio H. unfold demo_after in H. rewrite !elem_of_cons, elem_of_nil in H.
    destruct H as [[=]|[[=]|[[=]|[[= -> _ _]|[]]]]]. by vm_compute. }
  destruct (compaction_floor_race demo_racing (Compaction 1 0 0) [] (demo_file 0) (demo_file 2) []
    demo_compacted demo_after demo_later (default (demo_start, []) (exec_any demo_after demo_compacted)).2) as [H1 H2];
    [by vm_compute..|exact Hops|]. split; [exact H1|]. split; [exact H2|]. split; by vm_compute.
Defined.

(** ** A roll whose file stays behind *)

Definition demo_leftover : option (Log * list wal_event) :=
  exec_any [OpAppend (Item 16 (Some (replicate 16 1)) [] (RollOk false));
            OpAppend (Item 16 (Some (replicate 16 2)) [] (RollDirSyncFails true));
            OpAppend (Item 8 (Some (replicate 8 3)) [] (RollOk false)); OpFlushDetach; OpFlushIO []; OpFlushFinish] demo_start.

(** The cleanup of a failed roll matters.  When the directory sync of a
    roll fails and the removal of the new segment file does not last, a
    smaller record still fits the old segment and is acknowledged; but the
    file left behind carries that record's sequence number as its base.
    Once the log is opened again on the same files, a replay from the start
    delivers the record, while a replay from the record itself skips the
    segment that holds it and delivers nothing. *)
Theorem leftover_segment_hides_record :
  ∃ l tr l', demo_leftover = Some (l, tr) ∧ acked l tr 1 (replicate 8 3) ∧ cut tr = 0
  ∧ Open demo_opts (torn_at 0 <$> disk l) (outcomes l) (nextBatch l) = Ok l'
  ∧ replay_from l' 0 = ([(0, replicate 16 1); (1, replicate 8 3)], Ok tt) ∧ replay_from l' 1 = ([], Ok tt).
Proof.
  destruct demo_leftover as [[l tr]|] eqn:E; [|by vm_compute in E].
  exists l, tr, (opened_or (Open demo_opts (torn_at 0 <$> disk l) (outcomes l) (nextBatch l))). split; [done|].
  vm_compute in E. injection E as <- <-. split_and!; [|by vm_compute..].
  exists (MkID 0 36 1), 1%nat. split_and!; [|done|by vm_compute]. apply list_elem_of_lookup. exists 3%nat. by vm_compute.
Qed.
