(* ===== verification/PartFrame.v ===== *)
(** * Frames of a partition log

    [internal/persistence/storage]: the frame layout ([format.go]), encoding,
    reading and verifying frames ([frame.go], [codec.go]) and the searches
    for frames after damage ([recovery.go]), as functions of a segment
    file's bytes.  Positions in a file and offsets of records are [Z]. *)

From S2P Require Import Prelude Octets.

(** ** Layout *)

Definition magicByte0 : Z := 0xCA.
Definition magicByte1 : Z := 0xFE.
Definition headerSize : Z := 27.
Definition codecMask : Z := 7.
Definition maxFrameBytes : Z := 256 * 1024 * 1024.

(** Wrap-around of a 32-bit signed result. *)
Definition i32 (x : Z) : Z := (x + 2 ^ 31) mod 2 ^ 32 - 2 ^ 31.

(** [h.baseOffset + int64(h.recordCount)]. *)
Definition next_offset (base count : Z) : Z := i64 (base + count).

Record frameHeader := MkFrameHeader {
  flags : Z;
  recordCount : Z;
  baseOffset : Z;
  uncompressed : Z;
  compressed : Z;
  crc : Z;
}.

Definition frame_codec (h : frameHeader) : Z := Z.land (flags h) codecMask.

(** The bytes of the header the checksum covers, [buf[2:23]]. *)
Definition header_body (h : frameHeader) : octets :=
  [flags h] ++ put_be 4 (recordCount h) ++ put_be 8 (baseOffset h) ++ put_be 4 (uncompressed h)
  ++ put_be 4 (compressed h).

Definition encodeHeader (h : frameHeader) : octets :=
  [magicByte0; magicByte1] ++ header_body h ++ put_be 4 (crc h).

(** [errCorrupt] is a failed checksum or an undecodable payload; an unknown
    codec wraps [ErrCorruptRecord]. *)
Inductive ferr := ErrUnexpectedEOF | ErrBadMagic | ErrCorrupt | ErrCorruptRecord.

#[global] Instance ferr_eq : EqDecision ferr.
Proof. solve_decision. Defined.

Definition be_at (from n : nat) (s : octets) : Z := get_be (take n (drop from s)).

Definition decodeHeader (buf : octets) : result ferr frameHeader :=
  if blen buf <? headerSize then Err ErrCorruptRecord
  else if decide (take 2 buf ≠ [magicByte0; magicByte1]) then Err ErrBadMagic
  else
    let h := MkFrameHeader (be_at 2 1 buf) (i32 (be_at 3 4 buf)) (i64 (be_at 7 8 buf))
               (i32 (be_at 15 4 buf)) (i32 (be_at 19 4 buf)) (be_at 23 4 buf) in
    if (recordCount h <=? 0) || (uncompressed h <=? 0) || (compressed h <=? 0) || (baseOffset h <? 0)
    then Err ErrCorruptRecord
    else if (maxFrameBytes <? compressed h) || (maxFrameBytes <? uncompressed h) then Err ErrCorruptRecord
    else Ok h.

(** ** Codecs *)

(** [codec.Codec]; zstd is a third-party library. *)
Record Codec := MkCodec {
  Flag : Z;
  Encode : octets → octets;
  Decode : octets → Z → option octets;
}.

Definition FlagNone : Z := 0.
Definition FlagZstd : Z := 1.

Definition NoopCodec : Codec := MkCodec FlagNone (λ s, s) (λ s _, Some s).

(** The log's own codec and the shared [foreignZstdCodec]. *)
Record codecs := MkCodecs { own : Codec; foreignZstd : Codec }.

Definition codecForFlag (flag : Z) (cs : codecs) : result ferr Codec :=
  if decide (flag = FlagNone) then Ok NoopCodec
  else if decide (flag = FlagZstd) then
    Ok (if decide (Flag (own cs) = FlagZstd) then own cs else foreignZstd cs)
  else Err ErrCorruptRecord.

(** ** Encoding *)

Definition crc32cOf (parts : list octets) : Z := crc_update_tab castagnoli 0 (concat parts).

Definition encodeRecordsPayload (records : list octets) : octets :=
  concat ((λ r, put_be 4 (blen r) ++ r) <$> records).

Definition inner_size (records : list octets) : Z := foldr (λ r n, 4 + blen r + n) 0 records.

Inductive encode_err := EmptyBatch | FrameTooLarge.

Definition encodeFrame (c : Codec) (records : list octets) (base : Z) : result encode_err octets :=
  match records with
  | [] => Err EmptyBatch
  | _ =>
      let inner := encodeRecordsPayload records in
      let payload := if decide (Flag c = FlagNone) then inner else Encode c inner in
      if (maxFrameBytes <? inner_size records) || (maxFrameBytes <? blen payload) then Err FrameTooLarge
      else
        let h crc := MkFrameHeader (Z.land (Flag c) codecMask) (i32 (Z.of_nat (length records))) base
                       (i32 (inner_size records)) (i32 (blen payload)) crc in
        Ok (encodeHeader (h (crc32cOf [header_body (h 0); payload])) ++ payload)
  end.

(** ** Reading *)

(** [ReadAt] of an open file: the bytes read. *)
Definition ReadAt (f : octets) (pos n : Z) : octets :=
  take (Z.to_nat (Z.min n (blen f - pos))) (drop (Z.to_nat pos) f).

Fixpoint split_records (count : nat) (s : octets) : option (list octets) :=
  match count with
  | O => match s with [] => Some [] | _ => None end
  | S count =>
      if blen s <? 4 then None
      else let l := get_be (take 4 s) in
           let s := drop 4 s in
           if blen s <? l then None
           else rest ← split_records count (drop (Z.to_nat l) s); Some (take (Z.to_nat l) s :: rest)
  end.

Definition decodeRecordsPayload (payload : octets) (count : Z) : option (list octets) :=
  split_records (Z.to_nat count) payload.

Definition readHeaderAt (f : octets) (pos : Z) : result ferr (octets * frameHeader) :=
  let hdrBuf := ReadAt f pos headerSize in
  if blen hdrBuf <? headerSize then Err ErrUnexpectedEOF
  else let! h := decodeHeader hdrBuf in Ok (hdrBuf, h).

Definition crc_body (hdrBuf : octets) : octets := take 21 (drop 2 hdrBuf).

Definition readFrameRaw (f : octets) (pos : Z) : result ferr (frameHeader * octets) :=
  let! (hdrBuf, h) := readHeaderAt f pos in
  let payload := ReadAt f (pos + headerSize) (compressed h) in
  if blen payload <? compressed h then Err ErrUnexpectedEOF
  else if decide (crc h = crc32cOf [crc_body hdrBuf; payload]) then Ok (h, payload)
  else Err ErrCorrupt.

Definition frame_end (pos : Z) (h : frameHeader) : Z := pos + headerSize + compressed h.

Definition decode_payload (cs : codecs) (h : frameHeader) (payload : octets) : result ferr octets :=
  if decide (frame_codec h = FlagNone) then Ok payload
  else let! c := codecForFlag (frame_codec h) cs in
       match Decode c payload (uncompressed h) with
       | Some d => Ok d
       | None => Err ErrCorrupt
       end.

Definition readFrameAt (cs : codecs) (f : octets) (pos : Z) : result ferr (frameHeader * list octets * Z) :=
  let! (h, payload) := readFrameRaw f pos in
  let! decoded := decode_payload cs h payload in
  if decide (blen decoded ≠ uncompressed h) then Err ErrCorrupt
  else match decodeRecordsPayload decoded (recordCount h) with
       | Some records => Ok (h, records, frame_end pos h)
       | None => Err ErrCorrupt
       end.

Definition frameHeaderAt (f : octets) (pos : Z) : result ferr (frameHeader * Z) :=
  let! (_, h) := readHeaderAt f pos in Ok (h, frame_end pos h).

Definition verifyChunkBytes : Z := 65536.

(** The loop over the payload: the checksum of what was read.  A round takes
    a chunk, so one more round than whole chunks is enough. *)
Fixpoint verify_loop (fuel : nat) (f : octets) (remaining at_ sum : Z) : result ferr Z :=
  match fuel with
  | O => Ok sum
  | S fuel =>
      if 0 <? remaining then
        let want := Z.min remaining verifyChunkBytes in
        let chunk := ReadAt f at_ want in
        if blen chunk <? want then Err ErrUnexpectedEOF
        else verify_loop fuel f (remaining - want) (at_ + want) (crc_update_tab castagnoli sum chunk)
      else Ok sum
  end.

Definition verifyFrameAtBuffered (f : octets) (pos : Z) : result ferr (frameHeader * Z) :=
  let! (hdrBuf, h) := readHeaderAt f pos in
  let! sum := verify_loop (Z.to_nat (compressed h / verifyChunkBytes + 1)) f (compressed h) (pos + headerSize)
                (crc_update_tab castagnoli 0 (crc_body hdrBuf)) in
  if decide (crc h = sum) then Ok (h, frame_end pos h) else Err ErrCorrupt.

(** ** Searching *)

Fixpoint find_magic (s : octets) : option nat :=
  match s with
  | a :: s' =>
      match s' with
      | b :: _ => if decide (a = magicByte0 ∧ b = magicByte1) then Some 0%nat else S <$> find_magic s'
      | [] => None
      end
  | [] => None
  end.

Definition magicChunk : Z := 4096.

(** The loop of [nextMagicInSegment]: chunks after the first overlap the
    previous one by a byte.  Each round but the last covers a chunk. *)
Fixpoint magic_rounds (fuel : nat) (f : octets) (start size pos : Z) : Z :=
  match fuel with
  | O => size
  | S fuel =>
      if pos <? size then
        let stop := Z.min (pos + magicChunk) size in
        let readStart := if start <? pos then pos - 1 else pos in
        let buf := ReadAt f readStart (stop - readStart) in
        if blen buf <? 2 then size
        else match find_magic buf with
             | Some i => readStart + Z.of_nat i
             | None => magic_rounds fuel f start size stop
             end
      else size
  end.

Definition nextMagicInSegment (f : octets) (start size : Z) : Z :=
  magic_rounds (Z.to_nat ((size - start) / magicChunk + 2)) f start size start.

(** The loop of [nextValidFramePos]; the position grows each round. *)
Fixpoint valid_loop (fuel : nat) (f : octets) (size pos : Z) : Z :=
  match fuel with
  | O => size
  | S fuel =>
      if pos <? size then
        match verifyFrameAtBuffered f pos with
        | Ok _ => pos
        | Err _ => valid_loop fuel f size (nextMagicInSegment f (pos + 1) size)
        end
      else size
  end.

Definition nextValidFramePos (f : octets) (start size : Z) : Z :=
  valid_loop (Z.to_nat (size - start + 1)) f size (nextMagicInSegment f start size).
