(* ===== verification/PartCache.v ===== *)
(** * The read caches of a partition log

    [internal/persistence/storage]: where recently read frames are
    ([nav_cache.go]) and what they decode to ([decode_cache.go]).  Both are
    lists with the most recently used entry in front; the source keeps a map
    from keys to list elements beside the list.  The lemmas say that a cache
    only ever answers with what was put into it, and that it stays within
    its bounds. *)

From S2P Require Import Prelude Octets.

(** [indexEntry] of [index.go]. *)
Record indexEntry := MkEntry {
  ie_seg : Z;
  ie_base : Z;
  ie_count : Z;
  ie_pos : Z;
  ie_len : Z;
}.

#[global] Instance indexEntry_eq : EqDecision indexEntry.
Proof. solve_decision. Defined.

(** [frameKey]: the segment's base offset and the frame's position. *)
Abbreviation frameKey := (Z * Z)%type.

Definition key_of (e : indexEntry) : frameKey := (ie_seg e, ie_pos e).

(** [e.baseOffset + int64(e.recordCount)] *)
Definition ie_next (e : indexEntry) : Z := i64 (ie_base e + ie_count e).

Definition covers (e : indexEntry) (offset : Z) : bool := (ie_base e <=? offset) && (offset <? ie_next e).

(** ** Positions *)

Definition maxNavCacheEntries : nat := 256.

(** The walk of [bestAnchor] from the front. *)
Fixpoint nav_best (c : list indexEntry) (segmentBase offset : Z) (best : option indexEntry) : option indexEntry :=
  match c with
  | [] => best
  | e :: c =>
      if negb (ie_seg e =? segmentBase) || (offset <? ie_base e) then nav_best c segmentBase offset best
      else if offset <? ie_next e then Some e
      else nav_best c segmentBase offset
             (match best with
              | Some b => if ie_base b <? ie_base e then Some e else best
              | None => Some e
              end)
  end.

Definition nav_others (k : frameKey) (c : list indexEntry) : list indexEntry := filter (λ e, key_of e ≠ k) c.

Definition nav_bestAnchor (c : list indexEntry) (segmentBase offset : Z) : list indexEntry * option indexEntry :=
  let slow :=
    match nav_best c segmentBase offset None with
    | Some e => (e :: nav_others (key_of e) c, Some e)
    | None => (c, None)
    end in
  match c with
  | e :: _ => if (ie_seg e =? segmentBase) && covers e offset then (c, Some e) else slow
  | [] => slow
  end.

Definition nav_put (c : list indexEntry) (e : indexEntry) : list indexEntry :=
  if decide (Exists (λ e', key_of e' = key_of e) c) then e :: nav_others (key_of e) c
  else take maxNavCacheEntries (e :: c).

Definition nav_invalidateSegment (c : list indexEntry) (segmentBase : Z) : list indexEntry :=
  filter (λ e, ie_seg e ≠ segmentBase) c.

(** ** Decoded frames *)

Definition maxDecodeCacheFrames : Z := 64.
Definition maxDecodeCacheBytes : Z := 8 * 2 ^ 20.

Record frameCacheEntry := MkCached { fe_key : frameKey; fe_recs : list octets; fe_bytes : Z }.

Record frameCache := MkFrameCache { fc_items : list frameCacheEntry; fc_bytes : Z }.

Definition fc_find (k : frameKey) (items : list frameCacheEntry) : option frameCacheEntry :=
  head (filter (λ e, fe_key e = k) items).

Definition fc_others (k : frameKey) (items : list frameCacheEntry) : list frameCacheEntry :=
  filter (λ e, fe_key e ≠ k) items.

Definition fc_get (c : frameCache) (k : frameKey) : frameCache * option (list octets) :=
  match fc_find k (fc_items c) with
  | Some e => (MkFrameCache (e :: fc_others k (fc_items c)) (fc_bytes c), Some (fe_recs e))
  | None => (c, None)
  end.

(** The eviction loop over the entries behind the new one, from the back;
    [back] lists them in that order and [n] counts the new one too. *)
Fixpoint fc_evict (back : list frameCacheEntry) (n cur : Z) : list frameCacheEntry * Z :=
  match back with
  | [] => ([], cur)
  | e :: back' =>
      if (maxDecodeCacheFrames <? n) || (maxDecodeCacheBytes <? cur)
      then fc_evict back' (n - 1) (cur - fe_bytes e)
      else (back, cur)
  end.

Definition fc_putSized (c : frameCache) (k : frameKey) (recs : list octets) (bytes : Z) : frameCache :=
  match fc_find k (fc_items c) with
  | Some e => MkFrameCache (e :: fc_others k (fc_items c)) (fc_bytes c)
  | None =>
      let '(back, cur) := fc_evict (reverse (fc_items c)) (Z.of_nat (length (fc_items c)) + 1) (fc_bytes c + bytes) in
      MkFrameCache (MkCached k recs bytes :: reverse back) cur
  end.

Definition fc_total (items : list frameCacheEntry) : Z := foldr (λ e n, fe_bytes e + n) 0 items.

Definition fc_invalidateSegment (c : frameCache) (segmentBase : Z) : frameCache :=
  MkFrameCache (filter (λ e, (fe_key e).1 ≠ segmentBase) (fc_items c))
    (fc_bytes c - fc_total (filter (λ e, (fe_key e).1 = segmentBase) (fc_items c))).

(** ** Answers come from what was put *)

Lemma nav_best_spec c s o best e :
  nav_best c s o best = Some e →
  (best = Some e ∨ e ∈ c ∧ ie_seg e = s ∧ ie_base e <= o)
  ∧ (∀ b, best = Some b → o < ie_next e ∨ ie_base b <= ie_base e).
Proof.
  revert best. induction c as [|x c IH]; cbn [nav_best]; intros best H.
  - subst. split; [by left|]. intros b [= ->]. right. lia.
  - destruct (negb (ie_seg x =? s) || (o <? ie_base x)) eqn:Hx.
    + apply IH in H as [H1 H2]. split; [|done]. destruct H1 as [|(?&?&?)]; [by left|]. right. split; [by right|done].
    + apply orb_false_iff in Hx as [Hs Hb]. apply negb_false_iff in Hs.
      destruct (o <? ie_next x) eqn:Hc.
      { simplify_eq. split; [right; split; [by left|lia]|]. intros b _. left. lia. }
      apply IH in H as [H1 H2]. split.
      * destruct H1 as [H1|(?&?&?)]; [|right; split; [by right|done]].
        destruct best as [b|]; [destruct (ie_base b <? ie_base x)|]; simplify_eq;
          [right; split; [by left|lia]|by left|right; split; [by left|lia]].
      * intros b ->. destruct (ie_base b <? ie_base x) eqn:E; [|by apply H2].
        destruct (H2 x eq_refl); [by left|]. right. lia.
Qed.

(** Nothing nearer below the offset is in the cache. *)
Lemma nav_best_nearest c s o best e e' :
  nav_best c s o best = Some e → e' ∈ c → ie_seg e' = s → ie_base e' <= o → o < ie_next e ∨ ie_base e' <= ie_base e.
Proof.
  revert best. induction c as [|x c IH]; cbn [nav_best]; intros best H Hin Hs Hb; [by apply elem_of_nil in Hin|].
  apply elem_of_cons in Hin as [->|Hin].
  - rewrite Hs, Z.eqb_refl in H. replace (o <? ie_base x) with false in H by lia. cbn in H.
    destruct (o <? ie_next x) eqn:E; [simplify_eq; left; lia|].
    apply nav_best_spec in H as [_ H]. destruct best as [b|]; [|by apply H].
    destruct (ie_base b <? ie_base x) eqn:Eb; [by apply H|]. destruct (H b eq_refl); [by left|right; lia].
  - destruct (negb _ || _); [by eapply IH|]. destruct (o <? ie_next x) eqn:E; [simplify_eq; left; lia|]. by eapply IH.
Qed.

Lemma nav_best_None c s o : nav_best c s o None = None → ∀ e, e ∈ c → ie_seg e = s → o < ie_base e.
Proof.
  assert (∀ c b, nav_best c s o (Some b) ≠ None) as Hsome.
  { clear. intros c. induction c as [|x c IH]; intros b; cbn [nav_best]; [done|].
    destruct (negb _ || _); [done|]. destruct (o <? ie_next x); [done|]. by destruct (ie_base b <? ie_base x). }
  induction c as [|x c IH]; cbn [nav_best]; intros H e Hin Hs; [by apply elem_of_nil in Hin|].
  destruct (negb (ie_seg x =? s) || (o <? ie_base x)) eqn:E.
  - apply elem_of_cons in Hin as [->|Hin]; [|by apply IH]. apply orb_true_iff in E as [E|E]; lia.
  - destruct (o <? ie_next x); [done|]. by apply Hsome in H.
Qed.

Lemma nav_bestAnchor_subset c s o x : x ∈ (nav_bestAnchor c s o).1 → x ∈ c.
Proof.
  unfold nav_bestAnchor.
  assert (∀ r, r = match nav_best c s o None with
                   | Some e => (e :: nav_others (key_of e) c, Some e) | None => (c, None) end → x ∈ r.1 → x ∈ c) as H.
  { intros r ->. destruct (nav_best c s o None) as [e|] eqn:E; [|done]. cbn [fst]. rewrite elem_of_cons.
    unfold nav_others. rewrite list_elem_of_filter. apply nav_best_spec in E as [[|(?&_)] _]; [done|]. naive_solver. }
  destruct c as [|e c']; [by apply H|]. destruct (_ && _); [done|]. by apply H.
Qed.

Lemma nav_bestAnchor_some c s o e :
  (nav_bestAnchor c s o).2 = Some e →
  e ∈ c ∧ ie_seg e = s ∧ ie_base e <= o
  ∧ ∀ e', e' ∈ c → ie_seg e' = s → ie_base e' <= o → o < ie_next e ∨ ie_base e' <= ie_base e.
Proof.
  unfold nav_bestAnchor.
  assert (∀ r, r = match nav_best c s o None with
                   | Some e => (e :: nav_others (key_of e) c, Some e) | None => (c, None) end → r.2 = Some e →
            e ∈ c ∧ ie_seg e = s ∧ ie_base e <= o
            ∧ ∀ e', e' ∈ c → ie_seg e' = s → ie_base e' <= o → o < ie_next e ∨ ie_base e' <= ie_base e) as H.
  { intros r ->. destruct (nav_best c s o None) as [x|] eqn:E; [|done]. intros [= ->].
    pose proof (nav_best_spec _ _ _ _ _ E) as [[|(?&?&?)] _]; [done|].
    repeat split; try done. intros e' ???. by eapply nav_best_nearest. }
  destruct c as [|x c']; [by apply H|]. destruct ((ie_seg x =? s) && covers x o) eqn:E; [|by apply H].
  intros [= ->]. apply andb_true_iff in E as [E1 E2]. unfold covers in E2.
  repeat split; [by left|lia|lia|]. intros. left. lia.
Qed.

Lemma nav_put_subset c e x : x ∈ nav_put c e → x = e ∨ x ∈ c.
Proof.
  unfold nav_put. case_decide.
  - unfold nav_others. rewrite elem_of_cons, list_elem_of_filter. naive_solver.
  - intros Hx. apply elem_of_take in Hx as (i&Hi&_). destruct i; simplify_eq/=; [by left|].
    right. by eapply list_elem_of_lookup_2.
Qed.

Lemma nav_invalidate_subset c s x : x ∈ nav_invalidateSegment c s → x ∈ c ∧ ie_seg x ≠ s.
Proof. unfold nav_invalidateSegment. rewrite list_elem_of_filter. naive_solver. Qed.

Lemma fc_find_some k items e : fc_find k items = Some e → e ∈ items ∧ fe_key e = k.
Proof.
  unfold fc_find. destruct (filter _ items) as [|x l] eqn:E; [done|]. intros [= ->].
  assert (e ∈ filter (λ e, fe_key e = k) items) as H by (rewrite E; left). apply list_elem_of_filter in H. naive_solver.
Qed.

Lemma fc_get_subset c k x : x ∈ fc_items (fc_get c k).1 → x ∈ fc_items c.
Proof.
  unfold fc_get. destruct (fc_find k (fc_items c)) as [e|] eqn:E; [|done]. cbn [fst fc_items].
  unfold fc_others. rewrite elem_of_cons, list_elem_of_filter. apply fc_find_some in E. naive_solver.
Qed.

Lemma fc_get_some c k recs : (fc_get c k).2 = Some recs → ∃ e, e ∈ fc_items c ∧ fe_key e = k ∧ fe_recs e = recs.
Proof.
  unfold fc_get. destruct (fc_find k (fc_items c)) as [e|] eqn:E; [|done]. intros [= <-].
  apply fc_find_some in E. naive_solver.
Qed.

Lemma fc_evict_subset back n cur x : x ∈ (fc_evict back n cur).1 → x ∈ back.
Proof.
  revert n cur. induction back as [|e back IH]; intros n cur; cbn [fc_evict]; [done|].
  destruct (_ || _); [|done]. intros Hx. right. by eapply IH.
Qed.

Lemma fc_put_subset c k recs b x :
  x ∈ fc_items (fc_putSized c k recs b) → x = MkCached k recs b ∨ x ∈ fc_items c.
Proof.
  unfold fc_putSized. destruct (fc_find k (fc_items c)) as [e|] eqn:E.
  - cbn [fc_items]. unfold fc_others. rewrite elem_of_cons, list_elem_of_filter. apply fc_find_some in E. naive_solver.
  - pose proof (fc_evict_subset (reverse (fc_items c)) (Z.of_nat (length (fc_items c)) + 1) (fc_bytes c + b) x) as Hs.
    destruct (fc_evict _ _ _) as [back cur]. cbn [fc_items fst] in *.
    rewrite elem_of_cons, elem_of_reverse. rewrite elem_of_reverse in Hs. naive_solver.
Qed.

Lemma fc_invalidate_subset c s x : x ∈ fc_items (fc_invalidateSegment c s) → x ∈ fc_items c ∧ (fe_key x).1 ≠ s.
Proof. cbn [fc_items fc_invalidateSegment]. rewrite list_elem_of_filter. naive_solver. Qed.
