(* ===== verification/PartLog.v ===== *)
(** * A partition log: state, lookup and recovery

    [internal/persistence/storage]: the write buffer ([buffer.go],
    [append.go]), the flushing snapshot ([flushing.go]), segments and their
    sparse indexes ([segment.go], [index.go], [log.go]), reads ([read.go])
    and recovery ([recovery.go]).  A segment file is what a reader sees of
    it, each byte with what is known of its copy on the device. *)

From S2P Require Import Prelude Octets PartFrame PartCache.

(** ** Files *)

(** A byte written since the last sync is [Dirty].  A successful sync keeps
    it; a failed one may have dropped the page and marked it clean, so that
    no later sync says anything about it. *)
Inductive status := Dirty | Lost | Kept.

#[global] Instance status_eq : EqDecision status.
Proof. solve_decision. Defined.

Abbreviation file := (list (Z * status)).

Definition bytes (f : file) : octets := fst <$> f.
Definition flen (f : file) : Z := Z.of_nat (length f).

Definition f_extend (pos : Z) (f : file) : file := f ++ replicate (Z.to_nat (pos - flen f)) (0, Dirty).

(** [WriteAt] of all of [data]. *)
Definition f_write (pos : Z) (data : octets) (f : file) : file :=
  take (Z.to_nat pos) (f_extend pos f) ++ ((λ b, (b, Dirty)) <$> data) ++ drop (Z.to_nat pos + length data) f.

Definition f_truncate (pos : Z) (f : file) : file := take (Z.to_nat pos) (f_extend pos f).

Definition f_sync (f : file) : file :=
  (λ c, (c.1, match c.2 with Dirty => Kept | s => s end)) <$> f.

Definition f_sync_failed (f : file) : file :=
  (λ c, (c.1, match c.2 with Dirty => Lost | s => s end)) <$> f.

(** The hwm file, and what a power loss may leave of it. *)
Record hwmfile := MkHwmFile { hf_cur : option octets; hf_dev : list (option octets) }.

(** ** State *)

Record Options := MkOptions {
  o_codecs : codecs;
  FlushBytes : Z;
  FlushRecords : Z;
  FlushInterval : Z;
  SyncPerWrite : bool;
  SyncInterval : Z;
  SyncBytes : Z;
  SegmentBytes : Z;
  MaxAge : Z;
  MaxSegmentAge : Z;
  DisableCommitVerify : bool;
}.

(** Durations are nanoseconds. *)
Definition second : Z := 1000000000.
Definition millisecond : Z := 1000000.

(** [withDefaults]; a nil codec is [NoopCodec]. *)
Definition withDefaults (o : Options) : Options :=
  MkOptions (o_codecs o) (FlushBytes o) (FlushRecords o)
    (if FlushInterval o <=? 0 then 100 * millisecond else FlushInterval o)
    (SyncPerWrite o)
    (if SyncInterval o <=? 0 then second else SyncInterval o)
    (if SyncBytes o <? 0 then 0 else SyncBytes o)
    (if SegmentBytes o <=? 0 then 64 * 2 ^ 20 else SegmentBytes o)
    (MaxAge o) (MaxSegmentAge o) (DisableCommitVerify o).

(** Times are [None] when zero. *)
Record segment := MkSegment {
  sg_base : Z;
  sg_next : Z;
  sg_size : Z;
  sg_first : option Z;
  sg_last : option Z;
}.

#[global] Instance segment_eq : EqDecision segment.
Proof. solve_decision. Defined.

Record segmentIndex := MkIndex { si_entries : list indexEntry; si_lastUsed : Z }.

Record buffer := MkBuffer {
  b_records : list octets;
  b_base : Z;
  b_next : Z;
  b_bytes : Z;
  b_firstAt : option Z;
}.

Record flushing := MkFlushing {
  fl_base : Z;
  fl_written : Z;
  fl_records : list octets;
  fl_valid : bool;
}.

(** The directory and the segment list; [dk_removed] holds unlinked files
    whose names may still be on the device. *)
Record disk := MkDisk {
  dk_files : gmap Z file;
  dk_removed : gmap Z file;
  dk_segments : list segment;
}.

(** What finding a frame uses and updates. *)
Record lookup := MkLookup {
  lk_idx : gmap Z segmentIndex;
  lk_clock : Z;
  lk_nav : list indexEntry;
  lk_frames : frameCache;
  lk_readSeen : bool;
}.

Record visible := MkVisible {
  v_hwm : Z;
  v_durable : Z;
  v_persisted : Z;
  v_released : bool;
  v_dirSynced : bool;
  v_file : hwmfile;
}.

Record writer := MkWriter {
  w_rollPending : bool;
  w_unsynced : Z;
  w_lastSync : Z;
  w_poisoned : bool;
}.

Record Log := MkLog {
  lo : Options;
  ld : disk;
  lx : lookup;
  lb : buffer;
  lf : flushing;
  lv : visible;
  lw : writer;
  lclosed : bool;
  lmaxAge : Z;
}.

Definition with_disk d l := MkLog (lo l) d (lx l) (lb l) (lf l) (lv l) (lw l) (lclosed l) (lmaxAge l).
Definition with_lookup x l := MkLog (lo l) (ld l) x (lb l) (lf l) (lv l) (lw l) (lclosed l) (lmaxAge l).
Definition with_buffer b l := MkLog (lo l) (ld l) (lx l) b (lf l) (lv l) (lw l) (lclosed l) (lmaxAge l).
Definition with_flushing f l := MkLog (lo l) (ld l) (lx l) (lb l) f (lv l) (lw l) (lclosed l) (lmaxAge l).
Definition with_visible v l := MkLog (lo l) (ld l) (lx l) (lb l) (lf l) v (lw l) (lclosed l) (lmaxAge l).
Definition with_writer w l := MkLog (lo l) (ld l) (lx l) (lb l) (lf l) (lv l) w (lclosed l) (lmaxAge l).

Definition segments (l : Log) : list segment := dk_segments (ld l).

Definition file_at (d : disk) (base : Z) : file := default [] (dk_files d !! base).

(** The bytes of the file of a segment. *)
Definition contents (d : disk) (base : Z) : octets := bytes (file_at d base).

(** ** The write buffer *)

Definition newBuffer (start : Z) : buffer := MkBuffer [] start start 0 None.

Definition crossedThreshold (o : Options) (b : buffer) : bool :=
  (0 <? FlushBytes o) && (FlushBytes o <=? b_bytes b)
  || (0 <? FlushRecords o) && (FlushRecords o <=? Z.of_nat (length (b_records b))).

Definition records_bytes (rs : list octets) : Z := foldr (λ r n, blen r + n) 0 rs.

(** [push] and [pushBatch] return the new buffer, whether a threshold is
    crossed and whether the buffer was empty. *)
Definition push (o : Options) (r : octets) (now : Z) (b : buffer) : buffer * bool * bool :=
  let wasEmpty := bool_decide (b_records b = []) in
  let b := MkBuffer (b_records b ++ [r]) (b_base b) (i64 (b_next b + 1))
             (b_bytes b + blen r) (if wasEmpty then Some now else b_firstAt b) in
  (b, crossedThreshold o b, wasEmpty).

Definition pushBatch (o : Options) (rs : list octets) (now : Z) (b : buffer) : buffer * bool * bool :=
  let wasEmpty := bool_decide (b_records b = []) in
  let b := MkBuffer (b_records b ++ rs) (b_base b) (i64 (b_next b + Z.of_nat (length rs)))
             (b_bytes b + records_bytes rs) (if wasEmpty then Some now else b_firstAt b) in
  (b, crossedThreshold o b, wasEmpty).

Definition pending (b : buffer) : bool := bool_decide (b_records b ≠ []).

Definition shouldFlushByAge (b : buffer) (maxAge now : Z) : bool :=
  if bool_decide (b_records b = []) then false
  else if maxAge <=? 0 then true
  else match b_firstAt b with Some at_ => maxAge <=? now - at_ | None => false end.

Definition readBuffered (b : buffer) (offset : Z) : option octets :=
  if (offset <? b_base b) || (b_next b <=? offset) then None
  else b_records b !! Z.to_nat (offset - b_base b).

(** ** Appending *)

Inductive append_err := AppendClosed | AppendPoisoned.

(** The offsets assigned, and what the flusher is told ([notePush]). *)
Definition Append (r : octets) (now : Z) (l : Log) : Log * result append_err (Z * bool * bool) :=
  if lclosed l then (l, Err AppendClosed)
  else if w_poisoned (lw l) then (l, Err AppendPoisoned)
  else let '(b, crossed, wasEmpty) := push (lo l) r now (lb l) in
       (with_buffer b l, Ok (b_next (lb l), crossed, wasEmpty)).

Definition AppendBatch (rs : list octets) (now : Z) (l : Log) : Log * result append_err (Z * Z * bool * bool) :=
  if lclosed l then (l, Err AppendClosed)
  else if w_poisoned (lw l) then (l, Err AppendPoisoned)
  else match rs with
       | [] => (l, Ok (0, -1, false, false))
       | _ =>
           let '(b, crossed, wasEmpty) := pushBatch (lo l) rs now (lb l) in
           (with_buffer b l, Ok (b_next (lb l), i64 (b_next b - 1), crossed, wasEmpty))
       end.

(** ** The flushing snapshot *)

Definition emptyFlushing : flushing := MkFlushing 0 0 [] false.

Definition fl_end (f : flushing) : Z := fl_base f + Z.of_nat (length (fl_records f)).

Definition unwrittenFlushing (f : flushing) : list octets * Z :=
  let skip := Z.max (fl_written f - fl_base f) 0 in
  if Z.of_nat (length (fl_records f)) <=? skip then ([], fl_end f)
  else (drop (Z.to_nat skip) (fl_records f), fl_written f).

Definition drainBufferForFlush (l : Log) : Log * (list octets * Z) :=
  let b := lb l in
  let f := lf l in
  match b_records b with
  | [] => (l, if fl_valid f then unwrittenFlushing f else ([], b_next b))
  | rs =>
      let f := if fl_valid f then MkFlushing (fl_base f) (fl_written f) (fl_records f ++ rs) true
               else MkFlushing (b_base b) (b_base b) rs true in
      (with_flushing f (with_buffer (MkBuffer [] (b_next b) (b_next b) 0 None) l), unwrittenFlushing f)
  end.

Definition hasPendingFlushing (f : flushing) : bool := fl_valid f && (fl_written f <? fl_end f).

Definition readFlushingShared (f : flushing) (offset : Z) : option octets :=
  if negb (fl_valid f) || (offset <? fl_base f) then None
  else fl_records f !! Z.to_nat (offset - fl_base f).

Definition markFlushingWritten (end_ : Z) (f : flushing) : flushing :=
  if fl_valid f && (fl_written f <? end_) then MkFlushing (fl_base f) end_ (fl_records f) true else f.

Definition clearFlushingThrough (end_ : Z) (f : flushing) : flushing :=
  if negb (fl_valid f) || (end_ <=? fl_base f) then f
  else let n := end_ - fl_base f in
       if Z.of_nat (length (fl_records f)) <=? n then emptyFlushing
       else MkFlushing end_ (Z.max (fl_written f) end_) (drop (Z.to_nat n) (fl_records f)) true.

(** ** Finding segments *)

(** [sort.Search]; each round halves the interval, so [n] rounds are enough. *)
Fixpoint search_loop (fuel : nat) (p : nat → bool) (i j : nat) : nat :=
  match fuel with
  | O => i
  | S fuel =>
      if decide (i < j)%nat then
        let h := ((i + j) / 2)%nat in
        if p h then search_loop fuel p i h else search_loop fuel p (S h) j
      else i
  end.

Definition sort_Search (n : nat) (p : nat → bool) : nat := search_loop n p 0 n.

Definition findSegment (segs : list segment) (base : Z) : option segment :=
  head (filter (λ s, sg_base s = base) segs).

Definition findSegmentForOffset (segs : list segment) (offset : Z) : option segment :=
  let i := sort_Search (length segs)
             (λ i, match segs !! i with Some s => offset <? sg_next s | None => true end) in
  match segs !! i with
  | Some s => if offset <? sg_base s then None else Some s
  | None => None
  end.

Definition active (l : Log) : option segment := last (segments l).

(** ** The sparse index *)

Definition maxHotSegmentIndexes : nat := 2.
Definition segmentIndexStrideBytes : Z := 32 * 1024.
Definition targetMaxSegmentIndexEntries : Z := 2048.

Definition indexStrideBytes (o : Options) : Z :=
  if SegmentBytes o <=? 0 then segmentIndexStrideBytes
  else
    let s := Z.quot (SegmentBytes o) targetMaxSegmentIndexEntries in
    let s := if decide (Z.rem (SegmentBytes o) targetMaxSegmentIndexEntries ≠ 0) then s + 1 else s in
    Z.max segmentIndexStrideBytes s.

Definition shouldKeepIndexAnchor (o : Options) (entries : list indexEntry) (e : indexEntry) : bool :=
  match last entries with
  | None => true
  | Some e' => indexStrideBytes o <=? ie_pos e - ie_pos e'
  end.

Definition appendSparseIndexEntry (o : Options) (entries : list indexEntry) (e : indexEntry) : list indexEntry :=
  if shouldKeepIndexAnchor o entries e then entries ++ [e] else entries.

Definition sparseIndexEntries (o : Options) (entries : list indexEntry) : list indexEntry :=
  foldl (appendSparseIndexEntry o) [] entries.

Definition with_idx (idx : gmap Z segmentIndex) (x : lookup) : lookup :=
  MkLookup idx (lk_clock x) (lk_nav x) (lk_frames x) (lk_readSeen x).
Definition with_nav (c : list indexEntry) (x : lookup) : lookup :=
  MkLookup (lk_idx x) (lk_clock x) c (lk_frames x) (lk_readSeen x).
Definition with_frames (c : frameCache) (x : lookup) : lookup :=
  MkLookup (lk_idx x) (lk_clock x) (lk_nav x) c (lk_readSeen x).
Definition with_readSeen (b : bool) (x : lookup) : lookup :=
  MkLookup (lk_idx x) (lk_clock x) (lk_nav x) (lk_frames x) b.

Definition touchSegmentIndex (base : Z) (x : lookup) : lookup :=
  match lk_idx x !! base with
  | None => x
  | Some si =>
      let clock := u64 (lk_clock x + 1) in
      MkLookup (<[base := MkIndex (si_entries si) clock]> (lk_idx x)) clock (lk_nav x) (lk_frames x) (lk_readSeen x)
  end.

(** [oldestPrunableSegmentIndexLocked]: the least recently used index that
    is neither the preserved one nor the active segment's. *)
Definition oldestPrunable (segs : list segment) (preserve : Z) (idx : gmap Z segmentIndex) : option Z :=
  let activeBase := match last segs with Some s => sg_base s | None => -1 end in
  foldl (λ v kv,
           if bool_decide (kv.1 = preserve) || bool_decide (kv.1 = activeBase) then v
           else match v with
                | Some k => match idx !! k with
                            | Some si => if si_lastUsed kv.2 <? si_lastUsed si then Some kv.1 else v
                            | None => Some kv.1
                            end
                | None => Some kv.1
                end) None (map_to_list idx).

(** The loop of [pruneSegmentIndexesLocked]; each round deletes an index. *)
Fixpoint prune_loop (fuel : nat) (segs : list segment) (preserve : Z) (idx : gmap Z segmentIndex) : gmap Z segmentIndex :=
  match fuel with
  | O => idx
  | S fuel =>
      if decide (maxHotSegmentIndexes < size idx)%nat then
        match oldestPrunable segs preserve idx with
        | Some victim => prune_loop fuel segs preserve (delete victim idx)
        | None => idx
        end
      else idx
  end.

Definition pruneSegmentIndexes (segs : list segment) (preserve : Z) (x : lookup) : lookup :=
  with_idx (prune_loop (size (lk_idx x)) segs preserve (lk_idx x)) x.

Definition appendIndex (o : Options) (segs : list segment) (e : indexEntry) (x : lookup) : lookup :=
  let si := default (MkIndex [] 0) (lk_idx x !! ie_seg e) in
  let si := MkIndex (appendSparseIndexEntry o (si_entries si) e) (si_lastUsed si) in
  pruneSegmentIndexes segs (ie_seg e) (touchSegmentIndex (ie_seg e) (with_idx (<[ie_seg e := si]> (lk_idx x)) x)).

Definition setSegmentIndex (o : Options) (segs : list segment) (base : Z) (entries : list indexEntry) (x : lookup) : lookup :=
  match sparseIndexEntries o entries with
  | [] => with_idx (delete base (lk_idx x)) x
  | es => pruneSegmentIndexes segs base (touchSegmentIndex base (with_idx (<[base := MkIndex es 0]> (lk_idx x)) x))
  end.

Definition indexAnchorForOffset (entries : list indexEntry) (offset : Z) : option indexEntry :=
  let i := sort_Search (length entries)
             (λ i, match entries !! i with Some e => offset <? ie_base e | None => true end) in
  match i with
  | O => None
  | S i => entries !! i
  end.

(** ** Walking a segment *)

Definition entry_at (base : Z) (h : frameHeader) (pos end_ : Z) : indexEntry :=
  MkEntry base (baseOffset h) (recordCount h) pos (i32 (end_ - pos)).

(** The loop of [scanSegmentFromIndexAnchorLocked]; the position grows each
    round, as it does in the walks below. *)
Fixpoint scan_anchor (fuel : nat) (f : octets) (segBase size pos offset : Z) : option indexEntry :=
  match fuel with
  | O => None
  | S fuel =>
      if pos <? size then
        match frameHeaderAt f pos with
        | Ok (h, end_) =>
            if size <? end_ then
              let next := nextValidFramePos f (pos + 1) size in
              if next <? size then scan_anchor fuel f segBase size next offset else None
            else if (baseOffset h <=? offset) && (offset <? next_offset (baseOffset h) (recordCount h))
                 then Some (entry_at segBase h pos end_)
            else if offset <? baseOffset h then None
            else scan_anchor fuel f segBase size end_ offset
        | Err ErrUnexpectedEOF => None
        | Err _ => scan_anchor fuel f segBase size (nextMagicInSegment f (pos + 1) size) offset
        end
      else None
  end.

Definition scanSegmentFromIndexAnchor (f : octets) (s : segment) (anchor : indexEntry) (offset : Z) : option indexEntry :=
  let pos := if 0 <? ie_len anchor then ie_pos anchor + ie_len anchor else ie_pos anchor in
  scan_anchor (Z.to_nat (sg_size s - pos)) f (sg_base s) (sg_size s) pos offset.

Definition resolveFromAnchor (f : octets) (s : segment) (anchor : indexEntry) (offset : Z) (x : lookup)
    : lookup * option indexEntry :=
  if covers anchor offset then (with_nav (nav_put (lk_nav x) anchor) x, Some anchor)
  else match scanSegmentFromIndexAnchor f s anchor offset with
       | Some e => (with_nav (nav_put (lk_nav x) e) x, Some e)
       | None => (x, None)
       end.

(** [findIndexLocked] on the segment that holds the offset. *)
Definition find_in (f : octets) (s : segment) (offset : Z) (x : lookup) : lookup * option indexEntry :=
  let '(nav, cached) := nav_bestAnchor (lk_nav x) (sg_base s) offset in
  let x := with_nav nav x in
  let from_cache :=
    match cached with
    | Some c => resolveFromAnchor f s c offset x
    | None => (x, None)
    end in
  match cached with
  | Some c =>
      if offset <? ie_next c then (x, Some c)
      else match indexAnchorForOffset (default [] (si_entries <$> lk_idx x !! sg_base s)) offset with
           | Some a => resolveFromAnchor f s (if ie_base a <? ie_base c then c else a) offset x
           | None => from_cache
           end
  | None =>
      match indexAnchorForOffset (default [] (si_entries <$> lk_idx x !! sg_base s)) offset with
      | Some a => resolveFromAnchor f s a offset x
      | None => (x, None)
      end
  end.

Definition findIndex (d : disk) (offset : Z) (x : lookup) : lookup * option indexEntry :=
  match findSegmentForOffset (dk_segments d) offset with
  | None => (x, None)
  | Some s => find_in (contents d (sg_base s)) s offset x
  end.

(** The loop of [scanSegmentIndex]. *)
Fixpoint scan_index (fuel : nat) (o : Options) (f : octets) (segBase size pos : Z) (entries : list indexEntry)
    : list indexEntry :=
  match fuel with
  | O => entries
  | S fuel =>
      if pos <? size then
        match frameHeaderAt f pos with
        | Ok (h, end_) =>
            if size <? end_ then entries
            else scan_index fuel o f segBase size end_ (appendSparseIndexEntry o entries (entry_at segBase h pos end_))
        | Err ErrUnexpectedEOF => entries
        | Err _ => scan_index fuel o f segBase size (nextMagicInSegment f (pos + 1) size) entries
        end
      else entries
  end.

Definition scanSegmentIndex (o : Options) (f : octets) (s : segment) : list indexEntry :=
  scan_index (Z.to_nat (sg_size s)) o f (sg_base s) (sg_size s) 0 [].

(** [lockIndexEntry]: a segment without an index is scanned and the lookup
    tried again. *)
Definition lockIndexEntry (o : Options) (d : disk) (offset : Z) (x : lookup) : lookup * option indexEntry :=
  match findIndex d offset x with
  | (x, Some e) => (x, Some e)
  | (x, None) =>
      match findSegmentForOffset (dk_segments d) offset with
      | None => (x, None)
      | Some s =>
          let x := match lk_idx x !! sg_base s with
                   | Some _ => x
                   | None => setSegmentIndex o (dk_segments d) (sg_base s)
                               (scanSegmentIndex o (contents d (sg_base s)) s) x
                   end in
          findIndex d offset x
      end
  end.

(** ** Reading *)

Inductive read_err := ReadClosed | OffsetNotFound | ReadFrame (e : ferr).

Definition record_of (recs : list octets) (i : Z) : result read_err octets :=
  if i <? 0 then Err (ReadFrame ErrCorruptRecord)
  else match recs !! Z.to_nat i with Some r => Ok r | None => Err (ReadFrame ErrCorruptRecord) end.

Definition readSegmentShared (o : Options) (d : disk) (offset : Z) (x : lookup) : lookup * result read_err octets :=
  match lockIndexEntry o d offset x with
  | (x, None) => (x, Err OffsetNotFound)
  | (x, Some e) =>
      let i := i32 (offset - ie_base e) in
      match findSegment (dk_segments d) (ie_seg e) with
      | None => (x, Err (ReadFrame ErrCorruptRecord))
      | Some _ =>
          let '(frames, hit) := fc_get (lk_frames x) (key_of e) in
          let x := with_frames frames x in
          match hit with
          | Some recs => (x, record_of recs i)
          | None =>
              match readFrameAt (o_codecs o) (contents d (ie_seg e)) (ie_pos e) with
              | Err err => (x, Err (ReadFrame err))
              | Ok (h, recs, _) =>
                  match record_of recs i with
                  | Err err => (x, Err err)
                  | Ok r => (with_frames (fc_putSized (lk_frames x) (key_of e) recs (uncompressed h)) x, Ok r)
                  end
              end
          end
      end
  end.

(** [ReadShared]; [Read] copies the record. *)
Definition ReadShared (offset : Z) (l : Log) : Log * result read_err octets :=
  if lclosed l then (l, Err ReadClosed)
  else
    let l := with_lookup (with_readSeen true (lx l)) l in
    let memory := if v_durable (lv l) <=? offset
                  then match readBuffered (lb l) offset with
                       | Some r => Some r
                       | None => readFlushingShared (lf l) offset
                       end
                  else None in
    match memory with
    | Some r => (l, Ok r)
    | None => let '(x, r) := readSegmentShared (lo l) (ld l) offset (lx l) in (with_lookup x l, r)
    end.

(** The loop of [VerifyDurable]: a round covers an offset at least. *)
Fixpoint verify_range (fuel : nat) (o : Options) (d : disk) (off last : Z) (x : lookup) : lookup * result read_err unit :=
  match fuel with
  | O => (x, if last <? off then Ok tt else Err OffsetNotFound)
  | S fuel =>
      if last <? off then (x, Ok tt)
      else match lockIndexEntry o d off x with
           | (x, None) => (x, Err OffsetNotFound)
           | (x, Some e) =>
               match findSegment (dk_segments d) (ie_seg e) with
               | None => (x, Err (ReadFrame ErrCorruptRecord))
               | Some _ =>
                   match verifyFrameAtBuffered (contents d (ie_seg e)) (ie_pos e) with
                   | Err err => (x, Err (ReadFrame err))
                   | Ok (h, _) =>
                       if recordCount h <=? 0 then (x, Err (ReadFrame ErrCorruptRecord))
                       else verify_range fuel o d (next_offset (ie_base e) (recordCount h)) last x
                   end
               end
           end
  end.

Definition VerifyDurable (first last : Z) (l : Log) : Log * result read_err unit :=
  let '(x, r) := verify_range (Z.to_nat (last - first + 1)) (lo l) (ld l) first last (lx l) in (with_lookup x l, r).

(** ** Recovery *)

(** The walk of [walkActiveSegment]: the index anchors, the end offset of
    the last valid frame, the log's next offset, and where to cut. *)
Fixpoint walk_active (fuel : nat) (o : Options) (f : octets) (segBase size pos : Z)
    (entries : list indexEntry) (segNext nextOffset : Z) : list indexEntry * Z * Z * option Z :=
  match fuel with
  | O => (entries, segNext, nextOffset, None)
  | S fuel =>
      if pos <? size then
        match verifyFrameAtBuffered f pos with
        | Ok (h, end_) =>
            let n := next_offset (baseOffset h) (recordCount h) in
            walk_active fuel o f segBase size end_
              (appendSparseIndexEntry o entries (entry_at segBase h pos end_)) n (Z.max nextOffset n)
        | Err _ =>
            let next := nextValidFramePos f (pos + 1) size in
            if next <? size then walk_active fuel o f segBase size next entries segNext nextOffset
            else (entries, segNext, nextOffset, Some pos)
        end
      else (entries, segNext, nextOffset, None)
  end.

(** What a truncate and its fsync did. *)
Inductive trunc_io := TruncOk | TruncFails | TruncSyncFails.

(** [segment.truncate] on the file; [None] leaves [sizeBytes] alone. *)
Definition truncate_file (io : trunc_io) (pos : Z) (f : file) : file * bool :=
  match io with
  | TruncOk => (f_sync (f_truncate pos f), true)
  | TruncFails => (f, false)
  | TruncSyncFails => (f_sync_failed (f_truncate pos f), false)
  end.

Definition openSegment (base : Z) (f : file) (mtime : Z) : segment :=
  MkSegment base base (flen f) (if 0 <? flen f then Some mtime else None) (Some mtime).

Definition emptyLookup : lookup := MkLookup ∅ 0 [] (MkFrameCache [] 0) false.

(** [walkActiveSegment] and [finishTornTail]: the file, the segment, its
    index and the log's next offset. *)
Definition walkActiveSegment (o : Options) (io : trunc_io) (sealed : list segment) (s : segment) (f : file)
    : option (file * segment * lookup * Z) :=
  let '(entries, segNext, nextOffset, cut) :=
    walk_active (Z.to_nat (sg_size s)) o (bytes f) (sg_base s) (sg_size s) 0 [] (sg_next s) 0 in
  let nextOffset := Z.max nextOffset segNext in
  let finish f size :=
    let s := MkSegment (sg_base s) segNext size (sg_first s) (sg_last s) in
    (f, s, setSegmentIndex o sealed (sg_base s) entries emptyLookup, nextOffset) in
  match cut with
  | None => Some (finish f (sg_size s))
  | Some pos => match truncate_file io pos f with
                | (f, true) => Some (finish f pos)
                | (_, false) => None
                end
  end.

(** [listSegmentFileNames]: the segments of the directory by base offset. *)
Definition by_offset (a b : Z * file) : Prop := a.1 <= b.1.
#[global] Instance by_offset_dec a b : Decision (by_offset a b).
Proof. unfold by_offset. apply _. Defined.
Definition listSegmentFiles (fs : gmap Z file) : list (Z * file) := merge_sort by_offset (map_to_list fs).

(** The sealed segments: each ends where its successor begins. *)
Fixpoint sealed_segments (mtimes : gmap Z Z) (files : list (Z * file)) : list segment :=
  match files with
  | (base, f) :: ((base', _) :: _) as rest =>
      let s := openSegment base f (default 0 (mtimes !! base)) in
      MkSegment base base' (sg_size s) (sg_first s) (sg_last s) :: sealed_segments mtimes rest
  | _ => []
  end.
