(* ===== verification/PartFlush.v ===== *)
(** * The flusher, commits, retention and the life of a partition log

    [internal/persistence/storage]: the flusher's passes ([flusher.go]), the
    discard of a failed commit ([discard.go]), the high-watermark file
    ([hwm.go], [offsets.go]), retention ([retention.go],
    [retention_update.go]), opening and closing ([log.go], [close.go]).
    Producers and readers run concurrently with the flusher, so a pass is
    several steps: it drains the buffer, writes one frame per step, and
    finishes or fails.  A step takes the outcomes of the system calls it
    makes. *)

From S2P Require Import Prelude Octets PartFrame PartCache PartLog.

(** ** System calls *)

Inductive create_io := CreateOk | CreateFails | CreateDirSyncFails (left : bool).

(** [WriteFails k cut]: [k] bytes were written, and the truncate back
    succeeded or not. *)
Inductive write_io := WriteOk | WriteFails (k : nat) (cut : bool).

Inductive hwm_io := HwmOk | HwmOpenFails | HwmTruncFails | HwmSyncFails | HwmCloseFails.

Record io := MkIo {
  io_sync : bool;      (** the sync of the active segment *)
  io_rollSync : bool;  (** the one before a roll *)
  io_create : create_io;
  io_write : write_io;
  io_trunc : trunc_io;
  io_hwm : hwm_io;
}.

Definition io_ok : io := MkIo true true CreateOk WriteOk TruncOk HwmOk.

(** ** Syncing *)

Definition set_file (base : Z) (f : file) (d : disk) : disk :=
  MkDisk (<[base := f]> (dk_files d)) (dk_removed d) (dk_segments d).

Definition poison (l : Log) : Log :=
  with_writer (MkWriter (w_rollPending (lw l)) (w_unsynced (lw l)) (w_lastSync (lw l)) true) l.

Definition shouldSync (now : Z) (l : Log) : bool :=
  SyncPerWrite (lo l)
  || (0 <? SyncBytes (lo l)) && (SyncBytes (lo l) <=? w_unsynced (lw l))
  || (SyncInterval (lo l) <=? now - w_lastSync (lw l)).

Definition with_durable (tail : Z) (v : visible) : visible :=
  MkVisible (v_hwm v) tail (v_persisted v) (v_released v) (v_dirSynced v) (v_file v).

(** [syncIfNeeded]: whether it returned nil. *)
Definition syncIfNeeded (force ok : bool) (now : Z) (l : Log) : Log * bool :=
  if w_unsynced (lw l) <=? 0 then (l, true)
  else if negb force && negb (shouldSync now l) then (l, true)
  else match active l with
       | None => (l, false)
       | Some a =>
           let f := file_at (ld l) (sg_base a) in
           if ok then
             (with_flushing (clearFlushingThrough (sg_next a) (lf l))
                (with_visible (with_durable (sg_next a) (lv l))
                   (with_writer (MkWriter (w_rollPending (lw l)) 0 now (w_poisoned (lw l)))
                      (with_disk (set_file (sg_base a) (f_sync f) (ld l)) l))), true)
           else (poison (with_disk (set_file (sg_base a) (f_sync_failed f) (ld l)) l), false)
       end.

(** ** Rolling *)

Definition createSegment (io : create_io) (base now : Z) (d : disk) : disk * bool :=
  match dk_files d !! base with
  | Some _ => (d, false)
  | None =>
      match io with
      | CreateOk =>
          (MkDisk (<[base := []]> (dk_files d)) (dk_removed d)
             (dk_segments d ++ [MkSegment base base 0 None (Some now)]), true)
      | CreateFails | CreateDirSyncFails false => (d, false)
      | CreateDirSyncFails true => (set_file base [] d, false)
      end
  end.

Definition roll (io : io) (now : Z) (l : Log) : Log * bool :=
  match syncIfNeeded true (io_rollSync io) now l with
  | (l, false) => (l, false)
  | (l, true) =>
      match active l with
      | None => (l, false)
      | Some a =>
          let '(d, ok) := createSegment (io_create io) (sg_next a) now (ld l) in
          let l := with_disk d l in
          if ok then (with_writer (MkWriter false (w_unsynced (lw l)) (w_lastSync (lw l)) (w_poisoned (lw l))) l, true)
          else (l, false)
      end
  end.

(** [RetentionConfig.rollAge] under the live bound. *)
Definition rollAge (o : Options) (maxAge : Z) : Z :=
  if (maxAge <=? 0) || (MaxSegmentAge o <? 0) then 0
  else if decide (MaxSegmentAge o = 0) then maxAge else MaxSegmentAge o.

Definition segmentAgedOut (now : Z) (a : segment) (l : Log) : bool :=
  let age := rollAge (lo l) (lmaxAge l) in
  if (age <=? 0) || (sg_size a =? 0) then false
  else match sg_first a with Some at_ => age <=? now - at_ | None => false end.

Definition activeForWrite (io : io) (now : Z) (l : Log) : Log * bool :=
  match active l with
  | None => (l, false)
  | Some a => if w_rollPending (lw l) || segmentAgedOut now a l then roll io now l else (l, true)
  end.

Definition rollIfPending (io : io) (now : Z) (l : Log) : Log :=
  if w_rollPending (lw l) then (roll io now l).1 else l.

Definition rotateActive (io : io) (now : Z) (l : Log) : Log * bool :=
  match active l with
  | None => (l, true)
  | Some a => if (0 <? sg_size a) && (sg_next a <=? v_hwm (lv l)) then roll io now l else (l, true)
  end.

(** ** Writing frames *)

Definition maxFrameInnerBytes : Z := maxFrameBytes / 2.

(** The loop of [frameSplitLen]. *)
Fixpoint split_len (size : Z) (i : nat) (records : list octets) : nat :=
  match records with
  | [] => i
  | r :: rs =>
      let size := size + 4 + blen r in
      if (maxFrameInnerBytes <? size) && bool_decide (0 < i)%nat then i else split_len size (S i) rs
  end.

Definition frameSplitLen (records : list octets) : nat := split_len 0 0 records.

Definition set_active (s : segment) (d : disk) : disk :=
  MkDisk (dk_files d) (dk_removed d) (removelast (dk_segments d) ++ [s]).

Definition maxCachedWriteFrameBytes : Z := maxDecodeCacheBytes / 8.

(** The write of an encoded frame at the end of the active segment. *)
Definition writeEncodedFrame (io : write_io) (a : segment) (frame : octets) (d : disk) : disk * bool :=
  let f := file_at d (sg_base a) in
  match io with
  | WriteOk => (set_file (sg_base a) (f_write (sg_size a) frame f) d, true)
  | WriteFails k cut =>
      let f := f_write (sg_size a) (take k frame) f in
      (set_file (sg_base a) (if cut then f_truncate (sg_size a) f else f) d, false)
  end.

(** What [writeFrame] records of a frame once its bytes are in the file. *)
Definition publish (records : list octets) (base n now : Z) (cache : bool) (a : segment) (l : Log) : Log :=
  let pos := sg_size a in
  let e := MkEntry (sg_base a) base (i32 (Z.of_nat (length records))) pos (i32 n) in
  let s := MkSegment (sg_base a) (i64 (base + Z.of_nat (length records))) (pos + n)
             (match sg_first a with Some t => Some t | None => Some now end) (Some now) in
  let x := appendIndex (lo l) (segments l) e (lx l) in
  let x := with_nav (nav_put (lk_nav x) e) x in
  let size := records_bytes records in
  let x := if cache && (size <=? maxCachedWriteFrameBytes)
           then with_frames (fc_putSized (lk_frames x) (key_of e) records size) x else x in
  MkLog (lo l) (set_active s (ld l)) x (lb l) (markFlushingWritten (sg_next s) (lf l)) (lv l)
    (MkWriter (w_rollPending (lw l) || (SegmentBytes (lo l) <=? sg_size s)) (w_unsynced (lw l) + n)
       (w_lastSync (lw l)) (w_poisoned (lw l)))
    (lclosed l) (lmaxAge l).

Definition writeFrame (io : io) (now : Z) (records : list octets) (base : Z) (forceSync cache : bool) (l : Log)
    : Log * bool :=
  match encodeFrame (own (o_codecs (lo l))) records base with
  | Err _ => (l, false)
  | Ok frame =>
      match activeForWrite io now l with
      | (l, false) => (l, false)
      | (l, true) =>
          match active l with
          | None => (l, false)
          | Some a =>
              let '(d, ok) := writeEncodedFrame (io_write io) a frame (ld l) in
              let l := with_disk d l in
              if ok then
                let l := publish records base (blen frame) now cache a l in
                syncIfNeeded (forceSync || w_rollPending (lw l)) (io_sync io) now l
              else (l, false)
          end
      end
  end.

(** ** Discarding a failed commit *)

(** The loop of [frameBoundaryAtOrAboveLocked]. *)
Fixpoint boundary_loop (fuel : nat) (f : octets) (size next pos offset : Z) : Z * Z :=
  match fuel with
  | O => (next, size)
  | S fuel =>
      if pos <? size then
        match frameHeaderAt f pos with
        | Ok (h, end_) =>
            if size <? end_ then (next, pos)
            else if offset <=? baseOffset h then (baseOffset h, pos)
            else boundary_loop fuel f size next end_ offset
        | Err ErrUnexpectedEOF => (next, pos)
        | Err _ => (next, size)
        end
      else (next, size)
  end.

Definition frameBoundaryAtOrAbove (l : Log) (s : segment) (offset : Z) : Z * Z :=
  if offset <=? sg_base s then (sg_base s, 0)
  else if sg_next s <=? offset then (sg_next s, sg_size s)
  else
    let pos := match indexAnchorForOffset (default [] (si_entries <$> lk_idx (lx l) !! sg_base s)) offset with
               | Some a => ie_pos a
               | None => 0
               end in
    boundary_loop (Z.to_nat (sg_size s - pos)) (contents (ld l) (sg_base s)) (sg_size s) (sg_next s) pos offset.

(** [truncateIndexLocked]. *)
Fixpoint trim_anchors (pos : Z) (rev_entries : list indexEntry) : list indexEntry :=
  match rev_entries with
  | e :: rest => if pos <=? ie_pos e then trim_anchors pos rest else rev_entries
  | [] => []
  end.

Definition truncateIndex (base pos : Z) (x : lookup) : lookup :=
  match lk_idx x !! base with
  | None => x
  | Some si =>
      with_idx (<[base := MkIndex (reverse (trim_anchors pos (reverse (si_entries si)))) (si_lastUsed si)]> (lk_idx x)) x
  end.

(** The truncation of the active segment back to the first frame above the
    high-watermark. *)
Definition discard_disk (io : trunc_io) (a : segment) (l : Log) : Log * Z * bool :=
  let '(boundary, pos) := frameBoundaryAtOrAbove l a (v_hwm (lv l)) in
  if pos <? sg_size a then
    let '(f, ok) := truncate_file io pos (file_at (ld l) (sg_base a)) in
    let d := set_file (sg_base a) f (ld l) in
    if ok then
      let empty := bool_decide (boundary = sg_base a) in
      let s := MkSegment (sg_base a) boundary pos (if empty then None else sg_first a) (if empty then None else sg_last a) in
      let x := truncateIndex (sg_base a) pos (lx l) in
      let x := with_frames (fc_invalidateSegment (lk_frames x) (sg_base a)) x in
      let x := with_nav (nav_invalidateSegment (lk_nav x) (sg_base a)) x in
      (with_lookup x (with_disk (set_active s d) l), boundary, true)
    else (with_disk d l, sg_next a, false)
  else (l, sg_next a, false).

Definition discardUncommittedTail (io : trunc_io) (truncateDisk : bool) (l : Log) : Log :=
  match active l with
  | None => l
  | Some a =>
      let '(l, cut, truncated) :=
        if truncateDisk && (v_hwm (lv l) <? sg_next a) then discard_disk io a l else (l, sg_next a, false) in
      let l :=
        if truncated || truncateDisk && (w_unsynced (lw l) =? 0)
        then with_writer (MkWriter (w_rollPending (lw l)) 0 (w_lastSync (lw l)) (w_poisoned (lw l)))
               (with_visible (with_durable cut (lv l)) l)
        else if cut <? v_durable (lv l) then with_visible (with_durable cut (lv l)) l else l in
      with_flushing emptyFlushing (with_buffer (MkBuffer [] cut cut 0 None) l)
  end.

(** ** The high-watermark *)

Definition with_file (h : hwmfile) (persisted : Z) (released : bool) (v : visible) : visible :=
  MkVisible (v_hwm v) (v_durable v) persisted released (v_dirSynced v) h.

Definition releaseHighWatermarkFile (io : hwm_io) (v : visible) : visible * bool :=
  if v_released v then (v, true)
  else
    let h := v_file v in
    let opened := MkHwmFile (Some (default [] (hf_cur h))) (hf_cur h :: hf_dev h) in
    let cut := MkHwmFile (Some []) (hf_cur h :: hf_dev h) in
    let synced := MkHwmFile (Some []) [Some []; None] in
    match io with
    | HwmOpenFails => (v, false)
    | HwmTruncFails => (with_file opened (-1) false v, false)
    | HwmSyncFails => (with_file cut (-1) false v, false)
    | HwmCloseFails => (with_file synced (-1) false v, false)
    | HwmOk => (with_file synced (-1) true v, true)
    end.

Definition AdvanceHighWatermark (io : hwm_io) (newHWM : Z) (v : visible) : visible * bool :=
  if newHWM <=? v_hwm v then (v, true)
  else match releaseHighWatermarkFile io v with
       | (v, false) => (v, false)
       | (v, true) =>
           (MkVisible newHWM (v_durable v) (v_persisted v) (v_released v) (v_dirSynced v) (v_file v), true)
       end.

(** How far [persistHighWatermark] gets; [PersistWriteFails k]: [k] of the 8
    bytes were written. *)
Inductive persist_io := PersistOk | PersistOpenFails | PersistWriteFails (k : nat) | PersistSyncFails | PersistCloseFails | PersistDirFails.

(** The 8 bytes are written in place.  The code counts on a single-sector
    write being old or new, never a mix. *)
Definition short_write (io : persist_io) : Prop := ∃ k, io = PersistWriteFails (S k).

Definition persistClosedHighWatermark (io : persist_io) (v : visible) : visible * bool :=
  if (v_hwm v <? 0) || (v_hwm v =? v_persisted v) then (v, true)
  else
    let h := v_file v in
    let data := put_be 8 (v_hwm v) in
    let put dev persisted dirSynced :=
      MkVisible (v_hwm v) (v_durable v) persisted (v_released v) dirSynced (MkHwmFile (Some data) dev) in
    let missing : list (option octets) := if v_dirSynced v then [] else [None] in
    match io with
    | PersistOpenFails => (v, false)
    | PersistWriteFails k =>
        let cur := take k data ++ drop k (default [] (hf_cur h)) in
        (with_file (MkHwmFile (Some cur) (hf_cur h :: hf_dev h)) (v_persisted v) (v_released v) v, false)
    | PersistSyncFails => (put (hf_cur h :: hf_dev h) (v_persisted v) (v_dirSynced v), false)
    | PersistCloseFails => (put (Some data :: missing) (v_persisted v) (v_dirSynced v), false)
    | PersistDirFails =>
        if v_dirSynced v then (put [Some data] (v_hwm v) true, true)
        else (put (Some data :: missing) (v_persisted v) false, false)
    | PersistOk => (put [Some data] (v_hwm v) true, true)
    end.

(** [ReadPersistedHighWatermark]: [None] is an invalid file, [Some None] a
    missing or empty one. *)
Definition ReadPersistedHighWatermark (content : option octets) : option (option Z) :=
  match content with
  | None | Some [] => Some None
  | Some data => if decide (length data = 8%nat) then Some (Some (Z.max (i64 (get_be data)) 0)) else None
  end.

(** ** Passes of the flusher *)

(** What a pass is for: the timer, a crossed threshold, [Sync],
    [CommitDurable], the reaper's rotation, and [Close]. *)
Inductive request :=
| ReqTick
| ReqWake
| ReqSync
| ReqCommit (first last : Z)
| ReqRotate
| ReqStop.

Definition forceSync (r : request) : bool :=
  match r with ReqTick | ReqWake => false | _ => true end.
Definition forceDrain (r : request) : bool :=
  match r with ReqTick => false | _ => true end.
Definition isCommit (r : request) : bool :=
  match r with ReqCommit _ _ => true | _ => false end.

Inductive pass_err := PassPoisoned | PassWrite | PassSync | PassVerify (e : read_err) | PassHwm | PassRotate.

(** Where the flusher goroutine is. *)
Inductive phase :=
| Idle
| Writing (r : request) (todo : list octets) (base : Z) (cache : bool)
| Syncing (r : request)
| Finishing (r : request)
| Failing (r : request) (e : pass_err)
| Stopped.

Definition minTimerFlushAge : Z := second.

Definition timerFlushAge (o : Options) : Z :=
  if (FlushBytes o <=? 0) && (FlushRecords o <=? 0) then FlushInterval o
  else Z.max (FlushInterval o * 10) minTimerFlushAge.

(** [cacheWrittenFrames]. *)
Definition cacheWrittenFrames (l : Log) : Log * bool :=
  if DisableCommitVerify (lo l) then (l, false)
  else (with_lookup (with_readSeen false (lx l)) l, lk_readSeen (lx l)).

(** The start of [drainOnce] and of [drainAndSync]. *)
Definition begin_pass (r : request) (now : Z) (l : Log) : Log * phase :=
  if w_poisoned (lw l) then (l, Failing r PassPoisoned)
  else if negb (forceDrain r) && negb (hasPendingFlushing (lf l))
          && negb (shouldFlushByAge (lb l) (timerFlushAge (lo l)) now)
  then (l, Syncing r)
  else match drainBufferForFlush l with
       | (l, ([], _)) => (l, Syncing r)
       | (l, (rs, base)) => let '(l, cache) := cacheWrittenFrames l in (l, Writing r rs base cache)
       end.

(** A round of the loop of [writeBatch]. *)
Definition write_round (io : io) (now : Z) (r : request) (todo : list octets) (base : Z) (cache : bool) (l : Log)
    : Log * phase :=
  match todo with
  | [] => (l, Finishing r)
  | _ =>
      let n := frameSplitLen todo in
      match writeFrame io now (take n todo) base (forceSync r) cache l with
      | (l, false) => (l, Failing r PassWrite)
      | (l, true) =>
          match drop n todo with
          | [] => (l, Finishing r)
          | rest => (l, Writing r rest (i64 (base + Z.of_nat n)) cache)
          end
      end
  end.

(** [finishRequest]. *)
Definition finishRequest (io : io) (now : Z) (r : request) (l : Log) : Log * result pass_err unit :=
  match r with
  | ReqCommit first last =>
      let '(l, verified) := if DisableCommitVerify (lo l) || (last <? first) then (l, Ok tt) else VerifyDurable first last l in
      match verified with
      | Err e => (l, Err (PassVerify e))
      | Ok _ =>
          let '(v, ok) := AdvanceHighWatermark (io_hwm io) (i64 (last + 1)) (lv l) in
          (with_visible v l, if ok then Ok tt else Err PassHwm)
      end
  | ReqRotate => let '(l, ok) := rotateActive io now l in (l, if ok then Ok tt else Err PassRotate)
  | _ => (l, Ok tt)
  end.

(** One step of the flusher: the log, where it is, and the reply when the
    pass is over. *)
Definition flusher_step (io : io) (now : Z) (p : phase) (l : Log) : Log * phase * option (result pass_err unit) :=
  let idle r := match r with ReqStop => Stopped | _ => Idle end in
  match p with
  | Idle | Stopped => (l, p, None)
  | Writing r todo base cache => let '(l, p) := write_round io now r todo base cache l in (l, p, None)
  | Syncing r =>
      let '(l, ok) := syncIfNeeded (forceSync r) (io_sync io) now l in
      (l, if ok then Finishing r else Failing r PassSync, None)
  | Finishing r =>
      match finishRequest io now r l with
      | (l, Err e) => (l, Failing r e, None)
      | (l, Ok _) =>
          (match r with ReqCommit _ _ | ReqStop => rollIfPending io now l | _ => l end, idle r, Some (Ok tt))
      end
  | Failing r e =>
      (if isCommit r then discardUncommittedTail (io_trunc io) (negb (w_poisoned (lw l))) l else l,
       idle r, Some (Err e))
  end.

(** ** Retention *)

(** [candidatesForDeletion] among the sealed segments. *)
Definition expired (maxAge now : Z) (s : segment) : bool :=
  (0 <? maxAge) && match sg_last s with Some at_ => at_ <? now - maxAge | None => false end.

Definition activeExpired (now : Z) (l : Log) : bool :=
  match active l with
  | None => false
  | Some a => expired (lmaxAge l) now a && (0 <? sg_size a) && (sg_next a <=? v_hwm (lv l))
  end.

(** [detachSegmentLocked] and [unlinkSegment]. *)
Definition detach_lookup (s : segment) (x : lookup) : lookup :=
  MkLookup (delete (sg_base s) (lk_idx x)) (lk_clock x) (nav_invalidateSegment (lk_nav x) (sg_base s))
    (fc_invalidateSegment (lk_frames x) (sg_base s)) (lk_readSeen x).

Definition unlink (removed_ok : Z → bool) (s : segment) (d : disk) : disk :=
  if removed_ok (sg_base s) then
    MkDisk (delete (sg_base s) (dk_files d)) (<[sg_base s := file_at d (sg_base s)]> (dk_removed d)) (dk_segments d)
  else d.

(** The segments a sweep deletes: never the active one. *)
Definition sweep_victims (now : Z) (l : Log) : list segment :=
  filter (λ s, expired (lmaxAge l) now s = true) (removelast (segments l)).

(** [sweep] without the rotation, which is a request to the flusher. *)
Definition sweep (now : Z) (removed_ok : Z → bool) (l : Log) : Log :=
  let victims := sweep_victims now l in
  let kept := filter (λ s, ¬ expired (lmaxAge l) now s = true) (removelast (segments l)) in
  let d := MkDisk (dk_files (ld l)) (dk_removed (ld l)) (kept ++ option_list (active l)) in
  with_lookup (foldr detach_lookup (lx l) victims) (with_disk (foldr (unlink removed_ok) d victims) l).

Definition SetRetentionMaxAge (d : Z) (l : Log) : Log * bool :=
  let d := Z.max d 0 in
  (MkLog (lo l) (ld l) (lx l) (lb l) (lf l) (lv l) (lw l) (lclosed l) d, negb (lmaxAge l =? d)).

(** ** Opening and closing *)

(** [loadHighWatermark]: [None] fails the open. *)
Definition loadHighWatermark (nextOffset : Z) (sync_ok : bool) (h : hwmfile) (f : file) : option (visible * file) :=
  let nextOffset := Z.max nextOffset 0 in
  let dirSynced := match hf_cur h with Some _ => true | None => false end in
  match ReadPersistedHighWatermark (hf_cur h) with
  | None => None
  | Some None =>
      if (0 <? nextOffset) && negb sync_ok then None
      else Some (MkVisible nextOffset nextOffset (if 0 <? nextOffset then -1 else 0) false dirSynced h,
                 if 0 <? nextOffset then f_sync f else f)
  | Some (Some persisted) =>
      Some (MkVisible (Z.min persisted nextOffset) nextOffset persisted false dirSynced h, f)
  end.

(** The state of a log whose segments have been recovered. *)
Definition opened (o : Options) (d : disk) (x : lookup) (v : visible) (nextOffset activeSize now : Z) : Log :=
  MkLog o d x (newBuffer nextOffset) emptyFlushing v
    (MkWriter (SegmentBytes o <=? activeSize) 0 now false) false (Z.max (MaxAge o) 0).

Record open_io := MkOpenIo { oi_create : create_io; oi_trunc : trunc_io; oi_sync : bool }.

(** [NewLog] on the files of a directory. *)
Definition NewLog (opts : Options) (fs removed : gmap Z file) (h : hwmfile) (mtimes : gmap Z Z) (io : open_io) (now : Z)
    : option Log :=
  let o := withDefaults opts in
  let files := listSegmentFiles fs in
  match last files with
  | None =>
      let '(d, ok) := createSegment (oi_create io) 0 now (MkDisk fs removed []) in
      if ok then
        '(v, _) ← loadHighWatermark 0 (oi_sync io) h [];
        Some (opened o d emptyLookup v 0 0 now)
      else None
  | Some (base, f) =>
      let sealed := sealed_segments mtimes files in
      '(f, s, x, nextOffset) ← walkActiveSegment o (oi_trunc io) sealed (openSegment base f (default 0 (mtimes !! base))) f;
      '(v, f) ← loadHighWatermark nextOffset (oi_sync io) h f;
      Some (opened o (MkDisk (<[base := f]> fs) removed (sealed ++ [s])) x v nextOffset (sg_size s) now)
  end.

(** [Close] up to the flusher's final drain. *)
Definition begin_close (l : Log) : Log :=
  MkLog (lo l) (ld l) (lx l) (lb l) (lf l) (lv l) (lw l) true (lmaxAge l).

(** The rest of [Close]: the boundary is written and the active segment
    synced. *)
Definition end_close (pio : persist_io) (sync_ok : bool) (l : Log) : Log * bool :=
  let '(v, ok) := persistClosedHighWatermark pio (lv l) in
  match active l with
  | None => (with_visible v l, ok)
  | Some a =>
      let f := file_at (ld l) (sg_base a) in
      (with_visible v (with_disk (set_file (sg_base a) (if sync_ok then f_sync f else f_sync_failed f) (ld l)) l),
       ok && sync_ok)
  end.
