(* ===== verification/PartBytes.v ===== *)
(** * What reading and searching a segment file finds

    Lemmas on [PartFrame]: a frame that was encoded is read back, however
    the file goes on; verifying a frame chunk by chunk is checking its
    checksum as a whole; the chunked search for the magic bytes is the plain
    one; all of them look only at the bytes they name. *)

From S2P Require Import Prelude Octets PartFrame.

#[local] Arguments Z.mul : simpl never.
#[local] Arguments Z.add : simpl never.
#[local] Arguments Z.sub : simpl never.
#[local] Arguments Z.pow : simpl never.
#[local] Arguments Z.of_nat : simpl never.
#[local] Arguments Z.to_nat : simpl never.
#[local] Arguments encodeHeader : simpl never.
#[local] Arguments put_be : simpl never.

Lemma Ok_inj {E A} (a b : A) : @Ok E A a = Ok b → a = b.
Proof. by intros [= ->]. Qed.

(** ** Reads *)

Lemma lookup_ReadAt f pos n (k : nat) :
  0 <= pos → ReadAt f pos n !! k = if decide (Z.of_nat k < n) then f !! Z.to_nat (pos + Z.of_nat k) else None.
Proof.
  intros Hp. unfold ReadAt, blen. destruct (decide (Z.of_nat k < Z.min n (Z.of_nat (length f) - pos))).
  - rewrite lookup_take_lt, lookup_drop by lia. rewrite decide_True by lia. f_equal. lia.
  - rewrite lookup_take_ge by lia. case_decide; [|done]. symmetry. apply lookup_ge_None_2. lia.
Qed.

Lemma blen_ReadAt f pos n : 0 <= pos → blen (ReadAt f pos n) = Z.max 0 (Z.min n (blen f - pos)).
Proof. intros Hp. unfold ReadAt, blen. rewrite length_take, length_drop. lia. Qed.

Lemma ReadAt_nil f pos : 0 <= pos → ReadAt f pos 0 = [].
Proof. intros Hp. apply length_zero_iff_nil. pose proof (blen_ReadAt f pos 0 Hp). unfold blen in *. lia. Qed.

(** A read of a range depends on the bytes of the range. *)
Lemma ReadAt_agree f g pos n :
  0 <= pos → (∀ i, pos <= i < pos + n → f !! Z.to_nat i = g !! Z.to_nat i) → ReadAt f pos n = ReadAt g pos n.
Proof.
  intros Hp H. apply list_eq. intros k. rewrite !lookup_ReadAt by done. case_decide; [|done]. apply H. lia.
Qed.

Lemma ReadAt_app a s r n : n = blen s → ReadAt (a ++ s ++ r) (blen a) n = s.
Proof.
  intros ->. apply list_eq. intros k. rewrite lookup_ReadAt by (unfold blen; lia). unfold blen.
  case_decide as H.
  - rewrite lookup_app_r by lia. rewrite lookup_app_l by lia. f_equal. lia.
  - symmetry. apply lookup_ge_None_2. lia.
Qed.

Lemma ReadAt_ReadAt f pos n pos' n' :
  0 <= pos → 0 <= pos' → pos' + n' <= n → ReadAt (ReadAt f pos n) pos' n' = ReadAt f (pos + pos') n'.
Proof.
  intros Hp Hp' Hn. apply list_eq. intros k. rewrite !lookup_ReadAt by lia. case_decide; [|done].
  rewrite decide_True by lia. f_equal. lia.
Qed.

(** Two files have the same bytes in a range. *)
Definition agree (f g : octets) (from to : Z) : Prop :=
  ∀ i, from <= i < to → f !! Z.to_nat i = g !! Z.to_nat i.

Lemma readHeaderAt_agree f g pos : 0 <= pos → agree f g pos (pos + headerSize) → readHeaderAt f pos = readHeaderAt g pos.
Proof. intros Hp H. unfold readHeaderAt. by rewrite (ReadAt_agree f g) by done. Qed.

Lemma frameHeaderAt_agree f g pos : 0 <= pos → agree f g pos (pos + headerSize) → frameHeaderAt f pos = frameHeaderAt g pos.
Proof. intros Hp H. unfold frameHeaderAt. by rewrite (readHeaderAt_agree f g). Qed.

Lemma decodeHeader_ok s h :
  decodeHeader s = Ok h →
  take 2 s = [magicByte0; magicByte1] ∧ 0 < recordCount h ∧ 0 < uncompressed h <= maxFrameBytes
  ∧ 0 < compressed h <= maxFrameBytes ∧ 0 <= baseOffset h.
Proof.
  unfold decodeHeader. destruct (blen s <? headerSize); [done|]. case_decide as Hm; [done|].
  set (h' := MkFrameHeader _ _ _ _ _ _).
  destruct ((recordCount h' <=? 0) || _ || _ || _) eqn:E1; [done|].
  destruct ((maxFrameBytes <? compressed h') || _) eqn:E2; [done|]. intros H. injection H as <-.
  split; [done|]. lia.
Qed.

Lemma readHeaderAt_ok f pos s h :
  0 <= pos → readHeaderAt f pos = Ok (s, h) →
  s = ReadAt f pos headerSize ∧ decodeHeader s = Ok h ∧ pos + headerSize <= blen f.
Proof.
  intros Hp. unfold readHeaderAt. destruct (blen (ReadAt f pos headerSize) <? headerSize) eqn:E; [done|].
  rewrite rbind_ok. intros (h'&Hd&[= <- <-]). repeat split; [done|]. rewrite blen_ReadAt in E by done.
  unfold headerSize in *. lia.
Qed.

Lemma frameHeaderAt_ok f pos h e :
  0 <= pos → frameHeaderAt f pos = Ok (h, e) →
  decodeHeader (ReadAt f pos headerSize) = Ok h ∧ pos + headerSize <= blen f ∧ e = frame_end pos h ∧ pos + headerSize < e.
Proof.
  intros Hp. unfold frameHeaderAt. rewrite rbind_ok. intros ([s h']&Hh&[= <- <-]).
  apply readHeaderAt_ok in Hh as (->&Hd&Hl); [|done]. repeat split; try done.
  apply decodeHeader_ok in Hd. unfold frame_end, headerSize. lia.
Qed.

(** ** Verifying *)

Lemma crc_update_nil poly sum : 0 <= sum < 2 ^ 32 → crc_update_tab poly sum [] = sum.
Proof. intros H. unfold crc_update_tab. cbn [foldl]. by rewrite not32_not32. Qed.

Lemma ReadAt_split f pos n m :
  0 <= pos → 0 <= n → 0 <= m → blen (ReadAt f pos n) = n → ReadAt f pos (n + m) = ReadAt f pos n ++ ReadAt f (pos + n) m.
Proof.
  intros Hp Hn Hm Hl. rewrite blen_ReadAt in Hl by done. apply list_eq. intros k.
  assert (length (ReadAt f pos n) = Z.to_nat n) as Hlen.
  { pose proof (blen_ReadAt f pos n Hp). unfold blen in *. lia. }
  destruct (decide (Z.of_nat k < n)).
  - rewrite lookup_app_l by lia. rewrite !lookup_ReadAt by lia. by rewrite !decide_True by lia.
  - rewrite lookup_app_r, Hlen by lia. rewrite !lookup_ReadAt by lia.
    destruct (decide (Z.of_nat k < n + m)); [rewrite decide_True by lia|by rewrite decide_False by lia]. f_equal. lia.
Qed.

(** The chunks of the payload add up to the payload. *)
Lemma verify_loop_spec fuel f remaining at_ sum :
  0 <= at_ → 0 <= remaining <= verifyChunkBytes * Z.of_nat fuel → 0 <= sum < 2 ^ 32 →
  verify_loop fuel f remaining at_ sum =
    if blen (ReadAt f at_ remaining) <? remaining then Err ErrUnexpectedEOF
    else Ok (crc_update_tab castagnoli sum (ReadAt f at_ remaining)).
Proof.
  revert remaining at_ sum. induction fuel as [|fuel IH]; intros remaining at_ sum Hp Hr Hs; cbn [verify_loop].
  { assert (remaining = 0) as -> by lia. rewrite ReadAt_nil by done. cbn. by rewrite crc_update_nil. } destruct (0 <? remaining) eqn:E.
  - set (want := Z.min remaining verifyChunkBytes).
    assert (0 < want <= remaining) as Hwant by (unfold want, verifyChunkBytes; lia).
    destruct (blen (ReadAt f at_ want) <? want) eqn:Ew.
    + rewrite blen_ReadAt in * by done. rewrite (proj2 (Z.ltb_lt _ _)); [done|]. unfold want, verifyChunkBytes in *. lia.
    + assert (blen (ReadAt f at_ want) = want) as Hw by (rewrite blen_ReadAt in * by done; lia).
      rewrite IH; [|unfold want, verifyChunkBytes in *; lia..|apply crc_update_tab_range].
      assert (ReadAt f at_ remaining = ReadAt f at_ want ++ ReadAt f (at_ + want) (remaining - want)) as ->.
      { rewrite <-ReadAt_split by lia. f_equal. lia. }
      rewrite crc_update_tab_app. unfold blen. rewrite length_app, Nat2Z.inj_add. fold (blen (ReadAt f at_ want)).
      rewrite Hw. fold (blen (ReadAt f (at_ + want) (remaining - want))).
      destruct (blen (ReadAt f (at_ + want) (remaining - want)) <? remaining - want) eqn:E2.
      * by rewrite (proj2 (Z.ltb_lt _ _)) by lia.
      * by rewrite (proj2 (Z.ltb_ge _ _)) by lia.
  - assert (remaining = 0) as -> by lia. rewrite ReadAt_nil by done. cbn. by rewrite crc_update_nil.
Qed.

(** [verifyFrameAtBuffered] accepts exactly what [readFrameRaw] accepts, and
    fails the same way. *)
Lemma verify_raw f pos :
  0 <= pos →
  verifyFrameAtBuffered f pos = match readFrameRaw f pos with
                                | Ok (h, _) => Ok (h, frame_end pos h)
                                | Err e => Err e
                                end.
Proof.
  intros Hp. unfold verifyFrameAtBuffered, readFrameRaw.
  destruct (readHeaderAt f pos) as [[s h]|e] eqn:E; [|done]. cbn [rbind].
  apply readHeaderAt_ok in E as (_&Hd&_); [|done]. apply decodeHeader_ok in Hd as (_&_&_&Hc&_).
  rewrite verify_loop_spec; [|unfold headerSize; lia| |apply crc_update_tab_range].
  2: { unfold verifyChunkBytes. pose proof (Z.div_mod (compressed h) 65536). pose proof (Z.mod_pos_bound (compressed h) 65536).
       assert (0 <= compressed h / 65536) by (apply Z.div_pos; lia). lia. }
  destruct (blen (ReadAt f (pos + headerSize) (compressed h)) <? compressed h); [done|]. cbn [rbind].
  unfold crc32cOf. cbn [concat]. rewrite app_nil_r, crc_update_tab_app. by case_decide.
Qed.

(** ** Round trip *)

Lemma length_header_body h : length (header_body h) = 21%nat.
Proof. unfold header_body. by rewrite !length_app, !length_put_be. Qed.

Lemma blen_encodeHeader h : blen (encodeHeader h) = headerSize.
Proof. unfold blen, encodeHeader. by rewrite !length_app, length_header_body, length_put_be. Qed.

Definition header_ok (h : frameHeader) : Prop :=
  0 <= flags h < 256 ∧ 0 < recordCount h < 2 ^ 31 ∧ 0 <= baseOffset h <= max_int64
  ∧ 0 < uncompressed h <= maxFrameBytes ∧ 0 < compressed h <= maxFrameBytes ∧ 0 <= crc h < 2 ^ 32.

Lemma i32_id x : - 2 ^ 31 <= x < 2 ^ 31 → i32 x = x.
Proof. intros H. unfold i32. rewrite Z.mod_small; lia. Qed.

Lemma get_put_be_4 x : 0 <= x < 2 ^ 32 → get_be (put_be 4 x) = x.
Proof. intros H. apply get_put_be. by change (256 ^ Z.of_nat 4) with (2 ^ 32). Qed.

Lemma get_put_be_8 x : 0 <= x < 2 ^ 64 → get_be (put_be 8 x) = x.
Proof. intros H. apply get_put_be. by change (256 ^ Z.of_nat 8) with (2 ^ 64). Qed.

(** [decodeHeader] inverts [encodeHeader]. *)
Lemma decode_encodeHeader h : header_ok h → decodeHeader (encodeHeader h) = Ok h.
Proof.
  destruct h as [fl n base u c sum]. intros (Hf&Hn&Hb&Hu&Hc&Hs). cbn [flags recordCount baseOffset uncompressed compressed crc] in *.
  unfold decodeHeader. rewrite blen_encodeHeader. rewrite decide_False by naive_solver.
  set (s := encodeHeader _).
  unfold maxFrameBytes, max_int64, two63 in *.
  assert (be_at 2 1 s = fl) as -> by (change (be_at 2 1 s) with (fl mod 256); apply Z.mod_small; lia).
  assert (be_at 3 4 s = n) as -> by (change (be_at 3 4 s) with (get_be (put_be 4 n)); apply get_put_be_4; lia).
  assert (be_at 7 8 s = base) as -> by (change (be_at 7 8 s) with (get_be (put_be 8 base)); apply get_put_be_8; lia).
  assert (be_at 15 4 s = u) as -> by (change (be_at 15 4 s) with (get_be (put_be 4 u)); apply get_put_be_4; lia).
  assert (be_at 19 4 s = c) as -> by (change (be_at 19 4 s) with (get_be (put_be 4 c)); apply get_put_be_4; lia).
  assert (be_at 23 4 s = sum) as -> by (change (be_at 23 4 s) with (get_be (put_be 4 sum)); by apply get_put_be_4).
  rewrite !i32_id by lia. rewrite i64_id by (unfold in_i64, two63; lia).
  cbn [recordCount baseOffset uncompressed compressed].
  destruct ((n <=? 0) || (u <=? 0) || (c <=? 0) || (base <? 0)) eqn:E1; [lia|].
  destruct ((_ <? c) || _) eqn:E2; [lia|]. done.
Qed.

Lemma split_encode rs :
  Forall (λ r, blen r < 2 ^ 32) rs → split_records (length rs) (encodeRecordsPayload rs) = Some rs.
Proof.
  induction 1 as [|r rs Hr _ IH]; [done|]. unfold encodeRecordsPayload. cbn [fmap list_fmap concat length split_records].
  fold (encodeRecordsPayload rs). rewrite <-app_assoc.
  assert (blen (put_be 4 (blen r) ++ r ++ encodeRecordsPayload rs) <? 4 = false) as ->.
  { apply Z.ltb_ge. unfold blen. rewrite !length_app, length_put_be. lia. }
  rewrite take_app_length', drop_app_length' by (by rewrite length_put_be).
  rewrite get_put_be_4 by (unfold blen in *; lia).
  assert (blen (r ++ encodeRecordsPayload rs) <? blen r = false) as -> by (apply Z.ltb_ge; unfold blen; rewrite length_app; lia).
  unfold blen. rewrite Nat2Z.id, drop_app_length, take_app_length. by rewrite IH.
Qed.

Lemma blen_encodeRecords rs : blen (encodeRecordsPayload rs) = inner_size rs.
Proof.
  induction rs as [|r rs IH]; [done|]. unfold encodeRecordsPayload. cbn [fmap list_fmap concat inner_size foldr].
  fold (encodeRecordsPayload rs) (inner_size rs). unfold blen in *. rewrite !length_app, length_put_be. lia.
Qed.

Lemma inner_size_bounds rs : 4 * Z.of_nat (length rs) <= inner_size rs ∧ Forall (λ r, blen r <= inner_size rs) rs.
Proof.
  induction rs as [|r rs [IH1 IH2]]; [done|]. cbn [inner_size foldr length]. fold (inner_size rs).
  pose proof (Nat2Z.is_nonneg (length r)). assert (0 <= inner_size rs) by lia. unfold blen in *. split; [lia|].
  constructor; [lia|]. eapply Forall_impl; [exact IH2|]. cbn. intros. lia.
Qed.

(** What the log relies on of a codec: zstd's documented contract. *)
Definition codec_ok (c : Codec) : Prop :=
  Flag c = FlagNone
  ∨ Flag c = FlagZstd ∧ ∀ s, s ≠ [] → Encode c s ≠ [] ∧ Decode c (Encode c s) (blen s) = Some s.

(** A frame as it lies in a file: the header and the records it yields. *)
Lemma read_encodeFrame cs rs base fr a z :
  codec_ok (own cs) → 0 <= base <= max_int64 → encodeFrame (own cs) rs base = Ok fr →
  ∃ h, readFrameAt cs (a ++ fr ++ z) (blen a) = Ok (h, rs, blen a + blen fr)
    ∧ baseOffset h = base ∧ recordCount h = Z.of_nat (length rs).
Proof.
  intros Hc Hb. unfold encodeFrame. destruct rs as [|r0 rs0]; [done|]. set (rs := r0 :: rs0) in *.
  assert (0 < Z.of_nat (length rs)) as Hrs0 by (unfold rs; cbn [length]; lia). clearbody rs.
  set (payload := if decide (Flag (own cs) = FlagNone) then _ else _).
  destruct ((maxFrameBytes <? inner_size rs) || (maxFrameBytes <? blen payload)) eqn:El; [done|].
  apply orb_false_iff in El as [Hi Hp]. intros H%Ok_inj. subst fr.
  pose proof (inner_size_bounds rs) as [Hn Hrs].
  assert (encodeRecordsPayload rs ≠ []) as Hne.
  { intros E. pose proof (blen_encodeRecords rs) as Hl. rewrite E in Hl. change (blen []) with 0 in Hl. lia. }
  assert (0 < blen payload) as Hpl.
  { unfold payload. case_decide as Ef.
    - rewrite blen_encodeRecords. lia.
    - destruct Hc as [|[_ Hz]]; [done|]. destruct (Hz _ Hne) as [Hz' _]. destruct (Encode _ _); [done|]. unfold blen. cbn [length]. lia. }
  rewrite !i32_id by (unfold maxFrameBytes in *; lia).
  set (h0 := MkFrameHeader _ _ _ _ _ 0). set (sum := crc32cOf _). 
  set (h := MkFrameHeader (Z.land (Flag (own cs)) codecMask) (Z.of_nat (length rs)) base (inner_size rs) (blen payload) sum).
  assert (header_ok h) as Hok.
  { unfold h, header_ok. cbn [flags recordCount baseOffset uncompressed compressed crc]. split.
    { destruct Hc as [->|[-> _]]; by vm_compute. }
    unfold maxFrameBytes in *. repeat split; try (lia); apply crc_update_tab_range. }
  exists h. split; [|done].
  assert (readHeaderAt (a ++ (encodeHeader h ++ payload) ++ z) (blen a) = Ok (encodeHeader h, h)) as Hh.
  { unfold readHeaderAt. rewrite <-app_assoc, ReadAt_app by (by rewrite blen_encodeHeader).
    rewrite blen_encodeHeader. cbn [rbind]. by rewrite decode_encodeHeader. }
  assert (ReadAt (a ++ (encodeHeader h ++ payload) ++ z) (blen a + headerSize) (compressed h) = payload) as Hpay.
  { rewrite <-app_assoc, app_assoc. replace (blen a + headerSize) with (blen (a ++ encodeHeader h)).
    - by apply ReadAt_app.
    - unfold blen. rewrite length_app, Nat2Z.inj_add. fold (blen (encodeHeader h)). rewrite blen_encodeHeader. unfold blen. lia. }
  assert (crc_body (encodeHeader h) = header_body h0) as Hcb by reflexivity.
  assert (readFrameRaw (a ++ (encodeHeader h ++ payload) ++ z) (blen a) = Ok (h, payload)) as Hraw.
  { unfold readFrameRaw. rewrite Hh. cbn [rbind]. rewrite Hpay. cbn [compressed h]. rewrite Z.ltb_irrefl, Hcb.
    by rewrite decide_True. }
  unfold readFrameAt. rewrite Hraw. cbn [rbind].
  assert (decode_payload cs h payload = Ok (encodeRecordsPayload rs)) as ->.
  { unfold decode_payload, frame_codec, h. cbn [flags uncompressed]. unfold payload. destruct Hc as [Hfl|[Hfl Hz]].
    { rewrite decide_True by (by rewrite Hfl). by rewrite decide_True by done. }
    rewrite !(decide_False (P := _ = FlagNone)) by (by rewrite Hfl). unfold codecForFlag.
    rewrite decide_False by (by rewrite Hfl). rewrite !decide_True by (by rewrite Hfl). cbn [rbind]. rewrite <-blen_encodeRecords. by destruct (Hz _ Hne) as [_ ->]. }
  cbn [rbind]. rewrite blen_encodeRecords. cbn [uncompressed recordCount h]. rewrite decide_False by naive_solver.
  unfold decodeRecordsPayload. rewrite Nat2Z.id, split_encode.
  - assert (blen a + blen (encodeHeader h ++ payload) = frame_end (blen a) h) as ->; [|done].
    unfold frame_end. cbn [compressed h]. pose proof (blen_encodeHeader h). unfold blen in *. rewrite length_app. lia.
  - eapply Forall_impl; [exact Hrs|]. cbn. unfold maxFrameBytes in Hi. intros. lia.
Qed.

(** ** Frames depend only on their bytes *)

Lemma readFrameRaw_agree f g pos h e :
  0 <= pos → frameHeaderAt f pos = Ok (h, e) → agree f g pos e → readFrameRaw f pos = readFrameRaw g pos.
Proof.
  intros Hp Hh Ha. pose proof (frameHeaderAt_ok _ _ _ _ Hp Hh) as (_&_&He&Hlt).
  unfold frameHeaderAt in Hh. apply rbind_ok in Hh as ([s h']&Hr&[= -> _]).
  assert (readHeaderAt g pos = readHeaderAt f pos) as Hg.
  { symmetry. apply readHeaderAt_agree; [done|]. intros i Hi. apply Ha. lia. }
  unfold readFrameRaw. rewrite Hg, Hr. cbn [rbind]. unfold frame_end in He.
  rewrite (ReadAt_agree f g) by (unfold headerSize in *; first [lia|intros i Hi; apply Ha; lia]). done.
Qed.

Lemma readFrameRaw_header f pos h p :
  0 <= pos → readFrameRaw f pos = Ok (h, p) → frameHeaderAt f pos = Ok (h, frame_end pos h) ∧ frame_end pos h <= blen f.
Proof.
  intros Hp. unfold readFrameRaw, frameHeaderAt. rewrite rbind_ok. intros ([s h']&Hr&H). rewrite Hr. cbn [rbind].
  apply readHeaderAt_ok in Hr as (_&Hd&_); [|done]. apply decodeHeader_ok in Hd.
  destruct (blen (ReadAt f (pos + headerSize) (compressed h')) <? compressed h') eqn:E; [done|].
  case_decide; [|done]. simplify_eq. split; [done|]. rewrite blen_ReadAt in E by (unfold headerSize; lia).
  unfold frame_end, headerSize in *. lia.
Qed.

Lemma readFrameAt_raw cs f pos h rs e :
  readFrameAt cs f pos = Ok (h, rs, e) → (∃ p, readFrameRaw f pos = Ok (h, p)) ∧ e = frame_end pos h.
Proof.
  unfold readFrameAt. rewrite rbind_ok. intros ([h' p]&Hr&H). rewrite rbind_ok in H. destruct H as (d&_&H).
  case_decide; [done|]. destruct (decodeRecordsPayload d (recordCount h')); simplify_eq. naive_solver.
Qed.

Lemma split_records_length n s rs : split_records n s = Some rs → length rs = n.
Proof.
  revert s rs. induction n as [|n IH]; intros s rs; cbn [split_records]; [destruct s; naive_solver|].
  destruct (_ <? 4); [done|]. destruct (_ <? _); [done|]. intros H. apply bind_Some in H as (r&Hr&[= <-]).
  cbn [length]. f_equal. by eapply IH.
Qed.

Lemma readFrameAt_ok cs f pos h rs e :
  0 <= pos → readFrameAt cs f pos = Ok (h, rs, e) →
  frameHeaderAt f pos = Ok (h, e) ∧ verifyFrameAtBuffered f pos = Ok (h, e) ∧ e <= blen f
  ∧ Z.of_nat (length rs) = recordCount h.
Proof.
  intros Hp H. pose proof (readFrameAt_raw _ _ _ _ _ _ H) as [[p Hr] ->].
  pose proof (readFrameRaw_header _ _ _ _ Hp Hr) as [Hh Hl]. rewrite verify_raw, Hr by done.
  repeat split; try done. unfold readFrameAt in H. rewrite Hr in H. cbn [rbind] in H. rewrite rbind_ok in H.
  destruct H as (d&_&H). case_decide; [done|]. destruct (decodeRecordsPayload d (recordCount h)) as [rs'|] eqn:E; [|done].
  simplify_eq. unfold decodeRecordsPayload in E. apply split_records_length in E.
  apply frameHeaderAt_ok in Hh as (Hd&_); [|done]. apply decodeHeader_ok in Hd. lia.
Qed.

Lemma readFrameAt_agree cs f g pos h rs e :
  0 <= pos → readFrameAt cs f pos = Ok (h, rs, e) → agree f g pos e → readFrameAt cs g pos = Ok (h, rs, e).
Proof.
  intros Hp H Ha. pose proof (readFrameAt_ok _ _ _ _ _ _ Hp H) as (Hh&_). rewrite <-H. unfold readFrameAt.
  by rewrite (readFrameRaw_agree f g pos h e).
Qed.

(** A verified frame is complete. *)
Lemma verify_ok f pos h e :
  0 <= pos → verifyFrameAtBuffered f pos = Ok (h, e) → frameHeaderAt f pos = Ok (h, e) ∧ e <= blen f.
Proof.
  intros Hp. rewrite verify_raw by done. destruct (readFrameRaw f pos) as [[h' p]|] eqn:E; [|done]. intros [= -> <-].
  by eapply readFrameRaw_header.
Qed.

Lemma verify_agree f g pos h e :
  0 <= pos → frameHeaderAt f pos = Ok (h, e) → agree f g pos e → verifyFrameAtBuffered f pos = verifyFrameAtBuffered g pos.
Proof. intros Hp Hh Ha. rewrite !verify_raw by done. by rewrite (readFrameRaw_agree f g pos h e). Qed.

(** ** The search for the magic bytes *)

Definition magic_at (f : octets) (i : Z) : Prop :=
  f !! Z.to_nat i = Some magicByte0 ∧ f !! Z.to_nat (i + 1) = Some magicByte1.

Lemma header_magic f pos h e : 0 <= pos → frameHeaderAt f pos = Ok (h, e) → magic_at f pos.
Proof.
  intros Hp Hh. apply frameHeaderAt_ok in Hh as (Hd&_); [|done]. apply decodeHeader_ok in Hd as [Hm _].
  assert (∀ k : nat, (k < 2)%nat → [magicByte0; magicByte1] !! k = f !! Z.to_nat (pos + Z.of_nat k)) as H.
  { intros k Hk. rewrite <-Hm, lookup_take_lt, lookup_ReadAt by done. unfold headerSize. by rewrite decide_True by lia. }
  split.
  - rewrite <-(Z.add_0_r pos). change 0 with (Z.of_nat 0). by rewrite <-H by lia.
  - change (pos + 1) with (pos + Z.of_nat 1). by rewrite <-H by lia.
Qed.

Lemma find_magic_spec s :
  match find_magic s with
  | Some k => s !! k = Some magicByte0 ∧ s !! S k = Some magicByte1
              ∧ ∀ j, (j < k)%nat → ¬ (s !! j = Some magicByte0 ∧ s !! S j = Some magicByte1)
  | None => ∀ j, ¬ (s !! j = Some magicByte0 ∧ s !! S j = Some magicByte1)
  end.
Proof.
  induction s as [|a s IH]; [by intros j [? ?]|]. destruct s as [|b s]; [by intros [|j] [? ?]|].
  assert (find_magic (a :: b :: s) =
    if decide (a = magicByte0 ∧ b = magicByte1) then Some 0%nat else S <$> find_magic (b :: s)) as -> by done.
  case_decide as Hd.
  - destruct Hd as [-> ->]. split_and!; [done..|]. intros. lia.
  - destruct (find_magic (b :: s)) as [k|]; simpl.
    + destruct IH as (?&?&IH). split; [done|split; [done|]]. intros [|j] Hj; [|apply IH; lia]. cbn. naive_solver.
    + intros [|j]; [|apply IH]. cbn. naive_solver.
Qed.

Lemma magic_rounds_spec fuel f start size pos :
  0 <= start <= pos → start <= size → size - pos <= magicChunk * Z.of_nat fuel →
  (∀ i, start <= i → i + 1 < pos → ¬ magic_at f i) →
  start <= magic_rounds fuel f start size pos <= size
  ∧ (magic_rounds fuel f start size pos < size → magic_at f (magic_rounds fuel f start size pos))
  ∧ ∀ i, start <= i < magic_rounds fuel f start size pos → i + 1 < size → ¬ magic_at f i.
Proof.
  revert pos. induction fuel as [|fuel IH]; intros pos Hs Hz Hf Hn; cbn [magic_rounds].
  { repeat split; try lia. intros i Hi Hi'. apply Hn; lia. }
  destruct (pos <? size) eqn:Ep; [|repeat split; try lia; intros i Hi Hi'; apply Hn; lia].
  set (stop := Z.min (pos + magicChunk) size). set (from := if start <? pos then pos - 1 else pos).
  assert (pos < stop <= size) as Hstop by (unfold stop, magicChunk; lia).
  assert (start <= from <= pos ∧ ∀ i, start <= i → i < from → ¬ magic_at f i) as [Hfrom Hn'].
  { unfold from. destruct (start <? pos) eqn:E; [|split; [lia|intros; lia]]. split; [lia|]. intros. apply Hn; lia. }
  clearbody from.
  destruct (blen (ReadAt f from (stop - from)) <? 2) eqn:Eb.
  { rewrite blen_ReadAt in Eb by lia. repeat split; try lia. intros i Hi Hi' Hma.
    destruct (decide (i < from)); [apply (Hn' i); [lia|lia|done]|]. destruct Hma as [_ H2]. apply lookup_lt_Some in H2. unfold blen, stop, magicChunk in *. lia. }
  pose proof (find_magic_spec (ReadAt f from (stop - from))) as Hm.
  destruct (find_magic (ReadAt f from (stop - from))) as [k|].
  - destruct Hm as (H1&H2&H3).
    assert (Z.of_nat (S k) < stop - from) as Hk.
    { rewrite lookup_ReadAt in H2 by lia. case_decide; [done|done]. }
    assert (∀ j : nat, Z.of_nat (S j) < stop - from →
      magic_at f (from + Z.of_nat j) ↔ ReadAt f from (stop - from) !! j = Some magicByte0
                                       ∧ ReadAt f from (stop - from) !! S j = Some magicByte1) as Hiff.
    { intros j Hj. unfold magic_at. rewrite !lookup_ReadAt by lia. rewrite !decide_True by lia.
      by replace (from + Z.of_nat j + 1) with (from + Z.of_nat (S j)) by lia. }
    repeat split; try lia; [by apply Hiff| |].
    { by apply Hiff. }
    intros i Hi Hi'. destruct (decide (i < from)); [apply Hn'; lia|].
    replace i with (from + Z.of_nat (Z.to_nat (i - from))) by lia. rewrite Hiff by lia. apply H3. lia.
  - apply IH; [lia|lia| |].
    + unfold stop, magicChunk in *. lia.
    + intros i Hi Hi' Hma. destruct (decide (i < from)); [apply (Hn' i); [lia|lia|done]|]. apply (Hm (Z.to_nat (i - from))).
      rewrite !lookup_ReadAt by lia. rewrite !decide_True by lia. destruct Hma as [Ha Hb]. split.
      * by replace (from + Z.of_nat (Z.to_nat (i - from))) with i by lia.
      * by replace (from + Z.of_nat (S (Z.to_nat (i - from)))) with (i + 1) by lia.
Qed.

(** [nextMagicInSegment] is the first magic at or after [start]. *)
Lemma nextMagic_spec f start size :
  0 <= start <= size →
  start <= nextMagicInSegment f start size <= size
  ∧ (nextMagicInSegment f start size < size → magic_at f (nextMagicInSegment f start size))
  ∧ ∀ i, start <= i < nextMagicInSegment f start size → i + 1 < size → ¬ magic_at f i.
Proof.
  intros Hs. apply magic_rounds_spec; [lia|lia| |intros; lia].
  unfold magicChunk. pose proof (Z.div_mod (size - start) 4096). pose proof (Z.mod_pos_bound (size - start) 4096).
  assert (0 <= (size - start) / 4096) by (apply Z.div_pos; lia). lia.
Qed.

Lemma valid_loop_spec fuel f size pos :
  0 <= pos <= size → size - pos < Z.of_nat fuel → (pos < size → magic_at f pos) →
  pos <= valid_loop fuel f size pos <= size
  ∧ (valid_loop fuel f size pos < size → is_ok (verifyFrameAtBuffered f (valid_loop fuel f size pos)) = true)
  ∧ ∀ i, pos <= i < valid_loop fuel f size pos → i + 1 < size → is_ok (verifyFrameAtBuffered f i) = false.
Proof.
  revert pos. induction fuel as [|fuel IH]; intros pos Hp Hf Hm; cbn [valid_loop]; [lia|].
  destruct (pos <? size) eqn:E; [|repeat split; try lia; intros; lia].
  destruct (verifyFrameAtBuffered f pos) as [r|e] eqn:Ev.
  { split; [lia|split; [by rewrite Ev|intros; lia]]. }
  destruct (nextMagic_spec f (pos + 1) size) as (H1&H2&H3); [lia|].
  destruct (IH (nextMagicInSegment f (pos + 1) size)) as (I1&I2&I3); [lia|lia|done|].
  repeat split; try lia; [done|]. intros i Hi Hi'. destruct (decide (i = pos)) as [->|]; [by rewrite Ev|].
  destruct (decide (i < nextMagicInSegment f (pos + 1) size)); [|apply I3; lia].
  destruct (verifyFrameAtBuffered f i) as [[h x]|] eqn:Ei; [|done]. exfalso.
  apply verify_ok in Ei as [Ei _]; [|lia]. apply header_magic in Ei; [|lia]. apply (H3 i); [lia|lia|done].
Qed.

(** [nextValidFramePos] is the first frame at or after [start] that checks
    out. *)
Lemma nextValid_spec f start size :
  0 <= start <= size →
  start <= nextValidFramePos f start size <= size
  ∧ (nextValidFramePos f start size < size → is_ok (verifyFrameAtBuffered f (nextValidFramePos f start size)) = true)
  ∧ ∀ i, start <= i < nextValidFramePos f start size → i + 1 < size → is_ok (verifyFrameAtBuffered f i) = false.
Proof.
  intros Hs. unfold nextValidFramePos. destruct (nextMagic_spec f start size) as (H1&H2&H3); [lia|].
  destruct (valid_loop_spec (Z.to_nat (size - start + 1)) f size (nextMagicInSegment f start size)) as (I1&I2&I3);
    [lia|lia|done|].
  repeat split; try lia; [done|]. intros i Hi Hi'.
  destruct (decide (i < nextMagicInSegment f start size)); [|apply I3; lia].
  destruct (verifyFrameAtBuffered f i) as [[h x]|] eqn:Ei; [|done]. exfalso.
  apply verify_ok in Ei as [Ei _]; [|lia]. apply header_magic in Ei; [|lia]. apply (H3 i); [lia|lia|done].
Qed.
