(* ===== verification/PartWalk.v ===== *)
(** * The layout of a segment file

    A segment file as a chain of tiles: frames that check out, frames whose
    header is intact and whose payload is not, and stretches without a
    header.  The walks of [PartLog] visit exactly the frames of the chain,
    wherever on it they start, and a chain survives whatever happens to the
    bytes behind it. *)

From S2P Require Import Prelude Octets PartFrame PartCache PartLog PartBytes PartFlush.

#[local] Arguments Z.mul : simpl never.
#[local] Arguments Z.add : simpl never.
#[local] Arguments Z.sub : simpl never.
#[local] Arguments Z.pow : simpl never.
#[local] Arguments Z.of_nat : simpl never.
#[local] Arguments Z.to_nat : simpl never.

(** ** Tiles *)

Inductive kind := Good (recs : list octets) | Bad | Dead.

(** A stretch of a file and the offsets it stands for. *)
Record tile := Tile { t_pos : Z; t_len : Z; t_base : Z; t_count : Z; t_kind : kind }.

Definition t_end (t : tile) : Z := t_pos t + t_len t.
Definition t_next (t : tile) : Z := t_base t + t_count t.
Definition live (t : tile) : bool := match t_kind t with Dead => false | _ => true end.
Definition holds (t : tile) (offset : Z) : Prop := t_base t <= offset < t_next t.

(** No header can be read at [i], whatever comes to stand after [stop]. *)
Definition barren (b : octets) (stop i : Z) : Prop :=
  i < blen b →
  ¬ magic_at b i
  ∨ i + headerSize <= Z.min stop (blen b) ∧ is_ok (decodeHeader (ReadAt b i headerSize)) = false.

Section Tiles.
Context (cs : codecs).

Definition kind_ok (b : octets) (t : tile) : Prop :=
  match t_kind t with
  | Good recs => ∃ h, readFrameAt cs b (t_pos t) = Ok (h, recs, t_end t) ∧ baseOffset h = t_base t ∧ recordCount h = t_count t
  | Bad =>
      (∃ h, frameHeaderAt b (t_pos t) = Ok (h, t_end t) ∧ baseOffset h = t_base t ∧ recordCount h = t_count t)
      ∧ t_end t <= blen b ∧ is_ok (verifyFrameAtBuffered b (t_pos t)) = false
      ∧ ∀ i, t_pos t < i < t_end t → barren b (t_end t) i
  | Dead => ∀ i, t_pos t <= i < t_end t → barren b (t_end t) i
  end.

Record tile_ok (b : octets) (t : tile) : Prop := {
  to_pos : 0 <= t_pos t;
  to_len : 0 < t_len t < 2 ^ 31;
  to_base : 0 <= t_base t;
  to_count : 0 <= t_count t;
  to_next : t_next t <= max_int64;
  to_kind : kind_ok b t;
}.

(** The tiles follow one another from [p], their offsets from [n]. *)
Fixpoint chain (b : octets) (p n : Z) (ts : list tile) : Prop :=
  match ts with
  | [] => True
  | t :: ts => t_pos t = p ∧ n <= t_base t ∧ tile_ok b t ∧ chain b (t_end t) (t_next t) ts
  end.

Fixpoint chain_end (p : Z) (ts : list tile) : Z := match ts with [] => p | t :: ts => chain_end (t_end t) ts end.
Fixpoint chain_next (n : Z) (ts : list tile) : Z := match ts with [] => n | t :: ts => chain_next (t_next t) ts end.

Lemma chain_app b p n a c : chain b p n (a ++ c) ↔ chain b p n a ∧ chain b (chain_end p a) (chain_next n a) c.
Proof. revert p n. induction a as [|t a IH]; intros p n; cbn [app chain chain_end chain_next]; [tauto|]. rewrite IH. tauto. Qed.

Lemma chain_end_app p a c : chain_end p (a ++ c) = chain_end (chain_end p a) c.
Proof. revert p. by induction a; intros; cbn. Qed.

Lemma chain_next_app n a c : chain_next n (a ++ c) = chain_next (chain_next n a) c.
Proof. revert n. by induction a; intros; cbn. Qed.

Lemma chain_end_ge b p n ts : chain b p n ts → p <= chain_end p ts.
Proof.
  revert p n. induction ts as [|t ts IH]; intros p n; cbn [chain chain_end]; [lia|]. intros (<-&_&Ht&H).
  apply IH in H. destruct Ht. unfold t_end in *. lia.
Qed.

Lemma chain_next_ge b p n ts : chain b p n ts → n <= chain_next n ts.
Proof.
  revert p n. induction ts as [|t ts IH]; intros p n; cbn [chain chain_next]; [lia|]. intros (_&?&Ht&H).
  apply IH in H. destruct Ht. unfold t_next in *. lia.
Qed.

Lemma chain_elem b p n ts t :
  chain b p n ts → t ∈ ts →
  tile_ok b t ∧ p <= t_pos t ∧ t_end t <= chain_end p ts ∧ n <= t_base t ∧ t_next t <= chain_next n ts.
Proof.
  intros H Ht. apply list_elem_of_split in Ht as (a&c&->). apply chain_app in H as [Ha (Hp&Hn&Ht&Hc)].
  rewrite chain_end_app, chain_next_app. cbn [chain_end chain_next].
  pose proof (chain_end_ge _ _ _ _ Ha). pose proof (chain_next_ge _ _ _ _ Ha).
  pose proof (chain_end_ge _ _ _ _ Hc). pose proof (chain_next_ge _ _ _ _ Hc). split; [done|]. lia.
Qed.

(** Two tiles of a chain that hold the same offset are one. *)
Lemma chain_disjoint b p n ts t t' o : chain b p n ts → t ∈ ts → t' ∈ ts → holds t o → holds t' o → t = t'.
Proof.
  revert p n. induction ts as [|x ts IH]; intros p n; [by intros _ ?%elem_of_nil|]. intros (_&_&_&H) Ht Ht' Ho Ho'.
  apply elem_of_cons in Ht as [->|Ht], Ht' as [->|Ht']; [done| | |by eapply IH].
  - apply (chain_elem _ _ _ _ _ H) in Ht' as (_&_&_&?&_). unfold holds in *. lia.
  - apply (chain_elem _ _ _ _ _ H) in Ht as (_&_&_&?&_). unfold holds in *. lia.
Qed.

(** A tile that begins at or below an offset it does not hold comes before
    the tile that holds it. *)
Lemma chain_after b p n ts a t o :
  chain b p n ts → a ∈ ts → t ∈ ts → holds t o → t_base a <= o → t_next a <= o →
  ∃ n' ts', chain b (t_end a) n' ts' ∧ t ∈ ts' ∧ chain_end (t_end a) ts' = chain_end p ts ∧ ts' ⊆ ts.
Proof.
  revert p n. induction ts as [|x ts IH]; intros p n; [by intros _ ?%elem_of_nil|]. intros (_&_&_&H) Ha Ht Ho Hb Hn.
  apply elem_of_cons in Ha as [->|Ha], Ht as [->|Ht]; cbn [chain_end].
  - unfold holds in *. lia.
  - exists (t_next x), ts. repeat split; try done. set_solver.
  - apply (chain_elem _ _ _ _ _ H) in Ha as (_&_&_&?&_). unfold holds in *. lia.
  - destruct (IH _ _ H Ha Ht Ho Hb Hn) as (n'&ts'&?&?&?&?). exists n', ts'. repeat split; try done. set_solver.
Qed.

(** ** Bytes behind a chain *)

(** [b'] continues [b]: where [b] had ended it has zeros. *)
Definition extends (b b' : octets) (n : Z) : Prop :=
  ∀ i, 0 <= i < n → b' !! Z.to_nat i = b !! Z.to_nat i ∨ b !! Z.to_nat i = None ∧ b' !! Z.to_nat i = Some 0.

Lemma extends_agree b b' n from : extends b b' n → n <= blen b → 0 <= from → agree b b' from n.
Proof.
  intros H Hn Hf i Hi. destruct (H i ltac:(lia)) as [->|[Hb _]]; [done|].
  apply lookup_ge_None_1 in Hb. unfold blen in Hn. lia.
Qed.

Lemma barren_extends b b' stop i :
  0 <= i < stop → extends b b' stop →
  (b' !! Z.to_nat stop = b !! Z.to_nat stop ∨ b' !! Z.to_nat stop ≠ Some magicByte1) →
  barren b stop i → barren b' stop i.
Proof.
  intros Hi He Hs Hb Hl'. destruct (He i Hi) as [Ei|[Ei Ei']]; cycle 1.
  { left. intros [Hm _]. by rewrite Ei' in Hm. }
  assert (i < blen b) as Hl.
  { destruct (decide (i < blen b)); [done|]. exfalso. rewrite (lookup_ge_None_2 b) in Ei by (unfold blen in *; lia).
    apply lookup_ge_None_1 in Ei. unfold blen in *. lia. }
  destruct (Hb Hl) as [Hm|[H27 Hd]]; [left|right].
  - intros [Hm0 Hm1]. rewrite Ei in Hm0. apply Hm. split; [done|]. destruct (decide (i + 1 = stop)) as [E|].
    + rewrite E in *. destruct Hs as [<-|]; done.
    + destruct (He (i + 1)) as [<-|[_ E]]; [lia|done|]. by rewrite Hm1 in E.
  - assert (agree b b' i (i + headerSize)) as Ha.
    { apply extends_agree; [|lia|lia]. intros j Hj. apply He. lia. }
    split; [|by rewrite <-(ReadAt_agree b b') by (first [lia|done])].
    assert (is_Some (b' !! Z.to_nat (i + headerSize - 1))) as [x Hx].
    { rewrite <-Ha by (unfold headerSize; lia). apply lookup_lt_is_Some_2. unfold blen, headerSize in *. lia. }
    apply lookup_lt_Some in Hx. unfold blen, headerSize in *. lia.
Qed.

Lemma frame_range b t : tile_ok b t → live t = true → t_end t <= blen b ∧ t_pos t + headerSize < t_end t.
Proof.
  intros [Hp _ _ _ _ Hk]. unfold kind_ok, live in *. destruct (t_kind t) as [recs| |]; [| |done]; intros _.
  - destruct Hk as (h&Hr&_). apply readFrameAt_ok in Hr as (Hh&_&?&_); [|done]. apply frameHeaderAt_ok in Hh; [|done]. lia.
  - destruct Hk as ((h&Hh&_)&?&_). apply frameHeaderAt_ok in Hh; [|done]. lia.
Qed.

Lemma tile_header b t :
  tile_ok b t → live t = true →
  ∃ h, frameHeaderAt b (t_pos t) = Ok (h, t_end t) ∧ baseOffset h = t_base t ∧ recordCount h = t_count t.
Proof.
  intros [Hp _ _ _ _ Hk]. unfold kind_ok, live in *. destruct (t_kind t) as [recs| |]; [| |done]; intros _; [|naive_solver].
  destruct Hk as (h&Hr&?&?). apply readFrameAt_ok in Hr as (Hh&_); [|done]. eauto.
Qed.

Lemma tile_extends b b' t :
  tile_ok b t → extends b b' (t_end t) →
  (b' !! Z.to_nat (t_end t) = b !! Z.to_nat (t_end t) ∨ b' !! Z.to_nat (t_end t) ≠ Some magicByte1) →
  tile_ok b' t.
Proof.
  intros Hok He Hs. pose proof (frame_range b t Hok) as Hr. destruct Hok as [Hp Hl ??? Hk].
  constructor; try done. unfold kind_ok, live in *. destruct (t_kind t) as [recs| |].
  - destruct (Hr eq_refl) as [He' _]. destruct Hk as (h&Hrd&Hb&Hc). exists h. split; [|done].
    eapply readFrameAt_agree; [done|done|]. by apply extends_agree.
  - destruct (Hr eq_refl) as [He' _]. destruct Hk as ((h&Hh&Hb&Hc)&_&Hv&Hi).
    assert (agree b b' (t_pos t) (t_end t)) as Ha by by apply extends_agree.
    pose proof (frameHeaderAt_ok _ _ _ _ Hp Hh) as (_&_&_&?).
    split_and!.
    + exists h. split; [|done]. rewrite <-Hh. symmetry. apply frameHeaderAt_agree; [done|]. intros i ?. apply Ha. lia.
    + assert (is_Some (b' !! Z.to_nat (t_end t - 1))) as [x Hx].
      { rewrite <-Ha by (unfold t_end; lia). apply lookup_lt_is_Some_2. unfold blen, t_end in *. lia. }
      apply lookup_lt_Some in Hx. unfold blen, t_end in *. lia.
    + by rewrite <-(verify_agree b b' (t_pos t) h (t_end t)).
    + intros i Hi'. apply (barren_extends b); [lia|done|done|]. by apply Hi.
  - intros i Hi'. apply (barren_extends b); [lia|done|done|]. by apply Hk.
Qed.

(** A chain is kept by whatever continues its bytes, unless the new byte
    right behind it could complete a magic. *)
Lemma chain_extends b b' p n ts :
  chain b p n ts → extends b b' (chain_end p ts) →
  (b' !! Z.to_nat (chain_end p ts) = b !! Z.to_nat (chain_end p ts) ∨ b' !! Z.to_nat (chain_end p ts) ≠ Some magicByte1) →
  chain b' p n ts.
Proof.
  revert p n. induction ts as [|t ts IH]; intros p n; cbn [chain chain_end]; [done|]. intros (Hp&Hn&Ht&H) He Hs.
  pose proof (chain_end_ge _ _ _ _ H). split; [done|]. split; [done|]. split; [|by apply IH].
  apply (tile_extends b); [done|intros i Hi; apply He; lia|]. destruct ts as [|t' ts]; [done|].
  destruct H as (Hp'&_&Ht'&H'). apply chain_end_ge in H'. cbn [chain_end] in He.
  destruct (He (t_end t)) as [|[_ E2]]; [destruct Ht, Ht'; unfold t_end in *; lia|by left|right]. by rewrite E2.
Qed.

(** ** Walking a chain *)

Definition entry_of (s : Z) (t : tile) : indexEntry := MkEntry s (t_base t) (t_count t) (t_pos t) (t_len t).

Lemma entry_of_header b s t h :
  tile_ok b t → baseOffset h = t_base t → recordCount h = t_count t → entry_at s h (t_pos t) (t_end t) = entry_of s t.
Proof.
  intros [] Hb Hc. unfold entry_at, entry_of, t_end. rewrite i32_id by lia. f_equal; [done|done|]. lia.
Qed.

Lemma next_offset_tile b t h :
  tile_ok b t → baseOffset h = t_base t → recordCount h = t_count t → next_offset (baseOffset h) (recordCount h) = t_next t.
Proof.
  intros [] -> ->. unfold next_offset, t_next in *. apply i64_id. unfold in_i64, max_int64, two63 in *. lia.
Qed.

Lemma ie_next_tile b s t : tile_ok b t → ie_next (entry_of s t) = t_next t.
Proof. intros []. unfold ie_next, t_next in *. cbn. apply i64_id. unfold in_i64, max_int64, two63 in *. lia. Qed.

Lemma covers_tile b s t o : tile_ok b t → covers (entry_of s t) o = true ↔ holds t o.
Proof. intros H. unfold covers, holds. rewrite (ie_next_tile b) by done. cbn [ie_base entry_of]. lia. Qed.

Lemma decodeHeader_not_eof s : decodeHeader s ≠ Err ErrUnexpectedEOF.
Proof. unfold decodeHeader. repeat case_match; done. Qed.

Lemma barren_no_header b stop i h e : 0 <= i → barren b stop i → frameHeaderAt b i ≠ Ok (h, e).
Proof.
  intros Hi Hb Hh. pose proof (header_magic _ _ _ _ Hi Hh). apply frameHeaderAt_ok in Hh as (Hd&Hl&_); [|done].
  destruct Hb as [?|[_ Hf]]; [unfold headerSize in *; lia|done|]. by rewrite Hd in Hf.
Qed.

Lemma barren_error b stop i :
  0 <= i → barren b stop i → i + headerSize <= blen b → ∃ e, frameHeaderAt b i = Err e ∧ e ≠ ErrUnexpectedEOF.
Proof.
  intros Hi Hb Hl. destruct (frameHeaderAt b i) as [[h x]|e] eqn:E; [by apply (barren_no_header b stop i h x) in Hb|].
  exists e. split; [done|]. intros ->. unfold frameHeaderAt, readHeaderAt in E.
  rewrite (proj2 (Z.ltb_ge _ _)) in E by (rewrite blen_ReadAt by done; unfold headerSize in *; lia).
  destruct (decodeHeader (ReadAt b i headerSize)) as [h|e] eqn:Ed; cbn [rbind] in E; [done|].
  simplify_eq. by apply decodeHeader_not_eof in Ed.
Qed.

(** A position on the chain: between two tiles, or inside a stretch without
    headers. *)
Definition on_chain (b : octets) (p : Z) (ts : list tile) (q : Z) : Prop :=
  ∃ p0 n, chain b p0 n ts ∧ chain_end p0 ts = q
    ∧ (p = p0 ∨ ∃ d ts', ts = d :: ts' ∧ live d = false ∧ p0 <= p < t_end d).

Lemma chain_seek b p0 n ts r :
  chain b p0 n ts → p0 <= r → (∀ t, t ∈ ts → live t = true → r <= t_pos t) → Exists (λ t, live t = true) ts →
  ∃ ts', on_chain b r ts' (chain_end p0 ts) ∧ filter (λ t, live t = true) ts' = filter (λ t, live t = true) ts.
Proof.
  revert p0 n. induction ts as [|d ts IH]; intros p0 n; [by intros _ _ _ ?%Exists_nil|].
  intros Hc Hr Hl He. pose proof Hc as (Hp&Hn&Ht&Hc'). destruct (live d) eqn:Ed.
  - exists (d :: ts). split; [|done]. exists p0, n. split; [done|split; [done|left]].
    specialize (Hl d ltac:(by left) Ed). lia.
  - destruct (decide (r < t_end d)).
    + exists (d :: ts). split; [|done]. exists p0, n. split; [done|split; [done|right]]. exists d, ts. naive_solver.
    + destruct (IH (t_end d) (t_next d)) as (ts'&H1&H2); [done|lia|set_solver| |].
      { apply Exists_cons in He as [?|?]; [congruence|done]. }
      exists ts'. split; [done|]. rewrite H2, filter_cons, decide_False by congruence. done.
Qed.

Lemma live_elem (ts ts' : list tile) t :
  filter (λ t, live t = true) ts' = filter (λ t, live t = true) ts → live t = true → t ∈ ts → t ∈ ts'.
Proof.
  intros H Hl Ht. assert (t ∈ filter (λ t, live t = true) ts) as Hf by (by apply list_elem_of_filter).
  rewrite <-H in Hf. by apply list_elem_of_filter in Hf as [_ ?].
Qed.

(** What the walk does inside a stretch without headers: it resumes further
    on, with the same frames ahead. *)
Lemma walk_skips b p p0 n d ts size t :
  chain b p0 n (d :: ts) → live d = false → p0 <= p < t_end d → 0 <= p0 →
  t ∈ d :: ts → live t = true → t_end t <= size →
  (∃ e, frameHeaderAt b p = Err e ∧ e ≠ ErrUnexpectedEOF)
  ∧ p < nextMagicInSegment b (p + 1) size < size
  ∧ ∃ ts', on_chain b (nextMagicInSegment b (p + 1) size) ts' (chain_end p0 (d :: ts))
      ∧ filter (λ t, live t = true) ts' = filter (λ t, live t = true) (d :: ts).
Proof.
  intros Hc Hd Hp Hp0 Ht Hl Hs. pose proof (chain_elem _ _ _ _ _ Hc Ht) as (Hto&_&_&_&_).
  pose proof (frame_range _ _ Hto Hl) as [Hte Htp]. pose proof Hc as (Hdp&_&Hdo&Hc').
  assert (t ∈ ts) as Ht'. { apply elem_of_cons in Ht as [->|]; [congruence|done]. }
  assert (∀ t', t' ∈ ts → t_end d <= t_pos t') as Hafter by (intros t' Hin; by apply (chain_elem _ _ _ _ _ Hc') in Hin as (_&?&_)).
  pose proof (Hafter t Ht'). destruct (nextMagic_spec b (p + 1) size) as (N1&N2&N3); [unfold headerSize in *; lia|].
  assert (∀ t', t' ∈ ts → live t' = true → nextMagicInSegment b (p + 1) size <= t_pos t' ∨ size <= t_pos t' + 1) as Hup.
  { intros t' Hin Hl'. pose proof (Hafter t' Hin). destruct (chain_elem _ _ _ _ _ Hc' Hin) as (Hto'&_).
    destruct (decide (size <= t_pos t' + 1)); [by right|left].
    destruct (decide (nextMagicInSegment b (p + 1) size <= t_pos t')); [done|]. exfalso.
    apply (N3 (t_pos t')); [lia|lia|]. destruct (tile_header _ _ Hto' Hl') as (h&Hh&_). eapply header_magic, Hh. lia. }
  assert (nextMagicInSegment b (p + 1) size <= t_pos t) as Hr.
  { destruct (Hup t Ht' Hl); [done|]. unfold headerSize in *. lia. }
  split_and!.
  - apply (barren_error b (t_end d)); [lia| |unfold headerSize in *; lia].
    destruct Hdo as [_ _ _ _ _ Hk]. unfold kind_ok, live in *. destruct (t_kind d); try done. apply Hk. lia.
  - lia.
  - unfold headerSize in *. lia.
  - apply (chain_seek b p0 n (d :: ts)); [done|lia| |].
    + intros t' [->|Hin]%elem_of_cons Hl'; [congruence|]. destruct (Hup t' Hin Hl'); [done|].
      (* a frame that starts past the bound comes after the one in sight *)
      destruct (chain_elem _ _ _ _ _ Hc' Hin) as (Hto'&_). pose proof (frame_range _ _ Hto' Hl'). unfold headerSize in *. lia.
    + apply Exists_exists. exists t. naive_solver.
Qed.

(** The search for an offset finds the frame that holds it. *)
Lemma scan_finds fuel b s size p ts q t o :
  on_chain b p ts q → 0 <= p → t ∈ ts → live t = true → holds t o →
  (∀ t', t' ∈ ts → live t' = true → t_end t' <= size) → size - p <= Z.of_nat fuel →
  scan_anchor fuel b s size p o = Some (entry_of s t).
Proof.
  revert p ts. induction fuel as [|fuel IH]; intros p ts (p0&n&Hc&Hq&Hp) Hp0 Ht Hl Ho Hs Hf.
  all: destruct (chain_elem _ _ _ _ _ Hc Ht) as (Hto&Hpt&_).
  all: pose proof (frame_range _ _ Hto Hl) as [Hte Htp]; pose proof (Hs t Ht Hl).
  all: assert (p < t_end t ∧ p0 <= p) as [Hlt Hge].
  1, 3: destruct Hp as [->|(d&ts'&->&Hd&Hr)]; [unfold headerSize in *; lia|];
        apply elem_of_cons in Ht as [->|Ht]; [congruence|]; destruct Hc as (_&_&_&Hc);
        apply (chain_elem _ _ _ _ _ Hc) in Ht as (_&?&_); unfold headerSize in *; lia.
  { lia. }
  cbn [scan_anchor]. rewrite (proj2 (Z.ltb_lt _ _)) by lia.
  destruct ts as [|t0 ts]; [by apply elem_of_nil in Ht|].
  assert (0 <= p0) as Hp00. { destruct Hc as (<-&_&[]&_). done. }
  destruct (live t0) eqn:E0.
  - assert (p = p0) as -> by (destruct Hp as [|(d&ts'&[= <- <-]&?&_)]; [done|congruence]).
    pose proof Hc as Hc0. destruct Hc as (Hpos&Hn&Hto0&Hc). destruct (tile_header _ _ Hto0 E0) as (h&Hh&Hb&Hcn). rewrite Hpos in Hh. rewrite Hh.
    rewrite (proj2 (Z.ltb_ge _ _)) by (apply Hs; [by left|done]).
    rewrite (next_offset_tile b t0) by done. rewrite Hb.
    destruct ((t_base t0 <=? o) && (o <? t_next t0)) eqn:Ec.
    + rewrite <-Hpos, (entry_of_header b s t0) by done. do 2 f_equal.
      eapply (chain_disjoint b p0 n (t0 :: ts)); [exact Hc0|by left|done| |done]. unfold holds. lia.
    + apply elem_of_cons in Ht as [->|Ht]; [unfold holds in Ho; lia|].
      destruct (chain_elem _ _ _ _ _ Hc Ht) as (_&_&_&?&_). unfold holds in Ho. destruct Hto0.
      rewrite (proj2 (Z.ltb_ge _ _)) by (unfold t_next in *; lia).
      apply (IH _ ts); try done; [|unfold t_end in *; lia|set_solver|unfold t_end in *; lia].
      exists (t_end t0), (t_next t0). naive_solver.
  - assert (p0 <= p < t_end t0) as Hpr.
    { destruct Hp as [->|(d&ts'&[= <- <-]&?&?)]; [|done]. destruct Hc as (<-&_&[]&_). unfold t_end. lia. }
    destruct (walk_skips b p p0 n t0 ts size t) as ((e&He&Hne)&Hr&ts'&Hoc&Hfl); try done.
    rewrite He. assert (scan_anchor fuel b s size (nextMagicInSegment b (p + 1) size) o = Some (entry_of s t)) as Hgo.
    { apply (IH _ ts'); try done; [by rewrite <-Hq|lia|by apply (live_elem (t0 :: ts))| |lia].
      intros t' Ht' Hl'. apply Hs; [|done]. by eapply live_elem. }
    by destruct e.
Qed.

End Tiles.

(** ** Scans, recovery walks and sparse indexes

    What the loops of [PartLog] and [PartFlush] compute on a chain of tiles:
    the index scan collects the frames, the recovery walk the frames that
    check out, the discard's search stops at the first frame above an
    offset; and what the sparse index keeps of them is enough to start the
    search for any of them. *)

(** ** Binary search *)

Lemma search_loop_spec fuel p i j :
  (j - i <= fuel)%nat → (i <= j)%nat →
  (∀ a c, (a <= c < j)%nat → p a = true → p c = true) →
  (∀ a, (a < i)%nat → p a = false) →
  (i <= search_loop fuel p i j <= j)%nat
  ∧ (∀ a, (a < search_loop fuel p i j)%nat → p a = false)
  ∧ ∀ a, (search_loop fuel p i j <= a < j)%nat → p a = true.
Proof.
  revert i j. induction fuel as [|fuel IH]; intros i j Hf Hij Hm Hlo; cbn [search_loop].
  { split; [lia|split; [done|intros; lia]]. }
  case_decide as Hlt; [|split; [lia|split; [done|intros; lia]]].
  assert (i <= (i + j) / 2 < j)%nat as Hh.
  { pose proof (Nat.div_mod_eq (i + j) 2). pose proof (Nat.mod_upper_bound (i + j) 2). lia. }
  set (h := ((i + j) / 2)%nat) in *. clearbody h. destruct (p h) eqn:Ep.
  - destruct (IH i h) as (I1&I2&I3); [lia|lia|intros; eapply Hm; [|done]; lia|done|].
    split; [lia|split; [done|]]. intros a Ha. destruct (decide (a < h)%nat); [apply I3; lia|].
    eapply Hm; [|exact Ep]. lia.
  - destruct (IH (S h) j) as (I1&I2&I3); [lia|lia|done| |split; [lia|done]].
    intros a Ha. destruct (p a) eqn:Ea; [|done]. rewrite (Hm a h) in Ep; [done|lia|done].
Qed.

Lemma sort_Search_spec n p :
  (∀ a c, (a <= c < n)%nat → p a = true → p c = true) →
  (sort_Search n p <= n)%nat ∧ (∀ a, (a < sort_Search n p)%nat → p a = false)
  ∧ ∀ a, (sort_Search n p <= a < n)%nat → p a = true.
Proof. intros Hm. destruct (search_loop_spec n p 0 n) as (?&?&?); [lia|lia|done|intros; lia|]. unfold sort_Search. split; [lia|done]. Qed.

(** ** Sorted lists *)

Lemma sorted_lookup {A} (R : A → A → Prop) l i j a c :
  StronglySorted R l → (i < j)%nat → l !! i = Some a → l !! j = Some c → R a c.
Proof.
  intros Hs. revert i j. induction Hs as [|x l _ IH Hx]; intros i j Hij Ha Hc; [done|].
  destruct i as [|i], j as [|j]; try lia; simplify_eq/=; [|by eapply (IH i j); [lia|..]].
  rewrite Forall_forall in Hx. apply Hx. by eapply list_elem_of_lookup_2.
Qed.

Lemma sorted_sublist {A} (R : A → A → Prop) l k : l `sublist_of` k → StronglySorted R k → StronglySorted R l.
Proof.
  induction 1 as [|x l k Hs IH|x l k Hs IH]; [done| |]; intros [Hk Hx]%StronglySorted_inv; [|by apply IH].
  constructor; [by apply IH|]. rewrite Forall_forall in *. intros y Hy. apply Hx. by eapply elem_of_sublist.
Qed.

(** Entries in the order of the file. *)
Definition before (a b : indexEntry) : Prop := ie_pos a < ie_pos b ∧ ie_base a <= ie_base b.

Lemma anchor_spec entries offset :
  StronglySorted before entries →
  match indexAnchorForOffset entries offset with
  | Some a => a ∈ entries ∧ ie_base a <= offset ∧ ∀ e, e ∈ entries → ie_base e <= offset → ie_base e <= ie_base a
  | None => ∀ e, e ∈ entries → offset < ie_base e
  end.
Proof.
  intros Hs. unfold indexAnchorForOffset. set (p := λ i, match entries !! i with Some e => offset <? ie_base e | None => true end).
  assert (∀ i j a c, (i < j)%nat → entries !! i = Some a → entries !! j = Some c → before a c) as Hord.
  { intros i j a c Hij Ha Hc. by eapply sorted_lookup. }
  destruct (sort_Search_spec (length entries) p) as (H1&H2&H3).
  { intros i j Hij. unfold p. destruct (entries !! i) as [a|] eqn:Ea; [|apply lookup_ge_None_1 in Ea; lia].
    destruct (entries !! j) as [c|] eqn:Ec; [|done]. destruct (decide (i = j)) as [->|]; [by simplify_eq|].
    destruct (Hord i j a c) as [_ ?]; [lia|done|done|]. lia. }
  destruct (sort_Search (length entries) p) as [|k] eqn:Ek.
  - intros e (i&Hi)%list_elem_of_lookup_1. specialize (H3 i ltac:(apply lookup_lt_Some in Hi; lia)). unfold p in H3.
    rewrite Hi in H3. lia.
  - destruct (entries !! k) as [a|] eqn:Ea; [|apply lookup_ge_None_1 in Ea; lia].
    specialize (H2 k ltac:(lia)) as Hk. unfold p in Hk. rewrite Ea in Hk.
    split; [by eapply list_elem_of_lookup_2|]. split; [lia|]. intros e (i&Hi)%list_elem_of_lookup_1 Hle.
    destruct (decide (i <= k)%nat).
    + destruct (decide (i = k)) as [->|]; [simplify_eq; lia|]. destruct (Hord i k e a); [lia|done|done|]. lia.
    + specialize (H3 i ltac:(apply lookup_lt_Some in Hi; lia)). unfold p in H3. rewrite Hi in H3. lia.
Qed.

(** ** Sparse indexes *)

Lemma sparse_subset o acc es e : e ∈ foldl (appendSparseIndexEntry o) acc es → e ∈ acc ∨ e ∈ es.
Proof.
  revert acc. induction es as [|x es IH]; intros acc; cbn [foldl]; [by left|]. intros He. apply IH in He.
  unfold appendSparseIndexEntry in He. destruct (shouldKeepIndexAnchor o acc x); set_solver.
Qed.

Lemma sparse_sorted o acc es :
  StronglySorted before (acc ++ es) → StronglySorted before (foldl (appendSparseIndexEntry o) acc es).
Proof.
  revert acc. induction es as [|x es IH]; intros acc; cbn [foldl]; [by rewrite app_nil_r|]. intros Hs. apply IH.
  unfold appendSparseIndexEntry. destruct (shouldKeepIndexAnchor o acc x); [by rewrite <-app_assoc|].
  eapply sorted_sublist; [|exact Hs]. apply sublist_app; [done|]. by apply sublist_cons.
Qed.

Lemma sparse_head o acc es : head (foldl (appendSparseIndexEntry o) acc es) = head (acc ++ es).
Proof.
  revert acc. induction es as [|x es IH]; intros acc; cbn [foldl]; [by rewrite app_nil_r|]. rewrite IH.
  unfold appendSparseIndexEntry. destruct (shouldKeepIndexAnchor o acc x) eqn:E; [by rewrite <-app_assoc|].
  destruct acc as [|a acc]; [|done]. by unfold shouldKeepIndexAnchor in E.
Qed.

Definition good (t : tile) : bool := match t_kind t with Good _ => true | _ => false end.

(** The entries point at frames, in order, and every good frame has one at
    or below it. *)
Record idx_ok (s : Z) (ts : list tile) (entries : list indexEntry) : Prop := {
  io_tiles : ∀ e, e ∈ entries → ∃ t, t ∈ ts ∧ e = entry_of s t;
  io_sorted : StronglySorted before entries;
  io_first : ∀ t, t ∈ ts → good t = true → ∃ e, e ∈ entries ∧ ie_base e <= t_base t;
}.

Lemma sorted_head_le es a e : StronglySorted before es → head es = Some a → e ∈ es → ie_base a <= ie_base e.
Proof.
  intros Hs Ha He. destruct es as [|x es]; [done|]. simplify_eq/=. apply elem_of_cons in He as [->|He]; [lia|].
  apply StronglySorted_inv in Hs as [_ Hs]. rewrite Forall_forall in Hs. by apply Hs in He as [_ ?].
Qed.

(** Thinning out keeps the property. *)
Lemma idx_ok_sparse o s ts es : idx_ok s ts es → idx_ok s ts (sparseIndexEntries o es).
Proof.
  intros [H1 H2 H3]. unfold sparseIndexEntries. constructor.
  - intros e He. apply sparse_subset in He as [He%elem_of_nil|He]; [done|]. by apply H1.
  - by apply sparse_sorted.
  - intros t Ht Hg. destruct (H3 t Ht Hg) as (e&He&Hle). pose proof (sparse_head o [] es) as Hh. cbn [app] in Hh.
    destruct es as [|a es]; [by apply elem_of_nil in He|]. cbn [head] in Hh.
    exists a. split; [|pose proof (sorted_head_le _ a e H2 eq_refl He); lia].
    destruct (foldl _ _ _) as [|y l] eqn:E; [done|]. simplify_eq/=. left.
Qed.

Section Walk.
Context (cs : codecs).
Abbreviation chain := (chain cs).
Abbreviation tile_ok := (tile_ok cs).
Abbreviation on_chain := (on_chain cs).

Lemma chain_sorted b s p n ts : chain b p n ts → StronglySorted before (entry_of s <$> ts).
Proof.
  revert p n. induction ts as [|t ts IH]; intros p n; cbn [fmap list_fmap]; [constructor|].
  intros (Hp&Hn&Ht&Hc). constructor; [by eapply IH|]. apply Forall_fmap, Forall_forall. intros t' Ht'.
  apply (chain_elem cs _ _ _ _ _ Hc) in Ht' as (_&?&_&?&_). destruct Ht. unfold before, entry_of, t_end, t_next in *. cbn. lia.
Qed.

Lemma fmap_filter_sorted s (P : tile → Prop) `{!∀ t, Decision (P t)} ts :
  StronglySorted before (entry_of s <$> ts) → StronglySorted before (entry_of s <$> filter P ts).
Proof.
  intros Hs. eapply sorted_sublist; [|exact Hs]. clear Hs. induction ts as [|t ts IH]; [done|].
  rewrite filter_cons. case_decide; [by apply sublist_skip|by apply sublist_cons].
Qed.

(** An index of the frames of a chain, or of the good ones. *)
Lemma idx_ok_filter b s p n ts (P : tile → Prop) `{!∀ t, Decision (P t)} :
  chain b p n ts → (∀ t, good t = true → P t) → idx_ok s ts (entry_of s <$> filter P ts).
Proof.
  intros Hc HP. constructor.
  - intros e (t&->&Ht)%list_elem_of_fmap. apply list_elem_of_filter in Ht as [_ Ht]. eauto.
  - by eapply fmap_filter_sorted, chain_sorted.
  - intros t Ht Hg. exists (entry_of s t). split; [|cbn; lia]. apply list_elem_of_fmap_2, list_elem_of_filter. auto.
Qed.

(** ** The index scan *)

(** No complete frame starts at or after a position. *)
Definition desert (b : octets) (size p : Z) : Prop :=
  ∀ i h e, p <= i < size → frameHeaderAt b i = Ok (h, e) → size < e.

Lemma desert_mono b size p p' : desert b size p → p <= p' → desert b size p'.
Proof. intros H Hp i h e Hi. apply H. lia. Qed.

Lemma scan_index_desert fuel o b s size p entries :
  desert b size p → 0 <= p → scan_index fuel o b s size p entries = entries.
Proof.
  revert p. induction fuel as [|fuel IH]; intros p Hd Hp; cbn [scan_index]; [done|].
  destruct (p <? size) eqn:E; [|done]. destruct (frameHeaderAt b p) as [[h e]|e] eqn:Eh.
  - by rewrite (proj2 (Z.ltb_lt _ _)) by (apply (Hd p h e); [lia|done]).
  - destruct (nextMagic_spec b (p + 1) size) as (?&_); [lia|].
    destruct e; try done; apply IH; try lia; (eapply desert_mono; [done|lia]).
Qed.

(** Where nothing can be read the search answers nothing. *)
Lemma scan_anchor_desert fuel b s size p o :
  desert b size p → 0 <= p → size = blen b ∨ (∀ i h e, p <= i < size → frameHeaderAt b i ≠ Ok (h, e)) →
  scan_anchor fuel b s size p o = None.
Proof.
  revert p. induction fuel as [|fuel IH]; intros p Hd Hp Hb; cbn [scan_anchor]; [done|].
  destruct (p <? size) eqn:E; [|done].
  assert (∀ r, p <= r → scan_anchor fuel b s size r o = None) as Hgo.
  { intros r Hr. apply IH; [by eapply desert_mono|lia|]. destruct Hb as [|Hb]; [by left|right]. intros. apply Hb. lia. }
  destruct (frameHeaderAt b p) as [[h e]|e] eqn:Eh.
  - destruct Hb as [->|Hb]; [|by apply Hb in Eh; [|lia]].
    rewrite (proj2 (Z.ltb_lt _ _)) by (apply (Hd p h e); [lia|done]).
    destruct (nextValid_spec b (p + 1) (blen b)) as (N1&N2&_); [lia|].
    destruct (nextValidFramePos b (p + 1) (blen b) <? blen b) eqn:En; [|done]. apply Hgo. lia.
  - destruct (nextMagic_spec b (p + 1) size) as (?&_); [lia|]. destruct e; try done; apply Hgo; lia.
Qed.

Lemma no_live_header b p0 n ts i h e :
  chain b p0 n ts → (∀ t, t ∈ ts → live t = false) → 0 <= p0 <= i → i < chain_end p0 ts → frameHeaderAt b i ≠ Ok (h, e).
Proof.
  revert p0 n. induction ts as [|d ts IH]; intros p0 n; cbn [chain_end]; [lia|].
  intros (Hp&_&Ht&Hc) Hl Hi Hlt. destruct (decide (i < t_end d)).
  - destruct Ht as [? _ _ _ _ Hk]. specialize (Hl d ltac:(by left)). unfold kind_ok, live in *.
    destruct (t_kind d); try done. apply (barren_no_header b (t_end d)); [lia|]. apply Hk. lia.
  - eapply IH; [done|set_solver| |done]. destruct Ht. unfold t_end in *. lia.
Qed.

Lemma no_live_desert b p0 n ts p size :
  chain b p0 n ts → 0 <= p0 <= p → (∀ t, t ∈ ts → live t = false) → desert b size (chain_end p0 ts) → desert b size p.
Proof.
  intros Hc Hp Hl Hd i h e Hi Hh. destruct (decide (i < chain_end p0 ts)); [|apply (Hd i h e); [lia|done]].
  exfalso. eapply (no_live_header b p0 n ts i h e); [done|done|lia|done|done].
Qed.

Lemma scan_index_no_live fuel o b s size p ts q entries :
  on_chain b p ts q → 0 <= p → (∀ t, t ∈ ts → live t = false) → desert b size q →
  scan_index fuel o b s size p entries =
    foldl (appendSparseIndexEntry o) entries (entry_of s <$> filter (λ t, live t = true) ts).
Proof.
  intros (p0&n&Hc&<-&Hpos) Hp Hno Hd.
  assert (filter (λ t, live t = true) ts = []) as ->.
  { apply elem_of_nil_inv. intros t [Hl Ht]%list_elem_of_filter. by rewrite Hno in Hl. }
  apply scan_index_desert; [|done]. destruct ts as [|d ts].
  - destruct Hpos as [->|(?&?&?&_)]; done.
  - eapply no_live_desert; [done| |done|done]. destruct Hc as (<-&_&[]&_). destruct Hpos as [->|(?&?&_&_&?)]; lia.
Qed.

Lemma live_ahead b p ts q t size :
  on_chain b p ts q → t ∈ ts → live t = true → t_end t <= size → p < size.
Proof.
  intros (p0&n&Hc&_&Hpos) Ht Hl Hs. destruct (chain_elem _ _ _ _ _ _ Hc Ht) as (Hto&Hpt&_).
  pose proof (frame_range _ _ _ Hto Hl) as [Hte Htp]. unfold headerSize in *.
  destruct Hpos as [->|(d&ts'&->&Hdd&Hr)]; [lia|]. apply elem_of_cons in Ht as [->|Ht]; [congruence|].
  destruct Hc as (_&_&_&Hc'). apply (chain_elem _ _ _ _ _ _ Hc') in Ht as (_&?&_). lia.
Qed.

(** [scanSegmentIndex] collects the frames of the chain. *)
Lemma scan_index_chain fuel o b s size p ts q entries :
  on_chain b p ts q → 0 <= p → (∀ t, t ∈ ts → live t = true → t_end t <= size) → desert b size q →
  size - p <= Z.of_nat fuel →
  scan_index fuel o b s size p entries =
    foldl (appendSparseIndexEntry o) entries (entry_of s <$> filter (λ t, live t = true) ts).
Proof.
  revert p ts entries. induction fuel as [|fuel IH]; intros p ts entries Hoc Hp Hs Hd Hf;
    (destruct (decide (Exists (λ t, live t = true) ts)) as [He|He];
     [|eapply scan_index_no_live; [done|done| |done]; intros t Ht; destruct (live t) eqn:E; [|done];
       exfalso; apply He, Exists_exists; eauto]);
    apply Exists_exists in He as (t&Ht&Hl); pose proof (live_ahead _ _ _ _ _ _ Hoc Ht Hl (Hs t Ht Hl)) as Hlt; [lia|].
  cbn [scan_index]. rewrite (proj2 (Z.ltb_lt _ _)) by done. destruct ts as [|t0 ts]; [by apply elem_of_nil in Ht|].
  destruct Hoc as (p0&n&Hc&Hq&Hpos). assert (0 <= p0) as Hp00 by (destruct Hc as (<-&_&[]&_); done).
  destruct (live t0) eqn:E0.
  - assert (p = p0) as -> by (destruct Hpos as [|(d&ts'&[= <- <-]&?&_)]; [done|congruence]).
    destruct Hc as (Hpos0&Hn&Hto0&Hc). destruct (tile_header _ _ _ Hto0 E0) as (h&Hh&Hb&Hcn). rewrite Hpos0 in Hh. rewrite Hh.
    rewrite (proj2 (Z.ltb_ge _ _)) by (apply Hs; [by left|done]).
    rewrite <-Hpos0, (entry_of_header cs b s t0) by done.
    rewrite filter_cons, decide_True by done. cbn [fmap list_fmap foldl].
    apply IH; [|destruct Hto0; unfold t_end; lia|set_solver|done|destruct Hto0; unfold t_end in *; lia].
    exists (t_end t0), (t_next t0). naive_solver.
  - assert (p0 <= p < t_end t0) as Hpr.
    { destruct Hpos as [->|(d&ts'&[= <- <-]&?&?)]; [|done]. destruct Hc as (<-&_&[]&_). unfold t_end. lia. }
    destruct (walk_skips cs b p p0 n t0 ts size t) as ((e&He'&Hne)&Hr&ts'&Hoc&Hfl); try done; [by apply Hs|].
    rewrite He'. assert (scan_index fuel o b s size (nextMagicInSegment b (p + 1) size) entries =
      foldl (appendSparseIndexEntry o) entries (entry_of s <$> filter (λ t, live t = true) (t0 :: ts))) as Hgo.
    { rewrite <-Hfl. apply IH; [by rewrite <-Hq|lia| |done|lia].
      intros t' Ht' Hl'. apply Hs; [|done]. by eapply live_elem. }
    by destruct e.
Qed.

(** ** The recovery walk *)

(** What the walk makes of the tiles: [p] is the end of the last good frame
    so far. *)
Fixpoint walked (o : Options) (s size : Z) (ts : list tile) (p : Z) (entries : list indexEntry) (segNext next : Z)
    : list indexEntry * Z * Z * option Z :=
  match ts with
  | [] => (entries, segNext, next, if p <? size then Some p else None)
  | t :: ts =>
      if good t then walked o s size ts (t_end t) (appendSparseIndexEntry o entries (entry_of s t)) (t_next t) (Z.max next (t_next t))
      else walked o s size ts p entries segNext next
  end.

Lemma verify_good b t :
  tile_ok b t → good t = true →
  ∃ h, verifyFrameAtBuffered b (t_pos t) = Ok (h, t_end t) ∧ baseOffset h = t_base t ∧ recordCount h = t_count t.
Proof.
  intros [Hp _ _ _ _ Hk]. unfold kind_ok, good in *. destruct (t_kind t) as [recs| |]; try done. intros _.
  destruct Hk as (h&Hr&?&?). apply readFrameAt_ok in Hr as (_&Hv&_); [|done]. eauto.
Qed.

Lemma verify_not_good b t i :
  tile_ok b t → good t = false → t_pos t <= i < t_end t → is_ok (verifyFrameAtBuffered b i) = false.
Proof.
  intros [Hp _ _ _ _ Hk] Hg Hi. destruct (verifyFrameAtBuffered b i) as [[h e]|] eqn:Ev; [|done]. exfalso.
  pose proof (verify_ok b i h e ltac:(lia) Ev) as [Hh _]. unfold kind_ok, good in *. destruct (t_kind t); try done.
  - destruct Hk as (_&_&Hv&Hb). destruct (decide (i = t_pos t)) as [->|]; [by rewrite Ev in Hv|].
    eapply (barren_no_header b (t_end t) i); [lia|apply Hb; lia|done].
  - eapply (barren_no_header b (t_end t) i); [lia|apply Hk; lia|done].
Qed.

Lemma no_good_verify b p n ts i :
  chain b p n ts → (∀ t, t ∈ ts → good t = false) → p <= i < chain_end p ts → is_ok (verifyFrameAtBuffered b i) = false.
Proof.
  revert p n. induction ts as [|t ts IH]; intros p n; cbn [chain_end]; [lia|]. intros (Hp&_&Ht&Hc) Hg Hi.
  destruct (decide (i < t_end t)); [|eapply IH; [done|set_solver|lia]].
  eapply verify_not_good; [done|apply Hg; by left|lia].
Qed.

Lemma desert_verify b q i : desert b (blen b) q → 0 <= q <= i → is_ok (verifyFrameAtBuffered b i) = false.
Proof.
  intros Hd Hi. destruct (verifyFrameAtBuffered b i) as [[h e]|] eqn:Ev; [|done].
  apply verify_ok in Ev as [Hh He]; [|lia]. pose proof (frameHeaderAt_ok b i h e ltac:(lia) Hh) as (_&?&_).
  specialize (Hd i h e ltac:(unfold headerSize in *; lia) Hh). lia.
Qed.

(** Past frames that do not check out the walk finds the next one that
    does. *)
Lemma next_good b p n pre g post :
  chain b p n (pre ++ g :: post) → (∀ t, t ∈ pre → good t = false) → good g = true → pre ≠ [] → 0 <= p →
  chain_end p (pre ++ g :: post) <= blen b →
  nextValidFramePos b (p + 1) (blen b) = t_pos g.
Proof.
  intros Hc Hno Hg Hpre Hp Hl. apply chain_app in Hc as [Hcp (Hgp&_&Hgo&Hcg)].
  rewrite chain_end_app in Hl. cbn [chain_end] in Hl. pose proof (chain_end_ge _ _ _ _ _ Hcg).
  pose proof (frame_range _ _ _ Hgo) as Hr. assert (live g = true) as Hlg by (unfold live, good in *; by destruct (t_kind g)).
  destruct (Hr Hlg) as [_ Hr']. unfold headerSize in *.
  assert (p < t_pos g) as Hlt.
  { destruct pre as [|x pre]; [done|]. destruct Hcp as (Hx&_&Hxo&Hcp). apply chain_end_ge in Hcp.
    rewrite Hgp. cbn [chain_end]. destruct Hxo. unfold t_end in *. lia. }
  destruct (nextValid_spec b (p + 1) (blen b)) as (N1&N2&N3); [lia|].
  destruct (verify_good _ _ Hgo Hg) as (h&Hv&_).
  destruct (Z.lt_trichotomy (nextValidFramePos b (p + 1) (blen b)) (t_pos g)) as [H1|[H1|H1]]; [|done|].
  - specialize (N2 ltac:(lia)). rewrite (no_good_verify b p n pre) in N2; [done|done|done|lia].
  - specialize (N3 (t_pos g) ltac:(lia) ltac:(lia)). by rewrite Hv in N3.
Qed.

Lemma walked_skip o s size pre ts p entries sn nx :
  (∀ t, t ∈ pre → good t = false) → walked o s size (pre ++ ts) p entries sn nx = walked o s size ts p entries sn nx.
Proof.
  induction pre as [|t pre IH]; intros H; cbn [walked app]; [done|]. rewrite H by by left. apply IH. set_solver.
Qed.

(** Nothing that checks out is left. *)
Lemma no_next_good b p n ts :
  chain b p n ts → (∀ t, t ∈ ts → good t = false) → 0 <= p < blen b → desert b (blen b) (chain_end p ts) →
  is_ok (verifyFrameAtBuffered b p) = false ∧ nextValidFramePos b (p + 1) (blen b) = blen b.
Proof.
  intros Hc Hno Hp Hd. pose proof (chain_end_ge _ _ _ _ _ Hc).
  assert (∀ i, p <= i → is_ok (verifyFrameAtBuffered b i) = false) as Hnv.
  { intros i Hi. destruct (decide (i < chain_end p ts)); [by eapply no_good_verify|]. eapply desert_verify; [done|lia]. }
  split; [by apply Hnv|]. destruct (nextValid_spec b (p + 1) (blen b)) as (N1&N2&_); [lia|].
  destruct (decide (nextValidFramePos b (p + 1) (blen b) < blen b)); [|lia].
  specialize (N2 ltac:(done)). rewrite Hnv in N2 by lia. done.
Qed.

Lemma walk_active_no_good fuel o b s p n ts entries sn nx :
  chain b p n ts → (∀ t, t ∈ ts → good t = false) → 0 <= p → desert b (blen b) (chain_end p ts) →
  blen b - p <= Z.of_nat fuel →
  walk_active fuel o b s (blen b) p entries sn nx = walked o s (blen b) ts p entries sn nx.
Proof.
  intros Hc Hno Hp Hd Hf. rewrite <-(app_nil_r ts), walked_skip by done. cbn [walked].
  destruct (p <? blen b) eqn:E; destruct fuel as [|fuel]; cbn [walk_active]; try rewrite E; try done; [lia|].
  destruct (no_next_good b p n ts) as [Hv Hn]; [done|done|lia|done|].
  destruct (verifyFrameAtBuffered b p); [done|]. by rewrite Hn, Z.ltb_irrefl.
Qed.

(** [walkActiveSegment]'s loop indexes the frames that check out and cuts
    behind the last of them. *)
Lemma walk_active_chain k fuel o b s p n ts entries sn nx :
  (length ts <= k)%nat →
  chain b p n ts → 0 <= p → chain_end p ts <= blen b → desert b (blen b) (chain_end p ts) → blen b - p <= Z.of_nat fuel →
  walk_active fuel o b s (blen b) p entries sn nx = walked o s (blen b) ts p entries sn nx.
Proof.
  revert fuel p n ts entries sn nx. induction k as [|k IH]; intros fuel p n ts entries sn nx Hk Hc Hp Hl Hd Hf.
  all: destruct (decide (Exists (λ t, good t = true) ts)) as [He|He];
    [|eapply walk_active_no_good; [done| |done..]; intros t Ht; destruct (good t) eqn:E; [|done];
      exfalso; apply He, Exists_exists; eauto].
  { apply Exists_exists in He as (t&Ht&_). destruct ts; [by apply elem_of_nil in Ht|cbn [length] in Hk; lia]. }
  assert (∃ pre g post, ts = pre ++ g :: post ∧ (∀ t, t ∈ pre → good t = false) ∧ good g = true) as (pre&g&post&->&Hno&Hg).
  { clear -He. induction He as [t ts Ht|t ts He (pre&g&post&->&Hno&Hg)].
    - exists [], t, ts. split; [done|split; [by intros ? ?%elem_of_nil|done]].
    - destruct (good t) eqn:E; [exists [], t, (pre ++ g :: post)|exists (t :: pre), g, post];
        (split; [done|split; [|done]]); [by intros ? ?%elem_of_nil|]. intros x [->|Hx]%elem_of_cons; auto. }
  rewrite walked_skip by done. cbn [walked]. rewrite Hg.
  pose proof Hc as [Hcp (Hgp&Hgn&Hgo&Hcg)]%chain_app. destruct (verify_good _ _ Hgo Hg) as (h&Hv&Hb&Hcn).
  assert (good g = true → live g = true) as Hlg by (unfold live, good; by destruct (t_kind g)).
  destruct (frame_range _ _ _ Hgo (Hlg Hg)) as [Hr1 Hr2]. pose proof (chain_end_ge _ _ _ _ _ Hcp) as Hge. unfold headerSize in *.
  assert (∀ fuel', blen b - t_pos g <= Z.of_nat fuel' →
    walk_active fuel' o b s (blen b) (t_pos g) entries sn nx =
      walked o s (blen b) post (t_end g) (appendSparseIndexEntry o entries (entry_of s g)) (t_next g) (Z.max nx (t_next g))) as Hstep.
  { intros fuel' Hf'. destruct fuel' as [|fuel']; [lia|]. cbn [walk_active]. rewrite (proj2 (Z.ltb_lt _ _)) by lia.
    rewrite Hv, (next_offset_tile cs b g), (entry_of_header cs b s g) by done.
    rewrite chain_end_app in Hl, Hd. cbn [chain_end] in Hl, Hd. rewrite length_app in Hk. cbn [length] in Hk.
    eapply IH; [lia|done|lia|done|done|lia]. }
  destruct pre as [|x pre].
  { cbn [chain_end] in Hgp. rewrite <-Hgp. apply Hstep. lia. }
  destruct fuel as [|fuel]; [lia|]. cbn [walk_active].
  assert (p < t_pos g) as Hlt.
  { destruct Hcp as (Hx&_&Hxo&Hcp). apply chain_end_ge in Hcp. rewrite Hgp. cbn [chain_end]. destruct Hxo. unfold t_end in *. lia. }
  rewrite (proj2 (Z.ltb_lt _ _)) by lia.
  assert (is_ok (verifyFrameAtBuffered b p) = false) as Hnv.
  { eapply (no_good_verify b p n (x :: pre)); [done|done|lia]. }
  destruct (verifyFrameAtBuffered b p); [done|].
  rewrite (next_good b p n (x :: pre) g post) by done. rewrite (proj2 (Z.ltb_lt _ _)) by lia. apply Hstep. lia.
Qed.

(** ** The boundary of a discard *)

(** The search stops in front of a frame at or above the offset, or where no
    good frame follows, or finds nothing to cut. *)
Lemma boundary_chain fuel b size next p n ts offset :
  chain b p n ts → 0 <= p → chain_end p ts = size → size - p <= Z.of_nat fuel →
  let '(bd, pos) := boundary_loop fuel b size next p offset in
  pos = size ∧ bd = next
  ∨ ∃ ts1 ts2, ts = ts1 ++ ts2 ∧ ts2 ≠ [] ∧ chain_end p ts1 = pos
      ∧ (∀ t, t ∈ ts2 → good t = true → offset <= t_base t)
      ∧ (∀ t, t ∈ ts1 → live t = true → t_base t < offset)
      ∧ (bd = next ∨ ∃ t ts2', ts2 = t :: ts2' ∧ bd = t_base t ∧ offset <= bd).
Proof.
  revert p n ts. induction fuel as [|fuel IH]; intros p n ts Hc Hp Hq Hf; cbn [boundary_loop]; [by left|].
  destruct (p <? size) eqn:E; [|by left]. destruct ts as [|t ts]; [cbn [chain_end] in Hq; lia|].
  pose proof Hc as (Hpos&Hn&Hto&Hc'). destruct (live t) eqn:El.
  - destruct (tile_header _ _ _ Hto El) as (h&Hh&Hb&_). rewrite Hpos in Hh. rewrite Hh.
    pose proof (chain_end_ge _ _ _ _ _ Hc'). cbn [chain_end] in Hq.
    rewrite (proj2 (Z.ltb_ge _ _)) by lia. rewrite Hb.
    destruct (offset <=? t_base t) eqn:Eo.
    + right. exists [], (t :: ts). cbn [app chain_end]. split; [done|]. split; [done|]. split; [done|]. split.
      * intros t' Ht' _. destruct (chain_elem _ _ _ _ _ _ Hc Ht') as (_&_&_&_).
        apply elem_of_cons in Ht' as [->|Ht']; [lia|]. apply (chain_elem _ _ _ _ _ _ Hc') in Ht' as (_&_&_&?&_).
        destruct Hto. unfold t_next in *. lia.
      * split; [by intros ? ?%elem_of_nil|]. right. exists t, ts. split; [done|]. split; [done|lia].
    + specialize (IH (t_end t) (t_next t) ts Hc'). destruct Hto as [? ? ? ? ? _]. unfold t_end in *.
      specialize (IH ltac:(lia) Hq ltac:(lia)). destruct (boundary_loop fuel b size next (t_pos t + t_len t) offset) as [bd pos].
      destruct IH as [IH|(ts1&ts2&->&Hne&He&Hg&Hb1&Hbd)]; [by left|]. right. exists (t :: ts1), ts2.
      do 4 (split; [done|]). split; [|done]. intros t' [->|Ht']%elem_of_cons Hl'; [lia|by apply Hb1].
  - destruct (frameHeaderAt b p) as [[h e]|e] eqn:Eh.
    { exfalso. destruct Hto as [? ? ? ? ? Hk]. unfold kind_ok, live in *. destruct (t_kind t); try done.
      eapply (barren_no_header b (t_end t) p h e); [done|apply Hk; unfold t_end; lia|done]. }
    destruct e; try (by left). right. exists [], (t :: ts). cbn [app chain_end].
    split; [done|]. split; [done|]. split; [done|]. split; [|split; [by intros ? ?%elem_of_nil|by left]].
    intros t' Ht' Hg'. destruct (chain_elem _ _ _ _ _ _ Hc Ht') as (Hto'&?&_).
    assert (live t' = true) as Hl' by (unfold live, good in *; by destruct (t_kind t')).
    destruct (frame_range _ _ _ Hto' Hl') as [? ?].
    unfold frameHeaderAt, readHeaderAt in Eh.
    rewrite (proj2 (Z.ltb_ge _ _)) in Eh by (rewrite blen_ReadAt by done; unfold headerSize in *; lia).
    destruct (decodeHeader (ReadAt b p headerSize)) as [hh|ee] eqn:Ed; cbn [rbind] in Eh; [done|].
    simplify_eq. by apply decodeHeader_not_eof in Ed.
Qed.

End Walk.
