(* ===== verification/PartLookup.v ===== *)
(** * Finding a record

    The lookup structures of a log (sparse indexes, position cache, frame
    cache) describe the tiles of its segment files; as long as they do, the
    lookup of an offset answers with the tile that holds it, and finds it
    whenever that tile is a good frame, whatever was cached or pruned
    before. *)

From S2P Require Import Prelude Octets PartFrame PartCache PartLog PartFlush PartBytes PartWalk.

#[local] Arguments Z.mul : simpl never.
#[local] Arguments Z.add : simpl never.
#[local] Arguments Z.sub : simpl never.
#[local] Arguments Z.pow : simpl never.
#[local] Arguments Z.of_nat : simpl never.
#[local] Arguments Z.to_nat : simpl never.

Abbreviation layout := (gmap Z (list tile)).

Definition tiles (T : layout) (base : Z) : list tile := default [] (T !! base).

(** ** Segments in order *)

Definition seg_before (a b : segment) : Prop := sg_base a < sg_base b ∧ sg_next a <= sg_base b.

Record segs_ok (segs : list segment) : Prop := {
  sk_sorted : StronglySorted seg_before segs;
  sk_range : ∀ s, s ∈ segs → 0 <= sg_base s <= sg_next s ∧ sg_next s <= max_int64;
}.

Lemma findSegment_spec segs s : segs_ok segs → s ∈ segs → findSegment segs (sg_base s) = Some s.
Proof.
  intros [Hs _] Hin. unfold findSegment. induction Hs as [|x segs _ IH Hx]; [by apply elem_of_nil in Hin|].
  rewrite filter_cons. apply elem_of_cons in Hin as [->|Hin]; [by rewrite decide_True|].
  rewrite Forall_forall in Hx. destruct (Hx s Hin) as [? _]. rewrite decide_False by lia. by apply IH.
Qed.

Lemma findSegmentForOffset_spec segs s o :
  segs_ok segs → s ∈ segs → sg_base s <= o < sg_next s → findSegmentForOffset segs o = Some s.
Proof.
  intros [Hs Hr] Hin Ho. unfold findSegmentForOffset.
  set (p := λ i, match segs !! i with Some s => o <? sg_next s | None => true end).
  destruct (sort_Search_spec (length segs) p) as (H1&H2&H3).
  { intros i j Hij. unfold p. destruct (segs !! i) as [a|] eqn:Ea; [|apply lookup_ge_None_1 in Ea; lia].
    destruct (segs !! j) as [c|] eqn:Ec; [|done]. destruct (decide (i = j)) as [->|]; [by simplify_eq|].
    destruct (sorted_lookup seg_before segs i j a c) as [_ ?]; [done|lia|done|done|].
    destruct (Hr c) as [? _]; [by eapply list_elem_of_lookup_2|]. lia. }
  apply list_elem_of_lookup_1 in Hin as (k&Hk).
  assert (sort_Search (length segs) p = k) as ->.
  { pose proof (lookup_lt_Some _ _ _ Hk). destruct (Nat.lt_trichotomy (sort_Search (length segs) p) k) as [Hlt|[Hlt|Hlt]]; [|done|].
    - specialize (H3 (sort_Search (length segs) p) ltac:(lia)). unfold p at 1 in H3.
      destruct (segs !! sort_Search (length segs) p) as [a|] eqn:Ea; [|apply lookup_ge_None_1 in Ea; lia].
      destruct (sorted_lookup seg_before segs _ k a s Hs Hlt Ea Hk) as [_ ?]. lia.
    - specialize (H2 k Hlt). unfold p in H2. rewrite Hk in H2. lia. }
  rewrite Hk. by rewrite (proj2 (Z.ltb_ge _ _)) by lia.
Qed.

Lemma findSegmentForOffset_elem segs o s : findSegmentForOffset segs o = Some s → s ∈ segs ∧ sg_base s <= o.
Proof.
  unfold findSegmentForOffset. destruct (segs !! _) as [x|] eqn:E; [|done]. destruct (o <? sg_base x) eqn:Eo; [done|].
  intros [= ->]. split; [by eapply list_elem_of_lookup_2|lia].
Qed.

(** ** Pruning *)

Lemma oldestPrunable_spec segs preserve idx v :
  oldestPrunable segs preserve idx = Some v → v ≠ preserve ∧ ∀ a, last segs = Some a → v ≠ sg_base a.
Proof.
  unfold oldestPrunable. set (ab := match last segs with Some s => sg_base s | None => -1 end).
  assert (∀ (l : list (Z * segmentIndex)) v0 v,
    (∀ u, v0 = Some u → u ≠ preserve ∧ u ≠ ab) →
    foldl (λ v kv, if bool_decide (kv.1 = preserve) || bool_decide (kv.1 = ab) then v
             else match v with
                  | Some k => match idx !! k with
                              | Some si => if si_lastUsed kv.2 <? si_lastUsed si then Some kv.1 else v
                              | None => Some kv.1
                              end
                  | None => Some kv.1
                  end) v0 l = Some v → v ≠ preserve ∧ v ≠ ab) as H.
  { intros l. induction l as [|[k si] l IH]; intros v0 v1 H0; cbn [foldl fst snd]; [by apply H0|]. apply IH.
    intros u. destruct (bool_decide (k = preserve) || bool_decide (k = ab)) eqn:E; [apply H0|].
    apply orb_false_iff in E as [E1%bool_decide_eq_false E2%bool_decide_eq_false].
    destruct v0 as [k0|]; [|naive_solver]. destruct (idx !! k0); [|naive_solver]. destruct (_ <? _); naive_solver. }
  intros Hv. apply H in Hv as [Hp Ha]; [|done]. split; [done|]. intros a Hl. unfold ab in Ha. by rewrite Hl in Ha.
Qed.

Lemma prune_loop_spec fuel segs preserve idx :
  (∀ k si, prune_loop fuel segs preserve idx !! k = Some si → idx !! k = Some si)
  ∧ prune_loop fuel segs preserve idx !! preserve = idx !! preserve
  ∧ ∀ a, last segs = Some a → prune_loop fuel segs preserve idx !! sg_base a = idx !! sg_base a.
Proof.
  revert idx. induction fuel as [|fuel IH]; intros idx; cbn [prune_loop]; [done|]. case_decide; [|done].
  destruct (oldestPrunable segs preserve idx) as [v|] eqn:E; [|done].
  apply oldestPrunable_spec in E as [Hp Ha]. destruct (IH (delete v idx)) as (I1&I2&I3). split; [|split].
  - intros k si Hk. apply I1 in Hk. by apply lookup_delete_Some in Hk as [_ ?].
  - by rewrite I2, lookup_delete_ne.
  - intros a Hl. rewrite I3 by done. rewrite lookup_delete_ne; [done|]. by apply Ha.
Qed.

(** ** The lookup structures describe the layout *)

Record lookup_ok (segs : list segment) (T : layout) (x : lookup) : Prop := {
  lk_idx_ok : ∀ base si, lk_idx x !! base = Some si → idx_ok base (tiles T base) (si_entries si);
  lk_nav_ok : ∀ e, e ∈ lk_nav x → ∃ t, t ∈ tiles T (ie_seg e) ∧ e = entry_of (ie_seg e) t;
  lk_frames_ok : ∀ c t recs, c ∈ fc_items (lk_frames x) → t ∈ tiles T (fe_key c).1 → t_pos t = (fe_key c).2 →
    t_kind t = Good recs → fe_recs c = recs;
  lk_key_ok : ∀ c, c ∈ fc_items (lk_frames x) → ∃ t, t ∈ tiles T (fe_key c).1 ∧ t_pos t = (fe_key c).2;
  lk_active_ok : ∀ a, last segs = Some a → lk_idx x !! sg_base a = None → ∀ t, t ∈ tiles T (sg_base a) → good t = false;
}.

Lemma touch_entries base x k :
  si_entries <$> lk_idx (touchSegmentIndex base x) !! k = si_entries <$> lk_idx x !! k.
Proof.
  unfold touchSegmentIndex. destruct (lk_idx x !! base) as [si|] eqn:E; [|done]. cbn [lk_idx].
  destruct (decide (k = base)) as [->|]; [by rewrite lookup_insert_eq, E|by rewrite lookup_insert_ne].
Qed.

(** An update of the indexes that only touches, prunes and installs a
    faithful one. *)
Lemma lookup_ok_idx segs T x x' :
  lookup_ok segs T x →
  (∀ k si, lk_idx x' !! k = Some si →
     (si_entries <$> lk_idx x !! k = Some (si_entries si)) ∨ idx_ok k (tiles T k) (si_entries si)) →
  (∀ a, last segs = Some a → lk_idx x' !! sg_base a = None →
     lk_idx x !! sg_base a = None ∨ ∀ t, t ∈ tiles T (sg_base a) → good t = false) →
  lk_nav x' = lk_nav x → lk_frames x' = lk_frames x → lookup_ok segs T x'.
Proof.
  intros [H1 H2 H3 H5 H4] Hi Ha Hn Hf. constructor.
  - intros k si Hk. destruct (Hi k si Hk) as [He|]; [|done]. apply fmap_Some in He as (si'&Hs'&He).
    rewrite He. by apply H1.
  - by rewrite Hn.
  - by rewrite Hf.
  - by rewrite Hf.
  - intros a Hl Hk. destruct (Ha a Hl Hk); [|done]. by apply H4.
Qed.

Lemma setSegmentIndex_ok o segs T x base entries :
  lookup_ok segs T x → idx_ok base (tiles T base) entries → lookup_ok segs T (setSegmentIndex o segs base entries x).
Proof.
  intros Hx Hi. pose proof (idx_ok_sparse o _ _ _ Hi) as Hs. unfold setSegmentIndex.
  destruct (sparseIndexEntries o entries) as [|e es] eqn:Ee.
  - apply (lookup_ok_idx segs T x); [done| | |done|done]; cbn [lk_idx with_idx].
    + intros k si Hk. left. apply lookup_delete_Some in Hk as [_ ->]. done.
    + intros a _ Hk. destruct (decide (sg_base a = base)) as [->|]; [right|left; by rewrite lookup_delete_ne in Hk].
      intros t Ht. destruct (good t) eqn:Eg; [|done]. destruct (io_first _ _ _ Hs t Ht Eg) as (e&?%elem_of_nil&_). done.
  - unfold pruneSegmentIndexes. set (x' := touchSegmentIndex base _).
    destruct (prune_loop_spec (size (lk_idx x')) segs base (lk_idx x')) as (P1&P2&P3).
    assert (∀ k, si_entries <$> lk_idx x' !! k = si_entries <$> (<[base := MkIndex (e :: es) 0]> (lk_idx x)) !! k) as Ht.
    { intros k. unfold x'. apply touch_entries. }
    apply (lookup_ok_idx segs T x); [done| | |by unfold x', touchSegmentIndex; cbn [lk_idx with_idx]; rewrite lookup_insert_eq..];
      cbn [lk_idx with_idx].
    + intros k si Hk. apply P1 in Hk. specialize (Ht k). rewrite Hk in Ht.
      destruct (decide (k = base)) as [->|]; [right|left; by rewrite lookup_insert_ne in Ht].
      rewrite lookup_insert_eq in Ht. injection Ht as ->. done.
    + intros a Hl Hk. left. rewrite P3 in Hk by done. specialize (Ht (sg_base a)). rewrite Hk in Ht.
      destruct (decide (sg_base a = base)) as [E|]; [by rewrite E, lookup_insert_eq in Ht|].
      rewrite lookup_insert_ne in Ht by done. by destruct (lk_idx x !! sg_base a).
Qed.

Lemma lookup_ok_nav segs T x c :
  lookup_ok segs T x → (∀ e, e ∈ c → ∃ t, t ∈ tiles T (ie_seg e) ∧ e = entry_of (ie_seg e) t) → lookup_ok segs T (with_nav c x).
Proof. intros [] Hc. by constructor. Qed.

Lemma nav_put_ok segs T x s t :
  lookup_ok segs T x → t ∈ tiles T s → lookup_ok segs T (with_nav (nav_put (lk_nav x) (entry_of s t)) x).
Proof.
  intros Hx Ht. apply lookup_ok_nav; [done|]. intros e [->|He]%nav_put_subset; [by exists t|]. by apply (lk_nav_ok _ _ _ Hx).
Qed.

Section Find.
Context (cs : codecs).
Abbreviation chain := (chain cs).
Abbreviation tile_ok := (tile_ok cs).
Abbreviation on_chain := (on_chain cs).

(** A segment, its file and its tiles.  What a crash left behind the tiles
    of a sealed segment holds no complete frame. *)
Record seg_ok (b : octets) (ts : list tile) (s : segment) : Prop := {
  so_chain : chain b 0 (sg_base s) ts;
  so_next : chain_next (sg_base s) ts <= sg_next s;
  so_size : chain_end 0 ts <= sg_size s;
  so_rest : chain_end 0 ts = sg_size s ∨ sg_size s = blen b;
  so_desert : desert b (sg_size s) (chain_end 0 ts);
}.

(** Whatever the search answers is a frame that holds the offset. *)
Lemma scan_sound fuel b s size p ts q o e :
  on_chain b p ts q → 0 <= p → (∀ t, t ∈ ts → live t = true → t_end t <= size) → desert b size q →
  q = size ∨ size = blen b → scan_anchor fuel b s size p o = Some e →
  ∃ t, t ∈ ts ∧ live t = true ∧ e = entry_of s t ∧ holds t o.
Proof.
  revert p ts. induction fuel as [|fuel IH]; intros p ts Hoc Hp Hs Hd Hq Hr; [done|].
  pose proof Hoc as (p0&n&Hc&Hqe&Hpos).
  destruct (decide (Exists (λ t, live t = true) ts)) as [He|He]; cycle 1.
  { exfalso. assert (∀ t, t ∈ ts → live t = false) as Hno.
    { intros t Ht. destruct (live t) eqn:E; [|done]. exfalso. apply He, Exists_exists. eauto. }
    rewrite (scan_anchor_desert (S fuel) b s size p o) in Hr; [done| |done|]; destruct ts as [|d ts].
    - destruct Hpos as [->|(?&?&?&_)]; [|done]. by subst q.
    - rewrite <-Hqe in Hd. eapply no_live_desert; [done| |done|done]. destruct Hc as (<-&_&[]&_).
      destruct Hpos as [->|(?&?&_&_&?)]; lia.
    - destruct Hpos as [->|(?&?&?&_)]; [|done]. cbn [chain_end] in Hqe. subst q. destruct Hq as [->|]; [right; lia|by left].
    - destruct Hq as [->|]; [right|by left]. intros i h x Hi. eapply no_live_header; [done|done| |by rewrite Hqe; lia].
      destruct Hc as (<-&_&[]&_). destruct Hpos as [->|(?&?&_&_&?)]; lia. }
  cbn [scan_anchor] in Hr. destruct (p <? size) eqn:Ep; [|done].
  apply Exists_exists in He as (t&Ht&Hl). destruct ts as [|t0 ts]; [by apply elem_of_nil in Ht|].
  assert (0 <= p0) as Hp00 by (destruct Hc as (<-&_&[]&_); done). destruct (live t0) eqn:E0.
  - assert (p = p0) as -> by (destruct Hpos as [|(d&ts'&[= <- <-]&?&_)]; [done|congruence]).
    destruct Hc as (Hpos0&Hn&Hto0&Hc). destruct (tile_header _ _ _ Hto0 E0) as (h&Hh&Hb&Hcn).
    rewrite Hpos0 in Hh. rewrite Hh in Hr. rewrite (proj2 (Z.ltb_ge _ _)) in Hr by (apply Hs; [by left|done]).
    rewrite (next_offset_tile cs b t0), Hb in Hr by done.
    destruct ((t_base t0 <=? o) && (o <? t_next t0)) eqn:Ec.
    + rewrite <-Hpos0, (entry_of_header cs b s t0) in Hr by done. exists t0. unfold holds. simplify_eq.
      split; [by left|]. split; [done|]. split; [done|lia].
    + destruct (o <? t_base t0); [done|]. destruct (IH (t_end t0) ts) as (t'&?&?&?&?); [|destruct Hto0; unfold t_end; lia|set_solver|done..|].
      * exists (t_end t0), (t_next t0). naive_solver.
      * exists t'. set_solver.
  - assert (p0 <= p < t_end t0) as Hpr.
    { destruct Hpos as [->|(d&ts'&[= <- <-]&?&?)]; [|done]. destruct Hc as (<-&_&[]&_). unfold t_end. lia. }
    destruct (walk_skips cs b p p0 n t0 ts size t) as ((er&He'&Hne)&Hr'&ts'&Hoc'&Hfl); try done; [by apply Hs|].
    rewrite He' in Hr. assert (scan_anchor fuel b s size (nextMagicInSegment b (p + 1) size) o = Some e) as Hr2 by (by destruct er).
    destruct (IH (nextMagicInSegment b (p + 1) size) ts') as (t'&Ht'&Hl'&?&?); [by rewrite <-Hqe|lia| |done..|].
    { intros t' Ht' Hl'. apply Hs; [|done]. by eapply live_elem. }
    exists t'. split; [|done]. by eapply live_elem.
Qed.

(** ** One lookup *)

Section Segment.
Context (o : Options) (segs : list segment) (T : layout) (b : octets) (s : segment).
Hypothesis Hseg : seg_ok b (tiles T (sg_base s)) s.

Lemma live_in t : t ∈ tiles T (sg_base s) → live t = true → t_end t <= sg_size s.
Proof.
  intros Ht _. destruct Hseg as [Hc _ Hs _ _]. apply (chain_elem _ _ _ _ _ _ Hc) in Ht as (_&_&?&_). lia.
Qed.

(** The search from a frame at or below the offset. *)
Lemma resolveFromAnchor_sound a off x x' r :
  lookup_ok segs T x → a ∈ tiles T (sg_base s) → t_base a <= off →
  resolveFromAnchor b s (entry_of (sg_base s) a) off x = (x', r) →
  lookup_ok segs T x'
  ∧ (∀ e, r = Some e → ∃ t, t ∈ tiles T (sg_base s) ∧ e = entry_of (sg_base s) t ∧ holds t off)
  ∧ (∀ t, t ∈ tiles T (sg_base s) → good t = true → holds t off → r = Some (entry_of (sg_base s) t)).
Proof.
  intros Hx Ha Hb. unfold resolveFromAnchor. pose proof Hseg as [Hc Hn Hsz Hrest Hd].
  destruct (chain_elem _ _ _ _ _ _ Hc Ha) as (Hao&_).
  destruct (covers (entry_of (sg_base s) a) off) eqn:Ec.
  - apply (covers_tile cs b) in Ec; [|done]. intros [= <- <-]. split; [by apply nav_put_ok|]. split.
    + intros e [= <-]. eauto.
    + intros t Ht _ Hh. do 2 f_equal. by eapply (chain_disjoint cs b).
  - assert (t_next a <= off) as Hna.
    { destruct (decide (off < t_next a)); [|lia]. assert (holds a off) as Hh by (unfold holds; lia).
      apply (covers_tile cs b (sg_base s)) in Hh; [|done]. congruence. }
    unfold scanSegmentFromIndexAnchor. cbn [ie_len ie_pos entry_of]. destruct Hao as [Hap Hal _ _ _ _].
    rewrite (proj2 (Z.ltb_lt _ _)) by lia. fold (t_end a).
    pose proof (list_elem_of_split _ _ Ha) as (pre&post&Hsplit).
    assert (on_chain b (t_end a) post (chain_end 0 (tiles T (sg_base s)))) as Hoc.
    { rewrite Hsplit in Hc |- *. apply chain_app in Hc as [_ (Hp&_&_&Hc)]. exists (t_end a), (t_next a).
      split; [done|]. split; [by rewrite chain_end_app|by left]. }
    assert (post ⊆ tiles T (sg_base s)) as Hsub by (rewrite Hsplit; set_solver).
    destruct (scan_anchor _ b (sg_base s) (sg_size s) (t_end a) off) as [e|] eqn:Es.
    + pose proof Es as Es'. eapply scan_sound in Es as (t&Ht&Hl&->&Hh); [|done|unfold t_end; lia| |done|done].
      2: { intros t Ht Hl. apply live_in; [|done]. by apply Hsub. }
      intros [= <- <-]. split; [apply nav_put_ok; [done|by apply Hsub]|]. split.
      * intros e [= <-]. eauto.
      * intros t' Ht' _ Hh'. do 2 f_equal. eapply (chain_disjoint cs b); [exact Hc| |exact Ht'|exact Hh|exact Hh']. by apply Hsub.
    + intros [= <- <-]. split; [done|]. split; [done|]. intros t Ht Hg Hh. exfalso.
      assert (live t = true) as Hl by (unfold live, good in *; by destruct (t_kind t)).
      assert (t ∈ post) as Htp.
      { rewrite Hsplit in Ht, Hc. apply elem_of_app in Ht as [Ht|[->|Ht]%elem_of_cons]; [|unfold holds in Hh; lia|done].
        exfalso. apply chain_app in Hc as [Hcp (_&Hna'&_)]. apply (chain_elem _ _ _ _ _ _ Hcp) in Ht as (_&_&_&_&?).
        unfold holds in Hh. lia. }
      rewrite (scan_finds cs _ b (sg_base s) (sg_size s) (t_end a) post _ t off Hoc) in Es; try done; [unfold t_end; lia| |unfold t_end; lia].
      intros t' Ht' Hl'. apply live_in; [by apply Hsub|done].
Qed.

Lemma resolve_idx a off x : lk_idx (resolveFromAnchor b s a off x).1 = lk_idx x.
Proof. unfold resolveFromAnchor. destruct (covers a off); [done|]. by destruct (scanSegmentFromIndexAnchor b s a off). Qed.

Lemma anchor_sound off x a :
  lookup_ok segs T x → indexAnchorForOffset (default [] (si_entries <$> lk_idx x !! sg_base s)) off = Some a →
  ∃ t, t ∈ tiles T (sg_base s) ∧ a = entry_of (sg_base s) t ∧ t_base t <= off.
Proof.
  intros Hx Ha. destruct (lk_idx x !! sg_base s) as [si|] eqn:Ei; [|done]. simpl in Ha.
  pose proof (lk_idx_ok _ _ _ Hx _ _ Ei) as [Ht Hs _]. pose proof (anchor_spec (si_entries si) off Hs) as H.
  rewrite Ha in H. destruct H as (Hin&Hle&_). destruct (Ht a Hin) as (t&?&->). eauto.
Qed.

Lemma anchor_complete off x t :
  lookup_ok segs T x → indexAnchorForOffset (default [] (si_entries <$> lk_idx x !! sg_base s)) off = None →
  t ∈ tiles T (sg_base s) → good t = true → holds t off → lk_idx x !! sg_base s = None.
Proof.
  intros Hx Ha Ht Hg Hh. destruct (lk_idx x !! sg_base s) as [si|] eqn:Ei; [|done]. simpl in Ha.
  pose proof (lk_idx_ok _ _ _ Hx _ _ Ei) as [_ Hs Hf]. pose proof (anchor_spec (si_entries si) off Hs) as H.
  rewrite Ha in H. destruct (Hf t Ht Hg) as (e&He&Hle). specialize (H e He). unfold holds in Hh. lia.
Qed.

Lemma nav_sound x c :
  lookup_ok segs T x → c ∈ lk_nav x → ie_seg c = sg_base s → ∃ t, t ∈ tiles T (sg_base s) ∧ c = entry_of (sg_base s) t.
Proof. intros Hx Hc <-. by apply (lk_nav_ok _ _ _ Hx). Qed.

Lemma find_sound off x x' r :
  lookup_ok segs T x → find_in b s off x = (x', r) →
  lookup_ok segs T x'
  ∧ (∀ e, r = Some e → ∃ t, t ∈ tiles T (sg_base s) ∧ e = entry_of (sg_base s) t ∧ holds t off)
  ∧ (∀ t, t ∈ tiles T (sg_base s) → good t = true → holds t off → is_Some (lk_idx x !! sg_base s) →
       r = Some (entry_of (sg_base s) t))
  ∧ lk_idx x' = lk_idx x.
Proof.
  intros Hx. unfold find_in. pose proof (nav_bestAnchor_subset (lk_nav x) (sg_base s) off) as Hsub.
  pose proof (nav_bestAnchor_some (lk_nav x) (sg_base s) off) as Hsome.
  destruct (nav_bestAnchor (lk_nav x) (sg_base s) off) as [nav cached]. cbn [fst snd] in Hsub, Hsome.
  set (x1 := with_nav nav x).
  assert (lookup_ok segs T x1) as Hx1.
  { apply lookup_ok_nav; [done|]. intros e He. apply (lk_nav_ok _ _ _ Hx). by apply Hsub. }
  assert (∀ t' x' r, t' ∈ tiles T (sg_base s) → t_base t' <= off →
    resolveFromAnchor b s (entry_of (sg_base s) t') off x1 = (x', r) →
    lookup_ok segs T x'
    ∧ (∀ e, r = Some e → ∃ t, t ∈ tiles T (sg_base s) ∧ e = entry_of (sg_base s) t ∧ holds t off)
    ∧ (∀ t, t ∈ tiles T (sg_base s) → good t = true → holds t off → is_Some (lk_idx x !! sg_base s) →
         r = Some (entry_of (sg_base s) t))
    ∧ lk_idx x' = lk_idx x) as Hres.
  { intros t' y ry Ht' Hb' Hry. pose proof (resolve_idx (entry_of (sg_base s) t') off x1) as Hi. rewrite Hry in Hi.
    destruct (resolveFromAnchor_sound t' off x1 y ry Hx1 Ht' Hb' Hry) as (?&?&?). split; [done|]. split; [done|].
    split; [by auto|done]. }
  change (lk_idx x) with (lk_idx x1) in Hres |- *. clearbody x1.
  destruct (indexAnchorForOffset (default [] (si_entries <$> lk_idx x1 !! sg_base s)) off) as [a|] eqn:Ea.
  - destruct (anchor_sound off x1 a Hx1 Ea) as (ta&Hta&->&Hba). destruct cached as [c|]; [|by apply Hres].
    destruct (Hsome c eq_refl) as (Hc&Hcs&Hcb&_). destruct (nav_sound x c Hx Hc Hcs) as (tc&Htc&->).
    destruct (chain_elem _ _ _ _ _ _ (so_chain _ _ _ Hseg) Htc) as (Htco&_).
    rewrite (ie_next_tile cs b) by done. destruct (off <? t_next tc) eqn:Eo.
    + intros [= <- <-]. assert (holds tc off) as Hh by (unfold holds; cbn [ie_base entry_of] in Hcb; lia). split; [done|]. split.
      * intros e [= <-]. eauto.
      * split; [|done]. intros t Ht _ Hh' _. do 2 f_equal. by eapply (chain_disjoint cs b), Hh'; [apply Hseg|..].
    + cbn [ie_base entry_of] in *. destruct (t_base ta <? t_base tc); by apply Hres.
  - destruct cached as [c|].
    + destruct (Hsome c eq_refl) as (Hc&Hcs&Hcb&_). destruct (nav_sound x c Hx Hc Hcs) as (tc&Htc&->).
      destruct (chain_elem _ _ _ _ _ _ (so_chain _ _ _ Hseg) Htc) as (Htco&_).
      rewrite (ie_next_tile cs b) by done. destruct (off <? t_next tc) eqn:Eo; [|by apply Hres].
      intros [= <- <-]. assert (holds tc off) as Hh by (unfold holds; cbn [ie_base entry_of] in Hcb; lia). split; [done|]. split.
      * intros e [= <-]. eauto.
      * split; [|done]. intros t Ht _ Hh' _. do 2 f_equal. by eapply (chain_disjoint cs b), Hh'; [apply Hseg|..].
    + intros [= <- <-]. split; [done|]. split; [done|]. split; [|done]. intros t Ht Hg Hh [si Hi].
      by rewrite (anchor_complete off x1 t) in Hi.
Qed.

(** The index a scan of the file installs. *)
Lemma scan_installs : idx_ok (sg_base s) (tiles T (sg_base s)) (scanSegmentIndex o b s).
Proof.
  pose proof Hseg as [Hc Hn Hs Hr Hd]. unfold scanSegmentIndex.
  rewrite (scan_index_chain cs _ o b (sg_base s) (sg_size s) 0 (tiles T (sg_base s)) (chain_end 0 (tiles T (sg_base s)))).
  - apply idx_ok_sparse. eapply idx_ok_filter; [done|]. intros t Hg. unfold live, good in *. by destruct (t_kind t).
  - exists 0, (sg_base s). auto.
  - done.
  - apply live_in.
  - done.
  - pose proof (chain_end_ge _ _ _ _ _ Hc). lia.
Qed.

End Segment.

(** ** The lookup as a whole *)

Record disk_ok (d : disk) (T : layout) : Prop := {
  do_segs : segs_ok (dk_segments d);
  do_seg : ∀ s, s ∈ dk_segments d → seg_ok (contents d (sg_base s)) (tiles T (sg_base s)) s;
}.

Lemma findIndex_sound d T off x x' r :
  disk_ok d T → lookup_ok (dk_segments d) T x → findIndex d off x = (x', r) →
  lookup_ok (dk_segments d) T x' ∧ lk_idx x' = lk_idx x
  ∧ (∀ e, r = Some e → ∃ s t, s ∈ dk_segments d ∧ t ∈ tiles T (sg_base s) ∧ e = entry_of (sg_base s) t ∧ holds t off)
  ∧ (∀ s t, s ∈ dk_segments d → t ∈ tiles T (sg_base s) → good t = true → holds t off →
       is_Some (lk_idx x !! sg_base s) → r = Some (entry_of (sg_base s) t)).
Proof.
  intros [Hsk Hso] Hx. unfold findIndex. destruct (findSegmentForOffset (dk_segments d) off) as [s0|] eqn:Es.
  - apply findSegmentForOffset_elem in Es as Hs0. destruct Hs0 as [Hs0 _]. intros Hf.
    eapply (find_sound _ T _ s0 (Hso s0 Hs0)) in Hf as (H1&H2&H3&H4); [|done].
    split; [done|]. split; [done|]. split.
    + intros e He. destruct (H2 e He) as (t&?&?&?). eauto 10.
    + intros s t Hs Ht Hg Hh Hi. destruct (Hso s Hs) as [Hc Hn _ _ _].
      assert (Some s0 = Some s) as [= ->].
      { rewrite <-Es. apply findSegmentForOffset_spec; [done|done|]. destruct (chain_elem _ _ _ _ _ _ Hc Ht) as (_&_&_&?&?).
        unfold holds in Hh. lia. }
      by apply H3.
  - intros [= <- <-]. split; [done|]. split; [done|]. split; [done|]. intros s t Hs Ht Hg Hh _. exfalso.
    destruct (Hso s Hs) as [Hc Hn _ _ _]. destruct (chain_elem _ _ _ _ _ _ Hc Ht) as (_&_&_&?&?).
    rewrite (findSegmentForOffset_spec (dk_segments d) s off) in Es; [done|done|done|]. unfold holds in Hh. lia.
Qed.

(** [lockIndexEntry] answers with the tile that holds the offset, and always
    when it is a good frame. *)
Lemma lockIndexEntry_sound o d T off x x' r :
  disk_ok d T → lookup_ok (dk_segments d) T x → lockIndexEntry o d off x = (x', r) →
  lookup_ok (dk_segments d) T x'
  ∧ (∀ e, r = Some e → ∃ s t, s ∈ dk_segments d ∧ t ∈ tiles T (sg_base s) ∧ e = entry_of (sg_base s) t ∧ holds t off)
  ∧ (∀ s t, s ∈ dk_segments d → t ∈ tiles T (sg_base s) → good t = true → holds t off →
       r = Some (entry_of (sg_base s) t)).
Proof.
  intros Hd Hx. unfold lockIndexEntry. destruct (findIndex d off x) as [x1 r1] eqn:E1.
  destruct (findIndex_sound d T off x x1 r1 Hd Hx E1) as (Hx1&Hi1&Hs1&Hc1).
  assert (∀ s t t', s ∈ dk_segments d → t ∈ tiles T (sg_base s) → t' ∈ tiles T (sg_base s) → holds t off → holds t' off → t = t') as Hun.
  { intros s t t' Hs Ht Ht' Hh Hh'. destruct (do_seg _ _ Hd s Hs) as [Hc _ _ _ _]. by eapply (chain_disjoint cs). }
  assert (∀ s t, s ∈ dk_segments d → t ∈ tiles T (sg_base s) → holds t off → findSegmentForOffset (dk_segments d) off = Some s) as Hfs.
  { intros s t Hs Ht Hh. destruct (do_seg _ _ Hd s Hs) as [Hc Hn _ _ _]. destruct (chain_elem _ _ _ _ _ _ Hc Ht) as (_&_&_&?&?).
    apply findSegmentForOffset_spec; [apply Hd|done|]. unfold holds in Hh. lia. }
  destruct r1 as [e1|].
  { intros [= <- <-]. split; [done|]. split; [done|]. intros s t Hs Ht Hg Hh.
    destruct (Hs1 e1 eq_refl) as (s'&t'&Hs'&Ht'&->&Hh'). assert (Some s = Some s') as [= ->].
    { by rewrite <-(Hfs s t), <-(Hfs s' t'). }
    do 2 f_equal. by eapply (Hun s'). }
  destruct (findSegmentForOffset (dk_segments d) off) as [s0|] eqn:Es; cycle 1.
  { intros [= <- <-]. split; [done|]. split; [done|]. intros s t Hs Ht Hg Hh. specialize (Hfs s t Hs Ht Hh). congruence. }
  apply findSegmentForOffset_elem in Es as Hs0. destruct Hs0 as [Hs0 _].
  set (x2 := match lk_idx x1 !! sg_base s0 with Some _ => x1 | None => _ end).
  assert (lookup_ok (dk_segments d) T x2) as Hx2.
  { unfold x2. destruct (lk_idx x1 !! sg_base s0); [done|]. apply setSegmentIndex_ok; [done|].
    eapply scan_installs, (do_seg _ _ Hd s0 Hs0). }
  intros Hf. destruct (findIndex_sound d T off x2 x' r Hd Hx2 Hf) as (Hx'&Hi'&Hs'&Hc').
  split; [done|]. split; [done|]. intros s t Hs Ht Hg Hh.
  assert (Some s0 = Some s) as [= ->]. { specialize (Hfs s t Hs Ht Hh). congruence. }
  eapply Hc'; [done..|]. unfold x2. destruct (lk_idx x1 !! sg_base s) eqn:Ei; [by rewrite Ei|].
  (* the scan installed an index, for it has a good frame to hold *)
  destruct (lk_idx (setSegmentIndex o (dk_segments d) (sg_base s) _ x1) !! sg_base s) as [si|] eqn:En; [done|]. exfalso.
  unfold setSegmentIndex in En.
  pose proof (scan_installs o T (contents d (sg_base s)) s (do_seg _ _ Hd s Hs0)) as Hio.
  apply (idx_ok_sparse o) in Hio. destruct (sparseIndexEntries o _) as [|e es] eqn:Ee.
  - destruct (io_first _ _ _ Hio t Ht Hg) as (e&?%elem_of_nil&_). done.
  - unfold pruneSegmentIndexes in En. set (y := touchSegmentIndex _ _) in En. cbn [lk_idx with_idx] in En.
    destruct (prune_loop_spec (size (lk_idx y)) (dk_segments d) (sg_base s) (lk_idx y)) as (_&P2&_). rewrite P2 in En.
    unfold y, touchSegmentIndex in En. cbn [lk_idx with_idx] in En. rewrite lookup_insert_eq in En. cbn [lk_idx] in En.
    by rewrite lookup_insert_eq in En.
Qed.

End Find.

(** ** Reading and verifying

    A record in a good frame of a segment is what [readSegmentShared]
    returns for its offset; [VerifyDurable] succeeds on a range exactly when
    good frames hold all of it. *)

#[local] Arguments Z.mul : simpl never.
#[local] Arguments Z.add : simpl never.
#[local] Arguments Z.sub : simpl never.
#[local] Arguments Z.pow : simpl never.
#[local] Arguments Z.of_nat : simpl never.
#[local] Arguments Z.to_nat : simpl never.

Lemma i32_range x : - 2 ^ 31 <= i32 x < 2 ^ 31.
Proof. unfold i32. pose proof (Z.mod_pos_bound (x + 2 ^ 31) (2 ^ 32)). lia. Qed.

Lemma recordCount_range s h : decodeHeader s = Ok h → recordCount h < 2 ^ 31.
Proof.
  unfold decodeHeader. destruct (blen s <? headerSize); [done|]. case_decide; [done|].
  destruct (_ || _); [done|]. destruct (_ || _); [done|]. intros Hok%Ok_inj. subst h. cbn [recordCount]. apply i32_range.
Qed.

(** The record at an offset, in a frame of a segment. *)
Definition stored (d : disk) (T : layout) (o : Z) (r : octets) : Prop :=
  ∃ s t recs, s ∈ dk_segments d ∧ t ∈ tiles T (sg_base s) ∧ t_kind t = Good recs ∧ holds t o
    ∧ recs !! Z.to_nat (o - t_base t) = Some r.

Section Read.
Context (o : Options).
Abbreviation cs := (o_codecs o).
Abbreviation disk_ok := (disk_ok cs).

Lemma good_frame d T s t recs :
  disk_ok d T → s ∈ dk_segments d → t ∈ tiles T (sg_base s) → t_kind t = Good recs →
  ∃ h, readFrameAt cs (contents d (sg_base s)) (t_pos t) = Ok (h, recs, t_end t)
    ∧ t_count t = Z.of_nat (length recs) ∧ t_count t < 2 ^ 31.
Proof.
  intros Hd Hs Ht Hk. destruct (do_seg _ _ _ Hd s Hs) as [Hc _ _ _ _].
  destruct (chain_elem _ _ _ _ _ _ Hc Ht) as ([Hp _ _ _ _ Hko]&_). unfold kind_ok in Hko. rewrite Hk in Hko.
  destruct Hko as (h&Hr&_&Hn). exists h. split; [done|].
  pose proof (readFrameAt_ok _ _ _ _ _ _ Hp Hr) as (Hh&_&_&Hl). split; [lia|].
  apply frameHeaderAt_ok in Hh as (Hdh&_); [|done]. apply recordCount_range in Hdh. lia.
Qed.

Lemma lookup_ok_frames segs T x c :
  lookup_ok segs T x →
  (∀ e t recs, e ∈ fc_items c → t ∈ tiles T (fe_key e).1 → t_pos t = (fe_key e).2 → t_kind t = Good recs → fe_recs e = recs) →
  (∀ e, e ∈ fc_items c → ∃ t, t ∈ tiles T (fe_key e).1 ∧ t_pos t = (fe_key e).2) →
  lookup_ok segs T (with_frames c x).
Proof. intros [] Hc. by constructor. Qed.

(** Caching what was read keeps the lookup structures faithful. *)
Lemma cache_read_ok d T x s t h recs e n :
  disk_ok d T → lookup_ok (dk_segments d) T x → s ∈ dk_segments d → t ∈ tiles T (sg_base s) →
  readFrameAt cs (contents d (sg_base s)) (t_pos t) = Ok (h, recs, e) →
  lookup_ok (dk_segments d) T (with_frames (fc_putSized (lk_frames x) (key_of (entry_of (sg_base s) t)) recs n) x).
Proof.
  intros Hd Hx Hs Ht Hr. apply lookup_ok_frames; [done| |].
  2: { intros c [->|Hc]%fc_put_subset; [by exists t|]. by apply (lk_key_ok _ _ _ Hx). }
  intros c t' recs' [->|Hc]%fc_put_subset Ht' Hp' Hk'.
  - cbn [fe_key fe_recs key_of entry_of ie_seg ie_pos fst snd] in *.
    destruct (good_frame d T s t' recs' Hd Hs Ht' Hk') as (h'&Hr'&_). rewrite Hp', Hr in Hr'. by simplify_eq.
  - by eapply (lk_frames_ok _ _ _ Hx).
Qed.

(** [readSegmentShared] returns the record that is stored. *)
Lemma read_stored d T off r x x' res :
  disk_ok d T → lookup_ok (dk_segments d) T x → readSegmentShared o d off x = (x', res) →
  lookup_ok (dk_segments d) T x' ∧ (stored d T off r → res = Ok r).
Proof.
  intros Hd Hx. unfold readSegmentShared. destruct (lockIndexEntry o d off x) as [x1 r1] eqn:E1.
  destruct (lockIndexEntry_sound cs o d T off x x1 r1 Hd Hx E1) as (Hx1&Hs1&Hc1).
  assert (stored d T off r → ∃ s t recs, r1 = Some (entry_of (sg_base s) t) ∧ s ∈ dk_segments d ∧ t ∈ tiles T (sg_base s)
            ∧ t_kind t = Good recs ∧ record_of recs (i32 (off - t_base t)) = Ok r) as Hst.
  { intros (s&t&recs&Hs&Ht&Hk&Hh&Hr). exists s, t, recs. split; [apply Hc1; try done; unfold good; by rewrite Hk|].
    split; [done|]. split; [done|]. split; [done|]. destruct (good_frame d T s t recs Hd Hs Ht Hk) as (h&_&Hl&Hl').
    unfold holds, t_next in Hh. rewrite i32_id by lia. unfold record_of. rewrite (proj2 (Z.ltb_ge _ _)) by lia. by rewrite Hr. }
  destruct r1 as [e|]; [|intros [= <- <-]; split; [done|]; intros (?&?&?&?&_)%Hst; done].
  destruct (Hs1 e eq_refl) as (s&t&Hs&Ht&->&Hh). cbn [ie_base ie_seg ie_pos entry_of].
  rewrite (findSegment_spec (dk_segments d) s) by (done || apply Hd).
  assert (stored d T off r → ∃ recs, t_kind t = Good recs ∧ record_of recs (i32 (off - t_base t)) = Ok r) as Hst'.
  { intros (s'&t'&recs&[= Hb1 Hb2 Hb3 Hb4 Hb5]&Hs'&Ht'&Hk&Hr)%Hst. exists recs. rewrite Hb2. split; [|done].
    destruct (do_seg _ _ _ Hd s Hs) as [Hc _ _ _ _]. rewrite <-Hb1 in Ht'.
    assert (t = t') as ->; [|done]. eapply (chain_disjoint cs); [exact Hc|done|done|exact Hh|].
    unfold holds, t_next in *. lia. }
  pose proof (fc_get_subset (lk_frames x1) (key_of (entry_of (sg_base s) t))) as Hsub.
  pose proof (fc_get_some (lk_frames x1) (key_of (entry_of (sg_base s) t))) as Hget.
  destruct (fc_get (lk_frames x1) (key_of (entry_of (sg_base s) t))) as [frames hit]. cbn [fst snd] in Hsub, Hget.
  assert (lookup_ok (dk_segments d) T (with_frames frames x1)) as Hx2.
  { apply lookup_ok_frames; [done| |].
    - intros c t' recs' Hc. by apply (lk_frames_ok _ _ _ Hx1), Hsub.
    - intros c Hc. by apply (lk_key_ok _ _ _ Hx1), Hsub. }
  destruct hit as [recs|].
  - intros [= <- <-]. split; [done|]. intros (recs'&Hk&Hr)%Hst'.
    destruct (Hget recs eq_refl) as (c&Hc&Hck&<-). rewrite (lk_frames_ok _ _ _ Hx1 c t recs' Hc); [done| | |done]; by rewrite Hck.
  - destruct (readFrameAt cs (contents d (sg_base s)) (t_pos t)) as [[[h recs] e]|err] eqn:Er.
    + destruct (record_of recs (i32 (off - t_base t))) as [r'|err] eqn:Erec; intros [= <- <-].
      * split; [by eapply cache_read_ok|]. intros (recs'&Hk&Hr)%Hst'.
        destruct (good_frame d T s t recs' Hd Hs Ht Hk) as (h'&Hr'&_). simplify_eq. congruence.
      * split; [done|]. intros (recs'&Hk&Hr)%Hst'.
        destruct (good_frame d T s t recs' Hd Hs Ht Hk) as (h'&Hr'&_). simplify_eq. congruence.
    + intros [= <- <-]. split; [done|]. intros (recs'&Hk&Hr)%Hst'.
      destruct (good_frame d T s t recs' Hd Hs Ht Hk) as (h'&Hr'&_). congruence.
Qed.

(** A good frame holds the offset. *)
Definition kept_good (d : disk) (T : layout) (off : Z) : Prop :=
  ∃ s t, s ∈ dk_segments d ∧ t ∈ tiles T (sg_base s) ∧ good t = true ∧ holds t off.

Lemma verify_range_sound fuel d T off last x x' res :
  disk_ok d T → lookup_ok (dk_segments d) T x → verify_range fuel o d off last x = (x', res) →
  lookup_ok (dk_segments d) T x'
  ∧ (res = Ok tt → ∀ i, off <= i <= last → kept_good d T i)
  ∧ ((∀ i, off <= i <= last → kept_good d T i) → last - off < Z.of_nat fuel → res = Ok tt).
Proof.
  intros Hd. revert off x. induction fuel as [|fuel IH]; intros off x Hx; cbn [verify_range].
  { intros [= <- <-]. split; [done|]. destruct (last <? off) eqn:E; split; intros; try done; lia. }
  destruct (last <? off) eqn:E.
  { intros [= <- <-]. split; [done|]. split; [intros; lia|done]. }
  destruct (lockIndexEntry o d off x) as [x1 r1] eqn:E1.
  destruct (lockIndexEntry_sound cs o d T off x x1 r1 Hd Hx E1) as (Hx1&Hs1&Hc1).
  assert ((∀ i, off <= i <= last → kept_good d T i) → ∃ s t, r1 = Some (entry_of (sg_base s) t) ∧ s ∈ dk_segments d
            ∧ t ∈ tiles T (sg_base s) ∧ good t = true) as Hall.
  { intros Hk. destruct (Hk off ltac:(lia)) as (s&t&Hs&Ht&Hg&Hh). exists s, t. split; [by apply Hc1|done]. }
  destruct r1 as [e|]; cycle 1.
  { intros [= <- <-]. split; [done|]. split; [done|]. by intros (?&?&?&_)%Hall. }
  destruct (Hs1 e eq_refl) as (s&t&Hs&Ht&->&Hh). cbn [ie_base ie_seg ie_pos entry_of].
  rewrite (findSegment_spec (dk_segments d) s) by (done || apply Hd).
  destruct (do_seg _ _ _ Hd s Hs) as [Hc _ _ _ _]. destruct (chain_elem _ _ _ _ _ _ Hc Ht) as (Hto&_).
  assert ((∀ i, off <= i <= last → kept_good d T i) → good t = true) as Hg.
  { intros (s'&t'&[= Hb1 Hb2 Hb3 Hb4 Hb5]&Hs'&Ht'&Hg)%Hall. rewrite <-Hb1 in Ht'.
    assert (t = t') as ->; [|done]. eapply (chain_disjoint cs); [exact Hc|done|done|exact Hh|]. unfold holds, t_next in *. lia. }
  destruct (good t) eqn:Egt.
  - destruct (verify_good _ _ _ Hto Egt) as (h&Hv&Hb&Hn). rewrite Hv.
    unfold holds in Hh. rewrite (proj2 (Z.leb_gt _ _)) by (unfold t_next in Hh; lia).
    assert (next_offset (t_base t) (recordCount h) = t_next t) as ->.
    { rewrite <-Hb. by apply (next_offset_tile cs (contents d (sg_base s))). }
    intros Hf. destruct (IH (t_next t) x1 Hx1 Hf) as (H1&H2&H3). split; [done|]. split.
    + intros Hr i Hi. destruct (decide (i < t_next t)); [|apply H2; [done|lia]].
      exists s, t. unfold holds. split; [done|]. split; [done|]. split; [done|lia].
    + intros Hk Hf'. apply H3; [|lia]. intros i Hi. apply Hk. lia.
  - assert (is_ok (verifyFrameAtBuffered (contents d (sg_base s)) (t_pos t)) = false) as Hnv.
    { eapply verify_not_good; [done|done|]. destruct Hto. unfold t_end. lia. }
    destruct (verifyFrameAtBuffered (contents d (sg_base s)) (t_pos t)); [done|]. intros [= <- <-].
    split; [done|]. split; [done|]. intros Hk. by specialize (Hg Hk).
Qed.

End Read.
