(* ===== verification/PartRun.v ===== *)
(** * Runs of a partition log

    Producers append, readers read, the reaper sweeps and the flusher steps
    through its passes, in any order and with any system call failing; the
    log is closed, or the process or the machine stops, and it is opened
    again on what that left.  A run remembers what was appended where, and
    which records a [CommitDurable] that returned nil has acknowledged. *)

From S2P Require Import Prelude Octets PartFrame PartCache PartLog PartFlush PartBytes PartWalk PartLookup.

(** ** One life *)

Record node := Node {
  n_log : Log;
  n_phase : phase;
  n_open : Z;                      (** offsets from here on were appended since the log was opened *)
  n_appended : gmap Z octets;      (** the last record appended at an offset *)
  n_committed : gmap Z octets;     (** acknowledged, and not expired since *)
  n_ended : bool;                  (** [Close] has returned *)
  n_waiting : list request;        (** callers the flusher has not received from *)
}.

Inductive op :=
| OpAppend (rs : list octets) (now : Z)
| OpSubmit (r : request)
| OpBegin (r : request) (now : Z)
| OpFlusher (i : io) (now : Z)
| OpRead (offset : Z)
| OpSweep (now : Z) (removed_ok : Z → bool)
| OpRetain (d : Z)
| OpClose
| OpEnd (pio : persist_io) (sync_ok : bool).

(** The records of the range a commit acknowledges. *)
Definition acknowledge (first last : Z) (appended committed : gmap Z octets) : gmap Z octets :=
  filter (λ kv, first <= kv.1 <= last) appended ∪ committed.

(** Those in the segments a sweep deletes are given up. *)
Definition in_segment (o : Z) (s : segment) : Prop := sg_base s <= o < sg_next s.

#[global] Instance in_segment_dec o s : Decision (in_segment o s).
Proof. unfold in_segment. apply _. Defined.

Definition expire (victims : list segment) (committed : gmap Z octets) : gmap Z octets :=
  filter (λ kv, ¬ Exists (in_segment kv.1) victims) committed.

(** ** Requests *)

#[global] Instance request_eq_dec : EqDecision request.
Proof. solve_decision. Defined.

(** Those that callers send to the flusher. *)
Definition queued (r : request) : bool :=
  match r with ReqSync | ReqCommit _ _ | ReqRotate => true | _ => false end.

(** [submitCommit] up to where it waits: a closed log refuses, and
    [CommitDurable] does not ask for an empty range. *)
Definition submitCommit (r : request) (n : node) : node :=
  if lclosed (n_log n) then n
  else Node (n_log n) (n_phase n) (n_open n) (n_appended n) (n_committed n) (n_ended n) (n_waiting n ++ [r]).

Definition submitRequest (r : request) (n : node) : node :=
  match r with
  | ReqCommit first last => if last <? first then n else submitCommit r n
  | _ => if queued r then submitCommit r n else n
  end.

Fixpoint take_out (r : request) (waiting : list request) : option (list request) :=
  match waiting with
  | [] => None
  | r' :: rest => if decide (r = r') then Some rest else (r' ::.) <$> take_out r rest
  end.

(** What the flusher's select receives: a request that waits, or a signal of
    its own. *)
Definition receive (r : request) (waiting : list request) : option (list request) :=
  if queued r then take_out r waiting else Some waiting.

Definition step_flusher (i : io) (now : Z) (n : node) : node :=
  let '(l, p, reply) := flusher_step i now (n_phase n) (n_log n) in
  match n_phase n, reply with
  | Finishing (ReqCommit first last), Some (Ok _) =>
      Node l p (n_open n) (n_appended n) (acknowledge first last (n_appended n) (n_committed n)) (n_ended n) (n_waiting n)
  | Failing r _, Some _ =>
      Node l p (if isCommit r then Z.min (n_open n) (b_next (lb l)) else n_open n) (n_appended n) (n_committed n) (n_ended n) (n_waiting n)
  | _, _ => Node l p (n_open n) (n_appended n) (n_committed n) (n_ended n) (n_waiting n)
  end.

Definition with_log (l : Log) (n : node) : node :=
  Node l (n_phase n) (n_open n) (n_appended n) (n_committed n) (n_ended n) (n_waiting n).

Definition exec (op : op) (n : node) : node :=
  let l := n_log n in
  match op with
  | OpAppend rs now =>
      let '(l, res) := AppendBatch rs now l in
      match res with
      | Ok (first, _, _, _) =>
          Node l (n_phase n) (n_open n) (map_seqZ first rs ∪ n_appended n) (n_committed n) (n_ended n) (n_waiting n)
      | Err _ => with_log l n
      end
  | OpSubmit r => submitRequest r n
  | OpBegin r now =>
      match n_phase n, receive r (n_waiting n) with
      | Idle, Some waiting =>
          let '(l, p) := begin_pass r now l in Node l p (n_open n) (n_appended n) (n_committed n) (n_ended n) waiting
      | _, _ => n
      end
  | OpFlusher i now => step_flusher i now n
  | OpRead offset => with_log (ReadShared offset l).1 n
  | OpSweep now removed_ok =>
      Node (sweep now removed_ok l) (n_phase n) (n_open n) (n_appended n) (expire (sweep_victims now l) (n_committed n)) (n_ended n) (n_waiting n)
  | OpRetain d => with_log (SetRetentionMaxAge d l).1 n
  | OpClose => with_log (begin_close l) n
  | OpEnd pio sync_ok =>
      Node (end_close pio sync_ok l).1 (n_phase n) (n_open n) (n_appended n) (n_committed n) true []
  end.

(** What the callers see to: offsets stay below the largest [int64], a
    commit names records appended since the log was opened, the final drain
    comes after [Close] and before its end.  Of the disk: a roll that fails
    does not leave its file behind, and the 8 bytes of the high-watermark
    file are one sector, written whole or not at all. *)
Definition op_ok (op : op) (n : node) : Prop :=
  n_ended n = false
  ∧ match op with
    | OpAppend rs _ => b_next (lb (n_log n)) + Z.of_nat (length rs) <= max_int64
    | OpSubmit (ReqCommit first _) => n_open n <= first
    | OpBegin ReqStop _ => lclosed (n_log n) = true
    | OpFlusher i _ => io_create i ≠ CreateDirSyncFails true
    | OpEnd pio _ => n_phase n = Stopped ∧ ¬ short_write pio
    | _ => True
    end.

(** ** Stops *)

(** The bytes of a range of a file all have a status. *)
Definition cells (P : status → Prop) (f : file) (from to : Z) : Prop :=
  ∀ i, from <= i < to → ∃ v st, f !! Z.to_nat i = Some (v, st) ∧ P st.

Definition is_kept (st : status) : Prop := st = Kept.

(** What a stop leaves of a segment file, and what it must not: a byte that
    was on the device stays; the file still reads as frames, damaged frames
    and stretches without headers, in the order of their offsets; the frames
    that were on the device are among them, and behind them all no complete
    frame appears. *)
Record settled (cs : codecs) (l : Log) (fs : gmap Z file) (base : Z) (f : file) (ts : list tile) : Prop := {
  st_chain : chain cs (bytes f) 0 base ts;
  st_within : chain_end 0 ts <= flen f;
  st_torn : desert (bytes f) (flen f) (chain_end 0 ts);
  st_limit : ∀ base', is_Some (fs !! base') → base < base' → chain_next base ts <= base';
  st_kept : ∀ s ts0 t, s ∈ segments l → sg_base s = base → seg_ok cs (contents (ld l) base) ts0 s → t ∈ ts0 →
    good t = true → cells is_kept (file_at (ld l) base) (t_pos t) (t_end t) → t ∈ ts;
}.

(** The directory the next open finds. *)
Record image (cs : codecs) (l : Log) (fs removed : gmap Z file) (h : hwmfile) : Prop := {
  im_names : ∀ base, is_Some (fs !! base) → 0 <= base <= max_int64;
  im_there : ∀ s, s ∈ segments l → is_Some (fs !! sg_base s);
  im_only : ∀ base, is_Some (fs !! base) →
    (∃ s, s ∈ segments l ∧ sg_base s = base)
    ∨ is_Some (dk_files (ld l) !! base) ∨ is_Some (dk_removed (ld l) !! base)
    ∨ ∃ a, active l = Some a ∧ base = sg_next a ∧ fs !! base = Some [];
  im_bytes : ∀ s f i v, s ∈ segments l → fs !! sg_base s = Some f →
    file_at (ld l) (sg_base s) !! i = Some (v, Kept) → f !! i = Some (v, Kept);
  im_settled : ∀ base f, fs !! base = Some f → ∃ ts, settled cs l fs base f ts;
  im_removed : ∀ base, is_Some (removed !! base) → is_Some (dk_removed (ld l) !! base);
  im_hwm : ∀ c, c ∈ hf_cur h :: hf_dev h → c ∈ hf_cur (v_file (lv l)) :: hf_dev (v_file (lv l));
}.

(** ** Lives *)

Definition booted (l : Log) (committed : gmap Z octets) : node :=
  Node l Idle (b_next (lb l)) ∅ committed false [].

Section Lives.
Context (o : Options).

Inductive reached : node → Prop :=
| reached_new io now l :
    NewLog o ∅ ∅ (MkHwmFile None []) ∅ io now = Some l → reached (booted l ∅)
| reached_exec n op : reached n → op_ok op n → reached (exec op n)
| reached_reopen n fs removed h mtimes io now l :
    reached n → image (o_codecs o) (n_log n) fs removed h →
    NewLog o fs removed h mtimes io now = Some l → reached (booted l (n_committed n)).

End Lives.
