(* ===== verification/PartInv.v ===== *)
(** * The invariant of a partition log

    What every reachable state of a log satisfies, and the lemmas about
    files and lookup structures that the steps of [PartSteps] need. *)

From S2P Require Import Prelude Octets PartFrame PartCache PartLog PartFlush PartBytes PartWalk PartLookup PartRun.

#[local] Arguments Z.mul : simpl never.
#[local] Arguments Z.add : simpl never.
#[local] Arguments Z.sub : simpl never.
#[local] Arguments Z.pow : simpl never.
#[local] Arguments Z.of_nat : simpl never.
#[local] Arguments Z.to_nat : simpl never.

(** ** Files *)

Lemma lookup_bytes f i : bytes f !! i = fst <$> f !! i.
Proof. apply list_lookup_fmap. Qed.

Lemma blen_bytes f : blen (bytes f) = flen f.
Proof. unfold blen, flen, bytes. by rewrite length_fmap. Qed.

Lemma length_extend pos f : length (f_extend pos f) = Nat.max (length f) (Z.to_nat pos).
Proof. unfold f_extend, flen. rewrite length_app, length_replicate. lia. Qed.

Lemma lookup_extend pos f i :
  f_extend pos f !! i = if decide (i < length f)%nat then f !! i
                        else if decide (i < Z.to_nat pos)%nat then Some (0, Dirty) else None.
Proof.
  unfold f_extend, flen. case_decide; [by rewrite lookup_app_l|]. rewrite lookup_app_r by lia.
  case_decide; [apply lookup_replicate_2; lia|]. apply lookup_ge_None_2. rewrite length_replicate. lia.
Qed.

Lemma lookup_f_write pos data f i :
  0 <= pos →
  f_write pos data f !! i =
    if decide (i < Z.to_nat pos)%nat then f_extend pos f !! i
    else match data !! (i - Z.to_nat pos)%nat with
         | Some b => Some (b, Dirty)
         | None => f !! i
         end.
Proof.
  intros Hp. unfold f_write. assert (length (take (Z.to_nat pos) (f_extend pos f)) = Z.to_nat pos) as Hl.
  { rewrite length_take, length_extend. lia. }
  case_decide as Hi; [by rewrite lookup_app_l, lookup_take_lt by lia|]. rewrite lookup_app_r, Hl by lia.
  destruct (data !! (i - Z.to_nat pos)%nat) as [b|] eqn:E.
  - pose proof (lookup_lt_Some _ _ _ E). rewrite lookup_app_l by (rewrite length_fmap; lia).
    by rewrite list_lookup_fmap, E.
  - apply lookup_ge_None_1 in E. rewrite lookup_app_r, length_fmap, lookup_drop by (rewrite length_fmap; lia). f_equal. lia.
Qed.

Lemma lookup_f_truncate pos f i :
  f_truncate pos f !! i = if decide (i < Z.to_nat pos)%nat then f_extend pos f !! i else None.
Proof.
  unfold f_truncate. case_decide; [by rewrite lookup_take_lt|]. by rewrite lookup_take_ge by lia.
Qed.

Lemma flen_truncate pos f : 0 <= pos → flen (f_truncate pos f) = pos.
Proof. intros Hp. unfold flen, f_truncate. rewrite length_take, length_extend. lia. Qed.

Definition restatus (g : status → status) (f : file) : file := (λ c, (c.1, g c.2)) <$> f.

Lemma f_sync_restatus f : f_sync f = restatus (λ s, match s with Dirty => Kept | s => s end) f.
Proof. unfold f_sync, restatus. apply list_fmap_ext. by intros ? [? []]. Qed.

Lemma f_sync_failed_restatus f : f_sync_failed f = restatus (λ s, match s with Dirty => Lost | s => s end) f.
Proof. unfold f_sync_failed, restatus. apply list_fmap_ext. by intros ? [? []]. Qed.

Lemma bytes_restatus g f : bytes (restatus g f) = bytes f.
Proof. unfold bytes, restatus. rewrite <-list_fmap_compose. done. Qed.

Lemma lookup_restatus g f i : restatus g f !! i = (λ c, (c.1, g c.2)) <$> f !! i.
Proof. apply list_lookup_fmap. Qed.

Lemma cells_restatus (P Q : status → Prop) g f from to :
  (∀ st, P st → Q (g st)) → cells P f from to → cells Q (restatus g f) from to.
Proof.
  intros HPQ Hc i Hi. destruct (Hc i Hi) as (v&st&Hl&HP). exists v, (g st). rewrite lookup_restatus, Hl. auto.
Qed.

Lemma cells_mono (P Q : status → Prop) f from to : (∀ st, P st → Q st) → cells P f from to → cells Q f from to.
Proof. intros HPQ Hc i Hi. destruct (Hc i Hi) as (v&st&?&?). eauto. Qed.

(** Statuses in front of where a file is written or cut. *)
Lemma cells_write P pos data f from to :
  0 <= pos → to <= pos → 0 <= from → cells P f from to → cells P (f_write pos data f) from to.
Proof.
  intros Hp Ht Hf Hc i Hi. destruct (Hc i Hi) as (v&st&Hl&HP). exists v, st. split; [|done].
  rewrite lookup_f_write by done. rewrite decide_True by lia. rewrite lookup_extend, decide_True; [done|].
  by apply lookup_lt_Some in Hl.
Qed.

Lemma cells_truncate P pos f from to :
  to <= pos → 0 <= from → cells P f from to → cells P (f_truncate pos f) from to.
Proof.
  intros Ht Hf Hc i Hi. destruct (Hc i Hi) as (v&st&Hl&HP). exists v, st. split; [|done].
  rewrite lookup_f_truncate, decide_True by lia. rewrite lookup_extend, decide_True; [done|]. by apply lookup_lt_Some in Hl.
Qed.

Lemma cells_written pos data f : 0 <= pos → cells (λ st, st = Dirty) (f_write pos data f) pos (pos + blen data).
Proof.
  intros Hp i Hi. unfold blen in Hi. rewrite lookup_f_write by done. rewrite decide_False by lia.
  destruct (data !! (Z.to_nat i - Z.to_nat pos)%nat) as [b|] eqn:E; [eauto|]. apply lookup_ge_None_1 in E. lia.
Qed.

(** Bytes in front of where a file is written or cut. *)
Lemma extends_write pos data f : 0 <= pos → extends (bytes f) (bytes (f_write pos data f)) pos.
Proof.
  intros Hp i Hi. rewrite !lookup_bytes, lookup_f_write, decide_True, lookup_extend by lia.
  case_decide; [by left|]. rewrite decide_True by lia. right. by rewrite lookup_ge_None_2 by lia.
Qed.

Lemma extends_truncate pos f : extends (bytes f) (bytes (f_truncate pos f)) pos.
Proof.
  intros i Hi. rewrite !lookup_bytes, lookup_f_truncate, decide_True, lookup_extend by lia.
  case_decide; [by left|]. rewrite decide_True by lia. right. by rewrite lookup_ge_None_2 by lia.
Qed.

Lemma bytes_write_app pos data f :
  0 <= pos → ∃ a z, bytes (f_write pos data f) = a ++ data ++ z ∧ blen a = pos.
Proof.
  intros Hp. unfold f_write. exists (bytes (take (Z.to_nat pos) (f_extend pos f))), (bytes (drop (Z.to_nat pos + length data) f)).
  split.
  - unfold bytes. rewrite !fmap_app. do 2 f_equal. rewrite <-list_fmap_compose. apply list_fmap_id.
  - rewrite blen_bytes. unfold flen. rewrite length_take, length_extend. lia.
Qed.

Lemma byte_behind_write pos data f :
  0 <= pos → (∀ b, data !! 0%nat = Some b → b ≠ magicByte1) →
  bytes (f_write pos data f) !! Z.to_nat pos = bytes f !! Z.to_nat pos ∨ bytes (f_write pos data f) !! Z.to_nat pos ≠ Some magicByte1.
Proof.
  intros Hp Hd. rewrite !lookup_bytes, lookup_f_write, decide_False, Nat.sub_diag by lia.
  destruct (data !! 0%nat) as [b|]; [right|by left]. cbn. intros [=]. by apply (Hd b).
Qed.

Lemma byte_behind_truncate pos f : bytes (f_truncate pos f) !! Z.to_nat pos = None.
Proof. rewrite lookup_bytes, lookup_f_truncate. by rewrite decide_False by lia. Qed.

(** ** The invariant *)

(** What is in memory: the buffer begins where the flushing snapshot ends,
    and the snapshot has been written up to where the log ends, [W]. *)
Record mem_ok (W : Z) (b : buffer) (f : flushing) : Prop := {
  mo_next : b_next b = b_base b + Z.of_nat (length (b_records b));
  mo_max : b_next b <= max_int64;
  mo_valid : fl_valid f = true → fl_base f <= W ∧ fl_written f = W ∧ W <= fl_end f ∧ fl_end f = b_base b;
  mo_invalid : fl_valid f = false → b_base b = W;
}.

Definition records_at (A : gmap Z octets) (base : Z) (rs : list octets) : Prop :=
  ∀ i r, rs !! i = Some r → A !! (base + Z.of_nat i) = Some r.

(** A tile is older than the open, or holds what was appended since.  Its
    bytes were not dropped by a failed sync while the log is [fresh], and
    are on the device when it is [synced] and wherever the high-watermark
    has passed it. *)
Definition tile_inv (f : file) (g : Z) (A : gmap Z octets) (hwm : Z) (fresh synced : Prop) (t : tile) : Prop :=
  t_next t <= g
  ∨ g <= t_base t ∧ ∀ recs, t_kind t = Good recs →
      records_at A (t_base t) recs
      ∧ (fresh → cells (λ st, st ≠ Lost) f (t_pos t) (t_end t))
      ∧ (synced → cells is_kept f (t_pos t) (t_end t))
      ∧ (t_base t < hwm → cells is_kept f (t_pos t) (t_end t)).

(** An acknowledged record: below the high-watermark, in a good frame whose
    bytes are all on the device. *)
Definition secured (d : disk) (T : layout) (off : Z) (r : octets) : Prop :=
  ∃ s t recs, s ∈ dk_segments d ∧ t ∈ tiles T (sg_base s) ∧ t_kind t = Good recs ∧ holds t off
    ∧ recs !! Z.to_nat (off - t_base t) = Some r ∧ cells is_kept (file_at d (sg_base s)) (t_pos t) (t_end t).

(** No open after a stop can start from a boundary below an acknowledged
    record. *)
Record hwm_ok (v : visible) (g : Z) (C : gmap Z octets) (ended : bool) : Prop := {
  ho_files : ∀ c p off, c ∈ hf_cur (v_file v) :: hf_dev (v_file v) → ReadPersistedHighWatermark c = Some (Some p) →
    is_Some (C !! off) → off < p;
  ho_released : ended = false → v_released v = true →
    ∀ c p, c ∈ hf_cur (v_file v) :: hf_dev (v_file v) → ReadPersistedHighWatermark c ≠ Some (Some p);
  ho_open : ended = false → v_released v = false → v_hwm v <= g;
  ho_nonneg : 0 <= v_hwm v;
  ho_valid : ∀ c, c ∈ hf_cur (v_file v) :: hf_dev (v_file v) → ReadPersistedHighWatermark c ≠ None;
}.

(** The records a pass still has to write. *)
Definition unwritten (W : Z) (f : flushing) : list octets :=
  if fl_valid f then drop (Z.to_nat (W - fl_base f)) (fl_records f) else [].

Definition phase_ok (p : phase) (W : Z) (f : flushing) (w : writer) : Prop :=
  match p with
  | Writing r todo base _ =>
      w_poisoned w = false ∧ todo ≠ [] ∧ base = W ∧ todo = unwritten W f
  | Syncing r => w_poisoned w = false
  | Finishing r => w_poisoned w = false ∧ (forceSync r = true → w_unsynced w = 0)
  | _ => True
  end.

Section Inv.
Context (o : Options).
Abbreviation cs := (o_codecs o).

Definition fresh (l : Log) (ended : bool) : Prop := w_poisoned (lw l) = false ∧ ended = false.

(** One segment, in terms of what holds of its tiles. *)
Record seg_inv (d : disk) (T : layout) (g : Z) (A : gmap Z octets) (hwm : Z) (fr sy : Prop) (s : segment) : Prop := {
  si_seg : seg_ok cs (contents d (sg_base s)) (tiles T (sg_base s)) s;
  si_file : is_Some (dk_files d !! sg_base s);
  si_tiles : ∀ t, t ∈ tiles T (sg_base s) → tile_inv (file_at d (sg_base s)) g A hwm fr sy t;
}.

Record inv (l : Log) (p : phase) (g : Z) (A C : gmap Z octets) (ended : bool) (T : layout) : Prop := {
  iv_opts : lo l = withDefaults o;
  iv_segs : segs_ok (segments l);
  iv_sealed : ∀ s, s ∈ removelast (segments l) → seg_inv (ld l) T g A (v_hwm (lv l)) (fresh l ended) (fresh l ended) s;
  iv_active : ∃ a, active l = Some a
    ∧ seg_inv (ld l) T g A (v_hwm (lv l)) (fresh l ended) (fresh l ended ∧ w_unsynced (lw l) = 0) a
    ∧ chain_end 0 (tiles T (sg_base a)) = sg_size a
    ∧ mem_ok (sg_next a) (lb l) (lf l)
    ∧ v_hwm (lv l) <= sg_next a ∧ v_durable (lv l) <= sg_next a
    ∧ phase_ok p (sg_next a) (lf l) (lw l);
  iv_lookup : lookup_ok (segments l) T (lx l);
  iv_names : ∀ a base, active l = Some a → is_Some (dk_files (ld l) !! base) → base <= sg_base a;
  iv_dom : ∀ base, is_Some (T !! base) → ∃ s, s ∈ segments l ∧ sg_base s = base;
  iv_buffer : g <= b_base (lb l) ∧ records_at A (b_base (lb l)) (b_records (lb l));
  iv_flushing : fl_valid (lf l) = true → g <= fl_base (lf l) ∧ records_at A (fl_base (lf l)) (fl_records (lf l));
  iv_unsynced : 0 <= w_unsynced (lw l);
  iv_committed : ∀ off r, C !! off = Some r → off < v_hwm (lv l) ∧ secured (ld l) T off r;
  iv_hwm : hwm_ok (lv l) g C ended;
}.

(** ** Segments *)

Lemma segments_last l a : active l = Some a → segments l = removelast (segments l) ++ [a].
Proof.
  unfold active. intros [ss E]%last_Some. rewrite E. f_equal. symmetry. apply removelast_last.
Qed.

Lemma sealed_before l a s :
  segs_ok (segments l) → active l = Some a → s ∈ removelast (segments l) → seg_before s a.
Proof.
  intros [Hs _] Ha Hin. rewrite (segments_last _ _ Ha) in Hs.
  apply list_elem_of_lookup_1 in Hin as [i Hi].
  eapply (sorted_lookup _ _ i (length (removelast (segments l)))); [exact Hs|by eapply lookup_lt_Some| |].
  - by apply lookup_app_l_Some.
  - by apply list_lookup_middle.
Qed.

Lemma segments_cases l a s :
  active l = Some a → s ∈ segments l ↔ s ∈ removelast (segments l) ∨ s = a.
Proof. intros Ha. rewrite (segments_last _ _ Ha) at 1. rewrite elem_of_app, list_elem_of_singleton. done. Qed.

Lemma inv_disk l p g A C e T : inv l p g A C e T → disk_ok cs (ld l) T.
Proof.
  intros H. constructor; [apply H|]. intros s Hs. destruct (iv_active _ _ _ _ _ _ _ H) as (a&Ha&Hia&_).
  destruct (proj1 (segments_cases l a s Ha) Hs) as [Hs'| ->]; [|apply Hia]. by apply (iv_sealed _ _ _ _ _ _ _ H).
Qed.

(** ** Changing the active segment *)

Lemma tile_inv_mono f g g' A hwm fr fr' sy sy' t :
  tile_inv f g A hwm fr sy t → (fr' → fr) → (sy' → sy) → g' <= g → g' = g ∨ t_next t <= g' →
  tile_inv f g' A hwm fr' sy' t.
Proof.
  intros Ht Hf Hs Hg Hc. unfold tile_inv in *. destruct Ht as [Ht|[Ht Hgood]]; [left; lia|right].
  split; [lia|]. intros recs Hr. destruct (Hgood recs Hr) as (?&?&?&?). naive_solver.
Qed.

Lemma file_at_set base f d k : file_at (set_file base f d) k = if decide (k = base) then f else file_at d k.
Proof. unfold file_at, set_file. cbn. case_decide; subst; by simplify_map_eq. Qed.

Lemma tiles_insert T base ts k : tiles (<[base:=ts]> T) k = if decide (k = base) then ts else tiles T k.
Proof. unfold tiles. case_decide; subst; by simplify_map_eq. Qed.

Lemma set_active_id d a : last (dk_segments d) = Some a → set_active a d = d.
Proof.
  intros [ss E]%last_Some. destruct d as [fs rm segs]. unfold set_active. cbn in *. rewrite E. f_equal.
  by rewrite removelast_last.
Qed.

Lemma sorted_replace_last ss a a' :
  segs_ok (ss ++ [a]) → sg_base a' = sg_base a → sg_base a <= sg_next a' <= max_int64 → segs_ok (ss ++ [a']).
Proof.
  intros [Hs Hr] Hb Hn. constructor.
  - clear Hr. induction ss as [|s ss IH]; cbn in *; [constructor; constructor|].
    apply StronglySorted_inv in Hs as [Hs Ha]. constructor; [by apply IH|].
    apply Forall_app in Ha as [Ha1 Ha2]. apply Forall_app. split; [done|]. apply Forall_cons in Ha2 as [Ha2 _].
    apply Forall_singleton. unfold seg_before in *. lia.
  - intros s [Hs'|Hs']%elem_of_app; [apply Hr; set_solver|]. apply list_elem_of_singleton in Hs' as ->.
    destruct (Hr a ltac:(set_solver)). lia.
Qed.

Lemma inv_update l p g A C e T a l' p' g' a' f ts :
  inv l p g A C e T → active l = Some a →
  ld l' = set_active a' (set_file (sg_base a) f (ld l)) → lo l' = lo l → v_hwm (lv l') = v_hwm (lv l) →
  sg_base a' = sg_base a → sg_base a <= sg_next a' <= max_int64 →
  (fresh l' e → fresh l e) → g' <= g → g' = g ∨ sg_next a' <= g' →
  seg_ok cs (bytes f) ts a' → chain_end 0 ts = sg_size a' →
  (∀ t, t ∈ ts → tile_inv f g' A (v_hwm (lv l')) (fresh l' e) (fresh l' e ∧ w_unsynced (lw l') = 0) t) →
  lookup_ok (removelast (segments l) ++ [a']) (<[sg_base a := ts]> T) (lx l') →
  mem_ok (sg_next a') (lb l') (lf l') → v_hwm (lv l') <= sg_next a' → v_durable (lv l') <= sg_next a' →
  phase_ok p' (sg_next a') (lf l') (lw l') →
  g' <= b_base (lb l') ∧ records_at A (b_base (lb l')) (b_records (lb l')) →
  (fl_valid (lf l') = true → g' <= fl_base (lf l') ∧ records_at A (fl_base (lf l')) (fl_records (lf l'))) →
  0 <= w_unsynced (lw l') →
  (∀ t, t ∈ tiles T (sg_base a) → good t = true → t_base t < v_hwm (lv l') →
     cells is_kept (file_at (ld l) (sg_base a)) (t_pos t) (t_end t) → t ∈ ts ∧ cells is_kept f (t_pos t) (t_end t)) →
  hwm_ok (lv l') g' C e →
  inv l' p' g' A C e (<[sg_base a := ts]> T).
Proof.
  intros H Ha Hld Hlo Hhw Hb Hn Hfr Hg Hg' Hseg Hend Htiles Hlk Hmem Hw Hd Hp Hbuf Hfl Hun Hkeep Hh.
  destruct (iv_active _ _ _ _ _ _ _ H) as (a0&Ha0&Hia&_). rewrite Ha in Ha0. injection Ha0 as <-.
  assert (segments l' = removelast (segments l) ++ [a']) as Hsegs by (unfold segments; by rewrite Hld).
  assert (active l' = Some a') as Ha' by (unfold active; rewrite Hsegs; apply last_snoc).
  assert (removelast (segments l') = removelast (segments l)) as Hrm by (rewrite Hsegs; apply removelast_last).
  assert (∀ k, file_at (ld l') k = if decide (k = sg_base a) then f else file_at (ld l) k) as Hf.
  { intros k. rewrite Hld. apply (file_at_set (sg_base a) f (ld l) k). }
  pose proof (segments_last _ _ Ha) as Hlast. pose proof (iv_segs _ _ _ _ _ _ _ H) as Hso.
  constructor.
  - rewrite Hlo. apply H.
  - rewrite Hsegs. rewrite Hlast in Hso. by apply (sorted_replace_last _ a).
  - intros s Hs. rewrite Hrm in Hs. pose proof (sealed_before _ _ _ Hso Ha Hs) as [Hb1 Hb2].
    destruct (iv_sealed _ _ _ _ _ _ _ H s Hs) as [S1 S2 S3]. assert (sg_base s ≠ sg_base a) as Hne by lia. constructor.
    + unfold contents. rewrite Hf, tiles_insert, !decide_False by done. done.
    + rewrite Hld. cbn. by rewrite lookup_insert_ne by done.
    + intros t. rewrite Hf, tiles_insert, !decide_False by done. intros Ht. rewrite Hhw.
      apply (tile_inv_mono _ g _ _ _ (fresh l e) _ (fresh l e)); [by apply S3|done|done|done|].
      destruct Hg' as [->|Hg']; [by left|right]. destruct S1 as [Hc Hcn _ _ _].
      apply (chain_elem _ _ _ _ _ _ Hc) in Ht as (_&_&_&_&?). lia.
  - exists a'. split; [done|]. split; [|rewrite Hb, tiles_insert, decide_True by done; done]. constructor.
    + unfold contents. rewrite Hb, Hf, tiles_insert, !decide_True by done. done.
    + rewrite Hld, Hb. cbn. rewrite lookup_insert_eq. done.
    + intros t. rewrite Hb, Hf, tiles_insert, !decide_True by done. apply Htiles.
  - by rewrite Hsegs.
  - intros x k Hx. rewrite Ha' in Hx. injection Hx as <-. rewrite Hld, Hb. cbn. destruct (decide (k = sg_base a)) as [->|Hne]; [done|].
    rewrite lookup_insert_ne by done. by apply (iv_names _ _ _ _ _ _ _ H).
  - intros base [ts0 Hts]. destruct (decide (base = sg_base a)) as [->|Hne].
    { exists a'. rewrite Hsegs. split; [set_solver|done]. }
    rewrite lookup_insert_ne in Hts by done. destruct (iv_dom _ _ _ _ _ _ _ H base) as (s&Hs&Hsb); [by eexists|].
    exists s. split; [|done]. rewrite Hsegs. rewrite Hlast in Hs. set_solver.
  - done.
  - done.
  - done.
  - intros off r Hc. destruct (iv_committed _ _ _ _ _ _ _ H off r Hc) as [Ho (s&t&recs&Hs&Ht&Hk&Hho&Hr&Hce)].
    rewrite Hhw. split; [done|]. rewrite <-Hhw in Ho. apply (segments_cases _ _ _ Ha) in Hs as [Hs| ->].
    + pose proof (sealed_before _ _ _ Hso Ha Hs) as [Hb1 Hb2]. assert (sg_base s ≠ sg_base a) as Hne by lia.
      exists s, t, recs. rewrite Hf, tiles_insert, !decide_False by done. split; [|done].
      change (s ∈ segments l'). rewrite Hsegs. set_solver.
    + destruct (Hkeep t Ht) as [Ht' Hce']; [unfold good; by rewrite Hk|unfold holds in Hho; lia|done|].
      exists a', t, recs. rewrite Hb, Hf, tiles_insert, !decide_True by done. split; [|done].
      change (a' ∈ segments l'). rewrite Hsegs. set_solver.
  - done.
Qed.

End Inv.
