(* ===== verification/PartSteps.v ===== *)
(** * Steps of a partition log

    Each operation of a log, and each step of its flusher, preserves the
    invariant of [PartInv], whatever system call fails. *)

From S2P Require Import Prelude Octets PartFrame PartCache PartLog PartFlush PartBytes PartWalk PartLookup PartRun PartInv.

#[local] Arguments Z.mul : simpl never.
#[local] Arguments Z.add : simpl never.
#[local] Arguments Z.sub : simpl never.
#[local] Arguments Z.pow : simpl never.
#[local] Arguments Z.of_nat : simpl never.
#[local] Arguments Z.to_nat : simpl never.

(** What verifies still verifies. *)
Definition grows (d : disk) (T : layout) (d' : disk) (T' : layout) : Prop := ∀ off, kept_good d T off → kept_good d' T' off.

Lemma grows_refl d T : grows d T d T.
Proof. by intros off. Qed.
#[export] Hint Resolve grows_refl : core.

Lemma grows_trans d1 T1 d2 T2 d3 T3 : grows d1 T1 d2 T2 → grows d2 T2 d3 T3 → grows d1 T1 d3 T3.
Proof. unfold grows. auto. Qed.

Lemma grows_tiles d T d' T' :
  (∀ s, s ∈ dk_segments d → ∃ s', s' ∈ dk_segments d' ∧ sg_base s' = sg_base s ∧ ∀ t, t ∈ tiles T (sg_base s) → t ∈ tiles T' (sg_base s)) →
  grows d T d' T'.
Proof. intros H off (s&t&Hs&Ht&Hg&Hho). destruct (H s Hs) as (s'&Hs'&E&Hsub). exists s', t. rewrite E. auto. Qed.

Lemma grows_same d d' T base : dk_segments d' = dk_segments d → grows d T d' (<[base := tiles T base]> T).
Proof.
  intros E. apply grows_tiles. intros s Hs. exists s. rewrite E. split; [done|]. split; [done|]. intros t.
  rewrite tiles_insert. case_decide as Hb; [by rewrite Hb|done].
Qed.

(** ** The flushing snapshot *)

Lemma mem_ok_clear W b f : mem_ok W b f → mem_ok W b (clearFlushingThrough W f).
Proof.
  intros H. pose proof H as [Hn Hm Hv Hi]. unfold clearFlushingThrough. destruct (fl_valid f) eqn:E; cbn [negb orb]; [|done].
  destruct (Hv eq_refl) as (H1&H2&H3&H4). destruct (W <=? fl_base f) eqn:E1; [done|].
  unfold fl_end in *. destruct (Z.of_nat (length (fl_records f)) <=? W - fl_base f) eqn:E2.
  - constructor; [done|done|done|]. intros _. lia.
  - constructor; [done|done| |done]. intros _. unfold fl_end. cbn [fl_base fl_written fl_records]. rewrite length_drop. lia.
Qed.

Lemma unwritten_clear W b f : mem_ok W b f → unwritten W (clearFlushingThrough W f) = unwritten W f.
Proof.
  intros [Hn Hm Hv Hi]. unfold clearFlushingThrough, unwritten. destruct (fl_valid f) eqn:E; cbn [negb orb]; [|by rewrite E].
  destruct (Hv eq_refl) as (H1&H2&H3&H4). destruct (W <=? fl_base f) eqn:E1; [by rewrite E|].
  destruct (Z.of_nat (length (fl_records f)) <=? W - fl_base f) eqn:E2; cbn [fl_valid fl_base fl_records emptyFlushing].
  - symmetry. apply drop_ge. lia.
  - by rewrite Z.sub_diag.
Qed.

Lemma records_at_drop A base rs k : records_at A base rs → records_at A (base + Z.of_nat k) (drop k rs).
Proof. intros H i r Hi. rewrite lookup_drop in Hi. apply H in Hi. rewrite <-Hi. f_equal. lia. Qed.

Lemma clear_past A g W f :
  (fl_valid f = true → g <= fl_base f ∧ records_at A (fl_base f) (fl_records f)) →
  fl_valid (clearFlushingThrough W f) = true →
  g <= fl_base (clearFlushingThrough W f) ∧ records_at A (fl_base (clearFlushingThrough W f)) (fl_records (clearFlushingThrough W f)).
Proof.
  intros H. unfold clearFlushingThrough. destruct (fl_valid f) eqn:E; cbn [negb orb]; [|by rewrite E].
  destruct (H eq_refl) as [Hg Hr]. destruct (W <=? fl_base f) eqn:E1; [done|]. case_match; [done|]. intros _. cbn [fl_base fl_records].
  split; [lia|]. replace W with (fl_base f + Z.of_nat (Z.to_nat (W - fl_base f))) at 1 by lia. by apply records_at_drop.
Qed.

Section Steps.
Context (o : Options).
Abbreviation cs := (o_codecs o).
Abbreviation inv := (inv o).

Implicit Types (l : Log) (T : layout) (A C : gmap Z octets).

(** ** Operations that leave the disk alone *)

Lemma tile_inv_past f g A A' hwm fr sy W t b :
  tile_inv f g A hwm fr sy t → (∀ off r, off < W → A !! off = Some r → A' !! off = Some r) → t_next t <= W →
  tile_ok cs b t → tile_inv f g A' hwm fr sy t.
Proof.
  intros [Ht|[Hg Ht]] HA Hn Hok; [by left|right]. split; [done|]. intros recs Hk. destruct (Ht recs Hk) as (H1&H2).
  split; [|done]. intros i r Hi. apply HA; [|by apply H1]. apply lookup_lt_Some in Hi.
  destruct Hok as [Hp _ _ _ _ Hkind]. unfold kind_ok in Hkind. rewrite Hk in Hkind. destruct Hkind as (h&Hrd&_&Hc).
  apply readFrameAt_ok in Hrd as (_&_&_&Hl); [|done]. unfold t_next in Hn. lia.
Qed.

Lemma seg_inv_past d T g A A' hwm fr sy s W :
  seg_inv o d T g A hwm fr sy s → (∀ off r, off < W → A !! off = Some r → A' !! off = Some r) → sg_next s <= W →
  seg_inv o d T g A' hwm fr sy s.
Proof.
  intros [H1 H2 H3] HA Hn. constructor; [done|done|]. intros t Ht. destruct H1 as [Hc Hcn _ _ _].
  pose proof (chain_elem _ _ _ _ _ _ Hc Ht) as (Hok&_&_&_&?). eapply tile_inv_past; [by apply H3|done|lia|done].
Qed.

Lemma inv_frame l p g A C e T l' p' A' a :
  inv l p g A C e T → active l = Some a →
  ld l' = ld l → lo l' = lo l → lv l' = lv l → w_poisoned (lw l') = w_poisoned (lw l) → w_unsynced (lw l') = w_unsynced (lw l) →
  (∀ off r, off < sg_next a → A !! off = Some r → A' !! off = Some r) →
  lookup_ok (segments l) T (lx l') → mem_ok (sg_next a) (lb l') (lf l') → phase_ok p' (sg_next a) (lf l') (lw l') →
  g <= b_base (lb l') ∧ records_at A' (b_base (lb l')) (b_records (lb l')) →
  (fl_valid (lf l') = true → g <= fl_base (lf l') ∧ records_at A' (fl_base (lf l')) (fl_records (lf l'))) →
  inv l' p' g A' C e T.
Proof.
  intros H Ha Hd Ho Hv Hpo Hun HA Hlk Hm Hp Hb Hf. destruct (iv_active _ _ _ _ _ _ _ _ H) as (a0&Ha0&Hia&Hend&Hmem&Hh&Hdu&Hph).
  rewrite Ha in Ha0. injection Ha0 as <-.
  assert (segments l' = segments l) as Hs by (unfold segments; by rewrite Hd).
  assert (fresh l' e = fresh l e) as Hfr by (unfold fresh; by rewrite Hpo).
  constructor; rewrite ?Hs, ?Hd, ?Hv, ?Hfr, ?Hun, ?Ho; try (done || apply H).
  - intros s Hin. pose proof (sealed_before _ _ _ (iv_segs _ _ _ _ _ _ _ _ H) Ha Hin) as [Hb1 Hb2].
    destruct (iv_segs _ _ _ _ _ _ _ _ H) as [_ Hr]. pose proof (segments_cases _ _ a Ha) as [_ Hain].
    specialize (Hr a (Hain (or_intror eq_refl))). eapply seg_inv_past; [by apply H|done|lia].
  - exists a. split; [unfold active; by rewrite Hs|]. split; [|done]. eapply seg_inv_past; [done|done|lia].
  - intros x k Hx. apply (iv_names _ _ _ _ _ _ _ _ H). unfold active in *. by rewrite <-Hs.
Qed.

Lemma inv_phase l p g A C e T p' :
  inv l p g A C e T → (∀ a, active l = Some a → phase_ok p' (sg_next a) (lf l) (lw l)) → inv l p' g A C e T.
Proof.
  intros H Hp. destruct (iv_active _ _ _ _ _ _ _ _ H) as (a&Ha&Hia&Hend&Hmem&Hh&Hdu&Hph).
  eapply (inv_frame l p g A C e T l p' A a); try done; try apply H. by apply Hp.
Qed.

(** ** Syncing *)

Lemma seg_ok_active b ts s :
  chain cs b 0 (sg_base s) ts → chain_next (sg_base s) ts <= sg_next s → chain_end 0 ts = sg_size s → seg_ok cs b ts s.
Proof. intros Hc Hn He. constructor; [done|done|lia|by left|]. intros i h x Hi. lia. Qed.

Lemma lookup_ok_ext segs T T' x : (∀ k, tiles T' k = tiles T k) → lookup_ok segs T x → lookup_ok segs T' x.
Proof. intros HT [H1 H2 H3 H4 H5]. constructor; intros *; rewrite ?HT; eauto. Qed.

(** The status of the active file changes, its bytes do not. *)
Lemma inv_restatus l p g A C e T a l' p' st :
  inv l p g A C e T → active l = Some a →
  ld l' = set_file (sg_base a) (restatus st (file_at (ld l) (sg_base a))) (ld l) →
  lo l' = lo l → v_hwm (lv l') = v_hwm (lv l) → v_durable (lv l') <= sg_next a → (fresh l' e → fresh l e) →
  st Kept = Kept →
  (fresh l' e → st Dirty ≠ Lost) → (fresh l' e → w_unsynced (lw l') = 0 → w_unsynced (lw l) = 0 ∨ st Dirty = Kept) →
  lx l' = lx l → mem_ok (sg_next a) (lb l') (lf l') → phase_ok p' (sg_next a) (lf l') (lw l') →
  g <= b_base (lb l') ∧ records_at A (b_base (lb l')) (b_records (lb l')) →
  (fl_valid (lf l') = true → g <= fl_base (lf l') ∧ records_at A (fl_base (lf l')) (fl_records (lf l'))) →
  0 <= w_unsynced (lw l') → hwm_ok (lv l') g C e →
  inv l' p' g A C e (<[sg_base a := tiles T (sg_base a)]> T).
Proof.
  intros H Ha Hd Ho Hh Hdu Hfr HK HD HU Hx Hm Hp Hb Hf Hun Hhw. pose proof (iv_active _ _ _ _ _ _ _ _ H) as (a0&Ha0&Hia&Hend&Hmem&Hhn&_&_).
  rewrite Ha in Ha0. injection Ha0 as <-. destruct Hia as [S1 S2 S3].
  pose proof (segments_last _ _ Ha) as Hlast. destruct (iv_segs _ _ _ _ _ _ _ _ H) as [_ Hr].
  specialize (Hr a ltac:(rewrite Hlast; set_solver)).
  assert (∀ f from to, cells is_kept f from to → cells is_kept (restatus st f) from to) as Hkk.
  { intros. eapply cells_restatus; [|done]. intros ? ->. done. }
  eapply (inv_update o l p g A C e T a l' p' g a (restatus st (file_at (ld l) (sg_base a)))); try done; try lia.
  - by rewrite Hd, set_active_id.
  - by rewrite bytes_restatus.
  - intros t Ht. rewrite Hh. destruct (S3 t Ht) as [?|[Hg Ht']]; [by left|right]. split; [done|]. intros recs Hk.
    destruct (Ht' recs Hk) as (R1&R2&R3&R4). split; [done|]. split; [|split; [|by auto]].
    + intros F. eapply cells_restatus; [|by apply R2, Hfr]. intros [] Hst; [by apply HD|done|by rewrite HK].
    + intros [F U]. destruct (HU F U) as [U'|E].
      { apply Hkk, R3. auto. }
      eapply cells_restatus; [|by apply R2, Hfr]. intros [] Hst; [done|done|done].
  - rewrite <-Hlast, Hx. apply (lookup_ok_ext _ T); [|apply H]. intros k. rewrite tiles_insert. by case_decide; subst.
  - intros t Ht Hgt _ Hc. split; [done|]. by apply Hkk.
Qed.

Lemma hwm_ok_durable v g C e tail : hwm_ok v g C e → hwm_ok (with_durable tail v) g C e.
Proof. intros []. by constructor. Qed.

(** [syncIfNeeded]. *)
Lemma inv_sync force ok now l g A C e T l' r a :
  inv l Idle g A C e T → active l = Some a → syncIfNeeded force ok now l = (l', r) →
  ∃ T', inv l' Idle g A C e T' ∧ active l' = Some a ∧ lb l' = lb l ∧ lo l' = lo l
    ∧ unwritten (sg_next a) (lf l') = unwritten (sg_next a) (lf l) ∧ v_hwm (lv l') = v_hwm (lv l)
    ∧ grows (ld l) T (ld l') T' ∧ (ok = true → r = true)
    ∧ (r = true → w_poisoned (lw l') = w_poisoned (lw l) ∧ (force = true → w_unsynced (lw l') = 0)).
Proof.
  intros H Ha. pose proof (iv_active _ _ _ _ _ _ _ _ H) as (a0&Ha0&Hia&Hend&Hmem&Hhn&Hdn&_).
  rewrite Ha in Ha0. injection Ha0 as <-. pose proof (iv_unsynced _ _ _ _ _ _ _ _ H).
  unfold syncIfNeeded. destruct (w_unsynced (lw l) <=? 0) eqn:E.
  { intros [= <- <-]. exists T. split; [done|]. do 7 (split; [done|]). intros _. split; [done|]. lia. }
  destruct (negb force && negb (shouldSync now l)) eqn:E2.
  { intros [= <- <-]. exists T. split; [done|]. do 7 (split; [done|]). intros _. split; [done|]. by intros ->. }
  rewrite Ha. destruct ok; intros [= <- <-]; exists (<[sg_base a := tiles T (sg_base a)]> T).
  - split; [eapply inv_restatus with (p := Idle) (l := l); cbn; rewrite ?f_sync_restatus; try done; try apply H|].
    + intros _ _. by right.
    + by apply mem_ok_clear.
    + apply clear_past, H.
    + apply hwm_ok_durable, H.
    + split; [done|]. split; [done|]. split; [done|]. split; [by apply (unwritten_clear _ (lb l))|]. split; [done|].
      split; [by apply grows_same|]. done.
  - split; [eapply inv_restatus with (p := Idle) (l := l); cbn; rewrite ?f_sync_failed_restatus; try done; try apply H|].
    + by intros [[=] _].
    + by intros [[=] _].
    + by intros [[=] _].
    + do 5 (split; [done|]). split; [by apply grows_same|done].
Qed.

(** ** Rolling *)

Lemma lookup_ok_segs segs segs' T x :
  lookup_ok segs T x → (∀ a, last segs' = Some a → tiles T (sg_base a) = []) → lookup_ok segs' T x.
Proof. intros [H1 H2 H3 H4 H5] Ha. constructor; try done. intros a Hl _ t. rewrite Ha by done. by intros ?%elem_of_nil. Qed.

Lemma segments_snoc segs a a' :
  segs_ok segs → last segs = Some a → sg_base a' = sg_next a → sg_next a' = sg_next a → sg_base a ≠ sg_next a → segs_ok (segs ++ [a']).
Proof.
  intros [Hs Hr] Hl Hb Hn Hne. destruct (Hr a) as [Ha1 Ha2]; [by eapply last_Some_elem_of|]. constructor.
  - apply last_Some in Hl as [ss ->]. clear Hr. induction ss as [|s ss IH]; cbn in *.
    + repeat constructor; unfold seg_before in *; lia.
    + apply StronglySorted_inv in Hs as [Hs Hall]. constructor; [by apply IH|]. apply Forall_app. split; [done|].
      apply Forall_app in Hall as [_ Hall]. apply Forall_cons in Hall as [[] _]. apply Forall_singleton. unfold seg_before. lia.
  - intros s [Hin|Hin%list_elem_of_singleton]%elem_of_app; [by apply Hr|]. subst. lia.
Qed.

(** A new active segment, where the old one ends. *)
Lemma inv_create l g A C e T a now w :
  inv l Idle g A C e T → active l = Some a → w_unsynced (lw l) = 0 → dk_files (ld l) !! sg_next a = None →
  w_unsynced w = 0 → w_poisoned w = w_poisoned (lw l) →
  inv (with_writer w (with_disk (MkDisk (<[sg_next a := []]> (dk_files (ld l))) (dk_removed (ld l))
         (segments l ++ [MkSegment (sg_next a) (sg_next a) 0 None (Some now)])) l)) Idle g A C e (<[sg_next a := []]> T).
Proof.
  intros H Ha Hu Hno Hwu Hwp. pose proof (iv_active _ _ _ _ _ _ _ _ H) as (a0&Ha0&Hia&Hend&Hmem&Hhn&Hdn&_).
  rewrite Ha in Ha0. injection Ha0 as <-. pose proof (iv_segs _ _ _ _ _ _ _ _ H) as Hso.
  assert (∀ s, s ∈ segments l → is_Some (dk_files (ld l) !! sg_base s)
            ∧ seg_inv o (ld l) T g A (v_hwm (lv l)) (fresh l e) (fresh l e) s) as Hall.
  { intros s Hs. apply (segments_cases _ _ _ Ha) in Hs as [Hs| ->].
    - split; by apply (iv_sealed _ _ _ _ _ _ _ _ H).
    - split; [apply Hia|]. destruct Hia as [S1 S2 S3]. constructor; [done|done|]. intros t Ht.
      eapply tile_inv_mono; [by apply S3|done| |lia|by left]. done. }
  assert (∀ s, s ∈ segments l → sg_base s ≠ sg_next a) as Hne.
  { intros s Hs E. destruct (Hall s Hs) as [[f Hf] _]. rewrite E in Hf. congruence. }
  assert (tiles T (sg_next a) = []) as Hnil.
  { unfold tiles. destruct (T !! sg_next a) eqn:E; [|done]. destruct (iv_dom _ _ _ _ _ _ _ _ H (sg_next a)) as (s&Hs&Hsb); [by eexists|].
    by destruct (Hne s Hs). }
  assert (∀ k, tiles (<[sg_next a := []]> T) k = tiles T k) as HT.
  { intros k. rewrite tiles_insert. case_decide; [by subst|done]. }
  assert (0 <= sg_base a <= sg_next a ∧ sg_next a <= max_int64) as Hrange.
  { apply Hso. by eapply last_Some_elem_of. }
  set (a' := MkSegment (sg_next a) (sg_next a) 0 None (Some now)).
  assert (a ∈ segments l) as Hain by (by eapply last_Some_elem_of).
  constructor; cbn.
  - apply H.
  - by apply (segments_snoc _ a); [done|done|done|done|apply Hne].
  - rewrite (removelast_last (segments l) a'). intros s Hs. destruct (Hall s Hs) as [_ [S1 S2 S3]].
    pose proof (Hne s Hs) as Hns. constructor; cbn.
    + unfold contents, file_at. cbn. rewrite lookup_insert_ne, HT by done. done.
    + by rewrite lookup_insert_ne by done.
    + intros t. rewrite HT. unfold file_at. cbn. rewrite lookup_insert_ne by done. unfold fresh. cbn. rewrite Hwp. by apply S3.
  - exists a'. split; [apply last_snoc|]. split; [|cbn; rewrite HT, Hnil; by repeat (split; [done|])]. constructor; cbn.
    + rewrite HT, Hnil. apply seg_ok_active; done.
    + rewrite lookup_insert_eq. done.
    + rewrite HT, Hnil. by intros t ?%elem_of_nil.
  - apply (lookup_ok_ext _ T); [done|]. eapply lookup_ok_segs; [apply H|]. intros x. rewrite last_snoc. by intros [= <-].
  - intros y k Hy. change (last (segments l ++ [a']) = Some y) in Hy. rewrite last_snoc in Hy. injection Hy as <-. cbn.
    destruct (decide (k = sg_next a)) as [->|Hb]; [done|]. rewrite lookup_insert_ne by done. intros Hk.
    pose proof (iv_names _ _ _ _ _ _ _ _ H a k Ha Hk). lia.
  - intros base [ts Hts]. destruct (decide (base = sg_next a)) as [->|Hb].
    { exists a'. split; [set_solver|done]. }
    rewrite lookup_insert_ne in Hts by done. destruct (iv_dom _ _ _ _ _ _ _ _ H base) as (s&Hs&Hsb); [by eexists|].
    exists s. split; [set_solver|done].
  - apply H.
  - apply H.
  - lia.
  - intros off r Hc. destruct (iv_committed _ _ _ _ _ _ _ _ H off r Hc) as [Ho (s&t&recs&Hs&Ht&Hk&Hho&Hr&Hce)].
    split; [done|]. exists s, t, recs. rewrite HT. unfold file_at in *. cbn. rewrite lookup_insert_ne by (symmetry; by apply Hne).
    split; [set_solver|done].
  - apply H.
Qed.

Lemma grows_create l p g A C e T a now d :
  inv l p g A C e T → active l = Some a → dk_files (ld l) !! sg_next a = None →
  dk_segments d = segments l ++ [MkSegment (sg_next a) (sg_next a) 0 None (Some now)] → grows (ld l) T d (<[sg_next a := []]> T).
Proof.
  intros H Ha Hno Hd. apply grows_tiles. intros s Hs. exists s. rewrite Hd. split; [set_solver|]. split; [done|]. intros t.
  rewrite tiles_insert. case_decide as E; [|done]. exfalso.
  assert (is_Some (dk_files (ld l) !! sg_base s)) as [f Hf]; [|rewrite E in Hf; congruence].
  pose proof (iv_active _ _ _ _ _ _ _ _ H) as (a0&Ha0&Hia&_). apply (segments_cases _ _ _ Ha0) in Hs as [Hs| ->]; [|apply Hia].
  by apply (iv_sealed _ _ _ _ _ _ _ _ H).
Qed.

(** [roll]. *)
Lemma inv_rolled i now l g A C e T l' r a :
  inv l Idle g A C e T → active l = Some a → io_create i ≠ CreateDirSyncFails true → roll i now l = (l', r) →
  ∃ T' a', inv l' Idle g A C e T' ∧ active l' = Some a' ∧ sg_next a' = sg_next a
    ∧ unwritten (sg_next a) (lf l') = unwritten (sg_next a) (lf l) ∧ grows (ld l) T (ld l') T'
    ∧ (r = true → w_poisoned (lw l') = w_poisoned (lw l))
    ∧ (io_rollSync i = true → io_create i = CreateOk → sg_base a < sg_next a → r = true).
Proof.
  intros H Ha Hio. unfold roll. destruct (syncIfNeeded true (io_rollSync i) now l) as [l1 ok] eqn:Es.
  destruct (inv_sync _ _ _ _ _ _ _ _ _ _ _ _ H Ha Es) as (T1&H1&Ha1&_&_&Hu1&_&Hg1&Hok1&Hr1). destruct ok; cycle 1.
  { intros [= <- <-]. exists T1, a. do 5 (split; [done|]). split; [by intros [=]|]. intros E. by specialize (Hok1 E). }
  rewrite Ha1. destruct (Hr1 eq_refl) as [Hp1 Hz1]. specialize (Hz1 eq_refl).
  unfold createSegment. destruct (dk_files (ld l1) !! sg_next a) eqn:Ef.
  { intros [= <- <-]. exists T1, a. split; [by destruct l1|]. do 4 (split; [done|]). split; [by intros [=]|]. intros _ _ Hlt.
    pose proof (iv_names _ _ _ _ _ _ _ _ H1 a (sg_next a) Ha1 ltac:(by eexists)). lia. }
  destruct (io_create i) as [| |[]] eqn:Ei; [|..|done|]; intros [= <- <-].
  - eexists _, _. split; [eapply inv_create; eauto|]. split; [apply last_snoc|]. do 2 (split; [done|]).
    split; [|done]. eapply grows_trans; [exact Hg1|]. by eapply grows_create.
  - exists T1, a. split; [by destruct l1|]. do 4 (split; [done|]). split; [by intros [=]|]. by intros _ [=].
  - exists T1, a. split; [by destruct l1|]. do 4 (split; [done|]). split; [by intros [=]|]. by intros _ [=].
Qed.

(** ** Writing a frame *)

(** Bytes behind the active segment's tiles change. *)
Lemma inv_behind l g A C e T a f :
  inv l Idle g A C e T → active l = Some a →
  extends (bytes (file_at (ld l) (sg_base a))) (bytes f) (sg_size a) →
  (bytes f !! Z.to_nat (sg_size a) = bytes (file_at (ld l) (sg_base a)) !! Z.to_nat (sg_size a)
   ∨ bytes f !! Z.to_nat (sg_size a) ≠ Some magicByte1) →
  (∀ P from to, 0 <= from → to <= sg_size a → cells P (file_at (ld l) (sg_base a)) from to → cells P f from to) →
  inv (with_disk (set_file (sg_base a) f (ld l)) l) Idle g A C e (<[sg_base a := tiles T (sg_base a)]> T).
Proof.
  intros H Ha He Hb Hcells. pose proof (iv_active _ _ _ _ _ _ _ _ H) as (a0&Ha0&Hia&Hend&Hmem&Hhn&Hdn&_).
  rewrite Ha in Ha0. injection Ha0 as <-. destruct Hia as [[S1 S1n _ _ _] S2 S3].
  pose proof (segments_last _ _ Ha) as Hlast. destruct (iv_segs _ _ _ _ _ _ _ _ H) as [_ Hr].
  specialize (Hr a ltac:(rewrite Hlast; set_solver)).
  assert (∀ t, t ∈ tiles T (sg_base a) → 0 <= t_pos t ∧ t_end t <= sg_size a) as Hin.
  { intros t Ht. apply (chain_elem _ _ _ _ _ _ S1) in Ht as (_&?&?&_). lia. }
  eapply (inv_update o l Idle g A C e T a _ Idle g a f); try done; try lia; try apply H.
  - cbn. by rewrite set_active_id.
  - apply seg_ok_active; [|done|done]. apply (chain_extends _ (contents (ld l) (sg_base a))); rewrite ?Hend; done.
  - intros t Ht. destruct (Hin t Ht). destruct (S3 t Ht) as [?|[Hg Ht']]; [by left|right]. split; [done|].
    intros recs Hk. destruct (Ht' recs Hk) as (R1&R2&R3&R4). split; [done|]. split; [|split]; intros; apply Hcells; auto.
  - rewrite <-Hlast. apply (lookup_ok_ext _ T); [|apply H]. intros k. rewrite tiles_insert. by case_decide; subst.
  - intros t Ht _ _ Hc. destruct (Hin t Ht). split; [done|]. by apply Hcells.
Qed.

Lemma encodeFrame_facts c rs base fr :
  encodeFrame c rs base = Ok fr →
  rs ≠ [] ∧ 0 < blen fr < 2 ^ 31 ∧ Z.of_nat (length rs) < 2 ^ 31 ∧ ∀ b, fr !! 0%nat = Some b → b ≠ magicByte1.
Proof.
  unfold encodeFrame. destruct rs as [|r rs]; [done|]. remember (r :: rs) as recs eqn:E. cbv zeta.
  destruct ((maxFrameBytes <? inner_size recs) || _) eqn:Eb; [done|]. intros ->%eq_sym%Ok_inj.
  apply orb_false_iff in Eb as [E1 E2]. destruct (inner_size_bounds recs) as [Hi _].
  split; [by subst|]. unfold maxFrameBytes in *. set (h := MkFrameHeader _ _ _ _ _ _). pose proof (blen_encodeHeader h) as Hl.
  unfold headerSize, blen in *. rewrite length_app. split; [lia|]. split; [lia|]. intros b. cbn. by intros [= <-].
Qed.

Lemma bytes_extend_trans x y z n : extends x y n → extends y z n → extends x z n.
Proof.
  intros H1 H2 i Hi. destruct (H1 i Hi) as [E1|[E1 E1']], (H2 i Hi) as [E2|[E2 E2']]; rewrite ?E2; rewrite <-?E1; try naive_solver.
Qed.

(** A write that failed. *)
Lemma inv_junk l g A C e T a k cut fr d :
  inv l Idle g A C e T → active l = Some a → (∀ b, fr !! 0%nat = Some b → b ≠ magicByte1) →
  writeEncodedFrame (WriteFails k cut) a fr (ld l) = (d, false) → ∃ T', inv (with_disk d l) Idle g A C e T'.
Proof.
  intros H Ha Hm. unfold writeEncodedFrame. intros [= <-].
  pose proof (iv_active _ _ _ _ _ _ _ _ H) as (a0&Ha0&[[S1 _ _ _ _] _ _]&Hend&_). rewrite Ha in Ha0. injection Ha0 as <-.
  pose proof (chain_end_ge _ _ _ _ _ S1) as Hsz. rewrite Hend in Hsz.
  eexists. eapply inv_behind; [done|done|..].
  - destruct cut; [|by apply extends_write]. eapply bytes_extend_trans; [by apply extends_write|apply extends_truncate].
  - destruct cut; [right; by rewrite byte_behind_truncate|]. apply byte_behind_write; [done|].
    intros b Hb. apply Hm. destruct k; [done|]. destruct fr; [done|]. done.
  - intros P from to Hf Ht Hc. destruct cut; [apply cells_truncate; [done|done|]|]; by apply cells_write.
Qed.

Lemma touch_prune segs base x k si :
  lk_idx (pruneSegmentIndexes segs base (touchSegmentIndex base x)) !! k = Some si →
  si_entries <$> lk_idx x !! k = Some (si_entries si).
Proof.
  intros Hk. unfold pruneSegmentIndexes in Hk. cbn in Hk. apply prune_loop_spec in Hk.
  rewrite <-(touch_entries base), Hk. done.
Qed.

Lemma touch_prune_keeps segs base x :
  is_Some (lk_idx x !! base) → is_Some (lk_idx (pruneSegmentIndexes segs base (touchSegmentIndex base x)) !! base).
Proof.
  intros [si Hs]. unfold pruneSegmentIndexes. cbn.
  destruct (prune_loop_spec (size (lk_idx (touchSegmentIndex base x))) segs base (lk_idx (touchSegmentIndex base x))) as (_&->&_).
  pose proof (touch_entries base x base) as E. rewrite Hs in E. cbn in E. apply fmap_Some in E as (?&->&_). done.
Qed.

(** An index grows with the file. *)
Lemma idx_ok_append o' base ts t es :
  idx_ok base ts es ∨ es = [] ∧ (∀ u, u ∈ ts → good u = false) →
  (∀ u, u ∈ ts → t_pos u < t_pos t ∧ t_base u <= t_base t) →
  idx_ok base (ts ++ [t]) (appendSparseIndexEntry o' es (entry_of base t)).
Proof.
  intros Hes Hb. assert (∀ x, x ∈ es → ∃ u, u ∈ ts ∧ x = entry_of base u) as Htiles.
  { destruct Hes as [[]|[-> _]]; [done|]. by intros x ?%elem_of_nil. }
  assert (StronglySorted before es) as Hsorted by (destruct Hes as [[]|[-> _]]; [done|constructor]).
  assert (appendSparseIndexEntry o' es (entry_of base t) = foldl (appendSparseIndexEntry o') es [entry_of base t]) as Ef by done.
  constructor.
  - intros x. rewrite Ef. intros [Hx|Hx%list_elem_of_singleton]%sparse_subset; [|exists t; split; [set_solver|done]].
    destruct (Htiles x Hx) as (u&?&?). exists u. split; [set_solver|done].
  - rewrite Ef. apply sparse_sorted. apply StronglySorted_app. split; [|split; [done|repeat constructor]].
    intros x y Hx ->%list_elem_of_singleton. destruct (Htiles x Hx) as (u&Hu&->). destruct (Hb u Hu). split; cbn; lia.
  - assert (∀ x, x ∈ es → x ∈ appendSparseIndexEntry o' es (entry_of base t)) as Hsub.
    { intros x Hx. unfold appendSparseIndexEntry. case_match; [set_solver|done]. }
    intros u [Hu|Hu%list_elem_of_singleton]%elem_of_app Hg.
    + destruct Hes as [[_ _ Hf]|[_ Hno]]; [|by rewrite Hno in Hg]. destruct (Hf u Hu Hg) as (x&?&?). eauto.
    + subst u. destruct es as [|x es].
      { exists (entry_of base t). split; [set_solver|done]. }
      exists x. split; [apply Hsub; set_solver|]. destruct (Htiles x) as (u&Hu&->); [set_solver|]. destruct (Hb u Hu). done.
Qed.

Lemma appendIndex_caches o' segs e x :
  lk_nav (appendIndex o' segs e x) = lk_nav x ∧ lk_frames (appendIndex o' segs e x) = lk_frames x.
Proof. unfold appendIndex, pruneSegmentIndexes, touchSegmentIndex. cbn. by case_match. Qed.

Lemma lookup_publish o' segs segs' T x a a' t recs cache size :
  lookup_ok segs T x → last segs = Some a → last segs' = Some a' → sg_base a' = sg_base a →
  (∀ u, u ∈ tiles T (sg_base a) → t_pos u < t_pos t ∧ t_base u <= t_base t) → t_kind t = Good recs →
  let e := entry_of (sg_base a) t in
  let x1 := appendIndex o' segs e x in
  let x2 := with_nav (nav_put (lk_nav x1) e) x1 in
  lookup_ok segs' (<[sg_base a := tiles T (sg_base a) ++ [t]]> T)
    (if cache : bool then with_frames (fc_putSized (lk_frames x2) (key_of e) recs size) x2 else x2).
Proof.
  intros [H1 H2 H3 H4 H5] Ha Ha' Hb Hu Hk e x1 x2. set (T' := <[sg_base a := _]> T).
  assert (∀ k u, u ∈ tiles T k → u ∈ tiles T' k) as Hsub.
  { intros k u Hin. unfold T'. rewrite tiles_insert. case_decide; [subst; set_solver|done]. }
  assert (t ∈ tiles T' (sg_base a)) as Ht by (unfold T'; rewrite tiles_insert, decide_True by done; set_solver).
  assert (∀ k u, u ∈ tiles T' k → u ∈ tiles T k ∨ k = sg_base a ∧ u = t) as Hcase.
  { intros k u. unfold T'. rewrite tiles_insert. case_decide; [subst; set_solver|by left]. }
  destruct (appendIndex_caches o' segs e x) as [En Ef]. fold x1 in En, Ef.
  assert (lookup_ok segs' T' x2) as Hx2.
  { constructor.
    - intros k si Hsi. apply touch_prune in Hsi. cbn in Hsi. unfold T'. rewrite tiles_insert. case_decide as Hkb.
      + subst k. rewrite lookup_insert_eq in Hsi. injection Hsi as <-. apply idx_ok_append; [|done].
        destruct (lk_idx x !! sg_base a) as [si0|] eqn:E; [left; by apply (H1 _ si0)|right]. split; [done|]. by apply H5.
      + rewrite lookup_insert_ne in Hsi by done. apply fmap_Some in Hsi as (si0&Hl&->). by apply H1.
    - unfold x2. cbn [lk_nav with_nav]. rewrite En. intros y Hy. apply nav_put_subset in Hy as [->|Hy]; [by exists t|]. destruct (H2 y Hy) as (u&?&?). eauto.
    - unfold x2. cbn [lk_frames with_nav]. rewrite Ef. intros c u rs Hc Hin Hp Hkr. destruct (Hcase _ _ Hin) as [Hin'|[Hkey ->]]; [by eapply H3|].
      destruct (H4 c Hc) as (u&Hu'&Hpu). rewrite Hkey in Hu'. destruct (Hu u Hu'). lia.
    - unfold x2. cbn [lk_frames with_nav]. rewrite Ef. intros c Hc. destruct (H4 c Hc) as (u&?&?). eauto.
    - intros ac Hac Hn. exfalso. rewrite Ha' in Hac. injection Hac as <-. rewrite Hb in Hn.
      assert (is_Some (lk_idx x2 !! sg_base a)) as [? Hs]; [|congruence].
      apply touch_prune_keeps. cbn. by rewrite lookup_insert_eq. }
  destruct cache; [|done]. apply lookup_ok_frames; [done|..].
  - intros c u rs Hc Hin Hp Hkr. apply fc_put_subset in Hc as [->|Hc]; [|by eapply (lk_frames_ok _ _ _ Hx2)]. cbn in *.
    destruct (Hcase _ _ Hin) as [Hin'|[_ ->]]; [destruct (Hu u Hin'); lia|]. congruence.
  - intros c Hc. apply fc_put_subset in Hc as [->|Hc]; [by exists t|]. by apply (lk_key_ok _ _ _ Hx2).
Qed.

(** What a written frame does to memory. *)
Lemma mem_ok_written W b f n :
  mem_ok W b f → (n <= length (unwritten W f))%nat → (0 < n)%nat →
  fl_valid f = true
  ∧ markFlushingWritten (W + Z.of_nat n) f = MkFlushing (fl_base f) (W + Z.of_nat n) (fl_records f) true
  ∧ mem_ok (W + Z.of_nat n) b (MkFlushing (fl_base f) (W + Z.of_nat n) (fl_records f) true)
  ∧ unwritten (W + Z.of_nat n) (MkFlushing (fl_base f) (W + Z.of_nat n) (fl_records f) true) = drop n (unwritten W f)
  ∧ W + Z.of_nat n <= max_int64.
Proof.
  intros [Hn Hm Hv Hi] Hl H0. unfold unwritten, markFlushingWritten in *. destruct (fl_valid f); [|cbn in Hl; lia].
  destruct (Hv eq_refl) as (V1&V2&V3&V4). rewrite length_drop in Hl. unfold fl_end in *. cbn [andb]. split; [done|].
  rewrite V2, (proj2 (Z.ltb_lt _ _)) by lia. split; [done|]. split; [|split; [|lia]].
  - constructor; [done|done| |done]. intros _. unfold fl_end. cbn. lia.
  - cbn. rewrite drop_drop. f_equal. lia.
Qed.

Lemma unwritten_past A g W f :
  (fl_valid f = true → g <= fl_base f ∧ records_at A (fl_base f) (fl_records f)) → fl_valid f = true → fl_base f <= W →
  records_at A W (unwritten W f) ∧ g <= W.
Proof.
  intros H Hv Hw. destruct (H Hv) as [Hg Hr]. unfold unwritten. rewrite Hv. split; [|lia].
  replace W with (fl_base f + Z.of_nat (Z.to_nat (W - fl_base f))) at 1 by lia. by apply records_at_drop.
Qed.

Lemma records_at_take A base rs k : records_at A base rs → records_at A base (take k rs).
Proof. intros H i r Hi. apply H. by apply lookup_take_Some in Hi as [? _]. Qed.

Hypothesis Hcodec : codec_ok (own cs).

(** A frame at the end of the active segment. *)
Lemma new_tile_ok f pos base recs fr :
  encodeFrame (own cs) recs base = Ok fr → 0 <= pos → 0 <= base → base + Z.of_nat (length recs) <= max_int64 →
  tile_ok cs (bytes (f_write pos fr f)) (Tile pos (blen fr) base (Z.of_nat (length recs)) (Good recs)).
Proof.
  intros He Hp Hb Hm. destruct (encodeFrame_facts _ _ _ _ He) as (_&Hl&_&_). constructor; cbn; try lia.
  - unfold t_next. cbn. lia.
  - unfold kind_ok. cbn. destruct (bytes_write_app pos fr f Hp) as (x&z&->&Hx). rewrite <-Hx. unfold t_end. cbn.
    destruct (read_encodeFrame cs recs base fr x z Hcodec ltac:(lia) He) as (h&?&?&?). eauto.
Qed.

Lemma chain_snoc f a ts fr t :
  chain cs (bytes f) 0 (sg_base a) ts → chain_end 0 ts = sg_size a → chain_next (sg_base a) ts <= t_base t →
  (∀ b, fr !! 0%nat = Some b → b ≠ magicByte1) → t_pos t = sg_size a →
  tile_ok cs (bytes (f_write (sg_size a) fr f)) t →
  chain cs (bytes (f_write (sg_size a) fr f)) 0 (sg_base a) (ts ++ [t]).
Proof.
  intros Hc He Hn Hm Hp Ht. pose proof (chain_end_ge _ _ _ _ _ Hc) as Hsz. rewrite He in Hsz. apply chain_app. split.
  - apply (chain_extends _ (bytes f)); [done| |]; rewrite He; [by apply extends_write|by apply byte_behind_write].
  - cbn [chain]. by rewrite He.
Qed.

(** The tiles of the active segment and the new one. *)
Lemma tile_inv_write f g A hwm fr sy pos n data t u :
  0 <= pos → hwm <= n → u = t ∧ t_pos t = pos ∧ t_end t = pos + blen data ∧ g <= n ∧ t_base t = n
    ∧ (∀ recs, t_kind t = Good recs → records_at A n recs)
  ∨ tile_inv f g A hwm fr sy u ∧ 0 <= t_pos u ∧ t_end u <= pos →
  tile_inv (f_write pos data f) g A hwm fr False u.
Proof.
  intros Hp Hh [(->&H1&H2&H3&H4&H5)|(Hu&H1&H2)].
  - right. split; [lia|]. intros recs Hk. rewrite H1, H2. split; [by rewrite H4; apply H5|].
    split; [|split; [done|lia]]. intros _. eapply cells_mono; [|by apply cells_written]. by intros ? ->.
  - destruct Hu as [Hu|[Hg Hu]]; [by left|right]. split; [done|]. intros recs Hk. destruct (Hu recs Hk) as (R1&R2&R3&R4).
    split; [done|]. split; [|split; [done|]]; intros; apply cells_write; auto.
Qed.

Lemma grows_publish l l' T a a' t :
  active l = Some a → segments l' = removelast (segments l) ++ [a'] → sg_base a' = sg_base a → good t = true →
  grows (ld l) T (ld l') (<[sg_base a := tiles T (sg_base a) ++ [t]]> T)
  ∧ ∀ off, t_base t <= off < t_next t → kept_good (ld l') (<[sg_base a := tiles T (sg_base a) ++ [t]]> T) off.
Proof.
  intros Ha Hs Hb Hg. split.
  - apply grows_tiles. intros s Hin. apply (segments_cases l a s Ha) in Hin as [Hin| ->]; [exists s|exists a'];
      (split; [change (dk_segments (ld l')) with (segments l'); rewrite Hs; set_solver|split; [done|]]); intros u;
      rewrite tiles_insert; case_decide as E; try done; [rewrite E|]; set_solver.
  - intros off Ho. exists a', t. rewrite Hb, tiles_insert, decide_True by done.
    split; [change (dk_segments (ld l')) with (segments l'); rewrite Hs; set_solver|]. split; [set_solver|]. done.
Qed.

Lemma inv_publish l g A C e T a k fr now cache :
  let W := sg_next a in
  let recs := take k (unwritten W (lf l)) in
  let l1 := with_disk (set_file (sg_base a) (f_write (sg_size a) fr (file_at (ld l) (sg_base a))) (ld l)) l in
  let l' := publish recs W (blen fr) now cache a l1 in
  inv l Idle g A C e T → active l = Some a → encodeFrame (own cs) recs W = Ok fr →
  ∃ T' a', inv l' Idle g A C e T' ∧ active l' = Some a' ∧ sg_next a' = W + Z.of_nat (length recs)
    ∧ unwritten (sg_next a') (lf l') = drop (length recs) (unwritten W (lf l))
    ∧ sg_base a' < sg_next a' ∧ grows (ld l) T (ld l') T' ∧ ∀ off, W <= off < sg_next a' → kept_good (ld l') T' off.
Proof.
  intros W recs l1 l' H Ha He. pose proof (iv_active _ _ _ _ _ _ _ _ H) as (a0&Ha0&Hia&Hend&Hmem&Hhn&Hdn&_).
  rewrite Ha in Ha0. injection Ha0 as <-. destruct Hia as [[S1 S1n _ _ _] S2 S3].
  destruct (encodeFrame_facts _ _ _ _ He) as (Hne&Hl&Hc&Hmag).
  assert (length recs = Nat.min k (length (unwritten W (lf l)))) as Hlen by apply length_take.
  assert (0 < length recs)%nat as Hpos by (apply Nat.neq_0_lt_0; by intros ?%nil_length_inv).
  destruct (mem_ok_written W _ _ (length recs) Hmem ltac:(lia) Hpos) as (Hv&Hmark&Hmem'&Hunw&Hmax).
  destruct (mo_valid _ _ _ Hmem Hv) as (V1&V2&V3&V4).
  destruct (unwritten_past A g W (lf l) (iv_flushing _ _ _ _ _ _ _ _ H) Hv V1) as [Hrec HgW].
  pose proof (segments_last _ _ Ha) as Hlast. destruct (iv_segs _ _ _ _ _ _ _ _ H) as [_ Hr].
  specialize (Hr a ltac:(rewrite Hlast; set_solver)).
  pose proof (chain_end_ge _ _ _ _ _ S1) as Hsz. rewrite Hend in Hsz.
  assert (i64 (W + Z.of_nat (length recs)) = W + Z.of_nat (length recs)) as Hi64.
  { apply i64_id. unfold in_i64, max_int64, two63 in *. unfold W in *. lia. }
  set (t := Tile (sg_size a) (blen fr) W (Z.of_nat (length recs)) (Good recs)).
  set (a' := MkSegment (sg_base a) (W + Z.of_nat (length recs)) (sg_size a + blen fr)
               (match sg_first a with Some t => Some t | None => Some now end) (Some now)).
  assert (tile_ok cs (bytes (f_write (sg_size a) fr (file_at (ld l) (sg_base a)))) t) as Htok.
  { apply new_tile_ok; [done|done|unfold W; lia|done]. }
  assert (entry_of (sg_base a) t = MkEntry (sg_base a) W (i32 (Z.of_nat (length recs))) (sg_size a) (i32 (blen fr))) as He'.
  { unfold entry_of, t. cbn. rewrite !i32_id by lia. done. }
  assert (∀ u, u ∈ tiles T (sg_base a) → tile_ok cs (contents (ld l) (sg_base a)) u ∧ 0 <= t_pos u ∧ t_end u <= sg_size a ∧ t_next u <= W) as Hin.
  { intros u Hu. apply (chain_elem _ _ _ _ _ _ S1) in Hu as (?&?&?&_&?). split; [done|]. unfold W. lia. }
  assert (active l' = Some a') as Ha'.
  { unfold active, l', publish. cbn. rewrite last_snoc. unfold a'. by rewrite Hi64. }
  exists (<[sg_base a := tiles T (sg_base a) ++ [t]]> T), a'. split; [|split; [done|split; [done|]]]; cycle 1.
  { split; [cbn; rewrite Hi64, Hmark; done|]. split; [cbn; unfold W in *; lia|]. apply (grows_publish l l' T a a' t); try done.
    cbn. unfold a'. by rewrite Hi64. }
  eapply (inv_update o l Idle g A C e T a l' Idle g a'); try done.
  - cbn. unfold a'. by rewrite Hi64.
  - cbn. unfold W in *. lia.
  - by left.
  - apply seg_ok_active.
    + apply (chain_snoc (file_at (ld l) (sg_base a)) a); done.
    + cbn. rewrite chain_next_app. done.
    + cbn. rewrite chain_end_app, Hend. done.
  - cbn. rewrite chain_end_app, Hend. done.
  - intros u Hu. eapply tile_inv_mono with (g := g) (sy := False) (fr := fresh l e);
      [|done|cbn; intros [_ E]; pose proof (iv_unsynced _ _ _ _ _ _ _ _ H); lia|lia|by left].
    eapply (tile_inv_write _ _ _ _ _ _ _ W _ t); [done|done|]. apply elem_of_app in Hu as [Hu|Hu%list_elem_of_singleton].
    + right. split; [by apply S3|]. destruct (Hin u Hu) as (_&?&?&_). done.
    + left. split; [done|]. split; [done|]. split; [done|]. split; [done|]. split; [done|]. cbn. intros rs [= <-]. by apply records_at_take.
  - cbn. rewrite <-He'. apply (lookup_publish _ _ _ _ _ a a'); [apply H|done|apply last_snoc|done| |done].
    intros u Hu. destruct (Hin u Hu) as ([]&?&?&?). unfold t, t_end, t_next in *. cbn. lia.
  - cbn. by rewrite Hi64, Hmark.
  - cbn. unfold W in *. lia.
  - cbn. unfold W in *. lia.
  - apply H.
  - cbn. rewrite Hi64, Hmark. cbn. intros _. by apply H.
  - cbn. pose proof (iv_unsynced _ _ _ _ _ _ _ _ H). lia.
  - intros u Hu _ _ Hk. destruct (Hin u Hu) as (_&?&?&_). split; [set_solver|]. by apply cells_write.
  - apply H.
Qed.

(** A roll can only be due on a segment that has records. *)
Definition can_write (l : Log) (a : segment) : Prop :=
  sg_base a < sg_next a ∨ w_rollPending (lw l) = false ∧ sg_size a = 0.

Lemma inv_activeForWrite i now l g A C e T l' r a :
  inv l Idle g A C e T → active l = Some a → io_create i ≠ CreateDirSyncFails true → activeForWrite i now l = (l', r) →
  ∃ T' a', inv l' Idle g A C e T' ∧ active l' = Some a' ∧ sg_next a' = sg_next a
    ∧ unwritten (sg_next a) (lf l') = unwritten (sg_next a) (lf l) ∧ grows (ld l) T (ld l') T'
    ∧ (r = true → w_poisoned (lw l') = w_poisoned (lw l))
    ∧ (io_rollSync i = true → io_create i = CreateOk → can_write l a → r = true).
Proof.
  intros H Ha Hio. unfold activeForWrite. rewrite Ha. destruct (w_rollPending (lw l) || segmentAgedOut now a l) eqn:E.
  - intros Hr. destruct (inv_rolled _ _ _ _ _ _ _ _ _ _ _ H Ha Hio Hr) as (T'&a'&?&?&?&?&?&?&Hok). exists T', a'. do 6 (split; [done|]).
    intros Hq1 Hq2 [Hlt|[Hp Hz]]; [by apply Hok|]. exfalso. rewrite Hp in E. unfold segmentAgedOut in E. rewrite Hz in E.
    cbn [orb] in E. rewrite orb_true_r in E. done.
  - intros [= <- <-]. exists T, a. do 6 (split; [done|]). done.
Qed.

(** [writeFrame] of the first [k] records that are to be written. *)
Lemma inv_writeFrame i now k force cache l g A C e T l' r a :
  let recs := take k (unwritten (sg_next a) (lf l)) in
  inv l Idle g A C e T → active l = Some a → io_create i ≠ CreateDirSyncFails true →
  writeFrame i now recs (sg_next a) force cache l = (l', r) →
  ∃ T' a', inv l' Idle g A C e T' ∧ active l' = Some a'
    ∧ (r = true → w_poisoned (lw l') = w_poisoned (lw l) ∧ (force = true → w_unsynced (lw l') = 0)
         ∧ sg_next a' = sg_next a + Z.of_nat (length recs)
         ∧ unwritten (sg_next a') (lf l') = drop (length recs) (unwritten (sg_next a) (lf l))
         ∧ sg_base a' < sg_next a' ∧ grows (ld l) T (ld l') T' ∧ ∀ off, sg_next a <= off < sg_next a' → kept_good (ld l') T' off)
    ∧ (i = io_ok → is_ok (encodeFrame (own cs) recs (sg_next a)) = true → can_write l a → r = true).
Proof.
  intros recs H Ha Hio. unfold writeFrame. rewrite (iv_opts _ _ _ _ _ _ _ _ H). change (o_codecs (withDefaults o)) with cs.
  destruct (encodeFrame (own cs) recs (sg_next a)) as [fr|] eqn:Ee; cycle 1.
  { intros [= <- <-]. exists T, a. do 2 (split; [done|]). split; [by intros [=]|by intros _ [=]]. }
  destruct (activeForWrite i now l) as [l1 ok] eqn:E1.
  destruct (inv_activeForWrite _ _ _ _ _ _ _ _ _ _ _ H Ha Hio E1) as (T1&a1&H1&Ha1&Hn1&Hu1&Hg1&Hp1&Hok1). destruct ok; cycle 1.
  { intros [= <- <-]. exists T1, a1. do 2 (split; [done|]). split; [by intros [=]|]. intros -> _ Hcan. by apply Hok1. }
  rewrite Ha1. unfold recs in *. rewrite <-Hn1, <-Hu1 in *. destruct (io_write i) as [|n cut] eqn:Ew; cycle 1.
  { cbn [writeEncodedFrame]. intros [= <- <-].
    destruct (inv_junk l1 g A C e T1 a1 n cut fr _ H1 Ha1 (proj2 (proj2 (proj2 (encodeFrame_facts _ _ _ _ Ee)))) eq_refl) as (T'&H').
    exists T', a1. split; [exact H'|]. split; [exact Ha1|]. split; [by intros [=]|]. by intros ->. }
  cbn [writeEncodedFrame].
  destruct (inv_publish l1 g A C e T1 a1 k fr now cache H1 Ha1 Ee) as (T2&a2&H2&Ha2&Hn2&Hu2&Hlt2&Hg2&Hk2).
  intros Hs. destruct (inv_sync _ _ _ _ _ _ _ _ _ _ _ _ H2 Ha2 Hs) as (T3&H3&Ha3&_&_&Hu3&_&Hg3&Hok3&Hr3).
  exists T3, a2. split; [done|]. split; [done|]. split; [|intros -> _ _; by apply Hok3].
  intros ->. destruct (Hr3 eq_refl) as [Hpo Hz]. split; [rewrite Hpo; by apply Hp1|]. split; [intros ->; by apply Hz|].
  split; [done|]. split; [by rewrite Hu3, Hu2|]. split; [done|]. split; [|intros off Ho; by apply Hg3, Hk2].
  eapply grows_trans; [exact Hg1|]. by eapply grows_trans.
Qed.

Lemma split_len_spec size i rs : (i <= split_len size i rs <= i + length rs)%nat ∧ (i = 0 → rs ≠ [] → 0 < split_len size i rs)%nat.
Proof.
  revert size i. induction rs as [|r rs IH]; intros size i; cbn [split_len length]; [split; [lia|done]|].
  destruct (_ && bool_decide _) eqn:E.
  - apply andb_true_iff in E as [_ E%bool_decide_eq_true]. lia.
  - destruct (IH (size + 4 + blen r) (S i)) as [? _]. lia.
Qed.

(** A round of [writeBatch], and what it achieves when nothing fails. *)
Lemma inv_write_round i now r todo base cache l g A C e T l' p' a :
  inv l (Writing r todo base cache) g A C e T → active l = Some a → io_create i ≠ CreateDirSyncFails true →
  write_round i now r todo base cache l = (l', p') →
  ∃ T' a', inv l' p' g A C e T' ∧ active l' = Some a'
    ∧ (i = io_ok → is_ok (encodeFrame (own cs) (take (frameSplitLen todo) todo) base) = true → can_write l a →
         p' = match drop (frameSplitLen todo) todo with [] => Finishing r | rest => Writing r rest (sg_next a') cache end
         ∧ sg_next a' = sg_next a + Z.of_nat (frameSplitLen todo) ∧ sg_base a' < sg_next a'
         ∧ grows (ld l) T (ld l') T' ∧ ∀ off, sg_next a <= off < sg_next a' → kept_good (ld l') T' off).
Proof.
  intros H Ha Hio. destruct (iv_active _ _ _ _ _ _ _ _ H) as (a0&Ha0&_&_&_&_&_&Hpo&Hne&->&Htodo). rewrite Ha in Ha0. injection Ha0 as <-.
  assert (inv l Idle g A C e T) as HI by (by apply (inv_phase _ _ _ _ _ _ _ Idle H)).
  unfold write_round. destruct todo as [|r0 todo0] eqn:Et; [done|]. rewrite <-Et in *. clear Et r0 todo0.
  destruct (split_len_spec 0 0 todo) as [Hk1 Hk2]. fold (frameSplitLen todo) in Hk1, Hk2. set (k := frameSplitLen todo) in *.
  rewrite Htodo. destruct (writeFrame _ _ _ _ _ _ _) as [l1 ok] eqn:Ew.
  destruct (inv_writeFrame _ _ _ _ _ _ _ _ _ _ _ _ _ _ HI Ha Hio Ew) as (T1&a1&H1&Ha1&Hr&Hok). destruct ok; cycle 1.
  { intros [= <- <-]. exists T1, a1. split; [by eapply inv_phase|]. split; [done|]. intros Hi He Hc. by specialize (Hok Hi He Hc). }
  destruct (Hr eq_refl) as (P1&P2&P3&P4&P5). clear Hok. rewrite <-Htodo in *. rewrite length_take_le in P3, P4 by lia.
  assert (i64 (sg_next a + Z.of_nat k) = sg_next a1) as Hi.
  { rewrite P3. apply i64_id. destruct (iv_segs _ _ _ _ _ _ _ _ H1) as [_ Hrg].
    specialize (Hrg a1 ltac:(by eapply last_Some_elem_of)). unfold in_i64, max_int64, two63 in *. lia. }
  destruct (drop k todo) as [|r0 rest] eqn:Ed; intros [= <- <-]; exists T1, a1;
    (split; [eapply inv_phase; [exact H1|]; intros x Hx; rewrite Ha1 in Hx; injection Hx as <-; cbn|split; [done|]; by rewrite ?Hi]).
  - split; [congruence|done].
  - split; [congruence|]. split; [done|]. split; [done|by rewrite P4].
Qed.

End Steps.
