(* ===== verification/PartOps.v ===== *)
(** * Appends, passes, commits and retention keep the invariant

    The rest of the operations of a log, and that they preserve the
    invariant of [PartInv]: appends and reads, the start of a pass, the
    reply of a commit, the discard of a failed one, retention and closing. *)

From S2P Require Import Prelude Octets PartFrame PartCache PartLog PartFlush PartBytes PartWalk PartLookup PartRun PartInv PartSteps.

#[local] Arguments Z.mul : simpl never.
#[local] Arguments Z.add : simpl never.
#[local] Arguments Z.sub : simpl never.
#[local] Arguments Z.pow : simpl never.
#[local] Arguments Z.of_nat : simpl never.
#[local] Arguments Z.to_nat : simpl never.

Lemma lookup_ok_seen segs T x b : lookup_ok segs T x → lookup_ok segs T (with_readSeen b x).
Proof. intros []. by constructor. Qed.

(** ** Memory *)

Lemma records_at_app A base a c : records_at A base (a ++ c) ↔ records_at A base a ∧ records_at A (base + Z.of_nat (length a)) c.
Proof.
  split.
  - intros H. split; intros i r Hi.
    + apply H. by apply lookup_app_l_Some.
    + rewrite <-(H (length a + i)%nat r); [f_equal; lia|]. by rewrite lookup_app_r, Nat.add_sub_swap, Nat.sub_diag by lia.
  - intros [H1 H2] i r [Hi|[Hl Hi]]%lookup_app_Some; [by apply H1|]. apply H2 in Hi. rewrite <-Hi. f_equal. lia.
Qed.

Lemma unwrittenFlushing_spec W b f :
  mem_ok W b f → fl_valid f = true →
  unwrittenFlushing f = (unwritten W f, if decide (unwritten W f = []) then fl_end f else W).
Proof.
  intros [Hn Hm Hv Hi] Hva. destruct (Hv Hva) as (V1&V2&V3&V4). unfold unwrittenFlushing, unwritten. rewrite Hva, V2, Z.max_l by lia.
  unfold fl_end in *. case_match eqn:E.
  - rewrite drop_ge by lia. done.
  - rewrite decide_False; [done|]. intros E'%(f_equal length). rewrite length_drop in E'. cbn in E'. lia.
Qed.

(** [drainBufferForFlush] moves the buffer into the snapshot. *)
Lemma drain_spec A g W l l' todo base :
  mem_ok W (lb l) (lf l) → g <= b_base (lb l) ∧ records_at A (b_base (lb l)) (b_records (lb l)) →
  (fl_valid (lf l) = true → g <= fl_base (lf l) ∧ records_at A (fl_base (lf l)) (fl_records (lf l))) →
  drainBufferForFlush l = (l', (todo, base)) →
  mem_ok W (lb l') (lf l') ∧ (g <= b_base (lb l') ∧ records_at A (b_base (lb l')) (b_records (lb l')))
  ∧ (fl_valid (lf l') = true → g <= fl_base (lf l') ∧ records_at A (fl_base (lf l')) (fl_records (lf l')))
  ∧ todo = unwritten W (lf l') ∧ (todo ≠ [] → base = W)
  ∧ l' = with_flushing (lf l') (with_buffer (lb l') l).
Proof.
  intros Hm Hb Hf. unfold drainBufferForFlush. destruct (b_records (lb l)) as [|r0 rs0] eqn:Er.
  - destruct (fl_valid (lf l)) eqn:Ev.
    + intros [= <- E]. rewrite (unwrittenFlushing_spec W (lb l)) in E by done. injection E as <- <-.
      split; [done|]. split; [by rewrite Er|]. split; [auto|]. split; [done|]. split; [|by destruct l].
      intros. by rewrite decide_False.
    + intros [= <- <- <-]. split; [done|]. split; [by rewrite Er|]. split; [by rewrite Ev|].
      split; [unfold unwritten; by rewrite Ev|]. split; [done|by destruct l].
  - rewrite <-Er in *. clear Er r0 rs0. intros [= <- E]. cbn [lb lf with_flushing with_buffer].
    set (b' := MkBuffer [] _ _ _ _). set (f' := if fl_valid (lf l) then _ else _) in *.
    destruct Hm as [Hn Hx Hv Hi]. destruct Hb as [Hg Hr].
    assert (fl_valid f' = true) as Hv' by (unfold f'; by case_match).
    assert (mem_ok W b' f') as Hm'.
    { constructor; [cbn; lia|done| |by rewrite Hv']. intros _. unfold f', fl_end in *.
      destruct (fl_valid (lf l)); [destruct (Hv eq_refl)|specialize (Hi eq_refl)]; cbn; rewrite ?length_app; lia. }
    rewrite (unwrittenFlushing_spec W b') in E by done. injection E as <- <-. split; [done|].
    split; [split; [cbn; lia|by intros ??]|]. split; [|split; [done|split; [intros; by rewrite decide_False|done]]].
    intros _. unfold f' in *. destruct (fl_valid (lf l)); [|done]. destruct (Hf eq_refl), (Hv eq_refl) as (_&_&_&Hend). cbn.
    split; [done|]. apply records_at_app. split; [done|]. unfold fl_end in Hend. by rewrite Hend.
Qed.

(** What was appended, with a batch at [first]. *)
Lemma appended_new A first rs : records_at (map_seqZ first rs ∪ A) first rs.
Proof.
  intros i r Hi. apply lookup_union_Some_l. rewrite lookup_map_seqZ, option_guard_True by lia. cbn. rewrite <-Hi. f_equal. lia.
Qed.

Lemma appended_old A first rs off : off < first → (map_seqZ first rs ∪ A : gmap Z octets) !! off = A !! off.
Proof. intros H. apply lookup_union_r. rewrite lookup_map_seqZ, option_guard_False by lia. done. Qed.

Lemma records_at_mono A A' base rs :
  records_at A base rs → (∀ off, base <= off < base + Z.of_nat (length rs) → A' !! off = A !! off) → records_at A' base rs.
Proof. intros H HA i r Hi. pose proof (lookup_lt_Some _ _ _ Hi). rewrite HA by lia. by apply H. Qed.

Section Ops.
Context (o : Options).
Abbreviation cs := (o_codecs o).
Abbreviation inv := (inv o).

Implicit Types (l : Log) (T : layout) (A C : gmap Z octets).

(** ** Appends, reads and the start of a pass *)

Lemma inv_push rs now l p g A C e T l' first last c w :
  inv l p g A C e T → b_next (lb l) + Z.of_nat (length rs) <= max_int64 →
  AppendBatch rs now l = (l', Ok (first, last, c, w)) → inv l' p g (map_seqZ first rs ∪ A) C e T.
Proof.
  intros H Hmax. unfold AppendBatch. destruct (lclosed l); [done|]. destruct (w_poisoned (lw l)) eqn:Ep; [done|].
  pose proof (iv_active _ _ _ _ _ _ _ _ H) as (a&Ha&Hia&Hend&Hmem&Hhn&Hdn&Hph). destruct Hmem as [Hn Hm Hv Hi].
  destruct rs as [|r0 rs0] eqn:Er.
  { intros [= <- <- <- <- <-]. cbn. rewrite map_empty_union. done. }
  rewrite <-Er in *. clear Er r0 rs0. unfold pushBatch. intros [= <- <- <- <- <-].
  assert (sg_next a <= b_base (lb l)) as Hwb. { destruct (fl_valid (lf l)); [destruct (Hv eq_refl)|specialize (Hi eq_refl)]; lia. }
  assert (i64 (b_next (lb l) + Z.of_nat (length rs)) = b_next (lb l) + Z.of_nat (length rs)) as Hi64.
  { destruct (iv_segs _ _ _ _ _ _ _ _ H) as [_ Hrg]. specialize (Hrg a ltac:(by eapply last_Some_elem_of)).
    apply i64_id. unfold in_i64, max_int64, two63 in *. lia. }
  destruct (iv_buffer _ _ _ _ _ _ _ _ H) as [Hg Hr]. pose proof (iv_flushing _ _ _ _ _ _ _ _ H) as Hfl.
  eapply (inv_frame o l p g A C e T _ p _ a); try done; try apply H.
  - intros off r Ho HA. rewrite appended_old by lia. done.
  - constructor; cbn; rewrite ?Hi64, ?length_app; try done; lia.
  - cbn. split; [done|]. apply records_at_app. split.
    + eapply records_at_mono; [done|]. intros. apply appended_old. lia.
    + rewrite <-Hn. apply appended_new.
  - cbn. intros Ev. destruct (Hfl Ev) as [Hg' Hr']. destruct (Hv Ev) as (V1&V2&V3&V4). split; [done|].
    eapply records_at_mono; [done|]. intros. apply appended_old. unfold fl_end in *. lia.
Qed.

Lemma inv_lookup l p g A C e T x : inv l p g A C e T → lookup_ok (segments l) T x → inv (with_lookup x l) p g A C e T.
Proof.
  intros H Hx. pose proof (iv_active _ _ _ _ _ _ _ _ H) as (a&Ha&Hia&Hend&Hmem&Hhn&Hdn&Hph).
  eapply (inv_frame o l p g A C e T _ p _ a); try done; apply H.
Qed.

Lemma inv_read off l p g A C e T : inv l p g A C e T → inv (ReadShared off l).1 p g A C e T.
Proof.
  intros H. unfold ReadShared. destruct (lclosed l); [done|].
  assert (inv (with_lookup (with_readSeen true (lx l)) l) p g A C e T) as H' by (apply inv_lookup; [done|apply lookup_ok_seen, H]).
  set (l1 := with_lookup _ l) in *. case_match; [done|]. destruct (readSegmentShared _ _ _ _) as [x r] eqn:Er. cbn.
  apply inv_lookup; [done|]. rewrite (iv_opts _ _ _ _ _ _ _ _ H') in Er.
  eapply (read_stored (withDefaults o) _ T _ []); [|apply H'|exact Er]. apply (inv_disk _ _ _ _ _ _ _ _ H').
Qed.

Lemma inv_begin r now l g A C e T l' p :
  DisableCommitVerify o = false → inv l Idle g A C e T → begin_pass r now l = (l', p) → inv l' p g A C e T.
Proof.
  intros Hverify H. pose proof (iv_active _ _ _ _ _ _ _ _ H) as (a&Ha&Hia&Hend&Hmem&Hhn&Hdn&Hph).
  unfold begin_pass. destruct (w_poisoned (lw l)) eqn:Ep; [intros [= <- <-]; by eapply inv_phase|].
  case_match; [intros [= <- <-]; by eapply inv_phase|].
  destruct (drainBufferForFlush l) as [l1 [todo base]] eqn:Ed.
  destruct (drain_spec A g _ _ _ _ _ Hmem (iv_buffer _ _ _ _ _ _ _ _ H) (iv_flushing _ _ _ _ _ _ _ _ H) Ed) as (D1&D2&D3&D4&D5&D6).
  assert (inv l1 Idle g A C e T) as H1.
  { eapply (inv_frame o l Idle g A C e T l1 Idle A a); try done; rewrite D6; try done. apply H. }
  assert (active l1 = Some a) as Ha1 by (by rewrite D6).
  destruct todo as [|r0 rs0] eqn:Et; [intros [= <- <-]; eapply inv_phase; [exact H1|by rewrite D6]|]. rewrite <-Et in *.
  unfold cacheWrittenFrames. rewrite (iv_opts _ _ _ _ _ _ _ _ H1). cbn [DisableCommitVerify withDefaults]. rewrite Hverify.
  intros [= <- <-]. eapply inv_phase; [apply inv_lookup; [exact H1|apply lookup_ok_seen, H1]|].
  intros x Hx. change (active l1 = Some x) in Hx. rewrite Ha1 in Hx. injection Hx as <-. cbn.
  split; [by rewrite D6|]. rewrite <-D4. split; [by subst|]. split; [|done]. apply D5. by subst.
Qed.

(** ** The discard of a failed commit *)

Lemma good_count b t : tile_ok cs b t → good t = true → 0 < t_count t.
Proof.
  intros Hok Hg. assert (live t = true) as Hl by (unfold live, good in *; by destruct (t_kind t)).
  destruct (tile_header _ _ _ Hok Hl) as (h&Hh&_&<-). apply frameHeaderAt_ok in Hh as (Hd&_); [|apply Hok].
  by apply decodeHeader_ok in Hd as (_&?&_).
Qed.

(** Where [discardUncommittedTail] cuts: every good frame in front begins
    below the high-watermark and every one behind at or above it. *)
Lemma boundary_spec l T a off bd pos :
  seg_ok cs (contents (ld l) (sg_base a)) (tiles T (sg_base a)) a → chain_end 0 (tiles T (sg_base a)) = sg_size a →
  0 <= sg_base a → lookup_ok (segments l) T (lx l) → off < sg_next a → frameBoundaryAtOrAbove l a off = (bd, pos) → pos < sg_size a →
  ∃ ts1 ts2, tiles T (sg_base a) = ts1 ++ ts2 ∧ chain_end 0 ts1 = pos
    ∧ (∀ t, t ∈ ts2 → good t = true → off <= t_base t) ∧ (∀ t, t ∈ ts1 → good t = true → t_base t < off)
    ∧ chain_next (sg_base a) ts1 <= bd <= sg_next a ∧ off <= bd ∧ sg_base a <= bd.
Proof.
  intros [Hc Hn _ _ _] Hend Hb0 Hlk Hlt. unfold frameBoundaryAtOrAbove. destruct (off <=? sg_base a) eqn:E1.
  { intros [= <- <-] Hpos. exists [], (tiles T (sg_base a)). pose proof (chain_next_ge _ _ _ _ _ Hc).
    split; [done|]. split; [done|]. split; [|split; [by intros ? ?%elem_of_nil|cbn; lia]].
    intros t Ht _. apply (chain_elem _ _ _ _ _ _ Hc) in Ht as (_&_&_&?&_). lia. }
  rewrite (proj2 (Z.leb_gt _ _)) by lia. set (p := match indexAnchorForOffset _ _ with Some _ => _ | None => _ end).
  assert (∃ pre post, tiles T (sg_base a) = pre ++ post ∧ chain_end 0 pre = p ∧ ∀ t, t ∈ pre → good t = true → t_base t < off)
    as (pre&post&Hsplit&Hpe&Hpre).
  { unfold p. destruct (indexAnchorForOffset _ _) as [x|] eqn:Ex.
    - destruct (anchor_sound _ _ _ _ _ _ Hlk Ex) as (t&Ht&->&Hle). apply list_elem_of_split in Ht as (pre&post&Hsp).
      exists pre, (t :: post). split; [done|]. rewrite Hsp in Hc. apply chain_app in Hc as [Hc1 (Hp&Hnb&_)]. split; [done|].
      intros u Hu Hg. apply (chain_elem _ _ _ _ _ _ Hc1) in Hu as (Hok&_&_&_&?). pose proof (good_count _ _ Hok Hg).
      unfold t_next in *. lia.
    - exists [], (tiles T (sg_base a)). split; [done|]. split; [done|]. by intros ? ?%elem_of_nil. }
  rewrite Hsplit in *. apply chain_app in Hc as [Hc1 Hc2]. rewrite chain_end_app in Hend. rewrite chain_next_app in Hn.
  rewrite Hpe in Hc2, Hend. pose proof (chain_end_ge _ _ _ _ _ Hc1) as Hp0. rewrite Hpe in Hp0.
  intros Hbl Hlt'. pose proof (boundary_chain cs (Z.to_nat (sg_size a - p)) _ (sg_size a) (sg_next a) p _ post off Hc2 Hp0 Hend ltac:(lia)) as Hbc.
  rewrite Hbl in Hbc. destruct Hbc as [[??]|(ts1&ts2&->&Hne&He&H2&H1&Hbd)]; [lia|].
  apply chain_app in Hc2 as [Hc2 Hc3]. rewrite chain_next_app in Hn.
  pose proof (chain_next_ge _ _ _ _ _ Hc1). pose proof (chain_next_ge _ _ _ _ _ Hc2). pose proof (chain_next_ge _ _ _ _ _ Hc3).
  exists (pre ++ ts1), ts2. rewrite app_assoc, chain_end_app, chain_next_app, Hpe. split; [done|]. split; [done|]. split; [done|].
  split; [|destruct Hbd as [->|(t&ts2'&->&->&Hob)]; [lia|destruct Hc3 as (_&?&Ht3&Hc4)]].
  - intros t [Ht|Ht]%elem_of_app Hg; [by apply Hpre|]. apply H1; [done|]. unfold live, good in *. by destruct (t_kind t).
  - pose proof (chain_next_ge _ _ _ _ _ Hc4). cbn in Hn. destruct Ht3. unfold t_next in *. lia.
Qed.

Lemma trim_spec pos es :
  StronglySorted before es → reverse (trim_anchors pos (reverse es)) = filter (λ x, ie_pos x < pos) es.
Proof.
  induction es as [|x es IH] using rev_ind; intros Hs; [done|]. rewrite reverse_snoc. cbn [trim_anchors].
  apply StronglySorted_app in Hs as (Hbe&Hs&_). rewrite filter_app. destruct (pos <=? ie_pos x) eqn:E.
  - rewrite IH by done. rewrite filter_cons_False, filter_nil, app_nil_r by lia. done.
  - rewrite reverse_cons, reverse_involutive, filter_cons_True, filter_nil by lia. f_equal. symmetry.
    clear IH Hs. induction es as [|y es IH]; [done|]. rewrite filter_cons_True by (destruct (Hbe y x); [set_solver..|lia]).
    f_equal. apply IH. intros; apply Hbe; set_solver.
Qed.

(** The index of the active segment after its tail was cut off. *)
Lemma idx_ok_trim b base ts1 ts2 es :
  chain cs b 0 base (ts1 ++ ts2) → idx_ok base (ts1 ++ ts2) es →
  idx_ok base ts1 (filter (λ x, ie_pos x < chain_end 0 ts1) es).
Proof.
  intros Hc [Ht Hs Hf]. apply chain_app in Hc as [Hc1 Hc2]. constructor.
  - intros x [Hlt Hx]%list_elem_of_filter. destruct (Ht x Hx) as (u&[Hu|Hu]%elem_of_app&->); [by exists u|].
    apply (chain_elem _ _ _ _ _ _ Hc2) in Hu as (_&?&_). cbn in Hlt. lia.
  - eapply sorted_sublist; [|done]. apply sublist_filter.
  - intros t Hin Hg. destruct (Hf t) as (x&Hx&Hle); [set_solver|done|]. exists x. split; [|done]. apply list_elem_of_filter. split; [|done].
    destruct (Ht x Hx) as (u&[Hu|Hu]%elem_of_app&->); cbn in *.
    + apply (chain_elem _ _ _ _ _ _ Hc1) in Hu as ([]&?&?&_). unfold t_end in *. lia.
    + apply (chain_elem _ _ _ _ _ _ Hc2) in Hu as (_&_&_&?&_). pose proof (chain_elem _ _ _ _ _ _ Hc1 Hin) as (Hok&_&_&_&?).
      pose proof (good_count _ _ Hok Hg). unfold t_next in *. lia.
Qed.

Lemma lookup_truncate b segs segs' T x a a' ts1 ts2 :
  lookup_ok segs T x → last segs = Some a → last segs' = Some a' → sg_base a' = sg_base a →
  tiles T (sg_base a) = ts1 ++ ts2 → chain cs b 0 (sg_base a) (ts1 ++ ts2) →
  let x1 := truncateIndex (sg_base a) (chain_end 0 ts1) x in
  let x2 := with_frames (fc_invalidateSegment (lk_frames x1) (sg_base a)) x1 in
  lookup_ok segs' (<[sg_base a := ts1]> T) (with_nav (nav_invalidateSegment (lk_nav x2) (sg_base a)) x2).
Proof.
  intros [H1 H2 H3 H4 H5] Ha Ha' Hb Hts Hc x1 x2.
  assert (lk_nav x1 = lk_nav x ∧ lk_frames x1 = lk_frames x) as [En Ef] by (unfold x1, truncateIndex; by case_match).
  constructor.
  - cbn. intros k si. unfold x1, truncateIndex. rewrite tiles_insert. case_decide as Hk.
    + subst k. destruct (lk_idx x !! sg_base a) as [si0|] eqn:E; cbn; [|by rewrite E].
      rewrite lookup_insert_eq. intros [= <-]. cbn. pose proof (H1 _ _ E) as Hi. rewrite trim_spec by apply Hi.
      apply (idx_ok_trim b _ _ ts2); [done|]. by rewrite <-Hts.
    + intros Hsi. apply H1. destruct (lk_idx x !! sg_base a); [|done]. cbn in Hsi. by rewrite lookup_insert_ne in Hsi.
  - cbn. rewrite En. intros y [Hy Hs]%nav_invalidate_subset. destruct (H2 y Hy) as (u&Hu&?). exists u.
    rewrite tiles_insert, decide_False by done. done.
  - cbn [lk_frames with_nav with_frames x2]. rewrite Ef. intros c u rs [Hc' Hs]%fc_invalidate_subset.
    rewrite tiles_insert, decide_False by done. by apply H3.
  - cbn [lk_frames with_nav with_frames x2]. rewrite Ef. intros c [Hc' Hs]%fc_invalidate_subset.
    rewrite tiles_insert, decide_False by done. by apply H4.
  - cbn. intros ac Hac Hn t. rewrite Ha' in Hac. injection Hac as <-. rewrite Hb in *. rewrite tiles_insert, decide_True by done.
    intros Ht. apply (H5 a Ha); [|rewrite Hts; set_solver]. unfold x1, truncateIndex in Hn.
    destruct (lk_idx x !! sg_base a) eqn:E; [|done]. cbn in Hn. by rewrite lookup_insert_eq in Hn.
Qed.

(** Frames whose bytes are gone. *)
Definition kill (t : tile) : tile := Tile (t_pos t) (t_len t) (t_base t) (t_count t) Dead.

Lemma lookup_kill segs T x a ts1 ts2 :
  lookup_ok segs T x → tiles T (sg_base a) = ts1 ++ ts2 → lookup_ok segs (<[sg_base a := ts1 ++ (kill <$> ts2)]> T) x.
Proof.
  intros [H1 H2 H3 H4 H5] Hts. set (T' := <[sg_base a := _]> T).
  assert (∀ k u, u ∈ tiles T k → ∃ u', u' ∈ tiles T' k ∧ entry_of k u' = entry_of k u ∧ t_pos u' = t_pos u) as Hsub.
  { intros k u Hu. unfold T'. rewrite tiles_insert. case_decide as E; [|by exists u]. subst k. rewrite Hts in Hu.
    apply elem_of_app in Hu as [Hu|Hu]; [exists u; split; [set_solver|done]|]. exists (kill u). split; [|done].
    apply elem_of_app. right. by apply list_elem_of_fmap_2. }
  assert (∀ k u, u ∈ tiles T' k → live u = true → u ∈ tiles T k) as Hback.
  { intros k u. unfold T'. rewrite tiles_insert. case_decide as E; [|done]. subst k. rewrite Hts, !elem_of_app.
    intros [Hu|(u0&->&_)%list_elem_of_fmap]; [by left|done]. }
  assert (∀ u, good u = true → live u = true) as Hgl by (intros u; unfold live, good; by destruct (t_kind u)).
  constructor.
  - intros k si Hsi. destruct (H1 k si Hsi) as [I1 I2 I3]. constructor; [|done|].
    + intros y Hy. destruct (I1 y Hy) as (u&Hu&->). destruct (Hsub k u Hu) as (u'&?&?&_). by exists u'.
    + intros u Hu Hg. apply I3; auto.
  - intros y Hy. destruct (H2 y Hy) as (u&Hu&E). destruct (Hsub _ u Hu) as (u'&?&Eu&_). exists u'. split; [done|congruence].
  - intros c u rs Hc Hu Hp Hk. apply (H3 c u rs Hc); [|done|done]. apply Hback; [done|]. unfold live. by rewrite Hk.
  - intros c Hc. destruct (H4 c Hc) as (u&Hu&E). destruct (Hsub _ u Hu) as (u'&?&_&Ep). exists u'. split; [done|congruence].
  - intros ac Hac Hn u Hu. destruct (good u) eqn:Eg; [|done]. rewrite <-Eg. apply (H5 ac Hac Hn). auto.
Qed.

(** Memory is emptied and the rest stays. *)
Lemma inv_reset l g A C e T a D w :
  inv l Idle g A C e T → active l = Some a → D <= sg_next a →
  w_poisoned w = w_poisoned (lw l) → w_unsynced w = w_unsynced (lw l) →
  ∃ T', inv (with_flushing emptyFlushing (with_buffer (MkBuffer [] (sg_next a) (sg_next a) 0 None)
               (with_writer w (with_visible (with_durable D (lv l)) l)))) Idle g A C e T'.
Proof.
  intros H Ha HD Hwp Hwu. pose proof (iv_active _ _ _ _ _ _ _ _ H) as (a0&Ha0&Hia&Hend&Hmem&Hhn&Hdn&_).
  rewrite Ha in Ha0. injection Ha0 as <-. eexists.
  assert (g <= sg_next a) as Hg.
  { destruct Hmem as [_ _ Hv Hi]. destruct (iv_buffer _ _ _ _ _ _ _ _ H) as [Hgb _].
    destruct (fl_valid (lf l)) eqn:Ev; [|rewrite <-Hi by done; done].
    destruct (iv_flushing _ _ _ _ _ _ _ _ H Ev) as [? _]. destruct (Hv eq_refl). lia. }
  assert (sg_next a <= max_int64) as Hmax.
  { destruct (iv_segs _ _ _ _ _ _ _ _ H) as [_ Hr]. by destruct (Hr a (last_Some_elem_of _ _ Ha)). }
  eapply (inv_restatus o l Idle g A C e T a _ Idle id); try done; try apply H.
  - cbn. destruct (si_file _ _ _ _ _ _ _ _ _ Hia) as [f Hf]. unfold set_file, file_at. rewrite Hf. cbn.
    unfold restatus. rewrite (list_fmap_ext _ id), list_fmap_id by (by intros ? []). rewrite insert_id by done. by destruct (ld l).
  - unfold fresh. cbn. by rewrite Hwp.
  - intros _ Hu. cbn in Hu. left. congruence.
  - constructor; cbn; [lia|done|done|done].
  - cbn. rewrite Hwu. apply H.
  - apply hwm_ok_durable, H.
Qed.

Lemma chain_kill b b' p n ts :
  chain cs b p n ts → blen b' <= p → chain cs b' p n (kill <$> ts) ∧ chain_end p (kill <$> ts) = chain_end p ts
    ∧ chain_next n (kill <$> ts) = chain_next n ts.
Proof.
  revert p n. induction ts as [|t ts IH]; intros p n; [done|]. intros (Hp&Hn&Ht&Hc) Hb. cbn [fmap list_fmap chain chain_end chain_next].
  change (t_end (kill t)) with (t_end t). change (t_next (kill t)) with (t_next t).
  pose proof Ht as [T1 T2 T3 T4 T5 _].
  destruct (IH _ _ Hc) as (I1&I2&I3); [unfold t_end; lia|]. split; [|done]. split; [done|]. split; [done|]. split; [|done].
  constructor; try done. intros i Hi Hlt. cbn in Hi. lia.
Qed.

(** What is in front of a cut. *)
Lemma chain_truncate f pos base ts1 :
  chain cs (bytes f) 0 base ts1 → chain_end 0 ts1 = pos → chain cs (bytes (f_truncate pos f)) 0 base ts1.
Proof.
  intros Hc Hp. apply (chain_extends _ (bytes f)); [done| |]; rewrite Hp; [apply extends_truncate|].
  right. by rewrite byte_behind_truncate.
Qed.

Lemma cells_cut P st pos f t (Q : status → Prop) :
  (∀ s, P s → Q (st s)) → 0 <= t_pos t → t_end t <= pos → cells P f (t_pos t) (t_end t) →
  cells Q (restatus st (f_truncate pos f)) (t_pos t) (t_end t).
Proof. intros HPQ H1 H2 Hc. eapply cells_restatus; [done|]. by apply cells_truncate. Qed.

(** The truncate reached the file and its sync failed. *)
Lemma inv_kill l g A C e T a ts1 ts2 :
  inv l Idle g A C e T → active l = Some a → tiles T (sg_base a) = ts1 ++ ts2 →
  (∀ t, t ∈ ts2 → good t = true → v_hwm (lv l) <= t_base t) → (∀ t, t ∈ ts1 → good t = true → t_base t < v_hwm (lv l)) →
  inv (with_disk (set_file (sg_base a) (f_sync_failed (f_truncate (chain_end 0 ts1) (file_at (ld l) (sg_base a)))) (ld l)) l)
    Idle g A C e (<[sg_base a := ts1 ++ (kill <$> ts2)]> T).
Proof.
  intros H Ha Hts H2 H1. pose proof (iv_active _ _ _ _ _ _ _ _ H) as (a0&Ha0&[[Hc Hcn _ _ _] S2 S3]&Hend&Hmem&Hhn&Hdn&_).
  rewrite Ha in Ha0. injection Ha0 as <-. rewrite Hts in *. apply chain_app in Hc as [Hc1 Hc2].
  rewrite chain_end_app in Hend. rewrite chain_next_app in Hcn. pose proof (chain_end_ge _ _ _ _ _ Hc1) as Hpos.
  pose proof (segments_last _ _ Ha) as Hlast. destruct (iv_segs _ _ _ _ _ _ _ _ H) as [_ Hr].
  specialize (Hr a (last_Some_elem_of _ _ Ha)).
  destruct (chain_kill _ (bytes (f_truncate (chain_end 0 ts1) (file_at (ld l) (sg_base a)))) _ _ _ Hc2) as (K1&K2&K3).
  { rewrite blen_bytes, flen_truncate; done. }
  assert (∀ t, t ∈ ts1 → 0 <= t_pos t ∧ t_end t <= chain_end 0 ts1) as Hin.
  { intros t Ht. by apply (chain_elem _ _ _ _ _ _ Hc1) in Ht as (_&?&?&_). }
  rewrite f_sync_failed_restatus. eapply (inv_update o l Idle g A C e T a _ Idle g a); try done; try lia; try apply H.
  - cbn. by rewrite set_active_id.
  - rewrite bytes_restatus. apply seg_ok_active; [apply chain_app; split; [by apply chain_truncate|done]| |].
    + rewrite chain_next_app. lia.
    + rewrite chain_end_app. lia.
  - rewrite chain_end_app. lia.
  - intros t [Ht|(u&->&Hu)%list_elem_of_fmap]%elem_of_app.
    + destruct (Hin t Ht). destruct (S3 t) as [?|[Hg Ht']]; [set_solver|by left|right]. split; [done|]. intros recs Hk.
      destruct (Ht' recs Hk) as (R1&_&_&R4). split; [done|].
      assert (cells is_kept (file_at (ld l) (sg_base a)) (t_pos t) (t_end t)) as Hkept.
      { apply R4, H1; [done|]. unfold good. by rewrite Hk. }
      split; [|split]; intros _; (eapply cells_cut; [|done|done|exact Hkept]); by intros ? ->.
    + destruct (S3 u) as [?|[Hg _]]; [set_solver|by left|right]. split; [done|]. by intros recs [=].
  - rewrite <-Hlast. apply lookup_kill; [apply H|done].
  - rewrite Hts. intros t [Ht|Ht]%elem_of_app Hg Hlt Hkept; [|specialize (H2 t Ht Hg); cbn in Hlt; lia].
    destruct (Hin t Ht). split; [set_solver|]. eapply cells_cut; [|done|done|exact Hkept]. by intros ? ->.
Qed.

(** The tail was cut off. *)
Lemma inv_truncate l g A C T a ts1 ts2 bd a' w :
  inv l Idle g A C false T → active l = Some a → w_poisoned (lw l) = false → tiles T (sg_base a) = ts1 ++ ts2 →
  (∀ t, t ∈ ts2 → good t = true → v_hwm (lv l) <= t_base t) → 
  chain_next (sg_base a) ts1 <= bd <= sg_next a → v_hwm (lv l) <= bd → sg_base a <= bd →
  sg_base a' = sg_base a → sg_next a' = bd → sg_size a' = chain_end 0 ts1 → w_poisoned w = false → w_unsynced w = 0 →
  let x1 := truncateIndex (sg_base a) (chain_end 0 ts1) (lx l) in
  let x2 := with_frames (fc_invalidateSegment (lk_frames x1) (sg_base a)) x1 in
  let x3 := with_nav (nav_invalidateSegment (lk_nav x2) (sg_base a)) x2 in
  let d := set_file (sg_base a) (f_sync (f_truncate (chain_end 0 ts1) (file_at (ld l) (sg_base a)))) (ld l) in
  inv (with_flushing emptyFlushing (with_buffer (MkBuffer [] bd bd 0 None)
         (with_writer w (with_visible (with_durable bd (lv l)) (with_lookup x3 (with_disk (set_active a' d) l))))))
    Idle (Z.min g bd) A C false (<[sg_base a := ts1]> T).
Proof.
  intros H Ha Hpo Hts H2 Hbd Hhb Hbb Ab An As Hwp Hwu x1 x2 x3 d.
  pose proof (iv_active _ _ _ _ _ _ _ _ H) as (a0&Ha0&[[Hc Hcn _ _ _] S2 S3]&Hend&Hmem&Hhn&Hdn&_).
  rewrite Ha in Ha0. injection Ha0 as <-. rewrite Hts in *. pose proof Hc as Hc'. apply chain_app in Hc as [Hc1 Hc2].
  pose proof (chain_end_ge _ _ _ _ _ Hc1) as Hpos.
  destruct (iv_segs _ _ _ _ _ _ _ _ H) as [_ Hr]. specialize (Hr a (last_Some_elem_of _ _ Ha)).
  assert (∀ t, t ∈ ts1 → 0 <= t_pos t ∧ t_end t <= chain_end 0 ts1 ∧ t_next t <= bd) as Hin.
  { intros t Ht. apply (chain_elem _ _ _ _ _ _ Hc1) in Ht as (_&?&?&_&?). lia. }
  unfold d. rewrite f_sync_restatus.
  eapply (inv_update o l Idle g A C false T a _ Idle (Z.min g bd) a'); try done; try lia.
  - by rewrite bytes_restatus; apply seg_ok_active; rewrite ?Ab, ?An, ?As; [apply chain_truncate|lia|done].
  - intros t Ht. destruct (Hin t Ht) as (?&?&?). destruct (S3 t) as [?|[Hg Ht']]; [set_solver|left; lia|right].
    split; [lia|]. intros recs Hk. destruct (Ht' recs Hk) as (R1&R2&_&R4). split; [done|].
    assert (cells is_kept (restatus (λ s, match s with Dirty => Kept | s => s end)
              (f_truncate (chain_end 0 ts1) (file_at (ld l) (sg_base a)))) (t_pos t) (t_end t)) as Hkept.
    { eapply cells_cut; [|done|done|by apply R2]. by intros []. }
    split; [|done]. intros _. eapply cells_mono; [|exact Hkept]. by intros ? ->.
  - apply (lookup_truncate (contents (ld l) (sg_base a)) (segments l) _ _ _ a a' ts1 ts2); [apply H|done|apply last_snoc|done|done|exact Hc'].
  - rewrite An. constructor; cbn; [lia|lia|done|done].
  - cbn. lia.
  - cbn. lia.
  - cbn. split; [lia|by intros ??].
  - cbn. lia.
  - intros t. rewrite Hts. intros [Ht|Ht]%elem_of_app Hg Hlt Hkept; [|specialize (H2 t Ht Hg); cbn in Hlt; lia].
    destruct (Hin t Ht) as (?&?&?). split; [done|]. eapply cells_cut; [|done|done|exact Hkept]. by intros ? ->.
  - destruct (iv_hwm _ _ _ _ _ _ _ _ H) as [F1 F2 F3 F4 F5]. constructor; [done|done| |done|done]. cbn in *. intros _ Hrel. specialize (F3 eq_refl Hrel). lia.
Qed.

(** The end of a discard that left the file alone, or failed to cut it. *)
Lemma inv_discard_memory l g A C T a td :
  inv l Idle g A C false T → active l = Some a → 
  ∃ T', inv (with_flushing emptyFlushing (with_buffer (MkBuffer [] (sg_next a) (sg_next a) 0 None)
      (if td && (w_unsynced (lw l) =? 0)
       then with_writer (MkWriter (w_rollPending (lw l)) 0 (w_lastSync (lw l)) (w_poisoned (lw l)))
              (with_visible (with_durable (sg_next a) (lv l)) l)
       else if sg_next a <? v_durable (lv l) then with_visible (with_durable (sg_next a) (lv l)) l else l)))
      Idle (Z.min g (sg_next a)) A C false T'.
Proof.
  intros H Ha. pose proof (iv_active _ _ _ _ _ _ _ _ H) as (a0&Ha0&_&_&Hmem&_&Hdn&_).
  rewrite Ha in Ha0. injection Ha0 as <-.
  assert (Z.min g (sg_next a) = g) as ->.
  { destruct Hmem as [_ _ Hv Hi]. destruct (iv_buffer _ _ _ _ _ _ _ _ H) as [Hgb _].
    destruct (fl_valid (lf l)) eqn:Ev; [|specialize (Hi eq_refl); lia].
    destruct (iv_flushing _ _ _ _ _ _ _ _ H Ev) as [? _]. destruct (Hv eq_refl). lia. }
  rewrite (proj2 (Z.ltb_ge (sg_next a) _)) by lia. destruct (td && _) eqn:E.
  - eapply (inv_reset l g A C false T a); [done|done|lia|done|]. cbn. apply andb_true_iff in E as [_ E]. lia.
  - destruct (inv_reset l g A C false T a (v_durable (lv l)) (lw l)) as [T' H']; try done. exists T'.
    destruct l as [? ? ? ? ? [] ? ? ?]. exact H'.
Qed.

(** [discardUncommittedTail]: the next offset does not exceed what it was
    and is not below the high-watermark. *)
Lemma inv_discard io l p g A C T :
  inv l p g A C false T →
  let l' := discardUncommittedTail io (negb (w_poisoned (lw l))) l in
  ∃ T', inv l' Idle (Z.min g (b_next (lb l'))) A C false T'.
Proof.
  intros H0. assert (inv l Idle g A C false T) as H by (by apply (inv_phase _ _ _ _ _ _ _ _ Idle H0)). clear H0.
  pose proof (iv_active _ _ _ _ _ _ _ _ H) as (a&Ha&Hia&Hend&Hmem&Hhn&Hdn&_).
  unfold discardUncommittedTail. rewrite Ha.
  destruct (negb (w_poisoned (lw l)) && (v_hwm (lv l) <? sg_next a)) eqn:Ed; cycle 1.
  { cbn [orb]. by apply (inv_discard_memory l _ _ _ T a). }
  apply andb_true_iff in Ed as [Ep Elt]. unfold discard_disk.
  destruct (frameBoundaryAtOrAbove l a (v_hwm (lv l))) as [bd pos] eqn:Eb.
  destruct (pos <? sg_size a) eqn:Epos; cycle 1.
  { cbn [orb]. by apply (inv_discard_memory l _ _ _ T a). }
  destruct (iv_segs _ _ _ _ _ _ _ _ H) as [_ Hr]. specialize (Hr a (last_Some_elem_of _ _ Ha)).
  destruct (boundary_spec l T a (v_hwm (lv l)) bd pos (si_seg _ _ _ _ _ _ _ _ _ Hia) Hend ltac:(lia) (iv_lookup _ _ _ _ _ _ _ _ H) ltac:(lia) Eb ltac:(lia))
    as (ts1&ts2&Hts&Hpe&H2&H1&Hn&Ho&Hbb). subst pos. apply negb_true_iff in Ep.
  destruct io; cbn [truncate_file].
  - eexists. by eapply (inv_truncate l g A C T a ts1 ts2 bd).
  - cbn [orb]. apply (inv_discard_memory (with_disk _ l) _ _ _ T a); [|done].
    assert (set_file (sg_base a) (file_at (ld l) (sg_base a)) (ld l) = ld l) as ->; [|by destruct l].
    destruct (si_file _ _ _ _ _ _ _ _ _ Hia) as [f Hf]. unfold set_file, file_at. rewrite Hf. cbn. rewrite insert_id by done. by destruct (ld l).
  - cbn [orb]. eapply (inv_discard_memory (with_disk _ l) _ _ _ _ a); [|done]. by apply inv_kill.
Qed.

(** ** The reply of a commit *)

(** The boundary and its file change, and what is acknowledged. *)
Lemma inv_visible l p g A C C' e T v :
  inv l p g A C e T →
  (∀ a, active l = Some a → v_hwm v <= sg_next a ∧ v_durable v <= sg_next a) →
  v_hwm v = v_hwm (lv l) ∨ fresh l e ∧ w_unsynced (lw l) = 0 →
  (∀ off r, C' !! off = Some r → off < v_hwm v ∧ secured (ld l) T off r) →
  hwm_ok v g C' e → inv (with_visible v l) p g A C' e T.
Proof.
  intros H Hv Hs HC Hh. pose proof (iv_active _ _ _ _ _ _ _ _ H) as (a&Ha&[S1 S2 S3]&Hend&Hmem&Hhn&Hdn&Hph).
  assert (∀ f sy t, tile_inv f g A (v_hwm (lv l)) (fresh l e) sy t → (fresh l e ∧ w_unsynced (lw l) = 0 → sy) →
            tile_inv f g A (v_hwm v) (fresh l e) sy t) as Ht.
  { intros f sy t [?|[Hg Ht]] Hsy; [by left|right]. split; [done|]. intros recs Hk. destruct (Ht recs Hk) as (R1&R2&R3&R4).
    split; [done|]. split; [done|]. split; [done|]. destruct Hs as [->|Hs]; [done|]. auto. }
  constructor; try apply H; try done.
  - intros s Hin. destruct (iv_sealed _ _ _ _ _ _ _ _ H s Hin) as [Q1 Q2 Q3]. constructor; [done|done|].
    intros t Hti. apply Ht; [by apply Q3|]. by intros [? _].
  - exists a. split; [done|]. split; [|split; [done|]; split; [done|]; destruct (Hv a Ha); done].
    constructor; [done|done|]. intros t Hti. apply Ht; [by apply S3|]. intros [??]. done.
Qed.

Lemma release_candidates io v v' ok c p :
  releaseHighWatermarkFile io v = (v', ok) → c ∈ hf_cur (v_file v') :: hf_dev (v_file v') →
  ReadPersistedHighWatermark c = Some (Some p) → c ∈ hf_cur (v_file v) :: hf_dev (v_file v).
Proof.
  unfold releaseHighWatermarkFile. destruct (v_released v); [by intros [= <- <-]|].
  destruct io; intros [= <- <-]; cbn; rewrite ?elem_of_cons; try tauto; try (by intros [->|[->|[->|?%elem_of_nil]]]); try (by intros [->|[?|?]]; auto).
  destruct (hf_cur (v_file v)) as [cur|]; cbn; intros [->|[?|?]]; naive_solver.
Qed.

Lemma release_valid io v v' ok c :
  releaseHighWatermarkFile io v = (v', ok) → (∀ c, c ∈ hf_cur (v_file v) :: hf_dev (v_file v) → ReadPersistedHighWatermark c ≠ None) →
  c ∈ hf_cur (v_file v') :: hf_dev (v_file v') → ReadPersistedHighWatermark c ≠ None.
Proof.
  intros Hr Hv Hc E. destruct (decide (c ∈ hf_cur (v_file v) :: hf_dev (v_file v))) as [Hin|Hn]; [by apply (Hv c)|].
  unfold releaseHighWatermarkFile in Hr. destruct (v_released v); [by simplify_eq|].
  destruct io; simplify_eq; cbn in Hc; rewrite ?elem_of_cons in *; try tauto; try (by destruct Hc as [->|[->|[->|?%elem_of_nil]]]);
    try (destruct Hc as [->|Hc]; [|tauto]; done).
  destruct Hc as [->|Hc]; [|tauto]. destruct (hf_cur (v_file v)) as [cur|]; [|done]. cbn in *. tauto.
Qed.

Lemma release_fields io v v' ok :
  releaseHighWatermarkFile io v = (v', ok) →
  v_hwm v' = v_hwm v ∧ v_durable v' = v_durable v
  ∧ (ok = true → v_released v' = true ∧ (v_released v = false → ∀ c p, c ∈ hf_cur (v_file v') :: hf_dev (v_file v') →
       ReadPersistedHighWatermark c ≠ Some (Some p)) ∧ (v_released v = true → v' = v))
  ∧ (ok = false → v_released v' = false ∧ v_released v = false).
Proof.
  unfold releaseHighWatermarkFile. destruct (v_released v) eqn:E; [intros [= <- <-]; split_and!; done|].
  destruct io; intros [= <- <-]; cbn; split_and!; try done. intros _. split; [done|]. split; [|done]. intros _ c p.
  rewrite !elem_of_cons. by intros [->|[->|[->|?%elem_of_nil]]].
Qed.

(** What verifies after a sync is on the device, and is what was appended. *)
Lemma secured_of_verified l p g A C T off r :
  inv l p g A C false T → w_poisoned (lw l) = false → w_unsynced (lw l) = 0 → kept_good (ld l) T off → g <= off →
  A !! off = Some r → secured (ld l) T off r.
Proof.
  intros H Hpo Hun (s&t&Hs&Ht&Hg&Hho) Hgo HA. pose proof (iv_active _ _ _ _ _ _ _ _ H) as (a&Ha&Hia&_).
  assert (seg_inv o (ld l) T g A (v_hwm (lv l)) (fresh l false) (fresh l false ∧ w_unsynced (lw l) = 0) s) as [S1 _ S3].
  { apply (segments_cases l a s Ha) in Hs as [Hs| ->]; [|done]. destruct (iv_sealed _ _ _ _ _ _ _ _ H s Hs) as [Q1 Q2 Q3].
    constructor; [done|done|]. intros u Hu. eapply tile_inv_mono; [by apply Q3|done|by intros [? _]|lia|by left]. }
  pose proof (chain_elem _ _ _ _ _ _ (so_chain _ _ _ _ S1) Ht) as (Hok&_).
  unfold good in Hg. destruct (t_kind t) as [recs| |] eqn:Hk; try done. unfold holds in Hho.
  destruct (S3 t Ht) as [?|[Hgt Hti]]; [lia|]. destruct (Hti recs Hk) as (R1&_&R3&_).
  destruct (good_frame (withDefaults o) (ld l) T s t recs (inv_disk _ _ _ _ _ _ _ _ H) Hs Ht Hk) as (_&_&Hcnt&_).
  destruct (lookup_lt_is_Some_2 recs (Z.to_nat (off - t_base t))) as [r' Hr']; [unfold t_next in *; lia|].
  exists s, t, recs. split; [done|]. split; [done|]. split; [done|]. split; [done|]. split; [|by apply R3].
  apply R1 in Hr' as HA'. rewrite Z2Nat.id, Zplus_minus in HA' by lia. congruence.
Qed.

Lemma kept_below l p g A C e T a off : inv l p g A C e T → active l = Some a → kept_good (ld l) T off → 0 <= off < sg_next a.
Proof.
  intros H Ha (s&t&Hs&Ht&_&Hho). pose proof (inv_disk _ _ _ _ _ _ _ _ H) as Hd.
  pose proof (do_seg _ _ _ Hd s Hs) as [Hc Hn _ _ _]. apply (chain_elem _ _ _ _ _ _ Hc) in Ht as ([]&_&_&_&?).
  destruct (iv_segs _ _ _ _ _ _ _ _ H) as [_ Hr]. specialize (Hr a (last_Some_elem_of _ _ Ha)). unfold holds in Hho.
  apply (segments_cases l a s Ha) in Hs as [Hs| ->]; [|lia].
  destruct (sealed_before l a s (iv_segs _ _ _ _ _ _ _ _ H) Ha Hs). lia.
Qed.

Lemma inv_commit io now first last l g A C T l' res :
  DisableCommitVerify o = false → inv l (Finishing (ReqCommit first last)) g A C false T → g <= first <= last →
  finishRequest io now (ReqCommit first last) l = (l', res) →
  match res with
  | Ok _ => ∃ T', inv l' Idle g A (acknowledge first last A C) false T'
  | Err _ => ∃ T', inv l' Idle g A C false T'
  end.
Proof.
  intros Hver H Hfl. pose proof (iv_active _ _ _ _ _ _ _ _ H) as (a&Ha&Hia&Hend&Hmem&Hhn&Hdn&Hpo&Hz). specialize (Hz eq_refl).
  unfold finishRequest. rewrite (iv_opts _ _ _ _ _ _ _ _ H). cbn [DisableCommitVerify withDefaults]. rewrite Hver.
  rewrite (proj2 (Z.ltb_ge last first)) by lia. cbn [orb]. unfold VerifyDurable.
  destruct (verify_range _ _ _ _ _ _) as [x ver] eqn:Ev. rewrite (iv_opts _ _ _ _ _ _ _ _ H) in Ev.
  destruct (verify_range_sound (withDefaults o) _ _ T _ _ _ _ _ (inv_disk _ _ _ _ _ _ _ _ H) (iv_lookup _ _ _ _ _ _ _ _ H) Ev) as (Hx&Hok&_).
  assert (inv (with_lookup x l) Idle g A C false T) as H1.
  { apply inv_lookup; [|done]. by apply (inv_phase _ _ _ _ _ _ _ _ Idle H). }
  destruct ver as [[]|err]; [|intros [= <- <-]; by exists T]. specialize (Hok eq_refl).
  assert (0 <= last < sg_next a) as Hla. { apply (kept_below _ _ _ _ _ _ _ _ _ H Ha), Hok. lia. }
  destruct (iv_segs _ _ _ _ _ _ _ _ H) as [_ Hr]. specialize (Hr a (last_Some_elem_of _ _ Ha)).
  destruct (iv_hwm _ _ _ _ _ _ _ _ H) as [F1 F2 F3 F4 F5].
  rewrite i64_id by (unfold in_i64, max_int64, two63 in *; lia). cbn [lv with_lookup].
  assert (∀ v, v_hwm (lv l) <= v_hwm v → last < v_hwm v <= sg_next a → v_durable v = v_durable (lv l) →
            hwm_ok v g (acknowledge first last A C) false →
            inv (with_visible v (with_lookup x l)) Idle g A (acknowledge first last A C) false T) as Hgo.
  { intros v Hv1 Hv2 Hv3 Hv4. eapply (inv_visible _ _ _ _ C); [done| | | |done].
    - intros a1 Ha1. change (active l = Some a1) in Ha1. rewrite Ha in Ha1. injection Ha1 as <-. lia.
    - by right.
    - intros off r. unfold acknowledge. rewrite lookup_union_Some_raw, map_lookup_filter_Some. cbn.
      intros [[HA Hin]|[_ HC]].
      + split; [lia|]. apply (secured_of_verified (with_lookup x l) Idle g A C T off r); try done; [apply Hok; lia|lia].
      + destruct (iv_committed _ _ _ _ _ _ _ _ H off r HC). split; [lia|done]. }
  unfold AdvanceHighWatermark. destruct (last + 1 <=? v_hwm (lv l)) eqn:El.
  { intros [= <- <-]. exists T. apply Hgo; [lia|lia|done|]. destruct (v_released (lv l)) eqn:Er; [|specialize (F3 eq_refl eq_refl); lia].
    constructor; [|intros _ _; by apply F2|by rewrite Er|done|done]. intros c q off Hc Hq _. by destruct (F2 eq_refl eq_refl c q Hc). }
  destruct (releaseHighWatermarkFile (io_hwm io) (lv l)) as [v ok] eqn:Erel.
  destruct (release_fields _ _ _ _ Erel) as (V1&V2&V3&V4).
  destruct ok; intros [= <- <-]; exists T.
  - destruct (V3 eq_refl) as (Q1&Q2&Q3). apply Hgo; cbn; [lia|lia|done|].
    assert (∀ c q, c ∈ hf_cur (v_file v) :: hf_dev (v_file v) → ReadPersistedHighWatermark c ≠ Some (Some q)) as Hno.
    { destruct (v_released (lv l)) eqn:Er; [|by apply Q2]. rewrite (Q3 eq_refl). by apply F2. }
    constructor; cbn; [|done|by rewrite Q1|lia|]; [intros c q off Hc Hq _; by destruct (Hno c q)|].
    intros c Hc. by eapply release_valid.
  - destruct (V4 eq_refl) as [Q1 Q2]. eapply inv_visible; [exact H1| |by left| |].
    + intros a1 Ha1. change (active l = Some a1) in Ha1. rewrite Ha in Ha1. injection Ha1 as <-. lia.
    + rewrite V1. apply H.
    + constructor; cbn; rewrite ?V1; [|by rewrite Q1|by auto|done|].
      * intros c q off Hc Hq. apply (F1 c q off); [|done]. by eapply release_candidates.
      * intros c Hc. by eapply release_valid.
Qed.

(** ** Retention and closing *)

Lemma unlink_fields rm s d :
  dk_segments (unlink rm s d) = dk_segments d ∧ ∀ k, k ≠ sg_base s → dk_files (unlink rm s d) !! k = dk_files d !! k.
Proof. unfold unlink. case_match; [|done]. cbn. split; [done|]. intros k Hk. by rewrite lookup_delete_ne. Qed.

Lemma unlinks_fields rm vs d :
  dk_segments (foldr (unlink rm) d vs) = dk_segments d
  ∧ ∀ k, (∀ s, s ∈ vs → sg_base s ≠ k) → dk_files (foldr (unlink rm) d vs) !! k = dk_files d !! k.
Proof.
  induction vs as [|v vs [IH1 IH2]]; [done|]. cbn. destruct (unlink_fields rm v (foldr (unlink rm) d vs)) as [U1 U2].
  split; [by rewrite U1|]. intros k Hk. rewrite U2 by (apply not_eq_sym, Hk; set_solver). apply IH2. intros s Hs. apply Hk. set_solver.
Qed.

Lemma unlinks_subset rm vs d k : is_Some (dk_files (foldr (unlink rm) d vs) !! k) → is_Some (dk_files d !! k).
Proof.
  induction vs as [|v vs IH]; [done|]. cbn. unfold unlink at 1. case_match; [|done]. cbn.
  intros [f [_ Hf]%lookup_delete_Some]. apply IH. by eexists.
Qed.

Lemma lookup_detach segs T x s :
  lookup_ok segs T x → (∀ a, last segs = Some a → sg_base a ≠ sg_base s) →
  lookup_ok segs (delete (sg_base s) T) (detach_lookup s x).
Proof.
  intros [H1 H2 H3 H4 H5] Ha. assert (∀ k, k ≠ sg_base s → tiles (delete (sg_base s) T) k = tiles T k) as HT.
  { intros k Hk. unfold tiles. by rewrite lookup_delete_ne. }
  constructor; cbn.
  - intros k si [Hne Hk]%lookup_delete_Some. rewrite HT by done. by apply H1.
  - intros y [Hy Hs]%nav_invalidate_subset. rewrite HT by done. by apply H2.
  - intros c t recs [Hc Hs]%fc_invalidate_subset. rewrite HT by done. by apply H3.
  - intros c [Hc Hs]%fc_invalidate_subset. rewrite HT by done. by apply H4.
  - intros a Hl Hn. pose proof (Ha a Hl). rewrite HT by done. rewrite lookup_delete_ne in Hn by done. by apply H5.
Qed.

Definition drop_tiles (vs : list segment) (T : layout) : layout := foldr (λ s, delete (sg_base s)) T vs.

Lemma drop_tiles_ne vs T k : (∀ s, s ∈ vs → sg_base s ≠ k) → drop_tiles vs T !! k = T !! k.
Proof.
  induction vs as [|v vs IH]; intros Hk; [done|]. cbn. rewrite lookup_delete_ne by (apply Hk; set_solver).
  apply IH. intros s Hs. apply Hk. set_solver.
Qed.

Lemma drop_tiles_gone vs T s : s ∈ vs → drop_tiles vs T !! sg_base s = None.
Proof.
  induction vs as [|v vs IH]; [by intros ?%elem_of_nil|]. cbn. intros [->|Hs]%elem_of_cons; [by rewrite lookup_delete_eq|].
  destruct (decide (sg_base v = sg_base s)) as [->|]; [by rewrite lookup_delete_eq|]. rewrite lookup_delete_ne by done. auto.
Qed.

Lemma lookup_detaches segs T x vs :
  lookup_ok segs T x → (∀ a s, last segs = Some a → s ∈ vs → sg_base a ≠ sg_base s) →
  lookup_ok segs (drop_tiles vs T) (foldr detach_lookup x vs).
Proof.
  intros H. induction vs as [|v vs IH]; intros Ha; [done|]. cbn. apply lookup_detach.
  - apply IH. intros a s Hl Hs. apply Ha; [done|set_solver].
  - intros a Hl. apply Ha; [done|set_solver].
Qed.

Lemma base_inj segs s s' : segs_ok segs → s ∈ segs → s' ∈ segs → sg_base s = sg_base s' → s = s'.
Proof.
  intros H Hs Hs' E. pose proof (findSegment_spec segs s H Hs) as F. rewrite E, (findSegment_spec segs s' H Hs') in F. congruence.
Qed.

Lemma hwm_ok_subset v g C C' e : hwm_ok v g C e → (∀ off, is_Some (C' !! off) → is_Some (C !! off)) → hwm_ok v g C' e.
Proof. intros [F1 F2 F3 F4 F5] HC. constructor; eauto. Qed.

(** A sweep keeps the active segment and whatever is not a victim. *)
Definition sweep_kept (now : Z) (l : Log) : list segment :=
  filter (λ s, ¬ expired (lmaxAge l) now s = true) (removelast (segments l)).

Lemma sweep_lists now l a :
  segs_ok (segments l) → active l = Some a →
  (∀ s, s ∈ sweep_kept now l ++ [a] → s ∈ segments l ∧ ∀ v, v ∈ sweep_victims now l → sg_base v ≠ sg_base s)
  ∧ (∀ s, s ∈ segments l → s ∉ sweep_victims now l → s ∈ sweep_kept now l ++ [a])
  ∧ (∀ s, s ∈ sweep_kept now l → s ∈ removelast (segments l))
  ∧ segs_ok (sweep_kept now l ++ [a]).
Proof.
  intros Hso Ha. pose proof (segments_last _ _ Ha) as Hlast.
  assert (∀ s, s ∈ removelast (segments l) → s ∈ segments l) as Hsub by (intros s Hs; rewrite Hlast; set_solver).
  assert (∀ s, s ∈ sweep_victims now l ↔ expired (lmaxAge l) now s = true ∧ s ∈ removelast (segments l)) as Hvs.
  { intros s. unfold sweep_victims. by rewrite list_elem_of_filter. }
  assert (∀ s, s ∈ sweep_kept now l ↔ expired (lmaxAge l) now s ≠ true ∧ s ∈ removelast (segments l)) as Hke.
  { intros s. unfold sweep_kept. by rewrite list_elem_of_filter. }
  assert (∀ s, s ∈ sweep_kept now l ++ [a] → s ∈ segments l) as Hkin.
  { intros s [[_ Hs]%Hke|Hs%list_elem_of_singleton]%elem_of_app; [auto|]. subst. by eapply last_Some_elem_of. }
  split; [|split; [|split; [by intros s [_ ?]%Hke|]]].
  - intros s Hs. split; [auto|]. intros v [Hv Hvin]%Hvs. apply elem_of_app in Hs as [Hs|Hs%list_elem_of_singleton].
    + apply Hke in Hs as [Hx Hs]. intros E. apply (base_inj (segments l)) in E; [|done|auto|auto]. congruence.
    + subst s. destruct (sealed_before _ _ _ Hso Ha Hvin). lia.
  - intros s Hs Hnv. apply (segments_cases l a s Ha) in Hs as [Hs| ->]; [|set_solver]. apply elem_of_app. left. apply Hke.
    split; [|done]. intros Hx. apply Hnv. by apply Hvs.
  - destruct Hso as [Hs Hr]. constructor; [|intros s Hs'; apply Hr; auto]. eapply sorted_sublist; [|exact Hs].
    rewrite Hlast. apply sublist_app; [|done]. apply sublist_filter.
Qed.

Lemma inv_sweep now rm l p g A C e T :
  inv l p g A C e T → inv (sweep now rm l) p g A (expire (sweep_victims now l) C) e (drop_tiles (sweep_victims now l) T).
Proof.
  intros H. pose proof (iv_active _ _ _ _ _ _ _ _ H) as (a&Ha&[A1 A2 A3]&Hrest). pose proof (iv_segs _ _ _ _ _ _ _ _ H) as Hso.
  destruct (sweep_lists now l a Hso Ha) as (Hstay&Hin&Hke&Hsk). set (vs := sweep_victims now l) in *.
  set (d0 := MkDisk (dk_files (ld l)) (dk_removed (ld l)) (sweep_kept now l ++ [a])).
  assert (sweep now rm l = with_lookup (foldr detach_lookup (lx l) vs) (with_disk (foldr (unlink rm) d0 vs) l)) as ->.
  { unfold sweep. by rewrite Ha. }
  destruct (unlinks_fields rm vs d0) as [U1 U2]. set (d := foldr (unlink rm) d0 vs) in *.
  assert (∀ s, s ∈ sweep_kept now l ++ [a] → tiles (drop_tiles vs T) (sg_base s) = tiles T (sg_base s)
            ∧ file_at d (sg_base s) = file_at (ld l) (sg_base s) ∧ dk_files d !! sg_base s = dk_files (ld l) !! sg_base s) as Hsame.
  { intros s Hs. destruct (Hstay s Hs) as [_ Hne]. unfold tiles, file_at. rewrite drop_tiles_ne, U2 by done. done. }
  destruct (Hsame a ltac:(set_solver)) as (Ta&Fa&Da).
  constructor; unfold segments; cbn [ld with_lookup with_disk]; rewrite ?U1; cbn [d0 dk_segments]; try apply H; try done.
  - rewrite removelast_last. intros s Hs. destruct (Hsame s ltac:(set_solver)) as (Ts&Fs&Ds).
    destruct (iv_sealed _ _ _ _ _ _ _ _ H s (Hke s Hs)) as [S1 S2 S3].
    constructor; unfold contents; rewrite ?Ts, ?Fs, ?Ds; done.
  - exists a. split; [unfold active, segments; cbn; rewrite U1; apply last_snoc|]. rewrite Ta. split; [|done].
    constructor; unfold contents; rewrite ?Ta, ?Fa, ?Da; done.
  - cbn. apply lookup_detaches.
    + destruct (iv_lookup _ _ _ _ _ _ _ _ H) as [L1 L2 L3 L4 L5]. constructor; try done.
      intros x Hx. apply L5. rewrite last_snoc in Hx. injection Hx as <-. done.
    + intros x v. rewrite last_snoc. intros [= <-] Hv. apply not_eq_sym. by apply (Hstay a ltac:(set_solver)).
  - intros y k Hy Hk. unfold active, segments in Hy. cbn [ld with_lookup with_disk] in Hy. rewrite U1 in Hy. cbn [d0 dk_segments] in Hy.
    rewrite last_snoc in Hy. injection Hy as <-. apply (iv_names _ _ _ _ _ _ _ _ H a k Ha). by apply (unlinks_subset rm vs d0).
  - intros base Hb. destruct (iv_dom _ _ _ _ _ _ _ _ H base) as (s&Hs&<-).
    { destruct Hb as [ts Hb]. exists ts. rewrite <-Hb. symmetry. apply drop_tiles_ne. intros v Hv <-. by rewrite drop_tiles_gone in Hb. }
    exists s. split; [|done]. apply Hin; [done|]. intros Hv. rewrite drop_tiles_gone in Hb by done. by destruct Hb.
  - intros off r. unfold expire. rewrite map_lookup_filter_Some. cbn. intros [HC Hx].
    destruct (iv_committed _ _ _ _ _ _ _ _ H off r HC) as [Ho (s&t&recs&Hs&Ht&Hk&Hho&Hr&Hce)]. split; [done|].
    pose proof (do_seg _ _ _ (inv_disk _ _ _ _ _ _ _ _ H) s Hs) as [Hc Hcn _ _ _].
    apply (chain_elem _ _ _ _ _ _ Hc) in Ht as Ht'. destruct Ht' as (_&_&_&?&?).
    assert (s ∈ sweep_kept now l ++ [a]) as Hs'.
    { apply Hin; [done|]. intros Hv. apply Hx. apply Exists_exists. exists s. split; [done|]. unfold in_segment, holds in *. lia. }
    destruct (Hsame s Hs') as (Ts&Fs&_). exists s, t, recs. rewrite Ts, Fs, U1. done.
  - eapply hwm_ok_subset; [apply H|]. intros off [r Hr]. unfold expire in Hr. apply map_lookup_filter_Some in Hr as [? _]. by eexists.
Qed.

Lemma persist_candidates io v v' ok c q :
  persistClosedHighWatermark io v = (v', ok) → ¬ short_write io → 0 <= v_hwm v <= max_int64 → c ∈ hf_cur (v_file v') :: hf_dev (v_file v') →
  ReadPersistedHighWatermark c = Some (Some q) → q = v_hwm v ∨ c ∈ hf_cur (v_file v) :: hf_dev (v_file v).
Proof.
  intros Hp Hio Hr. assert (∀ q, ReadPersistedHighWatermark (Some (put_be 8 (v_hwm v))) = Some (Some q) → q = v_hwm v) as Hd.
  { intros q'. assert (length (put_be 8 (v_hwm v)) = 8%nat) as Hl by apply length_put_be.
    unfold ReadPersistedHighWatermark. destruct (put_be 8 (v_hwm v)) as [|b bs] eqn:E; [done|]. rewrite <-E in *.
    rewrite decide_True by done. rewrite get_put_be_8 by (unfold max_int64, two63 in *; lia).
    rewrite i64_id by (unfold in_i64, max_int64, two63 in *; lia). intros [= <-]. lia. }
  unfold persistClosedHighWatermark in Hp. case_match; [injection Hp as <- <-; by right|]. set (data := put_be 8 (v_hwm v)) in *.
  destruct io; [| | | | |destruct (v_dirSynced v)]; injection Hp as <- <-; cbn; rewrite ?elem_of_cons.
  - intros [->|[->|?%elem_of_nil]]; [by auto|by auto|done].
  - tauto.
  - destruct k; [|by destruct Hio; eexists]. cbn [take drop app].
    destruct (hf_cur (v_file v)) as [cur|]; cbn; intros [->|Hc]; [by auto|by auto|done|by auto].
  - intros [->|Hc]; auto.
  - intros [->|[->|Hc]]; [by auto|by auto|]. destruct (v_dirSynced v); [by apply elem_of_nil in Hc|].
    by apply list_elem_of_singleton in Hc as ->.
  - intros [->|[->|?%elem_of_nil]]; [by auto|by auto|done].
  - intros [->|[->|[->|?%elem_of_nil]]]; [by auto|by auto|done|done].
Qed.

Lemma persist_valid io v v' ok c :
  persistClosedHighWatermark io v = (v', ok) → ¬ short_write io → (∀ c, c ∈ hf_cur (v_file v) :: hf_dev (v_file v) → ReadPersistedHighWatermark c ≠ None) →
  c ∈ hf_cur (v_file v') :: hf_dev (v_file v') → ReadPersistedHighWatermark c ≠ None.
Proof.
  intros Hr Hio Hv Hc E. destruct (decide (c ∈ hf_cur (v_file v) :: hf_dev (v_file v))) as [Hin|Hn]; [by apply (Hv c)|].
  unfold persistClosedHighWatermark in Hr. case_match; [by simplify_eq|].
  assert (∀ x, ReadPersistedHighWatermark (Some (put_be 8 x)) ≠ None) as Hd.
  { intros x. pose proof (length_put_be 8 x) as Hl. unfold ReadPersistedHighWatermark. destruct (put_be 8 x) as [|b bs]; [done|]. by rewrite decide_True. }
  destruct io; [| | | | |destruct (v_dirSynced v)]; injection Hr as <- <-; cbn [hf_cur hf_dev v_file with_file] in *;
    rewrite ?elem_of_cons in *; try tauto; try (destruct Hc as [->|[->|?%elem_of_nil]]; [exact (Hd _ E)|exact (Hd _ E)|done]).
  - destruct k; [|by destruct Hio; eexists]. cbn [take drop app] in *.
    destruct Hc as [->|Hc]; [|tauto]. destruct (hf_cur (v_file v)) as [cur|]; [|done]. cbn in *. tauto.
  - destruct Hc as [->|Hc]; [exact (Hd _ E)|tauto].
  - destruct Hc as [->|[->|Hc]]; [exact (Hd _ E)|exact (Hd _ E)|]. destruct (v_dirSynced v); [by apply elem_of_nil in Hc|].
    by apply list_elem_of_singleton in Hc as ->.
  - destruct Hc as [->|[->|[->|?%elem_of_nil]]]; [exact (Hd _ E)|exact (Hd _ E)|done|done].
Qed.

Lemma persist_fields io v v' ok : persistClosedHighWatermark io v = (v', ok) → v_hwm v' = v_hwm v ∧ v_durable v' = v_durable v.
Proof. unfold persistClosedHighWatermark. case_match; [by intros [= <- <-]|]. destruct io; [..|destruct (v_dirSynced v)]; by intros [= <- <-]. Qed.

Lemma inv_ended l p g A C e T : inv l p g A C e T → inv l p g A C true T.
Proof.
  intros H. pose proof (iv_active _ _ _ _ _ _ _ _ H) as (a&Ha&[S1 S2 S3]&Hrest).
  assert (∀ f sy sy' t, tile_inv f g A (v_hwm (lv l)) (fresh l e) sy t → (sy' → False) → tile_inv f g A (v_hwm (lv l)) (fresh l true) sy' t) as Ht.
  { intros f sy sy' t H' Hf. eapply tile_inv_mono; [exact H'|by intros [_ [=]]|tauto|lia|by left]. }
  constructor; try apply H.
  - intros s Hs. destruct (iv_sealed _ _ _ _ _ _ _ _ H s Hs) as [Q1 Q2 Q3]. constructor; [done|done|].
    intros t Hti. eapply Ht; [by apply Q3|by intros [_ [=]]].
  - exists a. split; [done|]. split; [|done]. constructor; [done|done|]. intros t Hti. eapply Ht; [by apply S3|by intros [[_ [=]] _]].
  - destruct (iv_hwm _ _ _ _ _ _ _ _ H) as [F1 F2 F3 F4 F5]. by constructor.
Qed.

Lemma inv_end_close pio ok l p g A C e T : ¬ short_write pio → inv l p g A C e T → ∃ T', inv (end_close pio ok l).1 Idle g A C true T'.
Proof.
  intros Hio H0. assert (inv l Idle g A C true T) as H.
  { eapply inv_ended. by apply (inv_phase _ _ _ _ _ _ _ _ Idle H0). }
  pose proof (iv_active _ _ _ _ _ _ _ _ H) as (a&Ha&Hia&Hend&Hmem&Hhn&Hdn&_).
  destruct (iv_segs _ _ _ _ _ _ _ _ H) as [_ Hr]. specialize (Hr a (last_Some_elem_of _ _ Ha)).
  unfold end_close. destruct (persistClosedHighWatermark pio (lv l)) as [v okp] eqn:Ep. rewrite Ha. cbn [fst].
  destruct (persist_fields _ _ _ _ Ep) as [P1 P2]. destruct (iv_hwm _ _ _ _ _ _ _ _ H) as [F1 F2 F3 F4 F5].
  assert (∃ st, (if ok then f_sync (file_at (ld l) (sg_base a)) else f_sync_failed (file_at (ld l) (sg_base a)))
            = restatus st (file_at (ld l) (sg_base a)) ∧ st Kept = Kept) as (st&Est&HK).
  { destruct ok; eexists; rewrite ?f_sync_restatus, ?f_sync_failed_restatus; done. }
  rewrite Est. set (l1 := with_disk _ l).
  assert (inv l1 Idle g A C true (<[sg_base a := tiles T (sg_base a)]> T)) as H1.
  { eapply (inv_restatus o l Idle g A C true T a l1 Idle st); try done; try apply H; by intros [_ [=]]. }
  eexists. eapply inv_visible; [exact H1| |by left| |].
  - intros x Hx. change (active l = Some x) in Hx. rewrite Ha in Hx. injection Hx as <-. lia.
  - rewrite P1. apply (iv_committed _ _ _ _ _ _ _ _ H1).
  - constructor; [|done|done|lia|intros c Hc; by eapply persist_valid]. intros c q off Hc Hq HC.
    destruct (persist_candidates _ _ _ _ _ _ Ep Hio ltac:(lia) Hc Hq) as [->|Hc']; [|by apply (F1 c q off)].
    destruct HC as [r HC]. by apply (iv_committed _ _ _ _ _ _ _ _ H off r HC).
Qed.

(** ** The flusher *)

Lemma inv_rollIfPending i now l g A C T :
  inv l Idle g A C false T → io_create i ≠ CreateDirSyncFails true → ∃ T', inv (rollIfPending i now l) Idle g A C false T'.
Proof.
  intros H Hio. unfold rollIfPending. case_match; [|by exists T]. pose proof (iv_active _ _ _ _ _ _ _ _ H) as (a&Ha&_).
  destruct (roll i now l) as [l1 r] eqn:Er. destruct (inv_rolled _ _ _ _ _ _ _ _ _ _ _ _ H Ha Hio Er) as (T1&_&H1&_). by exists T1.
Qed.

Definition request_ok (p : phase) (g : Z) : Prop :=
  match p with
  | Writing (ReqCommit first last) _ _ _ | Syncing (ReqCommit first last) | Finishing (ReqCommit first last) => g <= first <= last
  | _ => True
  end.

End Ops.
