(* ===== verification/PartReopen.v ===== *)
(** * The lives of a partition log

    Every step of a run preserves the invariant of [PartInv], and opening a
    log on what a stop left establishes it again with the same acknowledged
    records. *)

From S2P Require Import Prelude Octets PartFrame PartCache PartLog PartFlush PartBytes PartWalk PartLookup PartRun PartInv PartSteps PartOps.

#[local] Arguments Z.mul : simpl never.
#[local] Arguments Z.add : simpl never.
#[local] Arguments Z.sub : simpl never.
#[local] Arguments Z.pow : simpl never.
#[local] Arguments Z.of_nat : simpl never.
#[local] Arguments Z.to_nat : simpl never.

Section Lives.
Context (o : Options).
Hypothesis Hcodec : codec_ok (own (o_codecs o)).
Hypothesis Hverify : DisableCommitVerify o = false.
Abbreviation cs := (o_codecs o).
Abbreviation inv := (inv o).

Definition node_inv (n : node) : Prop :=
  ∃ T, inv (n_log n) (n_phase n) (n_open n) (n_appended n) (n_committed n) (n_ended n) T
    ∧ request_ok (n_phase n) (n_open n).

(** ** Requests *)

Definition waits_ok (n : node) : Prop := ∀ r, r ∈ n_waiting n → request_ok (Syncing r) (n_open n).

Lemma request_lower p g g' : request_ok p g → g' <= g → request_ok p g'.
Proof. intros H Hg. destruct p as [|[]|[]|[]|[]|]; cbn in *; try done; lia. Qed.

Lemma take_out_elem r ws ws' x : take_out r ws = Some ws' → x ∈ ws' → x ∈ ws.
Proof.
  revert ws'. induction ws as [|w ws IH]; [done|]. cbn. intros ws'. case_decide as E; [intros [= ->]; by right|].
  destruct (take_out r ws) as [ws0|]; [|done]. intros [= <-]. intros [->|Hx]%elem_of_cons; [by left|right; by apply (IH ws0)].
Qed.

Lemma take_out_mem r ws ws' : take_out r ws = Some ws' → r ∈ ws.
Proof.
  revert ws'. induction ws as [|w ws IH]; [done|]. cbn. intros ws'. case_decide as E; [subst; by left|].
  destruct (take_out r ws) as [ws0|]; [|done]. intros _. right. by apply (IH ws0).
Qed.

(** ** Steps *)

Lemma finish_other i now r l g A C T l' res :
  inv l (Finishing r) g A C false T → io_create i ≠ CreateDirSyncFails true → isCommit r = false →
  finishRequest i now r l = (l', res) → ∃ T', inv l' Idle g A C false T'.
Proof.
  intros H0 Hio Hr. assert (inv l Idle g A C false T) as H by (by apply (inv_phase _ _ _ _ _ _ _ _ Idle H0)).
  destruct r; try done; cbn [finishRequest]; try (intros [= <- <-]; by exists T).
  unfold rotateActive. pose proof (iv_active _ _ _ _ _ _ _ _ H) as (a&Ha&_). rewrite Ha.
  destruct ((0 <? sg_size a) && _); [|intros [= <- <-]; by exists T]. destruct (roll i now l) as [l1 ok] eqn:Er. intros [= <- <-].
  destruct (inv_rolled _ _ _ _ _ _ _ _ _ _ _ _ H Ha Hio Er) as (T1&_&H1&_). by exists T1.
Qed.

Lemma node_inv_flusher i now n :
  node_inv n → n_ended n = false → io_create i ≠ CreateDirSyncFails true → node_inv (step_flusher i now n).
Proof.
  destruct n as [l p g A C e ws]. unfold node_inv, step_flusher. cbn. intros (T&H&Hrq) -> Hio.
  destruct p as [|r todo base cache|r|r|r er|]; cbn [flusher_step].
  - by exists T.
  - destruct (write_round i now r todo base cache l) as [l' p'] eqn:Ew.
    pose proof (iv_active _ _ _ _ _ _ _ _ H) as (a&Ha&_).
    destruct (inv_write_round o Hcodec _ _ _ _ _ _ _ _ _ _ _ _ _ _ _ H Ha Hio Ew) as (T'&_&H'&_). exists T'. split; [done|].
    unfold write_round in Ew. repeat case_match; simplify_eq; done.
  - pose proof (iv_active _ _ _ _ _ _ _ _ H) as (a&Ha&_&_&_&_&_&Hpo). cbn in Hpo.
    assert (inv l Idle g A C false T) as HI by (by apply (inv_phase _ _ _ _ _ _ _ _ Idle H)).
    destruct (syncIfNeeded _ _ _ _) as [l' ok] eqn:Es.
    destruct (inv_sync o _ _ _ _ _ _ _ _ _ _ _ _ HI Ha Es) as (T'&H'&Ha'&_&_&_&_&_&_&Hr). exists T'.
    destruct ok; [|split; [by eapply inv_phase|done]]. destruct (Hr eq_refl) as [P1 P2]. split; [|done].
    eapply inv_phase; [exact H'|]. intros x _. cbn. split; [congruence|auto].
  - destruct (finishRequest i now r l) as [l' res] eqn:Ef. destruct (isCommit r) eqn:Ec; cycle 1.
    + destruct (finish_other _ _ _ _ _ _ _ _ _ _ H Hio Ec Ef) as (T'&H'). destruct res as [u|er]; cycle 1.
      { exists T'. destruct r; try done; (split; [by eapply inv_phase|done]). }
      destruct r; try done; cbn in *; try (exists T'; split; [by eapply inv_phase|done]).
      destruct (inv_rollIfPending o i now l' g A C T' H' Hio) as (T2&H2). exists T2. split; [by eapply inv_phase|done].
    + destruct r; try done. pose proof (inv_commit o _ _ _ _ _ _ _ _ _ _ _ Hverify H Hrq Ef) as Hc.
      destruct res as [u|er]; cycle 1.
      { destruct Hc as (T'&H'). exists T'. split; [by eapply inv_phase|done]. }
      destruct Hc as (T'&H'). destruct (inv_rollIfPending o i now l' _ _ _ _ H' Hio) as (T2&H2). exists T2. split; [by eapply inv_phase|done].
  - destruct (isCommit r) eqn:Ec; cbn [n_log n_phase n_open n_appended n_committed n_ended n_waiting].
    + destruct (inv_discard o (io_trunc i) l _ g A C T H) as (T'&H'). exists T'. split; [by destruct r; eapply inv_phase|by destruct r].
    + exists T. split; [by destruct r; eapply inv_phase|by destruct r].
  - by exists T.
Qed.

(** Nothing depends on the retention bound or on the log being closed. *)
Lemma inv_settings l p g A C e T closed age :
  inv l p g A C e T → inv (MkLog (lo l) (ld l) (lx l) (lb l) (lf l) (lv l) (lw l) closed age) p g A C e T.
Proof.
  intros H. pose proof (iv_active _ _ _ _ _ _ _ _ H) as (a&Ha&Hia&Hend&Hmem&Hhn&Hdn&Hph).
  eapply (inv_frame o l p g A C e T _ p A a); try done; apply H.
Qed.

Lemma submit_cases r n :
  submitRequest r n = n ∨ (∀ first last, r = ReqCommit first last → first <= last)
    ∧ submitRequest r n = Node (n_log n) (n_phase n) (n_open n) (n_appended n) (n_committed n) (n_ended n) (n_waiting n ++ [r]).
Proof.
  unfold submitRequest, submitCommit. destruct r as [| | |first last| |]; cbn [queued]; repeat case_match; try (by left); right; (split; [|done]).
  all: intros ?? [=]; subst; lia.
Qed.

Lemma node_inv_exec op n : node_inv n → waits_ok n → op_ok op n → node_inv (exec op n).
Proof.
  intros Hn Hw [He Hop]. destruct n as [l p g A C e ws]. cbn in He. subst e.
  destruct op; cbn [exec n_log n_phase n_open n_appended n_committed n_ended n_waiting] in *.
  - destruct Hn as (T&H&Hrq). cbn in *. destruct (AppendBatch rs now l) as [l' [[[[f la] c] w]|er]] eqn:Ea.
    + exists T. cbn. split; [|done]. by eapply inv_push.
    + exists T. cbn. split; [|done]. unfold AppendBatch in Ea. repeat case_match; simplify_eq; done.
  - destruct (submit_cases r (Node l p g A C false ws)) as [->|[_ ->]]; exact Hn.
  - destruct Hn as (T&H&Hrq). cbn in *. destruct p; try (by exists T).
    destruct (receive r ws) as [ws'|] eqn:Er; [|by exists T]. assert (request_ok (Syncing r) g) as Hr.
    { unfold receive in Er. destruct (queued r) eqn:Eq; [by apply Hw, (take_out_mem _ _ _ Er)|by destruct r]. }
    destruct (begin_pass r now l) as [l' p'] eqn:Eb. exists T. cbn. split; [by eapply inv_begin|].
    unfold begin_pass in Eb. repeat case_match; simplify_eq; try done; destruct r; done.
  - by apply node_inv_flusher.
  - destruct Hn as (T&H&Hrq). exists T. cbn in *. split; [by apply inv_read|done].
  - destruct Hn as (T&H&Hrq). eexists. cbn in *. split; [by apply inv_sweep|done].
  - destruct Hn as (T&H&Hrq). exists T. cbn in *. split; [by apply inv_settings|done].
  - destruct Hn as (T&H&Hrq). exists T. cbn in *. split; [by apply inv_settings|done].
  - destruct Hn as (T&H&Hrq). cbn in *. destruct Hop as [Hop Hio]. destruct (inv_end_close o pio sync_ok l p g A C false T Hio H) as (T'&H').
    exists T'. split; [by rewrite Hop; eapply inv_phase|by rewrite Hop].
Qed.

(** A commit waits for records appended since the open: the first of them
    only moves back. *)
Lemma waits_ok_exec op n : waits_ok n → op_ok op n → waits_ok (exec op n).
Proof.
  intros Hw [He Hop]. assert (∀ n', n_waiting n' = n_waiting n → n_open n' <= n_open n → waits_ok n') as Hsame.
  { intros n' Hws Ho r. rewrite Hws. intros Hr. eapply request_lower; [by apply Hw|done]. }
  destruct op; cbn [exec].
  - destruct (AppendBatch _ _ _) as [l' [[[[f la] c] w]|er]]; by apply Hsame.
  - destruct (submit_cases r n) as [->|[Hr ->]]; [done|]. intros x. cbn. intros [Hx|Hx]%elem_of_app; [by apply Hw|].
    apply list_elem_of_singleton in Hx as ->. destruct r as [| | |first last| |]; try done. specialize (Hr first last eq_refl). cbn. cbn in Hop. lia.
  - destruct (n_phase n); try by apply Hsame. destruct (receive r (n_waiting n)) as [ws|] eqn:Er; [|done].
    destruct (begin_pass _ _ _) as [l' p']. intros x Hx. cbn in *. apply Hw. unfold receive in Er.
    destruct (queued r); [by eapply take_out_elem|]. by injection Er as <-.
  - unfold step_flusher. destruct (flusher_step _ _ _ _) as [[l' p'] rep]. apply Hsame.
    + repeat case_match; done.
    + repeat case_match; cbn; lia.
  - by apply Hsame.
  - by apply Hsame.
  - by apply Hsame.
  - by apply Hsame.
  - by intros r ?%elem_of_nil.
Qed.

End Lives.

(** ** Opening a partition log again

    [NewLog] on the directory a stop left: the recovery walk keeps every
    frame that checks out, the invariant of [PartInv] holds again, and every
    acknowledged record is still below the high-watermark. *)

(** ** The files in order *)

Definition lower (a b : Z * file) : Prop := a.1 < b.1.

Lemma listSegmentFiles_spec fs :
  StronglySorted lower (listSegmentFiles fs) ∧ ∀ x, x ∈ listSegmentFiles fs ↔ fs !! x.1 = Some x.2.
Proof.
  assert (∀ x, x ∈ listSegmentFiles fs ↔ fs !! x.1 = Some x.2) as Hin.
  { intros [k f]. unfold listSegmentFiles. rewrite merge_sort_Permutation. apply elem_of_map_to_list. }
  split; [|done]. assert (NoDup (fst <$> listSegmentFiles fs)) as Hnd.
  { unfold listSegmentFiles. rewrite merge_sort_Permutation. apply NoDup_fst_map_to_list. }
  assert (StronglySorted by_offset (listSegmentFiles fs)) as Hs.
  { apply StronglySorted_merge_sort; [intros ??? ; unfold by_offset; lia|]. intros [] []. unfold by_offset. cbn. lia. }
  clear Hin. induction (listSegmentFiles fs) as [|x l IH]; [constructor|]. apply StronglySorted_inv in Hs as [Hs Ha].
  apply NoDup_cons in Hnd as [Hx Hnd]. constructor; [auto|]. eapply Forall_impl; [by apply Forall_and; split; [exact Ha|apply Forall_forall; exact (λ y H, H)]|].
  intros y [Hy Hin]. unfold by_offset, lower in *. destruct (decide (x.1 = y.1)) as [E|]; [|lia].
  destruct Hx. rewrite E. by apply list_elem_of_fmap_2.
Qed.

(** The sealed segments a directory yields. *)
Lemma sealed_spec mtimes files :
  StronglySorted lower files →
  (∀ s, s ∈ sealed_segments mtimes files → ∃ f f', (sg_base s, f) ∈ files ∧ (sg_next s, f') ∈ files ∧ sg_size s = flen f ∧ sg_base s < sg_next s)
  ∧ StronglySorted seg_before (sealed_segments mtimes files)
  ∧ (∀ s x, s ∈ sealed_segments mtimes files → last files = Some x → sg_next s <= x.1)
  ∧ (∀ x y, x ∈ files → last files = Some y → x = y ∨ ∃ s, s ∈ sealed_segments mtimes files ∧ sg_base s = x.1).
Proof.
  induction files as [|[b f] files IH]; intros Hs.
  { cbn. split; [by intros ? ?%elem_of_nil|]. split; [constructor|]. split; [by intros ?? ?%elem_of_nil|by intros ?? ?%elem_of_nil]. }
  apply StronglySorted_inv in Hs as [Hs Ha]. destruct (IH Hs) as (I1&I2&I3&I4). destruct files as [|[b' f'] files].
  { cbn. split; [by intros ? ?%elem_of_nil|]. split; [constructor|]. split; [by intros ?? ?%elem_of_nil|].
    intros x y ->%list_elem_of_singleton [= <-]. by left. }
  apply Forall_cons in Ha as [Hlt Ha]. unfold lower in Hlt. cbn in Hlt.
  set (files' := (b', f') :: files) in *. change (sealed_segments mtimes ((b, f) :: files')) with
    (MkSegment b b' (flen f) (sg_first (openSegment b f (default 0 (mtimes !! b)))) (sg_last (openSegment b f (default 0 (mtimes !! b))))
      :: sealed_segments mtimes files').
  set (s0 := MkSegment b b' _ _ _). split; [|split; [|split]].
  - intros s [->|Hin]%elem_of_cons.
    + exists f, f'. split; [by left|]. split; [right; by left|]. done.
    + destruct (I1 s Hin) as (g&g'&?&?&?&?). exists g, g'. split; [by right|]. split; [by right|]. done.
  - constructor; [done|]. apply Forall_forall. intros s Hin. destruct (I1 s Hin) as (g&_&Hg&_&_&_).
    assert (b' <= sg_base s) as Hle.
    { apply elem_of_cons in Hg as [[= -> _]|Hg]; [lia|]. apply StronglySorted_inv in Hs as [_ Hall].
      rewrite Forall_forall in Hall. specialize (Hall _ Hg). unfold lower in Hall. cbn in Hall. lia. }
    unfold seg_before, s0. cbn. lia.
  - intros s x [->|Hin]%elem_of_cons Hx; [|by apply (I3 s x)]. cbn. change (last files' = Some x) in Hx.
    apply last_Some_elem_of in Hx. apply elem_of_cons in Hx as [->|Hx]; [done|].
    apply StronglySorted_inv in Hs as [_ Hall]. rewrite Forall_forall in Hall. specialize (Hall _ Hx). unfold lower in Hall. cbn in Hall. lia.
  - intros x y [->|Hin]%elem_of_cons Hy; [right; exists s0; split; [by left|done]|].
    destruct (I4 x y Hin Hy) as [->|(s&?&?)]; [by left|right]. exists s. split; [by right|done].
Qed.

(** One tiling per file. *)
Lemma choose_tiles (P : Z → file → list tile → Prop) (fs : gmap Z file) :
  (∀ k f, fs !! k = Some f → ∃ ts, P k f ts) →
  ∃ T : layout, (∀ k f, fs !! k = Some f → P k f (tiles T k)) ∧ ∀ k, is_Some (T !! k) → is_Some (fs !! k).
Proof.
  induction fs as [|k f fs Hk IH] using map_ind; intros H.
  { exists ∅. split; [intros ??; by rewrite lookup_empty|intros ?; by rewrite lookup_empty]. }
  destruct IH as (T&H1&H2).
  { intros k' f' Hk'. apply H. rewrite lookup_insert_ne; [done|]. intros ->. congruence. }
  destruct (H k f) as [ts Hts]; [by rewrite lookup_insert_eq|]. exists (<[k := ts]> T). split.
  - intros k' f'. rewrite tiles_insert. destruct (decide (k' = k)) as [->|Hne].
    + rewrite lookup_insert_eq. by intros [= <-].
    + rewrite lookup_insert_ne by done. apply H1.
  - intros k' Hs. destruct (decide (k' = k)) as [->|Hne]; [by rewrite lookup_insert_eq|].
    rewrite lookup_insert_ne in Hs by done. rewrite lookup_insert_ne by done. auto.
Qed.

(** ** The recovery walk *)

(** The tiles up to the last frame that checks out. *)
Lemma last_good ts :
  (∀ t, t ∈ ts → good t = false) ∨ ∃ pre g post, ts = pre ++ g :: post ∧ good g = true ∧ ∀ t, t ∈ post → good t = false.
Proof.
  induction ts as [|t ts [IH|(pre&g&post&->&Hg&Hp)]].
  - left. by intros ? ?%elem_of_nil.
  - destruct (good t) eqn:E.
    + right. exists [], t, ts. done.
    + left. intros x [->|Hx]%elem_of_cons; auto.
  - right. by exists (t :: pre), g, post.
Qed.

Lemma walked_good o s size pre g post p entries sn nx :
  good g = true → (∀ t, t ∈ post → good t = false) → (∀ t, t ∈ pre → t_next t <= t_next g) →
  ∃ nx', walked o s size (pre ++ g :: post) p entries sn nx
    = (foldl (appendSparseIndexEntry o) entries (entry_of s <$> filter (λ t, good t = true) (pre ++ [g])), t_next g, nx',
       if t_end g <? size then Some (t_end g) else None) ∧ nx' <= Z.max nx (t_next g).
Proof.
  intros Hg Hpost. revert p entries sn nx. induction pre as [|t pre IH]; intros p entries sn nx Hpre.
  - cbn [app walked]. rewrite Hg. rewrite <-(app_nil_r post), walked_skip by done. cbn [walked]. exists (Z.max nx (t_next g)). split; [|lia].
    rewrite filter_cons_True by done. done.
  - cbn [app walked]. rewrite filter_cons. destruct (good t) eqn:E; [rewrite decide_True by done|rewrite decide_False by done].
    + destruct (IH (t_end t) (appendSparseIndexEntry o entries (entry_of s t)) (t_next t) (Z.max nx (t_next t))) as (nx'&->&Hnx).
      { intros u Hu. apply Hpre. by right. }
      specialize (Hpre t ltac:(by left)). exists nx'. split; [done|]. lia.
    + destruct (IH p entries sn nx) as (nx'&->&Hnx); [intros u Hu; apply Hpre; by right|]. by exists nx'.
Qed.

(** What a lookup starts from after the walk. *)
Lemma fresh_index o segs segs' T a entries :
  last segs' = Some a → idx_ok (sg_base a) (tiles T (sg_base a)) entries →
  lookup_ok segs' T (setSegmentIndex o segs (sg_base a) entries emptyLookup).
Proof.
  intros Ha Hi. apply (idx_ok_sparse o) in Hi. unfold setSegmentIndex. destruct (sparseIndexEntries o entries) as [|x es] eqn:E.
  - constructor; cbn; try (by intros ? ?%elem_of_nil).
    + intros base si. rewrite delete_empty. by rewrite lookup_empty.
    + intros c t recs ?%elem_of_nil. done.
    + intros a' Ha' _ t Ht. rewrite Ha in Ha'. injection Ha' as <-. destruct (good t) eqn:Eg; [|done].
      destruct (io_first _ _ _ Hi t Ht Eg) as (y&?%elem_of_nil&_). done.
  - set (x0 := with_idx _ emptyLookup). assert (is_Some (lk_idx x0 !! sg_base a)) as Hs by (cbn; by rewrite lookup_insert_eq).
    destruct (touch_prune_keeps segs _ _ Hs) as [si0 Hsi0].
    assert (∀ z, lk_nav (pruneSegmentIndexes segs (sg_base a) (touchSegmentIndex (sg_base a) z)) = lk_nav z
              ∧ lk_frames (pruneSegmentIndexes segs (sg_base a) (touchSegmentIndex (sg_base a) z)) = lk_frames z) as Hc.
    { intros z. unfold pruneSegmentIndexes, touchSegmentIndex. cbn. by case_match. }
    destruct (Hc x0) as [Hn Hf]. constructor.
    + intros base si Hsi. apply touch_prune in Hsi. cbn in Hsi. destruct (decide (base = sg_base a)) as [->|Hne].
      * rewrite lookup_insert_eq in Hsi. injection Hsi as <-. done.
      * by rewrite lookup_insert_ne, lookup_empty in Hsi.
    + rewrite Hn. cbn. by intros ? ?%elem_of_nil.
    + rewrite Hf. cbn. by intros ??? ?%elem_of_nil.
    + rewrite Hf. cbn. by intros ? ?%elem_of_nil.
    + intros a' Ha' Hnone. rewrite Ha in Ha'. injection Ha' as <-. congruence.
Qed.

Section Reopen.
Context (o : Options).
Abbreviation cs := (o_codecs o).

(** The tiles the walk leaves, and where it cuts. *)
Lemma walk_splits b base ts size entries sn nx cut :
  chain cs b 0 base ts → blen b = size → chain_end 0 ts <= size → desert b size (chain_end 0 ts) → 0 <= base →
  walk_active (Z.to_nat size) (withDefaults o) b base size 0 [] base 0 = (entries, sn, nx, cut) →
  ∃ ts1 ts2, ts = ts1 ++ ts2 ∧ (∀ t, t ∈ ts2 → good t = false) ∧ sn = chain_next base ts1 ∧ nx <= sn
    ∧ idx_ok base ts1 entries ∧ cut = (if chain_end 0 ts1 <? size then Some (chain_end 0 ts1) else None).
Proof.
  intros Hc Hb Hend Hdes Hb0. subst size.
  rewrite (walk_active_chain cs (length ts) _ _ _ _ _ _ ts) by (done || lia).
  destruct (last_good ts) as [Hno|(pre&g&post&->&Hg&Hpost)].
  - rewrite <-(app_nil_r ts), walked_skip by done. cbn [walked]. intros [= <- <- <- <-].
    exists [], ts. split; [by rewrite app_nil_r|]. split; [done|]. split; [done|]. split; [done|]. split; [|done].
    constructor; [by intros ? ?%elem_of_nil|constructor|by intros ? ?%elem_of_nil].
  - assert (chain cs b 0 base (pre ++ [g])) as Hc1.
    { rewrite cons_middle, app_assoc in Hc. by apply chain_app in Hc as [? _]. }
    destruct (walked_good (withDefaults o) base (blen b) pre g post 0 [] base 0 Hg Hpost) as (nx'&->&Hnx).
    { intros t Ht. apply chain_app in Hc1 as [Hp (_&?&[]&_)]. apply (chain_elem _ _ _ _ _ _ Hp) in Ht as (_&_&_&_&?). unfold t_next in *. lia. }
    intros [= <- <- <- <-]. exists (pre ++ [g]), post. rewrite cons_middle, app_assoc. split; [done|]. split; [done|].
    rewrite chain_next_app, chain_end_app. cbn [chain_next chain_end]. split; [done|].
    assert (0 <= t_next g) as H0. { apply chain_app in Hc1 as [_ (_&_&[]&_)]. unfold t_next in *. lia. }
    split; [lia|]. split; [|done]. apply (idx_ok_sparse (withDefaults o)). eapply idx_ok_filter; [exact Hc1|done].
Qed.

Lemma walkActive_spec io sealed s f ts f1 s1 x next :
  chain cs (bytes f) 0 (sg_base s) ts → chain_end 0 ts <= flen f → desert (bytes f) (flen f) (chain_end 0 ts) →
  sg_size s = flen f → sg_next s = sg_base s → 0 <= sg_base s →
  walkActiveSegment (withDefaults o) io sealed s f = Some (f1, s1, x, next) →
  ∃ ts1, (∀ t, t ∈ ts → good t = true → t ∈ ts1) ∧ (∀ t, t ∈ ts1 → t ∈ ts)
    ∧ chain cs (bytes f1) 0 (sg_base s) ts1 ∧ chain_end 0 ts1 = sg_size s1 ∧ sg_base s1 = sg_base s
    ∧ sg_next s1 = chain_next (sg_base s) ts1 ∧ next = sg_next s1
    ∧ (∀ t, t ∈ ts1 → cells is_kept f (t_pos t) (t_end t) → cells is_kept f1 (t_pos t) (t_end t))
    ∧ ∀ segs' T, last segs' = Some s1 → tiles T (sg_base s) = ts1 → lookup_ok segs' T x.
Proof.
  intros Hc Hend Hdes Hsz Hn Hb. unfold walkActiveSegment. rewrite Hsz, Hn.
  destruct (walk_active _ _ _ _ _ _ _ _ _) as [[[entries sn] nx] cut] eqn:Ew.
  destruct (walk_splits (bytes f) (sg_base s) ts (flen f) _ _ _ _ Hc (blen_bytes f) Hend Hdes Hb Ew) as (ts1&ts2&->&Hts2&->&Hnx&Hidx&->).
  rewrite Z.max_r by done. apply chain_app in Hc as [Hc1 Hc2]. rewrite chain_end_app in *.
  pose proof (chain_end_ge _ _ _ _ _ Hc1) as H0. pose proof (chain_end_ge _ _ _ _ _ Hc2).
  assert (∀ t, t ∈ ts1 ++ ts2 → good t = true → t ∈ ts1) as Hg.
  { intros t [?|Ht]%elem_of_app Hg; [done|]. by rewrite Hts2 in Hg. }
  intros Hw. exists ts1. split; [done|]. split; [set_solver|].
  destruct (chain_end 0 ts1 <? flen f) eqn:Ecut; [destruct io; cbn [truncate_file] in Hw; try done|]; injection Hw as <- <- <- <-; cbn [sg_base sg_next sg_size].
  - rewrite f_sync_restatus. split; [rewrite bytes_restatus; by apply chain_truncate|]. do 4 (split; [done|]). split.
    + intros t Ht Hk. apply (chain_elem _ _ _ _ _ _ Hc1) in Ht as (_&?&?&_). eapply cells_cut; [|done|done|exact Hk]. by intros ? ->.
    + intros segs' T Hl HT. eapply (fresh_index _ _ _ _ _ _ Hl). cbn [sg_base]. by rewrite HT.
  - split; [done|]. split; [lia|]. do 3 (split; [done|]). split; [done|].
    intros segs' T Hl HT. eapply (fresh_index _ _ _ _ _ _ Hl). cbn [sg_base]. by rewrite HT.
Qed.

Lemma load_spec next sync h f v f2 :
  loadHighWatermark next sync h f = Some (v, f2) → 0 <= next →
  v_durable v = next ∧ v_file v = h ∧ v_released v = false ∧ 0 <= v_hwm v <= next ∧ (∃ st, f2 = restatus st f ∧ st Kept = Kept)
  ∧ (v_hwm v = next ∨ ∃ q, ReadPersistedHighWatermark (hf_cur h) = Some (Some q) ∧ v_hwm v = Z.min q next).
Proof.
  intros Hl Hn. unfold loadHighWatermark in Hl. rewrite Z.max_l in Hl by done.
  assert (f = restatus id f) as Hid by (unfold restatus; rewrite (list_fmap_ext _ id), list_fmap_id by (by intros ? []); done).
  destruct (ReadPersistedHighWatermark (hf_cur h)) as [[q|]|] eqn:Er; [| |done].
  - injection Hl as <- <-. cbn. assert (0 <= q) as Hq.
    { unfold ReadPersistedHighWatermark in Er. repeat case_match; simplify_eq. lia. }
    do 3 (split; [done|]). split; [lia|]. split; [by exists id|]. right. by exists q.
  - destruct ((0 <? next) && negb sync); [done|]. injection Hl as <- <-. cbn. do 3 (split; [done|]). split; [lia|]. split; [|by left].
    case_match; [|by exists id]. eexists. rewrite f_sync_restatus. done.
Qed.

(** The segments of an opened log. *)
Lemma reopened_segs mtimes files s1 :
  StronglySorted lower files → (∀ x, x ∈ files → 0 <= x.1 <= max_int64) →
  (∃ f, last files = Some (sg_base s1, f)) → sg_base s1 <= sg_next s1 <= max_int64 →
  segs_ok (sealed_segments mtimes files ++ [s1]).
Proof.
  intros Hs Hr [f Hl] Hn. destruct (sealed_spec mtimes files Hs) as (I1&I2&I3&_). constructor.
  - apply StronglySorted_app. split; [|split; [done|repeat constructor]]. intros s x Hin ->%list_elem_of_singleton.
    specialize (I3 s _ Hin Hl). destruct (I1 s Hin) as (_&_&_&_&_&?). cbn in I3. unfold seg_before. lia.
  - intros s [Hin|Hin%list_elem_of_singleton]%elem_of_app.
    + destruct (I1 s Hin) as (g&g'&Hb&Hx&_&?). pose proof (Hr _ Hb). pose proof (Hr _ Hx). cbn in *. lia.
    + subst s. apply last_Some_elem_of, Hr in Hl. cbn in Hl. lia.
Qed.

(** An acknowledged record of the stopped log, in the file it is read back
    from. *)
Lemma secured_survives l p g A C e T fs removed h off r :
  inv o l p g A C e T → image cs l fs removed h → C !! off = Some r →
  ∃ base f t recs, fs !! base = Some f ∧ t_kind t = Good recs ∧ holds t off ∧ recs !! Z.to_nat (off - t_base t) = Some r
    ∧ cells is_kept f (t_pos t) (t_end t) ∧ ∀ ts, settled cs l fs base f ts → t ∈ ts.
Proof.
  intros H Him HC. destruct (iv_committed _ _ _ _ _ _ _ _ H off r HC) as [_ (s&t&recs&Hs&Ht&Hk&Hho&Hr&Hce)].
  destruct (im_there _ _ _ _ _ Him s Hs) as [f Hf]. exists (sg_base s), f, t, recs. do 4 (split; [done|]). split.
  - intros i Hi. destruct (Hce i Hi) as (v&st&Hv&->). exists v, Kept. split; [|done]. by eapply (im_bytes _ _ _ _ _ Him s).
  - intros ts Hset. eapply (st_kept _ _ _ _ _ _ Hset s); [done|done| |exact Ht| |done].
    + by apply (do_seg _ _ _ (inv_disk _ _ _ _ _ _ _ _ H)).
    + unfold good. by rewrite Hk.
Qed.

Lemma chain_next_max b p n ts : chain cs b p n ts → n <= max_int64 → chain_next n ts <= max_int64.
Proof.
  revert p n. induction ts as [|t ts IH]; intros p n; [done|]. intros (_&_&Ht&Hc) _. cbn. apply (IH _ _ Hc), Ht.
Qed.

(** A log over recovered segments. *)
Lemma inv_recovered fs removed sealed s1 f2 T0 ts1 x v C now :
  let d := MkDisk (<[sg_base s1 := f2]> fs) removed (sealed ++ [s1]) in
  let T := <[sg_base s1 := ts1]> T0 in
  let W := sg_next s1 in
  segs_ok (sealed ++ [s1]) →
  (∀ s, s ∈ sealed → ∃ f, fs !! sg_base s = Some f ∧ seg_ok cs (bytes f) (tiles T0 (sg_base s)) s) →
  chain cs (bytes f2) 0 (sg_base s1) ts1 → chain_end 0 ts1 = sg_size s1 → chain_next (sg_base s1) ts1 <= W →
  lookup_ok (sealed ++ [s1]) T x → (∀ k, is_Some (fs !! k) → k <= sg_base s1) →
  (∀ k, is_Some (T0 !! k) → ∃ s, s ∈ sealed ++ [s1] ∧ sg_base s = k) →
  (∀ off r, C !! off = Some r → off < v_hwm v ∧ secured d T off r) →
  v_hwm v <= W → v_durable v <= W → hwm_ok v W C false →
  inv o (opened (withDefaults o) d x v W (sg_size s1) now) Idle W ∅ C false T.
Proof.
  intros d T W Hso Hsealed Hc He Hn Hlk Hnames Hdom HC Hh Hd Hho. pose proof (sk_range _ Hso s1 ltac:(set_solver)) as Hr.
  assert (∀ s, s ∈ sealed → seg_before s s1) as Hbefore.
  { intros s Hs. destruct Hso as [Hs0 _]. apply StronglySorted_app in Hs0 as (Hb&_&_). apply Hb; [done|set_solver]. }
  assert (active (opened (withDefaults o) d x v W (sg_size s1) now) = Some s1) as Ha by apply last_snoc.
  constructor; cbn [lo ld lx lb lf lv lw opened dk_segments dk_files]; try done.
  - unfold segments. cbn [ld opened dk_segments d]. rewrite removelast_last. intros s Hs.
    destruct (Hsealed s Hs) as (f&Hf&Hseg). destruct (Hbefore s Hs) as [Hb1 Hb2]. assert (sg_base s ≠ sg_base s1) as Hne by lia.
    constructor.
    + unfold contents, file_at, T. cbn. rewrite tiles_insert, lookup_insert_ne, Hf, decide_False by done. done.
    + cbn. rewrite lookup_insert_ne by done. by eexists.
    + intros t. unfold T. rewrite tiles_insert, decide_False by done. intros Ht. left. destruct Hseg as [Hsc Hsn _ _ _].
      apply (chain_elem _ _ _ _ _ _ Hsc) in Ht as (_&_&_&_&?). unfold W. lia.
  - exists s1. split; [done|]. unfold T. rewrite tiles_insert, decide_True by done.
    split; [|split; [done|]; split; [|done]; constructor; cbn; unfold W; try done; lia].
    constructor.
    + unfold contents, file_at. cbn. rewrite lookup_insert_eq, tiles_insert, decide_True by done. by apply seg_ok_active.
    + cbn. by rewrite lookup_insert_eq.
    + intros t. rewrite tiles_insert, decide_True by done. intros Ht. left. apply (chain_elem _ _ _ _ _ _ Hc) in Ht as (_&_&_&_&?). lia.
  - intros y k Hy. rewrite Ha in Hy. injection Hy as <-. cbn. destruct (decide (k = sg_base s1)) as [->|Hne]; [done|].
    rewrite lookup_insert_ne by done. apply Hnames.
  - intros k [ts Hk]. destruct (decide (k = sg_base s1)) as [->|Hne]; [exists s1; split; [unfold segments; cbn; set_solver|done]|].
    unfold T in Hk. rewrite lookup_insert_ne in Hk by done. apply Hdom. by eexists.
Qed.

Lemma inv_reopen l p g A C e T fs removed h mtimes io now l' :
  inv o l p g A C e T → image cs l fs removed h → NewLog o fs removed h mtimes io now = Some l' →
  ∃ T', inv o l' Idle (b_next (lb l')) ∅ C false T'.
Proof.
  intros H Him. destruct (listSegmentFiles_spec fs) as [Hsorted Hfiles]. set (files := listSegmentFiles fs) in *.
  unfold NewLog. fold files. destruct (last files) as [[base f]|] eqn:El; cycle 1.
  { exfalso. pose proof (iv_active _ _ _ _ _ _ _ _ H) as (a&Ha&_).
    destruct (im_there _ _ _ _ _ Him a (last_Some_elem_of _ _ Ha)) as [fa Hfa]. apply last_None in El.
    assert ((sg_base a, fa) ∈ files) as Hin by by apply Hfiles. rewrite El in Hin. by apply elem_of_nil in Hin. }
  pose proof (last_Some_elem_of _ _ El) as Hlast. apply Hfiles in Hlast. cbn in Hlast.
  pose proof (im_names _ _ _ _ _ Him base ltac:(by eexists)) as Hbase.
  destruct (choose_tiles (settled cs l fs) fs (im_settled _ _ _ _ _ Him)) as (T0&HT0&HT0dom).
  pose proof (HT0 base f Hlast) as [Sc Sw St Sl Sk].
  destruct (walkActiveSegment _ _ _ _ _) as [[[[f1 s1] x] next]|] eqn:Ew; [|done]. cbn [mbind option_bind].
  destruct (walkActive_spec _ _ (openSegment base f (default 0 (mtimes !! base))) f (tiles T0 base) f1 s1 x next Sc Sw St eq_refl eq_refl ltac:(cbn; lia) Ew)
    as (ts1&Hgood&Hsub&Hc1&He1&Hb1&Hn1&->&Hk1&Hlk). cbn [sg_base openSegment] in *. subst base.
  pose proof (chain_next_ge _ _ _ _ _ Hc1) as Hge. pose proof (chain_next_max _ _ _ _ Hc1 ltac:(lia)) as Hmax. rewrite <-Hn1 in Hge, Hmax.
  destruct (loadHighWatermark _ _ _ _) as [[v f2]|] eqn:Eload; [|done]. cbn [mbind option_bind]. intros [= <-].
  destruct (load_spec _ _ _ _ _ _ Eload ltac:(lia)) as (V1&V2&V3&V4&(st&->&Hst)&V5).
  destruct (sealed_spec mtimes files Hsorted) as (I1&I2&I3&I4). set (sealed := sealed_segments mtimes files) in *.
  assert (segs_ok (sealed ++ [s1])) as Hso.
  { apply reopened_segs; [done| |by exists f|lia]. intros y Hy. apply (im_names _ _ _ _ _ Him). apply Hfiles in Hy. by eexists. }
  exists (<[sg_base s1 := ts1]> T0). cbn [b_next lb opened newBuffer].
  apply inv_recovered; try done; try lia; rewrite ?bytes_restatus; try done.
  - intros s Hs. destruct (I1 s Hs) as (g0&g1&Hg0&Hg1&Hsz&Hlt). apply Hfiles in Hg0. apply Hfiles in Hg1. cbn in Hg0, Hg1.
    exists g0. split; [done|]. destruct (HT0 _ _ Hg0) as [Tc Tw Tt Tl _]. constructor; [done| |lia| |by rewrite Hsz].
    + apply Tl; [by eexists|done].
    + right. by rewrite Hsz, blen_bytes.
  - apply Hlk; [apply last_snoc|]. by rewrite tiles_insert, decide_True.
  - intros k [fk Hfk]. destruct (I4 (k, fk) _ ltac:(by apply Hfiles) El) as [[= -> _]|(s&Hs&Hsb)]; [lia|]. cbn in Hsb. subst k.
    destruct Hso as [Hss _]. apply StronglySorted_app in Hss as (Hsb&_&_). destruct (Hsb s s1 Hs ltac:(set_solver)). lia.
  - intros k Hk. destruct (HT0dom k Hk) as [fk Hfk]. destruct (I4 (k, fk) _ ltac:(by apply Hfiles) El) as [[= -> _]|(s&Hs&Hsb)].
    + exists s1. set_solver.
    + exists s. set_solver.
  - intros off r HC. destruct (secured_survives _ _ _ _ _ _ _ _ _ _ _ _ H Him HC) as (b0&f0&t&recs&Hf0&Hk&Hho&Hr&Hce&Hin).
    pose proof (HT0 b0 f0 Hf0) as Hset. specialize (Hin _ Hset). unfold holds in Hho.
    assert (off < sg_next s1 ∧ secured (MkDisk (<[sg_base s1 := restatus st f1]> fs) removed (sealed ++ [s1])) (<[sg_base s1 := ts1]> T0) off r)
      as [HoW Hsec].
    { destruct (I4 (b0, f0) _ ltac:(by apply Hfiles) El) as [[= -> ->]|(s&Hs&Hsb)].
      - assert (t ∈ ts1) as Ht1 by (apply Hgood; [done|unfold good; by rewrite Hk]).
        split; [apply (chain_elem _ _ _ _ _ _ Hc1) in Ht1 as (_&_&_&_&?); lia|].
        exists s1, t, recs. unfold file_at. cbn. rewrite lookup_insert_eq, tiles_insert, decide_True by done. split; [set_solver|].
        do 4 (split; [done|]). eapply cells_restatus; [|by apply Hk1]. by intros ? ->.
      - cbn in Hsb. subst b0. destruct Hso as [Hss _]. apply StronglySorted_app in Hss as (Hsb&_&_).
        destruct (Hsb s s1 Hs ltac:(set_solver)) as [Hb1 Hb2]. assert (sg_base s ≠ sg_base s1) as Hne by lia.
        destruct Hset as [Tc _ _ Tl _]. apply (chain_elem _ _ _ _ _ _ Tc) in Hin as Hn0. destruct Hn0 as (_&_&_&_&?).
        specialize (Tl (sg_base s1) ltac:(by eexists) Hb1). split; [lia|].
        exists s, t, recs. unfold file_at. cbn. rewrite lookup_insert_ne, Hf0, tiles_insert, decide_False by done. split; [set_solver|done]. }
    split; [|done]. destruct V5 as [->|(q&Hq&->)]; [done|]. apply Z.min_glb_lt; [|done].
    eapply (ho_files _ _ _ _ (iv_hwm _ _ _ _ _ _ _ _ H)); [|exact Hq|by eexists]. apply (im_hwm _ _ _ _ _ Him). set_solver.
  - constructor; rewrite ?V2, ?V3; try done; try lia; cycle 1.
    { intros c Hc. apply (ho_valid _ _ _ _ (iv_hwm _ _ _ _ _ _ _ _ H)). by apply (im_hwm _ _ _ _ _ Him). }
    intros c q off Hc Hq HC. eapply (ho_files _ _ _ _ (iv_hwm _ _ _ _ _ _ _ _ H)); [|exact Hq|done]. by apply (im_hwm _ _ _ _ _ Him).
Qed.

(** ** Every reachable state *)

Lemma inv_new mtimes io now l' :
  NewLog o ∅ ∅ (MkHwmFile None []) mtimes io now = Some l' → ∃ T, inv o l' Idle (b_next (lb l')) ∅ ∅ false T.
Proof.
  unfold NewLog. destruct (listSegmentFiles_spec ∅) as [_ Hin]. destruct (last (listSegmentFiles ∅)) as [[b f]|] eqn:El.
  { apply last_Some_elem_of, Hin in El. cbn in El. by rewrite lookup_empty in El. }
  unfold createSegment. cbn [dk_files]. rewrite lookup_empty. destruct (oi_create io) as [| |[]]; try done. cbn. intros [= <-].
  exists (<[0 := []]> ∅). cbn.
  apply (inv_recovered ∅ ∅ [] (MkSegment 0 0 0 None (Some now)) [] ∅ [] emptyLookup _ ∅ now); cbn; try done.
  - constructor; [repeat constructor|]. intros s ->%list_elem_of_singleton. cbn. unfold max_int64, two63. lia.
  - by intros s ?%elem_of_nil.
  - constructor; cbn; try (by intros ? ?%elem_of_nil); try (by intros ??? ?%elem_of_nil).
    + intros base si. by rewrite lookup_empty.
    + intros a Ha _ t. injection Ha as <-. rewrite tiles_insert, decide_True by done. by intros ?%elem_of_nil.
  - intros k [? Hk]. by rewrite lookup_empty in Hk.
  - intros k [? Hk]. by rewrite lookup_empty in Hk.
  - constructor; cbn; try done; [intros c q off _ _ [? Hc]; by rewrite lookup_empty in Hc|]. by intros c ->%list_elem_of_singleton.
Qed.

Lemma reached_waits n : reached o n → waits_ok n.
Proof.
  induction 1 as [io now l HN|n op Hn IH Hop|n fs removed h mtimes io now l Hn IH Him HN]; [|by apply waits_ok_exec|]; by intros r ?%elem_of_nil.
Qed.

Lemma reached_node_inv n : codec_ok (own cs) → DisableCommitVerify o = false → reached o n → node_inv o n.
Proof.
  intros Hcodec Hver. induction 1 as [io now l HN|n op Hn IH Hop|n fs removed h mtimes io now l Hn IH Him HN].
  - destruct (inv_new _ _ _ _ HN) as [T H]. by exists T.
  - apply node_inv_exec; [done|done|exact IH|by eapply reached_waits|done].
  - destruct IH as (T&H&_). destruct (inv_reopen _ _ _ _ _ _ _ _ _ _ _ _ _ _ H Him HN) as [T' H']. by exists T'.
Qed.

End Reopen.
