(* ===== verification/PartClaims.v ===== *)
(** * What a partition log promises

    Acknowledged records survive whatever happens to the log, its process
    and its machine; what is appended can be read at once; commits on a
    working disk succeed; a log opens after every stop. *)

From S2P Require Import Prelude Octets PartFrame PartCache PartLog PartFlush PartBytes PartWalk PartLookup PartRun PartInv PartSteps PartOps PartReopen.

#[local] Arguments Z.mul : simpl never.
#[local] Arguments Z.add : simpl never.
#[local] Arguments Z.sub : simpl never.
#[local] Arguments Z.pow : simpl never.
#[local] Arguments Z.of_nat : simpl never.
#[local] Arguments Z.to_nat : simpl never.

(** ** Reading *)

Lemma secured_stored d T off r : secured d T off r → stored d T off r.
Proof. intros (s&t&recs&?&?&?&?&?&_). by exists s, t, recs. Qed.

(** What memory answers for a stored offset is what is stored. *)
Lemma stored_appended o l p g A C e T off r :
  inv o l p g A C e T → stored (ld l) T off r → g <= off → A !! off = Some r.
Proof.
  intros H (s&t&recs&Hs&Ht&Hk&Hho&Hr) Hg. pose proof (iv_active _ _ _ _ _ _ _ _ H) as (a&Ha&[_ _ S3]&_).
  assert (∃ fr sy, tile_inv (file_at (ld l) (sg_base s)) g A (v_hwm (lv l)) fr sy t) as (fr&sy&Hti).
  { apply (segments_cases l a s Ha) in Hs as [Hs| ->]; [|eauto]. destruct (iv_sealed _ _ _ _ _ _ _ _ H s Hs) as [_ _ Q3]. eauto. }
  unfold holds in Hho. destruct Hti as [?|[Hgt Hti]]; [lia|]. destruct (Hti recs Hk) as (R1&_). apply R1 in Hr.
  by rewrite Z2Nat.id, Zplus_minus in Hr by lia.
Qed.

Lemma read_snapshot f A g off r :
  (fl_valid f = true → g <= fl_base f ∧ records_at A (fl_base f) (fl_records f)) → readFlushingShared f off = Some r →
  g <= off ∧ A !! off = Some r.
Proof.
  intros Hf. unfold readFlushingShared. destruct (fl_valid f) eqn:Ev; [|done]. cbn [negb orb].
  destruct (off <? fl_base f) eqn:E; [done|]. destruct (Hf eq_refl) as [Hg Hr]. intros Hl. split; [lia|].
  apply Hr in Hl. by rewrite Z2Nat.id, Zplus_minus in Hl by lia.
Qed.

Lemma read_memory o l p g A C e T off r a :
  inv o l p g A C e T → active l = Some a →
  match readBuffered (lb l) off with Some r => Some r | None => readFlushingShared (lf l) off end = Some r →
  g <= off ∧ A !! off = Some r.
Proof.
  intros H Ha. destruct (iv_buffer _ _ _ _ _ _ _ _ H) as [Hg Hr]. pose proof (iv_flushing _ _ _ _ _ _ _ _ H) as Hf.
  unfold readBuffered. destruct ((off <? b_base (lb l)) || _) eqn:E1; [by apply read_snapshot|].
  apply orb_false_iff in E1 as [E1 _]. destruct (b_records (lb l) !! Z.to_nat (off - b_base (lb l))) eqn:El; [|by apply read_snapshot].
  intros [= ->]. split; [lia|]. apply Hr in El. by rewrite Z2Nat.id, Zplus_minus in El by lia.
Qed.

(** A stored record is what [ReadShared] returns, from memory, a cache or
    the file. *)
Lemma read_of_stored o l p g A C e T off r :
  inv o l p g A C e T → lclosed l = false → stored (ld l) T off r → (ReadShared off l).2 = Ok r.
Proof.
  intros H Hcl Hst. pose proof (iv_active _ _ _ _ _ _ _ _ H) as (a&Ha&_). unfold ReadShared. rewrite Hcl.
  set (l1 := with_lookup (with_readSeen true (lx l)) l). destruct (if v_durable (lv l1) <=? off then _ else _) as [r'|] eqn:Em.
  - cbn. destruct (v_durable (lv l1) <=? off); [|done]. destruct (read_memory _ _ _ _ _ _ _ _ _ _ _ H Ha Em) as [Hg HA].
    rewrite (stored_appended _ _ _ _ _ _ _ _ _ _ H Hst Hg) in HA. congruence.
  - destruct (readSegmentShared _ _ _ _) as [x res] eqn:Er. cbn. cbn in Er. rewrite (iv_opts _ _ _ _ _ _ _ _ H) in Er.
    destruct (read_stored (withDefaults o) _ T off r _ _ _ (inv_disk _ _ _ _ _ _ _ _ H) (lookup_ok_seen _ _ _ true (iv_lookup _ _ _ _ _ _ _ _ H)) Er) as [_ Hres].
    auto.
Qed.

(** C3. In a partition log that verifies its commits, with a codec that
    decodes what it encodes, a record that a [CommitDurable] acknowledged and
    retention has not deleted stays below the high-watermark and [ReadShared]
    returns it while the log is open.  It does so after any sequence of
    appends, reads, flushes, commits that succeed or fail, retention, closing
    and stops of the process or the machine followed by opens, with writes,
    syncs, truncates, creates and removes failing.  Three things are assumed
    of it ([op_ok], [settled]): callers commit records appended since the
    open; a roll that fails removes the file it created, and the 8 bytes of
    the high-watermark file are written whole or not at all; what a stop
    leaves of a segment still reads as frames, damaged frames and stretches
    without headers, and in the torn tail behind them no header announces a
    frame that ends inside the file. *)
Theorem committed_records_survive o n off r :
  codec_ok (own (o_codecs o)) → DisableCommitVerify o = false → reached o n → n_committed n !! off = Some r →
  off < v_hwm (lv (n_log n)) ∧ (lclosed (n_log n) = false → (ReadShared off (n_log n)).2 = Ok r).
Proof.
  intros Hc Hv Hn HC. destruct (reached_node_inv o n Hc Hv Hn) as (T&H&_).
  destruct (iv_committed _ _ _ _ _ _ _ _ H off r HC) as [Ho Hs]. split; [done|].
  intros Hcl. eapply read_of_stored; [exact H|done|]. by apply secured_stored.
Qed.

(** C18. A record is readable from the moment [AppendBatch] returns: in an
    open log that verifies its commits, with a codec that decodes what it
    encodes, every offset from the end of the active segment to the next one
    to be assigned was appended, and [ReadShared] answers with what was
    appended there. *)
Theorem appended_records_readable o n a off :
  codec_ok (own (o_codecs o)) → DisableCommitVerify o = false → reached o n → lclosed (n_log n) = false →
  active (n_log n) = Some a → sg_next a <= off < b_next (lb (n_log n)) →
  ∃ r, n_appended n !! off = Some r ∧ (ReadShared off (n_log n)).2 = Ok r.
Proof.
  intros Hc Hv Hn Hcl Ha Hoff. destruct (reached_node_inv o n Hc Hv Hn) as (T&H&_).
  pose proof (iv_active _ _ _ _ _ _ _ _ H) as (a0&Ha0&_&_&[M1 M2 M3 M4]&_&Hdn&_). rewrite Ha in Ha0. injection Ha0 as <-.
  set (l := n_log n) in *.
  assert (∃ r, match readBuffered (lb l) off with Some r => Some r | None => readFlushingShared (lf l) off end = Some r) as [r Hr].
  { unfold readBuffered, readFlushingShared. destruct (decide (off < b_base (lb l))) as [Hlt|Hge].
    - rewrite (proj2 (Z.ltb_lt _ _)) by done. cbn [orb]. destruct (fl_valid (lf l)) eqn:Ev; [|specialize (M4 eq_refl); lia].
      destruct (M3 eq_refl) as (V1&V2&V3&V4). cbn [negb orb]. rewrite (proj2 (Z.ltb_ge _ _)) by lia. unfold fl_end in *.
      destruct (lookup_lt_is_Some_2 (fl_records (lf l)) (Z.to_nat (off - fl_base (lf l)))) as [r ->]; [lia|by exists r].
    - rewrite (proj2 (Z.ltb_ge _ _)), (proj2 (Z.leb_gt _ _)) by lia. cbn [orb].
      destruct (lookup_lt_is_Some_2 (b_records (lb l)) (Z.to_nat (off - b_base (lb l)))) as [r ->]; [lia|by exists r]. }
  exists r. destruct (read_memory _ _ _ _ _ _ _ _ _ _ _ H Ha Hr) as [_ HA]. split; [done|].
  unfold ReadShared. rewrite Hcl. cbn [lv lb lf with_lookup]. rewrite (proj2 (Z.leb_le _ _)) by lia. by rewrite Hr.
Qed.

(** [Append] is [AppendBatch] of one record. *)
Lemma append_one r now l :
  (Append r now l).1 = (AppendBatch [r] now l).1
  ∧ match (Append r now l).2, (AppendBatch [r] now l).2 with
    | Ok (off, crossed, wasEmpty), Ok (first, _, crossed', wasEmpty') => off = first ∧ crossed = crossed' ∧ wasEmpty = wasEmpty'
    | Err e, Err e' => e = e'
    | _, _ => False
    end.
Proof.
  unfold Append, AppendBatch. destruct (lclosed l); [done|]. destruct (w_poisoned (lw l)); [done|].
  unfold push, pushBatch, records_bytes. cbn [foldr length]. change (Z.of_nat 1) with 1. rewrite Z.add_0_r. done.
Qed.

(** ** Commits on a working disk *)

Definition record_fits (r : octets) : Prop := 4 + blen r <= maxFrameInnerBytes.

(** A codec does not double a frame: zstd's worst case adds a fraction of a
    percent. *)
Definition codec_fits (c : Codec) : Prop :=
  Flag c = FlagNone ∨ ∀ s, blen s <= maxFrameInnerBytes → blen (Encode c s) <= maxFrameBytes.

Lemma inner_size_cons r rs : inner_size (r :: rs) = 4 + blen r + inner_size rs.
Proof. done. Qed.

Lemma split_len_bound size i rs :
  size <= maxFrameInnerBytes → (i = 0%nat → size = 0) → Forall record_fits rs →
  size + inner_size (take (split_len size i rs - i) rs) <= maxFrameInnerBytes.
Proof.
  revert size i. induction rs as [|r rs IH]; intros size i Hs Hi Hf; [rewrite take_nil; cbn; lia|].
  apply Forall_cons in Hf as [Hr Hf]. unfold record_fits in Hr. cbn [split_len].
  destruct ((maxFrameInnerBytes <? size + 4 + blen r) && bool_decide (0 < i)%nat) eqn:E.
  { rewrite Nat.sub_diag. cbn. lia. }
  assert (size + 4 + blen r <= maxFrameInnerBytes) as Hle.
  { apply andb_false_iff in E as [E|E%bool_decide_eq_false]; [lia|]. rewrite (Hi ltac:(lia)). lia. }
  specialize (IH (size + 4 + blen r) (S i) Hle ltac:(lia) Hf). destruct (split_len_spec (size + 4 + blen r) (S i) rs) as [Hge _].
  replace (split_len (size + 4 + blen r) (S i) rs - i)%nat with (S (split_len (size + 4 + blen r) (S i) rs - S i)) by lia.
  cbn [take]. rewrite inner_size_cons. lia.
Qed.

Lemma encode_fits c rs base :
  codec_fits c → Forall record_fits rs → rs ≠ [] → is_ok (encodeFrame c (take (frameSplitLen rs) rs) base) = true.
Proof.
  intros Hc Hf Hne. pose proof (split_len_bound 0 0 rs ltac:(done) ltac:(done) Hf) as Hb. rewrite Nat.sub_0_r in Hb.
  fold (frameSplitLen rs) in Hb. destruct (split_len_spec 0 0 rs) as [_ Hpos]. specialize (Hpos eq_refl Hne). fold (frameSplitLen rs) in Hpos.
  set (recs := take (frameSplitLen rs) rs) in *. unfold encodeFrame. destruct recs as [|r0 recs0] eqn:Er.
  { apply (f_equal length) in Er. unfold recs in Er. rewrite length_take in Er.
    assert (length rs ≠ 0%nat) by (by intros ?%nil_length_inv). cbn [length] in Er. lia. }
  rewrite <-Er in *. cbv zeta. rewrite Z.add_0_l in Hb.
  assert (maxFrameInnerBytes <= maxFrameBytes) as Hm by done.
  destruct ((maxFrameBytes <? inner_size recs) || _) eqn:E; [|done]. exfalso. apply orb_true_iff in E as [E|E]; [lia|].
  pose proof (blen_encodeRecords recs) as Hl. case_decide as Hfl; [lia|].
  destruct Hc as [?|Hc]; [done|]. specialize (Hc (encodeRecordsPayload recs)). lia.
Qed.

Section Commit.
Context (o : Options) (now : Z).
Hypothesis Hcodec : codec_ok (own (o_codecs o)).
Hypothesis Hfits : codec_fits (own (o_codecs o)).
Hypothesis Hverify : DisableCommitVerify o = false.

Abbreviation tick := (exec (OpFlusher io_ok now)).

(** The pass writes everything it took. *)
Lemma write_rounds m r first l todo cache g A C ws T a :
  (length todo <= m)%nat → inv o l (Writing r todo (sg_next a) cache) g A C false T → active l = Some a →
  can_write l a → Forall record_fits todo → (∀ off, first <= off < sg_next a → kept_good (ld l) T off) →
  ∃ k l' T' a', Nat.iter k tick (Node l (Writing r todo (sg_next a) cache) g A C false ws) = Node l' (Finishing r) g A C false ws
    ∧ inv o l' (Finishing r) g A C false T' ∧ active l' = Some a' ∧ sg_next a' = sg_next a + Z.of_nat (length todo)
    ∧ ∀ off, first <= off < sg_next a' → kept_good (ld l') T' off.
Proof.
  revert l todo T a. induction m as [|m IH]; intros l todo T a Hm H Ha Hcan Hf Hk.
  all: pose proof (iv_active _ _ _ _ _ _ _ _ H) as (a0&_&_&_&_&_&_&_&Hne&_).
  { destruct todo; [done|cbn in Hm; lia]. }
  destruct (split_len_spec 0 0 todo) as [Hk1 Hk2]. fold (frameSplitLen todo) in Hk1, Hk2. specialize (Hk2 eq_refl Hne).
  destruct (write_round io_ok now r todo (sg_next a) cache l) as [l1 p1] eqn:Ew.
  destruct (inv_write_round o Hcodec io_ok _ _ _ _ _ _ _ _ _ _ _ _ _ _ H Ha ltac:(done) Ew) as (T1&a1&H1&Ha1&Hr).
  destruct (Hr eq_refl (encode_fits _ _ _ Hfits Hf Hne) Hcan) as (Hp&Hn&Hlt&Hg&Hnew). clear Hr.
  assert (tick (Node l (Writing r todo (sg_next a) cache) g A C false ws) = Node l1 p1 g A C false ws) as Hstep.
  { cbn [exec]. unfold step_flusher. cbn [n_phase n_log flusher_step]. by rewrite Ew. }
  assert (∀ off, first <= off < sg_next a1 → kept_good (ld l1) T1 off) as Hk'.
  { intros off Ho. destruct (decide (off < sg_next a)); [apply Hg, Hk; lia|apply Hnew; lia]. }
  pose proof (length_drop todo (frameSplitLen todo)) as Hl. destruct (drop (frameSplitLen todo) todo) as [|r0 rest] eqn:Ed.
  - subst p1. exists 1%nat, l1, T1, a1. split; [exact Hstep|]. do 2 (split; [done|]). split; [cbn in Hl; lia|done].
  - rewrite <-Ed in *. subst p1. assert (Forall record_fits (drop (frameSplitLen todo) todo)) as Hf' by (by apply Forall_drop).
    destruct (IH l1 (drop (frameSplitLen todo) todo) T1 a1) as (k&l'&T'&a'&Hi&H'&Ha'&Hn'&Hk''); [lia| |done|by left|done|done|].
    { by rewrite Ed in H1 |- *. }
    exists (S k), l', T', a'. rewrite Nat.iter_succ_r, Hstep. split; [by rewrite Ed in Hi |- *|]. do 2 (split; [done|]). split; [lia|done].
Qed.

(** The reply of a commit whose records all verify. *)
Lemma commit_finishes first last l g A C ws T :
  inv o l (Finishing (ReqCommit first last)) g A C false T → g <= first <= last →
  (∀ off, first <= off <= last → kept_good (ld l) T off) →
  ∃ l', tick (Node l (Finishing (ReqCommit first last)) g A C false ws) = Node l' Idle g A (acknowledge first last A C) false ws.
Proof.
  intros H Hfl Hk. cbn [exec]. unfold step_flusher. cbn [n_phase n_log flusher_step].
  unfold finishRequest. rewrite (iv_opts _ _ _ _ _ _ _ _ H). cbn [DisableCommitVerify withDefaults]. rewrite Hverify.
  rewrite (proj2 (Z.ltb_ge last first)) by lia. cbn [orb]. unfold VerifyDurable.
  destruct (verify_range _ _ _ _ _ _) as [x ver] eqn:Ev. rewrite (iv_opts _ _ _ _ _ _ _ _ H) in Ev.
  destruct (verify_range_sound (withDefaults o) _ _ T _ _ _ _ _ (inv_disk _ _ _ _ _ _ _ _ H) (iv_lookup _ _ _ _ _ _ _ _ H) Ev) as (_&_&Hok).
  rewrite (Hok Hk ltac:(lia)). cbn [lv with_lookup]. unfold AdvanceHighWatermark, releaseHighWatermarkFile.
  destruct (i64 (last + 1) <=? v_hwm (lv l)); [by eexists|]. destruct (v_released (lv l)); cbn [io_hwm io_ok]; by eexists.
Qed.

(** What a commit takes: everything that is not in the active segment. *)
Lemma begin_takes first last l g A C T a :
  inv o l Idle g A C false T → active l = Some a → w_poisoned (lw l) = false → sg_next a < b_next (lb l) →
  ∃ l1 todo cache, begin_pass (ReqCommit first last) now l = (l1, Writing (ReqCommit first last) todo (sg_next a) cache)
    ∧ ld l1 = ld l ∧ lw l1 = lw l ∧ sg_next a + Z.of_nat (length todo) = b_next (lb l) ∧ records_at A (sg_next a) todo.
Proof.
  intros H Ha Hpo Hlt. pose proof (iv_active _ _ _ _ _ _ _ _ H) as (a0&Ha0&_&_&Hmem&_). rewrite Ha in Ha0. injection Ha0 as <-.
  unfold begin_pass. rewrite Hpo. cbn [forceDrain negb andb]. destruct (drainBufferForFlush l) as [l1 [todo base]] eqn:Ed.
  destruct (drain_spec A g _ _ _ _ _ Hmem (iv_buffer _ _ _ _ _ _ _ _ H) (iv_flushing _ _ _ _ _ _ _ _ H) Ed) as (D1&_&D3&D4&D5&D6).
  assert (b_records (lb l1) = [] ∧ b_next (lb l1) = b_next (lb l)) as [Hb Hn].
  { unfold drainBufferForFlush in Ed. destruct (b_records (lb l)) eqn:Er; [|by injection Ed as <- _].
    destruct (fl_valid (lf l)); by injection Ed as <- _. }
  destruct D1 as [M1 _ M3 M4]. rewrite Hb in M1. cbn in M1. unfold unwritten in D4.
  destruct (fl_valid (lf l1)) eqn:Ev; [|specialize (M4 eq_refl); lia]. destruct (M3 eq_refl) as (V1&V2&V3&V4), (D3 eq_refl) as [_ Hr].
  assert (sg_next a + Z.of_nat (length todo) = b_next (lb l)) as Hlen by (rewrite D4, length_drop; unfold fl_end in *; lia).
  destruct todo as [|r0 rs0] eqn:Et; [cbn in Hlen; lia|]. rewrite <-Et in *. assert (todo ≠ []) as Hne by (by subst).
  assert (records_at A (sg_next a) todo) as Hat.
  { rewrite D4. replace (sg_next a) with (fl_base (lf l1) + Z.of_nat (Z.to_nat (sg_next a - fl_base (lf l1)))) at 1 by lia.
    by apply records_at_drop. }
  rewrite (D5 Hne). destruct (cacheWrittenFrames l1) as [l2 cache] eqn:Ec. exists l2, todo, cache. split; [done|].
  assert (ld l2 = ld l1 ∧ lw l2 = lw l1) as [-> ->] by (unfold cacheWrittenFrames in Ec; case_match; by injection Ec as <- _).
  by rewrite D6.
Qed.

Lemma take_out_last r ws : is_Some (take_out r (ws ++ [r])).
Proof.
  induction ws as [|w ws [ws' IH]]; cbn; [by rewrite decide_True by done|]. case_decide; [by eexists|]. rewrite IH. by eexists.
Qed.

(** C16. On a disk that works a commit succeeds: when the log is neither
    closed nor poisoned, records [first] to [last] have been appended and not
    written yet, the active segment is not an empty one that is due to be
    rolled and the records fit into frames, then [CommitDurable first last],
    submitted and taken up by the idle flusher, ends after finitely many of
    its steps with every record acknowledged. *)
Theorem commit_succeeds n a first last :
  reached o n → n_phase n = Idle → n_ended n = false → lclosed (n_log n) = false → w_poisoned (lw (n_log n)) = false →
  active (n_log n) = Some a → can_write (n_log n) a → sg_next a <= first <= last → last < b_next (lb (n_log n)) →
  (∀ off r, sg_next a <= off < b_next (lb (n_log n)) → n_appended n !! off = Some r → record_fits r) →
  ∃ k n', Nat.iter k tick (exec (OpBegin (ReqCommit first last) now) (exec (OpSubmit (ReqCommit first last)) n)) = n' ∧ n_phase n' = Idle
    ∧ ∀ off, first <= off <= last → ∃ r, n_appended n !! off = Some r ∧ n_committed n' !! off = Some r.
Proof.
  intros Hn Hp He Hcl Hpo Ha Hcan Hfl Hla Hfit. destruct (reached_node_inv o n Hcodec Hverify Hn) as (T&H&_).
  destruct n as [l p g A C e ws0]. cbn in Hp, He, Hcl, Hpo, Ha, Hcan, Hla, Hfit, H. subst p e.
  pose proof (iv_active _ _ _ _ _ _ _ _ H) as (a0&Ha0&_&_&Hmem&_). rewrite Ha in Ha0. injection Ha0 as <-.
  destruct (begin_takes first last _ _ _ _ _ _ H Ha Hpo ltac:(lia)) as (l1&todo&cache&Eb&Hd&Hw&Hlen&Hat).
  pose proof (inv_begin o _ _ _ _ _ _ _ _ _ _ Hverify H Eb) as H1.
  destruct (take_out_last (ReqCommit first last) ws0) as [ws Hws].
  assert (exec (OpBegin (ReqCommit first last) now) (exec (OpSubmit (ReqCommit first last)) (Node l Idle g A C false ws0))
          = Node l1 (Writing (ReqCommit first last) todo (sg_next a) cache) g A C false ws) as Hbegin.
  { cbn [exec submitRequest]. rewrite (proj2 (Z.ltb_ge last first)) by lia. unfold submitCommit. cbn [n_log]. rewrite Hcl.
    cbn [n_log n_phase n_waiting receive queued]. by rewrite Hws, Eb. }
  assert (Forall record_fits todo) as Hf.
  { apply Forall_lookup. intros i r Hi. pose proof (lookup_lt_Some _ _ _ Hi). eapply Hfit; [|by apply Hat]. lia. }
  assert (active l1 = Some a) as Ha1 by (unfold active, segments; by rewrite Hd).
  destruct (write_rounds (length todo) (ReqCommit first last) first l1 todo cache g A C ws T a)
    as (k&l2&T2&a2&Hi&H2&_&Hn2&Hk); [done|done|done|unfold can_write; by rewrite Hw|done|intros; lia|].
  assert (g <= sg_next a) as Hg.
  { destruct Hmem as [_ _ M3 M4], (iv_buffer _ _ _ _ _ _ _ _ H) as [Hb _]. pose proof (iv_flushing _ _ _ _ _ _ _ _ H) as Hfl'.
    destruct (fl_valid (lf l)); [destruct (M3 eq_refl), (Hfl' eq_refl); lia|rewrite <-M4; auto]. }
  destruct (commit_finishes first last l2 g A C ws T2 H2) as [l3 Hfin]; [lia|intros; apply Hk; lia|].
  exists (S k), (Node l3 Idle g A (acknowledge first last A C) false ws).
  rewrite Nat.iter_succ, Hbegin, Hi, Hfin. do 2 (split; [done|]). intros off Ho.
  destruct (lookup_lt_is_Some_2 todo (Z.to_nat (off - sg_next a))) as [r Hr]; [lia|]. exists r. cbn.
  apply Hat in Hr. rewrite Z2Nat.id, Zplus_minus in Hr by lia. split; [done|].
  unfold acknowledge. apply lookup_union_Some_l, map_lookup_filter_Some. by split.
Qed.

End Commit.

(** ** Opening *)

(** C17. A log opens after every stop: whatever state it was in and whatever
    its stop left behind, under the assumptions on callers, on failed rolls,
    on the high-watermark file and on what a stop leaves of a segment that
    [op_ok] and [settled] state, [NewLog] succeeds on a disk whose truncate
    and sync work. *)
Theorem log_opens_after_stop o n fs removed h mtimes create now :
  codec_ok (own (o_codecs o)) → DisableCommitVerify o = false → reached o n → image (o_codecs o) (n_log n) fs removed h →
  is_Some (NewLog o fs removed h mtimes (MkOpenIo create TruncOk true) now).
Proof.
  intros Hc Hv Hn Him. destruct (reached_node_inv o n Hc Hv Hn) as (T&H&_). pose proof (iv_active _ _ _ _ _ _ _ _ H) as (a&Ha&_).
  destruct (im_there _ _ _ _ _ Him a (last_Some_elem_of _ _ Ha)) as [fa Hfa]. destruct (listSegmentFiles_spec fs) as [_ Hfiles].
  unfold NewLog. destruct (last (listSegmentFiles fs)) as [[base f]|] eqn:El; cycle 1.
  { apply last_None in El. assert ((sg_base a, fa) ∈ listSegmentFiles fs) as Hin by by apply Hfiles.
    rewrite El in Hin. by apply elem_of_nil in Hin. }
  cbn [oi_trunc oi_sync]. destruct (walkActiveSegment _ _ _ _ _) as [[[[f1 s1] x] next]|] eqn:Ew; cbn [mbind option_bind].
  - pose proof (ho_valid _ _ _ _ (iv_hwm _ _ _ _ _ _ _ _ H) (hf_cur h) (im_hwm _ _ _ _ _ Him _ ltac:(by left))) as Hh.
    unfold loadHighWatermark. destruct (ReadPersistedHighWatermark (hf_cur h)) as [[q|]|]; [by eexists| |done].
    rewrite andb_false_r. by eexists.
  - exfalso. unfold walkActiveSegment in Ew. repeat case_match; done.
Qed.

(** ** A run *)

Fixpoint run (ops : list op) (n : node) : node := match ops with [] => n | op :: ops => run ops (exec op n) end.
Fixpoint ops_ok (ops : list op) (n : node) : Prop :=
  match ops with [] => True | op :: ops => op_ok op n ∧ ops_ok ops (exec op n) end.

Lemma lives_run o ops n : reached o n → ops_ok ops n → reached o (run ops n).
Proof. revert n. induction ops as [|op ops IH]; intros n Hn; [done|]. intros [Hop Hops]. apply IH; [by constructor|done]. Qed.

Module Demo.

Definition options (segmentBytes : Z) : Options :=
  MkOptions (MkCodecs NoopCodec NoopCodec) 0 0 0 false 0 0 segmentBytes 0 0 false.

Definition disk_works : open_io := MkOpenIo CreateOk TruncOk true.

Definition made (segmentBytes : Z) : Log :=
  opened (withDefaults (options segmentBytes)) (MkDisk {[0 := []]} ∅ [MkSegment 0 0 0 None (Some 0)]) emptyLookup
    (MkVisible 0 0 0 false false (MkHwmFile None [])) 0 0 0.

(** [CommitDurable] with the answers of the disk to its two steps. *)
Definition commit (first last : Z) (i : io) : list op := [OpSubmit (ReqCommit first last); OpBegin (ReqCommit first last) 1; OpFlusher i 1; OpFlusher i 1; OpFlusher i 1].

(** Two records are committed, a third is appended, the machine stops. *)
Definition committed : node := run (OpAppend [[104; 105]; [121; 111]] 1 :: commit 0 1 io_ok ++ [OpAppend [[33]] 1]) (booted (made 0) ∅).

Definition frame : octets :=
  [202; 254; 0; 0; 0; 0; 2; 0; 0; 0; 0; 0; 0; 0; 0; 0; 0; 0; 12; 0; 0; 0; 12; 39; 140; 180; 215;
   0; 0; 0; 2; 104; 105; 0; 0; 0; 2; 121; 111].

(** The file ends in two bytes of a frame that was never written whole. *)
Definition torn : file := (λ v, (v, Kept)) <$> (frame ++ [202; 254]).

Definition whole : tile := Tile 0 39 0 2 (Good [[104; 105]; [121; 111]]).

Definition reopened : option Log := NewLog (options 0) {[0 := torn]} ∅ (MkHwmFile (Some []) []) ∅ disk_works 2.

Lemma made_reached segmentBytes : segmentBytes = 0 ∨ segmentBytes = 1 → reached (options segmentBytes) (booted (made segmentBytes) ∅).
Proof. intros [-> | ->]; apply (reached_new _ disk_works 0); by vm_compute. Qed.

Lemma committed_reached : reached (options 0) committed.
Proof. apply lives_run; [by apply made_reached; left|]. vm_compute. repeat split; congruence. Qed.

Lemma reads_whole : readFrameAt (o_codecs (options 0)) frame 0 = Ok (MkFrameHeader 0 2 0 12 12 663532759, [[104; 105]; [121; 111]], 39).
Proof. by vm_compute. Qed.

(** The committed frame reads in one way only. *)
Lemma frame_tile ts t : chain (o_codecs (options 0)) frame 0 0 ts → chain_end 0 ts <= 39 → t ∈ ts → t = whole.
Proof.
  destruct ts as [|t0 ts]; [by intros _ _ ?%elem_of_nil|]. intros (Hp&Hb&Ht&Hts) He. destruct t0 as [pos len base count k].
  cbn in Hp. subst pos. destruct Ht as [_ Hlen _ _ _ Hk]. unfold kind_ok in Hk. cbn [t_kind t_pos] in Hk. destruct k as [recs| |].
  - rewrite reads_whole in Hk. destruct Hk as (h&E&Eb&Ec). injection E as <- <- E. cbn in Eb, Ec, E, Hlen, He. subst base count.
    unfold t_end in *. cbn in *. assert (len = 39) as -> by lia. destruct ts as [|t1 ts]; [by intros ->%list_elem_of_singleton|].
    pose proof (chain_end_ge _ _ _ _ _ Hts) as _. destruct Hts as (Hp1&_&Ht1&Hts). apply chain_end_ge in Hts.
    cbn in He. destruct Ht1 as [_ Hl _ _ _ _]. unfold t_end in *. lia.
  - destruct Hk as (_&_&Hv&_). by vm_compute in Hv.
  - exfalso. destruct (Hk 0) as [Hm|[_ Hd]]; [cbn in Hlen; unfold t_end; cbn; lia|done| |by vm_compute in Hd].
    apply Hm. by vm_compute.
Qed.

(** What the stop of a log with that frame in its only segment may leave. *)
Lemma torn_settled l :
  segments l = [MkSegment 0 2 39 (Some 1) (Some 1)] → contents (ld l) 0 = frame →
  settled (o_codecs (options 0)) l {[0 := torn]} 0 torn [whole].
Proof.
  intros Hss Hb. constructor.
  - cbn [chain]. do 2 (split; [done|]). split; [|done]. constructor; [done..|]. vm_compute. by eexists.
  - by vm_compute.
  - intros i h e Hi. assert (flen torn = 41) as E by (by vm_compute). rewrite E in Hi |- *. change (chain_end 0 [whole]) with 39 in Hi.
    assert (i = 39 ∨ i = 40) as [-> | ->] by lia; by vm_compute.
  - intros base' [f [<- _]%lookup_singleton_Some]. lia.
  - intros s ts0 t Hs _ Hseg Ht _ _. rewrite Hss in Hs. apply list_elem_of_singleton in Hs as ->. rewrite Hb in Hseg.
    destruct Hseg as [Hc _ He _ _]. apply list_elem_of_singleton, (frame_tile ts0 t Hc He Ht).
Qed.

Lemma torn_image l :
  segments l = [MkSegment 0 2 39 (Some 1) (Some 1)] → contents (ld l) 0 = frame → file_at (ld l) 0 = take 39 torn →
  hf_cur (v_file (lv l)) = Some [] → image (o_codecs (options 0)) l {[0 := torn]} ∅ (MkHwmFile (Some []) []).
Proof.
  intros Hss Hb Hf Hh. constructor.
  - intros base [f [<- _]%lookup_singleton_Some]. done.
  - intros s Hs. rewrite Hss in Hs. apply list_elem_of_singleton in Hs as ->. by eexists.
  - intros base [f [<- _]%lookup_singleton_Some]. left. rewrite Hss. eexists. split; [by left|done].
  - intros s f i v Hs Hfs Hi. rewrite Hss in Hs. apply list_elem_of_singleton in Hs as ->. apply lookup_singleton_Some in Hfs as [_ <-].
    cbn [sg_base] in Hi. rewrite Hf in Hi. apply lookup_take_Some in Hi. tauto.
  - intros base f [<- <-]%lookup_singleton_Some. exists [whole]. by apply torn_settled.
  - intros base [? H]. by rewrite lookup_empty in H.
  - intros c Hc. apply list_elem_of_singleton in Hc as ->. rewrite Hh. by left.
Qed.

Lemma committed_stop : image (o_codecs (options 0)) (n_log committed) {[0 := torn]} ∅ (MkHwmFile (Some []) []).
Proof. apply torn_image; by vm_compute. Qed.

Definition again : node := match reopened with Some l => booted l (n_committed committed) | None => committed end.

Lemma reopened_reached n l :
  reached (options 0) n → image (o_codecs (options 0)) (n_log n) {[0 := torn]} ∅ (MkHwmFile (Some []) []) → reopened = Some l →
  reached (options 0) (booted l (n_committed n)).
Proof. unfold reopened. intros Hn Hi Hl. exact (reached_reopen _ _ _ _ _ _ _ _ _ Hn Hi Hl). Qed.

Lemma again_reached : reached (options 0) again.
Proof.
  assert (is_Some reopened) as [l E] by (vm_compute; by eexists). unfold again. rewrite E.
  exact (reopened_reached committed l committed_reached committed_stop E).
Qed.

Definition frame_of (rs : list octets) (base : Z) : octets := match encodeFrame NoopCodec rs base with Ok f => f | Err _ => [] end.

Lemma noop_ok : codec_ok NoopCodec.
Proof. by left. Qed.

Lemma noop_fits : codec_fits NoopCodec.
Proof. by left. Qed.

End Demo.

Lemma committed_records_survive_witness :
  1 < v_hwm (lv (n_log Demo.again)) ∧ (lclosed (n_log Demo.again) = false → (ReadShared 1 (n_log Demo.again)).2 = Ok [121; 111]).
Proof. apply (committed_records_survive (Demo.options 0)); [apply Demo.noop_ok|done|apply Demo.again_reached|by vm_compute]. Defined.

Lemma appended_records_readable_witness :
  ∃ r, n_appended Demo.committed !! 2 = Some r ∧ (ReadShared 2 (n_log Demo.committed)).2 = Ok r.
Proof.
  apply (appended_records_readable (Demo.options 0) Demo.committed (MkSegment 0 2 39 (Some 1) (Some 1)) 2);
    [apply Demo.noop_ok|done|apply Demo.committed_reached|by vm_compute..].
Defined.

Lemma commit_succeeds_witness :
  ∃ k n', Nat.iter k (exec (OpFlusher io_ok 9)) (exec (OpBegin (ReqCommit 2 2) 9) (exec (OpSubmit (ReqCommit 2 2)) Demo.committed)) = n' ∧ n_phase n' = Idle
    ∧ ∀ off, 2 <= off <= 2 → ∃ r, n_appended Demo.committed !! off = Some r ∧ n_committed n' !! off = Some r.
Proof.
  apply (commit_succeeds (Demo.options 0) 9 Demo.noop_ok Demo.noop_fits eq_refl Demo.committed (MkSegment 0 2 39 (Some 1) (Some 1)) 2 2);
    [apply Demo.committed_reached|by vm_compute..| | | |].
  - by left.
  - cbn. lia.
  - by vm_compute.
  - intros off r Ho Hr. assert (off = 2) as ->; [|by vm_compute in Hr; injection Hr as <-].
    assert (b_next (lb (n_log Demo.committed)) = 3) as E by (by vm_compute). rewrite E in Ho. cbn in Ho. lia.
Defined.

Lemma log_opens_after_stop_witness :
  is_Some (NewLog (Demo.options 0) {[0 := Demo.torn]} ∅ (MkHwmFile (Some []) []) ∅ (MkOpenIo CreateFails TruncOk true) 5).
Proof.
  apply (log_opens_after_stop (Demo.options 0) Demo.committed);
    [apply Demo.noop_ok|done|apply Demo.committed_reached|apply Demo.committed_stop].
Defined.

(** ** Frames *)

(** C19. A frame reads back: wherever in a file [encodeFrame] put the records
    of a batch, [readFrameAt] returns them, the offset and the number of
    records of the header, and the position behind the frame. *)
Theorem frame_roundtrip cs rs base fr before after :
  codec_ok (own cs) → 0 <= base <= max_int64 → encodeFrame (own cs) rs base = Ok fr →
  ∃ h, readFrameAt cs (before ++ fr ++ after) (blen before) = Ok (h, rs, blen before + blen fr)
    ∧ baseOffset h = base ∧ recordCount h = Z.of_nat (length rs).
Proof. apply read_encodeFrame. Qed.

Lemma frame_roundtrip_witness :
  ∃ h, readFrameAt (MkCodecs NoopCodec NoopCodec) ([1] ++ Demo.frame_of [[7]; []] 5 ++ [2]) 1 = Ok (h, [[7]; []], 1 + blen (Demo.frame_of [[7]; []] 5))
    ∧ baseOffset h = 5 ∧ recordCount h = 2.
Proof. apply (frame_roundtrip (MkCodecs NoopCodec NoopCodec) [[7]; []] 5 _ [1] [2]); [apply Demo.noop_ok|done|by vm_compute]. Defined.

(** C20. The streaming check of a frame is the reading one: in chunks of 64 KiB
    through one buffer, [verifyFrameAtBuffered] accepts exactly the frames
    that [readFrameRaw] returns and fails as it does on the others. *)
Theorem verify_is_read f pos :
  0 <= pos →
  verifyFrameAtBuffered f pos = match readFrameRaw f pos with Ok (h, _) => Ok (h, frame_end pos h) | Err e => Err e end.
Proof. apply verify_raw. Qed.

Lemma verify_is_read_witness :
  verifyFrameAtBuffered (Demo.frame_of [[7]] 3) 0
  = match readFrameRaw (Demo.frame_of [[7]] 3) 0 with Ok (h, _) => Ok (h, frame_end 0 h) | Err e => Err e end.
Proof. by apply (verify_is_read (Demo.frame_of [[7]] 3) 0). Defined.
