(* ===== verification/PartFaults.v ===== *)
(** * Where a partition log does not recover

    Two behaviours of [internal/persistence/storage] that its comments rule
    out: a failed commit after which no record is ever committed until the
    log is opened again, and a recovery that reads the payload of a torn
    frame as a frame. *)

From S2P Require Import Prelude Octets PartFrame PartCache PartLog PartFlush PartBytes PartWalk PartLookup PartRun PartInv PartSteps PartOps PartReopen PartClaims.

#[local] Arguments Z.mul : simpl never.
#[local] Arguments Z.add : simpl never.
#[local] Arguments Z.sub : simpl never.
#[local] Arguments Z.pow : simpl never.
#[local] Arguments Z.of_nat : simpl never.
#[local] Arguments Z.to_nat : simpl never.

(** ** A failed commit that is never made good *)

(** The active segment is empty and due to be rolled, and the segment the
    roll asks for has its name. *)
Record stuck (base : Z) (l : Log) : Prop := {
  sk_active : ∃ a, active l = Some a ∧ sg_base a = base ∧ sg_next a = base ∧ sg_size a = 0;
  sk_file : is_Some (dk_files (ld l) !! base);
  sk_roll : w_rollPending (lw l) = true;
}.

(** Only the files, the segments and the pending roll matter. *)
Lemma stuck_same base l l' :
  stuck base l → segments l' = segments l → (∀ k, is_Some (dk_files (ld l) !! k) → is_Some (dk_files (ld l') !! k)) →
  w_rollPending (lw l') = w_rollPending (lw l) → stuck base l'.
Proof. intros [(a&Ha&?) Hf Hw] Hs Hk Hr. constructor; [exists a; by rewrite <-Ha; unfold active; rewrite Hs|by apply Hk|by rewrite Hr]. Qed.

Lemma set_file_keeps base f d k : is_Some (dk_files d !! k) → is_Some (dk_files (set_file base f d) !! k).
Proof. intros H. cbn. by apply lookup_insert_is_Some'; right. Qed.

Lemma stuck_sync base l force ok now : stuck base l → stuck base (syncIfNeeded force ok now l).1.
Proof.
  intros H. unfold syncIfNeeded. repeat case_match; try done; (eapply stuck_same; [exact H|done| |done]); apply set_file_keeps.
Qed.

(** The segment to create is there already. *)
Lemma stuck_roll base l i now : stuck base l → stuck base (roll i now l).1 ∧ (roll i now l).2 = false.
Proof.
  intros H. unfold roll. pose proof (stuck_sync base l true (io_rollSync i) now H) as Hs.
  destruct (syncIfNeeded true (io_rollSync i) now l) as [l1 [|]]; [|done]. cbn in Hs. destruct (sk_active _ _ Hs) as (a&Ha&_&Hn&_).
  rewrite Ha. unfold createSegment. rewrite Hn. destruct (sk_file _ _ Hs) as [f Hf]. rewrite Hf. split; [|done].
  by eapply stuck_same.
Qed.

Lemma stuck_rollIfPending base l i now : stuck base l → stuck base (rollIfPending i now l).
Proof. intros H. unfold rollIfPending. case_match; [by apply stuck_roll|done]. Qed.

Lemma stuck_write base l i now r todo b0 cache : stuck base l → stuck base (write_round i now r todo b0 cache l).1.
Proof.
  intros H. unfold write_round. destruct todo as [|x todo]; [done|]. unfold writeFrame.
  destruct (encodeFrame _ _ _) as [fr|]; [|done]. unfold activeForWrite. destruct (sk_active _ _ H) as (a&Ha&_). rewrite Ha, (sk_roll _ _ H).
  cbn [orb]. destruct (stuck_roll base l i now H) as [Hl Hr]. destruct (roll i now l) as [l1 ok]. cbn in Hl, Hr. by subst ok.
Qed.

Lemma stuck_finish base l i now r : stuck base l → stuck base (finishRequest i now r l).1.
Proof.
  intros H. unfold finishRequest. destruct r as [| | |first last| |]; try done.
  - destruct (DisableCommitVerify (lo l) || _); [destruct (AdvanceHighWatermark _ _ _); by eapply stuck_same|].
    unfold VerifyDurable. destruct (verify_range _ _ _ _ _ _) as [x [u|e]]; [|by eapply stuck_same].
    destruct (AdvanceHighWatermark _ _ _); by eapply stuck_same.
  - unfold rotateActive. destruct (sk_active _ _ H) as (a&Ha&_&_&Hz). by rewrite Ha, Hz.
Qed.

Lemma stuck_discard base l io cut : stuck base l → stuck base (discardUncommittedTail io cut l).
Proof.
  intros H. unfold discardUncommittedTail. destruct (sk_active _ _ H) as (a&Ha&Hb&Hn&Hz). rewrite Ha.
  assert ((if cut && (v_hwm (lv l) <? sg_next a) then discard_disk io a l else (l, sg_next a, false)) = (l, sg_next a, false)) as ->.
  { destruct cut; [|done]. cbn [andb]. destruct (v_hwm (lv l) <? sg_next a) eqn:E; [|done]. unfold discard_disk, frameBoundaryAtOrAbove.
    rewrite (proj2 (Z.leb_le _ _)) by lia. by rewrite Hz. }
  repeat case_match; by eapply stuck_same.
Qed.

Lemma stuck_flusher base i now n : stuck base (n_log n) → stuck base (n_log (step_flusher i now n)).
Proof.
  intros H. unfold step_flusher. set (l' := (flusher_step i now (n_phase n) (n_log n)).1.1).
  assert (stuck base l') as Hl.
  { unfold l', flusher_step. destruct (n_phase n) as [|r todo b0 cache|r|r|r e|]; try done.
    - pose proof (stuck_write base _ i now r todo b0 cache H) as Hw. by destruct (write_round _ _ _ _ _ _ _).
    - pose proof (stuck_sync base _ (forceSync r) (io_sync i) now H) as Hs. by destruct (syncIfNeeded _ _ _ _).
    - pose proof (stuck_finish base _ i now r H) as Hf. destruct (finishRequest _ _ _ _) as [l1 [u|e]]; [|done].
      destruct r; cbn in *; try done; by apply stuck_rollIfPending.
    - cbn. destruct (isCommit r); [by apply stuck_discard|done]. }
  unfold l' in Hl. clear l'. destruct (flusher_step _ _ _ _) as [[l1 p1] rep]. cbn in Hl. repeat case_match; done.
Qed.

(** Sweeping deletes sealed segments only. *)
Lemma foldr_unlink_keeps ok vs d k :
  (∀ s, s ∈ vs → sg_base s ≠ k) → is_Some (dk_files d !! k) → is_Some (dk_files (foldr (unlink ok) d vs) !! k).
Proof.
  intros Hvs Hk. induction vs as [|v vs IH]; [done|]. cbn [foldr]. unfold unlink at 1.
  specialize (IH ltac:(intros s Hs; apply Hvs; by right)). case_match; [|done]. cbn. rewrite lookup_delete_ne; [done|].
  apply Hvs. by left.
Qed.

Lemma foldr_unlink_segments ok vs d : dk_segments (foldr (unlink ok) d vs) = dk_segments d.
Proof. induction vs as [|v vs IH]; [done|]. cbn [foldr]. unfold unlink at 1. by case_match. Qed.

Lemma stuck_sweep base l now ok : segs_ok (segments l) → stuck base l → stuck base (sweep now ok l).
Proof.
  intros Hso [(a&Ha&Hb&Hn&Hz) Hf Hr]. unfold sweep. rewrite Ha. cbn [option_list]. constructor; [|cbn|done].
  - exists a. split; [|done]. unfold active, segments. cbn. rewrite foldr_unlink_segments. apply last_snoc.
  - apply foldr_unlink_keeps; [|done]. intros s Hs. unfold sweep_victims in Hs. apply list_elem_of_filter in Hs as [_ Hs].
    destruct (sealed_before _ _ _ Hso Ha Hs). lia.
Qed.

(** ** Every operation of the same life *)

Lemma stuck_exec o base op n : node_inv o n → stuck base (n_log n) → stuck base (n_log (exec op n)).
Proof.
  intros (T&H&_) Hs. destruct op; cbn [exec].
  - unfold AppendBatch. repeat case_match; simplify_eq; cbn; try done; by eapply stuck_same.
  - destruct (submit_cases r n) as [->|[_ ->]]; done.
  - destruct (n_phase n); try done. destruct (receive r (n_waiting n)); [|done]. unfold begin_pass.
    repeat case_match; simplify_eq; cbn; try done; unfold drainBufferForFlush, cacheWrittenFrames in *; repeat case_match; simplify_eq; by eapply stuck_same.
  - by apply stuck_flusher.
  - cbn. unfold ReadShared. repeat case_match; simplify_eq; cbn; try done; by eapply stuck_same.
  - cbn. apply stuck_sweep; [apply H|done].
  - by eapply stuck_same.
  - by eapply stuck_same.
  - cbn. unfold end_close. destruct (persistClosedHighWatermark _ _). case_match; [|by eapply stuck_same].
    eapply stuck_same; [exact Hs|done| |done]. apply set_file_keeps.
Qed.

Lemma stuck_run o ops base n :
  codec_ok (own (o_codecs o)) → DisableCommitVerify o = false → reached o n → stuck base (n_log n) → ops_ok ops n →
  stuck base (n_log (run ops n)) ∧ ∀ off r, n_committed (run ops n) !! off = Some r → off < base.
Proof.
  intros Hc Hv. revert n. induction ops as [|op ops IH]; intros n Hn Hs; cbn.
  - intros _. split; [done|]. intros off r Hoff. destruct (reached_node_inv o n Hc Hv Hn) as (T&H&_).
    destruct (iv_committed _ _ _ _ _ _ _ _ H off r Hoff) as [Hlt _]. pose proof (iv_active _ _ _ _ _ _ _ _ H) as (a&Ha&_&_&_&Hh&_).
    destruct (sk_active _ _ Hs) as (a'&Ha'&_&Hx&_). rewrite Ha in Ha'. injection Ha' as <-. lia.
  - intros [Hop Hops]. apply IH; [by constructor| |done]. apply (stuck_exec o); [|done]. by apply reached_node_inv.
Qed.

(** The discard that gets a log stuck. *)
Lemma discard_sticks l a :
  active l = Some a → is_Some (dk_files (ld l) !! sg_base a) → w_rollPending (lw l) = true →
  v_hwm (lv l) <= sg_base a < sg_next a → 0 < sg_size a → stuck (sg_base a) (discardUncommittedTail TruncOk true l).
Proof.
  intros Ha Hf Hr Hh Hz. unfold discardUncommittedTail. rewrite Ha. cbn [andb]. rewrite (proj2 (Z.ltb_lt _ _)) by lia.
  unfold discard_disk, frameBoundaryAtOrAbove. rewrite (proj2 (Z.leb_le (v_hwm (lv l)) _)) by lia.
  rewrite (proj2 (Z.ltb_lt 0 _)) by lia. cbn [truncate_file orb]. constructor; [|by apply set_file_keeps|done].
  eexists. split; [apply last_snoc|]. done.
Qed.

(** C21. A commit that fails after its frame has filled an empty active
    segment leaves the log unable to write.  At the moment of the failure
    nothing of the active segment is below the high-watermark, the segment is
    due to be rolled and the log is not poisoned; the discard then empties
    the segment and keeps the pending roll, so that every later roll asks
    for a segment of the same name.  Whatever is done to the log from then
    on, until it is opened again and however well the disk works, the
    segment stays empty and no record from its base on is ever committed;
    the failure itself neither closes nor poisons the log. *)
Theorem failed_commit_wedges o n first last e a i now ops :
  codec_ok (own (o_codecs o)) → DisableCommitVerify o = false → reached o n → n_ended n = false →
  n_phase n = Failing (ReqCommit first last) e → w_poisoned (lw (n_log n)) = false → w_rollPending (lw (n_log n)) = true →
  active (n_log n) = Some a → v_hwm (lv (n_log n)) <= sg_base a < sg_next a → 0 < sg_size a →
  io_trunc i = TruncOk → io_create i ≠ CreateDirSyncFails true →
  let n1 := exec (OpFlusher i now) n in
  n_phase n1 = Idle ∧ w_poisoned (lw (n_log n1)) = false ∧ lclosed (n_log n1) = lclosed (n_log n)
  ∧ (ops_ok ops n1 →
     (∃ a', active (n_log (run ops n1)) = Some a' ∧ sg_base a' = sg_base a ∧ sg_size a' = 0)
     ∧ ∀ off, sg_base a <= off → n_committed (run ops n1) !! off = None).
Proof.
  intros Hc Hv Hn He Hp Hpo Hro Ha Hh Hz Ht Hio n1.
  assert (n_log n1 = discardUncommittedTail TruncOk true (n_log n) ∧ n_phase n1 = Idle) as [Hl Hp1].
  { unfold n1. cbn [exec]. unfold step_flusher. rewrite Hp. cbn [flusher_step isCommit]. by rewrite Ht, Hpo. }
  assert (reached o n1) as Hn1 by (apply (reached_exec o n (OpFlusher i now) Hn); by split).
  destruct (reached_node_inv o n Hc Hv Hn) as (T&H&_).
  assert (is_Some (dk_files (ld (n_log n)) !! sg_base a)) as Hf.
  { pose proof (iv_active _ _ _ _ _ _ _ _ H) as (a0&Ha0&Hia&_). rewrite Ha in Ha0. injection Ha0 as <-. apply Hia. }
  assert (stuck (sg_base a) (n_log n1)) as Hs by (rewrite Hl; by apply discard_sticks).
  split; [done|]. split; [|split].
  - rewrite Hl. unfold discardUncommittedTail, discard_disk. rewrite Ha. repeat case_match; simplify_eq; done.
  - rewrite Hl. unfold discardUncommittedTail, discard_disk. rewrite Ha. repeat case_match; simplify_eq; done.
  - intros Hops. destruct (stuck_run o ops _ _ Hc Hv Hn1 Hs Hops) as [[(a'&Ha'&Hb'&_&Hz') _ _] Hcom].
    split; [by exists a'|]. intros off Hoff. destruct (n_committed (run ops n1) !! off) as [r|] eqn:E; [|done].
    specialize (Hcom off r E). lia.
Qed.

Module Wedge.

(** A record is appended and committed, with the answers of the disk. *)
Definition round (i : io) : list op := OpAppend [[7]] 1 :: Demo.commit 0 0 i.

(** The high-watermark file cannot be opened: the commit is about to fail. *)
Definition no_hwm : io := MkIo true true CreateOk WriteOk TruncOk HwmOpenFails.
Definition failing : node := run (take 5 (round no_hwm)) (booted (Demo.made 1) ∅).

Lemma failing_reached : reached (Demo.options 1) failing.
Proof. apply lives_run; [by apply Demo.made_reached; right|]. vm_compute. repeat split; congruence. Qed.

Lemma retries_ok : ops_ok (round io_ok ++ round io_ok) (exec (OpFlusher no_hwm 1) failing).
Proof. vm_compute. repeat split; congruence. Qed.

(** On a log that has just been opened the same round commits. *)
Lemma fresh_commits : n_committed (run (round io_ok) (booted (Demo.made 1) ∅)) !! 0 = Some [7].
Proof. by vm_compute. Qed.

End Wedge.

Lemma failed_commit_wedges_witness :
  n_phase (exec (OpFlusher Wedge.no_hwm 1) Wedge.failing) = Idle ∧ lclosed (n_log (exec (OpFlusher Wedge.no_hwm 1) Wedge.failing)) = lclosed (n_log Wedge.failing)
  ∧ n_committed (run (Wedge.round io_ok ++ Wedge.round io_ok) (exec (OpFlusher Wedge.no_hwm 1) Wedge.failing)) !! 0 = None.
Proof.
  destruct (failed_commit_wedges (Demo.options 1) Wedge.failing 0 0 PassHwm (MkSegment 0 1 32 (Some 1) (Some 1)) Wedge.no_hwm 1
              (Wedge.round io_ok ++ Wedge.round io_ok)) as (H1&_&H3&H4);
    [apply Demo.noop_ok|done|apply Wedge.failing_reached|by vm_compute..|done|done|].
  split; [exact H1|]. split; [exact H3|]. destruct (H4 Wedge.retries_ok) as [_ H5]. apply H5. cbn. lia.
Defined.

(** ** A frame inside a record *)














Module Nested.



End Nested.

