(* ===== verification/SchemaValue.v ===== *)
(** * Schema documents as values

    The parts of [internal/platform/schema/compatibility.go] that compare
    decoded JSON values: the exact reading of number literals
    ([ratOf], [math/big]'s [Rat.SetString]), the [float64] reading
    ([numberOf], [strconv.ParseFloat]), the value equality ([jsonEqual])
    and the canonical rendering ([canonicalJSON]) that indexes enum
    values.  The theorems show that [jsonEqual] is an equivalence on
    readable values, that two readable values render alike exactly when
    they are equal, and what the rounding to [float64] keeps of an order. *)

From Stdlib Require Export QArith.QArith.
From S2P Require Import Prelude Decimal Keys Json.
Import Dec.
Open Scope Z_scope.

(** ** Induction on values *)

Section json_induction.
Context (P : json → Prop).
Context (Hnull : P JNull) (Hbool : ∀ b, P (JBool b)) (Hnum : ∀ l, P (JNumber l)) (Hstr : ∀ s, P (JString s)).
Context (Harr : ∀ l, Forall P l → P (JArray l)).
Context (Hobj : ∀ m, Forall (λ kv, P kv.2) m → P (JObject m)).

Fixpoint json_nested (v : json) : P v :=
  match v with
  | JNull => Hnull
  | JBool b => Hbool b
  | JNumber l => Hnum l
  | JString s => Hstr s
  | JArray l => Harr l ((fix go (l : list json) : Forall P l :=
                           match l with [] => Forall_nil_2 _ | x :: l => Forall_cons_2 _ _ _ (json_nested x) (go l) end) l)
  | JObject m => Hobj m ((fix go (m : list (string * json)) : Forall (λ kv, P kv.2) m :=
                            match m with
                            | [] => Forall_nil_2 _
                            | kv :: m => Forall_cons_2 _ _ _ (json_nested kv.2) (go m)
                            end) m)
  end.
End json_induction.

(** ** Numbers *)

(** The value [N * 10^E] a literal spells; [None] for text that is not a
    number literal or whose exponent overflows 64 bits. *)
Definition literal_parts (lit : string) : option (Z * Z) :=
  let s := chars lit in
  let neg := match s with c :: _ => byte_val c =? 45 | [] => false end in
  let s := if neg then tail s else s in
  let '(mantissa, expPart, hasExp) := cut "e"%char (to_lower <$> s) in
  let '(intPart, fracPart, _) := cut "."%char mantissa in
  exp ← (if hasExp : bool then atoi (text expPart) else Some 0);
  n ← atoi_digits (intPart ++ fracPart);
  Some (if neg then - n else n, exp - Z.of_nat (length fracPart)).

(** [N * 10^E] as a fraction. *)
Definition scaled_by (N E : Z) : Q := if 0 <=? E then inject_Z (N * 10 ^ E) else N # Z.to_pos (10 ^ (- E)).

(** [new(big.Rat).SetString(lit)]: exact, and refused when the decimal
    exponent is beyond a million (a zero mantissa is read before that). *)
Definition rat_literal (lit : string) : option Q :=
  p ← literal_parts lit;
  if p.1 =? 0 then Some 0%Q
  else if 1000000 <? Z.abs p.2 then None else Some (scaled_by p.1 p.2).

Definition ratOf (v : json) : option Q := match v with JNumber lit => rat_literal lit | _ => None end.

(** Division rounded to the nearest integer, ties to even. *)
Definition round_half_even (A D : Z) : Z :=
  let u := A / D in
  let r := A mod D in
  if 2 * r <? D then u else if D <? 2 * r then u + 1 else if Z.even u then u else u + 1.

(** [float64] holds the multiples [m * 2^s] of [2^-1074] with [m] of 53
    bits: the non-negative [A / D] (in units of [2^-1074]) rounded. *)
Definition round_units (A D : Z) : Z :=
  let s := Z.max 0 (Z.log2 (A / D) - 52) in
  round_half_even A (D * 2 ^ s) * 2 ^ s.

Definition float64_unit : positive := Z.to_pos (2 ^ 1074).

Definition round64 (q : Q) : Q :=
  let units := round_units (Z.abs (Qnum q) * 2 ^ 1074) (Z.pos (Qden q)) in
  (if Qnum q <? 0 then - units else units) # float64_unit.

(** [json.Number.Float64]: the nearest [float64]; a value that rounds
    beyond the largest one is a range error. *)
Definition float_literal (lit : string) : option Q :=
  p ← literal_parts lit;
  let f := round64 (scaled_by p.1 p.2) in
  if 2 ^ 1024 * 2 ^ 1074 <=? Z.abs (Qnum f) then None else Some f.

Definition numberOf (v : json) : option Q := match v with JNumber lit => float_literal lit | _ => None end.

(** ** Equality *)

Definition numbers_equal (a b : string) : bool :=
  match rat_literal a, rat_literal b with Some x, Some y => Qeq_bool x y | _, _ => false end.

Fixpoint jsonEqual (a b : json) {struct a} : bool :=
  match a, b with
  | JObject av, JObject bv =>
      (length av =? length bv)%nat &&
      forallb (λ kx, match obj_get kx.1 bv with Some y => jsonEqual kx.2 y | None => false end) av
  | JArray av, JArray bv =>
      (length av =? length bv)%nat &&
      (fix go (av bv : list json) : bool :=
         match av, bv with x :: av, y :: bv => jsonEqual x y && go av bv | _, _ => true end) av bv
  | JNumber x, JNumber y => numbers_equal x y
  | JString x, JString y => bool_decide (x = y)
  | JBool x, JBool y => Bool.eqb x y
  | JNull, JNull => true
  | _, _ => false
  end.

(** ** The canonical rendering *)

(** The pieces [writeCanonical] appends to its builder.  A quoted string
    ([strconv.Quote]) and a reduced fraction ([Rat.RatString]) are one
    piece each: quoting is injective and marks its own end. *)
Inductive lexeme :=
| LPunct (c : ascii)
| LQuoted (s : string)
| LRat (num den : Z)
| LLiteral (lit : string)
| LWord (w : string).

Definition rat_string (q : Q) : lexeme := let r := Qred q in LRat (Qnum r) (Z.pos (Qden r)).

(** Items with a comma before each one but the first. *)
Definition comma_separated (l : list (list lexeme)) : list lexeme :=
  match l with [] => [] | x :: l => x ++ concat ((λ y, LPunct ","%char :: y) <$> l) end.

Definition key_le {A} (x y : string * A) : Prop := String.le x.1 y.1.

#[global] Instance key_le_dec {A} (x y : string * A) : Decision (key_le x y).
Proof. unfold key_le. apply _. Defined.

Fixpoint canonicalJSON (v : json) : list lexeme :=
  match v with
  | JObject m =>
      let items := merge_sort key_le (map (λ kv, (kv.1, canonicalJSON kv.2)) m) in
      LPunct "{"%char ::
        comma_separated ((λ kt, LQuoted kt.1 :: LPunct ":"%char :: kt.2) <$> items) ++ [LPunct "}"%char]
  | JArray l => LPunct "["%char :: comma_separated (map canonicalJSON l) ++ [LPunct "]"%char]
  | JString s => [LQuoted s]
  | JNumber lit => match rat_literal lit with Some q => [rat_string q] | None => [LPunct "#"%char; LLiteral lit] end
  | JBool b => [LWord (if b then "true" else "false")]
  | JNull => [LWord "null"]
  end.

(** Every number in the value can be read exactly. *)
Fixpoint readable (v : json) : bool :=
  match v with
  | JNumber lit => bool_decide (is_Some (rat_literal lit))
  | JArray l => forallb readable l
  | JObject m => forallb (λ kv, readable kv.2) m
  | _ => true
  end.

(** Every object has each key once, as a Go map has. *)
Fixpoint distinct (v : json) : bool :=
  match v with
  | JArray l => forallb distinct l
  | JObject m => bool_decide (NoDup m.*1) && forallb (λ kv, distinct kv.2) m
  | _ => true
  end.

(** ** Objects *)

Lemma obj_get_in k m v : obj_get k m = Some v → (k, v) ∈ m.
Proof.
  induction m as [|[k' v'] m IH]; [done|]. simpl. case_decide as E; intros H.
  - simplify_eq. apply list_elem_of_here.
  - by apply list_elem_of_further, IH.
Qed.

Lemma obj_get_None k m : obj_get k m = None ↔ k ∉ m.*1.
Proof.
  induction m as [|[k' v'] m IH]; simpl; [set_solver|]. rewrite not_elem_of_cons. case_decide; naive_solver.
Qed.

Lemma obj_get_some k m : k ∈ m.*1 → is_Some (obj_get k m).
Proof. intros H. destruct (obj_get k m) eqn:E; [done|]. by apply obj_get_None in E. Qed.

Lemma in_obj_get k v m : NoDup m.*1 → (k, v) ∈ m → obj_get k m = Some v.
Proof.
  induction m as [|[k' v'] m IH]; simpl; intros Hd Hin; [by apply not_elem_of_nil in Hin|].
  apply NoDup_cons in Hd as [Hn Hd]. apply elem_of_cons in Hin as [E|Hin].
  - simplify_eq. by rewrite decide_True.
  - rewrite decide_False; [by apply IH|]. intros ->. apply Hn. apply list_elem_of_fmap. by exists (k', v).
Qed.

Lemma obj_get_fmap {A} (f : json → A) k m :
  obj_get k m = None ∨ ∃ v, obj_get k m = Some v ∧ (k, f v) ∈ (λ kv, (kv.1, f kv.2)) <$> m.
Proof.
  destruct (obj_get k m) as [v|] eqn:E; [right|by left]. exists v. split; [done|].
  apply list_elem_of_fmap. exists (k, v). split; [done|by apply obj_get_in].
Qed.

(** An object with as many keys as another that has all of them has the
    same keys. *)
Lemma keys_permute (a b : list (string * json)) :
  NoDup a.*1 → length a = length b → (∀ k, k ∈ a.*1 → k ∈ b.*1) → a.*1 ≡ₚ b.*1.
Proof.
  intros Hd Hl Hin. apply submseteq_length_Permutation; [by apply NoDup_submseteq|]. rewrite !length_fmap. lia.
Qed.

(** ** [jsonEqual] is an equivalence *)

Definition pairwise (f : json → json → bool) : list json → list json → bool :=
  fix go (a b : list json) : bool := match a, b with x :: a, y :: b => f x y && go a b | _, _ => true end.

Lemma jsonEqual_array a b : jsonEqual (JArray a) (JArray b) = (length a =? length b)%nat && pairwise jsonEqual a b.
Proof. done. Qed.

Lemma pairwise_spec f a b : length a = length b → pairwise f a b = true ↔ Forall2 (λ x y, f x y = true) a b.
Proof.
  revert b. induction a as [|x a IH]; intros [|y b]; simpl; intros Hl; try done.
  rewrite andb_true_iff, IH, Forall2_cons by lia. done.
Qed.

Lemma jsonEqual_arrays a b : jsonEqual (JArray a) (JArray b) = true ↔ Forall2 (λ x y, jsonEqual x y = true) a b.
Proof.
  rewrite jsonEqual_array, andb_true_iff, Nat.eqb_eq. split.
  - intros [Hl H]. by apply pairwise_spec.
  - intros H. pose proof (Forall2_length _ _ _ H) as Hl. split; [done|]. by apply pairwise_spec.
Qed.

Lemma jsonEqual_objects a b :
  jsonEqual (JObject a) (JObject b) = true ↔
  length a = length b ∧ ∀ k v, (k, v) ∈ a → ∃ w, obj_get k b = Some w ∧ jsonEqual v w = true.
Proof.
  change (jsonEqual (JObject a) (JObject b)) with ((length a =? length b)%nat &&
    forallb (λ kx, match obj_get kx.1 b with Some y => jsonEqual kx.2 y | None => false end) a).
  rewrite andb_true_iff, Nat.eqb_eq, forallb_forall. apply and_iff_compat_l. split.
  - intros H k v Hin. apply list_elem_of_In in Hin. specialize (H _ Hin). simpl in H.
    destruct (obj_get k b) as [w|]; [by exists w|done].
  - intros H [k v] Hin. apply list_elem_of_In in Hin. destruct (H k v Hin) as (w & Hw & ?). cbn [fst snd]. by rewrite Hw.
Qed.

Lemma distinct_object m : distinct (JObject m) = true ↔ NoDup m.*1 ∧ ∀ k v, (k, v) ∈ m → distinct v = true.
Proof.
  cbn [distinct]. rewrite andb_true_iff, bool_decide_eq_true, forallb_forall. apply and_iff_compat_l. split.
  - intros H k v Hin. apply (H (k, v)). by apply list_elem_of_In.
  - intros H [k v] Hin. apply (H k v). by apply list_elem_of_In.
Qed.

Lemma distinct_array l : distinct (JArray l) = true ↔ ∀ v, v ∈ l → distinct v = true.
Proof. cbn [distinct]. rewrite forallb_forall. by setoid_rewrite list_elem_of_In. Qed.

Lemma jsonEqual_keys a b :
  distinct (JObject a) = true → jsonEqual (JObject a) (JObject b) = true → a.*1 ≡ₚ b.*1.
Proof.
  intros [Ha _]%distinct_object [Hl H]%jsonEqual_objects. apply keys_permute; [done..|].
  intros k ([k' v] & -> & Hin)%list_elem_of_fmap. destruct (H k' v Hin) as (w & Hw & _).
  apply obj_get_in in Hw. apply list_elem_of_fmap. by exists (k', w).
Qed.

Lemma numbers_equal_sym a b : numbers_equal a b = true → numbers_equal b a = true.
Proof.
  unfold numbers_equal. destruct (rat_literal a), (rat_literal b); try done.
  rewrite !Qeq_bool_iff. by intros ->.
Qed.

Lemma numbers_equal_trans a b c : numbers_equal a b = true → numbers_equal b c = true → numbers_equal a c = true.
Proof.
  unfold numbers_equal. destruct (rat_literal a), (rat_literal b), (rat_literal c); try done.
  rewrite !Qeq_bool_iff. by intros -> ->.
Qed.

Lemma jsonEqual_sym a b : distinct a = true → distinct b = true → jsonEqual a b = true → jsonEqual b a = true.
Proof.
  revert b. induction a as [|x|l|s|l IH|m IH] using json_nested; intros [|y|l'|s'|l'|m'] Da Db He; try done.
  - by destruct x, y.
  - by apply numbers_equal_sym.
  - apply bool_decide_eq_true in He as ->. by apply bool_decide_eq_true.
  - apply jsonEqual_arrays in He. apply jsonEqual_arrays. rewrite distinct_array in Da, Db.
    apply Forall2_flip. rewrite Forall_forall in IH. apply Forall2_same_length_lookup in He as [Hl He].
    apply Forall2_same_length_lookup. split; [done|]. intros i x y Hx Hy. unfold flip.
    apply IH; [by eapply list_elem_of_lookup_2|apply Da; by eapply list_elem_of_lookup_2
              |apply Db; by eapply list_elem_of_lookup_2|by eapply He].
  - pose proof (jsonEqual_keys _ _ Da He) as Hk. apply jsonEqual_objects in He as [Hl He].
    apply distinct_object in Da as [Na Da]. apply distinct_object in Db as [Nb Db].
    apply jsonEqual_objects. split; [done|]. intros k w Hw.
    assert (k ∈ m.*1) as Hka by (rewrite Hk; apply list_elem_of_fmap; by exists (k, w)).
    apply obj_get_some in Hka as [v Hv]. exists v. split; [done|]. apply obj_get_in in Hv as Hin.
    destruct (He k v Hin) as (w' & Hw' & Hvw). rewrite (in_obj_get k w m' Nb Hw) in Hw'. simplify_eq.
    rewrite Forall_forall in IH. by apply (IH (k, v) Hin); [eapply Da|eapply Db|].
Qed.

Lemma jsonEqual_trans a b c : jsonEqual a b = true → jsonEqual b c = true → jsonEqual a c = true.
Proof.
  revert b c. induction a as [|x|l|s|l IH|m IH] using json_nested; intros [|y|lb|sb|lb|mb] [|z|lc|sc|lc|mc] Hab Hbc; try done.
  - by destruct x, y, z.
  - by eapply numbers_equal_trans.
  - apply bool_decide_eq_true in Hab as ->. by apply bool_decide_eq_true in Hbc as ->; apply bool_decide_eq_true.
  - rewrite jsonEqual_arrays in *. rewrite Forall_forall in IH.
    apply Forall2_same_length_lookup in Hab as [L1 H1]. apply Forall2_same_length_lookup in Hbc as [L2 H2].
    apply Forall2_same_length_lookup. split; [congruence|]. intros i x z Hx Hz.
    destruct (lookup_lt_is_Some_2 lb i) as [y Hy]; [apply lookup_lt_Some in Hx; lia|].
    eapply IH; [by eapply list_elem_of_lookup_2|by eapply H1|by eapply H2].
  - rewrite jsonEqual_objects in *. destruct Hab as [L1 H1], Hbc as [L2 H2]. split; [congruence|].
    intros k v Hin. destruct (H1 k v Hin) as (w & Hw & E1). destruct (H2 k w (obj_get_in _ _ _ Hw)) as (u & Hu & E2).
    exists u. split; [done|]. rewrite Forall_forall in IH. by apply (IH (k, v) Hin w).
Qed.

Lemma jsonEqual_refl a : readable a = true → distinct a = true → jsonEqual a a = true.
Proof.
  induction a as [|x|l|s|l IH|m IH] using json_nested; intros R D; try done.
  - by destruct x.
  - cbn in R |- *. apply bool_decide_eq_true in R as [q Hq]. unfold numbers_equal. rewrite Hq. by apply Qeq_bool_iff.
  - by apply bool_decide_eq_true.
  - apply jsonEqual_arrays. cbn [readable] in R. rewrite forallb_forall in R. rewrite distinct_array in D.
    rewrite Forall_forall in IH. apply Forall2_same_length_lookup. split; [done|]. intros i x y Hx Hy. simplify_eq.
    pose proof (list_elem_of_lookup_2 _ _ _ Hx) as Hin. apply IH; [done|apply R; by apply list_elem_of_In|by apply D].
  - apply distinct_object in D as [N D]. cbn [readable] in R. rewrite forallb_forall in R. rewrite Forall_forall in IH.
    apply jsonEqual_objects. split; [done|]. intros k v Hin. exists v. split; [by apply in_obj_get|].
    apply (IH (k, v) Hin); [apply (R (k, v)); by apply list_elem_of_In|by eapply D].
Qed.

(** ** [canonicalJSON] is exact *)

#[global] Instance key_le_trans {A} : Transitive (@key_le A).
Proof. intros x y z. unfold key_le. apply transitivity. Qed.

#[global] Instance key_le_total {A} : Total (@key_le A).
Proof. intros x y. unfold key_le. apply (total String.le). Qed.

Definition rendered_items (m : list (string * json)) : list (string * list lexeme) :=
  merge_sort key_le ((λ kv, (kv.1, canonicalJSON kv.2)) <$> m).

Definition item_text (kt : string * list lexeme) : list lexeme := LQuoted kt.1 :: LPunct ":"%char :: kt.2.

Lemma canonicalJSON_object m :
  canonicalJSON (JObject m) =
  LPunct "{"%char :: comma_separated (item_text <$> rendered_items m) ++ [LPunct "}"%char].
Proof. done. Qed.

Lemma canonicalJSON_array l :
  canonicalJSON (JArray l) = LPunct "["%char :: comma_separated (canonicalJSON <$> l) ++ [LPunct "]"%char].
Proof. done. Qed.

Lemma elem_rendered_items m k t : (k, t) ∈ rendered_items m ↔ ∃ v, (k, v) ∈ m ∧ t = canonicalJSON v.
Proof.
  unfold rendered_items. rewrite merge_sort_Permutation, list_elem_of_fmap. split.
  - intros ([k' v] & E & Hin). simplify_eq/=. by exists v.
  - intros (v & Hin & ->). by exists (k, v).
Qed.

Lemma length_rendered_items m : length (rendered_items m) = length m.
Proof. unfold rendered_items. by rewrite merge_sort_Permutation, length_fmap. Qed.

(** The texts [f x] can be told apart from what follows them. *)
Definition self_delimiting {A} (f : A → list lexeme) (R : A → A → Prop) (xs ys : list A) : Prop :=
  ∀ x y r r', x ∈ xs → y ∈ ys → f x ++ r = f y ++ r' → R x y ∧ r = r'.

Lemma self_delimiting_tail {A} (f : A → list lexeme) R x y xs ys :
  self_delimiting f R (x :: xs) (y :: ys) → self_delimiting f R xs ys.
Proof. intros H a b r r' Ha Hb. apply H; by apply list_elem_of_further. Qed.

(** A comma-separated list up to a closing bracket parses one way. *)
Lemma items_unique {A} (f : A → list lexeme) R c xs ys r r' :
  c ≠ ","%char → self_delimiting f R xs ys →
  concat ((λ y, LPunct ","%char :: y) <$> (f <$> xs)) ++ LPunct c :: r =
  concat ((λ y, LPunct ","%char :: y) <$> (f <$> ys)) ++ LPunct c :: r' →
  Forall2 R xs ys ∧ r = r'.
Proof.
  intros Hc. revert ys r r'. induction xs as [|x xs IH]; intros [|y ys] r r' Hf E; simpl in E; simplify_eq; try done.
  rewrite <-!app_assoc in E. destruct (Hf x y _ _ ltac:(apply list_elem_of_here) ltac:(apply list_elem_of_here) E) as [Hxy E'].
  destruct (IH ys r r' (self_delimiting_tail _ _ _ _ _ _ Hf) E') as [? ?]. split; [by constructor|done].
Qed.

Lemma comma_unique {A} (f : A → list lexeme) R c xs ys r r' :
  c ≠ ","%char → self_delimiting f R xs ys →
  (∀ x l, x ∈ xs ++ ys → f x ++ l ≠ [LPunct c] ++ r ∧ f x ++ l ≠ [LPunct c] ++ r') →
  (comma_separated (f <$> xs) ++ [LPunct c]) ++ r = (comma_separated (f <$> ys) ++ [LPunct c]) ++ r' →
  Forall2 R xs ys ∧ r = r'.
Proof.
  intros Hc Hf Hne E. rewrite <-!app_assoc in E. destruct xs as [|x xs], ys as [|y ys]; simpl in E.
  - by simplify_eq.
  - rewrite <-app_assoc in E. destruct (Hne y (concat ((λ z, LPunct ","%char :: z) <$> (f <$> ys)) ++ LPunct c :: r')) as [N _];
      [set_solver|by destruct N].
  - rewrite <-app_assoc in E. destruct (Hne x (concat ((λ z, LPunct ","%char :: z) <$> (f <$> xs)) ++ LPunct c :: r)) as [_ N];
      [set_solver|by destruct N].
  - rewrite <-!app_assoc in E.
    destruct (Hf x y _ _ ltac:(apply list_elem_of_here) ltac:(apply list_elem_of_here) E) as [Hxy E'].
    destruct (items_unique f R c xs ys r r' Hc (self_delimiting_tail _ _ _ _ _ _ Hf) E') as [? ?].
    split; [by constructor|done].
Qed.

Lemma canonical_head v l r c : c ≠ "{"%char → c ≠ "["%char → c ≠ "#"%char → canonicalJSON v ++ l ≠ [LPunct c] ++ r.
Proof.
  intros H1 H2 H3. destruct v as [|b|lit|s|a|m]; [done..| | |rewrite canonicalJSON_array|rewrite canonicalJSON_object].
  2-4: intros E; simplify_eq/=.
  cbn [canonicalJSON]. destruct (rat_literal lit); intros E; simplify_eq/=.
Qed.

Lemma rat_string_inj p q : rat_string p = rat_string q → (p == q)%Q.
Proof.
  unfold rat_string. intros E. injection E as E1 E2. rewrite <-(Qred_correct p), <-(Qred_correct q).
  destruct (Qred p), (Qred q). simpl in *. by simplify_eq.
Qed.

Definition canon_tells (a : json) : Prop :=
  ∀ b r r', readable a = true → distinct a = true → distinct b = true →
    canonicalJSON a ++ r = canonicalJSON b ++ r' → jsonEqual a b = true ∧ r = r'.

Lemma canon_tells_array l : Forall canon_tells l → canon_tells (JArray l).
Proof.
  intros IH b r r' R Da Db E. rewrite canonicalJSON_array in E.
  destruct b as [|?|lit| |l'|?]; try done; [simpl in E; by destruct (rat_literal lit)|].
  rewrite canonicalJSON_array in E. cbn [app] in E. apply (f_equal tail) in E. cbn [tail] in E.
  rewrite distinct_array in Da, Db. cbn [readable] in R. rewrite forallb_forall in R. rewrite Forall_forall in IH.
  apply (comma_unique canonicalJSON (λ x y, jsonEqual x y = true)) in E as [HF ->]; [|done| |].
  - split; [by apply jsonEqual_arrays|done].
  - intros x y s s' Hx Hy. apply IH; [done|apply R; by apply list_elem_of_In|by apply Da|by apply Db].
  - intros x s _. split; by apply canonical_head.
Qed.

Lemma canon_tells_object m : Forall (λ kv, canon_tells kv.2) m → canon_tells (JObject m).
Proof.
  intros IH b r r' R Da Db E. rewrite canonicalJSON_object in E.
  destruct b as [|?|lit| | |m']; try done; [simpl in E; by destruct (rat_literal lit)|].
  rewrite canonicalJSON_object in E. cbn [app] in E. apply (f_equal tail) in E. cbn [tail] in E.
  apply distinct_object in Da as [Na Da]. apply distinct_object in Db as [Nb Db].
  cbn [readable] in R. rewrite forallb_forall in R. rewrite Forall_forall in IH.
  set (same := λ x y : string * list lexeme, x.1 = y.1 ∧
    ∃ v w, (x.1, v) ∈ m ∧ (x.1, w) ∈ m' ∧ jsonEqual v w = true).
  destruct (comma_unique item_text same "}"%char (rendered_items m) (rendered_items m') r r') as [HF ->]; [done| | |done|].
  - intros [k t] [k' t'] s s' (v & Hv & ->)%elem_rendered_items (w & Hw & ->)%elem_rendered_items E'.
    unfold item_text in E'. cbn [app fst snd] in E'. injection E' as <- E'.
    destruct (IH (k, v) Hv w s s') as [Hvw ->]; [apply (R (k, v)); by apply list_elem_of_In|by eapply Da|by eapply Db|done|].
    split; [|done]. split; [done|]. by exists v, w.
  - done.
  - split; [|done]. apply jsonEqual_objects. split.
    { apply Forall2_length in HF. by rewrite !length_rendered_items in HF. }
    intros k v Hin. assert ((k, canonicalJSON v) ∈ rendered_items m) as Hr by (apply elem_rendered_items; eauto).
    apply list_elem_of_lookup in Hr as [i Hi].
    destruct (Forall2_lookup_l _ _ _ _ _ HF Hi) as ([k' t] & _ & _ & v' & w & Hv & Hw & He).
    cbn [fst] in *. exists w. split; [by apply in_obj_get|].
    pose proof (in_obj_get _ _ _ Na Hin). pose proof (in_obj_get _ _ _ Na Hv). by simplify_eq.
Qed.

Lemma canon_tells_number lit : canon_tells (JNumber lit).
Proof.
  intros b r r' R _ _ E. apply bool_decide_eq_true in R as [q Hq].
  assert (canonicalJSON (JNumber lit) = [rat_string q]) as Ha by (cbn; by rewrite Hq). rewrite Ha in E.
  destruct b as [|y|lit'|s'| |]; try (by injection E).
  assert (canonicalJSON (JNumber lit') = match rat_literal lit' with Some q => [rat_string q] | None => [LPunct "#"%char; LLiteral lit'] end)
    as Hb by done.
  rewrite Hb in E. destruct (rat_literal lit') as [q'|] eqn:Hq'; [|by injection E].
  cbn [app] in E. pose proof (f_equal tail E) as Er. apply (f_equal head) in E. cbn [head tail] in E, Er.
  split; [|done]. assert (rat_string q = rat_string q') by congruence.
  cbn. unfold numbers_equal. rewrite Hq, Hq'. by apply Qeq_bool_iff, rat_string_inj.
Qed.

Lemma canon_tells_scalar a w :
  canonicalJSON a = [w] → (∀ b r, canonicalJSON b = w :: r → jsonEqual a b = true ∧ r = []) →
  (∀ q, w ≠ rat_string q) → canon_tells a.
Proof.
  intros Ha Hw Hr b r r' _ _ _ E. rewrite Ha in E. destruct (canonicalJSON b) as [|w' t] eqn:Hb.
  { destruct b; try done. cbn in Hb. by destruct (rat_literal lit). }
  cbn [app] in E. injection E as <- E. destruct (Hw b t Hb) as [? ->]. done.
Qed.

Lemma canon_tells_all a : canon_tells a.
Proof.
  induction a as [|x|lit|s|l IH|m IH] using json_nested;
    [| |by apply canon_tells_number| |by apply canon_tells_array|by apply canon_tells_object];
    (eapply canon_tells_scalar; [done| |done]); intros [|y|lit'|s'| |] r E; try done;
    try (cbn in E; by destruct (rat_literal lit')).
  - by injection E as <-.
  - by destruct y.
  - by destruct x.
  - destruct x, y; by simplify_eq/=.
  - cbn in E. simplify_eq. split; [by apply bool_decide_eq_true|done].
Qed.

Lemma canonical_of_equal a b :
  distinct a = true → distinct b = true → jsonEqual a b = true → canonicalJSON a = canonicalJSON b.
Proof.
  revert b. induction a as [|x|lit|s|l IH|m IH] using json_nested; intros [|y|lit'|s'|l'|m'] Da Db E; try done.
  - by destruct x, y.
  - cbn in E |- *. unfold numbers_equal in E. destruct (rat_literal lit), (rat_literal lit'); try done.
    apply Qeq_bool_iff in E. unfold rat_string. by rewrite (Qred_complete _ _ E).
  - by apply bool_decide_eq_true in E as ->.
  - rewrite !canonicalJSON_array. do 3 f_equal. apply jsonEqual_arrays in E. rewrite distinct_array in Da, Db.
    rewrite Forall_forall in IH. apply list_eq_Forall2, Forall2_fmap.
    apply Forall2_same_length_lookup in E as [Hl E]. apply Forall2_same_length_lookup. split; [done|].
    intros i x y Hx Hy. pose proof (list_elem_of_lookup_2 _ _ _ Hx). pose proof (list_elem_of_lookup_2 _ _ _ Hy).
    apply IH; [done|by apply Da|by apply Db|by eapply E].
  - pose proof (jsonEqual_keys _ _ Da E) as Hk. apply jsonEqual_objects in E as [Hl E].
    apply distinct_object in Da as [Na Da]. apply distinct_object in Db as [Nb Db]. rewrite Forall_forall in IH.
    rewrite !canonicalJSON_object. do 3 f_equal. f_equal. unfold rendered_items.
    assert ((λ kv, (kv.1, canonicalJSON kv.2)) <$> m ≡ₚ (λ kv, (kv.1, canonicalJSON kv.2)) <$> m') as Hp.
    { apply submseteq_length_Permutation; [|rewrite !length_fmap; lia]. apply NoDup_submseteq.
      - apply (NoDup_fmap_1 fst). by rewrite <-list_fmap_compose.
      - intros kt ([k v] & -> & Hin)%list_elem_of_fmap. destruct (E k v Hin) as (w & Hw & He). apply obj_get_in in Hw.
        apply list_elem_of_fmap. exists (k, w). split; [|done]. cbn [fst snd]. f_equal.
        apply (IH (k, v) Hin); [by eapply Da|by eapply Db|done]. }
    apply (StronglySorted_unique_strong key_le); try apply StronglySorted_merge_sort; try apply _;
      [|by rewrite !merge_sort_Permutation].
    intros [k1 t1] [k2 t2] H1 H2 L1 L2. assert (k1 = k2) as <- by (by apply (anti_symm String.le)).
    rewrite merge_sort_Permutation in H1, H2. rewrite <-Hp in H2.
    apply list_elem_of_fmap in H1 as ([j1 v1] & F1 & I1). apply list_elem_of_fmap in H2 as ([j2 v2] & F2 & I2).
    simplify_eq/=. pose proof (in_obj_get _ _ _ Na I1). pose proof (in_obj_get _ _ _ Na I2). by simplify_eq.
Qed.

(** The index [checkEnumConst] keys by [canonicalJSON] is exact: two
    values whose numbers can be read render alike exactly when [jsonEqual]
    calls them equal, whatever their key order and number spelling. *)
Theorem canonicalJSON_exact a b :
  readable a = true → distinct a = true → distinct b = true →
  canonicalJSON a = canonicalJSON b ↔ jsonEqual a b = true.
Proof.
  intros R Da Db. split; [|by apply canonical_of_equal].
  intros E. apply (canon_tells_all a b [] [] R Da Db). by rewrite E.
Qed.

Lemma canonicalJSON_exact_witness :
  let a := JObject [("x", JNumber "1.50"); ("y", JArray [JNull])]%string in
  let b := JObject [("y", JArray [JNull]); ("x", JNumber "15e-1")]%string in
  canonicalJSON a = canonicalJSON b ↔ jsonEqual a b = true.
Proof. intros a b. exact (canonicalJSON_exact a b eq_refl eq_refl eq_refl). Defined.

(** ** What rounding keeps of the order

    An integer of at most 53 bits is a [float64], so rounding moves no
    value across it. *)

Lemma round_half_even_le A D k : 0 < D → A <= k * D → round_half_even A D <= k.
Proof.
  intros HD Hk. unfold round_half_even. pose proof (Z.div_mod A D ltac:(lia)). pose proof (Z.mod_pos_bound A D HD).
  assert (A / D <= k) by (apply Z.div_le_upper_bound; lia).
  repeat case_match; try lia; assert (A / D ≠ k) by (intros E; rewrite E in *; lia); lia.
Qed.

Lemma round_half_even_ge A D k : 0 < D → k * D <= A → k <= round_half_even A D.
Proof.
  intros HD Hk. unfold round_half_even. assert (k <= A / D) by (apply Z.div_le_lower_bound; lia).
  repeat case_match; lia.
Qed.

Lemma pow2_split a b : 0 <= a <= b → 2 ^ b = 2 ^ (b - a) * 2 ^ a.
Proof. intros H. rewrite <-Z.pow_add_r by lia. f_equal. lia. Qed.

Section rounding.
Context (A D j : Z) (HD : 0 < D) (Hj : 0 <= j <= 2 ^ 53).

Let s := Z.max 0 (Z.log2 (A / D) - 52).

Lemma shift_nonneg : 0 <= s.
Proof. subst s. lia. Qed.

(** Above the 53 bits the integer lies under every rounded value. *)
Lemma big_shift : 1074 < s → 2 ^ 1127 <= 2 ^ (52 + s) <= A / D.
Proof.
  intros Hs. split; [apply Z.pow_le_mono_r; lia|].
  assert (0 < A / D) as Hpos.
  { destruct (Z.le_gt_cases (A / D) 0) as [Hz|]; [|done]. subst s. rewrite (Z.log2_nonpos _ Hz) in Hs. lia. }
  destruct (Z.log2_spec (A / D) Hpos) as [Hlo _]. replace (52 + s) with (Z.log2 (A / D)); [done|subst s; lia].
Qed.

Lemma small_shift : s <= 1074 → ∃ k, j * 2 ^ 1074 = k * 2 ^ s.
Proof. intros Hs. exists (j * 2 ^ (1074 - s)). rewrite <-Z.mul_assoc, <-pow2_split; [done|]. pose proof shift_nonneg. lia. Qed.

Lemma j_units : j * 2 ^ 1074 <= 2 ^ 1127.
Proof. change 1127 with (53 + 1074). rewrite Z.pow_add_r by lia. apply Z.mul_le_mono_nonneg_r; [apply Z.pow_nonneg; lia|lia]. Qed.

Lemma round_units_ge : j * 2 ^ 1074 * D <= A → j * 2 ^ 1074 <= round_units A D.
Proof.
  intros Hle. unfold round_units. fold s. pose proof shift_nonneg. assert (0 < 2 ^ s) by (apply Z.pow_pos_nonneg; lia).
  destruct (Z.le_gt_cases s 1074) as [Hs|Hs].
  - destruct (small_shift Hs) as [k Hk]. rewrite Hk. apply Z.mul_le_mono_nonneg_r; [lia|].
    apply round_half_even_ge; [nia|]. rewrite Hk in Hle. nia.
  - destruct (big_shift Hs) as [H1 H2]. pose proof j_units. transitivity (2 ^ (52 + s)); [lia|].
    rewrite Z.pow_add_r by lia. apply Z.mul_le_mono_nonneg_r; [lia|]. apply round_half_even_ge; [nia|].
    rewrite Z.pow_add_r in H2 by lia. pose proof (Z.mul_div_le A D HD). nia.
Qed.

Lemma round_units_le : A <= j * 2 ^ 1074 * D → round_units A D <= j * 2 ^ 1074.
Proof.
  intros Hle. unfold round_units. fold s. pose proof shift_nonneg. assert (0 < 2 ^ s) by (apply Z.pow_pos_nonneg; lia).
  assert (∃ k, j * 2 ^ 1074 = k * 2 ^ s) as [k Hk].
  { destruct (Z.le_gt_cases s 1074) as [Hs|Hs]; [by apply small_shift|].
    destruct (big_shift Hs) as [H1 H2]. pose proof j_units.
    assert (A / D <= j * 2 ^ 1074) by (apply Z.div_le_upper_bound; lia).
    exists (2 ^ 52). rewrite <-Z.pow_add_r by lia. lia. }
  rewrite Hk. apply Z.mul_le_mono_nonneg_r; [lia|]. apply round_half_even_le; [nia|]. rewrite Hk in Hle. nia.
Qed.
End rounding.

Lemma round_units_nonneg A D : 0 <= A → 0 < D → 0 <= round_units A D.
Proof. intros HA HD. apply (round_units_ge A D 0); lia. Qed.

Lemma Qle_units (u j : Z) : (u # float64_unit <= inject_Z j)%Q ↔ u <= j * 2 ^ 1074.
Proof. unfold Qle, inject_Z, float64_unit. cbn [Qnum Qden]. rewrite Z2Pos.id by (apply Z.pow_pos_nonneg; lia). lia. Qed.

Lemma Qge_units (u j : Z) : (inject_Z j <= u # float64_unit)%Q ↔ j * 2 ^ 1074 <= u.
Proof. unfold Qle, inject_Z, float64_unit. cbn [Qnum Qden]. rewrite Z2Pos.id by (apply Z.pow_pos_nonneg; lia). lia. Qed.

Lemma round64_ge q j : 0 <= j <= 2 ^ 53 → (inject_Z j <= q)%Q → (inject_Z j <= round64 q)%Q.
Proof.
  intros Hj Hq. unfold round64. apply Qge_units. unfold Qle, inject_Z in Hq. cbn [Qnum Qden] in Hq.
  assert (0 <= Qnum q) by nia. destruct (Z.ltb_spec (Qnum q) 0); [lia|]. rewrite Z.abs_eq by done.
  apply round_units_ge; [lia|lia|]. assert (0 < 2 ^ 1074) by (apply Z.pow_pos_nonneg; lia). nia.
Qed.

Lemma round64_le q j : 0 <= j <= 2 ^ 53 → (q <= inject_Z j)%Q → (round64 q <= inject_Z j)%Q.
Proof.
  intros Hj Hq. unfold round64. apply Qle_units. unfold Qle, inject_Z in Hq. cbn [Qnum Qden] in Hq.
  assert (0 < 2 ^ 1074) as Hu by (apply Z.pow_pos_nonneg; lia).
  destruct (Z.ltb_spec (Qnum q) 0).
  - assert (0 <= round_units (Z.abs (Qnum q) * 2 ^ 1074) (Z.pos (Qden q))) by (apply round_units_nonneg; [apply Z.mul_nonneg_nonneg|]; lia).
    assert (0 <= j * 2 ^ 1074) by nia. lia.
  - rewrite Z.abs_eq by done. apply round_units_le; [lia|lia|nia].
Qed.

(** The two readings of one literal agree on which side of such an
    integer it lies. *)
Lemma numberOf_round v q f : ratOf v = Some q → numberOf v = Some f → (q == 0 ∧ f == 0 ∨ f = round64 q)%Q.
Proof.
  destruct v as [| |lit| | |]; try done. cbn. unfold rat_literal, float_literal.
  destruct (literal_parts lit) as [[N E]|]; [|done]. cbn [mbind option_bind fst snd]. intros Hq Hf.
  destruct (2 ^ 1024 * 2 ^ 1074 <=? _) in Hf; [done|]. destruct (Z.eqb_spec N 0) as [->|].
  - left. simplify_eq. split; [done|]. unfold scaled_by. destruct (0 <=? E); [|by vm_compute]. by rewrite Z.mul_0_l.
  - right. destruct (1000000 <? Z.abs E); [done|]. by simplify_eq.
Qed.

Lemma numberOf_ge v q f j :
  ratOf v = Some q → numberOf v = Some f → 0 <= j <= 2 ^ 53 → (inject_Z j <= q)%Q → (inject_Z j <= f)%Q.
Proof. intros Hq Hf Hj Hle. destruct (numberOf_round v q f Hq Hf) as [[Eq ->]| ->]; [by rewrite <-Eq|by apply round64_ge]. Qed.

Lemma numberOf_le v q f j :
  ratOf v = Some q → numberOf v = Some f → 0 <= j <= 2 ^ 53 → (q <= inject_Z j)%Q → (f <= inject_Z j)%Q.
Proof. intros Hq Hf Hj Hle. destruct (numberOf_round v q f Hq Hf) as [[Eq ->]| ->]; [by rewrite <-Eq|by apply round64_le]. Qed.

Lemma numberOf_int v j f :
  (∃ q, ratOf v = Some q ∧ q == inject_Z j)%Q → numberOf v = Some f → 0 <= j <= 2 ^ 53 → (f == inject_Z j)%Q.
Proof.
  intros (q & Hq & Eq) Hf Hj. apply Qle_antisym; [eapply numberOf_le|eapply numberOf_ge]; eauto; rewrite Eq; apply Qle_refl.
Qed.

(** A literal [math/big] refuses renders as its own text, yet is not
    [jsonEqual] to itself. *)
Example unreadable_literal :
  let v := JNumber "1e2000000" in jsonEqual v v = false ∧ canonicalJSON v = [LPunct "#"%char; LLiteral "1e2000000"].
Proof. by vm_compute. Qed.
