(* ===== verification/SchemaCompat.v ===== *)
(** * The schema compatibility check

    [internal/platform/schema/compatibility.go]: [checkCompatible] and the
    [compatChecker] behind it.  A decoded document is a [json] value; a
    Go map's identity ([mapID]) is the place it was decoded at, so a
    subschema is a value together with its location.  The checker's memo
    tables, its step budget and its [fatal] latch are explicit state; an
    [error] is [false], its text is not modelled.  [check] recurses on
    the nesting it may still descend ([maxCompatDepth] less [depth]).

    Regular expressions are a parameter: [rx p] is [None] when the pattern
    does not compile and its match predicate otherwise. *)

From S2P Require Import Prelude Decimal Keys Json SchemaValue.
Import Dec.
Open Scope Z_scope.

(** ** Documents *)

(** A location: the keys and indices from the root. *)
Abbreviation loc := (list (string + nat)).

(** A subschema; [at_] is [None] for a map the checker makes itself. *)
Record sub := Sub { at_ : option loc; val : json }.

Definition root_of (root : json) : sub := Sub (Some []) root.

Definition fields (s : sub) : list (string * json) := match val s with JObject m => m | _ => [] end.

Definition key_child (s : sub) (k : string) (v : json) : sub := Sub ((λ l, l ++ [inl k]) <$> at_ s) v.
Definition idx_child (s : sub) (i : nat) (v : json) : sub := Sub ((λ l, l ++ [inr i]) <$> at_ s) v.

(** [obj\[k\]]. *)
Definition sub_get (s : sub) (k : string) : option sub := key_child s k <$> obj_get k (fields s).

(** The elements of an array. *)
Definition elements_of (s : sub) : list sub := match val s with JArray l => imap (idx_child s) l | _ => [] end.

(** An interface value: nil when the key is absent. *)
Definition any (o : option sub) : json := from_option val JNull o.

Definition has (s : sub) (k : string) : bool := bool_decide (k ∈ (fields s).*1).

Definition pairKey : Type := loc * loc.

(** [mapID]. *)
Definition mapID (s : sub) : option loc := match val s with JObject _ => at_ s | _ => None end.

Definition isRootObject (s : sub) : bool := bool_decide (mapID s = Some []).

Definition sort_names (l : list string) : list string := merge_sort String.le l.

(** ** Keyword tables *)

Definition maxCompatDepth : nat := 64.
Definition maxCompatSteps : Z := 100000.

Definition annotationKeywords : list string :=
  ["title"; "description"; "default"; "examples"; "$comment"; "deprecated"; "readOnly"; "writeOnly";
   "$defs"; "definitions"; "$anchor"]%string.

Definition droppableKeywords : list string :=
  ["oneOf"; "not"; "if"; "then"; "else"; "contains"; "propertyNames"; "dependentRequired"; "dependentSchemas";
   "dependencies"]%string.

Definition unsupportedInNext : list string :=
  ["unevaluatedProperties"; "unevaluatedItems"; "$dynamicRef"; "$dynamicAnchor"; "$recursiveRef";
   "$recursiveAnchor"]%string.

Definition isin (k : string) (l : list string) : bool := bool_decide (k ∈ l).

Definition defaultDraftURL : string := "https://json-schema.org/draft/2020-12/schema".

(** [strings.TrimSuffix(s, "#")] of the [$schema] value. *)
Definition draftOf (v : json) : string :=
  match v with
  | JString s =>
      match reverse (chars s) with
      | [] => defaultDraftURL
      | c :: r => if decide (c = "#"%char) then text (reverse r) else s
      end
  | _ => defaultDraftURL
  end.

Definition ignoredByDraft (draft : string) : list string :=
  let d4 := ["const"; "contains"; "propertyNames"]%string in
  let d6 := ["if"; "then"; "else"]%string in
  let d7 := ["minContains"; "maxContains"; "dependentRequired"; "dependentSchemas"; "unevaluatedItems";
             "unevaluatedProperties"; "$recursiveRef"; "$recursiveAnchor"]%string in
  let d19 := ["prefixItems"; "$dynamicRef"; "$dynamicAnchor"]%string in
  if decide (draft = "http://json-schema.org/draft-04/schema"%string) then d4 ++ d6 ++ d7 ++ d19
  else if decide (draft = "http://json-schema.org/draft-06/schema"%string) then d6 ++ d7 ++ d19
  else if decide (draft = "http://json-schema.org/draft-07/schema"%string) then d7 ++ d19
  else if decide (draft = "https://json-schema.org/draft/2019-09/schema"%string) then d19
  else ["additionalItems"%string].

(** The draft a document is read under. *)
Definition root_draft (root : json) : string :=
  match root with JObject _ => draftOf (any (sub_get (root_of root) "$schema")) | _ => defaultDraftURL end.

(** ** References *)

Definition hex_digit (c : ascii) : option Z :=
  let n := byte_val c in
  if (48 <=? n) && (n <=? 57) then Some (n - 48)
  else if (97 <=? n) && (n <=? 102) then Some (n - 87)
  else if (65 <=? n) && (n <=? 70) then Some (n - 55) else None.

(** [url.PathUnescape]. *)
Fixpoint PathUnescape (s : bytes) : option bytes :=
  match s with
  | [] => Some []
  | c :: r =>
      if decide (c = "%"%char) then
        match r with
        | a :: b :: r => x ← hex_digit a; y ← hex_digit b; t ← PathUnescape r; Some (byte_of (x * 16 + y) :: t)
        | _ => None
        end
      else t ← PathUnescape r; Some (c :: t)
  end.

(** [strings.Split(s, "/")]: at least one piece. *)
Fixpoint split_slash (s : bytes) : list bytes :=
  match s with
  | [] => [[]]
  | c :: r =>
      if decide (c = "/"%char) then [] :: split_slash r
      else match split_slash r with t :: ts => (c :: t) :: ts | [] => [[c]] end
  end.

(** [strings.ReplaceAll(s, "~d", to)]. *)
Fixpoint replace_tilde (d to : ascii) (s : bytes) : bytes :=
  match s with
  | a :: ((b :: r) as s') =>
      if decide (a = "~"%char ∧ b = d) then to :: replace_tilde d to r else a :: replace_tilde d to s'
  | _ => s
  end.

Definition unescape_token (t : bytes) : string :=
  text (replace_tilde "0"%char "~"%char (replace_tilde "1"%char "/"%char t)).

Definition descend (cur : sub) (tok : string) : option sub :=
  match val cur with
  | JObject _ => sub_get cur tok
  | JArray l => i ← atoi tok; if i <? 0 then None else idx_child cur (Z.to_nat i) <$> l !! Z.to_nat i
  | _ => None
  end.

Fixpoint descend_all (cur : sub) (toks : list string) : option sub :=
  match toks with [] => Some cur | t :: toks => cur ← descend cur t; descend_all cur toks end.

Definition resolvePointer (root : json) (ref : string) : option sub :=
  match chars ref with
  | ["#"%char] => Some (root_of root)
  | "#"%char :: "/"%char :: r =>
      frag ← PathUnescape r; descend_all (root_of root) (unescape_token <$> split_slash frag)
  | _ => None
  end.

(** What may sit beside a [$ref]. *)
Definition ref_sibling_ok (obj : sub) (k : string) : bool :=
  isin k ("$ref" :: "$schema" :: annotationKeywords)%string || (bool_decide (k = "$id"%string) && isRootObject obj).

Definition false_schema : sub := Sub None (JBool false).

(** The loop of [resolve]; [hops] rounds are left. *)
Fixpoint resolve_from (hops : nat) (root : json) (seen : gset loc) (v : sub) : option sub :=
  match hops with
  | O => None
  | S hops =>
      match sub_get v "$ref" with
      | None => Some v
      | Some ref =>
          if bool_decide (default [] (mapID v) ∈ seen) then Some false_schema
          else if negb (forallb (ref_sibling_ok v) (fields v).*1) then None
          else match val ref with
               | JString s => t ← resolvePointer root s; resolve_from hops root ({[default [] (mapID v)]} ∪ seen) t
               | _ => None
               end
      end
  end.

Definition resolve (v : sub) (root : json) : option sub := resolve_from (S maxCompatDepth) root ∅ v.

(** [schemaObject]: [None] is [!ok], [Some None] the nil map of [false]. *)
Definition schemaObject (s : sub) : option (option sub) :=
  match val s with
  | JObject _ => Some (Some s)
  | JBool true => Some (Some (Sub None (JObject [])))
  | JBool false => Some None
  | _ => None
  end.

(** ** Value keywords *)

Definition is_true (v : json) : bool := match v with JBool true => true | _ => false end.
Definition is_false (v : json) : bool := match v with JBool false => true | _ => false end.

Fixpoint all_strings (l : list json) : option (list string) :=
  match l with
  | [] => Some []
  | JString s :: l => rest ← all_strings l; Some (s :: rest)
  | _ => None
  end.

(** [typeSet]: [None] is an error, [Some None] the nil set. *)
Definition typeSet (v : json) : option (option (list string)) :=
  match v with
  | JNull => Some None
  | JString t => Some (Some [t])
  | JArray l => Some <$> all_strings l
  | _ => None
  end.

Definition checkType (pv nv : json) : bool :=
  match typeSet nv with
  | None => false
  | Some None => true
  | Some (Some newTypes) =>
      match typeSet pv with
      | Some (Some oldTypes) =>
          forallb (λ t, isin t newTypes || (bool_decide (t = "integer"%string) && isin "number" newTypes)) oldTypes
      | _ => false
      end
  end.

(** [valueSet]: [None] is an error, [Some None] no constraint. *)
Definition valueSet (obj : sub) (ignoreConst : bool) : option (option (list json)) :=
  let const := if ignoreConst then None else sub_get obj "const" in
  match const, sub_get obj "enum" with
  | None, None => Some None
  | Some cv, None => Some (Some [val cv])
  | None, Some ev => match val ev with JArray l => Some (Some l) | _ => None end
  | Some cv, Some ev =>
      match val ev with
      | JArray l => Some (Some (if existsb (λ v, jsonEqual v (val cv)) l then [val cv] else []))
      | _ => None
      end
  end.

#[global] Instance lexeme_eq_dec : EqDecision lexeme.
Proof. solve_decision. Defined.

Definition checkEnumConst (ignoreConst : bool) (prevObj nextObj : sub) : bool :=
  match valueSet nextObj ignoreConst with
  | None => false
  | Some None => true
  | Some (Some newValues) =>
      match valueSet prevObj ignoreConst with
      | Some (Some oldValues) =>
          let index := canonicalJSON <$> newValues in
          forallb (λ ov, bool_decide (canonicalJSON ov ∈ index)) oldValues
      | _ => false
      end
  end.

(** A bound: its value and whether it is exclusive. *)
Record bound := Bound { b_value : Q; b_exclusive : bool }.

(** [foldBound]; [tighter] is the comparison that means tighter.  [None]
    is an error, [Some None] an unset bound. *)
Definition foldBound (obj : sub) (inclusiveKey exclusiveKey : string) (tighter : comparison) : option (option bound) :=
  out ← match sub_get obj inclusiveKey with
        | None => Some None
        | Some raw => v ← ratOf (val raw); Some (Some (Bound v false))
        end;
  match sub_get obj exclusiveKey with
  | None => Some out
  | Some raw =>
      v ← ratOf (val raw);
      Some (match out with
            | None => Some (Bound v true)
            | Some b => match Qcompare v (b_value b) with
                        | Eq => Some (Bound v true)
                        | c => if decide (c = tighter) then Some (Bound v true) else Some b
                        end
            end)
  end.

Definition lowerBound (obj : sub) : option (option bound) := foldBound obj "minimum" "exclusiveMinimum" Gt.
Definition upperBound (obj : sub) : option (option bound) := foldBound obj "maximum" "exclusiveMaximum" Lt.

Definition looserOrEqual (p n : bound) (looser : comparison) : bool :=
  match Qcompare (b_value n) (b_value p) with
  | Eq => negb (b_exclusive n) || b_exclusive p
  | c => bool_decide (c = looser)
  end.

Definition checkBound (fold : sub → option (option bound)) (looser : comparison) (prevObj nextObj : sub) : bool :=
  match fold nextObj with
  | None => false
  | Some None => true
  | Some (Some n) => match fold prevObj with Some (Some p) => looserOrEqual p n looser | _ => false end
  end.

Definition checkNumericBounds (prevObj nextObj : sub) : bool :=
  checkBound lowerBound Lt prevObj nextObj && checkBound upperBound Gt prevObj nextObj.

(** [Rat.IsInt]. *)
Definition is_int (q : Q) : bool := Qnum q mod Z.pos (Qden q) =? 0.

Definition positive_rat (v : json) : option Q := q ← ratOf v; if 0 <? Qnum q then Some q else None.

Definition checkMultipleOf (pv nv : json) : bool :=
  match nv with
  | JNull => true
  | _ =>
      match positive_rat nv with
      | None => false
      | Some n => match positive_rat pv with Some p => is_int (p / n) | None => false end
      end
  end.

(** An absent length keyword reads as its default. *)
Definition length_of (absent : Q) (v : option sub) : option Q := from_option (λ s, numberOf (val s)) (Some absent) v.

Definition checkLengthMin (pv nv : option sub) (absentDefault : Q) : bool :=
  match length_of absentDefault nv, length_of absentDefault pv with
  | Some n, Some p => Qle_bool n p
  | _, _ => false
  end.

Definition checkLengthMax (pv nv : option sub) : bool :=
  match nv with
  | None => true
  | Some nv => match numberOf (val nv), from_option (λ s, numberOf (val s)) None pv with
               | Some n, Some p => Qle_bool p n
               | _, _ => false
               end
  end.

Definition stringSet (v : json) : option (list string) :=
  match v with JNull => Some [] | JArray l => all_strings l | _ => None end.

Definition checkRequired (pv nv : json) : bool :=
  match stringSet nv, stringSet pv with
  | Some newReq, Some oldReq => forallb (λ name, isin name oldReq) newReq
  | _, _ => false
  end.

(** [pattern] and [format]: identical or dropped. *)
Definition checkIdentical (pv nv : option sub) : bool :=
  match nv, pv with
  | None, _ => true
  | Some n, Some p => jsonEqual (val p) (val n)
  | Some _, None => false
  end.

Definition checkUniqueItems (pv nv : json) : bool := negb (is_true nv) || is_true pv.

Definition constrainsAdditional (obj : sub) : bool :=
  match sub_get obj "additionalProperties" with None => false | Some ap => negb (is_true (val ap)) end.

Definition propertyMap (v : option sub) : option sub :=
  match any v with JNull => Some (Sub None (JObject [])) | JObject _ => v | _ => None end.

(** [branches]. *)
Definition branches (v : sub) : option (list sub) := match val v with JArray _ => Some (elements_of v) | _ => None end.

(** The kinds of keyword [checkNode] tells apart. *)
Inductive keyword_kind :=
| Grouped | KSchema | KId | KType | KMultipleOf | KLengthMin (absent : Q) | KLengthMax | KIdentical | KUnique
| KRequired | KProperties | KAdditional | KItems | KAnyOf | KAllOf | KPatternProps | KPrefixItems | KAnnotation
| KOpaque (droppable : bool).

Definition classify (k : string) : keyword_kind :=
  if isin k ["minimum"; "exclusiveMinimum"; "maximum"; "exclusiveMaximum"; "enum"; "const"]%string then Grouped
  else if decide (k = "$schema"%string) then KSchema
  else if decide (k = "$id"%string) then KId
  else if decide (k = "type"%string) then KType
  else if decide (k = "multipleOf"%string) then KMultipleOf
  else if isin k ["minLength"; "minItems"; "minProperties"]%string then KLengthMin 0
  else if decide (k = "minContains"%string) then KLengthMin 1
  else if isin k ["maxLength"; "maxItems"; "maxProperties"; "maxContains"]%string then KLengthMax
  else if isin k ["pattern"; "format"]%string then KIdentical
  else if decide (k = "uniqueItems"%string) then KUnique
  else if decide (k = "required"%string) then KRequired
  else if decide (k = "properties"%string) then KProperties
  else if decide (k = "additionalProperties"%string) then KAdditional
  else if decide (k = "items"%string) then KItems
  else if decide (k = "anyOf"%string) then KAnyOf
  else if decide (k = "allOf"%string) then KAllOf
  else if decide (k = "patternProperties"%string) then KPatternProps
  else if decide (k = "prefixItems"%string) then KPrefixItems
  else if isin k annotationKeywords then KAnnotation
  else KOpaque (isin k droppableKeywords).

(** ** The checker *)

(** The mutable half of [compatChecker].  [gaps] is not in the code: it
    records the property names let through by the open-model exception. *)
Record checker := Checker {
  inProgress : gset pairKey;
  passed : gset pairKey;
  failed : gset pairKey;
  assumptions : list pairKey;
  steps : Z;
  fatal : bool;
  gaps : gset string;
}.

Definition newChecker : checker := Checker ∅ ∅ ∅ [] 0 false ∅.

Definition with_steps (n : Z) (c : checker) : checker :=
  Checker (inProgress c) (passed c) (failed c) (assumptions c) n (fatal c) (gaps c).
Definition give_up_check (c : checker) : checker :=
  Checker (inProgress c) (passed c) (failed c) (assumptions c) (steps c) true (gaps c).
Definition assume_pair (k : pairKey) (c : checker) : checker :=
  Checker (inProgress c) (passed c) (failed c) (assumptions c ++ [k]) (steps c) (fatal c) (gaps c).
Definition enter_pair (k : pairKey) (c : checker) : checker :=
  Checker ({[k]} ∪ inProgress c) (passed c) (failed c) (assumptions c) (steps c) (fatal c) (gaps c).
Definition note_gap (name : string) (c : checker) : checker :=
  Checker (inProgress c) (passed c) (failed c) (assumptions c) (steps c) (fatal c) ({[name]} ∪ gaps c).

(** The comparison of a pair failed: its assumptions no longer matter. *)
Definition leave_failed (k : pairKey) (mark : nat) (c : checker) : checker :=
  Checker (inProgress c ∖ {[k]}) (passed c) (if fatal c then failed c else {[k]} ∪ failed c)
    (take mark (assumptions c)) (steps c) (fatal c) (gaps c).

(** The assumptions about other pairs. *)
Definition others (k : pairKey) (l : list pairKey) : list pairKey := filter (λ a, a ≠ k) l.

(** It succeeded: assumptions about the pair itself are discharged. *)
Definition leave_passed (k : pairKey) (mark : nat) (c : checker) : checker :=
  let kept := take mark (assumptions c) ++ others k (drop mark (assumptions c)) in
  Checker (inProgress c ∖ {[k]}) (if (length kept =? mark)%nat then {[k]} ∪ passed c else passed c) (failed c) kept
    (steps c) (fatal c) (gaps c).

(** A comparison: [true] is a nil error. *)
Definition comparison_run : Type := checker → bool * checker.

Definition answer (b : bool) : comparison_run := λ c, (b, c).

(** Both, stopping at the first error. *)
Definition both (a b : comparison_run) : comparison_run := λ c, match a c with (true, c) => b c | r => r end.

(** The second only when the first fails. *)
Definition either (a b : comparison_run) : comparison_run := λ c, match a c with (false, c) => b c | r => r end.

Definition every {A} (f : A → comparison_run) (l : list A) : comparison_run := foldr (λ x r, both (f x) r) (answer true) l.

(** [slices.ContainsFunc]. *)
Definition some {A} (f : A → comparison_run) (l : list A) : comparison_run := foldr (λ x r, either (f x) r) (answer false) l.

Section checker.
Context (rx : string → option (string → bool)).
Context (prevRoot nextRoot : json).
Context (ignored : string → bool).

(** [equalResolvedAt]; [fuel] is the nesting left, so zero is
    [depth > maxCompatDepth]. *)
Fixpoint equalResolvedAt (fuel : nat) (a b : sub) (seen : gset pairKey) : bool * gset pairKey :=
  match fuel with
  | O => (false, seen)
  | S fuel =>
      match val a, val b with
      | JObject av, JObject bv =>
          if negb (length av =? length bv)%nat then (false, seen) else
          let key := (default [] (mapID a), default [] (mapID b)) in
          if bool_decide (key ∈ seen) then (true, seen) else
          let seen := {[key]} ∪ seen in
          let '(ok, seen) :=
            foldl (λ r k, if (r : bool * gset pairKey).1 then
                            match sub_get a k, sub_get b k with
                            | Some x, Some y => equalResolvedAt fuel x y r.2
                            | _, _ => (false, r.2)
                            end else r) (true, seen) av.*1 in
          foldl (λ r k, if (r : bool * gset pairKey).1 then
                          match any (sub_get a k) with
                          | JString ref =>
                              match resolvePointer prevRoot ref, resolvePointer nextRoot ref with
                              | Some ta, Some tb => equalResolvedAt fuel ta tb r.2
                              | _, _ => (false, r.2)
                              end
                          | _ => (true, r.2)
                          end else r) (ok, seen) ["$ref"; "$dynamicRef"; "$recursiveRef"]%string
      | JArray av, JArray bv =>
          if negb (length av =? length bv)%nat then (false, seen) else
          foldl (λ r xy, if (r : bool * gset pairKey).1 then equalResolvedAt fuel xy.1 xy.2 r.2 else r) (true, seen)
            (zip (elements_of a) (elements_of b))
      | x, y => (jsonEqual x y, seen)
      end
  end.

Definition equalResolved (a b : sub) : bool := (equalResolvedAt (S maxCompatDepth) a b ∅).1.

Definition checkOpaque (pv nv : option sub) (droppable : bool) : bool :=
  match nv, pv with
  | None, None => true
  | None, Some _ => droppable
  | Some n, Some p => equalResolved p n
  | Some _, None => false
  end.

Definition constrains (obj : sub) : bool :=
  existsb (λ k, negb (isin k ("$schema" :: "$id" :: annotationKeywords)%string || ignored k)) (fields obj).*1.

(** The entries of [patternProperties] whose pattern matches [name], in
    pattern order; [None] when a pattern does not compile. *)
Definition matchingPatternSchemas (obj : sub) (name : string) : option (list sub) :=
  match sub_get obj "patternProperties" with
  | Some pp =>
      foldr (λ p out, out ← out; m ← rx p;
                      Some (if (m : string → bool) name then from_option (λ s, s :: out) out (sub_get pp p) else out))
        (Some []) (sort_names (fields pp).*1)
  | None => Some []
  end.

Section node.
(** The comparison of a child subschema, one level deeper. *)
Context (chk : sub → sub → comparison_run).

Definition checkNewProperty (prevObj : sub) (name : string) (np : sub) : comparison_run :=
  match matchingPatternSchemas prevObj name with
  | None => answer false
  | Some [] =>
      match sub_get prevObj "additionalProperties" with
      | Some ap =>
          match val ap with
          | JObject _ => chk ap np
          | JBool false => answer true
          | _ => λ c, (true, note_gap name c)
          end
      | None => λ c, (true, note_gap name c)
      end
  | Some matched => some (λ m, chk m np) matched
  end.

Definition checkProperties (prevObj nextObj : sub) : comparison_run :=
  match propertyMap (sub_get prevObj "properties"), propertyMap (sub_get nextObj "properties") with
  | Some prevProps, Some nextProps =>
      let names := sort_names ((fields prevProps).*1 ++
                     filter (λ n, negb (has prevProps n)) (fields nextProps).*1) in
      every (λ name, match sub_get prevProps name, sub_get nextProps name with
                     | Some _, None => answer false
                     | Some pp, Some np => chk pp np
                     | None, Some np => checkNewProperty prevObj name np
                     | None, None => answer true
                     end) names
  | _, _ => answer false
  end.

Definition checkAdditionalProperties (pv nv : option sub) : comparison_run :=
  match nv with
  | None => answer true
  | Some n =>
      match val n with
      | JBool true => answer true
      | JBool false => answer (is_false (any pv))
      | JObject _ =>
          match pv with
          | Some p => match val p with
                      | JBool false => answer true
                      | JObject _ => chk p n
                      | _ => answer false
                      end
          | None => answer false
          end
      | _ => answer false
      end
  end.

Definition is_tuple (s : sub) : bool := match val s with JArray _ => true | _ => false end.

Definition checkItems (pv nv : option sub) : comparison_run :=
  match nv, pv with
  | None, _ => answer true
  | Some n, Some p => if is_tuple n || is_tuple p then answer false else chk p n
  | Some _, None => answer false
  end.

Definition checkAnyOf (pv nv : option sub) : comparison_run :=
  match nv, pv with
  | None, _ => answer true
  | Some n, Some p =>
      match branches n, branches p with
      | Some newBranches, Some oldBranches => every (λ ob, some (λ nb, chk ob nb) newBranches) oldBranches
      | _, _ => answer false
      end
  | Some _, None => answer false
  end.

Definition checkAllOf (pv nv : option sub) : comparison_run :=
  match nv, pv with
  | None, _ => answer true
  | Some n, Some p =>
      match branches n, branches p with
      | Some newBranches, Some oldBranches => every (λ nb, some (λ ob, chk ob nb) oldBranches) newBranches
      | _, _ => answer false
      end
  | Some _, None => answer false
  end.

(** One round of the loop over the keywords. *)
Definition checkKeyword (prevObj nextObj : sub) (k : string) : comparison_run :=
  let pv := sub_get prevObj k in
  let nv := sub_get nextObj k in
  if ignored k then answer true else
  match classify k with
  | Grouped | KAnnotation => answer true
  | KSchema => answer (bool_decide (draftOf (any pv) = draftOf (any nv)))
  | KId => answer (isRootObject prevObj && isRootObject nextObj)
  | KType => answer (checkType (any pv) (any nv))
  | KMultipleOf => answer (checkMultipleOf (any pv) (any nv))
  | KLengthMin d => answer (checkLengthMin pv nv d)
  | KLengthMax => answer (checkLengthMax pv nv)
  | KIdentical => answer (checkIdentical pv nv)
  | KUnique => answer (checkUniqueItems (any pv) (any nv))
  | KRequired => answer (checkRequired (any pv) (any nv))
  | KProperties => checkProperties prevObj nextObj
  | KAdditional => checkAdditionalProperties pv nv
  | KItems => checkItems pv nv
  | KAnyOf => checkAnyOf pv nv
  | KAllOf => checkAllOf pv nv
  | KPatternProps => answer (checkOpaque pv nv (negb (constrainsAdditional nextObj)))
  | KPrefixItems => answer (checkOpaque pv nv (negb (has nextObj "items")))
  | KOpaque droppable => answer (checkOpaque pv nv droppable)
  end.

Definition node_keys (prevObj nextObj : sub) : list string :=
  sort_names ((fields prevObj).*1 ++ filter (λ k, negb (has prevObj k)) (fields nextObj).*1).

(** [checkNode]; [nested] is [path != ""]. *)
Definition checkNode (nested : bool) (prev next : sub) : comparison_run :=
  match schemaObject prev, schemaObject next with
  | Some None, _ => answer true
  | _, Some None => answer false
  | None, _ | _, None => answer false
  | Some (Some prevObj), Some (Some nextObj) =>
      if existsb (λ k, isin k unsupportedInNext && negb (ignored k)) (fields nextObj).*1
      then answer (equalResolved prevObj nextObj)
      else if nested && negb (constrains nextObj) then answer true
      else if negb (checkNumericBounds prevObj nextObj) then answer false
      else if negb (checkEnumConst (ignored "const") prevObj nextObj) then answer false
      else every (checkKeyword prevObj nextObj) (node_keys prevObj nextObj)
  end.
End node.

(** [check]; [fuel] is [maxCompatDepth + 1 - depth]. *)
Fixpoint check (fuel : nat) (nested : bool) (prev next : sub) (c : checker) {struct fuel} : bool * checker :=
  if fatal c then (false, c) else
  let c := with_steps (steps c + 1) c in
  if maxCompatSteps <? steps c then (false, give_up_check c) else
  match fuel with
  | O => (false, give_up_check c)
  | S fuel =>
      match resolve prev prevRoot, resolve next nextRoot with
      | Some prev, Some next =>
          let node := checkNode (check fuel true) nested prev next in
          match mapID prev, mapID next with
          | Some pid, Some nid =>
              let key := (pid, nid) in
              if bool_decide (key ∈ inProgress c) then (true, assume_pair key c)
              else if bool_decide (key ∈ failed c) then (false, c)
              else if bool_decide (key ∈ passed c) then (true, c)
              else let mark := length (assumptions c) in
                   match node (enter_pair key c) with
                   | (false, c) => (false, leave_failed key mark c)
                   | (true, c) => (true, leave_passed key mark c)
                   end
          | _, _ => node c
          end
      | _, _ => (false, c)
      end
  end.
End checker.

(** [checkCompatible] on decoded documents: the verdict, and the names the
    open-model exception let through. *)
Definition compatible (rx : string → option (string → bool)) (prev next : json) : bool * gset string :=
  let r := check rx prev next (λ k, isin k (ignoredByDraft (root_draft prev))) (S maxCompatDepth) false
             (root_of prev) (root_of next) newChecker in
  (r.1, gaps r.2).

Definition checkCompatible (unmarshal : string → option json) (rx : string → option (string → bool))
    (prevRaw nextRaw : string) : bool * gset string :=
  match unmarshal prevRaw, unmarshal nextRaw with
  | Some prev, Some next => compatible rx prev next
  | _, _ => (false, ∅)
  end.
