(* ===== verification/SchemaSpec.v ===== *)
(** * What a schema accepts

    The specification [internal/platform/schema/compatibility.go] is
    checked against: the validation semantics of JSON Schema (drafts 04 to
    2020-12) as an executable evaluator.  [eval n s x] is the verdict of
    subschema [s] on the instance [x] with [n] subschema applications to
    spend; [None] is no verdict: an application that does not end, a
    keyword of a shape no schema compiler accepts, or a keyword outside
    the vocabulary (the unevaluated and dynamic ones, tuple-form items).  A
    subschema accepts an instance when some number of applications gives
    [Some true]; a document [validates] an instance when its root does and
    the evaluator speaks for it: the document names one of the drafts under
    the name the code knows it by, and no object inside it has an identifier
    of its own, which would move the base its references are read against.

    The regular expressions and the formats are parameters, as they are
    for the validator. *)

From S2P Require Import Prelude Decimal Keys Json SchemaValue SchemaCompat.
Open Scope Z_scope.

Abbreviation verdict := (option bool).

(** A conjunction needs every verdict. *)
Definition v_all (l : list verdict) : verdict :=
  foldr (λ v acc, match v, acc with Some a, Some b => Some (a && b) | _, _ => None end) (Some true) l.

(** A disjunction is true once one branch is. *)
Definition v_any (l : list verdict) : verdict :=
  if existsb (λ v, bool_decide (v = Some true)) l then Some true
  else if forallb (λ v, bool_decide (is_Some v)) l then Some false else None.

(** How many are true, when every one has a verdict. *)
Definition v_count (l : list verdict) : option nat :=
  foldr (λ v acc, match v, acc with Some b, Some n => Some (if b : bool then S n else n) | _, _ => None end) (Some 0%nat) l.

Definition v_not (v : verdict) : verdict := negb <$> v.

Fixpoint rune_count (fuel : nat) (s : bytes) : Z :=
  match fuel, s with S fuel, c :: r => 1 + rune_count fuel (decode_rune c r).2 | _, _ => 0 end.

(** The size the length keywords measure. *)
Definition string_length (x : json) : option Z :=
  match x with JString s => Some (rune_count (length (chars s)) (chars s)) | _ => None end.
Definition array_length (x : json) : option Z := match x with JArray l => Some (Z.of_nat (length l)) | _ => None end.
Definition object_length (x : json) : option Z := match x with JObject m => Some (Z.of_nat (length m)) | _ => None end.

Definition has_type (x : json) (t : string) : bool :=
  match x with
  | JNull => bool_decide (t = "null"%string)
  | JBool _ => bool_decide (t = "boolean"%string)
  | JString _ => bool_decide (t = "string"%string)
  | JArray _ => bool_decide (t = "array"%string)
  | JObject _ => bool_decide (t = "object"%string)
  | JNumber _ =>
      bool_decide (t = "number"%string) || (bool_decide (t = "integer"%string) && from_option is_int false (ratOf x))
  end.

(** The members of an object, the elements of an array. *)
Definition members (x : json) : list (string * json) := match x with JObject m => m | _ => [] end.
Definition array_items (x : json) : list json := match x with JArray l => l | _ => [] end.

Fixpoint all_differ (l : list json) : bool :=
  match l with [] => true | x :: l => negb (existsb (jsonEqual x) l) && all_differ l end.

Definition has_names (x : json) (names : list string) : bool := forallb (λ n, bool_decide (n ∈ (members x).*1)) names.

(** The drafts under the names the code knows them by. *)
Definition known_drafts : list string :=
  ["http://json-schema.org/draft-04/schema"; "http://json-schema.org/draft-06/schema"; "http://json-schema.org/draft-07/schema";
   "https://json-schema.org/draft/2019-09/schema"; defaultDraftURL]%string.

(** An object in the document names itself, by [$id] or draft-04's [id]:
    references in it may be read against it. *)
Fixpoint identified (v : json) : bool :=
  match v with
  | JObject m =>
      existsb (λ kv, match kv.2 with JString _ => isin kv.1 ["$id"; "id"]%string | _ => false end) m
      || existsb (λ kv, identified kv.2) m
  | JArray l => existsb identified l
  | _ => false
  end.

(** No object below the root does: every reference is read against the
    root. *)
Definition one_resource (root : json) : bool :=
  match root with JObject m => forallb (λ kv, negb (identified kv.2)) m | _ => true end.

Section semantics.
Context (rx : string → option (string → bool)) (fmt : string → json → bool).
Context (root : json).

Definition unapplied (k : string) : bool := isin k (ignoredByDraft (root_draft root)).

(** Up to draft-07 a [$ref] hides its siblings. *)
Definition ref_alone : bool :=
  isin (root_draft root) ["http://json-schema.org/draft-04/schema"; "http://json-schema.org/draft-06/schema";
                          "http://json-schema.org/draft-07/schema"]%string.

Definition kw (s : sub) (k : string) : option sub := if unapplied k then None else sub_get s k.

Definition on (s : sub) (k : string) (f : sub → verdict) : verdict := from_option f (Some true) (kw s k).

Definition outside (s : sub) : bool :=
  existsb (λ k, isin k unsupportedInNext && negb (unapplied k)) (fields s).*1 ||
  (has s "$id" && negb (isRootObject s) && constrains unapplied s).

(** *** Keywords that judge a value *)

Definition ok_type (x : json) (v : sub) : verdict :=
  match typeSet (val v) with
  | None => None
  | Some None => Some true
  | Some (Some ts) => Some (existsb (has_type x) ts)
  end.

Definition ok_enum (x : json) (v : sub) : verdict :=
  match val v with JArray l => Some (existsb (jsonEqual x) l) | _ => None end.

Definition ok_const (x : json) (v : sub) : verdict := Some (jsonEqual x (val v)).

(** A comparison of the instance with a number keyword; other instances pass. *)
Definition ok_number (x : json) (rel : Q → Q → bool) (v : sub) : verdict :=
  match x with
  | JNumber _ => match ratOf x, ratOf (val v) with Some q, Some b => Some (rel b q) | _, _ => None end
  | _ => Some true
  end.

Definition ok_multiple (x : json) (v : sub) : verdict :=
  match x, val v with
  | JNumber _, JNull => Some true
  | JNumber _, _ => match ratOf x, positive_rat (val v) with Some q, Some m => Some (is_int (q / m)) | _, _ => None end
  | _, _ => Some true
  end.

Definition ok_length (len : option Z) (rel : Q → Q → bool) (v : sub) : verdict :=
  match len with
  | Some n => match ratOf (val v) with Some b => Some (rel b (inject_Z n)) | None => None end
  | None => Some true
  end.

Definition at_least (b q : Q) : bool := Qle_bool b q.
Definition at_most (b q : Q) : bool := Qle_bool q b.
Definition above (b q : Q) : bool := negb (Qle_bool q b).
Definition below (b q : Q) : bool := negb (Qle_bool b q).

Definition ok_pattern (x : json) (v : sub) : verdict :=
  match x with
  | JString s => match val v with JString p => (λ m : string → bool, m s) <$> rx p | _ => None end
  | _ => Some true
  end.

Definition ok_format (x : json) (v : sub) : verdict := match val v with JString f => Some (fmt f x) | _ => None end.

Definition ok_unique (x : json) (v : sub) : verdict := Some (negb (is_true (val v)) || all_differ (array_items x)).

Definition ok_required (x : json) (v : sub) : verdict :=
  match x with JObject _ => has_names x <$> stringSet (val v) | _ => Some true end.

Definition value_keywords (s : sub) (x : json) : list verdict :=
  [on s "type" (ok_type x); on s "enum" (ok_enum x); on s "const" (ok_const x);
   on s "minimum" (ok_number x at_least); on s "exclusiveMinimum" (ok_number x above);
   on s "maximum" (ok_number x at_most); on s "exclusiveMaximum" (ok_number x below);
   on s "multipleOf" (ok_multiple x);
   on s "minLength" (ok_length (string_length x) at_least); on s "maxLength" (ok_length (string_length x) at_most);
   on s "minItems" (ok_length (array_length x) at_least); on s "maxItems" (ok_length (array_length x) at_most);
   on s "minProperties" (ok_length (object_length x) at_least); on s "maxProperties" (ok_length (object_length x) at_most);
   on s "pattern" (ok_pattern x); on s "format" (ok_format x); on s "uniqueItems" (ok_unique x);
   on s "required" (ok_required x)].

(** *** Keywords that apply subschemas *)

Section applicators.
Context (ev : sub → json → verdict).

Definition ok_properties (x : json) (p : sub) : verdict :=
  match val p with
  | JNull => Some true
  | JObject _ => v_all ((λ kv, from_option (λ s, ev s kv.2) (Some true) (sub_get p kv.1)) <$> members x)
  | _ => None
  end.

(** The patterns of [p] applied to one member. *)
Definition by_patterns (p : sub) (kv : string * json) : list verdict :=
  (λ ps, match rx ps.1 with
         | None => None
         | Some m => if m kv.1 : bool then ev (key_child p ps.1 ps.2) kv.2 else Some true
         end) <$> fields p.

Definition ok_patterns (x : json) (p : sub) : verdict :=
  match val p with JObject _ => v_all (members x ≫= by_patterns p) | _ => None end.

(** A member neither [properties] nor a pattern speaks of. *)
Definition extra (s : sub) (k : string) : bool :=
  negb (from_option (λ p, has p k) false (kw s "properties")) &&
  negb (from_option (λ p, existsb (λ q, from_option (λ m : string → bool, m k) false (rx q)) (fields p).*1) false
          (kw s "patternProperties")).

Definition ok_additional (s : sub) (x : json) (a : sub) : verdict :=
  v_all ((λ kv, if extra s kv.1 then ev a kv.2 else Some true) <$> members x).

Definition prefix_length (s : sub) : nat := length (from_option elements_of [] (kw s "prefixItems")).

Definition ok_items (s : sub) (x : json) (i : sub) : verdict :=
  if is_tuple i then None else v_all (ev i <$> drop (prefix_length s) (array_items x)).

Definition ok_prefix (x : json) (p : sub) : verdict :=
  match val p with JArray _ => v_all (zip_with ev (elements_of p) (array_items x)) | _ => None end.

Definition number_or (d : option Q) (v : option sub) : option Q :=
  match v with None => d | Some v => ratOf (val v) end.

(** [contains] with its counts; no [maxContains] is no upper limit. *)
Definition ok_contains (s : sub) (x : json) (c : sub) : verdict :=
  match x with
  | JArray l =>
      n ← v_count (ev c <$> l);
      lo ← number_or (Some 1%Q) (kw s "minContains");
      hi ← number_or (Some (inject_Z (Z.of_nat n))) (kw s "maxContains");
      Some (Qle_bool lo (inject_Z (Z.of_nat n)) && Qle_bool (inject_Z (Z.of_nat n)) hi)
  | _ => Some true
  end.

Definition ok_branches (comb : list verdict → verdict) (x : json) (v : sub) : verdict :=
  match val v with JArray _ => comb ((λ b, ev b x) <$> elements_of v) | _ => None end.

Definition one_of (l : list verdict) : verdict := (λ n, n =? 1)%nat <$> v_count l.

Definition ok_not (x : json) (v : sub) : verdict := v_not (ev v x).

Definition ok_if (s : sub) (x : json) (c : sub) : verdict :=
  b ← ev c x; on s (if b : bool then "then" else "else")%string (λ t, ev t x).

Definition ok_names (x : json) (p : sub) : verdict := v_all ((λ kv, ev p (JString kv.1)) <$> members x).

(** One entry of a dependency keyword. *)
Definition needs_names (x : json) (s : sub) : verdict := has_names x <$> stringSet (val s).

Definition ok_dependent (apply : sub → verdict) (x : json) (p : sub) : verdict :=
  match x with
  | JObject m =>
      match val p with
      | JObject _ => v_all ((λ ks, if bool_decide (ks.1 ∈ m.*1) then apply (key_child p ks.1 ks.2) else Some true) <$> fields p)
      | _ => None
      end
  | _ => Some true
  end.

Definition names_or_schema (x : json) (s : sub) : verdict :=
  if is_tuple s then needs_names x s else ev s x.

Definition applicators (s : sub) (x : json) : list verdict :=
  [on s "properties" (ok_properties x); on s "patternProperties" (ok_patterns x);
   on s "additionalProperties" (ok_additional s x);
   on s "items" (ok_items s x); on s "prefixItems" (ok_prefix x); on s "contains" (ok_contains s x);
   on s "anyOf" (ok_branches v_any x); on s "allOf" (ok_branches v_all x); on s "oneOf" (ok_branches one_of x);
   on s "not" (ok_not x); on s "if" (ok_if s x); on s "propertyNames" (ok_names x);
   on s "dependentRequired" (ok_dependent (needs_names x) x);
   on s "dependentSchemas" (ok_dependent (λ s, ev s x) x);
   on s "dependencies" (ok_dependent (names_or_schema x) x)].

(** In a document that is one resource a pointer starts at its root. *)
Definition follow_ref (x : json) (r : sub) : verdict :=
  match val r with JString p => from_option (λ t, ev t x) None (resolvePointer root p) | _ => None end.

Definition keywords (s : sub) (x : json) : verdict :=
  if outside s then None else v_all (value_keywords s x ++ applicators s x).

(** One application of a subschema. *)
Definition apply_schema (s : sub) (x : json) : verdict :=
  match val s with
  | JBool b => Some b
  | JObject _ =>
      match sub_get s "$ref" with
      | Some r => if ref_alone then follow_ref x r else v_all [follow_ref x r; keywords s x]
      | None => keywords s x
      end
  | _ => None
  end.
End applicators.

Fixpoint eval (n : nat) (s : sub) (x : json) : verdict :=
  match n with O => None | S n => apply_schema (eval n) s x end.

Definition accepts (s : sub) (x : json) : Prop := ∃ n, eval n s x = Some true.

(** What the evaluator says of a whole document: it speaks for documents
    that are one resource and name a known draft. *)
Definition validates (x : json) : Prop :=
  one_resource root = true ∧ isin (root_draft root) known_drafts = true ∧ accepts (root_of root) x.
End semantics.

(** ** Verdicts *)

(** More applications never change a verdict. *)
Definition vle {A} (a b : option A) : Prop := ∀ r, a = Some r → b = Some r.

#[global] Instance vle_refl {A} : Reflexive (@vle A).
Proof. by intros a r. Qed.

#[global] Instance vle_trans {A} : Transitive (@vle A).
Proof. intros a b c H1 H2 r Hr. by apply H2, H1. Qed.

Lemma v_all_true l : v_all l = Some true ↔ Forall (λ v, v = Some true) l.
Proof.
  induction l as [|v l IH]; simpl; [by split|]. rewrite Forall_cons, <-IH.
  destruct v as [[]|], (v_all l) as [[]|]; naive_solver.
Qed.

Lemma v_all_cons v l : v_all (v :: l) = match v, v_all l with Some a, Some b => Some (a && b) | _, _ => None end.
Proof. done. Qed.

Lemma v_all_perm l l' : l ≡ₚ l' → v_all l = v_all l'.
Proof.
  induction 1 as [|v l l' _ IH|v w l|l1 l2 l3 _ IH1 _ IH2]; [done| | |congruence].
  - by rewrite !v_all_cons, IH.
  - rewrite !v_all_cons. destruct v as [[]|], w as [[]|], (v_all l) as [[]|]; done.
Qed.

Lemma v_any_true l : v_any l = Some true ↔ Some true ∈ l.
Proof.
  unfold v_any. destruct (existsb _ l) eqn:E.
  - split; [|done]. intros _. apply existsb_exists in E as (v & Hv & ->%bool_decide_eq_true). by apply list_elem_of_In.
  - split; [by case_match|]. intros Hin. exfalso. apply not_true_iff_false in E. apply E. apply existsb_exists.
    exists (Some true). split; [by apply list_elem_of_In|by apply bool_decide_eq_true].
Qed.

Lemma v_all_mono l l' : Forall2 vle l l' → vle (v_all l) (v_all l').
Proof.
  induction 1 as [|v w l l' Hvw _ IH]; [done|]. intros r. rewrite !v_all_cons.
  destruct v as [a|]; [|done]. rewrite (Hvw a eq_refl). destruct (v_all l) as [b|]; [|done]. by rewrite (IH b eq_refl).
Qed.

Lemma v_count_mono l l' : Forall2 vle l l' → vle (v_count l) (v_count l').
Proof.
  induction 1 as [|v w l l' Hvw _ IH]; [done|]. intros r. simpl.
  destruct v as [a|]; [|done]. rewrite (Hvw a eq_refl). destruct (v_count l) as [b|]; [|done]. by rewrite (IH b eq_refl).
Qed.

Lemma v_any_mono l l' : Forall2 vle l l' → vle (v_any l) (v_any l').
Proof.
  intros HF r Hr. destruct r.
  - apply v_any_true in Hr as [i Hi]%list_elem_of_lookup. destruct (Forall2_lookup_l _ _ _ _ _ HF Hi) as (w & Hw & Hle).
    apply v_any_true, list_elem_of_lookup. exists i. by rewrite Hw, (Hle true eq_refl).
  - unfold v_any in Hr |- *. destruct (existsb _ l) eqn:E1; [done|]. destruct (forallb _ l) eqn:E2; [|done].
    assert (l' = l) as ->; [|by rewrite E1, E2]. clear Hr E1. rewrite forallb_forall in E2.
    symmetry. apply list_eq_Forall2. apply Forall2_same_length_lookup in HF as [Hl HF]. apply Forall2_same_length_lookup.
    split; [done|]. intros i v w Hv Hw. specialize (E2 v (proj1 (list_elem_of_In _ _) (list_elem_of_lookup_2 _ _ _ Hv))).
    apply bool_decide_eq_true in E2 as [b ->]. symmetry. by eapply HF.
Qed.

Lemma fmap_mono {A B} (f g : A → option B) l : (∀ x, vle (f x) (g x)) → Forall2 vle (f <$> l) (g <$> l).
Proof. intros H. apply Forall2_fmap. induction l; constructor; done. Qed.

Lemma bind_mono {A B} (a b : option A) (f g : A → option B) :
  vle a b → (∀ x, vle (f x) (g x)) → vle (a ≫= f) (b ≫= g).
Proof. intros Hab Hfg r. destruct a as [x|]; [|done]. rewrite (Hab x eq_refl). apply Hfg. Qed.

Lemma from_option_mono {A B} (f g : A → option B) d o : (∀ x, vle (f x) (g x)) → vle (from_option f d o) (from_option g d o).
Proof. intros H. destruct o; [apply H|reflexivity]. Qed.

Lemma fmap_vle {A B} (f : A → B) (a b : option A) : vle a b → vle (f <$> a) (f <$> b).
Proof. intros H r. destruct a as [x|]; [|done]. by rewrite (H x eq_refl). Qed.

Section monotone.
Context (rx : string → option (string → bool)) (fmt : string → json → bool) (root : json).
Context (ev1 ev2 : sub → json → verdict) (Hev : ∀ s x, vle (ev1 s x) (ev2 s x)).

Ltac mono :=
  repeat first
    [ reflexivity
    | apply Hev
    | apply v_all_mono | apply v_any_mono | apply v_count_mono
    | apply fmap_mono; intros ?
    | apply fmap_vle
    | apply bind_mono; [|intros ?]
    | apply from_option_mono; intros ?
    | case_match ].

Lemma ok_patterns_mono x p : vle (ok_patterns rx ev1 x p) (ok_patterns rx ev2 x p).
Proof.
  unfold ok_patterns. case_match; mono. induction (members x) as [|kv l IH]; [constructor|]. csimpl.
  apply Forall2_app; [|done]. unfold by_patterns. mono.
Qed.

Lemma ok_prefix_mono x p : vle (ok_prefix ev1 x p) (ok_prefix ev2 x p).
Proof.
  unfold ok_prefix. case_match; mono. generalize (elements_of p) (array_items x). clear -Hev.
  intros a. induction a as [|s a IH]; intros [|y l]; simpl; constructor; [apply Hev|apply IH].
Qed.

Lemma applicators_mono s x : Forall2 vle (applicators rx root ev1 s x) (applicators rx root ev2 s x).
Proof.
  unfold applicators, on. repeat (apply Forall2_cons; split);
    try (apply from_option_mono; intros ?); try apply ok_patterns_mono; try apply ok_prefix_mono;
    unfold ok_properties, ok_additional, ok_items, ok_contains, ok_branches, one_of, ok_not, v_not, ok_if, on,
      ok_names, ok_dependent, names_or_schema; mono.
Qed.

Lemma apply_schema_mono s x : vle (apply_schema rx fmt root ev1 s x) (apply_schema rx fmt root ev2 s x).
Proof.
  assert (vle (keywords rx fmt root ev1 s x) (keywords rx fmt root ev2 s x)) as Hk.
  { unfold keywords. case_match; mono. apply Forall2_app; [|apply applicators_mono]. induction (value_keywords _ _ _ _ _); by constructor. }
  unfold apply_schema, follow_ref. case_match; mono; [..|done]; (repeat (apply Forall2_cons; split); [mono|done|constructor]).
Qed.
End monotone.

Lemma eval_mono rx fmt root n m s x : (n <= m)%nat → vle (eval rx fmt root n s x) (eval rx fmt root m s x).
Proof.
  revert m s x. induction n as [|n IH]; intros [|m] s x Hle; try done; [lia|].
  simpl. apply apply_schema_mono. intros s' x'. apply IH. lia.
Qed.
