(* ===== verification/SchemaEqual.v ===== *)
(** * Keeping a keyword identical

    [equalResolved] of [internal/platform/schema/compatibility.go]: the
    rule for keywords the check does not model.  A successful run leaves
    a set of pairs of objects that is a bisimulation of the two documents
    ([closed]): the same keys, related members, related [$ref] targets.
    Related subschemas then give the same verdict on every instance after
    every number of applications ([lockstep]), which is what "identical,
    including anything it references" has to mean. *)

From S2P Require Import Prelude Decimal Keys Json SchemaValue SchemaCompat SchemaSpec.
Open Scope Z_scope.

(** ** Places *)

Fixpoint at_loc (v : json) (l : loc) : option json :=
  match l with
  | [] => Some v
  | inl k :: l => match v with JObject m => w ← obj_get k m; at_loc w l | _ => None end
  | inr i :: l => match v with JArray a => w ← a !! i; at_loc w l | _ => None end
  end.

(** The subschema is a value of the document, at its own location. *)
Definition placed (root : json) (s : sub) : Prop := ∃ l, at_ s = Some l ∧ at_loc root l = Some (val s).

Lemma at_loc_app v l l' : at_loc v (l ++ l') = w ← at_loc v l; at_loc w l'.
Proof.
  revert v. induction l as [|[k|i] l IH]; intros v; [done|..]; simpl.
  - destruct v as [| | | | |m]; try done. destruct (obj_get k m); [apply IH|done].
  - destruct v as [| | | |a|]; try done. destruct (a !! i); [apply IH|done].
Qed.

Lemma root_placed root : placed root (root_of root).
Proof. by exists []. Qed.

Lemma sub_get_Some s k x : sub_get s k = Some x ↔ ∃ m v, val s = JObject m ∧ obj_get k m = Some v ∧ x = key_child s k v.
Proof.
  unfold sub_get, fields. split.
  - intros (v & Hv & ->)%fmap_Some. destruct (val s) as [| | | | |m]; try done. eauto.
  - intros (m & v & -> & -> & ->). done.
Qed.

Lemma sub_get_placed root s k x : placed root s → sub_get s k = Some x → placed root x.
Proof.
  intros (l & Hl & Hv) (m & v & Hm & Hk & ->)%sub_get_Some. exists (l ++ [inl k]). unfold key_child. simpl. rewrite Hl.
  split; [done|]. rewrite at_loc_app, Hv. simpl. by rewrite Hm, Hk.
Qed.

Lemma elements_lookup s i x : elements_of s !! i = Some x ↔ ∃ l v, val s = JArray l ∧ l !! i = Some v ∧ x = idx_child s i v.
Proof.
  unfold elements_of. split.
  - intros H. destruct (val s) as [| | | |l|]; try done. apply list_lookup_imap_Some in H as (v & Hv & ->). eauto.
  - intros (l & v & -> & Hv & ->). apply list_lookup_imap_Some. eauto.
Qed.

Lemma element_placed root s i x : placed root s → elements_of s !! i = Some x → placed root x.
Proof.
  intros (l & Hl & Hv) (a & v & Ha & Hi & ->)%elements_lookup. exists (l ++ [inr i]). unfold idx_child. simpl. rewrite Hl.
  split; [done|]. rewrite at_loc_app, Hv. simpl. by rewrite Ha, Hi.
Qed.

Lemma descend_placed root s t x : placed root s → descend s t = Some x → placed root x.
Proof.
  intros Hs. unfold descend. destruct (val s) as [| | | |l|m] eqn:Hv; try done; [|by apply sub_get_placed].
  destruct (atoi t) as [i|]; [|done]. simpl. destruct (i <? 0); [done|]. intros (v & Hi & ->)%fmap_Some.
  eapply (element_placed root s (Z.to_nat i)); [done|]. apply elements_lookup. eauto.
Qed.

Lemma placed_inj root a b l : placed root a → placed root b → at_ a = Some l → at_ b = Some l → a = b.
Proof. destruct a, b. intros (la & Ha & Va) (lb & Hb & Vb) E1 E2. simpl in *. by simplify_eq. Qed.

Lemma mapID_Some s l : mapID s = Some l ↔ at_ s = Some l ∧ ∃ m, val s = JObject m.
Proof. unfold mapID. destruct (val s); naive_solver. Qed.

Lemma placed_mapID root s m : placed root s → val s = JObject m → ∃ l, mapID s = Some l ∧ at_ s = Some l.
Proof. intros (l & Hl & _) Hm. exists l. split; [|done]. apply mapID_Some. eauto. Qed.

Lemma placed_distinct root s : distinct root = true → placed root s → distinct (val s) = true.
Proof.
  intros Hd (l & _ & Hl). revert root Hd Hl. induction l as [|[k|i] l IH]; intros root Hd Hl; simpl in Hl.
  - by simplify_eq.
  - destruct root as [| | | | |m]; try done. destruct (obj_get k m) as [w|] eqn:E; [|done]. apply (IH w); [|done].
    apply distinct_object in Hd as [_ Hd]. eapply Hd, obj_get_in, E.
  - destruct root as [| | | |a|]; try done. destruct (a !! i) as [w|] eqn:E; [|done]. apply (IH w); [|done].
    eapply distinct_array; [done|]. by eapply list_elem_of_lookup_2.
Qed.

(** *** The root is not below anything *)

Lemma key_child_below s k v : at_ (key_child s k v) ≠ Some [].
Proof. unfold key_child. simpl. destruct (at_ s) as [[|]|]; done. Qed.

Lemma idx_child_below s i v : at_ (idx_child s i v) ≠ Some [].
Proof. unfold idx_child. simpl. destruct (at_ s) as [[|]|]; done. Qed.

Lemma sub_get_below s k x : sub_get s k = Some x → at_ x ≠ Some [].
Proof. intros (m & v & _ & _ & ->)%sub_get_Some. apply key_child_below. Qed.

Lemma element_below s i x : elements_of s !! i = Some x → at_ x ≠ Some [].
Proof. intros (l & v & _ & _ & ->)%elements_lookup. apply idx_child_below. Qed.

Lemma descend_below s t x : descend s t = Some x → at_ x ≠ Some [].
Proof.
  unfold descend. destruct (val s) as [| | | |l|m]; try done; [|apply sub_get_below].
  destruct (atoi t) as [i|]; [|done]. simpl. destruct (i <? 0); [done|]. intros (v & _ & ->)%fmap_Some. apply idx_child_below.
Qed.

Lemma descend_all_below toks s x : toks ≠ [] → descend_all s toks = Some x → at_ x ≠ Some [].
Proof.
  revert s. induction toks as [|t toks IH]; intros s; [done|]. intros _. simpl. destruct (descend s t) as [s'|] eqn:E; [|done].
  simpl. destruct toks as [|t' toks]; [|by apply IH]. intros [= <-]. by eapply descend_below.
Qed.

Lemma split_slash_some s : split_slash s ≠ [].
Proof. induction s as [|c s IH]; [done|]. simpl. case_decide; [done|]. by destruct (split_slash s). Qed.

(** The two shapes of a pointer. *)
Lemma resolvePointer_shape ref :
  (chars ref = ["#"%char] ∧ ∀ root, resolvePointer root ref = Some (root_of root)) ∨
  ∃ toks, toks ≠ [] ∧ ∀ root, resolvePointer root ref = descend_all (root_of root) toks ∨ resolvePointer root ref = None.
Proof.
  unfold resolvePointer. destruct (chars ref) as [|c r].
  { right. exists [""%string]. split; [done|]. by right. }
  destruct (decide (c = "#"%char)) as [->|Hc].
  - destruct r as [|c' r]; [by left|right]. destruct (decide (c' = "/"%char)) as [->|Hc'].
    + destruct (PathUnescape r) as [f|]; [|exists [""%string]; split; [done|]; by right].
      exists (unescape_token <$> split_slash f). split; [|by left].
      pose proof (split_slash_some f). by destruct (split_slash f).
    + exists [""%string]. split; [done|]. intros root. right. repeat (case_match; try done); naive_solver.
  - right. exists [""%string]. split; [done|]. intros root. right. repeat (case_match; try done); naive_solver.
Qed.

Lemma resolvePointer_placed root ref x : resolvePointer root ref = Some x → placed root x.
Proof.
  assert (∀ toks s, placed root s → descend_all s toks = Some x → placed root x) as Hd.
  { induction toks as [|t toks IH]; intros s Hs; simpl; [by intros [= <-]|].
    destruct (descend s t) as [s'|] eqn:E; [|done]. simpl. apply IH. by eapply descend_placed. }
  destruct (resolvePointer_shape ref) as [[_ Hr]|(toks & _ & Hr)].
  - rewrite Hr. intros [= <-]. apply root_placed.
  - destruct (Hr root) as [->| ->]; [|done]. apply Hd, root_placed.
Qed.

(** ** The relation a run establishes *)

Definition rooted (a b : sub) : Prop := at_ a = Some [] ↔ at_ b = Some [].

Lemma pointers_rooted P Q ref ta tb : resolvePointer P ref = Some ta → resolvePointer Q ref = Some tb → rooted ta tb.
Proof.
  intros Ha Hb. destruct (resolvePointer_shape ref) as [[_ Hr]|(toks & Ht & Hr)].
  - rewrite Hr in Ha, Hb. by simplify_eq.
  - destruct (Hr P) as [Ea|Ea], (Hr Q) as [Eb|Eb]; rewrite Ea in Ha; rewrite Eb in Hb; try done.
    apply descend_all_below in Ha, Hb; [|done..]. by split.
Qed.

Inductive same (S : gset pairKey) : sub → sub → Prop :=
| same_map a b la lb :
    mapID a = Some la → mapID b = Some lb → (la, lb) ∈ S → rooted a b → same S a b
| same_array a b l l' :
    val a = JArray l → val b = JArray l' → length l = length l' →
    (∀ i x y, elements_of a !! i = Some x → elements_of b !! i = Some y → same S x y) → same S a b
| same_leaf a b :
    mapID a = None → elements_of a = [] → jsonEqual (val a) (val b) = true →
    (∀ m, val a ≠ JObject m) → (∀ l, val a ≠ JArray l) → same S a b.

Lemma same_mono S S' a b : S ⊆ S' → same S a b → same S' a b.
Proof.
  intros HS. induction 1 as [a b la lb Ha Hb Hin Hr|a b l l' Ha Hb Hl _ IH|a b H1 H2 H3 H4 H5].
  - eapply same_map; eauto.
  - eapply same_array; eauto.
  - by eapply same_leaf.
Qed.

Section equal.
Context (P Q : json).

(** What a pair of objects promises. *)
Definition good (S : gset pairKey) (p : pairKey) : Prop :=
  ∀ a b, placed P a → placed Q b → mapID a = Some p.1 → mapID b = Some p.2 →
    length (fields a) = length (fields b) ∧
    (∀ k x, sub_get a k = Some x → ∃ y, sub_get b k = Some y ∧ same S x y) ∧
    (∀ k ref, k ∈ ["$ref"; "$dynamicRef"; "$recursiveRef"]%string → any (sub_get a k) = JString ref →
       ∃ ta tb, resolvePointer P ref = Some ta ∧ resolvePointer Q ref = Some tb ∧ same S ta tb).

Definition closed (S : gset pairKey) : Prop := ∀ p, p ∈ S → good S p.

(** New pairs keep their promise. *)
Definition extends (S S' : gset pairKey) : Prop := S ⊆ S' ∧ ∀ p, p ∈ S' → p ∈ S ∨ good S' p.

Lemma good_mono S S' p : S ⊆ S' → good S p → good S' p.
Proof.
  intros HS Hg a b Ha Hb Ia Ib. destruct (Hg a b Ha Hb Ia Ib) as (Hl & Hc & Hr). split_and!; [done| |].
  - intros k x Hx. destruct (Hc k x Hx) as (y & ? & ?). eauto using same_mono.
  - intros k ref Hk Href. destruct (Hr k ref Hk Href) as (ta & tb & ? & ? & ?). eauto 6 using same_mono.
Qed.

Lemma extends_refl S : extends S S.
Proof. split; [done|by left]. Qed.

Lemma extends_trans S1 S2 S3 : extends S1 S2 → extends S2 S3 → extends S1 S3.
Proof.
  intros [H1 G1] [H2 G2]. split; [set_solver|]. intros p Hp. destruct (G2 p Hp) as [Hp2|]; [|by right].
  destruct (G1 p Hp2); [by left|right]. eapply good_mono; [|done]. done.
Qed.

(** A loop of comparisons that stops at the first difference. *)
Lemma fold_extends {A} (run : A → gset pairKey → bool * gset pairKey) (Φ : A → gset pairKey → Prop) l ok s s' :
  (∀ x s s', x ∈ l → run x s = (true, s') → extends s s' ∧ Φ x s') →
  (∀ x s s', s ⊆ s' → Φ x s → Φ x s') →
  foldl (λ r x, if (r : bool * gset pairKey).1 then run x r.2 else r) (ok, s) l = (true, s') →
  ok = true ∧ extends s s' ∧ ∀ x, x ∈ l → Φ x s'.
Proof.
  intros Hrun Hmono. revert ok s. induction l as [|x l IH]; intros ok s; simpl.
  { intros [= -> ->]. split_and!; [done|apply extends_refl|]. intros x Hx. by apply not_elem_of_nil in Hx. }
  intros Hf. destruct ok; simpl in Hf.
  - destruct (run x s) as [ok1 s1] eqn:E. destruct (IH (λ y t t' Hy, Hrun y t t' (list_elem_of_further _ _ _ Hy)) _ _ Hf) as (-> & He & Hx).
    destruct (Hrun x s s1 ltac:(apply list_elem_of_here) E) as [He1 HΦ]. split_and!; [done|by eapply extends_trans|].
    intros y [->|Hy]%elem_of_cons; [|by apply Hx]. eapply Hmono; [apply He|done].
  - destruct (IH (λ y t t' Hy, Hrun y t t' (list_elem_of_further _ _ _ Hy)) _ _ Hf) as (? & _). done.
Qed.

Section object.
Context (fuel : nat).
Context (IH : ∀ a b s s', placed P a → placed Q b → rooted a b → equalResolvedAt P Q fuel a b s = (true, s') →
                extends s s' ∧ same s' a b).
Context (a b : sub) (Pa : placed P a) (Pb : placed Q b).

Definition same_member (k : string) (S : gset pairKey) : Prop :=
  ∃ x y, sub_get a k = Some x ∧ sub_get b k = Some y ∧ same S x y.

Lemma compare_member k s s' :
  match sub_get a k, sub_get b k with Some x, Some y => equalResolvedAt P Q fuel x y s | _, _ => (false, s) end = (true, s') →
  extends s s' ∧ same_member k s'.
Proof.
  destruct (sub_get a k) as [x|] eqn:Ex, (sub_get b k) as [y|] eqn:Ey; try done. intros He.
  destruct (IH x y s s') as [? ?]; [by eapply sub_get_placed|by eapply sub_get_placed| |done|].
  - split; intros H; by apply sub_get_below in Ex, Ey.
  - split; [done|]. exists x, y. by rewrite Ex, Ey.
Qed.

Definition same_target (k : string) (S : gset pairKey) : Prop :=
  ∀ ref, any (sub_get a k) = JString ref →
    ∃ ta tb, resolvePointer P ref = Some ta ∧ resolvePointer Q ref = Some tb ∧ same S ta tb.

Lemma compare_target k s s' :
  match any (sub_get a k) with
  | JString ref => match resolvePointer P ref, resolvePointer Q ref with
                   | Some ta, Some tb => equalResolvedAt P Q fuel ta tb s
                   | _, _ => (false, s)
                   end
  | _ => (true, s)
  end = (true, s') →
  extends s s' ∧ same_target k s'.
Proof.
  unfold same_target. destruct (any (sub_get a k)) as [| | |ref| |];
    try (intros [= <-]; split; [apply extends_refl|done]).
  destruct (resolvePointer P ref) as [ta|] eqn:Ea, (resolvePointer Q ref) as [tb|] eqn:Eb; try done. intros He.
  destruct (IH ta tb s s') as [? ?]; [by eapply resolvePointer_placed|by eapply resolvePointer_placed|by eapply pointers_rooted|done|].
  split; [done|]. intros ref' [= <-]. eauto.
Qed.

Lemma same_member_mono k s s' : s ⊆ s' → same_member k s → same_member k s'.
Proof. intros Hs (x & y & ? & ? & ?). exists x, y. eauto using same_mono. Qed.

Lemma same_target_mono k s s' : s ⊆ s' → same_target k s → same_target k s'.
Proof. intros Hs H ref Hr. destruct (H ref Hr) as (ta & tb & ? & ? & ?). exists ta, tb. eauto using same_mono. Qed.
End object.

Lemma equal_objects fuel a b s s' av bv :
  (∀ a b s s', placed P a → placed Q b → rooted a b → equalResolvedAt P Q fuel a b s = (true, s') → extends s s' ∧ same s' a b) →
  placed P a → placed Q b → rooted a b → val a = JObject av → val b = JObject bv →
  equalResolvedAt P Q (S fuel) a b s = (true, s') → extends s s' ∧ same s' a b.
Proof.
  intros IH Pa Pb Hr Ha Hb He. destruct (placed_mapID P a av Pa Ha) as (la & Ia & La).
  destruct (placed_mapID Q b bv Pb Hb) as (lb & Ib & Lb).
  cbn [equalResolvedAt] in He. rewrite Ha, Hb, Ia, Ib in He. change (default [] (Some la)) with la in He. change (default [] (Some lb)) with lb in He.
  destruct (Nat.eqb_spec (length av) (length bv)) as [Hl|]; [|done]. cbn [negb] in He.
  case_bool_decide as Hin. { simplify_eq. split; [apply extends_refl|by eapply same_map]. }
  destruct (foldl _ _ av.*1) as [ok s1] eqn:E1.
  apply (fold_extends _ (same_target a) _ _ _ _ (λ k t t' _, compare_target fuel IH a k t t')
    (same_target_mono a)) in He as (-> & X2 & T2).
  apply (fold_extends _ (same_member a b) _ _ _ _ (λ k t t' _, compare_member fuel IH a b Pa Pb k t t')
    (same_member_mono a b)) in E1 as (_ & X1 & M1).
  assert ((la, lb) ∈ s') as Hk by (apply X2, X1; set_solver).
  assert (good s' (la, lb)) as Hg.
  { intros a' b' Pa' Pb' [Ia' _]%mapID_Some [Ib' _]%mapID_Some. cbn [fst snd] in *.
    rewrite (placed_inj P a' a la), (placed_inj Q b' b lb) by done. split_and!.
    - unfold fields. by rewrite Ha, Hb.
    - intros k x Hx. pose proof Hx as (m & v & Hm & Hv & _)%sub_get_Some. rewrite Ha in Hm. simplify_eq.
      destruct (M1 k) as (x' & y & Hx' & Hy & Hxy); [apply list_elem_of_fmap; exists (k, v); by split; [|apply obj_get_in]|].
      rewrite Hx in Hx'. simplify_eq. exists y. split; [done|]. eapply same_mono; [apply X2|done].
    - intros k ref Hkr Href. by apply (T2 k Hkr). }
  split; [|by eapply same_map]. split; [destruct X1, X2; set_solver|]. intros p Hp.
  destruct (proj2 X2 p Hp) as [Hp1|]; [|by right]. destruct (proj2 X1 p Hp1) as [Hp0|Hg1]; [|right; eapply good_mono; [apply X2|done]].
  apply elem_of_union in Hp0 as [->%elem_of_singleton|]; [by right|by left].
Qed.

Lemma length_elements s l : val s = JArray l → length (elements_of s) = length l.
Proof. intros H. unfold elements_of. rewrite H. apply length_imap. Qed.

Lemma equal_arrays fuel a b s s' av bv :
  (∀ a b s s', placed P a → placed Q b → rooted a b → equalResolvedAt P Q fuel a b s = (true, s') → extends s s' ∧ same s' a b) →
  placed P a → placed Q b → val a = JArray av → val b = JArray bv →
  equalResolvedAt P Q (S fuel) a b s = (true, s') → extends s s' ∧ same s' a b.
Proof.
  intros IH Pa Pb Ha Hb He. cbn [equalResolvedAt] in He. rewrite Ha, Hb in He.
  destruct (Nat.eqb_spec (length av) (length bv)) as [Hl|]; [|done]. cbn [negb] in He.
  apply (fold_extends (λ xy s, equalResolvedAt P Q fuel xy.1 xy.2 s) (λ xy s, same s xy.1 xy.2)) in He as (_ & X & HΦ).
  - split; [done|]. eapply same_array; [done..|]. intros i x y Hx Hy. apply (HΦ (x, y)).
    apply list_elem_of_lookup. exists i. apply lookup_zip_with_Some. eauto.
  - intros [x y] t t' [i Hi]%list_elem_of_lookup Hrun. apply lookup_zip_with_Some in Hi as (x' & y' & E & Hx & Hy). simplify_eq.
    apply IH; [by eapply element_placed|by eapply element_placed| |done].
    split; intros H; by apply element_below in Hx, Hy.
  - intros [x y] t t' Ht. by apply same_mono.
Qed.

Lemma equalResolvedAt_sound fuel a b s s' :
  placed P a → placed Q b → rooted a b → equalResolvedAt P Q fuel a b s = (true, s') → extends s s' ∧ same s' a b.
Proof.
  revert a b s s'. induction fuel as [|fuel IH]; intros a b s s' Pa Pb Hr He; [done|].
  destruct (val a) as [|x|lit|t|av|av] eqn:Ha; [..|destruct (val b) as [| | | |bv|] eqn:Hb|destruct (val b) as [| | | | |bv] eqn:Hb];
    try (by eapply equal_objects); try (by eapply equal_arrays);
    try (cbn [equalResolvedAt] in He; by rewrite Ha, Hb in He).
  all: cbn [equalResolvedAt] in He; rewrite Ha in He; injection He as He <-; split; [apply extends_refl|];
    apply same_leaf; [unfold mapID; by rewrite Ha|unfold elements_of; by rewrite Ha|by rewrite Ha|by rewrite Ha|by rewrite Ha].
Qed.

(** [equalResolved] finds a bisimulation. *)
Lemma equalResolved_sound a b :
  placed P a → placed Q b → rooted a b → equalResolved P Q a b = true → ∃ S, closed S ∧ same S a b.
Proof.
  intros Pa Pb Hr He. unfold equalResolved in He. generalize dependent (S maxCompatDepth). intros fuel He.
  destruct (equalResolvedAt P Q fuel a b ∅) as [ok S] eqn:E. cbn [fst] in He. subst ok. destruct (equalResolvedAt_sound _ _ _ _ _ Pa Pb Hr E) as [[_ HX] Hs]. exists S. split; [|done].
  intros p Hp. destruct (HX p Hp) as [?|?]; [set_solver|done].
Qed.

Lemma fold_runs {A} (run : A → gset pairKey → bool * gset pairKey) l ok s s' :
  foldl (λ r x, if (r : bool * gset pairKey).1 then run x r.2 else r) (ok, s) l = (true, s') →
  ok = true ∧ ∀ x, x ∈ l → ∃ t, (run x t).1 = true.
Proof.
  revert ok s. induction l as [|x l IH]; intros ok s Hl; simpl in Hl.
  - simplify_eq. split; [done|]. intros x Hx. by apply not_elem_of_nil in Hx.
  - destruct ok; simpl in Hl; [|by apply IH in Hl as [? _]].
    destruct (run x s) as [ok1 s1] eqn:Er. destruct (IH _ _ Hl) as [-> Hx]. split; [done|].
    intros y [->|Hy]%elem_of_cons; [exists s; by rewrite Er|by apply Hx].
Qed.

(** A successful comparison of two objects finds the same keys. *)
Lemma equalResolved_keys a b av bv :
  val a = JObject av → val b = JObject bv → NoDup av.*1 → equalResolved P Q a b = true → av.*1 ≡ₚ bv.*1.
Proof.
  intros Ha Hb Hd He. unfold equalResolved in He. generalize dependent maxCompatDepth. intros fuel He.
  cbn [equalResolvedAt] in He. rewrite Ha, Hb in He.
  destruct (Nat.eqb_spec (length av) (length bv)) as [Hl|]; [|done]. cbn [negb] in He.
  case_bool_decide; [set_solver|].
  set (keys := av.*1) in He at 1. destruct (foldl _ _ keys) as [ok s1] eqn:E1.
  destruct (foldl _ (ok, s1) _) as [ok2 s2] eqn:E2. cbn [fst] in He. subst ok2. 
  apply (fold_runs (λ k s, match any (sub_get a k) with
    | JString ref => match resolvePointer P ref, resolvePointer Q ref with
                     | Some ta, Some tb => equalResolvedAt P Q fuel ta tb s | _, _ => (false, s) end
    | _ => (true, s) end)) in E2 as [-> _].
  apply (fold_runs (λ k s, match sub_get a k, sub_get b k with
    | Some x, Some y => equalResolvedAt P Q fuel x y s | _, _ => (false, s) end)) in E1 as [_ Hk]. apply keys_permute; [done..|]. intros k Hin. destruct (Hk k Hin) as [t Ht].
  unfold sub_get, fields in Ht. rewrite Ha, Hb in Ht. destruct (obj_get k bv) as [y|] eqn:Ey; [|by destruct (obj_get k av)].
  apply obj_get_in in Ey. apply list_elem_of_fmap. by exists (k, y).
Qed.
End equal.
