(* ===== verification/SchemaLockstep.v ===== *)
(** * Identical subschemas agree

    What [equalResolved] of [internal/platform/schema/compatibility.go]
    guarantees: subschemas related by a closed set of pairs give the same
    verdict on every instance after every number of applications, keyword
    by keyword, when the two documents are of one draft. *)

From S2P Require Import Prelude Decimal Keys Json SchemaValue SchemaCompat SchemaSpec SchemaEqual.
Open Scope Z_scope.

(** ** Equal values constrain alike *)

Lemma all_strings_equal l l' : Forall2 (λ v w, jsonEqual v w = true) l l' → all_strings l = all_strings l'.
Proof.
  induction 1 as [|v w l l' Hvw _ IH]; [done|]. destruct v, w; try done. apply bool_decide_eq_true in Hvw as ->.
  simpl. by rewrite IH.
Qed.

Lemma typeSet_equal v w : jsonEqual v w = true → typeSet v = typeSet w.
Proof.
  destruct v, w; try done; intros H; [by apply bool_decide_eq_true in H as ->|].
  apply jsonEqual_arrays in H. simpl. by rewrite (all_strings_equal _ _ H).
Qed.

Lemma stringSet_equal v w : jsonEqual v w = true → stringSet v = stringSet w.
Proof. destruct v, w; try done; intros H. apply jsonEqual_arrays in H. by apply all_strings_equal. Qed.

Lemma ratOf_equal v w : jsonEqual v w = true → option_Forall2 Qeq (ratOf v) (ratOf w).
Proof.
  destruct v, w; try constructor; try done. simpl. unfold numbers_equal.
  destruct (rat_literal lit), (rat_literal lit0); try done. intros H%Qeq_bool_iff. by constructor.
Qed.

Lemma is_int_spec q : is_int q = true ↔ ∃ z, (q == inject_Z z)%Q.
Proof.
  unfold is_int. rewrite Z.eqb_eq. split.
  - intros H. exists (Qnum q / Z.pos (Qden q)). unfold Qeq, inject_Z. simpl.
    pose proof (Z.div_mod (Qnum q) (Z.pos (Qden q)) ltac:(lia)). lia.
  - intros [z Hz]. unfold Qeq, inject_Z in Hz. simpl in Hz. rewrite Z.mul_1_r in Hz. rewrite Hz. apply Z.mod_mul. lia.
Qed.

#[global] Instance is_int_proper : Proper (Qeq ==> eq) is_int.
Proof.
  intros p q Hpq. apply eq_true_iff_eq. rewrite !is_int_spec. split; intros [z Hz]; exists z; [by rewrite <-Hpq|by rewrite Hpq].
Qed.

Lemma positive_rat_equal v w : jsonEqual v w = true → option_Forall2 Qeq (positive_rat v) (positive_rat w).
Proof.
  intros H%ratOf_equal. unfold positive_rat. destruct H as [p q Hpq|]; [|constructor]. simpl.
  assert ((0 <? Qnum p) = (0 <? Qnum q)) as ->.
  { unfold Qeq in Hpq. apply eq_true_iff_eq. rewrite !Z.ltb_lt. nia. }
  destruct (0 <? Qnum q); by constructor.
Qed.

Lemma existsb_equal x l l' :
  distinct x = true → (∀ v, v ∈ l → distinct v = true) → (∀ v, v ∈ l' → distinct v = true) →
  Forall2 (λ v w, jsonEqual v w = true) l l' → existsb (jsonEqual x) l = existsb (jsonEqual x) l'.
Proof.
  intros Hx Hl Hl'. induction 1 as [|v w l l' Hvw _ IH]; [done|]. simpl. f_equal; [|apply IH; set_solver].
  apply eq_true_iff_eq. split; intros He; [by eapply jsonEqual_trans|].
  eapply jsonEqual_trans; [done|]. apply jsonEqual_sym; [apply Hl; set_solver|apply Hl'; set_solver|done].
Qed.

(** A comparison that reads rationals by value. *)
Definition by_value (rel : Q → Q → bool) : Prop := ∀ p q r, (p == q)%Q → rel p r = rel q r.

Lemma Qle_bool_proper p p' q q' : (p == p')%Q → (q == q')%Q → Qle_bool p q = Qle_bool p' q'.
Proof. intros Hp Hq. apply eq_true_iff_eq. by rewrite !Qle_bool_iff, Hp, Hq. Qed.

Lemma at_least_by_value : by_value at_least.
Proof. intros p q r H. unfold at_least. by apply Qle_bool_proper. Qed.
Lemma at_most_by_value : by_value at_most.
Proof. intros p q r H. unfold at_most. by apply Qle_bool_proper. Qed.
Lemma above_by_value : by_value above.
Proof. intros p q r H. unfold above. f_equal. by apply Qle_bool_proper. Qed.
Lemma below_by_value : by_value below.
Proof. intros p q r H. unfold below. f_equal. by apply Qle_bool_proper. Qed.

#[global] Hint Resolve at_least_by_value at_most_by_value above_by_value below_by_value : core.

Section values.
Context (rx : string → option (string → bool)) (fmt : string → json → bool).
Context (v w : sub) (Hvw : jsonEqual (val v) (val w) = true).
Context (x : json).

Lemma ok_type_equal : ok_type x v = ok_type x w.
Proof. unfold ok_type. by rewrite (typeSet_equal _ _ Hvw). Qed.

Lemma ok_number_equal rel : by_value rel → ok_number x rel v = ok_number x rel w.
Proof.
  intros Hr. unfold ok_number. destruct x; try done. destruct (ratOf_equal _ _ Hvw); [|done].
  destruct (ratOf _); [|done]. f_equal. by apply Hr.
Qed.

Lemma ok_length_equal len rel : by_value rel → ok_length len rel v = ok_length len rel w.
Proof. intros Hr. unfold ok_length. destruct len; [|done]. destruct (ratOf_equal _ _ Hvw); [|done]. f_equal. by apply Hr. Qed.

Lemma ok_multiple_equal : ok_multiple x v = ok_multiple x w.
Proof.
  unfold ok_multiple. destruct x; try done. pose proof (positive_rat_equal _ _ Hvw) as Hp.
  destruct (val v), (val w); try done; destruct Hp as [p q Hpq|]; try done; destruct (ratOf _); try done;
    f_equal; apply is_int_proper; by rewrite Hpq.
Qed.

Lemma ok_pattern_equal : ok_pattern rx x v = ok_pattern rx x w.
Proof. unfold ok_pattern. destruct x; try done. destruct (val v), (val w); try done. by apply bool_decide_eq_true in Hvw as ->. Qed.

Lemma ok_format_equal : ok_format fmt x v = ok_format fmt x w.
Proof. unfold ok_format. destruct (val v), (val w); try done. by apply bool_decide_eq_true in Hvw as ->. Qed.

Lemma ok_unique_equal : ok_unique x v = ok_unique x w.
Proof. unfold ok_unique. destruct (val v) as [|[]| | | |], (val w) as [|[]| | | |]; done. Qed.

Lemma ok_required_equal : ok_required x v = ok_required x w.
Proof. unfold ok_required. destruct x; try done. by rewrite (stringSet_equal _ _ Hvw). Qed.

Context (Dv : distinct (val v) = true) (Dw : distinct (val w) = true) (Dx : distinct x = true).

Lemma ok_enum_equal : ok_enum x v = ok_enum x w.
Proof.
  unfold ok_enum. destruct (val v), (val w); try done. f_equal. apply existsb_equal; [done| | |].
  - by apply distinct_array.
  - by apply distinct_array.
  - by apply jsonEqual_arrays.
Qed.

Lemma ok_const_equal : ok_const x v = ok_const x w.
Proof.
  unfold ok_const. f_equal. apply eq_true_iff_eq. split; intros He; [by eapply jsonEqual_trans|].
  eapply jsonEqual_trans; [done|]. by apply jsonEqual_sym.
Qed.
End values.

(** ** Related subschemas *)

Section related.
Context (P Q : json) (DP : distinct P = true) (DQ : distinct Q = true).
Context (S : gset pairKey) (HS : closed P Q S).

Definition related (a b : sub) : Prop := placed P a ∧ placed Q b ∧ same S a b.

Lemma related_object a b m :
  related a b → val a = JObject m →
  rooted a b ∧ (∃ m', val b = JObject m' ∧ m.*1 ≡ₚ m'.*1) ∧
  (∀ k, option_Forall2 related (sub_get a k) (sub_get b k)) ∧
  (∀ ref, any (sub_get a "$ref") = JString ref →
     ∃ ta tb, resolvePointer P ref = Some ta ∧ resolvePointer Q ref = Some tb ∧ related ta tb).
Proof.
  intros (Pa & Pb & Hs) Hm. inversion Hs as [? ? la lb Ia Ib Hin Hr| |]; simplify_eq; try congruence.
  destruct (HS _ Hin a b Pa Pb Ia Ib) as (Hl & Hc & Ht). cbn [fst snd] in *.
  apply mapID_Some in Ib as [_ [m' Hm']].
  assert (∀ k, is_Some (obj_get k m) → is_Some (obj_get k m')) as Hsub.
  { intros k [v Hv]. assert (sub_get a k = Some (key_child a k v)) as Hg by (apply sub_get_Some; eauto).
    destruct (Hc k _ Hg) as (y & Hy & _). apply sub_get_Some in Hy as (m2 & w & Hm2 & Hw & _).
    rewrite Hm' in Hm2. simplify_eq. eauto. }
  unfold fields in Hl. rewrite Hm, Hm' in Hl. pose proof (placed_distinct P a DP Pa) as Da. rewrite Hm in Da.
  apply distinct_object in Da as [Na _].
  assert (m.*1 ≡ₚ m'.*1) as Hp.
  { apply keys_permute; [done..|]. intros k Hk%obj_get_some. destruct (Hsub k Hk) as [w Hw]. apply obj_get_in in Hw.
    apply list_elem_of_fmap. by exists (k, w). }
  split_and!; [done|by eauto| |].
  - intros k. destruct (sub_get a k) as [x|] eqn:Ex.
    + destruct (Hc k x Ex) as (y & Ey & Hxy). rewrite Ey. constructor. split_and!; [exact (sub_get_placed P a k x Pa Ex)|exact (sub_get_placed Q b k y Pb Ey)|done].
    + destruct (sub_get b k) as [y|] eqn:Ey; [|constructor]. exfalso. apply sub_get_Some in Ey as (m2 & w & Hm2 & Hw & _).
      rewrite Hm' in Hm2. simplify_eq. apply obj_get_in in Hw.
      assert (k ∈ m.*1) as Hk by (rewrite Hp; apply list_elem_of_fmap; by exists (k, w)).
      apply obj_get_some in Hk as [v Hv]. assert (sub_get a k = Some (key_child a k v)) by (apply sub_get_Some; eauto). congruence.
  - intros ref Href. destruct (Ht "$ref"%string ref) as (ta & tb & Ea & Eb & Hab); [set_solver|done|].
    exists ta, tb. split_and!; [done..|]. split_and!; [by eapply resolvePointer_placed..|done].
Qed.

Lemma related_elements a b : related a b → Forall2 related (elements_of a) (elements_of b).
Proof.
  intros (Pa & Pb & Hs). destruct Hs as [a b la lb [_ [m Hm]]%mapID_Some [_ [m' Hm']]%mapID_Some _ _|a b l l' Ha Hb Hl Hel|a b _ He He' _ Hna].
  - unfold elements_of. rewrite Hm, Hm'. constructor.
  - apply Forall2_same_length_lookup. split; [by rewrite (length_elements _ _ Ha), (length_elements _ _ Hb)|].
    intros i x y Hx Hy. split_and!; [by eapply element_placed..|by eapply Hel].
  - rewrite He. destruct (val b) as [| | | |l|] eqn:Hb; unfold elements_of; rewrite Hb; try constructor.
    destruct (val a) eqn:Ha; try done. by destruct (Hna l0).
Qed.

Lemma related_value a b : related a b → jsonEqual (val a) (val b) = true.
Proof.
  intros Hr. remember (val a) as v eqn:Hv. revert a b Hv Hr.
  induction v as [|x|lit|s|l IH|m IH] using json_nested; intros a b Hv Hr;
    try (destruct Hr as (_ & _ & Hs); inversion Hs as [? ? ? ? [_ [? ?]]%mapID_Some| |]; simplify_eq; congruence).
  - pose proof (related_elements a b Hr) as He. destruct Hr as (Pa & Pb & Hs).
    inversion Hs as [? ? ? ? [_ [? ?]]%mapID_Some|? ? l1 l' Ha Hb Hl _|]; simplify_eq; try congruence.
    rewrite <-Hv in Ha. simplify_eq. rewrite Hb. apply jsonEqual_arrays. rewrite Forall_forall in IH.
    apply Forall2_same_length_lookup. split; [done|]. intros i v w Hi Hj.
    apply Forall2_same_length_lookup in He as [_ He].
    apply (IH v (list_elem_of_lookup_2 _ _ _ Hi) (idx_child a i v) (idx_child b i w)); [done|].
    eapply He; apply elements_lookup; eauto.
  - symmetry in Hv. destruct (related_object a b m Hr Hv) as (_ & (m' & Hm' & Hp) & Hc & _). rewrite Hm'.
    apply jsonEqual_objects. split; [pose proof (Permutation_length Hp) as Hl; by rewrite !length_fmap in Hl|].
    intros k v Hin. destruct Hr as (Pa & Pb & _). pose proof (placed_distinct P a DP Pa) as Da. rewrite Hv in Da.
    apply distinct_object in Da as [Na _]. pose proof (in_obj_get k v m Na Hin) as Hg.
    assert (sub_get a k = Some (key_child a k v)) as Hx by (apply sub_get_Some; eauto).
    specialize (Hc k). rewrite Hx in Hc. inversion Hc as [? y Hxy Ex Ey|]. simplify_eq. symmetry in Ey.
    pose proof Ey as (m2 & w & Hm2 & Hw & ->)%sub_get_Some. rewrite Hm' in Hm2. simplify_eq. exists w. split; [done|].
    rewrite Forall_forall in IH. by apply (IH (k, v) Hin (key_child a k v) (key_child b k w)).
Qed.

Lemma related_distinct a b : related a b → distinct (val a) = true ∧ distinct (val b) = true.
Proof. intros (Pa & Pb & _). split; [exact (placed_distinct P a DP Pa)|exact (placed_distinct Q b DQ Pb)]. Qed.

Lemma related_fields a b : related a b → (fields a).*1 ≡ₚ (fields b).*1.
Proof.
  intros Hr. pose proof (related_value a b Hr) as Hv. unfold fields. destruct (val a) as [| | | | |m] eqn:Ha;
    try (destruct (val b); done). by destruct (related_object a b m Hr Ha) as (_ & (m' & -> & Hp) & _).
Qed.

Lemma related_get a b k : related a b → option_Forall2 related (sub_get a k) (sub_get b k).
Proof.
  intros Hr. pose proof (related_value a b Hr) as Hv. destruct (val a) as [| | | | |m] eqn:Ha;
    try (unfold sub_get, fields; rewrite Ha; destruct (val b); try done; constructor).
  by destruct (related_object a b m Hr Ha) as (_ & _ & Hc & _).
Qed.

Lemma related_has a b k : related a b → has a k = has b k.
Proof. intros Hr. unfold has. apply bool_decide_ext. by rewrite (related_fields a b Hr). Qed.

Lemma fields_get s root : distinct root = true → placed root s →
  ∀ k v, (k, v) ∈ fields s → sub_get s k = Some (key_child s k v).
Proof.
  intros Hd Hp k v Hin. unfold fields in Hin. destruct (val s) as [| | | | |m] eqn:Hm; try (by apply not_elem_of_nil in Hin).
  apply sub_get_Some. exists m, v. split_and!; [done| |done]. pose proof (placed_distinct root s Hd Hp) as Ds.
  rewrite Hm in Ds. apply distinct_object in Ds as [Ns _]. by apply in_obj_get.
Qed.

(** Loops over the members of a schema object: by key, so that the
    order of the keys does not matter. *)
Lemma members_by_key {B} (F : string → sub → B) (d : B) s root :
  distinct root = true → placed root s →
  (λ kv, F kv.1 (key_child s kv.1 kv.2)) <$> fields s = (λ k, from_option (F k) d (sub_get s k)) <$> (fields s).*1.
Proof.
  intros Hd Hp. rewrite <-list_fmap_compose. apply list_fmap_ext. intros i [k v] Hin.
  simpl. by rewrite (fields_get s root Hd Hp k v) by (by eapply list_elem_of_lookup_2).
Qed.

Lemma loop_related {B} (F G : string → sub → B) a b :
  related a b → (∀ k x y, related x y → F k x = G k y) →
  (λ kv, F kv.1 (key_child a kv.1 kv.2)) <$> fields a ≡ₚ (λ kv, G kv.1 (key_child b kv.1 kv.2)) <$> fields b.
Proof.
  intros Hr HFG. destruct (fields a) as [|kv0 l] eqn:Ef.
  { pose proof (related_fields a b Hr) as Hp. rewrite Ef in Hp. apply Permutation_nil_l in Hp. by destruct (fields b). }
  rewrite <-Ef. set (d := F kv0.1 (key_child a kv0.1 kv0.2)).
  rewrite (members_by_key F d a P DP), (members_by_key G d b Q DQ) by apply Hr.
  rewrite (related_fields a b Hr). apply Permutation_refl'. apply list_fmap_ext. intros i k _.
  destruct (related_get a b k Hr) as [x y Hxy|]; [by apply HFG|done].
Qed.
End related.

Lemma member_distinct x k v : distinct x = true → (k, v) ∈ members x → distinct v = true.
Proof.
  intros Hd Hin. destruct x as [| | | | |m]; try (by apply not_elem_of_nil in Hin).
  apply distinct_object in Hd as [_ Hd]. by eapply Hd.
Qed.

Lemma item_distinct x v : distinct x = true → v ∈ array_items x → distinct v = true.
Proof.
  intros Hd Hin. destruct x as [| | | |l|]; try (by apply not_elem_of_nil in Hin). by eapply distinct_array.
Qed.

Lemma fmap_members {B} (f g : string * json → B) x :
  distinct x = true → (∀ k v, distinct v = true → f (k, v) = g (k, v)) → f <$> members x = g <$> members x.
Proof.
  intros Hd H. apply list_fmap_ext. intros i [k v] Hi. apply H. eapply member_distinct; [done|]. by eapply list_elem_of_lookup_2.
Qed.

Lemma existsb_perm {A} (f : A → bool) l l' : l ≡ₚ l' → existsb f l = existsb f l'.
Proof.
  intros Hp. apply eq_true_iff_eq. rewrite !existsb_exists. setoid_rewrite <-list_elem_of_In.
  split; intros (x & Hx & Hf); exists x; (split; [|done]); [by rewrite <-Hp|by rewrite Hp].
Qed.

Section congruence.
Context (rx : string → option (string → bool)) (fmt : string → json → bool).
Context (P Q : json) (DP : distinct P = true) (DQ : distinct Q = true).
Context (Hdraft : root_draft P = root_draft Q).
Context (S : gset pairKey) (HS : closed P Q S).
Context (ev1 ev2 : sub → json → verdict).
Context (Hev : ∀ a b x, related P Q S a b → distinct x = true → ev1 a x = ev2 b x).
Context (x : json) (Dx : distinct x = true).

Abbreviation related := (related P Q S).

Lemma unapplied_same k : unapplied P k = unapplied Q k.
Proof. unfold unapplied. by rewrite Hdraft. Qed.

Lemma kw_related a b k : related a b → option_Forall2 related (kw P a k) (kw Q b k).
Proof. intros Hr. unfold kw. rewrite unapplied_same. destruct (unapplied Q k); [constructor|]. by apply related_get. Qed.

Lemma on_related a b k f g :
  related a b → (∀ v w, related v w → f v = g w) → on P a k f = on Q b k g.
Proof. intros Hr Hfg. unfold on. destruct (kw_related a b k Hr); [by apply Hfg|done]. Qed.

(** The kinds of two related values agree. *)
Ltac kinds p q Hr :=
  pose proof (related_value P Q DP DQ S HS p q Hr);
  destruct (val p) eqn:?, (val q) eqn:?; try done.

Lemma ok_properties_related p q : related p q → ok_properties ev1 x p = ok_properties ev2 x q.
Proof.
  intros Hr. unfold ok_properties. kinds p q Hr. f_equal. apply fmap_members; [done|]. intros k v Dv. simpl.
  destruct (related_get P Q DP DQ S HS p q k Hr); [by apply Hev|done].
Qed.

Lemma by_patterns_related p q kv : related p q → distinct kv.2 = true → by_patterns rx ev1 p kv ≡ₚ by_patterns rx ev2 q kv.
Proof.
  intros Hr Dv. unfold by_patterns.
  apply (loop_related P Q DP DQ S HS
    (λ k s, match rx k with None => None | Some m => if m kv.1 then ev1 s kv.2 else Some true end)
    (λ k s, match rx k with None => None | Some m => if m kv.1 then ev2 s kv.2 else Some true end)); [done|].
  intros k s t Hst. destruct (rx k) as [m|]; [|done]. destruct (m kv.1); [by apply Hev|done].
Qed.

Lemma ok_patterns_related p q : related p q → ok_patterns rx ev1 x p = ok_patterns rx ev2 x q.
Proof.
  intros Hr. unfold ok_patterns. kinds p q Hr. apply v_all_perm.
  assert (∀ k v, (k, v) ∈ members x → distinct v = true) as Hm by (intros k v; by apply member_distinct).
  induction (members x) as [|[k v] l IH]; [done|]. csimpl. f_equiv.
  - apply by_patterns_related; [done|]. apply (Hm k v). apply list_elem_of_here.
  - apply IH. intros k' v' Hin. apply (Hm k' v'). by apply list_elem_of_further.
Qed.

Lemma ok_prefix_related p q : related p q → ok_prefix ev1 x p = ok_prefix ev2 x q.
Proof.
  intros Hr. unfold ok_prefix. pose proof (related_elements P Q S p q Hr) as He. kinds p q Hr. f_equal.
  assert (∀ v, v ∈ array_items x → distinct v = true) as Hm by (intros v; by apply item_distinct).
  revert He Hm. generalize (elements_of p) (elements_of q) (array_items x). clear -Hev. intros a b l He. revert l.
  induction He as [|s t a b Hst _ IH]; intros [|v l] Hm; try done. simpl. f_equal; [apply Hev; set_solver|]. apply IH. set_solver.
Qed.

Lemma ev_items c d (l : list json) : related c d → (∀ v, v ∈ l → distinct v = true) → ev1 c <$> l = ev2 d <$> l.
Proof. intros Hr Hl. apply list_fmap_ext. intros i v Hi. apply Hev; [done|]. apply Hl. by eapply list_elem_of_lookup_2. Qed.

Lemma ok_branches_related comb p q : related p q → ok_branches ev1 comb x p = ok_branches ev2 comb x q.
Proof.
  intros Hr. unfold ok_branches. pose proof (related_elements P Q S p q Hr) as He. kinds p q Hr. f_equal.
  apply list_eq_Forall2, Forall2_fmap. eapply Forall2_impl; [done|]. intros a b Hab. by apply Hev.
Qed.

Lemma ok_names_related p q : related p q → ok_names ev1 x p = ok_names ev2 x q.
Proof. intros Hr. unfold ok_names. f_equal. apply fmap_members; [done|]. intros k v _. by apply Hev. Qed.

Lemma ok_dependent_related f g p q :
  related p q → (∀ s t, related s t → f s = g t) → ok_dependent f x p = ok_dependent g x q.
Proof.
  intros Hr Hfg. unfold ok_dependent. destruct x as [| | | | |m]; try done. kinds p q Hr. apply v_all_perm.
  pose (F := λ (h : sub → verdict) (k : string) (s : sub), if bool_decide (k ∈ m.*1) then h s else Some true).
  apply (loop_related P Q DP DQ S HS (F f) (F g)); [done|].
  intros k s t Hst. unfold F. case_bool_decide; [by apply Hfg|done].
Qed.

Lemma needs_names_related s t : related s t → needs_names x s = needs_names x t.
Proof. intros Hr. unfold needs_names. by rewrite (stringSet_equal _ _ (related_value P Q DP DQ S HS s t Hr)). Qed.

Lemma names_or_schema_related s t : related s t → names_or_schema ev1 x s = names_or_schema ev2 x t.
Proof.
  intros Hr. unfold names_or_schema. pose proof (needs_names_related s t Hr) as Hn. pose proof (Hev s t x Hr Dx) as He.
  unfold is_tuple. kinds s t Hr.
Qed.

Lemma extra_related a b k : related a b → extra rx P a k = extra rx Q b k.
Proof.
  intros Hr. unfold extra. f_equal; f_equal.
  - destruct (kw_related a b "properties" Hr) as [p q Hpq|]; [|done]. by apply (related_has P Q DP DQ S HS).
  - destruct (kw_related a b "patternProperties" Hr) as [p q Hpq|]; [|done]. simpl. apply existsb_perm.
    by apply (related_fields P Q DP DQ S HS).
Qed.

Lemma prefix_length_related a b : related a b → prefix_length P a = prefix_length Q b.
Proof.
  intros Hr. unfold prefix_length. destruct (kw_related a b "prefixItems" Hr) as [p q Hpq|]; [|done].
  exact (Forall2_length _ _ _ (related_elements P Q S p q Hpq)).
Qed.

Lemma number_or_related d a b k : related a b → option_Forall2 Qeq (number_or d (kw P a k)) (number_or d (kw Q b k)).
Proof.
  intros Hr. unfold number_or. destruct (kw_related a b k Hr) as [v w Hvw|].
  - by apply ratOf_equal, (related_value P Q DP DQ S HS).
  - destruct d; constructor. reflexivity.
Qed.

Lemma ok_contains_related a b c d : related a b → related c d → ok_contains P ev1 a x c = ok_contains Q ev2 b x d.
Proof.
  intros Hab Hcd. unfold ok_contains. destruct x as [| | | |l|]; try done.
  rewrite (ev_items c d l Hcd (proj1 (distinct_array l) Dx)). destruct (v_count (ev2 d <$> l)) as [n|]; [|done]. simpl.
  destruct (number_or_related (Some 1%Q) a b "minContains" Hab) as [p q Hpq|]; [|done]. simpl.
  destruct (number_or_related (Some (inject_Z (Z.of_nat n))) a b "maxContains" Hab) as [p' q' Hpq'|]; [|done]. simpl.
  f_equal. f_equal; by apply Qle_bool_proper.
Qed.

Lemma ok_if_related a b c d : related a b → related c d → ok_if P ev1 a x c = ok_if Q ev2 b x d.
Proof.
  intros Hab Hcd. unfold ok_if. rewrite (Hev c d x Hcd Dx). destruct (ev2 d x) as [r|]; [|done]. simpl.
  apply on_related; [done|]. intros v w Hvw. by apply Hev.
Qed.

Lemma ok_items_related a b i j : related a b → related i j → ok_items P ev1 a x i = ok_items Q ev2 b x j.
Proof.
  intros Hab Hij. unfold ok_items. rewrite (prefix_length_related a b Hab).
  assert (is_tuple i = is_tuple j) as -> by (unfold is_tuple; kinds i j Hij).
  destruct (is_tuple j); [done|]. f_equal. apply ev_items; [done|]. intros v Hv. eapply item_distinct; [exact Dx|].
  eapply subseteq_drop, Hv.
Qed.

Lemma ok_additional_related a b i j : related a b → related i j → ok_additional rx P ev1 a x i = ok_additional rx Q ev2 b x j.
Proof.
  intros Hab Hij. unfold ok_additional. f_equal. apply fmap_members; [done|]. intros k v Dv. simpl.
  rewrite (extra_related a b k Hab). destruct (extra rx Q b k); [by apply Hev|done].
Qed.

Lemma applicators_related a b : related a b → applicators rx P ev1 a x = applicators rx Q ev2 b x.
Proof.
  intros Hr. unfold applicators. repeat (apply (f_equal2 cons); [apply on_related; [done|intros v w Hvw]|]); [..|done].
  - by apply ok_properties_related.
  - by apply ok_patterns_related.
  - by apply ok_additional_related.
  - by apply ok_items_related.
  - by apply ok_prefix_related.
  - by apply ok_contains_related.
  - by apply ok_branches_related.
  - by apply ok_branches_related.
  - by apply ok_branches_related.
  - unfold ok_not. by rewrite (Hev v w x Hvw Dx).
  - by apply ok_if_related.
  - by apply ok_names_related.
  - apply ok_dependent_related; [done|]. by apply needs_names_related.
  - apply ok_dependent_related; [done|]. intros s t Hst. by apply Hev.
  - apply ok_dependent_related; [done|]. by apply names_or_schema_related.
Qed.

Lemma value_keywords_related a b : related a b → value_keywords rx fmt P a x = value_keywords rx fmt Q b x.
Proof.
  intros Hr. unfold value_keywords.
  repeat (apply (f_equal2 cons); [apply on_related; [done|intros v w Hvw]|]); [..|done];
    pose proof (related_value P Q DP DQ S HS v w Hvw) as He; destruct (related_distinct P Q DP DQ S v w Hvw) as [Dv Dw];
    first [by apply ok_type_equal | by apply ok_enum_equal | by apply ok_const_equal | by apply ok_number_equal
          | by apply ok_multiple_equal | by apply ok_length_equal | by apply ok_pattern_equal | by apply ok_format_equal
          | by apply ok_unique_equal | by apply ok_required_equal].
Qed.

Lemma existsb_fun {A} (f g : A → bool) l : (∀ k, f k = g k) → existsb f l = existsb g l.
Proof. intros H. induction l as [|k l IH]; [done|]. simpl. by rewrite H, IH. Qed.

Lemma constrains_related a b : related a b → constrains (unapplied P) a = constrains (unapplied Q) b.
Proof.
  intros Hr. unfold constrains. rewrite (existsb_perm _ _ _ (related_fields P Q DP DQ S HS a b Hr)).
  apply existsb_fun. intros k. by rewrite unapplied_same.
Qed.

Lemma outside_related a b m : related a b → val a = JObject m → outside P a = outside Q b.
Proof.
  intros Hr Hm. unfold outside. rewrite (constrains_related a b Hr), (related_has P Q DP DQ S HS a b "$id" Hr).
  destruct (related_object P Q DP DQ S HS a b m Hr Hm) as (Hroot & (m' & Hm' & _) & _).
  assert (isRootObject a = isRootObject b) as ->.
  { unfold isRootObject, mapID. rewrite Hm, Hm'. by apply bool_decide_ext. }
  f_equal. rewrite (existsb_perm _ _ _ (related_fields P Q DP DQ S HS a b Hr)). apply existsb_fun. intros k. by rewrite unapplied_same.
Qed.

Lemma keywords_related a b m : related a b → val a = JObject m → keywords rx fmt P ev1 a x = keywords rx fmt Q ev2 b x.
Proof.
  intros Hr Hm. unfold keywords. by rewrite (outside_related a b m Hr Hm), (value_keywords_related a b Hr), (applicators_related a b Hr).
Qed.

Lemma apply_schema_related a b : related a b → apply_schema rx fmt P ev1 a x = apply_schema rx fmt Q ev2 b x.
Proof.
  intros Hr. unfold apply_schema. pose proof (related_value P Q DP DQ S HS a b Hr) as Hv.
  destruct (val a) as [|r| | | |m] eqn:Ha; try (by destruct (val b)).
  { destruct (val b) as [|r'| | | |]; try done. by destruct r, r'. }
  clear Hv.
  destruct (related_object P Q DP DQ S HS a b m Hr Ha) as (_ & (m' & -> & _) & Hc & Ht).
  rewrite (keywords_related a b m Hr Ha). unfold ref_alone. rewrite Hdraft. specialize (Hc "$ref"%string).
  destruct (sub_get a "$ref") as [r|] eqn:Era; inversion Hc as [? r' Hrr Ex Ey|]; simplify_eq; [|done].
  assert (follow_ref P ev1 x r = follow_ref Q ev2 x r') as ->; [|done].
  unfold follow_ref. pose proof (related_value P Q DP DQ S HS r r' Hrr) as He.
  destruct (val r) as [| | |ref| |] eqn:Hv; try (by destruct (val r')).
  destruct (Ht ref Hv) as (ta & tb & Ea & Eb & Hab). destruct (val r'); try done. apply bool_decide_eq_true in He as <-. rewrite Ea, Eb. by apply Hev.
Qed.
End congruence.

(** Related subschemas agree after every number of applications. *)
Lemma lockstep rx fmt P Q S n a b x :
  distinct P = true → distinct Q = true → root_draft P = root_draft Q → closed P Q S → related P Q S a b →
  distinct x = true → eval rx fmt P n a x = eval rx fmt Q n b x.
Proof.
  intros DP DQ Hd HS. revert a b x. induction n as [|n IH]; intros a b x Hr Dx; [done|]. simpl.
  eapply apply_schema_related; eauto.
Qed.
