(* ===== verification/SchemaKeywords.v ===== *)
(** * Value keywords only loosen

    One lemma per keyword of [internal/platform/schema/compatibility.go]
    that judges a value without applying a subschema: when the check of
    the keyword passes, an instance that satisfies the keyword in the
    previous version satisfies it in the new one. *)

From S2P Require Import Prelude Decimal Keys Json SchemaValue SchemaCompat SchemaSpec SchemaEqual SchemaLockstep.
Open Scope Z_scope.

(** ** Keywords no draft leaves out *)

Definition draft_dependent : list string :=
  ["const"; "contains"; "propertyNames"; "if"; "then"; "else"; "minContains"; "maxContains"; "dependentRequired";
   "dependentSchemas"; "unevaluatedItems"; "unevaluatedProperties"; "$recursiveRef"; "$recursiveAnchor"; "prefixItems";
   "$dynamicRef"; "$dynamicAnchor"; "additionalItems"]%string.

Lemma ignored_listed draft : forallb (λ k, isin k draft_dependent) (ignoredByDraft draft) = true.
Proof. unfold ignoredByDraft. repeat case_decide; vm_compute; reflexivity. Qed.

Lemma always_applied root k : isin k draft_dependent = false → unapplied root k = false.
Proof.
  intros Hk. apply not_true_iff_false. intros Hin%bool_decide_eq_true. pose proof (ignored_listed (root_draft root)) as Hl.
  rewrite forallb_forall in Hl. apply list_elem_of_In, Hl in Hin. congruence.
Qed.

Lemma kw_always root s k : isin k draft_dependent = false → kw root s k = sub_get s k.
Proof. intros H. unfold kw. by rewrite always_applied. Qed.

Lemma kw_Some root s k v : kw root s k = Some v ↔ unapplied root k = false ∧ sub_get s k = Some v.
Proof. unfold kw. destruct (unapplied root k); naive_solver. Qed.

Lemma on_true root s k f : on root s k f = Some true ↔ ∀ v, kw root s k = Some v → f v = Some true.
Proof. unfold on. destruct (kw root s k); naive_solver. Qed.

(** ** [type] *)

Lemma has_type_widens x : has_type x "integer" = true → has_type x "number" = true.
Proof. by destruct x. Qed.

Lemma checkType_sound x pv w :
  checkType (any pv) (val w) = true → (∀ v, pv = Some v → ok_type x v = Some true) → ok_type x w = Some true.
Proof.
  unfold checkType, ok_type. intros Hc Hp. destruct (typeSet (val w)) as [[new|]|]; [|done..].
  destruct pv as [v|]; [|done]. specialize (Hp v eq_refl). simpl in Hc. destruct (typeSet (val v)) as [[old|]|]; [|done..].
  simplify_eq. f_equal. match goal with H : existsb _ old = true |- _ => apply existsb_exists in H as (t & Ht & Hx) end.
  rewrite forallb_forall in Hc. specialize (Hc t Ht). apply orb_true_iff in Hc as [Hin|Hin].
  - apply existsb_exists. exists t. split; [|done]. apply list_elem_of_In. by apply bool_decide_eq_true in Hin.
  - apply andb_true_iff in Hin as [->%bool_decide_eq_true Hin%bool_decide_eq_true]. apply existsb_exists. exists "number"%string.
    split; [by apply list_elem_of_In|by apply has_type_widens].
Qed.

(** ** Numeric bounds *)

(** What a bound demands of a number. *)
Definition over (b : bound) (q : Q) : bool := if b_exclusive b then above (b_value b) q else at_least (b_value b) q.
Definition under (b : bound) (q : Q) : bool := if b_exclusive b then below (b_value b) q else at_most (b_value b) q.

Lemma above_iff b q : above b q = true ↔ (b < q)%Q.
Proof. unfold above. rewrite negb_true_iff, <-not_true_iff_false, Qle_bool_iff. split; [apply Qnot_le_lt|apply Qlt_not_le]. Qed.
Lemma below_iff b q : below b q = true ↔ (q < b)%Q.
Proof. unfold below. rewrite negb_true_iff, <-not_true_iff_false, Qle_bool_iff. split; [apply Qnot_le_lt|apply Qlt_not_le]. Qed.
Lemma at_least_iff b q : at_least b q = true ↔ (b <= q)%Q.
Proof. apply Qle_bool_iff. Qed.
Lemma at_most_iff b q : at_most b q = true ↔ (q <= b)%Q.
Proof. apply Qle_bool_iff. Qed.

Lemma over_iff b q : over b q = true ↔ if b_exclusive b then (b_value b < q)%Q else (b_value b <= q)%Q.
Proof. unfold over. destruct (b_exclusive b); [apply above_iff|apply at_least_iff]. Qed.
Lemma under_iff b q : under b q = true ↔ if b_exclusive b then (q < b_value b)%Q else (q <= b_value b)%Q.
Proof. unfold under. destruct (b_exclusive b); [apply below_iff|apply at_most_iff]. Qed.

Lemma compare_lt p q : Qcompare p q = Lt → (p < q)%Q.
Proof. apply Qlt_alt. Qed.
Lemma compare_gt p q : Qcompare p q = Gt → (q < p)%Q.
Proof. apply Qgt_alt. Qed.
Lemma compare_eq p q : Qcompare p q = Eq → (p == q)%Q.
Proof. apply Qeq_alt. Qed.

Ltac qcompare :=
  match goal with
  | |- context [Qcompare ?a ?b] => destruct (Qcompare a b) eqn:?
  | H : context [Qcompare ?a ?b] |- _ => destruct (Qcompare a b) eqn:?
  end;
  repeat match goal with
  | H : Qcompare _ _ = Eq |- _ => apply compare_eq in H
  | H : Qcompare _ _ = Lt |- _ => apply compare_lt in H
  | H : Qcompare _ _ = Gt |- _ => apply compare_gt in H
  end.

Ltac qorder := eauto using Qle_trans, Qlt_le_weak, Qle_lt_trans, Qlt_le_trans, Qlt_trans.

(** The folded bound is the conjunction of the two keywords. *)
Lemma lowerBound_spec obj b :
  lowerBound obj = Some b →
  (∀ q, (∀ v r, sub_get obj "minimum" = Some v → ratOf (val v) = Some r → (r <= q)%Q) →
        (∀ v r, sub_get obj "exclusiveMinimum" = Some v → ratOf (val v) = Some r → (r < q)%Q) →
        ∀ b', b = Some b' → over b' q = true) ∧
  (∀ v, sub_get obj "minimum" = Some v → ∃ r b', ratOf (val v) = Some r ∧ b = Some b' ∧ ∀ q, over b' q = true → (r <= q)%Q) ∧
  (∀ v, sub_get obj "exclusiveMinimum" = Some v → ∃ r b', ratOf (val v) = Some r ∧ b = Some b' ∧ ∀ q, over b' q = true → (r < q)%Q).
Proof.
  unfold lowerBound, foldBound. setoid_rewrite over_iff. intros H.
  destruct (sub_get obj "minimum") as [i|], (sub_get obj "exclusiveMinimum") as [e|]; simpl in H;
    try (destruct (ratOf (val i)) as [ri|] eqn:Hi; [|done]); simpl in H;
    try (destruct (ratOf (val e)) as [re|] eqn:He; [|done]); simpl in H; simplify_eq;
    try (qcompare; simpl in *; simplify_eq);
    (split_and!; [intros q H1 H2 b' Hb'; simplify_eq; simpl; eauto|intros v Hv; simplify_eq|intros v Hv; simplify_eq]);
    try (do 2 eexists; split_and!; [done|done|]; intros q; simpl; intros Hq; simpl in *).
  all: try done; try (by qorder).
  all: match goal with H : (_ == _)%Q |- _ => rewrite <-H || rewrite H end; by qorder.
Qed.

Lemma upperBound_spec obj b :
  upperBound obj = Some b →
  (∀ q, (∀ v r, sub_get obj "maximum" = Some v → ratOf (val v) = Some r → (q <= r)%Q) →
        (∀ v r, sub_get obj "exclusiveMaximum" = Some v → ratOf (val v) = Some r → (q < r)%Q) →
        ∀ b', b = Some b' → under b' q = true) ∧
  (∀ v, sub_get obj "maximum" = Some v → ∃ r b', ratOf (val v) = Some r ∧ b = Some b' ∧ ∀ q, under b' q = true → (q <= r)%Q) ∧
  (∀ v, sub_get obj "exclusiveMaximum" = Some v → ∃ r b', ratOf (val v) = Some r ∧ b = Some b' ∧ ∀ q, under b' q = true → (q < r)%Q).
Proof.
  unfold upperBound, foldBound. setoid_rewrite under_iff. intros H.
  destruct (sub_get obj "maximum") as [i|], (sub_get obj "exclusiveMaximum") as [e|]; simpl in H;
    try (destruct (ratOf (val i)) as [ri|] eqn:Hi; [|done]); simpl in H;
    try (destruct (ratOf (val e)) as [re|] eqn:He; [|done]); simpl in H; simplify_eq;
    try (qcompare; simpl in *; simplify_eq);
    (split_and!; [intros q H1 H2 b' Hb'; simplify_eq; simpl; eauto|intros v Hv; simplify_eq|intros v Hv; simplify_eq]);
    try (do 2 eexists; split_and!; [done|done|]; intros q; simpl; intros Hq; simpl in *).
  all: try done; try (by qorder).
  all: match goal with H : (_ == _)%Q |- _ => rewrite <-H || rewrite H end; by qorder.
Qed.

(** A bound is set by one of its keywords. *)
Lemma foldBound_set obj i e c b :
  foldBound obj i e c = Some (Some b) → is_Some (sub_get obj i) ∨ is_Some (sub_get obj e).
Proof.
  unfold foldBound. destruct (sub_get obj i); [by left; eauto|]. destruct (sub_get obj e); [by right; eauto|]. done.
Qed.

Lemma looser_lower p n q : looserOrEqual p n Lt = true → over p q = true → over n q = true.
Proof.
  rewrite !over_iff. unfold looserOrEqual. qcompare; intros Hc Hq; try (by apply bool_decide_eq_true in Hc).
  - destruct (b_exclusive n), (b_exclusive p); try done; rewrite Heqc; qorder.
  - destruct (b_exclusive n), (b_exclusive p); qorder.
Qed.

Lemma looser_upper p n q : looserOrEqual p n Gt = true → under p q = true → under n q = true.
Proof.
  rewrite !under_iff. unfold looserOrEqual. qcompare; intros Hc Hq; try (by apply bool_decide_eq_true in Hc).
  - destruct (b_exclusive n), (b_exclusive p); try done; rewrite Heqc; qorder.
  - destruct (b_exclusive n), (b_exclusive p); qorder.
Qed.

(** The instance meets both keywords of a side. *)
Definition meets (s : sub) (x : json) (i e : string) (ri re : Q → Q → bool) : Prop :=
  (∀ v, sub_get s i = Some v → ok_number x ri v = Some true) ∧ (∀ v, sub_get s e = Some v → ok_number x re v = Some true).

Lemma meets_trivial s x i e ri re : (∀ lit, x ≠ JNumber lit) → meets s x i e ri re.
Proof. intros Hx. destruct x; try (by split); by destruct (Hx lit). Qed.

Lemma meets_readable s lit i e ri re :
  meets s (JNumber lit) i e ri re → is_Some (sub_get s i) ∨ is_Some (sub_get s e) → ∃ r, ratOf (JNumber lit) = Some r.
Proof.
  intros [Hi He] [[v Hv]|[v Hv]]; [specialize (Hi v Hv)|specialize (He v Hv)];
    unfold ok_number in *; destruct (ratOf (JNumber lit)); eauto; done.
Qed.

Lemma ok_number_iff lit r rel v : ratOf (JNumber lit) = Some r →
  ok_number (JNumber lit) rel v = Some true ↔ ∃ b, ratOf (val v) = Some b ∧ rel b r = true.
Proof.
  intros Hr. unfold ok_number. rewrite Hr. destruct (ratOf (val v)) as [b|].
  - split; [intros [= H]; eauto|]. by intros (b' & [= <-] & ->).
  - split; [done|]. by intros (b' & ? & _).
Qed.

Lemma lower_sound p q x :
  checkBound lowerBound Lt p q = true → meets p x "minimum" "exclusiveMinimum" at_least above →
  meets q x "minimum" "exclusiveMinimum" at_least above.
Proof.
  unfold checkBound. intros Hc Hm. destruct x as [| |lit| | |]; try (by apply meets_trivial).
  destruct (lowerBound q) as [bn|] eqn:Hn; [|done]. destruct (lowerBound_spec q bn Hn) as (_ & Hi & He).
  destruct bn as [n|]; [|split; [intros v Hv; by destruct (Hi v Hv) as (? & ? & _ & ? & _)|intros v Hv; by destruct (He v Hv) as (? & ? & _ & ? & _)]].
  destruct (lowerBound p) as [[b|]|] eqn:Hb; [|done..]. destruct (lowerBound_spec p _ Hb) as (Hall & _ & _).
  destruct (meets_readable _ _ _ _ _ _ Hm (foldBound_set p "minimum" "exclusiveMinimum" Gt b Hb)) as [r Hr].
  assert (over n r = true) as Hover.
  { eapply looser_lower; [done|]. apply (Hall r); [| |done].
    - intros v s Hv Hs. apply at_least_iff. destruct (proj1 (ok_number_iff _ r _ v Hr) (proj1 Hm v Hv)) as (? & ? & ?). by simplify_eq.
    - intros v s Hv Hs. apply above_iff. destruct (proj1 (ok_number_iff _ r _ v Hr) (proj2 Hm v Hv)) as (? & ? & ?). by simplify_eq. }
  split; intros v Hv; apply (ok_number_iff _ r); try done.
  - destruct (Hi v Hv) as (s & ? & Hs & [= <-] & Hq). exists s. split; [done|]. by apply at_least_iff, Hq.
  - destruct (He v Hv) as (s & ? & Hs & [= <-] & Hq). exists s. split; [done|]. by apply above_iff, Hq.
Qed.

Lemma upper_sound p q x :
  checkBound upperBound Gt p q = true → meets p x "maximum" "exclusiveMaximum" at_most below →
  meets q x "maximum" "exclusiveMaximum" at_most below.
Proof.
  unfold checkBound. intros Hc Hm. destruct x as [| |lit| | |]; try (by apply meets_trivial).
  destruct (upperBound q) as [bn|] eqn:Hn; [|done]. destruct (upperBound_spec q bn Hn) as (_ & Hi & He).
  destruct bn as [n|]; [|split; [intros v Hv; by destruct (Hi v Hv) as (? & ? & _ & ? & _)|intros v Hv; by destruct (He v Hv) as (? & ? & _ & ? & _)]].
  destruct (upperBound p) as [[b|]|] eqn:Hb; [|done..]. destruct (upperBound_spec p _ Hb) as (Hall & _ & _).
  destruct (meets_readable _ _ _ _ _ _ Hm (foldBound_set p "maximum" "exclusiveMaximum" Lt b Hb)) as [r Hr].
  assert (under n r = true) as Hunder.
  { eapply looser_upper; [done|]. apply (Hall r); [| |done].
    - intros v s Hv Hs. apply at_most_iff. destruct (proj1 (ok_number_iff _ r _ v Hr) (proj1 Hm v Hv)) as (? & ? & ?). by simplify_eq.
    - intros v s Hv Hs. apply below_iff. destruct (proj1 (ok_number_iff _ r _ v Hr) (proj2 Hm v Hv)) as (? & ? & ?). by simplify_eq. }
  split; intros v Hv; apply (ok_number_iff _ r); try done.
  - destruct (Hi v Hv) as (s & ? & Hs & [= <-] & Hq). exists s. split; [done|]. by apply at_most_iff, Hq.
  - destruct (He v Hv) as (s & ? & Hs & [= <-] & Hq). exists s. split; [done|]. by apply below_iff, Hq.
Qed.

(** ** [enum] and [const] *)

Lemma jsonEqual_readable a b : jsonEqual a b = true → readable a = true.
Proof.
  revert b. induction a as [|x|lit|s|l IH|m IH] using json_nested; intros [|y|lit'|s'|l'|m'] H; try done.
  - simpl in *. unfold numbers_equal in H. apply bool_decide_eq_true. destruct (rat_literal lit); by eauto.
  - apply jsonEqual_arrays in H. simpl. apply forallb_forall. intros v Hv%list_elem_of_In. rewrite Forall_forall in IH.
    apply list_elem_of_lookup in Hv as [i Hi]. destruct (Forall2_lookup_l _ _ _ _ _ H Hi) as (w & _ & Hw).
    eapply IH; [by eapply list_elem_of_lookup_2|done].
  - apply jsonEqual_objects in H as [_ H]. simpl. apply forallb_forall. intros [k v] Hv%list_elem_of_In.
    destruct (H k v Hv) as (w & _ & Hw). rewrite Forall_forall in IH. exact (IH (k, v) Hv w Hw).
Qed.

Definition meets_values (ic : bool) (s : sub) (x : json) : Prop :=
  (ic = false → ∀ v, sub_get s "const" = Some v → ok_const x v = Some true) ∧
  (∀ v, sub_get s "enum" = Some v → ok_enum x v = Some true).

Lemma sub_get_distinct s k v : distinct (val s) = true → sub_get s k = Some v → distinct (val v) = true.
Proof.
  intros Hd (m & w & Hm & Hw & ->)%sub_get_Some. rewrite Hm in Hd. apply distinct_object in Hd as [_ Hd]. by eapply Hd, obj_get_in.
Qed.

Lemma ok_enum_iff x v l : val v = JArray l → ok_enum x v = Some true ↔ ∃ w, w ∈ l ∧ jsonEqual x w = true.
Proof.
  intros Hl. unfold ok_enum. rewrite Hl. split.
  - intros [= H]. apply existsb_exists in H as (w & Hw & He). exists w. by rewrite list_elem_of_In.
  - intros (w & Hw & He). f_equal. apply existsb_exists. exists w. by rewrite <-list_elem_of_In.
Qed.

Lemma valueSet_enum s l x ev :
  sub_get s "enum" = Some ev → val ev = JArray l →
  (∀ v, sub_get s "enum" = Some v → ok_enum x v = Some true) ↔ ∃ w, w ∈ l ∧ jsonEqual x w = true.
Proof. intros He Hl. rewrite <-(ok_enum_iff x ev l Hl). split; [by intros H; apply H|]. intros H v Hv. by simplify_eq. Qed.

Lemma valueSet_spec ic s vs x :
  distinct (val s) = true → distinct x = true → valueSet s ic = Some (Some vs) →
  meets_values ic s x ↔ ∃ v, v ∈ vs ∧ jsonEqual x v = true.
Proof.
  intros Ds Dx. unfold valueSet, meets_values.
  destruct (sub_get s "enum") as [ev|] eqn:He.
  - pose proof (sub_get_distinct s "enum" ev Ds He) as Dev. destruct (val ev) as [| | | |l|] eqn:Hl.
    all: try (destruct (if ic then None else sub_get s "const"); done).
    rewrite distinct_array in Dev. rewrite <-He, (valueSet_enum s l x ev He Hl).
    destruct ic; [intros [= <-]; naive_solver|].
    destruct (sub_get s "const") as [cv|] eqn:Hc; [|intros [= <-]; naive_solver].
    pose proof (sub_get_distinct s "const" cv Ds Hc) as Dcv. unfold ok_const. intros [= <-]. split.
    + intros [H1 (w & Hw & Hxw)]. specialize (H1 eq_refl cv eq_refl). injection H1 as H1. exists (val cv). split; [|done].
      assert (existsb (λ v, jsonEqual v (val cv)) l = true) as ->; [|set_solver]. apply existsb_exists. exists w.
      split; [by apply list_elem_of_In|]. eapply jsonEqual_trans; [|exact H1]. apply jsonEqual_sym; [done|by apply Dev|done].
    + intros (v & Hv & Hxv). destruct (existsb _ l) eqn:Hx; [|by apply not_elem_of_nil in Hv].
      apply list_elem_of_singleton in Hv as ->. split; [intros _ v [= <-]; by rewrite Hxv|].
      apply existsb_exists in Hx as (w & Hw & Hwc). apply list_elem_of_In in Hw. exists w. split; [done|].
      eapply jsonEqual_trans; [exact Hxv|]. apply jsonEqual_sym; [by apply Dev|done|done].
  - destruct ic; [done|]. destruct (sub_get s "const") as [cv|] eqn:Hc; [|done]. intros [= <-]. unfold ok_const. split.
    + intros [H1 _]. specialize (H1 eq_refl cv eq_refl). injection H1 as H1. exists (val cv). set_solver.
    + intros (v & ->%list_elem_of_singleton & Hv). split; [intros _ v [= <-]; by rewrite Hv|done].
Qed.

Lemma valueSet_none ic s x : valueSet s ic = Some None → meets_values ic s x.
Proof.
  unfold valueSet, meets_values. destruct (sub_get s "enum") as [ev|].
  - destruct (if ic then None else sub_get s "const"); destruct (val ev); done.
  - destruct ic; [done|]. by destruct (sub_get s "const").
Qed.

Lemma checkEnumConst_sound ic p q x :
  distinct (val p) = true → distinct (val q) = true → distinct x = true →
  checkEnumConst ic p q = true → meets_values ic p x → meets_values ic q x.
Proof.
  intros Dp Dq Dx. unfold checkEnumConst. destruct (valueSet q ic) as [[new|]|] eqn:Hn; [|intros _ _; by apply valueSet_none|done].
  destruct (valueSet p ic) as [[old|]|] eqn:Ho; [|done..]. rewrite forallb_forall. intros Hall.
  rewrite (valueSet_spec ic p old x Dp Dx Ho), (valueSet_spec ic q new x Dq Dx Hn). intros (v & Hv & Hxv).
  specialize (Hall v (proj1 (list_elem_of_In _ _) Hv)). apply bool_decide_eq_true in Hall as (w & Hw & Hin)%list_elem_of_fmap.
  exists w. split; [done|]. eapply jsonEqual_trans; [exact Hxv|].
  assert (∀ s vs u, distinct (val s) = true → valueSet s ic = Some (Some vs) → u ∈ vs → distinct u = true) as Hd.
  { clear. intros s vs u Ds Hs Hu. unfold valueSet in Hs.
    destruct (sub_get s "enum") as [ev|] eqn:He, ic; try (destruct (sub_get s "const") as [cv|] eqn:Hc);
      try (pose proof (sub_get_distinct s _ ev Ds He) as De; destruct (val ev) eqn:Hev; try done; rewrite distinct_array in De);
      try (pose proof (sub_get_distinct s _ cv Ds Hc) as Dc); simplify_eq; try (by apply De);
      try (destruct (existsb _ _)); set_solver. }
  pose proof (Hd p old v Dp Ho Hv) as Dv. pose proof (Hd q new w Dq Hn Hin) as Dw.
  assert (readable v = true) as Rv by (eapply jsonEqual_readable, jsonEqual_sym; [exact Dx|exact Dv|done]).
  destruct (canon_tells_all v w [] [] Rv Dv Dw) as [? _]; [by rewrite Hw|done].
Qed.

(** ** [multipleOf] *)

Lemma positive_rat_pos v p : positive_rat v = Some p → ratOf v = Some p ∧ (0 < p)%Q.
Proof.
  unfold positive_rat. destruct (ratOf v) as [q|]; [|done]. simpl. destruct (Z.ltb_spec 0 (Qnum q)) as [Hq|]; [|done].
  intros [= <-]. split; [done|]. unfold Qlt. simpl. lia.
Qed.

Lemma multiple_trans q p n : (0 < p)%Q → (0 < n)%Q → is_int (q / p) = true → is_int (p / n) = true → is_int (q / n) = true.
Proof.
  intros Hp Hn. rewrite !is_int_spec. intros [a Ha] [b Hb]. exists (a * b). rewrite inject_Z_mult, <-Ha, <-Hb.
  field. split; intros E; [rewrite E in Hn; by apply Qlt_irrefl in Hn|rewrite E in Hp; by apply Qlt_irrefl in Hp].
Qed.

Lemma checkMultipleOf_sound x pv w :
  checkMultipleOf (any pv) (val w) = true → (∀ v, pv = Some v → ok_multiple x v = Some true) → ok_multiple x w = Some true.
Proof.
  intros Hc Hp. unfold ok_multiple. destruct x as [| |lit| | |]; try done. assert (val w = JNull ∨ val w ≠ JNull) as [->|Hw] by (destruct (val w); by auto); [done|].
  assert (∃ n p, positive_rat (val w) = Some n ∧ positive_rat (any pv) = Some p ∧ is_int (p / n) = true) as (n & p & Hn & Hpp & Hi).
  { unfold checkMultipleOf in Hc. destruct (val w); try done; destruct (positive_rat _) as [n|]; try done;
      destruct (positive_rat (any pv)) as [p|]; try done; eauto. }
  destruct pv as [v|]; [|done]. specialize (Hp v eq_refl). unfold ok_multiple in Hp. simpl in Hpp.
  destruct (positive_rat_pos _ _ Hn) as [_ Pn]. destruct (positive_rat_pos _ _ Hpp) as [Rp Pp].
  assert (∃ q, ratOf (JNumber lit) = Some q ∧ is_int (q / p) = true) as (q & Hq & Hqp).
  { destruct (val v); try done. rewrite Hpp in Hp. destruct (ratOf (JNumber lit)) as [q|]; [|done]. exists q. split; [done|]. by injection Hp. }
  rewrite Hq, Hn. rewrite (multiple_trans q p n Pp Pn Hqp Hi). by destruct (val w).
Qed.

(** ** Lengths and counts

    The check compares lengths as [float64].  The metaschemas require them
    to be non-negative integers; below [2^53] the comparison is exact
    against every value the previous version can carry. *)

Definition length_keywords : list string :=
  ["minLength"; "maxLength"; "minItems"; "maxItems"; "minProperties"; "maxProperties"; "minContains"; "maxContains"]%string.

Definition small_int (v : json) : bool :=
  match ratOf v with
  | Some q => is_int q && Qle_bool 0 q && negb (Qle_bool (inject_Z (2 ^ 53)) q)
  | None => false
  end.

(** Every number under a length keyword is such an integer. *)
Fixpoint integral_lengths (v : json) : bool :=
  match v with
  | JArray l => forallb integral_lengths l
  | JObject m =>
      forallb (λ kv, (match kv.2 with JNumber _ => negb (isin kv.1 length_keywords) || small_int kv.2 | _ => true end)
                     && integral_lengths kv.2) m
  | _ => true
  end.

Lemma integral_placed root s : integral_lengths root = true → placed root s → integral_lengths (val s) = true.
Proof.
  intros Hd (l & _ & Hl). revert root Hd Hl. induction l as [|[k|i] l IH]; intros root Hd Hl; simpl in Hl.
  - by simplify_eq.
  - destruct root as [| | | | |m]; try done. destruct (obj_get k m) as [w|] eqn:E; [|done]. apply (IH w); [|done].
    simpl in Hd. rewrite forallb_forall in Hd. apply obj_get_in, list_elem_of_In, Hd in E. by apply andb_true_iff in E as [_ E].
  - destruct root as [| | | |a|]; try done. destruct (a !! i) as [w|] eqn:E; [|done]. apply (IH w); [|done].
    simpl in Hd. rewrite forallb_forall in Hd. apply Hd, list_elem_of_In. by eapply list_elem_of_lookup_2.
Qed.

(** [v] reads as the integer [z]. *)
Definition reads_int (v : json) (z : Z) : Prop := (∃ q, ratOf v = Some q ∧ q == inject_Z z)%Q ∧ 0 <= z < 2 ^ 53.

Lemma length_reads root s k w f :
  integral_lengths root = true → placed root s → isin k length_keywords = true → sub_get s k = Some w →
  numberOf (val w) = Some f → ∃ z, reads_int (val w) z.
Proof.
  intros Hi Hp Hk (m & v & Hm & Hv & ->)%sub_get_Some Hf. pose proof (integral_placed root s Hi Hp) as Hs. rewrite Hm in Hs.
  simpl in Hs, Hf |- *. rewrite forallb_forall in Hs. apply obj_get_in, list_elem_of_In, Hs in Hv.
  apply andb_true_iff in Hv as [Hv _]. simpl in Hv. destruct v as [| |lit| | |]; try done. rewrite Hk in Hv. simpl in Hv.
  unfold small_int in Hv. destruct (ratOf (JNumber lit)) as [q|] eqn:Hq; [|done].
  apply andb_true_iff in Hv as [[[z Hz]%is_int_spec H0%Qle_bool_iff]%andb_true_iff H1].
  apply negb_true_iff, not_true_iff_false in H1. rewrite Qle_bool_iff in H1.
  exists z. split; [by exists q|]. change 0%Q with (inject_Z 0) in H0. rewrite Hz, <-Zle_Qle in H0. rewrite Hz, <-Zle_Qle in H1. lia.
Qed.

Lemma min_crosses v f b z len :
  numberOf v = Some f → ratOf v = Some b → 0 <= z < 2 ^ 53 → 0 <= len → (inject_Z z <= f)%Q → (b <= inject_Z len)%Q → z <= len.
Proof.
  intros Hf Hb Hz Hlen Hzf Hbl. destruct (Z.le_gt_cases z len) as [|Hlt]; [done|].
  assert (f <= inject_Z (z - 1))%Q as Hle.
  { apply (numberOf_le v b f (z - 1) Hb Hf); [lia|]. eapply Qle_trans; [done|]. rewrite <-Zle_Qle. lia. }
  assert (inject_Z z <= inject_Z (z - 1))%Q as Hc by (by eapply Qle_trans). rewrite <-Zle_Qle in Hc. lia.
Qed.

Lemma max_crosses v f b z len :
  numberOf v = Some f → ratOf v = Some b → 0 <= z < 2 ^ 53 → (f <= inject_Z z)%Q → (inject_Z len <= b)%Q → len <= z.
Proof.
  intros Hf Hb Hz Hfz Hlb. destruct (Z.le_gt_cases len z) as [|Hlt]; [done|].
  assert (inject_Z (z + 1) <= f)%Q as Hle.
  { apply (numberOf_ge v b f (z + 1) Hb Hf); [lia|]. eapply Qle_trans; [|done]. rewrite <-Zle_Qle. lia. }
  assert (inject_Z (z + 1) <= inject_Z z)%Q as Hc by (by eapply Qle_trans). rewrite <-Zle_Qle in Hc. lia.
Qed.

(** A minimum that does not grow, with the value an absent one has. *)
Lemma min_loosens pv nv d len lo :
  0 <= d < 2 ^ 53 → 0 <= len → checkLengthMin pv nv (inject_Z d) = true →
  (∀ w f, nv = Some w → numberOf (val w) = Some f → ∃ z, reads_int (val w) z) →
  number_or (Some (inject_Z d)) pv = Some lo → (lo <= inject_Z len)%Q →
  ∃ lo', number_or (Some (inject_Z d)) nv = Some lo' ∧ (lo' <= inject_Z len)%Q.
Proof.
  intros Hd Hlen Hc Hint Hlo Hle. unfold checkLengthMin in Hc.
  destruct (length_of (inject_Z d) nv) as [n|] eqn:Hn; [|done]. destruct (length_of (inject_Z d) pv) as [p|] eqn:Hp; [|done].
  apply Qle_bool_iff in Hc.
  assert (∃ z lo', 0 <= z < 2 ^ 53 ∧ (n == inject_Z z)%Q ∧ number_or (Some (inject_Z d)) nv = Some lo' ∧ (lo' == inject_Z z)%Q)
    as (z & lo' & Hz & En & Hlo' & Elo').
  { destruct nv as [w|]; simpl in Hn |- *.
    - destruct (Hint w n eq_refl Hn) as (z & (q & Hq & Eq) & Hz). exists z, q. split_and!; try done; try lia.
      eapply numberOf_int; [by exists q|done|lia].
    - exists d, (inject_Z d). by simplify_eq. }
  exists lo'. split; [done|]. rewrite Elo', <-Zle_Qle. rewrite En in Hc. destruct pv as [v|]; simpl in Hp, Hlo.
  - by eapply min_crosses.
  - simplify_eq. rewrite <-Zle_Qle in Hc, Hle. lia.
Qed.

Lemma max_loosens pv w len hi :
  checkLengthMax (Some pv) (Some w) = true →
  (∀ f, numberOf (val w) = Some f → ∃ z, reads_int (val w) z) →
  ratOf (val pv) = Some hi → (inject_Z len <= hi)%Q → ∃ hi', ratOf (val w) = Some hi' ∧ (inject_Z len <= hi')%Q.
Proof.
  intros Hc Hint Hhi Hle. simpl in Hc. destruct (numberOf (val w)) as [n|] eqn:Hn; [|done].
  destruct (numberOf (val pv)) as [p|] eqn:Hp; [|done]. apply Qle_bool_iff in Hc.
  destruct (Hint n eq_refl) as (z & (q & Hq & Eq) & Hz). exists q. split; [done|]. rewrite Eq, <-Zle_Qle.
  assert (n == inject_Z z)%Q as En by (eapply numberOf_int; [by exists q|done|lia]). rewrite En in Hc. by eapply max_crosses.
Qed.

Lemma ok_length_iff len rel v : ok_length (Some len) rel v = Some true ↔ ∃ b, ratOf (val v) = Some b ∧ rel b (inject_Z len) = true.
Proof.
  unfold ok_length. destruct (ratOf (val v)) as [b|].
  - split; [intros [= H]; eauto|]. by intros (b' & [= <-] & ->).
  - split; [done|]. by intros (b' & ? & _).
Qed.

Lemma checkLengthMin_sound pv w len :
  (∀ n, len = Some n → 0 <= n) → checkLengthMin pv (Some w) 0 = true →
  (∀ f, numberOf (val w) = Some f → ∃ z, reads_int (val w) z) →
  (∀ v, pv = Some v → ok_length len at_least v = Some true) → ok_length len at_least w = Some true.
Proof.
  intros Hlen Hc Hint Hp. destruct len as [n|]; [|done]. apply ok_length_iff. specialize (Hlen n eq_refl).
  assert (∃ lo, number_or (Some (inject_Z 0)) pv = Some lo ∧ (lo <= inject_Z n)%Q) as (lo & Hlo & Hle).
  { destruct pv as [v|]; simpl; [|exists (inject_Z 0); split; [done|]; rewrite <-Zle_Qle; lia].
    destruct (proj1 (ok_length_iff n at_least v) (Hp v eq_refl)) as (b & Hb & Hl%at_least_iff). eauto. }
  destruct (min_loosens pv (Some w) 0 n lo) as (lo' & Hlo' & Hle'); try done.
  - intros w' f [= <-] Hf. by eapply Hint.
  - exists lo'. split; [done|]. by apply at_least_iff.
Qed.

Lemma checkLengthMax_sound pv w len :
  checkLengthMax pv (Some w) = true → (∀ f, numberOf (val w) = Some f → ∃ z, reads_int (val w) z) →
  (∀ v, pv = Some v → ok_length len at_most v = Some true) → ok_length len at_most w = Some true.
Proof.
  intros Hc Hint Hp. destruct len as [n|]; [|done]. apply ok_length_iff.
  destruct pv as [v|]; [|simpl in Hc; by destruct (numberOf (val w))].
  destruct (proj1 (ok_length_iff n at_most v) (Hp v eq_refl)) as (b & Hb & Hl%at_most_iff).
  destruct (max_loosens v w n b Hc Hint Hb Hl) as (hi & Hhi & Hle). exists hi. split; [done|]. by apply at_most_iff.
Qed.

(** ** [required], [pattern], [format], [uniqueItems] *)

Lemma checkRequired_sound x pv w :
  checkRequired (any pv) (val w) = true → (∀ v, pv = Some v → ok_required x v = Some true) → ok_required x w = Some true.
Proof.
  unfold checkRequired. intros Hc Hp. destruct x as [| | | | |m]; try done. unfold ok_required in *.
  destruct (stringSet (val w)) as [new|]; [|done]. destruct (stringSet (any pv)) as [old|] eqn:Ho; [|done]. simpl. f_equal.
  rewrite forallb_forall in Hc. unfold has_names. apply forallb_forall. intros name Hn. specialize (Hc name Hn).
  apply bool_decide_eq_true in Hc. destruct pv as [v|]; simpl in Ho; [|by simplify_eq; apply not_elem_of_nil in Hc].
  specialize (Hp v eq_refl). rewrite Ho in Hp. injection Hp as Hp. unfold has_names in Hp. rewrite forallb_forall in Hp.
  apply Hp. by apply list_elem_of_In.
Qed.

Lemma checkUniqueItems_sound x pv w :
  checkUniqueItems (any pv) (val w) = true → (∀ v, pv = Some v → ok_unique x v = Some true) → ok_unique x w = Some true.
Proof.
  unfold checkUniqueItems, ok_unique. intros Hc Hp. destruct (is_true (val w)) eqn:Hw; [|done]. simpl in Hc |- *.
  destruct pv as [v|]; [|done]. specialize (Hp v eq_refl). simpl in Hc. by rewrite Hc in Hp.
Qed.

Lemma checkIdentical_sound (f : sub → verdict) pv w :
  checkIdentical pv (Some w) = true → (∀ v w, jsonEqual (val v) (val w) = true → f v = f w) →
  (∀ v, pv = Some v → f v = Some true) → f w = Some true.
Proof. intros Hc Hf Hp. destruct pv as [v|]; [|done]. simpl in Hc. rewrite <-(Hf v w Hc). by apply Hp. Qed.
