(* ===== verification/SchemaSound.v ===== *)
(** * One node of the compatibility check

    The soundness of [checkNode] of
    [internal/platform/schema/compatibility.go]: given that the child
    comparisons that succeeded carry over every instance accepted within
    [n] applications, an instance the previous subschema accepts within
    one more is accepted by the new one. *)

From S2P Require Import Prelude Decimal Keys Json SchemaValue SchemaCompat SchemaSpec SchemaEqual SchemaLockstep SchemaKeywords.
Open Scope Z_scope.

(** ** Instances *)

(** No object in the document has a key of [G]. *)
Fixpoint avoids (G : gset string) (v : json) : bool :=
  match v with
  | JArray l => forallb (avoids G) l
  | JObject m => forallb (λ kv, negb (bool_decide (kv.1 ∈ G)) && avoids G kv.2) m
  | _ => true
  end.

Definition instance (G : gset string) (x : json) : Prop := distinct x = true ∧ avoids G x = true.

Lemma instance_member G x k v : instance G x → (k, v) ∈ members x → instance G v ∧ k ∉ G.
Proof.
  intros [Hd Ha] Hin. pose proof (member_distinct x k v Hd Hin) as Dv. destruct x as [| | | | |m]; try (by apply not_elem_of_nil in Hin).
  simpl in Ha. rewrite forallb_forall in Ha. apply list_elem_of_In, Ha in Hin. simpl in Hin.
  apply andb_true_iff in Hin as [Hk Hv]. apply negb_true_iff, bool_decide_eq_false in Hk. by split.
Qed.

Lemma instance_item G x v : instance G x → v ∈ array_items x → instance G v.
Proof.
  intros [Hd Ha] Hin. split; [by eapply item_distinct|]. destruct x as [| | | |l|]; try (by apply not_elem_of_nil in Hin).
  simpl in Ha. rewrite forallb_forall in Ha. by apply Ha, list_elem_of_In.
Qed.

(** ** Enough applications for all *)

Definition grows {A} (f : nat → option A) : Prop := ∀ n m, (n <= m)%nat → vle (f n) (f m).

Lemma fuel_fmap {A} (g : A → nat → verdict) l :
  (∀ y, grows (g y)) → (∀ y, y ∈ l → ∃ m, g y m = Some true) → ∃ m, v_all ((λ y, g y m) <$> l) = Some true.
Proof.
  intros Hg. induction l as [|y l IH]; intros Hl; [by exists 0%nat|].
  destruct (Hl y ltac:(apply list_elem_of_here)) as [m1 H1]. destruct IH as [m2 H2]; [intros z Hz; apply Hl; by apply list_elem_of_further|].
  exists (m1 `max` m2)%nat. apply v_all_true. csimpl. constructor; [apply (Hg y m1); [lia|done]|].
  apply v_all_true in H2. rewrite Forall_fmap in H2 |- *. eapply Forall_impl; [done|]. intros z Hz. apply (Hg z m2); [lia|done].
Qed.

Lemma fuel_list (f : nat → list verdict) len :
  (∀ n m, (n <= m)%nat → Forall2 vle (f n) (f m)) → (∀ m, length (f m) = len) →
  (∀ i, (i < len)%nat → ∃ m, f m !! i = Some (Some true)) → ∃ m, Forall (λ v, v = Some true) (f m).
Proof.
  intros Hf Hlen Hi. assert (∀ k, (k <= len)%nat → ∃ m, ∀ i, (i < k)%nat → f m !! i = Some (Some true)) as Hk.
  { induction k as [|k IH]; intros Hk; [exists 0%nat; lia|]. destruct (IH ltac:(lia)) as [m1 H1]. destruct (Hi k ltac:(lia)) as [m2 H2].
    exists (m1 `max` m2)%nat. intros i Hik.
    assert (∃ m, (m <= m1 `max` m2)%nat ∧ f m !! i = Some (Some true)) as (m & Hm & Hv).
    { destruct (decide (i = k)) as [->|]; [exists m2|exists m1]; (split; [lia|]); [done|apply H1; lia]. }
    destruct (Forall2_lookup_l _ _ _ _ _ (Hf m _ Hm) Hv) as (v & -> & Hle). by rewrite (Hle true eq_refl). }
  destruct (Hk len ltac:(lia)) as [m Hm]. exists m. apply Forall_lookup. intros i v Hv.
  assert (i < len)%nat by (rewrite <-(Hlen m); by eapply lookup_lt_Some). rewrite Hm in Hv by done. by simplify_eq.
Qed.

(** An object of the previous document, or the one [true] stands for. *)
Definition node_object (root : json) (s : sub) : Prop := placed root s ∨ s = Sub None (JObject []).

Lemma node_get root s k x : node_object root s → sub_get s k = Some x → placed root s ∧ placed root x.
Proof. intros [Hp| ->] Hx; [|done]. split; [done|by eapply sub_get_placed]. Qed.

Lemma node_distinct root s : distinct root = true → node_object root s → distinct (val s) = true.
Proof. intros Hd [Hp| ->]; [by eapply placed_distinct|done]. Qed.

Lemma sub_get_has s k x : sub_get s k = Some x → has s k = true.
Proof.
  intros (m & v & Hm & Hv & _)%sub_get_Some. unfold has, fields. rewrite Hm. apply bool_decide_eq_true.
  apply obj_get_in in Hv. apply list_elem_of_fmap. by exists (k, v).
Qed.

Lemma has_sub_get s k : has s k = true → is_Some (sub_get s k).
Proof. unfold has, sub_get. intros H%bool_decide_eq_true%obj_get_some. destruct H as [v ->]. by eexists. Qed.

Lemma rune_count_nonneg fuel s : 0 <= rune_count fuel s.
Proof.
  revert s. induction fuel as [|fuel IH]; intros [|c s]; simpl; try done. specialize (IH (decode_rune c s).2). lia.
Qed.

(** ** Names of properties *)

Lemma matching_spec (rx : string → option (string → bool)) s name ms :
  matchingPatternSchemas rx s name = Some ms →
  (∀ m, m ∈ ms → ∃ u r mt, sub_get s "patternProperties" = Some u ∧ sub_get u r = Some m ∧ rx r = Some mt ∧ mt name = true) ∧
  (ms = [] → ∀ u r, sub_get s "patternProperties" = Some u → has u r = true → from_option (λ m, m name) false (rx r) = false).
Proof.
  unfold matchingPatternSchemas. destruct (sub_get s "patternProperties") as [u|]; [|intros [= <-]; split; [set_solver|done]].
  assert (∀ l ms, foldr (λ r out, out ← out; m ← rx r;
       Some (if (m : string → bool) name then from_option (λ s, s :: out) out (sub_get u r) else out)) (Some []) l = Some ms →
     (∀ m, m ∈ ms → ∃ r mt, sub_get u r = Some m ∧ rx r = Some mt ∧ mt name = true) ∧
     (ms = [] → ∀ r, r ∈ l → has u r = true → from_option (λ m, m name) false (rx r) = false)) as Hl.
  { induction l as [|r l IH]; intros ms0; simpl; [intros [= <-]; set_solver|].
    destruct (foldr _ _ l) as [out|]; [|done]. destruct (IH out eq_refl) as [H1 H2]. simpl.
    destruct (rx r) as [mt|] eqn:Er; [|done]. simpl. intros [= <-]. destruct (mt name) eqn:Em.
    - destruct (sub_get u r) as [c|] eqn:Ec; simpl.
      + split; [|done]. intros m [->|Hm]%elem_of_cons; [by eauto|by apply H1].
      + split; [done|]. intros Hout r' [->|Hr']%elem_of_cons Hh; [|by apply H2].
        apply has_sub_get in Hh as [? ?]. congruence.
    - split; [done|]. intros Hout r' [->|Hr']%elem_of_cons Hh; [by rewrite Er|by apply H2]. }
  intros [H1 H2]%Hl. split.
  - intros m Hm. destruct (H1 m Hm) as (r & mt & ? & ? & ?). by exists u, r, mt.
  - intros Hms u' r [= <-] Hh. apply (H2 Hms r); [|done]. unfold sort_names. rewrite merge_sort_Permutation.
    by apply bool_decide_eq_true in Hh.
Qed.

Lemma propertyMap_get s k pp a :
  propertyMap (sub_get s "properties") = Some pp → sub_get pp k = Some a → ∃ u, sub_get s "properties" = Some u ∧ pp = u.
Proof.
  unfold propertyMap. destruct (sub_get s "properties") as [u|]; simpl; [|intros [= <-] Ha; done].
  destruct (val u); try done; intros [= <-] Ha; eauto. done.
Qed.

(** A name [properties] and the patterns do not mention is extra. *)
Lemma extra_intro (rx : string → option (string → bool)) s root k pp :
  propertyMap (sub_get s "properties") = Some pp → sub_get pp k = None →
  (∀ u r, sub_get s "patternProperties" = Some u → has u r = true → from_option (λ m, m k) false (rx r) = false) →
  extra rx root s k = true.
Proof.
  intros Hpp Hk Hpat. unfold extra. rewrite !kw_always by done. apply andb_true_iff. split; apply negb_true_iff.
  - destruct (sub_get s "properties") as [u|] eqn:Hu; [|done]. simpl. apply not_true_iff_false. intros [a Ha]%has_sub_get.
    unfold propertyMap in Hpp. simpl in Hpp. pose proof Ha as (m & ? & Hm & _)%sub_get_Some. rewrite Hm in Hpp. congruence.
  - destruct (sub_get s "patternProperties") as [u|] eqn:Hu; [|done]. simpl. apply not_true_iff_false.
    intros (r & Hr%list_elem_of_In & Hm)%existsb_exists. rewrite (Hpat u r) in Hm; [done..|]. by apply bool_decide_eq_true.
Qed.

Section sound.
Context (rx : string → option (string → bool)) (fmt : string → json → bool).
Context (P Q : json) (DP : distinct P = true) (DQ : distinct Q = true).
Context (Hdraft : root_draft P = root_draft Q) (HQ : integral_lengths Q = true).
Context (G : gset string).

Abbreviation evP := (eval rx fmt P).
Abbreviation evQ := (eval rx fmt Q).

(** What a successful comparison carries over. *)
Definition carries (n : nat) (a b : sub) : Prop :=
  ∀ x, instance G x → evP n a x = Some true → accepts rx fmt Q b x.

Lemma carries_less n m a b : (n <= m)%nat → carries m a b → carries n a b.
Proof. intros Hle Hc x Hx He. apply (Hc x Hx). by eapply eval_mono. Qed.

Lemma evQ_grows s x : grows (λ m, evQ m s x).
Proof. intros n m Hle. by apply eval_mono. Qed.

(** ** What the keyword checks establish *)

Definition new_property_holds (n : nat) (p : sub) (name : string) (b : sub) : Prop :=
  ∃ ms, matchingPatternSchemas rx p name = Some ms ∧
    match ms with
    | [] => match sub_get p "additionalProperties" with
            | Some ap => match val ap with
                         | JObject _ => carries n ap b
                         | JBool false => True
                         | _ => name ∈ G
                         end
            | None => name ∈ G
            end
    | _ => ∃ m, m ∈ ms ∧ carries n m b
    end.

Definition properties_hold (n : nat) (p q : sub) : Prop :=
  ∃ pp np, propertyMap (sub_get p "properties") = Some pp ∧ propertyMap (sub_get q "properties") = Some np ∧
    (∀ name a, sub_get pp name = Some a → ∃ b, sub_get np name = Some b ∧ carries n a b) ∧
    (∀ name b, sub_get np name = Some b → sub_get pp name = None → new_property_holds n p name b).

Definition additional_holds (n : nat) (pv nv : option sub) : Prop :=
  ∀ w, nv = Some w →
    val w = JBool true ∨ (val w = JBool false ∨ ∃ m, val w = JObject m) ∧ is_false (any pv) = true ∨
    ∃ v, pv = Some v ∧ carries n v w ∧ ∃ m, val w = JObject m.

Definition items_hold (n : nat) (pv nv : option sub) : Prop :=
  ∀ w, nv = Some w → ∃ v, pv = Some v ∧ is_tuple v = false ∧ is_tuple w = false ∧ carries n v w.

Definition any_holds (n : nat) (pv nv : option sub) : Prop :=
  ∀ w, nv = Some w → ∃ v l l', pv = Some v ∧ val v = JArray l ∧ val w = JArray l' ∧
    ∀ a, a ∈ elements_of v → ∃ b, b ∈ elements_of w ∧ carries n a b.

Definition all_hold (n : nat) (pv nv : option sub) : Prop :=
  ∀ w, nv = Some w → ∃ v l l', pv = Some v ∧ val v = JArray l ∧ val w = JArray l' ∧
    ∀ b, b ∈ elements_of w → ∃ a, a ∈ elements_of v ∧ carries n a b.

Definition holds_as (kind : keyword_kind) (n : nat) (p q : sub) (k : string) : Prop :=
  let pv := sub_get p k in
  let nv := sub_get q k in
  match kind with
  | Grouped | KAnnotation | KSchema => True
  | KId => isRootObject q = true
  | KType => checkType (any pv) (any nv) = true
  | KMultipleOf => checkMultipleOf (any pv) (any nv) = true
  | KLengthMin d => checkLengthMin pv nv d = true
  | KLengthMax => checkLengthMax pv nv = true
  | KIdentical => checkIdentical pv nv = true
  | KUnique => checkUniqueItems (any pv) (any nv) = true
  | KRequired => checkRequired (any pv) (any nv) = true
  | KProperties => properties_hold n p q
  | KAdditional => additional_holds n pv nv
  | KItems => items_hold n pv nv
  | KAnyOf => any_holds n pv nv
  | KAllOf => all_hold n pv nv
  | KPatternProps => checkOpaque P Q pv nv (negb (constrainsAdditional q)) = true
  | KPrefixItems => checkOpaque P Q pv nv (negb (has q "items")) = true
  | KOpaque d => checkOpaque P Q pv nv d = true
  end.

Definition keyword_holds (n : nat) (p q : sub) (k : string) : Prop := holds_as (classify k) n p q k.

Section node.
Context (n : nat) (p q : sub) (x : json).
Context (Hp : node_object P p) (Hq : placed Q q) (Hx : instance G x).
Context (HV : Forall (λ v, v = Some true) (value_keywords rx fmt P p x)).
Context (HA : Forall (λ v, v = Some true) (applicators rx P (evP n) p x)).
Context (HK : ∀ k, unapplied Q k = false → has p k = true ∨ has q k = true → keyword_holds n p q k).

Context (HB : checkNumericBounds p q = true) (HE : checkEnumConst (unapplied P "const") p q = true).

Ltac in_list := unfold value_keywords, applicators; repeat first [apply list_elem_of_here | apply list_elem_of_further].

Lemma prev_value k f v : on P p k f ∈ value_keywords rx fmt P p x → unapplied P k = false → sub_get p k = Some v → f v = Some true.
Proof.
  intros Hin Hu Hv. rewrite Forall_forall in HV. specialize (HV _ Hin). rewrite on_true in HV. apply HV. by apply kw_Some.
Qed.

Lemma prev_applied k f v :
  on P p k f ∈ applicators rx P (evP n) p x → unapplied P k = false → sub_get p k = Some v → f v = Some true.
Proof.
  intros Hin Hu Hv. rewrite Forall_forall in HA. specialize (HA _ Hin). rewrite on_true in HA. apply HA. by apply kw_Some.
Qed.

Lemma next_holds k kind w :
  classify k = kind → kw Q q k = Some w → sub_get q k = Some w ∧ holds_as kind n p q k ∧ unapplied P k = false.
Proof.
  intros <- [Hu Hw]%kw_Some. split_and!; [done| |by rewrite (unapplied_same P Q Hdraft)].
  apply HK; [done|right]. by eapply sub_get_has.
Qed.

Lemma next_length k kind w f :
  isin k length_keywords = true → classify k = kind → kw Q q k = Some w → numberOf (val w) = Some f → ∃ z, reads_int (val w) z.
Proof. intros Hl Hk [Hw _]%(next_holds k kind w Hk) Hf. by eapply (length_reads Q q). Qed.

(** *** Value keywords *)

Lemma bounds_sound :
  meets q x "minimum" "exclusiveMinimum" at_least above ∧ meets q x "maximum" "exclusiveMaximum" at_most below.
Proof.
  unfold checkNumericBounds in HB. apply andb_true_iff in HB as [Hl Hu]. split.
  - apply (lower_sound p q x Hl). split; intros v Hv; (eapply prev_value; [in_list|by apply always_applied|done]).
  - apply (upper_sound p q x Hu). split; intros v Hv; (eapply prev_value; [in_list|by apply always_applied|done]).
Qed.

Lemma values_sound : meets_values (unapplied P "const") q x.
Proof.
  apply (checkEnumConst_sound _ p q x); [by apply (node_distinct P)|by apply (placed_distinct Q)|apply Hx|done|].
  split; [intros Hu|]; intros v Hv; (eapply prev_value; [in_list|done || by apply always_applied|done]).
Qed.

Lemma any_get k w (s : sub) : sub_get s k = Some w → any (sub_get s k) = val w.
Proof. by intros ->. Qed.

(** The previous version's verdict on the same keyword. *)
Ltac previous k := intros v Hv; eapply (prev_value k); [in_list|done|done].

Ltac keyword k kind w Hg Hk Hu :=
  apply on_true; intros w Hw; destruct (next_holds k kind w eq_refl Hw) as (Hg & Hk & Hu); simpl in Hk;
  rewrite ?(any_get k w q Hg) in Hk; rewrite ?Hg in Hk.

Lemma length_min_sound k len :
  isin k length_keywords = true → classify k = KLengthMin 0 → (∀ m, len = Some m → 0 <= m) →
  on P p k (ok_length len at_least) ∈ value_keywords rx fmt P p x → on Q q k (ok_length len at_least) = Some true.
Proof.
  intros Hl Hc Hlen Hin. apply on_true. intros w Hw. destruct (next_holds k _ w Hc Hw) as (Hg & Hk & Hu). simpl in Hk. rewrite Hg in Hk.
  apply (checkLengthMin_sound (sub_get p k) w len Hlen Hk); [|intros v Hv; by eapply (prev_value k)].
  intros f. by apply (next_length k _ w f Hl Hc).
Qed.

Lemma length_max_sound k len :
  isin k length_keywords = true → classify k = KLengthMax →
  on P p k (ok_length len at_most) ∈ value_keywords rx fmt P p x → on Q q k (ok_length len at_most) = Some true.
Proof.
  intros Hl Hc Hin. apply on_true. intros w Hw. destruct (next_holds k _ w Hc Hw) as (Hg & Hk & Hu). simpl in Hk. rewrite Hg in Hk.
  apply (checkLengthMax_sound (sub_get p k) w len Hk); [|intros v Hv; by eapply (prev_value k)].
  intros f. by apply (next_length k _ w f Hl Hc).
Qed.

Lemma string_length_nonneg m : string_length x = Some m → 0 <= m.
Proof. destruct x as [| | |s| |]; try done. simpl. intros [= <-]. apply rune_count_nonneg. Qed.

Lemma value_keywords_sound : Forall (λ v, v = Some true) (value_keywords rx fmt Q q x).
Proof.
  destruct bounds_sound as [[Hmin Hemin] [Hmax Hemax]]. destruct values_sound as [Hconst Henum].
  unfold value_keywords. repeat constructor.
  - keyword "type"%string KType w Hg Hk Hu. eapply checkType_sound; [done|]. previous "type"%string.
  - apply on_true. intros w [_ Hw]%kw_Some. by apply Henum.
  - apply on_true. intros w [Hu Hw]%kw_Some. rewrite <-(unapplied_same P Q Hdraft) in Hu. by apply (Hconst Hu).
  - apply on_true. intros w [_ Hw]%kw_Some. by apply Hmin.
  - apply on_true. intros w [_ Hw]%kw_Some. by apply Hemin.
  - apply on_true. intros w [_ Hw]%kw_Some. by apply Hmax.
  - apply on_true. intros w [_ Hw]%kw_Some. by apply Hemax.
  - keyword "multipleOf"%string KMultipleOf w Hg Hk Hu. eapply checkMultipleOf_sound; [done|]. previous "multipleOf"%string.
  - apply length_min_sound; [done|done|apply string_length_nonneg|in_list].
  - apply length_max_sound; [done|done|in_list].
  - apply length_min_sound; [done|done|destruct x; simpl; intros ? ?; simplify_eq; lia|in_list].
  - apply length_max_sound; [done|done|in_list].
  - apply length_min_sound; [done|done|destruct x; simpl; intros ? ?; simplify_eq; lia|in_list].
  - apply length_max_sound; [done|done|in_list].
  - keyword "pattern"%string KIdentical w Hg Hk Hu.
    eapply (checkIdentical_sound (ok_pattern rx x)); [done|intros; by apply ok_pattern_equal|]. previous "pattern"%string.
  - keyword "format"%string KIdentical w Hg Hk Hu.
    eapply (checkIdentical_sound (ok_format fmt x)); [done|intros; by apply ok_format_equal|]. previous "format"%string.
  - keyword "uniqueItems"%string KUnique w Hg Hk Hu. eapply checkUniqueItems_sound; [done|]. previous "uniqueItems"%string.
  - keyword "required"%string KRequired w Hg Hk Hu. eapply checkRequired_sound; [done|]. previous "required"%string.
Qed.

(** *** What the previous version says of one member *)

Lemma prev_property u k v a :
  sub_get p "properties" = Some u → (k, v) ∈ members x → sub_get u k = Some a → evP n a v = Some true.
Proof.
  intros Hu Hin Ha. assert (ok_properties (evP n) x u = Some true) as Hok
    by (eapply (prev_applied "properties"); [in_list|by apply always_applied|done]).
  unfold ok_properties in Hok. pose proof Ha as (m & ? & Hm & _)%sub_get_Some. rewrite Hm in Hok.
  rewrite v_all_true, Forall_fmap, Forall_forall in Hok. specialize (Hok (k, v) Hin). simpl in Hok. by rewrite Ha in Hok.
Qed.

Lemma prev_pattern u k v r mt m :
  sub_get p "patternProperties" = Some u → (k, v) ∈ members x → sub_get u r = Some m → rx r = Some mt → mt k = true →
  evP n m v = Some true.
Proof.
  intros Hu Hin Hm Hr Hk. assert (ok_patterns rx (evP n) x u = Some true) as Hok
    by (eapply (prev_applied "patternProperties"); [in_list|by apply always_applied|done]).
  unfold ok_patterns in Hok. pose proof Hm as (o & w & Ho & Hw & ->)%sub_get_Some. rewrite Ho in Hok.
  rewrite v_all_true, Forall_forall in Hok. apply Hok. apply list_elem_of_bind. exists (k, v). split; [|done].
  unfold by_patterns, fields. rewrite Ho. apply list_elem_of_fmap. exists (r, w). split; [|by apply obj_get_in].
  simpl. by rewrite Hr, Hk.
Qed.

Lemma prev_extra u k v :
  sub_get p "additionalProperties" = Some u → (k, v) ∈ members x → extra rx P p k = true → evP n u v = Some true.
Proof.
  intros Hu Hin Hk. assert (ok_additional rx P (evP n) p x u = Some true) as Hok
    by (eapply (prev_applied "additionalProperties"); [in_list|by apply always_applied|done]).
  unfold ok_additional in Hok. rewrite v_all_true, Forall_fmap, Forall_forall in Hok.
  specialize (Hok (k, v) Hin). simpl in Hok. by rewrite Hk in Hok.
Qed.

(** *** [properties] and [additionalProperties] *)

Lemma new_property_sound k v b pp :
  propertyMap (sub_get p "properties") = Some pp → sub_get pp k = None → (k, v) ∈ members x →
  new_property_holds n p k b → accepts rx fmt Q b v.
Proof.
  intros Hpp Hk Hin (ms & Hms & Hn). destruct (instance_member G x k v Hx Hin) as [Hv HkG].
  destruct (matching_spec rx p k ms Hms) as [Hm Hnone]. destruct ms as [|m0 ms].
  - pose proof (extra_intro rx p P k pp Hpp Hk (Hnone eq_refl)) as He.
    destruct (sub_get p "additionalProperties") as [ap|] eqn:Hap; [|done].
    pose proof (prev_extra ap k v Hap Hin He) as Hev. destruct (val ap) as [|[]| | | |] eqn:Hval; try done.
    + destruct n; simpl in Hev; [done|]. unfold apply_schema in Hev. by rewrite Hval in Hev.
    + by apply Hn.
  - destruct Hn as (m & Hmin & Hc). destruct (Hm m Hmin) as (u & r & mt & Hu & Hr & Hrx & Hmt).
    apply (Hc v Hv). by eapply prev_pattern.
Qed.

Lemma properties_sound : ∃ m, on Q q "properties" (ok_properties (evQ m) x) = Some true.
Proof.
  unfold on. destruct (kw Q q "properties") as [w|] eqn:Hw; [|by exists 0%nat].
  destruct (next_holds "properties" KProperties w eq_refl Hw) as (Hg & (pp & np & Hpp & Hnp & Hold & Hnew) & _). simpl.
  unfold propertyMap in Hnp. rewrite Hg in Hnp. simpl in Hnp. unfold ok_properties.
  destruct (val w) as [| | | | |mw] eqn:Hval; try done; try (by exists 0%nat). injection Hnp as <-.
  apply (fuel_fmap (λ kv m, from_option (λ s, evQ m s kv.2) (Some true) (sub_get w kv.1))).
  - intros [k v] a b Hle. simpl. destruct (sub_get w k); [by apply evQ_grows|done].
  - intros [k v] Hin. simpl. destruct (sub_get w k) as [b|] eqn:Hb; [|by exists 0%nat]. simpl.
    destruct (sub_get pp k) as [a|] eqn:Ha; [|by eapply new_property_sound; eauto].
    destruct (Hold k a Ha) as (b' & Hb' & Hc). rewrite Hb in Hb'. injection Hb' as <-.
    destruct (propertyMap_get p k pp a Hpp Ha) as (u & Hu & ->).
    apply (Hc v); [by apply (instance_member G x k v Hx Hin)|by eapply prev_property].
Qed.

(** *** Keywords kept identical *)

Lemma opaque_related k w d :
  sub_get q k = Some w → checkOpaque P Q (sub_get p k) (sub_get q k) d = true →
  ∃ v S, sub_get p k = Some v ∧ closed P Q S ∧ related P Q S v w.
Proof.
  intros Hw. rewrite Hw. unfold checkOpaque. destruct (sub_get p k) as [v|] eqn:Hv; [|done]. intros He.
  destruct (node_get P p k v Hp Hv) as [_ Pv]. pose proof (sub_get_placed Q q k w Hq Hw) as Pw.
  destruct (equalResolved_sound P Q v w Pv Pw) as (S & HS & Hs); [|done|].
  - apply sub_get_below in Hv, Hw. by split.
  - by exists v, S.
Qed.

Lemma same_verdict S : closed P Q S →
  ∀ a b y, related P Q S a b → distinct y = true → evP n a y = evQ n b y.
Proof. intros HS a b y Hr Hy. by apply lockstep with S. Qed.

Lemma opaque_keeps k kind fP fQ :
  classify k = kind →
  (holds_as kind n p q k → ∃ d, checkOpaque P Q (sub_get p k) (sub_get q k) d = true) →
  on P p k fP ∈ applicators rx P (evP n) p x →
  (∀ S v w, closed P Q S → related P Q S v w → fP v = fQ w) → on Q q k fQ = Some true.
Proof.
  intros Hc Ho Hin Hf. apply on_true. intros w Hw. destruct (next_holds k kind w Hc Hw) as (Hg & Hk & Hu).
  destruct (Ho Hk) as [d Hd]. destruct (opaque_related k w d Hg Hd) as (v & S & Hv & HS & Hr).
  rewrite <-(Hf S v w HS Hr). by eapply (prev_applied k).
Qed.

Ltac opaque := let H := fresh in intros H; eexists; exact H.

Lemma patterns_kept w : kw Q q "patternProperties" = Some w → ∃ v S, sub_get p "patternProperties" = Some v ∧ closed P Q S ∧ related P Q S v w.
Proof.
  intros Hw. destruct (next_holds "patternProperties" KPatternProps w eq_refl Hw) as (Hg & Hk & _). by eapply opaque_related.
Qed.

(** *** [additionalProperties] *)

(** Under a constrained [additionalProperties] the patterns stay. *)
Lemma patterns_stay k :
  constrainsAdditional q = true → extra rx Q q k = true →
  ∀ u r, sub_get p "patternProperties" = Some u → has u r = true → from_option (λ m, m k) false (rx r) = false.
Proof.
  intros Hcon He u r Hu Hr.
  assert (keyword_holds n p q "patternProperties") as Hk by (apply HK; [by apply always_applied|left; by eapply sub_get_has]).
  unfold keyword_holds in Hk. change (classify "patternProperties") with KPatternProps in Hk. simpl in Hk. rewrite Hcon in Hk.
  destruct (sub_get q "patternProperties") as [w|] eqn:Hw; [|by rewrite Hu in Hk]. rewrite <-Hw in Hk.
  destruct (opaque_related _ w _ Hw Hk) as (v & S & Hv & HS & Hrel). rewrite Hu in Hv. injection Hv as <-.
  unfold extra in He. apply andb_true_iff in He as [_ He%negb_true_iff]. rewrite kw_always, Hw in He by done. simpl in He.
  apply not_true_iff_false. intros Hm. apply not_true_iff_false in He. apply He. apply existsb_exists. exists r. split; [|done].
  apply list_elem_of_In. rewrite <-(related_fields P Q DP DQ S HS u w Hrel). by apply bool_decide_eq_true in Hr.
Qed.

Lemma extra_before k : constrainsAdditional q = true → extra rx Q q k = true → extra rx P p k = true.
Proof.
  intros Hcon He. pose proof (patterns_stay k Hcon He) as Hpat.
  destruct (sub_get p "properties") as [u|] eqn:Hu; [|apply (extra_intro rx p P k (Sub None (JObject []))); [by rewrite Hu|done|done]].
  assert (keyword_holds n p q "properties") as Hk by (apply HK; [by apply always_applied|left; by eapply sub_get_has]).
  destruct Hk as (pp & np & Hpp & Hnp & Hold & _). apply (extra_intro rx p P k pp); [done| |done].
  destruct (sub_get pp k) as [a|] eqn:Ha; [exfalso|done]. destruct (Hold k a Ha) as (b & Hb & _).
  destruct (propertyMap_get q k np b Hnp Hb) as (w & Hw & ->). apply sub_get_has in Hb.
  unfold extra in He. apply andb_true_iff in He as [He%negb_true_iff _]. rewrite kw_always, Hw in He by done. simpl in He. congruence.
Qed.

Lemma prev_closed v k u :
  is_false (any (sub_get p "additionalProperties")) = true → (k, v) ∈ members x → extra rx P p k = true → accepts rx fmt Q u v.
Proof.
  intros Hf Hin He. destruct (sub_get p "additionalProperties") as [ap|] eqn:Hap; [|done].
  pose proof (prev_extra ap k v Hap Hin He) as Hev. simpl in Hf. destruct (val ap) as [|[]| | | |] eqn:Hval; try done.
  destruct n; simpl in Hev; [done|]. unfold apply_schema in Hev. by rewrite Hval in Hev.
Qed.

Lemma additional_sound : ∃ m, on Q q "additionalProperties" (ok_additional rx Q (evQ m) q x) = Some true.
Proof.
  unfold on. destruct (kw Q q "additionalProperties") as [w|] eqn:Hw; [|by exists 0%nat].
  destruct (next_holds "additionalProperties" KAdditional w eq_refl Hw) as (Hg & Hk & _). simpl. unfold ok_additional.
  apply (fuel_fmap (λ kv m, if extra rx Q q kv.1 then evQ m w kv.2 else Some true)).
  { intros [k v] a b Hle. simpl. destruct (extra rx Q q k); [by apply evQ_grows|done]. }
  intros [k v] Hin. simpl. destruct (extra rx Q q k) eqn:He; [|by exists 0%nat].
  destruct (Hk w Hg) as [Ht|Hk']. { exists 1%nat. simpl. unfold apply_schema. by rewrite Ht. }
  assert (constrainsAdditional q = true) as Hcon.
  { unfold constrainsAdditional. rewrite Hg. destruct Hk' as [[[-> |[m ->]] _]|(u & _ & _ & m & ->)]; done. }
  pose proof (extra_before k Hcon He) as Hex. destruct Hk' as [[_ Hf]|(u & Hu & Hc & _)].
  - by eapply prev_closed.
  - apply (Hc v); [by apply (instance_member G x k v Hx Hin)|by eapply prev_extra].
Qed.

(** *** Arrays *)

Lemma prefix_same : is_Some (sub_get q "items") → prefix_length Q q = prefix_length P p.
Proof.
  intros [i Hi]. unfold prefix_length. unfold kw. rewrite (unapplied_same P Q Hdraft).
  destruct (unapplied Q "prefixItems") eqn:Hu; [done|].
  destruct (decide (has p "prefixItems" = true ∨ has q "prefixItems" = true)) as [Hh|Hh].
  - pose proof (HK "prefixItems" Hu Hh) as Hk. unfold keyword_holds in Hk. change (classify "prefixItems") with KPrefixItems in Hk.
    simpl in Hk. rewrite (sub_get_has _ _ _ Hi) in Hk. destruct (sub_get q "prefixItems") as [w|] eqn:Hw.
    + rewrite <-Hw in Hk. destruct (opaque_related _ w _ Hw Hk) as (v & S & -> & HS & Hr).
      symmetry. exact (Forall2_length _ _ _ (related_elements P Q S v w Hr)).
    + by destruct (sub_get p "prefixItems").
  - destruct (sub_get p "prefixItems") as [v|] eqn:Hv; [apply sub_get_has in Hv; tauto|].
    destruct (sub_get q "prefixItems") as [w|] eqn:Hw; [apply sub_get_has in Hw; tauto|done].
Qed.

Lemma items_sound : ∃ m, on Q q "items" (ok_items Q (evQ m) q x) = Some true.
Proof.
  unfold on. destruct (kw Q q "items") as [w|] eqn:Hw; [|by exists 0%nat].
  destruct (next_holds "items" KItems w eq_refl Hw) as (Hg & Hk & Hu). destruct (Hk w Hg) as (v & Hv & Tv & Tw & Hc). simpl.
  assert (ok_items P (evP n) p x v = Some true) as Hok by (eapply (prev_applied "items"); [in_list|done|done]).
  unfold ok_items in *. rewrite Tv in Hok. rewrite Tw, prefix_same by eauto. rewrite v_all_true, Forall_fmap, Forall_forall in Hok.
  apply (fuel_fmap (λ y m, evQ m w y)); [intros y; apply evQ_grows|]. intros y Hy. apply (Hc y); [|by apply Hok].
  eapply instance_item; [done|]. by eapply subseteq_drop.
Qed.

Lemma contains_min : checkLengthMin (kw P p "minContains") (kw Q q "minContains") (inject_Z 1) = true.
Proof.
  unfold kw. rewrite (unapplied_same P Q Hdraft). destruct (unapplied Q "minContains") eqn:Hu; [done|].
  destruct (decide (has p "minContains" = true ∨ has q "minContains" = true)) as [Hh|Hh].
  - pose proof (HK "minContains" Hu Hh) as Hk. exact Hk.
  - destruct (sub_get p "minContains") as [v|] eqn:Hv; [apply sub_get_has in Hv; tauto|].
    destruct (sub_get q "minContains") as [w|] eqn:Hw; [apply sub_get_has in Hw; tauto|done].
Qed.

Lemma contains_max c hi :
  number_or (Some (inject_Z c)) (kw P p "maxContains") = Some hi → (inject_Z c <= hi)%Q →
  ∃ hi', number_or (Some (inject_Z c)) (kw Q q "maxContains") = Some hi' ∧ (inject_Z c <= hi')%Q.
Proof.
  intros Hhi Hle. destruct (kw Q q "maxContains") as [w|] eqn:Hw; [|exists (inject_Z c); split; [done|apply Qle_refl]].
  destruct (next_holds "maxContains" KLengthMax w eq_refl Hw) as (Hg & Hk & Hu). simpl in Hk. rewrite Hg in Hk.
  unfold kw in Hhi. rewrite Hu in Hhi. destruct (sub_get p "maxContains") as [v|]; [|simpl in Hk; by destruct (numberOf (val w))].
  eapply max_loosens; [done| |done|done]. intros f. by apply (next_length "maxContains" KLengthMax w f).
Qed.

Lemma contains_sound : on Q q "contains" (ok_contains Q (evQ n) q x) = Some true.
Proof.
  apply on_true. intros w Hw. destruct (next_holds "contains" (KOpaque true) w eq_refl Hw) as (Hg & Hk & Hu).
  destruct (opaque_related _ w _ Hg Hk) as (v & S & Hv & HS & Hr).
  assert (ok_contains P (evP n) p x v = Some true) as Hok by (eapply (prev_applied "contains"); [in_list|done|done]).
  destruct Hx as [Dx _]. unfold ok_contains in *. destruct x as [| | | |l|]; try done.
  rewrite (ev_items P Q S (evP n) (evQ n) (same_verdict S HS) v w l Hr) in Hok by (by apply distinct_array).
  destruct (v_count (evQ n w <$> l)) as [c|]; [|done]. simpl in *.
  destruct (number_or (Some 1%Q) (kw P p "minContains")) as [lo|] eqn:Hlo; [|done]. simpl in Hok.
  destruct (number_or (Some (inject_Z (Z.of_nat c))) (kw P p "maxContains")) as [hi|] eqn:Hhi; [|done]. simpl in Hok.
  injection Hok as [H1%Qle_bool_iff H2%Qle_bool_iff]%andb_true_iff.
  destruct (min_loosens (kw P p "minContains") (kw Q q "minContains") 1 (Z.of_nat c) lo) as (lo' & Hlo' & Hle');
    [lia|lia|apply contains_min| |done|done|].
  { intros u f Hu' Hf. by eapply (next_length "minContains" (KLengthMin 1)). }
  destruct (contains_max (Z.of_nat c) hi Hhi H2) as (hi' & Hhi' & Hle2).
  change (Some 1%Q) with (Some (inject_Z 1)). rewrite Hlo'. simpl. rewrite Hhi'. simpl. f_equal.
  apply andb_true_iff. by rewrite !Qle_bool_iff.
Qed.

(** *** Combinators *)

Lemma anyOf_sound : ∃ m, on Q q "anyOf" (ok_branches (evQ m) v_any x) = Some true.
Proof.
  unfold on. destruct (kw Q q "anyOf") as [w|] eqn:Hw; [|by exists 0%nat].
  destruct (next_holds "anyOf" KAnyOf w eq_refl Hw) as (Hg & Hk & Hu). destruct (Hk w Hg) as (v & l & l' & Hv & Hl & Hl' & Hc).
  assert (ok_branches (evP n) v_any x v = Some true) as Hok by (eapply (prev_applied "anyOf"); [in_list|done|done]).
  unfold ok_branches in *. simpl. rewrite Hl in Hok. rewrite Hl'. apply v_any_true in Hok as (a & Ha & Hin)%list_elem_of_fmap.
  destruct (Hc a Hin) as (b & Hb & Hab). destruct (Hab x Hx (eq_sym Ha)) as [m Hm]. exists m. apply v_any_true.
  apply list_elem_of_fmap. by exists b.
Qed.

Lemma allOf_sound : ∃ m, on Q q "allOf" (ok_branches (evQ m) v_all x) = Some true.
Proof.
  unfold on. destruct (kw Q q "allOf") as [w|] eqn:Hw; [|by exists 0%nat].
  destruct (next_holds "allOf" KAllOf w eq_refl Hw) as (Hg & Hk & Hu). destruct (Hk w Hg) as (v & l & l' & Hv & Hl & Hl' & Hc).
  assert (ok_branches (evP n) v_all x v = Some true) as Hok by (eapply (prev_applied "allOf"); [in_list|done|done]).
  unfold ok_branches in *. simpl. rewrite Hl in Hok. rewrite Hl'. rewrite v_all_true, Forall_fmap, Forall_forall in Hok.
  apply (fuel_fmap (λ b m, evQ m b x)); [intros b; apply evQ_grows|]. intros b Hb. destruct (Hc b Hb) as (a & Ha & Hab).
  apply (Hab x Hx). by apply Hok.
Qed.

Lemma branch_kept k w : classify k = KOpaque true → kw Q q k = Some w → ∃ v, kw P p k = Some v ∧ evP n v x = evQ n w x.
Proof.
  intros Hc Hw. destruct (next_holds k _ w Hc Hw) as (Hg & Hk & Hu). destruct (opaque_related _ w _ Hg Hk) as (v & S & Hv & HS & Hr).
  exists v. split; [by apply kw_Some|]. apply (same_verdict S HS); [done|apply Hx].
Qed.

Lemma if_sound : on Q q "if" (ok_if Q (evQ n) q x) = Some true.
Proof.
  apply on_true. intros w Hw. destruct (branch_kept "if" w eq_refl Hw) as (v & Hv & He).
  assert (ok_if P (evP n) p x v = Some true) as Hok
    by (apply kw_Some in Hv as [Hu Hv]; eapply (prev_applied "if"); [in_list|done|done]).
  unfold ok_if in *. rewrite He in Hok. destruct (evQ n w x) as [b|]; [|done]. simpl in *. apply on_true. intros t Ht.
  rewrite on_true in Hok. destruct (branch_kept (if b then "then" else "else")%string t) as (s' & Hs & <-); [by destruct b|done|].
  by apply Hok.
Qed.

Lemma applicators_sound : ∃ m, Forall (λ v, v = Some true) (applicators rx Q (evQ m) q x).
Proof.
  pose proof (proj1 Hx) as Dx.
  apply (fuel_list (λ m, applicators rx Q (evQ m) q x) 15); [|done|].
  { intros a b Hle. apply applicators_mono. intros s y. by apply evQ_grows. }
  intros i Hi. destruct i as [|[|[|[|[|[|[|[|[|[|[|[|[|[|[|i]]]]]]]]]]]]]]]; [..|lia]; cbn [lookup list_lookup applicators].
  - destruct properties_sound as [m Hm]. exists m. by rewrite Hm.
  - exists n. f_equal. eapply (opaque_keeps "patternProperties"); [done|opaque|in_list|]. intros S v w HS Hr.
    by apply (ok_patterns_related rx P Q DP DQ S HS _ _ (same_verdict S HS)).
  - destruct additional_sound as [m Hm]. exists m. by rewrite Hm.
  - destruct items_sound as [m Hm]. exists m. by rewrite Hm.
  - exists n. f_equal. eapply (opaque_keeps "prefixItems"); [done|opaque|in_list|]. intros S v w HS Hr.
    by apply (ok_prefix_related P Q DP DQ S HS _ _ (same_verdict S HS)).
  - exists n. f_equal. apply contains_sound.
  - destruct anyOf_sound as [m Hm]. exists m. by rewrite Hm.
  - destruct allOf_sound as [m Hm]. exists m. by rewrite Hm.
  - exists n. f_equal. eapply (opaque_keeps "oneOf"); [done|opaque|in_list|]. intros S v w HS Hr.
    by apply (ok_branches_related P Q DP DQ S HS _ _ (same_verdict S HS)).
  - exists n. f_equal. eapply (opaque_keeps "not"); [done|opaque|in_list|]. intros S v w HS Hr.
    unfold ok_not. by rewrite (same_verdict S HS v w x Hr Dx).
  - exists n. f_equal. apply if_sound.
  - exists n. f_equal. eapply (opaque_keeps "propertyNames"); [done|opaque|in_list|]. intros S v w HS Hr.
    by apply (ok_names_related P Q S _ _ (same_verdict S HS)).
  - exists n. f_equal. eapply (opaque_keeps "dependentRequired"); [done|opaque|in_list|]. intros S v w HS Hr.
    apply (ok_dependent_related P Q DP DQ S HS); [done|done|]. intros s t. by apply (needs_names_related P Q DP DQ S HS).
  - exists n. f_equal. eapply (opaque_keeps "dependentSchemas"); [done|opaque|in_list|]. intros S v w HS Hr.
    apply (ok_dependent_related P Q DP DQ S HS); [done|done|]. intros s t Hst. by apply (same_verdict S HS).
  - exists n. f_equal. eapply (opaque_keeps "dependencies"); [done|opaque|in_list|]. intros S v w HS Hr.
    apply (ok_dependent_related P Q DP DQ S HS); [done|done|]. intros s t.
    by apply (names_or_schema_related P Q DP DQ S HS _ _ (same_verdict S HS)).
Qed.
End node.
End sound.
