(* ===== verification/SchemaCheck.v ===== *)
(** * The compatibility check is sound

    The whole of [check] in [internal/platform/schema/compatibility.go]:
    reference chains, the memo tables and the coinductive assumptions.
    [runs m Φ] says what one comparison guarantees: the tables stay right,
    every assumption it logs is about a pair still on the stack, and when
    it succeeds [Φ n] follows from the assumed pairs at [n] applications.
    A pair's own assumption is discharged by induction on [n]. *)

From S2P Require Import Prelude Decimal Keys Json SchemaValue SchemaCompat SchemaSpec SchemaEqual SchemaLockstep SchemaKeywords SchemaSound.
Open Scope Z_scope.

(** ** Subschemas that say nothing *)

Definition harmless : list string := ("$ref" :: "$schema" :: "$id" :: annotationKeywords)%string.

Lemma idle_keywords rx fmt root ev s x :
  (∀ k v, kw root s k = Some v → isin k harmless = true) → outside root s = false →
  keywords rx fmt root ev s x = Some true.
Proof.
  intros Hk Ho. assert (∀ k f, isin k harmless = false → on root s k f = Some true) as Hon.
  { intros k f Hh. apply on_true. intros v Hv. specialize (Hk k v Hv). congruence. }
  unfold keywords. rewrite Ho. apply v_all_true, Forall_app. split.
  - unfold value_keywords. repeat (apply Forall_cons; split); try (by apply Hon). constructor.
  - unfold applicators. repeat (apply Forall_cons; split); try (by apply Hon). constructor.
Qed.

Lemma not_constraining root s : constrains (unapplied root) s = false →
  (∀ k v, kw root s k = Some v → isin k harmless = true) ∧ outside root s = false.
Proof.
  intros Hc. assert (∀ k, has s k = true → unapplied root k = false → isin k ("$schema" :: "$id" :: annotationKeywords)%string = true) as Hk.
  { intros k Hh Hu. destruct (isin k ("$schema" :: "$id" :: annotationKeywords)%string) eqn:Hi; [done|exfalso].
    apply not_true_iff_false in Hc. apply Hc. apply existsb_exists. exists k. split; [|by rewrite Hi, Hu].
    apply list_elem_of_In. by apply bool_decide_eq_true in Hh. }
  split.
  - intros k v [Hu Hv]%kw_Some. apply sub_get_has in Hv. specialize (Hk k Hv Hu). apply bool_decide_eq_true in Hk.
    apply bool_decide_eq_true. unfold harmless. set_solver.
  - unfold outside. rewrite Hc, andb_false_r, orb_false_r. apply not_true_iff_false.
    intros (k & Hin%list_elem_of_In & [Hun Hu]%andb_true_iff)%existsb_exists. apply negb_true_iff in Hu.
    specialize (Hk k ltac:(by apply bool_decide_eq_true) Hu). apply bool_decide_eq_true in Hun.
    assert (forallb (λ k, negb (isin k ("$schema" :: "$id" :: annotationKeywords)%string)) unsupportedInNext = true) as Hall by (by vm_compute).
    rewrite forallb_forall in Hall. apply list_elem_of_In, Hall in Hun. by rewrite Hk in Hun.
Qed.

(** ** References *)

Section refs.
Context (rx : string → option (string → bool)) (fmt : string → json → bool) (root : json).

Abbreviation ev := (eval rx fmt root).

(** One hop: the reference and its target accept the same. *)
Lemma ref_hop v r s t n x m :
  val v = JObject m → sub_get v "$ref" = Some r → forallb (ref_sibling_ok v) (fields v).*1 = true →
  val r = JString s → resolvePointer root s = Some t → ev (S n) v x = Some true ↔ ev n t x = Some true.
Proof.
  intros Hm Hr Hs Hv Ht. simpl. unfold apply_schema. rewrite Hm, Hr. unfold follow_ref. rewrite Hv, Ht. simpl.
  destruct (ref_alone root); [done|].
  assert (keywords rx fmt root (ev n) v x = Some true) as ->; [|destruct (ev n t x) as [[]|]; done].
  assert (∀ k, has v k = true → isin k ("$ref" :: "$schema" :: annotationKeywords)%string = true ∨ k = "$id"%string ∧ isRootObject v = true) as Hk.
  { intros k Hh. rewrite forallb_forall in Hs. specialize (Hs k). unfold ref_sibling_ok in Hs.
    rewrite orb_true_iff, andb_true_iff, bool_decide_eq_true in Hs. apply Hs. apply list_elem_of_In. by apply bool_decide_eq_true in Hh. }
  apply idle_keywords.
  - intros k w [_ Hw]%kw_Some. apply sub_get_has in Hw. destruct (Hk k Hw) as [Hi| [-> _]]; [|done].
    apply bool_decide_eq_true in Hi. apply bool_decide_eq_true. unfold harmless. set_solver.
  - unfold outside. apply orb_false_iff. split.
    + apply not_true_iff_false. intros (k & Hin%list_elem_of_In & [Hun _]%andb_true_iff)%existsb_exists.
      apply bool_decide_eq_true in Hun. destruct (Hk k) as [Hi| [-> _]]; [by apply bool_decide_eq_true| |by vm_compute in Hun; set_solver].
      assert (forallb (λ k, negb (isin k ("$ref" :: "$schema" :: annotationKeywords)%string)) unsupportedInNext = true) as Hall by (by vm_compute).
      rewrite forallb_forall in Hall. apply list_elem_of_In, Hall in Hun. by rewrite Hi in Hun.
    + destruct (has v "$id") eqn:Hid; [|done]. destruct (Hk "$id"%string Hid) as [Hi|[_ ->]]; [by vm_compute in Hi|done].
Qed.

(** What [resolve] returns. *)
Definition resolved (s : sub) : Prop := (placed root s ∨ s = false_schema) ∧ sub_get s "$ref" = None.

Lemma resolve_from_sound hops seen v s :
  placed root v → resolve_from hops root seen v = Some s →
  (∀ l u n x, l ∈ seen → placed root u → mapID u = Some l → ev n u x = Some true → ∃ n', (n' < n)%nat ∧ ev n' v x = Some true) →
  resolved s ∧ (∀ n x, ev n v x = Some true → ev n s x = Some true) ∧ (∀ x, accepts rx fmt root s x → accepts rx fmt root v x).
Proof.
  revert seen v. induction hops as [|hops IH]; intros seen v Hp Hs Hseen; [done|]. cbn [resolve_from] in Hs.
  destruct (sub_get v "$ref") as [r|] eqn:Hr; [|by simplify_eq; split_and!; [split; [left|]| |]].
  pose proof Hr as (m & w0 & Hm & _)%sub_get_Some. destruct (placed_mapID root v m Hp Hm) as (l & Hid & Hat). rewrite Hid in Hs.
  change (default [] (Some l)) with l in Hs. case_bool_decide as Hin.
  { simplify_eq. split; [by split; [right|]|]. assert (∀ n x, ev n v x ≠ Some true) as Hnever.
    { intros n x. induction n as [n IHn] using lt_wf_ind. intros Hv. destruct (Hseen l v n x Hin Hp Hid Hv) as (n' & Hlt & Hv').
      by eapply IHn. }
    split; [intros n x Hv; by destruct (Hnever n x)|]. intros x [[|n] Hn]; by simpl in Hn. }
  destruct (forallb (ref_sibling_ok v) (fields v).*1) eqn:Hsib; [|done]. simpl in Hs. destruct (val r) as [| | |p| |] eqn:Hval; try done.
  destruct (resolvePointer root p) as [t|] eqn:Ht; [|done]. simpl in Hs.
  pose proof (λ n x, ref_hop v r p t n x m Hm Hr Hsib Hval Ht) as Hhop.
  destruct (IH _ t (resolvePointer_placed root p t Ht) Hs) as (Hres & Hfwd & Hbwd).
  - intros l' u n x Hl' Hu Hmu Hev. apply elem_of_union in Hl' as [->%elem_of_singleton|Hl'].
    + assert (u = v) as -> by (apply mapID_Some in Hmu as [Hmu _]; by eapply placed_inj). destruct n as [|n]; [done|].
      exists n. split; [lia|]. by apply Hhop.
    + destruct (Hseen l' u n x Hl' Hu Hmu Hev) as (n' & Hlt & Hv). destruct n' as [|n']; [done|]. exists n'. split; [lia|]. by apply Hhop.
  - split_and!; [done| |].
    + intros n x Hev. destruct n as [|n]; [done|]. apply Hhop in Hev. eapply eval_mono; [|by apply Hfwd]. lia.
    + intros x [n Hn]%Hbwd. exists (S n). by apply Hhop.
Qed.

Lemma resolve_sound v s :
  placed root v → resolve v root = Some s →
  resolved s ∧ (∀ n x, ev n v x = Some true → ev n s x = Some true) ∧ (∀ x, accepts rx fmt root s x → accepts rx fmt root v x).
Proof. intros Hp Hs. eapply resolve_from_sound; [done..|]. intros l u n x Hl. set_solver. Qed.
End refs.

(** ** Comparisons *)

Section runs.
Context (rx : string → option (string → bool)) (fmt : string → json → bool).
Context (P Q : json) (DP : distinct P = true) (DQ : distinct Q = true).
Context (Hdraft : root_draft P = root_draft Q) (HQ : integral_lengths Q = true).
Context (G : gset string).

Abbreviation carries := (carries rx fmt P Q G).

(** A pair of objects, by identity. *)
Definition pair_carries (n : nat) (k : pairKey) : Prop :=
  ∀ a b, placed P a → placed Q b → mapID a = Some k.1 → mapID b = Some k.2 → carries n a b.

Lemma pair_carries_less n m k : (n <= m)%nat → pair_carries m k → pair_carries n k.
Proof. intros Hle Hk a b Pa Pb Ia Ib. eapply carries_less; [done|]. by apply Hk. Qed.

(** A memoised success holds outright. *)
Definition memo_ok (c : checker) : Prop := gaps c ⊆ G → ∀ k n, k ∈ passed c → pair_carries n k.

Definition outcome (c c' : checker) (ok : bool) (Φ : nat → Prop) : Prop :=
  memo_ok c' ∧ inProgress c' = inProgress c ∧ gaps c ⊆ gaps c' ∧
  ∃ A, assumptions c' = assumptions c ++ A ∧ (∀ a, a ∈ A → a ∈ inProgress c) ∧
    (ok = true → gaps c' ⊆ G → ∀ n, (∀ a, a ∈ A → pair_carries n a) → Φ n).

Definition runs (m : comparison_run) (Φ : nat → Prop) : Prop :=
  ∀ c, memo_ok c → outcome c (m c).2 (m c).1 Φ.

Lemma runs_weaken m Φ Ψ : (∀ n, Φ n → Ψ n) → runs m Φ → runs m Ψ.
Proof. intros HΦ Hm c Hc. destruct (Hm c Hc) as (H1 & H2 & H3 & A & H4 & H5 & H6). split_and!; [done..|]. exists A. split_and!; auto. Qed.

Lemma runs_answer b Φ : (b = true → ∀ n, Φ n) → runs (answer b) Φ.
Proof.
  intros HΦ c Hc. split_and!; [done..|]. exists []. rewrite app_nil_r. split_and!; [done|set_solver|]. intros Hb _ n _. by apply HΦ.
Qed.

Lemma outcome_trans c c1 c2 b Φ Ψ Χ :
  outcome c c1 true Φ → outcome c1 c2 b Ψ → (b = true → ∀ n, Φ n → Ψ n → Χ n) → outcome c c2 b Χ.
Proof.
  intros (I1 & P1 & G1 & A1 & S1 & L1 & F1) (I2 & P2 & G2 & A2 & S2 & L2 & F2) HX. split_and!; [done|congruence|set_solver|].
  exists (A1 ++ A2). split_and!; [by rewrite S2, S1, app_assoc|rewrite <-P1 in *; set_solver|].
  intros Hb HG n Ha. apply HX; [done|apply F1; [done|set_solver|]|apply F2; [done..|]]; intros a Hin; apply Ha; set_solver.
Qed.

(** After a failure only the tables matter. *)
Lemma outcome_after c c1 c2 b Φ Ψ : outcome c c1 false Φ → outcome c1 c2 b Ψ → outcome c c2 b Ψ.
Proof.
  intros (I1 & P1 & G1 & A1 & S1 & L1 & F1) (I2 & P2 & G2 & A2 & S2 & L2 & F2). split_and!; [done|congruence|set_solver|].
  exists (A1 ++ A2). split_and!; [by rewrite S2, S1, app_assoc|rewrite <-P1 in *; set_solver|].
  intros Hb HG n Ha. apply F2; [done..|]. intros a Hin; apply Ha; set_solver.
Qed.

Lemma runs_both a b Φ Ψ : runs a Φ → runs b Ψ → runs (both a b) (λ n, Φ n ∧ Ψ n).
Proof.
  intros Ha Hb c Hc. unfold both. specialize (Ha c Hc). destruct (a c) as [[] c1]; simpl in *.
  - eapply outcome_trans; [done|apply Hb; apply Ha|done].
  - destruct Ha as (I1 & P1 & G1 & A1 & S1 & L1 & _). split_and!; [done..|]. by exists A1.
Qed.

Lemma runs_either a b Φ Ψ : runs a Φ → runs b Ψ → runs (either a b) (λ n, Φ n ∨ Ψ n).
Proof.
  intros Ha Hb c Hc. unfold either. specialize (Ha c Hc). destruct (a c) as [[] c1]; simpl in *.
  - destruct Ha as (I1 & P1 & G1 & A1 & S1 & L1 & F1). split_and!; [done..|]. exists A1. split_and!; [done..|]. intros. left. auto.
  - eapply outcome_after; [done|]. apply (runs_weaken b Ψ); [by right|done|apply Ha].
Qed.

Lemma runs_every {A} (f : A → comparison_run) Φ l :
  (∀ x, x ∈ l → runs (f x) (Φ x)) → runs (every f l) (λ n, ∀ x, x ∈ l → Φ x n).
Proof.
  induction l as [|x l IH]; intros Hf; [apply runs_answer; set_solver|].
  apply (runs_weaken _ (λ n, Φ x n ∧ ∀ y, y ∈ l → Φ y n)); [intros n []; set_solver|].
  apply runs_both; [apply Hf; set_solver|apply IH; set_solver].
Qed.

Lemma runs_some {A} (f : A → comparison_run) Φ l :
  (∀ x, x ∈ l → runs (f x) (Φ x)) → runs (some f l) (λ n, ∃ x, x ∈ l ∧ Φ x n).
Proof.
  induction l as [|x l IH]; intros Hf; [by apply runs_answer|].
  apply (runs_weaken _ (λ n, Φ x n ∨ ∃ y, y ∈ l ∧ Φ y n)); [intros n [?|(y & ? & ?)]; set_solver|].
  apply runs_either; [apply Hf; set_solver|apply IH; set_solver].
Qed.

Lemma runs_gap name : runs (λ c, (true, note_gap name c)) (λ _, name ∈ G).
Proof.
  intros c Hc. split_and!; [|done|simpl; set_solver|].
  - intros HG k n Hk. apply Hc; [simpl in HG; set_solver|done].
  - exists []. rewrite app_nil_r. split_and!; [done|set_solver|]. simpl. set_solver.
Qed.

(** ** One node *)

Section node.
Context (chk : sub → sub → comparison_run).
Context (Hchk : ∀ a b, placed P a → placed Q b → runs (chk a b) (λ n, carries n a b)).
Context (p q : sub) (Hp : node_object P p) (Hq : node_object Q q).

Lemma runs_new_property name b :
  placed Q b → runs (checkNewProperty rx chk p name b) (λ n, new_property_holds rx fmt P Q G n p name b).
Proof.
  intros Hb. unfold checkNewProperty, new_property_holds.
  destruct (matchingPatternSchemas rx p name) as [ms|] eqn:Hms; [|by apply runs_answer].
  destruct ms as [|m ms].
  - destruct (sub_get p "additionalProperties") as [ap|] eqn:Hap.
    + destruct (node_get P p _ ap Hp Hap) as [_ Pap]. destruct (val ap) as [|[]| | | |] eqn:Hv;
        try (eapply runs_weaken; [|apply runs_gap]; intros n Hn; by exists []).
      * apply runs_answer. intros _ n. by exists [].
      * eapply runs_weaken; [|by apply Hchk]. intros n Hn. by exists [].
    + eapply runs_weaken; [|apply runs_gap]. intros n Hn. by exists [].
  - eapply runs_weaken; [|apply (runs_some _ (λ m n, carries n m b))].
    + intros n Hn. by exists (m :: ms).
    + intros m' Hm'. apply Hchk; [|done]. destruct (matching_spec rx p name _ Hms) as [Hm _].
      destruct (Hm m' Hm') as (u & r & _ & Hu & Hr & _). destruct (node_get P p _ u Hp Hu) as [_ Pu]. by eapply sub_get_placed.
Qed.

Lemma propertyMap_node root s pp :
  node_object root s → propertyMap (sub_get s "properties") = Some pp → node_object root pp.
Proof.
  intros Hs. unfold propertyMap. destruct (sub_get s "properties") as [u|] eqn:Hu; simpl; [|intros [= <-]; by right].
  destruct (node_get root s _ u Hs Hu) as [_ Pu]. destruct (val u); try done; intros [= <-]; [by right|by left].
Qed.

Lemma runs_properties : runs (checkProperties rx chk p q) (λ n, properties_hold rx fmt P Q G n p q).
Proof.
  unfold checkProperties, properties_hold.
  destruct (propertyMap (sub_get p "properties")) as [pp|] eqn:Hpp; [|by apply runs_answer].
  destruct (propertyMap (sub_get q "properties")) as [np|] eqn:Hnp; [|by apply runs_answer].
  pose proof (propertyMap_node P p pp Hp Hpp) as Npp. pose proof (propertyMap_node Q q np Hq Hnp) as Nnp.
  eapply runs_weaken; [|apply (runs_every _ (λ name n, match sub_get pp name, sub_get np name with
    | Some a, Some b => carries n a b | Some _, None => False | None, Some b => new_property_holds rx fmt P Q G n p name b
    | None, None => True end))].
  - intros n Hall. exists pp, np. split_and!; [done..| |].
    + intros name a Ha. specialize (Hall name). rewrite Ha in Hall.
      destruct (sub_get np name) as [b|]; [exists b; split; [done|]; apply Hall|exfalso; apply Hall];
        unfold sort_names; rewrite merge_sort_Permutation; apply sub_get_has in Ha; apply bool_decide_eq_true in Ha; set_solver.
    + intros name b Hb Ha. specialize (Hall name). rewrite Ha, Hb in Hall. apply Hall.
      unfold sort_names. rewrite merge_sort_Permutation. apply elem_of_app. right. apply list_elem_of_filter. split.
      * destruct (has pp name) eqn:Hh; [|done]. apply has_sub_get in Hh as [? ?]. congruence.
      * apply sub_get_has in Hb. by apply bool_decide_eq_true in Hb.
  - intros name _. destruct (sub_get pp name) as [a|] eqn:Ha, (sub_get np name) as [b|] eqn:Hb.
    + apply Hchk; [by apply (node_get P pp name a Npp Ha)|by apply (node_get Q np name b Nnp Hb)].
    + by apply runs_answer.
    + apply runs_new_property. by apply (node_get Q np name b Nnp Hb).
    + by apply runs_answer.
Qed.

Lemma runs_additional k :
  runs (checkAdditionalProperties chk (sub_get p k) (sub_get q k)) (λ n, additional_holds rx fmt P Q G n (sub_get p k) (sub_get q k)).
Proof.
  unfold checkAdditionalProperties, additional_holds. destruct (sub_get q k) as [w|] eqn:Hw; [|by apply runs_answer].
  destruct (node_get Q q k w Hq Hw) as [_ Pw]. destruct (val w) as [|[]| | | |m] eqn:Hv; try (by apply runs_answer).
  - apply runs_answer. intros _ n w' [= <-]. by left.
  - apply runs_answer. intros Hf n w' [= <-]. right. left. by split; [left|].
  - destruct (sub_get p k) as [v|] eqn:Hv'; [|by apply runs_answer]. destruct (node_get P p k v Hp Hv') as [_ Pv].
    destruct (val v) as [|[]| | | |] eqn:Hval; try (by apply runs_answer).
    + apply runs_answer. intros _ n w' [= <-]. right. left. split; [right; by eauto|]. simpl. by rewrite Hval.
    + eapply runs_weaken; [|by apply Hchk]. intros n Hc w' [= <-]. right. right. exists v. eauto.
Qed.

Lemma runs_items k : runs (checkItems chk (sub_get p k) (sub_get q k)) (λ n, items_hold rx fmt P Q G n (sub_get p k) (sub_get q k)).
Proof.
  unfold checkItems, items_hold. destruct (sub_get q k) as [w|] eqn:Hw; [|by apply runs_answer].
  destruct (sub_get p k) as [v|] eqn:Hv; [|by apply runs_answer].
  destruct (is_tuple w) eqn:Tw; [by apply runs_answer|]. destruct (is_tuple v) eqn:Tv; [by apply runs_answer|]. simpl.
  eapply runs_weaken; [|apply Hchk; [by apply (node_get P p k v Hp Hv)|by apply (node_get Q q k w Hq Hw)]].
  intros n Hc w' [= <-]. eauto.
Qed.

Lemma branch_placed root s b : placed root s → b ∈ elements_of s → placed root b.
Proof. intros Hs [i Hi]%list_elem_of_lookup. by eapply element_placed. Qed.

Lemma branches_Some v l : branches v = Some l → l = elements_of v ∧ ∃ a, val v = JArray a.
Proof. unfold branches. destruct (val v) as [| | | |a|] eqn:Hv; try done. intros [= <-]. eauto. Qed.

Lemma runs_anyOf k : runs (checkAnyOf chk (sub_get p k) (sub_get q k)) (λ n, any_holds rx fmt P Q G n (sub_get p k) (sub_get q k)).
Proof.
  unfold checkAnyOf, any_holds. destruct (sub_get q k) as [w|] eqn:Hw; [|by apply runs_answer].
  destruct (sub_get p k) as [v|] eqn:Hv; [|by apply runs_answer].
  destruct (branches w) as [lw|] eqn:Bw; [|by apply runs_answer]. destruct (branches v) as [lv|] eqn:Bv; [|by apply runs_answer].
  apply branches_Some in Bw as (-> & aw & Aw). apply branches_Some in Bv as (-> & av & Av).
  destruct (node_get P p k v Hp Hv) as [_ Pv]. destruct (node_get Q q k w Hq Hw) as [_ Pw].
  eapply runs_weaken; [|apply (runs_every _ (λ a n, ∃ b, b ∈ elements_of w ∧ carries n a b))].
  - intros n Hall w' [= <-]. by exists v, av, aw.
  - intros a Ha. apply runs_some. intros b Hb. apply Hchk; by eapply branch_placed.
Qed.

Lemma runs_allOf k : runs (checkAllOf chk (sub_get p k) (sub_get q k)) (λ n, all_hold rx fmt P Q G n (sub_get p k) (sub_get q k)).
Proof.
  unfold checkAllOf, all_hold. destruct (sub_get q k) as [w|] eqn:Hw; [|by apply runs_answer].
  destruct (sub_get p k) as [v|] eqn:Hv; [|by apply runs_answer].
  destruct (branches w) as [lw|] eqn:Bw; [|by apply runs_answer]. destruct (branches v) as [lv|] eqn:Bv; [|by apply runs_answer].
  apply branches_Some in Bw as (-> & aw & Aw). apply branches_Some in Bv as (-> & av & Av).
  destruct (node_get P p k v Hp Hv) as [_ Pv]. destruct (node_get Q q k w Hq Hw) as [_ Pw].
  eapply runs_weaken; [|apply (runs_every _ (λ b n, ∃ a, a ∈ elements_of v ∧ carries n a b))].
  - intros n Hall w' [= <-]. by exists v, av, aw.
  - intros b Hb. apply (runs_some (λ a, chk a b) (λ a n, carries n a b)). intros a Ha. apply Hchk; by eapply branch_placed.
Qed.

Lemma runs_keyword k :
  runs (checkKeyword rx P Q (unapplied P) chk p q k) (λ n, unapplied Q k = false → keyword_holds rx fmt P Q G n p q k).
Proof.
  unfold checkKeyword. rewrite (unapplied_same P Q Hdraft). destruct (unapplied Q k) eqn:Hu; [by apply runs_answer|].
  unfold keyword_holds, holds_as. destruct (classify k); try (apply runs_answer; done);
    try (eapply runs_weaken; [intros n Hn _; exact Hn|]).
  - apply runs_answer. intros [_ Hr]%andb_true_iff n. done.
  - apply runs_properties.
  - apply runs_additional.
  - apply runs_items.
  - apply runs_anyOf.
  - apply runs_allOf.
Qed.
End node.

(** ** The node as a whole *)

Lemma schemaObject_some root s o :
  resolved root s → schemaObject s = Some (Some o) →
  node_object root o ∧ (∃ m, val o = JObject m) ∧ sub_get o "$ref" = None ∧
  (s = o ∧ placed root s ∨ val s = JBool true ∧ o = Sub None (JObject [])).
Proof.
  intros [Hs Hr] Ho. unfold schemaObject in Ho. destruct (val s) as [|[]| | | |m] eqn:Hv; try done; injection Ho as <-.
  - split_and!; [by right|by eauto|done|by right].
  - destruct Hs as [Hs| ->]; [|done]. split_and!; [by left|by eauto|done|by left].
Qed.

(** Accepting is satisfying every keyword. *)
Lemma eval_keywords root s o n x :
  resolved root s → schemaObject s = Some (Some o) → eval rx fmt root (S n) s x = Some true →
  keywords rx fmt root (eval rx fmt root n) o x = Some true.
Proof.
  intros Hr Ho He. destruct (schemaObject_some root s o Hr Ho) as (_ & (m & Hm) & Hn & [[-> _]|[Hv ->]]).
  - simpl in He. unfold apply_schema in He. by rewrite Hm, Hn in He.
  - apply idle_keywords; [|done]. intros k v Hv'. by apply kw_Some in Hv' as [_ ?].
Qed.

Lemma accepts_keywords root s o x :
  resolved root s → schemaObject s = Some (Some o) →
  (s = o → ∃ n, keywords rx fmt root (eval rx fmt root n) o x = Some true) → accepts rx fmt root s x.
Proof.
  intros Hr Ho Hk. destruct (schemaObject_some root s o Hr Ho) as (_ & (m & Hm) & Hn & [[-> _]|[Hv ->]]).
  - destruct (Hk eq_refl) as [n Hn']. exists (S n). simpl. unfold apply_schema. by rewrite Hm, Hn.
  - exists 1%nat. simpl. unfold apply_schema. by rewrite Hv.
Qed.

Lemma in_node_keys p q k : has p k = true ∨ has q k = true → k ∈ node_keys p q.
Proof.
  intros Hh. unfold node_keys, sort_names. rewrite merge_sort_Permutation, elem_of_app, list_elem_of_filter.
  destruct (has p k) eqn:Hpk; [left; by apply bool_decide_eq_true in Hpk|right]. destruct Hh as [|Hqk]; [done|].
  split; [done|]. by apply bool_decide_eq_true in Hqk.
Qed.

(** A keyword outside the vocabulary: identical nodes, so the previous
    one gives no verdict either. *)
Lemma unsupported_vacuous p q n x :
  node_object P p → (∃ m, val p = JObject m) → (∃ m, val q = JObject m) →
  existsb (λ k, isin k unsupportedInNext && negb (unapplied P k)) (fields q).*1 = true → equalResolved P Q p q = true →
  keywords rx fmt P (eval rx fmt P n) p x ≠ Some true.
Proof.
  intros Hp [m Hm] [m' Hm'] Hex He. pose proof (node_distinct P p DP Hp) as Dp. rewrite Hm in Dp.
  apply distinct_object in Dp as [Np _]. pose proof (equalResolved_keys P Q p q m m' Hm Hm' Np He) as Hk.
  unfold keywords. assert (outside P p = true) as ->; [|done]. unfold outside. apply orb_true_iff. left.
  unfold fields in *. rewrite Hm' in Hex. rewrite Hm. by rewrite (existsb_perm _ _ _ Hk).
Qed.

Lemma keywords_parts root ev s x :
  keywords rx fmt root ev s x = Some true ↔
  outside root s = false ∧ Forall (λ v, v = Some true) (value_keywords rx fmt root s x) ∧
  Forall (λ v, v = Some true) (applicators rx root ev s x).
Proof. unfold keywords. destruct (outside root s); [naive_solver|]. rewrite v_all_true, Forall_app. naive_solver. Qed.

(** The keyword-by-keyword walk. *)
Lemma walk_carries n p q a b :
  resolved P a → resolved Q b → schemaObject a = Some (Some p) → schemaObject b = Some (Some q) →
  existsb (λ k, isin k unsupportedInNext && negb (unapplied P k)) (fields q).*1 = false →
  checkNumericBounds p q = true → checkEnumConst (unapplied P "const") p q = true →
  (∀ k, k ∈ node_keys p q → unapplied Q k = false → keyword_holds rx fmt P Q G n p q k) →
  carries (S n) a b.
Proof.
  intros Ra Rb Ha Hb Hun HB HE HK x Hx Hev. pose proof (eval_keywords P a p n x Ra Ha Hev) as Hkw.
  apply keywords_parts in Hkw as (_ & HV & HA). destruct (schemaObject_some P a p Ra Ha) as (Np & _).
  apply (accepts_keywords Q b q x Rb Hb). intros ->.
  destruct (schemaObject_some Q q q Rb Hb) as (_ & (mq & Hmq) & _ & [[_ Pq]|[Hv _]]); [|by rewrite Hmq in Hv].
  assert (∀ k, unapplied Q k = false → has p k = true ∨ has q k = true → keyword_holds rx fmt P Q G n p q k) as HK'
    by (intros k Hu Hh; apply HK; [by apply in_node_keys|done]).
  destruct (applicators_sound rx fmt P Q DP DQ Hdraft HQ G n p q x) as [m Hm]; [done..|].
  exists m. apply keywords_parts. split_and!; [|by eapply (value_keywords_sound rx fmt P Q DP DQ Hdraft HQ G n p q x)|done].
  unfold outside. apply orb_false_iff. split.
  - rewrite <-Hun. apply existsb_fun. intros k. by rewrite (unapplied_same P Q Hdraft).
  - destruct (has q "$id") eqn:Hid; [|done].
    pose proof (HK' "$id"%string (always_applied Q "$id" eq_refl) (or_intror Hid)) as Hroot.
    unfold keyword_holds in Hroot. change (classify "$id") with KId in Hroot. simpl in Hroot. by rewrite Hroot.
Qed.

Lemma runs_node chk nested a b :
  (∀ a b, placed P a → placed Q b → runs (chk a b) (λ n, carries n a b)) →
  resolved P a → resolved Q b → runs (checkNode rx P Q (unapplied P) chk nested a b) (λ n, carries (S n) a b).
Proof.
  intros Hchk Ra Rb. unfold checkNode. destruct (schemaObject a) as [[p|]|] eqn:Ha.
  2: { apply runs_answer. intros _ n x _ He. unfold schemaObject in Ha. destruct (val a) as [|[]| | | |] eqn:Hv; try done.
       simpl in He. unfold apply_schema in He. by rewrite Hv in He. }
  2: { destruct (schemaObject b) as [[]|]; by apply runs_answer. }
  destruct (schemaObject b) as [[q|]|] eqn:Hb; [|by apply runs_answer..].
  destruct (schemaObject_some P a p Ra Ha) as (Np & Op & _). destruct (schemaObject_some Q b q Rb Hb) as (Nq & Oq & _).
  destruct (existsb _ (fields q).*1) eqn:Hun.
  { apply runs_answer. intros He n x _ Hev. pose proof (eval_keywords P a p n x Ra Ha Hev) as Hkw.
    by apply (unsupported_vacuous p q n x) in Hkw. }
  destruct (nested && negb (constrains (unapplied P) q)) eqn:Hidle.
  { apply runs_answer. intros _ n x _ _. apply andb_true_iff in Hidle as [_ Hc%negb_true_iff].
    assert (constrains (unapplied Q) q = false) as Hc'.
    { rewrite <-Hc. unfold constrains. apply existsb_fun. intros k. by rewrite (unapplied_same P Q Hdraft). }
    apply not_constraining in Hc' as [H1 H2]. apply (accepts_keywords Q b q x Rb Hb). intros _. exists 0%nat. by apply idle_keywords. }
  destruct (checkNumericBounds p q) eqn:HB; [|by apply runs_answer]. simpl.
  destruct (checkEnumConst _ p q) eqn:HE; [|by apply runs_answer]. simpl.
  eapply runs_weaken; [|apply (runs_every _ (λ k n, unapplied Q k = false → keyword_holds rx fmt P Q G n p q k))].
  - intros n HK. by apply (walk_carries n p q).
  - intros k _. by apply runs_keyword.
Qed.

(** ** [check] *)

Lemma resolved_mapID root s l : resolved root s → mapID s = Some l → placed root s.
Proof. intros [[Hp| ->] _] Hl; [done|]. by apply mapID_Some in Hl as [? _]. Qed.

(** Discharging a pair's own assumption. *)
Lemma discharge a b (key : pairKey) (A : list pairKey) :
  placed P a → placed Q b → mapID a = Some key.1 → mapID b = Some key.2 →
  (∀ n, (∀ k, k ∈ A → pair_carries n k) → carries (S n) a b) →
  ∀ n, (∀ k, k ∈ others key A → pair_carries n k) → carries n a b.
Proof.
  intros Pa Pb Ia Ib Hstep n. induction n as [|n IH]; intros HA; [by intros x _ ?|].
  apply Hstep. intros k Hk. destruct (decide (k = key)) as [->|Hne].
  - intros a' b' Pa' Pb' [Ia' _]%mapID_Some [Ib' _]%mapID_Some. apply mapID_Some in Ia as [Ia _]. apply mapID_Some in Ib as [Ib _].
    rewrite (placed_inj P a' a key.1), (placed_inj Q b' b key.2) by done. apply IH. intros k' Hk'.
    eapply pair_carries_less; [|by apply HA]. lia.
  - eapply pair_carries_less; [|apply HA, list_elem_of_filter; by split]. lia.
Qed.

(** The outcome of a comparison made inside [enter_pair]. *)
Lemma leave_pair key c ok c1 a b :
  key ∉ inProgress c → placed P a → placed Q b → mapID a = Some key.1 → mapID b = Some key.2 →
  outcome (enter_pair key c) c1 ok (λ n, carries (S n) a b) →
  outcome c (if ok then leave_passed key (length (assumptions c)) c1 else leave_failed key (length (assumptions c)) c1) ok
    (λ n, carries n a b).
Proof.
  intros Hkey Pa Pb Ia Ib (I1 & P1 & G1 & A & S1 & L1 & F1). simpl in P1, G1, S1, L1.
  assert (inProgress c1 ∖ {[key]} = inProgress c) as HP by (rewrite P1; set_solver).
  destruct ok; split_and!; try done.
  - intros HG k n Hk. simpl in HG, Hk. rewrite S1, take_app_length, drop_app_length in Hk.
    case_match eqn:Hlen; [|by apply I1]. apply elem_of_union in Hk as [->%elem_of_singleton|Hk]; [|by apply I1].
    apply Nat.eqb_eq in Hlen. rewrite length_app in Hlen.
    assert (others key A = []) as HA by (apply length_zero_iff_nil; lia).
    intros a' b' Pa' Pb' [Ia' _]%mapID_Some [Ib' _]%mapID_Some. pose proof Ia as [Ja _]%mapID_Some. pose proof Ib as [Jb _]%mapID_Some.
    rewrite (placed_inj P a' a key.1), (placed_inj Q b' b key.2) by done.
    apply (discharge a b key A Pa Pb Ia Ib (F1 eq_refl HG) n). rewrite HA. set_solver.
  - exists (others key A). simpl. rewrite S1, take_app_length, drop_app_length. split_and!; [done| |].
    + intros k [Hne Hk]%list_elem_of_filter. specialize (L1 k Hk). set_solver.
    + intros _ HG n HA. by apply (discharge a b key A Pa Pb Ia Ib (F1 eq_refl HG) n).
  - exists []. simpl. rewrite S1, take_app_length, app_nil_r. split_and!; [done|set_solver|done].
Qed.

Lemma outcome_same c c' ok Φ :
  memo_ok c → inProgress c' = inProgress c → passed c' = passed c → gaps c' = gaps c → assumptions c' = assumptions c →
  (ok = true → gaps c ⊆ G → ∀ n, Φ n) → outcome c c' ok Φ.
Proof.
  intros Hc H1 H2 H3 H4 HΦ. split_and!; [|done|by rewrite H3|].
  - unfold memo_ok. by rewrite H2, H3.
  - exists []. rewrite H4, app_nil_r, H3. split_and!; [done|set_solver|auto].
Qed.

Lemma runs_check fuel nested a b :
  placed P a → placed Q b → runs (check rx P Q (unapplied P) fuel nested a b) (λ n, carries n a b).
Proof.
  revert nested a b. induction fuel as [|fuel IH]; intros nested a b Pa Pb c Hc; cbn [check].
  all: destruct (fatal c); [by apply outcome_same|].
  all: set (c0 := with_steps (steps c + 1) c); assert (memo_ok c0) as Hc0 by exact Hc.
  all: destruct (maxCompatSteps <? steps c0); [by apply outcome_same|].
  { by apply outcome_same. }
  destruct (resolve a P) as [a'|] eqn:Ra; [|by apply outcome_same]. destruct (resolve b Q) as [b'|] eqn:Rb; [|by apply outcome_same].
  destruct (resolve_sound rx fmt P a a' Pa Ra) as (Ra' & Hfwd & _). destruct (resolve_sound rx fmt Q b b' Pb Rb) as (Rb' & _ & Hbwd).
  assert (∀ n, carries n a' b' → carries n a b) as Hback by (intros n H x Hx He; apply Hbwd, H; [done|by apply Hfwd]).
  pose proof (runs_node (check rx P Q (unapplied P) fuel true) nested a' b' (IH true) Ra' Rb') as Hnode.
  assert (∀ n, carries (S n) a' b' → carries n a b) as Hless by (intros n Hn; apply Hback; eapply carries_less; [|exact Hn]; lia).
  pose proof (runs_weaken _ _ _ Hless Hnode c0 Hc0) as Hplain.
  destruct (mapID a') as [pid|] eqn:Ia; [destruct (mapID b') as [nid|] eqn:Ib; [|exact Hplain]|exact Hplain].
  pose proof (resolved_mapID P a' pid Ra' Ia) as Pa'. pose proof (resolved_mapID Q b' nid Rb' Ib) as Pb'.
  set (key := (pid, nid)). case_bool_decide as Hin.
  { split_and!; [exact Hc|done|done|]. exists [key]. split_and!; [done|set_solver|]. intros _ _ n Hk. apply Hback, (Hk key); [set_solver|done..]. }
  case_bool_decide as Hfail; [by apply outcome_same|]. case_bool_decide as Hpass.
  { apply outcome_same; try done. intros _ HG n. apply Hback. by apply (Hc0 HG key n Hpass a' b'). }
  specialize (Hnode (enter_pair key c0) Hc0). destruct (checkNode _ _ _ _ _ _ _ _ (enter_pair key c0)) as [ok c1] eqn:Hrun. cbn [fst snd] in Hnode.
  pose proof (leave_pair key c0 ok c1 a' b' Hin Pa' Pb' Ia Ib Hnode) as Hout.
  destruct Hout as (O1 & O2 & O3 & A & O4 & O5 & O6). destruct ok; cbn [fst snd]; split_and!; try done; exists A; split_and!; try done.
  intros Hok HG n HA. apply Hback. by apply O6.
Qed.
End runs.
