(* ===== verification/SchemaClaims.v ===== *)
(** * Compatible updates keep documents

    The claims about [checkCompatible] of
    [internal/platform/schema/compatibility.go]: an accepted update keeps
    every document the previous version accepted (outside the documented
    exception for new optional properties), what an identical keyword
    means, and two updates the check lets through although they tighten
    the schema. *)

From S2P Require Import Prelude Decimal Keys Json SchemaValue SchemaCompat SchemaSpec SchemaEqual SchemaLockstep SchemaKeywords SchemaSound SchemaCheck.
Open Scope Z_scope.

(** ** Decoded objects have distinct keys *)

Lemma obj_set_keys k v m : ∀ k', k' ∈ (obj_set k v m).*1 → k' = k ∨ k' ∈ m.*1.
Proof.
  induction m as [|[j w] m IH]; simpl; [set_solver|]. intros k'. case_decide as E; simpl; [subst; set_solver|].
  rewrite !elem_of_cons. intros [?|[?|?]%IH]; auto.
Qed.

Lemma obj_set_distinct k v m :
  distinct v = true → distinct (JObject m) = true → distinct (JObject (obj_set k v m)) = true.
Proof.
  intros Dv. rewrite !distinct_object. intros [Nm Dm]. induction m as [|[j w] m IH]; simpl in *.
  - split; [apply NoDup_singleton|]. intros k' v' E. by apply list_elem_of_singleton in E as [= -> ->].
  - apply NoDup_cons in Nm as [Hj Nm]. case_decide as E; simpl.
    + subst. split; [by apply NoDup_cons|]. intros k' v' [[= -> ->]|Hin]%elem_of_cons; [done|]. apply (Dm k'). by apply list_elem_of_further.
    + destruct IH as [N D]; [done|intros k' v' Hin; apply (Dm k'); by apply list_elem_of_further|]. split.
      * apply NoDup_cons. split; [|done]. intros [->|?]%obj_set_keys; done.
      * intros k' v' [[= -> ->]|Hin]%elem_of_cons; [apply (Dm j); apply list_elem_of_here|by eapply D].
Qed.

Definition yields_distinct (r : option (json * bytes)) : Prop := ∀ v s, r = Some (v, s) → distinct v = true.

Lemma parse_distinct fuel :
  (∀ d s, yields_distinct (parse_value fuel d s)) ∧
  (∀ d s acc, distinct (JArray acc) = true → yields_distinct (parse_elems fuel d s acc)) ∧
  (∀ d s acc, distinct (JObject acc) = true → yields_distinct (parse_members fuel d s acc)).
Proof.
  induction fuel as [|fuel (IHv & IHe & IHm)]; [by split_and!; intros; intros ? ?|]. split_and!; intros d s.
  - intros v r H. cbn [parse_value] in H. destruct (skip_space s) as [|c t]; [done|].
    destruct (byte_val c =? 34); [by destruct (parse_string _ _) as [[]|]; simplify_eq/=|].
    destruct (byte_val c =? 123).
    { destruct (maxNestingDepth <=? d); [done|]. destruct (skip_space t) as [|c' t']; [done|].
      destruct (byte_val c' =? 125); [by simplify_eq|]. by eapply IHm; [|done]. }
    destruct (byte_val c =? 91).
    { destruct (maxNestingDepth <=? d); [done|]. destruct (skip_space t) as [|c' t']; [done|].
      destruct (byte_val c' =? 93); [by simplify_eq|]. by eapply IHe; [|done]. }
    destruct (byte_val c =? 116); [by destruct (strip _ _); simplify_eq/=|].
    destruct (byte_val c =? 102); [by destruct (strip _ _); simplify_eq/=|].
    destruct (byte_val c =? 110); [by destruct (strip _ _); simplify_eq/=|].
    by destruct (parse_number _) as [[]|]; simplify_eq/=.
  - intros acc Hacc v r H. cbn [parse_elems] in H. destruct (parse_value fuel d s) as [[w t]|] eqn:E; [|done]. simpl in H.
    assert (distinct (JArray (acc ++ [w])) = true) as Hw.
    { apply distinct_array. intros u [Hu|Hu]%elem_of_app; [by eapply distinct_array|]. apply list_elem_of_singleton in Hu as ->. by eapply IHv. }
    destruct (skip_space t) as [|c t']; [done|]. destruct (byte_val c =? 44); [by eapply IHe; [exact Hw|done]|].
    destruct (byte_val c =? 93); by simplify_eq.
  - intros acc Hacc v r H. cbn [parse_members] in H. destruct (skip_space s) as [|q t]; [done|].
    destruct (byte_val q =? 34); [|done]. destruct (parse_string _ _) as [[k u]|]; [|done]. simpl in H.
    destruct (skip_space u) as [|col u']; [done|]. destruct (byte_val col =? 58); [|done].
    destruct (parse_value fuel d u') as [[w t']|] eqn:E; [|done]. simpl in H.
    assert (distinct (JObject (obj_set (text k) w acc)) = true) as Hw by (apply obj_set_distinct; [by eapply IHv|done]).
    destruct (skip_space t') as [|c t2]; [done|]. destruct (byte_val c =? 44); [by eapply IHm; [exact Hw|done]|].
    destruct (byte_val c =? 125); by simplify_eq.
Qed.

Lemma decode_distinct raw v : decodeJSONValue raw = Some v → distinct v = true.
Proof.
  unfold decodeJSONValue. destruct (parse_value _ 0 (chars raw)) as [[w s]|] eqn:E; [|done]. simpl.
  pose proof (proj1 (parse_distinct _) _ _ _ _ E) as Dw. destruct (skip_space s) as [|c t]; [by intros [= <-]|].
  destruct ((byte_val c =? 93) || (byte_val c =? 125)); by intros [= <-].
Qed.

(** ** The draft is compared at a root without [$ref] *)

Definition no_root_ref (root : json) : bool := negb (has (root_of root) "$ref").

Lemma no_root_ref_get root : no_root_ref root = true → sub_get (root_of root) "$ref" = None.
Proof.
  intros H%negb_true_iff. destruct (sub_get (root_of root) "$ref") as [r|] eqn:E; [|done]. apply sub_get_has in E. congruence.
Qed.

Lemma resolve_plain v root : sub_get v "$ref" = None → resolve v root = Some v.
Proof. intros H. unfold resolve. cbn [resolve_from]. by rewrite H. Qed.

Lemma every_true {A} (f : A → comparison_run) l c c' :
  every f l c = (true, c') → ∀ x, x ∈ l → ∃ c1 c2, f x c1 = (true, c2).
Proof.
  revert c. induction l as [|y l IH]; intros c H x Hx; [by apply not_elem_of_nil in Hx|]. cbn [every foldr] in H. unfold both in H.
  destruct (f y c) as [[] c1] eqn:E; [|done]. apply elem_of_cons in Hx as [->|Hx]; [by exists c, c1|by eapply IH].
Qed.

Lemma compatible_root rx prev next names :
  compatible rx prev next = (true, names) → no_root_ref prev = true → no_root_ref next = true →
  ∃ chk c c', checkNode rx prev next (λ k, isin k (ignoredByDraft (root_draft prev))) chk false (root_of prev) (root_of next) c = (true, c').
Proof.
  intros Hc Hp Hn. unfold compatible in Hc. set (r := check _ _ _ _ _ _ _ _ _) in Hc. destruct r as [ok c1] eqn:Hr. simpl in Hc.
  injection Hc as -> _. subst r. cbn [check] in Hr. change (fatal newChecker) with false in Hr. cbv iota in Hr.
  set (c0 := with_steps _ newChecker) in Hr. change (maxCompatSteps <? steps c0) with false in Hr. cbv iota in Hr.
  rewrite !resolve_plain in Hr by (by apply no_root_ref_get).
  set (node := checkNode _ _ _ _ _ _ _ _) in Hr.
  destruct (mapID (root_of prev)) as [pid|]; [destruct (mapID (root_of next)) as [nid|]|]; [|by eexists _, c0, c1..].
  case_bool_decide as H1; [by apply not_elem_of_empty in H1|]. case_bool_decide; [done|]. case_bool_decide as H3; [by apply not_elem_of_empty in H3|].
  destruct (node (enter_pair (pid, nid) c0)) as [[] c2] eqn:Hnode; [|done]. by eexists _, _, c2.
Qed.

(** A verdict at the root implies the drafts agree. *)
Lemma drafts_agree rx fmt prev next names x :
  distinct prev = true →
  compatible rx prev next = (true, names) → no_root_ref prev = true → no_root_ref next = true →
  accepts rx fmt prev (root_of prev) x → root_draft prev = root_draft next.
Proof.
  intros Dp Hc Hp Hn [n Hacc]. destruct (compatible_root rx prev next names Hc Hp Hn) as (chk & c & c' & Hnode).
  assert (∀ k, isin k (ignoredByDraft (root_draft prev)) = unapplied prev k) as Hign by done.
  unfold checkNode in Hnode. destruct n as [|n]; [done|].
  assert (resolved prev (root_of prev)) as Rp by (split; [left; apply root_placed|by apply no_root_ref_get]).
  assert (resolved next (root_of next)) as Rn by (split; [left; apply root_placed|by apply no_root_ref_get]).
  destruct (schemaObject (root_of prev)) as [[p|]|] eqn:Sp.
  2: { unfold schemaObject in Sp. simpl in Sp, Hacc. unfold apply_schema in Hacc. simpl in Hacc. by destruct prev as [|[]| | | |]. }
  2: { destruct (schemaObject (root_of next)) as [[]|]; done. }
  destruct (schemaObject (root_of next)) as [[q|]|] eqn:Sq; [|done..].
  destruct (schemaObject_some prev _ p Rp Sp) as (Np & Op & _ & Ep). destruct (schemaObject_some next _ q Rn Sq) as (Nq & Oq & _ & Eq).
  destruct (existsb _ (fields q).*1) eqn:Hun.
  { injection Hnode as He _. exfalso. apply (unsupported_vacuous rx fmt prev next Dp p q n x Np Op Oq); [|done|].
    - rewrite <-Hun. apply existsb_fun. intros k. by rewrite Hign.
    - by eapply eval_keywords. }
  cbn [andb] in Hnode. destruct (checkNumericBounds p q); [|done]. cbn [negb] in Hnode.
  destruct (checkEnumConst _ p q); [|done]. cbn [negb] in Hnode.
  assert (∀ root s o, s = o ∧ placed root s ∨ val s = JBool true ∧ o = Sub None (JObject []) → s = root_of root →
    root_draft root = draftOf (any (sub_get o "$schema"))) as Hd.
  { intros root s o [[<- _]|[Hv ->]] ->; [|simpl in Hv; by subst root]. unfold root_draft.
    destruct root; try done; unfold sub_get, fields; done. }
  rewrite (Hd prev _ p Ep eq_refl), (Hd next _ q Eq eq_refl).
  destruct (sub_get p "$schema") as [sp|] eqn:Hsp, (sub_get q "$schema") as [sq|] eqn:Hsq; try done.
  all: destruct (every_true _ _ _ _ Hnode "$schema"%string) as (c1 & c2 & Hk);
    [apply in_node_keys; first [left; by eapply sub_get_has | right; by eapply sub_get_has]|].
  all: unfold checkKeyword in Hk; rewrite Hign, (always_applied prev "$schema" eq_refl) in Hk.
  all: change (classify "$schema") with KSchema in Hk; cbv iota in Hk; rewrite ?Hsp, ?Hsq in Hk.
  all: injection Hk as Hk _; by apply bool_decide_eq_true in Hk.
Qed.

(** C9. An update [checkCompatible] accepts keeps every document: whatever
    the previous schema validates, the new one validates, for every document
    that carries none of the property names the open-model exception let
    through.  The names are those a run reports in [names]; a schema with
    closed models reports none.  It is a statement about schemas whose roots
    carry no [$ref], that name a draft under the name the code knows it by,
    that have no object with an identifier of its own inside, and, for the
    new one, whose lengths are integers below [2^53]; and about the
    keywords the evaluator of [SchemaSpec] gives a verdict for. *)
Theorem compatible_updates_keep_documents unmarshal rx fmt prevRaw nextRaw prev next names x :
  (∀ raw v, unmarshal raw = Some v → distinct v = true) →
  unmarshal prevRaw = Some prev → unmarshal nextRaw = Some next →
  no_root_ref prev = true → no_root_ref next = true → one_resource next = true → integral_lengths next = true →
  checkCompatible unmarshal rx prevRaw nextRaw = (true, names) →
  distinct x = true → avoids names x = true →
  validates rx fmt prev x → validates rx fmt next x.
Proof.
  intros Hu Hp Hn Rp Rn Hone Hlen Hc Dx Ax (_ & Hkn & Hacc). unfold checkCompatible in Hc. rewrite Hp, Hn in Hc.
  pose proof (Hu _ _ Hp) as DP. pose proof (Hu _ _ Hn) as DQ.
  pose proof (drafts_agree rx fmt prev next names x DP Hc Rp Rn Hacc) as Hdraft. destruct Hacc as [n Hacc].
  split; [done|]. split; [by rewrite <-Hdraft|]. unfold compatible in Hc.
  change (λ k, isin k (ignoredByDraft (root_draft prev))) with (unapplied prev) in Hc.
  generalize dependent (S maxCompatDepth). intros fuel Hc.
  destruct (check rx prev next (unapplied prev) fuel false (root_of prev) (root_of next) newChecker) as [ok c] eqn:Hr.
  cbn [fst snd] in Hc. injection Hc as -> <-.
  pose proof (runs_check rx fmt prev next DP DQ Hdraft Hlen (gaps c) fuel false (root_of prev) (root_of next)
    (root_placed prev) (root_placed next) newChecker) as Hout. rewrite Hr in Hout.
  destruct Hout as (_ & _ & _ & A & _ & HA & HF); [intros _ k m Hk; set_solver|].
  apply (HF eq_refl (reflexivity _) n); [|done|done]. intros a Ha. apply HA in Ha. set_solver.
Qed.

(** ** Concrete documents *)

(** A JSON text with its quotation marks written as apostrophes. *)
Definition doc (s : string) : string := text ((λ c, if decide (c = "'"%char) then byte_of 34 else c) <$> chars s).

Definition decoded (s : string) : json := default JNull (decodeJSONValue (doc s)).

Definition no_regexp : string → option (string → bool) := λ _, None.
Definition any_format : string → json → bool := λ _ _, true.

(** A recursive list of records: the identifier widens to a number, an
    optional tag appears under a closed model. *)
Definition list_v1 : string := doc "{'type':'object','properties':{'id':{'type':'integer','minimum':1},'next':{'$ref':'#'}},'required':['id'],'additionalProperties':false}".
Definition list_v2 : string := doc "{'type':'object','properties':{'id':{'type':'number','exclusiveMinimum':0.5},'next':{'$ref':'#'},'tag':{'type':'string'}},'additionalProperties':false}".
Definition list_document : json := decoded "{'id':1,'next':{'id':2.0,'next':{'id':3e0}}}".

Definition list_v1_json : json := Eval vm_compute in default JNull (decodeJSONValue list_v1).
Definition list_v2_json : json := Eval vm_compute in default JNull (decodeJSONValue list_v2).

Lemma compatible_updates_keep_documents_witness :
  validates no_regexp any_format list_v2_json list_document.
Proof.
  apply (compatible_updates_keep_documents decodeJSONValue no_regexp any_format list_v1 list_v2 list_v1_json list_v2_json ∅ list_document).
  - exact decode_distinct.
  - vm_compute. reflexivity.
  - vm_compute. reflexivity.
  - vm_compute. reflexivity.
  - vm_compute. reflexivity.
  - vm_compute. reflexivity.
  - vm_compute. reflexivity.
  - vm_compute. reflexivity.
  - vm_compute. reflexivity.
  - vm_compute. reflexivity.
  - split; [vm_compute; reflexivity|]. split; [vm_compute; reflexivity|]. exists 10%nat. vm_compute. reflexivity.
Defined.

(** What "identical" means for a keyword the check does not model:
    when [equalResolved] says two values of the keyword are the same, they
    give the same verdict on every document after every number of
    subschema applications, whatever their references reach. *)
Theorem identical_keyword_same_verdict rx fmt prev next p q k v w n x :
  distinct prev = true → distinct next = true → root_draft prev = root_draft next →
  placed prev p → placed next q → sub_get p k = Some v → sub_get q k = Some w →
  equalResolved prev next v w = true → distinct x = true →
  eval rx fmt prev n v x = eval rx fmt next n w x.
Proof.
  intros DP DQ Hd Pp Pq Hv Hw He Dx. pose proof (sub_get_placed prev p k v Pp Hv) as Pv. pose proof (sub_get_placed next q k w Pq Hw) as Pw.
  destruct (equalResolved_sound prev next v w Pv Pw) as (S & HS & Hs); [apply sub_get_below in Hv, Hw; by split|done|].
  by apply (lockstep rx fmt prev next S).
Qed.

(** Two spellings of one recursive [not]. *)
Definition not_v1 : json := Eval vm_compute in decoded "{'not':{'$ref':'#/$defs/t'},'$defs':{'t':{'items':{'$ref':'#/$defs/t'},'const':1}}}".
Definition not_v2 : json := Eval vm_compute in decoded "{'$defs':{'t':{'const':1.0,'items':{'$ref':'#/$defs/t'}}},'title':'t','not':{'$ref':'#/$defs/t'}}".

Lemma identical_keyword_same_verdict_witness :
  let v := key_child (root_of not_v1) "not" (JObject [("$ref", JString "#/$defs/t")]%string) in
  let w := key_child (root_of not_v2) "not" (JObject [("$ref", JString "#/$defs/t")]%string) in
  eval no_regexp any_format not_v1 5 v (JNumber "1") = eval no_regexp any_format not_v2 5 w (JNumber "1").
Proof.
  intros v w. apply (identical_keyword_same_verdict no_regexp any_format not_v1 not_v2 (root_of not_v1) (root_of not_v2) "not" v w 5 (JNumber "1")).
  - vm_compute. reflexivity.
  - vm_compute. reflexivity.
  - vm_compute. reflexivity.
  - apply root_placed.
  - apply root_placed.
  - vm_compute. reflexivity.
  - vm_compute. reflexivity.
  - vm_compute. reflexivity.
  - vm_compute. reflexivity.
Defined.

(** ** Updates that tighten and pass *)

Definition rejects (rx : string → option (string → bool)) (fmt : string → json → bool) (root x : json) : Prop :=
  ∃ n, eval rx fmt root n (root_of root) x = Some false.

Definition behind_ref_v1 : json := Eval vm_compute in decoded "{'$schema':'http://json-schema.org/draft-04/schema#','$ref':'#/definitions/a','definitions':{'a':{'const':1}}}".
Definition behind_ref_v2 : json := Eval vm_compute in decoded "{'$schema':'https://json-schema.org/draft/2020-12/schema','$ref':'#/definitions/a','definitions':{'a':{'const':1}}}".

(** A draft change beside a root [$ref] passes the check: the
    reference is resolved before [$schema] is looked at, and the keywords
    the previous draft ignored ([const] in draft-04) become constraints.
    The update is accepted with no exception reported, and a document the
    previous version accepted is rejected by the new one. *)
Theorem draft_change_behind_ref_passes :
  compatible no_regexp behind_ref_v1 behind_ref_v2 = (true, ∅) ∧
  root_draft behind_ref_v1 ≠ root_draft behind_ref_v2 ∧
  accepts no_regexp any_format behind_ref_v1 (root_of behind_ref_v1) (JNumber "2") ∧
  rejects no_regexp any_format behind_ref_v2 (JNumber "2").
Proof.
  split_and!; [vm_compute; reflexivity|vm_compute; discriminate|exists 5%nat; vm_compute; reflexivity|exists 5%nat; vm_compute; reflexivity].
Qed.
